(* ===== verification/_CoqProject ===== *)
-Q . S2P
Prelude.v
Iter.v
Str.v
Environment.v
Interpolate.v
InterpolateFacts.v
Version.v
Range.v
Component.v
Coordinates.v
Snapshot.v
Layout.v
Digest.v
Par.v
Dependency.v
DepManagement.v
Keys.v
Queue.v
Management.v
Relocation.v
Mediation.v
Load.v
Graph.v
ConflictOrder.v
Scopes.v
Walk.v
WalkInv.v
WalkOps.v
Solve.v
SolveInv.v
SolveFacts.v
SolveDemo.v
Retry.v
PathUtils.v
LockText.v
Ambient.v
LockRows.v
LockMerge.v
LockLines.v
Addr.v
IpText.v
Url.v
Redact.v
Proxy.v
RedactFacts.v
ProxyFacts.v
Guard.v
Screen.v
ScreenDemo.v
Security.v
Repository.v
Routing.v
Policy.v
RepoDemo.v
IndexMap.v
ArtifactVersion.v
Pom.v
Merge.v
Activation.v
Relevance.v
RelevanceFacts.v
RelevanceSafe.v
Lineage.v
LineageFacts.v
LineageDemo.v
Purl.v
Http.v
Osv.v
OsvFacts.v
LockInputs.v
LockOrigin.v
LockCheck.v
LockCodec.v
LockCheckFacts.v
LockDrift.v
LockOrder.v
LockCodecFacts.v
