(* ===== verification/Prelude.v ===== *)
(** * Raeva: a verification development of the Maven resolver

    Raeva resolves the dependencies of Maven projects and records them in a lock
    file.  This library models the parts of it that decide what is resolved and
    what is written down, what it connects to and which credentials it sends, and proves
    the properties the rest of the program relies on.  Every definition of the code is executable and follows a Rust function, or a
    loop or closure of one, under its name where it can; a doc comment says what is not taken over.

    ** Parts of the program and the files that model them

    - [rv-maven-types], the vocabulary of every other crate:
      [Version.v] ([version.rs]: parsing, comparing, hashing and sorting versions),
      [Range.v] ([range.rs]: version requirements), [Component.v] ([component.rs],
      [text.rs]: which coordinate texts are accepted, how untrusted text is shown),
      [Coordinates.v] ([coord.rs], [id.rs]), [Snapshot.v] ([snapshot.rs]),
      [Layout.v] ([layout.rs]: repository paths), [Digest.v] ([digest.rs]) and
      [Par.v] ([par.rs]: the parallel map, as a step relation over all
      interleavings of its workers).
    - [rv-maven-model], the project model: [Dependency.v] ([scope.rs],
      [dependency.rs]), [DepManagement.v] ([project/dep_management.rs]),
      [Environment.v] (the host environment of [environment.rs], the platform names of
      [activation.rs] and [properties.rs]) and [Interpolate.v] ([properties.rs]:
      property maps and the expansion of references), with its theorems in
      [InterpolateFacts.v]; [Pom.v] (the data of [pom.rs], [profile.rs], [repository.rs]
      and [provenance.rs]), [Merge.v] (the merge of lists and the injection of profiles,
      of [inheritance.rs]), [Activation.v] ([activation.rs] and
      the snapshot of [environment.rs]), [ArtifactVersion.v] ([artifact_version.rs]) and
      [Relevance.v] with [RelevanceFacts.v] and [RelevanceSafe.v] ([relevance.rs]: the
      profiles that can change a resolution),
      [Lineage.v] with [LineageFacts.v] ([inheritance.rs]: the walk of the parents, its
      checks and the merged model).  [LineageDemo.v] holds a small lineage and the
      witnesses.
    - [rv-resolver], the solver: [Keys.v] (mediation keys and scope derivation of
      [graph.rs], version words of [util.rs]), [Mediation.v] (requests, candidates and
      the choice of a winner, of [solver/mod.rs]), [Queue.v]
      ([solver/queue.rs]: exclusions, paths, the shared tree orders and the bounded
      queue), [Management.v] ([solver/management.rs]), [Relocation.v]
      ([solver/relocation.rs], with the errors of [error.rs] it raises and the
      interface [Backend] of [solver/mod.rs]), [Load.v] (from a queued declaration to
      its candidates), [Graph.v] and [ConflictOrder.v]
      ([graph.rs]: the graph over [petgraph] and the order of its conflict groups),
      [Scopes.v] (the scope selection), [Walk.v] and [Solve.v] (the state of
      [solver/mod.rs], every operation on it, and the loops of the solver).
      [WalkInv.v] has the invariant of the state, [WalkOps.v] that every operation keeps
      it, [SolveInv.v] the same of what is loaded, [SolveFacts.v] the turns of the loops
      and what follows for a resolution, [SolveDemo.v] a concrete backend and the
      witnesses.
    - [rv-http]: [Retry.v] ([retry.rs], the retry loop) and [Http.v] ([body.rs],
      [headers.rs] and [transient.rs]).
    - [rv-vuln]: [Osv.v] ([osv.rs], [scanner.rs] and [types.rs]) with [OsvFacts.v]; the
      package URLs it asks for are in [Purl.v] ([rv-maven-types/src/purl.rs]).
    - [rv-fs]: [PathUtils.v] (the lexical part of [path_utils.rs]).
    - [rv-lock]: [LockText.v] ([scope.rs], [platform.rs], [system.rs],
      [split_parse.rs]), [Ambient.v] ([ambient.rs]: the host values a lock depends on),
      [LockRows.v] (the records of [lock.rs] and their canonical form),
      [LockMerge.v] ([merge.rs] and the pin checks of [lock.rs]), [LockLines.v] (the lines
      of [codec.rs]), [LockCodec.v] with [LockCodecFacts.v] (its tables, and that a lock
      reads back as it was written), [LockInputs.v] ([inputs.rs]: the hashes of what was resolved from),
      [LockOrigin.v] ([lock_origin.rs]), [LockCheck.v] with [LockCheckFacts.v] (the
      checks of [lock.rs]) and [LockDrift.v] with [LockOrder.v]
      ([drift.rs]: the comparison of a lock with a fresh resolution).
    - [rv-config] and [rv-repo], the configuration and the access to repositories:
      [Addr.v] and [IpText.v] (the address screen of [transport/guard.rs] and how
      addresses are written), [Url.v] (the [url] crate as a class of accessors with
      laws, and a small instance), [Redact.v] with [RedactFacts.v] ([redact.rs]: how
      URLs are shown and where secret values occur), [Proxy.v] with [ProxyFacts.v]
      ([proxy.rs], [proxy_env.rs]), [Guard.v] ([transport/]: the
      redirect guard, the resolver, the clients and the grants), [Screen.v] (what a
      client of the HTTP library connects to, under interleaved grants), [Security.v]
      (the security policy of [config.rs]), [Repository.v]
      ([repository.rs]: policies and the URLs of paths), [Routing.v]
      ([mirror.rs], [auth.rs], [routing.rs]) and [Policy.v]
      ([policy.rs]: which declared repositories are admitted, and what they may do).
      [ScreenDemo.v] and [RepoDemo.v] hold concrete configurations and the witnesses.

    [Prelude.v] (this file) holds text, results, the error monad and its tactics,
    comparisons and the shared lemmas; [Str.v] models the [str] methods the sources
    use, with the decoding of UTF-8 and the search for a text, [Iter.v] the
    iterator methods, loops that run within a budget and sorting by a comparison, and
    [IndexMap.v] maps that keep the order of their keys.

    ** How the code is modelled

    A [str] is the list of its bytes; characters are code points decoded from it.
    [Result] is [result E A] and the question mark operator its bind.  An enum is an
    inductive type, a struct a record, a hash map a [gmap].  The shared, reference
    counted lists of the solver ([PathNode], [TreeOrder]) keep what the code can
    observe of sharing: a [TreeOrder] node carries its address, because the
    comparison stops at a shared node.  The parallel map is a transition system;
    the retry loop consumes the list of everything a request can meet; relocation
    threads the cache as state.  The walk of the solver is a state record; code that
    can fail with what it did kept is a function from a state to a result and a
    state; shared nodes carry the counter of their allocation where the code compares
    addresses.  Machine integers are bounded naturals whose
    saturation is written out where the code saturates (durations, attempts).

    Code outside the repository is a parameter: the Unicode case tables
    ([Unicode] in [Str.v], with an ASCII instance), the hash functions
    ([Hashers], with their streaming law), the repository access ([Backend] and
    [SolverBackend]), the graph library ([PetGraph], with the laws of its
    documentation in [PetGraphLaws]), the [url] crate ([UrlCrate] and [UrlLaws]) and the
    HTTP library ([HttpStack] and [HttpLaws]: it asks the redirect policy and
    the resolver it was given).  Three parts of the program are interfaces of the parts
    that call them: the Java regular expressions ([JavaRegex]), where parents come from
    ([ModelSource], whose calls may change its state), and the interpolation of
    activations ([LineageProfiles]).
    Theorems that assume something of a parameter have a witness at an instance.

    ** What the theorems show

    - Versions: equality agrees with hashing; the comparison is the lexicographic
      order of padded items and is transitive among versions that start alike (it is
      not in general, as in Maven); the merge sort returns a permutation in which no
      neighbours are out of order, whatever the order does, and is stable.
    - Requirements, coordinates, snapshots, digests and lock texts: parsing and
      printing round trip, so no two values share a text; a range is an interval; a
      pin admits one version.
    - Safety of text: an accepted component, path or system path stays where it is
      put; a message never steers the terminal and is bounded; the repository path
      determines the coordinate.
    - Solver: mediation picks the nearest version that every hard constraint accepts,
      and the shortcut behind a settled winner agrees with it where the versions of the
      group start alike; the managed index
      refines the search through the entries; management fills in unset fields only;
      scopes narrow down a path; the queue is bounded and pops breadth first in
      document order; relocation terminates for every backend,
      and the chain it reports consists of the relocations of the backend, without
      repeats and within the limit.
    - Resolution: in every state a resolution reaches, the merged groups form a forest,
      each selection has one node and edges lead to selections only; so the graph
      that is returned has one node per artifact.  A group that is not marked dirty has
      a winner that all of its constraints accept, at the node that has the winner's
      coordinate (with the build of a snapshot, where one is resolved); so a resolution that returns a graph satisfies every constraint it
      mediated.  Reading a declaration ends
      whatever the backend answers.  The graph operations refine sets of edges; the
      conflict order lists every node once with the targets, degrees and cycles of the
      graph; the
      selected scopes solve Maven's equations where the graph has no cycle, and the
      selection ends on every graph.
    - Interpolation: the expansion, which keeps values for reuse, equals a stateless
      reference definition within its limits and reports a cycle only where there is
      no value, where no property has the full name of a build field or prerequisite
      of the model ([names_apart]); it reads no variable that is not allowed.
    - Inheritance: a model is built only from parents that the source returned and that
      are of the reactor or declare the coordinates asked for, at most 100 and none
      twice; in the merged model the nearest definition wins, part by part, and a
      repository whose URL a fetched POM chose loses the trust of the project.
      Injecting profiles in one pass gives what injecting them one by one gives.  The
      host values a selection of profiles records decide it, with the tests recorded as
      lookups only taken to answer alike ([lookups_alike]).
    - Relevance: the names a resolution may read are the least set closed under every
      definition of the lineage; a conditional profile that is not relevant changes nothing that is
      read, apart from a managed entry that replaces the import of a BOM
      ([LineageDemo.profile_replaces_import]).
    - Lock: the pin checks accept exactly the locks whose pins agree, and a platform
      carried over from the previous lock never breaks them.  The checks of a platform
      accept exactly the well-formed graphs.  The order in which a resolution finds
      things is no drift, and where there is no drift the lock pins the files the fresh
      resolution found.  The text that the hash of the configuration is of determines every
      input it covers and is determined by them.  Origins made relative to the project
      pass the check for them.  A lock that is written reads back exactly when it
      satisfies the tests that only the reader makes ([lock_readable]), and host inputs
      and the lines of a module read back.
    - Requests: whatever grants and requests run meanwhile, a request and its redirects
      connect directly only to globally routable addresses, to configured origins, or to
      the exempt origin that was asked for; a trusted repository stays reachable; a
      chain of redirects is short and leaves its origin at most once, over HTTPS.  The
      address screen is the complement of a table of special-purpose blocks, written by
      hand from the registries.
    - Trust: a credential goes only where the configuration pairs it; a fetched
      POM gives its repositories no authority over redirects and credentials, and an exemption
      only where the policy allows; a project file only narrows the policy of the
      user.
    - Redaction and proxies: a shown URL has no userinfo, query or fragment of its
      own; the greedy search for a secret value agrees with its declarative meaning; so
      does the resuming glob loop of the hosts that go direct.
    - Vulnerabilities: a scan ends whatever the service answers; it follows every page,
      and every record the service names for a package is reported or listed as one that
      could not be fetched.
    - Concurrency and time: the parallel map equals the map under every
      interleaving and terminates; a request makes at most its attempts and sleeps
      at most its budget.

    ** Fuel

    Loops that are not structural take fuel: [Version.items_loop] and
    [Version.merge_sort] the length of their input, [Range.union_loop] the length of
    the text, decimal and hexadecimal printing the size of the number, and
    [Relocation.follow] two more than the chain limit.  The items of a version, the
    sort and the relocations have lemmas that their fuel suffices (for relocations
    this is the termination theorem); the round trips show it for the others.
    [Interpolate.expand_references] takes the length of the text, which the
    equivalence with the reference definition shows to be enough.  The loops of the
    solver, whose end depends on what the backend answers, run within a budget given
    in [N] and return nothing when it is spent; the loops of the graph take budgets
    that [Scopes.select_scopes_total] and the lemmas of [Graph.v] show to be enough.
    [Redact.occurrences] and [Redact.literal_parts] take the length of their text and
    [Proxy.glob_matches] a product of the lengths of pattern and host; the
    equivalences with their reference definitions show these to be enough.

    ** What is not modelled

    XML and TOML documents, the network, the disk and the store, the asynchronous
    runtime, the command line, and the wording of errors where nothing depends on
    it.  Hints to the backend that return nothing are left out.  Of the model,
    the interpolation of the effective model and the import
    of BOMs are not modelled yet; they
    are the next parts to add.  Of the access to
    repositories, the client that fetches and restores artifacts, metadata and what is
    logged are not modelled; the network is the interface [HttpStack].  That the loops of the solver end for every backend, and that every
    node of the result is the best candidate of its group, are not proved yet. *)

From Stdlib Require Import Ascii String.
From stdpp Require Import base list strings gmap sorting.

(** ** Text

    A Rust [str] is a sequence of UTF-8 bytes.  The development keeps it as the
    list of those bytes, so that [length] is [str::len], the order of lists of
    bytes is [str::cmp], and slicing at a byte offset is [take]/[drop]. *)
Abbreviation str := (list ascii).

Declare Scope raeva_scope.
Delimit Scope raeva_scope with raeva.

(** A text literal: [$"1.0"]. *)
Notation "$ s" := (list_ascii_of_string s%string)
  (at level 1, s at level 0, format "$ s") : raeva_scope.

#[global] Open Scope raeva_scope.

(** ** Results

    [Result<T, E>] with the error type first, so that [result E] is a monad and
    the [?] operator is stdpp's [x ← r; k]. *)
Inductive result (E A : Type) : Type :=
  | Ok (a : A)
  | Err (e : E).
Arguments Ok {E A} a.
Arguments Err {E A} e.

#[export] Instance result_ret E : MRet (result E) := fun _ a => Ok a.
#[export] Instance result_bind E : MBind (result E) :=
  fun _ _ f r => match r with Ok a => f a | Err e => Err e end.
#[export] Instance result_fmap E : FMap (result E) :=
  fun _ _ f r => match r with Ok a => Ok (f a) | Err e => Err e end.

(** [Result::map_err]. *)
Definition map_err {E F A} (f : E -> F) (r : result E A) : result F A :=
  match r with Ok a => Ok a | Err e => Err (f e) end.

(** [Option::ok_or_else]. *)
Definition ok_or {E A} (o : option A) (e : E) : result E A :=
  match o with Some a => Ok a | None => Err e end.

(** [Result::ok]. *)
Definition ok {E A} (r : result E A) : option A :=
  match r with Ok a => Some a | Err _ => None end.

Definition is_ok {E A} (r : result E A) : bool :=
  match r with Ok _ => true | Err _ => false end.

(** [Option::filter]. *)
Definition opt_filter {A} (p : A -> bool) (o : option A) : option A :=
  match o with Some a => if p a then Some a else None | None => None end.

(** [Option::is_some_and] and [Option::is_none_or]. *)
Definition is_some_and {A} (p : A -> bool) (o : option A) : bool :=
  match o with Some a => p a | None => false end.
Definition is_none_or {A} (p : A -> bool) (o : option A) : bool :=
  match o with Some a => p a | None => true end.

(** [Iterator::collect] of results, and [Option::transpose]. *)
Fixpoint try_map {E A B} (f : A -> result E B) (l : list A) : result E (list B) :=
  match l with
  | [] => Ok []
  | a :: l => b ← f a; bs ← try_map f l; Ok (b :: bs)
  end.

Definition transpose {E A} (o : option (result E A)) : result E (option A) :=
  match o with
  | None => Ok None
  | Some (Ok a) => Ok (Some a)
  | Some (Err e) => Err e
  end.

Lemma bind_Ok {E A B} (r : result E A) (f : A -> result E B) b :
  (r ≫= f) = Ok b -> exists a, r = Ok a /\ f a = Ok b.
Proof. destruct r; cbn; [eauto|discriminate]. Qed.

Lemma map_err_Ok {E F A} (f : E -> F) (r : result E A) a :
  map_err f r = Ok a <-> r = Ok a.
Proof. destruct r; cbn; naive_solver. Qed.

Lemma ok_or_Ok {E A} (o : option A) (e : E) a : ok_or o e = Ok a <-> o = Some a.
Proof. destruct o; cbn; naive_solver. Qed.

(** ** Orderings

    [std::cmp::Ordering] is [comparison]: [Less], [Equal], [Greater] are [Lt],
    [Eq], [Gt], and [Ordering::reverse] is [CompOpp]. *)
Definition ord_then (c d : comparison) : comparison :=
  match c with Eq => d | _ => c end.

Definition is_eq (c : comparison) : bool :=
  match c with Eq => true | _ => false end.

(** The lexicographic order of two lists, [Vec::cmp] and [str::cmp]. *)
Fixpoint list_cmp {A} (cmp : A -> A -> comparison) (l k : list A) : comparison :=
  match l, k with
  | [], [] => Eq
  | [], _ :: _ => Lt
  | _ :: _, [] => Gt
  | a :: l, b :: k => ord_then (cmp a b) (list_cmp cmp l k)
  end.

Definition opt_cmp {A} (cmp : A -> A -> comparison) (a b : option A) : comparison :=
  match a, b with
  | None, None => Eq
  | None, Some _ => Lt
  | Some _, None => Gt
  | Some a, Some b => cmp a b
  end.

Definition ascii_cmp (a b : ascii) : comparison :=
  N.compare (N_of_ascii a) (N_of_ascii b).

Definition str_cmp : str -> str -> comparison := list_cmp ascii_cmp.

(** What a comparison function must satisfy to be an order: the interface the
    generic lemmas on lists, pairs and sorted sequences are proved against. *)
Class TotalCmp {A} (cmp : A -> A -> comparison) : Prop := {
  cmp_eq : forall a b, cmp a b = Eq <-> a = b;
  cmp_sym : forall a b, cmp b a = CompOpp (cmp a b);
  cmp_lt_trans : forall a b c, cmp a b = Lt -> cmp b c = Lt -> cmp a c = Lt;
}.

Lemma cmp_refl `{TotalCmp A cmp} a : cmp a a = Eq.
Proof. by apply cmp_eq. Qed.

Lemma cmp_gt_lt `{TotalCmp A cmp} a b : cmp a b = Gt <-> cmp b a = Lt.
Proof. rewrite (cmp_sym (cmp:=cmp) a b). destruct (cmp a b); cbn; naive_solver. Qed.

(** [a ≤ b] in an order given by a comparison. *)
Lemma cmp_le_trans `{TotalCmp A cmp} a b c :
  cmp a b <> Gt -> cmp b c <> Gt ->
  cmp a c <> Gt /\ (cmp a c = Eq -> cmp a b = Eq /\ cmp b c = Eq).
Proof.
  intros Hab Hbc. destruct (cmp a b) eqn:Eab; [| |done].
  - apply cmp_eq in Eab as ->. split; [done|]. by intros ->.
  - destruct (cmp b c) eqn:Ebc; [| |done].
    + apply cmp_eq in Ebc as <-. by rewrite Eab.
    + by rewrite (cmp_lt_trans (cmp:=cmp) a b c).
Qed.

#[export] Instance N_total_cmp : TotalCmp N.compare.
Proof.
  split.
  - apply N.compare_eq_iff.
  - intros a b. apply N.compare_antisym.
  - intros a b c. rewrite !N.compare_lt_iff. lia.
Qed.

#[export] Instance nat_total_cmp : TotalCmp Nat.compare.
Proof.
  split.
  - apply Nat.compare_eq_iff.
  - intros a b. apply Nat.compare_antisym.
  - intros a b c. rewrite !Nat.compare_lt_iff. lia.
Qed.

#[export] Instance Z_total_cmp : TotalCmp Z.compare.
Proof.
  split.
  - apply Z.compare_eq_iff.
  - intros a b. apply Z.compare_antisym.
  - intros a b c. rewrite !Z.compare_lt_iff. lia.
Qed.

(** An order pulled back along an injection. *)
Lemma total_cmp_inj {A B} (f : A -> B) cmp :
  (forall a b, f a = f b -> a = b) ->
  TotalCmp cmp -> TotalCmp (fun a b => cmp (f a) (f b)).
Proof.
  intros Hf H. split.
  - intros a b. rewrite cmp_eq. split; [apply Hf|by intros ->].
  - intros a b. apply cmp_sym.
  - intros a b c. apply cmp_lt_trans.
Qed.

#[export] Instance ascii_total_cmp : TotalCmp ascii_cmp.
Proof.
  apply (total_cmp_inj N_of_ascii); [|apply _].
  intros a b E. rewrite <-(ascii_N_embedding a), E. apply ascii_N_embedding.
Qed.

#[export] Instance list_total_cmp `{TotalCmp A cmp} : TotalCmp (list_cmp cmp).
Proof.
  split.
  - intros a. induction a as [|x a IH]; intros [|y b]; cbn; try done.
    destruct (cmp x y) eqn:E; cbn; [|split; [done|]..].
    + apply cmp_eq in E as ->. rewrite IH. split; [by intros ->|by intros [=]].
    + intros [= -> ->]. by rewrite cmp_refl in E.
    + intros [= -> ->]. by rewrite cmp_refl in E.
  - intros a. induction a as [|x a IH]; intros [|y b]; cbn; try done.
    rewrite (cmp_sym (cmp:=cmp) x y), IH. by destruct (cmp x y).
  - intros a. induction a as [|x a IH]; intros [|y b] [|z c]; cbn; try done.
    destruct (cmp x y) eqn:E1; cbn; try done; destruct (cmp y z) eqn:E2; cbn; try done.
    + apply cmp_eq in E1 as ->. rewrite E2. cbn. apply IH.
    + apply cmp_eq in E1 as ->. by rewrite E2.
    + apply cmp_eq in E2 as ->. by rewrite E1.
    + by rewrite (cmp_lt_trans (cmp:=cmp) x y z).
Qed.

#[export] Instance str_total_cmp : TotalCmp str_cmp := list_total_cmp.

(** The lexicographic order of pairs, and of any value by two of its parts. *)
Definition pair_cmp {A B} (c : A -> A -> comparison) (d : B -> B -> comparison)
    (p q : A * B) : comparison :=
  ord_then (c p.1 q.1) (d p.2 q.2).

#[export] Instance pair_total_cmp `{TotalCmp A c} `{TotalCmp B d} : TotalCmp (pair_cmp c d).
Proof.
  unfold pair_cmp. split.
  - intros [a b] [a' b']; cbn. destruct (c a a') eqn:E; cbn; [|split; [done|]..].
    + apply cmp_eq in E as ->. rewrite cmp_eq. split; [by intros ->|by intros [=]].
    + intros [= -> ->]. by rewrite cmp_refl in E.
    + intros [= -> ->]. by rewrite cmp_refl in E.
  - intros [a b] [a' b']; cbn. rewrite (cmp_sym (cmp:=c) a a'), (cmp_sym (cmp:=d) b b').
    by destruct (c a a').
  - intros [a b] [a' b'] [a'' b'']; cbn.
    destruct (c a a') eqn:E1; cbn; try done; destruct (c a' a'') eqn:E2; cbn; try done.
    + apply cmp_eq in E1 as ->. rewrite E2. cbn. apply cmp_lt_trans.
    + apply cmp_eq in E1 as ->. by rewrite E2.
    + apply cmp_eq in E2 as ->. by rewrite E1.
    + by rewrite (cmp_lt_trans (cmp:=c) a a' a'').
Qed.

#[export] Instance opt_total_cmp `{TotalCmp A c} : TotalCmp (opt_cmp c).
Proof.
  split.
  - intros [a|] [b|]; cbn; try done. rewrite cmp_eq. split; [by intros ->|by intros [=]].
  - intros [a|] [b|]; cbn; try done. apply cmp_sym.
  - intros [a|] [b|] [d|]; cbn; try done. apply cmp_lt_trans.
Qed.

(** A comparison that is a total preorder on the values a predicate holds of: what
    remains of [TotalCmp] for versions and for ranks made of them. *)
Class PreCmp {A} (P : A -> Prop) (cmp : A -> A -> comparison) : Prop := {
  pre_sym : forall a b, P a -> P b -> cmp b a = CompOpp (cmp a b);
  pre_trans : forall a b c, P a -> P b -> P c -> cmp a b <> Gt -> cmp b c <> Gt ->
    cmp a c <> Gt /\ (cmp a c = Eq -> cmp a b = Eq /\ cmp b c = Eq);
}.

Lemma pre_cmp_total {A B} (P : A -> Prop) (f : A -> B) `{TotalCmp B cmp} :
  PreCmp P (fun a b => cmp (f a) (f b)).
Proof. split; intros; [apply cmp_sym|by apply cmp_le_trans]. Qed.

Lemma pre_cmp_then {A} (P : A -> Prop) c d :
  PreCmp P c -> PreCmp P d -> PreCmp P (fun a b => ord_then (c a b) (d a b)).
Proof.
  intros Hc Hd. split.
  - intros a b Ha Hb. rewrite (pre_sym a b Ha Hb), (pre_sym (cmp:=d) a b Ha Hb). by destruct (c a b).
  - intros x y z Hx Hy Hz Hxy Hyz.
    destruct (pre_trans (cmp:=c) x y z) as [Hle Heq]; try done; [by destruct (c x y)|by destruct (c y z)|].
    destruct (c x z) eqn:E; [|done..]. destruct (Heq eq_refl) as [E1 E2]. rewrite E1, E2 in *.
    cbn in *. by apply pre_trans.
Qed.

Lemma pre_cmp_flip {A} (P : A -> Prop) c : PreCmp P c -> PreCmp P (fun a b => c b a).
Proof.
  intros Hc. split; [intros; by apply pre_sym|]. intros x y z Hx Hy Hz Hxy Hyz.
  destruct (pre_trans (cmp:=c) z y x) as [Hle Heq]; try done. split; [done|].
  intros E. destruct (Heq E). done.
Qed.

Lemma pre_cmp_ext {A} (P : A -> Prop) c d :
  (forall a b, P a -> P b -> c a b = d a b) -> PreCmp P d -> PreCmp P c.
Proof.
  intros E Hd. split.
  - intros a b Ha Hb. rewrite !E by done. by apply pre_sym.
  - intros x y z Hx Hy Hz. rewrite !E by done. by apply pre_trans.
Qed.

(** ** Automation *)

(** Splits the booleans of the hypotheses and of the goal into propositions. *)
Ltac bool_simpl :=
  repeat match goal with
  | H : _ && _ = true |- _ => apply andb_true_iff in H as [? ?]
  | H : _ || _ = false |- _ => apply orb_false_iff in H as [? ?]
  | H : negb _ = true |- _ => apply negb_true_iff in H
  | H : negb _ = false |- _ => apply negb_false_iff in H
  | H : bool_decide _ = true |- _ => apply bool_decide_eq_true in H
  | H : bool_decide _ = false |- _ => apply bool_decide_eq_false in H
  | H : (_ <=? _)%nat = true |- _ => apply Nat.leb_le in H
  | H : (_ <=? _)%nat = false |- _ => apply Nat.leb_gt in H
  | H : (_ <? _)%nat = true |- _ => apply Nat.ltb_lt in H
  | H : (_ <? _)%nat = false |- _ => apply Nat.ltb_ge in H
  | H : (_ =? _)%nat = true |- _ => apply Nat.eqb_eq in H
  | H : (_ =? _)%nat = false |- _ => apply Nat.eqb_neq in H
  | |- _ && _ = true => apply andb_true_iff; split
  | |- negb _ = true => apply negb_true_iff
  | |- bool_decide _ = true => apply bool_decide_eq_true
  end.

(** Inverts a chain of [?]s that returned [Ok]. *)
Ltac inv_ok H :=
  let a := fresh "a" in let Ha := fresh "Ha" in
  match type of H with
  | (_ ≫= _) = Ok _ => apply bind_Ok in H as (a & Ha & H)
  | map_err _ _ = Ok _ => apply map_err_Ok in H
  | ok_or _ _ = Ok _ => apply ok_or_Ok in H
  | (if ?b then Err _ else _) = Ok _ =>
      let E := fresh "E" in destruct b eqn:E; [discriminate H|]
  | (if ?b then _ else Err _) = Ok _ =>
      let E := fresh "E" in destruct b eqn:E; [|discriminate H]
  end.

(** Lemmas on texts that rewrite from left to right. *)
Create HintDb raeva.
