(* ===== verification/Iter.v ===== *)
(** * Iterators and vectors

    The iterator methods and the in-place sort the sources use, sums over the
    indices of a vector, and what vectors addressed by index satisfy. *)

From Stdlib Require Import Lia Ascii String.
From stdpp Require Import base list gmap numbers sorting.
From S2P Require Import Prelude.

#[local] Set Warnings "-clear-no-such-hyp".

(** ** Iterators *)

(** [Iterator::min_by]: the first of the least elements. *)
Definition min_by {A} (cmp : A -> A -> comparison) (l : list A) : option A :=
  match l with
  | [] => None
  | a :: l => Some (foldl (fun x y => match cmp x y with Gt => y | _ => x end) a l)
  end.

Lemma min_by_elem {A} (cmp : A -> A -> comparison) l m : min_by cmp l = Some m -> m ∈ l.
Proof.
  destruct l as [|a l]; [done|]. cbn. intros [= <-].
  assert (forall l a, foldl (fun x y => match cmp x y with Gt => y | _ => x end) a l ∈ a :: l) as Hf; [|apply Hf].
  clear. intros l. induction l as [|b l IH]; intros a; cbn [foldl]; [by left|].
  specialize (IH (match cmp a b with Gt => b | _ => a end)). set_unfold. destruct (cmp a b); intuition.
Qed.

(** [Iterator::max_by_key]: the last of the greatest elements. *)
Definition max_by_key {A} (key : A -> N) (l : list A) : option A :=
  match l with
  | [] => None
  | a :: l => Some (foldl (fun x y => match N.compare (key x) (key y) with Gt => x | _ => y end) a l)
  end.

(** An [IndexMap] as its entries in insertion order: the entry of a key takes the
    value [f] makes of the one it had. *)
Fixpoint entry_with {K V} `{EqDecision K} (k : K) (f : option V -> V) (m : list (K * V)) : list (K * V) :=
  match m with
  | [] => [(k, f None)]
  | (k', v) :: m => if decide (k' = k) then (k', f (Some v)) :: m else (k', v) :: entry_with k f m
  end.

(** A stable sort, as [slice::sort_by] is: [x] goes before the first element that
    does not precede it. *)
Fixpoint insert_by {A} (leb : A -> A -> bool) (x : A) (l : list A) : list A :=
  match l with
  | [] => [x]
  | y :: l' => if leb x y then x :: l else y :: insert_by leb x l'
  end.

Definition sort_by {A} (leb : A -> A -> bool) (l : list A) : list A := foldr (insert_by leb) [] l.

(** ** The least element of a preorder *)

Section MinBy.
Context {A : Type} (P : A -> Prop) (cmp : A -> A -> comparison) `{!PreCmp P cmp}.

(** The first of the least elements, by its place. *)
Definition first_least (m : A) (l : list A) : Prop :=
  exists pre post, l = pre ++ m :: post /\ Forall (fun x => cmp x m = Gt) pre /\
    Forall (fun x => cmp m x <> Gt) post.

Lemma pre_gt_lt a b : P a -> P b -> cmp a b = Gt <-> cmp b a = Lt.
Proof. intros Ha Hb. rewrite (pre_sym (cmp:=cmp) a b) by done. destruct (cmp a b); cbn; naive_solver. Qed.

Lemma pre_gt_trans a b c : P a -> P b -> P c -> cmp a b = Gt -> cmp c b <> Gt -> cmp a c = Gt.
Proof.
  intros Ha Hb Hc Hab Hcb. destruct (cmp a c) eqn:E; [| |done].
  - destruct (pre_trans (cmp:=cmp) a c b) as [H _]; [done..|by rewrite E|done|]. done.
  - destruct (pre_trans (cmp:=cmp) a c b) as [H _]; [done..|by rewrite E|done|]. done.
Qed.

Lemma min_by_least l m : Forall P l -> min_by cmp l = Some m -> first_least m l.
Proof.
  destruct l as [|a l]; [done|]. intros HP [= <-]. revert HP.
  induction l as [|x l IH] using rev_ind; intros HP.
  - exists [], []. split; [done|]. by split.
  - rewrite app_comm_cons in *. apply Forall_app in HP as [HP [Hx _]%Forall_cons].
    rewrite foldl_app. cbn [foldl]. destruct (IH HP) as (pre & post & E & Hpre & Hpost).
    set (m := foldl _ a l) in *. rewrite E in HP |- *.
    apply Forall_app in HP as [Ppre Pm]. apply Forall_cons in Pm as [Pm Ppost].
    destruct (cmp m x) eqn:Emx.
    1,2: exists pre, (post ++ [x]); split_and!; [by rewrite <-app_assoc|done|];
         apply Forall_app; split; [done|]; apply Forall_singleton; by rewrite Emx.
    assert (cmp x m = Lt) as Exm by (by apply pre_gt_lt).
    exists (pre ++ m :: post), []. split; [done|]. split; [|done].
    apply Forall_app. split; [|apply Forall_cons; split; [done|]].
    + rewrite Forall_forall in *. intros y Hy. apply (pre_gt_trans y m x); auto. by rewrite Exm.
    + rewrite Forall_forall in *. intros y Hy. apply pre_gt_lt; [auto..|].
      destruct (pre_trans (cmp:=cmp) x m y) as [Hle Heq]; auto; [by rewrite Exm|].
      destruct (cmp x y) eqn:Exy; [|done..]. destruct (Heq eq_refl) as [E1 _]. by rewrite E1 in Exm.
Qed.

Lemma middle_before (m m' : A) pre post pre' post' :
  pre ++ m :: post = pre' ++ m' :: post' -> length pre < length pre' -> m ∈ pre' /\ m' ∈ post.
Proof.
  intros E Hlt. split.
  - assert ((pre ++ m :: post) !! length pre = Some m) as Hl by (by apply list_lookup_middle).
    rewrite E, lookup_app_l in Hl by done. by eapply list_elem_of_lookup_2.
  - assert ((pre' ++ m' :: post') !! length pre' = Some m') as Hl by (by apply list_lookup_middle).
    rewrite <-E, lookup_app_r in Hl by lia.
    destruct (length pre' - length pre) eqn:Ed; [lia|]. by eapply list_elem_of_lookup_2.
Qed.

Lemma min_by_unique l m : Forall P l -> first_least m l -> min_by cmp l = Some m.
Proof.
  intros HP (pre & post & El & Hpre & Hpost). destruct (min_by cmp l) as [m'|] eqn:E.
  - apply min_by_least in E as (pre' & post' & E' & Hpre' & Hpost'); [|done]. f_equal.
    rewrite Forall_forall in Hpre, Hpre', Hpost, Hpost'. rewrite El in E'.
    destruct (Nat.lt_trichotomy (length pre) (length pre')) as [Hlt|[Heq|Hlt]].
    + destruct (middle_before _ _ _ _ _ _ E' Hlt) as [H1 H2]. exfalso. by apply (Hpost m' H2), Hpre'.
    + apply app_inj_1 in E' as [_ E']; [|done]. by injection E' as ->.
    + destruct (middle_before _ _ _ _ _ _ (eq_sym E') Hlt) as [H1 H2]. exfalso.
      by apply (Hpost' m H2), Hpre.
  - subst l. by destruct pre.
Qed.
End MinBy.

(** ** Sorting *)

Lemma insert_by_perm {A} (leb : A -> A -> bool) x l : insert_by leb x l ≡ₚ x :: l.
Proof.
  induction l as [|y l IH]; [done|]. cbn. destruct (leb x y); [done|].
  rewrite IH. apply perm_swap.
Qed.

Lemma sort_by_perm {A} (leb : A -> A -> bool) l : sort_by leb l ≡ₚ l.
Proof. induction l as [|x l IH]; [done|]. cbn. by rewrite insert_by_perm, IH. Qed.

Lemma list_empty_filter_bool {A} (p : A -> bool) l :
  (forall x, x ∈ l -> p x = false) -> List.filter p l = [].
Proof.
  induction l as [|x l IH]; intros Hp; [done|]. cbn. rewrite Hp by left. apply IH.
  intros y Hy. apply Hp. by right.
Qed.

(** ** Sums over indices *)

Definition sum_to (n : nat) (f : nat -> nat) : nat := sum_list_with f (seq 0 n).

Lemma sum_list_ext {A} (f g : A -> nat) l :
  (forall x, x ∈ l -> f x = g x) -> sum_list_with f l = sum_list_with g l.
Proof.
  induction l as [|x l IH]; intros Hfg; [done|]. cbn.
  rewrite (Hfg x) by left. rewrite IH; [done|]. intros y Hy. apply Hfg. by right.
Qed.

Lemma sum_to_ext n f g : (forall i, i < n -> f i = g i) -> sum_to n f = sum_to n g.
Proof. intros Hfg. apply sum_list_ext. intros x Hx%elem_of_seq. apply Hfg. lia. Qed.

(** Two sums that differ at one index. *)
Lemma sum_to_update n f g i :
  i < n -> (forall j, j < n -> j <> i -> f j = g j) -> sum_to n f + g i = sum_to n g + f i.
Proof.
  unfold sum_to. intros Hi Hfg. pose proof (NoDup_seq 0 n) as D.
  assert (i ∈ seq 0 n) as Hin by (apply elem_of_seq; lia).
  apply list_elem_of_split in Hin as (l1 & l2 & E). rewrite E in D |- *.
  rewrite !sum_list_with_app. cbn. apply NoDup_app in D as (_ & D1 & D2).
  apply NoDup_cons in D2 as [D2 _].
  assert (forall j, j ∈ l1 \/ j ∈ l2 -> j < n /\ j <> i) as Hj.
  { intros j Hj. split.
    - assert (j ∈ seq 0 n) as Hs by (rewrite E; set_solver). apply elem_of_seq in Hs. lia.
    - intros ->. destruct Hj as [Hj|Hj]; [|done]. apply (D1 i Hj). left. }
  rewrite (sum_list_ext f g l1), (sum_list_ext f g l2); [lia|..];
    intros j ?; apply Hfg; apply Hj; tauto.
Qed.

Lemma sum_to_le n f g : (forall i, i < n -> f i <= g i) -> sum_to n f <= sum_to n g.
Proof.
  intros Hfg. unfold sum_to.
  assert (forall i, i ∈ seq 0 n -> f i <= g i) as Hl by (intros i Hi%elem_of_seq; apply Hfg; lia).
  revert Hl. generalize (seq 0 n). induction l as [|x l IH]; intros Hl; cbn; [lia|].
  specialize (Hl x) as Hx. specialize (IH (fun y Hy => Hl y ltac:(by right))).
  specialize (Hx ltac:(left)). lia.
Qed.

Lemma sum_to_one n : sum_to n (fun _ => 1) = n.
Proof.
  unfold sum_to. transitivity (length (seq 0 n)); [|apply length_seq].
  generalize (seq 0 n). induction l; cbn; lia.
Qed.

Lemma sum_to_pos n f i : i < n -> f i <= sum_to n f.
Proof.
  intros Hi. pose proof (sum_to_update n f (fun j => if decide (j = i) then 0 else f j) i Hi) as H.
  cbn in H. rewrite decide_True in H by done.
  rewrite <-(Nat.add_0_r (sum_to n f)), H; [lia|]. intros j _ Hj. by rewrite decide_False.
Qed.

Lemma sum_to_zero n f : sum_to n f = 0 -> forall i, i < n -> f i = 0.
Proof. intros H i Hi. pose proof (sum_to_pos n f i Hi). lia. Qed.

(** ** Vectors read at an index *)

Section Total.
Context `{Inhabited A}.

Lemma lookup_total_insert_eq (l : list A) i x : i < length l -> <[i := x]> l !!! i = x.
Proof. intros. by apply list_lookup_total_insert_eq. Qed.

Lemma lookup_total_insert_ne (l : list A) i j x : i <> j -> <[i := x]> l !!! j = l !!! j.
Proof. intros. by apply list_lookup_total_insert_ne. Qed.

Lemma lookup_total_replicate n (x : A) i : i < n -> replicate n x !!! i = x.
Proof. intros Hi. apply list_lookup_total_correct. by apply lookup_replicate_2. Qed.
End Total.

(** * Loops that run until their body stops them

    A [while] or [loop] of the code becomes a step on its local variables that
    either goes on with new variables or leaves with a result.  [run_loop] iterates the
    step within a binary budget, so that a generous one costs nothing; [run_total]
    is the rule the components use: an invariant and a measure below the budget show
    that the loop stops, and what it returns. *)

Section Loop.
Context {S R : Type} (step : S -> S + R).

(** As many steps as the number says, or fewer when the body leaves. *)
Fixpoint run_pos (n : positive) (s : S) : S + R :=
  match n with
  | xH => step s
  | xO m => match run_pos m s with inl s' => run_pos m s' | done => done end
  | xI m =>
    match step s with
    | inl s' => match run_pos m s' with inl s'' => run_pos m s'' | done => done end
    | done => done
    end
  end.

(** The loop within [fuel] steps; [None] when they do not suffice. *)
Definition run_loop (fuel : N) (s : S) : option R :=
  match fuel with
  | N0 => None
  | Npos n => match run_pos n s with inl _ => None | inr r => Some r end
  end.

(** A loop whose body leaves at once. *)
Lemma run_once fuel s r : (0 < fuel)%N -> step s = inr r -> run_loop fuel s = Some r.
Proof.
  intros Hf Hs. destruct fuel as [|n]; [lia|]. unfold run_loop.
  assert (run_pos n s = inr r) as ->; [|done].
  induction n as [n IH|n IH|]; cbn; rewrite ?Hs, ?IH; done.
Qed.

Section Rule.
Context (Inv : S -> Prop) (Post : R -> Prop) (m : S -> N).
Context (Hstep : forall s, Inv s ->
  match step s with inl s' => Inv s' /\ (m s' < m s)%N | inr r => Post r end).

Lemma run_pos_total n s :
  Inv s ->
  match run_pos n s with
  | inl s' => Inv s' /\ (m s' + Npos n <= m s)%N
  | inr r => Post r
  end.
Proof.
  revert s. induction n as [n IH|n IH|]; intros s Hs; cbn [run_pos].
  - specialize (Hstep s Hs). destruct (step s) as [s1|r]; [|done]. destruct Hstep as [H1 L1].
    specialize (IH s1 H1) as I1. destruct (run_pos n s1) as [s2|r]; [|done]. destruct I1 as [H2 L2].
    specialize (IH s2 H2). destruct (run_pos n s2); [|done]. split; [tauto|lia].
  - specialize (IH s Hs) as I1. destruct (run_pos n s) as [s2|r]; [|done]. destruct I1 as [H2 L2].
    specialize (IH s2 H2). destruct (run_pos n s2); [|done]. split; [tauto|lia].
  - specialize (Hstep s Hs). destruct (step s); [|done]. split; [tauto|lia].
Qed.

(** Total correctness: the loop returns within any budget above the measure. *)
Lemma run_total fuel s :
  Inv s -> (m s < fuel)%N -> exists r, run_loop fuel s = Some r /\ Post r.
Proof.
  intros Hs Hm. destruct fuel as [|n]; [lia|]. unfold run_loop.
  pose proof (run_pos_total n s Hs) as H. destruct (run_pos n s) as [s'|r]; [lia|eauto].
Qed.
End Rule.

(** Partial correctness, for a loop whose budget bounds it otherwise. *)
Lemma run_partial (Inv : S -> Prop) (Post : R -> Prop) fuel s r :
  (forall s, Inv s -> match step s with inl s' => Inv s' | inr r => Post r end) ->
  Inv s -> run_loop fuel s = Some r -> Post r.
Proof.
  intros Hstep Hs. destruct fuel as [|n]; [done|]. unfold run_loop.
  assert (forall s, Inv s -> match run_pos n s with inl s' => Inv s' | inr r => Post r end) as Hn.
  { clear s Hs. induction n as [n IH|n IH|]; intros s Hs; cbn [run_pos].
    - specialize (Hstep s Hs). destruct (step s) as [s1|]; [|done].
      specialize (IH s1 Hstep) as I1. destruct (run_pos n s1) as [s2|]; [|done].
      by specialize (IH s2 I1).
    - specialize (IH s Hs) as I1. destruct (run_pos n s) as [s2|]; [|done].
      by specialize (IH s2 I1).
    - by apply Hstep. }
  specialize (Hn s Hs). destruct (run_pos n s); intros E; simplify_eq; done.
Qed.
End Loop.

(** * Sorting by an order

    [slice::sort] and [sort_by] with a comparison, [is_sorted] and [Vec::dedup], with
    what the canonical forms of the lock rely on: the sorted form of a list depends on
    its elements alone, and a sorted list is its own. *)

(** The order laws are found by their instances. *)
#[export] Hint Extern 0 (TotalCmp _) => typeclasses eauto : core.

Definition leb_of {A} (cmp : A -> A -> comparison) (a b : A) : bool :=
  match cmp a b with Gt => false | _ => true end.

(** [sort], [sort_by] and [sort_unstable] where equal elements are equal. *)
Definition sort_cmp {A} (cmp : A -> A -> comparison) : list A -> list A := sort_by (leb_of cmp).

(** [is_sorted] and [is_sorted_by(|a, b| a < b)]: every pair of neighbours. *)
Fixpoint is_sorted_by {A} (ok : A -> A -> bool) (l : list A) : bool :=
  match l with
  | a :: (b :: _) as l' => ok a b && is_sorted_by ok l'
  | _ => true
  end.

Definition is_sorted {A} (cmp : A -> A -> comparison) : list A -> bool := is_sorted_by (leb_of cmp).
Definition is_strictly_sorted {A} (cmp : A -> A -> comparison) : list A -> bool :=
  is_sorted_by (fun a b => match cmp a b with Lt => true | _ => false end).

(** [Vec::dedup]: of a run of equal elements the first. *)
Fixpoint dedup {A} `{EqDecision A} (l : list A) : list A :=
  match l with
  | a :: (b :: _) as l' => if decide (a = b) then dedup l' else a :: dedup l'
  | l => l
  end.

(** ** A sort by a preorder on keys *)

Section Sorted.
Context {A K : Type} (key : A -> K) (cmp : K -> K -> comparison) `{!TotalCmp cmp}.

Abbreviation key_cmp := (fun a b => cmp (key a) (key b)).
Abbreviation key_le := (fun a b => leb_of key_cmp a b = true).

Lemma leb_of_true {B} (c : B -> B -> comparison) a b : leb_of c a b = true <-> c a b <> Gt.
Proof. unfold leb_of. by destruct (c a b). Qed.

Lemma key_le_trans a b c : key_le a b -> key_le b c -> key_le a c.
Proof. rewrite !leb_of_true. intros H1 H2. exact (proj1 (cmp_le_trans _ _ _ H1 H2)). Qed.

Lemma key_le_total a b : key_le a b \/ key_le b a.
Proof. rewrite !leb_of_true, (cmp_sym (cmp:=cmp) (key a) (key b)). destruct (cmp (key a) (key b)); cbn; auto. Qed.

Lemma insert_by_sorted x l : StronglySorted key_le l -> StronglySorted key_le (insert_by (leb_of key_cmp) x l).
Proof.
  induction l as [|y l IH]; intros Hs; cbn; [repeat constructor|].
  apply StronglySorted_inv in Hs as [Hs Hy]. destruct (leb_of key_cmp x y) eqn:E.
  - constructor; [by constructor|]. constructor; [done|]. rewrite Forall_forall in *.
    intros z Hz. apply (key_le_trans x y z); [done|auto].
  - constructor; [by apply IH|]. rewrite insert_by_perm. constructor; [|done].
    destruct (key_le_total x y); [congruence|done].
Qed.

Lemma sort_by_sorted l : StronglySorted key_le (sort_by (leb_of key_cmp) l).
Proof. induction l as [|x l IH]; cbn; [constructor|by apply insert_by_sorted]. Qed.

(** A sorted list stays as it is, also where keys repeat. *)
Lemma sort_by_id l : StronglySorted key_le l -> sort_by (leb_of key_cmp) l = l.
Proof.
  induction l as [|x l IH]; intros Hs; [done|]. apply StronglySorted_inv in Hs as [Hs Hx].
  change (insert_by (leb_of key_cmp) x (sort_by (leb_of key_cmp) l) = x :: l). rewrite IH by done.
  destruct l as [|y l]; [done|]. cbn [insert_by]. by apply Forall_cons in Hx as [-> _].
Qed.

Lemma is_sorted_strong l : is_sorted_by (leb_of key_cmp) l = true <-> StronglySorted key_le l.
Proof.
  induction l as [|a l IH]; [split; [constructor|done]|]. destruct l as [|b l].
  - split; [repeat constructor|done].
  - cbn [is_sorted_by]. fold (is_sorted_by (leb_of key_cmp) (b :: l)). rewrite andb_true_iff, IH. split.
    + intros [Hab Hs]. constructor; [done|]. constructor; [done|].
      apply StronglySorted_inv in Hs as [_ Hb]. rewrite Forall_forall in *. intros z Hz.
      by apply (key_le_trans a b z); auto.
    + intros [Hs Ha]%StronglySorted_inv. by apply Forall_cons in Ha as [? _].
Qed.

Lemma sort_by_is_sorted l : is_sorted_by (leb_of key_cmp) (sort_by (leb_of key_cmp) l) = true.
Proof. apply is_sorted_strong, sort_by_sorted. Qed.

Lemma is_sorted_sort_by l : is_sorted_by (leb_of key_cmp) l = true <-> sort_by (leb_of key_cmp) l = l.
Proof.
  split; [intros ?%is_sorted_strong; by apply sort_by_id|]. intros <-. apply sort_by_is_sorted.
Qed.

(** Distinct keys leave one sorted form. *)
Lemma sorted_unique l l' :
  StronglySorted key_le l -> StronglySorted key_le l' -> l ≡ₚ l' ->
  (forall x y, x ∈ l -> y ∈ l -> key x = key y -> x = y) -> l = l'.
Proof.
  revert l'. induction l as [|x l IH]; intros l' Hs Hs' Hp Hk; [by apply Permutation_nil_l in Hp|].
  destruct l' as [|y l']; [by apply Permutation_nil_r in Hp|].
  apply StronglySorted_inv in Hs as [Hs Hx]. apply StronglySorted_inv in Hs' as [Hs' Hy].
  assert (x = y) as <-.
  { assert (y ∈ x :: l) as Hyx by (rewrite Hp; left). assert (x ∈ y :: l') as Hxy by (rewrite <-Hp; left).
    apply elem_of_cons in Hyx as [->|Hyx]; [done|]. apply elem_of_cons in Hxy as [->|Hxy]; [done|].
    rewrite Forall_forall in *. specialize (Hx y Hyx). specialize (Hy x Hxy).
    apply leb_of_true in Hx, Hy. apply Hk; [left|by right|].
    destruct (cmp (key x) (key y)) eqn:E; [by apply (cmp_eq (cmp:=cmp))| |done].
    by rewrite (cmp_sym (cmp:=cmp) (key x) (key y)), E in Hy. }
  f_equal. apply IH; [done..|by apply (Permutation_cons_inv (a:=x))|].
  intros u v Hu Hv. apply Hk; by right.
Qed.

Lemma sort_by_unique l l' :
  l ≡ₚ l' -> (forall x y, x ∈ l -> y ∈ l -> key x = key y -> x = y) ->
  sort_by (leb_of key_cmp) l = sort_by (leb_of key_cmp) l'.
Proof.
  intros Hp Hk. apply sorted_unique; [apply sort_by_sorted..|by rewrite !sort_by_perm|].
  intros x y. rewrite sort_by_perm. apply Hk.
Qed.
End Sorted.

(** ** Sorting by an order of the elements *)

Section SortCmp.
Context {A : Type} (cmp : A -> A -> comparison) `{!TotalCmp cmp}.

Lemma sort_cmp_perm l : sort_cmp cmp l ≡ₚ l.
Proof. apply sort_by_perm. Qed.

Lemma sort_cmp_eq l l' : l ≡ₚ l' -> sort_cmp cmp l = sort_cmp cmp l'.
Proof. intros Hp. apply (sort_by_unique id cmp); [done|]. by intros. Qed.

Lemma is_sorted_sort_cmp l : is_sorted cmp l = true <-> sort_cmp cmp l = l.
Proof. apply (is_sorted_sort_by id cmp). Qed.

Lemma sort_cmp_idem l : sort_cmp cmp (sort_cmp cmp l) = sort_cmp cmp l.
Proof. by apply sort_cmp_eq, sort_cmp_perm. Qed.

Lemma sort_cmp_sorted l : is_sorted cmp (sort_cmp cmp l) = true.
Proof. apply is_sorted_sort_cmp, sort_cmp_idem. Qed.

(** Sorted and without repetition: the form of a set. *)
Context `{!EqDecision A}.

Definition sort_dedup (l : list A) : list A := dedup (sort_cmp cmp l).

Lemma strictly_sorted_cons a l :
  is_strictly_sorted cmp (a :: l) = true <->
  (forall b, head l = Some b -> cmp a b = Lt) /\ is_strictly_sorted cmp l = true.
Proof.
  destruct l as [|b l]; [naive_solver|]. unfold is_strictly_sorted. cbn [is_sorted_by head].
  rewrite andb_true_iff. split; intros [Hh Hs]; (split; [|done]).
  - intros c [= <-]. by destruct (cmp a b).
  - by rewrite (Hh b eq_refl).
Qed.

Lemma dedup_cons (a b : A) l :
  dedup (a :: b :: l) = if decide (a = b) then dedup (b :: l) else a :: dedup (b :: l).
Proof. done. Qed.

Lemma dedup_head (l : list A) : head (dedup l) = head l.
Proof.
  induction l as [|a l IH]; [done|]. destruct l as [|b l]; [done|]. rewrite dedup_cons.
  case_decide as E; [|done]. subst b. apply IH.
Qed.

Lemma dedup_elem (x : A) l : x ∈ dedup l <-> x ∈ l.
Proof.
  induction l as [|a l IH]; [done|]. destruct l as [|b l]; [done|]. rewrite dedup_cons.
  case_decide as E; [|set_solver]. subst b. rewrite IH. set_solver.
Qed.

Lemma dedup_sorted l : is_sorted cmp l = true -> is_strictly_sorted cmp (dedup l) = true.
Proof.
  unfold is_sorted. induction l as [|a l IH]; [done|]. destruct l as [|b l]; [done|].
  rewrite dedup_cons. cbn [is_sorted_by]. intros [Hab Hs]%andb_true_iff. case_decide as E; [by apply IH|].
  apply strictly_sorted_cons. split; [|by apply IH]. intros c. rewrite dedup_head. intros [= <-].
  unfold leb_of in Hab. destruct (cmp a b) eqn:E'; [by apply cmp_eq in E'|done..].
Qed.

Lemma strictly_sorted_dedup l : is_strictly_sorted cmp l = true -> dedup l = l.
Proof.
  induction l as [|a l IH]; [done|]. rewrite strictly_sorted_cons. intros [Ha Hs].
  destruct l as [|b l]; [done|]. rewrite dedup_cons. case_decide as E; [|f_equal; by apply IH].
  subst b. specialize (Ha a eq_refl). by rewrite cmp_refl in Ha.
Qed.

Lemma strictly_is_sorted l : is_strictly_sorted cmp l = true -> is_sorted cmp l = true.
Proof.
  unfold is_sorted. induction l as [|a l IH]; [done|]. rewrite strictly_sorted_cons. intros [Ha Hs].
  destruct l as [|b l]; [done|]. cbn [is_sorted_by]. unfold leb_of at 1. rewrite (Ha b eq_refl). by apply IH.
Qed.

Lemma strictly_all a l : is_strictly_sorted cmp (a :: l) = true -> Forall (fun b => cmp a b = Lt) l.
Proof.
  revert a. induction l as [|b l IH]; intros a; [constructor|]. rewrite strictly_sorted_cons. intros [Ha Hs].
  specialize (Ha b eq_refl). constructor; [done|]. eapply Forall_impl; [by apply IH|].
  intros c. by apply cmp_lt_trans.
Qed.

Lemma strictly_sorted_NoDup l : is_strictly_sorted cmp l = true -> NoDup l.
Proof.
  induction l as [|a l IH]; [constructor|]. intros Hs. pose proof (strictly_all a l Hs) as Ha.
  constructor; [|apply IH; by apply strictly_sorted_cons in Hs as [_ ?]].
  intros Hin. rewrite Forall_forall in Ha. specialize (Ha a Hin). by rewrite cmp_refl in Ha.
Qed.

Lemma sort_dedup_strict l : is_strictly_sorted cmp (sort_dedup l) = true.
Proof. apply dedup_sorted, sort_cmp_sorted. Qed.

Lemma sort_dedup_elem x l : x ∈ sort_dedup l <-> x ∈ l.
Proof. unfold sort_dedup. by rewrite dedup_elem, sort_cmp_perm. Qed.

Lemma sort_dedup_id l : is_strictly_sorted cmp l = true <-> sort_dedup l = l.
Proof.
  split; [|intros <-; apply sort_dedup_strict]. intros Hs. unfold sort_dedup.
  rewrite (proj1 (is_sorted_sort_cmp l)) by (by apply strictly_is_sorted). by apply strictly_sorted_dedup.
Qed.

(** The form depends on the elements alone. *)
Lemma sort_dedup_eq l l' : (forall x, x ∈ l <-> x ∈ l') -> sort_dedup l = sort_dedup l'.
Proof.
  intros He. pose proof (sort_dedup_strict l) as Hs. pose proof (sort_dedup_strict l') as Hs'.
  apply (sorted_unique id cmp); [apply (is_sorted_strong id cmp); by apply strictly_is_sorted..| |done].
  apply NoDup_Permutation; [by apply strictly_sorted_NoDup..|]. intros x. by rewrite !sort_dedup_elem.
Qed.
End SortCmp.
