(* ===== verification/Str.v ===== *)
(** * The parts of Rust's [str] and [char] the program uses

    Byte classes, trimming, splitting, searching, decimal numbers and UTF-8, as
    functions on byte lists, with the lemmas the components share. *)

From Stdlib Require Import Ascii String Lia.
From stdpp Require Import base list strings gmap.
From S2P Require Import Prelude.

#[local] Set Warnings "-clear-no-such-hyp".

(** ** Byte classes ([u8::is_ascii_*]) *)

Definition code (c : ascii) : N := N_of_ascii c.

Definition in_range (lo hi : N) (c : ascii) : bool :=
  (lo <=? code c)%N && (code c <=? hi)%N.

Definition is_digit : ascii -> bool := in_range 48 57.
Definition is_upper : ascii -> bool := in_range 65 90.
Definition is_lower : ascii -> bool := in_range 97 122.
Definition is_alpha (c : ascii) : bool := is_upper c || is_lower c.
Definition is_alnum (c : ascii) : bool := is_alpha c || is_digit c.
Definition is_graphic : ascii -> bool := in_range 33 126.
Definition is_ascii (c : ascii) : bool := (code c <? 128)%N.
Definition is_hexdigit (c : ascii) : bool :=
  is_digit c || in_range 65 70 c || in_range 97 102 c.

(** [u8::to_ascii_lowercase], [str::to_ascii_lowercase] and
    [str::eq_ignore_ascii_case]. *)
Definition lower_byte (c : ascii) : ascii :=
  if is_upper c then ascii_of_N (code c + 32) else c.
Definition to_ascii_lowercase (s : str) : str := map lower_byte s.
Definition eq_ignore_ascii_case (a b : str) : bool :=
  bool_decide (to_ascii_lowercase a = to_ascii_lowercase b).

(** The Unicode case tables of the standard library, for texts that are not
    ASCII.  On ASCII text the conversions are the ASCII ones. *)
Class Unicode := {
  lowercase_table : str -> str;
  char_upper_table : N -> list N;
  char_lower_table : N -> list N;
}.

Definition to_lowercase `{Unicode} (s : str) : str :=
  if forallb is_ascii s then to_ascii_lowercase s else lowercase_table s.

(** ** Characters of a text ([str::chars])

    UTF-8 decoding of a valid text.  A byte that does not start a sequence,
    which no [str] holds, stands for itself. *)
Definition cont_bits (c : ascii) : N := (code c mod 64)%N.

Fixpoint chars (s : str) : list N :=
  match s with
  | [] => []
  | a :: s1 =>
    if (code a <? 192)%N then code a :: chars s1
    else match s1 with
    | [] => [code a]
    | b :: s2 =>
      if (code a <? 224)%N then ((code a - 192) * 64 + cont_bits b)%N :: chars s2
      else match s2 with
      | [] => [code a; code b]
      | c :: s3 =>
        if (code a <? 240)%N
        then ((code a - 224) * 4096 + cont_bits b * 64 + cont_bits c)%N :: chars s3
        else match s3 with
        | [] => [code a; code b; code c]
        | d :: s4 =>
          ((code a - 240) * 262144 + cont_bits b * 4096 + cont_bits c * 64 + cont_bits d)%N
            :: chars s4
        end
      end
    end
  end.

(** ** Prefixes and suffixes *)

Fixpoint strip_prefix (p s : str) : option str :=
  match p, s with
  | [], _ => Some s
  | a :: p, b :: s => if decide (a = b) then strip_prefix p s else None
  | _ :: _, [] => None
  end.

Definition strip_suffix (p s : str) : option str :=
  reverse <$> strip_prefix (reverse p) (reverse s).

Definition starts_with (p s : str) : bool :=
  match strip_prefix p s with Some _ => true | None => false end.
Definition ends_with (p s : str) : bool :=
  match strip_suffix p s with Some _ => true | None => false end.

(** [starts_with] and [ends_with] of a character pattern. *)
Definition starts_with_char (p : ascii -> bool) (s : str) : bool :=
  match s with c :: _ => p c | [] => false end.
Definition ends_with_char (p : ascii -> bool) (s : str) : bool :=
  match last s with Some c => p c | None => false end.

(** The character class of a pattern such as [['[', '(']]. *)
Definition one_of (cs : list ascii) (c : ascii) : bool := bool_decide (c ∈ cs).

Definition contains_char (p : ascii -> bool) (s : str) : bool := existsb p s.

(** [str::contains] of a text. *)
Fixpoint contains (p s : str) : bool :=
  starts_with p s || match s with [] => false | _ :: s => contains p s end.

(** ** Splitting *)

(** [str::split(c)]: the pieces between the occurrences, never none. *)
Fixpoint split (c : ascii) (s : str) : list str :=
  match s with
  | [] => [[]]
  | a :: s =>
    if decide (a = c) then [] :: split c s
    else match split c s with
         | [] => [[a]]
         | p :: ps => (a :: p) :: ps
         end
  end.

(** [slice::join]. *)
Fixpoint join (sep : str) (l : list str) : str :=
  match l with
  | [] => []
  | [s] => s
  | s :: l => s ++ sep ++ join sep l
  end.

(** [str::split_once(c)] and [str::rsplit_once(c)]. *)
Fixpoint split_once (c : ascii) (s : str) : option (str * str) :=
  match s with
  | [] => None
  | a :: s =>
    if decide (a = c) then Some ([], s)
    else match split_once c s with
         | None => None
         | Some (x, y) => Some (a :: x, y)
         end
  end.

Definition rsplit_once (c : ascii) (s : str) : option (str * str) :=
  match split_once c (reverse s) with
  | None => None
  | Some (x, y) => Some (reverse y, reverse x)
  end.

(** [str::find] of a character class: the text before the first occurrence, the
    character, and what follows it. *)
Fixpoint split_at_first (p : ascii -> bool) (s : str) : option (str * ascii * str) :=
  match s with
  | [] => None
  | a :: s =>
    if p a then Some ([], a, s)
    else match split_at_first p s with
         | None => None
         | Some (x, c, y) => Some (a :: x, c, y)
         end
  end.

(** [str::replace] of one character by another. *)
Definition replace_char (a b : ascii) (s : str) : str :=
  map (fun c => if decide (c = a) then b else c) s.

(** ** Trimming ([str::trim]: Unicode White_Space) *)

Definition bytes (l : list N) : str := map ascii_of_N l.

(** The UTF-8 forms of the 25 White_Space characters. *)
Definition whitespace : list str :=
  map bytes
    ([[9]; [10]; [11]; [12]; [13]; [32]; [194; 133]; [194; 160]; [225; 154; 128];
      [226; 128; 168]; [226; 128; 169]; [226; 128; 175]; [226; 129; 159]; [227; 128; 128];
      [226; 128; 128]; [226; 128; 129]; [226; 128; 130]; [226; 128; 131]; [226; 128; 132];
      [226; 128; 133]; [226; 128; 134]; [226; 128; 135]; [226; 128; 136]; [226; 128; 137];
      [226; 128; 138]])%N.

(** [s] without the first of the texts [ws] it starts with. *)
Fixpoint strip_any (ws : list str) (s : str) : option str :=
  match ws with
  | [] => None
  | w :: ws =>
    match strip_prefix w s with
    | Some r => Some r
    | None => strip_any ws s
    end
  end.

Fixpoint strip_all (ws : list str) (fuel : nat) (s : str) : str :=
  match fuel with
  | O => s
  | S fuel => match strip_any ws s with Some r => strip_all ws fuel r | None => s end
  end.

Definition trim_start (s : str) : str := strip_all whitespace (length s) s.
Definition trim_end (s : str) : str :=
  reverse (strip_all (map (@reverse ascii) whitespace) (length s) (reverse s)).
Definition trim (s : str) : str := trim_end (trim_start s).

(** ** Decimal numbers *)

Definition digit_value (c : ascii) : N := (code c - 48)%N.
Definition digit_byte (d : N) : ascii := ascii_of_N (48 + d).

Definition u32_max : N := 4294967295.

(** [u32::from_str]: an optional [+], then at least one digit, without
    overflow. *)
Fixpoint parse_digits (acc : N) (s : str) : option N :=
  match s with
  | [] => Some acc
  | c :: s =>
    if is_digit c then
      let acc := (acc * 10 + digit_value c)%N in
      if (acc <=? u32_max)%N then parse_digits acc s else None
    else None
  end.

Definition parse_u32 (s : str) : option N :=
  match s with
  | [] => None
  | c :: r =>
    if decide (c = "+"%char) then match r with [] => None | _ => parse_digits 0 r end
    else parse_digits 0 s
  end.

(** [u32]'s [Display]. *)
Fixpoint fmt_digits (fuel : nat) (n : N) (acc : str) : str :=
  match fuel with
  | O => acc
  | S fuel =>
    let acc := digit_byte (n mod 10) :: acc in
    if (n <? 10)%N then acc else fmt_digits fuel (n / 10) acc
  end.
Definition fmt_u32 (n : N) : str := fmt_digits 10 n [].

Definition all_digits (s : str) : bool := forallb is_digit s.

(** ** Lemmas: prefixes *)

Lemma strip_prefix_Some p s r : strip_prefix p s = Some r <-> s = p ++ r.
Proof.
  revert s. induction p as [|a p IH]; intros [|b s]; cbn; try naive_solver.
  case_decide as E; [subst|naive_solver]. rewrite IH. naive_solver.
Qed.

Lemma strip_prefix_app p r : strip_prefix p (p ++ r) = Some r.
Proof. by apply strip_prefix_Some. Qed.

Lemma strip_suffix_Some p s r : strip_suffix p s = Some r <-> s = r ++ p.
Proof.
  unfold strip_suffix. rewrite fmap_Some. setoid_rewrite strip_prefix_Some. split.
  - intros (x & E & ->). rewrite <-(reverse_involutive s), E, reverse_app, reverse_involutive. done.
  - intros ->. exists (reverse r). rewrite reverse_app, reverse_involutive. done.
Qed.

Lemma strip_suffix_app p r : strip_suffix p (r ++ p) = Some r.
Proof. by apply strip_suffix_Some. Qed.

Lemma starts_with_true p s : starts_with p s = true <-> exists r, s = p ++ r.
Proof.
  unfold starts_with. destruct (strip_prefix p s) as [r|] eqn:E.
  - apply strip_prefix_Some in E. naive_solver.
  - split; [done|]. intros [r ->]. by rewrite strip_prefix_app in E.
Qed.

Lemma ends_with_true p s : ends_with p s = true <-> exists r, s = r ++ p.
Proof.
  unfold ends_with. destruct (strip_suffix p s) as [r|] eqn:E.
  - apply strip_suffix_Some in E. naive_solver.
  - split; [done|]. intros [r ->]. by rewrite strip_suffix_app in E.
Qed.

Lemma contains_true p s : contains p s = true <-> exists a b, s = a ++ p ++ b.
Proof.
  split.
  - induction s as [|c s IH]; cbn; rewrite orb_true_iff.
    + intros [H|[=]]. apply starts_with_true in H as [r Hr]. by exists [], r.
    + intros [H|H].
      * apply starts_with_true in H as [r Hr]. by exists [], r.
      * destruct (IH H) as (a & b & ->). by exists (c :: a), b.
  - intros (a & b & ->). induction a as [|c a IH]; cbn [app].
    + destruct (p ++ b) eqn:E; cbn; apply orb_true_iff; left;
        apply starts_with_true; eauto.
    + cbn. by rewrite IH, orb_true_r.
Qed.

Lemma existsb_app_true {A} (p : A -> bool) l k :
  existsb p (l ++ k) = existsb p l || existsb p k.
Proof. apply existsb_app. Qed.

Lemma one_of_true cs c : one_of cs c = true <-> c ∈ cs.
Proof. unfold one_of. apply bool_decide_eq_true. Qed.

Lemma not_contains_char (c : ascii) s :
  contains_char (fun x => bool_decide (x = c)) s = false <-> c ∉ s.
Proof.
  unfold contains_char. induction s as [|a s IH]; cbn.
  - split; [by intros _ ?%elem_of_nil|done].
  - rewrite orb_false_iff, IH, bool_decide_eq_false, not_elem_of_cons. naive_solver.
Qed.

Lemma forallb_Forall {A} (p : A -> bool) l :
  forallb p l = true <-> Forall (fun x => p x = true) l.
Proof. rewrite forallb_forall, List.Forall_forall. done. Qed.

(** ** Lemmas: splitting and joining *)

Lemma split_nonempty c s : split c s <> [].
Proof. destruct s as [|a s]; cbn; [done|]. case_decide; [done|]. by destruct (split c s). Qed.

Lemma split_app c a b : c ∉ a -> split c (a ++ c :: b) = a :: split c b.
Proof.
  intros Ha. induction a as [|x a IH]; cbn.
  - by rewrite decide_True.
  - apply not_elem_of_cons in Ha as [Hx Ha].
    rewrite decide_False by congruence. by rewrite IH.
Qed.

Lemma split_none c a : c ∉ a -> split c a = [a].
Proof.
  intros Ha. induction a as [|x a IH]; cbn; [done|].
  apply not_elem_of_cons in Ha as [Hx Ha].
  rewrite decide_False by congruence. by rewrite IH.
Qed.

Lemma join_split c s : join [c] (split c s) = s.
Proof.
  induction s as [|a s IH]; cbn; [done|].
  pose proof (split_nonempty c s). case_decide as E.
  - subst. destruct (split c s) eqn:Es; [done|]. cbn. by rewrite <-IH.
  - destruct (split c s) as [|p [|q l]] eqn:Es; [done|..]; cbn in *; by rewrite <-IH.
Qed.

Lemma split_no_sep c s : Forall (fun p => c ∉ p) (split c s).
Proof.
  induction s as [|a s IH]; cbn.
  - constructor; [|constructor]. apply not_elem_of_nil.
  - case_decide as E.
    + constructor; [apply not_elem_of_nil|done].
    + destruct (split c s) as [|p ps]; inversion IH; subst; constructor; try done.
      * apply not_elem_of_cons. split; [congruence|apply not_elem_of_nil].
      * apply not_elem_of_cons. split; [congruence|done].
Qed.

Lemma split_elem c s p x : p ∈ split c s -> x ∈ p -> x ∈ s.
Proof.
  revert p. induction s as [|a s IH]; cbn; intros p Hp Hx.
  - apply list_elem_of_singleton in Hp as ->. done.
  - case_decide as E.
    + apply elem_of_cons in Hp as [->|Hp]; [by apply elem_of_nil in Hx|].
      right. eauto.
    + destruct (split c s) as [|q qs] eqn:Es.
      * apply list_elem_of_singleton in Hp as ->.
        apply elem_of_cons in Hx as [->|Hx]; [by left|by apply elem_of_nil in Hx].
      * apply elem_of_cons in Hp as [->|Hp].
        -- apply elem_of_cons in Hx as [->|Hx]; [by left|].
           right. apply (IH q); [left|done].
        -- right. apply (IH p); [by right|done].
Qed.

Lemma split_join c l :
  l <> [] -> Forall (fun p => c ∉ p) l -> split c (join [c] l) = l.
Proof.
  induction l as [|p [|q l] IH]; intros Hl HF; [done|..].
  - inversion HF; subst. cbn. by apply split_none.
  - inversion HF as [|? ? Hp HF']; subst.
    change (join [c] (p :: q :: l)) with (p ++ [c] ++ join [c] (q :: l)).
    cbn [app]. rewrite split_app by done. by rewrite IH.
Qed.

Lemma split_once_Some c s a b :
  split_once c s = Some (a, b) <-> s = a ++ c :: b /\ c ∉ a.
Proof.
  revert a. induction s as [|x s IH]; intros a; cbn.
  - split; [done|]. intros [E _]. by destruct a.
  - case_decide as E; [subst|].
    + split.
      * intros [= <- <-]. split; [done|apply not_elem_of_nil].
      * intros [E Ha]. destruct a as [|y a]; cbn in E; [naive_solver|].
        injection E as -> ->. apply not_elem_of_cons in Ha. naive_solver.
    + destruct (split_once c s) as [[u v]|] eqn:Es.
      * split.
        -- intros [= <- <-]. destruct (proj1 (IH u) eq_refl) as [-> Hu].
           split; [done|]. apply not_elem_of_cons. split; [congruence|done].
        -- intros [E' Ha]. destruct a as [|y a]; cbn in E'; [congruence|].
           injection E' as <- ->. apply not_elem_of_cons in Ha as [_ Ha].
           assert (Some (u, v) = Some (a, b)) as [= -> ->]; [|done].
           apply IH. done.
      * split; [done|]. intros [E' Ha]. destruct a as [|y a]; cbn in E'; [congruence|].
        injection E' as <- ->. apply not_elem_of_cons in Ha as [_ Ha].
        exfalso. by discriminate (proj2 (IH a) (conj eq_refl Ha)).
Qed.

Lemma reverse_split {A} (u v : list A) c :
  reverse (u ++ c :: v) = reverse v ++ c :: reverse u.
Proof. by rewrite reverse_app, reverse_cons, <-app_assoc. Qed.

Lemma rsplit_once_Some c s a b :
  rsplit_once c s = Some (a, b) <-> s = a ++ c :: b /\ c ∉ b.
Proof.
  unfold rsplit_once. split.
  - destruct (split_once c (reverse s)) as [[u v]|] eqn:E; [|done].
    apply split_once_Some in E as [E Hu]. intros [= <- <-].
    rewrite <-(reverse_involutive s), E, reverse_split, elem_of_reverse. done.
  - intros [-> Hb]. rewrite reverse_split.
    rewrite (proj2 (split_once_Some c _ (reverse b) (reverse a))).
    + by rewrite !reverse_involutive.
    + by rewrite elem_of_reverse.
Qed.

Lemma split_at_first_Some p s a c b :
  split_at_first p s = Some (a, c, b) ->
  s = a ++ c :: b /\ p c = true /\ Forall (fun x => p x = false) a.
Proof.
  revert a. induction s as [|x s IH]; intros a; cbn; [done|].
  destruct (p x) eqn:Ex.
  - intros [= <- <- <-]. done.
  - destruct (split_at_first p s) as [[[u d] v]|]; [|done].
    intros [= <- <- <-]. destruct (IH u eq_refl) as (-> & ? & ?). auto.
Qed.

Lemma split_at_first_app p a c b :
  p c = true -> Forall (fun x => p x = false) a ->
  split_at_first p (a ++ c :: b) = Some (a, c, b).
Proof.
  intros Hc Ha. induction Ha as [|x a Hx Ha IH]; cbn.
  - by rewrite Hc.
  - by rewrite Hx, IH.
Qed.

(** ** Lemmas: trimming *)

Lemma strip_any_Some ws s r : strip_any ws s = Some r -> exists w, w ∈ ws /\ s = w ++ r.
Proof.
  induction ws as [|w ws IH]; cbn; [done|].
  destruct (strip_prefix w s) as [r'|] eqn:E.
  - intros [= ->]. apply strip_prefix_Some in E. exists w. split; [left|done].
  - intros H. destruct (IH H) as (w' & ? & ?). exists w'. split; [by right|done].
Qed.

Lemma strip_any_None ws s : strip_any ws s = None <-> (forall w r, w ∈ ws -> s <> w ++ r).
Proof.
  induction ws as [|w ws IH]; cbn.
  - split; [|done]. intros _ w r []%elem_of_nil.
  - destruct (strip_prefix w s) as [r'|] eqn:E.
    + apply strip_prefix_Some in E. split; [done|]. intros H.
      exfalso. by eapply (H w r'); [left|].
    + rewrite IH. split.
      * intros H w' r [->|Hw]%elem_of_cons; [|by apply H].
        intros ->. by rewrite strip_prefix_app in E.
      * intros H w' r Hw. apply H. by right.
Qed.

Lemma strip_all_suffix ws n s : exists a, s = a ++ strip_all ws n s.
Proof.
  revert s. induction n as [|n IH]; intros s; cbn; [by exists []|].
  destruct (strip_any ws s) as [r|] eqn:E; [|by exists []].
  apply strip_any_Some in E as (w & _ & ->). destruct (IH r) as [a Ha].
  exists (w ++ a). by rewrite <-app_assoc, <-Ha.
Qed.

Lemma strip_all_id ws n s : strip_any ws s = None -> strip_all ws n s = s.
Proof. destruct n; cbn; [done|]. by intros ->. Qed.

Lemma strip_all_done ws n s :
  [] ∉ ws -> length s <= n -> strip_any ws (strip_all ws n s) = None.
Proof.
  intros Hws. revert s. induction n as [|n IH]; intros s Hn; cbn.
  - destruct s; [|cbn in Hn; lia]. apply strip_any_None. intros w r Hw E.
    destruct w; [done|discriminate].
  - destruct (strip_any ws s) as [r|] eqn:E; [|done].
    apply strip_any_Some in E as (w & Hw & ->). apply IH.
    rewrite length_app in Hn. destruct w; [done|]. cbn in Hn. lia.
Qed.

Definition ws_start (s : str) : Prop := strip_any whitespace s = None.
Definition ws_end (s : str) : Prop := strip_any (map reverse whitespace) (reverse s) = None.

(** A text [trim] leaves alone. *)
Definition ws_free (s : str) : Prop := ws_start s /\ ws_end s.

Lemma whitespace_nonempty : ([] ∉ whitespace) /\ ([] ∉ map reverse whitespace).
Proof. split; by apply (bool_decide_unpack _); vm_compute. Qed.

Lemma ws_start_app a b : ws_start (a ++ b) -> ws_start a.
Proof.
  unfold ws_start. rewrite !strip_any_None. intros H w r Hw ->.
  eapply H; [done|]. by rewrite <-app_assoc.
Qed.

Lemma trim_ws_free s : ws_free (trim s).
Proof.
  destruct whitespace_nonempty as [H1 H2].
  assert (ws_start (trim_start s)) as Hs by (by apply strip_all_done).
  unfold trim, trim_end. set (u := trim_start s) in *. split.
  - destruct (strip_all_suffix (map reverse whitespace) (length u) (reverse u)) as [a Ha].
    apply (ws_start_app _ (reverse a)). rewrite <-reverse_app, <-Ha.
    by rewrite reverse_involutive.
  - unfold ws_end. rewrite reverse_involutive. apply strip_all_done; [done|].
    by rewrite length_reverse.
Qed.

Lemma trim_id s : ws_free s -> trim s = s.
Proof.
  intros [H1 H2]. unfold trim, trim_start, trim_end.
  rewrite (strip_all_id whitespace) by done.
  rewrite (strip_all_id (map reverse whitespace)) by done. apply reverse_involutive.
Qed.

Lemma trim_idem s : trim (trim s) = trim s.
Proof. apply trim_id, trim_ws_free. Qed.

Lemma trim_infix s : exists a b, s = a ++ trim s ++ b.
Proof.
  unfold trim, trim_end. set (u := trim_start s).
  destruct (strip_all_suffix whitespace (length s) s) as [a Ha].
  destruct (strip_all_suffix (map reverse whitespace) (length u) (reverse u)) as [b Hb].
  exists a, (reverse b). rewrite <-reverse_app, <-Hb, reverse_involutive. done.
Qed.

Lemma trim_length s : length (trim s) <= length s.
Proof.
  destruct (trim_infix s) as (a & b & E). rewrite E at 2. rewrite !length_app. lia.
Qed.

Lemma trim_elem x s : x ∈ trim s -> x ∈ s.
Proof.
  destruct (trim_infix s) as (a & b & E). rewrite E at 2. rewrite !elem_of_app. auto.
Qed.

(** Bytes that no White_Space character has: a text around one of them trims
    at its ends alone. *)
Definition not_in_ws (c : ascii) : bool := bool_decide (Forall (fun w => c ∉ w) whitespace).

Lemma app_cut {A} (a b w r : list A) c :
  a ++ c :: b = w ++ r -> c ∉ w -> exists r', a = w ++ r'.
Proof.
  revert w. induction a as [|x a IH]; intros [|y w] E Hw; cbn in *; eauto.
  - injection E as -> _. apply not_elem_of_cons in Hw. naive_solver.
  - injection E as -> E. apply not_elem_of_cons in Hw as [_ Hw].
    destruct (IH _ E Hw) as [r' ->]. by exists r'.
Qed.

Lemma not_in_ws_spec c w : not_in_ws c = true -> w ∈ whitespace -> c ∉ w.
Proof. intros H%bool_decide_eq_true. rewrite Forall_forall in H. by apply H. Qed.

Lemma ws_start_sep a c b : not_in_ws c = true -> ws_start a -> ws_start (a ++ c :: b).
Proof.
  unfold ws_start. rewrite !strip_any_None. intros Hc Ha w r Hw E.
  apply app_cut in E as [r' ->]; [|by apply not_in_ws_spec].
  by eapply Ha.
Qed.

Lemma ws_end_sep a c b : not_in_ws c = true -> ws_end b -> ws_end (a ++ c :: b).
Proof.
  unfold ws_end. rewrite !strip_any_None, reverse_split.
  intros Hc Hb w r Hw E.
  apply app_cut in E as [r' E]; [by eapply Hb|].
  apply list_elem_of_fmap in Hw as (w' & -> & Hw). rewrite elem_of_reverse.
  by apply not_in_ws_spec.
Qed.

Lemma ws_nil : ws_free [].
Proof. split; reflexivity. Qed.

Lemma ws_start_char c b : not_in_ws c = true -> ws_start (c :: b).
Proof. intros H. apply (ws_start_sep []); [done|apply ws_nil]. Qed.

Lemma ws_end_char a c : not_in_ws c = true -> ws_end (a ++ [c]).
Proof. intros H. apply ws_end_sep; [done|apply ws_nil]. Qed.

(** ** Lemmas: bytes and numbers *)

(** Decides a property of bytes by looking at all 256. *)
Definition all_bytes : list ascii := map ascii_of_N (map N.of_nat (seq 0 256)).

Lemma all_bytes_complete c : c ∈ all_bytes.
Proof.
  unfold all_bytes. apply list_elem_of_fmap. exists (N_of_ascii c).
  rewrite ascii_N_embedding. split; [done|].
  apply list_elem_of_fmap. exists (N.to_nat (N_of_ascii c)). rewrite N2Nat.id. split; [done|].
  apply elem_of_seq. pose proof (N_ascii_bounded c). lia.
Qed.

Lemma byte_check (P : ascii -> bool) c : forallb P all_bytes = true -> P c = true.
Proof.
  intros H. apply forallb_Forall in H. rewrite Forall_forall in H.
  apply H, all_bytes_complete.
Qed.

Ltac by_bytes P c := apply (byte_check P c); vm_compute; reflexivity.

Lemma digit_byte_spec d : (d < 10)%N ->
  is_digit (digit_byte d) = true /\ digit_value (digit_byte d) = d.
Proof.
  intros H. assert (d ∈ map N.of_nat (seq 0 10)) as Hin.
  { apply list_elem_of_fmap. exists (N.to_nat d). rewrite N2Nat.id. split; [done|].
    apply elem_of_seq. lia. }
  cbn in Hin. rewrite !elem_of_cons, elem_of_nil in Hin.
  repeat destruct Hin as [->|Hin]; [by vm_compute..|done].
Qed.

Lemma parse_fmt_digits fuel n acc :
  (n < 10 ^ N.of_nat fuel)%N -> (n <= u32_max)%N ->
  parse_digits 0 (fmt_digits fuel n acc) = parse_digits n acc.
Proof.
  revert n acc. induction fuel as [|fuel IH]; intros n acc Hf Hn; cbn [fmt_digits].
  - cbn in Hf. by replace n with 0%N by lia.
  - assert (n mod 10 < 10)%N as Hd by (apply N.mod_lt; lia).
    apply digit_byte_spec in Hd as [Hd1 Hd2].
    pose proof (N.div_mod n 10 ltac:(lia)) as Hdm.
    destruct (N.ltb_spec n 10) as [Hlt|Hge].
    + cbn [parse_digits]. rewrite Hd1, Hd2, (N.mod_small n) by done.
      replace (0 * 10 + n)%N with n by lia. by rewrite (proj2 (N.leb_le n u32_max)).
    + rewrite IH.
      * cbn [parse_digits]. rewrite Hd1, Hd2.
        replace (n / 10 * 10 + n mod 10)%N with n by lia.
        by rewrite (proj2 (N.leb_le n u32_max)).
      * rewrite Nat2N.inj_succ, N.pow_succ_r' in Hf.
        apply N.Div0.div_lt_upper_bound. lia.
      * pose proof (N.Div0.div_le_mono n n 10). lia.
Qed.

Lemma fmt_digits_digits fuel n acc :
  all_digits acc = true -> all_digits (fmt_digits fuel n acc) = true.
Proof.
  revert n acc. induction fuel as [|fuel IH]; intros n acc Ha; cbn [fmt_digits]; [done|].
  assert (all_digits (digit_byte (n mod 10) :: acc) = true) as Hc.
  { cbn. rewrite (proj1 (digit_byte_spec (n mod 10) ltac:(apply N.mod_lt; lia))). done. }
  destruct (n <? 10)%N; [done|]. by apply IH.
Qed.

Lemma fmt_digits_nonempty fuel n acc : acc <> [] -> fmt_digits fuel n acc <> [].
Proof.
  revert n acc. induction fuel as [|fuel IH]; intros n acc Ha; cbn [fmt_digits]; [done|].
  destruct (n <? 10)%N; [done|]. by apply IH.
Qed.

Lemma fmt_u32_digits n : all_digits (fmt_u32 n) = true.
Proof. by apply fmt_digits_digits. Qed.

Lemma fmt_u32_nonempty n : fmt_u32 n <> [].
Proof.
  unfold fmt_u32. generalize 9 as fuel. intros fuel. cbn [fmt_digits].
  destruct (n <? 10)%N; [done|]. by apply fmt_digits_nonempty.
Qed.

Lemma parse_fmt_u32 n : (n <= u32_max)%N -> parse_u32 (fmt_u32 n) = Some n.
Proof.
  intros Hn. unfold parse_u32. pose proof (fmt_u32_nonempty n) as Hne.
  pose proof (fmt_u32_digits n) as Hd.
  destruct (fmt_u32 n) as [|c r] eqn:E; [done|].
  rewrite decide_False.
  - rewrite <-E. unfold fmt_u32. rewrite parse_fmt_digits; [done| |done].
    unfold u32_max in Hn. cbn. lia.
  - intros ->. cbn in Hd. discriminate.
Qed.

(** * Searching texts

    [str::find] and [str::rfind] of a pattern, by byte offset, and the reading of a
    number. *)

(** The offset of the first occurrence of [p]. *)
Fixpoint find_str (p s : str) : option nat :=
  if starts_with p s then Some 0
  else match s with [] => None | _ :: s' => S <$> find_str p s' end.

(** The offset of the last occurrence of [p]. *)
Fixpoint rfind_str (p s : str) : option nat :=
  match s with
  | [] => if starts_with p s then Some 0 else None
  | _ :: s' =>
    match rfind_str p s' with
    | Some i => Some (S i)
    | None => if starts_with p s then Some 0 else None
    end
  end.

(** [str::parse::<u64>]. *)
Definition parse_u64 (s : str) : option N :=
  let digits := match s with "+"%char :: rest => rest | _ => s end in
  if bool_decide (digits = []) || negb (all_digits digits) then None
  else
    let n := foldl (fun acc c => (10 * acc + digit_value c)%N) 0%N digits in
    if (n <? 2 ^ 64)%N then Some n else None.

Lemma starts_with_app p s : starts_with p s = true <-> exists t, s = p ++ t.
Proof.
  unfold starts_with. revert s. induction p as [|c p IH]; intros s; cbn; [naive_solver|].
  destruct s as [|d s]; cbn; [naive_solver|]. case_decide as E.
  - subst d. rewrite IH. naive_solver.
  - naive_solver.
Qed.

(** [find] returns the place of an occurrence, and none before it. *)
Lemma find_str_spec p s :
  match find_str p s with
  | Some i => (exists t, drop i s = p ++ t) /\ i <= length s /\
      forall j, j < i -> starts_with p (drop j s) = false
  | None => forall j, j <= length s -> starts_with p (drop j s) = false
  end.
Proof.
  induction s as [|c s IH]; cbn [find_str].
  - destruct (starts_with p []) eqn:E.
    + split_and!; [by apply starts_with_app in E|lia|lia].
    + intros [|j] ?; done.
  - destruct (starts_with p (c :: s)) eqn:E.
    + split_and!; [by apply starts_with_app in E|cbn; lia|lia].
    + destruct (find_str p s) as [i|]; cbn.
      * destruct IH as (Ht & Hi & Hj). split_and!; [done|lia|]. intros [|j] ?; [done|]. apply Hj. lia.
      * intros [|j] ?; [done|]. apply IH. lia.
Qed.
