(* ===== verification/Environment.v ===== *)
(** * The environment of a model ([rv-maven-model/src/environment.rs])

    The host inputs a model can read, captured once: the platform, the JDK, the
    allowlisted environment variables and the Linux release, with the texts they are
    read from, and what os-maven-plugin derives from them ([properties.rs]). *)

From Stdlib Require Import Ascii String Lia.
From stdpp Require Import base list strings gmap.
From S2P Require Import Prelude Str.

#[local] Set Warnings "-clear-no-such-hyp".

(** ** Lines and words *)

Definition newline : ascii := ascii_of_N 10.
Definition return_byte : ascii := ascii_of_N 13.

(** [str::lines]: a final line break ends the last line. *)
Fixpoint drop_last_empty (l : list str) : list str :=
  match l with
  | [] => []
  | [[]] => []
  | line :: l => line :: drop_last_empty l
  end.

Definition lines (s : str) : list str :=
  map (fun line => default line (strip_suffix [return_byte] line)) (drop_last_empty (split newline s)).

(** [str::split_whitespace]: [word] is what was read of the current word. *)
Fixpoint split_words (fuel : nat) (word s : str) : list str :=
  match fuel with
  | O => []
  | S fuel =>
    let close := match word with [] => [] | _ => [word] end in
    match s with
    | [] => close
    | c :: rest =>
      match strip_any whitespace s with
      | Some rest => close ++ split_words fuel [] rest
      | None => split_words fuel (word ++ [c]) rest
      end
    end
  end.

Definition split_whitespace (s : str) : list str := split_words (S (length s)) [] s.

(** ** The Linux release *)

Record LinuxRelease := { release_id : str; release_version : option str; release_like : list str }.

Definition quote : ascii := ascii_of_N 34.

(** The value of a line with the prefix, trimmed and without quotes. *)
Definition release_value (prefix line : str) : option str :=
  (fun value => List.filter (fun c => negb (bool_decide (c = quote))) (trim value)) <$> strip_prefix prefix line.

Definition add_like (like : list str) (name : str) : list str :=
  if bool_decide (name = []) || bool_decide (name ∈ like) then like else like ++ [name].

(** The loop of [LinuxRelease::parse]: the id, the version and the likes so far. *)
Definition release_line (st : option str * option str * list str) (line : str)
    : option str * option str * list str :=
  let '(id, version, like) := st in
  match release_value $"ID=" line with
  | Some value => (Some value, version, add_like like value)
  | None =>
    match release_value $"VERSION_ID=" line with
    | Some value => (id, Some value, like)
    | None =>
      match release_value $"ID_LIKE=" line with
      | Some value => (id, version, foldl add_like like (split_whitespace value))
      | None => st
      end
    end
  end.

(** [LinuxRelease::parse]. *)
Definition parse_release (contents : str) : option LinuxRelease :=
  let '(id, version, like) := foldl release_line (None, None, []) (lines contents) in
  id ← id;
  Some {| release_id := id; release_version := version; release_like := like |}.

(** The maximal runs of digits of a text. *)
Fixpoint split_digits (run s : str) : list str :=
  match s with
  | [] => [run]
  | c :: s => if is_digit c then split_digits (run ++ [c]) s else run :: split_digits [] s
  end.

Section Redhat.
Context `{Unicode}.

(** [LinuxRelease::parse_redhat]. *)
Definition redhat_names : list (str * str) :=
  [($"centos", $"centos"); ($"fedora", $"fedora"); ($"red hat enterprise linux", $"rhel")].

Definition parse_redhat (contents : str) : option LinuxRelease :=
  line ← to_lowercase <$> head (lines contents);
  id ← snd <$> List.find (fun x => contains x.1 line) redhat_names;
  let version := List.find (fun digits => negb (bool_decide (digits = []))) (split_digits [] line) in
  Some {| release_id := id; release_version := version;
          release_like := add_like [$"rhel"; $"fedora"] id |}.
End Redhat.

(** ** The environment *)

Definition DEFAULT_JAVA_VERSION : str := $"17".

(** [EnvironmentInner], without the recorder of reads; [classifier_likes] is the text
    of the likes, if the build sets any. *)
Record Environment := {
  platform : option (str * str);
  java_version : option str;
  target_jdk : bool;
  java_home : option str;
  env_system_properties : gmap str str;
  env : gmap str str;
  host_env : gmap str str;
  allowed : gset str;
  allow_all_env : bool;
  linux_release : option LinuxRelease;
  classifier_likes_text : option (option str);
}.

(** [classifier_likes]: the entries, trimmed, without empty ones. *)
Definition classifier_likes (e : Environment) : list str :=
  List.filter (fun like => negb (bool_decide (like = [])))
    (map trim (from_option (split ","%char) [] (mjoin (classifier_likes_text e)))).

Definition host_java_version (e : Environment) : str := default DEFAULT_JAVA_VERSION (java_version e).

Definition allows_env (e : Environment) (name : str) : bool :=
  allow_all_env e || bool_decide (name ∈ allowed e).

(** [env_var] and [host_env_var], without the record of the read. *)
Definition env_value (e : Environment) (name : str) : option str :=
  if decide (name ∈ allowed e) then env e !! name else None.

Definition host_env_var (e : Environment) (name : str) : option str :=
  if negb (allows_env e name) then None
  else if allow_all_env e then
    match host_env e !! name with Some v => Some v | None => env e !! name end
  else env e !! name.

Definition reads_classifier_likes (e : Environment) : bool :=
  is_some_and (fun p => bool_decide (p.1 = $"linux")) (platform e) && bool_decide (is_Some (linux_release e)).

(** ** What the JVM and os-maven-plugin call a platform *)

Definition jvm_os_name (rust_os : str) : str :=
  let named s := bool_decide (rust_os = s) in
  if named $"linux" then $"Linux"
  else if named $"macos" || named $"darwin" then $"Mac OS X"
  else if named $"windows" then $"Windows 11"
  else if named $"freebsd" then $"FreeBSD"
  else if named $"openbsd" then $"OpenBSD"
  else if named $"netbsd" then $"NetBSD"
  else if named $"dragonfly" then $"DragonFly"
  else if named $"solaris" || named $"illumos" then $"SunOS"
  else if named $"aix" then $"AIX"
  else rust_os.

Definition jvm_os_arch (rust_os rust_arch : str) : str :=
  let arch s := bool_decide (rust_arch = s) in
  let amd := arch $"x86_64" || arch $"amd64" in
  if (bool_decide (rust_os = $"macos") || bool_decide (rust_os = $"darwin")) && amd then $"x86_64"
  else if amd then $"amd64"
  else if arch $"aarch64" || arch $"arm64" then $"aarch64"
  else if bool_decide (rust_os = $"linux") && arch $"x86" then $"i386"
  else rust_arch.

Definition os_name (e : Environment) : option str := (fun p => jvm_os_name p.1) <$> platform e.
Definition os_arch (e : Environment) : option str := (fun p => jvm_os_arch p.1 p.2) <$> platform e.
Definition path_separator (e : Environment) : option ascii :=
  (fun p : str * str => if decide (p.1 = $"windows") then ";"%char else ":"%char) <$> platform e.

Section Detected.
Context `{Unicode}.

Definition detector_normalize (value : str) : str := List.filter is_alnum (to_lowercase value).

Definition os_prefixes : list (str * str) :=
  [($"aix", $"aix"); ($"hpux", $"hpux"); ($"linux", $"linux"); ($"mac", $"osx"); ($"osx", $"osx");
   ($"freebsd", $"freebsd"); ($"openbsd", $"openbsd"); ($"netbsd", $"netbsd"); ($"solaris", $"sunos");
   ($"sunos", $"sunos"); ($"windows", $"windows"); ($"zos", $"zos")].

Definition detected_os_name (os_name : str) : option str :=
  let value := detector_normalize os_name in
  let os400 := starts_with $"os400" value && negb (is_some_and is_digit (value !! 5)) in
  match List.find (fun x => starts_with x.1 value) os_prefixes with
  | Some x => Some x.2
  | None => if os400 then Some $"os400" else None
  end.

Definition arch_names : list (list str * str) :=
  [([$"x8664"; $"amd64"; $"ia32e"; $"em64t"; $"x64"], $"x86_64");
   ([$"x8632"; $"x86"; $"i386"; $"i486"; $"i586"; $"i686"; $"ia32"; $"x32"], $"x86_32");
   ([$"ia64"; $"ia64w"; $"itanium64"], $"itanium_64"); ([$"ia64n"], $"itanium_32");
   ([$"sparc"; $"sparc32"], $"sparc_32"); ([$"sparcv9"; $"sparc64"], $"sparc_64");
   ([$"arm"; $"arm32"], $"arm_32"); ([$"aarch64"], $"aarch_64");
   ([$"mips"; $"mips32"], $"mips_32"); ([$"mipsel"; $"mips32el"], $"mipsel_32");
   ([$"mips64"], $"mips_64"); ([$"mips64el"], $"mipsel_64");
   ([$"ppc"; $"ppc32"], $"ppc_32"); ([$"ppcle"; $"ppc32le"], $"ppcle_32");
   ([$"ppc64"], $"ppc_64"); ([$"ppc64le"], $"ppcle_64"); ([$"s390"], $"s390_32");
   ([$"s390x"], $"s390_64"); ([$"riscv"; $"riscv32"], $"riscv"); ([$"riscv64"], $"riscv64");
   ([$"e2k"], $"e2k"); ([$"loongarch64"], $"loongarch_64")].

Definition detected_os_arch (os_arch : str) : option str :=
  snd <$> List.find (fun x => bool_decide (detector_normalize os_arch ∈ x.1)) arch_names.

Definition OS_DETECTED_PROPERTIES : list str :=
  [$"os.detected.name"; $"os.detected.arch"; $"os.detected.classifier"].

Definition os_detected (key : str) (os_name os_arch : option str) : option str :=
  let name := os_name ≫= detected_os_name in
  let arch := os_arch ≫= detected_os_arch in
  if decide (key = $"os.detected.name") then name
  else if decide (key = $"os.detected.arch") then arch
  else if decide (key = $"os.detected.classifier") then
    n ← name; a ← arch; Some (n ++ $"-" ++ a)
  else None.

(** [classifier_like]: the classifier, and the like it takes as a suffix. *)
Definition classifier_like (e : Environment) : option (str * str) :=
  release ← (if reads_classifier_likes e then linux_release e else None);
  like ← List.find (fun like => bool_decide (like ∈ release_like release)) (classifier_likes e);
  classifier ← os_detected $"os.detected.classifier" (os_name e) (os_arch e);
  Some (classifier, like).
End Detected.
