(* ===== verification/Interpolate.v ===== *)
(** * Properties and interpolation ([rv-maven-model/src/properties.rs])

    A property map, and the expansion of the [${...}] of a text over it: nested names,
    the sources a name is looked up in, the values kept for reuse, the limits, and the
    record of what was read from outside the model.  Paths are those of Unix, as texts;
    the build of a Windows binary is not modelled. *)

From Stdlib Require Import Ascii String Lia.
From stdpp Require Import base list strings gmap.
From S2P Require Import Prelude Str Environment.

#[local] Set Warnings "-clear-no-such-hyp".

(** ** Model data *)

(** [activation.rs]: where a model's command-line properties rank. *)
Inductive PropertySource := User | Import | System.

#[export] Instance property_source_eq_dec : EqDecision PropertySource.
Proof. solve_decision. Defined.

(** [pom.rs]: the fields of [<build>] that a model reads. *)
Module Build.
Record t := {
  directory : option str;
  final_name : option str;
  default_goal : option str;
  output_directory : option str;
  test_output_directory : option str;
  source_directory : option str;
  test_source_directory : option str;
  script_source_directory : option str;
}.

Definition NAMES : list str :=
  [$"directory"; $"finalName"; $"defaultGoal"; $"outputDirectory"; $"testOutputDirectory";
   $"sourceDirectory"; $"testSourceDirectory"; $"scriptSourceDirectory"].

Definition fields (b : t) : list (option str) :=
  [directory b; final_name b; default_goal b; output_directory b; test_output_directory b;
   source_directory b; test_source_directory b; script_source_directory b].

Definition field (b : t) (name : str) : option (option str) :=
  '(index, _) ← list_find (fun known => known = name) NAMES;
  fields b !! index.
End Build.

Module ParentInfo.
Record t := { group_id : str; artifact_id : str; version : str }.
End ParentInfo.

Module ModelLookup.
Record t := {
  group_id : str;
  artifact_id : str;
  version : str;
  packaging : str;
  parent : option ParentInfo.t;
  build : Build.t;
  prerequisites_maven : option str;
  base_dir : option str;
}.

(** [keep_coordinate]. *)
Definition keep_coordinate (m : t) (field value : str) : t :=
  let set g a v := {| group_id := g; artifact_id := a; version := v; packaging := packaging m; parent := parent m;
    build := build m; prerequisites_maven := prerequisites_maven m; base_dir := base_dir m |} in
  if decide (field = $"groupId") then set value (artifact_id m) (version m)
  else if decide (field = $"artifactId") then set (group_id m) value (version m)
  else if decide (field = $"version") then set (group_id m) (artifact_id m) value
  else m.
End ModelLookup.

Module ProjectInfo.
Record t := {
  group_id : str;
  artifact_id : str;
  version : str;
  packaging : str;
  parent : option ParentInfo.t;
  basedir : option str;
  build : Build.t;
  system_properties : gmap str str;
  environment : Environment;
  model_lookup : option ModelLookup.t;
}.
End ProjectInfo.

(** [environment.rs]: what a build read from outside the model. *)
Inductive HostInput :=
  | JavaVersion
  | JavaHome
  | EnvVar (name : str)
  | OsRelease
  | Jdk (condition : str)
  | Property (name : str) (value : option str)
  | File (path : str)
  | FileLookup (expression : str) (properties : list (str * str)) (base_dir default_packaging : option str)
      (source : PropertySource)
  | SettingsProperty (name : str)
  | UserProperty (name : str)
  | UserPropertyLookup (expression : str) (properties : list (str * str)) (from_host : bool)
      (default_packaging : option str) (source : PropertySource)
  | InterpolationLookup (expression : str) (properties : list (str * str)) (source : PropertySource)
      (default_packaging : option str) (model : option ModelLookup.t) (model_interpolation from_host : bool).

Definition is_host_read (i : HostInput) : bool :=
  match i with
  | UserProperty _ => false
  | UserPropertyLookup _ _ from_host _ _ => from_host
  | InterpolationLookup _ _ _ _ _ _ from_host => from_host
  | _ => true
  end.

(** [activation.rs]: the one [!] Maven honours. *)
Definition negation (test : str) : bool * str :=
  match strip_prefix $"!" test with Some rest => (true, rest) | None => (false, test) end.

Definition is_java_version (i : HostInput) : bool :=
  match i with
  | JavaVersion | Jdk _ => true
  | Property name _ => bool_decide ((negation name).2 = $"java.version")
  | _ => false
  end.

(** The errors of interpolation. *)
Inductive PomError :=
  | InvalidModel (message : str)
  | PropertyCycle (names : list str).

(** ** Property maps *)

Record PropertyInputs := {
  external : gset str;
  below_system : gset str;
  source : PropertySource;
  default_packaging : option str;
}.

Definition no_inputs : PropertyInputs :=
  {| external := ∅; below_system := ∅; source := User; default_packaging := None |}.

(** The entries in insertion order, what is known of their origin, and the bytes the
    interpolations over the map expanded. *)
Record PropertyMap := {
  props : list (str * str);
  inputs : option PropertyInputs;
  expanded : N;
}.

Definition new_map : PropertyMap := {| props := []; inputs := None; expanded := 0 |}.

(** A copy starts its budget again. *)
Definition clone_map (m : PropertyMap) : PropertyMap := {| props := props m; inputs := inputs m; expanded := 0 |}.

(** [IndexMap::get] and [IndexMap::insert]. *)
Fixpoint entry_of (key : str) (l : list (str * str)) : option str :=
  match l with
  | [] => None
  | (k, v) :: l => if decide (k = key) then Some v else entry_of key l
  end.

Fixpoint put (key value : str) (l : list (str * str)) : list (str * str) :=
  match l with
  | [] => [(key, value)]
  | (k, v) :: l => if decide (k = key) then (k, value) :: l else (k, v) :: put key value l
  end.

Definition get (m : PropertyMap) (key : str) : option str := entry_of key (props m).

Definition insert (key value : str) (m : PropertyMap) : PropertyMap := {|
  props := put key value (props m);
  inputs := (fun i => {| external := external i ∖ {[key]}; below_system := below_system i ∖ {[key]};
                         source := source i; default_packaging := default_packaging i |}) <$> inputs m;
  expanded := expanded m |}.

Definition insert_external (key value : str) (m : PropertyMap) : PropertyMap :=
  let i := default no_inputs (inputs m) in {|
  props := put key value (props m);
  inputs := Some {| external := {[key]} ∪ external i; below_system := below_system i;
                    source := source i; default_packaging := default_packaging i |};
  expanded := expanded m |}.

Definition insert_below_system (key value : str) (m : PropertyMap) : PropertyMap :=
  let i := default no_inputs (inputs m) in {|
  props := put key value (props m);
  inputs := Some {| external := external i; below_system := {[key]} ∪ below_system i;
                    source := source i; default_packaging := default_packaging i |};
  expanded := expanded m |}.

(** [set_input_context], of the two fields of the context it takes. *)
Definition set_input_context (s : PropertySource) (packaging : option str) (m : PropertyMap) : PropertyMap :=
  let i := default no_inputs (inputs m) in {|
  props := props m;
  inputs := Some {| external := external i; below_system := below_system i; source := s; default_packaging := packaging |};
  expanded := expanded m |}.

Definition is_external (m : PropertyMap) (key : str) : bool :=
  is_some_and (fun i => bool_decide (key ∈ external i)) (inputs m).

Definition is_below_system (m : PropertyMap) (key : str) : bool :=
  is_some_and (fun i => bool_decide (key ∈ below_system i)) (inputs m).

(** [extend]: the entries of the other map win. *)
Definition extend (m other : PropertyMap) : PropertyMap :=
  let theirs : gset str := list_to_set (map fst (props other)) in
  let kept := (fun i => {| external := external i ∖ theirs; below_system := below_system i ∖ theirs;
                           source := source i; default_packaging := default_packaging i |}) <$> inputs m in
  let added := from_option external ∅ (inputs other) in {|
  props := foldl (fun l x => put x.1 x.2 l) (props m) (props other);
  inputs :=
    if decide (added = ∅) then kept
    else
      let i := default no_inputs kept in
      Some {| external := external i ∪ added; below_system := below_system i; source := source i;
              default_packaging := default_packaging i |};
  expanded := expanded m |}.

(** ** Lookups *)

Record Lookup := {
  project : option ProjectInfo.t;
  lookup_system_properties : option (gmap str str);
  lookup_environment : option Environment;
  model : bool;
}.

(** [Lookup::environment]. *)
Definition environment_of (l : Lookup) : option Environment :=
  match lookup_environment l with Some e => Some e | None => ProjectInfo.environment <$> project l end.

Definition platform_of (l : Lookup) : option (gmap str str) :=
  match lookup_system_properties l with
  | Some p => Some p
  | None => ProjectInfo.system_properties <$> project l
  end.

Definition model_lookup_of (l : Lookup) : option ModelLookup.t := p ← project l; ProjectInfo.model_lookup p.
Definition prerequisites_of (l : Lookup) : option str := m ← model_lookup_of l; ModelLookup.prerequisites_maven m.

Definition with_environment (l : Lookup) (e : option Environment) : Lookup := {|
  project := project l; lookup_system_properties := lookup_system_properties l;
  lookup_environment := e; model := model l |}.

(** ** Paths *)

Definition slash : ascii := "/"%char.

(** The components of a path; [.] counts only where a relative path starts with it. *)
Inductive component := RootDir | CurDir | ParentDir | Normal (name : str).

Definition component_of (segment : str) : component :=
  if decide (segment = $".") then CurDir
  else if decide (segment = $"..") then ParentDir
  else Normal segment.

Definition components (path : str) : list component :=
  let segments := map component_of (List.filter (fun s => negb (bool_decide (s = []))) (split slash path)) in
  let inner := List.filter (fun c => match c with CurDir => false | _ => true end) in
  match path, segments with
  | c :: _, _ => if decide (c = slash) then RootDir :: inner segments
                 else match segments with CurDir :: rest => CurDir :: inner rest | _ => inner segments end
  | [], _ => []
  end.

(** [Path::join] of a relative path. *)
Definition join_path (base path : str) : str :=
  if bool_decide (base = []) || ends_with [slash] base then base ++ path else base ++ slash :: path.

Definition component_text (c : component) : str :=
  match c with RootDir => [] | CurDir => $"." | ParentDir => $".." | Normal name => name end.

(** The text of a path built by pushing the components. *)
Definition path_text (l : list component) : str :=
  match l with
  | [RootDir] => [slash]
  | _ => join [slash] (map component_text l)
  end.

(** [java_file_path]: runs of separators collapse, and none is left at the end but the
    root's. *)
Fixpoint collapse (after : bool) (path : str) : str :=
  match path with
  | [] => []
  | c :: path =>
    if decide (c = slash) then if after then collapse true path else c :: collapse true path
    else c :: collapse false path
  end.

Definition java_file_path (path : str) : str :=
  let out := collapse false path in
  if bool_decide (out = [slash]) then out else default out (strip_suffix [slash] out).

Definition aligned_push (aligned : list component) (c : component) : list component :=
  match c with
  | CurDir => aligned
  | ParentDir => match last aligned with Some (Normal _) => removelast aligned | _ => aligned ++ [ParentDir] end
  | c => aligned ++ [c]
  end.

Definition align_to_base_directory (path basedir : str) : str :=
  let path := map (fun c => if decide (c = "\"%char) then slash else c) path in
  if starts_with [slash] path then java_file_path path
  else path_text (foldl aligned_push [] (components (join_path basedir path))).

Definition hex_upper (n : N) : ascii := ascii_of_N (if (n <? 10)%N then 48 + n else 55 + n).

Definition uri_byte (c : ascii) : str :=
  if is_alnum c || bool_decide (c ∈ $"-_.!~*'():@&=+$,;/") then [c]
  else ["%"%char; hex_upper (code c / 16); hex_upper (code c mod 16)].

Definition directory_uri (path : str) : str :=
  let text := map (fun c => if decide (c = "\"%char) then slash else c) path in
  let uri := $"file://" ++ (if starts_with [slash] text then [] else [slash]) ++ concat (map uri_byte text) in
  if ends_with [slash] uri then uri else uri ++ [slash].

(** ** The sources of a value that read nothing else *)

(** [resolve_unprefixed_model_field]. *)
Definition resolve_unprefixed_model_field (key : str) (p : option ProjectInfo.t) : option str :=
  p ← p;
  let parent := ProjectInfo.parent p in
  let filled (value : str) := if decide (value = []) then None else Some value in
  if decide (key = $"groupId") then filled (ProjectInfo.group_id p)
  else if decide (key = $"artifactId") then filled (ProjectInfo.artifact_id p)
  else if decide (key = $"version") then filled (ProjectInfo.version p)
  else if decide (key = $"packaging") then Some (ProjectInfo.packaging p)
  else if decide (key = $"parent.groupId") then ParentInfo.group_id <$> parent
  else if decide (key = $"parent.artifactId") then ParentInfo.artifact_id <$> parent
  else if decide (key = $"parent.version") then ParentInfo.version <$> parent
  else None.

(** [resolve_builtin] of a key that is not read as [project.] of a [pom.] name. *)
Definition resolve_project_builtin (key : str) (p : option ProjectInfo.t) : option str :=
  p ← p;
  if bool_decide (key = $"project.basedir") || bool_decide (key = $"basedir") then ProjectInfo.basedir p
  else if decide (key = $"project.baseUri") then directory_uri <$> ProjectInfo.basedir p
  else name ← strip_prefix $"project." key; resolve_unprefixed_model_field name (Some p).

(** [resolve_builtin]: a [project.] name starts with no [pom.], so that it calls itself
    once at most. *)
Definition resolve_builtin (key : str) (p : option ProjectInfo.t) : option str :=
  match strip_prefix $"pom." key with
  | Some rest =>
    match resolve_project_builtin ($"project." ++ rest) p with
    | Some value => Some value
    | None => resolve_project_builtin key p
    end
  | None => resolve_project_builtin key p
  end.

(** [super_pom_build]. *)
Definition super_pom_build (field : str) : option str :=
  if decide (field = $"directory") then Some $"${project.basedir}/target"
  else if decide (field = $"finalName") then Some $"${project.artifactId}-${project.version}"
  else if decide (field = $"outputDirectory") then Some $"${project.build.directory}/classes"
  else if decide (field = $"testOutputDirectory") then Some $"${project.build.directory}/test-classes"
  else if decide (field = $"sourceDirectory") then Some $"${project.basedir}/src/main/java"
  else if decide (field = $"testSourceDirectory") then Some $"${project.basedir}/src/test/java"
  else if decide (field = $"scriptSourceDirectory") then Some $"${project.basedir}/src/main/scripts"
  else None.

(** [find_matching_brace]: the place of the brace that closes the one before the text. *)
Fixpoint matching_brace (depth : nat) (s : str) : option nat :=
  match s with
  | [] => None
  | c :: s =>
    if decide (c = "{"%char) then S <$> matching_brace (S depth) s
    else if decide (c = "}"%char) then
      match depth with
      | S (S depth) => S <$> matching_brace (S depth) s
      | _ => Some 0
      end
    else S <$> matching_brace depth s
  end.

Definition find_matching_brace (s : str) : option nat := matching_brace 1 s.

(** The first reference of a text: what is before it, the name as written, and what
    follows; none when there is none or it does not close. *)
Definition first_reference (s : str) : option (str * str * str) :=
  start ← find_str $"${" s;
  let after := drop (start + 2) s in
  finish ← find_matching_brace after;
  Some (take start s, take finish after, drop (S finish) after).

(** [expression_names]. *)
Fixpoint reference_names (fuel : nat) (s : str) : list str :=
  match fuel, first_reference s with
  | S fuel, Some (_, name, rest) => name :: reference_names fuel rest
  | _, _ => []
  end.

Definition expression_names (s : str) : list str := reference_names (length s) s.

(** ** One interpolation *)

(** The state of an interpolation; [reads] are the reads it recorded in the environment,
    and [likes_read] whether it marked the likes read. *)
Record Walk := {
  path : list str;
  resolved : gmap str (str * bool);
  build : gmap str str;
  resolved_len : N;
  names : option (gset str);
  public_names : option (gset str);
  external_depth : nat;
  external_values : nat;
  private_key : bool;
  private_names : bool;
  private_host : bool;
  walk_below_system : gset str;
  reads : list HostInput;
  likes_read : bool;
}.

Definition new_walk (names public : option (gset str)) : Walk := {|
  path := []; resolved := ∅; build := ∅; resolved_len := 0; names := names; public_names := public;
  external_depth := 0; external_values := 0; private_key := false; private_names := false;
  private_host := false; walk_below_system := ∅; reads := []; likes_read := false |}.

(** Code that can fail and leaves what it did to the state. *)
Definition Expanding (A : Type) : Type := Walk -> result PomError A * Walk.

#[global] Instance expanding_ret : MRet Expanding := fun A a w => (Ok a, w).
#[global] Instance expanding_bind : MBind Expanding := fun A B f m w =>
  match m w with (Ok a, w) => f a w | (Err e, w) => (Err e, w) end.

Definition fail {A} (e : PomError) : Expanding A := fun w => (Err e, w).
Definition update (f : Walk -> Walk) : Expanding unit := fun w => (Ok (), f w).
Definition read_state {A} (f : Walk -> A) : Expanding A := fun w => (Ok (f w), w).

(** *** Assignments to one field *)

Definition set_path (x : list str) (w : Walk) : Walk := {|
  path := x; resolved := resolved w; build := build w; resolved_len := resolved_len w; names :=
  names w; public_names := public_names w; external_depth := external_depth w; external_values :=
  external_values w; private_key := private_key w; private_names := private_names w; private_host
  := private_host w; walk_below_system := walk_below_system w; reads := reads w; likes_read :=
  likes_read w |}.

Definition set_names (x : option (gset str)) (w : Walk) : Walk := {|
  path := path w; resolved := resolved w; build := build w; resolved_len := resolved_len w; names
  := x; public_names := public_names w; external_depth := external_depth w; external_values :=
  external_values w; private_key := private_key w; private_names := private_names w; private_host
  := private_host w; walk_below_system := walk_below_system w; reads := reads w; likes_read :=
  likes_read w |}.

Definition set_public (x : option (gset str)) (w : Walk) : Walk := {|
  path := path w; resolved := resolved w; build := build w; resolved_len := resolved_len w; names
  := names w; public_names := x; external_depth := external_depth w; external_values :=
  external_values w; private_key := private_key w; private_names := private_names w; private_host
  := private_host w; walk_below_system := walk_below_system w; reads := reads w; likes_read :=
  likes_read w |}.

Definition set_external_depth (x : nat) (w : Walk) : Walk := {|
  path := path w; resolved := resolved w; build := build w; resolved_len := resolved_len w; names
  := names w; public_names := public_names w; external_depth := x; external_values :=
  external_values w; private_key := private_key w; private_names := private_names w; private_host
  := private_host w; walk_below_system := walk_below_system w; reads := reads w; likes_read :=
  likes_read w |}.

Definition set_private_key (x : bool) (w : Walk) : Walk := {|
  path := path w; resolved := resolved w; build := build w; resolved_len := resolved_len w; names
  := names w; public_names := public_names w; external_depth := external_depth w; external_values
  := external_values w; private_key := x; private_names := private_names w; private_host :=
  private_host w; walk_below_system := walk_below_system w; reads := reads w; likes_read :=
  likes_read w |}.

Definition set_private_names (x : bool) (w : Walk) : Walk := {|
  path := path w; resolved := resolved w; build := build w; resolved_len := resolved_len w; names
  := names w; public_names := public_names w; external_depth := external_depth w; external_values
  := external_values w; private_key := private_key w; private_names := x; private_host :=
  private_host w; walk_below_system := walk_below_system w; reads := reads w; likes_read :=
  likes_read w |}.

Definition set_private_host (x : bool) (w : Walk) : Walk := {|
  path := path w; resolved := resolved w; build := build w; resolved_len := resolved_len w; names
  := names w; public_names := public_names w; external_depth := external_depth w; external_values
  := external_values w; private_key := private_key w; private_names := private_names w;
  private_host := x; walk_below_system := walk_below_system w; reads := reads w; likes_read :=
  likes_read w |}.

Definition set_below_system (x : gset str) (w : Walk) : Walk := {|
  path := path w; resolved := resolved w; build := build w; resolved_len := resolved_len w; names
  := names w; public_names := public_names w; external_depth := external_depth w; external_values
  := external_values w; private_key := private_key w; private_names := private_names w;
  private_host := private_host w; walk_below_system := x; reads := reads w; likes_read :=
  likes_read w |}.

Definition set_reads (x : list HostInput) (w : Walk) : Walk := {|
  path := path w; resolved := resolved w; build := build w; resolved_len := resolved_len w; names
  := names w; public_names := public_names w; external_depth := external_depth w; external_values
  := external_values w; private_key := private_key w; private_names := private_names w;
  private_host := private_host w; walk_below_system := walk_below_system w; reads := x; likes_read
  := likes_read w |}.

Definition count_external (n : nat) (w : Walk) : Walk := {|
  path := path w; resolved := resolved w; build := build w; resolved_len := resolved_len w; names
  := names w; public_names := public_names w; external_depth := external_depth w; external_values
  := external_values w + n; private_key := private_key w; private_names := private_names w;
  private_host := private_host w; walk_below_system := walk_below_system w; reads := reads w;
  likes_read := likes_read w |}.

Definition keep_resolved (key value : str) (outside : bool) (w : Walk) : Walk := {|
  path := path w; resolved := <[key := (value, outside)]> (resolved w); build := build w;
  resolved_len := resolved_len w; names := names w; public_names := public_names w; external_depth
  := external_depth w; external_values := external_values w; private_key := private_key w;
  private_names := private_names w; private_host := private_host w; walk_below_system :=
  walk_below_system w; reads := reads w; likes_read := likes_read w |}.

Definition keep_build (field value : str) (w : Walk) : Walk := {|
  path := path w; resolved := resolved w; build := <[field := value]> (build w); resolved_len :=
  resolved_len w; names := names w; public_names := public_names w; external_depth :=
  external_depth w; external_values := external_values w; private_key := private_key w;
  private_names := private_names w; private_host := private_host w; walk_below_system :=
  walk_below_system w; reads := reads w; likes_read := likes_read w |}.

Definition charge (n : N) (w : Walk) : Walk := {|
  path := path w; resolved := resolved w; build := build w; resolved_len := (resolved_len w +
  n)%N; names := names w; public_names := public_names w; external_depth := external_depth w;
  external_values := external_values w; private_key := private_key w; private_names :=
  private_names w; private_host := private_host w; walk_below_system := walk_below_system w; reads
  := reads w; likes_read := likes_read w |}.

Definition mark_likes_read (w : Walk) : Walk := {|
  path := path w; resolved := resolved w; build := build w; resolved_len := resolved_len w; names
  := names w; public_names := public_names w; external_depth := external_depth w; external_values
  := external_values w; private_key := private_key w; private_names := private_names w;
  private_host := private_host w; walk_below_system := walk_below_system w; reads := reads w;
  likes_read := true |}.

(** ** Reads of the environment *)

(** [ModelEnvironment::record]: a fixed target JDK is no read of the host. *)
Definition record (e : Environment) (i : HostInput) (w : Walk) : Walk :=
  if is_java_version i && target_jdk e then w else set_reads (reads w ++ [i]) w.

(** [resolve_system_property]. *)
Definition resolve_system_property (key : str) (l : Lookup) (w : Walk) : option str * Walk :=
  match platform_of l ≫= (fun p => p !! key), environment_of l with
  | Some value, _ => (Some value, w)
  | None, None => (None, w)
  | None, Some e =>
    if decide (key = $"java.version") then (Some (host_java_version e), record e JavaVersion w)
    else
      let prefixed := strip_prefix $"env." key in
      if bool_decide (prefixed = None) && negb (model l) then (None, w)
      else
        let name := default key prefixed in
        if bool_decide (name = []) || negb (allows_env e name) then (None, w)
        else if decide (name ∈ allowed e) then (env e !! name, record e (EnvVar name) w)
        else (None, w)
  end.

(** [linux_release]. *)
Definition read_release (e : Environment) (w : Walk) : option LinuxRelease * Walk :=
  (linux_release e, record e OsRelease w).

(** [os_detected_on_linux]. *)
Definition os_detected_on_linux (key : str) (l : Lookup) (w : Walk) : option str * Walk :=
  match platform_of l, environment_of l with
  | Some platform, Some e =>
    if negb (starts_with $"os.detected." key)
       || negb (bool_decide (platform !! $"os.detected.name" = Some $"linux"))
       || (negb (bool_decide (key = $"os.detected.classifier")) && bool_decide (is_Some (platform !! key)))
    then (None, w)
    else if decide (key = $"os.detected.classifier") then
      match platform !! key with
      | None => (None, w)
      | Some classifier =>
        let w := if bool_decide (is_Some (classifier_likes_text e)) then mark_likes_read w else w in
        if decide (classifier_likes e = []) then (None, w)
        else
          let '(release, w) := read_release e w in
          ((fun like => classifier ++ $"-" ++ like) <$>
             (release ← release; List.find (fun like => bool_decide (like ∈ release_like release)) (classifier_likes e)), w)
      end
    else if decide (key = $"os.detected.release") then
      let '(release, w) := read_release e w in (release_id <$> release, w)
    else if decide (key = $"os.detected.release.version") then
      let '(release, w) := read_release e w in (release ≫= release_version, w)
    else
      match strip_prefix $"os.detected.release.like." key with
      | None => (None, w)
      | Some like =>
        let '(release, w) := read_release e w in
        (release ← release; if decide (like ∈ release_like release) then Some $"true" else None, w)
      end
  | _, _ => (None, w)
  end.

(** ** Expansion *)

Definition MAX_INTERPOLATION_LENGTH : N := 1048576.
Definition MAX_INTERPOLATION_DEPTH : nat := 100.
Definition MAX_RESOLVED_LENGTH : N := 4194304.
Definition MAX_EXPANDED_LENGTH : N := 33554432.

Definition size_of (s : str) : N := N.of_nat (length s).

Definition too_large : PomError := InvalidModel $"property interpolation too large".
Definition too_deep : PomError := InvalidModel $"property interpolation depth limit exceeded (max: 100)".
Definition model_too_large : PomError := InvalidModel $"property interpolation too large for one model".

Definition check_size (output : str) : Expanding unit :=
  if (MAX_INTERPOLATION_LENGTH <? size_of output)%N then fail too_large else mret ().

(** Entering a name on the path, and leaving it. *)
Definition enter (name : str) : Expanding unit := fun w =>
  let w' := set_path (path w ++ [name]) w in
  if decide (name ∈ path w) then (Err (PropertyCycle (path w')), w') else (Ok (), w').

Definition leave : Expanding unit := update (fun w => set_path (removelast (path w)) w).

(** Bytes kept for reuse. *)
Definition spend (n : N) : Expanding unit := fun w =>
  let w := charge n w in
  if (MAX_RESOLVED_LENGTH <? resolved_len w)%N then (Err too_large, w) else (Ok (), w).

Section Expand.
Context (m : PropertyMap).

Section Value.
(** The expansion of a text one level deeper. *)
Context (deeper : str -> Lookup -> Expanding str).

(** [resolve_build]. *)
Definition resolve_build (field : str) (l : Lookup) : Expanding (option str) := fun w =>
  match project l with
  | None => (Ok None, w)
  | Some p =>
    match Build.field (ProjectInfo.build p) field with
    | None => (Ok None, w)
    | Some raw =>
      match (match raw with Some raw => Some raw | None => super_pom_build field end) with
      | None => (Ok None, w)
      | Some raw =>
        match build w !! field with
        | Some value => (Ok (Some value), w)
        | None =>
          (_ ← enter ($"project.build." ++ field);
           value ← deeper raw l;
           _ ← leave;
           let value :=
             match ProjectInfo.basedir p with
             | Some basedir =>
               if bool_decide (field = $"finalName") || bool_decide (field = $"defaultGoal") then value
               else align_to_base_directory value basedir
             | None => value
             end in
           _ ← spend (size_of field + size_of value);
           _ ← update (keep_build field value);
           mret (Some value)) w
        end
      end
    end
  end.

(** [resolve_prerequisite]. *)
Definition resolve_prerequisite (key : str) (l : Lookup) : Expanding (option str) :=
  let name := $"project.prerequisites.maven" in
  if negb (bool_decide (key = name)) && negb (bool_decide (key = $"pom.prerequisites.maven")) then mret None
  else
    match prerequisites_of l with
    | None => mret None
    | Some raw =>
      _ ← enter name;
      value ← deeper raw l;
      _ ← leave;
      mret (Some value)
    end.

(** A value from outside the map. *)
Definition outside (value : option str) : Expanding (option str) :=
  match value with
  | Some value => _ ← update (count_external 1); mret (Some value)
  | None => mret None
  end.

(** The reads of user properties a lookup records, and the names it collects. *)
Definition note_lookup (key : str) (l : Lookup) (w : Walk) : Walk :=
  let below := is_below_system m key in
  let w := if below then set_below_system ({[key]} ∪ walk_below_system w) w else w in
  let hidden := bool_decide (is_Some (get m key))
    && is_some_and (fun i => bool_decide (source i = System)) (inputs m) && negb below in
  let w :=
    match environment_of l with
    | Some e =>
      if model l && negb (private_key w) && negb hidden then
        let w := record e (UserProperty key) w in
        if starts_with $"os.detected." key && bool_decide (get m key = None)
        then record e (UserProperty $"os.arch") (record e (UserProperty $"os.name") w) else w
      else w
    | None => w
    end in
  let w := set_names ((fun names => {[key]} ∪ names) <$> names w) w in
  if private_key w then w else set_public ((fun names => {[key]} ∪ names) <$> public_names w) w.

(** A name the map does not hold. *)
Definition resolve_missing (key : str) (unprefixed_build : option str) (l : Lookup) : Expanding (option str) := fun w =>
  let '(detected, w) := os_detected_on_linux key l w in
  match detected with
  | Some value => outside (Some value) w
  | None =>
    let '(value, w) := resolve_system_property key l w in
    match value with
    | Some value => outside (Some value) w
    | None =>
      (built ← match unprefixed_build with Some field => resolve_build field l | None => mret None end;
       match built with
       | Some value => outside (Some value)
       | None => outside (resolve_unprefixed_model_field key (project l))
       end) w
    end
  end.

(** A name the map holds. *)
Definition resolve_property (key raw : str) (l : Lookup) : Expanding (option str) := fun w =>
  match resolved w !! key with
  | Some (value, foreign) => (Ok (Some value), count_external (if (foreign : bool) then 1 else 0) w)
  | None =>
    let external := is_external m key in
    let n := if external then 1 else 0 in
    let before := external_values w in
    (_ ← enter key;
     _ ← update (count_external n);
     _ ← update (fun w => set_external_depth (external_depth w + n) w);
     value ← ((fun w => let '(r, w) := deeper raw l w in (r, set_external_depth (external_depth w - n) w)) : Expanding str);
     _ ← leave;
     _ ← spend (size_of key + size_of value);
     _ ← update (fun w => keep_resolved key value (negb (external_values w =? before)) w);
     mret (Some value)) w
  end.

(** [resolve_value_inner]. *)
Definition resolve_value_inner (key : str) (l : Lookup) : Expanding (option str) :=
  let field :=
    match strip_prefix $"project.build." key with
    | Some field => Some field
    | None => strip_prefix $"pom.build." key
    end in
  built ← match field with Some field => resolve_build field l | None => mret None end;
  match built with
  | Some value => outside (Some value)
  | None =>
    match resolve_builtin key (project l) with
    | Some value => outside (Some value)
    | None =>
      required ← resolve_prerequisite key l;
      match required with
      | Some value => outside (Some value)
      | None =>
        let unprefixed_build := strip_prefix $"build." key in
        let key :=
          match strip_prefix $"project.properties." key with
          | Some name => name
          | None => default key (strip_prefix $"pom.properties." key)
          end in
        _ ← update (note_lookup key l);
        match get m key with
        | None => resolve_missing key unprefixed_build l
        | Some raw => resolve_property key raw l
        end
      end
    end
  end.

(** The lookup of one reference: one whose name came from outside the map is private,
    and its reads of the environment are kept apart. *)
Definition resolve_reference (before : nat) (key : str) (l : Lookup) : Expanding (option str) := fun w =>
  let previous := private_key w in
  let private := (0 <? external_depth w) || negb (external_values w =? before) in
  let w := set_private_names (private_names w || private) (set_private_key private w) in
  let '(value, w) :=
    match (if private then environment_of l else None) with
    | Some e =>
      let kept := reads w in
      let '(value, w) := resolve_value_inner key (with_environment l (Some e)) (set_reads [] w) in
      (value, set_reads kept (set_private_host (private_host w || existsb is_host_read (reads w)) w))
    | None => resolve_value_inner key l w
    end in
  (value, set_private_key previous w).

(** The loop over the references of a text. *)
Fixpoint expand_references (fuel : nat) (borrows : bool) (output rest : str) (l : Lookup) : Expanding str :=
  match fuel, first_reference rest with
  | S fuel, Some (text, written, rest) =>
    before ← read_state external_values;
    key ← (if borrows && (size_of written <=? MAX_INTERPOLATION_LENGTH)%N && negb (contains $"${" written)
           then mret written else deeper written l);
    value ← resolve_reference before key l;
    let output := output ++ text ++ match value with Some value => value | None => $"${" ++ key ++ $"}" end in
    _ ← check_size output;
    expand_references fuel borrows output rest l
  | _, _ =>
    let output := output ++ rest in
    _ ← check_size output;
    mret output
  end.
End Value.

(** [interpolate_str_inner], with the levels left. *)
Fixpoint interpolate_str_inner (levels : nat) (input : str) (l : Lookup) : Expanding str :=
  match levels with
  | O => fail too_deep
  | S levels =>
    expand_references (interpolate_str_inner levels) (length input) (0 <? levels) [] input l
  end.

(** [expand]: one interpolation, charged to the map. *)
Definition expand (input : str) (l : Lookup) (w : Walk) : result PomError str * Walk * PropertyMap :=
  let '(r, w) := interpolate_str_inner MAX_INTERPOLATION_DEPTH input l w in
  match r with
  | Err e => (Err e, w, m)
  | Ok output =>
    let total := (expanded m + (resolved_len w + size_of output))%N in
    (if (MAX_EXPANDED_LENGTH <? total)%N then Err model_too_large else Ok output, w,
     {| props := props m; inputs := inputs m; expanded := total |})
  end.

(** [record_private_reads]. *)
Definition record_private_reads (input : str) (l : Lookup) (w : Walk) : Walk :=
  match environment_of l with
  | None => w
  | Some e =>
    let w := if model l then foldl (fun w name => record e (UserProperty name) w) w (elements (walk_below_system w)) else w in
    if private_names w then
      let properties := omap (fun x => if is_external m x then None else (fun v => (x, v)) <$> get m x)
        (map fst (map_to_list (resolved w))) in
      record e (InterpolationLookup input properties (from_option source User (inputs m))
        (inputs m ≫= default_packaging) (model_lookup_of l) (model l) (private_host w)) w
    else w
  end.

(** [interpolate_names] and [interpolate_str_with]: the result, what was recorded in the
    environment, and the map as it was charged. *)
Definition interpolate_names (input : str) (l : Lookup) (public_only : bool)
    : result PomError str * gset str * list HostInput * PropertyMap :=
  let '(r, w, m') := expand input l (new_walk (Some ∅) (Some ∅)) in
  let w := record_private_reads input l w in
  (r, default ∅ (if public_only then public_names w else names w), reads w, m').

Definition interpolate_str_with (input : str) (l : Lookup) : result PomError str * list HostInput * PropertyMap :=
  if (size_of input <=? MAX_INTERPOLATION_LENGTH)%N && negb (contains $"${" input) then (Ok input, [], m)
  else
    let '(r, w, m') := expand input l (new_walk None None) in
    (r, reads (record_private_reads input l w), m').

(** The interpolations the rest of the crate asks for. *)
Definition interpolate_str (input : str) (p : ProjectInfo.t) :=
  interpolate_str_with input {| project := Some p; lookup_system_properties := None; lookup_environment := None; model := true |}.

Definition interpolate_str_no_project (input : str) :=
  interpolate_str_with input {| project := None; lookup_system_properties := None; lookup_environment := None; model := false |}.

Definition interpolate_str_with_system_properties (input : str) (properties : gmap str str) (e : Environment) :=
  interpolate_str_with input {| project := None; lookup_system_properties := Some properties; lookup_environment := Some e; model := true |}.

Definition interpolate_str_exact (input : str) (e : Environment) :=
  interpolate_str_with input {| project := None; lookup_system_properties := None; lookup_environment := Some e; model := false |}.

Definition interpolate_str_exact_names (input : str) (e : Environment) :=
  interpolate_names input {| project := None; lookup_system_properties := None; lookup_environment := Some e; model := false |} true.

Definition replay_exact_names (input : str) (e : Environment) :=
  interpolate_names input {| project := None; lookup_system_properties := None; lookup_environment := Some e; model := false |} false.
End Expand.
