(* ===== verification/InterpolateFacts.v ===== *)
(** * What interpolation computes

    A reference definition of interpolation, with no state, no limits and no values kept
    for reuse; [interpolate_str_inner] returns what it does, within its limits, and
    reports a cycle only where it has no value.  And what interpolation cannot read. *)

From Stdlib Require Import Ascii String Lia FunctionalExtensionality.
From stdpp Require Import base list strings gmap.
From S2P Require Import Prelude Str Environment Interpolate.

#[local] Set Warnings "-clear-no-such-hyp".

(** ** References of a text *)

Lemma find_str_None p s : contains p s = false -> find_str p s = None.
Proof.
  intros Hc. pose proof (find_str_spec p s) as Hf. destruct (find_str p s) as [i|]; [|done].
  destruct Hf as ([t Ht] & _). exfalso. assert (contains p s = true) as E; [|congruence].
  apply contains_true. exists (take i s), t. by rewrite <-Ht, take_drop.
Qed.

Lemma first_reference_None s : contains $"${" s = false -> first_reference s = None.
Proof. intros Hc. unfold first_reference. by rewrite (find_str_None _ _ Hc). Qed.

Lemma matching_brace_lt depth s i : matching_brace depth s = Some i -> i < length s.
Proof.
  revert depth i. induction s as [|c s IH]; intros depth i E; cbn in *; [done|].
  repeat case_decide; try (apply fmap_Some in E as (j & E & ->); apply IH in E; lia).
  destruct depth as [|[|depth]]; [simplify_eq; lia..|]. apply fmap_Some in E as (j & E & ->). apply IH in E. lia.
Qed.

(** What follows a reference is shorter than the text. *)
Lemma first_reference_rest s text written rest :
  first_reference s = Some (text, written, rest) -> length rest < length s.
Proof.
  unfold first_reference. pose proof (find_str_spec $"${" s) as Hf.
  destruct (find_str $"${" s) as [i|]; [|done]. destruct Hf as ([t Ht] & Hi & _). cbn.
  destruct (find_matching_brace _) as [j|] eqn:Ej; [|done]. cbn. intros [= <- <- <-].
  apply matching_brace_lt in Ej. rewrite length_drop in *. rewrite length_drop in *. lia.
Qed.

(** ** The reference definition *)

(** Where the value of a name comes from: a text to expand, a value as it is, or
    nowhere. *)
Inductive Source :=
  | Expands (raw : str) (finish : str -> str)
  | Given (value : str)
  | Missing.

Section Reference.
Context (src : str -> Source).

Definition value_by (expansion : str -> option str) (key : str) : option str :=
  match src key with
  | Expands raw finish => finish <$> expansion raw
  | Given value => Some value
  | Missing => Some ($"${" ++ key ++ $"}")
  end.

Fixpoint reference (fuel : nat) (s : str) : option str :=
  match fuel with
  | O => None
  | S fuel =>
    match first_reference s with
    | None => Some s
    | Some (text, written, rest) =>
      key ← reference fuel written;
      value ← value_by (reference fuel) key;
      out ← reference fuel rest;
      Some (text ++ value ++ out)
    end
  end.

(** A text expands to [t]. *)
Definition expands_to (s t : str) : Prop := exists fuel, reference fuel s = Some t.

Lemma reference_mono fuel fuel' s t :
  fuel <= fuel' -> reference fuel s = Some t -> reference fuel' s = Some t.
Proof.
  revert fuel' s t. induction fuel as [|fuel IH]; intros fuel' s t Hle E; [done|].
  destruct fuel' as [|fuel']; [lia|]. cbn [reference] in *.
  destruct (first_reference s) as [[[text written] rest]|]; [|done].
  apply bind_Some in E as (key & Ek & E). apply bind_Some in E as (value & Ev & E).
  apply bind_Some in E as (out & Eo & E). rewrite (IH fuel' _ _ ltac:(lia) Ek). cbn.
  assert (value_by (reference fuel') key = Some value) as ->.
  { unfold value_by in *. destruct (src key); try done. apply fmap_Some in Ev as (v & Ev & ->).
    by rewrite (IH fuel' _ _ ltac:(lia) Ev). }
  cbn. by rewrite (IH fuel' _ _ ltac:(lia) Eo).
Qed.

Lemma expands_to_det s t t' : expands_to s t -> expands_to s t' -> t = t'.
Proof.
  intros [n E] [n' E']. apply (reference_mono _ (n + n')) in E; [|lia]. apply (reference_mono _ (n + n')) in E'; [|lia].
  congruence.
Qed.

(** The value of a name. *)
Definition value_to (key v : str) : Prop := exists fuel, value_by (reference fuel) key = Some v.

Lemma expands_text s : first_reference s = None -> expands_to s s.
Proof. intros E. exists 1. cbn. by rewrite E. Qed.

Lemma expands_ref s text written rest key v out :
  first_reference s = Some (text, written, rest) -> expands_to written key -> value_to key v -> expands_to rest out ->
  expands_to s (text ++ v ++ out).
Proof.
  intros E [n1 E1] [n2 E2] [n3 E3]. exists (S (n1 + n2 + n3)). cbn. rewrite E.
  rewrite (reference_mono n1 (n1 + n2 + n3) _ _ ltac:(lia) E1). cbn.
  assert (value_by (reference (n1 + n2 + n3)) key = Some v) as ->.
  { unfold value_by in *. destruct (src key); try done. apply fmap_Some in E2 as (x & E2 & ->).
    by rewrite (reference_mono n2 (n1 + n2 + n3) _ _ ltac:(lia) E2). }
  cbn. by rewrite (reference_mono n3 (n1 + n2 + n3) _ _ ltac:(lia) E3).
Qed.

Lemma reference_S fuel s t :
  reference fuel s = Some t ->
  exists fuel', fuel = S fuel' /\
    match first_reference s with
    | None => t = s
    | Some (text, written, rest) => exists key v out,
        reference fuel' written = Some key /\ value_by (reference fuel') key = Some v /\
        reference fuel' rest = Some out /\ t = text ++ v ++ out
    end.
Proof.
  destruct fuel as [|fuel]; [done|]. cbn. intros E. exists fuel. split; [done|].
  destruct (first_reference s) as [[[text written] rest]|]; [|by simplify_eq].
  apply bind_Some in E as (key & Ek & E). apply bind_Some in E as (value & Ev & E).
  apply bind_Some in E as (out & Eo & E). simplify_eq. eauto 10.
Qed.
End Reference.

(** ** Where a lookup finds a name *)

Section SourceOf.
Context (m : PropertyMap) (l : Lookup).

(** The text of a [<build>] field, and what is done to its expansion. *)
Definition raw_build (field : str) : option (str * (str -> str)) :=
  p ← project l;
  raw ← Build.field (ProjectInfo.build p) field;
  raw ← match raw with Some raw => Some raw | None => super_pom_build field end;
  Some (raw, fun value =>
    match ProjectInfo.basedir p with
    | Some basedir =>
      if bool_decide (field = $"finalName") || bool_decide (field = $"defaultGoal") then value
      else align_to_base_directory value basedir
    | None => value
    end).

Definition build_field (key : str) : option str :=
  match strip_prefix $"project.build." key with
  | Some field => Some field
  | None => strip_prefix $"pom.build." key
  end.

Definition property_name (key : str) : str :=
  match strip_prefix $"project.properties." key with
  | Some name => name
  | None => default key (strip_prefix $"pom.properties." key)
  end.

Definition raw_prerequisite (key : str) : option str :=
  if negb (bool_decide (key = $"project.prerequisites.maven"))
     && negb (bool_decide (key = $"pom.prerequisites.maven"))
  then None else prerequisites_of l.

(** What the environment gives, without the record of the read. *)
Definition ambient (key : str) : option str :=
  match (os_detected_on_linux key l (new_walk None None)).1 with
  | Some value => Some value
  | None => (resolve_system_property key l (new_walk None None)).1
  end.

Definition source_of (key : str) : Source :=
  match build_field key ≫= raw_build with
  | Some (raw, finish) => Expands raw finish
  | None =>
    match resolve_builtin key (project l) with
    | Some value => Given value
    | None =>
      match raw_prerequisite key with
      | Some raw => Expands raw id
      | None =>
        let name := property_name key in
        match get m name with
        | Some raw => Expands raw id
        | None =>
          match ambient name with
          | Some value => Given value
          | None =>
            match strip_prefix $"build." key ≫= raw_build with
            | Some (raw, finish) => Expands raw finish
            | None =>
              match resolve_unprefixed_model_field name (project l) with
              | Some value => Given value
              | None => Missing
              end
            end
          end
        end
      end
    end
  end.
End SourceOf.

(** ** Code that keeps its promises *)

(** Two lookups that read the same. *)
Definition same_lookup (l l' : Lookup) : Prop :=
  project l = project l' /\ platform_of l = platform_of l' /\ environment_of l = environment_of l' /\ model l = model l'.

Lemma same_lookup_environment l l' e :
  same_lookup l l' -> environment_of l = Some e -> same_lookup (with_environment l (Some e)) l'.
Proof. intros (H1 & H2 & H3 & H4) He. unfold same_lookup in *. cbn. rewrite <-H3, <-H2. auto. Qed.

(** The part of the state the values depend on. *)
Definition core (w : Walk) := (path w, resolved w, build w, resolved_len w).

Lemma core_record e i w : core (record e i w) = core w.
Proof. unfold record. by destruct (_ && _). Qed.

Lemma core_reads key l w : core (resolve_system_property key l w).2 = core w.
Proof.
  unfold resolve_system_property. destruct (platform_of l ≫= _); [done|]. destruct (environment_of l); [|done].
  repeat case_decide; try destruct (_ && _); try destruct (_ || _); cbn; auto using core_record.
Qed.

Lemma core_os_detected key l w : core (os_detected_on_linux key l w).2 = core w.
Proof.
  unfold os_detected_on_linux, read_release. destruct (platform_of l) as [pl|]; [|done]. destruct (environment_of l) as [e|]; [|done].
  destruct (_ || _); [done|]. 
  repeat case_decide; cbn [snd]; rewrite ?core_record; try done.
  all: first [destruct (strip_prefix _ key) | destruct (pl !! key)]; cbn [snd]; rewrite ?core_record; try done;
    by destruct (bool_decide _).
Qed.

Lemma core_note_lookup m key l w : core (note_lookup m key l w) = core w.
Proof.
  unfold note_lookup.
  set (a := if is_below_system m key then _ else w). assert (core a = core w) as Ha by (subst a; by destruct (is_below_system m key)).
  set (b := match environment_of l with Some _ => _ | None => _ end).
  assert (core b = core a) as Hb.
  { subst b. destruct (environment_of l); [|done]. destruct (_ && _); [|done]. cbv zeta. destruct (_ && _); by rewrite ?core_record. }
  rewrite <-Ha, <-Hb. clearbody a b. cbv zeta. by destruct (private_key _).
Qed.

(** What the environment gives does not depend on the state. *)
Lemma os_detected_pure key l w w' : (os_detected_on_linux key l w).1 = (os_detected_on_linux key l w').1.
Proof.
  unfold os_detected_on_linux, read_release. destruct (platform_of l) as [pl|]; [|done]. destruct (environment_of l) as [e|]; [|done].
  destruct (_ || _); [done|]. repeat case_decide; try done.
  all: try by destruct (pl !! key). by destruct (strip_prefix _ key).
Qed.

Lemma system_property_pure key l w w' : (resolve_system_property key l w).1 = (resolve_system_property key l w').1.
Proof.
  unfold resolve_system_property. destruct (platform_of l ≫= _); [done|]. destruct (environment_of l); [|done].
  repeat case_decide; try destruct (_ && _); try destruct (_ || _); done.
Qed.

Lemma same_os_detected l l' key w : same_lookup l l' -> os_detected_on_linux key l w = os_detected_on_linux key l' w.
Proof. intros (_ & E1 & E2 & _). unfold os_detected_on_linux. by rewrite E1, E2. Qed.

Lemma same_system_property l l' key w : same_lookup l l' -> resolve_system_property key l w = resolve_system_property key l' w.
Proof. intros (_ & E1 & E2 & E3). unfold resolve_system_property. by rewrite E1, E2, E3. Qed.

(** *** What a walk keeps *)

(** No property has the full name of a field that the model of the lookup has: one of the
    fields of [<build>], or the prerequisite.  The path knows such a field by that name. *)
Record names_apart (m : PropertyMap) (l : Lookup) : Prop := {
  apart_build field : is_Some (raw_build l field) -> get m ($"project.build." ++ field) = None;
  apart_prerequisite : is_Some (prerequisites_of l) -> get m $"project.prerequisites.maven" = None;
}.

Section Sound.
Context (m : PropertyMap) (l0 : Lookup) (apart : names_apart m l0).

Abbreviation ref := (reference (source_of m l0)).
Abbreviation expands := (expands_to (source_of m l0)).

(** The values kept are those of the reference definition. *)
Record good (w : Walk) : Prop := {
  good_resolved : forall key v o, resolved w !! key = Some (v, o) -> exists raw, get m key = Some raw /\ expands raw v;
  good_build : forall field v, build w !! field = Some v ->
    exists raw finish x, raw_build l0 field = Some (raw, finish) /\ expands raw x /\ v = finish x;
  good_length : (resolved_len w <= MAX_RESOLVED_LENGTH)%N;
}.

Lemma good_core w w' : core w' = core w -> good w -> good w'.
Proof. unfold core. intros [= _ E1 E2 E3] [H1 H2 H3]. split; rewrite ?E1, ?E2, ?E3; done. Qed.

(** The text a name of the path stands for. *)
Inductive named : str -> str -> Prop :=
  | named_property key raw : get m key = Some raw -> named key raw
  | named_build field raw finish : raw_build l0 field = Some (raw, finish) -> named ($"project.build." ++ field) raw
  | named_prerequisite raw : prerequisites_of l0 = Some raw -> named $"project.prerequisites.maven" raw.

Lemma named_det name raw raw' : named name raw -> named name raw' -> raw = raw'.
Proof.
  intros H H'. destruct H as [key raw E|field raw finish E|raw E]; inversion H' as [key' r' E' En|field' r' f' E' En|r' E' En]; subst.
  all: try congruence.
  all: pose proof (fun field raw finish => apart_build _ _ apart field ∘ mk_is_Some _ (raw, finish)) as Hb.
  all: pose proof (fun raw => apart_prerequisite _ _ apart ∘ mk_is_Some _ raw) as Hp.
  all: try first [by rewrite (Hb _ _ _ E') in E | by rewrite (Hp _ E') in E | by rewrite (Hb _ _ _ E) in E' | by rewrite (Hp _ E) in E'].
Qed.

(** A name of the path has a value that takes fewer steps. *)
Definition blocked (p : list str) (h : nat) : Prop :=
  exists name raw h', name ∈ p /\ named name raw /\ h' < h /\ is_Some (ref h' raw).

(** A text that expands only where a name of the path does with fewer steps. *)
Definition stuck (p : list str) (s : str) : Prop := forall h, is_Some (ref h s) -> blocked p h.

Lemma blocked_mono p h h' : h <= h' -> blocked p h -> blocked p h'.
Proof. intros Hle (name & raw & x & H1 & H2 & H3 & H4). exists name, raw, x. split_and!; auto; lia. Qed.

(** The name a text is the value of does not help it. *)
Lemma stuck_named p name raw : named name raw -> stuck (p ++ [name]) raw -> stuck p raw.
Proof.
  intros Hn Hs h. induction (lt_wf h) as [h _ IH]. intros Hr.
  destruct (Hs h Hr) as (name' & raw' & h' & Hin & Hn' & Hlt & Hr').
  apply elem_of_app in Hin as [Hin | ->%list_elem_of_singleton]; [by exists name', raw', h'|].
  rewrite (named_det _ _ _ Hn' Hn) in Hr'. eapply blocked_mono, (IH h'); auto; lia.
Qed.

(** *** Rules *)

(** What stops an expansion that has not come to a cycle. *)
Definition limit (e : PomError) : Prop := e = too_large \/ e = too_deep.

Definition runs {A} (p : list str) (c : Expanding A) (p' : list str) (Q : A -> Prop) (E : Prop) : Prop :=
  forall w, good w -> path w = p ->
  match c w with
  | (Ok a, w') => good w' /\ path w' = p' /\ Q a
  | (Err (PropertyCycle _), _) => E
  | (Err e, _) => limit e
  end.

Lemma runs_ret {A} p (a : A) (Q : A -> Prop) E : Q a -> runs p (mret a) p Q E.
Proof. intros HQ w Hw Hp. done. Qed.

Lemma runs_bind {A B} p p' p'' (c : Expanding A) (f : A -> Expanding B) Q R E :
  runs p c p' Q E -> (forall a, Q a -> runs p' (f a) p'' R E) -> runs p (c ≫= f) p'' R E.
Proof.
  intros Hc Hf w Hw Hp. specialize (Hc w Hw Hp). unfold mbind, expanding_bind. destruct (c w) as [[a|e] w'].
  - destruct Hc as (Hw' & Hp' & HQ). by apply (Hf a HQ).
  - by destruct e.
Qed.

Lemma runs_weaken {A} p c p' (Q Q' : A -> Prop) (E E' : Prop) :
  runs p c p' Q E -> (forall a, Q a -> Q' a) -> (E -> E') -> runs p c p' Q' E'.
Proof.
  intros Hc HQ HE w Hw Hp. specialize (Hc w Hw Hp). destruct (c w) as [[a|[]] w']; [|done|auto].
  naive_solver.
Qed.

Lemma runs_too_deep {A} p p' (Q : A -> Prop) E : runs p (fail too_deep) p' Q E.
Proof. intros w Hw Hp. by right. Qed.

Lemma runs_update p f (E : Prop) :
  (forall w, good w -> good (f w) /\ path (f w) = path w) -> runs p (update f) p (fun _ => True) E.
Proof. intros Hf w Hw Hp. cbn. destruct (Hf w Hw) as [H1 H2]. split_and!; auto. congruence. Qed.

Lemma runs_core p f (E : Prop) : (forall w, core (f w) = core w) -> runs p (update f) p (fun _ => True) E.
Proof. intros Hf. apply runs_update. intros w Hw. split; [by apply (good_core w)|]. pose proof (Hf w) as H. by injection H. Qed.

(** Code run on another state of the same core. *)
Lemma runs_after {A} p (c : Expanding A) p' Q E (f : Walk -> Walk) (g : Walk -> Walk -> Walk) :
  (forall w, core (f w) = core w) -> (forall w w', core (g w w') = core w') ->
  runs p c p' Q E -> runs p (fun w => let '(r, w') := c (f w) in (r, g w w')) p' Q E.
Proof.
  intros Hf Hg Hc w Hw Hp. specialize (Hc (f w) (good_core _ _ (Hf w) Hw)).
  assert (path (f w) = p) as Hpath by (pose proof (Hf w) as H; unfold core in H; congruence).
  specialize (Hc Hpath). destruct (c (f w)) as [[a|[]] w']; try done.
  destruct Hc as (H1 & H2 & H3). pose proof (Hg w w') as Hgw. split_and!; [by apply (good_core w')| |done].
  unfold core in Hgw. congruence.
Qed.

Lemma runs_enter {A} p name (k : unit -> Expanding A) p' Q (E : Prop) :
  (name ∈ p -> E) -> runs (p ++ [name]) (k ()) p' Q E -> runs p (enter name ≫= k) p' Q E.
Proof.
  intros Hin Hk w Hw Hp. unfold mbind, expanding_bind, enter. rewrite Hp. case_decide; [auto|].
  apply Hk; [|done]. destruct Hw. by split.
Qed.

Lemma runs_leave p name E : runs (p ++ [name]) leave p (fun _ => True) E.
Proof.
  intros w Hw Hp. unfold leave, update. split_and!; [by destruct Hw; split| |done]. cbn.
  by rewrite Hp, removelast_last.
Qed.

Lemma runs_spend p n (E : Prop) : runs p (spend n) p (fun _ => True) E.
Proof.
  intros w Hw Hp. unfold spend. destruct (_ <? _)%N eqn:Hn; [by left|]. split_and!; [|done..].
  destruct Hw. split; [done..|]. apply N.ltb_ge in Hn. done.
Qed.

Lemma runs_size p output (E : Prop) :
  runs p (check_size output) p (fun _ => (size_of output <= MAX_INTERPOLATION_LENGTH)%N) E.
Proof.
  intros w Hw Hp. unfold check_size. destruct (_ <? _)%N eqn:Hn; [by left|]. apply N.ltb_ge in Hn. split_and!; auto.
Qed.

(** *** The operations *)

(** The values of [raw] take longer than a name of the path. *)
Definition late (p : list str) (raw : str) : Prop := forall h, is_Some (ref h raw) -> blocked p (S h).

Lemma late_cycle p name raw : named name raw -> name ∈ p -> late p raw.
Proof. intros Hn Hin h Hr. exists name, raw, h. auto. Qed.

Lemma late_stuck p name raw : named name raw -> stuck (p ++ [name]) raw -> late p raw.
Proof. intros Hn Hs h Hr. apply (blocked_mono _ h); [lia|]. by apply (stuck_named p name raw). Qed.

Section Deeper.
Context (deeper : str -> Lookup -> Expanding str).
Context (deeper_ok : forall s l p, same_lookup l l0 -> runs p (deeper s l) p (expands s) (stuck p s)).

(** Expanding the text of a name that is on the path. *)
Lemma deeper_named p name raw l : named name raw -> same_lookup l l0 ->
  runs (p ++ [name]) (deeper raw l) (p ++ [name]) (expands raw) (late p raw).
Proof. intros Hn Hl. eapply runs_weaken; [by apply deeper_ok|done|]. by apply late_stuck. Qed.

(** The value of a field of [<build>]. *)
Definition built (field : str) (v : option str) : Prop :=
  match raw_build l0 field with
  | Some (raw, finish) => exists x, v = Some (finish x) /\ expands raw x
  | None => v = None
  end.

Definition late_build (p : list str) (field : str) : Prop :=
  exists raw finish, raw_build l0 field = Some (raw, finish) /\ late p raw.

Lemma raw_build_unfold l field : same_lookup l l0 ->
  raw_build l0 field =
    match project l with
    | None => None
    | Some p =>
      match Build.field (ProjectInfo.build p) field with
      | None => None
      | Some raw =>
        match (match raw with Some raw => Some raw | None => super_pom_build field end) with
        | None => None
        | Some raw => Some (raw, fun value =>
          match ProjectInfo.basedir p with
          | Some basedir =>
            if bool_decide (field = $"finalName") || bool_decide (field = $"defaultGoal") then value
            else align_to_base_directory value basedir
          | None => value
          end)
        end
      end
    end.
Proof.
  intros (E & _). unfold raw_build, mbind, option_bind. rewrite <-E. clear E. destruct (project l) as [p|]; [|done].
  destruct (Build.field _ field) as [[]|]; done.
Qed.

Lemma good_keep_build field v w raw finish x :
  raw_build l0 field = Some (raw, finish) -> expands raw x -> v = finish x -> good w ->
  good (keep_build field v w) /\ path (keep_build field v w) = path w.
Proof.
  intros Hr Hx -> [H1 H2 H3]. split; [|done]. split; [exact H1| |exact H3]. cbn. intros f u.
  rewrite lookup_insert_Some. intros [[<- <-]|[_ E]]; eauto 10.
Qed.

Lemma resolve_build_ok field l p : same_lookup l l0 ->
  runs p (resolve_build deeper field l) p (built field) (late_build p field).
Proof.
  intros Hl. unfold built, late_build. rewrite (raw_build_unfold l field Hl). unfold resolve_build.
  destruct (project l) as [pr|] eqn:Hp; [|by apply (runs_ret p None)].
  destruct (Build.field _ field) as [raw|] eqn:Hf; [|by apply (runs_ret p None)].
  destruct (match raw with Some raw => Some raw | None => super_pom_build field end) as [raw'|] eqn:Hr;
    [|by apply (runs_ret p None)].
  set (finish := fun value : str => match ProjectInfo.basedir pr with Some _ => _ | None => _ end).
  assert (raw_build l0 field = Some (raw', finish)) as Hb by (rewrite (raw_build_unfold l field Hl), Hp, Hf, Hr; done).
  intros w Hw Hpath. destruct (build w !! field) as [v|] eqn:Hv.
  { split_and!; [done..|]. destruct (good_build _ Hw _ _ Hv) as (raw1 & finish1 & x & E & Hx & ->).
    rewrite Hb in E. injection E as <- <-. eauto. }
  refine (runs_weaken _ _ _ _ _ (late p raw') _ _ (fun v Hv => Hv) _ w Hw Hpath); [|by eauto].
  pose proof (named_build field raw' finish Hb) as Hn. apply runs_enter; [by apply late_cycle|].
  eapply runs_bind; [by apply deeper_named|]. intros x Hx. eapply runs_bind; [apply runs_leave|]. intros _ _.
  fold (finish x). cbv zeta. eapply runs_bind; [apply runs_spend|]. intros _ _. eapply runs_bind.
  - apply runs_update. intros w'. by apply (good_keep_build _ _ _ raw' finish x).
  - intros _ _. apply runs_ret. eauto.
Qed.

(** The value of the prerequisite. *)
Lemma resolve_prerequisite_ok key l p : same_lookup l l0 ->
  runs p (resolve_prerequisite deeper key l) p
    (fun v => match raw_prerequisite l0 key with Some raw => exists x, v = Some x /\ expands raw x | None => v = None end)
    (exists raw, raw_prerequisite l0 key = Some raw /\ late p raw).
Proof.
  intros Hl. unfold resolve_prerequisite, raw_prerequisite. destruct (_ && _); [by apply runs_ret|].
  assert (prerequisites_of l = prerequisites_of l0) as ->.
  { unfold prerequisites_of, model_lookup_of. by destruct Hl as (-> & _). }
  destruct (prerequisites_of l0) as [raw|] eqn:E; [|by apply runs_ret].
  apply (runs_weaken p _ p (fun v => exists x, v = Some x /\ expands raw x) _ (late p raw)); [|done|by eauto].
  pose proof (named_prerequisite raw E) as Hn. apply runs_enter; [by apply late_cycle|].
  eapply runs_bind; [by apply deeper_named|]. intros x Hx. eapply runs_bind; [apply runs_leave|]. intros _ _.
  apply runs_ret. eauto.
Qed.

Lemma runs_outside p v (Q : option str -> Prop) E : Q v -> runs p (outside v) p Q E.
Proof.
  intros HQ. unfold outside. destruct v; [|by apply runs_ret].
  eapply runs_bind; [by apply runs_core|]. intros _ _. by apply runs_ret.
Qed.

(** The value of a name the map holds. *)
Lemma resolve_property_ok key raw l p : same_lookup l l0 -> get m key = Some raw ->
  runs p (resolve_property m deeper key raw l) p (fun v => exists x, v = Some x /\ expands raw x) (late p raw).
Proof.
  intros Hl Hg w Hw Hpath. unfold resolve_property. destruct (resolved w !! key) as [[v o]|] eqn:Hv.
  { split_and!; [by apply (good_core w)|done|]. destruct (good_resolved _ Hw _ _ _ Hv) as (raw' & E & Hx).
    simplify_eq. eauto. }
  revert w Hw Hpath Hv. intros w Hw Hpath _.
  set (n := if is_external m key then 1 else 0). set (seen := external_values w). clearbody seen.
  revert w Hw Hpath. pose proof (named_property key raw Hg) as Hn. apply runs_enter; [by apply late_cycle|].
  do 2 (eapply runs_bind; [by apply runs_core|]; intros _ _). eapply runs_bind.
  { eapply (runs_after _ (deeper raw l) _ _ _ (fun w => w) (fun _ w => set_external_depth (external_depth w - n) w));
      [done..|]. by apply deeper_named. }
  intros x Hx. eapply runs_bind; [apply runs_leave|]. intros _ _. eapply runs_bind; [apply runs_spend|].
  intros _ _. eapply runs_bind; [|intros _ _; apply runs_ret; eauto].
  apply runs_update. intros w [H1 H2 H3]. split; [|done]. split; [|exact H2|exact H3]. cbn. intros k v o.
  rewrite lookup_insert_Some. intros [[<- [= <- <-]]|[_ E]]; eauto.
Qed.

(** The value of a name, and a name whose value takes longer than one of the path. *)
Definition valued (key : str) (v : option str) : Prop :=
  match v with Some v => value_to (source_of m l0) key v | None => source_of m l0 key = Missing end.

Definition late_value (p : list str) (key : str) : Prop :=
  forall h, is_Some (value_by (source_of m l0) (ref h) key) -> blocked p (S h).

Lemma valued_expands key raw finish x :
  source_of m l0 key = Expands raw finish -> expands raw x -> valued key (Some (finish x)).
Proof. intros E [h Hx]. exists h. unfold value_by. by rewrite E, Hx. Qed.

Lemma valued_given key v : source_of m l0 key = Given v -> valued key (Some v).
Proof. intros E. exists 0. unfold value_by. by rewrite E. Qed.

Lemma late_expands key raw finish p : source_of m l0 key = Expands raw finish -> late p raw -> late_value p key.
Proof. intros E Hl h. unfold value_by. rewrite E. intros [y (x & Hx & _)%fmap_Some]. apply Hl. by rewrite Hx. Qed.

(** A build field: the end of the lookup when it has one, or the rest of it. *)
Lemma runs_built p field l (k : option str -> Expanding (option str)) key :
  same_lookup l l0 ->
  (forall raw finish, field ≫= raw_build l0 = Some (raw, finish) -> source_of m l0 key = Expands raw finish) ->
  (forall v raw finish x, field ≫= raw_build l0 = Some (raw, finish) -> v = finish x ->
     valued key (Some v) -> runs p (k (Some v)) p (valued key) (late_value p key)) ->
  (field ≫= raw_build l0 = None -> runs p (k None) p (valued key) (late_value p key)) ->
  runs p (built ← match field with Some field => resolve_build deeper field l | None => mret None end; k built) p
    (valued key) (late_value p key).
Proof.
  intros Hl Hsrc Hsome Hnone. destruct field as [field|]; cbn in *; [|eapply runs_bind; [by apply runs_ret with (Q := eq None)|];
    by intros ? <-; apply Hnone].
  eapply runs_bind.
  - eapply runs_weaken; [by apply resolve_build_ok|intros a Ha; exact Ha|].
    intros (raw & finish & E & HE). by apply (late_expands _ raw finish); [apply Hsrc|].
  - intros v Hv. unfold built in Hv. destruct (raw_build l0 field) as [[raw finish]|] eqn:E; [|subst; auto].
    destruct Hv as (x & -> & Hx). eapply Hsome; [done..|]. apply (valued_expands _ raw); auto.
Qed.

(** A name the map does not hold. *)
Lemma resolve_missing_ok name key l p : same_lookup l l0 ->
  build_field key ≫= raw_build l0 = None -> resolve_builtin key (project l0) = None -> raw_prerequisite l0 key = None ->
  property_name key = name -> get m name = None ->
  runs p (resolve_missing deeper name (strip_prefix $"build." key) l) p (valued key) (late_value p key).
Proof.
  intros Hl H1 H2 H3 H4 H5. 
  assert (source_of m l0 key = match ambient l0 name with Some v => Given v | None =>
     match strip_prefix $"build." key ≫= raw_build l0 with Some (raw, finish) => Expands raw finish | None =>
     match resolve_unprefixed_model_field name (project l0) with Some v => Given v | None => Missing end end end) as Hsrc.
  { unfold source_of. by rewrite H1, H2, H3, H4, H5. }
  intros w Hw Hp. unfold resolve_missing.
  rewrite (same_os_detected l l0) by done. pose proof (core_os_detected name l0 w) as C1.
  pose proof (os_detected_pure name l0 w (new_walk None None)) as P1. unfold ambient in Hsrc.
  destruct (os_detected_on_linux name l0 w) as [detected w1]. cbn in C1, P1. rewrite <-P1 in Hsrc.
  assert (path w1 = p) as Hp1 by (unfold core in C1; congruence). apply (good_core _ _ C1) in Hw.
  destruct detected as [v|]; [by apply runs_outside; [apply valued_given| |]|].
  rewrite (same_system_property l l0) by done. pose proof (core_reads name l0 w1) as C2.
  pose proof (system_property_pure name l0 w1 (new_walk None None)) as P2.
  destruct (resolve_system_property name l0 w1) as [value w2]. cbn in C2, P2. rewrite <-P2 in Hsrc.
  assert (path w2 = p) as Hp2 by (unfold core in C2; congruence). apply (good_core _ _ C2) in Hw.
  destruct value as [v|]; [by apply runs_outside; [apply valued_given| |]|].
  revert w2 C2 Hp2 Hw. intros w2 _ Hp2 Hw. revert w2 Hw Hp2. apply runs_built; [done|..].
  - intros raw finish E. by rewrite E in Hsrc.
  - intros v raw finish x E -> Hv. by apply runs_outside.
  - intros E. rewrite E in Hsrc. apply runs_outside. destruct Hl as (-> & _).
    destruct (resolve_unprefixed_model_field name (project l0)); [by apply valued_given|done].
Qed.

(** [resolve_value_inner] gives the value of the reference definition. *)
Lemma resolve_value_inner_ok key l p : same_lookup l l0 ->
  runs p (resolve_value_inner m deeper key l) p (valued key) (late_value p key).
Proof.
  intros Hl. unfold resolve_value_inner. apply runs_built; [done|..]; fold (build_field key).
  - intros raw finish E. unfold source_of. by rewrite E.
  - intros v raw finish x E -> Hv. by apply runs_outside.
  - intros H1. assert (project l = project l0) as -> by apply Hl.
    destruct (resolve_builtin key (project l0)) as [v|] eqn:H2.
    { apply runs_outside, valued_given. unfold source_of. by rewrite H1, H2. }
    destruct (raw_prerequisite l0 key) as [raw|] eqn:H3.
    { assert (source_of m l0 key = Expands raw id) as Hsrc by (unfold source_of; by rewrite H1, H2, H3).
      eapply runs_bind; [eapply runs_weaken; [by apply resolve_prerequisite_ok|intros a Ha; exact Ha|]|].
      - intros (raw' & E & HE). rewrite H3 in E. simplify_eq. by apply (late_expands _ raw' id).
      - intros v. rewrite H3. intros (x & -> & Hx). apply runs_outside. by apply (valued_expands _ raw id). }
    eapply runs_bind; [eapply runs_weaken; [by apply resolve_prerequisite_ok|intros a Ha; exact Ha|]|].
    { intros (raw' & E & HE). congruence. }
    intros v. rewrite H3. intros ->. fold (property_name key).
    eapply runs_bind; [apply runs_core; intros w; apply core_note_lookup|]. intros _ _.
    destruct (get m (property_name key)) as [raw|] eqn:H4; [|by apply resolve_missing_ok].
    assert (source_of m l0 key = Expands raw id) as Hsrc by (unfold source_of; by rewrite H1, H2, H3, H4).
    eapply runs_weaken; [by apply resolve_property_ok| |by apply (late_expands _ raw id)].
    intros v (x & -> & Hx). by apply (valued_expands _ raw id).
Qed.

(** [resolve_reference]: what it keeps apart does not reach the value. *)
Lemma resolve_reference_ok before key l p : same_lookup l l0 ->
  runs p (resolve_reference m deeper before key l) p (valued key) (late_value p key).
Proof.
  intros Hl w Hw Hp. unfold resolve_reference.
  set (private := _ || _). set (w0 := set_private_names _ _).
  assert (core w0 = core w) as Hw0 by done. clearbody w0.
  assert (path w0 = p) as Hp0 by (unfold core in Hw0; congruence). apply (good_core _ _ Hw0) in Hw.
  destruct (if private then environment_of l else None) as [e|] eqn:He.
  - assert (environment_of l = Some e) as He' by (by destruct private).
    pose proof (resolve_value_inner_ok key _ p (same_lookup_environment _ _ _ Hl He')) as Hv.
    eapply (runs_after p _ p _ _ (set_reads [])) in Hv; [|done|].
    2: { instantiate (1 := fun w1 w2 => set_private_key (private_key w) (set_reads (reads w1)
           (set_private_host (private_host w2 || existsb is_host_read (reads w2)) w2))). done. }
    specialize (Hv w0 Hw Hp0). cbv beta in Hv. by destruct (resolve_value_inner _ _ _ _ _) as [r w2].
  - pose proof (resolve_value_inner_ok key _ p Hl) as Hv.
    eapply (runs_after p _ p _ _ (fun w => w)) in Hv; [|done|].
    2: { instantiate (1 := fun _ w2 => set_private_key (private_key w) w2). done. }
    exact (Hv w0 Hw Hp0).
Qed.

(** The name of a reference. *)
Lemma key_ok (borrowed : bool) written l p : same_lookup l l0 -> (borrowed = true -> contains $"${" written = false) ->
  runs p (if borrowed then mret written else deeper written l) p (expands written) (stuck p written).
Proof.
  intros Hl Hb. destruct borrowed; [|by apply deeper_ok]. apply runs_ret.
  apply expands_text, first_reference_None. auto.
Qed.

(** The loop over the references of a text. *)
Lemma expand_references_ok fuel borrows output rest l p : same_lookup l l0 -> length rest <= fuel ->
  runs p (expand_references m deeper fuel borrows output rest l) p
    (fun t => (exists out, t = output ++ out /\ expands rest out) /\ (size_of t <= MAX_INTERPOLATION_LENGTH)%N) (stuck p rest).
Proof.
  intros Hl. revert output rest. induction fuel as [|fuel IH]; intros output rest Hle.
  { destruct rest; [|cbn in Hle; lia]. cbn [expand_references]. eapply runs_bind; [apply runs_size|]. intros ? Hs.
    apply runs_ret. split; [|done]. exists []. split; [done|]. by apply expands_text. }
  cbn [expand_references]. destruct (first_reference rest) as [[[text written] rest']|] eqn:Hr.
  2: { eapply runs_bind; [apply runs_size|]. intros ? Hs. apply runs_ret. split; [|done]. exists rest.
    split; [done|]. by apply expands_text. }
  apply first_reference_rest in Hr as Hlen. eapply runs_bind.
  { instantiate (1 := fun _ => True). instantiate (1 := p). by intros w Hw Hp. }
  intros before _.
  assert (forall h, is_Some (ref h rest) -> exists h', h = S h' /\ is_Some (ref h' written) /\
    (forall key, expands written key -> is_Some (value_by (source_of m l0) (ref h') key)) /\ is_Some (ref h' rest')) as Hparts.
  { intros h [t Ht]. apply reference_S in Ht as (h' & -> & Ht). rewrite Hr in Ht.
    destruct Ht as (key & v & out & E1 & E2 & E3 & _). exists h'. split_and!; eauto.
    intros key' [n Hk]. assert (key' = key) as ->; eauto. eapply expands_to_det; [by exists n|by exists h']. }
  eapply runs_bind; [eapply runs_weaken; [apply key_ok; [done|]|intros a Ha; exact Ha|]|].
  { intros [_ Hc]%andb_true_iff. by apply negb_true_iff. }
  { intros Hs h Hh. destruct (Hparts h Hh) as (h' & -> & H1 & _). apply (blocked_mono _ h'); [lia|auto]. }
  intros key Hk. eapply runs_bind; [eapply runs_weaken; [by apply resolve_reference_ok|intros a Ha; exact Ha|]|].
  { intros Hs h Hh. destruct (Hparts h Hh) as (h' & -> & _ & H2 & _). auto. }
  intros v Hv. cbv zeta. eapply runs_bind; [apply runs_size|]. intros _ _.
  eapply runs_weaken; [apply IH; lia| |].
  - intros t ((out & -> & Hout) & Hs). split; [|done]. eexists. rewrite <-!app_assoc. split; [done|].
    eapply expands_ref; [done..| |done]. destruct v as [v|]; [exact Hv|]. exists 0. unfold value_by. by rewrite Hv.
  - intros Hs h Hh. destruct (Hparts h Hh) as (h' & -> & _ & _ & H3). apply (blocked_mono _ h'); [lia|auto].
Qed.
End Deeper.

(** Every level of [interpolate_str_inner] gives the value of the reference definition. *)
Lemma interpolate_str_inner_ok levels s l p : same_lookup l l0 ->
  runs p (interpolate_str_inner m levels s l) p
    (fun t => expands s t /\ (size_of t <= MAX_INTERPOLATION_LENGTH)%N) (stuck p s).
Proof.
  revert s l p. induction levels as [|levels IH]; intros s l p Hl; [apply runs_too_deep|]. cbn [interpolate_str_inner].
  eapply runs_weaken; [apply expand_references_ok; [|done|done]| |done].
  - intros s' l' p' Hl'. eapply runs_weaken; [by apply IH| |done]. by intros t [Ht _].
  - intros t ((out & -> & Hout) & Hs). done.
Qed.

Lemma good_new names public : good (new_walk names public).
Proof. split; cbn; [intros ???; by rewrite lookup_empty|intros ??; by rewrite lookup_empty|done]. Qed.
End Sound.

(** ** Interpolation and its reference definition *)

(** What one expansion over a fresh walk comes to. *)
Lemma expand_fresh m l s names public : names_apart m l ->
  match expand m s l (new_walk names public) with
  | (Ok t, w, m') => expands_to (source_of m l) s t /\ (size_of t <= MAX_INTERPOLATION_LENGTH)%N /\
      (resolved_len w <= MAX_RESOLVED_LENGTH)%N /\
      expanded m' = (expanded m + (resolved_len w + size_of t))%N /\ (expanded m' <= MAX_EXPANDED_LENGTH)%N
  | (Err (PropertyCycle _), _, _) => forall t, ~ expands_to (source_of m l) s t
  | (Err e, _, _) => e = too_large \/ e = too_deep \/ e = model_too_large
  end.
Proof.
  intros Hapart. pose proof (interpolate_str_inner_ok m l Hapart MAX_INTERPOLATION_DEPTH s l [] ltac:(done)
    (new_walk names public) (good_new m l names public) eq_refl) as H.
  unfold expand. destruct (interpolate_str_inner _ _ _ _ _) as [[t|[msg|ns]] w].
  - destruct H as (Hw & _ & Ht & Hs). destruct (_ <? _)%N eqn:E; [by right; right|]. apply N.ltb_ge in E. cbn.
    split_and!; [done|done| |done|done]. apply Hw.
  - destruct H; auto.
  - intros t [h Hh]. destruct (H h (mk_is_Some _ _ Hh)) as (? & ? & ? & Hin & _). set_solver.
Qed.

(** C7: Interpolation computes what the reference definition does, within its limits.
    When no property is named after a field of [<build>] that the model has (such as
    [project.build.directory]; [project.build.sourceEncoding] is none) or after its
    [project.prerequisites.maven], the text an interpolation returns is the one every
    reference of the input expands to, at most 1 MiB, charged to the map within its 32
    MiB; when it reports a cycle the input has no expansion at all; and any other error
    is one of the three limits. *)
Theorem interpolate_str_with_sound m input l : names_apart m l ->
  match interpolate_str_with m input l with
  | (Ok t, _, m') => expands_to (source_of m l) input t /\ (size_of t <= MAX_INTERPOLATION_LENGTH)%N /\
      (expanded m' <= N.max (expanded m) MAX_EXPANDED_LENGTH)%N
  | (Err (PropertyCycle _), _, _) => forall t, ~ expands_to (source_of m l) input t
  | (Err e, _, _) => e = too_large \/ e = too_deep \/ e = model_too_large
  end.
Proof.
  intros Hapart. unfold interpolate_str_with. destruct (_ && _) eqn:E.
  - apply andb_true_iff in E as [Hs%N.leb_le Hc%negb_true_iff]. split_and!; [|done|lia].
    by apply expands_text, first_reference_None.
  - pose proof (expand_fresh m l input None None Hapart) as H. destruct (expand _ _ _ _) as [[[t|[]] w] m']; [|done..].
    naive_solver lia.
Qed.

(** ** What interpolation cannot read *)

(** Environments that differ in no variable the build allows. *)
Definition agree (e e' : Environment) : Prop :=
  java_version e = java_version e' /\ target_jdk e = target_jdk e' /\ allowed e = allowed e' /\
  allow_all_env e = allow_all_env e' /\ linux_release e = linux_release e' /\
  classifier_likes_text e = classifier_likes_text e' /\
  (forall name, name ∈ allowed e -> env e !! name = env e' !! name).

(** The project in another environment. *)
Definition project_in (e : Environment) (p : ProjectInfo.t) : ProjectInfo.t := {|
  ProjectInfo.group_id := ProjectInfo.group_id p; ProjectInfo.artifact_id := ProjectInfo.artifact_id p;
  ProjectInfo.version := ProjectInfo.version p; ProjectInfo.packaging := ProjectInfo.packaging p;
  ProjectInfo.parent := ProjectInfo.parent p; ProjectInfo.basedir := ProjectInfo.basedir p;
  ProjectInfo.build := ProjectInfo.build p; ProjectInfo.system_properties := ProjectInfo.system_properties p;
  ProjectInfo.environment := e; ProjectInfo.model_lookup := ProjectInfo.model_lookup p |}.

(** Lookups that differ in their environments only, the one of their own and the one of
    their project, and there in no variable the build allows. *)
Record lookup_agree (l l' : Lookup) : Prop := {
  la_project : option_Forall2 (fun p p' => exists e, p' = project_in e p /\ agree (ProjectInfo.environment p) e)
    (project l) (project l');
  la_properties : lookup_system_properties l = lookup_system_properties l';
  la_environment : option_Forall2 agree (lookup_environment l) (lookup_environment l');
  la_model : model l = model l';
}.

(** What the expansion sees of it. *)
Definition view (l l' : Lookup) : Prop :=
  option_Forall2 (fun p p' => exists e, p' = project_in e p) (project l) (project l') /\
  platform_of l = platform_of l' /\ model l = model l' /\
  option_Forall2 agree (environment_of l) (environment_of l').

Lemma lookup_agree_view l l' : lookup_agree l l' -> view l l'.
Proof.
  intros [Hp Hs He Hm]. split_and!; [|..|done|].
  - destruct Hp as [p p' (e & -> & _)|]; constructor. by exists e.
  - unfold platform_of. rewrite <-Hs. by destruct Hp as [p p' (e & -> & _)|].
  - unfold environment_of. destruct He; [by constructor|]. destruct Hp as [p p' (e & -> & He)|]; by constructor.
Qed.

(** A part of the project that is not its environment. *)
Lemma view_project {A} (f : option ProjectInfo.t -> A) l l' :
  (forall e p, f (Some (project_in e p)) = f (Some p)) -> view l l' -> f (project l) = f (project l').
Proof. intros Hf (Hp & _). destruct Hp as [p p' (e & ->)|]; [by rewrite Hf|done]. Qed.

Lemma view_record e e' i w : agree e e' -> record e i w = record e' i w.
Proof. intros (_ & E & _). unfold record. by rewrite E. Qed.

Lemma view_system_property key l l' w : view l l' -> resolve_system_property key l w = resolve_system_property key l' w.
Proof.
  unfold resolve_system_property. intros (_ & -> & -> & He).
  destruct (platform_of l' ≫= _); [done|]. destruct He as [e e' He|]; [|done].
  assert (host_java_version e = host_java_version e') as -> by (unfold host_java_version; by destruct He as (-> & _)).
  assert (forall name, allows_env e name = allows_env e' name) as Ha.
  { intros name. unfold allows_env. by destruct He as (_ & _ & -> & -> & _). }
  rewrite !(view_record e e') by done. rewrite Ha. case_decide; [done|]. destruct (_ && _); [done|]. destruct (_ || _); [done|].
  destruct He as (_ & Hj & Hal & _ & _ & _ & Henv). case_decide as Hin.
  - rewrite decide_True by congruence. by rewrite Henv.
  - by rewrite decide_False by congruence.
Qed.

Lemma view_os_detected key l l' w : view l l' -> os_detected_on_linux key l w = os_detected_on_linux key l' w.
Proof.
  unfold os_detected_on_linux, read_release. intros (_ & -> & _ & He). destruct (platform_of l'); [|done].
  destruct He as [e e' He|]; [|done]. rewrite !(view_record e e') by done.
  assert (classifier_likes e = classifier_likes e') as ->.
  { unfold classifier_likes. by destruct He as (_ & _ & _ & _ & _ & -> & _). }
  by destruct He as (_ & _ & _ & _ & -> & -> & _).
Qed.

Lemma view_note_lookup m key l l' w : view l l' -> note_lookup m key l w = note_lookup m key l' w.
Proof.
  unfold note_lookup. intros (_ & _ & -> & He). destruct He as [e e' He|]; [|done].
  cbv zeta. rewrite !(view_record e e') by done. done.
Qed.

Section Views.
Context (m : PropertyMap) (deeper : str -> Lookup -> Expanding str).
Context (deeper_view : forall s l l', view l l' -> deeper s l = deeper s l').

Lemma view_build field l l' : view l l' -> resolve_build deeper field l = resolve_build deeper field l'.
Proof.
  intros Hl. unfold resolve_build. destruct (Hl) as (Hp & _). destruct Hp as [p p' (e & ->)|]; [|done]. cbn [project_in ProjectInfo.build ProjectInfo.basedir].
  destruct (Build.field _ field); [|done]. destruct (match _ with Some _ => _ | None => _ end); [|done].
  by rewrite (deeper_view _ l l').
Qed.

Lemma view_prerequisite key l l' : view l l' -> resolve_prerequisite deeper key l = resolve_prerequisite deeper key l'.
Proof.
  intros Hl. unfold resolve_prerequisite.
  assert (prerequisites_of l = prerequisites_of l') as ->
    by exact (view_project (fun p => m ← (p ← p; ProjectInfo.model_lookup p); ModelLookup.prerequisites_maven m) l l' (fun e p => eq_refl) Hl).
  destruct (_ && _); [done|]. destruct (prerequisites_of l'); [|done]. by rewrite (deeper_view _ l l').
Qed.

Lemma view_missing key field l l' : view l l' -> resolve_missing deeper key field l = resolve_missing deeper key field l'.
Proof.
  intros Hl. extensionality w. unfold resolve_missing. rewrite (view_os_detected key l l' w Hl).
  destruct (os_detected_on_linux key l' w) as [[v|] w1]; [done|]. rewrite (view_system_property key l l' w1 Hl).
  destruct (resolve_system_property key l' w1) as [[v|] w2]; [done|].
  assert (match field with Some field => resolve_build deeper field l | None => mret None end =
    match field with Some field => resolve_build deeper field l' | None => mret None end) as ->
    by (destruct field; [by apply view_build|done]).
  by rewrite (view_project (resolve_unprefixed_model_field key) l l').
Qed.

Lemma view_property key raw l l' : view l l' -> resolve_property m deeper key raw l = resolve_property m deeper key raw l'.
Proof. intros Hl. extensionality w. unfold resolve_property. by rewrite (deeper_view _ l l'). Qed.

Lemma view_value key l l' : view l l' -> resolve_value_inner m deeper key l = resolve_value_inner m deeper key l'.
Proof.
  intros Hl. unfold resolve_value_inner. cbv zeta. f_equal.
  - extensionality built. destruct built; [done|]. rewrite (view_project (resolve_builtin key) l l') by done.
    destruct (resolve_builtin key (project l')); [done|]. rewrite (view_prerequisite key l l' Hl). f_equal.
    extensionality required. destruct required; [done|].
    assert (update (note_lookup m (property_name key) l) = update (note_lookup m (property_name key) l')) as Hn.
    { unfold update. extensionality w. by rewrite (view_note_lookup _ _ l l'). }
    unfold property_name in Hn. rewrite Hn. f_equal. extensionality u.
    destruct (get m _); [by apply view_property|by apply view_missing].
  - destruct (match strip_prefix _ key with Some _ => _ | None => _ end); [by apply view_build|done].
Qed.

Lemma view_reference before key l l' : view l l' -> resolve_reference m deeper before key l = resolve_reference m deeper before key l'.
Proof.
  intros Hl. extensionality w. unfold resolve_reference. cbv zeta. destruct (_ || _) eqn:Hp.
  - destruct (Hl) as (E1 & E2 & E3 & He). destruct He as [e e' He|].
    + rewrite (view_value key (with_environment l (Some e)) (with_environment l' (Some e'))); [done|].
      split_and!; [done..|]. by constructor.
    + by rewrite (view_value key l l').
  - by rewrite (view_value key l l').
Qed.

Lemma view_references fuel borrows output rest l l' : view l l' ->
  expand_references m deeper fuel borrows output rest l = expand_references m deeper fuel borrows output rest l'.
Proof.
  intros Hl. revert output rest. induction fuel as [|fuel IH]; intros output rest; [done|]. cbn [expand_references].
  destruct (first_reference rest) as [[[text written] rest']|]; [|done]. f_equal. extensionality before.
  rewrite (deeper_view written l l' Hl). f_equal. extensionality key. rewrite (view_reference before key l l' Hl).
  f_equal. extensionality value. f_equal. extensionality u. apply IH.
Qed.
End Views.

Lemma view_inner m levels s l l' : view l l' -> interpolate_str_inner m levels s l = interpolate_str_inner m levels s l'.
Proof.
  revert s l l'. induction levels as [|levels IH]; intros s l l' Hl; [done|]. cbn [interpolate_str_inner].
  by apply view_references.
Qed.

Lemma view_private_reads m input l l' w : view l l' -> record_private_reads m input l w = record_private_reads m input l' w.
Proof.
  intros Hl. assert (model_lookup_of l = model_lookup_of l') as Em 
    by exact (view_project (fun p => p ← p; ProjectInfo.model_lookup p) l l' (fun e p => eq_refl) Hl).
  destruct Hl as (_ & _ & Hm & He). unfold record_private_reads. rewrite Em, Hm. destruct He as [e e' He|]; [|done].
  assert ((fun (w : Walk) (name : str) => record e (UserProperty name) w) = (fun w name => record e' (UserProperty name) w)) as ->.
  { extensionality x. extensionality y. by apply view_record. }
  cbv zeta. destruct (private_names _); [|done]. by rewrite (view_record e e').
Qed.

(** C8: A POM reads no variable the build does not allow.  Take two lookups that are equal
    but for their environments, the one given with the lookup and the one of the project
    whose fields are interpolated, and let these have the same Java version, target,
    release, likes and allowed variables and differ at will in every other variable, the
    host's own included.  Then every interpolation gives the same text or error, records
    the same reads, collects the same names and charges the map the same. *)
Theorem interpolation_hides_environment m input l l' public_only : lookup_agree l l' ->
  interpolate_str_with m input l = interpolate_str_with m input l' /\
  interpolate_names m input l public_only = interpolate_names m input l' public_only.
Proof.
  intros Hl%lookup_agree_view.
  unfold interpolate_str_with, interpolate_names, expand. rewrite (view_inner m _ _ _ _ Hl). split.
  - destruct (_ && _); [done|]. destruct (interpolate_str_inner _ _ _ _ _) as [[t|err] w]; by rewrite (view_private_reads _ _ _ _ _ Hl).
  - destruct (interpolate_str_inner _ _ _ _ _) as [[t|err] w]; by rewrite (view_private_reads _ _ _ _ _ Hl).
Qed.

(** ** Examples *)

Definition demo_map : PropertyMap := {|
  props := [($"revision", $"1.${minor}"); ($"minor", $"4"); ($"loop", $"${pool}"); ($"pool", $"${loop}");
            ($"which", $"minor"); ($"project.build.sourceEncoding", $"UTF-8")];
  inputs := None; expanded := 0 |}.

Definition demo_fields : Build.t := {|
  Build.directory := Some $"out-${minor}"; Build.final_name := None; Build.default_goal := None; Build.output_directory := None;
  Build.test_output_directory := None; Build.source_directory := None; Build.test_source_directory := None;
  Build.script_source_directory := None |}.

Definition demo_project (e : Environment) : ProjectInfo.t := {|
  ProjectInfo.group_id := $"g"; ProjectInfo.artifact_id := $"a"; ProjectInfo.version := $"1"; ProjectInfo.packaging := $"jar";
  ProjectInfo.parent := None; ProjectInfo.basedir := None; ProjectInfo.build := demo_fields;
  ProjectInfo.system_properties := ∅; ProjectInfo.environment := e; ProjectInfo.model_lookup := None |}.

Definition demo_environment (secret : str) : Environment := {|
  platform := None; java_version := Some $"17"; target_jdk := false; java_home := None;
  env_system_properties := ∅; env := {[ $"HOME" := $"/root"; $"GITHUB_TOKEN" := secret ]}; host_env := ∅;
  allowed := {[ $"HOME" ]}; allow_all_env := false; linux_release := None; classifier_likes_text := None |}.

Definition demo_lookup : Lookup :=
  {| project := Some (demo_project (demo_environment [])); lookup_system_properties := None; lookup_environment := None; model := true |}.

Lemma demo_names_apart : names_apart demo_map demo_lookup.
Proof.
  split; [|by intros [v Hv]]. intros field Hf. unfold get. cbn. repeat case_decide; try done.
  assert (field = $"sourceEncoding") as -> by (by apply (app_inv_head $"project.build.")). by destruct Hf.
Qed.

Lemma interpolate_str_with_sound_witness :
  names_apart demo_map demo_lookup /\
  expands_to (source_of demo_map demo_lookup) $"v${revision}-${${which}}${x}" $"v1.4-4${x}" /\
  expands_to (source_of demo_map demo_lookup) $"${project.build.directory}/${project.build.sourceEncoding}" $"out-4/UTF-8" /\
  (forall t, ~ expands_to (source_of demo_map demo_lookup) $"${loop}" t).
Proof.
  split; [exact demo_names_apart|]. split_and!.
  - pose proof (interpolate_str_with_sound demo_map $"v${revision}-${${which}}${x}" demo_lookup demo_names_apart) as H.
    destruct (interpolate_str_with demo_map $"v${revision}-${${which}}${x}" demo_lookup) as [[r reads] m'] eqn:E.
    vm_compute in E. injection E as <- _ _. exact (proj1 H).
  - pose proof (interpolate_str_with_sound demo_map $"${project.build.directory}/${project.build.sourceEncoding}" demo_lookup demo_names_apart) as H.
    destruct (interpolate_str_with demo_map $"${project.build.directory}/${project.build.sourceEncoding}" demo_lookup) as [[r reads] m'] eqn:E.
    vm_compute in E. injection E as <- _ _. exact (proj1 H).
  - pose proof (interpolate_str_with_sound demo_map $"${loop}" demo_lookup demo_names_apart) as H.
    destruct (interpolate_str_with demo_map $"${loop}" demo_lookup) as [[r reads] m'] eqn:E.
    vm_compute in E. injection E as <- _ _. exact H.
Defined.

(** The text of a POM, whose environment is the one of its project. *)
Lemma interpolation_hides_environment_witness :
  let text := $"${env.HOME}/${env.GITHUB_TOKEN}" in
  interpolate_str demo_map text (demo_project (demo_environment $"a")) =
  interpolate_str demo_map text (demo_project (demo_environment $"b")) /\
  interpolate_str_exact demo_map text (demo_environment $"a") = interpolate_str_exact demo_map text (demo_environment $"b") /\
  (interpolate_str demo_map text (demo_project (demo_environment $"a"))).1.1 = Ok $"/root/${env.GITHUB_TOKEN}".
Proof.
  assert (agree (demo_environment $"a") (demo_environment $"b")) as Ha.
  { split_and!; [done..|]. cbn [allowed demo_environment]. intros name Hn. apply elem_of_singleton in Hn. subst. vm_compute. done. }
  cbn zeta. split_and!; [| |vm_compute; reflexivity].
  - refine (proj1 (interpolation_hides_environment demo_map $"${env.HOME}/${env.GITHUB_TOKEN}" _ _ true _)).
    split; try done; [constructor; by exists (demo_environment $"b")|constructor].
  - refine (proj1 (interpolation_hides_environment demo_map $"${env.HOME}/${env.GITHUB_TOKEN}" _ _ true _)).
    split; try done; by constructor.
Defined.
