(* ===== verification/Version.v ===== *)
(** * Maven versions ([rv-maven-types/src/version.rs])

    The parser, the order of maven-resolver's [GenericVersion], the equality and
    hash it induces, and the merge sort that tolerates it. *)

From Stdlib Require Import Ascii String.
From stdpp Require Import base list strings gmap sorting.
From S2P Require Import Prelude Str.

#[local] Set Warnings "-clear-no-such-hyp".

(** The errors of [rv-maven-types/src/error.rs]; each holds the refused text. *)
Inductive VersionError :=
  | InvalidVersion (s : str)
  | InvalidRange (s : str)
  | InvalidCoord (s : str)
  | UnresolvedProperty (s : str).

(** [component.rs]: the longest component accepted, in bytes. *)
Definition MAX_COMPONENT_BYTES : nat := 255.

(** ** Items *)

Inductive Item :=
  | Min
  | Qualifier (value : Z)
  | Text (s : str)
  | Number (digits : str)
  | Max.

#[export] Instance item_eq_dec : EqDecision Item.
Proof. solve_decision. Defined.

Definition is_number (item : Item) : bool :=
  match item with Min | Number _ | Max => true | _ => false end.

(** [Item::cmp_padding]. *)
Definition cmp_padding (item : Item) : comparison :=
  match item with
  | Min => Lt
  | Qualifier value => Z.compare value 0
  | Number digits => if bool_decide (digits = $"0") then Eq else Gt
  | Text _ | Max => Gt
  end.

(** [Number::cmp]: without leading zeros the longer number is the larger. *)
Definition number_cmp (a b : str) : comparison :=
  ord_then (Nat.compare (length a) (length b)) (str_cmp a b).

Definition item_rank (item : Item) : nat :=
  match item with Min => 0 | Qualifier _ => 1 | Text _ => 2 | Number _ => 3 | Max => 4 end.

(** The derived [Ord] of [Item]: the variants in order, then their payload. *)
Definition item_cmp (a b : Item) : comparison :=
  match a, b with
  | Qualifier x, Qualifier y => Z.compare x y
  | Text x, Text y => str_cmp x y
  | Number x, Number y => number_cmp x y
  | _, _ => Nat.compare (item_rank a) (item_rank b)
  end.

(** ** Parsing *)

Definition is_separator (c : ascii) : bool := one_of ["."; "-"; "_"]%char c.

(** The inner loop of [parse_items].  [state] is -2 before the first character,
    -1 in text, 0 in leading zeros and 1 in a number; [token] is the text
    between [start] and [index], so that [start += 1] drops its first byte.
    The result is the state, the token, [before_digit] and what is left. *)
Fixpoint scan_token (rest : str) (state : Z) (token : str) : Z * str * bool * str :=
  match rest with
  | [] => (state, token, false, [])
  | ch :: rest' =>
    if is_separator ch then (state, token, false, rest')
    else if is_digit ch then
      if (state =? -1)%Z then (state, token, true, rest)
      else
        let token := if (state =? 0)%Z then drop 1 token else token in
        let state := if (0 <? state)%Z || negb (bool_decide (ch = "0"%char)) then 1%Z else 0%Z in
        scan_token rest' state (token ++ [ch])
    else
      if (0 <=? state)%Z then (state, token, false, rest)
      else scan_token rest' (-1) (token ++ [ch])
  end.

(** [GenericVersion.trimPadding], a pass over the items after the first from
    the right.  [run] is the kind of the run, [at_end] holds when [end == i]:
    nothing right of [i] in its run was kept. *)
Record trim_state := {
  run : option bool;
  at_end : bool;
  tail_dropped : bool;
  kept : list Item;
}.

Definition trim_step (previous : bool) (item : Item) (st : trim_state) : trim_state :=
  let number := is_number item in
  let at_end := if decide (run st = Some number) then at_end st else true in
  if at_end && (tail_dropped st || eqb previous number) && is_eq (cmp_padding item) then
    {| run := Some number; at_end := true; tail_dropped := tail_dropped st; kept := kept st |}
  else
    {| run := Some number; at_end := false; tail_dropped := false; kept := item :: kept st |}.

Fixpoint trim_loop (previous : bool) (items : list Item) : trim_state :=
  match items with
  | [] => {| run := None; at_end := false; tail_dropped := true; kept := [] |}
  | item :: rest => trim_step previous item (trim_loop (is_number item) rest)
  end.

Definition trim_padding (items : list Item) : list Item :=
  match items with
  | [] => []
  | first :: rest => first :: kept (trim_loop (is_number first) rest)
  end.

Section Parse.
Context `{Unicode}.

Definition text_item (token : str) (last before_digit : bool) : Item :=
  let token := to_lowercase token in
  let is_ s := bool_decide (token = s) in
  if is_ $"min" && last then Min
  else if is_ $"max" && last then Max
  else if is_ $"a" && before_digit then Qualifier (-5)
  else if is_ $"b" && before_digit then Qualifier (-4)
  else if is_ $"m" && before_digit then Qualifier (-3)
  else if is_ $"alpha" then Qualifier (-5)
  else if is_ $"beta" then Qualifier (-4)
  else if is_ $"milestone" then Qualifier (-3)
  else if is_ $"cr" || is_ $"rc" then Qualifier (-2)
  else if is_ $"snapshot" then Qualifier (-1)
  else if is_ $"ga" || is_ $"final" || is_ $"release" then Qualifier 0
  else if is_ $"sp" then Qualifier 1
  else Text token.

(** One turn of the outer loop: the item pushed and what is left. *)
Definition next_item (rest : str) : Item * str :=
  let '(state, token, before_digit, rest') := scan_token rest (-2) [] in
  let item :=
    if decide (token = []) then Number $"0"
    else if (0 <=? state)%Z then Number token
    else text_item token (bool_decide (rest' = [])) before_digit in
  (item, rest').

(** The outer loop.  Every turn takes at least one byte, so [length rest] turns
    are enough. *)
Fixpoint items_loop (fuel : nat) (rest : str) : list Item :=
  match fuel, rest with
  | O, _ | _, [] => []
  | S fuel, _ => let '(item, rest') := next_item rest in item :: items_loop fuel rest'
  end.

Definition parse_items (version : str) : list Item :=
  trim_padding (items_loop (length version) version).

(** ** Versions *)

Record Version := { original : str; items : list Item }.

(** [Version::parse]. *)
Definition parse (s : str) : result VersionError Version :=
  let trimmed := trim s in
  if bool_decide (trimmed = []) || (MAX_COMPONENT_BYTES <? length trimmed) then
    Err (InvalidVersion s)
  else if contains $"${" trimmed then Err (UnresolvedProperty trimmed)
  else Ok {| original := trimmed; items := parse_items trimmed |}.

(** [Version::unresolved]. *)
Definition unresolved (s : str) : Version :=
  let trimmed := trim s in
  {| original := trimmed;
     items := if MAX_COMPONENT_BYTES <? length trimmed then [] else parse_items trimmed |}.

End Parse.

#[export] Instance version_eq_dec : EqDecision Version.
Proof. solve_decision. Defined.

(** [Version::is_zero]: starts with text, or has no number but zero. *)
Definition is_zero (v : Version) : bool :=
  match items v with
  | first :: _ => negb (is_number first)
  | [] => false
  end
  || forallb (fun item => is_eq (cmp_padding item)) (List.filter is_number (items v)).

(** [GenericVersion.comparePadding] over the items from an index on. *)
Fixpoint compare_padding (items : list Item) (number : option bool) : comparison :=
  match items with
  | [] => Eq
  | item :: rest =>
    if is_none_or (eqb (is_number item)) number
    then ord_then (cmp_padding item) (compare_padding rest number)
    else compare_padding rest number
  end.

(** [GenericVersion.compareTo]; the lists are the items from [index] on. *)
Fixpoint cmp_loop (these those : list Item) (number : bool) : comparison :=
  match these, those with
  | [], [] => Eq
  | [], _ :: _ => CompOpp (compare_padding those None)
  | _ :: _, [] => compare_padding these None
  | this :: these', that :: those' =>
    if eqb (is_number this) (is_number that) then
      match item_cmp this that with
      | Eq => cmp_loop these' those' (is_number this)
      | rel => rel
      end
    else if eqb (is_number this) number then compare_padding these (Some number)
    else CompOpp (compare_padding those (Some number))
  end.

(** [Ord for Version], [PartialEq for Version] and the [<] of [PartialOrd]. *)
Definition version_cmp (a b : Version) : comparison := cmp_loop (items a) (items b) true.
Definition version_eqb (a b : Version) : bool := is_eq (version_cmp a b).
Definition version_ltb (a b : Version) : bool :=
  match version_cmp a b with Lt => true | _ => false end.

(** What [Hash for Version] feeds the hasher: nothing, or the items. *)
Definition hash_input (v : Version) : option (list Item) :=
  if is_zero v then None else Some (items v).

(** [Version::sort_by_key]: the merge of the two halves, then the recursion on
    the halves [split_off(len / 2)] gives. *)
Section Sort.
Context {T : Type} (key : T -> Version).

Fixpoint merge (left : list T) : list T -> list T :=
  fix merge_right (right : list T) : list T :=
    match left, right with
    | first :: left', second :: right' =>
      if version_ltb (key second) (key first)
      then second :: merge_right right'
      else first :: merge left' right
    | _, _ => left ++ right
    end.

Fixpoint merge_sort (fuel : nat) (l : list T) : list T :=
  match fuel with
  | O => l
  | S fuel =>
    if length l <? 2 then l
    else
      let right := merge_sort fuel (drop (length l / 2) l) in
      let left := merge_sort fuel (take (length l / 2) l) in
      merge left right
  end.

(** A list shrinks at every level, so its length is enough fuel. *)
Definition sort_by_key (l : list T) : list T := merge_sort (length l) l.

End Sort.

(** Case tables for evaluating the definitions on ASCII texts. *)
Definition ascii_tables : Unicode :=
  {| lowercase_table := fun s => s;
     char_upper_table := fun c => [c];
     char_lower_table := fun c => [c] |}.

(** ** The order of items *)

#[export] Instance number_total_cmp : TotalCmp number_cmp.
Proof.
  apply (total_cmp_inj (fun a : str => (length a, a)) (pair_cmp Nat.compare str_cmp)); [|apply _].
  by intros a b [=].
Qed.

#[export] Instance item_total_cmp : TotalCmp item_cmp.
Proof.
  split.
  - intros [|x|x|x|] [|y|y|y|]; cbn; try done; rewrite cmp_eq; naive_solver.
  - intros [|x|x|x|] [|y|y|y|]; cbn; try done; apply cmp_sym.
  - intros [|x|x|x|] [|y|y|y|] [|z|z|z|]; cbn; try done; apply cmp_lt_trans.
Qed.

Lemma CompOpp_ord_then c d : CompOpp (ord_then c d) = ord_then (CompOpp c) (CompOpp d).
Proof. by destruct c. Qed.

Lemma cmp_loop_sym a b n : cmp_loop b a n = CompOpp (cmp_loop a b n).
Proof.
  revert b n. induction a as [|x a IH]; intros [|y b] n; cbn [cmp_loop]; try done.
  - by rewrite CompOpp_involutive.
  - rewrite (cmp_sym (cmp:=item_cmp) x y).
    destruct (is_number x), (is_number y), n; cbn [eqb];
      try (destruct (item_cmp x y); cbn; auto); by rewrite CompOpp_involutive.
Qed.

Lemma cmp_loop_refl a n : cmp_loop a a n = Eq.
Proof.
  revert n. induction a as [|x a IH]; intros n; cbn [cmp_loop]; [done|].
  by rewrite eqb_reflx, cmp_refl.
Qed.

(** ** What parsing guarantees *)

(** A number as [Number] holds it: digits without leading zeros. *)
Definition canonical (d : str) : Prop :=
  d = $"0" \/ exists c r, d = c :: r /\ c <> "0"%char /\ all_digits d = true.

Definition item_wf (item : Item) : Prop :=
  match item with Number d => canonical d | _ => True end.

(** The states of the tokenizer and the tokens they go with. *)
Definition scan_ok (state : Z) (token : str) : Prop :=
  (state = -2 /\ token = [])%Z \/ (state = -1 /\ token <> [])%Z \/
  (state = 0 /\ token = $"0")%Z \/
  (state = 1 /\ exists c r, token = c :: r /\ c <> "0"%char /\ all_digits token = true)%Z.

Lemma all_digits_app a b : all_digits (a ++ b) = all_digits a && all_digits b.
Proof. apply forallb_app. Qed.

Lemma scan_token_ok rest state token state' token' before rest' :
  scan_ok state token ->
  scan_token rest state token = (state', token', before, rest') ->
  scan_ok state' token'.
Proof.
  revert state token. induction rest as [|ch rest IH]; intros state token Hok; cbn.
  - by intros [= <- <- <- <-].
  - destruct (is_separator ch); [by intros [= <- <- <- <-]|].
    destruct (is_digit ch) eqn:Hd.
    + destruct Hok as [[-> ->]|[[-> Ht]|[[-> ->]|[-> (c & r & -> & Hc & Hr)]]]]; cbn.
      * intros H. eapply IH; [|exact H]. case_bool_decide as Ez; cbn; [subst; by right; right; left|].
        right; right; right. split; [done|]. exists ch, []. cbn. by rewrite Hd.
      * intros [= <- <- <- <-]. right; by left.
      * intros H. eapply IH; [|exact H]. case_bool_decide as Ez; cbn; [subst; by right; right; left|].
        right; right; right. split; [done|]. exists ch, []. cbn. by rewrite Hd.
      * intros H. eapply IH; [|exact H]. right; right; right. split; [done|].
        exists c, (r ++ [ch]). split; [done|]. split; [done|].
        change (all_digits ((c :: r) ++ [ch]) = true). rewrite all_digits_app, Hr. cbn. by rewrite Hd.
    + destruct Hok as [[-> ->]|[[-> Ht]|[[-> ->]|[-> Hr]]]]; cbn.
      * intros H. eapply IH; [|exact H]. by right; left.
      * intros H. eapply IH; [|exact H]. right; left. split; [done|]. by destruct token.
      * intros [= <- <- <- <-]. by right; right; left.
      * intros [= <- <- <- <-]. by right; right; right.
Qed.

(** Before the first character a token takes one; a later call may take none. *)
Lemma scan_token_rest rest state token state' token' before rest' :
  scan_token rest state token = (state', token', before, rest') ->
  length rest' <= length rest /\ (state = (-2)%Z -> rest <> [] -> length rest' < length rest).
Proof.
  revert state token. induction rest as [|ch rest IH]; intros state token; cbn.
  - intros [= <- <- <- <-]. done.
  - destruct (is_separator ch); [intros [= <- <- <- <-]; lia|].
    destruct (is_digit ch).
    + destruct (Z.eqb_spec state (-1)) as [Hs|Hs].
      * intros [= <- <- <- <-]. cbn. lia.
      * intros H%IH. lia.
    + destruct (Z.leb_spec 0 state) as [Hs|Hs].
      * intros [= <- <- <- <-]. cbn. lia.
      * intros H%IH. lia.
Qed.

Section ParseFacts.
Context `{Unicode}.

Lemma text_item_wf token last before : item_wf (text_item token last before).
Proof. unfold text_item. by repeat case_match. Qed.

Lemma next_item_wf rest item rest' : next_item rest = (item, rest') -> item_wf item.
Proof.
  unfold next_item. destruct (scan_token rest (-2) []) as [[[state token] before] r] eqn:E.
  apply scan_token_ok in E; [|by left]. intros [= <- <-].
  case_decide as Ht; [by left|]. destruct (Z.leb_spec 0 state); [|apply text_item_wf].
  cbn. destruct E as [[-> _]|[[-> _]|[[-> ->]|[-> Hc]]]]; [lia..|by left|by right].
Qed.

Lemma next_item_rest rest item rest' :
  next_item rest = (item, rest') -> rest <> [] -> length rest' < length rest.
Proof.
  unfold next_item. destruct (scan_token rest (-2) []) as [[[state token] before] r] eqn:E.
  intros [= _ <-] Hr. apply scan_token_rest in E. naive_solver.
Qed.

Lemma items_loop_wf fuel rest : Forall item_wf (items_loop fuel rest).
Proof.
  revert rest. induction fuel as [|fuel IH]; intros [|c rest]; cbn [items_loop]; try constructor.
  destruct (next_item (c :: rest)) as [item r] eqn:E.
  constructor; [by eapply next_item_wf|apply IH].
Qed.

(** [length rest] turns read the whole text: more change nothing. *)
Lemma items_loop_fuel fuel rest :
  length rest <= fuel -> items_loop fuel rest = items_loop (length rest) rest.
Proof.
  remember (length rest) as n eqn:En. revert fuel rest En.
  induction n as [n IH] using lt_wf_ind. intros fuel rest -> Hf.
  destruct rest as [|c rest]; [by destruct fuel|].
  destruct fuel as [|fuel]; [cbn in Hf; lia|]. cbn [items_loop length].
  destruct (next_item (c :: rest)) as [item r] eqn:E.
  apply next_item_rest in E; [|done]. cbn [length] in *.
  rewrite (IH (length r)), (IH (length r) E (length rest)); lia || done.
Qed.

End ParseFacts.

(** ** Trimmed item lists *)

(** [l] follows an item of kind [previous]: its last item is not padding, and
    neither is the last one of a run that [l] does not start. *)
Fixpoint trimmed_after (previous : bool) (l : list Item) : Prop :=
  match l with
  | [] => True
  | x :: rest =>
    match rest with
    | [] => cmp_padding x <> Eq
    | y :: _ => previous = is_number x -> is_number y <> is_number x -> cmp_padding x <> Eq
    end /\ trimmed_after (is_number x) rest
  end.

Definition trimmed (l : list Item) : Prop :=
  match l with [] => True | x :: rest => trimmed_after (is_number x) rest end.

(** What [trim_loop] has established about [l] when it reaches its head. *)
Definition trim_inv (previous : bool) (l : list Item) (st : trim_state) : Prop :=
  (tail_dropped st = true <-> kept st = []) /\
  trimmed_after previous (kept st) /\
  match l with
  | [] => run st = None /\ kept st = []
  | x :: _ =>
    run st = Some (is_number x) /\
    (at_end st = true <-> forall y, head (kept st) = Some y -> is_number y <> is_number x) /\
    (previous <> is_number x -> forall y, head (kept st) = Some y -> is_number y = is_number x)
  end.

Lemma trimmed_after_head p x rest :
  trimmed_after (is_number x) rest ->
  (p = is_number x ->
   (forall y, head rest = Some y -> is_number y <> is_number x) -> cmp_padding x <> Eq) ->
  (rest = [] -> cmp_padding x <> Eq) ->
  trimmed_after p (x :: rest).
Proof.
  intros Ht H1 H2. cbn [trimmed_after]. split; [|done].
  destruct rest as [|y rest]; [by apply H2|]. intros Hp Hy. apply H1; [done|].
  intros ? [= <-]. done.
Qed.

Lemma trim_loop_inv p l : trim_inv p l (trim_loop p l).
Proof.
  revert p. induction l as [|x l IH]; intros p; cbn [trim_loop].
  - by unfold trim_inv.
  - specialize (IH (is_number x)). set (st := trim_loop (is_number x) l) in *.
    destruct IH as (Htail & Htrim & Hl).
    (* [at_end] after the step's first test says no kept item continues the run *)
    assert ((if decide (run st = Some (is_number x)) then at_end st else true) = true <->
            forall y, head (kept st) = Some y -> is_number y <> is_number x) as Hend.
    { destruct l as [|x' l'].
      - destruct Hl as [-> ->]. rewrite decide_False by done. cbn. naive_solver.
      - destruct Hl as (-> & Hend & Hfirst). case_decide as Er.
        + injection Er as Er. rewrite Hend, Er. done.
        + split; [|done]. intros _ y Hy. rewrite (Hfirst ltac:(congruence) y Hy). congruence. }
    unfold trim_step.
    set (ae := if decide (run st = Some (is_number x)) then at_end st else true) in *.
    destruct (ae && (tail_dropped st || eqb p (is_number x)) && is_eq (cmp_padding x)) eqn:E.
    + bool_simpl. unfold trim_inv; cbn. split; [done|].
      apply orb_true_iff in H1 as [Hd|Hp%eqb_prop]; subst.
      * apply Htail in Hd as Hk. rewrite Hk. cbn. naive_solver.
      * split; [done|]. split; [done|]. split; [|done]. split; [|done].
        intros _. by apply Hend.
    + unfold trim_inv; cbn. split; [done|]. split; [|naive_solver].
      apply trimmed_after_head; [done|..].
      * intros -> Hy Hpad. apply Hend in Hy. rewrite Hy, eqb_reflx, orb_true_r, Hpad in E. done.
      * intros Hk Hpad.
        assert (ae = true) as Hae by (apply Hend; by rewrite Hk).
        rewrite Hae, (proj2 Htail Hk), Hpad in E. done.
Qed.

Lemma trim_padding_trimmed l : trimmed (trim_padding l).
Proof.
  destruct l as [|x l]; [done|]. cbn.
  by destruct (trim_loop_inv (is_number x) l) as (_ & ? & _).
Qed.

Lemma trim_loop_Forall P p l : Forall P l -> Forall P (kept (trim_loop p l)).
Proof.
  intros HF. revert p. induction HF as [|x l Hx HF IH]; intros p; cbn; [constructor|].
  unfold trim_step. destruct (_ && _ && _); cbn; [apply IH|constructor; [done|apply IH]].
Qed.

Lemma trim_padding_Forall P l : Forall P l -> Forall P (trim_padding l).
Proof.
  intros HF. destruct HF as [|x l Hx HF]; constructor; [done|]. by apply trim_loop_Forall.
Qed.

(** The versions the program makes: by [parse] or by [unresolved]. *)
Inductive made `{Unicode} : Version -> Prop :=
  | made_parse s v : parse s = Ok v -> made v
  | made_unresolved s : made (unresolved s).

Lemma parse_items_inv `{Unicode} s :
  trimmed (parse_items s) /\ Forall item_wf (parse_items s).
Proof.
  split; [apply trim_padding_trimmed|]. apply trim_padding_Forall, items_loop_wf.
Qed.

Lemma parse_Ok `{Unicode} s v :
  parse s = Ok v ->
  v = {| original := trim s; items := parse_items (trim s) |} /\
  trim s <> [] /\ length (trim s) <= MAX_COMPONENT_BYTES /\ contains $"${" (trim s) = false.
Proof.
  unfold parse. intros E. repeat inv_ok E. injection E as <-. bool_simpl. done.
Qed.

(** A parsed version's own text parses to it: trimmed text is stable. *)
Lemma parse_original `{Unicode} s v : parse s = Ok v -> parse (original v) = Ok v.
Proof.
  intros E. pose proof E as E'. apply parse_Ok in E' as (-> & _). cbn.
  unfold parse in *. rewrite trim_idem. by repeat case_match.
Qed.

Lemma parse_trim `{Unicode} s v : parse (trim s) = Ok v <-> parse s = Ok v.
Proof. unfold parse. rewrite trim_idem. by repeat case_match. Qed.

Lemma made_inv `{Unicode} v : made v -> trimmed (items v) /\ Forall item_wf (items v).
Proof.
  intros [s v' E|s].
  - apply parse_Ok in E as (-> & _). apply parse_items_inv.
  - cbn. case_match; [done|apply parse_items_inv].
Qed.

(** ** Equality and hashing *)

Lemma is_eq_true c : is_eq c = true <-> c = Eq.
Proof. by destruct c. Qed.

Lemma ord_then_Eq c d : ord_then c d = Eq <-> c = Eq /\ d = Eq.
Proof. destruct c; cbn; naive_solver. Qed.

(** The run that a trimmed list continues does not end in padding, *)
Lemma trimmed_run_not_padding l n :
  trimmed_after n l -> (forall y, head l = Some y -> is_number y = n) -> l <> [] ->
  compare_padding l (Some n) <> Eq.
Proof.
  revert n. induction l as [|x l IH]; [done|]. intros n Ht Hx _. cbn.
  specialize (Hx x eq_refl) as <-. rewrite eqb_reflx, ord_then_Eq. intros [Hp Hl].
  cbn in Ht. destruct l as [|y l]; [by destruct Ht|]. destruct Ht as [Hxy Ht].
  eapply (IH (is_number x)); [done| |done|done]. intros ? [= <-].
  destruct (decide (is_number y = is_number x)) as [|Hne]; [done|]. by destruct Hxy.
Qed.

(** nor does the list itself. *)
Lemma trimmed_not_padding l n : trimmed_after n l -> l <> [] -> compare_padding l None <> Eq.
Proof.
  revert n. induction l as [|x l IH]; [done|]. intros n Ht _. cbn. rewrite ord_then_Eq.
  intros [Hp Hl]. destruct l as [|y l]; [by destruct Ht|]. destruct Ht as [_ Ht].
  by eapply IH.
Qed.

Lemma CompOpp_Eq c : CompOpp c = Eq <-> c = Eq.
Proof. by destruct c. Qed.

Lemma cmp_loop_tail_eq n a b :
  trimmed_after n a -> trimmed_after n b -> cmp_loop a b n = Eq -> a = b.
Proof.
  revert n b. induction a as [|x a IH]; intros n [|y b] Ha Hb; cbn [cmp_loop]; [done|..].
  - rewrite CompOpp_Eq. intros E. by destruct (trimmed_not_padding (y :: b) n).
  - intros E. by destruct (trimmed_not_padding (x :: a) n).
  - destruct (eqb (is_number x) (is_number y)) eqn:Ek.
    + apply eqb_prop in Ek. destruct (item_cmp x y) eqn:Ei; [|done..].
      apply cmp_eq in Ei as ->. intros E. f_equal. apply (IH (is_number y)); [apply Ha|apply Hb|done].
    + apply eqb_false_iff in Ek. destruct (eqb (is_number x) n) eqn:Ex.
      * apply eqb_prop in Ex. intros E.
        destruct (trimmed_run_not_padding (x :: a) n); [done|by intros ? [= <-]|done|done].
      * apply eqb_false_iff in Ex. rewrite CompOpp_Eq. intros E.
        destruct (trimmed_run_not_padding (y :: b) n); [done| |done|done].
        intros ? [= <-]. by destruct (is_number x), (is_number y), n.
Qed.

Lemma compare_padding_numbers l :
  compare_padding l (Some true) = Eq ->
  forallb (fun item => is_eq (cmp_padding item)) (List.filter is_number l) = true.
Proof.
  induction l as [|x l IH]; cbn; [done|].
  destruct (is_number x); cbn; [|done]. rewrite ord_then_Eq. intros [-> E]. by apply IH.
Qed.

Lemma version_eq_cases a b :
  trimmed (items a) -> trimmed (items b) -> version_cmp a b = Eq ->
  items a = items b \/ (is_zero a = true /\ is_zero b = true).
Proof.
  unfold version_cmp, is_zero.
  destruct (items a) as [|x l], (items b) as [|y k]; cbn [cmp_loop trimmed]; intros Ha Hb.
  - by left.
  - rewrite CompOpp_Eq. cbn. rewrite ord_then_Eq. intros [Hy Hk]. right. split; [done|].
    destruct k as [|z k]; [|by destruct (trimmed_not_padding (z :: k) _ Hb)].
    destruct (is_number y); cbn; [|done]. by rewrite Hy.
  - cbn. rewrite ord_then_Eq. intros [Hx Hl]. right. split; [|done].
    destruct l as [|z l]; [|by destruct (trimmed_not_padding (z :: l) _ Ha)].
    destruct (is_number x); cbn; [|done]. by rewrite Hx.
  - destruct (eqb (is_number x) (is_number y)) eqn:Ek.
    + apply eqb_prop in Ek. destruct (item_cmp x y) eqn:Ei; [|done..].
      apply cmp_eq in Ei as ->. intros E. left. f_equal.
      by apply (cmp_loop_tail_eq (is_number y)).
    + apply eqb_false_iff in Ek. destruct (is_number x) eqn:Ex; cbn [eqb].
      * intros E. right. destruct (is_number y) eqn:Ey; [done|]. split; [|done].
        by apply (compare_padding_numbers (x :: l)).
      * rewrite CompOpp_Eq. intros E. right. destruct (is_number y) eqn:Ey; [|done].
        split; [done|]. by apply (compare_padding_numbers (y :: k)).
Qed.

(** Versions that compare equal hash alike, as the [Hash] contract asks:
    trimmed item lists compare equal only when they are the same, or when both
    versions equal [0], and then neither feeds the hasher anything. *)
Theorem hash_agrees_with_eq `{Unicode} a b :
  made a -> made b -> version_eqb a b = true -> hash_input a = hash_input b.
Proof.
  intros [Ha _]%made_inv [Hb _]%made_inv E%is_eq_true. unfold hash_input.
  destruct (version_eq_cases a b Ha Hb E) as [Ei|[Za Zb]].
  - unfold is_zero. by rewrite Ei.
  - by rewrite Za, Zb.
Qed.

#[local] Existing Instance ascii_tables.

(** [1.0], [1.0.0-ga] and [alpha], [0.0-beta]: two pairs of equal versions. *)
Lemma hash_agrees_with_eq_witness :
  hash_input (unresolved $"1.0") = hash_input (unresolved $"1.0.0-ga") /\
  hash_input (unresolved $"alpha") = hash_input (unresolved $"0.0-beta").
Proof.
  split; apply hash_agrees_with_eq; try apply made_unresolved; vm_compute; reflexivity.
Defined.

Lemma version_cmp_sym a b : version_cmp b a = CompOpp (version_cmp a b).
Proof. apply cmp_loop_sym. Qed.

Lemma version_cmp_refl a : version_cmp a a = Eq.
Proof. apply cmp_loop_refl. Qed.

(** The comparison is antisymmetric and reflexive on all versions: swapping
    the operands reverses the result, and a version equals itself. *)
Lemma version_cmp_antisym (a b : Version) :
  version_cmp b a = CompOpp (version_cmp a b) /\ version_cmp a a = Eq.
Proof. split; [apply version_cmp_sym|apply version_cmp_refl]. Qed.

(** ** The order as a lexicographic order

    A reference definition of the order.  A version is a sequence of runs of
    numbers and of text, each continued without end by its padding; read with a
    fixed schedule of kinds, long enough for every run, it gives a list of
    items, and versions compare as those lists do, item by item. *)
Definition pad (n : bool) : Item := if n then Number $"0" else Qualifier 0.

Definition value_at (n : bool) (l : list Item) : Item :=
  match l with x :: _ => if eqb (is_number x) n then x else pad n | [] => pad n end.
Definition advance (n : bool) (l : list Item) : list Item :=
  match l with x :: rest => if eqb (is_number x) n then rest else l | [] => [] end.

Fixpoint view (schedule : list bool) (l : list Item) : list Item :=
  match schedule with
  | [] => []
  | n :: schedule => value_at n l :: view schedule (advance n l)
  end.

(** [blocks] blocks of [width] steps, of alternating kinds. *)
Fixpoint schedule (n : bool) (width blocks : nat) : list bool :=
  match blocks with
  | O => []
  | S blocks => replicate width n ++ schedule (negb n) width blocks
  end.

Fixpoint run_length (n : bool) (l : list Item) : nat :=
  match l with
  | x :: rest => if eqb (is_number x) n then S (run_length n rest) else 0
  | [] => 0
  end.

(** A list at the start of a run of kind [n]. *)
Definition fresh (n : bool) (l : list Item) : Prop :=
  match l with [] => True | x :: rest => is_number x = n /\ trimmed_after n rest end.

Lemma item_cmp_pad x : item_wf x -> item_cmp x (pad (is_number x)) = cmp_padding x.
Proof.
  destruct x as [|v|s|d|]; cbn [is_number pad item_cmp cmp_padding item_rank]; try done.
  intros [->|(c & r & -> & Hc & Hd)]; [done|].
  rewrite bool_decide_false by (cbn; congruence). destruct r as [|c' r]; [|done].
  unfold number_cmp. cbn. destruct (ascii_cmp c "0") eqn:E; [|exfalso|done].
  - apply cmp_eq in E. congruence.
  - cbn in Hd. rewrite andb_true_r in Hd. unfold is_digit, in_range, code in Hd.
    apply andb_true_iff in Hd as [Hd _]. apply N.leb_le in Hd.
    unfold ascii_cmp in E. rewrite N.compare_lt_iff in E.
    change (N_of_ascii "0") with 48%N in E. lia.
Qed.

Lemma pad_wf n : item_wf (pad n).
Proof. destruct n; [by left|done]. Qed.

Definition view_inv (n : bool) (a b : list Item) : Prop :=
  (trimmed_after n a /\ trimmed_after n b) \/ (fresh n a /\ fresh n b).

(** [steps] steps are left of the current block, [blocks] blocks follow. *)
Definition fits (n : bool) (steps width blocks : nat) (l : list Item) : Prop :=
  run_length n l <= steps /\ length l <= width /\ length l - run_length n l <= blocks.

Lemma fits_cons n steps width blocks x l :
  is_number x = n -> fits n (S steps) width blocks (x :: l) -> fits n steps width blocks l.
Proof. intros <-. unfold fits. cbn. rewrite eqb_reflx. lia. Qed.

Lemma fits_stop n steps width blocks l :
  run_length n l = 0 -> fits n (S steps) width blocks l -> fits n steps width blocks l.
Proof. unfold fits. lia. Qed.

Lemma run_length_stop n x l : is_number x <> n -> run_length n (x :: l) = 0.
Proof. intros H. cbn. by rewrite (proj2 (eqb_false_iff _ _)). Qed.

(** One step in which only the first list still has an item of the run. *)
Lemma cmp_loop_left n x a b :
  item_wf x -> is_number x = n -> (forall y, head b = Some y -> is_number y <> n) ->
  (b <> [] -> trimmed_after n (x :: a)) ->
  cmp_loop (x :: a) b n = ord_then (item_cmp x (pad n)) (cmp_loop a b n).
Proof.
  intros Hw <- Hb Ht. rewrite item_cmp_pad by done. destruct b as [|y b]; cbn [cmp_loop].
  - cbn. by destruct a.
  - specialize (Hb y eq_refl). specialize (Ht ltac:(done)).
    rewrite (proj2 (eqb_false_iff _ _)), eqb_reflx by congruence.
    cbn. rewrite eqb_reflx. destruct a as [|z a]; [destruct Ht as [Hx _]; by destruct (cmp_padding x)|].
    destruct (eqb (is_number z) (is_number x)) eqn:Ez; cbn [cmp_loop].
    + apply eqb_prop in Ez. rewrite Ez, eqb_reflx.
      rewrite (proj2 (eqb_false_iff _ _)) by congruence. cbn. by rewrite Ez, eqb_reflx.
    + apply eqb_false_iff in Ez. destruct Ht as [Hx _]. specialize (Hx eq_refl Ez).
      by destruct (cmp_padding x).
Qed.

Lemma view_inv_sym n a b : view_inv n a b -> view_inv n b a.
Proof. unfold view_inv. naive_solver. Qed.

(** The comparison and the step of the schedule agree on what they do next. *)
Lemma cmp_loop_step n steps width blocks a b :
  Forall item_wf a -> Forall item_wf b -> view_inv n a b ->
  fits n (S steps) width blocks a -> fits n (S steps) width blocks b ->
  cmp_loop a b n =
    ord_then (item_cmp (value_at n a) (value_at n b)) (cmp_loop (advance n a) (advance n b) n) /\
  view_inv n (advance n a) (advance n b) /\
  fits n steps width blocks (advance n a) /\ fits n steps width blocks (advance n b) /\
  Forall item_wf (advance n a) /\ Forall item_wf (advance n b).
Proof.
  intros Wa Wb Hinv Fa Fb.
  assert (forall l, Forall item_wf l -> fits n (S steps) width blocks l ->
    fits n steps width blocks (advance n l) /\ Forall item_wf (advance n l)) as Hnext.
  { intros [|x l] Wl Fl; cbn; [unfold fits in *; cbn in *; split; [lia|done]|]. inversion Wl; subst.
    destruct (eqb (is_number x) n) eqn:E.
    - apply eqb_prop in E. split; [by eapply fits_cons|done].
    - apply eqb_false_iff in E. split; [|done].
      apply fits_stop; [by apply run_length_stop|done]. }
  assert (view_inv n (advance n a) (advance n b)) as Hadv.
  { destruct Hinv as [[Ta Tb]|[Ta Tb]]; left.
    - assert (forall l, trimmed_after n l -> trimmed_after n (advance n l)) as Ht.
      { intros [|x l] Tl; cbn; [done|]. destruct (eqb (is_number x) n) eqn:E; [|done].
        apply eqb_prop in E as <-. by destruct Tl. }
      auto.
    - assert (forall l, fresh n l -> trimmed_after n (advance n l)) as Ht.
      { intros [|x l] Tl; cbn; [done|]. destruct Tl as [-> Tl]. by rewrite eqb_reflx. }
      auto. }
  destruct (Hnext a Wa Fa) as [? ?], (Hnext b Wb Fb) as [? ?]. split; [|tauto].
  clear Hnext Hadv Fa Fb. destruct a as [|x a], b as [|y b]; cbn [value_at advance].
  - by rewrite cmp_refl.
  - destruct (eqb (is_number y) n) eqn:Ey; [|by rewrite cmp_refl].
    apply eqb_prop in Ey. inversion Wb; subst.
    rewrite cmp_loop_sym, (cmp_loop_left (is_number y)), CompOpp_ord_then by done.
    by rewrite <-cmp_sym, <-cmp_loop_sym.
  - destruct (eqb (is_number x) n) eqn:Ex; [|by rewrite cmp_refl].
    apply eqb_prop in Ex. inversion Wa; subst. by apply cmp_loop_left.
  - inversion Wa; inversion Wb; subst.
    destruct (eqb (is_number x) n) eqn:Ex, (eqb (is_number y) n) eqn:Ey.
    + apply eqb_prop in Ex, Ey. cbn [cmp_loop]. rewrite Ex, Ey, eqb_reflx.
      by destruct (item_cmp x y).
    + apply eqb_prop in Ex. apply eqb_false_iff in Ey. apply cmp_loop_left; [done|done|by intros ? [= <-]|].
      intros _. destruct Hinv as [[? _]|[_ [? _]]]; [done|congruence].
    + apply eqb_false_iff in Ex. apply eqb_prop in Ey.
      rewrite cmp_loop_sym, (cmp_loop_left n), CompOpp_ord_then; [|done|done|by intros ? [= <-]|].
      * by rewrite <-cmp_sym, <-cmp_loop_sym.
      * intros _. destruct Hinv as [[_ ?]|[[? _] _]]; [done|congruence].
    + by rewrite cmp_refl.
Qed.

(** When the block is used up, both lists are at the start of a run. *)
Lemma run_end n l : run_length n l = 0 -> trimmed_after n l \/ fresh n l -> fresh (negb n) l.
Proof.
  destruct l as [|x l]; [done|]. cbn.
  destruct (eqb (is_number x) n) eqn:E; [done|]. intros _. apply eqb_false_iff in E.
  assert (is_number x = negb n) as Ex by (by destruct (is_number x), n).
  intros [[_ Ht]|[? _]]; [|done]. by rewrite <-Ex.
Qed.

Lemma run_length_le n l : run_length n l <= length l.
Proof. induction l as [|x l IH]; cbn; [done|]. destruct (eqb _ _); lia. Qed.

Lemma fits_block n width blocks l :
  fresh (negb n) l -> fits n 0 width (S blocks) l -> fits (negb n) width width blocks l.
Proof.
  unfold fits. intros Hl. pose proof (run_length_le (negb n) l). destruct l as [|x l]; [cbn; lia|].
  destruct Hl as [Hx _]. cbn. rewrite Hx, eqb_reflx, (proj2 (eqb_false_iff _ _)) by (by destruct n).
  pose proof (run_length_le (negb n) l). lia.
Qed.

Lemma cmp_loop_kind n a b : fresh n a -> fresh n b -> cmp_loop a b (negb n) = cmp_loop a b n.
Proof.
  destruct a as [|x a], b as [|y b]; try done. intros [Ex _] [Ey _]. cbn.
  by rewrite Ex, Ey, eqb_reflx.
Qed.

Lemma cmp_loop_view blocks n steps width a b :
  Forall item_wf a -> Forall item_wf b -> view_inv n a b ->
  fits n steps width blocks a -> fits n steps width blocks b ->
  let s := replicate steps n ++ schedule (negb n) width blocks in
  cmp_loop a b n = list_cmp item_cmp (view s a) (view s b).
Proof.
  revert n steps a b. induction blocks as [|blocks IHb]; intros n steps;
    induction steps as [|steps IHs]; intros a b Wa Wb Hinv Fa Fb; cbn.
  - unfold fits in *. destruct a, b; cbn in *; (lia || done).
  - destruct (cmp_loop_step n steps width 0 a b) as (-> & ? & ? & ? & ? & ?); try done.
    f_equal. by apply IHs.
  - assert (fresh (negb n) a /\ fresh (negb n) b) as [Ha Hb].
    { unfold fits in *. destruct Hinv as [[? ?]|[? ?]]; split; apply run_end; auto; lia. }
    pose proof (cmp_loop_kind (negb n) a b Ha Hb) as E. rewrite negb_involutive in E.
    rewrite E. apply IHb; [done|done|by right|..].
    + by apply fits_block.
    + by apply fits_block.
  - destruct (cmp_loop_step n steps width (S blocks) a b) as (-> & ? & ? & ? & ? & ?); try done.
    f_equal. by apply IHs.
Qed.

(** The version starts with an item of kind [n], or has none. *)
Definition starts_as (n : bool) (v : Version) : Prop :=
  forall x, head (items v) = Some x -> is_number x = n.

Lemma made_fresh `{Unicode} n v : made v -> starts_as n v -> fresh n (items v).
Proof.
  intros [Ht _]%made_inv Hn. unfold starts_as in Hn. destruct (items v) as [|x l]; [done|].
  specialize (Hn x eq_refl). cbn in Ht. rewrite Hn in Ht. done.
Qed.

Lemma fits_start n size l : length l <= size -> fits n size size size l.
Proof. unfold fits. pose proof (run_length_le n l). lia. Qed.

Lemma version_cmp_view_at `{Unicode} n size a b :
  made a -> made b -> starts_as n a -> starts_as n b ->
  length (items a) <= size -> length (items b) <= size ->
  let s := schedule n size (S size) in
  version_cmp a b = list_cmp item_cmp (view s (items a)) (view s (items b)).
Proof.
  intros Ma Mb Na Nb La Lb. unfold version_cmp.
  pose proof (made_fresh n a Ma Na) as Fa. pose proof (made_fresh n b Mb Nb) as Fb.
  assert (cmp_loop (items a) (items b) true = cmp_loop (items a) (items b) n) as ->.
  { destruct n; [done|]. by apply (cmp_loop_kind false). }
  apply made_inv in Ma as [_ Wa], Mb as [_ Wb].
  apply (cmp_loop_view size n size size); auto using fits_start. by right.
Qed.

(** Between two versions that both start with a number, or both with text,
    the loop of [Version::cmp], with its look-ahead into padding, computes the
    lexicographic order of the items read run by run, each run continued by its
    padding: numbers by [0], text by the release qualifier. *)
Theorem version_cmp_is_lexicographic `{Unicode} n a b :
  made a -> made b -> starts_as n a -> starts_as n b ->
  let size := Nat.max (length (items a)) (length (items b)) in
  let s := schedule n size (S size) in
  version_cmp a b = list_cmp item_cmp (view s (items a)) (view s (items b)).
Proof. intros. apply version_cmp_view_at; (done || lia). Qed.

Lemma version_cmp_is_lexicographic_witness :
  let a := unresolved $"1.0-rc-2" in
  let b := unresolved $"1.0.1" in
  version_cmp a b =
    list_cmp item_cmp (view (schedule true 3 4) (items a)) (view (schedule true 3 4) (items b)).
Proof.
  apply (version_cmp_is_lexicographic true (unresolved $"1.0-rc-2") (unresolved $"1.0.1"));
    try apply made_unresolved; vm_compute; by intros x [= <-].
Defined.

Lemma version_le_trans `{Unicode} n a b c :
  made a -> made b -> made c -> starts_as n a -> starts_as n b -> starts_as n c ->
  version_cmp a b <> Gt -> version_cmp b c <> Gt ->
  version_cmp a c <> Gt /\
  (version_cmp a c = Eq -> version_cmp a b = Eq /\ version_cmp b c = Eq).
Proof.
  intros Ma Mb Mc Na Nb Nc.
  set (size := Nat.max (length (items a)) (Nat.max (length (items b)) (length (items c)))).
  rewrite !(version_cmp_view_at n size) by (done || lia). apply cmp_le_trans.
Qed.

(** Versions that start alike are totally preordered: [<=] is transitive on
    them, and a chain that closes up is a chain of equal versions. *)
Theorem version_order_transitive `{Unicode} n a b c :
  made a -> made b -> made c -> starts_as n a -> starts_as n b -> starts_as n c ->
  version_cmp a b <> Gt -> version_cmp b c <> Gt ->
  version_cmp a c <> Gt /\
  (version_cmp a c = Eq -> version_cmp a b = Eq /\ version_cmp b c = Eq).
Proof. apply version_le_trans. Qed.

Lemma version_order_transitive_witness :
  version_cmp (unresolved $"1.0-rc1") (unresolved $"1.0.1") <> Gt.
Proof.
  apply (version_order_transitive true _ (unresolved $"1.0") _);
    try apply made_unresolved; vm_compute; first [by intros x [= <-] | discriminate].
Defined.

(** Across the two kinds the order is not transitive: [alpha = 0 = beta], and yet
    [alpha < beta], as the documentation of [Version] says. *)
Example version_order_not_transitive :
  version_cmp (unresolved $"alpha") (unresolved $"0") = Eq /\
  version_cmp (unresolved $"0") (unresolved $"beta") = Eq /\
  version_cmp (unresolved $"alpha") (unresolved $"beta") = Lt.
Proof. vm_compute. done. Qed.

(** ** Sorting *)

Lemma filter_step {A} (p : A -> bool) x l :
  List.filter p (x :: l) = if p x then x :: List.filter p l else List.filter p l.
Proof. done. Qed.

Section SortFacts.
Context {T : Type} (key : T -> Version).

(** What the sort promises of two neighbours: the second is not below the first. *)
Definition in_order (x y : T) : Prop := version_ltb (key y) (key x) = false.

Lemma in_order_le x y : in_order x y <-> version_cmp (key x) (key y) <> Gt.
Proof.
  unfold in_order, version_ltb. rewrite (version_cmp_sym (key x) (key y)).
  destruct (version_cmp (key x) (key y)); cbn; naive_solver.
Qed.

Lemma in_order_total x y : version_ltb (key y) (key x) = true -> in_order y x.
Proof.
  unfold in_order, version_ltb. rewrite (version_cmp_sym (key y) (key x)).
  by destruct (version_cmp (key y) (key x)).
Qed.

Lemma merge_nil_r l : merge key l [] = l.
Proof. destruct l; cbn; [done|]. by rewrite app_nil_r. Qed.

Lemma merge_cons x l y r :
  merge key (x :: l) (y :: r) =
    if version_ltb (key y) (key x) then y :: merge key (x :: l) r else x :: merge key l (y :: r).
Proof. done. Qed.

Lemma merge_Permutation l r : merge key l r ≡ₚ l ++ r.
Proof.
  revert r. induction l as [|x l IHl]; intros r; [by destruct r|].
  induction r as [|y r IHr]; [by rewrite merge_nil_r, app_nil_r|].
  rewrite merge_cons. case_match.
  - rewrite IHr. by rewrite Permutation_middle.
  - by rewrite IHl.
Qed.

Lemma merge_HdRel x l r :
  HdRel in_order x l -> HdRel in_order x r -> HdRel in_order x (merge key l r).
Proof.
  intros Hl Hr. destruct l as [|y l]; [by destruct r|].
  destruct r as [|z r]; [by rewrite merge_nil_r|]. rewrite merge_cons.
  inversion Hl; inversion Hr; subst. case_match; by constructor.
Qed.

Lemma merge_Sorted l r :
  Sorted in_order l -> Sorted in_order r -> Sorted in_order (merge key l r).
Proof.
  intros Hl. revert r. induction Hl as [|x l Hl IHl Hx]; intros r Hr; [by destruct r|].
  induction Hr as [|y r Hr IHr Hy].
  - rewrite merge_nil_r. by constructor.
  - rewrite merge_cons. destruct (version_ltb (key y) (key x)) eqn:E; constructor.
    + done.
    + apply merge_HdRel; [|done]. constructor. by apply in_order_total.
    + apply IHl. by constructor.
    + apply merge_HdRel; [done|]. by constructor.
Qed.

Lemma merge_sort_spec fuel l :
  length l <= fuel -> merge_sort key fuel l ≡ₚ l /\ Sorted in_order (merge_sort key fuel l).
Proof.
  revert l. induction fuel as [|fuel IH]; intros l Hl.
  - destruct l; [|cbn in Hl; lia]. cbn. auto.
  - cbn [merge_sort]. destruct (Nat.ltb_spec (length l) 2).
    + split; [done|]. destruct l as [|x [|y l]]; cbn in *; [auto..|lia].
    + pose proof (Nat.Div0.div_lt_upper_bound (length l) 2 (length l)) as Hdiv.
      pose proof (Nat.Div0.div_le_mono 2 (length l) 2) as Hpos. change (2 / 2) with 1 in Hpos.
      destruct (IH (drop (length l / 2) l)) as [Pr Sr]; [rewrite length_drop; lia|].
      destruct (IH (take (length l / 2) l)) as [Pl Sl]; [rewrite length_take; lia|].
      split; [|by apply merge_Sorted].
      by rewrite merge_Permutation, Pl, Pr, take_drop.
Qed.

(** Stability needs the order to be one on the keys at hand. *)
Section Stable.
Context (P : T -> Prop).
Hypothesis in_order_trans :
  forall x y z, P x -> P y -> P z -> in_order x y -> in_order y z -> in_order x z.
Context (k : T) (Pk : P k).

Definition alike (x : T) : bool := version_eqb (key k) (key x).

Lemma alike_spec x : alike x = true <-> in_order k x /\ in_order x k.
Proof.
  unfold alike, in_order, version_eqb, version_ltb.
  rewrite (version_cmp_sym (key k) (key x)).
  destruct (version_cmp (key k) (key x)); cbn; naive_solver.
Qed.

Lemma merge_stable l r :
  Forall P l -> Forall P r -> StronglySorted in_order l ->
  List.filter alike (merge key l r) = List.filter alike l ++ List.filter alike r.
Proof.
  intros Pl Pr Hl. revert r Pr. induction Hl as [|x l Hl IHl Hx]; intros r Pr; [by destruct r|].
  induction Pr as [|y r Py Pr IHr]; [by rewrite merge_nil_r, app_nil_r|].
  inversion Pl as [|? ? Px Pl']; subst. rewrite merge_cons.
  destruct (version_ltb (key y) (key x)) eqn:E.
  - rewrite (filter_step alike y), IHr, (filter_step alike y). destruct (alike y) eqn:Ey; [|done].
    assert (List.filter alike (x :: l) = []) as ->; [|done].
    apply alike_spec in Ey as [Eky _].
    destruct (List.filter alike (x :: l)) as [|z f] eqn:Ef; [done|exfalso].
    assert (In z (List.filter alike (x :: l))) as Hz by (rewrite Ef; by left).
    apply filter_In in Hz as [Hz [_ Ezk]%alike_spec].
    assert (P z) by (rewrite Forall_forall in Pl; apply Pl; by apply list_elem_of_In).
    assert (in_order x z) as Hxz.
    { destruct Hz as [<-|Hz].
      - unfold in_order, version_ltb. by rewrite (version_cmp_refl (key x)).
      - rewrite Forall_forall in Hx. apply Hx. by apply list_elem_of_In. }
    assert (in_order x y) as Hxy by eauto. unfold in_order in Hxy. congruence.
  - rewrite (filter_step alike x), IHl by (done || by constructor).
    rewrite (filter_step alike x). by destruct (alike x).
Qed.

Lemma Sorted_Strongly l : Forall P l -> Sorted in_order l -> StronglySorted in_order l.
Proof.
  intros HP Hs. induction Hs as [|x l Hs IH Hx]; [constructor|].
  inversion HP as [|? ? Px Pl]; subst. specialize (IH Pl). constructor; [done|].
  destruct Hx as [|y l Hxy]; constructor; [done|]. inversion Pl as [|? ? Py Pl']; subst.
  inversion IH as [|? ? _ Hy]; subst. rewrite Forall_forall in Hy, Pl' |- *. eauto.
Qed.

Lemma merge_sort_stable fuel l :
  length l <= fuel -> Forall P l ->
  List.filter alike (merge_sort key fuel l) = List.filter alike l.
Proof.
  revert l. induction fuel as [|fuel IH]; intros l Hl Pl; [done|].
  cbn [merge_sort]. destruct (Nat.ltb_spec (length l) 2); [done|].
  pose proof (Nat.Div0.div_lt_upper_bound (length l) 2 (length l)) as Hdiv.
  pose proof (Nat.Div0.div_le_mono 2 (length l) 2) as Hpos. change (2 / 2) with 1 in Hpos.
  destruct (merge_sort_spec fuel (take (length l / 2) l)) as [Ql Sl]; [rewrite length_take; lia|].
  destruct (merge_sort_spec fuel (drop (length l / 2) l)) as [Qr _]; [rewrite length_drop; lia|].
  pose proof (Forall_take P (length l / 2) l Pl). pose proof (Forall_drop P (length l / 2) l Pl).
  rewrite merge_stable; [|by rewrite Ql|by rewrite Qr|apply Sorted_Strongly; [by rewrite Ql|done]].
  rewrite !IH; [|rewrite ?length_take, ?length_drop; (lia || done)..].
  by rewrite <-List.filter_app, take_drop.
Qed.
End Stable.
End SortFacts.

(** [Version::sort_by_key] needs no order: on any keys it returns a
    permutation of its input in which no element is below its predecessor. *)
Theorem sort_by_key_sorts {T} (key : T -> Version) l :
  sort_by_key key l ≡ₚ l /\ Sorted (in_order key) (sort_by_key key l).
Proof. apply merge_sort_spec. done. Qed.

(** On keys that start alike the sort is stable: the elements whose version
    equals that of [k] keep their order. *)
Theorem sort_by_key_stable `{Unicode} {T} (key : T -> Version) n l k :
  Forall (fun x => made (key x) /\ starts_as n (key x)) (k :: l) ->
  List.filter (alike key k) (sort_by_key key l) = List.filter (alike key k) l.
Proof.
  intros [Pk Pl]%Forall_cons. 
  apply (merge_sort_stable key (fun x => made (key x) /\ starts_as n (key x))); [|done..].
  intros x y z [Mx Nx] [My Ny] [Mz Nz]. rewrite !in_order_le. intros Hxy Hyz.
  by eapply (version_le_trans n (key x) (key y) (key z)).
Qed.

Lemma sort_by_key_stable_witness :
  let l := map unresolved [$"2.0"; $"1.0"; $"2"; $"1-ga"] in
  List.filter (alike id (unresolved $"2")) (sort_by_key id l) = map unresolved [$"2.0"; $"2"].
Proof.
  cbn zeta. rewrite (sort_by_key_stable id true).
  - vm_compute. reflexivity.
  - repeat (constructor; [split; [apply made_unresolved|vm_compute; by intros x [= <-]]|]).
    constructor.
Defined.

(** ** Texts with a common prefix

    The last item of [p.min] and [p.max], the bounds of the wildcard [[p.*]]. *)
Section Wildcard.
Context `{Unicode}.

Lemma scan_token_prefix p sep state token :
  is_separator sep = true ->
  exists state' token' before,
    (forall t, scan_token (p ++ sep :: t) state token = (state', token', before, t)) \/
    (exists q, length q < length p + (if decide (state = (-2)%Z) then 0 else 1) /\
       forall t, scan_token (p ++ sep :: t) state token = (state', token', before, q ++ sep :: t)).
Proof.
  intros Hs. revert state token. induction p as [|ch p IH]; intros state token.
  - exists state, token, false. left. intros t'. cbn. by rewrite Hs.
  - cbn [app scan_token]. destruct (is_separator ch) eqn:Ec.
    + exists state, token, false. right. exists p. split; [cbn; case_decide; lia|done].
    + assert (forall st tok, st <> (-2)%Z ->
        exists state' token' before,
          (forall t0, scan_token (p ++ sep :: t0) st tok = (state', token', before, t0)) \/
          (exists q, length q < length (ch :: p) + (if decide (state = (-2)%Z) then 0 else 1) /\
           forall t0, scan_token (p ++ sep :: t0) st tok = (state', token', before, q ++ sep :: t0)))
        as Hgo.
      { intros st tok Hst. destruct (IH st tok) as (a & b & c & [Hl|(q & Hq & Hr)]); exists a, b, c.
        - by left.
        - right. exists q. split; [|done]. cbn. repeat case_decide; lia. }
      destruct (is_digit ch).
      * destruct (Z.eqb_spec state (-1)) as [->|Hm].
        -- eexists _, _, _. right. exists (ch :: p). split; [cbn; case_decide; lia|]. reflexivity.
        -- apply Hgo. by destruct (_ || _).
      * destruct (Z.leb_spec 0 state).
        -- eexists _, _, _. right. exists (ch :: p). split; [cbn; case_decide; lia|]. reflexivity.
        -- apply Hgo. done.
Qed.

(** The items of [p] before a separator do not depend on what follows it. *)
Lemma items_loop_prefix p sep :
  is_separator sep = true ->
  exists l, forall t, t <> [] ->
    items_loop (length (p ++ sep :: t)) (p ++ sep :: t) = l ++ items_loop (length t) t.
Proof.
  intros Hs. remember (length p) as n eqn:En. revert p En.
  induction n as [n IH] using lt_wf_ind. intros p ->.
  destruct (scan_token_prefix p sep (-2) [] Hs) as (state & token & before & Hscan).
  set (item := if decide (token = []) then Number $"0"
               else if (0 <=? state)%Z then Number token else text_item token false before).
  assert (forall t rest, t <> [] -> rest <> [] ->
    scan_token (p ++ sep :: t) (-2) [] = (state, token, before, rest) ->
    length rest < length (p ++ sep :: t) ->
    items_loop (length (p ++ sep :: t)) (p ++ sep :: t) = item :: items_loop (length rest) rest)
    as Hstep.
  { intros t rest Ht Hr Hsc Hlen.
    destruct (length (p ++ sep :: t)) as [|fuel] eqn:El; [lia|].
    assert (p ++ sep :: t <> []) as Hne by (by destruct p).
    destruct (p ++ sep :: t) as [|c0 r0] eqn:Ep; [done|]. cbn [items_loop].
    unfold next_item. rewrite Hsc. rewrite bool_decide_false by done. f_equal.
    apply items_loop_fuel. lia. }
  destruct Hscan as [Hl|(q & Hq & Hr)].
  - exists [item]. intros t Ht. rewrite (Hstep t t Ht Ht (Hl t)); [done|].
    rewrite length_app. cbn. lia.
  - rewrite decide_True in Hq by done.
    destruct (IH (length q) ltac:(lia) q eq_refl) as [l Hl].
    exists (item :: l). intros t Ht. cbn [app]. rewrite <-Hl by done.
    apply Hstep; [done|by destruct q|apply Hr|]. rewrite !length_app. lia.
Qed.

Lemma trim_loop_last p l x y :
  is_number x = is_number y -> cmp_padding x <> Eq -> cmp_padding y <> Eq ->
  exists r e td k,
    trim_loop p (l ++ [x]) = {| run := r; at_end := e; tail_dropped := td; kept := k ++ [x] |} /\
    trim_loop p (l ++ [y]) = {| run := r; at_end := e; tail_dropped := td; kept := k ++ [y] |}.
Proof.
  intros Hn Hx Hy. revert p. induction l as [|z l IH]; intros p; cbn [app trim_loop].
  - assert (forall z, cmp_padding z <> Eq -> is_eq (cmp_padding z) = false) as Hf.
    { intros z Hz. by destruct (cmp_padding z). }
    unfold trim_step. rewrite !Hf, !andb_false_r, Hn by done. eexists _, _, _, []. done.
  - destruct (IH (is_number z)) as (r & e & td & k & -> & ->). unfold trim_step. cbn.
    destruct (_ && _ && _); [by eexists _, _, _, k|by eexists _, _, _, (z :: k)].
Qed.

Lemma trim_padding_last l x y :
  is_number x = is_number y -> cmp_padding x <> Eq -> cmp_padding y <> Eq ->
  exists k, trim_padding (l ++ [x]) = k ++ [x] /\ trim_padding (l ++ [y]) = k ++ [y].
Proof.
  intros Hn Hx Hy. destruct l as [|z l]; [by exists []|]. cbn.
  destruct (trim_loop_last (is_number z) l x y Hn Hx Hy) as (r & e & td & k & -> & ->).
  by exists (z :: k).
Qed.

Lemma cmp_loop_common k a b n :
  (forall n, cmp_loop a b n = Lt) -> cmp_loop (k ++ a) (k ++ b) n = Lt.
Proof.
  intros Hab. revert n. induction k as [|x k IH]; intros n; [apply Hab|].
  cbn. by rewrite eqb_reflx, cmp_refl.
Qed.

Lemma wildcard_bounds p lo hi :
  parse (p ++ "."%char :: $"min") = Ok lo ->
  parse (p ++ "."%char :: $"max") = Ok hi ->
  ws_start p -> version_cmp lo hi = Lt.
Proof.
  intros [-> _]%parse_Ok [-> _]%parse_Ok Hp.
  rewrite !trim_id.
  2,3: split; [by apply ws_start_sep|]; apply (ws_end_sep p "."); [done|]; by vm_compute.
  unfold version_cmp. cbn [items]. unfold parse_items.
  destruct (items_loop_prefix p "." eq_refl) as [l Hl].
  rewrite !Hl by done.
  change (items_loop (length $"min") $"min") with [Min].
  change (items_loop (length $"max") $"max") with [Max].
  destruct (trim_padding_last l Min Max) as (k & -> & ->); try done.
  by apply cmp_loop_common.
Qed.
End Wildcard.
