(* ===== verification/Range.v ===== *)
(** * Version ranges and requirements ([rv-maven-types/src/range.rs])

    Parsing, matching and printing of [VersionRange] and [VersionReq]. *)

From Stdlib Require Import Ascii String.
From stdpp Require Import base list strings gmap.
From S2P Require Import Prelude Str Version.

#[local] Set Warnings "-clear-no-such-hyp".

(** ** Data *)

Record VersionRange := {
  lower : option Version;
  upper : option Version;
  include_lower : bool;
  include_upper : bool;
}.

Inductive VersionReq :=
  | Exact (v : Version)
  | Soft (v : Version)
  | Ranges (ranges : list VersionRange).

#[export] Instance range_eq_dec : EqDecision VersionRange.
Proof. solve_decision. Defined.

Definition opening : ascii -> bool := one_of ["["; "("]%char.
Definition closing : ascii -> bool := one_of ["]"; ")"]%char.

(** [strip_prefix] and [strip_suffix] of a character class. *)
Definition strip_first (p : ascii -> bool) (s : str) : option str :=
  match s with c :: r => if p c then Some r else None | [] => None end.
Definition strip_last (p : ascii -> bool) (s : str) : option str :=
  match last s with
  | Some c => if p c then Some (take (length s - 1) s) else None
  | None => None
  end.

Definition version_eq_opt (a b : option Version) : bool :=
  match a, b with
  | Some a, Some b => version_eqb a b
  | None, None => true
  | _, _ => false
  end.

(** ** Parsing *)

Section Parse.
Context `{Unicode}.

(** The closure [bound] of [VersionRange::parse]: an absent bound is empty. *)
Definition parse_bound (error : VersionError) (text : str) : result VersionError (option Version) :=
  let text := trim text in
  if decide (text = []) then Ok None
  else map_err (fun _ => error) (Some <$> Version.parse text).

(** [VersionRange::parse]. *)
Definition parse_range (s : str) : result VersionError VersionRange :=
  let trimmed := trim s in
  let invalid := InvalidRange trimmed in
  let include_lower := starts_with_char (one_of ["["]%char) trimmed in
  let include_upper := ends_with_char (one_of ["]"]%char) trimmed in
  inner ← ok_or (strip_first opening trimmed ≫= strip_last closing) invalid;
  match split ","%char inner with
  | [l; u] =>
    lower ← parse_bound invalid l;
    upper ← parse_bound invalid u;
    match lower, upper with
    | Some lo, Some hi =>
      if version_ltb hi lo then Err invalid
      else Ok {| lower := lower; upper := upper;
                 include_lower := include_lower; include_upper := include_upper |}
    | _, _ => Ok {| lower := lower; upper := upper;
                    include_lower := include_lower; include_upper := include_upper |}
    end
  | [exact] =>
    if include_lower && include_upper then
      match opt_filter (ends_with_char (one_of ["."]%char)) (strip_suffix ["*"%char] (trim exact)) with
      | Some prefix =>
        lower ← parse_bound invalid (prefix ++ $"min");
        upper ← parse_bound invalid (prefix ++ $"max");
        Ok {| lower := lower; upper := upper;
              include_lower := include_lower; include_upper := include_upper |}
      | None =>
        bound ← parse_bound invalid exact;
        version ← ok_or bound invalid;
        Ok {| lower := Some version; upper := Some version;
              include_lower := include_lower; include_upper := include_upper |}
      end
    else Err invalid
  | _ => Err invalid
  end.

(** [split_union_ranges]: the loop, then the two checks after it.  Every turn
    takes a bracket, so the length of the text is enough fuel. *)
Fixpoint union_loop (fuel : nat) (invalid : VersionError) (rest : str)
    (ranges : list str) : result VersionError (list str * str) :=
  match fuel with
  | O => Ok (ranges, rest)
  | S fuel =>
    if starts_with_char opening rest then
      match split_at_first closing rest with
      | None => Err invalid
      | Some (before, c, after) =>
        let ranges := ranges ++ [before ++ [c]] in
        let rest := trim after in
        if decide (rest = []) then Ok (ranges, rest)
        else match strip_prefix [","%char] rest with
        | None => Err invalid
        | Some after =>
          let rest := trim after in
          if decide (rest = []) then Ok (ranges, rest)
          else if starts_with_char opening rest then union_loop fuel invalid rest ranges
          else Err invalid
        end
      end
    else Ok (ranges, rest)
  end.

Definition split_union_ranges (input : str) : result VersionError (list str) :=
  let invalid := InvalidRange input in
  '(ranges, rest) ← union_loop (length input) invalid (trim input) [];
  if bool_decide (ranges = []) || bool_decide (rest <> []) then Err invalid else Ok ranges.

(** [VersionRange::is_exact]. *)
Definition is_exact (r : VersionRange) : bool :=
  match lower r, upper r with
  | Some l, Some u => version_eqb l u && include_lower r && include_upper r
  | _, _ => false
  end.

(** [VersionReq::parse]. *)
Definition parse_req (s : str) : result VersionError VersionReq :=
  let trimmed := trim s in
  if decide (trimmed = []) then Err (InvalidRange trimmed)
  else if starts_with_char opening trimmed then
    ranges ← split_union_ranges trimmed;
    let only_short_exact :=
      match ranges with [r] => negb (contains_char (one_of [","]%char) r) | _ => false end in
    parsed ← try_map parse_range ranges;
    match parsed with
    | first :: _ =>
      match lower first with
      | Some l => if only_short_exact && is_exact first then Ok (Exact l) else Ok (Ranges parsed)
      | None => Ok (Ranges parsed)
      end
    | [] => Ok (Ranges parsed)
    end
  else if contains_char (one_of ["["; "]"; "("; ")"; ","]%char) trimmed then
    Err (InvalidRange trimmed)
  else v ← Version.parse trimmed; Ok (Soft v).

End Parse.

(** ** Matching *)

(** [VersionRange::matches]. *)
Definition above (r : VersionRange) (v : Version) : bool :=
  is_none_or (fun l => match version_cmp v l with
                       | Lt => false | Eq => include_lower r | Gt => true end) (lower r).
Definition below (r : VersionRange) (v : Version) : bool :=
  is_none_or (fun u => match version_cmp v u with
                       | Gt => false | Eq => include_upper r | Lt => true end) (upper r).
Definition range_matches (r : VersionRange) (v : Version) : bool := above r v && below r v.

(** [VersionReq::matches]. *)
Definition req_matches (req : VersionReq) (v : Version) : bool :=
  match req with
  | Exact exact | Soft exact => version_eqb v exact
  | Ranges ranges => existsb (fun r => range_matches r v) ranges
  end.

(** [VersionReq::exact_version]. *)
Definition exact_version (req : VersionReq) : option Version :=
  match req with
  | Exact exact => Some exact
  | Ranges [range] => if is_exact range then lower range else None
  | Ranges _ | Soft _ => None
  end.

(** ** Printing *)

Definition show_bound (b : option Version) : str :=
  match b with Some v => original v | None => [] end.

(** [Display for VersionRange]. *)
Definition show_range (r : VersionRange) : str :=
  (if include_lower r then $"[" else $"(") ++ show_bound (lower r) ++ $","
  ++ show_bound (upper r) ++ (if include_upper r then $"]" else $")").

(** [Display for VersionReq]. *)
Definition show_req (req : VersionReq) : str :=
  match req with
  | Exact v => $"[" ++ original v ++ $"]"
  | Soft v => original v
  | Ranges ranges => join $"," (map show_range ranges)
  end.

(** ** Round trip

    What a parsed bound and a parsed range look like: enough to print them and
    read them back. *)
Section RoundTrip.
Context `{Unicode}.

Definition text_ok (t : str) : Prop :=
  ws_free t /\ t <> [] /\ ","%char ∉ t /\ Forall (fun c => closing c = false) t.

Definition bound_ok (b : option Version) : Prop :=
  forall v, b = Some v -> Version.parse (original v) = Ok v /\ text_ok (original v).

Definition range_ok (r : VersionRange) : Prop :=
  bound_ok (lower r) /\ bound_ok (upper r) /\
  (forall lo hi, lower r = Some lo -> upper r = Some hi -> version_ltb hi lo = false).

Lemma strip_last_app p s c : p c = true -> strip_last p (s ++ [c]) = Some s.
Proof.
  intros Hc. unfold strip_last. rewrite last_snoc, Hc, length_app. cbn.
  rewrite Nat.add_sub, take_app_length. done.
Qed.

Lemma ends_with_char_app p s c : ends_with_char p (s ++ [c]) = p c.
Proof. unfold ends_with_char. by rewrite last_snoc. Qed.

Lemma bracket_not_ws c : opening c = true \/ closing c = true -> not_in_ws c = true.
Proof.
  intros Hc. assert (implb (opening c || closing c) (not_in_ws c) = true) as Hi.
  { by_bytes (fun c => implb (opening c || closing c) (not_in_ws c)) c. }
  by destruct Hc as [Hc|Hc]; rewrite Hc, ?orb_true_r in Hi.
Qed.

Lemma bracketed_ws_free o s c :
  opening o = true -> closing c = true -> ws_free (o :: s ++ [c]).
Proof.
  intros Ho Hc. split.
  - apply ws_start_char. apply bracket_not_ws. by left.
  - change (o :: s ++ [c]) with ((o :: s) ++ [c]). apply ws_end_char.
    apply bracket_not_ws. by right.
Qed.

Lemma parse_bound_show e b : bound_ok b -> parse_bound e (show_bound b) = Ok b.
Proof.
  intros Hb. unfold parse_bound. destruct b as [v|]; cbn [show_bound].
  - destruct (Hb v eq_refl) as (Hp & Hw & Hne & _). rewrite trim_id by done.
    rewrite decide_False by done. by rewrite Hp.
  - done.
Qed.

Lemma bound_no_comma b : bound_ok b -> ","%char ∉ show_bound b.
Proof.
  intros Hb. destruct b as [v|]; cbn; [|apply not_elem_of_nil].
  by destruct (Hb v eq_refl) as (_ & _ & _ & ? & _).
Qed.

Lemma bound_no_closing b : bound_ok b -> Forall (fun c => closing c = false) (show_bound b).
Proof.
  intros Hb. destruct b as [v|]; cbn; [|constructor].
  by destruct (Hb v eq_refl) as (_ & _ & _ & _ & ?).
Qed.

Definition open_char (r : VersionRange) : ascii := if include_lower r then "["%char else "("%char.
Definition close_char (r : VersionRange) : ascii := if include_upper r then "]"%char else ")"%char.

Lemma open_char_opening r : opening (open_char r) = true.
Proof. unfold open_char. by destruct (include_lower r). Qed.
Lemma close_char_closing r : closing (close_char r) = true.
Proof. unfold close_char. by destruct (include_upper r). Qed.

Definition range_body (r : VersionRange) : str :=
  show_bound (lower r) ++ ","%char :: show_bound (upper r).

Lemma show_range_eq r : show_range r = open_char r :: range_body r ++ [close_char r].
Proof.
  unfold show_range, range_body, open_char, close_char. rewrite <-!app_assoc. cbn.
  by destruct (include_lower r), (include_upper r).
Qed.

Lemma range_body_no_closing r : range_ok r -> Forall (fun c => closing c = false) (range_body r).
Proof.
  intros (Hl & Hu & _). unfold range_body. apply Forall_app. split.
  - by apply bound_no_closing.
  - constructor; [done|]. by apply bound_no_closing.
Qed.

Lemma parse_show_range r : range_ok r -> parse_range (show_range r) = Ok r.
Proof.
  intros Hok. rewrite show_range_eq. unfold parse_range.
  rewrite trim_id by (apply bracketed_ws_free; [apply open_char_opening|apply close_char_closing]).
  rewrite app_comm_cons, ends_with_char_app. cbn [starts_with_char app strip_first].
  rewrite open_char_opening. cbn [mbind option_bind].
  rewrite strip_last_app by apply close_char_closing. cbn [ok_or mbind result_bind].
  destruct Hok as (Hl & Hu & Horder). unfold range_body.
  rewrite split_app, (split_none _ (show_bound (upper r))) by (by apply bound_no_comma).
  rewrite !parse_bound_show by done. cbn [mbind result_bind].
  assert (one_of ["["]%char (open_char r) = include_lower r) as ->.
  { unfold open_char. by destruct (include_lower r). }
  assert (one_of ["]"]%char (close_char r) = include_upper r) as ->.
  { unfold close_char. by destruct (include_upper r). }
  destruct r as [[lo|] [hi|] il iu]; cbn in *; try done.
  by rewrite (Horder lo hi).
Qed.

(** What parsing establishes. *)
Lemma parse_bound_ok e text b :
  parse_bound e text = Ok b -> ","%char ∉ text -> Forall (fun c => closing c = false) text ->
  bound_ok b.
Proof.
  unfold parse_bound. intros E Hcomma Hclose. case_decide as Ht; [by injection E as <-|].
  inv_ok E. destruct (Version.parse (trim text)) as [v|] eqn:Ev; [|done].
  cbn in E. injection E as <-. intros ? [= <-].
  apply parse_original in Ev as Ev'. apply parse_Ok in Ev as (-> & _). cbn in *.
  rewrite trim_idem in *. split; [done|]. split; [apply trim_ws_free|]. split; [done|].
  split; [by intros ?%trim_elem|]. rewrite Forall_forall in *. intros c ?%trim_elem. by apply Hclose.
Qed.

Lemma parse_bound_Some e text v :
  parse_bound e text = Ok (Some v) -> Version.parse text = Ok v.
Proof.
  unfold parse_bound. case_decide; [done|]. intros E. inv_ok E.
  destruct (Version.parse (trim text)) as [w|] eqn:Ev; [|done]. injection E as <-.
  by apply parse_trim.
Qed.

Lemma wildcard_prefix t prefix :
  opt_filter (ends_with_char (one_of ["."]%char)) (strip_suffix ["*"%char] t) = Some prefix ->
  exists p, prefix = p ++ ["."%char] /\ t = (p ++ ["."%char]) ++ ["*"%char].
Proof.
  destruct (strip_suffix ["*"%char] t) as [q|] eqn:E; [|done]. cbn.
  apply strip_suffix_Some in E as ->. unfold ends_with_char.
  destruct (last q) as [c|] eqn:El; [|done]. destruct (one_of ["."]%char c) eqn:Ec; [|done].
  intros [= ->]. apply last_Some in El as [p ->]. exists p.
  apply one_of_true, list_elem_of_singleton in Ec as ->. done.
Qed.

Lemma parse_range_ok o body c r :
  opening o = true -> closing c = true -> Forall (fun c => closing c = false) body ->
  parse_range (o :: body ++ [c]) = Ok r -> range_ok r.
Proof.
  intros Ho Hc Hbody. unfold parse_range.
  rewrite trim_id by (by apply bracketed_ws_free).
  cbn [strip_first]. rewrite Ho. cbn [mbind option_bind].
  rewrite strip_last_app by done. cbn [ok_or mbind result_bind].
  set (e := InvalidRange _). generalize e as e0. intros e0.
  assert (Forall (fun p => ","%char ∉ p /\ Forall (fun c => closing c = false) p) (split "," body)) as Hs.
  { pose proof (split_no_sep "," body) as Hn. rewrite Forall_forall in Hn |- *.
    intros p Hp. split; [by apply Hn|]. rewrite Forall_forall in Hbody |- *.
    intros x Hx. apply Hbody. by eapply split_elem. }
  destruct (split "," body) as [|l [|u [|? ?]]]; try done.
  - intros E. inv_ok E. apply Forall_cons in Hs as [[Hl1 Hl2] _].
    destruct (opt_filter _ _) as [prefix|] eqn:Ew.
    + inv_ok E. inv_ok E. injection E as <-.
      apply wildcard_prefix in Ew as (p & -> & Hl).
      assert (forall t : str, (","%char ∉ t) -> Forall (fun c => closing c = false) t ->
        (","%char ∉ ((p ++ ["."%char]) ++ t)) /\
        Forall (fun c => closing c = false) ((p ++ ["."%char]) ++ t)) as Hpre.
      { intros t Ht1 Ht2. rewrite elem_of_app, Forall_app. split; [|split; [|done]].
        - intros [Hx|Hx]; [|done]. apply Hl1, trim_elem. rewrite Hl, elem_of_app. by left.
        - rewrite Forall_forall in Hl2 |- *. intros x Hx. apply Hl2, trim_elem.
          rewrite Hl, elem_of_app. by left. }
      destruct (Hpre $"min") as [H1 H2]; [by apply (bool_decide_unpack _)|by repeat constructor|].
      destruct (Hpre $"max") as [H3 H4]; [by apply (bool_decide_unpack _)|by repeat constructor|].
      split; [|split]; cbn.
      * by apply (parse_bound_ok e0 ((p ++ ["."%char]) ++ $"min")).
      * by apply (parse_bound_ok e0 ((p ++ ["."%char]) ++ $"max")).
      * intros lo hi -> ->. rewrite <-app_assoc in Ha, Ha0.
        apply parse_bound_Some in Ha, Ha0. unfold version_ltb.
        rewrite version_cmp_sym, (wildcard_bounds p lo hi); try done.
        pose proof (trim_ws_free l) as [Hw _]. rewrite Hl, <-app_assoc in Hw.
        by apply ws_start_app in Hw.
    + inv_ok E. inv_ok E. injection E as <-. inv_ok Ha0. subst a.
      assert (bound_ok (Some a0)) as Hb by (by eapply parse_bound_ok).
      split; [done|]. split; [done|]. cbn. intros ? ? [= <-] [= <-].
      unfold version_ltb. by rewrite version_cmp_refl.
  - intros E. inv_ok E. inv_ok E.
    apply Forall_cons in Hs as [[Hl1 Hl2] Hs]. apply Forall_cons in Hs as [[Hu1 Hu2] _].
    assert (bound_ok a) by (by eapply parse_bound_ok).
    assert (bound_ok a0) by (by eapply parse_bound_ok).
    destruct a as [lo|], a0 as [hi|]; try inv_ok E; injection E as <-; unfold range_ok; cbn;
      naive_solver.
Qed.

(** A piece of a union: brackets around a text without closing brackets. *)
Definition piece (s : str) : Prop :=
  exists o body c, s = o :: body ++ [c] /\ opening o = true /\ closing c = true /\
    Forall (fun c => closing c = false) body.

Lemma opening_not_closing c : opening c = true -> closing c = false.
Proof.
  intros Hc. assert (implb (opening c) (negb (closing c)) = true) as Hi.
  { by_bytes (fun c => implb (opening c) (negb (closing c))) c. }
  rewrite Hc in Hi. by apply negb_true_iff in Hi.
Qed.

Lemma union_loop_pieces fuel e rest acc ranges rest' :
  union_loop fuel e rest acc = Ok (ranges, rest') -> Forall piece acc -> Forall piece ranges.
Proof.
  revert rest acc. induction fuel as [|fuel IH]; intros rest acc; cbn [union_loop];
    [by intros [= <- <-]|].
  destruct (starts_with_char opening rest) eqn:Ho; [|by intros [= <- <-]].
  destruct (split_at_first closing rest) as [[[before c] after]|] eqn:Es; [|done].
  apply split_at_first_Some in Es as (-> & Hc & Hb). intros E Hacc.
  assert (Forall piece (acc ++ [before ++ [c]])) as Hnew.
  { apply Forall_app. split; [done|]. constructor; [|constructor].
    destruct before as [|o body]; cbn in Ho.
    - by rewrite (opening_not_closing c Ho) in Hc.
    - apply Forall_cons in Hb as [_ Hb]. by exists o, body, c. }
  case_decide; [by injection E as <- <-|].
  destruct (strip_prefix _ _) as [r|]; [|done]. case_decide; [by injection E as <- <-|].
  destruct (starts_with_char opening (trim r)); [|done]. by eapply IH.
Qed.

Lemma show_union_ws_free l : l <> [] -> ws_free (join $"," (map show_range l)).
Proof.
  intros Hl. split.
  - destruct l as [|r l]; [done|]. cbn [map]. rewrite show_range_eq.
    destruct (map show_range l); cbn; apply ws_start_char, bracket_not_ws; left;
      apply open_char_opening.
  - induction l as [|r [|r' l] IH]; [done|..]; cbn [map].
    + cbn. rewrite show_range_eq, app_comm_cons. apply ws_end_char, bracket_not_ws.
      right. apply close_char_closing.
    + change (join $"," (show_range r :: show_range r' :: map show_range l))
        with (show_range r ++ ","%char :: join $"," (map show_range (r' :: l))).
      apply ws_end_sep; [done|]. by apply IH.
Qed.

Lemma union_starts l : l <> [] -> starts_with_char opening (join $"," (map show_range l)) = true.
Proof.
  intros Hl. destruct l as [|r l]; [done|]. cbn [map]. rewrite show_range_eq.
  destruct (map show_range l); cbn; apply open_char_opening.
Qed.

Lemma union_loop_show l fuel e acc :
  l <> [] -> Forall range_ok l -> length l <= fuel ->
  union_loop fuel e (join $"," (map show_range l)) acc = Ok (acc ++ map show_range l, []).
Proof.
  intros Hl Hok. revert fuel acc. induction Hok as [|r l Hr Hok IH]; [done|].
  intros [|fuel] acc Hf; [cbn in Hf; lia|]. cbn [union_loop].
  rewrite union_starts by done.
  assert (Forall (fun c => closing c = false) (open_char r :: range_body r)) as Hbody.
  { constructor; [apply opening_not_closing, open_char_opening|]. by apply range_body_no_closing. }
  destruct l as [|r' l].
  - cbn [map join]. rewrite show_range_eq.
    rewrite app_comm_cons, split_at_first_app; [|apply close_char_closing|done]. done.
  - change (join $"," (map show_range (r :: r' :: l)))
      with (show_range r ++ ","%char :: join $"," (map show_range (r' :: l))).
    rewrite show_range_eq.
    replace ((open_char r :: range_body r ++ [close_char r]) ++ ","%char :: join $"," (map show_range (r' :: l)))
      with ((open_char r :: range_body r) ++ close_char r :: ","%char :: join $"," (map show_range (r' :: l)))
      by (cbn; by rewrite <-app_assoc).
    rewrite split_at_first_app; [|apply close_char_closing|done].
    assert (ws_free (","%char :: join $"," (map show_range (r' :: l)))) as Hw.
    { split; [by apply ws_start_char|]. apply (ws_end_sep []); [done|]. by apply show_union_ws_free. }
    rewrite (trim_id (_ :: _)) by done. rewrite decide_False by done. cbn [strip_prefix].
    rewrite decide_True by done. rewrite trim_id by (by apply show_union_ws_free).
    pose proof (union_starts (r' :: l) ltac:(done)) as Hst.
    rewrite decide_False, Hst by (intros Hnil; by rewrite Hnil in Hst).
    rewrite IH; [|done|cbn in *; lia]. cbn [map].
    by rewrite <-(app_assoc acc), (show_range_eq r).
Qed.

Lemma try_map_Forall {E A B} (f : A -> result E B) (P : A -> Prop) (Q : B -> Prop) l bs :
  (forall a b, P a -> f a = Ok b -> Q b) -> Forall P l -> try_map f l = Ok bs -> Forall Q bs.
Proof.
  intros Hf HP. revert bs. induction HP as [|a l Ha HP IH]; intros bs; cbn.
  - intros [= <-]. constructor.
  - intros E'. inv_ok E'. inv_ok E'. injection E' as <-. constructor; eauto.
Qed.

Lemma try_map_show l :
  Forall range_ok l -> try_map parse_range (map show_range l) = Ok l.
Proof.
  induction 1 as [|r l Hr Hok IH]; cbn; [done|]. by rewrite parse_show_range, IH.
Qed.

Lemma show_union_length l : length l <= length (join $"," (map show_range l)).
Proof.
  induction l as [|r [|r' l] IH]; [done|..].
  - cbn [map join]. rewrite show_range_eq. cbn. lia.
  - change (join $"," (map show_range (r :: r' :: l)))
      with (show_range r ++ $"," ++ join $"," (map show_range (r' :: l))).
    rewrite !length_app. change (length $",") with 1. cbn [length] in IH |- *. lia.
Qed.

Lemma parse_show_union l :
  l <> [] -> Forall range_ok l -> parse_req (join $"," (map show_range l)) = Ok (Ranges l).
Proof.
  intros Hl Hok. unfold parse_req. rewrite trim_id by (by apply show_union_ws_free).
  pose proof (union_starts l Hl) as Hst. rewrite decide_False by (intros E; by rewrite E in Hst).
  rewrite Hst. unfold split_union_ranges. rewrite trim_id by (by apply show_union_ws_free).
  rewrite union_loop_show by (done || apply show_union_length). cbn [mbind result_bind app].
  rewrite (bool_decide_false (map show_range l = [])) by (by destruct l).
  rewrite bool_decide_false by (intros Hf; by apply Hf). cbn [orb mbind result_bind].
  rewrite try_map_show by done. cbn [mbind result_bind].
  destruct l as [|r l]; [done|]. destruct (lower r); [|done].
  destruct l as [|r' l]; [|done]. cbn [map].
  rewrite (proj2 (negb_false_iff _)); [done|]. unfold contains_char. apply existsb_exists.
  exists ","%char. split; [|done]. rewrite show_range_eq. apply list_elem_of_In.
  right. rewrite elem_of_app. left. unfold range_body. rewrite elem_of_app. right. by left.
Qed.

Definition wildcard (t : str) : option str :=
  opt_filter (ends_with_char (one_of ["."]%char)) (strip_suffix ["*"%char] t).

(** [[x]] that pins one version is not a wildcard, and pins [x]. *)
Lemma parse_range_short o body c r :
  opening o = true -> closing c = true -> (","%char ∉ body) ->
  parse_range (o :: body ++ [c]) = Ok r -> is_exact r = true ->
  exists v, lower r = Some v /\ Version.parse body = Ok v /\ wildcard (trim body) = None.
Proof.
  intros Ho Hc Hcomma. unfold parse_range. rewrite trim_id by (by apply bracketed_ws_free).
  cbn [strip_first]. rewrite Ho. cbn [mbind option_bind].
  rewrite strip_last_app by done. cbn [ok_or mbind result_bind].
  set (e := InvalidRange _). generalize e as e0. intros e0. rewrite split_none by done.
  intros E. inv_ok E. fold (wildcard (trim body)) in E.
  destruct (wildcard (trim body)) as [prefix|] eqn:Ew; inv_ok E; inv_ok E; injection E as <-.
  - apply wildcard_prefix in Ew as (p & -> & Hl). unfold is_exact. cbn.
    destruct a as [lo|], a0 as [hi|]; try done. rewrite <-app_assoc in Ha, Ha0.
    apply parse_bound_Some in Ha, Ha0. unfold version_eqb. rewrite (wildcard_bounds p lo hi); try done.
    pose proof (trim_ws_free body) as [Hw _]. rewrite Hl, <-app_assoc in Hw.
    by apply ws_start_app in Hw.
  - inv_ok Ha0. subst a. intros _. exists a0. split; [done|]. split; [|done].
    by eapply parse_bound_Some.
Qed.

Lemma split_union_one o body c :
  opening o = true -> closing c = true -> Forall (fun c => closing c = false) body ->
  split_union_ranges (o :: body ++ [c]) = Ok [o :: body ++ [c]].
Proof.
  intros Ho Hc Hb. unfold split_union_ranges. rewrite trim_id by (by apply bracketed_ws_free).
  cbn [length union_loop starts_with_char]. rewrite Ho.
  rewrite app_comm_cons, split_at_first_app; [|done|].
  - change (trim []) with (@nil ascii). rewrite decide_True by done. done.
  - constructor; [by apply opening_not_closing|done].
Qed.

Lemma parse_show_exact v :
  Version.parse (original v) = Ok v -> text_ok (original v) -> wildcard (original v) = None ->
  parse_req ($"[" ++ original v ++ $"]") = Ok (Exact v).
Proof.
  intros Hp (Hw & Hne & Hcomma & Hclose) Hwild. cbn [app list_ascii_of_string].
  set (t := "["%char :: original v ++ ["]"%char]).
  assert (trim t = t) as Ht by (by apply trim_id, bracketed_ws_free).
  unfold parse_req. rewrite Ht, decide_False by done.
  change (starts_with_char opening t) with true. cbv iota.
  unfold t at 1. rewrite split_union_one by done. cbn [mbind result_bind try_map]. fold t.
  assert (parse_range t = Ok {| lower := Some v; upper := Some v;
      include_lower := true; include_upper := true |}) as ->.
  { unfold parse_range. rewrite Ht. unfold t. rewrite app_comm_cons, ends_with_char_app.
    cbn [starts_with_char app strip_first].
    change (opening "["%char) with true. cbn [mbind option_bind].
    rewrite strip_last_app by done. cbn [ok_or mbind result_bind].
    rewrite split_none by done. change (one_of ["["]%char "["%char) with true.
    change (one_of ["]"]%char "]"%char) with true. cbn [andb].
    rewrite trim_id by done. fold (wildcard (original v)). rewrite Hwild.
    unfold parse_bound. rewrite trim_id, decide_False, Hp by done. done. }
  cbn [mbind result_bind lower]. rewrite (proj2 (negb_true_iff _)).
  - unfold is_exact, version_eqb. cbn. by rewrite version_cmp_refl.
  - unfold contains_char, t. cbn. rewrite existsb_app. cbn. rewrite orb_false_r.
    destruct (existsb _ _) eqn:Ex; [|done]. apply existsb_exists in Ex as (c & Hc & Ec).
    apply one_of_true, list_elem_of_singleton in Ec as ->. by apply list_elem_of_In in Hc.
Qed.

Definition req_ok (req : VersionReq) : Prop :=
  match req with
  | Exact v =>
    Version.parse (original v) = Ok v /\ text_ok (original v) /\ wildcard (original v) = None
  | Soft v =>
    Version.parse (original v) = Ok v /\ ws_free (original v) /\
    contains_char (one_of ["["; "]"; "("; ")"; ","]%char) (original v) = false
  | Ranges l => l <> [] /\ Forall range_ok l
  end.

Lemma parse_text_ok t v :
  Version.parse t = Ok v -> (","%char ∉ t) -> Forall (fun c => closing c = false) t ->
  Version.parse (original v) = Ok v /\ text_ok (original v) /\ original v = trim t.
Proof.
  intros Hv Hcomma Hclose. pose proof (parse_original t v Hv) as Ho.
  apply parse_Ok in Hv as (-> & Hne & _). cbn in *. split; [done|]. split; [|done].
  split; [apply trim_ws_free|]. split; [done|]. split; [by intros ?%trim_elem|].
  rewrite Forall_forall in *. intros c ?%trim_elem. by apply Hclose.
Qed.

Lemma parse_req_ok s req : parse_req s = Ok req -> req_ok req.
Proof.
  unfold parse_req. destruct (decide (trim s = [])) as [|Hne]; [done|].
  destruct (starts_with_char opening (trim s)) eqn:Ho; intros E.
  - inv_ok E. inv_ok E. unfold split_union_ranges in Ha. inv_ok Ha. destruct a1 as [ranges rest].
    apply union_loop_pieces in Ha1; [|constructor]. inv_ok Ha. injection Ha as <-. bool_simpl.
    assert (Forall range_ok a0) as Hok.
    { eapply try_map_Forall; [|exact Ha1|exact Ha0].
      intros t r (o & body & c & -> & ? & ? & ?). by eapply parse_range_ok. }
    assert (a0 <> []) as Hne0.
    { intros ->. destruct ranges; [done|]. cbn in Ha0. inv_ok Ha0. by inv_ok Ha0. }
    destruct a0 as [|r a0]; [done|]. destruct (lower r) as [l|] eqn:El; [|by injection E as <-].
    destruct ranges as [|t [|t' ranges]]; [done| |by injection E as <-].
    destruct (negb _ && _) eqn:Ex; [|by injection E as <-]. injection E as <-.
    apply andb_true_iff in Ex as [Hnc%negb_true_iff Hex].
    apply Forall_cons in Ha1 as [(o & body & c & -> & Hop & Hcl & Hbody) _].
    cbn in Ha0. inv_ok Ha0. injection Ha0 as -> <-.
    assert (","%char ∉ body) as Hcomma.
    { intros Hin. apply not_true_iff_false in Hnc. apply Hnc. apply existsb_exists.
      exists ","%char. split; [|done]. right. apply in_app_iff. left. by apply list_elem_of_In. }
    destruct (parse_range_short o body c r) as (v & Hv & Hpv & Hw); try done.
    rewrite El in Hv. injection Hv as <-.
    destruct (parse_text_ok body l) as (? & ? & Eq); try done. cbn. by rewrite Eq in *.
  - inv_ok E. inv_ok E. injection E as <-. apply parse_original in Ha as Hp.
    apply parse_Ok in Ha as (-> & _). rewrite trim_idem in *. cbn.
    split; [done|]. split; [apply trim_ws_free|done].
Qed.

Lemma parse_show_soft v :
  Version.parse (original v) = Ok v -> ws_free (original v) ->
  contains_char (one_of ["["; "]"; "("; ")"; ","]%char) (original v) = false ->
  parse_req (original v) = Ok (Soft v).
Proof.
  intros Hp Hw Hc. unfold parse_req. rewrite trim_id by done.
  pose proof (parse_Ok _ _ Hp) as (_ & Hne & _). rewrite trim_id in Hne by done.
  rewrite decide_False by done.
  assert (starts_with_char opening (original v) = false) as ->.
  { destruct (original v) as [|c t]; [done|]. cbn in Hc |- *. apply orb_false_iff in Hc as [Hc _].
    apply not_true_iff_false. intros Ho. apply one_of_true in Ho.
    apply not_true_iff_false in Hc. apply Hc, one_of_true. set_solver. }
  by rewrite Hc, Hp.
Qed.
End RoundTrip.

(** C38: A requirement survives printing: what [VersionReq::parse] accepts, it
    reads back from its [Display] form as the same requirement, of the same
    kind, with the same version texts.  A hard pin stays [Exact], a bare version
    [Soft], and a union, wildcards written out, the same [Ranges]. *)
Theorem req_roundtrip `{Unicode} s req :
  parse_req s = Ok req -> parse_req (show_req req) = Ok req.
Proof.
  intros E%parse_req_ok. destruct req as [v|v|l]; cbn [show_req].
  - destruct E as (? & ? & ?). by apply parse_show_exact.
  - destruct E as (? & ? & ?). by apply parse_show_soft.
  - destruct E as (? & ?). by apply parse_show_union.
Qed.

#[local] Existing Instance ascii_tables.

Definition or_empty {E} (r : result E VersionReq) : VersionReq :=
  match r with Ok req => req | Err _ => Ranges [] end.

Lemma req_roundtrip_witness :
  let req := or_empty (parse_req $" [1.0,2.0) , [3.*],(5.0,) ") in
  show_req req = $"[1.0,2.0),[3.min,3.max],(5.0,)" /\ parse_req (show_req req) = Ok req.
Proof.
  split; [vm_compute; reflexivity|].
  apply (req_roundtrip $" [1.0,2.0) , [3.*],(5.0,) "). vm_compute. reflexivity.
Defined.

(** ** Matching and the order *)

(** The versions a requirement names. *)
Definition range_versions (r : VersionRange) : list Version :=
  option_list (lower r) ++ option_list (upper r).
Definition req_versions (req : VersionReq) : list Version :=
  match req with Exact v | Soft v => [v] | Ranges l => concat (map range_versions l) end.

Definition starts_alike `{Unicode} (n : bool) (l : list Version) : Prop :=
  Forall (fun v => made v /\ starts_as n v) l.

(** Proves [starts_alike] of versions that the hypotheses cover. *)
Ltac alike :=
  unfold starts_alike; repeat (apply Forall_cons; split; [assumption|]);
  first [apply Forall_nil; exact I | assumption].

Section Order.
Context `{Unicode} (n : bool).

Lemma le_trans_alike a b c :
  starts_alike n [a; b; c] ->
  version_cmp a b <> Gt -> version_cmp b c <> Gt ->
  version_cmp a c <> Gt /\ (version_cmp a c = Eq -> version_cmp a b = Eq /\ version_cmp b c = Eq).
Proof.
  intros Hs. repeat apply Forall_cons in Hs as [[? ?] Hs]. by apply (version_le_trans n).
Qed.

Lemma above_mono r a b :
  starts_alike n (a :: b :: range_versions r) ->
  version_cmp a b <> Gt -> above r a = true -> above r b = true.
Proof.
  unfold above, range_versions. destruct (lower r) as [l|]; [|done]. cbn. intros Hs Hab Ha.
  apply Forall_cons in Hs as [Sa Hs]. apply Forall_cons in Hs as [Sb Hs].
  apply Forall_cons in Hs as [Sl _].
  assert (starts_alike n [l; a; b]) as Hl by alike.
  apply le_trans_alike in Hl as [Hlb Heq]; [|rewrite version_cmp_sym; by destruct (version_cmp a l)|done].
  rewrite version_cmp_sym in Ha |- *. destruct (version_cmp l b) eqn:E; cbn; [|done..].
  destruct (Heq eq_refl) as [El _]. by rewrite El in Ha.
Qed.

Lemma below_mono r a b :
  starts_alike n (a :: b :: range_versions r) ->
  version_cmp a b <> Gt -> below r b = true -> below r a = true.
Proof.
  unfold below, range_versions. destruct (upper r) as [u|]; [|done]. cbn. intros Hs Hab Hb.
  apply Forall_cons in Hs as [Sa Hs]. apply Forall_cons in Hs as [Sb Hs].
  apply Forall_app in Hs as [_ Hs]. apply Forall_cons in Hs as [Su _].
  assert (starts_alike n [a; b; u]) as Hl by alike.
  apply le_trans_alike in Hl as [Hau Heq]; [|done|by destruct (version_cmp b u)].
  destruct (version_cmp a u) eqn:E; [|done..].
  destruct (Heq eq_refl) as [_ Eu]. by rewrite Eu in Hb.
Qed.
End Order.

(** A range is an interval: of three versions in order, the middle one
    matches when the outer two do (all of them starting alike). *)
Theorem range_convex `{Unicode} n r a b c :
  starts_alike n (a :: b :: c :: range_versions r) ->
  version_cmp a b <> Gt -> version_cmp b c <> Gt ->
  range_matches r a = true -> range_matches r c = true -> range_matches r b = true.
Proof.
  intros Hs Hab Hbc. unfold range_matches. rewrite !andb_true_iff. intros [Ha _] [_ Hc].
  apply Forall_cons in Hs as [Sa Hs]. apply Forall_cons in Hs as [Sb Hs].
  apply Forall_cons in Hs as [Sc Hs].
  split; [apply (above_mono n r a)|apply (below_mono n r b c)]; (done || alike).
Qed.

Lemma range_convex_witness :
  let r := {| lower := Some (unresolved $"1.0"); upper := Some (unresolved $"2.0");
              include_lower := true; include_upper := false |} in
  range_matches r (unresolved $"1.5-rc1") = true.
Proof.
  apply (range_convex true _ (unresolved $"1.0.0") _ (unresolved $"1.9"));
    [|vm_compute; (discriminate || reflexivity)..].
  repeat (constructor; [split; [apply made_unresolved|vm_compute; by intros x [= <-]]|]).
  constructor.
Defined.

Lemma exact_version_matches `{Unicode} n req e v :
  starts_alike n (v :: req_versions req) -> exact_version req = Some e ->
  req_matches req v = version_eqb v e.
Proof.
  intros Hs. destruct req as [x|x|[|r [|? ?]]]; cbn; try done; [by intros [= <-]|].
  unfold is_exact. rewrite orb_false_r.
  destruct (lower r) as [l|] eqn:El, (upper r) as [u|] eqn:Eu; try done.
  destruct (version_eqb l u && include_lower r && include_upper r) eqn:E; [|done].
  intros [= <-]. bool_simpl. apply is_eq_true in H0.
  unfold range_matches, above, below, version_eqb. rewrite El, Eu. cbn. rewrite H2, H1.
  cbn in Hs. unfold range_versions in Hs. rewrite El, Eu in Hs. cbn in Hs.
  apply Forall_cons in Hs as [Sv Hs]. apply Forall_cons in Hs as [Sl Hs].
  apply Forall_cons in Hs as [Su _].
  destruct (version_cmp v l) eqn:Evl; cbn.
  - assert (starts_alike n [v; l; u]) as Ha by alike.
    apply le_trans_alike in Ha as [Hvu _]; [|congruence|congruence]. by destruct (version_cmp v u).
  - done.
  - assert (starts_alike n [v; u; l]) as Ha by alike.
    destruct (version_cmp v u) eqn:Evu; try done.
    all: apply le_trans_alike in Ha as [Hvl _];
      [congruence|congruence|rewrite version_cmp_sym, H0; done].
Qed.

(** The one version that [VersionReq::exact_version] reports is the only one
    the requirement matches, up to the versions' own equality (all of them
    starting alike). *)
Theorem exact_version_admits_one `{Unicode} n req e v :
  starts_alike n (v :: req_versions req) -> exact_version req = Some e ->
  req_matches req v = version_eqb v e.
Proof. apply exact_version_matches. Qed.

(** Without that condition it is not: [[alpha,0]] reports [alpha], and matches
    [beta] as well, which is above [alpha] and equal to [0]. *)
Example exact_version_admits_another :
  let req := or_empty (parse_req $"[alpha,0]") in
  exact_version req = Some (unresolved $"alpha") /\
  req_matches req (unresolved $"beta") = true /\
  version_eqb (unresolved $"beta") (unresolved $"alpha") = false.
Proof. vm_compute. done. Qed.
