(* ===== verification/Component.v ===== *)
(** * Coordinate components ([rv-maven-types/src/component.rs] and [text.rs])

    The character rules of one coordinate component, and the escaped, bounded
    form in which untrusted text reaches a message. *)

From Stdlib Require Import Ascii String.
From stdpp Require Import base list strings gmap.
From S2P Require Import Prelude Str Version.

#[local] Set Warnings "-clear-no-such-hyp".

Inductive CoordinateField := Group | Artifact | VersionField | Classifier | Extension.

#[export] Instance field_eq_dec : EqDecision CoordinateField.
Proof. solve_decision. Defined.

(** [CoordinateField::as_str]. *)
Definition field_name (f : CoordinateField) : str :=
  match f with
  | Group => $"group"
  | Artifact => $"artifact"
  | VersionField => $"version"
  | Classifier => $"classifier"
  | Extension => $"packaging"
  end.

Inductive Reason :=
  | Empty
  | TooLong
  | NotMavenId
  | NotPrintableAscii
  | NotTerminalSafe
  | Forbidden (c : ascii)
  | DotDot
  | EmptyGroupSegment
  | TrailingDot.

Record InvalidCoordinateComponent := { field : CoordinateField; value : str; reason : Reason }.

(** [FORBIDDEN]: backslash, slash, colon, double quote, the angle brackets, bar,
    question mark, star, hash, at, percent and semicolon. *)
Definition FORBIDDEN : list ascii :=
  map ascii_of_N [92; 47; 58; 34; 60; 62; 124; 63; 42; 35; 64; 37; 59]%N.

(** [is_maven_id_text]. *)
Definition is_maven_id_byte (c : ascii) : bool := is_alnum c || one_of ["."; "-"; "_"]%char c.
Definition is_maven_id_text (value : str) : bool := forallb is_maven_id_byte value.

(** [char::is_control]: the general category Cc. *)
Definition is_control (ch : N) : bool := ((ch <=? 31) || ((127 <=? ch) && (ch <=? 159)))%N.

(** The default-ignorable and separator code points, as inclusive ranges. *)
Definition unsafe_ranges : list (N * N) :=
  [(0xAD, 0xAD); (0x34F, 0x34F); (0x61C, 0x61C); (0x115F, 0x1160); (0x17B4, 0x17B5);
   (0x180B, 0x180F); (0x200B, 0x200F); (0x2028, 0x202E); (0x2060, 0x206F); (0x3164, 0x3164);
   (0xFE00, 0xFE0F); (0xFEFF, 0xFEFF); (0xFFA0, 0xFFA0); (0xFFF0, 0xFFFB);
   (0x1BCA0, 0x1BCA3); (0x1D173, 0x1D17A); (0xE0000, 0xE0FFF)]%N.

Definition is_unsafe_char (ch : N) : bool :=
  is_control ch || existsb (fun r => (r.1 <=? ch) && (ch <=? r.2))%N unsafe_ranges.

(** [is_terminal_safe]. *)
Definition is_terminal_safe (text : str) : bool := negb (existsb is_unsafe_char (chars text)).

(** The [match] on the field in [check]. *)
Definition charset_check (f : CoordinateField) (v : str) : result Reason unit :=
  match f with
  | Group | Artifact => if is_maven_id_text v then Ok tt else Err NotMavenId
  | VersionField | Classifier | Extension =>
    if forallb is_graphic v then
      match List.find (one_of FORBIDDEN) v with
      | Some ch => Err (Forbidden ch)
      | None => Ok tt
      end
    else Err NotPrintableAscii
  end.

(** [check]. *)
Definition check (f : CoordinateField) (value : str) : result Reason unit :=
  if decide (value = []) then Err Empty
  else if MAX_COMPONENT_BYTES <? length value then Err TooLong
  else
    _ ← charset_check f value;
    if contains $".." value then Err DotDot
    else if bool_decide (f = Group) && starts_with_char (one_of ["."]%char) value
    then Err EmptyGroupSegment
    else if ends_with_char (one_of ["."]%char) value then
      Err (if decide (f = Group) then EmptyGroupSegment else TrailingDot)
    else Ok tt.

(** [validate_coordinate_component]. *)
Definition validate_coordinate_component (f : CoordinateField) (v : str)
    : result InvalidCoordinateComponent unit :=
  map_err (fun r => {| field := f; value := v; reason := r |}) (check f v).

(** [validate_reactor_version]. *)
Definition validate_reactor_version (v : str) : result InvalidCoordinateComponent unit :=
  let reason :=
    if decide (v = []) then Some Empty
    else if MAX_COMPONENT_BYTES <? length v then Some TooLong
    else if negb (is_terminal_safe v) then Some NotTerminalSafe
    else None in
  match reason with
  | Some r => Err {| field := VersionField; value := v; reason := r |}
  | None => Ok tt
  end.

(** ** Messages ([text.rs]) *)

Definition MAX_SHOWN_CHARS : nat := 120.

Record Untrusted := { text : str; quote : bool }.

Definition bounded (t : str) : Untrusted := {| text := t; quote := false |}.
Definition quoted (t : str) : Untrusted := {| text := t; quote := true |}.

(** [char::escape_unicode]: lowercase hex without leading zeros. *)
Definition hex_digit (d : N) : N := if (d <? 10)%N then 48 + d else 87 + d.

Fixpoint hex_digits (fuel : nat) (n : N) (acc : list N) : list N :=
  match fuel with
  | O => acc
  | S fuel =>
    let acc := hex_digit (n mod 16) :: acc in
    if (n <? 16)%N then acc else hex_digits fuel (n / 16) acc
  end.

Definition ascii_chars (s : str) : list N := map code s.

(** [\u{...}] with at most six digits. *)
Definition escape_unicode (c : N) : list N :=
  [92; 117; 123]%N ++ hex_digits 6 c [] ++ [125]%N.

(** Decimal digits of a length, [usize]'s [Display] (at most 20 digits). *)
Definition fmt_usize (n : nat) : list N := ascii_chars (fmt_digits 20 (N.of_nat n) []).

(** How one character is written. *)
Definition show_char (quote : bool) (c : N) : list N :=
  if is_unsafe_char c then escape_unicode c
  else if quote && bool_decide (c ∈ [34; 92]%N) then [92; c]%N
  else [c].

(** [Display for Untrusted], as the characters written. *)
Definition show_untrusted (u : Untrusted) : list N :=
  let cs := chars (text u) in
  (if quote u then [34]%N else [])
  ++ concat (map (show_char (quote u)) (take MAX_SHOWN_CHARS cs))
  ++ (if quote u then [34]%N else [])
  ++ match drop MAX_SHOWN_CHARS cs with
     | [] => []
     | _ => ascii_chars $"... (" ++ fmt_usize (length (text u)) ++ ascii_chars $" bytes)"
     end.


(** ** What an accepted component is

    [component_ok] is the documented rule, as a predicate on the text; the
    layout and the coordinates rely on it rather than on [check]. *)
Definition id_charset (f : CoordinateField) : bool :=
  match f with Group | Artifact => true | _ => false end.

Definition byte_ok (f : CoordinateField) (c : ascii) : Prop :=
  if id_charset f then is_maven_id_byte c = true
  else is_graphic c = true /\ c ∉ FORBIDDEN.

Definition dot : ascii := "."%char.

Record component_ok (f : CoordinateField) (v : str) : Prop := {
  ok_nonempty : v <> [];
  ok_length : length v <= MAX_COMPONENT_BYTES;
  ok_bytes : Forall (byte_ok f) v;
  ok_dots : ~ exists a b, v = a ++ [dot; dot] ++ b;
  ok_last : last v <> Some dot;
  ok_group : f = Group -> head v <> Some dot;
}.

Lemma ends_dot v : ends_with_char (one_of ["."]%char) v = true <-> last v = Some dot.
Proof.
  unfold ends_with_char. destruct (last v) as [c|]; [|naive_solver].
  rewrite one_of_true, list_elem_of_singleton. naive_solver.
Qed.

Lemma starts_dot v : starts_with_char (one_of ["."]%char) v = true <-> head v = Some dot.
Proof.
  destruct v as [|c v]; cbn [starts_with_char head]; [naive_solver|].
  rewrite one_of_true, list_elem_of_singleton. naive_solver.
Qed.

Lemma find_None {A} (p : A -> bool) l :
  List.find p l = None <-> Forall (fun x => p x = false) l.
Proof.
  split.
  - intros H. apply List.Forall_forall. by apply List.find_none.
  - induction 1 as [|x l Hx _ IH]; cbn; [done|]. by rewrite Hx.
Qed.

Lemma bytes_ok_graphic v :
  Forall (fun c => is_graphic c = true /\ c ∉ FORBIDDEN) v <->
  forallb is_graphic v = true /\ List.find (one_of FORBIDDEN) v = None.
Proof.
  rewrite find_None, forallb_Forall, <-Forall_and.
  apply Forall_proper; [intros c|done]. unfold one_of. by rewrite bool_decide_eq_false.
Qed.

Lemma charset_check_Ok f v : charset_check f v = Ok tt <-> Forall (byte_ok f) v.
Proof.
  unfold byte_ok. destruct f; cbn [charset_check id_charset]; first
    [ unfold is_maven_id_text; rewrite <-forallb_Forall; by destruct forallb
    | rewrite bytes_ok_graphic; destruct forallb, List.find; naive_solver ].
Qed.

(** [check] accepts exactly the texts the rules allow. *)
Lemma check_Ok f v : check f v = Ok tt <-> component_ok f v.
Proof.
  pose proof (charset_check_Ok f v) as HF. pose proof (ends_dot v) as HE.
  pose proof (starts_dot v) as HS. pose proof (contains_true $".." v) as HD.
  unfold check. split.
  - intros H. destruct (decide (v = [])) as [|Hne]; [done|]. repeat inv_ok H.
    destruct a. bool_simpl. split; [done|lia|by apply HF|..].
    + intros Hdd. by discriminate (proj2 HD Hdd).
    + intros Hl. by discriminate (proj2 HE Hl).
    + intros -> Hh%HS. rewrite Hh in E1. done.
  - intros [H1 H2 H3 H4 H5 H6]. rewrite decide_False by done.
    rewrite (proj2 (Nat.ltb_ge _ _) H2), (proj2 HF H3). cbn [mbind result_bind].
    destruct (contains _ v); [exfalso; by apply H4, HD|].
    destruct (bool_decide_reflect (f = Group)); cbn [andb];
      [destruct (starts_with_char _ v); [exfalso; by apply (H6 e), HS|]|];
      destruct (ends_with_char _ v); try done; exfalso; by apply H5, HE.
Qed.

Lemma validate_Ok f v : validate_coordinate_component f v = Ok tt <-> component_ok f v.
Proof. unfold validate_coordinate_component. by rewrite map_err_Ok, check_Ok. Qed.

(** An accepted byte is printable ASCII outside [FORBIDDEN], in every field. *)
Lemma byte_ok_graphic f c : byte_ok f c -> is_graphic c = true /\ c ∉ FORBIDDEN.
Proof.
  unfold byte_ok. destruct (id_charset f); [|done].
  assert (negb (is_maven_id_byte c) || (is_graphic c && bool_decide (c ∉ FORBIDDEN)) = true)
    as H by by_bytes (fun c => negb (is_maven_id_byte c)
                        || (is_graphic c && bool_decide (c ∉ FORBIDDEN))) c.
  intros Hc. rewrite Hc in H. cbn [negb orb] in H. by bool_simpl.
Qed.

Lemma ok_free f v c : component_ok f v -> c ∈ FORBIDDEN \/ is_graphic c = false -> c ∉ v.
Proof.
  intros H Hc Hin. pose proof (ok_bytes _ _ H) as HF. rewrite Forall_forall in HF.
  destruct (byte_ok_graphic f c (HF c Hin)) as [Hg Hf]. destruct Hc; [by apply Hf|congruence].
Qed.

(** The pieces a group is cut into at its dots are never empty. *)
Lemma split_head_nil c v : head (split c v) = Some [] -> v = [] \/ head v = Some c.
Proof.
  destruct v as [|a v]; cbn; [by left|]. case_decide as E; [naive_solver|].
  by destruct (split c v).
Qed.

Lemma split_tail_nil c v :
  [] ∈ tail (split c v) -> last v = Some c \/ exists a b, v = a ++ [c; c] ++ b.
Proof.
  induction v as [|a v IH]; cbn [split]; [by intros ?%elem_of_nil|].
  assert (last v = Some c -> last (a :: v) = Some c) as Hlast by (by destruct v).
  assert ([] ∈ tail (split c v) ->
          last (a :: v) = Some c \/ exists u b, a :: v = u ++ [c; c] ++ b) as Hcons.
  { intros [H|(u & b & ->)]%IH; [auto|]. right. by exists (a :: u), b. }
  case_decide as E; [subst a|by destruct (split c v); [intros ?%elem_of_nil|]].
  cbn [tail]. pose proof (split_head_nil c v) as Hh.
  destruct (split c v) as [|p ps] eqn:Es; [by intros ?%elem_of_nil|].
  intros [<-|H]%elem_of_cons; [|by apply Hcons].
  destruct (Hh eq_refl) as [->|Hv]; [by left|].
  destruct v as [|b v]; [done|]. injection Hv as ->. right. by exists [], v.
Qed.

Lemma split_pieces_nonempty v :
  component_ok Group v -> Forall (fun p => p <> []) (split dot v).
Proof.
  intros H. apply Forall_forall. intros p Hp ->.
  pose proof (split_head_nil dot v) as Hh. pose proof (split_tail_nil dot v) as Ht.
  destruct (split dot v) as [|q qs]; [by apply elem_of_nil in Hp|].
  apply elem_of_cons in Hp as [<-|Hp].
  - destruct (Hh eq_refl); [by eapply ok_nonempty|by eapply ok_group].
  - destruct (Ht Hp); [by eapply ok_last|by eapply ok_dots].
Qed.

(** A name that is a directory or file name of its own: it cannot leave the
    directory it is put in. *)
Definition safe_segment (p : str) : Prop :=
  p <> [] /\ p <> $"." /\ p <> $".." /\ "/"%char ∉ p /\ "\"%char ∉ p.

Lemma ok_safe f v : component_ok f v -> safe_segment v.
Proof.
  intros H. split; [by eapply ok_nonempty|]. repeat split.
  - intros ->. by apply (ok_last _ _ H).
  - intros ->. by apply (ok_last _ _ H).
  - apply (ok_free f); [done|left; by apply (bool_decide_unpack _); vm_compute].
  - apply (ok_free f); [done|left; by apply (bool_decide_unpack _); vm_compute].
Qed.

(** Every directory a group is laid out as is a segment of its own. *)
Lemma group_pieces_safe v : component_ok Group v -> Forall safe_segment (split dot v).
Proof.
  intros H. pose proof (split_pieces_nonempty v H) as Hne.
  pose proof (split_no_sep dot v) as Hsep. rewrite Forall_forall in *.
  intros p Hp. destruct (ok_safe Group v H) as (_ & _ & _ & Hs & Hb).
  split; [by apply Hne|]. repeat split.
  - intros ->. apply (Hsep _ Hp). by left.
  - intros ->. apply (Hsep _ Hp). by left.
  - intros Hin. apply Hs. by eapply split_elem.
  - intros Hin. apply Hb. by eapply split_elem.
Qed.

(** [validate_coordinate_component] accepts a text exactly when the
    documented rules hold of it (non-empty, at most 255 bytes, the field's
    charset, no two dots in a row, no dot at the end or, in a group, at the
    start); an accepted component is then one path segment that cannot leave its
    directory, and so is every directory a group is laid out as. *)
Theorem validate_component_spec (f : CoordinateField) (v : str) :
  (validate_coordinate_component f v = Ok tt <-> component_ok f v) /\
  (validate_coordinate_component f v = Ok tt ->
     safe_segment v /\ Forall (fun c => is_graphic c = true /\ c ∉ FORBIDDEN) v /\
     (f = Group -> Forall safe_segment (split dot v))).
Proof.
  split; [apply validate_Ok|]. intros H%validate_Ok.
  split; [by eapply ok_safe|]. split.
  { eapply Forall_impl; [by eapply ok_bytes|]. intros c. apply byte_ok_graphic. }
  intros ->. by apply group_pieces_safe.
Qed.

Lemma validate_component_spec_witness :
  validate_coordinate_component Group $"org.springframework.boot" = Ok tt /\
  Forall safe_segment (split dot $"org.springframework.boot").
Proof.
  split; [by vm_compute|].
  by apply (validate_component_spec Group $"org.springframework.boot"); vm_compute.
Defined.

(** ** What a message shows *)

(** Printable ASCII is never escaped. *)
Definition plain (c : N) : bool := (32 <=? c)%N && (c <=? 126)%N.

Lemma plain_safe c : plain c = true -> is_unsafe_char c = false.
Proof.
  unfold plain. intros H. apply andb_true_iff in H as [H1 H2].
  apply N.leb_le in H1. apply N.leb_le in H2.
  assert (c ∈ map N.of_nat (seq 32 95)) as Hin.
  { apply list_elem_of_fmap. exists (N.to_nat c). rewrite N2Nat.id. split; [done|].
    apply elem_of_seq. lia. }
  assert (forallb (fun c => negb (is_unsafe_char c)) (map N.of_nat (seq 32 95)) = true)
    as HF by by vm_compute.
  rewrite forallb_Forall, Forall_forall in HF. specialize (HF c Hin). by bool_simpl.
Qed.

Lemma hex_digits_plain fuel n acc :
  forallb plain acc = true -> forallb plain (hex_digits fuel n acc) = true.
Proof.
  revert n acc. induction fuel as [|fuel IH]; intros n acc Ha; cbn [hex_digits]; [done|].
  assert (forallb plain (hex_digit (n mod 16) :: acc) = true) as Hc.
  { cbn [forallb]. rewrite Ha, andb_true_r. unfold plain, hex_digit.
    pose proof (N.mod_lt n 16 ltac:(lia)) as Hm. revert Hm. generalize (n mod 16)%N.
    intros d Hm. destruct (N.ltb_spec d 10); apply andb_true_iff; split; apply N.leb_le; lia. }
  destruct (n <? 16)%N; [done|]. by apply IH.
Qed.

Lemma hex_digits_length fuel n acc : length (hex_digits fuel n acc) <= fuel + length acc.
Proof.
  revert n acc. induction fuel as [|fuel IH]; intros n acc; cbn [hex_digits]; [lia|].
  destruct (n <? 16)%N; cbn [length]; [lia|].
  etransitivity; [apply IH|]. cbn [length]. lia.
Qed.

Lemma fmt_digits_length fuel n acc : length (fmt_digits fuel n acc) <= fuel + length acc.
Proof.
  revert n acc. induction fuel as [|fuel IH]; intros n acc; cbn [fmt_digits]; [lia|].
  destruct (n <? 10)%N; cbn [length]; [lia|].
  etransitivity; [apply IH|]. cbn [length]. lia.
Qed.

Lemma plain_all l : forallb plain l = true -> Forall (fun c => is_unsafe_char c = false) l.
Proof. intros H%forallb_Forall. eapply Forall_impl; [done|]. intros c. apply plain_safe. Qed.

Lemma escape_plain c : forallb plain (escape_unicode c) = true.
Proof.
  unfold escape_unicode. rewrite !forallb_app, hex_digits_plain by done. done.
Qed.

Lemma show_char_safe q c : Forall (fun c => is_unsafe_char c = false) (show_char q c).
Proof.
  unfold show_char. destruct (is_unsafe_char c) eqn:E; [apply plain_all, escape_plain|].
  destruct (q && _); repeat constructor; done.
Qed.

Lemma show_char_length q c : length (show_char q c) <= 10.
Proof.
  unfold show_char, escape_unicode. destruct (is_unsafe_char c).
  - rewrite !length_app. pose proof (hex_digits_length 6 c []). cbn [length] in *. lia.
  - destruct (q && _); cbn; lia.
Qed.

Lemma fmt_usize_plain n : forallb plain (fmt_usize n) = true.
Proof.
  unfold fmt_usize, ascii_chars.
  pose proof (fmt_digits_digits 20 (N.of_nat n) [] eq_refl) as H.
  apply forallb_Forall, Forall_fmap. apply forallb_Forall in H.
  eapply Forall_impl; [apply H|]. intros c Hc. cbn.
  assert (negb (is_digit c) || plain (code c) = true) as Hd
    by by_bytes (fun c => negb (is_digit c) || plain (code c)) c.
  by rewrite Hc in Hd.
Qed.

Lemma concat_length_le {A} k (l : list (list A)) :
  Forall (fun x => length x <= k) l -> length (concat l) <= k * length l.
Proof.
  induction 1 as [|x l Hx _ IH]; cbn [concat length]; [lia|]. rewrite length_app. lia.
Qed.

Lemma show_chars_plain q l :
  (forall c, c ∈ l -> is_unsafe_char c = false) -> q = false ->
  concat (map (show_char q) l) = l.
Proof.
  intros H ->. induction l as [|c l IH]; cbn [map concat]; [done|].
  rewrite IH by set_solver. unfold show_char. by rewrite (H c) by set_solver.
Qed.

(** whatever text a POM, a repository or a lock file supplied, the message
    form of it holds no character that steers a terminal or hides text, and is
    at most 1,234 characters long; an unquoted text that is itself safe and at
    most 120 characters long is shown as it is. *)
Theorem show_untrusted_safe (u : Untrusted) :
  Forall (fun c => is_unsafe_char c = false) (show_untrusted u) /\
  length (show_untrusted u) <= 1234 /\
  (is_terminal_safe (text u) = true -> length (chars (text u)) <= MAX_SHOWN_CHARS ->
   quote u = false -> show_untrusted u = chars (text u)).
Proof.
  set (shown := map (show_char (quote u)) (take MAX_SHOWN_CHARS (chars (text u)))).
  assert (length (concat shown) <= 1200) as Hlen.
  { etransitivity; [apply (concat_length_le 10)|].
    - apply Forall_fmap, Forall_true. intros c. apply show_char_length.
    - unfold shown. rewrite length_map, length_take. unfold MAX_SHOWN_CHARS. lia. }
  pose proof (fmt_digits_length 20 (N.of_nat (length (text u))) []) as Hfmt.
  unfold show_untrusted. fold shown. split_and!.
  - rewrite !Forall_app. split_and!.
    + by destruct (quote u); repeat constructor.
    + apply Forall_concat, Forall_fmap, Forall_true. intros c. apply show_char_safe.
    + by destruct (quote u); repeat constructor.
    + destruct (drop _ _); [constructor|]. rewrite !Forall_app. split_and!;
        apply plain_all; [done|apply fmt_usize_plain|done].
  - rewrite !length_app. destruct (quote u), (drop _ _); cbn [length];
      rewrite ?length_app; unfold fmt_usize, ascii_chars; rewrite ?length_map;
      cbn [length list_ascii_of_string] in *; lia.
  - intros Hs Hl Hq. subst shown. rewrite (drop_ge _ _ Hl), (take_ge _ _ Hl), Hq.
    cbn [app]. rewrite app_nil_r.
    apply show_chars_plain; [|done]. unfold is_terminal_safe in Hs. bool_simpl.
    intros c Hc. destruct (is_unsafe_char c) eqn:E; [|done].
    rewrite <-Hs. symmetry. apply existsb_exists. exists c. split; [|done].
    by apply list_elem_of_In.
Qed.

Lemma show_untrusted_safe_witness :
  is_terminal_safe $"com.example:demo" = true /\
  show_untrusted (bounded $"com.example:demo") = chars $"com.example:demo".
Proof.
  split; [by vm_compute|].
  apply (show_untrusted_safe (bounded $"com.example:demo"));
    [by vm_compute|apply Nat.leb_le; by vm_compute|done].
Defined.
