(* ===== verification/Coordinates.v ===== *)
(** * Coordinates ([rv-maven-types/src/coord.rs], [id.rs])

    [Coord] and [PartialCoord] with their colon-separated text, and the keys
    [Gav] and [ArtifactCoord] that lock rows, the store and the repository
    layout share.  [GroupId] and [ArtifactId] wrap a text without rules of their
    own, so they are texts here. *)

From Stdlib Require Import Ascii String.
From stdpp Require Import base list strings gmap.
From S2P Require Import Prelude Str Version Component.

#[local] Set Warnings "-clear-no-such-hyp".

Definition GroupId : Type := str.
Definition ArtifactId : Type := str.

Definition colon : ascii := ":"%char.

(** [trimmed.split(':').map(str::trim)]. *)
Definition parts (trimmed : str) : list str := map trim (split colon trimmed).

Definition is_empty (s : str) : bool := bool_decide (s = []).

Module Coord.
Record t := {
  group_id : GroupId;
  artifact_id : ArtifactId;
  version : Version;
  packaging : option str;
  classifier : option str;
}.

(** The [match rest] of [Coord::parse]. *)
Definition tail_of (invalid : VersionError) (rest : list str)
    : result VersionError (option str * option str) :=
  match rest with
  | [] => Ok (None, None)
  | [packaging] => if is_empty packaging then Err invalid else Ok (Some packaging, None)
  | [packaging; classifier] =>
    if is_empty classifier then Err invalid
    else Ok (opt_filter (fun p => negb (is_empty p)) (Some packaging), Some classifier)
  | _ => Err invalid
  end.

(** [Coord::parse], and [FromStr for Coord]. *)
Definition parse `{Unicode} (s : str) : result VersionError t :=
  let trimmed := trim s in
  let invalid := InvalidCoord trimmed in
  match parts trimmed with
  | group_id :: artifact_id :: version :: rest =>
    pc ← tail_of invalid rest;
    if is_empty group_id || is_empty artifact_id || is_empty version then Err invalid
    else
      v ← map_err (fun _ => invalid) (Version.parse version);
      Ok {| group_id := group_id; artifact_id := artifact_id; version := v;
            packaging := pc.1; classifier := pc.2 |}
  | _ => Err invalid
  end.

(** [Display for Coord]. *)
Definition display (c : t) : str :=
  group_id c ++ $":" ++ artifact_id c ++ $":" ++ original (version c) ++
  match packaging c, classifier c with
  | Some p, Some k => $":" ++ p ++ $":" ++ k
  | Some p, None => $":" ++ p
  | None, Some k => $"::" ++ k
  | None, None => []
  end.
End Coord.

Module PartialCoord.
Record t := {
  group_id : option GroupId;
  artifact_id : ArtifactId;
  version : option Version;
  packaging : option str;
  classifier : option str;
}.

(** [PartialCoord::parse]. *)
Definition parse `{Unicode} (s : str) : result VersionError t :=
  let trimmed := trim s in
  let invalid := InvalidCoord trimmed in
  let ps := parts trimmed in
  if (5 <? length ps) || is_some_and is_empty (last ps) then Err invalid
  else
    match ps with
    | [artifact_id] =>
      Ok {| group_id := None; artifact_id := artifact_id; version := None;
            packaging := None; classifier := None |}
    | p0 :: p1 :: _ =>
      if is_empty p0 || is_empty p1 then Err invalid
      else
        let field (i : nat) := opt_filter (fun p => negb (is_empty p)) (ps !! i) in
        version ← transpose ((fun v => map_err (fun _ => invalid) (Version.parse v)) <$> field 2);
        Ok {| group_id := Some p0; artifact_id := p1; version := version;
              packaging := field 3; classifier := field 4 |}
    | [] => Err invalid
    end.

(** [PartialCoord::matches]. *)
Definition matches (p : t) (c : Coord.t) : bool :=
  is_none_or (fun id => bool_decide (id = Coord.group_id c)) (group_id p)
  && bool_decide (artifact_id p = Coord.artifact_id c)
  && is_none_or (fun v => version_eqb v (Coord.version c)) (version p)
  && is_none_or (fun q => bool_decide (Coord.packaging c = Some q)) (packaging p)
  && is_none_or (fun k => bool_decide (Coord.classifier c = Some k)) (classifier p).

(** [Display for PartialCoord]. *)
Definition display (p : t) : str :=
  match group_id p with
  | None => artifact_id p
  | Some g =>
    let tail := bool_decide (is_Some (packaging p)) || bool_decide (is_Some (classifier p)) in
    g ++ $":" ++ artifact_id p ++
    (if bool_decide (version p = None) && negb tail then []
     else
       $":" ++ from_option original [] (version p) ++
       (if negb tail then []
        else
          $":" ++ default [] (packaging p) ++
          from_option (fun k => $":" ++ k) [] (classifier p)))
  end.
End PartialCoord.

Module Gav.
Record t := { group : GroupId; artifact : ArtifactId; version : str }.

Definition new (group artifact version : str) : t :=
  {| group := group; artifact := artifact; version := version |}.

(** The derived [Ord]: the three texts in order. *)
Definition cmp (a b : t) : comparison :=
  ord_then (str_cmp (group a) (group b))
    (ord_then (str_cmp (artifact a) (artifact b)) (str_cmp (version a) (version b))).

(** [Gav::validate]. *)
Definition validate (g : t) : result InvalidCoordinateComponent unit :=
  _ ← validate_coordinate_component Group (group g);
  _ ← validate_coordinate_component Artifact (artifact g);
  validate_coordinate_component VersionField (version g).

(** [Display for Gav]. *)
Definition display (g : t) : str :=
  group g ++ $":" ++ artifact g ++ $":" ++ version g.
End Gav.

Module ArtifactCoord.
Record t := { gav : Gav.t; extension : str; classifier : option str }.

(** [ArtifactCoord::of] and [ArtifactCoord::new]. *)
Definition of_gav (gav : Gav.t) (extension : str) (classifier : option str) : t :=
  {| gav := gav; extension := extension;
     classifier := opt_filter (fun c => negb (is_empty c)) classifier |}.

Definition new (group artifact version extension : str) (classifier : option str) : t :=
  of_gav (Gav.new group artifact version) extension classifier.

(** [ArtifactCoord::classifier_key] and [ArtifactCoord::pom]. *)
Definition classifier_key (c : t) : str := default [] (classifier c).
Definition pom (c : t) : t := of_gav (gav c) $"pom" None.

(** [ArtifactCoord::validate]. *)
Definition validate (c : t) : result InvalidCoordinateComponent unit :=
  _ ← Gav.validate (gav c);
  _ ← validate_coordinate_component Extension (extension c);
  match classifier c with
  | Some k => validate_coordinate_component Classifier k
  | None => Ok tt
  end.

(** The derived [Ord]. *)
Definition cmp (a b : t) : comparison :=
  ord_then (Gav.cmp (gav a) (gav b))
    (ord_then (str_cmp (extension a) (extension b))
       (opt_cmp str_cmp (classifier a) (classifier b))).

(** [Display for ArtifactCoord]. *)
Definition display (c : t) : str :=
  Gav.display (gav c) ++ $":" ++ extension c ++
  from_option (fun k => $":" ++ k) [] (classifier c).
End ArtifactCoord.

#[export] Instance gav_eq_dec : EqDecision Gav.t.
Proof. solve_decision. Defined.
#[export] Instance artifact_coord_eq_dec : EqDecision ArtifactCoord.t.
Proof. solve_decision. Defined.

(** ** Fields and their text *)

Definition field_ok (p : str) : Prop := colon ∉ p /\ ws_free p.

Lemma parts_field s : Forall field_ok (parts s).
Proof.
  unfold parts. apply Forall_fmap. pose proof (split_no_sep colon s) as H.
  eapply Forall_impl; [done|]. intros p Hp. split; [|apply trim_ws_free].
  intros Hin%trim_elem. done.
Qed.

Lemma join_cons sep p q l : join sep (p :: q :: l) = p ++ sep ++ join sep (q :: l).
Proof. done. Qed.

Lemma join_ws_free l : Forall field_ok l -> l <> [] -> ws_free (join [colon] l).
Proof.
  induction 1 as [|p l [Hc [Hs He]] Hl IH]; [done|]. intros _.
  destruct l as [|q l]; [done|]. rewrite join_cons. cbn [app].
  split; [by apply ws_start_sep|]. apply ws_end_sep; [done|]. by apply IH.
Qed.

Lemma parts_join l : Forall field_ok l -> l <> [] -> parts (trim (join [colon] l)) = l.
Proof.
  intros Hl Hne. rewrite trim_id by by apply join_ws_free. unfold parts.
  rewrite split_join; [|done|].
  - induction Hl as [|p l [_ Hp] Hl IH]; [done|]. cbn [map]. rewrite trim_id by done.
    destruct l; [done|]. by rewrite IH.
  - eapply Forall_impl; [done|]. by intros p [].
Qed.

Lemma is_empty_true s : is_empty s = true <-> s = [].
Proof. apply bool_decide_eq_true. Qed.
Lemma is_empty_false s : is_empty s = false <-> s <> [].
Proof. apply bool_decide_eq_false. Qed.

(** A present field of a coordinate. *)
Definition set_ok (p : str) : Prop := p <> [] /\ field_ok p.

Lemma opt_set_ok p : field_ok p -> from_option set_ok True (opt_filter (fun p => negb (is_empty p)) (Some p)).
Proof.
  intros Hp. cbn. destruct (is_empty p) eqn:E; cbn; [done|]. by apply is_empty_false in E.
Qed.

Definition version_ok `{Unicode} (v : Version) : Prop :=
  Version.parse (original v) = Ok v /\ set_ok (original v).

Lemma version_field_ok `{Unicode} p v : field_ok p -> Version.parse p = Ok v -> version_ok v.
Proof.
  intros [Hc Hw] Hv. split; [by eapply parse_original|].
  apply parse_Ok in Hv as (-> & Hne & _). cbn. rewrite trim_id in * by done. by split.
Qed.

Record coord_ok `{Unicode} (c : Coord.t) : Prop := {
  coord_group : set_ok (Coord.group_id c);
  coord_artifact : set_ok (Coord.artifact_id c);
  coord_version : version_ok (Coord.version c);
  coord_packaging : from_option set_ok True (Coord.packaging c);
  coord_classifier : from_option set_ok True (Coord.classifier c);
}.

Definition coord_tail (c : Coord.t) : list str :=
  match Coord.packaging c, Coord.classifier c with
  | Some p, Some k => [p; k]
  | Some p, None => [p]
  | None, Some k => [[]; k]
  | None, None => []
  end.

Definition coord_fields (c : Coord.t) : list str :=
  Coord.group_id c :: Coord.artifact_id c :: original (Coord.version c) :: coord_tail c.

Lemma coord_display c : Coord.display c = join [colon] (coord_fields c).
Proof.
  unfold Coord.display, coord_fields, coord_tail.
  destruct (Coord.packaging c), (Coord.classifier c); cbn; by rewrite ?app_nil_r.
Qed.

Lemma opt_filter_None {A} (p : A -> bool) a : p a = false -> opt_filter p (Some a) = None.
Proof. cbn. by intros ->. Qed.

Section Coords.
Context `{Unicode}.

Lemma tail_of_ok e rest pk :
  Forall field_ok rest -> Coord.tail_of e rest = Ok pk ->
  from_option set_ok True pk.1 /\ from_option set_ok True pk.2 /\
  rest = match pk with
         | (Some p, Some k) => [p; k] | (Some p, None) => [p]
         | (None, Some k) => [[]; k] | (None, None) => []
         end.
Proof.
  intros HF. destruct rest as [|p [|k [|]]]; cbn [Coord.tail_of]; intros E; try done.
  - by injection E as <-.
  - inv_ok E. injection E as <-. apply is_empty_false in E0.
    apply Forall_cons in HF as [? _]. by cbn.
  - inv_ok E. injection E as <-. apply is_empty_false in E0.
    apply Forall_cons in HF as [Hp HF]. apply Forall_cons in HF as [Hk _].
    split; [by apply opt_set_ok|]. split; [by cbn|]. cbn.
    destruct (is_empty p) eqn:Ep; [|done]. by apply is_empty_true in Ep as ->.
Qed.

Lemma tail_of_coord e c :
  coord_ok c -> Coord.tail_of e (coord_tail c) = Ok (Coord.packaging c, Coord.classifier c).
Proof.
  intros [_ _ _ Hp Hk]. unfold coord_tail.
  destruct (Coord.packaging c) as [p|], (Coord.classifier c) as [k|]; cbn in *; try done;
    repeat match goal with
    | H : set_ok ?x |- _ => destruct H as [?%is_empty_false _]
    | H : is_empty _ = false |- _ => rewrite H; clear H; cbn
    end; done.
Qed.

Lemma coord_parse_iff s c :
  Coord.parse s = Ok c <-> coord_ok c /\ parts (trim s) = coord_fields c.
Proof.
  unfold Coord.parse. pose proof (parts_field (trim s)) as HF. split.
  - destruct (parts (trim s)) as [|g [|a [|v rest]]]; try done. intros E.
    inv_ok E. inv_ok E. inv_ok E. inv_ok Ha0. injection E as <-.
    apply orb_false_iff in E0 as [E0 Ev%is_empty_false].
    apply orb_false_iff in E0 as [Eg%is_empty_false Ea%is_empty_false].
    repeat apply Forall_cons in HF as [? HF].
    apply tail_of_ok in Ha as (Hp & Hk & ->); [|done].
    assert (version_ok a1) by by eapply version_field_ok.
    apply parse_Ok in Ha0 as (-> & _). split; [by constructor; cbn|].
    unfold coord_fields, coord_tail. cbn. rewrite trim_id by apply H2.
    destruct a0 as [[]]; cbn; by repeat case_match.
  - intros [Hc E]. rewrite E. unfold coord_fields. rewrite tail_of_coord by done.
    destruct Hc as [[Hg _] [Ha _] [Hv [Hv' _]] _ _]. cbn [mbind result_bind].
    rewrite !(proj2 (is_empty_false _)) by done. cbn [orb]. rewrite Hv. cbn.
    by destruct c.
Qed.

Lemma coord_fields_ok c : coord_ok c -> Forall field_ok (coord_fields c).
Proof.
  assert (field_ok []) by (split; [apply not_elem_of_nil|apply ws_nil]).
  intros [[_ ?] [_ ?] [_ [_ ?]] Hp Hk]. unfold coord_fields, coord_tail.
  do 3 (apply Forall_cons; split; [assumption|]).
  destruct (Coord.packaging c), (Coord.classifier c); cbn [from_option] in *;
    unfold set_ok in *; destruct_and?; eauto.
Qed.

Lemma coord_display_parts c : coord_ok c -> parts (trim (Coord.display c)) = coord_fields c.
Proof. intros Hc. rewrite coord_display. apply parts_join; [by apply coord_fields_ok|done]. Qed.

(** a coordinate that was parsed prints to a text that parses back to the
    same value, version text included; and two texts that parse to the same
    value are the same list of fields, so coordinates cannot alias. *)
Theorem coord_roundtrip s c :
  Coord.parse s = Ok c ->
  Coord.parse (Coord.display c) = Ok c /\
  (forall s', Coord.parse s' = Ok c -> parts (trim s') = parts (trim s)).
Proof.
  intros [Hc Hs]%coord_parse_iff. split.
  - apply coord_parse_iff. split; [done|]. by apply coord_display_parts.
  - intros s' [_ Hs']%coord_parse_iff. congruence.
Qed.
End Coords.

#[local] Existing Instance ascii_tables.

Lemma coord_roundtrip_witness :
  let c := {| Coord.group_id := $"g"; Coord.artifact_id := $"a"; Coord.version := unresolved $"1.0";
              Coord.packaging := None; Coord.classifier := Some $"tests" |} in
  Coord.display c = $"g:a:1.0::tests" /\ Coord.parse (Coord.display c) = Ok c.
Proof.
  split; [by vm_compute|]. apply (coord_roundtrip $" g : a :1.0:: tests"). by vm_compute.
Defined.

(** ** Partial coordinates *)

Definition opt_text (o : option str) : str := default [] o.

Record partial_ok `{Unicode} (p : PartialCoord.t) : Prop := {
  partial_group : from_option set_ok True (PartialCoord.group_id p);
  partial_artifact : set_ok (PartialCoord.artifact_id p);
  partial_version : from_option version_ok True (PartialCoord.version p);
  partial_packaging : from_option set_ok True (PartialCoord.packaging p);
  partial_classifier : from_option set_ok True (PartialCoord.classifier p);
  partial_bare : PartialCoord.group_id p = None ->
    PartialCoord.version p = None /\ PartialCoord.packaging p = None /\
    PartialCoord.classifier p = None;
}.

Definition partial_tail (v : option str) (p k : option str) : list str :=
  match v, p, k with
  | _, _, Some k => [opt_text v; opt_text p; k]
  | _, Some p, None => [opt_text v; p]
  | Some v, None, None => [v]
  | None, None, None => []
  end.

Definition partial_fields (p : PartialCoord.t) : list str :=
  match PartialCoord.group_id p with
  | None => [PartialCoord.artifact_id p]
  | Some g =>
    g :: PartialCoord.artifact_id p ::
    partial_tail (original <$> PartialCoord.version p)
      (PartialCoord.packaging p) (PartialCoord.classifier p)
  end.

Lemma partial_display p : PartialCoord.display p = join [colon] (partial_fields p).
Proof.
  unfold PartialCoord.display, partial_fields, partial_tail.
  destruct (PartialCoord.group_id p), (PartialCoord.version p), (PartialCoord.packaging p),
    (PartialCoord.classifier p); cbn; by rewrite ?app_nil_r.
Qed.

Section Partials.
Context `{Unicode}.

Definition present (p : str) : bool := negb (is_empty p).

Lemma present_filter q : field_ok q -> from_option set_ok True (opt_filter present (Some q)) /\
  q = opt_text (opt_filter present (Some q)).
Proof.
  intros Hq. split; [by apply opt_set_ok|]. unfold present. cbn.
  destruct (is_empty q) eqn:E; [by apply is_empty_true in E|done].
Qed.

Lemma present_set q : set_ok q -> opt_filter present (Some q) = Some q.
Proof. intros [?%is_empty_false _]. unfold present. cbn. by rewrite H0. Qed.

Lemma partial_version_ok (e : VersionError) (q : option str) v :
  from_option field_ok True q ->
  transpose ((fun v => map_err (fun _ => e) (Version.parse v)) <$> opt_filter present q) = Ok v ->
  from_option version_ok True v /\ opt_text q = opt_text (original <$> v) /\
  (v = None -> default [] q = []).
Proof.
  destruct q as [q|]; cbn; [|by intros _ [= <-]]. intros Hq. unfold present.
  destruct (is_empty q) eqn:E; cbn.
  - apply is_empty_true in E as ->. by intros [= <-].
  - destruct (Version.parse q) as [w|] eqn:Ew; cbn; [|done]. intros [= <-].
    assert (version_ok w) by by eapply version_field_ok.
    apply parse_Ok in Ew as (-> & _). cbn in *. rewrite trim_id in * by apply Hq. done.
Qed.

Lemma partial_version_parse (e : VersionError) v :
  from_option version_ok True v ->
  transpose ((fun v => map_err (fun _ => e) (Version.parse v)) <$>
    opt_filter present (original <$> v)) = Ok v.
Proof.
  destruct v as [v|]; [|done]. intros [Hv Hs]. cbn [fmap option_fmap option_map].
  rewrite present_set by done. cbn. by rewrite Hv.
Qed.

Lemma partial_tail_ok rest v :
  Forall field_ok rest -> length rest <= 3 ->
  (rest <> [] -> is_some_and is_empty (last rest) = false) ->
  from_option version_ok True v -> opt_text (rest !! 0) = opt_text (original <$> v) ->
  let p := opt_filter present (rest !! 1) in
  let k := opt_filter present (rest !! 2) in
  from_option set_ok True p /\ from_option set_ok True k /\
  rest = partial_tail (original <$> v) p k.
Proof.
  intros HF Hlen Hlast Hok Hv p k.
  assert (forall i, from_option set_ok True (opt_filter present (rest !! i))) as Hset.
  { intros i. destruct (rest !! i) as [q|] eqn:E; [|done].
    apply opt_set_ok. by eapply Forall_lookup_1. }
  split; [apply Hset|]. split; [apply Hset|].
  assert (from_option (fun v => original v <> []) True v) as Hne.
  { destruct v; [|done]. apply Hok. }
  subst p k. unfold present. clear Hset Hok HF.
  destruct rest as [|a [|b [|c [|]]]]; cbn in *; try lia.
  - destruct v; cbn in *; [congruence|done].
  - specialize (Hlast ltac:(done)). apply is_empty_false in Hlast.
    destruct v; cbn in *; congruence.
  - specialize (Hlast ltac:(done)). rewrite Hlast. cbn. by destruct v; cbn in *; subst.
  - specialize (Hlast ltac:(done)). rewrite Hlast. cbn.
    destruct (is_empty b) eqn:Eb; cbn; [apply is_empty_true in Eb as ->|];
      by destruct v; cbn in *; subst.
Qed.

Lemma partial_parse_ok s p :
  PartialCoord.parse s = Ok p -> partial_ok p /\ parts (trim s) = partial_fields p.
Proof.
  unfold PartialCoord.parse. fold present. pose proof (parts_field (trim s)) as HF.
  destruct (parts (trim s)) as [|g [|a rest]]; intros E; inv_ok E; try done.
  - injection E as <-. apply orb_false_iff in E0 as [_ E0%is_empty_false].
    apply Forall_cons in HF as [? _]. split; [constructor; cbn; try done; by split|done].
  - inv_ok E. inv_ok E. injection E as <-.
    apply orb_false_iff in E0 as [Hlen%Nat.ltb_ge Hlast].
    apply orb_false_iff in E1 as [Eg%is_empty_false Ea%is_empty_false].
    apply Forall_cons in HF as [Hg HF]. apply Forall_cons in HF as [Ha' HF].
    change ((g :: a :: rest) !! 2) with (rest !! 0) in *.
    apply partial_version_ok in Ha as (Hv & Hv' & _);
      [|by destruct rest; [|apply Forall_cons in HF as [? _]]].
    destruct (partial_tail_ok rest a0) as (Hp & Hk & Hrest); try done.
    { cbn in Hlen. lia. }
    { intros Hr. by destruct rest. }
    split; [by constructor; cbn|]. unfold partial_fields. cbn. by rewrite Hrest at 1.
Qed.

Lemma set_present q : set_ok q -> is_empty q = false.
Proof. by intros [?%is_empty_false _]. Qed.

Lemma partial_parse_fields s p :
  partial_ok p -> parts (trim s) = partial_fields p -> PartialCoord.parse s = Ok p.
Proof.
  intros [Hg Ha Hv Hp Hk Hb] E. unfold PartialCoord.parse. rewrite E. clear E.
  destruct p as [[g|] a v q k]; cbn in *.
  - destruct v as [v|], q as [q|], k as [k|]; cbn in *;
      rewrite ?(set_present g), ?(set_present a), ?(set_present q), ?(set_present k),
        ?(set_present (original v)) by (done || by destruct Hv); cbn;
      try rewrite (proj1 Hv); done.
  - destruct (Hb eq_refl) as (-> & -> & ->). by rewrite set_present.
Qed.

Lemma partial_fields_ok p : partial_ok p -> Forall field_ok (partial_fields p).
Proof.
  assert (field_ok []) by (split; [apply not_elem_of_nil|apply ws_nil]).
  intros [Hg Ha Hv Hp Hk _]. destruct p as [g a v q k].
  destruct g, v, q, k; cbn in *; unfold version_ok, set_ok in *; destruct_and?; eauto 10.
Qed.

(** A partial coordinate that was parsed prints to a text that parses back to
    the same value, wildcards included. *)
Lemma partial_coord_roundtrip s p :
  PartialCoord.parse s = Ok p -> PartialCoord.parse (PartialCoord.display p) = Ok p.
Proof.
  intros [Hp _]%partial_parse_ok. apply partial_parse_fields; [done|].
  rewrite partial_display. apply parts_join; [by apply partial_fields_ok|].
  unfold partial_fields. by destruct (PartialCoord.group_id p).
Qed.

Definition partial_of (c : Coord.t) : PartialCoord.t :=
  {| PartialCoord.group_id := Some (Coord.group_id c);
     PartialCoord.artifact_id := Coord.artifact_id c;
     PartialCoord.version := Some (Coord.version c);
     PartialCoord.packaging := Coord.packaging c;
     PartialCoord.classifier := Coord.classifier c |}.

(** Every text that is a coordinate is also a partial coordinate, and the
    search it stands for finds the coordinate itself. *)
Lemma coord_text_matches_itself s c :
  Coord.parse s = Ok c ->
  exists p, PartialCoord.parse s = Ok p /\ PartialCoord.matches p c = true.
Proof.
  intros [Hc Hs]%coord_parse_iff. exists (partial_of c). split.
  - destruct Hc. apply partial_parse_fields; [constructor; cbn; [assumption..|discriminate]|].
    rewrite Hs. unfold coord_fields, coord_tail, partial_of, partial_fields, partial_tail. cbn.
    by destruct (Coord.packaging c), (Coord.classifier c).
  - unfold PartialCoord.matches, version_eqb. cbn. rewrite version_cmp_refl.
    destruct (Coord.packaging c), (Coord.classifier c); cbn;
      by rewrite !bool_decide_eq_true_2.
Qed.
End Partials.

Lemma partial_coord_roundtrip_witness :
  let p := {| PartialCoord.group_id := Some $"g"; PartialCoord.artifact_id := $"a";
              PartialCoord.version := None; PartialCoord.packaging := Some $"jar";
              PartialCoord.classifier := None |} in
  PartialCoord.display p = $"g:a::jar" /\ PartialCoord.parse (PartialCoord.display p) = Ok p.
Proof.
  split; [by vm_compute|]. apply (partial_coord_roundtrip $"g:a: :jar "). by vm_compute.
Defined.

Lemma coord_text_matches_itself_witness :
  exists p, PartialCoord.parse $"g:a:1.0::tests" = Ok p /\
    PartialCoord.matches p {| Coord.group_id := $"g"; Coord.artifact_id := $"a";
      Coord.version := unresolved $"1.0"; Coord.packaging := None;
      Coord.classifier := Some $"tests" |} = true.
Proof. apply (coord_text_matches_itself $"g:a:1.0::tests"). by vm_compute. Defined.

(** ** File keys *)

(** The derived orders are orders: rows sorted by key have one order. *)
#[export] Instance gav_total_cmp : TotalCmp Gav.cmp.
Proof.
  apply (total_cmp_inj (fun g => (Gav.group g, (Gav.artifact g, Gav.version g)))
           (pair_cmp str_cmp (pair_cmp str_cmp str_cmp))); [|apply _].
  intros [] []. cbn. congruence.
Qed.

#[export] Instance artifact_coord_total_cmp : TotalCmp ArtifactCoord.cmp.
Proof.
  apply (total_cmp_inj
           (fun c => (ArtifactCoord.gav c, (ArtifactCoord.extension c, ArtifactCoord.classifier c)))
           (pair_cmp Gav.cmp (pair_cmp str_cmp (opt_cmp str_cmp)))); [|apply _].
  intros [] []. cbn. congruence.
Qed.

Definition gav_fields (g : Gav.t) : list str := [Gav.group g; Gav.artifact g; Gav.version g].
Definition key_fields (c : ArtifactCoord.t) : list str :=
  gav_fields (ArtifactCoord.gav c)
  ++ ArtifactCoord.extension c :: option_list (ArtifactCoord.classifier c).

Record gav_ok (g : Gav.t) : Prop := {
  gav_group : component_ok Group (Gav.group g);
  gav_artifact : component_ok Artifact (Gav.artifact g);
  gav_version : component_ok VersionField (Gav.version g);
}.

Record key_ok (c : ArtifactCoord.t) : Prop := {
  key_gav : gav_ok (ArtifactCoord.gav c);
  key_extension : component_ok Extension (ArtifactCoord.extension c);
  key_classifier : from_option (component_ok Classifier) True (ArtifactCoord.classifier c);
}.

Lemma gav_validate_Ok g : Gav.validate g = Ok tt <-> gav_ok g.
Proof.
  unfold Gav.validate. split.
  - intros E. repeat inv_ok E. destruct a, a0. constructor; by apply validate_Ok.
  - intros [H1%validate_Ok H2%validate_Ok H3%validate_Ok]. by rewrite H1, H2.
Qed.

Lemma key_validate_Ok c : ArtifactCoord.validate c = Ok tt <-> key_ok c.
Proof.
  unfold ArtifactCoord.validate. split.
  - intros E. repeat inv_ok E. destruct a, a0. constructor.
    + by apply gav_validate_Ok.
    + by apply validate_Ok.
    + destruct (ArtifactCoord.classifier c); [by apply validate_Ok|done].
  - intros [H1%gav_validate_Ok H2%validate_Ok H3]. rewrite H1, H2. cbn [mbind result_bind].
    destruct (ArtifactCoord.classifier c); [by apply validate_Ok|done].
Qed.

Lemma ok_no_colon f v : component_ok f v -> colon ∉ v.
Proof. intros H. apply (ok_free f); [done|left]. by apply (bool_decide_unpack _); vm_compute. Qed.

Lemma key_display c : ArtifactCoord.display c = join [colon] (key_fields c).
Proof.
  unfold ArtifactCoord.display, Gav.display, key_fields, gav_fields.
  destruct (ArtifactCoord.classifier c); cbn; by rewrite ?app_nil_r, <-?app_assoc; cbn;
    rewrite <-?app_assoc.
Qed.

Lemma key_fields_no_colon c : key_ok c -> Forall (fun p => colon ∉ p) (key_fields c).
Proof.
  intros [[H1 H2 H3] H4 H5]. unfold key_fields, gav_fields. cbn.
  do 4 (apply Forall_cons; split; [by eapply ok_no_colon|]).
  destruct (ArtifactCoord.classifier c); cbn in *; [|by apply Forall_nil].
  apply Forall_cons. split; [by eapply ok_no_colon|by apply Forall_nil].
Qed.

Lemma key_fields_inj c d : key_fields c = key_fields d -> c = d.
Proof.
  destruct c as [[] ? [|]], d as [[] ? [|]]; unfold key_fields, gav_fields; cbn; congruence.
Qed.

(** the text of a validated file key names one key, so messages and lock rows
    keyed by it cannot confuse two files; and a key built by
    [ArtifactCoord::of] survives the artifact index, which stores no classifier
    as an empty text. *)
Theorem artifact_coord_key c d :
  ArtifactCoord.validate c = Ok tt -> ArtifactCoord.validate d = Ok tt ->
  (ArtifactCoord.display c = ArtifactCoord.display d <-> c = d) /\
  ArtifactCoord.of_gav (ArtifactCoord.gav c) (ArtifactCoord.extension c)
    (Some (ArtifactCoord.classifier_key c)) = c.
Proof.
  intros Hc%key_validate_Ok Hd%key_validate_Ok. split.
  - split; [|by intros ->]. rewrite !key_display. intros E.
    apply key_fields_inj. rewrite <-(split_join colon (key_fields c)), E; try done.
    + by rewrite split_join by (done || by apply key_fields_no_colon).
    + by apply key_fields_no_colon.
  - destruct Hc as [_ _ Hk]. destruct c as [g e [k|]]; unfold ArtifactCoord.of_gav; cbn in *; [|done].
    by rewrite (proj2 (is_empty_false _) (ok_nonempty _ _ Hk)).
Qed.

Lemma artifact_coord_key_witness :
  let c := ArtifactCoord.new $"g" $"a" $"1.0" $"jar" (Some $"tests") in
  let d := ArtifactCoord.new $"g" $"a" $"1.0" $"jar" (Some []) in
  (ArtifactCoord.display c = ArtifactCoord.display d <-> c = d) /\
  ArtifactCoord.of_gav (ArtifactCoord.gav c) (ArtifactCoord.extension c)
    (Some (ArtifactCoord.classifier_key c)) = c.
Proof. apply artifact_coord_key; by vm_compute. Defined.
