(* ===== verification/Snapshot.v ===== *)
(** * SNAPSHOT versions ([rv-maven-types/src/snapshot.rs])

    Timestamped snapshot versions, their base version, the stamp of a deployed
    snapshot file, and the two tests for being a snapshot. *)

From Stdlib Require Import Ascii String.
From stdpp Require Import base list strings gmap.
From S2P Require Import Prelude Str Component.

#[local] Set Warnings "-clear-no-such-hyp".

Definition SNAPSHOT : str := $"SNAPSHOT".
Definition hyphen : ascii := "-"%char.

(** [is_ascii_digits] and [is_snapshot_timestamp]. *)
Definition is_ascii_digits (value : str) : bool :=
  negb (bool_decide (value = [])) && forallb is_digit value.

Definition is_snapshot_timestamp (value : str) : bool :=
  is_some_and (fun '(date, time) =>
    (length date =? 8) && (length time =? 6) && is_ascii_digits date && is_ascii_digits time)
    (split_once dot value).

Definition TIMESTAMP_LEN : nat := length $"YYYYMMDD.HHMMSS".

(** [str::is_char_boundary] inside a text: the byte there is not a
    continuation byte. *)
Definition is_char_boundary (s : str) (i : nat) : bool :=
  (i =? 0) ||
  match s !! i with
  | Some c => negb (in_range 128 191 c)
  | None => i =? length s
  end.

(** [usize::checked_sub]. *)
Definition checked_sub (a b : nat) : option nat := if a <? b then None else Some (a - b).

Module TimestampedSnapshot.
Record t := { prefix : str; timestamp : str; build : str }.

Definition parse (version : str) : option t :=
  '(rest, build) ← rsplit_once hyphen version;
  split ← checked_sub (length rest) TIMESTAMP_LEN;
  if negb (is_ascii_digits build) || negb (is_char_boundary rest split) then None
  else
    let prefix := take split rest in
    let timestamp := drop split rest in
    if negb (is_snapshot_timestamp timestamp)
       || negb (bool_decide (prefix = []) || ends_with_char (one_of [hyphen]) prefix)
    then None
    else Some {| prefix := prefix; timestamp := timestamp; build := build |}.

Definition build_number (s : t) : option N := parse_u32 (build s).
Definition base_version (s : t) : str := prefix s ++ SNAPSHOT.
End TimestampedSnapshot.

Definition is_snapshot_version (version : str) : bool :=
  ends_with SNAPSHOT version || bool_decide (is_Some (TimestampedSnapshot.parse version)).

Definition resolves_through_snapshot_metadata (version : str) : bool :=
  ends_with SNAPSHOT version.

(** [str::encode_utf16], and [char::from_u32] of one unit. *)
Definition utf16 (c : N) : list N :=
  if (c <? 65536)%N then [c]
  else [55296 + (c - 65536) / 1024; 56320 + (c - 65536) mod 1024]%N.

Definition from_unit (u : N) : option N :=
  if (55296 <=? u)%N && (u <=? 57343)%N then None else Some u.

Section Case.
Context `{Unicode}.

(** [char::to_uppercase] and [char::to_lowercase]. *)
Definition char_upper (c : N) : list N :=
  if (c <? 128)%N then [if (97 <=? c)%N && (c <=? 122)%N then c - 32 else c]%N
  else char_upper_table c.
Definition char_lower (c : N) : list N :=
  if (c <? 128)%N then [if (65 <=? c)%N && (c <=? 90)%N then c + 32 else c]%N
  else char_lower_table c.

Definition single (l : list N) : option N :=
  match l with [c] => Some c | _ => None end.

Definition java_upper (c : N) : N := default c (single (char_upper c)).
Definition java_lower (c : N) : N := default c (single (char_lower c)).

(** The closure of [ends_in_snapshot_ignoring_case]. *)
Definition unit_matches (unit expected : N) : bool :=
  match from_unit unit with
  | None => false
  | Some actual =>
    let actual_upper := java_upper actual in
    let expected_upper := java_upper expected in
    (actual =? expected)%N || (actual_upper =? expected_upper)%N
    || (java_lower actual_upper =? java_lower expected_upper)%N
  end.

Definition ends_in_snapshot_ignoring_case (version : str) : bool :=
  let units := concat (map utf16 (chars version)) in
  match checked_sub (length units) (length SNAPSHOT) with
  | None => false
  | Some start =>
    forallb (fun p => unit_matches p.1 p.2) (zip (drop start units) (chars SNAPSHOT))
  end.

Definition is_listed_snapshot_version (version : str) : bool :=
  ends_in_snapshot_ignoring_case version
  || is_some_and (fun s => negb (bool_decide (TimestampedSnapshot.prefix s = [])))
       (TimestampedSnapshot.parse version).
End Case.

Definition snapshot_base_version (version : str) : option str :=
  match TimestampedSnapshot.parse version with
  | Some snapshot => Some (TimestampedSnapshot.base_version snapshot)
  | None => if ends_with SNAPSHOT version then Some version else None
  end.

Definition timestamped_snapshot_version (version timestamp : str) (build : N) : option str :=
  base ← strip_suffix SNAPSHOT version;
  Some (base ++ timestamp ++ [hyphen] ++ fmt_u32 build).

Module SnapshotStamp.
Record t := { timestamp : str; build : N }.

Definition new (timestamp : str) (build : N) : option t :=
  if is_snapshot_timestamp timestamp then Some {| timestamp := timestamp; build := build |}
  else None.

Definition of_version (version : str) : option t :=
  parsed ← TimestampedSnapshot.parse version;
  number ← TimestampedSnapshot.build_number parsed;
  new (TimestampedSnapshot.timestamp parsed) number.

Definition of_file_version (version file_version : str) : option t :=
  base ← strip_suffix SNAPSHOT version;
  rest ← strip_prefix base file_version;
  '(timestamp, build) ← rsplit_once hyphen rest;
  number ← parse_u32 build;
  if negb (is_ascii_digits build) || negb (bool_decide (fmt_u32 number = build)) then None
  else new timestamp number.

Definition resolved_version (s : t) (base_version : str) : option str :=
  timestamped_snapshot_version base_version (timestamp s) (build s).

Definition display (s : t) : str := timestamp s ++ [hyphen] ++ fmt_u32 (build s).

(** The derived [Ord]: the timestamp, then the build number. *)
Definition cmp (a b : t) : comparison :=
  ord_then (str_cmp (timestamp a) (timestamp b)) (N.compare (build a) (build b)).
End SnapshotStamp.

(** ** Timestamps *)

Lemma is_ascii_digits_Forall s :
  is_ascii_digits s = true <-> s <> [] /\ Forall (fun c => is_digit c = true) s.
Proof.
  unfold is_ascii_digits. rewrite andb_true_iff, negb_true_iff, bool_decide_eq_false.
  by rewrite forallb_Forall.
Qed.

Lemma digits_free c s : is_ascii_digits s = true -> is_digit c = false -> c ∉ s.
Proof.
  rewrite is_ascii_digits_Forall, Forall_forall. intros [_ H] Hc Hin.
  specialize (H c Hin). congruence.
Qed.

Lemma timestamp_shape ts :
  is_snapshot_timestamp ts = true ->
  length ts = TIMESTAMP_LEN /\ hyphen ∉ ts /\ exists c r, ts = c :: r /\ is_digit c = true.
Proof.
  unfold is_snapshot_timestamp. destruct (split_once dot ts) as [[d t]|] eqn:E; [|done].
  apply split_once_Some in E as [-> Hd]. cbn [is_some_and].
  rewrite !andb_true_iff, !Nat.eqb_eq. intros [[[H0 H1] H2] H3]. split_and!.
  - rewrite length_app. cbn [length]. by rewrite H0, H1.
  - rewrite elem_of_app, elem_of_cons. intros [Hin|[Hin|Hin]]; [|done|].
    + by apply (digits_free hyphen) in H2.
    + by apply (digits_free hyphen) in H3.
  - apply is_ascii_digits_Forall in H2 as [Hne HF]. destruct d as [|c d]; [done|].
    apply Forall_cons in HF as [Hc _]. by exists c, (d ++ dot :: t).
Qed.

Lemma digit_not_continuation c : is_digit c = true -> in_range 128 191 c = false.
Proof.
  intros Hc. assert (negb (is_digit c) || negb (in_range 128 191 c) = true) as H
    by by_bytes (fun c => negb (is_digit c) || negb (in_range 128 191 c)) c.
  rewrite Hc in H. by apply negb_true_iff in H.
Qed.

(** The regular expression [^(.*-)?([0-9]{8}\.[0-9]{6})-([0-9]+)$] of
    maven-resolver, as a relation. *)
Record is_timestamped (v : str) (s : TimestampedSnapshot.t) : Prop := {
  whole : v = TimestampedSnapshot.prefix s ++ TimestampedSnapshot.timestamp s
              ++ [hyphen] ++ TimestampedSnapshot.build s;
  base_part : TimestampedSnapshot.prefix s = [] \/ last (TimestampedSnapshot.prefix s) = Some hyphen;
  time_part : is_snapshot_timestamp (TimestampedSnapshot.timestamp s) = true;
  build_part : is_ascii_digits (TimestampedSnapshot.build s) = true;
}.

Lemma ends_hyphen v : ends_with_char (one_of [hyphen]) v = true <-> last v = Some hyphen.
Proof.
  unfold ends_with_char. destruct (last v) as [c|]; [|naive_solver].
  rewrite one_of_true, list_elem_of_singleton. naive_solver.
Qed.

Lemma parse_timestamped v s :
  TimestampedSnapshot.parse v = Some s <-> is_timestamped v s.
Proof.
  unfold TimestampedSnapshot.parse. split.
  - destruct (rsplit_once hyphen v) as [[rest build]|] eqn:E; cbn [mbind option_bind]; [|done].
    apply rsplit_once_Some in E as [-> Hb]. unfold checked_sub.
    destruct (length rest <? TIMESTAMP_LEN); cbn [mbind option_bind]; [done|].
    set (k := length rest - TIMESTAMP_LEN).
    destruct (is_ascii_digits build) eqn:Eb, (is_char_boundary rest k); cbn; try done.
    destruct (is_snapshot_timestamp (drop k rest)) eqn:Et; cbn; [|done].
    destruct (bool_decide_reflect (take k rest = [])) as [Ep|_]; cbn.
    + intros [= <-]. split; cbn; [|by left|done..]. by rewrite app_assoc, take_drop.
    + destruct (ends_with_char _ (take k rest)) eqn:Ep; cbn; [|done].
      intros [= <-]. apply ends_hyphen in Ep.
      split; cbn; [|by right|done..]. by rewrite app_assoc, take_drop.
  - intros [-> Hp Ht Hb]. destruct s as [prefix timestamp build]; cbn in *.
    pose proof (timestamp_shape _ Ht) as (Hlen & Hh & c & r & Hc & Hd).
    rewrite (proj2 (rsplit_once_Some hyphen _ (prefix ++ timestamp) build)).
    2: { split; [by rewrite <-app_assoc|]. by apply digits_free. }
    change TIMESTAMP_LEN with 15 in *.
    cbn [mbind option_bind]. unfold checked_sub. rewrite length_app, Hlen.
    rewrite (proj2 (Nat.ltb_ge (length prefix + 15) 15)) by lia.
    cbn [mbind option_bind]. replace (length prefix + 15 - 15) with (length prefix) by lia.
    rewrite Hb, take_app_length, drop_app_length, Ht.
    assert (is_char_boundary (prefix ++ timestamp) (length prefix) = true) as ->.
    { unfold is_char_boundary. rewrite Hc, list_lookup_middle by done.
      by rewrite digit_not_continuation, orb_true_r. }
    cbn. destruct Hp as [->|Hp]; [done|].
    by rewrite (proj2 (ends_hyphen prefix) Hp), orb_true_r.
Qed.

(** [TimestampedSnapshot::parse] accepts exactly the versions that
    maven-resolver's [^(.*-)?([0-9]{8}\.[0-9]{6})-([0-9]+)$] matches, with the
    groups of the match; the split is unique. *)
Theorem timestamped_parse_spec v s :
  (TimestampedSnapshot.parse v = Some s <-> is_timestamped v s) /\
  (forall s', is_timestamped v s -> is_timestamped v s' -> s = s').
Proof.
  split; [apply parse_timestamped|]. intros s'. rewrite <-!parse_timestamped. congruence.
Qed.

Lemma timestamped_parse_spec_witness :
  is_timestamped $"1.0-beta-1-20240101.010101-12"
    {| TimestampedSnapshot.prefix := $"1.0-beta-1-"; TimestampedSnapshot.timestamp := $"20240101.010101";
       TimestampedSnapshot.build := $"12" |}.
Proof.
  apply (timestamped_parse_spec $"1.0-beta-1-20240101.010101-12"). by vm_compute.
Defined.

(** A timestamped version does not end in [SNAPSHOT], nor the other way round. *)
Lemma snapshot_not_timestamped v : ends_with SNAPSHOT v = true -> TimestampedSnapshot.parse v = None.
Proof.
  intros [a ->]%ends_with_true. destruct (TimestampedSnapshot.parse _) as [s|] eqn:E; [|done].
  exfalso. apply parse_timestamped in E as [E _ _ Hb].
  apply is_ascii_digits_Forall in Hb as [Hne HF].
  destruct (exists_last Hne) as (b & c & Eb). rewrite Eb in E, HF.
  apply Forall_app in HF as [_ HF]. apply Forall_cons in HF as [Hc _].
  apply (f_equal last) in E. rewrite !app_assoc, last_snoc in E.
  change SNAPSHOT with ($"SNAPSHO" ++ ["T"%char]) in E. rewrite app_assoc, last_snoc in E.
  injection E as <-. done.
Qed.

Definition stamp_ok (s : SnapshotStamp.t) : Prop :=
  is_snapshot_timestamp (SnapshotStamp.timestamp s) = true /\
  (SnapshotStamp.build s <= u32_max)%N.

Lemma parse_digits_max acc s n : parse_digits acc s = Some n -> (acc <= u32_max)%N -> (n <= u32_max)%N.
Proof.
  revert acc. induction s as [|c s IH]; intros acc; cbn [parse_digits]; [by intros [= ->]|].
  destruct (is_digit c); [|done]. destruct (N.leb_spec (acc * 10 + digit_value c) u32_max); [|done].
  intros E _. by apply (IH _ E).
Qed.

Lemma parse_u32_max s n : parse_u32 s = Some n -> (n <= u32_max)%N.
Proof.
  unfold parse_u32. destruct s as [|c s]; [done|]. case_decide.
  - destruct s; [done|]. intros E. by apply (parse_digits_max _ _ _ E).
  - intros E. by apply (parse_digits_max _ _ _ E).
Qed.

Lemma fmt_ascii_digits n : is_ascii_digits (fmt_u32 n) = true.
Proof.
  unfold is_ascii_digits. rewrite bool_decide_eq_false_2 by apply fmt_u32_nonempty.
  apply fmt_u32_digits.
Qed.

(** [SnapshotStamp::of_file_version] is the inverse of
    [SnapshotStamp::resolved_version]: it finds a stamp exactly for the file
    versions that stamp resolves the [SNAPSHOT] version to, and the stamp it
    finds has a well-formed timestamp and a 32-bit build number. *)
Theorem stamp_of_file_version_inverse v file s :
  (SnapshotStamp.of_file_version v file = Some s <->
   stamp_ok s /\ SnapshotStamp.resolved_version s v = Some file).
Proof.
  unfold SnapshotStamp.of_file_version, SnapshotStamp.resolved_version,
    timestamped_snapshot_version.
  destruct (strip_suffix SNAPSHOT v) as [base|]; cbn [mbind option_bind]; [|naive_solver].
  split.
  - destruct (strip_prefix base file) as [rest|] eqn:Ef; cbn [mbind option_bind]; [|done].
    apply strip_prefix_Some in Ef as ->.
    destruct (rsplit_once hyphen rest) as [[ts build]|] eqn:Er; cbn [mbind option_bind]; [|done].
    apply rsplit_once_Some in Er as [-> _].
    destruct (parse_u32 build) as [n|] eqn:En; cbn [mbind option_bind]; [|done].
    destruct (is_ascii_digits build); cbn [negb orb]; [|done].
    destruct (bool_decide_reflect (fmt_u32 n = build)) as [<-|]; cbn [negb]; [|done].
    unfold SnapshotStamp.new. destruct (is_snapshot_timestamp ts) eqn:Et; [|done].
    intros [= <-]. split; [|done]. split; [done|by eapply parse_u32_max].
  - intros [[Ht Hb] [= <-]]. rewrite strip_prefix_app. cbn [mbind option_bind].
    rewrite (proj2 (rsplit_once_Some hyphen _ (SnapshotStamp.timestamp s)
      (fmt_u32 (SnapshotStamp.build s)))).
    2: { split; [done|]. apply digits_free; [apply fmt_ascii_digits|done]. }
    cbn [mbind option_bind]. rewrite parse_fmt_u32 by done. cbn [mbind option_bind].
    rewrite fmt_ascii_digits, bool_decide_eq_true_2 by done. cbn [negb orb].
    unfold SnapshotStamp.new. rewrite Ht. by destruct s.
Qed.

(** A version has a snapshot directory exactly when it is a snapshot; the
    directory's own version ends in [SNAPSHOT] and is its own directory; and the
    file version a stamp gives a [-SNAPSHOT] version goes back to that version. *)
Lemma snapshot_base_version_spec v :
  (is_snapshot_version v = true <-> is_Some (snapshot_base_version v)) /\
  (forall b, snapshot_base_version v = Some b ->
     resolves_through_snapshot_metadata b = true /\ snapshot_base_version b = Some b) /\
  (forall s file base, v = base ++ [hyphen] ++ SNAPSHOT -> stamp_ok s ->
     SnapshotStamp.resolved_version s v = Some file -> snapshot_base_version file = Some v).
Proof.
  assert (forall b, ends_with SNAPSHOT b = true -> snapshot_base_version b = Some b) as Hself.
  { intros b Hb. unfold snapshot_base_version. rewrite (snapshot_not_timestamped b Hb).
    by rewrite Hb. }
  split_and!.
  - unfold is_snapshot_version, snapshot_base_version.
    destruct (TimestampedSnapshot.parse v), (ends_with SNAPSHOT v); cbn; naive_solver.
  - intros b. unfold resolves_through_snapshot_metadata. intros Hb.
    enough (ends_with SNAPSHOT b = true) by auto.
    unfold snapshot_base_version in Hb. destruct (TimestampedSnapshot.parse v) as [s|].
    + injection Hb as <-. apply ends_with_true. by eexists.
    + destruct (ends_with SNAPSHOT v) eqn:E; naive_solver.
  - intros s file base -> [Ht Hb]. unfold SnapshotStamp.resolved_version,
      timestamped_snapshot_version. rewrite (app_assoc base [hyphen] SNAPSHOT).
    rewrite strip_suffix_app. cbn [mbind option_bind]. intros [= <-].
    unfold snapshot_base_version.
    rewrite (proj2 (parse_timestamped _
      {| TimestampedSnapshot.prefix := base ++ [hyphen];
         TimestampedSnapshot.timestamp := SnapshotStamp.timestamp s;
         TimestampedSnapshot.build := fmt_u32 (SnapshotStamp.build s) |})); [done|].
    split; cbn; [done|right; by rewrite last_snoc|done|apply fmt_ascii_digits].
Qed.

Lemma snapshot_base_version_spec_witness :
  snapshot_base_version $"1.0-20240101.010101-7" = Some $"1.0-SNAPSHOT" /\
  snapshot_base_version $"1.0-SNAPSHOT" = Some $"1.0-SNAPSHOT".
Proof.
  assert (snapshot_base_version $"1.0-20240101.010101-7" = Some $"1.0-SNAPSHOT") as H
    by by vm_compute.
  split; [done|]. by apply (snapshot_base_version_spec $"1.0-20240101.010101-7").
Defined.
