(* ===== verification/Layout.v ===== *)
(** * The repository layout ([rv-maven-types/src/layout.rs])

    The path of an artifact file and of a metadata file, and the test for a
    mutable snapshot path. *)

From Stdlib Require Import Ascii String.
From stdpp Require Import base list strings gmap.
From S2P Require Import Prelude Str Version Component Coordinates Snapshot.

#[local] Set Warnings "-clear-no-such-hyp".

Definition slash : ascii := "/"%char.

Definition artifact_path_from_parts
    (group artifact dir_version file_version extension : str) (classifier : option str) : str :=
  let group_path := replace_char dot slash group in
  let filename :=
    match classifier with
    | Some classifier =>
      artifact ++ $"-" ++ file_version ++ $"-" ++ classifier ++ $"." ++ extension
    | None => artifact ++ $"-" ++ file_version ++ $"." ++ extension
    end in
  group_path ++ $"/" ++ artifact ++ $"/" ++ dir_version ++ $"/" ++ filename.

Definition artifact_path (coord : ArtifactCoord.t) (dir_version file_version : str) : str :=
  artifact_path_from_parts (Gav.group (ArtifactCoord.gav coord))
    (Gav.artifact (ArtifactCoord.gav coord)) dir_version file_version
    (ArtifactCoord.extension coord) (ArtifactCoord.classifier coord).

Definition metadata_path (group artifact : str) (version : option str) : str :=
  let group_path := replace_char dot slash group in
  match version with
  | Some version =>
    group_path ++ $"/" ++ artifact ++ $"/" ++ version ++ $"/maven-metadata.xml"
  | None => group_path ++ $"/" ++ artifact ++ $"/maven-metadata.xml"
  end.

Definition is_mutable_snapshot_path (path : str) : bool :=
  match reverse (split slash path) with
  | file :: version :: artifact :: _ =>
    resolves_through_snapshot_metadata version
    && is_some_and (starts_with_char (one_of ["."; "-"]%char))
         (file ← strip_prefix artifact file;
          file ← strip_prefix $"-" file;
          strip_prefix version file)
  | _ => false
  end.

(** ** The segments of a path *)

Definition suffix_of (extension : str) (classifier : option str) : str :=
  match classifier with
  | Some classifier => $"-" ++ classifier ++ $"." ++ extension
  | None => $"." ++ extension
  end.

Definition file_name (artifact file_version extension : str) (classifier : option str) : str :=
  artifact ++ $"-" ++ file_version ++ suffix_of extension classifier.

Lemma split_replace c a b s :
  c = b -> b ∉ s -> split c (replace_char a b s) = split a s.
Proof.
  intros ->. induction s as [|x s IH]; [done|]. intros [Hx Hs]%not_elem_of_cons.
  cbn [replace_char map split]. fold (replace_char a b s). rewrite IH by done.
  destruct (decide (x = a)) as [->|Hxa]; [by rewrite decide_True|].
  by rewrite decide_False by congruence.
Qed.

(** The directories of a group, and the segments that follow. *)
Lemma split_path g rest :
  slash ∉ g -> Forall (fun p => slash ∉ p) rest -> rest <> [] ->
  split slash (replace_char dot slash g ++ [slash] ++ join [slash] rest)
  = split dot g ++ rest.
Proof.
  intros Hg Hrest Hne.
  rewrite <-(join_split slash (replace_char dot slash g)).
  rewrite (split_replace slash dot slash g eq_refl Hg).
  assert (Forall (fun p => slash ∉ p) (split dot g)) as Hs.
  { apply Forall_forall. intros p Hp Hin. apply Hg. by eapply split_elem. }
  pose proof (split_nonempty dot g) as Hnd. revert Hs Hnd. generalize (split dot g).
  intros l. induction l as [|p l IH]; intros Hl Hnl; [done|].
  apply Forall_cons in Hl as [Hp Hl]. destruct l as [|q l].
  - cbn [join app]. by rewrite split_app, split_join.
  - rewrite join_cons, <-!app_assoc. cbn [app] in IH |- *. rewrite split_app by done.
    by rewrite IH.
Qed.

Section Paths.
Context (c : ArtifactCoord.t) (dirv filev : str).
Context (Hc : key_ok c) (Hdir : component_ok VersionField dirv)
  (Hfile : component_ok VersionField filev).

Definition file_of : str :=
  file_name (Gav.artifact (ArtifactCoord.gav c)) filev
    (ArtifactCoord.extension c) (ArtifactCoord.classifier c).

Lemma ok_no_slash f v : component_ok f v -> slash ∉ v.
Proof. intros H. by apply ok_safe in H as (_ & _ & _ & ? & _). Qed.
Lemma ok_no_backslash f v : component_ok f v -> "\"%char ∉ v.
Proof. intros H. by apply ok_safe in H as (_ & _ & _ & _ & ?). Qed.

Lemma suffix_free x :
  x ∉ ArtifactCoord.extension c -> from_option (fun k => x ∉ k) True (ArtifactCoord.classifier c) ->
  x <> "-"%char -> x <> "."%char ->
  x ∉ suffix_of (ArtifactCoord.extension c) (ArtifactCoord.classifier c).
Proof.
  intros He Hk H1 H2. unfold suffix_of. destruct (ArtifactCoord.classifier c) as [k|]; cbn in *;
    rewrite ?elem_of_cons, ?elem_of_app, ?elem_of_cons; naive_solver.
Qed.

Lemma file_of_free x :
  (forall f v, component_ok f v -> x ∉ v) -> x <> "-"%char -> x <> "."%char -> x ∉ file_of.
Proof.
  intros Hx H1 H2. destruct Hc as [[_ Ha _] He Hk]. unfold file_of, file_name.
  assert (x ∉ suffix_of (ArtifactCoord.extension c) (ArtifactCoord.classifier c)) as Hs.
  { apply suffix_free; eauto. destruct (ArtifactCoord.classifier c); cbn in *; eauto. }
  apply Hx in Ha. apply Hx in Hfile. cbn. rewrite !elem_of_app, elem_of_cons, elem_of_app.
  naive_solver.
Qed.

Lemma artifact_path_segments :
  split slash (artifact_path c dirv filev)
  = split dot (Gav.group (ArtifactCoord.gav c))
    ++ [Gav.artifact (ArtifactCoord.gav c); dirv; file_of].
Proof.
  destruct Hc as [[Hg Ha Hv] He Hk].
  rewrite <-split_path; [|by eapply ok_no_slash| |done].
  - unfold artifact_path, artifact_path_from_parts, file_of, file_name, suffix_of.
    destruct (ArtifactCoord.classifier c); cbn [join]; by rewrite <-?app_assoc.
  - repeat (apply Forall_cons; split); [by eapply ok_no_slash..| |by apply Forall_nil].
    apply file_of_free; [apply ok_no_slash|done..].
Qed.

Lemma file_of_safe : safe_segment file_of.
Proof.
  destruct Hc as [[_ Ha _] _ _]. pose proof (ok_nonempty _ _ Ha) as Hne.
  assert (forall s, length s <= 2 -> file_of <> s) as Hlong.
  { intros s Hs <-. unfold file_of, file_name in Hs. revert Hs.
    pose proof (ok_nonempty _ _ Hfile). destruct (Gav.artifact _), filev; try done.
    cbn. rewrite !length_app. cbn. rewrite length_app. lia. }
  split; [by apply (Hlong []); cbn; lia|]. repeat split.
  - apply Hlong. cbn. lia.
  - apply Hlong. cbn. lia.
  - apply file_of_free; [apply ok_no_slash|done..].
  - apply file_of_free; [apply ok_no_backslash|done..].
Qed.
End Paths.

(** the path of a validated coordinate, in whatever version directory,
    consists of segments that each name a plain entry: none is empty, [.] or
    [..], and none holds a separator, so the path stays below the directory it is
    joined to. *)
Theorem artifact_path_safe c dirv filev :
  ArtifactCoord.validate c = Ok tt ->
  validate_coordinate_component VersionField dirv = Ok tt ->
  validate_coordinate_component VersionField filev = Ok tt ->
  Forall safe_segment (split slash (artifact_path c dirv filev)).
Proof.
  intros Hc%key_validate_Ok Hd%validate_Ok Hf%validate_Ok.
  rewrite artifact_path_segments by done. pose proof Hc as [[Hg Ha _] _ _].
  apply Forall_app. split; [by apply group_pieces_safe|].
  repeat (apply Forall_cons; split); [by eapply ok_safe..| |by apply Forall_nil].
  by apply file_of_safe.
Qed.

Lemma artifact_path_safe_witness :
  let c := ArtifactCoord.new $"com.example" $"demo" $"1.0-SNAPSHOT" $"jar" (Some $"tests") in
  artifact_path c $"1.0-SNAPSHOT" $"1.0-20240101.010101-7"
    = $"com/example/demo/1.0-SNAPSHOT/demo-1.0-20240101.010101-7-tests.jar" /\
  Forall safe_segment (split slash (artifact_path c $"1.0-SNAPSHOT" $"1.0-20240101.010101-7")).
Proof. split; [by vm_compute|]. apply artifact_path_safe; by vm_compute. Defined.

(** What two equal suffixes say when no classifier has a dot. *)
Lemma suffix_of_inj e e' k k' :
  from_option (fun k => dot ∉ k) True k -> from_option (fun k => dot ∉ k) True k' ->
  suffix_of e k = suffix_of e' k' -> e = e' /\ k = k'.
Proof.
  intros Hk Hk' E. apply (f_equal (split_once dot)) in E. unfold suffix_of in E.
  destruct k as [k|], k' as [k'|]; cbn [from_option] in *.
  all: repeat match type of E with
    | context [split_once dot ($"-" ++ ?k ++ $"." ++ ?e)] =>
      rewrite (proj2 (split_once_Some dot ($"-" ++ k ++ $"." ++ e) ($"-" ++ k) e)) in E
        by (split; [done|cbn; rewrite elem_of_cons; intros [?|?]; done])
    | context [split_once dot ($"." ++ ?e)] =>
      change (split_once dot ($"." ++ e)) with (Some (@nil ascii, e)) in E
    end; naive_solver.
Qed.

Lemma app_three {A} (l l' : list A) a b c a' b' c' :
  l ++ [a; b; c] = l' ++ [a'; b'; c'] -> l = l' /\ a = a' /\ b = b' /\ c = c'.
Proof. intros E. apply app_inj_2 in E as [-> E]; [naive_solver|done]. Qed.

(** a path names one group, artifact and version, and, among classifiers
    without a dot, one file: the layout gives no two such files one path. *)
Theorem artifact_path_injective c d :
  ArtifactCoord.validate c = Ok tt -> ArtifactCoord.validate d = Ok tt ->
  let v := Gav.version (ArtifactCoord.gav c) in
  let w := Gav.version (ArtifactCoord.gav d) in
  artifact_path c v v = artifact_path d w w ->
  ArtifactCoord.gav c = ArtifactCoord.gav d /\
  (from_option (fun k => dot ∉ k) True (ArtifactCoord.classifier c) ->
   from_option (fun k => dot ∉ k) True (ArtifactCoord.classifier d) -> c = d).
Proof.
  intros Hc%key_validate_Ok Hd%key_validate_Ok v w E.
  apply (f_equal (split slash)) in E.
  rewrite !artifact_path_segments in E by (done || apply Hc || apply Hd).
  apply app_three in E as (Eg & Ea & Ev & Ef).
  apply (f_equal (join [dot])) in Eg. rewrite !join_split in Eg.
  assert (ArtifactCoord.gav c = ArtifactCoord.gav d) as Egav.
  { subst v w. destruct (ArtifactCoord.gav c), (ArtifactCoord.gav d). cbn in *. congruence. }
  split; [done|]. intros Kc Kd. unfold file_of, file_name in Ef. rewrite Ea, Ev in Ef.
  do 3 apply app_inv_head in Ef. apply suffix_of_inj in Ef as [Ee Ek]; [|done..].
  destruct c, d. cbn in *. congruence.
Qed.

Lemma artifact_path_injective_witness :
  let c := ArtifactCoord.new $"g.h" $"a" $"1.0" $"tar.gz" (Some $"bin") in
  let d := ArtifactCoord.new $"g.h" $"a" $"1.0" $"tar.gz" (Some $"bin") in
  ArtifactCoord.gav c = ArtifactCoord.gav d.
Proof. apply artifact_path_injective; by vm_compute. Defined.

(** With dots in a classifier two valid files share a path, as in Maven. *)
Example dotted_classifier_shares_path :
  let c := ArtifactCoord.new $"g" $"a" $"1.0" $"gz" (Some $"bin.tar") in
  let d := ArtifactCoord.new $"g" $"a" $"1.0" $"tar.gz" (Some $"bin") in
  is_ok (ArtifactCoord.validate c) = true /\ is_ok (ArtifactCoord.validate d) = true /\
  artifact_path c $"1.0" $"1.0" = artifact_path d $"1.0" $"1.0".
Proof. by vm_compute. Qed.

Lemma suffix_starts e k :
  starts_with_char (one_of ["."; "-"]%char) (suffix_of e k) = true.
Proof. by destruct k. Qed.

Lemma mutable_path_parts c dirv filev :
  key_ok c -> component_ok VersionField dirv -> component_ok VersionField filev ->
  is_mutable_snapshot_path (artifact_path c dirv filev)
  = resolves_through_snapshot_metadata dirv
    && is_some_and (starts_with_char (one_of ["."; "-"]%char))
         (strip_prefix dirv (filev ++ suffix_of (ArtifactCoord.extension c)
                                       (ArtifactCoord.classifier c))).
Proof.
  intros Hc Hd Hf. unfold is_mutable_snapshot_path.
  rewrite artifact_path_segments, reverse_app by done. cbn [reverse app rev_append].
  unfold file_of, file_name. change (reverse [?a; ?b; ?d]) with [d; b; a].
  cbn [app]. by rewrite strip_prefix_app.
Qed.

Lemma strip_prefix_common p a b : strip_prefix (p ++ a) (p ++ b) = strip_prefix a b.
Proof. induction p as [|x p IH]; [done|]. cbn. by rewrite decide_True. Qed.

(** Among the files of a snapshot directory, [is_mutable_snapshot_path] picks
    the mutable ones: a file named with the directory's version counts exactly
    when that version is resolved through snapshot metadata, and a file named
    with a resolved timestamp never does, whatever its classifier. *)
Lemma mutable_snapshot_path_spec c v :
  ArtifactCoord.validate c = Ok tt ->
  validate_coordinate_component VersionField v = Ok tt ->
  is_mutable_snapshot_path (artifact_path c v v) = resolves_through_snapshot_metadata v /\
  (forall s file, stamp_ok s -> SnapshotStamp.resolved_version s v = Some file ->
     validate_coordinate_component VersionField file = Ok tt ->
     is_mutable_snapshot_path (artifact_path c v file) = false).
Proof.
  intros Hc%key_validate_Ok Hv%validate_Ok. split.
  - rewrite mutable_path_parts, strip_prefix_app by done. cbn [is_some_and].
    by rewrite suffix_starts, andb_true_r.
  - intros s file [Ht _] Hr Hf%validate_Ok. rewrite mutable_path_parts by done.
    apply timestamp_shape in Ht as (_ & _ & t & r & Et & Hd).
    unfold SnapshotStamp.resolved_version, timestamped_snapshot_version in Hr.
    destruct (strip_suffix SNAPSHOT v) as [base|] eqn:Ev; [|done].
    apply strip_suffix_Some in Ev. rewrite Ev in *.
    cbn [mbind option_bind] in Hr. injection Hr as <-. rewrite Et, <-!app_assoc.
    rewrite strip_prefix_common. cbn [app strip_prefix SNAPSHOT list_ascii_of_string].
    rewrite decide_False by (intros <-; done). apply andb_false_r.
Qed.

Lemma mutable_snapshot_path_spec_witness :
  let c := ArtifactCoord.new $"g" $"a" $"1.0-SNAPSHOT" $"jar" (Some $"tests") in
  is_mutable_snapshot_path (artifact_path c $"1.0-SNAPSHOT" $"1.0-SNAPSHOT") = true.
Proof.
  etransitivity; [apply mutable_snapshot_path_spec; by vm_compute|by vm_compute].
Defined.
