(* ===== verification/Digest.v ===== *)
(** * Content digests ([rv-maven-types/src/digest.rs])

    Checksum algorithms and digests held as lowercase hex.  The hash functions
    and the hex encoder are the [sha1], [sha2], [md5] and [hex] crates: they are
    the class [Hashers], with what the code relies on as [HasherLaws]. *)

From Stdlib Require Import Ascii String.
From stdpp Require Import base list strings gmap.
From S2P Require Import Prelude Str.

#[local] Set Warnings "-clear-no-such-hyp".

Inductive HashAlgorithm := Md5 | Sha1 | Sha256.

#[export] Instance hash_algorithm_eq_dec : EqDecision HashAlgorithm.
Proof. solve_decision. Defined.

Definition as_str (a : HashAlgorithm) : str :=
  match a with Md5 => $"md5" | Sha1 => $"sha1" | Sha256 => $"sha256" end.

(** [HashAlgorithm::parse]. *)
Definition parse_algorithm (raw : str) : option HashAlgorithm :=
  let trimmed := trim raw in
  if eq_ignore_ascii_case trimmed $"sha256" || eq_ignore_ascii_case trimmed $"sha-256"
  then Some Sha256
  else if eq_ignore_ascii_case trimmed $"sha1" || eq_ignore_ascii_case trimmed $"sha-1"
  then Some Sha1
  else None.

Definition hex_len (a : HashAlgorithm) : nat :=
  match a with Md5 => 32 | Sha1 => 40 | Sha256 => 64 end.

Inductive DigestError :=
  | UnsupportedAlgorithm
  | InvalidLength (a : HashAlgorithm)
  | InvalidCharacters (a : HashAlgorithm).

(** [length_message] and [characters_message]. *)
Definition length_message (a : HashAlgorithm) : str :=
  match a with
  | Sha256 => $"invalid blob id length"
  | Sha1 => $"sha1 digest must be 40 hex chars"
  | Md5 => $"md5 digest must be 32 hex chars"
  end.
Definition characters_message (a : HashAlgorithm) : str :=
  match a with
  | Sha256 => $"invalid blob id characters"
  | Sha1 => $"sha1 digest must be 40 hex chars"
  | Md5 => $"md5 digest must be 32 hex chars"
  end.

(** [normalize_hex].  The hex test is on characters; a character beyond ASCII is
    none, and its bytes are none either. *)
Definition normalize_hex (a : HashAlgorithm) (hex : str) : result DigestError str :=
  if negb (length hex =? hex_len a) then Err (InvalidLength a)
  else if negb (forallb is_hexdigit hex) then Err (InvalidCharacters a)
  else Ok (to_ascii_lowercase hex).

(** The three digest types of [define_digest!] differ in the algorithm alone, and
    [Digest] is one of them: the algorithm and the hex text. *)
Record Digest := { algorithm : HashAlgorithm; hex : str }.

#[export] Instance digest_eq_dec : EqDecision Digest.
Proof. solve_decision. Defined.

(** [FromStr] of one digest type. *)
Definition from_str (a : HashAlgorithm) (s : str) : result DigestError Digest :=
  (fun h => {| algorithm := a; hex := h |}) <$> normalize_hex a s.

(** [Digest::from_hex]. *)
Definition from_hex (a : HashAlgorithm) (h : str) : result DigestError Digest :=
  match a with
  | Sha256 => from_str Sha256 h
  | Sha1 => from_str Sha1 (trim h)
  | Md5 => from_str Md5 (trim h)
  end.

(** [Digest::parse]. *)
Definition parse (a h : str) : result DigestError Digest :=
  a ← ok_or (parse_algorithm a) UnsupportedAlgorithm;
  from_hex a h.

(** [Digest::as_sha256]. *)
Definition as_sha256 (d : Digest) : option str :=
  if decide (algorithm d = Sha256) then Some (hex d) else None.

(** [Display for Digest]. *)
Definition display (d : Digest) : str := as_str (algorithm d) ++ $":" ++ hex d.

(** The derived order: the algorithm, then the hex text. *)
Definition rank (a : HashAlgorithm) : nat := match a with Md5 => 0 | Sha1 => 1 | Sha256 => 2 end.
Definition cmp (a b : Digest) : comparison :=
  ord_then (Nat.compare (rank (algorithm a)) (rank (algorithm b))) (str_cmp (hex a) (hex b)).

Class Hashers := {
  hasher : Type;
  new_hasher : HashAlgorithm -> hasher;
  update : hasher -> str -> hasher;
  finalize : hasher -> str;
  hex_encode : str -> str;
}.

Definition is_lower_hex (c : ascii) : bool := is_digit c || in_range 97 102 c.

(** The documented behaviour of the crates: feeding pieces is feeding their
    concatenation, a digest has the algorithm's size, and [hex::encode] writes
    two lowercase digits for a byte. *)
Class HasherLaws `{Hashers} : Prop := {
  update_app : forall a l k, update (update (new_hasher a) l) k = update (new_hasher a) (l ++ k);
  update_nil : forall a, update (new_hasher a) [] = new_hasher a;
  finalize_length : forall a l, 2 * length (finalize (update (new_hasher a) l)) = hex_len a;
  hex_encode_length : forall l, length (hex_encode l) = 2 * length l;
  hex_encode_lower : forall l, forallb is_lower_hex (hex_encode l) = true;
}.

Section Hash.
Context `{Hashers}.

(** [from_bytes] and [Digest::of_bytes]. *)
Definition of_bytes (a : HashAlgorithm) (bytes : str) : Digest :=
  {| algorithm := a; hex := hex_encode (finalize (update (new_hasher a) bytes)) |}.

(** What the calls of [Read::read] return, in order: the bytes read, none at the
    end, or an I/O error.  A reader that is asked beyond the list is at its end. *)
Definition reader (IoError : Type) := list (result IoError str).

(** The loop of [hash_reader]. *)
Fixpoint hash_loop {IoError} (h : hasher) (r : reader IoError) : result IoError hasher :=
  match r with
  | [] => Ok h
  | Err e :: _ => Err e
  | Ok buf :: r => if decide (buf = []) then Ok h else hash_loop (update h buf) r
  end.

Definition hash_reader {IoError} (a : HashAlgorithm) (r : reader IoError) : result IoError str :=
  h ← hash_loop (new_hasher a) r;
  Ok (hex_encode (finalize h)).

(** [Digest::of_reader]. *)
Definition of_reader {IoError} (a : HashAlgorithm) (r : reader IoError) : result IoError Digest :=
  (fun h => {| algorithm := a; hex := h |}) <$> hash_reader a r.

(** [Digest::of_file]: what opening the file gives, then its reader. *)
Definition of_file {IoError} (a : HashAlgorithm) (opened : result IoError (reader IoError))
    : result IoError Digest :=
  r ← opened; of_reader a r.
End Hash.

(** ** Canonical digests *)

Record digest_ok (d : Digest) : Prop := {
  digest_length : length (hex d) = hex_len (algorithm d);
  digest_lower : forallb is_lower_hex (hex d) = true;
}.

Lemma lower_hex_facts c :
  is_lower_hex c = true -> is_hexdigit c = true /\ lower_byte c = c /\ not_in_ws c = true.
Proof.
  intros Hc.
  assert (negb (is_lower_hex c) || (is_hexdigit c && bool_decide (lower_byte c = c) && not_in_ws c)
          = true) as H
    by by_bytes (fun c => negb (is_lower_hex c)
         || (is_hexdigit c && bool_decide (lower_byte c = c) && not_in_ws c)) c.
  rewrite Hc in H. cbn [negb orb] in H. by bool_simpl.
Qed.

Lemma lower_hexdigit c : is_hexdigit c = true -> is_lower_hex (lower_byte c) = true.
Proof.
  intros Hc. assert (negb (is_hexdigit c) || is_lower_hex (lower_byte c) = true) as H
    by by_bytes (fun c => negb (is_hexdigit c) || is_lower_hex (lower_byte c)) c.
  by rewrite Hc in H.
Qed.

Lemma to_lower_hex s : forallb is_hexdigit s = true -> forallb is_lower_hex (to_ascii_lowercase s) = true.
Proof.
  unfold to_ascii_lowercase. rewrite !forallb_Forall, Forall_fmap. intros H.
  eapply Forall_impl; [done|]. intros c. apply lower_hexdigit.
Qed.

Lemma lower_hex_id s : forallb is_lower_hex s = true ->
  forallb is_hexdigit s = true /\ to_ascii_lowercase s = s /\ ws_free s.
Proof.
  intros H. assert (Forall (fun c => is_hexdigit c = true /\ lower_byte c = c /\ not_in_ws c = true) s)
    as HF.
  { apply forallb_Forall in H. eapply Forall_impl; [done|]. intros c. apply lower_hex_facts. }
  split_and!.
  - apply forallb_Forall. eapply Forall_impl; [done|]. naive_solver.
  - unfold to_ascii_lowercase. clear H. induction HF as [|c s (_ & Hc & _) _ IH]; cbn; congruence.
  - destruct s as [|c s]; [apply ws_nil|]. split.
    + apply ws_start_char. apply Forall_cons in HF as [(_ & _ & Hc) _]. done.
    + destruct (exists_last (l:=c :: s)) as (a & x & E); [done|]. rewrite E in *.
      apply ws_end_char. apply Forall_app in HF as [_ HF]. apply Forall_cons in HF as [(_ & _ & Hc) _].
      done.
Qed.

(** The text [from_hex] reads: SHA-1 and MD5 may have space around it. *)
Definition read_text (a : HashAlgorithm) (h : str) : str :=
  if decide (a = Sha256) then h else trim h.

Lemma from_hex_eq a h : from_hex a h = from_str a (read_text a h).
Proof. by destruct a. Qed.

Lemma from_hex_Ok a h d :
  from_hex a h = Ok d <->
  length (read_text a h) = hex_len a /\ forallb is_hexdigit (read_text a h) = true /\
  d = {| algorithm := a; hex := to_ascii_lowercase (read_text a h) |}.
Proof.
  rewrite from_hex_eq. unfold from_str, normalize_hex.
  destruct (Nat.eqb_spec (length (read_text a h)) (hex_len a)); cbn; [|naive_solver].
  destruct (forallb is_hexdigit (read_text a h)); cbn; naive_solver.
Qed.

Lemma digest_reads d : digest_ok d -> from_hex (algorithm d) (hex d) = Ok d.
Proof.
  intros [Hl Hx]. apply lower_hex_id in Hx as (Hh & He & Hw). apply from_hex_Ok.
  assert (read_text (algorithm d) (hex d) = hex d) as ->.
  { unfold read_text. case_decide; [done|by apply trim_id]. }
  split_and!; [done..|]. rewrite He. by destruct d.
Qed.

Lemma from_hex_ok a h d : from_hex a h = Ok d -> digest_ok d /\ algorithm d = a.
Proof.
  intros (Hl & Hx & ->)%from_hex_Ok. split; [|done].
  split; cbn; [unfold to_ascii_lowercase; by rewrite length_map|by apply to_lower_hex].
Qed.

(** a digest that was read is canonical: it has its algorithm's length in
    lowercase hex, reads back from its own text (with the algorithm's name in a
    lock row too, except MD5, which only sidecars hold), and two texts give the
    same digest exactly when they differ in case, or in the space around a
    sidecar digest, alone. *)
Theorem digest_canonical a h d :
  from_hex a h = Ok d ->
  algorithm d = a /\ digest_ok d /\ from_hex a (hex d) = Ok d /\
  parse (as_str a) (hex d) = (if decide (a = Md5) then Err UnsupportedAlgorithm else Ok d) /\
  (forall h' d', from_hex a h' = Ok d' ->
     d = d' <-> eq_ignore_ascii_case (read_text a h) (read_text a h') = true).
Proof.
  intros H. pose proof (from_hex_ok _ _ _ H) as [Hd Ha]. pose proof (digest_reads d Hd) as Hr.
  rewrite Ha in Hr. split_and!; [done..| |].
  - unfold parse. assert (parse_algorithm (as_str a) = if decide (a = Md5) then None else Some a) as ->
      by (destruct a; by vm_compute). case_decide; [done|]. apply Hr.
  - intros h' d' (_ & _ & ->)%from_hex_Ok. apply from_hex_Ok in H as (_ & _ & ->).
    unfold eq_ignore_ascii_case. rewrite bool_decide_eq_true. split; [by intros [=]|by intros ->].
Qed.

Lemma digest_canonical_witness :
  exists d, from_hex Sha1 $"DA39A3EE5E6B4B0D3255BFEF95601890AFD80709 " = Ok d /\
    parse $"sha1" (hex d) = Ok d.
Proof.
  eexists. split; [by vm_compute|].
  apply (digest_canonical Sha1 $"DA39A3EE5E6B4B0D3255BFEF95601890AFD80709 "). by vm_compute.
Defined.

(** The bytes a reader yields before its end, if no read fails first. *)
Fixpoint contents {IoError} (r : reader IoError) : result IoError str :=
  match r with
  | [] => Ok []
  | Err e :: _ => Err e
  | Ok buf :: r => if decide (buf = []) then Ok [] else rest ← contents r; Ok (buf ++ rest)
  end.

Section Hashing.
Context `{HasherLaws}.

Lemma hash_loop_contents {IoError} a fed (r : reader IoError) :
  hash_loop (update (new_hasher a) fed) r
  = (fun rest => update (new_hasher a) (fed ++ rest)) <$> contents r.
Proof.
  revert fed. induction r as [|[buf|e] r IH]; intros fed; cbn.
  - by rewrite app_nil_r.
  - case_decide; cbn; [by rewrite app_nil_r|]. rewrite update_app, IH.
    destruct (contents r); cbn; [by rewrite app_assoc|done].
  - done.
Qed.

(** hashing a stream, in whatever pieces it arrives, is hashing its bytes:
    [Digest::of_reader] fails exactly when a read before the end fails, with that
    error, and otherwise gives the digest of the contents, which reads back from
    its text. *)
Theorem digest_of_reader {IoError} a (r : reader IoError) :
  of_reader a r = of_bytes a <$> contents r /\
  (forall bytes, digest_ok (of_bytes a bytes) /\ from_hex a (hex (of_bytes a bytes)) = Ok (of_bytes a bytes)).
Proof.
  split.
  - unfold of_reader, hash_reader. rewrite <-(update_nil a), (hash_loop_contents a []).
    by destruct (contents r).
  - intros bytes. assert (digest_ok (of_bytes a bytes)) as Hd.
    { split; cbn; [|apply hex_encode_lower]. by rewrite hex_encode_length, finalize_length. }
    split; [done|]. by apply (digest_reads (of_bytes a bytes)).
Qed.
End Hashing.

(** Hash functions that satisfy the laws: the first bytes of the input, padded. *)
Definition nibble (n : N) : ascii := ascii_of_N (if (n <? 10)%N then 48 + n else 87 + n).
Definition byte_hex (c : ascii) : str := [nibble (code c / 16); nibble (code c mod 16)].

Definition prefix_hashers : Hashers := {|
  hasher := HashAlgorithm * str;
  new_hasher a := (a, []);
  update h l := (h.1, h.2 ++ l);
  finalize h := let k := hex_len h.1 / 2 in take k (h.2 ++ repeat zero k);
  hex_encode l := concat (map byte_hex l);
|}.

Lemma byte_hex_lower c : forallb is_lower_hex (byte_hex c) = true.
Proof. by_bytes (fun c => forallb is_lower_hex (byte_hex c)) c. Qed.

#[local] Instance prefix_hasher_laws : @HasherLaws prefix_hashers.
Proof.
  split; cbn.
  - done.
  - done.
  - intros a l. rewrite length_take, length_app, repeat_length, Nat.min_l by lia. by destruct a.
  - intros l. induction l as [|c l IH]; cbn in *; lia.
  - intros l. induction l as [|c l IH]; [done|].
    cbn [map concat]. by rewrite forallb_app, byte_hex_lower.
Qed.

#[local] Existing Instance prefix_hashers.

Lemma digest_of_reader_witness :
  of_reader Md5 [Ok $"ab"; Ok $"c"; Ok []; Err tt] = Ok (of_bytes Md5 $"abc").
Proof. etransitivity; [apply (digest_of_reader Md5)|by vm_compute]. Defined.
