(* ===== verification/Par.v ===== *)
(** * Parallel map ([rv-maven-types/src/par.rs])

    The work-sharing loop of [par_map] as a step relation: the shared counter, and
    what each worker has done.  [fetch_add] is one atomic step; the steps of the
    workers interleave freely. *)

From stdpp Require Import base list gmap.
From S2P Require Import Prelude Str.

#[local] Set Warnings "-clear-no-such-hyp".

Definition MAX_PAR_MAP_THREADS : nat := 8.

Section ParMap.
Context {T R : Type} (items : list T) (f : T -> R).

(** A worker between two iterations, with an index it has claimed, or returned. *)
Inductive worker :=
  | Looping (done : list (nat * R))
  | Claimed (index : nat) (done : list (nat * R))
  | Returned (done : list (nat * R)).

Record state := { next : nat; workers : list worker }.

(** One worker's next step and the counter after it; a worker that has returned
    takes none. *)
Definition work_step (next : nat) (w : worker) : option (nat * worker) :=
  match w with
  | Looping done => Some (S next, Claimed next done)
  | Claimed index done =>
    match items !! index with
    | None => Some (next, Returned done)
    | Some item => Some (next, Looping (done ++ [(index, f item)]))
    end
  | Returned _ => None
  end.

Definition step_worker (i : nat) (s : state) : option state :=
  w ← workers s !! i;
  '(next', w') ← work_step (next s) w;
  Some {| next := next'; workers := <[i := w']> (workers s) |}.

Inductive step : state -> state -> Prop :=
  | step_by i s s' : step_worker i s = Some s' -> step s s'.

(** [n] workers, the caller's loop included, about to start. *)
Definition start (n : nat) : state := {| next := 0; workers := replicate n (Looping []) |}.

Definition worker_done (w : worker) : list (nat * R) :=
  match w with Looping done | Claimed _ done | Returned done => done end.

Definition returned (w : worker) : bool := match w with Returned _ => true | _ => false end.

(** [place], and the results once every worker has been joined. *)
Definition place (out : list (option R)) (done : list (nat * R)) : list (option R) :=
  foldl (fun out p => <[p.1 := Some p.2]> out) out done.

Definition joined (s : state) : list (option R) :=
  foldl place (replicate (length items) None) (map worker_done (workers s)).

(** [expect] of every item; [None] stands for the panic. *)
Definition collect (out : list (option R)) : option (list R) := mapM id out.

(** [par_map], as a relation: the sequential case, or any run of at least two
    and at most the chosen number of workers that ends with all returned. *)
Inductive par_map (parallelism : nat) : option (list R) -> Prop :=
  | par_map_seq :
      Nat.min (Nat.min parallelism MAX_PAR_MAP_THREADS) (length items) <= 1 ->
      par_map parallelism (Some (map f items))
  | par_map_run n s :
      1 < Nat.min (Nat.min parallelism MAX_PAR_MAP_THREADS) (length items) ->
      1 <= n <= Nat.min (Nat.min parallelism MAX_PAR_MAP_THREADS) (length items) ->
      rtc step (start n) s -> forallb returned (workers s) = true ->
      par_map parallelism (collect (joined s)).
End ParMap.

Arguments Looping {R} done.
Arguments Claimed {R} index done.
Arguments Returned {R} done.
Arguments next {R}.
Arguments workers {R}.

Section Facts.
Context {T R : Type} (items : list T) (f : T -> R).

(** The indices below the length that a worker holds, done or claimed. *)
Definition held (w : worker (R:=R)) : list nat :=
  match w with
  | Looping done | Returned done => map fst done
  | Claimed index done =>
    map fst done ++ (if decide (index < length items) then [index] else [])
  end.

Definition done_ok (p : nat * R) : Prop := exists x, items !! p.1 = Some x /\ p.2 = f x.

Definition worker_ok (next : nat) (w : worker (R:=R)) : Prop :=
  Forall done_ok (worker_done w) /\
  match w with
  | Looping _ => True
  | Claimed index _ => index < next
  | Returned _ => length items <= next
  end.

(** The counter and the workers agree: what they hold is, in some order, every
    index handed out. *)
Record inv (s : state (R:=R)) : Prop := {
  inv_held : concat (map held (workers s)) ≡ₚ seq 0 (Nat.min (next s) (length items));
  inv_workers : Forall (worker_ok (next s)) (workers s);
}.

Lemma workers_insert (g : worker (R:=R) -> list nat) ws i w w' :
  ws !! i = Some w ->
  exists rest, concat (map g ws) ≡ₚ g w ++ rest /\ concat (map g (<[i := w']> ws)) ≡ₚ g w' ++ rest.
Proof.
  intros Hi. exists (concat (map g (take i ws)) ++ concat (map g (drop (S i) ws))). split.
  - rewrite <-(take_drop_middle ws i w Hi) at 1. rewrite map_app, concat_app. cbn.
    rewrite !app_assoc. f_equiv. apply Permutation_app_comm.
  - rewrite insert_take_drop by (by eapply lookup_lt_Some). rewrite map_app, concat_app. cbn.
    rewrite !app_assoc. f_equiv. apply Permutation_app_comm.
Qed.

Lemma worker_ok_le n m w : n <= m -> worker_ok n w -> worker_ok m w.
Proof. intros Hnm [Hd Hw]. split; [done|]. destruct w; [done|lia|lia]. Qed.

Lemma seq_next n k :
  seq 0 (Nat.min (S n) k) ≡ₚ (if decide (n < k) then [n] else []) ++ seq 0 (Nat.min n k).
Proof.
  case_decide.
  - replace (Nat.min (S n) k) with (S n) by lia. replace (Nat.min n k) with n by lia.
    rewrite seq_S. apply Permutation_app_comm.
  - by replace (Nat.min (S n) k) with (Nat.min n k) by lia.
Qed.

(** What one worker's step does to the counter and to what the worker holds. *)
Lemma work_step_inv n w n' w' :
  work_step items f n w = Some (n', w') -> worker_ok n w ->
  n <= n' /\ worker_ok n' w' /\
  held w' ++ seq 0 (Nat.min n (length items)) ≡ₚ held w ++ seq 0 (Nat.min n' (length items)).
Proof.
  destruct w as [dn|index dn|dn]; cbn [work_step]; [| |done].
  - intros [= <- <-] [Hd _]. split; [lia|]. split; [split; [done|lia]|].
    cbn [held]. by rewrite seq_next, <-app_assoc.
  - destruct (items !! index) as [x|] eqn:Ex; intros [= <- <-] [Hd Hi]; cbn [held worker_ok].
    + apply lookup_lt_Some in Ex as Hlt. split; [done|]. split.
      * split; [|done]. cbn [worker_done] in *. apply Forall_app. split; [done|].
        apply Forall_singleton. by exists x.
      * rewrite decide_True by done. by rewrite map_app.
    + apply lookup_ge_None in Ex. split; [done|]. split; [split; [done|lia]|].
      rewrite decide_False by lia. by rewrite app_nil_r.
Qed.

Lemma step_inv s s' : step items f s s' -> inv s -> inv s'.
Proof.
  intros [i s0 s1 E] [Hh Hw]. unfold step_worker in E.
  destruct (workers s0 !! i) as [w|] eqn:Ei; cbn [mbind option_bind] in E; [|done].
  destruct (work_step items f (next s0) w) as [[n' w']|] eqn:Es; cbn [mbind option_bind] in E; [|done].
  injection E as <-. pose proof (proj1 (Forall_lookup _ _) Hw i w Ei) as Hwi.
  destruct (work_step_inv _ _ _ _ Es Hwi) as (Hn & Hw' & Hheld).
  destruct (workers_insert held (workers s0) i w w' Ei) as (rest & H1 & H2).
  split; cbn [workers next].
  - rewrite H2. rewrite H1 in Hh. apply (Permutation_app_inv_l (held w)).
    rewrite <-Hheld, <-Hh, !app_assoc. f_equiv. apply Permutation_app_comm.
  - apply Forall_insert; [|done]. eapply Forall_impl; [done|]. intros x. by apply worker_ok_le.
Qed.

Lemma start_inv n : inv (start n).
Proof.
  split; cbn.
  - by induction n.
  - apply Forall_replicate. by split; [constructor|].
Qed.

Lemma reach_inv n s : rtc (step items f) (start n) s -> inv s.
Proof.
  intros H. remember (start n) as s0 eqn:E. assert (inv s0) as Hs by (subst; apply start_inv).
  clear E. induction H as [|s1 s2 s3 H _ IH]; [done|]. apply IH. by eapply step_inv.
Qed.
End Facts.

Section Results.
Context {T R : Type} (items : list T) (f : T -> R).

Lemma place_app (out : list (option R)) d d' : place (place out d) d' = place out (d ++ d').
Proof. unfold place. by rewrite foldl_app. Qed.

Lemma place_concat (out : list (option R)) ds : foldl place out ds = place out (concat ds).
Proof. revert out. induction ds as [|d ds IH]; intros out; cbn; [done|]. by rewrite IH, place_app. Qed.

Lemma place_length (out : list (option R)) d : length (place out d) = length out.
Proof.
  revert out. induction d as [|p d IH]; intros out; cbn; [done|].
  fold (place (<[p.1:=Some p.2]> out) d). by rewrite IH, length_insert.
Qed.

Lemma place_lookup out d j x :
  Forall (done_ok items f) d -> length out = length items -> items !! j = Some x ->
  place out d !! j = if decide (j ∈ map fst d) then Some (Some (f x)) else out !! j.
Proof.
  intros Hd Hlen Hx. revert out Hlen. induction Hd as [|[i r] d (y & Hy & Er) Hd IH];
    intros out Hlen; [done|].
  change (place out ((i, r) :: d)) with (place (<[i:=Some r]> out) d).
  cbn [map fst]. cbn in Hy, Er. rewrite IH by by rewrite length_insert.
  apply lookup_lt_Some in Hy as Hi. destruct (decide (i = j)) as [->|Hij].
  - rewrite list_lookup_insert_eq by (by rewrite Hlen).
    rewrite (decide_True (P:=j ∈ j :: _)) by by left. case_decide; congruence.
  - rewrite list_lookup_insert_ne by done. repeat case_decide; set_solver.
Qed.

Lemma collect_all (out : list (option R)) (l : list R) :
  out = map Some l -> collect out = Some l.
Proof. intros ->. unfold collect. induction l as [|x l IH]; [done|]. cbn. by rewrite IH. Qed.

Lemma map_fst_concat (ws : list (worker (R:=R))) :
  forallb returned ws = true -> map fst (concat (map worker_done ws)) = concat (map (held items) ws).
Proof.
  induction ws as [|w ws IH]; cbn; [done|]. intros H. bool_simpl.
  rewrite map_app, IH by done. by destruct w.
Qed.

Lemma run_done n s :
  1 <= n -> rtc (step items f) (start n) s -> forallb returned (workers s) = true ->
  map fst (concat (map worker_done (workers s))) ≡ₚ seq 0 (length items) /\
  Forall (done_ok items f) (concat (map worker_done (workers s))).
Proof.
  intros Hn Hrun Hret. pose proof (reach_inv items f n s Hrun) as [Hh Hw].
  assert (length (workers s) = n) as Hlen.
  { clear -Hrun. remember (start n) as s0 eqn:E.
    assert (length (workers s0) = n) as <- by (subst; cbn; by rewrite length_replicate).
    clear E. induction Hrun as [|s1 s2 s3 [i a b E] _ IH]; [done|]. rewrite IH.
    unfold step_worker in E. destruct (workers a !! i); cbn in E; [|done].
    destruct work_step as [[]|]; cbn in E; [|done]. injection E as <-. cbn.
    by rewrite length_insert. }
  split.
  - rewrite map_fst_concat by done. rewrite Hh.
    destruct (workers s) as [|w ws]; [cbn in Hlen; lia|].
    apply Forall_cons in Hw as [[_ Hw] _]. cbn in Hret. bool_simpl. destruct w; try done.
    by rewrite Nat.min_r.
  - apply Forall_concat, Forall_fmap. eapply Forall_impl; [done|]. by intros w [].
Qed.

Lemma joined_all n s :
  1 <= n -> rtc (step items f) (start n) s -> forallb returned (workers s) = true ->
  joined items s = map Some (map f items).
Proof.
  intros Hn Hrun Hret. destruct (run_done n s Hn Hrun Hret) as [Hp Hd].
  unfold joined. rewrite place_concat. apply list_eq. intros j.
  rewrite map_map, list_lookup_fmap. destruct (items !! j) as [x|] eqn:Ex; cbn.
  - erewrite place_lookup by (done || by rewrite length_replicate).
    rewrite decide_True; [done|]. rewrite Hp. apply elem_of_seq.
    apply lookup_lt_Some in Ex. lia.
  - apply lookup_ge_None. rewrite place_length, length_replicate. by apply lookup_ge_None.
Qed.

(** C37: however the workers' steps interleave and however many of them could be
    started, [par_map] returns [f] of each item in order, and never panics. *)
Theorem par_map_is_map parallelism out :
  par_map items f parallelism out -> out = Some (map f items).
Proof.
  intros [H|n s H [Hn _] Hrun Hret]; [done|]. apply collect_all. by eapply joined_all.
Qed.

(** Each item is handed to [f] exactly once: the workers' results, taken
    together, have every index once. *)
Lemma par_map_once n s :
  1 <= n -> rtc (step items f) (start n) s -> forallb returned (workers s) = true ->
  map fst (concat (map worker_done (workers s))) ≡ₚ seq 0 (length items).
Proof. intros Hn Hrun Hret. by apply (run_done n). Qed.

(** The work left, which every step lowers. *)
Definition weight (w : worker (R:=R)) : nat :=
  match w with
  | Looping _ => 2
  | Claimed index _ => if decide (index < length items) then 3 else 1
  | Returned _ => 0
  end.
Definition measure (s : state (R:=R)) : nat :=
  2 * (length items - next s) + sum_list_with weight (workers s).

Lemma sum_insert (g : worker (R:=R) -> nat) ws i w w' :
  ws !! i = Some w -> sum_list_with g (<[i := w']> ws) + g w = sum_list_with g ws + g w'.
Proof.
  revert i. induction ws as [|v ws IH]; intros [|i] E; csimpl in *; [done..| |].
  - injection E as ->. lia.
  - specialize (IH i E). lia.
Qed.

Lemma step_measure s s' : step items f s s' -> measure s' < measure s.
Proof.
  intros [i s0 s1 E]. unfold step_worker in E.
  destruct (workers s0 !! i) as [w|] eqn:Ei; cbn [mbind option_bind] in E; [|done].
  destruct (work_step items f (next s0) w) as [[n' w']|] eqn:Es; cbn [mbind option_bind] in E; [|done].
  injection E as <-. unfold measure. cbn [next workers].
  pose proof (sum_insert weight (workers s0) i w w' Ei) as Hsum.
  enough (2 * (length items - n') + weight w' < 2 * (length items - next s0) + weight w) by lia.
  destruct w as [dn|index dn|dn]; cbn [work_step] in Es; [| |done].
  - injection Es as <- <-. cbn [weight]. case_decide; lia.
  - destruct (items !! index) eqn:Ex; injection Es as <- <-; cbn [weight].
    + apply lookup_lt_Some in Ex. rewrite decide_True by done. lia.
    + apply lookup_ge_None in Ex. rewrite decide_False by lia. lia.
Qed.

Lemma step_progress s : (exists s', step items f s s') \/ forallb returned (workers s) = true.
Proof.
  destruct (forallb returned (workers s)) eqn:E; [by right|left].
  destruct (decide (Forall (fun w => returned w = true) (workers s))) as [HF|HF].
  { apply forallb_Forall in HF. congruence. }
  apply not_Forall_Exists in HF; [|apply _]. apply Exists_exists in HF as (w & Hin & Hw).
  apply list_elem_of_lookup in Hin as [i Hi].
  assert (exists p, work_step items f (next s) w = Some p) as [[n' w'] Hp].
  { destruct w as [dn|index dn|dn]; cbn in *; [by eauto| |done].
    destruct (items !! index); by eauto. }
  eexists. apply (step_by _ _ i). unfold step_worker. rewrite Hi. cbn [mbind option_bind].
  rewrite Hp. done.
Qed.

(** [par_map]'s workers return: a run of [n] workers takes at most two steps
    for each item and two for each worker, and as long as a worker has not
    returned some step is possible. *)
Theorem par_map_terminates n k s :
  nsteps (step items f) k (start n) s ->
  k <= 2 * length items + 2 * n /\
  ((exists s', step items f s s') \/ forallb returned (workers s) = true).
Proof.
  intros H. split; [|apply step_progress].
  assert (forall s0, nsteps (step items f) k s0 s -> k <= measure s0) as Hk.
  { clear H. induction k as [|k IH]; intros s0 H; [lia|].
    inversion H as [|? ? s1 ? Hs Hr]; subst. apply step_measure in Hs. apply IH in Hr. lia. }
  apply Hk in H. unfold measure in H. cbn in H.
  assert (sum_list_with weight (replicate n (Looping (R:=R) [])) = 2 * n) as Hw.
  { clear. induction n as [|n IH]; cbn in *; lia. }
  lia.
Qed.
End Results.

(** ** Witnesses: two workers share three items *)

(** A run given by which worker moves next. *)
Fixpoint run {T R} (items : list T) (f : T -> R) (schedule : list nat) (s : state (R:=R))
    : state (R:=R) :=
  match schedule with
  | [] => s
  | i :: schedule => run items f schedule (default s (step_worker items f i s))
  end.

Lemma run_steps {T R} (items : list T) (f : T -> R) schedule s :
  rtc (step items f) s (run items f schedule s).
Proof.
  revert s. induction schedule as [|i l IH]; intros s; cbn; [done|].
  destruct (step_worker items f i s) as [s'|] eqn:E; cbn; [|apply IH].
  eapply rtc_l; [by apply (step_by _ _ i)|apply IH].
Qed.

Definition demo : state := run [3; 5; 7] S [0; 1; 1; 0; 1; 1; 1; 0; 1; 0; 1; 0; 0; 1] (start 2).

Lemma par_map_is_map_witness :
  workers demo = [Returned [(0, 4)]; Returned [(1, 6); (2, 8)]] /\
  collect (joined [3; 5; 7] demo) = Some [4; 6; 8].
Proof.
  split; [by vm_compute|]. apply (par_map_is_map [3; 5; 7] S 4).
  apply (par_map_run _ _ _ 2); [cbn; lia|cbn; lia|apply run_steps|by vm_compute].
Defined.

Lemma par_map_once_witness :
  map fst (concat (map worker_done (workers demo))) ≡ₚ [0; 1; 2].
Proof. apply (par_map_once [3; 5; 7] S 2); [lia|apply run_steps|by vm_compute]. Defined.

Lemma par_map_terminates_witness :
  0 <= 2 * 3 + 2 * 2 /\
  ((exists s', step [3; 5; 7] S (start 2) s') \/ forallb returned (workers (start (R:=nat) 2)) = true).
Proof. apply (par_map_terminates [3; 5; 7] S 2 0). constructor. Defined.
