(* ===== verification/Dependency.v ===== *)
(** * Dependencies ([rv-maven-model/src/scope.rs], [dependency.rs])

    Scopes, dependency declarations, the artifact handlers of a type, the keys of
    dependency management and the validation of a declaration.  Texts arrive as
    written in the POM; reading the XML is not part of the model.  A refusal is
    kept as the data its message is formatted from. *)

From Stdlib Require Import Ascii String.
From stdpp Require Import base list strings gmap.
From S2P Require Import Prelude Str Component.

#[local] Set Warnings "-clear-no-such-hyp".

Inductive Scope := Compile | Runtime | Test | Provided | System | Import.

#[export] Instance scope_eq_dec : EqDecision Scope.
Proof. solve_decision. Defined.

(** The strum derive: lowercase names, [Display] and [FromStr]. *)
Definition scope_str (s : Scope) : str :=
  match s with
  | Compile => $"compile" | Runtime => $"runtime" | Test => $"test"
  | Provided => $"provided" | System => $"system" | Import => $"import"
  end.

Definition all_scopes : list Scope := [Compile; Runtime; Test; Provided; System; Import].

Definition scope_from_str (s : str) : option Scope :=
  List.find (fun scope => bool_decide (scope_str scope = s)) all_scopes.

(** [Scope::parse]. *)
Definition parse_scope (s : str) : Scope := default Compile (scope_from_str (trim s)).

Record Exclusion := { ex_group_id : str; ex_artifact_id : str }.

#[export] Instance exclusion_eq_dec : EqDecision Exclusion.
Proof. solve_decision. Defined.

Record Dependency := {
  group_id : str;
  artifact_id : str;
  version : option str;
  type_ : option str;
  classifier : option str;
  scope : option str;
  optional : option str;
  exclusions : list Exclusion;
  system_path : option str;
}.

#[export] Instance dependency_eq_dec : EqDecision Dependency.
Proof. solve_decision. Defined.

Definition effective_scope (d : Dependency) : Scope :=
  match trim <$> scope d with
  | None | Some [] => Compile
  | Some s => parse_scope s
  end.

Definition declares_system_scope (d : Dependency) : bool :=
  bool_decide (trim <$> scope d = Some $"system").

Definition is_import_scope (d : Dependency) : bool :=
  bool_decide (trim <$> scope d = Some $"import").

(** The types whose artifact handler gives the extension [jar]. *)
Definition jar_types : list str :=
  [$"test-jar"; $"maven-plugin"; $"ejb"; $"ejb-client"; $"java-source"; $"javadoc"].

Definition effective_type (d : Dependency) : str :=
  match type_ d with
  | Some t =>
    if decide (t ∈ jar_types) then $"jar"
    else if decide (t = []) then $"jar" else t
  | None => $"jar"
  end.

(** The classifier an artifact handler implies. *)
Definition handler_classifier (t : str) : option str :=
  if decide (t = $"test-jar") then Some $"tests"
  else if decide (t = $"ejb-client") then Some $"client"
  else if decide (t = $"java-source") then Some $"sources"
  else if decide (t = $"javadoc") then Some $"javadoc"
  else None.

Definition effective_classifier (d : Dependency) : option str :=
  match opt_filter (fun c => negb (bool_decide (c = []))) (classifier d) with
  | Some c => Some c
  | None => type_ d ≫= handler_classifier
  end.

Abbreviation ManagementKey := (str * str * str * option str)%type.

Definition management_key (d : Dependency) : ManagementKey :=
  (group_id d, artifact_id d, default $"jar" (type_ d),
   opt_filter (fun c => negb (bool_decide (c = []))) (classifier d)).

Definition includes_dependencies (d : Dependency) : bool :=
  is_some_and (fun t => bool_decide (t ∈ [$"war"; $"ear"; $"rar"])) (type_ d).

Definition effective_optional (d : Dependency) : bool :=
  match optional d with Some v => eq_ignore_ascii_case v $"true" | None => false end.

Definition is_followed_transitively (d : Dependency) : bool :=
  negb (effective_optional d)
  && negb (bool_decide (effective_scope d = Test \/ effective_scope d = Provided)).

(** [PomError], as the parts of its message. *)
Inductive Problem := IsMissing | NotAnId (value : str) | SystemPathOutsideSystem.
Inductive SystemProblem := EmptySystemPath | RelativeSystemPath (path : str).
Inductive PomError :=
  | InvalidModel (managed : bool) (field : str) (key : ManagementKey) (problem : Problem)
  | InvalidSystemPath (group artifact : str) (problem : SystemProblem).

Definition invalid (d : Dependency) (managed : bool) (field : str) (problem : Problem) : PomError :=
  InvalidModel managed field (management_key d) problem.

Definition missing (d : Dependency) (managed : bool) (field : str) : PomError :=
  invalid d managed field IsMissing.

(** The [for] loop of [validate_coordinates] over its three fields. *)
Fixpoint check_fields (d : Dependency) (managed : bool) (fields : list (str * str))
    : result PomError unit :=
  match fields with
  | [] => Ok tt
  | (field, value) :: fields =>
    if bool_decide (value = []) then Err (missing d managed field)
    else if negb (bool_decide (field = $"type")) && negb (is_maven_id_text value)
    then Err (invalid d managed field (NotAnId value))
    else check_fields d managed fields
  end.

Definition validate_coordinates (d : Dependency) (managed : bool) : result PomError unit :=
  let type_ := if managed then $"jar" else default $"jar" (type_ d) in
  _ ← check_fields d managed
        [($"artifactId", artifact_id d); ($"groupId", group_id d); ($"type", type_)];
  if negb (declares_system_scope d)
     && is_some_and (fun p => negb (bool_decide (p = []))) (system_path d)
  then Err (invalid d managed $"systemPath" SystemPathOutsideSystem)
  else Ok tt.

(** [is_absolute_path]; [unix] is [cfg!(unix)]. *)
Definition is_absolute_path (unix : bool) (path : str) : bool :=
  (unix && starts_with $"/" path)
  || match path with
     | a :: b :: c :: _ =>
       is_alpha a && bool_decide (b = ":"%char)
       && (bool_decide (c = "\"%char) || bool_decide (c = "/"%char))
     | _ => false
     end
  || match path with
     | a :: b :: _ =>
       (bool_decide (a = "\"%char) && bool_decide (b = "\"%char))
       || (bool_decide (a = "/"%char) && bool_decide (b = "/"%char))
     | _ => false
     end.

(** [str::split] of a text: the pieces between its occurrences. *)
Fixpoint split_text_loop (fuel : nat) (p s acc : str) : list str :=
  match fuel with
  | O => [acc ++ s]
  | S fuel =>
    match strip_prefix p s with
    | Some rest => acc :: split_text_loop fuel p rest []
    | None =>
      match s with
      | [] => [acc]
      | c :: s => split_text_loop fuel p s (acc ++ [c])
      end
    end
  end.
Definition split_text (p s : str) : list str := split_text_loop (S (length s)) p s [].

(** The test for a path that keeps only JDK, user or environment values. *)
Definition host_prefixes : list str := [$"java."; $"user."; $"env."].
Definition keeps_host_values (path : str) : bool :=
  contains $"${" path
  && forallb (fun rest =>
       is_some_and (fun '(name, _) => existsb (fun p => starts_with p name) host_prefixes)
         (split_once "}"%char rest))
       (drop 1 (split_text $"${" path)).

Definition validate_system_scope (unix : bool) (d : Dependency) : result PomError unit :=
  if negb (declares_system_scope d) then Ok tt
  else
    match opt_filter (fun s => negb (bool_decide (s = []))) (trim <$> system_path d) with
    | None => Err (InvalidSystemPath (group_id d) (artifact_id d) EmptySystemPath)
    | Some path =>
      if keeps_host_values path then Ok tt
      else if negb (is_absolute_path unix path)
      then Err (InvalidSystemPath (group_id d) (artifact_id d) (RelativeSystemPath path))
      else Ok tt
    end.

(** ** What a valid declaration is *)

Definition id_ok (v : str) : Prop := v <> [] /\ is_maven_id_text v = true.

Lemma check_fields_Ok d managed fields :
  check_fields d managed fields = Ok tt <->
  Forall (fun '(field, value) => value <> [] /\
    (field <> $"type" -> is_maven_id_text value = true)) fields.
Proof.
  induction fields as [|[field value] fields IH]; cbn [check_fields]; [by split|].
  rewrite Forall_cons, <-IH. destruct (bool_decide_reflect (value = [])); [naive_solver|].
  destruct (bool_decide_reflect (field = $"type")), (is_maven_id_text value); cbn [negb andb];
    naive_solver.
Qed.

(** C39: [validate_coordinates] accepts a declaration exactly when its group and
    artifact are ids, a type it declares outside management is not empty, and
    only a system dependency has a system path. *)
Theorem validate_coordinates_spec d managed :
  validate_coordinates d managed = Ok tt <->
  id_ok (artifact_id d) /\ id_ok (group_id d) /\
  (managed = false -> type_ d <> Some []) /\
  (forall p, system_path d = Some p -> p <> [] -> trim <$> scope d = Some $"system").
Proof.
  unfold validate_coordinates, declares_system_scope. set (ty := if managed then _ else _).
  assert (ty <> [] <-> (managed = false -> type_ d <> Some [])) as Hty.
  { subst ty. destruct managed; [naive_solver|]. destruct (type_ d); naive_solver. }
  destruct (check_fields d managed _) as [[]|e] eqn:E.
  - apply check_fields_Ok in E. rewrite !Forall_cons in E. destruct E as (E1 & E2 & E3 & _).
    cbn [mbind result_bind]. unfold id_ok.
    destruct (bool_decide_reflect (trim <$> scope d = Some $"system")); cbn [negb andb];
      [naive_solver|]. destruct (system_path d) as [[|c p]|]; cbn; naive_solver.
  - cbn [mbind result_bind]. split; [done|]. intros (H1 & H2 & H3 & _). exfalso.
    assert (check_fields d managed [($"artifactId", artifact_id d); ($"groupId", group_id d);
      ($"type", ty)] = Ok tt) as E'; [|congruence].
    apply check_fields_Ok. rewrite !Forall_cons, Forall_nil. unfold id_ok in *. naive_solver.
Qed.

Lemma parse_scope_str s : parse_scope (scope_str s) = s.
Proof. by destruct s; vm_compute. Qed.

(** The management key of a declaration refines the file it names: two
    declarations with one key have the same file extension and classifier, which
    are never empty texts, and the scope read from a scope's name is that scope. *)
Lemma management_key_refines_file d e :
  management_key d = management_key e ->
  effective_type d = effective_type e /\ effective_classifier d = effective_classifier e /\
  effective_type d <> [] /\ effective_classifier d <> Some [] /\
  parse_scope (scope_str (effective_scope d)) = effective_scope d.
Proof.
  unfold management_key, effective_type, effective_classifier. intros E. injection E as _ _ Et Ec.
  rewrite Ec. split_and!.
  - destruct (type_ d), (type_ e); cbn in Et; by subst.
  - destruct (opt_filter _ (classifier e)); [done|].
    destruct (type_ d), (type_ e); cbn in Et; by subst.
  - destruct (type_ d) as [t|]; [|done]. by repeat case_decide.
  - destruct (classifier e) as [[|c k]|]; cbn; [|done|].
    all: destruct (type_ d) as [t|]; cbn; [|done]; unfold handler_classifier;
      by repeat case_decide.
  - apply parse_scope_str.
Qed.

Definition plain_dep (g a : str) : Dependency :=
  {| group_id := g; artifact_id := a; version := None; type_ := None; classifier := None;
     scope := None; optional := None; exclusions := []; system_path := None |}.

Lemma management_key_refines_file_witness :
  let d := plain_dep $"g" $"a" in
  effective_type d = $"jar" /\ effective_classifier d <> Some [].
Proof.
  split; [by vm_compute|].
  apply (management_key_refines_file (plain_dep $"g" $"a") (plain_dep $"g" $"a")). done.
Defined.

(** The converse fails: a [test-jar] and the classifier [tests] name one file and
    keep two keys, as the code's comment on the key says. *)
Example one_file_two_keys :
  let d := plain_dep $"g" $"a" in
  let t := {| group_id := $"g"; artifact_id := $"a"; version := None; type_ := Some $"test-jar";
     classifier := None; scope := None; optional := None; exclusions := []; system_path := None |} in
  let c := {| group_id := $"g"; artifact_id := $"a"; version := None; type_ := None;
     classifier := Some $"tests"; scope := None; optional := None; exclusions := [];
     system_path := None |} in
  (effective_type t, effective_classifier t) = (effective_type c, effective_classifier c) /\
  management_key t <> management_key c.
Proof. by vm_compute. Qed.

(** A system dependency passes [validate_system_scope] exactly with a path that
    is absolute or keeps only host values. *)
Lemma validate_system_scope_Ok unix d :
  validate_system_scope unix d = Ok tt <->
  (trim <$> scope d = Some $"system" ->
   exists path, trim <$> system_path d = Some path /\ path <> [] /\
     (keeps_host_values path = true \/ is_absolute_path unix path = true)).
Proof.
  unfold validate_system_scope, declares_system_scope.
  destruct (bool_decide_reflect (trim <$> scope d = Some $"system")) as [Hs|]; cbn [negb];
    [|naive_solver].
  destruct (trim <$> system_path d) as [[|c p]|] eqn:Ep; cbn [opt_filter].
  - rewrite bool_decide_eq_true_2 by done. cbn [negb]. naive_solver.
  - rewrite bool_decide_eq_false_2 by done. cbn [negb].
    destruct (keeps_host_values (c :: p)) eqn:Ek, (is_absolute_path unix (c :: p)) eqn:Ea;
      cbn [negb]; split; try done; try (intros _ _; eexists; by eauto).
    intros H. destruct (H Hs) as (q & [= <-] & _ & [?|?]); congruence.
  - naive_solver.
Qed.
