(* ===== verification/DepManagement.v ===== *)
(** * Dependency management in the model ([rv-maven-model/src/project/dep_management.rs])

    Filling a declaration from a managed entry, and the index of managed entries,
    which merges entries whose keys collide in a side vector the slots point
    into.  The index is shown to implement the search through the entries. *)

From Stdlib Require Import Ascii String.
From stdpp Require Import base list strings gmap.
From S2P Require Import Prelude Str Dependency.

#[local] Set Warnings "-clear-no-such-hyp".

(** [if a.is_none() { a = b }]. *)
Definition fill {A} (a b : option A) : option A := match a with None => b | Some _ => a end.

(** [apply_managed_dependency]. *)
Definition apply_managed_dependency (dep managed : Dependency) : Dependency := {|
  group_id := group_id dep;
  artifact_id := artifact_id dep;
  version := fill (version dep) (version managed);
  scope := fill (scope dep) (scope managed);
  type_ := fill (type_ dep) (type_ managed);
  classifier := fill (classifier dep) (classifier managed);
  optional := optional dep;
  system_path := fill (system_path dep) (system_path managed);
  exclusions := match exclusions dep with [] => exclusions managed | _ => exclusions dep end;
|}.

Inductive Slot := Entry (d : Dependency) | Merged (at_ : nat).

Record ManagedIndex := { index : gmap ManagementKey Slot; merged : list Dependency }.

(** One iteration of [build_managed_dep_index]; [None] is the panic of an index
    out of range. *)
Definition index_step (ix : ManagedIndex) (dep : Dependency) : option ManagedIndex :=
  let key := management_key dep in
  match index ix !! key with
  | None => Some {| index := <[key := Entry dep]> (index ix); merged := merged ix |}
  | Some slot =>
    let '(at_, index', merged') :=
      match slot with
      | Merged at_ => (at_, index ix, merged ix)
      | Entry first =>
        let merged' := merged ix ++ [first] in
        (length merged' - 1, <[key := Merged (length merged' - 1)]> (index ix), merged')
      end in
    m ← merged' !! at_;
    Some {| index := index'; merged := <[at_ := apply_managed_dependency m dep]> merged' |}
  end.

Fixpoint index_loop (ix : ManagedIndex) (deps : list Dependency) : option ManagedIndex :=
  match deps with
  | [] => Some ix
  | dep :: deps => ix ← index_step ix dep; index_loop ix deps
  end.

Definition build_managed_dep_index (management : list Dependency) : option ManagedIndex :=
  index_loop {| index := ∅; merged := [] |} management.

(** [find_managed_dependency_indexed]; the outer [None] is the panic. *)
Definition find_managed_dependency_indexed (dep : Dependency) (ix : ManagedIndex)
    : option (option Dependency) :=
  match index ix !! management_key dep with
  | None => Some None
  | Some (Entry managed) => Some (Some managed)
  | Some (Merged at_) => Some <$> merged ix !! at_
  end.

(** ** The reference: a search through the entries *)

Definition same_key (key : ManagementKey) (d : Dependency) : bool :=
  bool_decide (management_key d = key).

Definition with_key (key : ManagementKey) (deps : list Dependency) : list Dependency :=
  List.filter (same_key key) deps.

(** The entries with one key, each filling what those before it leave unset. *)
Definition merge_entries (entries : list Dependency) : option Dependency :=
  match entries with
  | [] => None
  | first :: rest => Some (foldl apply_managed_dependency first rest)
  end.

(** What a slot says about the entries with its key that were seen. *)
Definition slot_ok (merged : list Dependency) (slot : option Slot) (entries : list Dependency) : Prop :=
  match slot with
  | None => entries = []
  | Some (Entry d) => entries = [d]
  | Some (Merged at_) =>
    merged !! at_ = merge_entries entries /\ entries <> []
  end.

Record index_ok (ix : ManagedIndex) (seen : list Dependency) : Prop := {
  slots_ok : forall key, slot_ok (merged ix) (index ix !! key) (with_key key seen);
  slots_apart : forall k1 k2 at_,
    index ix !! k1 = Some (Merged at_) -> index ix !! k2 = Some (Merged at_) -> k1 = k2;
}.

Lemma with_key_snoc key seen dep :
  with_key key (seen ++ [dep])
  = with_key key seen ++ (if decide (management_key dep = key) then [dep] else []).
Proof.
  unfold with_key. rewrite List.filter_app. cbn. unfold same_key at 2.
  case_decide; [by rewrite bool_decide_eq_true_2|by rewrite bool_decide_eq_false_2].
Qed.

Lemma merge_entries_snoc entries m dep :
  merge_entries entries = Some m ->
  merge_entries (entries ++ [dep]) = Some (apply_managed_dependency m dep).
Proof. destruct entries as [|e l]; cbn; [done|]. intros [= <-]. by rewrite foldl_app. Qed.

(** A slot's vector entry survives what does not touch it. *)
Lemma slot_ok_other ms slot entries at_ m :
  slot_ok ms slot entries -> slot <> Some (Merged at_) -> slot_ok (<[at_ := m]> ms) slot entries.
Proof.
  destruct slot as [[d|at']|]; cbn; [done| |done]. intros [H Hne] Hat.
  split; [|done]. rewrite list_lookup_insert_ne by congruence. done.
Qed.

Lemma slot_ok_snoc ms slot entries d :
  slot_ok ms slot entries -> slot_ok (ms ++ [d]) slot entries.
Proof.
  destruct slot as [[e|at_]|]; cbn; [done| |done]. intros [H Hne]. split; [|done].
  destruct entries as [|e l]; [done|]. cbn in *. by apply lookup_app_l_Some.
Qed.

Lemma slot_ok_range ms at_ entries : slot_ok ms (Some (Merged at_)) entries -> at_ < length ms.
Proof.
  intros [H Hne]. destruct entries as [|e l]; [done|]. cbn in H. by eapply lookup_lt_Some.
Qed.

(** Moving the first of two colliding entries to the vector keeps the index. *)
Lemma promote_ok ix seen key first :
  index_ok ix seen -> index ix !! key = Some (Entry first) ->
  index_ok {| index := <[key := Merged (length (merged ix))]> (index ix);
              merged := merged ix ++ [first] |} seen.
Proof.
  intros [Hs Ha] Hk. pose proof (Hs key) as Hkey. rewrite Hk in Hkey. cbn in Hkey.
  assert (forall k, index ix !! k <> Some (Merged (length (merged ix)))) as Hfresh.
  { intros k E. pose proof (Hs k) as H. rewrite E in H. apply slot_ok_range in H. lia. }
  split; cbn.
  - intros k. destruct (decide (k = key)) as [->|Hne].
    + rewrite lookup_insert_eq, Hkey. cbn. by rewrite list_lookup_middle.
    + rewrite lookup_insert_ne by done. apply slot_ok_snoc, Hs.
  - intros k1 k2 at_. destruct (decide (k1 = key)) as [->|H1], (decide (k2 = key)) as [->|H2];
      rewrite ?lookup_insert_eq, ?lookup_insert_ne by done; try done.
    + intros [= <-] E. by apply Hfresh in E.
    + intros E [= <-]. by apply Hfresh in E.
    + apply Ha.
Qed.

(** Merging one more entry into its vector slot. *)
Lemma merge_ok ix seen dep at_ m :
  index_ok ix seen -> index ix !! management_key dep = Some (Merged at_) ->
  merged ix !! at_ = Some m ->
  index_ok {| index := index ix; merged := <[at_ := apply_managed_dependency m dep]> (merged ix) |}
    (seen ++ [dep]).
Proof.
  intros [Hs Ha] Hk Hm. split; cbn; [|done]. intros k. rewrite with_key_snoc. case_decide as E.
  - subst k. pose proof (Hs (management_key dep)) as H. rewrite Hk in H |- *. destruct H as [H Hne].
    cbn. split; [|by destruct (with_key _ _)].
    rewrite list_lookup_insert_eq by (by eapply lookup_lt_Some).
    rewrite (merge_entries_snoc _ m); [done|]. by rewrite <-H.
  - rewrite app_nil_r. apply slot_ok_other; [apply Hs|]. intros E'. by apply E, (Ha _ _ _ Hk E').
Qed.

Lemma index_step_ok ix seen dep :
  index_ok ix seen -> exists ix', index_step ix dep = Some ix' /\ index_ok ix' (seen ++ [dep]).
Proof.
  intros Hok. unfold index_step.
  destruct (index ix !! management_key dep) as [[first|at_]|] eqn:Ek.
  - pose proof (promote_ok _ _ _ _ Hok Ek) as Hp. rewrite length_app. cbn [length].
    replace (length (merged ix) + 1 - 1) with (length (merged ix)) by lia.
    rewrite list_lookup_middle by done. cbn [mbind option_bind].
    eexists. split; [done|].
    apply (merge_ok _ _ dep (length (merged ix)) first Hp); cbn;
      [by rewrite lookup_insert_eq|by rewrite list_lookup_middle].
  - pose proof (slots_ok _ _ Hok (management_key dep)) as Hs. rewrite Ek in Hs.
    destruct (lookup_lt_is_Some_2 _ _ (slot_ok_range _ _ _ Hs)) as [m Hm]. rewrite Hm.
    cbn [mbind option_bind]. eexists. split; [done|]. by apply merge_ok.
  - eexists. split; [done|]. destruct Hok as [Hs Ha]. split; cbn.
    + intros k. rewrite with_key_snoc. case_decide as E.
      * subst k. rewrite lookup_insert_eq. cbn. specialize (Hs (management_key dep)).
        rewrite Ek in Hs. cbn in Hs. by rewrite Hs.
      * rewrite lookup_insert_ne, app_nil_r by done. apply Hs.
    + intros k1 k2 at_. destruct (decide (k1 = management_key dep)) as [->|H1];
        [by rewrite lookup_insert_eq|].
      destruct (decide (k2 = management_key dep)) as [->|H2];
        [by rewrite (lookup_insert_eq (index ix))|].
      rewrite !lookup_insert_ne by done. apply Ha.
Qed.

Lemma index_loop_ok deps ix seen :
  index_ok ix seen -> exists ix', index_loop ix deps = Some ix' /\ index_ok ix' (seen ++ deps).
Proof.
  revert ix seen. induction deps as [|dep deps IH]; intros ix seen Hok; cbn [index_loop].
  - exists ix. by rewrite app_nil_r.
  - destruct (index_step_ok ix seen dep Hok) as (ix1 & -> & Hok1). cbn [mbind option_bind].
    destruct (IH ix1 _ Hok1) as (ix2 & ? & Hok2). exists ix2. by rewrite <-app_assoc in Hok2.
Qed.

(** C35: the index of managed entries, with its slots and its side vector, is
    built without a panic and implements the search through the entries: looking
    up a declaration finds the entries with its key merged in order, and nothing
    exactly when there is none. *)
Theorem managed_index_refines_search management :
  exists ix, build_managed_dep_index management = Some ix /\
  forall dep, find_managed_dependency_indexed dep ix
    = Some (merge_entries (with_key (management_key dep) management)).
Proof.
  destruct (index_loop_ok management {| index := ∅; merged := [] |} []) as (ix & Hb & Hok).
  { by split; cbn; [intros key; rewrite lookup_empty|intros k1 k2 at_; rewrite lookup_empty]. }
  exists ix. split; [done|]. intros dep. unfold find_managed_dependency_indexed.
  pose proof (slots_ok _ _ Hok (management_key dep)) as Hs. cbn [app] in Hs.
  destruct (index ix !! management_key dep) as [[d|at_]|]; cbn in Hs.
  - by rewrite Hs.
  - destruct Hs as [H Hne]. rewrite H.
    by destruct (with_key (management_key dep) management).
  - by rewrite Hs.
Qed.

(** The first value set, in order. *)
Fixpoint first_set {A} (l : list (option A)) : option A :=
  match l with [] => None | Some a :: _ => Some a | None :: l => first_set l end.

Lemma fold_field {A} (f : Dependency -> option A) first rest :
  (forall d m, f (apply_managed_dependency d m) = fill (f d) (f m)) ->
  f (foldl apply_managed_dependency first rest) = first_set (map f (first :: rest)).
Proof.
  intros Hf. revert first. induction rest as [|d rest IH]; intros first; cbn.
  - by destruct (f first).
  - rewrite IH. cbn. rewrite Hf. by destruct (f first).
Qed.

(** The exclusions of the first entry that has any. *)
Fixpoint first_nonempty {A} (l : list (list A)) : list A :=
  match l with [] => [] | [] :: l => first_nonempty l | k :: _ => k end.

Lemma fold_exclusions first rest :
  exclusions (foldl apply_managed_dependency first rest)
  = first_nonempty (map exclusions (first :: rest)).
Proof.
  revert first. induction rest as [|d rest IH]; intros first; cbn.
  - by destruct (exclusions first).
  - rewrite IH. cbn. by destruct (exclusions first).
Qed.

(** managing a declaration only fills in: every field the declaration sets is
    kept, an unset one comes from the first entry with its key that sets it, the
    exclusions from the first that has any, and [optional] is never managed. *)
Theorem managed_fields_fill_in dep management managed :
  merge_entries (with_key (management_key dep) management) = Some managed ->
  let entries := with_key (management_key dep) management in
  let d := apply_managed_dependency dep managed in
  version d = first_set (map version (dep :: entries)) /\
  scope d = first_set (map scope (dep :: entries)) /\
  type_ d = first_set (map type_ (dep :: entries)) /\
  classifier d = first_set (map classifier (dep :: entries)) /\
  system_path d = first_set (map system_path (dep :: entries)) /\
  exclusions d = first_nonempty (map exclusions (dep :: entries)) /\
  optional d = optional dep /\ group_id d = group_id dep /\ artifact_id d = artifact_id dep.
Proof.
  cbv zeta. destruct (with_key (management_key dep) management) as [|e l]; [done|].
  intros [= <-]. split_and!; try done.
  1-5: (cbn [apply_managed_dependency version scope type_ classifier system_path map first_set];
        rewrite fold_field by done; by case_match).
  cbn [apply_managed_dependency exclusions map first_nonempty]. rewrite fold_exclusions.
  by case_match.
Qed.

Definition demo_entry (v : option str) : Dependency :=
  {| group_id := $"g"; artifact_id := $"a"; version := v; type_ := Some $"jar";
     classifier := None; scope := Some $"runtime"; optional := None; exclusions := [];
     system_path := None |}.
Definition demo_management : list Dependency :=
  [demo_entry None; demo_entry (Some $"1.0"); demo_entry (Some $"2.0")].

Lemma managed_fields_fill_in_witness :
  version (apply_managed_dependency (plain_dep $"g" $"a") (demo_entry (Some $"1.0"))) = Some $"1.0".
Proof.
  etransitivity.
  - apply (managed_fields_fill_in (plain_dep $"g" $"a") demo_management). by vm_compute.
  - by vm_compute.
Defined.
