(* ===== verification/Keys.v ===== *)
(** * Keys and scopes of the resolver ([rv-resolver/src/graph.rs], [util.rs])

    The mediation key of a coordinate, coordinates compared by their text, the
    scope an edge gives below a parent, and the dynamic version words. *)

From Stdlib Require Import Ascii String.
From stdpp Require Import base list strings gmap.
From S2P Require Import Prelude Str Version Component Coordinates Snapshot Dependency.

#[local] Set Warnings "-clear-no-such-hyp".

Record CoordKey := {
  key_group_id : GroupId;
  key_artifact_id : ArtifactId;
  key_packaging : option str;
  key_classifier : option str;
}.

#[export] Instance coord_key_eq_dec : EqDecision CoordKey.
Proof. solve_decision. Defined.

#[export] Instance coord_key_countable : Countable CoordKey.
Proof.
  refine (inj_countable' (fun k : CoordKey =>
      (key_group_id k : str, key_artifact_id k : str, key_packaging k, key_classifier k))
    (fun '(g, a, p, c) => {| key_group_id := g; key_artifact_id := a; key_packaging := p;
                            key_classifier := c |}) _).
  by intros [].
Defined.

(** [From<&Coord> for CoordKey]. *)
Definition key_of (coord : Coord.t) : CoordKey := {|
  key_group_id := Coord.group_id coord;
  key_artifact_id := Coord.artifact_id coord;
  key_packaging :=
    match Coord.packaging coord with
    | None => None
    | Some p => if decide (p ∈ [$"jar"; $"maven-plugin"]) then None else Some p
    end;
  key_classifier := Coord.classifier coord;
|}.

Abbreviation CoordText := (str * str * str * option str * option str)%type.

Definition coord_text (c : Coord.t) : CoordText :=
  (Coord.group_id c, Coord.artifact_id c, original (Coord.version c),
   Coord.packaging c, Coord.classifier c).

(** [same_text], which is [PartialEq for ExactCoord]; its [Hash] is the hash of
    [coord_text], so an [ExactCoord] is keyed by its text. *)
Definition same_text (a b : Coord.t) : bool := bool_decide (coord_text a = coord_text b).

(** [RepoRef]: a configured repository by id and URL. *)
Module RepoRef.
Record t := { id : option str; url : str }.

#[export] Instance eq_dec : EqDecision t.
Proof. solve_decision. Defined.
End RepoRef.

Record Edge := {
  edge_scope : Scope;
  managed_scope : bool;
  declared : option N;
  edge_optional : bool;
  edge_exclusions : list Exclusion;
  requested : option str;
}.

(** [Edge::scope_below]. *)
Definition scope_below (e : Edge) (parent : Scope) : Scope :=
  if managed_scope e then edge_scope e
  else
    match parent, edge_scope e with
    | _, System | _, Test | Compile, _ => edge_scope e
    | Test, _ | Runtime, _ => parent
    | Provided, _ | System, _ => Provided
    | Import, _ => Runtime
    end.

Definition width (s : Scope) : nat :=
  match s with
  | Compile => 4 | Runtime => 3 | Provided => 2 | Test => 1 | System | Import => 0
  end.

(** [DynamicVersionToken] and its parser. *)
Inductive DynamicVersionToken := Release | Integration.

#[export] Instance token_eq_dec : EqDecision DynamicVersionToken.
Proof. solve_decision. Defined.

Definition requirement_label (t : DynamicVersionToken) : str :=
  match t with Release => $"RELEASE" | Integration => $"LATEST" end.

Definition admits (t : DynamicVersionToken) (version : str) : bool :=
  bool_decide (t = Integration) || negb (is_snapshot_version version).

Definition parse_dynamic_version_token (token : str) : option DynamicVersionToken :=
  let t := trim token in
  if decide (t = $"RELEASE") then Some Release
  else if decide (t = $"LATEST") then Some Integration
  else None.

(** Scopes a node of the graph can have been picked as a parent with. *)
Definition classpath_scope (s : Scope) : Prop := s ∈ [Compile; Runtime; Provided; Test].

(** below a parent on some class path, a dependency whose scope management did
    not set is never on a wider one, [test] and [system] stay what they are, and
    along a path of such declarations the scope only narrows. *)
Theorem scope_below_narrows (parent : Scope) (path : list Edge) :
  classpath_scope parent ->
  Forall (fun e => managed_scope e = false /\ classpath_scope (edge_scope e)) path ->
  let derived := foldl (fun s e => scope_below e s) parent path in
  width derived <= width parent /\ classpath_scope derived /\
  (forall e, managed_scope e = false -> edge_scope e = Test \/ edge_scope e = System ->
     scope_below e derived = edge_scope e).
Proof.
  intros Hp HF. cbv zeta.
  assert (width (foldl (fun s e => scope_below e s) parent path) <= width parent /\
          classpath_scope (foldl (fun s e => scope_below e s) parent path)) as [H1 H2].
  { revert parent Hp. induction HF as [|e path [Hm He] HF IH]; intros parent Hp; [done|].
    cbn [foldl]. assert (width (scope_below e parent) <= width parent /\
      classpath_scope (scope_below e parent)) as [Hw Hc].
    { unfold scope_below, classpath_scope in *. rewrite Hm.
      destruct parent, (edge_scope e); cbn [width]; (split; [lia|set_solver]) || set_solver. }
    destruct (IH _ Hc). split; [lia|done]. }
  split_and!; [done..|]. intros e Hm He. unfold scope_below. rewrite Hm.
  destruct He as [-> | ->]; by destruct (foldl _ _ _).
Qed.

Lemma scope_below_narrows_witness :
  let e s := {| edge_scope := s; managed_scope := false; declared := None; edge_optional := false;
                edge_exclusions := []; requested := None |} in
  width (foldl (fun s e => scope_below e s) Runtime [e Compile; e Runtime]) <= width Runtime.
Proof.
  apply (scope_below_narrows Runtime); [by apply (bool_decide_unpack _)|].
  repeat (apply Forall_cons; split; [split; [done|by apply (bool_decide_unpack _)]|]).
  by apply Forall_nil.
Defined.
