(* ===== verification/Queue.v ===== *)
(** * The resolver's queue ([rv-resolver/src/solver/queue.rs])

    Exclusions, the path from the root to a declaration, the order of
    declarations in Maven's tree with its shared nodes, the queue's items and
    the bounds on the walk.

    Nodes of a tree order are shared by reference, and the comparison stops at a
    node both sides share: a node carries its address, and the theorems are about
    orders allocated by [child]. *)

From Stdlib Require Import Ascii String.
From stdpp Require Import base list strings gmap.
From S2P Require Import Prelude Str Version Coordinates Dependency Keys.

#[local] Set Warnings "-clear-no-such-hyp".

Definition MAX_QUEUE_SIZE : N := 100000.
Definition MAX_DEPTH : N := 1000.
Definition MAX_DECLARATIONS : N := 1000000.

(** ** Exclusions *)

Record ExclusionKey := { excluded_group : GroupId; excluded_artifact : ArtifactId }.

Definition exclusion_key (e : Exclusion) : ExclusionKey :=
  {| excluded_group := ex_group_id e; excluded_artifact := ex_artifact_id e |}.

#[export] Instance exclusion_key_eq_dec : EqDecision ExclusionKey.
Proof. solve_decision. Defined.

(** The derived order: the group, then the artifact. *)
Definition exclusion_key_cmp (a b : ExclusionKey) : comparison :=
  ord_then (str_cmp (excluded_group a) (excluded_group b))
           (str_cmp (excluded_artifact a) (excluded_artifact b)).

(** The closure of [excludes]. *)
Definition exclusion_matches (dep_group dep_artifact : str) (ex : ExclusionKey) : bool :=
  let ex_group := trim (excluded_group ex) in
  let ex_artifact := trim (excluded_artifact ex) in
  (bool_decide (ex_group = $"*") || bool_decide (ex_group = dep_group))
  && (bool_decide (ex_artifact = $"*") || bool_decide (ex_artifact = dep_artifact)).

Definition excludes (exclusions : list ExclusionKey) (group_id artifact_id : str) : bool :=
  existsb (exclusion_matches (trim group_id) (trim artifact_id)) exclusions.

Definition is_excluded (dep : Dependency) (exclusions : list ExclusionKey) : bool :=
  excludes exclusions (group_id dep) (artifact_id dep).

Definition extend_exclusions (parent : list ExclusionKey) (current : list Exclusion)
    : list ExclusionKey :=
  match current with [] => parent | _ => parent ++ map exclusion_key current end.

(** ** Paths *)

Section Paths.
(** [RepoContext], carried along and not looked at here. *)
Context {RepoContext : Type} (no_repos : RepoContext).

Inductive PathNode :=
  Path (key : CoordKey) (version : str) (parent : option PathNode) (repos : RepoContext) (depth : nat).

Definition path_key (p : PathNode) : CoordKey := let 'Path key _ _ _ _ := p in key.
Definition path_depth (p : PathNode) : nat := let 'Path _ _ _ _ depth := p in depth.

Definition path_parent (p : PathNode) : option PathNode := let 'Path _ _ parent _ _ := p in parent.
Definition path_repos (p : PathNode) : RepoContext := let 'Path _ _ _ repos _ := p in repos.

Definition path_root (coord : Coord.t) : PathNode :=
  Path (key_of coord) (original (Coord.version coord)) None no_repos 0.

Definition path_extend (parent : PathNode) (coord : Coord.t) (version : Version)
    (repos : RepoContext) : PathNode :=
  Path (key_of coord) (original version) (Some parent) repos (path_depth parent + 1).

(** [successors]: this node and its ancestors, upwards, with whether each has a
    parent. *)
Fixpoint upwards (p : PathNode) : list (CoordKey * str * bool) :=
  let 'Path key version parent _ _ := p in
  match parent with
  | None => [(key, version, false)]
  | Some up => (key, version, true) :: upwards up
  end.

Definition below_root (p : PathNode) : list (CoordKey * str) :=
  map fst (List.filter snd (upwards p)).

Definition path_keys (p : PathNode) : list CoordKey := map fst (below_root p).

Definition path_contains (p : PathNode) (key : CoordKey) : bool :=
  existsb (fun ancestor => bool_decide (ancestor = key)) (path_keys p).

Definition key_text (key : CoordKey) : str := key_group_id key ++ $":" ++ key_artifact_id key.

Definition format_cycle (p : PathNode) (next : CoordKey) : str :=
  join $" -> " (reverse (key_text next :: map (fun n => key_text n.1.1) (upwards p))).

Definition coordinates (p : PathNode) : list str :=
  reverse (map (fun n => key_text n.1.1 ++ $":" ++ n.1.2) (upwards p)).
End Paths.

Arguments PathNode : clear implicits.

(** ** The order of declarations *)

Inductive TreeOrder :=
  | TreeRoot
  | OrderNode (address : nat) (index : N) (len : nat) (parent : TreeOrder).

Definition tree_len (o : TreeOrder) : nat :=
  match o with TreeRoot => 0 | OrderNode _ _ len _ => len end.

(** [TreeOrder::child], with the address the allocation gives the node. *)
Definition child (address : nat) (o : TreeOrder) (index : N) : TreeOrder :=
  OrderNode address (if (index <=? u32_max)%N then index else u32_max) (tree_len o + 1) o.

Definition tree_parent (o : TreeOrder) : TreeOrder :=
  match o with TreeRoot => o | OrderNode _ _ _ parent => parent end.

(** [while a.len() > n { a = a.parent() }]. *)
Fixpoint up_to (n : nat) (a : TreeOrder) : TreeOrder :=
  match a with
  | TreeRoot => a
  | OrderNode _ _ len parent => if n <? len then up_to n parent else a
  end.

(** The walk up two orders of one length, to the root or a shared node. *)
Fixpoint tree_walk (a b : TreeOrder) (first : comparison) : comparison :=
  match a, b with
  | OrderNode x i _ pa, OrderNode y j _ pb =>
    if decide (x = y) then first else tree_walk pa pb (ord_then (N.compare i j) first)
  | _, _ => first
  end.

(** [Ord for TreeOrder]. *)
Definition tree_cmp (self other : TreeOrder) : comparison :=
  let by_len := Nat.compare (tree_len self) (tree_len other) in
  let a := up_to (tree_len other) self in
  let b := up_to (tree_len a) other in
  ord_then (tree_walk a b Eq) by_len.

(** [Hash for TreeOrder]: what is fed to the hasher. *)
Fixpoint tree_hash (o : TreeOrder) : list N :=
  match o with TreeRoot => [] | OrderNode _ index _ parent => index :: tree_hash parent end.

(** ** Queue items *)

Section Items.
Context {RepoContext : Type}.

Record ShadowOrigin := { shadow_group : CoordKey; instance : N; shadow_coord : Coord.t }.

Record QueueItem := {
  item_parent : nat;
  parent_generation : N;
  dependency : Dependency;
  item_managed_scope : bool;
  depth : N;
  order : TreeOrder;
  declared_at : N;
  item_exclusions : list ExclusionKey;
  item_path : PathNode RepoContext;
  shadow : option ShadowOrigin;
}.

(** The comparison of two [SortKey]s. *)
Definition sort_key_cmp (a b : N * TreeOrder * N) : comparison :=
  ord_then (N.compare a.1.1 b.1.1) (ord_then (tree_cmp a.1.2 b.1.2) (N.compare a.2 b.2)).

Definition sort_key (i : QueueItem) : N * TreeOrder * N := (depth i, order i, declared_at i).

(** [Ord for QueueItem]: the heap takes the greatest, so the keys are swapped. *)
Definition item_cmp (self other : QueueItem) : comparison :=
  sort_key_cmp (sort_key other) (sort_key self).

Inductive limit := QueuedAtOnce | LevelsOfDepth | Declarations | StatesGathering.
Record GraphLimitExceeded := { what : limit; limit_value : N; limit_coord : str }.

(** [push_queue]; the queue is the heap's elements. *)
Definition push_queue (queue : list QueueItem) (item : QueueItem)
    : result GraphLimitExceeded (list QueueItem) :=
  let exceeded :=
    if (MAX_QUEUE_SIZE <=? N.of_nat (length queue))%N then Some (QueuedAtOnce, MAX_QUEUE_SIZE)
    else if (MAX_DEPTH <? depth item)%N then Some (LevelsOfDepth, MAX_DEPTH)
    else if (MAX_DECLARATIONS <=? declared_at item)%N then Some (Declarations, MAX_DECLARATIONS)
    else None in
  match exceeded with
  | Some (what, limit) =>
    Err {| what := what; limit_value := limit;
           limit_coord := group_id (dependency item) ++ $":" ++ artifact_id (dependency item) |}
  | None => Ok (item :: queue)
  end.

(** [BinaryHeap::pop]: a greatest element and the others. *)
Definition pops (queue : list QueueItem) (item : QueueItem) (rest : list QueueItem) : Prop :=
  queue ≡ₚ item :: rest /\ Forall (fun i => item_cmp i item <> Gt) rest.
End Items.
Arguments QueueItem : clear implicits.

(** ** Tree orders are their index lists *)

(** The index of each declaration on the way down from the root. *)
Fixpoint indices (o : TreeOrder) : list N :=
  match o with TreeRoot => [] | OrderNode _ index _ parent => indices parent ++ [index] end.

Fixpoint tree_wf (o : TreeOrder) : Prop :=
  match o with TreeRoot => True | OrderNode _ _ len parent => len = S (tree_len parent) /\ tree_wf parent end.

(** A node and its ancestors. *)
Fixpoint nodes (o : TreeOrder) : list TreeOrder :=
  match o with TreeRoot => [] | OrderNode _ _ _ parent => o :: nodes parent end.

Definition address_of (o : TreeOrder) : option nat :=
  match o with TreeRoot => None | OrderNode address _ _ _ => Some address end.

(** One address is one node. *)
Definition coherent (a b : TreeOrder) : Prop :=
  forall x y, x ∈ nodes a -> y ∈ nodes b -> address_of x = address_of y -> x = y.

Lemma tree_len_indices o : tree_wf o -> tree_len o = length (indices o).
Proof.
  induction o as [|x i len p IH]; cbn; [done|]. intros [-> Hp]. rewrite length_app. cbn.
  rewrite IH by done. lia.
Qed.

Lemma up_to_spec n o :
  tree_wf o -> n <= tree_len o ->
  tree_wf (up_to n o) /\ tree_len (up_to n o) = n /\ indices (up_to n o) = take n (indices o) /\
  (forall x, x ∈ nodes (up_to n o) -> x ∈ nodes o).
Proof.
  induction o as [|x i len p IH]; cbn [up_to tree_len].
  - intros _ Hn. by replace n with 0 by lia.
  - intros [Hl Hp] Hn. destruct (Nat.ltb_spec n len) as [Hlt|Hge].
    + destruct (IH Hp) as (H1 & H2 & H3 & H4); [lia|]. split_and!; try done.
      * rewrite H3. cbn [indices]. rewrite take_app_le; [done|].
        rewrite <-tree_len_indices by done. lia.
      * intros y Hy. cbn [nodes]. right. by apply H4.
    + split_and!; try done.
      * cbn [tree_len]. lia.
      * rewrite take_ge; [done|]. rewrite <-(tree_len_indices (OrderNode x i len p)) by done.
        cbn [tree_len]. lia.
Qed.

Lemma list_cmp_app {A} (cmp : A -> A -> comparison) l k l' k' :
  length l = length k ->
  list_cmp cmp (l ++ l') (k ++ k') = ord_then (list_cmp cmp l k) (list_cmp cmp l' k').
Proof.
  revert k. induction l as [|a l IH]; intros [|b k] E; cbn in *; [done..|].
  rewrite IH by lia. by destruct (cmp a b).
Qed.

Lemma list_cmp_take {A} (cmp : A -> A -> comparison) l k m :
  m = Nat.min (length l) (length k) ->
  list_cmp cmp l k
  = ord_then (list_cmp cmp (take m l) (take m k)) (Nat.compare (length l) (length k)).
Proof.
  intros ->. revert k. induction l as [|a l IH]; intros [|b k]; cbn; try done.
  rewrite IH. by destruct (cmp a b).
Qed.

Lemma tree_walk_spec a b first :
  tree_wf a -> tree_wf b -> coherent a b -> tree_len a = tree_len b ->
  tree_walk a b first = ord_then (list_cmp N.compare (indices a) (indices b)) first.
Proof.
  revert b first. induction a as [|x i len p IH]; intros b first Ha Hb Hco Hlen.
  { destruct b as [|y j len' q]; [done|]. cbn in *. lia. }
  destruct b as [|y j len' q]; [cbn in *; lia|]. cbn [tree_walk]. case_decide as E.
  - assert (OrderNode x i len p = OrderNode y j len' q) as ->.
    { apply Hco; [by left..|]. cbn. by rewrite E. }
    by rewrite cmp_refl.
  - cbn in Ha, Hb, Hlen. destruct Ha as [-> Ha], Hb as [-> Hb].
    rewrite IH; [|done..| |lia].
    + cbn [indices]. rewrite list_cmp_app.
      * cbn. by destruct (list_cmp _ _ _), (N.compare i j).
      * rewrite <-!tree_len_indices by done. lia.
    + intros u v Hu Hv. apply Hco; cbn; by right.
Qed.

Lemma coherent_sub a b a' b' :
  coherent a b -> (forall x, x ∈ nodes a' -> x ∈ nodes a) ->
  (forall x, x ∈ nodes b' -> x ∈ nodes b) -> coherent a' b'.
Proof. intros H Ha Hb x y Hx Hy. apply H; auto. Qed.

Lemma tree_cmp_spec a b :
  tree_wf a -> tree_wf b -> coherent a b ->
  tree_cmp a b = list_cmp N.compare (indices a) (indices b).
Proof.
  intros Ha Hb Hco. unfold tree_cmp. set (m := Nat.min (tree_len a) (tree_len b)).
  assert (up_to (tree_len b) a = up_to m a) as ->.
  { destruct (Nat.le_gt_cases (tree_len b) (tree_len a)); [by subst m; rewrite Nat.min_r|].
    subst m. rewrite Nat.min_l by lia. destruct a as [|x i len p]; [done|]. cbn [tree_len] in *.
    cbn [up_to]. by rewrite (proj2 (Nat.ltb_ge _ _)), Nat.ltb_irrefl by lia. }
  destruct (up_to_spec m a Ha) as (Wa & La & Ia & Na); [subst m; lia|].
  destruct (up_to_spec m b Hb) as (Wb & Lb & Ib & Nb); [subst m; lia|].
  rewrite La, tree_walk_spec; [|done..|by eapply coherent_sub|by rewrite La, Lb].
  rewrite Ia, Ib, (list_cmp_take _ (indices a) (indices b) m).
  - rewrite <-!tree_len_indices by done. by destruct (list_cmp _ _ _).
  - by rewrite <-!tree_len_indices.
Qed.

(** The orders a walk allocates: the root's, and children of orders it has, each
    at an address of its own. *)
Inductive grown : nat -> list TreeOrder -> Prop :=
  | grown_root : grown 0 [TreeRoot]
  | grown_child n l o index : grown n l -> o ∈ l -> grown (S n) (child n o index :: l).

Lemma grown_inv n l :
  grown n l ->
  Forall tree_wf l /\
  (forall o x, o ∈ l -> x ∈ nodes o -> exists k, address_of x = Some k /\ k < n) /\
  (forall a b, a ∈ l -> b ∈ l -> coherent a b).
Proof.
  induction 1 as [|n l o index H (IHw & IHn & IHc) Ho].
  - split_and!; [by repeat constructor| |].
    + intros o x ->%list_elem_of_singleton Hx. by apply elem_of_nil in Hx.
    + intros a b ->%list_elem_of_singleton ->%list_elem_of_singleton x y Hx. by apply elem_of_nil in Hx.
  - assert (forall y z, y ∈ child n o index :: l -> z ∈ nodes y ->
      z = child n o index \/ exists y', y' ∈ l /\ z ∈ nodes y') as Hcases.
    { intros y z [->|Hy]%elem_of_cons Hz; [|by eauto].
      apply elem_of_cons in Hz as [->|Hz]; [by left|by eauto]. }
    split_and!.
    + constructor; [|done]. rewrite Forall_forall in IHw. split; [cbn; lia|by apply IHw].
    + intros y x Hy Hx. destruct (Hcases y x Hy Hx) as [->|(y' & Hy' & Hx')].
      * exists n. split; [done|lia].
      * destruct (IHn y' x Hy' Hx') as (k & ? & ?). exists k. split; [done|lia].
    + intros a b Ha Hb x y Hx Hy E.
      destruct (Hcases a x Ha Hx) as [->|(a' & Ha' & Hx')], (Hcases b y Hb Hy) as [->|(b' & Hb' & Hy')].
      * done.
      * destruct (IHn b' y Hb' Hy') as (k & Ek & Hk). rewrite Ek in E. cbn in E. naive_solver lia.
      * destruct (IHn a' x Ha' Hx') as (k & Ek & Hk). rewrite Ek in E. cbn in E. naive_solver lia.
      * by apply (IHc a' b').
Qed.

(** however orders share their nodes, comparing two orders of a walk compares
    their index lists, so the order of declarations is Maven's depth-first order;
    orders that compare equal feed the same indices to the hash. *)
Theorem tree_order_is_lexicographic n l a b :
  grown n l -> a ∈ l -> b ∈ l ->
  tree_cmp a b = list_cmp N.compare (indices a) (indices b) /\
  (tree_cmp a b = Eq -> tree_hash a = tree_hash b).
Proof.
  intros Hg Ha Hb. destruct (grown_inv n l Hg) as (Hw & _ & Hc). rewrite Forall_forall in Hw.
  assert (tree_cmp a b = list_cmp N.compare (indices a) (indices b)) as Hcmp
    by (apply tree_cmp_spec; auto).
  split; [done|]. rewrite Hcmp, cmp_eq. intros E.
  assert (forall o, tree_hash o = reverse (indices o)) as Hr.
  { clear. induction o as [|x i len p IH]; cbn [tree_hash indices]; [done|].
    by rewrite IH, reverse_snoc. }
  by rewrite !Hr, E.
Qed.

Lemma tree_order_is_lexicographic_witness :
  let o0 := child 0 TreeRoot 0 in let o1 := child 1 o0 2 in let o2 := child 2 o0 1 in
  tree_cmp o1 o2 = list_cmp N.compare [0; 2]%N [0; 1]%N /\ tree_cmp o1 o2 = Gt.
Proof.
  cbv zeta. split; [|by vm_compute].
  apply (tree_order_is_lexicographic 3 [child 2 (child 0 TreeRoot 0) 1; child 1 (child 0 TreeRoot 0) 2;
    child 0 TreeRoot 0; TreeRoot]); [|by do 2 constructor|by constructor].
  repeat (constructor; try (by repeat constructor)).
Defined.

(** ** The queue *)

Section QueueFacts.
Context {RepoContext : Type}.

(** The walk's bounds, which every queue it builds meets. *)
Record queue_ok (queue : list (QueueItem RepoContext)) : Prop := {
  queue_size : (N.of_nat (length queue) <= MAX_QUEUE_SIZE)%N;
  queue_items : Forall (fun i => (depth i <= MAX_DEPTH)%N /\ (declared_at i < MAX_DECLARATIONS)%N) queue;
}.

(** [push_queue] keeps the walk's bounds: it adds the item exactly when the
    queue has room and the item is within the depth and the declaration count,
    and otherwise reports the first bound passed, in that order. *)
Theorem push_queue_bounds (queue : list (QueueItem RepoContext)) item :
  queue_ok queue ->
  match push_queue queue item with
  | Ok queue' => queue' = item :: queue /\ queue_ok queue'
  | Err e =>
    (what e = QueuedAtOnce /\ N.of_nat (length queue) = MAX_QUEUE_SIZE) \/
    (what e = LevelsOfDepth /\ (MAX_DEPTH < depth item)%N) \/
    (what e = Declarations /\ (MAX_DECLARATIONS <= declared_at item)%N)
  end.
Proof.
  intros [Hs Hi]. unfold push_queue.
  destruct (N.leb_spec MAX_QUEUE_SIZE (N.of_nat (length queue))) as [H1|H1]; [left; cbn; split; [done|lia]|].
  destruct (N.ltb_spec MAX_DEPTH (depth item)) as [H2|H2]; [by right; left|].
  destruct (N.leb_spec MAX_DECLARATIONS (declared_at item)) as [H3|H3]; [by right; right|].
  split; [done|]. split; [cbn [length]; lia|]. by apply Forall_cons.
Qed.

(** The items of a walk, compared by depth, index list and declaration number. *)
Definition list_key_cmp (a b : QueueItem RepoContext) : comparison :=
  ord_then (N.compare (depth a) (depth b))
    (ord_then (list_cmp N.compare (indices (order a)) (indices (order b)))
       (N.compare (declared_at a) (declared_at b))).

Lemma item_cmp_list n l (a b : QueueItem RepoContext) :
  grown n l -> order a ∈ l -> order b ∈ l -> item_cmp a b = list_key_cmp b a.
Proof.
  intros Hg Ha Hb. unfold item_cmp, sort_key_cmp, sort_key, list_key_cmp. cbn.
  destruct (grown_inv n l Hg) as (Hw & _ & Hc). rewrite Forall_forall in Hw.
  by rewrite tree_cmp_spec by auto.
Qed.

(** the queue yields declarations breadth first, and in Maven's depth-first
    order within a depth: whatever the heap pops, no item left in it has a
    smaller depth, index list and declaration number. *)
Theorem queue_pops_in_order n l queue (item : QueueItem RepoContext) rest :
  grown n l -> Forall (fun i => order i ∈ l) queue -> pops queue item rest ->
  Forall (fun i => list_key_cmp item i <> Gt) rest /\
  (forall i, i ∈ rest -> (depth item <= depth i)%N).
Proof.
  intros Hg Hq [Hperm Hmax]. rewrite Hperm in Hq. apply Forall_cons in Hq as [Hitem Hrest].
  assert (Forall (fun i => list_key_cmp item i <> Gt) rest) as HF.
  { rewrite Forall_forall in *. intros i Hin. rewrite <-(item_cmp_list n l) by auto. auto. }
  split; [done|]. intros i Hin. rewrite Forall_forall in HF. specialize (HF i Hin).
  unfold list_key_cmp in HF. destruct (N.compare_spec (depth item) (depth i)); try lia. done.
Qed.
End QueueFacts.

Definition demo_coord : Coord.t :=
  {| Coord.group_id := $"g"; Coord.artifact_id := $"a"; Coord.version := {| original := $"1"; items := [] |};
     Coord.packaging := None; Coord.classifier := None |}.

Definition demo_item (depth : N) (order : TreeOrder) : QueueItem unit :=
  {| item_parent := 0; parent_generation := 0; dependency := plain_dep $"g" $"a";
     item_managed_scope := false; depth := depth; order := order; declared_at := 0;
     item_exclusions := []; item_path := path_root tt demo_coord; shadow := None |}.

Lemma push_queue_bounds_witness :
  push_queue [] (demo_item 1 TreeRoot) = Ok [demo_item 1 TreeRoot] /\
  queue_ok [demo_item 1 TreeRoot].
Proof.
  split; [by vm_compute|].
  refine (proj2 (push_queue_bounds [] (demo_item 1 TreeRoot) _)).
  split; [vm_compute; discriminate|constructor].
Defined.

Lemma queue_pops_in_order_witness :
  (depth (demo_item 1 TreeRoot) <= depth (demo_item 2 TreeRoot))%N.
Proof.
  refine (proj2 (queue_pops_in_order 0 [TreeRoot] [demo_item 1 TreeRoot; demo_item 2 TreeRoot]
    (demo_item 1 TreeRoot) [demo_item 2 TreeRoot] _ _ _) _ (list_elem_of_here _ _)).
  - constructor.
  - repeat (apply Forall_cons; split; [by constructor|]). by apply Forall_nil.
  - split; [done|]. apply Forall_cons. split; [by vm_compute|by apply Forall_nil].
Defined.

(** ** Paths and exclusions along them *)

Lemma map_reverse {A B} (f : A -> B) l : map f (reverse l) = reverse (map f l).
Proof. apply fmap_reverse. Qed.

Section PathFacts.
Context {RepoContext : Type} (no_repos : RepoContext).

(** A path from the root coordinate through the declarations read below it. *)
Definition path_of (root : Coord.t) (below : list (Coord.t * Version * RepoContext)) : PathNode RepoContext :=
  foldl (fun p '(coord, version, repos) => path_extend p coord version repos) (path_root no_repos root) below.

Definition node_text (c : Coord.t) (version : str) : str :=
  key_text (key_of c) ++ $":" ++ version.

Lemma path_of_spec root below :
  path_depth (path_of root below) = length below /\
  upwards (path_of root below)
  = reverse (map (fun '(c, v, _) => (key_of c, original v, true)) below)
    ++ [(key_of root, original (Coord.version root), false)].
Proof.
  unfold path_of. induction below as [|[[c v] r] below [IHd IHu]] using rev_ind; [done|].
  rewrite foldl_app. cbn [foldl]. split.
  - cbn. rewrite IHd, length_app. done.
  - rewrite map_app, reverse_app. cbn [upwards path_extend]. rewrite IHu. done.
Qed.

(** A path knows its declarations: the depth is their number, a cycle is found
    exactly at a key read below the root (never at the root itself, as in
    Maven), and the coordinates listed run from the root down. *)
Lemma path_records_declarations root below key :
  path_depth (path_of root below) = length below /\
  (path_contains (path_of root below) key = true <-> key ∈ map (fun d => key_of d.1.1) below) /\
  coordinates (path_of root below)
  = node_text root (original (Coord.version root)) :: map (fun d => node_text d.1.1 (original d.1.2)) below.
Proof.
  destruct (path_of_spec root below) as [Hd Hu]. split; [done|]. split.
  - unfold path_contains, path_keys, below_root. rewrite Hu, existsb_exists.
    rewrite List.filter_app. cbn. rewrite app_nil_r. split.
    + intros (k & Hin & Hk%bool_decide_eq_true). subst k.
      rewrite map_map in Hin. apply in_map_iff in Hin as ([[k v] b] & <- & Hin).
      apply List.filter_In in Hin as [Hin _]. apply list_elem_of_In in Hin.
      rewrite elem_of_reverse in Hin.
      apply list_elem_of_fmap in Hin as ([[c w] r] & [= -> -> ->] & Hin).
      apply list_elem_of_fmap. by exists (c, w, r).
    + intros ([[c w] r] & -> & Hin)%list_elem_of_fmap. exists (key_of c).
      split; [|by apply bool_decide_eq_true]. rewrite map_map.
      apply in_map_iff. exists (key_of c, original w, true). split; [done|].
      apply List.filter_In. split; [|done]. apply list_elem_of_In. rewrite elem_of_reverse.
      apply list_elem_of_fmap. by exists (c, w, r).
  - unfold coordinates. rewrite Hu, map_app, reverse_app. cbn [map app]. f_equal.
    rewrite map_reverse, reverse_involutive, map_map. apply map_ext. by intros [[c v] r].
Qed.

Lemma excludes_extend parent current g a :
  excludes (extend_exclusions parent current) g a
  = excludes parent g a || excludes (map exclusion_key current) g a.
Proof.
  unfold extend_exclusions, excludes. destruct current as [|e l]; [by rewrite orb_false_r|].
  by rewrite existsb_app.
Qed.

(** What a path excludes is what one of its declarations excludes: exclusions
    are inherited all the way down and nothing below removes one. *)
Lemma exclusions_accumulate (path : list (list Exclusion)) (inherited : list ExclusionKey) d :
  is_excluded d (foldl extend_exclusions inherited path)
  = is_excluded d inherited
    || existsb (fun current => is_excluded d (map exclusion_key current)) path.
Proof.
  unfold is_excluded. revert inherited. induction path as [|current path IH]; intros inherited;
    cbn [foldl existsb].
  - by rewrite orb_false_r.
  - by rewrite IH, excludes_extend, orb_assoc.
Qed.
End PathFacts.
