(* ===== verification/Management.v ===== *)
(** * The root's dependency management in the resolver
    ([rv-resolver/src/solver/management.rs])

    The managed entries by key, merged as Maven's classic dependency manager does,
    and the version a declaration requests at its depth.  The map is only looked
    up, so its insertion order is not kept. *)

From Stdlib Require Import Ascii String.
From stdpp Require Import base list strings gmap.
From S2P Require Import Prelude Str Dependency DepManagement.

#[local] Set Warnings "-clear-no-such-hyp".

(** [Management], a struct of the one map. *)
Record Management := { by_key : gmap ManagementKey Dependency }.

(** [KeyRef] of a group and artifact with the type and classifier of [like]. *)
Definition key_like (group_id artifact_id : str) (like : Dependency) : ManagementKey :=
  (group_id, artifact_id, effective_type like, effective_classifier like).

Definition entry_key (d : Dependency) : ManagementKey :=
  key_like (group_id d) (artifact_id d) d.

(** The exclusions of a later entry that the managed one lacks, in order. *)
Definition push_exclusions (managed new : list Exclusion) : list Exclusion :=
  foldl (fun acc e => if decide (e ∈ acc) then acc else acc ++ [e]) managed new.

(** What an entry whose key is taken adds to the managed one. *)
Definition merge_managed (managed entry : Dependency) : Dependency := {|
  group_id := group_id managed;
  artifact_id := artifact_id managed;
  version := fill (version managed) (version entry);
  type_ := type_ managed;
  classifier := classifier managed;
  scope := fill (scope managed) (scope entry);
  optional := optional managed;
  exclusions := push_exclusions (exclusions managed) (exclusions entry);
  system_path := fill (system_path managed) (system_path entry);
|}.

(** The entries that manage something. *)
Definition manages (entry : Dependency) : bool :=
  negb (bool_decide (version entry = None) && bool_decide (scope entry = None)
        && bool_decide (exclusions entry = [])).

(** One iteration of [Management::new]. *)
Definition new_step (map : gmap ManagementKey Dependency) (entry : Dependency)
    : gmap ManagementKey Dependency :=
  if negb (manages entry) then map
  else
    match map !! entry_key entry with
    | None => <[entry_key entry := entry]> map
    | Some managed => <[entry_key entry := merge_managed managed entry]> map
    end.

Definition new (entries : list Dependency) : Management := {| by_key := foldl new_step ∅ entries |}.

(** [Management::entry] and [Management::managed]. *)
Definition entry (m : Management) (group_id artifact_id : str) (like : Dependency) : option Dependency :=
  by_key m !! key_like group_id artifact_id like.

Definition managed (m : Management) (d : Dependency) : option Dependency :=
  entry m (group_id d) (artifact_id d) d.

Record MissingVersion := { missing_group : str; missing_artifact : str }.

(** [resolve_version_str]. *)
Definition resolve_version_str (m : Management) (d : Dependency) (depth : nat)
    : result MissingVersion str :=
  let declared :=
    ok_or (version d) {| missing_group := group_id d; missing_artifact := artifact_id d |} in
  if (1 <? depth) || bool_decide (version d = None) then
    match managed m d ≫= version with
    | Some v => Ok v
    | None => declared
    end
  else declared.

(** ** The entries of one key, merged *)

Definition of_key (key : ManagementKey) (entries : list Dependency) : list Dependency :=
  List.filter (fun e => manages e && bool_decide (entry_key e = key)) entries.

Definition merge_all (entries : list Dependency) : option Dependency :=
  match entries with [] => None | e :: l => Some (foldl merge_managed e l) end.

Lemma new_lookup_loop entries seen m :
  (forall key, m !! key = merge_all (of_key key seen)) ->
  forall key, foldl new_step m entries !! key = merge_all (of_key key (seen ++ entries)).
Proof.
  revert seen m. induction entries as [|e entries IH]; intros seen m Hm key; cbn [foldl].
  - by rewrite app_nil_r.
  - replace (seen ++ e :: entries) with ((seen ++ [e]) ++ entries) by (by rewrite <-app_assoc).
    apply IH. intros k. unfold of_key. rewrite List.filter_app. cbn [List.filter].
    unfold new_step. destruct (manages e); cbn [negb andb]; [|by rewrite app_nil_r].
    destruct (bool_decide_reflect (entry_key e = k)) as [<-|Hk].
    + rewrite Hm. unfold of_key. destruct (List.filter _ seen) as [|f l]; cbn.
      * by rewrite lookup_insert_eq.
      * by rewrite lookup_insert_eq, foldl_app.
    + rewrite app_nil_r. destruct (m !! entry_key e); rewrite lookup_insert_ne by done; apply Hm.
Qed.

Lemma new_lookup entries key : by_key (new entries) !! key = merge_all (of_key key entries).
Proof. apply (new_lookup_loop entries [] ∅). intros k. by rewrite lookup_empty. Qed.

Lemma merge_field {A} (f : Dependency -> option A) first rest :
  (forall d m, f (merge_managed d m) = fill (f d) (f m)) ->
  f (foldl merge_managed first rest) = first_set (map f (first :: rest)).
Proof.
  intros Hf. revert first. induction rest as [|d rest IH]; intros first; cbn.
  - by destruct (f first).
  - rewrite IH. cbn. rewrite Hf. by destruct (f first).
Qed.

Lemma push_exclusions_elem old new e :
  e ∈ push_exclusions old new <-> e ∈ old \/ e ∈ new.
Proof.
  unfold push_exclusions. revert old. induction new as [|x new IH]; intros old; cbn.
  - set_solver.
  - rewrite IH. case_decide; set_solver.
Qed.

Lemma exists_cons {A} (P : A -> Prop) x l :
  (exists d, d ∈ x :: l /\ P d) <-> P x \/ exists d, d ∈ l /\ P d.
Proof. setoid_rewrite elem_of_cons. naive_solver. Qed.

Lemma merge_exclusions first rest e :
  e ∈ exclusions (foldl merge_managed first rest) <->
  exists d, d ∈ first :: rest /\ e ∈ exclusions d.
Proof.
  revert first. induction rest as [|d rest IH]; intros first; cbn.
  - rewrite exists_cons. set_solver.
  - rewrite IH, !exists_cons. cbn [merge_managed exclusions]. rewrite push_exclusions_elem. tauto.
Qed.

(** the managed entry of a declaration merges the entries for its file, as
    Maven's classic manager: the version, scope and system path come from the
    first of them that sets it and the exclusions are those of all; there is none
    exactly when no entry for that file manages anything. *)
Theorem management_merges entries d :
  match managed (new entries) d with
  | None => of_key (entry_key d) entries = []
  | Some m =>
    let es := of_key (entry_key d) entries in
    es <> [] /\ version m = first_set (map version es) /\ scope m = first_set (map scope es) /\
    system_path m = first_set (map system_path es) /\
    (forall e, e ∈ exclusions m <-> exists x, x ∈ es /\ e ∈ exclusions x)
  end.
Proof.
  unfold managed, entry. fold (entry_key d). rewrite new_lookup.
  destruct (of_key (entry_key d) entries) as [|e l]; [done|]. cbv zeta. cbn [merge_all].
  split_and!; [done|by apply merge_field..|apply merge_exclusions].
Qed.

(** The version requested for a declaration: below the root's own
    dependencies a managed version overrides the declared one, at the root a
    declared version stands, and the request fails, naming the dependency,
    exactly when neither gives one. *)
Lemma resolve_version_spec entries d depth :
  let managed_version := managed (new entries) d ≫= version in
  resolve_version_str (new entries) d depth =
    match (if 1 <? depth then first_set [managed_version; version d]
           else first_set [version d; managed_version]) with
    | Some v => Ok v
    | None => Err {| missing_group := group_id d; missing_artifact := artifact_id d |}
    end.
Proof.
  cbv zeta. unfold resolve_version_str.
  destruct (1 <? depth), (version d), (managed (new entries) d ≫= version); done.
Qed.
