(* ===== verification/Relocation.v ===== *)
(** * Following relocations ([rv-resolver/src/solver/relocation.rs])

    The chain of relocations from a coordinate to its end, with its cache, over a
    backend that may serve anything.  [Backend] is the part of the solver's
    backend trait this code calls; its answers are fixed during a resolution.
    The chain is an insertion-ordered set of coordinates compared by text, and
    the cache is threaded through as state. *)

From Stdlib Require Import Ascii String.
From stdpp Require Import base list strings gmap sorting.
From S2P Require Import Prelude Str Version Coordinates Snapshot Component Keys.

#[local] Set Warnings "-clear-no-such-hyp".

Definition MAX_RELOCATIONS : nat := 32.

(** [pom.rs]: the relocation a POM declares. *)
Record Relocation := {
  rel_group_id : option str;
  rel_artifact_id : option str;
  rel_version : option str;
  rel_message : option str;
}.

(** [error.rs]: a transitive repository the policy ignored. *)
Record DroppedRepo := {
  dropped_url : str;
  dropped_declared_by : str;
  releases_enabled : bool;
  snapshots_enabled : bool;
  http_blocked : bool;
}.

(** The errors of [error.rs] the solver builds or looks into; [Pom] and [Other] hold
    what the backend reports, and [searched] the answers of the repositories.
    [InvalidSystemPath] is the [Pom] error the solver builds itself. *)
Inductive ResolveError (E : Type) :=
  | Declared (module : str) (via : list str) (error : ResolveError E)
  | RelocationCycle (message : str)
  | Pom (e : E)
  | VersionFault (e : VersionError)
  | ArtifactNotFound (coord : str) (searched : E) (dropped_repos : list DroppedRepo)
      (classifier_like : option str)
  | MissingVersionOf (group_id artifact_id : str)
  | InvalidRequirement (coord value : str)
  | InvalidSystemPath (group_id artifact_id : str)
  | UndefinedProperty (coord property declared_by : str)
  | VersionNotFound (coord requirement : str)
  | LimitExceeded (what : str) (limit : N) (coord : str)
  | WorkspaceDependencyCycle (cycle : str)
  | MediationDiverged (coord : str) (changes : N)
  | VersionConflict (coord requested selected : str)
  | Other (e : E).
Arguments Declared {E}.
Arguments RelocationCycle {E}.
Arguments Pom {E}.
Arguments VersionFault {E}.
Arguments ArtifactNotFound {E}.
Arguments MissingVersionOf {E}.
Arguments InvalidRequirement {E}.
Arguments InvalidSystemPath {E}.
Arguments UndefinedProperty {E}.
Arguments VersionNotFound {E}.
Arguments LimitExceeded {E}.
Arguments WorkspaceDependencyCycle {E}.
Arguments MediationDiverged {E}.
Arguments VersionConflict {E}.
Arguments Other {E}.

(** [ResolveError::cause], [declared_via] and [in_model_of]. *)
Fixpoint cause {E} (err : ResolveError E) : ResolveError E :=
  match err with Declared _ _ error => cause error | other => other end.

Definition declared_via {E} (err : ResolveError E) (via : list str) : ResolveError E :=
  match err with Declared _ _ _ => err | error => Declared [] via error end.

Definition gav_text (c : Coord.t) : str :=
  Coord.group_id c ++ $":" ++ Coord.artifact_id c ++ $":" ++ original (Coord.version c).

Definition in_model_of {E} (err : ResolveError E) (coord : Coord.t) : ResolveError E :=
  match err with
  | Declared [] via error => Declared [] (gav_text coord :: via) error
  | Pom _ | InvalidSystemPath _ _ => declared_via err [gav_text coord]
  | other => other
  end.

Record ResolvedVersion (RepoRef : Type) := { resolved : Version; repo : option RepoRef }.
Arguments resolved {RepoRef}.
Arguments repo {RepoRef}.
Arguments Build_ResolvedVersion {RepoRef}.

(** What the relocation code asks of the backend and of a project. *)
Class Backend := {
  Error : Type;
  Project : Type;
  RepoContext : Type;
  repo_context_eq_dec :: EqDecision RepoContext;
  repo_context_countable :: Countable RepoContext;
  project_relocation : Project -> option Relocation;
  workspace_module : Project -> option str;
  fetch_project : Coord.t -> bool -> RepoContext -> result (ResolveError Error) Project;
  resolve_snapshot_version :
    Coord.t -> RepoContext -> result (ResolveError Error) (ResolvedVersion RepoRef.t);
}.

Section Relocations.
Context `{Unicode} `{Backend}.

Abbreviation Result := (result (ResolveError Error)).
Abbreviation Chain := (list Coord.t).
Abbreviation RelocationCache := (gmap (CoordText * RepoContext) (Coord.t * list Coord.t)).

Definition non_empty (o : option str) : option str :=
  opt_filter (fun s => negb (bool_decide (s = []))) o.

Definition relocation_coord (coord : Coord.t) (r : Relocation) : Result Coord.t :=
  let group_id := default (Coord.group_id coord) (non_empty (rel_group_id r)) in
  let artifact_id := default (Coord.artifact_id coord) (non_empty (rel_artifact_id r)) in
  version ← map_err VersionFault (transpose (Version.parse <$> non_empty (rel_version r)));
  Ok {| Coord.group_id := group_id; Coord.artifact_id := artifact_id;
        Coord.version := default (Coord.version coord) version;
        Coord.packaging := Coord.packaging coord; Coord.classifier := Coord.classifier coord |}.

(** [IndexSet::insert]: the set after it, or [None] when the element was there. *)
Definition insert_new (chain : Chain) (c : Coord.t) : option Chain :=
  if existsb (same_text c) chain then None else Some (chain ++ [c]).

Definition chain_between (chain : Chain) : list Coord.t :=
  let last := length chain - 1 in
  take (last - 1) (drop 1 chain).

(** [hops.get(index..).unwrap_or(&[])]. *)
Definition hops_from (hops : list Coord.t) (index : nat) : list Coord.t :=
  if index <=? length hops then drop index hops else [].

(** The insertions of [cache_chain]. *)
Fixpoint cache_entries (cache : RelocationCache) (repos : RepoContext) (last : Coord.t)
    (hops : list Coord.t) (index : nat) (chain : Chain) : RelocationCache :=
  match chain with
  | [] => cache
  | seen :: chain =>
    cache_entries (<[(coord_text seen, repos) := (last, hops_from hops index)]> cache)
      repos last hops (S index) chain
  end.

(** [cache_chain]; the chain is never empty, so [last] has a value. *)
Definition cache_chain (cache : RelocationCache) (chain : Chain) (repos : RepoContext)
    : list Coord.t * RelocationCache :=
  let hops := chain_between chain in
  match last chain with
  | Some last => (hops, cache_entries cache repos last hops 0 chain)
  | None => (hops, cache)
  end.

Definition fmt_len (n : nat) : str := fmt_digits 20 (N.of_nat n) [].

Definition cycle (chain : Chain) (next : Coord.t) : ResolveError Error :=
  let shown := 16 in
  let parts := map Coord.display (take shown chain) in
  let parts :=
    if shown <? length chain
    then parts ++ [$"... (" ++ fmt_len (length chain + 1) ++ $" coordinates)"] else parts in
  RelocationCycle (join $" -> " (parts ++ [Coord.display next])).

Definition too_long (chain : Chain) (coord : Coord.t) : Result unit :=
  if length chain <=? MAX_RELOCATIONS + 1 then Ok tt
  else Err (RelocationCycle (Coord.display coord ++ $" -> "
         ++ from_option Coord.display [] (last chain)
         ++ $" (more than " ++ fmt_len MAX_RELOCATIONS ++ $" relocations)")).

Definition fetch_build (coord : Coord.t) (pinned : option (ResolvedVersion RepoRef.t))
    (repos : RepoContext) : Result (Project * option (ResolvedVersion RepoRef.t)) :=
  if negb (resolves_through_snapshot_metadata (original (Coord.version coord))) then
    project ← fetch_project coord false repos;
    Ok (project, None)
  else
    let selected := negb (bool_decide (is_Some pinned)) in
    snapshot ← match pinned with
               | Some build => Ok build
               | None => resolve_snapshot_version coord repos
               end;
    let build := {| Coord.group_id := Coord.group_id coord;
                    Coord.artifact_id := Coord.artifact_id coord;
                    Coord.version := resolved snapshot;
                    Coord.packaging := Coord.packaging coord;
                    Coord.classifier := Coord.classifier coord |} in
    project ← fetch_project build selected repos;
    Ok (project, Some snapshot).

(** [at_hop]: a fault in a target's model names each hop after the first. *)
Definition at_hop (chain : Chain) (err : ResolveError Error) : ResolveError Error :=
  foldl in_model_of err (reverse (drop 1 chain)).

(** The coordinate a project's relocation leads to. *)
Definition next_coord (current : Coord.t) (project : Project) : Result Coord.t :=
  match project_relocation project with
  | Some relocation =>
    if decide (workspace_module project = None) then relocation_coord current relocation
    else Ok current
  | None => Ok current
  end.

Definition keeps_version (project : Project) : bool :=
  is_some_and (fun r => bool_decide (non_empty (rel_version r) = None)) (project_relocation project).

Definition Fetched : Type :=
  Coord.t * Project * option (ResolvedVersion RepoRef.t) * list Coord.t * bool.

Fixpoint insert_all (chain : Chain) (between : list Coord.t) : Result Chain :=
  match between with
  | [] => Ok chain
  | hop :: between =>
    match insert_new chain hop with
    | None => Err (cycle chain hop)
    | Some chain => insert_all chain between
    end
  end.

(** The end of the loop: what is returned, and the cache. *)
Definition finish (cacheable : bool) (cache : RelocationCache) (chain : Chain) (repos : RepoContext)
    : list Coord.t * RelocationCache :=
  if cacheable then cache_chain cache chain repos else (chain_between chain, cache).

(** The branch that takes on a cached chain. *)
Definition take_cached (coord : Coord.t) (repos : RepoContext) (cache : RelocationCache)
    (chain : Chain) (current mapped : Coord.t) (between : list Coord.t) (cacheable : bool)
    : Result Fetched * RelocationCache :=
  let r :=
    chain ← insert_all chain between;
    chain ← (if same_text mapped current then Ok chain
             else match insert_new chain mapped with
                  | Some chain => Ok chain
                  | None => Err (cycle chain mapped)
                  end);
    _ ← too_long chain coord;
    build ← map_err (at_hop chain) (fetch_build mapped None repos);
    Ok (chain, build) in
  match r with
  | Err e => (Err e, cache)
  | Ok (chain, (project, snapshot)) =>
    let '(between, cache) := finish cacheable cache chain repos in
    (Ok (mapped, project, snapshot, between, false), cache)
  end.

(** The loop of [fetch_project_with_relocation_cached]; [None] is out of fuel. *)
Fixpoint follow (fuel : nat) (coord : Coord.t) (repos : RepoContext) (cache : RelocationCache)
    (chain : Chain) (current : Coord.t) (inherited : option (ResolvedVersion RepoRef.t))
    (cacheable : bool) : option (Result Fetched * RelocationCache) :=
  match fuel with
  | O => None
  | S fuel =>
    match insert_new chain current with
    | None => Some (Err (cycle chain current), cache)
    | Some chain =>
      match too_long chain coord with
      | Err e => Some (Err e, cache)
      | Ok _ =>
        let cached :=
          match inherited with
          | Some _ => None
          | None => cache !! (coord_text current, repos)
          end in
        match cached with
        | Some (mapped, between) =>
          Some (take_cached coord repos cache chain current mapped between cacheable)
        | None =>
          let pinned := bool_decide (is_Some inherited) in
          match map_err (at_hop chain) (fetch_build current inherited repos) with
          | Err e => Some (Err e, cache)
          | Ok (project, snapshot) =>
            match next_coord current project with
            | Err e => Some (Err e, cache)
            | Ok next =>
              if same_text next current then
                let '(between, cache) := finish cacheable cache chain repos in
                Some (Ok (current, project, snapshot, between, pinned), cache)
              else
                match (if keeps_version project then snapshot else None) with
                | Some build =>
                  follow fuel coord repos cache chain next
                    (Some {| resolved := resolved build; repo := None |}) false
                | None => follow fuel coord repos cache chain next None cacheable
                end
            end
          end
        end
      end
    end
  end.

(** [fetch_project_with_relocation_cached], with fuel for the longest chain. *)
Definition fetch_project_with_relocation_cached (coord : Coord.t) (repos : RepoContext)
    (cache : RelocationCache) : option (Result Fetched * RelocationCache) :=
  follow (MAX_RELOCATIONS + 2) coord repos cache [] coord None true.
End Relocations.

(** ** Chains *)

Section Facts.
Context `{Unicode} `{Backend}.

Lemma same_text_true a b : same_text a b = true <-> coord_text a = coord_text b.
Proof. apply bool_decide_eq_true. Qed.

Definition distinct (chain : list Coord.t) : Prop := NoDup (map coord_text chain).

Lemma insert_new_Some chain c chain' :
  insert_new chain c = Some chain' ->
  chain' = chain ++ [c] /\ (distinct chain -> distinct chain').
Proof.
  unfold insert_new. destruct (existsb (same_text c) chain) eqn:E; [done|]. intros [= <-].
  split; [done|]. unfold distinct. intros Hd. rewrite map_app. apply NoDup_app. split; [done|].
  split; [|apply NoDup_singleton]. intros t Ht Hin. apply list_elem_of_singleton in Hin as ->.
  apply list_elem_of_fmap in Ht as (d & Hd' & Hin).
  apply not_true_iff_false in E. apply E, existsb_exists. exists d.
  split; [by apply list_elem_of_In|by apply same_text_true].
Qed.

Lemma insert_all_Ok chain between chain' :
  insert_all chain between = Ok chain' ->
  chain' = chain ++ between /\ (distinct chain -> distinct chain').
Proof.
  revert chain. induction between as [|hop between IH]; intros chain; cbn.
  - intros [= <-]. by rewrite app_nil_r.
  - destruct (insert_new chain hop) as [c1|] eqn:E; [|done].
    apply insert_new_Some in E as [-> Hd]. intros [-> Hd']%IH. rewrite <-app_assoc in Hd' |- *.
    split; [done|auto].
Qed.

Lemma too_long_Ok chain coord u : too_long chain coord = Ok u -> length chain <= MAX_RELOCATIONS + 1.
Proof. unfold too_long. by destruct (Nat.leb_spec (length chain) (MAX_RELOCATIONS + 1)). Qed.

(** Enough fuel for whatever chain the backend serves. *)
Lemma follow_fuel fuel coord repos cache chain current inherited cacheable :
  length chain <= MAX_RELOCATIONS + 1 -> MAX_RELOCATIONS + 2 <= fuel + length chain ->
  is_Some (follow fuel coord repos cache chain current inherited cacheable).
Proof.
  revert chain current inherited cacheable.
  induction fuel as [|fuel IH]; intros chain current inherited cacheable Hc Hf; [lia|].
  cbn [follow]. destruct (insert_new chain current) as [chain1|] eqn:Ei; [|by eauto].
  apply insert_new_Some in Ei as [-> _].
  destruct (too_long _ coord) eqn:Et; [|by eauto]. apply too_long_Ok in Et.
  rewrite length_app in Et. cbn [length] in Et.
  assert (forall next inh ca, is_Some (follow fuel coord repos cache (chain ++ [current]) next inh ca))
    as Hgo by (intros; apply IH; rewrite length_app; cbn [length]; lia).
  destruct (match inherited with Some _ => None | None => _ end) as [[mapped between]|]; [by eauto|].
  destruct (map_err _ _) as [[project snapshot]|e]; [|by eauto].
  destruct (next_coord current project) as [next|e]; [|by eauto].
  destruct (same_text next current); [destruct (finish _ _ _ _); by eauto|].
  destruct (if keeps_version project then snapshot else None); apply Hgo.
Qed.

(** The build a chain ends at is the one of a fetch of its last coordinate, pinned or
    not. *)
Definition build_of (repos : RepoContext) (r : result (ResolveError Error) Fetched) : Prop :=
  match r with
  | Err _ => True
  | Ok (found, project, snapshot, _, pinned) =>
    exists pin, fetch_build found pin repos = Ok (project, snapshot) /\ pinned = bool_decide (is_Some pin)
  end.

Lemma take_cached_build coord repos cache chain current mapped between cacheable :
  build_of repos (take_cached coord repos cache chain current mapped between cacheable).1.
Proof.
  unfold take_cached. set (run := insert_all chain between ≫= _). destruct run as [[chain' [project snapshot]]|] eqn:Er; [|done].
  subst run. inv_ok Er. inv_ok Er. inv_ok Er. inv_ok Er. injection Er as <- ->. destruct (finish _ _ _ _). exists None.
  split; [|done]. destruct (fetch_build mapped None repos) as [b|]; [|done]. by injection Ha2 as ->.
Qed.

Lemma follow_build fuel coord repos cache chain current inherited cacheable r cache' :
  follow fuel coord repos cache chain current inherited cacheable = Some (r, cache') -> build_of repos r.
Proof.
  revert chain current inherited cacheable. induction fuel as [|fuel IH]; intros chain current inherited cacheable; cbn [follow]; [done|].
  destruct (insert_new chain current) as [chain1|]; [|by intros [= <- _]]. destruct (too_long chain1 coord); [|by intros [= <- _]].
  destruct (match inherited with Some _ => None | None => _ end) as [[mapped between]|].
  - intros [= E]. pose proof (take_cached_build coord repos cache chain1 current mapped between cacheable) as Hb. by rewrite E in Hb.
  - destruct (fetch_build current inherited repos) as [[project snapshot]|] eqn:Ef; cbn [map_err]; [|by intros [= <- _]].
    destruct (next_coord current project) as [next|]; [|by intros [= <- _]].
    destruct (same_text next current).
    + destruct (finish _ _ _ _). intros [= <- _]. by exists inherited.
    + destruct (if keeps_version project then snapshot else None); apply IH.
Qed.

Lemma fetch_with_relocation_build coord repos cache r cache' :
  fetch_project_with_relocation_cached coord repos cache = Some (r, cache') -> build_of repos r.
Proof. unfold fetch_project_with_relocation_cached. generalize (MAX_RELOCATIONS + 2). intros fuel. apply follow_build. Qed.

Lemma chain_between_bound chain :
  length chain <= MAX_RELOCATIONS + 1 -> length (chain_between chain) <= MAX_RELOCATIONS - 1.
Proof.
  intros Hl. unfold chain_between. rewrite length_take, length_drop.
  unfold MAX_RELOCATIONS in *. lia.
Qed.

Lemma chain_between_distinct chain : distinct chain -> distinct (chain_between chain).
Proof.
  unfold distinct, chain_between. intros Hd.
  eapply sublist_NoDup; [exact Hd|]. apply fmap_sublist.
  etransitivity; [apply sublist_take|apply sublist_drop].
Qed.

Lemma finish_between cacheable cache chain repos :
  (finish cacheable cache chain repos).1 = chain_between chain.
Proof. unfold finish, cache_chain. destruct cacheable; [|done]. by destruct (last chain). Qed.

(** One relocation, from the model of the coordinate or of a pinned build. *)
Definition hop (repos : RepoContext) (c n : Coord.t) : Prop :=
  exists pin project snapshot, fetch_build c pin repos = Ok (project, snapshot) /\
    next_coord c project = Ok n /\ same_text n c = false.

(** One relocation that any chain through the coordinate takes: from its own
    model, and handing no build on. *)
Definition plain_hop (repos : RepoContext) (c n : Coord.t) : Prop :=
  exists project snapshot, fetch_build c None repos = Ok (project, snapshot) /\
    next_coord c project = Ok n /\ same_text n c = false /\
    (if keeps_version project then snapshot else None) = None.

Definition terminal (repos : RepoContext) (c : Coord.t) : Prop :=
  exists project snapshot n, fetch_build c None repos = Ok (project, snapshot) /\
    next_coord c project = Ok n /\ same_text n c = true.

Lemma plain_hop_hop repos c n : plain_hop repos c n -> hop repos c n.
Proof. intros (p & s & ? & ? & ? & _). by exists None, p, s. Qed.

(** A coordinate whose version was parsed: its text determines it. *)
Definition regular (c : Coord.t) : Prop :=
  items (Coord.version c) = parse_items (original (Coord.version c)).

Lemma regular_text a b : regular a -> regular b -> coord_text a = coord_text b -> a = b.
Proof.
  destruct a as [g a [o i] p k], b as [g' a' [o' i'] p' k']. unfold regular, coord_text. cbn.
  intros -> -> [=]. by subst.
Qed.

Lemma regular_next c project n : regular c -> next_coord c project = Ok n -> regular n.
Proof.
  intros Hc. unfold next_coord. destruct (project_relocation project) as [r|]; [|by intros [= <-]].
  case_decide; [|by intros [= <-]]. unfold relocation_coord. intros E. inv_ok E. inv_ok Ha.
  injection E as <-. unfold regular. cbn. destruct (non_empty (rel_version r)) as [v|]; cbn in Ha.
  - destruct (Version.parse v) as [w|] eqn:Ev; [|done]. injection Ha as <-.
    by apply parse_Ok in Ev as (-> & _).
  - by injection Ha as <-.
Qed.

(** What the cache says of a coordinate: the chain of plain relocations from it. *)
Definition entry_ok (repos : RepoContext) (c mapped : Coord.t) (between : list Coord.t) : Prop :=
  exists tail, Sorted (plain_hop repos) (c :: tail) /\ last (c :: tail) = Some mapped /\
    terminal repos mapped /\ between = take (length tail - 1) tail /\
    Forall regular (c :: tail) /\ distinct (c :: tail).

Definition cache_ok (cache : gmap (CoordText * RepoContext) (Coord.t * list Coord.t)) : Prop :=
  forall t repos mapped between, cache !! (t, repos) = Some (mapped, between) ->
    exists c, coord_text c = t /\ entry_ok repos c mapped between.

Lemma hops_from_tail pre c tail :
  hops_from (chain_between (pre ++ c :: tail)) (length pre) = take (length tail - 1) tail.
Proof.
  unfold hops_from, chain_between. rewrite length_app. cbn [length].
  destruct (Nat.leb_spec (length pre) (length (take (length pre + S (length tail) - 1 - 1)
    (drop 1 (pre ++ c :: tail))))) as [Hle|Hgt].
  - rewrite skipn_firstn_comm, drop_drop.
    replace (length pre + S (length tail) - 1 - 1 - length pre) with (length tail - 1) by lia.
    f_equal. replace (1 + length pre) with (length (pre ++ [c])) by (rewrite length_app; cbn; lia).
    replace (pre ++ c :: tail) with ((pre ++ [c]) ++ tail) by (by rewrite <-app_assoc).
    apply drop_app_length.
  - rewrite length_take, length_drop, length_app in Hgt. cbn [length] in Hgt.
    by replace (length tail - 1) with 0 by lia.
Qed.

(** A chain of plain relocations that has ended. *)
Definition chain_ok (repos : RepoContext) (chain : list Coord.t) : Prop :=
  Sorted (plain_hop repos) chain /\ Forall regular chain /\ distinct chain /\
  from_option (terminal repos) False (last chain).

Lemma chain_suffix_ok repos pre c tail mapped :
  chain_ok repos (pre ++ c :: tail) -> last (pre ++ c :: tail) = Some mapped ->
  entry_ok repos c mapped (take (length tail - 1) tail).
Proof.
  intros (Hs & Hr & Hd & Ht) Hl. rewrite Hl in Ht. exists tail.
  assert (last (c :: tail) = Some mapped) as Hl'.
  { revert Hl. rewrite last_app. by destruct (last (c :: tail)) eqn:E; [|rewrite last_None in E]. }
  split_and!; try done.
  - clear -Hs. induction pre as [|x pre IH]; [done|]. cbn in Hs. apply Sorted_inv in Hs as [Hs _]. auto.
  - by apply Forall_app in Hr as [_ Hr].
  - unfold distinct in *. rewrite map_app in Hd. by apply NoDup_app in Hd as (_ & _ & Hd).
Qed.

Lemma cache_entries_ok repos mapped chain pre cache :
  chain_ok repos (pre ++ chain) -> last (pre ++ chain) = Some mapped -> cache_ok cache ->
  cache_ok (cache_entries cache repos mapped (chain_between (pre ++ chain)) (length pre) chain).
Proof.
  revert pre cache. induction chain as [|c tail IH]; intros pre cache Hc Hl Hok; [done|].
  cbn [cache_entries]. rewrite hops_from_tail.
  replace (S (length pre)) with (length (pre ++ [c])) by (rewrite length_app; cbn; lia).
  replace (pre ++ c :: tail) with ((pre ++ [c]) ++ tail) in * by (by rewrite <-app_assoc).
  apply IH; [done..|]. intros t r m b.
  destruct (decide ((coord_text c, repos) = (t, r))) as [[= <- <-]|Hne].
  - rewrite lookup_insert_eq. intros [= <- <-]. exists c. split; [done|].
    rewrite <-app_assoc in Hc, Hl. by eapply (chain_suffix_ok repos pre).
  - rewrite lookup_insert_ne by done. apply Hok.
Qed.

Lemma finish_ok cacheable cache chain repos :
  (cacheable = true -> chain_ok repos chain) -> cache_ok cache ->
  cache_ok (finish cacheable cache chain repos).2.
Proof.
  unfold finish, cache_chain. destruct cacheable; [|done]. intros Hc Hok.
  destruct (last chain) as [m|] eqn:El; [|done]. cbn [snd].
  by apply (cache_entries_ok repos m chain []); [apply Hc| |].
Qed.

Lemma Sorted_join {A} (R : A -> A -> Prop) l x l' :
  Sorted R (l ++ [x]) -> Sorted R (x :: l') -> Sorted R (l ++ x :: l').
Proof.
  induction l as [|a l IH]; [done|]. cbn. intros [Hs Hh]%Sorted_inv Hx.
  constructor; [by apply IH|]. destruct l; cbn in *; by inversion Hh; constructor.
Qed.

Lemma Sorted_hop repos l : Sorted (plain_hop repos) l -> Sorted (hop repos) l.
Proof.
  induction 1 as [|a l Hs IH Hh]; constructor; [done|].
  inversion Hh; constructor. by apply plain_hop_hop.
Qed.

(** What a chain that was followed to its end amounts to. *)
Definition followed (repos : RepoContext) (coord : Coord.t) (r : result (ResolveError Error) Fetched) : Prop :=
  match r with
  | Err _ => True
  | Ok (found, _, _, between, _) =>
    exists tail, Sorted (hop repos) (coord :: tail) /\ last (coord :: tail) = Some found /\
      between = take (length tail - 1) tail /\ length tail <= MAX_RELOCATIONS /\
      distinct (coord :: tail)
  end.

Lemma followed_chain repos coord chain found project snapshot pinned :
  Sorted (hop repos) chain -> head chain = Some coord -> last chain = Some found ->
  length chain <= MAX_RELOCATIONS + 1 -> distinct chain ->
  followed repos coord (Ok (found, project, snapshot, chain_between chain, pinned)).
Proof.
  intros Hs Hh Hl Hlen Hd. destruct chain as [|c tail]; [done|]. injection Hh as ->.
  exists tail. split_and!; try done; [|cbn [length] in Hlen; lia].
  unfold chain_between. cbn [length drop]. rewrite drop_0. f_equal. lia.
Qed.

(** The invariant of the loop, for the chain that ends at [current]. *)
Record loop_ok (coord : Coord.t) (repos : RepoContext) (chain : list Coord.t)
    (inherited : option (ResolvedVersion RepoRef.t)) (cacheable : bool) : Prop := {
  loop_hops : Sorted (hop repos) chain;
  loop_regular : Forall regular chain;
  loop_start : head chain = Some coord;
  loop_plain : cacheable = true -> inherited = None /\ Sorted (plain_hop repos) chain;
}.

Lemma entry_tail repos c mapped between chain' chain :
  entry_ok repos c mapped between -> distinct chain' ->
  chain' = chain ++ c :: between ++ (if same_text mapped c then [] else [mapped]) ->
  exists tail, chain' = chain ++ c :: tail /\ Sorted (plain_hop repos) (c :: tail) /\
    last (c :: tail) = Some mapped /\ terminal repos mapped /\ Forall regular (c :: tail).
Proof.
  intros (tail & Hs & Hl & Ht & -> & Hr & Hd) _ ->. exists tail. split_and!; try done.
  f_equal. f_equal. destruct tail as [|x tail].
  - injection Hl as ->. by rewrite (proj2 (same_text_true _ _)).
  - destruct (exists_last (l:=x :: tail)) as (u & m & E); [done|]. rewrite E in *.
    rewrite last_cons, last_snoc in Hl. injection Hl as ->.
    rewrite length_app. cbn [length]. replace (length u + 1 - 1) with (length u) by lia.
    rewrite take_app_length. destruct (same_text mapped c) eqn:Em; [|done].
    apply same_text_true in Em. unfold distinct in Hd. cbn [map] in Hd.
    apply NoDup_cons in Hd as [Hd _]. exfalso. apply Hd. rewrite map_app, <-Em.
    apply elem_of_app. right. by left.
Qed.

Lemma take_cached_ok coord repos cache chain current mapped between cacheable inherited r cache' :
  loop_ok coord repos (chain ++ [current]) inherited cacheable -> distinct (chain ++ [current]) ->
  cache_ok cache -> entry_ok repos current mapped between ->
  take_cached coord repos cache (chain ++ [current]) current mapped between cacheable = (r, cache') ->
  cache_ok cache' /\ followed repos coord r.
Proof.
  intros Hloop Hd Hok Hent. unfold take_cached.
  set (run := insert_all (chain ++ [current]) between ≫= _).
  destruct run as [[chain' [project snapshot]]|e] eqn:Er; [|by intros [= <- <-]].
  subst run. inv_ok Er. apply insert_all_Ok in Ha as [-> Hd1]. inv_ok Er.
  assert (a = ((chain ++ [current]) ++ between) ++ (if same_text mapped current then [] else [mapped])
          /\ distinct a) as [Ea Hda].
  { destruct (same_text mapped current); [injection Ha as <-; rewrite app_nil_r; auto|].
    destruct (insert_new _ mapped) as [c1|] eqn:Ei; [|done]. injection Ha as <-.
    apply insert_new_Some in Ei as [-> Hd2]. auto. }
  clear Ha. inv_ok Er. apply too_long_Ok in Ha. inv_ok Er. injection Er as <- ->. inv_ok Ha0.
  destruct (entry_tail repos current mapped between a chain Hent Hda) as (tail & -> & Hs & Hl & Ht & Hr).
  { rewrite Ea, <-!app_assoc. done. }
  destruct Hloop as [Hh Hreg Hst Hpl].
  assert (last (chain ++ current :: tail) = Some mapped) as Hl'.
  { rewrite last_app, Hl. done. }
  pose proof (finish_between cacheable cache (chain ++ current :: tail) repos) as Hb.
  assert (cache_ok (finish cacheable cache (chain ++ current :: tail) repos).2) as Hc.
  { apply finish_ok; [|done]. intros Hca. destruct (Hpl Hca) as [_ Hsp]. split_and!; try done.
    - by apply Sorted_join.
    - apply Forall_app. split; [by apply Forall_app in Hreg as [? _]|done].
    - by rewrite Hl'. }
  destruct (finish _ _ _ _) as [b2 c2]. cbn in Hb, Hc. subst b2. intros [= <- <-]. split; [done|].
  apply followed_chain; try done.
  - apply Sorted_join; [done|by apply Sorted_hop].
  - by destruct chain.
Qed.

Lemma cache_hit cache repos current mapped between :
  cache_ok cache -> regular current -> cache !! (coord_text current, repos) = Some (mapped, between) ->
  entry_ok repos current mapped between.
Proof.
  intros Hok Hr E. destruct (Hok _ _ _ _ E) as (c & Ht & Hent).
  enough (c = current) by by subst. apply regular_text; [|done|done].
  destruct Hent as (tail & _ & _ & _ & _ & Hreg & _). by apply Forall_cons in Hreg as [? _].
Qed.

Lemma follow_ok fuel coord repos cache chain current inherited cacheable r cache' :
  loop_ok coord repos (chain ++ [current]) inherited cacheable -> distinct chain -> cache_ok cache ->
  follow fuel coord repos cache chain current inherited cacheable = Some (r, cache') ->
  cache_ok cache' /\ followed repos coord r.
Proof.
  revert chain current inherited cacheable.
  induction fuel as [|fuel IH]; intros chain current inherited cacheable Hloop Hd Hok; cbn [follow]; [done|].
  destruct (insert_new chain current) as [chain1|] eqn:Ei; [|by intros [= <- <-]].
  apply insert_new_Some in Ei as [-> Hd1]. specialize (Hd1 Hd).
  destruct (too_long _ coord) eqn:Et; [|by intros [= <- <-]]. apply too_long_Ok in Et.
  destruct Hloop as [Hh Hreg Hst Hpl] eqn:HL. clear HL.
  assert (regular current) as Hcur.
  { apply Forall_app in Hreg as [_ Hreg]. by apply Forall_cons in Hreg as [? _]. }
  destruct (match inherited with Some _ => None | None => _ end) as [[mapped between]|] eqn:Ec.
  { assert (entry_ok repos current mapped between) as Hent.
    { destruct inherited; [done|]. by eapply cache_hit. }
    intros E. eapply (take_cached_ok coord repos cache chain current mapped between cacheable); try done.
    by injection E. }
  destruct (map_err _ _) as [[project snapshot]|e] eqn:Ef; [|by intros [= <- <-]]. inv_ok Ef.
  destruct (next_coord current project) as [next|e] eqn:En; [|by intros [= <- <-]].
  destruct (same_text next current) eqn:Es.
  - pose proof (finish_between cacheable cache (chain ++ [current]) repos) as Hb.
    assert (cache_ok (finish cacheable cache (chain ++ [current]) repos).2) as Hc.
    { apply finish_ok; [|done]. intros Hca. destruct (Hpl Hca) as [-> Hsp].
      split_and!; try done. rewrite last_snoc. by exists project, snapshot, next. }
    destruct (finish _ _ _ _) as [b2 c2]. cbn in Hb, Hc. subst b2. intros [= <- <-].
    split; [done|]. apply followed_chain; try done. by rewrite last_snoc.
  - assert (hop repos current next) as Hhop by by exists inherited, project, snapshot.
    assert (Sorted (hop repos) ((chain ++ [current]) ++ [next])) as Hh'.
    { rewrite <-app_assoc. apply Sorted_join; [done|]. by repeat constructor. }
    assert (Forall regular ((chain ++ [current]) ++ [next])) as Hreg'.
    { apply Forall_app. split; [done|]. apply Forall_singleton. by eapply regular_next. }
    assert (head ((chain ++ [current]) ++ [next]) = Some coord) as Hst' by by destruct chain.
    destruct (if keeps_version project then snapshot else None) as [build|] eqn:Ek.
    + by apply IH.
    + apply IH; [|done..]. split; try done. intros Hca. destruct (Hpl Hca) as [-> Hsp].
      split; [done|]. rewrite <-app_assoc. apply Sorted_join; [done|].
      repeat constructor. by exists project, snapshot.
Qed.

(** following relocations ends for every backend, however it relocates, and
    from every cache. *)
Theorem relocation_terminates coord repos cache :
  exists r cache', fetch_project_with_relocation_cached coord repos cache = Some (r, cache').
Proof.
  destruct (follow_fuel (MAX_RELOCATIONS + 2) coord repos cache [] coord None true) as [[r c] E].
  - cbn. lia.
  - cbn. lia.
  - by exists r, c.
Qed.

(** C34: a chain that is followed to its end is a chain of the backend's own
    relocations from the coordinate to the project returned, of at most 32 steps
    and without repeats, with the coordinates between reported; and the cache
    only ever maps a coordinate to the end of the chain its own model starts, so a
    later lookup takes the same way. *)
Theorem relocation_sound coord repos cache r cache' :
  regular coord -> cache_ok cache ->
  fetch_project_with_relocation_cached coord repos cache = Some (r, cache') ->
  cache_ok cache' /\ followed repos coord r.
Proof.
  intros Hr Hok. apply follow_ok; [|apply NoDup_nil_2|done].
  split; cbn; [by repeat constructor|by apply Forall_singleton|done|].
  intros _. split; [done|by repeat constructor].
Qed.
End Facts.

(** ** Witness: a backend that relocates [old] to [mid] and [mid] to [new] *)

#[local] Existing Instance ascii_tables.

Definition demo_coord (a : str) : Coord.t :=
  {| Coord.group_id := $"g"; Coord.artifact_id := a; Coord.version := unresolved $"1";
     Coord.packaging := None; Coord.classifier := None |}.

Definition demo_backend : Backend := {|
  Error := unit; Project := option Relocation; RepoContext := unit;
  project_relocation p := p; workspace_module _ := None;
  fetch_project c _ _ :=
    let to a := Ok (Some {| rel_group_id := None; rel_artifact_id := Some a; rel_version := None;
                            rel_message := None |}) in
    if decide (Coord.artifact_id c = $"old") then to $"mid"
    else if decide (Coord.artifact_id c = $"mid") then to $"new" else Ok None;
  resolve_snapshot_version _ _ := Err (Other tt);
|}.
#[local] Existing Instance demo_backend.

Definition demo_repos : RepoContext := tt.
Definition demo_run := fetch_project_with_relocation_cached (demo_coord $"old") demo_repos ∅.

(** The end of the chain and what lies between, of a run that returned. *)
Definition run_end (x : result (ResolveError Error) Fetched * gmap (CoordText * RepoContext) (Coord.t * list Coord.t))
    : option (Coord.t * list Coord.t) :=
  match x.1 with Ok (found, _, _, between, _) => Some (found, between) | Err _ => None end.

Lemma relocation_sound_witness :
  demo_run ≫= run_end = Some (demo_coord $"new", [demo_coord $"mid"]) /\
  from_option (fun x => cache_ok x.2 /\ followed demo_repos (demo_coord $"old") x.1) False demo_run.
Proof.
  split; [by vm_compute|].
  destruct (follow_fuel (MAX_RELOCATIONS + 2) (demo_coord $"old") demo_repos ∅ []
    (demo_coord $"old") None true) as [[r cache] E]; [cbn; lia|cbn; lia|].
  unfold demo_run, fetch_project_with_relocation_cached. rewrite E. cbn [from_option fst snd].
  apply (relocation_sound (demo_coord $"old") demo_repos ∅ r cache);
    [reflexivity|intros t k m b; rewrite lookup_empty; discriminate|exact E].
Defined.
