(* ===== verification/Mediation.v ===== *)
(** * Mediation ([rv-resolver/src/solver/mod.rs])

    What a declaration requests, the management applied to it, and the choice among
    the candidates of one conflict group: Maven's nearest version that every hard
    constraint accepts, with the shortcut for declarations behind a settled winner.

    Candidates are shared by reference in the code and never changed through a
    share, so they are values here.  Projects and repositories are carried along
    and not looked at. *)

From Stdlib Require Import Ascii String.
From stdpp Require Import base list strings gmap.
From S2P Require Import Prelude Iter Str Version Range Coordinates Snapshot Dependency DepManagement Keys Queue Management Relocation.

#[local] Set Warnings "-clear-no-such-hyp".

(** ** What a declaration requests *)

Module Requested.
Inductive t :=
  | Exact (v : Version)
  | Soft (v : Version)
  | Ranges (req : VersionReq)
  | Dynamic (token : DynamicVersionToken).
End Requested.

Record InvalidVersionRequirement := { invalid_coord : str; invalid_value : str }.

Section Requests.
Context `{Unicode}.

Definition parse_requested_requirement (group_id artifact_id raw_version : str)
    : result InvalidVersionRequirement Requested.t :=
  let trimmed := trim raw_version in
  let invalid := {| invalid_coord := group_id ++ $":" ++ artifact_id; invalid_value := trimmed |} in
  match parse_dynamic_version_token trimmed with
  | Some token => Ok (Requested.Dynamic token)
  | None =>
    if ends_with_char (one_of ["+"]%char) trimmed || starts_with $"latest." (to_ascii_lowercase trimmed)
    then Err invalid
    else
      req ← map_err (fun _ => invalid) (parse_req trimmed);
      match exact_version req with
      | Some version => Ok (Requested.Exact version)
      | None =>
        match req with
        | Soft version => Ok (Requested.Soft version)
        | req => Ok (Requested.Ranges req)
        end
      end
  end.

Record Hard := { req : VersionReq; text : str }.

Definition hard_constraint (requirement : Requested.t) : option Hard :=
  match requirement with
  | Requested.Ranges range => Some {| req := range; text := show_req range |}
  | Requested.Exact version => Some {| req := Exact version; text := show_req (Exact version) |}
  | _ => None
  end.
End Requests.

(** ** Management of a queued declaration *)

(** [manage]: the managed declaration, and whether the scope was managed. *)
Definition manage (managed dep : Dependency) (depth : N) : Dependency * bool :=
  let scope' := opt_filter (fun _ => (1 <? depth)%N) (scope managed) in
  let dep :=
    match scope' with
    | None => dep
    | Some s =>
      let dep := {| group_id := group_id dep; artifact_id := artifact_id dep; version := version dep;
        type_ := type_ dep; classifier := classifier dep; scope := Some s; optional := optional dep;
        exclusions := exclusions dep; system_path := system_path dep |} in
      let path :=
        if decide (effective_scope dep = System) then
          match system_path managed with Some p => Some p | None => system_path dep end
        else None in
      {| group_id := group_id dep; artifact_id := artifact_id dep; version := version dep;
         type_ := type_ dep; classifier := classifier dep; scope := scope dep; optional := optional dep;
         exclusions := exclusions dep; system_path := path |}
    end in
  ({| group_id := group_id dep; artifact_id := artifact_id dep; version := version dep;
      type_ := type_ dep; classifier := classifier dep; scope := scope dep; optional := optional dep;
      exclusions := push_exclusions (exclusions dep) (exclusions managed);
      system_path := system_path dep |},
   bool_decide (is_Some scope')).

Definition with_dependency {R : Type} (item : QueueItem R) (d : Dependency) (managed_scope : bool) : QueueItem R := {|
  item_parent := item_parent item; parent_generation := parent_generation item;
  dependency := d; item_managed_scope := managed_scope; depth := depth item; order := order item;
  declared_at := declared_at item; item_exclusions := item_exclusions item;
  item_path := item_path item; shadow := shadow item |}.

Definition apply_managed_metadata {R : Type} (management : Management) (item : QueueItem R) : QueueItem R :=
  match managed management (dependency item) with
  | None => item
  | Some m =>
    if (bool_decide (scope m = None) || (depth item <=? 1)%N) && bool_decide (exclusions m = [])
    then item
    else
      let '(d, scoped) := manage m (dependency item) (depth item) in
      with_dependency item d (item_managed_scope item || scoped)
  end.

Definition follows (d : Dependency) : bool :=
  negb (includes_dependencies d) && negb (bool_decide (effective_scope d = System)).

Definition coord_of (d : Dependency) (version : Version) : Coord.t := {|
  Coord.group_id := group_id d; Coord.artifact_id := artifact_id d; Coord.version := version;
  Coord.packaging := if decide (effective_type d = $"jar") then None else Some (effective_type d);
  Coord.classifier := effective_classifier d |}.

(** [key_of] of a declaration. *)
Definition dependency_key (d : Dependency) : CoordKey := {|
  key_group_id := group_id d; key_artifact_id := artifact_id d;
  key_packaging := if decide (effective_type d = $"jar") then None else Some (effective_type d);
  key_classifier := effective_classifier d |}.

(** [edge]. *)
Definition edge {R : Type} (item : QueueItem R) : Edge := {|
  edge_scope := effective_scope (dependency item);
  managed_scope := item_managed_scope item;
  declared := if (depth item =? 1)%N then Some (declared_at item) else None;
  edge_optional := effective_optional (dependency item);
  edge_exclusions := exclusions (dependency item);
  requested := version (dependency item) |}.

Definition names_property (c : Coord.t) : bool :=
  existsb (contains $"${") [Coord.group_id c; Coord.artifact_id c; original (Coord.version c)].

Definition managed_child_version (mgmt : list Dependency) (dep : Dependency) : option str :=
  first_set (map version (List.filter (fun m =>
    bool_decide (group_id m = group_id dep) && bool_decide (artifact_id m = artifact_id dep)
    && bool_decide (effective_type m = effective_type dep)
    && bool_decide (effective_classifier m = effective_classifier dep)) mgmt)).

Section Prefetch.
Context `{Unicode} {R : Type}.

Definition prefetch_requirement (item : QueueItem R) (management : Management)
    : option (Dependency * Requested.t) :=
  let followed := is_followed_transitively (dependency item) in
  let item := apply_managed_metadata management item in
  let d := dependency item in
  if is_excluded d (item_exclusions item) || ((1 <? depth item)%N && negb followed)
     || bool_decide (effective_scope d ∈ [Import; System])
  then None
  else
    version_str ← ok (resolve_version_str management d (N.to_nat (depth item)));
    requirement ← ok (parse_requested_requirement (group_id d) (artifact_id d) version_str);
    Some (d, requirement).

Definition fixed_coord (d : Dependency) (requirement : Requested.t) : option Coord.t :=
  match requirement with
  | Requested.Exact v | Requested.Soft v =>
    if resolves_through_snapshot_metadata (original v) then None else Some (coord_of d v)
  | _ => None
  end.

Definition prefetch_coord (item : QueueItem R) (management : Management) : option Coord.t :=
  '(d, requirement) ← prefetch_requirement item management;
  fixed_coord d requirement.
End Prefetch.

(** ** Candidates *)

Section Candidates.
Context {RepoContext RepoRef ResolvedProject : Type}.

(** A candidate in its [Arc]: [arc] is the allocation, which [Arc::ptr_eq] compares. *)
Record Candidate := {
  arc : nat;
  item : QueueItem RepoContext;
  coord : Coord.t;
  resolved_version : ResolvedVersion RepoRef;
  resolved_project : option ResolvedProject;
  hard : option Hard;
  source : list nat;
  inherited : list CoordKey;
}.

Definition candidate_version (c : Candidate) : Version := Coord.version (coord c).

(** The comparison of two [rank]s: the version is reversed. *)
Definition rank_cmp (a b : Candidate) : comparison :=
  ord_then (N.compare (depth (item a)) (depth (item b)))
 (ord_then (tree_cmp (tree_parent (order (item a))) (tree_parent (order (item b))))
 (ord_then (version_cmp (candidate_version b) (candidate_version a))
 (ord_then (tree_cmp (order (item a)) (order (item b)))
           (N.compare (declared_at (item a)) (declared_at (item b)))))).

Definition rank_ltb (a b : Candidate) : bool :=
  match rank_cmp a b with Lt => true | _ => false end.

Definition same_candidate (a b : Candidate) : bool :=
  is_eq (tree_cmp (order (item a)) (order (item b))) && same_text (coord a) (coord b).

Record Conflict := {
  conflict_coord : str;
  conflict_requested : str;
  conflict_selected : str;
  conflict_at : N * TreeOrder * N;
}.

(** The candidates nearer than a settled winner, with the constraints' memo. *)
Record Settled := { nearer : list Candidate; rejects_memo : gmap str bool }.

Record Selected := {
  node : nat;
  candidates : list Candidate;
  winner : option Candidate;
  winner_path : option (PathNode RepoContext);
  scanned : gset N;
  walked : gset N;
  dirty_checked : gset N;
  conflict : option Conflict;
  winners : list (TreeOrder * str);
  changes : N;
  settled : option Settled;
}.

Definition new_selected (node : nat) (candidates : list Candidate) : Selected := {|
  node := node; candidates := candidates; winner := None; winner_path := None; scanned := ∅;
  walked := ∅; dirty_checked := ∅; conflict := None; winners := []; changes := 0; settled := None |}.

Definition with_candidates (s : Selected) (cs : list Candidate) : Selected := {|
  node := node s; candidates := cs; winner := winner s; winner_path := winner_path s;
  scanned := scanned s; walked := walked s; dirty_checked := dirty_checked s;
  conflict := conflict s; winners := winners s; changes := changes s; settled := settled s |}.

(** Whether a constraint accepts a candidate's version. *)
Definition accepts (h : Hard) (c : Candidate) : bool := req_matches (req h) (candidate_version c).

(** [Settled::rejects]: the answer, and the memo with it. *)
Definition rejects (st : Settled) (h : Hard) : bool * Settled :=
  match rejects_memo st !! text h with
  | Some known => (known, st)
  | None =>
    let answer := existsb (fun c => negb (accepts h c)) (nearer st) in
    (answer, {| nearer := nearer st; rejects_memo := <[text h := answer]> (rejects_memo st) |})
  end.

(** [Selected::settle]: the new value of the field [settled]. *)
Definition settle (s : Selected) : option Settled :=
  (fun w => {| nearer := List.filter (fun c => rank_ltb c w) (candidates s); rejects_memo := ∅ |})
  <$> winner s.

(** [filter(|hard| seen.insert(&hard.text))]. *)
Fixpoint first_texts (seen : list str) (hards : list Hard) : list Hard :=
  match hards with
  | [] => []
  | h :: hards =>
    if decide (text h ∈ seen) then first_texts seen hards
    else h :: first_texts (text h :: seen) hards
  end.

Definition constraints (s : Selected) : list Hard := first_texts [] (omap hard (candidates s)).

(** [Selected::best]. *)
Definition best (s : Selected) : option Candidate :=
  let hards := constraints s in
  min_by rank_cmp (List.filter (fun c => forallb (fun h => accepts h c) hards) (candidates s)).

Definition is_ranges (r : VersionReq) : bool := match r with Ranges _ => true | _ => false end.

Definition source_ltb (a b : list nat) : bool :=
  match list_cmp Nat.compare a b with Lt => true | _ => false end.

(** The candidates [Selected::dirty_ranges] considers. *)
Definition dirty_candidate (s : Selected) (b c : Candidate) : bool :=
  negb (bool_decide (is_Some (shadow (item c))) || same_candidate c b
        || (declared_at (item c) =? declared_at (item b))%N)
  && match hard c with
     | None => false
     | Some h =>
       is_ranges (req h) && negb (bool_decide (declared_at (item c) ∈ dirty_checked s))
       && negb (negb (accepts h b) || bool_decide (is_Some (resolved_project c)))
     end.

Definition dirty_ranges (s : Selected) (b : Candidate) : list Candidate :=
  map snd (foldl (fun highest c =>
    if dirty_candidate s b c then
      entry_with (declared_at (item c)) (fun entry =>
        match entry with
        | None => c
        | Some e => if source_ltb (source e) (source c) then c else e
        end) highest
    else highest) [] (candidates s)).

(** [Selected::unconfirmed]. *)
Definition nearer_than (s : Selected) (b : option Candidate) : list Candidate :=
  List.filter (fun c => is_none_or (fun b => rank_ltb c b) b) (candidates s).

Definition unconfirmed (s : Selected) (b : option Candidate) : list Candidate :=
  let nearer := nearer_than s b in
  if decide (nearer = []) then []
  else
    let rejecting :=
      map text (List.filter (fun h => existsb (fun c => negb (accepts h c)) nearer) (constraints s)) in
    List.filter (fun c => bool_decide (resolved_project c = None))
      (map snd (foldl (fun lowest c =>
        match hard c with
        | None => lowest
        | Some h =>
          if negb (bool_decide (text h ∈ rejecting)) then lowest
          else
            entry_with (declared_at (item c), text h) (fun entry =>
              match entry with
              | None => c
              | Some e => if source_ltb (source c) (source e) then c else e
              end) lowest
        end) [] (candidates s))).

(** [Selected::note_conflict]: the new value of the field [conflict]. *)
Definition note_conflict (s : Selected) : option Conflict :=
  let selected := candidate_version <$> winner s in
  let rejecting c :=
    is_some_and (fun h => is_none_or (fun v => negb (req_matches (req h) v)) selected) (hard c) in
  let culprit :=
    match max_by_key (fun c => declared_at (item c)) (List.filter rejecting (candidates s)) with
    | Some c => Some c
    | None => head (candidates s)
    end in
  match culprit with
  | None => conflict s
  | Some c =>
    let requested :=
      match req <$> hard c with
      | Some (Exact version) => original version
      | Some hard => show_req hard
      | None => original (candidate_version c)
      end in
    Some {| conflict_coord := Coord.group_id (coord c) ++ $":" ++ Coord.artifact_id (coord c);
            conflict_requested := requested;
            conflict_selected := original (default (candidate_version c) selected);
            conflict_at := sort_key (item c) |}
  end.

Definition instance (s : Selected) (origin : ShadowOrigin) : option Candidate :=
  List.find (fun c => bool_decide (shadow (item c) = None)
    && (declared_at (item c) =? Queue.instance origin)%N
    && same_text (coord c) (shadow_coord origin)) (candidates s).

Definition instance_of (s : Selected) (candidate : Candidate) : option Candidate :=
  List.find (fun c => bool_decide (shadow (item c) = None) && bool_decide (shadow (item candidate) = None)
    && (declared_at (item c) =? declared_at (item candidate))%N
    && same_text (coord c) (coord candidate)) (candidates s).

Definition on_winner_path (s : Selected) (key : CoordKey) : bool :=
  is_some_and (fun path => path_contains path key) (winner_path s).

(** Where [Walk::add_resolution] adds [new] behind a settled winner: the test of
    the shortcut, and the lowest candidate left to confirm, with the memo the
    closure leaves. *)
Definition behind_settled (w : Candidate) (new : list Candidate) : bool :=
  forallb (fun c => match rank_cmp c w with Gt => true | _ => false end
                    && is_none_or (fun h => accepts h w) (hard c)) new.

Fixpoint filter_rejecting (st : Settled) (cs : list Candidate) : list Candidate * Settled :=
  match cs with
  | [] => ([], st)
  | c :: cs =>
    let '(rejected, st) := match hard c with Some h => rejects st h | None => (false, st) end in
    let '(kept, st) := filter_rejecting st cs in
    (if rejected then c :: kept else kept, st)
  end.

Definition lowest_rejecting (st : Settled) (new : list Candidate) : option Candidate * Settled :=
  let '(kept, st) := filter_rejecting st new in
  (opt_filter (fun c => bool_decide (resolved_project c = None))
     (min_by (fun a b => list_cmp Nat.compare (source a) (source b)) kept), st).
End Candidates.

(** ** Constraints are known by their text *)

Section Hards.
Context `{Unicode}.

Definition hard_ok (h : Hard) : Prop :=
  text h = show_req (req h) /\
  match req h with
  | Exact v => Version.parse (original v) = Ok v /\ text_ok (original v)
  | Ranges l => l <> [] /\ Forall range_ok l
  | Soft _ => False
  end.

(** The constraints the solver makes. *)
Lemma requested_hard_ok g a raw r h :
  parse_requested_requirement g a raw = Ok r -> hard_constraint r = Some h -> hard_ok h.
Proof.
  unfold parse_requested_requirement. destruct (parse_dynamic_version_token _); [by intros [= <-]|].
  destruct (_ || _); [done|]. intros E. inv_ok E. inv_ok Ha. apply parse_req_ok in Ha.
  destruct a0 as [v|v|l]; cbn [exact_version] in E.
  - injection E as <-. intros [= <-]. destruct Ha as (Hp & Ht & _). by split.
  - by injection E as <-.
  - destruct Ha as [Hne HF].
    assert ((exists x u, lower x = Some u /\ Forall range_ok [x] /\ r = Requested.Exact u) \/
            r = Requested.Ranges (Ranges l)) as [(x & u & Hx & Hr & ->)| -> ].
    { destruct l as [|x [|y l]]; [done| |right; by injection E as <-].
      destruct (is_exact x); [|right; by injection E as <-].
      destruct (lower x) as [u|] eqn:Hx; [|right; by injection E as <-].
      left. exists x, u. by injection E as <-. }
    + intros [= <-]. apply Forall_cons in Hr as [(Hb & _) _]. destruct (Hb u Hx). by split.
    + intros [= <-]. by split.
Qed.

Lemma union_has_comma l : l <> [] -> ","%char ∈ join $"," (map show_range l).
Proof.
  destruct l as [|r l]; [done|]. intros _. cbn [map].
  assert (","%char ∈ show_range r) as H1.
  { unfold show_range. rewrite !elem_of_app. right. right. left. by left. }
  destruct (map show_range l) as [|s ss]; cbn [join]; [done|]. rewrite elem_of_app. by left.
Qed.

Lemma hard_text_inj a b : hard_ok a -> hard_ok b -> text a = text b -> req a = req b.
Proof.
  intros [Ta Ha] [Tb Hb] E. rewrite Ta, Tb in E. clear Ta Tb.
  assert (forall v l, text_ok (original v) -> l <> [] ->
          show_req (Exact v) = show_req (Ranges l) -> False) as Hmixed.
  { intros v l (_ & _ & Hc & _) Hl Es. apply union_has_comma in Hl. cbn [show_req] in Es.
    rewrite <-Es in Hl. rewrite !elem_of_app in Hl. destruct Hl as [Hl|[Hl|Hl]]; [|done|];
      by apply list_elem_of_singleton in Hl. }
  destruct (req a) as [v|v|l], (req b) as [w|w|k]; try done.
  - destruct Ha as [Ha _], Hb as [Hb _]. cbn in E. injection E as E. apply app_inj_2 in E as [E _]; [|done].
    rewrite E, Hb in Ha. by injection Ha as ->.
  - exfalso. by eapply Hmixed, E; apply Ha || apply Hb.
  - exfalso. symmetry in E. by eapply Hmixed, E; apply Ha || apply Hb.
  - destruct Ha, Hb. assert (Ok (Ranges l) = Ok (E:=VersionError) (Ranges k)) as [= ->]; [|done].
    rewrite <-(parse_show_union l), <-(parse_show_union k) by done. cbn [show_req] in E. by rewrite E.
Qed.
End Hards.

(** ** Ranks *)

Lemma grown_parent n l o : grown n l -> o ∈ l -> tree_parent o ∈ l.
Proof.
  induction 1 as [|n l p i Hg IH Hp]; intros Ho.
  - apply list_elem_of_singleton in Ho as ->. by left.
  - apply elem_of_cons in Ho as [->|Ho]; right; [done|auto].
Qed.

Section Mediate.
Context `{Unicode} {RepoContext RepoRef ResolvedProject : Type}.
Abbreviation Cand := (@Candidate RepoContext RepoRef ResolvedProject).

(** The orders of one walk. *)
Context (allocated : nat) (orders : list TreeOrder) (numeric : bool).
Context (Hgrown : grown allocated orders).

(** A candidate of the walk: its order is one of the walk's, its version was parsed
    and starts as those of its group do, and its constraint was requested. *)
Record candidate_ok (c : Cand) : Prop := {
  ok_order : order (item c) ∈ orders;
  ok_made : made (candidate_version c);
  ok_starts : starts_as numeric (candidate_version c);
  ok_hard : forall h, hard c = Some h -> hard_ok h;
}.

Lemma tree_pre (f : Cand -> TreeOrder) :
  (forall c, candidate_ok c -> f c ∈ orders) -> PreCmp candidate_ok (fun a b => tree_cmp (f a) (f b)).
Proof.
  intros Hf. destruct (grown_inv _ _ Hgrown) as (Hw & _ & Hc). rewrite Forall_forall in Hw.
  apply (pre_cmp_ext _ _ (fun a b => list_cmp N.compare (indices (f a)) (indices (f b)))).
  - intros a b Ha Hb. apply tree_cmp_spec; auto.
  - apply (pre_cmp_total _ (fun c => indices (f c))).
Qed.

#[export] Instance rank_pre : PreCmp candidate_ok rank_cmp.
Proof.
  unfold rank_cmp. apply pre_cmp_then; [apply (pre_cmp_total _ (fun c => depth (item c)))|].
  apply pre_cmp_then.
  { apply (tree_pre (fun c => tree_parent (order (item c)))). intros c Hc.
    eapply grown_parent; [done|]. apply Hc. }
  apply pre_cmp_then.
  { apply (pre_cmp_flip _ (fun a b => version_cmp (candidate_version a) (candidate_version b))).
    split; [intros; apply version_cmp_sym|]. intros a b c Ha Hb Hc.
    apply (version_le_trans numeric); by (apply Ha || apply Hb || apply Hc). }
  apply pre_cmp_then; [apply (tree_pre (fun c => order (item c))); intros c Hc; apply Hc|].
  apply (pre_cmp_total _ (fun c => declared_at (item c))).
Qed.

Lemma rank_refl (c : Cand) : candidate_ok c -> rank_cmp c c = Eq.
Proof.
  intros Hc. pose proof (pre_sym (cmp:=rank_cmp) c c Hc Hc) as E. by destruct (rank_cmp c c).
Qed.

(** ** The winner *)

(** Every constraint of every candidate accepts [c]. *)
Definition unanimous (cs : list Cand) (c : Cand) : Prop :=
  forall d h, d ∈ cs -> hard d = Some h -> accepts h c = true.

Lemma first_texts_sub seen hards h : h ∈ first_texts seen hards -> h ∈ hards.
Proof.
  revert seen. induction hards as [|x hards IH]; intros seen; cbn [first_texts]; [done|].
  case_decide; [by intros ?%IH; right|]. intros [->|Hh]%elem_of_cons; [by left|]. right. by eapply IH.
Qed.

Lemma first_texts_cover seen hards h :
  h ∈ hards -> text h ∈ seen \/ exists h', h' ∈ first_texts seen hards /\ text h' = text h.
Proof.
  revert seen. induction hards as [|x hards IH]; intros seen; [by intros ?%elem_of_nil|].
  cbn [first_texts]. intros [->|Hh]%elem_of_cons; case_decide as Hs.
  - by left.
  - right. exists x. split; [by left|done].
  - by apply IH.
  - destruct (IH (text x :: seen) Hh) as [[E|?]%elem_of_cons|(h' & ? & ?)]; [|by left|].
    + right. exists x. by split; [left|].
    + right. exists h'. by split; [right|].
Qed.

(** Keeping one constraint of each text loses none. *)
Lemma constraints_all (s : Selected) c :
  Forall candidate_ok (candidates s) ->
  forallb (fun h => accepts h c) (constraints s) = true <-> unanimous (candidates s) c.
Proof.
  intros Hok. rewrite Forall_forall in Hok. rewrite forallb_forall. unfold constraints, unanimous.
  split.
  - intros Hall d h Hd Hh.
    assert (h ∈ omap hard (candidates s)) as Hin by (apply list_elem_of_omap; by exists d).
    destruct (first_texts_cover [] _ h Hin) as [Hn%elem_of_nil|(h' & Hin' & Ht)]; [done|].
    pose proof (first_texts_sub _ _ _ Hin') as (d' & Hd' & Hh')%list_elem_of_omap.
    assert (req h' = req h) as Er.
    { apply hard_text_inj; [by apply (ok_hard d'); [apply Hok|]|by apply (ok_hard d); [apply Hok|]|done]. }
    unfold accepts. rewrite <-Er. by apply Hall, list_elem_of_In.
  - intros Hall h Hin%list_elem_of_In. apply first_texts_sub in Hin as (d & Hd & Hh)%list_elem_of_omap.
    by apply (Hall d).
Qed.

(** ** The winner of a group *)

Lemma best_least (s : Selected) w :
  Forall candidate_ok (candidates s) ->
  best s = Some w <->
  first_least rank_cmp w
    (List.filter (fun c => forallb (fun h => accepts h c) (constraints s)) (candidates s)).
Proof.
  intros Hok. unfold best.
  assert (Forall candidate_ok (List.filter (fun c => forallb (fun h => accepts h c) (constraints s))
    (candidates s))) as HF.
  { apply Forall_forall. intros c Hc%list_elem_of_In%filter_In. rewrite Forall_forall in Hok.
    apply Hok, list_elem_of_In, Hc. }
  split; intros E.
  - by apply (min_by_least candidate_ok rank_cmp _ _ HF).
  - by apply (min_by_unique candidate_ok rank_cmp _ _ HF).
Qed.
Lemma rank_nearer (a b : Cand) :
  rank_cmp a b <> Gt ->
  (depth (item a) <= depth (item b))%N /\
  (depth (item a) = depth (item b) ->
   tree_cmp (tree_parent (order (item a))) (tree_parent (order (item b))) = Eq ->
   version_cmp (candidate_version b) (candidate_version a) <> Gt).
Proof.
  unfold rank_cmp. intros Hr. destruct (N.compare_spec (depth (item a)) (depth (item b))) as [E|E|E]; [|lia|done].
  split; [lia|]. intros _ Et. rewrite Et in Hr. cbn in Hr. by destruct (version_cmp _ _).
Qed.

Lemma filter_refine {A} (p q : A -> bool) l :
  (forall x, x ∈ l -> q x = true -> p x = true) ->
  List.filter q l = List.filter q (List.filter p l).
Proof.
  induction l as [|x l IH]; intros Hpq; [done|]. cbn [List.filter].
  rewrite IH by (intros; apply Hpq; [by right|done]).
  destruct (p x) eqn:Ep; cbn [List.filter]; [done|].
  destruct (q x) eqn:Eq; [|done]. by rewrite (Hpq x (list_elem_of_here _ _) Eq) in Ep.
Qed.

(** Adding candidates behind the winner that accept it leaves it the winner. *)
Lemma best_behind (s : Selected) new w :
  Forall candidate_ok (candidates s ++ new) -> best s = Some w -> behind_settled w new = true ->
  best (with_candidates s (candidates s ++ new)) = Some w.
Proof.
  intros Hok Hb Hbehind. pose proof Hok as [Hs Hn]%Forall_app.
  apply (best_least s w Hs) in Hb as (pre & post & E & Hpre & Hpost).
  apply best_least; [done|]. set (s' := with_candidates s (candidates s ++ new)).
  set (q := fun c => forallb (fun h => accepts h c) (constraints s')).
  set (p := fun c => forallb (fun h => accepts h c) (constraints s)) in *.
  assert (forall c, q c = true <-> unanimous (candidates s ++ new) c) as Hq
    by (intros c; apply (constraints_all s' c Hok)).
  assert (w ∈ candidates s /\ p w = true) as [Hws Hpw].
  { assert (In w (List.filter p (candidates s))) as Hw by (rewrite E; apply in_elt).
    apply filter_In in Hw as [Hw ?]. by apply list_elem_of_In in Hw. }
  unfold behind_settled in Hbehind. rewrite forallb_forall in Hbehind.
  assert (q w = true) as Hqw.
  { apply Hq. intros d h [Hd|Hd]%elem_of_app Hh; [by apply (proj1 (constraints_all s w Hs) Hpw d)|].
    specialize (Hbehind d (proj1 (list_elem_of_In _ _) Hd)). rewrite Hh in Hbehind. by bool_simpl. }
  change (candidates s') with (candidates s ++ new). rewrite List.filter_app.
  rewrite (filter_refine p q (candidates s)), E, List.filter_app.
  2:{ intros c _ Hc. apply (constraints_all s c Hs). intros d h Hd. apply (proj1 (Hq c) Hc).
      apply elem_of_app. by left. }
  cbn [List.filter]. rewrite Hqw. exists (List.filter q pre), (List.filter q post ++ List.filter q new).
  split; [by rewrite <-app_assoc|]. split.
  - rewrite Forall_forall in Hpre |- *. intros c Hc%list_elem_of_In%filter_In.
    apply Hpre, list_elem_of_In, Hc.
  - apply Forall_app. split.
    + rewrite Forall_forall in Hpost |- *. intros c Hc%list_elem_of_In%filter_In.
      apply Hpost, list_elem_of_In, Hc.
    + apply Forall_forall. intros c Hc%list_elem_of_In%filter_In. destruct Hc as [Hc _].
      specialize (Hbehind c Hc). bool_simpl. apply list_elem_of_In in Hc.
      rewrite Forall_forall in Hs, Hn. rewrite (pre_sym (cmp:=rank_cmp) c w); [|by auto..].
      by destruct (rank_cmp c w).
Qed.
(** ** The memo and the candidates left to confirm *)

(** Whether a constraint rejects one of the nearer candidates. *)
Definition rejects_any (near : list Cand) (h : Hard) : bool :=
  existsb (fun c => negb (accepts h c)) near.

Definition memo_ok (st : @Settled RepoContext RepoRef ResolvedProject) : Prop :=
  forall h b, hard_ok h -> rejects_memo st !! text h = Some b -> b = rejects_any (nearer st) h.

Lemma rejects_spec st h :
  memo_ok st -> hard_ok h ->
  (rejects st h).1 = rejects_any (nearer st) h /\ nearer (rejects st h).2 = nearer st /\
  memo_ok (rejects st h).2.
Proof.
  intros Hm Hh. unfold rejects. destruct (rejects_memo st !! text h) as [known|] eqn:E; cbn [fst snd].
  - split; [by apply Hm|done].
  - split; [done|]. split; [done|]. intros h' b Hh'. cbn [rejects_memo nearer].
    destruct (decide (text h = text h')) as [Et|Et].
    + rewrite <-Et, lookup_insert_eq. intros [= <-]. unfold accepts.
      by rewrite (hard_text_inj h h').
    + rewrite lookup_insert_ne by done. by apply Hm.
Qed.

Lemma filter_rejecting_spec cs st :
  memo_ok st -> Forall candidate_ok cs ->
  (filter_rejecting st cs).1 = List.filter (fun c => is_some_and (rejects_any (nearer st)) (hard c)) cs /\
  nearer (filter_rejecting st cs).2 = nearer st /\ memo_ok (filter_rejecting st cs).2.
Proof.
  intros Hm Hok. revert st Hm. induction Hok as [|c cs Hc Hok IH]; intros st Hm; [done|].
  cbn [filter_rejecting List.filter].
  assert (exists b st', match hard c with Some h => rejects st h | None => (false, st) end = (b, st') /\
    b = is_some_and (rejects_any (nearer st)) (hard c) /\ nearer st' = nearer st /\ memo_ok st')
    as (b & st' & -> & -> & Hn & Hm').
  { destruct (hard c) as [h|] eqn:Eh; [|by eexists false, st].
    destruct (rejects_spec st h Hm) as (E1 & E2 & E3); [by apply (ok_hard c Hc)|].
    exists (rejects st h).1, (rejects st h).2. by destruct (rejects st h). }
  destruct (IH st' Hm') as (E1 & E2 & E3). rewrite Hn in E1, E2.
  destruct (filter_rejecting st' cs) as [kept st'']. cbn in *. rewrite E1.
  by destruct (is_some_and _ _).
Qed.

(** The entries of [unconfirmed], with the constraints tested directly. *)
Definition lowest_step (near : list Cand) (lowest : list (N * str * Cand)) (c : Cand)
    : list (N * str * Cand) :=
  match hard c with
  | None => lowest
  | Some h =>
    if rejects_any near h then
      entry_with (declared_at (item c), text h)
        (fun entry => match entry with
                      | None => c
                      | Some e => if source_ltb (source c) (source e) then c else e
                      end) lowest
    else lowest
  end.

Lemma rejecting_texts (s : Selected) near c h :
  Forall candidate_ok (candidates s) -> c ∈ candidates s -> hard c = Some h ->
  bool_decide (text h ∈ map text (List.filter (rejects_any near) (constraints s))) = rejects_any near h.
Proof.
  intros Hok Hc Hh. rewrite Forall_forall in Hok.
  assert (forall h', h' ∈ constraints s -> text h' = text h -> rejects_any near h' = rejects_any near h) as Hsame.
  { intros h' Hin Ht. apply first_texts_sub in Hin as (d & Hd & Hh')%list_elem_of_omap.
    unfold rejects_any, accepts. by rewrite (hard_text_inj h' h);
      [|apply (ok_hard d); auto|apply (ok_hard c); auto|]. }
  destruct (rejects_any near h) eqn:E.
  - apply bool_decide_eq_true.
    destruct (first_texts_cover [] (omap hard (candidates s)) h) as [Hn%elem_of_nil|(h' & Hin & Ht)]; [|done|].
    { apply list_elem_of_omap. by exists c. }
    apply list_elem_of_fmap. exists h'. split; [done|]. apply list_elem_of_In, filter_In.
    split; [by apply list_elem_of_In|]. by rewrite Hsame.
  - apply bool_decide_eq_false. intros (h' & Ht & Hin)%list_elem_of_fmap.
    apply list_elem_of_In, filter_In in Hin as [Hin Hr]. apply list_elem_of_In in Hin.
    by rewrite (Hsame h' Hin (eq_sym Ht)) in Hr.
Qed.

Lemma lowest_step_none cs lowest : foldl (lowest_step []) lowest cs = lowest.
Proof.
  revert lowest. induction cs as [|c cs IH]; intros lowest; [done|]. cbn [foldl].
  rewrite IH. unfold lowest_step. by destruct (hard c).
Qed.

Lemma unconfirmed_direct (s : Selected) b :
  Forall candidate_ok (candidates s) ->
  unconfirmed s b = List.filter (fun c => bool_decide (resolved_project c = None))
    (map snd (foldl (lowest_step (nearer_than s b)) [] (candidates s))).
Proof.
  intros Hok. unfold unconfirmed. case_decide as En; [by rewrite En, lowest_step_none|].
  do 2 f_equal. set (near := nearer_than s b).
  set (texts := map text _).
  assert (forall cs acc, (forall c, c ∈ cs -> c ∈ candidates s) ->
    foldl (fun lowest c => match hard c with
        | None => lowest
        | Some h => if negb (bool_decide (text h ∈ texts)) then lowest
          else entry_with (declared_at (item c), text h) (fun entry => match entry with
                      | None => c
                      | Some e => if source_ltb (source c) (source e) then c else e
                      end) lowest end) acc cs = foldl (lowest_step near) acc cs) as H0.
  { induction cs as [|c cs IH]; intros acc Hsub; [done|]. cbn [foldl].
    rewrite IH by (intros; apply Hsub; by right). f_equal. unfold lowest_step.
    destruct (hard c) as [h|] eqn:Eh; [|done].
    change texts with (map text (List.filter (rejects_any near) (constraints s))).
    rewrite (rejecting_texts s near c h); [|done|apply Hsub; by left|done].
    by destruct (rejects_any near h). }
  by apply H0.
Qed.
Lemma entry_with_fresh {K V} `{EqDecision K} (k : K) (f : option V -> V) m tail :
  k ∉ map fst m ->
  entry_with k f (m ++ tail) = m ++ entry_with k f tail.
Proof.
  induction m as [|[k' v] m IH]; [done|]. cbn [map fst app entry_with].
  rewrite not_elem_of_cons. intros [Hk Hm]. rewrite decide_False by done. by rewrite IH.
Qed.

Lemma entry_with_keys {K V} `{EqDecision K} (k : K) (f : option V -> V) m x :
  x ∈ map fst (entry_with k f m) -> x = k \/ x ∈ map fst m.
Proof.
  induction m as [|[k' v] m IH]; cbn [entry_with map fst].
  - intros [->|Hx]%elem_of_cons; [by left|by apply elem_of_nil in Hx].
  - case_decide as E; cbn [map fst]; [by right|].
    intros [->|Hx]%elem_of_cons; [right; by left|].
    destruct (IH Hx); [by left|right; by right].
Qed.

(** The entries name declarations that were gone through. *)
Lemma lowest_keys near cs x :
  x ∈ map fst (foldl (lowest_step near) [] cs) -> exists c, c ∈ cs /\ x.1 = declared_at (item c).
Proof.
  induction cs as [|c cs IH] using rev_ind; [by intros ?%elem_of_nil|]. rewrite foldl_app. cbn [foldl].
  assert (x ∈ map fst (foldl (lowest_step near) [] cs) ->
          exists d, d ∈ cs ++ [c] /\ x.1 = declared_at (item d)) as Hold.
  { intros (d & Hd & E)%IH. exists d. rewrite elem_of_app. by split; [left|]. }
  unfold lowest_step at 1. destruct (hard c) as [h|]; [|done]. destruct (rejects_any near h); [|done].
  intros [->|Hx]%entry_with_keys; [|by apply Hold]. exists c. rewrite elem_of_app. by split; [right; left|].
Qed.

Definition source_cmp (a b : Cand) : comparison := list_cmp Nat.compare (source a) (source b).

Lemma source_ltb_gt (a b : Cand) :
  source_ltb (source b) (source a) = match source_cmp a b with Gt => true | _ => false end.
Proof.
  unfold source_ltb, source_cmp. rewrite (cmp_sym (cmp:=list_cmp Nat.compare) (source a) (source b)).
  by destruct (list_cmp _ _ _).
Qed.

(** One more declaration, with one constraint, adds the entry of its lowest. *)
Lemma lowest_step_new near m d h new :
  (forall x, x ∈ map fst m -> x.1 <> d) ->
  Forall (fun c => declared_at (item c) = d /\ hard c = Some h) new ->
  foldl (lowest_step near) m new
  = m ++ if rejects_any near h
         then map (fun c => (d, text h, c)) (option_list (min_by source_cmp new)) else [].
Proof.
  intros Hm HF. destruct (rejects_any near h) eqn:Er.
  2:{ rewrite app_nil_r. induction HF as [|c new [_ Hh] HF IH]; [done|]. cbn [foldl].
      unfold lowest_step at 2. by rewrite Hh, Er, IH. }
  destruct new as [|c new]; [by rewrite app_nil_r|].
  assert ((d, text h) ∉ map fst m) as Hk by (by intros ?%Hm).
  apply Forall_cons in HF as [[Ed Hh] HF]. cbn [foldl min_by option_list map].
  unfold lowest_step at 2. rewrite Hh, Er, Ed.
  rewrite <-(app_nil_r m) at 1. rewrite entry_with_fresh by done. cbn [entry_with].
  clear Ed Hh. revert c. induction HF as [|e new [Ed Hh] HF IH]; intros c; [done|].
  cbn [foldl]. unfold lowest_step at 2. rewrite Hh, Er, Ed, entry_with_fresh by done.
  cbn [entry_with]. rewrite decide_True by done. rewrite IH. do 4 f_equal. rewrite source_ltb_gt.
  by destruct (source_cmp c e).
Qed.

Lemma lowest_step_new' near m d h new :
  (forall x, x ∈ map fst m -> x.1 <> d) ->
  Forall (fun c => declared_at (item c) = d /\ hard c = h) new ->
  foldl (lowest_step near) m new
  = m ++ match h with
         | Some h => if rejects_any near h
                     then map (fun c => (d, text h, c)) (option_list (min_by source_cmp new)) else []
         | None => []
         end.
Proof.
  destruct h as [h|]; [by apply lowest_step_new|]. intros _ HF. rewrite app_nil_r.
  induction HF as [|c new [_ Hh] HF IH]; [done|]. cbn [foldl]. unfold lowest_step at 2. by rewrite Hh.
Qed.

(** What the walk keeps of a settled group. *)
Definition settled_ok (s : Selected) (w : Cand) (st : Settled) : Prop :=
  nearer st = nearer_than s (Some w) /\ memo_ok st.

Lemma settle_ok (s : Selected) (w : Cand) st : winner s = Some w -> settle s = Some st -> settled_ok s w st.
Proof.
  unfold settle. intros ->. intros [= <-]. split; [done|]. intros h b _. cbn.
  by rewrite lookup_empty.
Qed.

Lemma nearer_behind (s : Selected) (new : list Cand) (w : Cand) :
  behind_settled w new = true ->
  nearer_than (with_candidates s (candidates s ++ new)) (Some w) = nearer_than s (Some w).
Proof.
  unfold behind_settled, nearer_than. rewrite forallb_forall. intros Hb.
  cbn [candidates with_candidates]. rewrite List.filter_app.
  assert (List.filter (fun c => is_none_or (fun b => rank_ltb c b) (Some w)) new = []) as ->;
    [|by rewrite app_nil_r].
  induction new as [|c new IH]; [done|]. cbn [List.filter is_none_or]. unfold rank_ltb at 1.
  specialize (Hb c (or_introl eq_refl)) as Hc. bool_simpl. destruct (rank_cmp c w); [done..|].
  apply IH. intros x Hx. apply Hb. by right.
Qed.
End Mediate.

(** mediation picks Maven's nearest version: the winner of a group is a candidate
    that every hard constraint of the group accepts; of those it is the nearest to
    the root and, among the children of one parent, of the highest version; there is
    none exactly when each candidate is rejected by some constraint. *)
Theorem best_is_nearest `{Unicode} {RepoContext RepoRef ResolvedProject} allocated orders numeric
    (s : @Selected RepoContext RepoRef ResolvedProject) :
  grown allocated orders -> Forall (candidate_ok orders numeric) (candidates s) ->
  match best s with
  | Some w =>
    w ∈ candidates s /\ unanimous (candidates s) w /\
    forall c, c ∈ candidates s -> unanimous (candidates s) c ->
      rank_cmp w c <> Gt /\ (depth (item w) <= depth (item c))%N /\
      (depth (item w) = depth (item c) ->
       tree_cmp (tree_parent (order (item w))) (tree_parent (order (item c))) = Eq ->
       version_cmp (candidate_version c) (candidate_version w) <> Gt)
  | None =>
    forall c, c ∈ candidates s -> exists d h, d ∈ candidates s /\ hard d = Some h /\ accepts h c = false
  end.
Proof.
  intros Hg Hok. pose proof (fun c => constraints_all orders numeric s c Hok) as Hall.
  destruct (best s) as [w|] eqn:Eb.
  - apply (best_least allocated orders numeric Hg s w Hok) in Eb as (pre & post & E & Hpre & Hpost).
    assert (forall c, c ∈ List.filter (fun c => forallb (fun h => accepts h c) (constraints s)) (candidates s)
      <-> c ∈ candidates s /\ unanimous (candidates s) c) as Hin.
    { intros c. rewrite list_elem_of_In, filter_In, <-list_elem_of_In, Hall. done. }
    assert (w ∈ candidates s /\ unanimous (candidates s) w) as [Hw Hu].
    { apply Hin. rewrite E. apply elem_of_app. right. by left. }
    split_and!; [done..|]. intros c Hc Huc.
    assert (rank_cmp w c <> Gt) as Hr; [|by destruct (rank_nearer w c Hr)].
    assert (c ∈ pre ++ w :: post) as Hp by (rewrite <-E; by apply Hin).
    rewrite Forall_forall in Hok, Hpre, Hpost.
    apply elem_of_app in Hp as [Hp|[->|Hp]%elem_of_cons]; [|by rewrite (rank_refl _ _ _ Hg) by auto|by auto].
    rewrite (pre_sym (P:=candidate_ok orders numeric) (PreCmp:=rank_pre _ _ _ Hg) c w) by auto.
    by rewrite (Hpre c Hp).
  - intros c Hc. unfold best in Eb. destruct (forallb (fun h => accepts h c) (constraints s)) eqn:Ea.
    + assert (In c (List.filter (fun c => forallb (fun h => accepts h c) (constraints s)) (candidates s)))
        as Hin by (apply filter_In; by split; [apply list_elem_of_In|]).
      by destruct (List.filter _ _).
    + apply not_true_iff_false in Ea. rewrite forallb_forall in Ea. unfold constraints in Ea.
      assert (existsb (fun h => negb (accepts h c)) (constraints s) = true) as Hx.
      { destruct (existsb _ _) eqn:Ex; [done|]. exfalso. apply Ea. intros h Hh.
        destruct (accepts h c) eqn:Eac; [done|]. apply not_true_iff_false in Ex. exfalso. apply Ex.
        apply existsb_exists. exists h. by rewrite Eac. }
      apply existsb_exists in Hx as (h & Hh%list_elem_of_In & Hr%negb_true_iff).
      apply first_texts_sub in Hh as (d & Hd & Hdh)%list_elem_of_omap. by exists d, h.
Qed.

(** C31: the shortcut behind a settled winner is sound where the versions of the group all
    start alike, all with a number or all with a word ([candidate_ok]; across the two
    kinds the order of versions is not transitive, and then neither is the rank): a
    declaration whose candidates all rank behind the winner, and whose constraint accepts
    it, leaves the winner as it is, adds to the ranges left to confirm exactly the
    candidate the shortcut finds, and leaves the memo right for the group it is added to. *)
Theorem settled_shortcut `{Unicode} {RepoContext RepoRef ResolvedProject} allocated orders numeric
    (s : @Selected RepoContext RepoRef ResolvedProject) new w st d h :
  grown allocated orders -> Forall (candidate_ok orders numeric) (candidates s ++ new) ->
  best s = Some w -> settled_ok s w st -> behind_settled w new = true ->
  Forall (fun c => declared_at (item c) = d /\ hard c = h) new ->
  Forall (fun c => declared_at (item c) <> d) (candidates s) ->
  let s' := with_candidates s (candidates s ++ new) in
  let '(lowest, st') := lowest_rejecting st new in
  best s' = Some w /\
  unconfirmed s' (Some w) = unconfirmed s (Some w) ++ option_list lowest /\
  settled_ok s' w st'.
Proof.
  intros Hg Hok Hb [Hnear Hmemo] Hbehind Hnew Hold. cbv zeta.
  pose proof Hok as [Hs Hn]%Forall_app. unfold lowest_rejecting.
  destruct (filter_rejecting_spec orders numeric new st Hmemo Hn) as (E1 & E2 & E3).
  destruct (filter_rejecting st new) as [kept st']. cbn [fst snd] in *. subst kept.
  pose proof (nearer_behind s new w Hbehind) as Hnb.
  split_and!; [by apply (best_behind allocated orders numeric)| |by split; [rewrite Hnb, E2|]].
  rewrite !(unconfirmed_direct orders numeric) by done. rewrite Hnb. cbn [candidates with_candidates].
  rewrite foldl_app, lowest_step_new' with (d := d) (h := h).
  - rewrite map_app, List.filter_app. f_equal. rewrite <-Hnear.
    assert (List.filter (fun c => is_some_and (rejects_any (nearer st)) (hard c)) new
            = if is_some_and (rejects_any (nearer st)) h then new else []) as ->.
    { clear - Hnew. induction Hnew as [|c new [_ Hh] Hnew IH]; [by destruct (is_some_and _ _)|].
      cbn [List.filter]. rewrite Hh, IH. by destruct (is_some_and _ _). }
    destruct h as [h|]; [|done]. cbn [is_some_and]. destruct (rejects_any (nearer st) h); [|done].
    fold (@source_cmp RepoContext RepoRef ResolvedProject).
    destruct (min_by source_cmp new) as [c|]; [|done]. cbn. by case_bool_decide.
  - intros x (c & Hc & ->)%lowest_keys. rewrite Forall_forall in Hold. by apply Hold.
  - done.
Qed.

(** ** Requests and management *)

(** what a declaration constrains is what it says: a version text that is no
    dynamic word constrains mediation exactly when it is a pin or a range, and then
    accepts the versions the requirement read from the text does (a range of equal
    bounds included, which is taken as its one version); a bare version and the
    dynamic words constrain nothing. *)
Theorem requested_constraint `{Unicode} g a raw r :
  parse_requested_requirement g a raw = Ok r ->
  match hard_constraint r with
  | Some h =>
    exists req', parse_req (trim raw) = Ok req' /\ (forall v, req' <> Soft v) /\
      forall n v, starts_alike n (v :: req_versions req') -> req_matches (req h) v = req_matches req' v
  | None =>
    parse_dynamic_version_token (trim raw) <> None \/ exists v, parse_req (trim raw) = Ok (Soft v)
  end.
Proof.
  unfold parse_requested_requirement.
  destruct (parse_dynamic_version_token _) as [token|]; [intros [= <-]; by left|].
  destruct (_ || _); [done|]. intros E. inv_ok E. inv_ok Ha.
  destruct (exact_version a0) as [e|] eqn:Ee.
  - injection E as <-. cbn [hard_constraint]. exists a0. split; [done|]. split; [by intros v ->|].
    intros n v Hs. by rewrite (exact_version_matches n a0 e v).
  - destruct a0 as [v|v|l]; injection E as <-; cbn [hard_constraint].
    + done.
    + right. by exists v.
    + exists (Ranges l). by split_and!.
Qed.

#[local] Existing Instance ascii_tables.

Lemma requested_constraint_witness :
  exists req', parse_req (trim $" [1.0,1] ") = Ok req' /\ (forall v, req' <> Soft v) /\
    forall n v, starts_alike n (v :: req_versions req') ->
      version_eqb v (unresolved $"1.0") = req_matches req' v.
Proof.
  exact (requested_constraint $"g" $"a" $" [1.0,1] "
    (Requested.Exact (unresolved $"1.0")) ltac:(by vm_compute)).
Defined.

Lemma push_exclusions_present old new : (forall e, e ∈ new -> e ∈ old) -> push_exclusions old new = old.
Proof.
  unfold push_exclusions. revert old. induction new as [|e new IH]; intros old Hin; [done|].
  cbn [foldl]. rewrite decide_True by (apply Hin; by left). apply IH. intros x Hx. apply Hin. by right.
Qed.

Lemma manage_key m d depth :
  entry_key (manage m d depth).1 = entry_key d /\ version (manage m d depth).1 = version d /\
  optional (manage m d depth).1 = optional d.
Proof. unfold manage. by destruct (opt_filter _ _). Qed.

Lemma manage_again m d depth :
  (manage m (manage m d depth).1 depth).1 = (manage m d depth).1.
Proof.
  assert (push_exclusions (push_exclusions (exclusions d) (exclusions m)) (exclusions m)
          = push_exclusions (exclusions d) (exclusions m)) as Hp.
  { apply push_exclusions_present. intros e He. apply push_exclusions_elem. by right. }
  unfold manage. destruct (opt_filter _ _) as [s|]; cbn; rewrite Hp; [|done].
  set (x := {| group_id := group_id d |}). unfold effective_scope. cbn [scope].
  destruct (decide _); [|done]. by destruct (system_path m).
Qed.

(** applying the root's management to a declaration is idempotent and keeps what
    mediation groups it by: its file, its requested version and whether it is
    optional are untouched, every managed exclusion is on it, and the scope is the
    managed one exactly below the root's own dependencies. *)
Theorem managed_metadata {R : Type} (management : Management) (item : QueueItem R) :
  let managed_item := apply_managed_metadata management item in
  apply_managed_metadata management managed_item = managed_item /\
  dependency_key (dependency managed_item) = dependency_key (dependency item) /\
  version (dependency managed_item) = version (dependency item) /\
  optional (dependency managed_item) = optional (dependency item) /\
  (forall m e, managed management (dependency item) = Some m ->
     e ∈ exclusions (dependency managed_item) <-> e ∈ exclusions (dependency item) \/ e ∈ exclusions m) /\
  (forall m s, managed management (dependency item) = Some m -> scope m = Some s ->
     scope (dependency managed_item)
     = if (1 <? depth item)%N then Some s else scope (dependency item)).
Proof.
  cbv zeta. unfold apply_managed_metadata.
  destruct (managed management (dependency item)) as [m|] eqn:Em; [|by rewrite Em].
  destruct (_ && _) eqn:Ec.
  - rewrite Em, Ec. bool_simpl. split_and!; [done..| |].
    + intros m' e [= <-]. rewrite H0. set_solver.
    + intros m' s [= <-] Es. apply orb_true_iff in H as [H|H]; bool_simpl; [congruence|].
      apply N.leb_le in H. by rewrite (proj2 (N.ltb_ge _ _)).
  - destruct (manage m (dependency item) (depth item)) as [d scoped] eqn:Ed.
    pose proof (manage_key m (dependency item) (depth item)) as (Hk & Hv & Ho).
    pose proof (manage_again m (dependency item) (depth item)) as Hagain.
    rewrite Ed in Hk, Hv, Ho, Hagain. cbn [fst] in *. cbn [dependency with_dependency depth].
    assert (managed management d = Some m) as Em'.
    { rewrite <-Em. unfold managed, entry. fold (entry_key d) (entry_key (dependency item)). by rewrite Hk. }
    unfold entry_key, key_like in Hk. injection Hk as H1 H2 H3 H4. split_and!.
    + rewrite Em', Ec. destruct (manage m d (depth item)) as [d' scoped'] eqn:Ed'. cbn [fst] in Hagain.
      assert (scoped' = scoped) as -> by (apply (f_equal snd) in Ed, Ed'; cbn [snd] in Ed, Ed'; by rewrite <-Ed, <-Ed').
      subst d'. unfold with_dependency. cbn. by rewrite <-orb_assoc, orb_diag.
    + unfold dependency_key. by rewrite H1, H2, H3, H4.
    + done.
    + done.
    + intros m' e [= <-]. unfold manage in Ed. injection Ed as <- _. cbn [exclusions].
      rewrite push_exclusions_elem. by destruct (opt_filter _ _).
    + intros m' s [= <-] Es. unfold manage in Ed. injection Ed as <- _. cbn [scope]. rewrite Es.
      cbn [opt_filter]. by destruct (1 <? depth item)%N.
Qed.

(** The group a declaration joins is that of the coordinate it requests, whatever
    version is resolved. *)
Lemma dependency_key_of_coord d v : dependency_key d = key_of (coord_of d v).
Proof.
  assert (effective_type d <> $"maven-plugin") as Hp.
  { unfold effective_type. destruct (type_ d) as [t|]; [|done]. case_decide as Ej; [done|].
    case_decide; [done|]. intros ->. apply Ej. unfold jar_types; apply list_elem_of_further, list_elem_of_here. }
  unfold dependency_key, key_of, coord_of.
  cbn [Coord.group_id Coord.artifact_id Coord.packaging Coord.classifier]. f_equal.
  case_decide as Ej; [done|]. rewrite decide_False; [done|].
  by intros [?|?%list_elem_of_singleton]%elem_of_cons.
Qed.

(** ** A group with a nearer candidate that a constraint rejects *)

Definition demo_orders : list TreeOrder :=
  [child 2 TreeRoot 2; child 1 TreeRoot 1; child 0 TreeRoot 0; TreeRoot].

Definition demo_hard (raw : str) : option Hard :=
  match parse_requested_requirement $"g" $"a" raw with Ok r => hard_constraint r | Err _ => None end.

Definition demo_candidate (n : nat) (version : str) (raw : str) : @Candidate unit unit unit := {|
  arc := n;
  item := {| item_parent := 0; parent_generation := 0; dependency := plain_dep $"g" $"a";
     item_managed_scope := false; depth := N.of_nat (S n); order := child n TreeRoot (N.of_nat n);
     declared_at := N.of_nat n; item_exclusions := []; item_path := path_root tt Queue.demo_coord;
     shadow := None |};
  coord := {| Coord.group_id := $"g"; Coord.artifact_id := $"a"; Coord.version := unresolved version;
     Coord.packaging := None; Coord.classifier := None |};
  resolved_version := {| resolved := unresolved version; repo := None |};
  resolved_project := None; hard := demo_hard raw; source := [0]; inherited := [] |}.

(** [0.5], nearest and rejected; [1.5], the winner; [1.8], behind it. *)
Definition demo_near := demo_candidate 0 $"0.5" $"0.5".
Definition demo_winner := demo_candidate 1 $"1.5" $"[1.0,2.0)".
Definition demo_behind := demo_candidate 2 $"1.8" $"[1.0,3.0)".
Definition demo_group := new_selected 0 [demo_near; demo_winner].

Lemma demo_grown : grown 3 demo_orders.
Proof. repeat (constructor; try (by repeat constructor)). Qed.

Lemma demo_hard_ok raw h : demo_hard raw = Some h -> hard_ok h.
Proof.
  unfold demo_hard. destruct (parse_requested_requirement _ _ _) as [r|] eqn:E; [|done].
  intros Hh. by eapply requested_hard_ok.
Qed.

Lemma demo_ok : Forall (candidate_ok demo_orders true) [demo_near; demo_winner; demo_behind].
Proof.
  repeat (apply Forall_cons; split; [split;
    [by repeat first [apply list_elem_of_here | apply list_elem_of_further]|apply made_unresolved|
     vm_compute; by intros x [= <-]|apply demo_hard_ok]|]). by apply Forall_nil.
Qed.

Lemma best_is_nearest_witness :
  best demo_group = Some demo_winner /\ unanimous (candidates demo_group) demo_winner.
Proof.
  split; [by vm_compute|].
  pose proof (best_is_nearest 3 demo_orders true demo_group demo_grown) as H.
  assert (best demo_group = Some demo_winner) as E by (by vm_compute). rewrite E in H.
  apply H. pose proof demo_ok as Hd. apply Forall_cons in Hd as [H0 Hd].
  apply Forall_cons in Hd as [H1 _]. apply Forall_cons. split; [done|].
  apply Forall_cons. split; [done|]. by apply Forall_nil.
Defined.

Lemma settled_shortcut_witness :
  let st := {| nearer := [demo_near]; rejects_memo := ∅ |} in
  (lowest_rejecting st [demo_behind]).1 = Some demo_behind /\
  unconfirmed (with_candidates demo_group [demo_near; demo_winner; demo_behind]) (Some demo_winner)
  = unconfirmed demo_group (Some demo_winner) ++ [demo_behind].
Proof.
  cbv zeta. set (st := {| nearer := [demo_near]; rejects_memo := ∅ |}).
  assert ((lowest_rejecting st [demo_behind]).1 = Some demo_behind) as E by (by vm_compute).
  split; [done|].
  assert (settled_ok demo_group demo_winner st) as Hst.
  { split; [by vm_compute|]. intros h b _. cbn. by rewrite lookup_empty. }
  assert (best demo_group = Some demo_winner) as Hb by (by vm_compute).
  assert (behind_settled demo_winner [demo_behind] = true) as Hs by (by vm_compute).
  pose proof (settled_shortcut 3 demo_orders true demo_group [demo_behind] demo_winner st
    2 (hard demo_behind) demo_grown demo_ok Hb Hst Hs) as H. cbv zeta in H.
  destruct (lowest_rejecting st [demo_behind]) as [lo st']. cbn [fst] in E. subst lo.
  apply H.
  - apply Forall_cons. split; [split; reflexivity|]. by apply Forall_nil.
  - change (candidates demo_group) with [demo_near; demo_winner].
    apply Forall_cons. split; [discriminate|]. apply Forall_cons. split; [discriminate|].
    by apply Forall_nil.
Defined.
