(* ===== verification/Load.v ===== *)
(** * Reading a declaration ([rv-resolver/src/solver/mod.rs], what the solver reads)

    From a queued declaration to a candidate: pruning, the version it requests, the
    coordinate checks, the fetch of its project, and the relocations of the project
    with the management of their targets.  The relocation cache is threaded through;
    the hints to the backend ([prefetch_*], [hint_*], [note_transitive_selection])
    return nothing and are left out. *)

From Stdlib Require Import Ascii String Lia.
From stdpp Require Import base list strings gmap.
From S2P Require Import Prelude Iter Str Version Range Coordinates Snapshot Dependency DepManagement Keys Queue Management Relocation Mediation.

#[local] Set Warnings "-clear-no-such-hyp".

(** What the solver asks of the backend beyond relocations, and of a project. *)
Class SolverBackend := {
  relocation_backend :: Backend;
  (** [RepoContext::default()]. *)
  no_repos : RepoContext;
  project_dependencies : Project -> list Dependency;
  project_management : Project -> list Dependency;
  project_repo_url : Project -> option str;
  (** [Project::new] of a group, an artifact and a version, served by no repository. *)
  plain_project : str -> str -> str -> Project;
  (** [Backend::workspace_module] of a coordinate. *)
  module_at : Coord.t -> option str;
  is_reactor_module : str -> str -> str -> bool;
  resolve_version : str -> str -> VersionReq -> RepoContext ->
    result (ResolveError Error) (ResolvedVersion RepoRef.t);
  resolve_versions : str -> str -> VersionReq -> RepoContext ->
    result (ResolveError Error) (list (ResolvedVersion RepoRef.t));
  extend_repo_context : RepoContext -> Coord.t -> Project -> RepoContext;
  dropped_repos_on_path : list str -> str -> Error -> list DroppedRepo;
  note_winner : Coord.t -> PathNode RepoContext -> result (ResolveError Error) unit;
}.

Section Load.
Context `{Unicode} `{SolverBackend} (management : Management).

Abbreviation Failure := (ResolveError Error).
Abbreviation Item := (QueueItem RepoContext).
Abbreviation Cand := (@Candidate RepoContext RepoRef.t Project).
Abbreviation Cache := (gmap (CoordText * RepoContext) (Coord.t * list Coord.t)).
Abbreviation Version' := (ResolvedVersion RepoRef.t).

(** ** Threading the relocation cache *)

Definition Cached (A : Type) : Type := Cache -> option (result Failure A * Cache).

#[global] Instance cached_ret : MRet Cached := fun A a cache => Some (Ok a, cache).
#[global] Instance cached_bind : MBind Cached := fun A B f m cache =>
  match m cache with
  | None => None
  | Some (Err e, cache) => Some (Err e, cache)
  | Some (Ok a, cache) => f a cache
  end.

Definition lift {A} (r : result Failure A) : Cached A := fun cache => Some (r, cache).

Definition cached_map_err {A} (f : Failure -> Failure) (m : Cached A) : Cached A := fun cache =>
  match m cache with Some (Err e, cache) => Some (Err (f e), cache) | other => other end.

(** ** Coordinates that name properties *)

(** [undefined_property] of [error.rs]: the innermost name. *)
Definition undefined_property (text : str) : option str :=
  first ← find_str $"${" text;
  close ← find_str $"}" (drop first text);
  let finish := first + close in
  start ← rfind_str $"${" (take finish text);
  Some (take (finish - (start + 2)) (drop (start + 2) text)).

(** The root of a path. *)
Fixpoint path_top (p : PathNode RepoContext) : PathNode RepoContext :=
  match p with
  | Path _ _ None _ _ => p
  | Path _ _ (Some up) _ _ => path_top up
  end.

(** The coordinate [refuse_undefined_property] looks at: a module's own dependency
    counts with its type and classifier, unless the reactor builds it. *)
Definition checked_coord (it : Item) (version_str : str) : str :=
  let d := dependency it in
  let coord := group_id d ++ $":" ++ artifact_id d ++ $":" ++ version_str in
  let exact := negb (contains_char (one_of ["["%char; "("%char]) version_str)
    && negb (bool_decide (version_str ∈ [$"LATEST"; $"RELEASE"]))
    && negb (bool_decide (effective_type d = $"pom")) in
  if (depth it =? 1)%N && exact && negb (is_reactor_module (group_id d) (artifact_id d) version_str) then
    let packaging := if decide (effective_type d = $"jar") then [] else effective_type d in
    match effective_classifier d with
    | Some classifier => coord ++ $":" ++ packaging ++ $":" ++ classifier
    | None => if decide (packaging = []) then coord else coord ++ $":" ++ packaging
    end
  else coord.

Definition refuse_undefined_property (it : Item) (version_str : str) : result Failure unit :=
  let d := dependency it in
  let coord := checked_coord it version_str in
  match undefined_property coord with
  | None => Ok ()
  | Some property =>
    let managed :=
      bool_decide (undefined_property (group_id d ++ $":" ++ artifact_id d) = None)
      && negb (bool_decide (version d = Some version_str)) in
    let declaring := if managed then path_top (item_path it) else item_path it in
    let declared_by := default [] (last (coordinates declaring)) in
    let module := ok (Coord.parse declared_by) ≫= module_at in
    Err (UndefinedProperty coord property (default declared_by module))
  end.

(** ** Versions *)

Definition missing_version (e : MissingVersion) : Failure :=
  MissingVersionOf (missing_group e) (missing_artifact e).

Definition invalid_requirement (e : InvalidVersionRequirement) : Failure :=
  InvalidRequirement (invalid_coord e) (invalid_value e).

Definition version_of (it : Item) : result Failure str :=
  map_err missing_version (resolve_version_str management (dependency it) (N.to_nat (depth it))).

Definition requirement_of (group artifact version : str) : result Failure Requested.t :=
  map_err invalid_requirement (parse_requested_requirement group artifact version).

Definition resolve_requirement_versions (group artifact : str) (requirement : Requested.t)
    (repos : RepoContext) : result Failure (list Version') :=
  match requirement with
  | Requested.Exact v | Requested.Soft v => Ok [{| resolved := v; repo := None |}]
  | Requested.Ranges req => resolve_versions group artifact req repos
  | Requested.Dynamic token =>
    marker ← map_err VersionFault (Version.parse (requirement_label token));
    v ← resolve_version group artifact (Exact marker) repos;
    Ok [v]
  end.

Definition requested_versions (group artifact version : str) (repos : RepoContext)
    : result Failure (Requested.t * list Version' * Version') :=
  requirement ← requirement_of group artifact version;
  versions ← resolve_requirement_versions group artifact requirement repos;
  match last versions with
  | Some highest => Ok (requirement, removelast versions, highest)
  | None => Err (VersionNotFound (group ++ $":" ++ artifact) version)
  end.

(** ** Candidates *)

(** A candidate before its [Arc]; the walk allocates it. *)
Definition candidate (it : Item) (c : Coord.t) (v : Version') (p : option Project)
    (h : option Hard) (source : list nat) (inherited : list CoordKey) : Cand := {|
  arc := 0; item := it; coord := c; resolved_version := v; resolved_project := p; hard := h;
  source := source; inherited := inherited |}.

Definition coord_project (c : Coord.t) : Project :=
  plain_project (Coord.group_id c) (Coord.artifact_id c) (original (Coord.version c)).

(** [system_candidate], with the constraint and the source its callers set. *)
Definition system_candidate (it : Item) (c : Coord.t) (h : option Hard) (source : list nat)
    : result Failure Cand :=
  if is_none_or (fun path => bool_decide (trim path = [])) (system_path (dependency it))
  then Err (InvalidSystemPath (group_id (dependency it)) (artifact_id (dependency it)))
  else Ok (candidate it c {| resolved := Coord.version c; repo := None |} (Some (coord_project c)) h source []).

Record Resolution := {
  res_candidate : Cand;
  alternatives : list Version';
  aliases : list CoordKey;
}.

Inductive Load :=
  | Ready (c : Cand)
  | Relocated (r : Resolution)
  | Cyclic (r : Resolution)
  | Excluded.

(** ** Fetching *)

Definition attach_dropped_repos (it : Item) (c : Coord.t) (err : Failure) : Failure :=
  match err with
  | ArtifactNotFound failed searched dropped like =>
    ArtifactNotFound failed searched
      (dropped ++ dropped_repos_on_path (coordinates (item_path it)) (original (Coord.version c)) searched) like
  | other => other
  end.

Definition with_version (c : Coord.t) (v : Version) : Coord.t := {|
  Coord.group_id := Coord.group_id c; Coord.artifact_id := Coord.artifact_id c; Coord.version := v;
  Coord.packaging := Coord.packaging c; Coord.classifier := Coord.classifier c |}.

(** The closure [fetch] of [load_declared]. *)
Definition fetch (it : Item) (requested c : Coord.t)
    : Cached (Coord.t * Project * option Version' * list Coord.t) := fun cache =>
  match fetch_project_with_relocation_cached c (path_repos (item_path it)) cache with
  | None => None
  | Some (Err err, cache) =>
    let err := attach_dropped_repos it c err in
    Some (Err (if same_text c requested then err else in_model_of err c), cache)
  | Some (Ok (target, project, snapshot, between, inherited_build), cache) =>
    let target :=
      match (if inherited_build then snapshot else None) with
      | Some build => with_version target (resolved build)
      | None => target
      end in
    Some (Ok (target, project, snapshot, between), cache)
  end.

(** ** Relocations and the management of their targets *)

Definition MAX_RELOCATION_MANAGEMENT_PASSES : nat := 8.

(** The variables the loop of [load_declared] assigns. *)
Record Relocating := {
  target : Coord.t;
  target_project : Project;
  snapshot : option Version';
  rel_dependency : Dependency;
  rel_managed_scope : bool;
  rel_hard : option Hard;
  rel_alternatives : list Version';
  listed_for : option Coord.t;
  rel_aliases : list CoordKey;
  rel_inherited : list CoordKey;
  previous : Coord.t;
  rel_resolved : Version';
}.

(** How a pass goes on: the load returns, the loop is left (on a cycle or not), or
    there is another pass. *)
Inductive pass_end :=
  | Returns (l : Load)
  | Breaks (cyclic : bool) (st : Relocating)
  | Again (st : Relocating).

Definition set_managed (st : Relocating) (d : Dependency) (scoped : bool) : Relocating := {|
  target := target st; target_project := target_project st; snapshot := snapshot st;
  rel_dependency := d; rel_managed_scope := scoped; rel_hard := rel_hard st;
  rel_alternatives := rel_alternatives st; listed_for := listed_for st; rel_aliases := rel_aliases st;
  rel_inherited := rel_inherited st; previous := previous st; rel_resolved := rel_resolved st |}.

Definition too_many_passes (from to : Coord.t) : Failure :=
  RelocationCycle (Coord.display from ++ $" -> " ++ Coord.display to ++ $" (more than 8 managed relocations)").

(** A target managed to a system file. *)
Definition system_target (it : Item) (st : Relocating) (version : option str) : result Failure Load :=
  let t := target st in
  '(versions, v, h) ←
    match version with
    | Some version =>
      '(requirement, versions, highest) ←
        requested_versions (Coord.group_id t) (Coord.artifact_id t) version (path_repos (item_path it));
      Ok (versions, resolved highest, hard_constraint requirement)
    | None => Ok ([], Coord.version t, None)
    end;
  let it := with_dependency it (rel_dependency st) (rel_managed_scope st) in
  c ← system_candidate it (with_version t v) h [length versions];
  Ok (Relocated {| res_candidate := c; alternatives := versions; aliases := rel_aliases st |}).

(** A target managed to a version: the rest of the pass. *)
Definition managed_target (it : Item) (coord : Coord.t) (source : list nat) (st : Relocating) (version : str)
    : Cached pass_end :=
  let t := target st in
  '(requirement, versions, highest) ←
    lift (requested_versions (Coord.group_id t) (Coord.artifact_id t) version (path_repos (item_path it)));
  let is_range := match requirement with Requested.Ranges _ => true | _ => false end in
  let lowest := default highest (head versions) in
  stops ←
    (if is_range then
       let c := with_version t (resolved lowest) in
       '(stop, _, _, _) ← fetch it coord c;
       mret (negb (same_text stop c) && negb (path_contains (item_path it) (key_of stop)))
     else mret false);
  let rel_resolved := if stops : bool then lowest else highest in
  let managed := with_version t (resolved rel_resolved) in
  if is_range && negb stops then
    if MAX_RELOCATION_MANAGEMENT_PASSES <=? length source then lift (Err (too_many_passes coord managed))
    else
      mret (Returns (Relocated {|
        res_candidate := candidate (with_dependency it (rel_dependency st) (rel_managed_scope st)) managed
          rel_resolved None (hard_constraint requirement) (source ++ [length versions]) (rel_aliases st);
        alternatives := versions; aliases := rel_aliases st |}))
  else
    let st := {|
      target := t; target_project := target_project st; snapshot := snapshot st;
      rel_dependency := rel_dependency st; rel_managed_scope := rel_managed_scope st;
      rel_hard := hard_constraint requirement; rel_alternatives := if stops then [] else versions;
      listed_for := Some managed; rel_aliases := rel_aliases st; rel_inherited := rel_inherited st;
      previous := previous st; rel_resolved := rel_resolved |} in
    if same_text managed t then mret (Breaks false st)
    else
      '(t', project', snapshot', between) ← fetch it coord managed;
      let st := {|
        target := t'; target_project := project'; snapshot := snapshot';
        rel_dependency := rel_dependency st; rel_managed_scope := rel_managed_scope st;
        rel_hard := rel_hard st; rel_alternatives := rel_alternatives st; listed_for := listed_for st;
        rel_aliases := rel_aliases st; rel_inherited := rel_inherited st; previous := managed;
        rel_resolved := Load.rel_resolved st |} in
      if same_text t' managed then mret (Breaks false st)
      else
        mret (Again {|
          target := t'; target_project := project'; snapshot := snapshot';
          rel_dependency := rel_dependency st; rel_managed_scope := rel_managed_scope st;
          rel_hard := None; rel_alternatives := []; listed_for := listed_for st;
          rel_aliases := map key_of (managed :: between); rel_inherited := rel_aliases st;
          previous := managed; rel_resolved := Load.rel_resolved st |}).

(** One pass of the loop. *)
Definition relocation_pass (it : Item) (coord : Coord.t) (source : list nat) (st : Relocating)
    : Cached pass_end :=
  let t := target st in
  if path_contains (item_path it) (key_of t) then mret (Breaks true st)
  else if excludes (item_exclusions it) (Coord.group_id t) (Coord.artifact_id t) then mret (Returns Excluded)
  else if (1 <? depth it)%N && negb (is_followed_transitively (rel_dependency st)) then mret (Returns Excluded)
  else if bool_decide (Coord.group_id t = Coord.group_id (previous st))
          && bool_decide (Coord.artifact_id t = Coord.artifact_id (previous st)) then mret (Breaks false st)
  else
    match entry management (Coord.group_id t) (Coord.artifact_id t) (dependency it) with
    | None => mret (Breaks false (set_managed st (rel_dependency st) false))
    | Some m =>
      let '(d, scoped) := manage m (rel_dependency st) (depth it) in
      let st := set_managed st d scoped in
      let version := opt_filter (fun _ => (1 <? depth it)%N) (version m) in
      if decide (effective_scope d = System) then
        l ← lift (system_target it st version);
        mret (Returns l)
      else
        match version with
        | None => mret (Breaks false st)
        | Some version => managed_target it coord source st version
        end
    end.

(** The loop, with the passes left. *)
Fixpoint relocation_passes (passes : nat) (it : Item) (coord : Coord.t) (source : list nat) (st : Relocating)
    : Cached (Load + bool * Relocating) :=
  match passes with
  | O => lift (Err (too_many_passes coord (target st)))
  | S passes =>
    step ← relocation_pass it coord source st;
    match step with
    | Returns l => mret (inl l)
    | Breaks cyclic st => mret (inr (cyclic, st))
    | Again st => relocation_passes passes it coord source st
    end
  end.

(** What is made of a snapshot build: the version and the repository it came from. *)
Definition take_snapshot (snapshot : option Version') (v : Version') : Version' := default v snapshot.

(** The candidate of a relocation whose loop was left. *)
Definition relocated (it : Item) (source : list nat) (cyclic : bool) (st : Relocating) : Load :=
  let v :=
    if is_none_or (fun listed => negb (same_text listed (target st))) (listed_for st)
    then {| resolved := Coord.version (target st); repo := None |} else rel_resolved st in
  let r := {|
    res_candidate := candidate (with_dependency it (rel_dependency st) (rel_managed_scope st)) (target st)
      (take_snapshot (snapshot st) v) (Some (target_project st)) (rel_hard st) source (rel_inherited st);
    alternatives := rel_alternatives st; aliases := rel_aliases st |} in
  if cyclic then Cyclic r else Relocated r.

(** [load_declared]. *)
Definition load_declared (c : Cand) : Cached Load :=
  let it := item c in
  '(t, project, snap, between) ← fetch it (coord c) (coord c);
  if same_text t (coord c) then
    mret (Ready (candidate it (coord c) (take_snapshot snap (resolved_version c)) (Some project) (hard c)
                   (source c) (inherited c)))
  else
    finished ← relocation_passes MAX_RELOCATION_MANAGEMENT_PASSES it (coord c) (source c) {|
      target := t; target_project := project; snapshot := snap; rel_dependency := dependency it;
      rel_managed_scope := item_managed_scope it; rel_hard := None; rel_alternatives := [];
      listed_for := None; rel_aliases := map key_of (coord c :: between); rel_inherited := inherited c;
      previous := coord c; rel_resolved := resolved_version c |};
    match finished with
    | inl l => mret l
    | inr (cyclic, st) => mret (relocated it (source c) cyclic st)
    end.

(** [load_candidate]'s account of a failure: the POMs on the path, then the candidate
    when the fault is in its own model, then the relocation target. *)
Definition failed_load (c : Cand) (err : Failure) : Failure :=
  let '(target, err) := match err with Declared [] via error => (via, error) | err => ([], err) end in
  let own := match cause err with Pom _ | InvalidSystemPath _ _ => [gav_text (coord c)] | _ => [] end in
  declared_via err (drop 1 (coordinates (item_path (item c))) ++ own ++ target).

Definition load_candidate (c : Cand) : Cached Load :=
  if names_property (coord c) then
    mret (Ready (candidate (item c) (coord c) (resolved_version c) (Some (coord_project (coord c))) (hard c)
                   (source c) (inherited c)))
  else cached_map_err (failed_load c) (load_declared c).

(** [declared_below]. *)
Definition declared_below (err : Failure) (path : PathNode RepoContext) : Failure :=
  declared_via err (drop 1 (coordinates path)).

(** ** Resolving a declaration *)

Definition only (c : Cand) : Resolution := {| res_candidate := c; alternatives := []; aliases := [] |}.

(** [resolve_item]. *)
Definition resolve_item (queued : Item) : Cached (option Resolution) :=
  let followed := is_followed_transitively (dependency queued) in
  let it := apply_managed_metadata management queued in
  let d := dependency it in
  if is_excluded d (item_exclusions it) || ((1 <? depth it)%N && negb followed)
     || bool_decide (effective_scope d = Import)
  then mret None
  else
    version_str ← lift (version_of it);
    match refuse_undefined_property it version_str with
    | Err error =>
      if (depth it =? 1)%N || bool_decide (effective_scope d = System)
         || starts_with_char (one_of ["["%char; "("%char]) version_str
      then lift (Err error)
      else
        let v := unresolved version_str in
        mret (Some (only (candidate it (coord_of d v) {| resolved := v; repo := None |} None None [0] [])))
    | Ok _ =>
      '(requirement, versions, highest) ←
        lift (requested_versions (group_id d) (artifact_id d) version_str (path_repos (item_path it)));
      let c := coord_of d (resolved highest) in
      if decide (effective_scope d = System) then
        cand ← lift (system_candidate it c (hard_constraint requirement) [length versions]);
        mret (Some {| res_candidate := cand; alternatives := versions; aliases := [] |})
      else
        let cand := candidate it c highest None (hard_constraint requirement) [length versions] [] in
        match requirement with
        | Requested.Ranges _ => mret (Some {| res_candidate := cand; alternatives := versions; aliases := [] |})
        | _ =>
          loaded ← load_candidate cand;
          mret (match loaded with
                | Ready c => Some (only c)
                | Relocated r | Cyclic r => Some r
                | Excluded => None
                end)
        end
    end.
End Load.

(** * What reading a declaration returns

    Rules for code that threads the relocation cache: [yields] for the value it returns
    and [total] for its returning at all.  Reading a declaration always ends, whatever
    the backend answers, and what it returns belongs to the declaration it read. *)

Section LoadFacts.
Context `{Unicode} `{SolverBackend} (management : Management).

Abbreviation Failure := (ResolveError Error).
Abbreviation Item := (QueueItem RepoContext).
Abbreviation Cand := (@Candidate RepoContext RepoRef.t Project).

(** ** Rules *)

Definition yields {A} (m : Cached A) (P : A -> Prop) : Prop :=
  forall cache a cache', m cache = Some (Ok a, cache') -> P a.

Definition total {A} (m : Cached A) : Prop := forall cache, is_Some (m cache).

Lemma yields_ret {A} (a : A) (P : A -> Prop) : P a -> yields (mret a) P.
Proof. intros Pa cache b cache' E. unfold mret, cached_ret in E. by simplify_eq. Qed.

Lemma yields_lift {A} (r : result Failure A) (P : A -> Prop) : (forall a, r = Ok a -> P a) -> yields (lift r) P.
Proof. intros Hr cache a cache' E. unfold lift in E. simplify_eq. by apply Hr. Qed.

Lemma yields_bind {A B} (m : Cached A) (f : A -> Cached B) (P : B -> Prop) :
  (forall a, yields (f a) P) -> yields (m ≫= f) P.
Proof.
  intros Hf cache b cache' E. unfold mbind, cached_bind in E.
  destruct (m cache) as [[[a|e] cache1]|]; try done. by eapply Hf.
Qed.

Lemma yields_then {A B} (m : Cached A) (f : A -> Cached B) (Q : A -> Prop) (P : B -> Prop) :
  yields m Q -> (forall a, Q a -> yields (f a) P) -> yields (m ≫= f) P.
Proof.
  intros Hm Hf cache b cache' E. unfold mbind, cached_bind in E.
  destruct (m cache) as [[[a|e] cache1]|] eqn:Em; try done. eapply Hf; [by eapply Hm|done].
Qed.

Lemma yields_map_err {A} f (m : Cached A) P : yields m P -> yields (cached_map_err f m) P.
Proof.
  intros Hm cache a cache' E. unfold cached_map_err in E.
  destruct (m cache) as [[[b|e] cache1]|] eqn:Em; simplify_eq. by eapply Hm.
Qed.

Lemma total_ret {A} (a : A) : total (mret a).
Proof. intros cache. by eexists. Qed.

Lemma total_lift {A} (r : result Failure A) : total (lift r).
Proof. intros cache. by eexists. Qed.

Lemma total_bind {A B} (m : Cached A) (f : A -> Cached B) :
  total m -> (forall a, total (f a)) -> total (m ≫= f).
Proof.
  intros Hm Hf cache. unfold mbind, cached_bind. destruct (Hm cache) as [[[a|e] cache1] ->]; [apply Hf|by eexists].
Qed.

Lemma total_map_err {A} f (m : Cached A) : total m -> total (cached_map_err f m).
Proof. intros Hm cache. unfold cached_map_err. destruct (Hm cache) as [[[a|e] cache1] ->]; by eexists. Qed.

(** ** What a load returns *)

(** A declaration read again, with what management makes of it. *)
Definition same_place (it it' : Item) : Prop :=
  item_parent it' = item_parent it /\ parent_generation it' = parent_generation it /\ depth it' = depth it /\
  order it' = order it /\ declared_at it' = declared_at it /\ item_path it' = item_path it /\
  item_exclusions it' = item_exclusions it /\ shadow it' = shadow it.

Lemma same_place_with it d scoped : same_place it (with_dependency it d scoped).
Proof. done. Qed.

Lemma same_place_trans a b c : same_place a b -> same_place b c -> same_place a c.
Proof. unfold same_place. intros (? & ? & ? & ? & ? & ? & ? & ?) (? & ? & ? & ? & ? & ? & ? & ?). repeat split; congruence. Qed.

Lemma same_place_managed it : same_place it (apply_managed_metadata management it).
Proof. unfold apply_managed_metadata. repeat case_match; done. Qed.

(** A candidate whose constraint, if any, is one the code makes. *)
Definition hard_wf (h : option Hard) : Prop := forall x, h = Some x -> hard_ok x.

(** The version [v] a coordinate resolves to: its own, or the build that the backend
    gives for it when its version is resolved through snapshot metadata. *)
Definition version_of_coord (c : Coord.t) (v : Version) : Prop :=
  original v = original (Coord.version c) \/
  exists c' repos build, coord_text c' = coord_text c /\ resolves_through_snapshot_metadata (original (Coord.version c')) = true /\
    resolve_snapshot_version c' repos = Ok build /\ v = resolved build.

Definition snapshot_ok (c : Coord.t) (snapshot : option (ResolvedVersion RepoRef.t)) : Prop :=
  forall build, snapshot = Some build -> version_of_coord c (resolved build).

(** A candidate as the code makes them: its constraint, and the version of its
    coordinate. *)
Definition cand_wf (c : Cand) : Prop := hard_wf (hard c) /\ version_of_coord (coord c) (resolved (resolved_version c)).

Definition load_of (c : Cand) (l : Load) : Prop :=
  match l with
  | Ready c' => coord c' = coord c /\ item c' = item c /\ is_Some (resolved_project c') /\ hard c' = hard c /\
      (cand_wf c -> cand_wf c')
  | Relocated r | Cyclic r => same_place (item c) (item (res_candidate r)) /\ cand_wf (res_candidate r)
  | Excluded => True
  end.

(** What the loop over relocations keeps. *)
Record relocating_ok (st : Relocating) : Prop := {
  ro_hard : hard_wf (rel_hard st);
  ro_snapshot : snapshot_ok (target st) (snapshot st);
  ro_listed c : listed_for st = Some c -> original (Coord.version c) = original (resolved (rel_resolved st));
}.

Lemma version_of_text c d v : coord_text c = coord_text d -> version_of_coord c v -> version_of_coord d v.
Proof.
  intros E [Hv|(c' & repos & build & Ec & Hr)]; [left; injection E; congruence|right]. exists c', repos, build. by rewrite <-E.
Qed.

#[local] Opaque fetch_project_with_relocation_cached.

Lemma fetch_snapshot it requested c : yields (fetch it requested c) (fun x => snapshot_ok x.1.1.1 x.1.2).
Proof.
  intros cache [[[t project] snap] between] cache' E. unfold fetch in E.
  destruct (fetch_project_with_relocation_cached _ _ _) as [[[[[[[found project'] snap'] between'] pinned]|] cache1]|] eqn:Ef; [|done..].
  apply fetch_with_relocation_build in Ef as (pin & Eb & Epin). cbn zeta in E. injection E as <- <- <- <- <-. cbn [fst snd]. intros build ->.
  unfold fetch_build in Eb. destruct (resolves_through_snapshot_metadata _) eqn:Er; cbn [negb] in Eb; [|by destruct (fetch_project _ _ _)].
  destruct pin as [pin|]; cbn in Epin; subst pinned; [by left|]. cbn [mbind result_bind] in Eb.
  destruct (resolve_snapshot_version found _) as [b|] eqn:Es; [|done]. cbn in Eb. destruct (fetch_project _ _ _); [|done]. cbn in Eb.
  injection Eb as _ ->. right. by exists found, (path_repos (item_path it)), build.
Qed.

#[local] Transparent fetch_project_with_relocation_cached.

(** A pass of the relocation loop returns what belongs to the declaration. *)
Definition pass_of (it : Item) (p : pass_end) : Prop :=
  match p with
  | Returns (Ready _) => False
  | Returns (Relocated r) | Returns (Cyclic r) => same_place it (item (res_candidate r)) /\ cand_wf (res_candidate r)
  | Returns Excluded => True
  | Breaks _ st | Again st => relocating_ok st
  end.

Lemma hard_wf_none : hard_wf None.
Proof. done. Qed.

Lemma requested_hard_wf g a v repos r vs highest :
  requested_versions g a v repos = Ok (r, vs, highest) -> hard_wf (hard_constraint r).
Proof.
  unfold requested_versions, requirement_of. intros E h Hh.
  destruct (parse_requested_requirement g a v) as [r'|] eqn:Er; [|done]. cbn in E.
  destruct (resolve_requirement_versions _ _ _ _) as [l|]; [|done]. cbn in E.
  destruct (last l); [|done]. simplify_eq. by eapply requested_hard_ok.
Qed.

Lemma system_candidate_of it c h source x :
  system_candidate it c h source = Ok x -> item x = it /\ hard x = h /\ (hard_wf h -> cand_wf x).
Proof. unfold system_candidate. destruct (is_none_or _ _); [done|]. intros [= <-]. split_and!; [done..|]. split; [done|by left]. Qed.

Lemma system_target_of it st version l :
  system_target it st version = Ok l -> pass_of it (Returns l).
Proof.
  unfold system_target. intros E.
  destruct (match version with Some _ => _ | None => _ end) as [[[versions v] h]|] eqn:Ev; [|done]. cbn [mbind result_bind] in E.
  assert (hard_wf h) as Hh.
  { destruct version as [version|]; [|by simplify_eq].
    destruct (requested_versions _ _ _ _) as [[[r vs] highest]|] eqn:Er; [|done]. cbn in Ev. simplify_eq.
    by eapply requested_hard_wf. }
  destruct (system_candidate _ _ _ _) as [c|] eqn:Ec; [|done]. cbn in E. simplify_eq.
  apply system_candidate_of in Ec as (Ei & _ & Hc). cbn. rewrite Ei. split; [done|by apply Hc].
Qed.

Lemma managed_target_of it c source st version :
  relocating_ok st -> yields (managed_target it c source st version) (pass_of it).
Proof.
  intros [_ Hs _]. unfold managed_target.
  apply (yields_then _ _ (fun x => hard_wf (hard_constraint x.1.1)));
    [apply yields_lift; intros [[r vs] hi] E; exact (requested_hard_wf _ _ _ _ _ _ _ E)|].
  intros [[requirement versions] highest] Hr. cbn [fst] in Hr.
  apply yields_bind. intros stops. destruct (_ && _).
  - destruct (_ <=? _); [by apply yields_lift|]. apply yields_ret. split; [done|]. split; [done|by left].
  - destruct (same_text _ _); [apply yields_ret; split; [done..|]; by intros x [= <-]|].
    eapply yields_then; [apply fetch_snapshot|]. intros [[[t' project'] snapshot'] between] Hs'. cbn in Hs'.
    destruct (same_text _ _); apply yields_ret; (split; [done..|]); by intros x [= <-].
Qed.

Lemma relocation_pass_of it c source st :
  relocating_ok st -> yields (relocation_pass management it c source st) (pass_of it).
Proof.
  intros Hst. unfold relocation_pass. destruct (path_contains _ _); [by apply yields_ret|].
  destruct (excludes _ _ _); [by apply yields_ret|]. destruct (_ && negb _); [by apply yields_ret|].
  destruct (_ && _); [by apply yields_ret|].
  assert (forall d scoped, relocating_ok (set_managed st d scoped)) as Hm by (intros d scoped; split; apply Hst).
  destruct (entry _ _ _ _) as [m|]; [|apply yields_ret, Hm].
  destruct (manage _ _ _) as [d scoped]. case_decide.
  - eapply yields_then; [apply yields_lift, system_target_of|]. intros l Hl. by apply yields_ret.
  - destruct (opt_filter _ _); [apply managed_target_of, Hm|apply yields_ret, Hm].
Qed.

Lemma relocation_passes_of passes it c source st :
  relocating_ok st ->
  yields (relocation_passes management passes it c source st)
    (fun r => match r with inl l => pass_of it (Returns l) | inr (_, st) => relocating_ok st end).
Proof.
  revert st. induction passes as [|passes IH]; intros st Hst; cbn [relocation_passes]; [by apply yields_lift|].
  eapply yields_then; [by apply relocation_pass_of|]. intros [l|cyclic st'|st'] Hp; [by apply yields_ret..|by apply IH].
Qed.

Lemma relocated_of it source cyclic st c :
  relocating_ok st -> item c = it -> load_of c (relocated it source cyclic st).
Proof.
  intros [Hh Hs Hl] Ei. unfold relocated. set (r := {| res_candidate := _ |}).
  assert (same_place (item c) (item (res_candidate r)) /\ cand_wf (res_candidate r)) as Hr; [|by destruct cyclic].
  rewrite Ei. split; [done|]. split; [done|]. cbn. unfold take_snapshot. destruct (snapshot st) as [build|]; [by apply Hs|]. cbn.
  destruct (listed_for st) as [listed|]; cbn; [|by left]. destruct (same_text listed (target st)) eqn:Et; cbn; [|by left].
  apply same_text_true in Et. left. specialize (Hl listed eq_refl). injection Et. congruence.
Qed.

Lemma load_candidate_of c : yields (load_candidate management c) (load_of c).
Proof.
  unfold load_candidate. destruct (names_property (coord c)); [by apply yields_ret|].
  apply yields_map_err. unfold load_declared. eapply yields_then; [apply fetch_snapshot|]. intros [[[t project] snap] between] Hs.
  cbn in Hs. destruct (same_text t (coord c)) eqn:Et.
  - apply yields_ret. split_and!; try done. intros [Hh Hv]. split; [done|]. cbn. unfold take_snapshot.
    destruct snap as [build|]; [|done]. apply same_text_true in Et. apply (version_of_text t); [done|by apply Hs].
  - eapply yields_then; [by apply relocation_passes_of|]. intros [[c'|r|r|]|[cyclic st]] Hl; try by apply yields_ret.
    apply yields_ret. by apply relocated_of.
Qed.

(** ** Reading always ends *)

Lemma fetch_total it requested c : total (fetch it requested c).
Proof.
  intros cache. unfold fetch, fetch_project_with_relocation_cached.
  destruct (follow_fuel (MAX_RELOCATIONS + 2) c (path_repos (item_path it)) cache [] c None true)
    as [[[[[[[t p] s] b] i]|e] cache'] E]; [cbn; lia..| |]; rewrite E; by eexists.
Qed.

Lemma managed_target_total it c source st version : total (managed_target it c source st version).
Proof.
  unfold managed_target. apply total_bind; [apply total_lift|]. intros [[requirement versions] highest].
  apply total_bind.
  - destruct requirement; try apply total_ret. apply total_bind; [apply fetch_total|].
    intros [[[t p] s] b]. apply total_ret.
  - intros stops. destruct (_ && _).
    + destruct (_ <=? _); [apply total_lift|apply total_ret].
    + destruct (same_text _ _); [apply total_ret|]. apply total_bind; [apply fetch_total|].
      intros [[[t p] s] b]. destruct (same_text _ _); apply total_ret.
Qed.

Lemma relocation_pass_total it c source st : total (relocation_pass management it c source st).
Proof.
  unfold relocation_pass. destruct (path_contains _ _); [apply total_ret|].
  destruct (excludes _ _ _); [apply total_ret|]. destruct (_ && negb _); [apply total_ret|].
  destruct (_ && _); [apply total_ret|]. destruct (entry _ _ _ _) as [m|]; [|apply total_ret].
  destruct (manage _ _ _) as [d scoped]. case_decide.
  - apply total_bind; [apply total_lift|]. intros l. apply total_ret.
  - destruct (opt_filter _ _); [apply managed_target_total|apply total_ret].
Qed.

Lemma load_candidate_total c : total (load_candidate management c).
Proof.
  unfold load_candidate. destruct (names_property (coord c)); [apply total_ret|]. apply total_map_err.
  unfold load_declared. apply total_bind; [apply fetch_total|]. intros [[[t project] snap] between].
  destruct (same_text t (coord c)); [apply total_ret|]. apply total_bind.
  - generalize MAX_RELOCATION_MANAGEMENT_PASSES. intros n. generalize {| target := t; target_project := project; snapshot := snap; rel_dependency := dependency (item c);
      rel_managed_scope := item_managed_scope (item c); rel_hard := None; rel_alternatives := [];
      listed_for := None; rel_aliases := map key_of (coord c :: between); rel_inherited := inherited c;
      previous := coord c; rel_resolved := resolved_version c |}.
    induction n as [|n IH]; intros st; cbn [relocation_passes]; [apply total_lift|].
    apply total_bind; [apply relocation_pass_total|]. intros [l|cyclic st'|st']; [apply total_ret..|apply IH].
  - intros [l|[cyclic st]]; apply total_ret.
Qed.
(** ** Reading a declaration *)

(** What is pruned before anything is read. *)
Definition pruned (queued : Item) : bool :=
  let it := apply_managed_metadata management queued in
  is_excluded (dependency it) (item_exclusions it)
  || ((1 <? depth it)%N && negb (is_followed_transitively (dependency queued)))
  || bool_decide (effective_scope (dependency it) = Import).

Lemma resolve_item_total it : total (resolve_item management it).
Proof.
  unfold resolve_item. destruct (_ || _); [apply total_ret|].
  apply total_bind; [apply total_lift|]. intros version_str.
  destruct (refuse_undefined_property _ _).
  - apply total_bind; [apply total_lift|]. intros [[requirement versions] highest]. case_decide.
    + apply total_bind; [apply total_lift|]. intros c. apply total_ret.
    + destruct requirement; try apply total_ret;
        (apply total_bind; [apply load_candidate_total|]; intros l; apply total_ret).
  - destruct (_ || _); [apply total_lift|apply total_ret].
Qed.

(** What is resolved stands where the declaration stood. *)
Definition resolution_of (it : Item) (found : option Resolution) : Prop :=
  forall r, found = Some r -> same_place it (item (res_candidate r)) /\ cand_wf (res_candidate r).

Lemma load_resolution c l :
  cand_wf c -> load_of c l ->
  resolution_of (item c) (match l with Ready c => Some (only c) | Relocated r | Cyclic r => Some r | Excluded => None end).
Proof.
  intros Hc Hl r E. destruct l as [c'|r'|r'|]; cbn in *; simplify_eq; try done. cbn.
  destruct Hl as (_ & -> & _ & _ & Hw). by split; [|apply Hw].
Qed.

Lemma resolve_item_of it : yields (resolve_item management it) (resolution_of it).
Proof.
  pose proof (same_place_managed it) as Hm. unfold resolve_item. destruct (_ || _); [by apply yields_ret|].
  set (it' := apply_managed_metadata management it) in *. clearbody it'.
  apply yields_bind. intros version_str. destruct (refuse_undefined_property _ _).
  - apply (yields_then _ _ (fun x => hard_wf (hard_constraint x.1.1)));
      [apply yields_lift; intros [[r vs] hi] E; exact (requested_hard_wf _ _ _ _ _ _ _ E)|].
    intros [[requirement versions] highest] Hr. cbn [fst] in Hr. case_decide.
    + eapply yields_then; [apply yields_lift; intros c E; exact (system_candidate_of _ _ _ _ _ E)|].
      intros c (Hc & _ & Hw). apply yields_ret. intros r [= <-]. cbn. rewrite Hc. split; [done|by apply Hw].
    + match goal with |- context [load_candidate management ?c] => assert (cand_wf c) as Hc by (split; [exact Hr|by left]) end.
      destruct requirement; try (apply yields_ret; by intros r [= <-]);
        (eapply yields_then; [apply load_candidate_of|]; intros l Hl; apply yields_ret; intros r Er;
         apply load_resolution in Hl; [|exact Hc]; destruct (Hl r Er) as [Hp Hw]; split; [|exact Hw];
         exact (same_place_trans _ _ _ Hm Hp)).
  - destruct (_ || _); [by apply yields_lift|]. apply yields_ret. intros r [= <-]. split; [done|]. split; [done|by left].
Qed.
End LoadFacts.

(** ** Theorems *)

(** C23: reading a queued declaration ends, whatever the backend answers and however
    often projects relocate; a pruned declaration (excluded, optional or of a scope not
    followed below the first level, or an import) is dropped before anything is read,
    and what another resolves to stands where it stood: its parent, depth, order, path,
    exclusions and shadow are those of the declaration. *)
Theorem resolve_item_ends `{Unicode} `{SolverBackend} (management : Management) (it : QueueItem RepoContext) cache :
  exists r cache', resolve_item management it cache = Some (r, cache') /\
    (pruned management it = true -> r = Ok None /\ cache' = cache) /\
    (forall found, r = Ok (Some found) -> same_place it (item (res_candidate found))).
Proof.
  destruct (resolve_item_total management it cache) as [[r cache'] E]. exists r, cache'. split; [done|]. split.
  - unfold pruned, resolve_item in *. intros Hp. rewrite Hp in E. unfold mret, cached_ret in E. by simplify_eq.
  - intros found ->. by eapply (resolve_item_of management it cache) in E as [].
Qed.
