(* ===== verification/Graph.v ===== *)
(** * The dependency graph ([rv-resolver/src/graph.rs], the operations on it)

    The graph is kept in petgraph, which the class [PetGraph] states as an
    interface: the operations the code calls and, in [PetGraphLaws], what they are
    documented to do.  The operations of [Graph] are defined and proved against the
    interface, and [list_graph] implements it. *)

From Stdlib Require Import Ascii String Lia.
From stdpp Require Import base list strings gmap relations.
From S2P Require Import Prelude Str Version Coordinates Dependency Keys Iter.

#[local] Set Warnings "-clear-no-such-hyp".

(** ** Nodes *)

Module Node.
Section Node.
Context {RepoContext : Type}.

Record t := {
  coord : Coord.t;
  scope : Scope;
  repo_url : option str;
  build_repo : option RepoRef.t;
  repos : RepoContext;
  checksum : option str;
  workspace_module : option str;
  local : bool;
  system_path : option str;
  winner_parent : option nat;
}.

(** The assignment [node.scope = scope]. *)
Definition set_scope (n : t) (s : Scope) : t := {|
  coord := coord n; scope := s; repo_url := repo_url n; build_repo := build_repo n;
  repos := repos n; checksum := checksum n; workspace_module := workspace_module n;
  local := local n; system_path := system_path n; winner_parent := winner_parent n |}.
End Node.
Arguments t : clear implicits.
End Node.

#[export] Instance edge_eq_dec : EqDecision Edge.
Proof. solve_decision. Defined.

(** ** petgraph *)

(** A reference to an edge: its index, its ends and its weight. *)
Module EdgeRef.
Record t := { id : nat; source : nat; target : nat; weight : Edge }.
End EdgeRef.

(** What an edge is, whatever index it has. *)
Definition Arc : Type := nat * nat * Edge.

Definition arc_of (r : EdgeRef.t) : Arc := (EdgeRef.source r, EdgeRef.target r, EdgeRef.weight r).

Class PetGraph (W G : Type) := {
  empty_graph : G;
  node_weights : G -> list W;
  edge_refs : G -> list EdgeRef.t;
  edges_from : G -> nat -> list EdgeRef.t;
  edges_into : G -> nat -> list EdgeRef.t;
  edges_connecting : G -> nat -> nat -> list EdgeRef.t;
  neighbors : G -> nat -> list nat;
  neighbors_into : G -> nat -> list nat;
  bfs : G -> nat -> list nat;
  pet_add_node : G -> W -> G * nat;
  set_weights : G -> list W -> G;
  pet_add_edge : G -> nat -> nat -> Edge -> G * nat;
  pet_remove_edge : G -> nat -> G * option Edge;
  (** The graphs petgraph's own operations build. *)
  valid : G -> Prop;
}.

Definition pet_node_count `{PetGraph W G} (g : G) : nat := length (node_weights g).

(** The edges of a graph, as they are without their indices. *)
Definition arcs `{PetGraph W G} (g : G) : list Arc := arc_of <$> edge_refs g.

(** One edge, and any number of them. *)
Definition linked `{PetGraph W G} (g : G) (a b : nat) : Prop := exists w, (a, b, w) ∈ arcs g.

Class PetGraphLaws (W G : Type) `{PetGraph W G} : Prop := {
  empty_valid : valid empty_graph;
  empty_nodes : node_weights empty_graph = [];
  empty_arcs : arcs empty_graph = [];
  ends_exist g a b w : valid g -> (a, b, w) ∈ arcs g -> a < pet_node_count g /\ b < pet_node_count g;
  ids_differ g : valid g -> NoDup (EdgeRef.id <$> edge_refs g);
  edges_from_spec g a : valid g ->
    edges_from g a ≡ₚ List.filter (fun r => EdgeRef.source r =? a) (edge_refs g);
  edges_into_spec g b : valid g ->
    edges_into g b ≡ₚ List.filter (fun r => EdgeRef.target r =? b) (edge_refs g);
  edges_connecting_spec g a b : valid g ->
    edges_connecting g a b ≡ₚ
      List.filter (fun r => (EdgeRef.source r =? a) && (EdgeRef.target r =? b)) (edge_refs g);
  neighbors_spec g a : valid g -> neighbors g a = EdgeRef.target <$> edges_from g a;
  neighbors_into_spec g b : valid g -> neighbors_into g b = EdgeRef.source <$> edges_into g b;
  bfs_spec g a b : valid g -> a < pet_node_count g -> b ∈ bfs g a <-> rtc (linked g) a b;
  add_node_spec g n : valid g ->
    valid (pet_add_node g n).1 /\ node_weights (pet_add_node g n).1 = node_weights g ++ [n] /\
    edge_refs (pet_add_node g n).1 = edge_refs g /\ (pet_add_node g n).2 = pet_node_count g;
  set_weights_spec g l : valid g -> length l = pet_node_count g ->
    valid (set_weights g l) /\ node_weights (set_weights g l) = l /\
    edge_refs (set_weights g l) = edge_refs g;
  add_edge_spec g a b w : valid g -> a < pet_node_count g -> b < pet_node_count g ->
    valid (pet_add_edge g a b w).1 /\ node_weights (pet_add_edge g a b w).1 = node_weights g /\
    arcs (pet_add_edge g a b w).1 ≡ₚ (a, b, w) :: arcs g;
  remove_edge_spec g r : valid g -> r ∈ edge_refs g ->
    let '(g', removed) := pet_remove_edge g (EdgeRef.id r) in
    valid g' /\ node_weights g' = node_weights g /\ removed = Some (EdgeRef.weight r) /\
    arcs g ≡ₚ arc_of r :: arcs g';
}.

(** ** The graph *)

Record Graph (G : Type) := { graph : G; root : nat }.
Arguments graph {G}.
Arguments root {G}.
Arguments Build_Graph {G}.

Section Operations.
Context {RepoContext G : Type} `{PetGraph (Node.t RepoContext) G}.

Definition with_graph (g : Graph G) (pet : G) : Graph G := {| graph := pet; root := root g |}.

(** [Graph::new]. *)
Definition new_graph (root : Node.t RepoContext) : Graph G :=
  let '(graph, root_index) := pet_add_node empty_graph root in
  {| graph := graph; root := root_index |}.

(** [Graph::node], and [node_mut] with the assignment made through it. *)
Definition node (g : Graph G) (idx : nat) : option (Node.t RepoContext) :=
  node_weights (graph g) !! idx.

Definition update_node (g : Graph G) (idx : nat) (f : Node.t RepoContext -> Node.t RepoContext) : Graph G :=
  with_graph g (set_weights (graph g) (alter f idx (node_weights (graph g)))).

Definition insert_node (g : Graph G) (n : Node.t RepoContext) : Graph G * nat :=
  let '(graph, index) := pet_add_node (graph g) n in (with_graph g graph, index).

Definition node_count (g : Graph G) : nat := pet_node_count (graph g).

Definition edge_count (g : Graph G) : nat := length (edge_refs (graph g)).

Definition reachable (g : Graph G) : list nat := bfs (graph g) (root g).

Definition edge_references (g : Graph G) : list Arc := arcs (graph g).

(** [find(|e| e.weight() == edge)] among the edges between two nodes. *)
Definition existing (g : Graph G) (from to : nat) (edge : Edge) : option EdgeRef.t :=
  List.find (fun e => bool_decide (EdgeRef.weight e = edge)) (edges_connecting (graph g) from to).

(** [Graph::add_edge]. *)
Definition add_edge (g : Graph G) (from to : nat) (edge : Edge) : Graph G * nat :=
  match existing g from to edge with
  | Some e => (g, EdgeRef.id e)
  | None => let '(graph, index) := pet_add_edge (graph g) from to edge in (with_graph g graph, index)
  end.

(** [Graph::remove_edge]. *)
Definition remove_edge (g : Graph G) (from to : nat) (edge : Edge) : Graph G :=
  match existing g from to edge with
  | Some e => with_graph g (pet_remove_edge (graph g) (EdgeRef.id e)).1
  | None => g
  end.

(** The loops below remove an edge per turn, so one more turn than there are edges
    suffices. *)
Definition edge_budget (g : Graph G) : N := N.of_nat (S (edge_count g)).

(** [Graph::clear_outgoing] and [Graph::clear_incoming]. *)
Definition clear_step (listed : G -> nat -> list EdgeRef.t) (at_node : nat) (g : Graph G)
    : Graph G + Graph G :=
  match listed (graph g) at_node with
  | e :: _ => inl (with_graph g (pet_remove_edge (graph g) (EdgeRef.id e)).1)
  | [] => inr g
  end.

Definition clear_outgoing (g : Graph G) (at_node : nat) : option (Graph G) :=
  run_loop (clear_step edges_from at_node) (edge_budget g) g.

Definition clear_incoming (g : Graph G) (at_node : nat) : option (Graph G) :=
  run_loop (clear_step edges_into at_node) (edge_budget g) g.

(** [Graph::retarget_incoming]. *)
Definition retarget_step (from to : nat) (g : Graph G) : Graph G + Graph G :=
  match edges_into (graph g) from with
  | e :: _ =>
    let '(pet, removed) := pet_remove_edge (graph g) (EdgeRef.id e) in
    let g := with_graph g pet in
    inl (match removed with
         | Some edge => (add_edge g (EdgeRef.source e) to edge).1
         | None => g
         end)
  | [] => inr g
  end.

Definition retarget_incoming (g : Graph G) (from to : nat) : option (Graph G) :=
  run_loop (retarget_step from to) (edge_budget g) g.

(** [found.declared <= current.declared], where no place comes before any. *)
Definition declared_leb (found current : option N) : bool :=
  match found, current with
  | None, _ => true
  | Some _, None => false
  | Some a, Some b => (a <=? b)%N
  end.

(** One edge of [Graph::direct_edges], and all of them. *)
Definition direct_step (first : gmap nat Edge) (e : EdgeRef.t) : gmap nat Edge :=
  let found := EdgeRef.weight e in
  match first !! EdgeRef.target e with
  | Some current =>
    if declared_leb (declared found) (declared current)
    then <[EdgeRef.target e := found]> first else first
  | None => <[EdgeRef.target e := found]> first
  end.

Definition direct_edges (g : Graph G) : gmap nat Edge :=
  foldl direct_step ∅ (edges_from (graph g) (root g)).

(** [parent] of [Graph::declared_via]. *)
Definition declaring_parent (g : Graph G) (idx : nat) : option nat :=
  match node g idx ≫= Node.winner_parent with
  | Some parent => Some parent
  | None =>
    List.find (fun parent => bool_decide (parent ∈ reachable g)) (neighbors_into (graph g) idx)
  end.

(** The loop of [Graph::declared_via], the latest name last; it leaves after as
    many names as there are nodes. *)
Fixpoint via_loop (g : Graph G) (turns : nat) (at_node : option nat) (via : list str) : list str :=
  match turns, at_node with
  | S turns, Some n =>
    if n =? root g then via
    else
      let name :=
        match node g n with
        | Some weight =>
          let coord := Node.coord weight in
          Coord.group_id coord ++ $":" ++ Coord.artifact_id coord ++ $":" ++
            original (Coord.version coord)
        | None => []
        end in
      via_loop g turns (declaring_parent g n) (via ++ [name])
  | _, _ => via
  end.

Definition declared_via (g : Graph G) (idx : nat) : list str :=
  reverse (via_loop g (node_count g) (declaring_parent g idx) []).
End Operations.

(** ** What the operations do to the edges *)

Section Facts.
Context {RepoContext G : Type} `{PetGraphLaws (Node.t RepoContext) G}.

Abbreviation graph_arcs g := (arcs (graph g)).

(** A graph the operations build: no edge is there twice. *)
Record graph_ok (g : Graph G) : Prop := {
  ok_valid : valid (graph g);
  ok_arcs : NoDup (graph_arcs g);
  ok_root : root g < node_count g;
}.

(** [g'] has the nodes of [g], and the edges that [P] describes. *)
Record rewired (g g' : Graph G) (P : Arc -> Prop) : Prop := {
  rewired_ok : graph_ok g';
  rewired_nodes : node_weights (graph g') = node_weights (graph g);
  rewired_root : root g' = root g;
  rewired_arcs : forall x, x ∈ graph_arcs g' <-> P x;
}.

Lemma arcs_elem (g : G) x : x ∈ arcs g <-> exists r, r ∈ edge_refs g /\ arc_of r = x.
Proof. unfold arcs. rewrite list_elem_of_fmap. naive_solver. Qed.

Lemma filter_elem {A} (p : A -> bool) l x : x ∈ List.filter p l <-> x ∈ l /\ p x = true.
Proof. rewrite !list_elem_of_In. apply filter_In. Qed.

Lemma edges_from_elem (g : G) a r :
  valid g -> r ∈ edges_from g a <-> r ∈ edge_refs g /\ EdgeRef.source r = a.
Proof. intros V. rewrite edges_from_spec, filter_elem, Nat.eqb_eq by done. done. Qed.

Lemma edges_into_elem (g : G) b r :
  valid g -> r ∈ edges_into g b <-> r ∈ edge_refs g /\ EdgeRef.target r = b.
Proof. intros V. rewrite edges_into_spec, filter_elem, Nat.eqb_eq by done. done. Qed.

Lemma existing_Some g a b w e :
  valid (graph g) -> existing g a b w = Some e -> e ∈ edge_refs (graph g) /\ arc_of e = (a, b, w).
Proof.
  unfold existing. intros V E. apply find_some in E as [E W].
  apply list_elem_of_In in E. rewrite edges_connecting_spec, filter_elem in E by done.
  destruct E as [E B]. bool_simpl. unfold arc_of. split; [done|congruence].
Qed.

Lemma existing_None g a b w :
  valid (graph g) -> existing g a b w = None -> (a, b, w) ∉ graph_arcs g.
Proof.
  unfold existing. intros V E Hin. apply arcs_elem in Hin as (r & Hr & W).
  unfold arc_of in W. simplify_eq.
  eapply find_none in E as E'; [|apply list_elem_of_In; rewrite edges_connecting_spec, filter_elem by done].
  2: by rewrite !Nat.eqb_refl.
  by rewrite bool_decide_true in E'.
Qed.

(** Removing the edge an index names. *)
Lemma removed_ok g r :
  graph_ok g -> r ∈ edge_refs (graph g) ->
  rewired g (with_graph g (pet_remove_edge (graph g) (EdgeRef.id r)).1)
    (fun x => x ∈ graph_arcs g /\ x <> arc_of r) /\
  (pet_remove_edge (graph g) (EdgeRef.id r)).2 = Some (EdgeRef.weight r) /\
  length (graph_arcs g) = S (length (arcs (pet_remove_edge (graph g) (EdgeRef.id r)).1)).
Proof.
  intros [V D R] Hr. pose proof (remove_edge_spec _ _ V Hr) as S.
  destruct (pet_remove_edge _ _) as [g' removed]. destruct S as (V' & N' & -> & P).
  assert (NoDup (arc_of r :: arcs g')) as D' by (by rewrite <-P).
  apply NoDup_cons in D' as [Hn D'].
  split; [|split; [done|by rewrite P]]. split; cbn; [|done..|].
  - split; cbn; [done..|]. unfold node_count, pet_node_count in *. cbn. by rewrite N'.
  - intros x. rewrite P, elem_of_cons. split; [|tauto].
    intros Hx. split; [by right|by intros ->].
Qed.

(** [add_edge] adds the edge unless it is there: repeated declarations do not
    multiply it. *)
Lemma add_edge_ok g a b w :
  graph_ok g -> a < node_count g -> b < node_count g ->
  rewired g (add_edge g a b w).1 (fun x => x = (a, b, w) \/ x ∈ graph_arcs g).
Proof.
  intros [V D R] Ha Hb. unfold add_edge. destruct (existing g a b w) as [e|] eqn:E.
  - apply existing_Some in E as [E W]; [|done]. split; cbn; [done..|].
    intros x. split; [by right|intros [-> |?]; [|done]]. apply arcs_elem. eauto.
  - apply existing_None in E; [|done].
    destruct (add_edge_spec _ _ _ w V Ha Hb) as (V' & N' & P).
    destruct (pet_add_edge _ _ _ _) as [g' i]. cbn in *. split; cbn; [|done..|].
    + split; cbn; [done| |].
      * rewrite P. apply NoDup_cons. done.
      * unfold node_count, pet_node_count in *. cbn. by rewrite N'.
    + intros x. rewrite P. apply elem_of_cons.
Qed.

Lemma remove_edge_ok g a b w :
  graph_ok g -> rewired g (remove_edge g a b w) (fun x => x <> (a, b, w) /\ x ∈ graph_arcs g).
Proof.
  intros Hg. unfold remove_edge. pose proof (ok_valid _ Hg) as V.
  destruct (existing g a b w) as [e|] eqn:E.
  - apply existing_Some in E as [E W]; [|done]. destruct (removed_ok g e Hg E) as [[O N' R' A'] _].
    rewrite W in A'. split; [done..|]. intros x. rewrite A'. tauto.
  - apply existing_None in E; [|done]. split; [done..|]. set_solver.
Qed.

Lemma edge_count_arcs (g : Graph G) : edge_count g = length (graph_arcs g).
Proof. unfold edge_count, arcs. by rewrite length_fmap. Qed.

Lemma rewired_trans g g1 g2 P Q :
  rewired g g1 P -> rewired g1 g2 Q -> rewired g g2 Q.
Proof.
  intros [O1 N1 R1 _] [O2 N2 R2 A2]. split; [done|by rewrite N2|by rewrite R2|done].
Qed.

(** Both [clear_] loops: they end, and leave the edges not listed at the node. *)
Lemma clear_ok (listed : G -> nat -> list EdgeRef.t) (end_of : Arc -> nat) g at_node :
  (forall g r, valid g -> r ∈ listed g at_node <-> r ∈ edge_refs g /\ end_of (arc_of r) = at_node) ->
  graph_ok g ->
  exists g', run_loop (clear_step listed at_node) (edge_budget g) g = Some g' /\
    rewired g g' (fun x => x ∈ graph_arcs g /\ end_of x <> at_node).
Proof.
  intros Hl Hg.
  apply (run_total _ (fun g1 => rewired g g1 (fun x => x ∈ graph_arcs g1) /\
      forall x, end_of x <> at_node -> x ∈ graph_arcs g1 <-> x ∈ graph_arcs g)
    _ (fun g1 => N.of_nat (length (graph_arcs g1)))).
  - intros g1 [[O1 N1 R1 _] A1]. unfold clear_step.
    destruct (listed (graph g1) at_node) as [|e l] eqn:L.
    + split; [done..|]. intros x. split; [|intros [? ?]; by apply A1].
      intros Hx. assert (end_of x <> at_node) as Hne; [|by rewrite A1 in Hx].
      intros <-. apply arcs_elem in Hx as (r & Hr & <-).
      assert (r ∈ listed (graph g1) (end_of (arc_of r))) as Hin by (apply Hl; [apply O1|done]).
      rewrite L in Hin. by apply not_elem_of_nil in Hin.
    + assert (e ∈ listed (graph g1) at_node) as He by (rewrite L; left).
      apply Hl in He as [He Hend]; [|apply O1].
      destruct (removed_ok g1 e O1 He) as (W & _ & Hlen). split; [split|].
      * destruct W as [O2 N2 R2 _]. split; [done|by rewrite N2|by rewrite R2|done].
      * intros x Hx. rewrite (rewired_arcs _ _ _ W), <-(A1 x Hx). split; [tauto|].
        intros; split; [done|congruence].
      * cbn [with_graph graph]. lia.
  - split; [split|]; done.
  - unfold edge_budget. rewrite edge_count_arcs. lia.
Qed.

Lemma clear_outgoing_ok g n :
  graph_ok g ->
  exists g', clear_outgoing g n = Some g' /\
    rewired g g' (fun x => x ∈ graph_arcs g /\ x.1.1 <> n).
Proof.
  intros Hg. apply (clear_ok edges_from (fun x => x.1.1)); [|done].
  intros g1 r V. by rewrite edges_from_elem.
Qed.

Lemma clear_incoming_ok g n :
  graph_ok g ->
  exists g', clear_incoming g n = Some g' /\
    rewired g g' (fun x => x ∈ graph_arcs g /\ x.1.2 <> n).
Proof.
  intros Hg. apply (clear_ok edges_into (fun x => x.1.2)); [|done].
  intros g1 r V. by rewrite edges_into_elem.
Qed.

(** The edges into a node, to count them. *)
Definition arcs_into (g : Graph G) (n : nat) : list Arc :=
  List.filter (fun x => x.1.2 =? n) (graph_arcs g).

Lemma NoDup_bool_filter {A} (p : A -> bool) l : NoDup l -> NoDup (List.filter p l).
Proof. rewrite !NoDup_ListNoDup. apply List.NoDup_filter. Qed.

Lemma NoDup_less `{EqDecision A} (l l' : list A) a :
  NoDup l -> NoDup l' -> a ∈ l -> (forall x, x ∈ l' <-> x ∈ l /\ x <> a) ->
  length l = S (length l').
Proof.
  intros D D' Ha Hx. assert (l ≡ₚ a :: l') as ->; [|done].
  apply NoDup_Permutation; [done|apply NoDup_cons; split; [|done]|].
  - rewrite Hx. tauto.
  - intros x. rewrite elem_of_cons, Hx. split; [|intros [-> |[? _]]; done].
    intros. destruct (decide (x = a)); tauto.
Qed.

(** One turn of [retarget_incoming] moves one edge. *)
Lemma retarget_step_ok g from to e l :
  graph_ok g -> from <> to -> to < node_count g ->
  edges_into (graph g) from = e :: l ->
  let a := EdgeRef.source e in let w := EdgeRef.weight e in
  exists g', retarget_step from to g = inl g' /\ (a, from, w) ∈ graph_arcs g /\
    rewired g g' (fun x => x = (a, to, w) \/ x ∈ graph_arcs g /\ x <> (a, from, w)) /\
    length (arcs_into g from) = S (length (arcs_into g' from)).
Proof.
  intros Hg Hne Hto L a w. unfold retarget_step. rewrite L.
  assert (e ∈ edges_into (graph g) from) as He by (rewrite L; left).
  apply edges_into_elem in He as [He Ht]; [|apply Hg].
  destruct (removed_ok g e Hg He) as (W & Hw & _).
  destruct (pet_remove_edge (graph g) (EdgeRef.id e)) as [g1 removed]. cbn [fst snd] in *. subst removed.
  assert (Harc : arc_of e = (a, from, w)) by (unfold arc_of; subst a w; congruence).
  assert (Hin : (a, from, w) ∈ graph_arcs g) by (rewrite <-Harc; apply arcs_elem; eauto).
  rewrite Harc in W. pose proof (rewired_nodes _ _ _ W) as Hn.
  assert (a < node_count g) as Ha by (by apply (ends_exist (graph g) a from w); [apply Hg|]).
  assert (W2 := add_edge_ok (with_graph g g1) a to w (rewired_ok _ _ _ W)).
  unfold node_count, pet_node_count in W2, Ha, Hto. rewrite Hn in W2. specialize (W2 Ha Hto).
  exists (add_edge (with_graph g g1) a to w).1. split; [done|]. split; [done|].
  assert (rewired g (add_edge (with_graph g g1) a to w).1
    (fun x => x = (a, to, w) \/ x ∈ graph_arcs g /\ x <> (a, from, w))) as W3.
  { destruct (rewired_trans _ _ _ _ _ W W2) as [O3 N3 R3 A3]. split; [done..|].
    intros x. by rewrite A3, (rewired_arcs _ _ _ W). }
  split; [done|]. apply (NoDup_less _ _ (a, from, w)).
  - apply NoDup_bool_filter, Hg.
  - apply NoDup_bool_filter, (rewired_ok _ _ _ W3).
  - apply filter_elem. cbn. by rewrite Nat.eqb_refl.
  - intros x. unfold arcs_into. rewrite !filter_elem, (rewired_arcs _ _ _ W3), !Nat.eqb_eq.
    split; [|tauto]. intros [[-> |?] ?]; [done|tauto].
Qed.

(** The edges the retargeted node has at a moment of the loop. *)
Definition merged (g : Graph G) (from to : nat) (x : nat * Edge) : Prop :=
  (x.1, to, x.2) ∈ graph_arcs g \/ (x.1, from, x.2) ∈ graph_arcs g.

Lemma retarget_incoming_ok g from to :
  graph_ok g -> from <> to -> to < node_count g ->
  exists g', retarget_incoming g from to = Some g' /\
    rewired g g' (fun x => x.1.2 <> from /\
      (if decide (x.1.2 = to) then merged g from to (x.1.1, x.2) else x ∈ graph_arcs g)).
Proof.
  intros Hg Hne Hto.
  apply (run_total _ (fun g1 => rewired g g1 (fun x => x ∈ graph_arcs g1) /\
      (forall x, x.1.2 <> from -> x.1.2 <> to -> x ∈ graph_arcs g1 <-> x ∈ graph_arcs g) /\
      (forall x, merged g1 from to x <-> merged g from to x))
    _ (fun g1 => N.of_nat (length (arcs_into g1 from)))).
  - intros g1 ([O1 N1 R1 _] & A1 & M1).
    destruct (edges_into (graph g1) from) as [|e l] eqn:L.
    + unfold retarget_step. rewrite L. split; [done..|]. intros [[s t] w]. cbn.
      assert (forall s w, (s, from, w) ∉ graph_arcs g1) as Hno.
      { intros s' w' Hx. apply arcs_elem in Hx as (r & Hr & Harc). unfold arc_of in Harc. simplify_eq.
        assert (r ∈ edges_into (graph g1) (EdgeRef.target r)) as Hin
          by (by apply edges_into_elem; [apply O1|]).
        rewrite L in Hin. by apply not_elem_of_nil in Hin. }
      destruct (decide (t = from)) as [-> |Hf]; [naive_solver|].
      case_decide as Ht; [subst t|]; [|by rewrite (A1 (s, t, w) Hf Ht); naive_solver].
      rewrite <-M1. unfold merged. cbn. naive_solver.
    + assert (to < node_count g1) as Hto1
        by (unfold node_count, pet_node_count in *; by rewrite N1).
      destruct (retarget_step_ok g1 from to e l O1 Hne Hto1 L) as (g2 & -> & Hin & W & Hlen).
      destruct W as [O2 N2 R2 A2]. split; [split_and!|lia].
      * split; [done|by rewrite N2|by rewrite R2|done].
      * intros [[s t] w] Hf Ht. cbn in *. rewrite A2, <-(A1 (s, t, w) Hf Ht). naive_solver.
      * intros [s w]. rewrite <-M1. unfold merged. cbn. rewrite !A2.
        destruct (decide ((s, w) = (EdgeRef.source e, EdgeRef.weight e))); naive_solver.
  - split; [split|]; done.
  - unfold edge_budget. cbv beta. rewrite edge_count_arcs. unfold arcs_into.
    match goal with |- context [length (List.filter ?p ?l)] => pose proof (List.filter_length_le p l) end.
    unfold Arc in *. lia.
Qed.

(** *** Direct declarations *)

Lemma declared_leb_refl d : declared_leb d d = true.
Proof. destruct d; cbn; [apply N.leb_refl|done]. Qed.

Lemma declared_leb_trans a b c :
  declared_leb a b = true -> declared_leb b c = true -> declared_leb a c = true.
Proof. destruct a, b, c; cbn; try done. rewrite !N.leb_le. lia. Qed.

Lemma declared_leb_total a b : declared_leb a b = false -> declared_leb b a = true.
Proof. destruct a, b; cbn; try done. rewrite N.leb_gt, N.leb_le. lia. Qed.

(** [first] holds, for each target among [seen], a declaration that no other precedes. *)
Definition first_of (seen : list EdgeRef.t) (first : gmap nat Edge) : Prop :=
  forall n,
    match first !! n with
    | None => forall r, r ∈ seen -> EdgeRef.target r <> n
    | Some e =>
      (exists r, r ∈ seen /\ EdgeRef.target r = n /\ EdgeRef.weight r = e) /\
      forall r, r ∈ seen -> EdgeRef.target r = n ->
        declared_leb (declared e) (declared (EdgeRef.weight r)) = true
    end.

Lemma direct_step_ne first e n : n <> EdgeRef.target e -> direct_step first e !! n = first !! n.
Proof.
  intros Hn. unfold direct_step.
  destruct (first !! _); [destruct (declared_leb _ _)|]; by rewrite ?lookup_insert_ne.
Qed.

Lemma direct_step_first seen first e :
  first_of seen first -> first_of (seen ++ [e]) (direct_step first e).
Proof.
  intros Hf n.
  assert (forall r, r ∈ seen ++ [e] <-> r ∈ seen \/ r = e) as Hs by set_solver.
  destruct (decide (n = EdgeRef.target e)) as [-> |Hn].
  - specialize (Hf (EdgeRef.target e)). unfold direct_step.
    destruct (first !! EdgeRef.target e) as [current|] eqn:E.
    + destruct Hf as [[r Hr] Hmin]. destruct (declared_leb _ _) eqn:L.
      * rewrite lookup_insert_eq. split; [exists e; rewrite Hs; auto|].
        intros r' [Hr'| ->]%Hs T; [|apply declared_leb_refl]. eapply declared_leb_trans; [done|auto].
      * rewrite E. split; [exists r; rewrite Hs; tauto|].
        intros r' [Hr'| ->]%Hs T; [auto|by apply declared_leb_total].
    + rewrite lookup_insert_eq. split; [exists e; rewrite Hs; auto|].
      intros r' [Hr'| ->]%Hs T; [by apply Hf in Hr'|apply declared_leb_refl].
  - specialize (Hf n). rewrite direct_step_ne by done.
    destruct (first !! n).
    + destruct Hf as [(r & Hr & T) Hmin]. split; [exists r; rewrite Hs; auto|].
      intros r' [Hr'| ->]%Hs T'; [auto|congruence].
    + intros r' [Hr'| ->]%Hs; [auto|congruence].
Qed.

Lemma direct_edges_first g : first_of (edges_from (graph g) (root g)) (direct_edges g).
Proof.
  unfold direct_edges.
  enough (forall l seen first, first_of seen first -> first_of (seen ++ l) (foldl direct_step first l)) as Hl.
  { apply (Hl _ [] ∅). intros n. rewrite lookup_empty. set_solver. }
  induction l as [|e l IH]; intros seen first Hf; cbn [foldl].
  - by rewrite app_nil_r.
  - replace (seen ++ e :: l) with ((seen ++ [e]) ++ l) by (by rewrite <-app_assoc).
    by apply IH, direct_step_first.
Qed.

(** What the module declares directly, in terms of the edges of its root. *)
Lemma direct_edges_spec g n :
  valid (graph g) ->
  match direct_edges g !! n with
  | None => forall e, (root g, n, e) ∉ graph_arcs g
  | Some e =>
    (root g, n, e) ∈ graph_arcs g /\
    forall e', (root g, n, e') ∈ graph_arcs g -> declared_leb (declared e) (declared e') = true
  end.
Proof.
  intros V. pose proof (direct_edges_first g n) as Hf.
  assert (forall e, (root g, n, e) ∈ graph_arcs g <->
    exists r, r ∈ edges_from (graph g) (root g) /\ EdgeRef.target r = n /\ EdgeRef.weight r = e) as Ha.
  { intros e. rewrite arcs_elem. setoid_rewrite edges_from_elem; [|done]. unfold arc_of.
    split; [intros (r & Hr & E); simplify_eq; eauto 10|].
    intros (r & [Hr <-] & <- & <-). eauto. }
  destruct (direct_edges g !! n) as [e|]; [|naive_solver].
  rewrite Ha. destruct Hf as [Hin Hmin]. split; [done|]. intros e' He'. apply Ha in He'.
  naive_solver.
Qed.
End Facts.

(** ** An implementation of the interface *)

Record ListGraph (W : Type) := { list_nodes : list W; list_arcs : list Arc }.
Arguments list_nodes {W}.
Arguments list_arcs {W}.
Arguments Build_ListGraph {W}.

Section ListGraphs.
Context {W : Type}.

Definition refs_of (l : list Arc) : list EdgeRef.t :=
  imap (fun i '(a, b, w) => EdgeRef.Build_t i a b w) l.

(** The breadth-first walk: what was seen, and what is to be seen. *)
Definition bfs_step (l : list Arc) (st : list nat * list nat) : (list nat * list nat) + list nat :=
  match st with
  | (seen, []) => inr seen
  | (seen, x :: todo) =>
    if decide (x ∈ seen) then inl (seen, todo)
    else inl (x :: seen, map (fun y : Arc => y.1.2) (List.filter (fun y : Arc => y.1.1 =? x) l) ++ todo)
  end.

Definition list_bfs (l : list Arc) (a : nat) : list nat :=
  default [] (run_loop (bfs_step l) (N.of_nat (S (S (length l)))) ([], [a])).

#[export] Instance list_graph : PetGraph W (ListGraph W) := {|
  empty_graph := {| list_nodes := []; list_arcs := [] |};
  node_weights := list_nodes;
  edge_refs g := refs_of (list_arcs g);
  edges_from g a := reverse (List.filter (fun r => EdgeRef.source r =? a) (refs_of (list_arcs g)));
  edges_into g b := reverse (List.filter (fun r => EdgeRef.target r =? b) (refs_of (list_arcs g)));
  edges_connecting g a b :=
    reverse (List.filter (fun r => (EdgeRef.source r =? a) && (EdgeRef.target r =? b)) (refs_of (list_arcs g)));
  neighbors g a :=
    EdgeRef.target <$> reverse (List.filter (fun r => EdgeRef.source r =? a) (refs_of (list_arcs g)));
  neighbors_into g b :=
    EdgeRef.source <$> reverse (List.filter (fun r => EdgeRef.target r =? b) (refs_of (list_arcs g)));
  bfs g a := list_bfs (list_arcs g) a;
  pet_add_node g n :=
    ({| list_nodes := list_nodes g ++ [n]; list_arcs := list_arcs g |}, length (list_nodes g));
  set_weights g l := {| list_nodes := l; list_arcs := list_arcs g |};
  pet_add_edge g a b w :=
    ({| list_nodes := list_nodes g; list_arcs := list_arcs g ++ [(a, b, w)] |}, length (list_arcs g));
  pet_remove_edge g i :=
    ({| list_nodes := list_nodes g; list_arcs := delete i (list_arcs g) |}, snd <$> list_arcs g !! i);
  valid g := Forall (fun x : Arc => x.1.1 < length (list_nodes g) /\ x.1.2 < length (list_nodes g)) (list_arcs g);
|}.

Lemma refs_of_snoc l x :
  refs_of (l ++ [x]) = refs_of l ++ [EdgeRef.Build_t (length l) x.1.1 x.1.2 x.2].
Proof. unfold refs_of. rewrite imap_app. cbn. rewrite Nat.add_0_r. by destruct x as [[a b] w]. Qed.

Lemma arcs_refs_of l : arc_of <$> refs_of l = l.
Proof.
  induction l as [|[[a b] w] l IH] using rev_ind; [done|].
  rewrite refs_of_snoc, fmap_app, IH. done.
Qed.

Lemma ids_refs_of l : EdgeRef.id <$> refs_of l = seq 0 (length l).
Proof.
  induction l as [|x l IH] using rev_ind; [done|].
  rewrite refs_of_snoc, fmap_app, IH, length_app, seq_app. done.
Qed.

Lemma refs_of_elem l r : r ∈ refs_of l -> l !! EdgeRef.id r = Some (arc_of r).
Proof.
  unfold refs_of. intros (i & [[a b] w] & -> & E)%elem_of_lookup_imap_1. done.
Qed.

Definition arc_between (l : list Arc) (x y : nat) : Prop := exists w : Edge, (x, y, w) ∈ l.

(** The walk stays among the reachable nodes and leaves no successor behind. *)
Definition bfs_inv (l : list Arc) (a : nat) (st : list nat * list nat) : Prop :=
  (forall x, x ∈ st.1 \/ x ∈ st.2 -> rtc (arc_between l) a x) /\ (a ∈ st.1 \/ a ∈ st.2) /\
  (forall x y, x ∈ st.1 -> arc_between l x y -> y ∈ st.1 \/ y ∈ st.2).

Lemma targets_elem (l : list Arc) x y :
  y ∈ map (fun z : Arc => z.1.2) (List.filter (fun z : Arc => z.1.1 =? x) l) <-> arc_between l x y.
Proof.
  change (map ?f ?l) with (f <$> l). rewrite list_elem_of_fmap. split.
  - intros ([[x' y'] w] & -> & Hin). apply filter_elem in Hin as [Hin E].
    cbn in *. apply Nat.eqb_eq in E as ->. by exists w.
  - intros [w Hin]. exists (x, y, w). rewrite filter_elem. cbn. by rewrite Nat.eqb_refl.
Qed.

Lemma filter_length_split {A} (p q : A -> bool) l :
  (forall x, p x = true -> q x = true) ->
  length (List.filter q l) =
    length (List.filter p l) + length (List.filter (fun x => q x && negb (p x)) l).
Proof.
  intros Hpq. induction l as [|x l IH]; [done|]. cbn.
  specialize (Hpq x). destruct (p x), (q x); cbn; try lia; by specialize (Hpq eq_refl).
Qed.

Lemma bfs_inv_step l a seen x todo :
  bfs_inv l a (seen, x :: todo) ->
  bfs_inv l a (x :: seen,
    map (fun y : Arc => y.1.2) (List.filter (fun y : Arc => y.1.1 =? x) l) ++ todo).
Proof.
  intros (Hr & Ha & Hc). cbn in *. split_and!; cbn [fst snd].
  - intros y. rewrite elem_of_cons, elem_of_app, targets_elem. intros [[-> |?]|[[w Hy]|?]];
      [apply Hr; set_solver..| |apply Hr; set_solver].
    eapply rtc_r; [apply (Hr x); set_solver|]. by exists w.
  - set_solver.
  - intros y z. rewrite !elem_of_cons, elem_of_app, targets_elem. intros [-> |Hy] Hz; [tauto|].
    destruct (Hc y z Hy Hz); set_solver.
Qed.

Lemma list_bfs_spec l a b :
  b ∈ list_bfs l a <-> rtc (arc_between l) a b.
Proof.
  unfold list_bfs.
  destruct (run_total (bfs_step l) (bfs_inv l a)
    (fun seen => forall b, b ∈ seen <-> rtc (arc_between l) a b)
    (fun st => N.of_nat (length st.2 +
       length (List.filter (fun y : Arc => negb (bool_decide (y.1.1 ∈ st.1))) l)))
    ) with (fuel := N.of_nat (S (S (length l)))) (s := ([] : list nat, [a])) as (seen & -> & Hs).
  - intros [seen [|x todo]] Hinv; cbn [bfs_step].
    + destruct Hinv as (Hr & Ha & Hc). cbn in *. intros y. split; [intros; apply Hr; tauto|].
      intros Hy. assert (a ∈ seen) as Ha' by set_solver. clear Ha Hr.
      induction Hy as [|u v w Huv Hvw IH]; [done|]. apply IH. destruct (Hc u v Ha' Huv); set_solver.
    + case_decide as Hx.
      * split; [|cbn; lia]. destruct Hinv as (Hr & Ha & Hc). cbn in *. split_and!; cbn; [set_solver..|].
        intros y z Hy Hz. destruct (Hc y z Hy Hz); set_solver.
      * split; [by apply bfs_inv_step|]. cbn [fst snd length].
        rewrite length_app, length_map.
        rewrite (filter_length_split (fun y : Arc => negb (bool_decide (y.1.1 ∈ x :: seen)))
                   (fun y : Arc => negb (bool_decide (y.1.1 ∈ seen))) l).
        2: { intros y E. bool_simpl. case_bool_decide; set_solver. }
        rewrite (List.filter_ext (fun y : Arc => y.1.1 =? x)
          (fun y => negb (bool_decide (y.1.1 ∈ seen)) && negb (negb (bool_decide (y.1.1 ∈ x :: seen))))).
        { unfold Arc in *. lia. }
        intros y. destruct (Nat.eqb_spec (y.1.1) x) as [-> |Hne]; repeat case_bool_decide; cbn; set_solver.
  - split_and!; cbn; [|set_solver..]. intros x [?|?]; set_solver.
  - cbn [fst snd length].
    match goal with |- context [length (List.filter ?p l)] => pose proof (List.filter_length_le p l) end.
    unfold Arc in *. lia.
  - apply Hs.
Qed.

#[export] Instance list_graph_laws : PetGraphLaws W (ListGraph W).
Proof.
  assert (forall g : ListGraph W, arcs g = list_arcs g) as Ha by (intros; apply arcs_refs_of).
  split; try done.
  - by apply Forall_nil.
  - intros g a b w V Hin. rewrite Ha in Hin. by apply (proj1 (Forall_forall _ _) V) in Hin.
  - intros g V. cbn. rewrite ids_refs_of. apply NoDup_seq.
  - intros. cbn. by rewrite reverse_Permutation.
  - intros. cbn. by rewrite reverse_Permutation.
  - intros. cbn. by rewrite reverse_Permutation.
  - intros g a b V _. cbn [bfs list_graph]. rewrite list_bfs_spec.
    unfold linked, arc_between. rewrite Ha. done.
  - intros g n V. split_and!; try done. cbn. rewrite length_app. cbn.
    eapply Forall_impl; [exact V|]. cbn. lia.
  - intros g l V E. unfold pet_node_count in E. split_and!; try done. cbn in *. by rewrite E.
  - intros g a b w V La Lb. rewrite !Ha. split_and!; try done.
    + cbn in *. apply Forall_app. split; [done|]. by apply Forall_singleton.
    + cbn. by rewrite Permutation_app_comm.
  - intros g r V Hr. apply refs_of_elem in Hr. cbn [pet_remove_edge list_graph].
    rewrite !Ha. split_and!; try done.
    + by apply Forall_delete.
    + transitivity (snd <$> Some (arc_of r)); [by rewrite <-Hr|done].
    + by apply delete_Permutation.
Qed.
End ListGraphs.

(** ** The edges as a set *)

(** C33: the edges of the graph behave as a set, whatever graph library keeps them
    within the interface: adding one that is there changes nothing, removing and
    clearing take away exactly the named edges, and pointing the edges into one node
    at another merges them with those already there; every loop ends, the nodes stay,
    and no edge is ever there twice. *)
Theorem edge_operations_refine {RepoContext G} `{PetGraphLaws (Node.t RepoContext) G}
    (g : Graph G) (from to : nat) (w : Edge) :
  graph_ok g -> from < node_count g -> to < node_count g ->
  rewired g (add_edge g from to w).1 (fun x => x = (from, to, w) \/ x ∈ arcs (graph g)) /\
  rewired g (remove_edge g from to w) (fun x => x <> (from, to, w) /\ x ∈ arcs (graph g)) /\
  (exists g', clear_outgoing g from = Some g' /\
     rewired g g' (fun x => x ∈ arcs (graph g) /\ x.1.1 <> from)) /\
  (exists g', clear_incoming g from = Some g' /\
     rewired g g' (fun x => x ∈ arcs (graph g) /\ x.1.2 <> from)) /\
  (from <> to -> exists g', retarget_incoming g from to = Some g' /\
     rewired g g' (fun x => x.1.2 <> from /\
       (if decide (x.1.2 = to) then (x.1.1, to, x.2) ∈ arcs (graph g) \/ (x.1.1, from, x.2) ∈ arcs (graph g)
        else x ∈ arcs (graph g)))).
Proof.
  intros Hg Hf Ht. split_and!; auto using add_edge_ok, remove_edge_ok, clear_outgoing_ok, clear_incoming_ok.
  intros Hne. by apply retarget_incoming_ok.
Qed.

(** *** Witness: three nodes, of which the second is merged into the third *)

#[local] Existing Instance ascii_tables.

Definition demo_node (a : str) : Node.t unit := {|
  Node.coord := {| Coord.group_id := $"g"; Coord.artifact_id := a; Coord.version := unresolved $"1";
                   Coord.packaging := None; Coord.classifier := None |};
  Node.scope := Compile; Node.repo_url := None; Node.build_repo := None; Node.repos := tt;
  Node.checksum := None; Node.workspace_module := None; Node.local := false;
  Node.system_path := None; Node.winner_parent := None |}.

Definition demo_edge (s : Scope) (at_place : option N) : Edge := {|
  edge_scope := s; managed_scope := false; declared := at_place; edge_optional := false;
  edge_exclusions := []; requested := None |}.

Definition demo_graph : Graph (ListGraph (Node.t unit)) := {|
  graph := {| list_nodes := map demo_node [$"root"; $"a"; $"b"];
              list_arcs := [(0, 1, demo_edge Test (Some 0%N)); (0, 2, demo_edge Test (Some 0%N));
                            (2, 1, demo_edge Compile None)] |};
  root := 0 |}.

Lemma demo_graph_ok : graph_ok demo_graph.
Proof.
  split; cbn; [repeat constructor|by apply (bool_decide_unpack _); vm_compute|lia].
Qed.

Lemma edge_operations_refine_witness :
  (fun g => list_arcs (graph g)) <$> retarget_incoming demo_graph 1 2 =
    Some [(0, 2, demo_edge Test (Some 0%N)); (2, 2, demo_edge Compile None)] /\
  rewired demo_graph (add_edge demo_graph 1 2 (demo_edge Compile None)).1
    (fun x => x = (1, 2, demo_edge Compile None) \/ x ∈ arcs (graph demo_graph)).
Proof.
  split; [by vm_compute|].
  apply (edge_operations_refine demo_graph 1 2 (demo_edge Compile None));
    [apply demo_graph_ok|vm_compute; lia..].
Defined.
