(* ===== verification/ConflictOrder.v ===== *)
(** * The order of conflict groups ([ConflictOrder] of [rv-resolver/src/graph.rs])

    Maven's ConflictMarker and ConflictIdSorter over the mediated graph: the
    depth-first numbering of the nodes, the depth recorded for each, the nodes below
    each, and the cycles a walk from each node closes.  The vectors of the code are
    lists read and written by index; [usize::MAX], which marks a number or depth not
    given yet, is [None]. *)

From Stdlib Require Import Ascii String Lia.
From stdpp Require Import base list strings gmap relations.
From S2P Require Import Prelude Iter Str Version Coordinates Dependency Keys Graph.

#[local] Set Warnings "-clear-no-such-hyp".

Record ConflictOrder := {
  order : list nat;
  depth : list (option nat);
  children : list (list nat);
  in_degree : list nat;
}.

(** [depth < self.depth[node]]. *)
Definition shallower (d : nat) (recorded : option nat) : bool :=
  match recorded with None => true | Some r => d <? r end.

(** [ConflictOrder::pull_up]: the stack [lift] and the depths. *)
Definition pull_up_step (children : list (list nat)) (st : list (option nat) * list (nat * nat))
    : (list (option nat) * list (nat * nat)) + list (option nat) :=
  match st with
  | (depth, []) => inr depth
  | (depth, (node, d) :: lift) =>
    if shallower d (depth !!! node)
    then inl (<[node := Some d]> depth, reverse (map (fun child => (child, d + 1)) (children !!! node)) ++ lift)
    else inl (depth, lift)
  end.

(** A node of depth [d] can be pulled up [d] times, and each time lifts the nodes
    below it. *)
Definition pull_up_budget (depth : list (option nat)) (children : list (list nat)) : N :=
  N.of_nat (2 + sum_to (length children) (fun n => default 0 (depth !!! n) * length (children !!! n))).

Definition pull_up (children : list (list nat)) (depth : list (option nat)) (node d : nat)
    : option (list (option nat)) :=
  run_loop (pull_up_step children) (pull_up_budget depth children) (depth, [(node, d)]).

(** The bucket count of Java's HashSet for a number of entries. *)
Definition buckets_step (len : nat) (buckets : N) : N + N :=
  if (buckets * 3 <? N.of_nat len * 4)%N then inl (buckets * 2)%N else inr buckets.

Definition buckets (len : nat) : N := default 16%N (run_loop (buckets_step len) (N.of_nat (2 + 2 * len)) 16%N).

(** The place of a number among them. *)
Definition bucket_of (buckets : N) (number : nat) : N :=
  let number := N.of_nat number in
  N.land (N.lxor number (N.shiftr number 16)) (buckets - 1).

Section Of.
Context {RepoContext G : Type} `{PetGraph (Node.t RepoContext) G}.

(** The locals of [ConflictOrder::of]; the top of [stack] comes first, with the
    nodes a frame still pops in the order it pops them. *)
Record OfState := {
  this : ConflictOrder;
  number : list (option nat);
  visited : list bool;
  stack : list (nat * nat * list nat);
}.

(** [neighbors] popped from its end. *)
Definition declared_children (g : Graph G) (n : nat) : list nat := reverse (neighbors (graph g) n).

(** The number or the depth of a child that the walk meets at [d]. *)
Definition meet (st : OfState) (child d : nat) : option (ConflictOrder * list (option nat)) :=
  let this := this st in
  match number st !!! child with
  | None =>
    Some ({| order := order this ++ [child]; depth := <[child := Some d]> (depth this);
             children := children this; in_degree := in_degree this |},
          <[child := Some (length (order this))]> (number st))
  | Some _ =>
    depth' ← pull_up (children this) (depth this) child d;
    Some ({| order := order this; depth := depth'; children := children this;
             in_degree := in_degree this |}, number st)
  end.

(** The child among those below a node, counted once. *)
Definition place_below (root node child : nat) (this : ConflictOrder) : ConflictOrder :=
  if negb (node =? root) && negb (bool_decide (child ∈ children this !!! node))
  then {| order := order this; depth := depth this;
          children := <[node := (children this !!! node) ++ [child]]> (children this);
          in_degree := <[child := (in_degree this !!! child) + 1]> (in_degree this) |}
  else this.

(** One turn of the loop; it leaves without a result if [pull_up] did. *)
Definition of_step (g : Graph G) (st : OfState) : OfState + option (ConflictOrder * list (option nat)) :=
  match stack st with
  | [] => inr (Some (this st, number st))
  | (_, _, []) :: rest =>
    inl {| this := this st; number := number st; visited := visited st; stack := rest |}
  | (node, above, child :: next) :: rest =>
    let d := above + 1 in
    match meet st child d with
    | None => inr None
    | Some (met, number') =>
      let stack' := (node, above, next) :: rest in
      inl {| this := place_below (root g) node child met; number := number';
             visited := <[child := true]> (visited st);
             stack := if (visited st !!! child : bool) then stack'
                      else (child, d, declared_children g child) :: stack' |}
    end
  end.

Definition of_start (g : Graph G) : OfState :=
  let count := node_count g in
  {| this := {| order := []; depth := replicate count None; children := replicate count [];
                in_degree := replicate count 0 |};
     number := replicate count None;
     visited := <[root g := true]> (replicate count false);
     stack := [(root g, 0, declared_children g (root g))] |}.

(** A turn per node and per edge. *)
Definition of_budget (g : Graph G) : N :=
  N.of_nat (S (sum_to (node_count g) (fun n => S (length (neighbors (graph g) n))))).

(** The nodes below each, as Java's HashSet iterates them. *)
Definition java_order (number : list (option nat)) (below : list nat) : list nat :=
  let key child := bucket_of (buckets (length below)) (default 0 (number !!! child)) in
  sort_by (fun a b => (key a <=? key b)%N) below.

(** [ConflictOrder::of]. *)
Definition conflict_order (g : Graph G) : option ConflictOrder :=
  '(this, number) ← mjoin (run_loop (of_step g) (of_budget g) (of_start g));
  Some {| order := order this; depth := depth this;
          children := java_order number <$> children this; in_degree := in_degree this |}.
End Of.

(** ** Cycles *)

(** The locals of [ConflictOrder::cycles]: [path] has the walk's nodes from the
    start, so [on_path] is the place of a node on it. *)
Record CyclesState := {
  cycles_found : list (list nat);
  cycles_visited : list bool;
  path : list nat;
  frames : list (nat * nat);
  enter : option nat;
}.

(** [on_path.get(&node)]. *)
Definition place_on (path : list nat) (node : nat) : option nat := fst <$> list_find (eq node) path.

(** The first half of a turn: enter a node. *)
Definition enter_node (st : CyclesState) : CyclesState :=
  match enter st with
  | None => st
  | Some node =>
    match place_on (path st) node with
    | Some at_place =>
      {| cycles_found := cycles_found st ++ [drop at_place (path st)];
         cycles_visited := cycles_visited st; path := path st; frames := frames st; enter := None |}
    | None =>
      if (cycles_visited st !!! node : bool)
      then {| cycles_found := cycles_found st; cycles_visited := cycles_visited st; path := path st;
              frames := frames st; enter := None |}
      else {| cycles_found := cycles_found st; cycles_visited := <[node := true]> (cycles_visited st);
              path := path st ++ [node]; frames := (node, 0) :: frames st; enter := None |}
    end
  end.

(** The second half: go on below the last node entered. *)
Definition cycles_step (co : ConflictOrder) (st : CyclesState) : CyclesState + CyclesState :=
  let st := enter_node st in
  match frames st with
  | [] => inr st
  | (node, next) :: rest =>
    match (children co !!! node) !! next with
    | Some child =>
      inl {| cycles_found := cycles_found st; cycles_visited := cycles_visited st; path := path st;
             frames := (node, next + 1) :: rest; enter := Some child |}
    | None =>
      inl {| cycles_found := cycles_found st; cycles_visited := cycles_visited st;
             path := removelast (path st); frames := rest; enter := None |}
    end
  end.

Definition cycles_budget (co : ConflictOrder) : N :=
  N.of_nat (2 + sum_to (length (depth co)) (fun n => 2 + 2 * length (children co !!! n))).

(** The walk from one start. *)
Definition cycles_from (co : ConflictOrder) (start : nat) (st : option CyclesState) : option CyclesState :=
  st ← st;
  run_loop (cycles_step co) (cycles_budget co)
    {| cycles_found := cycles_found st; cycles_visited := cycles_visited st; path := path st;
       frames := frames st; enter := Some start |}.

(** [ConflictOrder::cycles]. *)
Definition cycles (co : ConflictOrder) : option (list (list nat)) :=
  cycles_found <$>
    foldl (fun st start => cycles_from co start st)
      (Some {| cycles_found := []; cycles_visited := replicate (length (depth co)) false;
               path := []; frames := []; enter := None |})
      (order co).

(** ** Pulling up ends *)

Lemma pull_up_ok children depth node d :
  length depth = length children -> node < length children ->
  (forall n, n < length children -> depth !!! n = None -> children !!! n = []) ->
  (forall n c, n < length children -> c ∈ children !!! n -> c < length children) ->
  exists depth', pull_up children depth node d = Some depth' /\ length depth' = length depth /\
    forall n, depth' !!! n = None -> depth !!! n = None.
Proof.
  intros Hlen Hnode Hnone Hbelow.
  set (weigh (depth : list (option nat)) := sum_to (length children) (fun n => default 0 (depth !!! n) * length (children !!! n))).
  apply (run_total _
    (fun st : list (option nat) * list (nat * nat) =>
       length st.1 = length depth /\ (forall n, st.1 !!! n = None -> depth !!! n = None) /\
       Forall (fun x => x.1 < length children) st.2)
    _ (fun st => N.of_nat (weigh st.1 + length st.2))).
  - intros [depth1 [|[n d1] lift]] (L1 & N1 & F1); cbn [pull_up_step fst snd] in *; [done|].
    apply Forall_cons in F1 as [Hn F1]. cbn in Hn. destruct (shallower d1 (depth1 !!! n)) eqn:Hs.
    + split; [split_and!|]; cbn [fst snd].
      * by rewrite length_insert.
      * intros m. destruct (decide (m = n)) as [-> |Hm].
        -- rewrite lookup_total_insert_eq by lia. done.
        -- rewrite lookup_total_insert_ne by done. apply N1.
      * apply Forall_app. split; [|done]. rewrite Forall_forall. intros [c k].
        rewrite elem_of_reverse. change (map ?f ?l) with (f <$> l).
        rewrite list_elem_of_fmap. intros (c' & [= -> ->] & Hc). cbn. eauto.
      * rewrite length_app, length_reverse, length_map.
        pose proof (sum_to_update (length children)
          (fun m => default 0 (<[n:=Some d1]> depth1 !!! m) * length (children !!! m))
          (fun m => default 0 (depth1 !!! m) * length (children !!! m)) n Hn) as Hsum.
        cbn beta in Hsum. rewrite lookup_total_insert_eq in Hsum by lia.
        assert (weigh (<[n:=Some d1]> depth1) + default 0 (depth1 !!! n) * length (children !!! n) =
                weigh depth1 + d1 * length (children !!! n)) as Hw.
        { apply Hsum. intros j _ Hj. by rewrite lookup_total_insert_ne. }
        destruct (depth1 !!! n) as [r|] eqn:Er; cbn in Hs, Hw.
        -- apply Nat.ltb_lt in Hs. cbn [length]. nia.
        -- rewrite (Hnone n Hn (N1 n Er)) in *. cbn [length] in *. lia.
    + split; [done|cbn; lia].
  - split_and!; [done..|]. by apply Forall_singleton.
  - unfold pull_up_budget, weigh. cbn [fst snd length]. lia.
Qed.

(** ** The walk numbers what can be reached *)

Section Facts.
Context {RepoContext G : Type} `{PetGraphLaws (Node.t RepoContext) G}.

(** Reached from the root over one edge or more. *)
Definition below_root (g : Graph G) (n : nat) : Prop :=
  exists m, rtc (linked (graph g)) (root g) m /\ linked (graph g) m n.

Definition counted (below : list (list nat)) (count c : nat) : nat :=
  sum_to count (fun n => if bool_decide (c ∈ below !!! n) then 1 else 0).

(** [children] lists, once each, the nodes below the numbered nodes [ns] other than
    the root, and [degree] counts the nodes above. *)
Record below_ok (g : Graph G) (ns : list nat) (below : list (list nat)) (degree : list nat) : Prop := {
  below_length : length below = node_count g;
  degree_length : length degree = node_count g;
  below_nodup n : n < node_count g -> NoDup (below !!! n);
  below_linked n c : n < node_count g -> c ∈ below !!! n ->
    n <> root g /\ n ∈ ns /\ linked (graph g) n c;
  degree_counted c : c < node_count g -> degree !!! c = counted below (node_count g) c;
}.

(** [order] lists the numbered nodes once each. *)
Record numbered_ok (g : Graph G) (ns : list nat) (number depth : list (option nat)) : Prop := {
  number_length : length number = node_count g;
  depth_length : length depth = node_count g;
  ns_nodup : NoDup ns;
  ns_numbered n : n < node_count g -> n ∈ ns <-> number !!! n <> None;
  numbered_deep n : n < node_count g -> number !!! n <> None -> depth !!! n <> None;
  ns_below n : n ∈ ns -> n < node_count g /\ below_root g n;
}.

Definition pending (stack : list (nat * nat * list nat)) (n c : nat) : Prop :=
  exists d next, (n, d, next) ∈ stack /\ c ∈ next.

Record of_inv (g : Graph G) (st : OfState) : Prop := {
  inv_valid : valid (graph g);
  inv_numbered : numbered_ok g (order (this st)) (number st) (depth (this st));
  inv_below : below_ok g (order (this st)) (children (this st)) (in_degree (this st));
  inv_visited_length : length (visited st) = node_count g;
  inv_visited n : n < node_count g -> visited st !!! n = true <-> n = root g \/ n ∈ order (this st);
  inv_stack n d next : (n, d, next) ∈ stack st ->
    (n = root g \/ n ∈ order (this st)) /\ forall c, c ∈ next -> linked (graph g) n c;
  inv_done n c : n = root g \/ n ∈ order (this st) -> linked (graph g) n c ->
    pending (stack st) n c \/
    (c ∈ order (this st) /\ (n <> root g -> c ∈ children (this st) !!! n));
}.

Lemma linked_count g a b :
  valid (graph g) -> linked (graph g) a b -> a < node_count g /\ b < node_count g.
Proof. intros V [w Hw]. by apply (ends_exist _ a b w). Qed.

Lemma neighbors_linked g n c :
  valid (graph g) -> c ∈ neighbors (graph g) n <-> linked (graph g) n c.
Proof.
  intros V. rewrite neighbors_spec, list_elem_of_fmap by done. unfold linked.
  setoid_rewrite arcs_elem. setoid_rewrite edges_from_elem; [|done]. unfold arc_of. split.
  - intros (r & -> & Hr & <-). eauto.
  - intros (w & r & Hr & E). simplify_eq. eauto.
Qed.

Lemma declared_children_linked g n c :
  valid (graph g) -> c ∈ declared_children g n <-> linked (graph g) n c.
Proof. intros V. unfold declared_children. by rewrite elem_of_reverse, neighbors_linked. Qed.

Lemma meet_ok g st child d :
  of_inv g st -> child < node_count g -> below_root g child ->
  exists met number', meet st child d = Some (met, number') /\
    numbered_ok g (order met) number' (depth met) /\
    children met = children (this st) /\ in_degree met = in_degree (this st) /\
    forall n, n ∈ order met <-> n ∈ order (this st) \/ n = child.
Proof.
  intros [V [Ln Ld D Hn Hd Hb] B Lv Hv Hs Hdone] Hc Hroot. unfold meet.
  destruct (number st !!! child) as [k|] eqn:Ek.
  - destruct (pull_up_ok (children (this st)) (depth (this st)) child d) as (depth' & -> & L' & N');
      rewrite ?(below_length _ _ _ _ B); [done..| | |].
    + intros n Hlt Hnone.
      destruct (children (this st) !!! n) as [|c l] eqn:Ec; [done|]. exfalso.
      destruct (below_linked _ _ _ _ B n c Hlt) as (_ & Hin & _); [rewrite Ec; left|].
      apply Hn in Hin; [|done]. by apply (Hd n).
    + intros n c Hlt Hin. destruct (below_linked _ _ _ _ B n c Hlt Hin) as (_ & _ & Hl).
      by apply (linked_count g n c).
    + eexists _, _. split; [reflexivity|]. cbn [order depth children in_degree].
      assert (child ∈ order (this st)) as Hin by (apply Hn; [done|by rewrite Ek]).
      split_and!; [|done..|].
      * split; [done|congruence|done..| |done]. intros n Hlt Hnum E. by apply (Hd n Hlt Hnum), N'.
      * intros n. split; [tauto|]. by intros [?| ->].
  - eexists _, _. split; [reflexivity|]. cbn [order depth children in_degree].
    assert (child ∉ order (this st)) as Hin by (rewrite Hn by done; rewrite Ek; tauto).
    split_and!; [|done..|by intros; rewrite elem_of_app, list_elem_of_singleton].
    split.
    + by rewrite length_insert.
    + by rewrite length_insert.
    + apply NoDup_app. split_and!; [done| |apply NoDup_singleton]. set_solver.
    + intros n Hlt. rewrite elem_of_app, list_elem_of_singleton.
      destruct (decide (n = child)) as [-> |Hne].
      * rewrite lookup_total_insert_eq by lia. naive_solver.
      * rewrite lookup_total_insert_ne by done. rewrite <-Hn by done. naive_solver.
    + intros n Hlt. destruct (decide (n = child)) as [-> |Hne].
      * rewrite !lookup_total_insert_eq by lia. done.
      * rewrite !lookup_total_insert_ne by done. auto.
    + intros n. rewrite elem_of_app, list_elem_of_singleton. naive_solver.
Qed.

(** Recording a child of a node other than the root. *)
Lemma place_below_ok g ns node child met :
  below_ok g ns (children met) (in_degree met) ->
  node = root g \/ node ∈ ns -> node < node_count g -> child < node_count g ->
  linked (graph g) node child ->
  let placed := place_below (root g) node child met in
  below_ok g ns (children placed) (in_degree placed) /\
  order placed = order met /\ depth placed = depth met /\
  (node <> root g -> child ∈ children placed !!! node) /\
  (forall n c, c ∈ children met !!! n -> c ∈ children placed !!! n).
Proof.
  intros [Lb Ld Dn Hb Hd] Hnode Hlt Hc Hl placed. subst placed. unfold place_below.
  destruct (decide (node = root g)) as [-> |Hne].
  { rewrite Nat.eqb_refl. cbn. split_and!; [by split|done..]. }
  rewrite (proj2 (Nat.eqb_neq _ _) Hne). cbn [negb andb].
  case_bool_decide as Hin; cbn [negb children in_degree order depth].
  { split_and!; [by split|done..]. }
  assert (forall n, n < node_count g -> <[node := (children met !!! node) ++ [child]]> (children met) !!! n =
    if decide (n = node) then (children met !!! node) ++ [child] else children met !!! n) as Hlook.
  { intros n Hn. case_decide as E; [subst n; by rewrite lookup_total_insert_eq by lia|].
    by rewrite lookup_total_insert_ne. }
  split_and!; [|done..| |].
  - split; rewrite ?length_insert; [done..| | |].
    + intros n Hn. rewrite Hlook by done. case_decide; [|by apply Dn].
      apply NoDup_app. split_and!; [by apply Dn|set_solver|apply NoDup_singleton].
    + intros n c Hn. rewrite Hlook by done. case_decide as E; [subst n|by apply Hb].
      rewrite elem_of_app, list_elem_of_singleton. intros [Hin'| ->]; [by apply Hb|].
      destruct Hnode as [?|?]; [done|]. done.
    + intros c Hcc. unfold counted.
      pose proof (sum_to_update (node_count g)
        (fun n => if bool_decide (c ∈ <[node := (children met !!! node) ++ [child]]> (children met) !!! n) then 1 else 0)
        (fun n => if bool_decide (c ∈ children met !!! n) then 1 else 0) node Hlt) as Hsum.
      cbn beta in Hsum. rewrite Hlook, decide_True in Hsum by done.
      specialize (Hd c Hcc). unfold counted in Hd. rewrite <-Hd in Hsum.
      assert (forall j, j < node_count g -> j <> node ->
        (if bool_decide (c ∈ <[node := (children met !!! node) ++ [child]]> (children met) !!! j) then 1 else 0) =
        (if bool_decide (c ∈ children met !!! j) then 1 else 0)) as Hj
        by (intros j _ Hj; by rewrite lookup_total_insert_ne).
      specialize (Hsum Hj). destruct (decide (c = child)) as [-> |Hcne].
      * rewrite lookup_total_insert_eq by lia.
        rewrite (bool_decide_true (_ ∈ _ ++ _)), (bool_decide_false (_ ∈ _ !!! node)) in Hsum by set_solver.
        lia.
      * rewrite lookup_total_insert_ne by done.
        rewrite (bool_decide_ext (c ∈ (children met !!! node) ++ [child]) (c ∈ children met !!! node)) in Hsum
          by set_solver.
        lia.
  - intros _. rewrite Hlook, decide_True by done. set_solver.
  - intros n c Hn. destruct (decide (n = node)) as [-> |Hnn].
    + rewrite lookup_total_insert_eq by lia. set_solver.
    + by rewrite lookup_total_insert_ne.
Qed.

Lemma ns_reached g ns number depth n :
  numbered_ok g ns number depth -> n = root g \/ n ∈ ns -> rtc (linked (graph g)) (root g) n.
Proof.
  intros Hok [-> |Hn]; [done|]. destruct (ns_below _ _ _ _ Hok n Hn) as [_ (m & Hm & Hl)].
  by eapply rtc_r.
Qed.

(** One turn that takes a child off the top of the stack. *)
Lemma of_step_child g st n above child next rest :
  of_inv g st -> graph_ok g -> stack st = (n, above, child :: next) :: rest ->
  exists st', of_step g st = inl st' /\ of_inv g st' /\
    visited st' = <[child := true]> (visited st) /\ child < node_count g /\
    stack st' = (if (visited st !!! child : bool) then []
                 else [(child, above + 1, declared_children g child)]) ++ (n, above, next) :: rest.
Proof.
  intros Hinv Hg Hst. pose proof Hinv as [V Hnum B Lv Hv Hs Hdone].
  destruct (Hs n above (child :: next)) as [Hn Hnext]; [rewrite Hst; left|].
  assert (linked (graph g) n child) as Hl by (apply Hnext; left).
  destruct (linked_count g n child V Hl) as [Hlt Hc].
  assert (below_root g child) as Hb by (exists n; split; [by eapply ns_reached|done]).
  unfold of_step. rewrite Hst.
  destruct (meet_ok g st child (above + 1) Hinv Hc Hb) as (met & number' & -> & Hnum' & Ec & Ed & Ho).
  assert (below_ok g (order met) (children met) (in_degree met)) as B'.
  { rewrite Ec, Ed. destruct B as [B1 B2 B3 B4 B5]. split; [done..| |done].
    intros m c Hm Hin. destruct (B4 m c Hm Hin) as (? & ? & ?). split_and!; [done| |done].
    apply Ho. by left. }
  assert (n = root g \/ n ∈ order met) as Hn' by (rewrite Ho; tauto).
  destruct (place_below_ok g (order met) n child met B' Hn' Hlt Hc Hl) as (B2 & Eo & Edp & Hin & Hmono).
  set (placed := place_below _ _ _ _) in *.
  eexists. split; [reflexivity|]. cbn [visited stack]. split_and!; [|done..|by destruct (visited st !!! child)].
  split; cbn [this number visited stack]; rewrite ?Eo, ?Edp; [done..| | | |].
  - by rewrite length_insert.
  - intros m Hm. rewrite Ho. destruct (decide (m = child)) as [-> |Hne].
    + rewrite lookup_total_insert_eq by lia. tauto.
    + rewrite lookup_total_insert_ne by done. rewrite Hv by done. tauto.
  - assert (forall m d nx, (m, d, nx) ∈ (n, above, next) :: rest ->
      (m = root g \/ m ∈ order met) /\ forall c, c ∈ nx -> linked (graph g) m c) as Hrest.
    { intros m d nx [[= -> -> ->]|Hm]%elem_of_cons.
      - split; [done|]. intros c Hcn. apply Hnext. by right.
      - destruct (Hs m d nx) as [? ?]; [rewrite Hst; by right|]. rewrite Ho. tauto. }
    intros m d nx. destruct (visited st !!! child); [apply Hrest|].
    intros [[= -> -> ->]|Hm]%elem_of_cons; [|by apply (Hrest m d nx)].
    split; [rewrite Ho; tauto|]. intros c. by rewrite declared_children_linked.
  - intros m c Hm Hmc.
    assert (pending ((n, above, next) :: rest) m c \/
      m = child /\ visited st !!! child = false \/
      (c ∈ order met /\ (m <> root g -> c ∈ children placed !!! m))) as Hp.
    { destruct (decide (m = root g \/ m ∈ order (this st))) as [Hold|Hnew].
      - destruct (Hdone m c Hold Hmc) as [(d & nx & Hin' & Hcn)|[Hco Hch]].
        + rewrite Hst in Hin'. apply elem_of_cons in Hin' as [[= -> -> ->]|Hin'].
          * apply elem_of_cons in Hcn as [-> |Hcn]; [|left; exists above, next; split; [left|done]].
            right; right. split; [rewrite Ho; tauto|done].
          * left. exists d, nx. split; [by right|done].
        + right; right. rewrite Ho. split; [tauto|]. intros Hr. apply Hmono. rewrite Ec. auto.
      - right; left. assert (m = child) as -> by (destruct Hm as [?|[?|?]%Ho]; tauto).
        split; [done|]. apply not_true_is_false. by rewrite Hv. }
    destruct Hp as [Hp|[[-> Hvis]|Hp]]; [| |by right].
    + left. destruct Hp as (d & nx & ? & ?). exists d, nx. split; [|done].
      destruct (visited st !!! child); [done|by right].
    + left. rewrite Hvis. exists (above + 1), (declared_children g child). split; [left|].
      by apply declared_children_linked.
Qed.

Definition unseen (g : Graph G) (visited : list bool) : nat :=
  sum_to (node_count g) (fun n => if (visited !!! n : bool) then 0 else S (length (neighbors (graph g) n))).

Definition stack_size (stack : list (nat * nat * list nat)) : nat :=
  sum_list_with (fun f => S (length f.2)) stack.

Lemma unseen_visit g visited n :
  length visited = node_count g -> n < node_count g ->
  unseen g (<[n := true]> visited) + (if (visited !!! n : bool) then 0 else S (length (neighbors (graph g) n))) =
  unseen g visited.
Proof.
  intros Hl Hn. unfold unseen.
  pose proof (sum_to_update (node_count g)
    (fun m => if (<[n := true]> visited !!! m : bool) then 0 else S (length (neighbors (graph g) m)))
    (fun m => if (visited !!! m : bool) then 0 else S (length (neighbors (graph g) m))) n Hn) as Hs.
  cbn beta in Hs. rewrite lookup_total_insert_eq, Nat.add_0_r in Hs by lia. apply Hs.
  intros j _ Hj. by rewrite lookup_total_insert_ne.
Qed.

Lemma of_start_inv g : graph_ok g -> of_inv g (of_start g).
Proof.
  intros [V D R]. unfold of_start.
  assert (forall n, n < node_count g -> replicate (node_count g) (@nil nat) !!! n = []) as Hc
    by (intros; by apply lookup_total_replicate).
  split; cbn; [done|..].
  - split; rewrite ?length_replicate; [done..|constructor| | |set_solver].
    + intros n Hn. rewrite lookup_total_replicate by done. set_solver.
    + intros n Hn. by rewrite lookup_total_replicate.
  - split; rewrite ?length_replicate; [done..| | |].
    + intros n Hn. rewrite Hc by done. constructor.
    + intros n c Hn. rewrite Hc by done. set_solver.
    + intros c Hcc. rewrite lookup_total_replicate by done. unfold counted.
      rewrite (sum_to_ext _ _ (fun _ => 0)).
      * unfold sum_to. generalize (seq 0 (node_count g)). by induction l.
      * intros i Hi. by rewrite Hc.
  - by rewrite length_insert, length_replicate.
  - intros n Hn. destruct (decide (n = root g)) as [-> |Hne].
    + rewrite lookup_total_insert_eq by (by rewrite length_replicate). tauto.
    + rewrite lookup_total_insert_ne, lookup_total_replicate by done. set_solver.
  - intros n d next [= -> -> ->]%list_elem_of_singleton. split; [tauto|].
    intros c. by rewrite declared_children_linked.
  - intros n c [-> |Hn%not_elem_of_nil] Hl; [|done]. left.
    exists 0, (declared_children g (root g)). split; [left|by rewrite declared_children_linked].
Qed.

(** What the order records of the graph. *)
Record order_ok (g : Graph G) (co : ConflictOrder) : Prop := {
  order_nodup : NoDup (order co);
  order_below n : n ∈ order co <-> below_root g n;
  order_depth : length (depth co) = node_count g;
  order_children : length (children co) = node_count g;
  children_nodup n : n < node_count g -> NoDup (children co !!! n);
  children_spec n c : n < node_count g ->
    c ∈ children co !!! n <-> n <> root g /\ below_root g n /\ linked (graph g) n c;
  degree_length' : length (in_degree co) = node_count g;
  degree_spec c : c < node_count g -> in_degree co !!! c = counted (children co) (node_count g) c;
}.

(** The walk is over: everything below a numbered node is numbered. *)
Lemma of_done g st :
  graph_ok g -> of_inv g st -> stack st = [] ->
  forall n, n ∈ order (this st) <-> below_root g n.
Proof.
  intros Hg [V Hnum B Lv Hv Hs Hdone] Hst n. split; [intros Hn; by apply (ns_below _ _ _ _ Hnum)|].
  assert (forall m c, m = root g \/ m ∈ order (this st) -> linked (graph g) m c -> c ∈ order (this st)) as Hcl.
  { intros m c Hm Hl. destruct (Hdone m c Hm Hl) as [(d & nx & Hin & _)|[? _]]; [|done].
    rewrite Hst in Hin. by apply not_elem_of_nil in Hin. }
  intros (m & Hm & Hl). apply (Hcl m n); [|done]. clear Hl.
  revert m Hm. apply rtc_ind_r; [by left|]. intros a b _ Hl IH. right. by apply (Hcl a b).
Qed.

Lemma java_order_lookup number below n :
  n < length below -> (java_order number <$> below) !!! n ≡ₚ below !!! n.
Proof.
  intros Hn. rewrite (list_lookup_total_fmap (java_order number) below n) by done. unfold java_order. apply sort_by_perm.
Qed.

Lemma conflict_order_ok g : graph_ok g -> exists co, conflict_order g = Some co /\ order_ok g co.
Proof.
  intros Hg. unfold conflict_order.
  destruct (run_total (of_step g) (of_inv g)
    (fun r => exists st, r = Some (this st, number st) /\ of_inv g st /\ stack st = [])
    (fun st => N.of_nat (stack_size (stack st) + unseen g (visited st))))
    with (fuel := of_budget g) (s := of_start g) as (r & -> & st & -> & Hinv & Hst).
  - intros st Hinv. destruct (stack st) as [|[[n above] [|child next]] rest] eqn:Hst.
    + unfold of_step. rewrite Hst. eauto.
    + unfold of_step. rewrite Hst. split; [|cbn; lia].
      destruct Hinv as [V Hnum B Lv Hv Hs Hdone]. split; cbn; [done..| |].
      * intros m d nx Hin. apply (Hs m d nx). rewrite Hst. by right.
      * intros m c Hm Hl. destruct (Hdone m c Hm Hl) as [(d & nx & Hin & Hc)|?]; [|by right].
        rewrite Hst in Hin. apply elem_of_cons in Hin as [[= -> -> ->]|Hin]; [by apply not_elem_of_nil in Hc|].
        left. by exists d, nx.
    + destruct (of_step_child g st n above child next rest Hinv Hg Hst)
        as (st' & -> & Hinv' & Ev & Hc & Es). split; [done|].
      rewrite Ev, Es. pose proof (unseen_visit g (visited st) child (inv_visited_length _ _ Hinv) Hc) as Hu.
      unfold declared_children. unfold stack_size in *.
      destruct (visited st !!! child); cbn [app sum_list_with snd length];
        rewrite ?length_reverse; lia.
  - by apply of_start_inv.
  - unfold of_budget. pose proof Hg as [V D R].
    pose proof (unseen_visit g (replicate (node_count g) false) (root g)) as Hu.
    rewrite length_replicate, lookup_total_replicate in Hu by done. specialize (Hu eq_refl R).
    cbn [of_start stack visited stack_size sum_list_with snd]. unfold declared_children.
    rewrite length_reverse.
    replace (sum_to (node_count g) (fun n => S (length (neighbors (graph g) n))))
      with (unseen g (replicate (node_count g) false)); [lia|].
    apply sum_to_ext. intros i Hi. by rewrite lookup_total_replicate.
  - cbn. eexists. split; [reflexivity|].
    pose proof (of_done g st Hg Hinv Hst) as Ho. pose proof Hinv as [V Hnum B Lv Hv Hs Hdone].
    pose proof (below_length _ _ _ _ B) as Lb.
    split; cbn [order depth children in_degree].
    + apply Hnum.
    + done.
    + apply Hnum.
    + by rewrite length_fmap.
    + intros n Hn. rewrite java_order_lookup by lia. by apply B.
    + intros n c Hn. rewrite java_order_lookup by lia. split.
      * intros Hin. destruct (below_linked _ _ _ _ B n c Hn Hin) as (? & ? & ?). by rewrite <-Ho.
      * intros (Hr & Hb & Hl). rewrite <-Ho in Hb.
        destruct (Hdone n c) as [(d & nx & Hin & _)|[_ Hch]]; [by right|done| |by apply Hch].
        rewrite Hst in Hin. by apply not_elem_of_nil in Hin.
    + apply B.
    + intros c Hc. rewrite (degree_counted _ _ _ _ B) by done. apply sum_to_ext.
      intros i Hi. by rewrite (bool_decide_ext _ (c ∈ (java_order (number st) <$> children (this st)) !!! i))
        by (rewrite java_order_lookup by lia; done).
Qed.
End Facts.

(** ** The cycles are cycles *)

Section Cycles.
Context (co : ConflictOrder) (count : nat).
Context (Hdepth : length (depth co) = count).
Context (Hbelow : forall n c, c ∈ children co !!! n -> c < count).

(** Each node of a list lies below the one before it. *)
Fixpoint descends (l : list nat) : Prop :=
  match l with
  | a :: (b :: _) as l' => b ∈ children co !!! a /\ descends l'
  | _ => True
  end.

(** A walk that comes back to its first node. *)
Definition closed (l : list nat) : Prop :=
  exists first final, head l = Some first /\ last l = Some final /\
    descends l /\ first ∈ children co !!! final.

Lemma descends_snoc l a b : descends (l ++ [a]) -> b ∈ children co !!! a -> descends ((l ++ [a]) ++ [b]).
Proof.
  induction l as [|x l IH]; [done|]. intros Hd Hb. destruct l as [|y l].
  - cbn in *. tauto.
  - cbn [app descends] in *. split; [tauto|]. apply IH; tauto.
Qed.

Lemma descends_drop l n : descends l -> descends (drop n l).
Proof.
  revert n. induction l as [|x l IH]; intros [|n] Hd; try done. cbn [drop]. apply IH.
  destruct l; [done|]. apply Hd.
Qed.

Lemma descends_removelast l : descends l -> descends (removelast l).
Proof.
  induction l as [|x l IH]; [done|]. intros Hd. destruct l as [|y [|z l]]; [done..|].
  cbn [removelast descends] in *. split; [tauto|]. apply IH, Hd.
Qed.

(** The frames follow the path, the last node on top. *)
Record cycles_inv (st : CyclesState) : Prop := {
  cyc_visited : length (cycles_visited st) = count;
  cyc_path : path st = reverse (map fst (frames st));
  cyc_descends : descends (path st);
  cyc_frames : Forall (fun f => f.1 < count) (frames st);
  cyc_enter c : enter st = Some c ->
    c < count /\ match frames st with [] => True | (n, _) :: _ => c ∈ children co !!! n end;
  cyc_found : Forall closed (cycles_found st);
}.

Definition left_in (frames : list (nat * nat)) : nat :=
  sum_list_with (fun f => 1 + 2 * (length (children co !!! f.1) - f.2)) frames.

Definition unvisited (visited : list bool) : nat :=
  sum_to count (fun n => if (visited !!! n : bool) then 0 else 2 + 2 * length (children co !!! n)).

Definition entering (st : CyclesState) : nat :=
  match enter st with Some _ => 1 | None => 0 end.

Definition cycles_measure (st : CyclesState) : nat :=
  entering st + left_in (frames st) + unvisited (cycles_visited st).

Lemma unvisited_visit visited n :
  length visited = count -> n < count -> visited !!! n = false ->
  unvisited (<[n := true]> visited) + (2 + 2 * length (children co !!! n)) = unvisited visited.
Proof.
  intros Hl Hn Hv. unfold unvisited.
  pose proof (sum_to_update count
    (fun m => if (<[n := true]> visited !!! m : bool) then 0 else 2 + 2 * length (children co !!! m))
    (fun m => if (visited !!! m : bool) then 0 else 2 + 2 * length (children co !!! m)) n Hn) as Hs.
  cbn beta in Hs. rewrite lookup_total_insert_eq, Hv, Nat.add_0_r in Hs by lia. apply Hs.
  intros j _ Hj. by rewrite lookup_total_insert_ne.
Qed.

Lemma path_last st n next rest :
  path st = reverse (map fst (frames st)) -> frames st = (n, next) :: rest ->
  path st = reverse (map fst rest) ++ [n].
Proof. intros -> ->. cbn. apply reverse_cons. Qed.

Lemma enter_node_ok st :
  cycles_inv st ->
  cycles_inv (enter_node st) /\ enter (enter_node st) = None /\
  cycles_measure (enter_node st) + entering st <= cycles_measure st.
Proof.
  intros Hinv. pose proof Hinv as [Lv Hp Hd Hf He Hc].
  unfold enter_node, cycles_measure, entering. destruct (enter st) as [c|] eqn:Ee.
  2: { split; [done|]. rewrite Ee. split; [done|lia]. }
  specialize (He c eq_refl). destruct He as [Hlt Htop].
  destruct (place_on (path st) c) as [i|] eqn:Ei.
  - split; [|split; [done|]]; [|cbn [enter frames cycles_visited]; lia].
    split; cbn; [done..|]. apply Forall_app. split; [done|]. apply Forall_singleton.
    unfold place_on in Ei. apply fmap_Some in Ei as ([i' x] & Ei & ->).
    apply list_find_Some in Ei as (Ei & <- & _). cbn [fst].
    destruct (frames st) as [|[n next] rest] eqn:Ef.
    { rewrite Hp in Ei. done. }
    assert (path st = reverse (map fst rest) ++ [n]) as Hl by (rewrite Hp; apply reverse_cons).
    assert (i' < length (path st)) as Hi by (by eapply lookup_lt_Some).
    exists c, n. split_and!; [| |by apply descends_drop|done].
    + rewrite <-(take_drop_middle _ _ _ Ei), drop_app_length'; [done|]. rewrite length_take. lia.
    + rewrite Hl, drop_app_le by (rewrite Hl, length_app in Hi; cbn in Hi; lia). apply last_snoc.
  - destruct (cycles_visited st !!! c) eqn:Ev.
    + split; [split; cbn; done|]. split; [done|].
      cbn [enter frames cycles_visited]. lia.
    + split; [|split; [done|]].
      * split; cbn [cycles_visited path frames enter cycles_found]; [by rewrite length_insert| | | |done|done].
        -- cbn [map fst]. rewrite reverse_cons. by rewrite Hp.
        -- destruct (frames st) as [|[n next] rest]; [by rewrite Hp|].
           rewrite Hp in *. cbn [map fst] in *. rewrite reverse_cons in *. by apply descends_snoc.
        -- by apply Forall_cons.
      * cbn [enter frames cycles_visited left_in sum_list_with fst snd].
        pose proof (unvisited_visit (cycles_visited st) c Lv Hlt Ev). unfold left_in. lia.
Qed.

Lemma cycles_step_ok st :
  cycles_inv st ->
  match cycles_step co st with
  | inl st' => cycles_inv st' /\ cycles_measure st' < cycles_measure st
  | inr st' => cycles_inv st' /\ frames st' = [] /\ enter st' = None
  end.
Proof.
  intros Hinv. destruct (enter_node_ok st Hinv) as ([Lv Hp Hd Hf He Hc] & En & Hm).
  unfold cycles_step. set (st1 := enter_node st) in *. clearbody st1.
  destruct (frames st1) as [|[n next] rest] eqn:Ef.
  { split; [|done]. split; rewrite ?Ef; done. }
  apply Forall_cons in Hf as [Hn Hf].
  assert (path st1 = reverse (map fst rest) ++ [n]) as Hl by (rewrite Hp; apply reverse_cons).
  unfold cycles_measure, entering, left_in in *. rewrite Ef in Hm. cbn [sum_list_with fst snd] in Hm.
  rewrite En in Hm.
  destruct ((children co !!! n) !! next) as [c|] eqn:Ec.
  - split.
    + split; cbn [cycles_visited path frames enter cycles_found]; [done..| | |done].
      * by apply Forall_cons.
      * intros c' [= <-]. apply list_elem_of_lookup_2 in Ec as Hin. split; [by eapply Hbelow|done].
    + cbn [frames enter cycles_visited sum_list_with fst snd].
      apply lookup_lt_Some in Ec. destruct (enter st); lia.
  - split.
    + split; cbn [cycles_visited path frames enter cycles_found]; [done| |by apply descends_removelast|done..].
      by rewrite Hl, removelast_last.
    + cbn [frames enter cycles_visited]. destruct (enter st); lia.
Qed.

Lemma cycles_from_ok st start :
  start < count -> cycles_inv st -> frames st = [] ->
  exists st', cycles_from co start (Some st) = Some st' /\ cycles_inv st' /\ frames st' = [].
Proof.
  intros Hs Hinv Hf. unfold cycles_from. cbn [mbind option_bind].
  destruct (run_total (cycles_step co) cycles_inv
    (fun st' => cycles_inv st' /\ frames st' = [] /\ enter st' = None)
    (fun st => N.of_nat (cycles_measure st)))
    with (fuel := cycles_budget co)
      (s := {| cycles_found := cycles_found st; cycles_visited := cycles_visited st; path := path st;
               frames := frames st; enter := Some start |}) as (st' & -> & H1 & H2 & _); [| | |by exists st'].
  - intros s1 H1. pose proof (cycles_step_ok s1 H1). destruct (cycles_step co s1); [|done].
    split; [tauto|lia].
  - destruct Hinv as [Lv Hp Hd Hff He Hc]. split; cbn; [done..| |done].
    intros c [= <-]. rewrite Hf. done.
  - unfold cycles_measure, entering, cycles_budget, unvisited. cbn [enter frames cycles_visited]. rewrite Hf, Hdepth.
    cbn [left_in sum_list_with].
    pose proof (sum_to_le count
      (fun n => if (cycles_visited st !!! n : bool) then 0 else 2 + 2 * length (children co !!! n))
      (fun n => 2 + 2 * length (children co !!! n))) as Hle.
    specialize (Hle ltac:(intros; cbn beta; destruct (cycles_visited st !!! i); lia)). lia.
Qed.

(** The search for cycles ends, and what it lists are cycles. *)
Lemma cycles_ok :
  Forall (fun n => n < count) (order co) ->
  exists found, cycles co = Some found /\ Forall closed found.
Proof.
  intros Ho. unfold cycles.
  enough (forall l st, Forall (fun n => n < count) l -> cycles_inv st -> frames st = [] ->
    exists st', foldl (fun st start => cycles_from co start st) (Some st) l = Some st' /\ cycles_inv st') as Hl.
  { destruct (Hl (order co) {| cycles_found := []; cycles_visited := replicate (length (depth co)) false;
      path := []; frames := []; enter := None |}) as (st' & -> & Hinv); [done| |done|].
    - split; cbn; try done. by rewrite length_replicate.
    - exists (cycles_found st'). split; [done|apply Hinv]. }
  induction l as [|n l IH]; intros st Hln Hinv Hf; cbn [foldl]; [eauto|].
  apply Forall_cons in Hln as [Hn Hln].
  destruct (cycles_from_ok st n Hn Hinv Hf) as (st1 & -> & H1 & F1). by apply IH.
Qed.
End Cycles.

(** ** What the order records *)

Lemma order_children_count {RepoContext G} `{PetGraphLaws (Node.t RepoContext) G} (g : Graph G) co n c :
  graph_ok g -> order_ok g co -> c ∈ children co !!! n -> c < node_count g.
Proof.
  intros Hg Ho Hin. destruct (decide (n < node_count g)) as [Hn|Hge].
  - apply (children_spec _ _ Ho) in Hin as (_ & _ & Hl); [|done].
    by apply (linked_count g n c); [apply Hg|].
  - rewrite list_lookup_total_alt, lookup_ge_None_2 in Hin by (rewrite (order_children _ _ Ho); lia).
    by apply not_elem_of_nil in Hin.
Qed.

(** C32: the order of the conflict groups lists exactly the nodes below the root, each
    once; below a node other than the root it has exactly the targets of its edges, and
    the degree of a node counts the nodes it is below; the search for cycles ends, and
    every cycle it records runs along edges of the graph and closes. *)
Theorem conflict_order_spec {RepoContext G} `{PetGraphLaws (Node.t RepoContext) G} (g : Graph G) :
  graph_ok g ->
  exists co found, conflict_order g = Some co /\ cycles co = Some found /\
    NoDup (order co) /\ (forall n, n ∈ order co <-> below_root g n) /\
    (forall n c, n < node_count g ->
       c ∈ children co !!! n <-> n <> root g /\ below_root g n /\ linked (graph g) n c) /\
    (forall c, c < node_count g -> in_degree co !!! c = counted (children co) (node_count g) c) /\
    Forall (closed co) found.
Proof.
  intros Hg. destruct (conflict_order_ok g Hg) as (co & E & Ho).
  destruct (cycles_ok co (node_count g)) as (found & Ec & Hf).
  - apply Ho.
  - intros n c. by apply order_children_count.
  - rewrite Forall_forall. intros n Hn. apply (order_below _ _ Ho) in Hn as (m & _ & Hl).
    by apply (linked_count g m n); [apply Hg|].
  - exists co, found. split_and!; [done..|apply Ho|apply Ho|apply Ho|apply Ho|done].
Qed.

Lemma conflict_order_spec_witness :
  order <$> conflict_order demo_graph = Some [1; 2] /\
  exists co found, conflict_order demo_graph = Some co /\ cycles co = Some found /\ Forall (closed co) found.
Proof.
  split; [by vm_compute|].
  destruct (conflict_order_spec demo_graph demo_graph_ok) as (co & found & E & Ec & _ & _ & _ & _ & Hf).
  eauto 10.
Defined.
