(* ===== verification/Scopes.v ===== *)
(** * The scopes of the resolved graph ([Graph::select_scopes] of
      [rv-resolver/src/graph.rs])

    Once mediation is done every node takes the scope Maven's JavaScopeSelector
    picks: groups are resolved in the order of the ConflictIdSorter, a cycle is
    broken at the nearest group left, and a node where a cycle was broken gathers the
    scopes of the paths to it. *)

From Stdlib Require Import Ascii String Lia.
From stdpp Require Import base list strings gmap relations.
From S2P Require Import Prelude Iter Str Version Coordinates Dependency Keys Queue Graph ConflictOrder.

#[local] Set Warnings "-clear-no-such-hyp".

Definition MAX_GATHER_STATES : N := 100000.

Section Select.
Context {RepoContext G : Type} `{PetGraph (Node.t RepoContext) G}.

(** [offer] of [pick_scope]: the widest scope so far, never [system]. *)
Definition offer (widest : option Scope) (scope : Scope) : option Scope :=
  if negb (bool_decide (scope = System)) && is_none_or (fun current => width current <? width scope) widest
  then Some scope else widest.

(** The scopes a node has below its parents, as the edges into it are listed. *)
Definition offer_edge (picked : list (option Scope)) (widest : option Scope) (e : EdgeRef.t) : option Scope :=
  match picked !!! EdgeRef.source e with
  | Some parent => offer widest (scope_below (EdgeRef.weight e) parent)
  | None => widest
  end.

Definition widest_below (g : Graph G) (node : nat) (picked : list (option Scope)) : option Scope :=
  foldl (offer_edge picked) None (edges_into (graph g) node).

(** *** Gathering where a cycle was broken *)

(** The names of a node; the indices the walk meets are those of nodes. *)
Definition group_of_node (g : Graph G) (n : nat) : str :=
  from_option (fun w => Coord.group_id (Node.coord w)) [] (node g n).

Definition artifact_of_node (g : Graph G) (n : nat) : str :=
  from_option (fun w => Coord.artifact_id (Node.coord w)) [] (node g n).

(** [names_gathered]: whether an exclusion names the node or an ancestor. *)
Definition names_gathered (g : Graph G) (node : nat) (ancestors : list bool) (ex : ExclusionKey) : bool :=
  existsb (fun idx => ((idx =? node) || (ancestors !!! idx : bool))
                      && excludes [ex] (group_of_node g idx) (artifact_of_node g idx))
    (seq 0 (node_count g)).

(** One exclusion of [Graph::gathered_exclusions], and all of them. *)
Definition gather_exclusion (names : ExclusionKey -> bool) (merged : list ExclusionKey) (ex : ExclusionKey)
    : list ExclusionKey :=
  if negb (bool_decide (ex ∈ merged)) && names ex then merged ++ [ex] else merged.

Definition gathered_exclusions (names : ExclusionKey -> bool) (parent : list ExclusionKey)
    (added : list Exclusion) : list ExclusionKey :=
  let merged := foldl (gather_exclusion names) parent (map exclusion_key added) in
  if length merged =? length parent then parent
  else sort_by (fun a b => match exclusion_key_cmp a b with Gt => false | _ => true end) merged.

(** The locals of the walk; the top of the stack comes first, with the edges a frame
    still pops in the order it pops them. *)
Record Gather := {
  widest : option Scope;
  seen : list (nat * Scope * list ExclusionKey);
  on_path : gset nat;
  gather_stack : list (nat * Scope * list ExclusionKey * list EdgeRef.t);
}.

Definition popped_edges (g : Graph G) (n : nat) : list EdgeRef.t := reverse (edges_from (graph g) n).

(** The scope of a resolved group, which is gathered through only below its winner:
    [None] leaves the child out. *)
Definition through (g : Graph G) (picked : list (option Scope)) (done : list bool) (from child : nat)
    : option (option Scope) :=
  if (done !!! child : bool) then
    let winner := opt_filter (fun parent => negb (bool_decide (edges_connecting (graph g) parent child = [])))
                    (node g child ≫= Node.winner_parent) in
    if is_some_and (fun parent => negb (parent =? from)) winner then None
    else Some (picked !!! child)
  else Some None.

Definition gather_step (g : Graph G) (target : nat) (picked : list (option Scope)) (done ancestors : list bool)
    (st : Gather) : Gather + result GraphLimitExceeded (option Scope) :=
  match gather_stack st with
  | [] => inr (Ok (widest st))
  | (from, scope, excluded, []) :: rest =>
    inl {| widest := widest st; seen := seen st; on_path := on_path st ∖ {[from]}; gather_stack := rest |}
  | (from, scope, excluded, edge :: edges) :: rest =>
    let popped := (from, scope, excluded, edges) :: rest in
    let below := scope_below (EdgeRef.weight edge) scope in
    let child := EdgeRef.target edge in
    let skip widest' :=
      inl {| widest := widest'; seen := seen st; on_path := on_path st; gather_stack := popped |} in
    if excludes excluded (group_of_node g child) (artifact_of_node g child) then skip (widest st)
    else if child =? target then skip (offer (widest st) below)
    else
      match through g picked done from child with
      | None => skip (widest st)
      | Some at_scope =>
        let excluded' := gathered_exclusions (names_gathered g target ancestors) excluded
                           (edge_exclusions (EdgeRef.weight edge)) in
        let scope' := default below at_scope in
        if (ancestors !!! child : bool) && negb (bool_decide (child ∈ on_path st))
           && negb (bool_decide ((child, scope', excluded') ∈ seen st))
        then
          let seen' := (child, scope', excluded') :: seen st in
          if (MAX_GATHER_STATES <? N.of_nat (length seen'))%N
          then inr (Err {| what := StatesGathering; limit_value := MAX_GATHER_STATES;
                           limit_coord := group_of_node g target ++ $":" ++ artifact_of_node g target |})
          else inl {| widest := widest st; seen := seen'; on_path := {[child]} ∪ on_path st;
                      gather_stack := (child, scope', excluded', popped_edges g child) :: popped |}
        else skip (widest st)
      end
  end.

(** A frame per state gathered and a turn per edge of each. *)
Definition gather_budget (g : Graph G) : N :=
  ((MAX_GATHER_STATES + 2) * N.of_nat (2 + edge_count g))%N.

(** [Graph::pick_scope]; no result only if the walk did not end. *)
Definition pick_scope (g : Graph G) (target : nat) (broken : bool) (picked : list (option Scope))
    (done ancestors : list bool) : option (result GraphLimitExceeded Scope) :=
  let own := from_option Node.scope Compile (node g target) in
  if negb broken then Some (Ok (default own (widest_below g target picked)))
  else
    let start := default Compile (picked !!! root g) in
    found ← run_loop (gather_step g target picked done ancestors) (gather_budget g)
      {| widest := None; seen := [(root g, start, [])]; on_path := {[root g]};
         gather_stack := [(root g, start, [], popped_edges g (root g))] |};
    Some (x ← found; Ok (default own x)).

(** *** Picking in order *)

(** The locals of [select_scopes]; the top of [ready] comes first. *)
Record Selecting := {
  picked : list (option Scope);
  found_cycles : option (list (list nat));
  ancestors : list bool;
  done : list bool;
  degree : list nat;
  ready : list (nat * bool);
}.

(** The nodes of the cycles through a node become ancestors. *)
Definition join_cycles (found : option (list (list nat))) (node : nat) (ancestors : list bool) : list bool :=
  foldl (fun acc member => <[member := true]> acc) ancestors
    (mjoin (List.filter (fun cycle => bool_decide (node ∈ cycle)) (default [] found))).

(** One node below a node that was resolved: it may be ready. *)
Definition release (st : list nat * list (nat * bool)) (child : nat) : list nat * list (nat * bool) :=
  let '(degree, ready) := st in
  let left := (degree !!! child) - 1 in
  (<[child := left]> degree, if left =? 0 then (child, false) :: ready else ready).

(** One turn of the inner loop; [inr] when nothing is ready or the picking failed. *)
Definition drain_step (g : Graph G) (groups : ConflictOrder) (st : Selecting)
    : Selecting + option (result GraphLimitExceeded Selecting) :=
  match ready st with
  | [] => inr (Some (Ok st))
  | (n, broken) :: rest =>
    if (done st !!! n : bool)
    then inl {| picked := picked st; found_cycles := found_cycles st; ancestors := ancestors st;
                done := done st; degree := degree st; ready := rest |}
    else
      let ancestors' := join_cycles (found_cycles st) n (ancestors st) in
      let scope :=
        match picked st !!! n with
        | Some s => Some (Ok s)
        | None => pick_scope g n broken (picked st) (done st) ancestors'
        end in
      match scope with
      | None => inr None
      | Some (Err e) => inr (Some (Err e))
      | Some (Ok s) =>
        let '(degree', ready') := foldl release (degree st, rest) (children groups !!! n) in
        inl {| picked := <[n := Some s]> (picked st); found_cycles := found_cycles st;
               ancestors := <[n := true]> ancestors'; done := <[n := true]> (done st);
               degree := degree'; ready := ready' |}
      end
  end.

Definition drain_budget (groups : ConflictOrder) (st : Selecting) : N :=
  N.of_nat (S (length (ready st) + sum_to (length (done st)) (fun n => length (children groups !!! n)))).

(** The order of the groups left when nothing is ready: by depth, then by what still
    lies above. *)
Definition nearest_cmp (groups : ConflictOrder) (degree : list nat) (a b : nat) : comparison :=
  ord_then (Nat.compare (default 0 (depth groups !!! a)) (default 0 (depth groups !!! b)))
           (Nat.compare (degree !!! a) (degree !!! b)).

Definition nearest (groups : ConflictOrder) (st : Selecting) : option nat :=
  min_by (nearest_cmp groups (degree st)) (List.filter (fun n => negb (done st !!! n : bool)) (order groups)).

(** One turn of the outer loop. *)
Definition select_step (g : Graph G) (groups : ConflictOrder) (st : Selecting)
    : Selecting + option (result GraphLimitExceeded Selecting) :=
  match mjoin (run_loop (drain_step g groups) (drain_budget groups st) st) with
  | None => inr None
  | Some (Err e) => inr (Some (Err e))
  | Some (Ok st) =>
    match nearest groups st with
    | None => inr (Some (Ok st))
    | Some n =>
      match (match found_cycles st with Some found => Some found | None => cycles groups end) with
      | None => inr None
      | Some found =>
        inl {| picked := picked st; found_cycles := Some found; ancestors := ancestors st; done := done st;
               degree := <[n := 0]> (degree st); ready := (n, true) :: ready st |}
      end
    end
  end.

Definition root_scope (g : Graph G) : Scope := from_option Node.scope Compile (node g (root g)).

Definition local_node (g : Graph G) (n : nat) : bool := from_option Node.local false (node g n).

(** What is picked before the walk: the root, the direct declarations, and the system
    files among the numbered nodes. *)
Definition picked_first (g : Graph G) (groups : ConflictOrder) : list (option Scope) :=
  let at_root := <[root g := Some (root_scope g)]> (replicate (node_count g) None) in
  let direct := map_fold (fun n e picked => <[n := Some (scope_below e (root_scope g))]> picked) at_root
                  (direct_edges g) in
  foldl (fun picked n =>
    if local_node g n then <[n := Some System]> picked else picked)
    direct (order groups).

Definition select_start (g : Graph G) (groups : ConflictOrder) : Selecting := {|
  picked := picked_first g groups;
  found_cycles := None;
  ancestors := replicate (node_count g) false;
  done := <[root g := true]> (replicate (node_count g) false);
  degree := in_degree groups;
  ready := reverse (map (fun n => (n, false))
             (List.filter (fun n => (in_degree groups !!! n) =? 0) (order groups))) |}.

(** The scopes written back. *)
Definition write_scopes (g : Graph G) (picked : list (option Scope)) : Graph G :=
  with_graph g (set_weights (graph g)
    (zip_with (fun n s => match s with Some scope => Node.set_scope n scope | None => n end)
       (node_weights (graph g)) picked)).

(** [Graph::select_scopes]. *)
Definition select_scopes (g : Graph G) : option (result GraphLimitExceeded (Graph G)) :=
  groups ← conflict_order g;
  ended ← mjoin (run_loop (select_step g groups) (N.of_nat (2 + node_count g)) (select_start g groups));
  Some (st ← ended; Ok (write_scopes g (picked st))).
End Select.

Section Facts.
Context {RepoContext G : Type} `{PetGraphLaws (Node.t RepoContext) G}.

(** ** Gathering ends *)

Lemma edges_from_count g n : valid (graph g) -> length (edges_from (graph g) n) <= edge_count g.
Proof. intros V. rewrite edges_from_spec by done. apply List.filter_length_le. Qed.

Definition frames_size (l : list (nat * Scope * list ExclusionKey * list EdgeRef.t)) : nat :=
  sum_list_with (fun f => S (length f.2)) l.

Lemma gather_total g target picked done ancestors st :
  valid (graph g) -> seen st <> [] -> (N.of_nat (length (seen st)) <= MAX_GATHER_STATES)%N ->
  frames_size (gather_stack st) <= S (edge_count g) ->
  exists r, run_loop (gather_step g target picked done ancestors) (gather_budget g) st = Some r.
Proof.
  intros V Hne Hseen Hsize.
  set (m (st : Gather) := (N.of_nat (frames_size (gather_stack st)) +
       (MAX_GATHER_STATES - N.of_nat (length (seen st))) * N.of_nat (2 + edge_count g))%N).
  destruct (run_total (gather_step g target picked done ancestors)
    (fun st => (N.of_nat (length (seen st)) <= MAX_GATHER_STATES)%N) (fun _ => True) m)
    with (fuel := gather_budget g) (s := st) as (r & Hr & _); [| |unfold m, gather_budget; nia|eauto].
  - intros st1 H1. unfold gather_step.
    destruct (gather_stack st1) as [|[[[from scope] excluded] [|edge edges]] rest] eqn:Es; [done|..].
    { split; [done|]. unfold m. rewrite Es. cbn [gather_stack frames_size sum_list_with snd length seen].
      unfold frames_size. lia. }
    assert (forall widest', let st' := {| widest := widest'; seen := seen st1; on_path := on_path st1;
       gather_stack := (from, scope, excluded, edges) :: rest |} in
       (N.of_nat (length (seen st')) <= MAX_GATHER_STATES)%N /\ (m st' < m st1)%N) as Hskip.
    { intros widest'. cbv zeta. split; [done|]. unfold m. rewrite Es.
      cbn [gather_stack frames_size sum_list_with snd length seen]. unfold frames_size. lia. }
    destruct (excludes _ _ _); [apply Hskip|]. destruct (EdgeRef.target edge =? target); [apply Hskip|].
    destruct (through _ _ _ _ _) as [at_scope|]; [|apply Hskip].
    destruct (_ && _ && _); [|apply Hskip].
    destruct (_ <? _)%N eqn:Elim; [done|]. apply N.ltb_ge in Elim. split; [done|].
    unfold m. rewrite Es. cbn [gather_stack frames_size sum_list_with snd length seen] in *.
    pose proof (edges_from_count g (EdgeRef.target edge) V) as Hd.
    unfold popped_edges, frames_size. rewrite length_reverse.
    cbn [length] in Elim. nia.
  - done.
Qed.

Lemma pick_scope_total g target broken picked done ancestors :
  valid (graph g) -> exists r, pick_scope g target broken picked done ancestors = Some r.
Proof.
  intros V. unfold pick_scope. destruct (negb broken); [eauto|].
  destruct (gather_total g target picked done ancestors
    {| widest := None; seen := [(root g, default Compile (picked !!! root g), [])];
       on_path := {[root g]};
       gather_stack := [(root g, default Compile (picked !!! root g), [], popped_edges g (root g))] |})
    as [r ->]; [done..| |].
  - cbn. unfold frames_size, popped_edges. cbn [sum_list_with snd].
    rewrite length_reverse. pose proof (edges_from_count g (root g) V). lia.
  - cbn. eauto.
Qed.

(** ** Releasing what lies below a resolved node *)

Lemma release_ok below degree ready :
  NoDup below -> Forall (fun c => c < length degree) below ->
  let '(degree', ready') := foldl release (degree, ready) below in
  length degree' = length degree /\
  (forall c, degree' !!! c = if decide (c ∈ below) then (degree !!! c) - 1 else degree !!! c) /\
  (forall x, x ∈ ready' <-> x ∈ ready \/ exists c, c ∈ below /\ (degree !!! c) - 1 = 0 /\ x = (c, false)) /\
  length ready' <= length ready + length below.
Proof.
  induction below as [|c below IH] using rev_ind; intros D F.
  { cbn. split_and!; [done|intros; by rewrite decide_False by set_solver| |lia].
    intros x. split; [tauto|]. intros [?|(? & []%not_elem_of_nil & _)]; done. }
  apply NoDup_app in D as (D & Hd & _). apply Forall_app in F as [F [Fc _]%Forall_cons].
  rewrite foldl_app. cbn [foldl]. specialize (IH D F).
  destruct (foldl release (degree, ready) below) as [degree1 ready1].
  destruct IH as (L1 & D1 & R1 & Z1). unfold release.
  assert (c ∉ below) as Hc by (intros Hin; apply (Hd c Hin); left).
  assert (degree1 !!! c = degree !!! c) as Ec by (by rewrite D1, decide_False). rewrite Ec.
  split_and!.
  - by rewrite length_insert.
  - intros c'. destruct (decide (c' = c)) as [-> |Hne].
    + rewrite lookup_total_insert_eq by lia. by rewrite decide_True by set_solver.
    + rewrite lookup_total_insert_ne by done. rewrite D1.
      destruct (decide (c' ∈ below)); [by rewrite decide_True by set_solver|by rewrite decide_False by set_solver].
  - intros x. setoid_rewrite elem_of_app. setoid_rewrite list_elem_of_singleton.
    destruct (Nat.eqb_spec ((degree !!! c) - 1) 0) as [Ez|Ez].
    + rewrite elem_of_cons, R1. naive_solver.
    + rewrite R1. naive_solver.
  - rewrite length_app. cbn. destruct (_ =? _); cbn; lia.
Qed.

(** ** The loops end *)

Section Total.
Context (g : Graph G) (groups : ConflictOrder).
Context (Hg : graph_ok g) (Ho : order_ok g groups).

Record lengths_ok (st : Selecting) : Prop := {
  picked_length : length (picked st) = node_count g;
  ancestors_length : length (ancestors st) = node_count g;
  done_length : length (done st) = node_count g;
  degree_length'' : length (degree st) = node_count g;
  ready_count : Forall (fun x => x.1 < node_count g) (ready st);
}.

Lemma children_count n c : c ∈ children groups !!! n -> n < node_count g /\ c < node_count g.
Proof.
  intros Hin. assert (n < node_count g) as Hn.
  { destruct (decide (n < node_count g)) as [|Hge]; [done|]. exfalso.
    rewrite list_lookup_total_alt, lookup_ge_None_2 in Hin by (rewrite (order_children _ _ Ho); lia).
    by apply not_elem_of_nil in Hin. }
  split; [done|]. apply (children_spec _ _ Ho) in Hin as (_ & _ & Hl); [|done].
  by apply (linked_count g n c); [apply Hg|].
Qed.

Lemma join_cycles_length found n l : length (join_cycles found n l) = length l.
Proof.
  unfold join_cycles. generalize (mjoin (List.filter (fun cycle => bool_decide (n ∈ cycle)) (default [] found))).
  intros ms. revert l. induction ms as [|x ms IH]; intros l; [done|]. cbn. by rewrite IH, length_insert.
Qed.

(** A node resolved by one turn of the inner loop. *)
Lemma drain_step_node st n broken rest s ancestors' :
  lengths_ok st -> ready st = (n, broken) :: rest -> done st !!! n = false ->
  ancestors' = join_cycles (found_cycles st) n (ancestors st) ->
  match picked st !!! n with
  | Some s => Some (Ok s)
  | None => pick_scope g n broken (picked st) (done st) ancestors'
  end = Some (Ok s) ->
  exists st', drain_step g groups st = inl st' /\ lengths_ok st' /\
    picked st' = <[n := Some s]> (picked st) /\ done st' = <[n := true]> (done st) /\
    (forall c, degree st' !!! c =
      if decide (c ∈ children groups !!! n) then (degree st !!! c) - 1 else degree st !!! c) /\
    (forall x, x ∈ ready st' <-> x ∈ rest \/
      exists c, c ∈ children groups !!! n /\ (degree st !!! c) - 1 = 0 /\ x = (c, false)) /\
    length (ready st') <= length rest + length (children groups !!! n) /\
    found_cycles st' = found_cycles st.
Proof.
  intros [Lp La Ld Lg Lr] Hr Hn -> Hs. rewrite Hr in Lr. apply Forall_cons in Lr as [Hlt Lr]. cbn in Hlt.
  unfold drain_step. rewrite Hr, Hn, Hs.
  assert (Forall (fun c => c < length (degree st)) (children groups !!! n)) as Hb.
  { rewrite Forall_forall, Lg. intros c Hc. by apply (children_count n c). }
  pose proof (release_ok _ (degree st) rest (children_nodup _ _ Ho n Hlt) Hb) as Hrel.
  destruct (foldl release (degree st, rest) (children groups !!! n)) as [degree' ready'].
  destruct Hrel as (L' & D' & R' & Z'). eexists. split; [reflexivity|]. cbn.
  split_and!; try done. split; cbn; rewrite ?length_insert, ?join_cycles_length; try done; [congruence|].
  rewrite Forall_forall in *. intros x Hx. apply R' in Hx as [Hx|(c & Hc & _ & ->)]; [auto|].
  by apply (children_count n c).
Qed.

Definition undone (done : list bool) (f : nat -> nat) : nat :=
  sum_to (node_count g) (fun n => if (done !!! n : bool) then 0 else f n).

Lemma undone_resolve done f n :
  length done = node_count g -> n < node_count g -> done !!! n = false ->
  undone (<[n := true]> done) f + f n = undone done f.
Proof.
  intros Hl Hn Hv. unfold undone.
  pose proof (sum_to_update (node_count g)
    (fun m => if (<[n := true]> done !!! m : bool) then 0 else f m)
    (fun m => if (done !!! m : bool) then 0 else f m) n Hn) as Hs.
  cbn beta in Hs. rewrite lookup_total_insert_eq, Hv, Nat.add_0_r in Hs by lia. apply Hs.
  intros j _ Hj. by rewrite lookup_total_insert_ne.
Qed.

Definition without_head (st : Selecting) (rest : list (nat * bool)) : Selecting := {|
  picked := picked st; found_cycles := found_cycles st; ancestors := ancestors st;
  done := done st; degree := degree st; ready := rest |}.

(** The rule of the inner loop: an invariant that its turns keep holds when nothing is
    ready any more, and picking fails only where [may_fail] allows it. *)
Lemma drain_rule (I : Selecting -> Prop) (may_fail : Prop) st0 :
  (forall st, I st -> lengths_ok st) ->
  (forall st x rest, I st -> ready st = x :: rest -> done st !!! x.1 = true -> I (without_head st rest)) ->
  (forall st n broken rest s st', I st -> ready st = (n, broken) :: rest -> n < node_count g ->
     done st !!! n = false ->
     match picked st !!! n with
     | Some s => Some (Ok s)
     | None => pick_scope g n broken (picked st) (done st) (join_cycles (found_cycles st) n (ancestors st))
     end = Some (Ok s) ->
     lengths_ok st' -> picked st' = <[n := Some s]> (picked st) -> done st' = <[n := true]> (done st) ->
     (forall c, degree st' !!! c =
        if decide (c ∈ children groups !!! n) then (degree st !!! c) - 1 else degree st !!! c) ->
     (forall x, x ∈ ready st' <-> x ∈ rest \/
        exists c, c ∈ children groups !!! n /\ (degree st !!! c) - 1 = 0 /\ x = (c, false)) ->
     found_cycles st' = found_cycles st -> I st') ->
  (forall st n broken rest e, I st -> ready st = (n, broken) :: rest ->
     pick_scope g n broken (picked st) (done st) (join_cycles (found_cycles st) n (ancestors st)) = Some (Err e) ->
     may_fail) ->
  I st0 ->
  exists r, run_loop (drain_step g groups) (drain_budget groups st0) st0 = Some (Some r) /\
    match r with Ok st' => I st' /\ ready st' = [] | Err _ => may_fail end.
Proof.
  intros HI Hskip Hnode Hfail Hst0.
  set (m st := length (ready st) + undone (done st) (fun n => length (children groups !!! n))).
  destruct (run_total (drain_step g groups) I
    (fun r => exists r', r = Some r' /\ match r' with Ok st' => I st' /\ ready st' = [] | Err _ => may_fail end)
    (fun st => N.of_nat (m st)))
    with (fuel := drain_budget groups st0) (s := st0) as (r & -> & r' & -> & Hr'); [| done| |by exists r'].
  - intros st Hst. pose proof (HI st Hst) as Hlen.
    destruct (ready st) as [|[n broken] rest] eqn:Er.
    { unfold drain_step. rewrite Er. eexists. split; [done|]. by split. }
    assert (n < node_count g) as Hn.
    { pose proof (ready_count _ Hlen) as Hrc. rewrite Er in Hrc. by apply Forall_cons in Hrc as [? _]. }
    destruct (done st !!! n) eqn:Ed.
    { unfold drain_step. rewrite Er, Ed. split; [by apply (Hskip st (n, broken))|].
      unfold m. rewrite Er. cbn. lia. }
    destruct (match picked st !!! n with
     | Some s => Some (Ok s)
     | None => pick_scope g n broken (picked st) (done st) (join_cycles (found_cycles st) n (ancestors st))
     end) as [[s|e]|] eqn:Es.
    + destruct (drain_step_node st n broken rest s _ Hlen Er Ed eq_refl Es)
        as (st' & -> & L' & P' & D' & G' & R' & Z' & F'). split; [by eapply Hnode|].
      unfold m. rewrite Er, D'.
      pose proof (undone_resolve (done st) (fun n => length (children groups !!! n)) n
        (done_length _ Hlen) Hn Ed). cbn [length]. lia.
    + unfold drain_step. rewrite Er, Ed, Es. eexists. split; [done|].
      destruct (picked st !!! n); [done|]. by eapply Hfail.
    + exfalso. destruct (picked st !!! n); [done|].
      destruct (pick_scope_total g n broken (picked st) (done st)
        (join_cycles (found_cycles st) n (ancestors st))) as [r Er']; [apply Hg|]. by rewrite Er' in Es.
  - unfold drain_budget, m, undone. rewrite (done_length _ (HI _ Hst0)).
    pose proof (sum_to_le (node_count g)
      (fun n => if (done st0 !!! n : bool) then 0 else length (children groups !!! n))
      (fun n => length (children groups !!! n))) as Hle.
    specialize (Hle ltac:(intros; cbn beta; destruct (done st0 !!! i); lia)). lia.
Qed.

(** What the inner loop does to the nodes that were ready. *)
Definition drained (st0 st : Selecting) : Prop :=
  lengths_ok st /\ (forall n, done st0 !!! n = true -> done st !!! n = true) /\
  (forall x, x ∈ ready st0 -> x.1 ∈ map fst (ready st) \/ done st !!! x.1 = true).

Lemma done_grows (l : list bool) n m : l !!! m = true -> <[n := true]> l !!! m = true.
Proof.
  intros Hm. destruct (decide (n = m)) as [-> |Hne]; [|by rewrite lookup_total_insert_ne].
  destruct (decide (m < length l)); [by apply lookup_total_insert_eq|].
  by rewrite list_insert_ge by lia.
Qed.

Lemma drain_ends st0 :
  lengths_ok st0 ->
  exists r, run_loop (drain_step g groups) (drain_budget groups st0) st0 = Some (Some r) /\
    match r with Ok st' => drained st0 st' /\ ready st' = [] | Err _ => True end.
Proof.
  intros Hst0. apply drain_rule; [by intros st []|..|done|].
  - intros st x rest ([Lp La Ld Lg Lr] & Hd & Hr) Er Hx. split; [|split]; cbn; [|done|].
    + split; cbn; try done. rewrite Er in Lr. by apply Forall_cons in Lr as [_ ?].
    + intros y Hy. destruct (Hr y Hy) as [Hin|?]; [|by right]. rewrite Er in Hin. cbn in Hin.
      apply elem_of_cons in Hin as [-> |?]; [by right|by left].
  - intros st n broken rest s st' (Hlen & Hd & Hr) Er Hn Hdn _ L' _ D' _ R' _. split; [done|].
    rewrite D'. split.
    + intros m Hm. by apply done_grows, Hd.
    + intros y Hy. destruct (Hr y Hy) as [Hin|?]; [|right; by apply done_grows].
      rewrite Er in Hin. cbn in Hin. apply elem_of_cons in Hin as [-> |Hin].
      * right. apply lookup_total_insert_eq. by rewrite (done_length _ Hlen).
      * left. change (map fst ?l) with (fst <$> l) in *. apply list_elem_of_fmap in Hin as (z & -> & Hz).
        apply list_elem_of_fmap. exists z. split; [done|]. apply R'. by left.
  - split; [done|]. split; [done|]. intros x Hx. left. change (map fst ?l) with (fst <$> l).
    apply list_elem_of_fmap. eauto.
Qed.

Lemma nearest_undone st n : nearest groups st = Some n -> n ∈ order groups /\ done st !!! n = false.
Proof.
  unfold nearest. intros Hm. apply (min_by_least (fun _ => True)) in Hm as (pre & post & E & _).
  - assert (n ∈ List.filter (fun n => negb (done st !!! n : bool)) (order groups)) as Hin
      by (rewrite E; set_solver).
    apply filter_elem in Hin as [? Hn%negb_true_iff]. done.
  - unfold nearest_cmp. apply pre_cmp_then; apply pre_cmp_total; apply _.
  - by apply Forall_true.
Qed.

Lemma order_count n : n ∈ order groups -> n < node_count g.
Proof.
  intros Hn. apply (order_below _ _ Ho) in Hn as (m & _ & Hl). by apply (linked_count g m n); [apply Hg|].
Qed.

Lemma cycles_total : exists found, cycles groups = Some found.
Proof.
  destruct (cycles_ok groups (node_count g)) as (found & -> & _); [| |  |eauto].
  - apply Ho.
  - intros n c Hc. by apply (children_count n c).
  - rewrite Forall_forall. apply order_count.
Qed.

(** Each turn of the outer loop resolves the node it started with. *)
Definition select_measure (st : Selecting) : nat :=
  undone (done st) (fun _ => 1) +
  match ready st with (n, _) :: _ => if (done st !!! n : bool) then 1 else 0 | [] => 1 end.

Lemma undone_less (d d' : list bool) n :
  length d = node_count g -> n < node_count g -> d !!! n = false -> d' !!! n = true ->
  (forall m, d !!! m = true -> d' !!! m = true) ->
  undone d' (fun _ => 1) < undone d (fun _ => 1).
Proof.
  intros Hl Hn Hd Hd' Hmono. pose proof (undone_resolve d (fun _ => 1) n Hl Hn Hd) as E. cbn beta in E.
  enough (undone d' (fun _ => 1) <= undone (<[n := true]> d) (fun _ => 1)) by lia.
  apply sum_to_le. intros i Hi. destruct (decide (i = n)) as [-> |Hne]; [rewrite Hd'; lia|].
  rewrite lookup_total_insert_ne by done. specialize (Hmono i).
  destruct (d !!! i), (d' !!! i); try lia; by specialize (Hmono eq_refl).
Qed.

Lemma undone_le (d d' : list bool) :
  (forall m, d !!! m = true -> d' !!! m = true) ->
  undone d' (fun _ => 1) <= undone d (fun _ => 1).
Proof.
  intros Hmono. apply sum_to_le. intros i Hi. specialize (Hmono i).
  destruct (d !!! i), (d' !!! i); try lia; by specialize (Hmono eq_refl).
Qed.

Lemma select_step_ok st :
  lengths_ok st ->
  match select_step g groups st with
  | inl st' => lengths_ok st' /\ select_measure st' < select_measure st
  | inr r => exists r', r = Some r' /\
      match r' with
      | Ok st' => lengths_ok st' /\ forall n, n ∈ order groups -> done st' !!! n = true
      | Err _ => True
      end
  end.
Proof.
  intros Hlen. unfold select_step. destruct (drain_ends st Hlen) as (r & -> & Hr). cbn.
  destruct r as [st1|e]; [|eauto]. destruct Hr as [(L1 & M1 & R1) E1].
  destruct (nearest groups st1) as [n|] eqn:En.
  - apply nearest_undone in En as [Hin Hn]. pose proof (order_count n Hin) as Hlt.
    assert (exists found, match found_cycles st1 with Some found => Some found | None => cycles groups end
      = Some found) as [found ->] by (destruct (found_cycles st1); eauto using cycles_total).
    split.
    + destruct L1 as [Lp La Ld Lg Lr]. split; cbn; rewrite ?length_insert; try done.
      by apply Forall_cons.
    + unfold select_measure. cbn. rewrite Hn.
      pose proof (undone_le (done st) (done st1) M1) as Hle.
      destruct (ready st) as [|[k b] rest] eqn:Er; [lia|].
      destruct (done st !!! k) eqn:Ek; [lia|].
      assert (done st1 !!! k = true) as Hk.
      { destruct (R1 (k, b)) as [Hin'|?]; [left|rewrite E1 in Hin'; by apply not_elem_of_nil in Hin'|done]. }
      assert (k < node_count g) as Hkl.
      { pose proof (ready_count _ Hlen) as Hrc. rewrite Er in Hrc. by apply Forall_cons in Hrc as [? _]. }
      pose proof (undone_less (done st) (done st1) k (done_length _ Hlen) Hkl Ek Hk M1). lia.
  - eexists. split; [done|]. split; [done|]. intros n Hin. unfold nearest in En.
    destruct (done st1 !!! n) eqn:Ed; [done|]. exfalso.
    assert (n ∈ List.filter (fun n => negb (done st1 !!! n : bool)) (order groups)) as Hf
      by (apply filter_elem; by rewrite Ed).
    destruct (List.filter _ (order groups)); [by apply not_elem_of_nil in Hf|done].
Qed.

(** ** What is picked before the walk *)

(** [system] for a system file, else the scope of the first direct declaration. *)
Definition first_scope (n : nat) : option Scope :=
  if local_node g n && bool_decide (n ∈ order groups) then Some System
  else match direct_edges g !! n with
       | Some e => Some (scope_below e (root_scope g))
       | None => if n =? root g then Some (root_scope g) else None
       end.

Lemma locals_picked l (picked : list (option Scope)) n :
  n < length picked ->
  let picked' := foldl (fun picked n => if local_node g n then <[n := Some System]> picked else picked) picked l in
  length picked' = length picked /\
  picked' !!! n = if local_node g n && bool_decide (n ∈ l) then Some System else picked !!! n.
Proof.
  revert picked. induction l as [|x l IH]; intros picked Hn; cbn [foldl].
  { split; [done|]. by rewrite bool_decide_false, andb_false_r by set_solver. }
  destruct (IH (if local_node g x then <[x := Some System]> picked else picked)) as [L' E'].
  { destruct (local_node g x); by rewrite ?length_insert. }
  cbv zeta in *. rewrite L', E'. split; [destruct (local_node g x); by rewrite ?length_insert|].
  destruct (local_node g n) eqn:El; cbn [andb].
  - destruct (decide (n = x)) as [-> |Hne].
    + rewrite (bool_decide_true (x ∈ x :: l)) by left. case_bool_decide; [done|].
      rewrite El. by apply lookup_total_insert_eq.
    + rewrite (bool_decide_ext (n ∈ x :: l) (n ∈ l)) by set_solver. case_bool_decide; [done|].
      destruct (local_node g x); by rewrite ?lookup_total_insert_ne.
  - destruct (local_node g x) eqn:Ex; [|done]. destruct (decide (x = n)) as [-> |Hne]; [congruence|].
    by rewrite lookup_total_insert_ne.
Qed.

Lemma direct_picked (first : gmap nat Edge) (at_root : list (option Scope)) s n :
  n < length at_root ->
  let picked := map_fold (fun n e picked => <[n := Some (scope_below e s)]> picked) at_root first in
  length picked = length at_root /\
  picked !!! n = match first !! n with Some e => Some (scope_below e s) | None => at_root !!! n end.
Proof.
  intros Hn. cbv zeta.
  apply (map_fold_weak_ind (fun (picked : list (option Scope)) (first : gmap nat Edge) =>
    length picked = length at_root /\
    picked !!! n = match first !! n with Some e => Some (scope_below e s) | None => at_root !!! n end)).
  - by rewrite lookup_empty.
  - intros i e m r _ [L' E']. rewrite length_insert. split; [done|].
    destruct (decide (i = n)) as [-> |Hne].
    + rewrite lookup_insert_eq. apply lookup_total_insert_eq. lia.
    + by rewrite lookup_insert_ne, lookup_total_insert_ne.
Qed.

Lemma picked_first_spec :
  length (picked_first g groups) = node_count g /\
  forall n, n < node_count g -> picked_first g groups !!! n = first_scope n.
Proof.
  unfold picked_first.
  set (at_root := <[root g := Some (root_scope g)]> (replicate (node_count g) None)).
  assert (length at_root = node_count g) as La by (unfold at_root; by rewrite length_insert, length_replicate).
  assert (forall n, n < node_count g -> n < length at_root) as Hlt by (intros; lia).
  split.
  - pose proof (ok_root _ Hg) as Hr. rewrite <-La in Hr.
    destruct (direct_picked (direct_edges g) at_root (root_scope g) _ Hr) as [Ld _]. cbv zeta in Ld.
    rewrite <-Ld in Hr. by destruct (locals_picked (order groups) _ _ Hr) as [-> _]; rewrite Ld.
  - intros n Hn. destruct (direct_picked (direct_edges g) at_root (root_scope g) n (Hlt n Hn)) as [Ld Ed].
    cbv zeta in *. destruct (locals_picked (order groups)
      (map_fold (fun n e picked => <[n := Some (scope_below e (root_scope g))]> picked) at_root (direct_edges g)) n)
      as [_ El]; [lia|]. cbv zeta in El.
    rewrite El, Ed. unfold first_scope. destruct (_ && _); [done|]. destruct (direct_edges g !! n); [done|].
    unfold at_root. destruct (Nat.eqb_spec n (root g)) as [-> |Hne].
    + apply lookup_total_insert_eq. by rewrite length_replicate.
    + rewrite lookup_total_insert_ne by done. by apply lookup_total_replicate.
Qed.

Lemma start_lengths : lengths_ok (select_start g groups).
Proof.
  unfold select_start. split; cbn.
  - apply picked_first_spec.
  - by rewrite length_replicate.
  - by rewrite length_insert, length_replicate.
  - apply Ho.
  - rewrite Forall_forall. intros x. rewrite elem_of_reverse. change (map ?f ?l) with (f <$> l).
    rewrite list_elem_of_fmap. intros (n & -> & Hn). apply filter_elem in Hn as [Hn _].
    by apply order_count.
Qed.

Lemma select_loop_total :
  exists r, run_loop (select_step g groups) (N.of_nat (2 + node_count g)) (select_start g groups) = Some (Some r) /\
    match r with
    | Ok st' => lengths_ok st' /\ forall n, n ∈ order groups -> done st' !!! n = true
    | Err _ => True
    end.
Proof.
  destruct (run_total (select_step g groups) lengths_ok
    (fun r => exists r', r = Some r' /\
      match r' with
      | Ok st' => lengths_ok st' /\ forall n, n ∈ order groups -> done st' !!! n = true
      | Err _ => True
      end) (fun st => N.of_nat (select_measure st)))
    with (fuel := N.of_nat (2 + node_count g)) (s := select_start g groups) as (r & -> & r' & -> & Hr');
    [| |  |by exists r'].
  - intros st Hst. pose proof (select_step_ok st Hst) as Hs.
    destruct (select_step g groups st); [|done]. split; [tauto|lia].
  - apply start_lengths.
  - assert (undone (done (select_start g groups)) (fun _ => 1) <= node_count g) as Hle.
    { unfold undone. etransitivity; [apply (sum_to_le _ _ (fun _ => 1)); intros i _; cbn beta; destruct (_ !!! i); lia|].
      rewrite sum_to_one. lia. }
    unfold select_measure. destruct (ready _) as [|[n b] l]; [|destruct (done _ !!! n)]; lia.
Qed.

(** ** Without cycles every parent is picked first *)

Definition acyclic : Prop := forall n, below_root g n -> ~ tc (linked (graph g)) n n.

Definition own_scope (n : nat) : Scope := from_option Node.scope Compile (node g n).

Lemma widest_below_ext n (picked picked' : list (option Scope)) :
  (forall p, linked (graph g) p n -> picked !!! p = picked' !!! p) ->
  widest_below g n picked = widest_below g n picked'.
Proof.
  intros Hp. unfold widest_below.
  assert (forall e, e ∈ edges_into (graph g) n -> picked !!! EdgeRef.source e = picked' !!! EdgeRef.source e) as He.
  { intros e Hin. apply Hp. apply edges_into_elem in Hin as [Hin <-]; [|apply Hg].
    exists (EdgeRef.weight e). apply arcs_elem. eauto. }
  revert He. generalize (edges_into (graph g) n) (@None Scope).
  induction l as [|e l IH]; intros w He; [done|]. cbn. unfold offer_edge at 2 4.
  rewrite He by left. apply IH. intros e' Hin. apply He. by right.
Qed.

(** The state of Kahn's algorithm: the degree of a node counts the parents left. *)
Record kahn (st : Selecting) : Prop := {
  k_lengths : lengths_ok st;
  k_root : done st !!! root g = true;
  k_picked n : n < node_count g -> done st !!! n = true -> picked st !!! n <> None;
  k_first n : n < node_count g -> first_scope n <> None -> picked st !!! n = first_scope n;
  k_new n : n < node_count g -> first_scope n = None -> picked st !!! n <> None ->
    done st !!! n = true /\ n ∈ order groups /\
    picked st !!! n = Some (default (own_scope n) (widest_below g n (picked st)));
  k_degree c : c < node_count g -> degree st !!! c =
    sum_to (node_count g) (fun n =>
      if bool_decide (c ∈ children groups !!! n) && negb (done st !!! n) then 1 else 0);
  k_ready x : x ∈ ready st -> x.2 = false /\ x.1 ∈ order groups /\ degree st !!! x.1 = 0;
  k_all n : n ∈ order groups -> done st !!! n = false -> degree st !!! n = 0 -> (n, false) ∈ ready st;
  k_parents n p : done st !!! n = true -> n ∈ order groups -> linked (graph g) p n ->
    p = root g \/ p ∈ order groups -> done st !!! p = true;
}.

Lemma acyclic_self n : acyclic -> n ∈ order groups -> ~ linked (graph g) n n.
Proof. intros Ha Hn Hl. apply (Ha n); [by apply Ho|]. by apply tc_once. Qed.

(** The parents of a node without degree are resolved. *)
Lemma parents_done st n p :
  kahn st -> n < node_count g -> degree st !!! n = 0 -> linked (graph g) p n ->
  p = root g \/ p ∈ order groups -> done st !!! p = true.
Proof.
  intros K Hn Hd Hl [-> |Hp]; [apply K|].
  destruct (decide (p = root g)) as [-> |Hne]; [apply K|].
  rewrite (k_degree _ K n Hn) in Hd. pose proof (order_count p Hp) as Hpc.
  pose proof (sum_to_zero _ _ Hd p Hpc) as Hz. cbn beta in Hz.
  rewrite bool_decide_true in Hz; [by destruct (done st !!! p)|].
  apply (children_spec _ _ Ho); [done|]. split_and!; [done|by apply Ho|done].
Qed.

Lemma kahn_skip st x rest :
  kahn st -> ready st = x :: rest -> done st !!! x.1 = true -> kahn (without_head st rest).
Proof.
  intros [[Lp La Ld Lg Lr] Kr Kp Kf Kn Kd Ky Ka Kq] Er Hx. rewrite Er in Lr.
  split; cbn; try done.
  - split; cbn; try done. by apply Forall_cons in Lr as [_ ?].
  - intros y Hy. apply Ky. rewrite Er. by right.
  - intros n Hn Hd Hz. pose proof (Ka n Hn Hd Hz) as Hin. rewrite Er in Hin.
    apply elem_of_cons in Hin as [<-|?]; [|done]. cbn in Hx. congruence.
Qed.

(** Resolving a ready node keeps the picks of the others. *)
Lemma kahn_picks st n s (Ha : acyclic) :
  kahn st -> n < node_count g -> n ∈ order groups -> done st !!! n = false -> degree st !!! n = 0 ->
  match picked st !!! n with
  | Some s => Some (Ok s)
  | None => Some (Ok (default (own_scope n) (widest_below g n (picked st))))
  end = Some (Ok s : result GraphLimitExceeded Scope) ->
  let picked' := <[n := Some s]> (picked st) in
  forall m, m < node_count g ->
  (first_scope m <> None -> picked' !!! m = first_scope m) /\
  (first_scope m = None -> picked' !!! m <> None ->
     (done st !!! m = true \/ m = n) /\ m ∈ order groups /\
     picked' !!! m = Some (default (own_scope m) (widest_below g m picked'))).
Proof.
  intros K Hn Hin Hd Hz Hs picked' m Hm. subst picked'.
  pose proof (picked_length _ (k_lengths _ K)) as Lp.
  assert (forall m, m ∈ order groups -> done st !!! m = true \/ m = n ->
    widest_below g m (<[n := Some s]> (picked st)) = widest_below g m (picked st)) as Hext.
  { intros k Hk Hkd. apply widest_below_ext. intros p Hl.
    destruct (decide (n = p)) as [<-|Hne]; [|by rewrite lookup_total_insert_ne]. exfalso.
    destruct Hkd as [Hkd| ->]; [|by apply (acyclic_self n)].
    assert (done st !!! n = true) by (apply (k_parents _ K k n); auto). congruence. }
  destruct (decide (m = n)) as [-> |Hne].
  - rewrite lookup_total_insert_eq by lia. destruct (picked st !!! n) as [s'|] eqn:Ep.
    + simplify_eq. split; intros Hf; [by rewrite <-Ep, (k_first _ K n)|]. intros _.
      destruct (k_new _ K n Hm Hf) as (Hd' & _); [by rewrite Ep|]. congruence.
    + simplify_eq. split; intros Hf.
      * exfalso. by rewrite (k_first _ K n Hm Hf) in Ep.
      * intros _. split_and!; [by right|done|]. rewrite Hext by auto. done.
  - rewrite lookup_total_insert_ne by done. split; [by apply K|]. intros Hf Hp.
    destruct (k_new _ K m Hm Hf Hp) as (Hd' & Hmo & E). split_and!; [by left|done|].
    rewrite Hext by auto. done.
Qed.

Lemma kahn_node (Ha : acyclic) st n broken rest s st' :
  kahn st -> ready st = (n, broken) :: rest -> n < node_count g -> done st !!! n = false ->
  match picked st !!! n with
  | Some s => Some (Ok s)
  | None => pick_scope g n broken (picked st) (done st) (join_cycles (found_cycles st) n (ancestors st))
  end = Some (Ok s) ->
  lengths_ok st' -> picked st' = <[n := Some s]> (picked st) -> done st' = <[n := true]> (done st) ->
  (forall c, degree st' !!! c =
     if decide (c ∈ children groups !!! n) then (degree st !!! c) - 1 else degree st !!! c) ->
  (forall x, x ∈ ready st' <-> x ∈ rest \/
     exists c, c ∈ children groups !!! n /\ (degree st !!! c) - 1 = 0 /\ x = (c, false)) ->
  found_cycles st' = found_cycles st -> kahn st'.
Proof.
  intros K Er Hn Hd Hs L' P' D' G' R' _.
  destruct (k_ready _ K (n, broken)) as (Eb & Hin & Hz); [rewrite Er; left|]. cbn in Eb, Hin, Hz. subst broken.
  pose proof (done_length _ (k_lengths _ K)) as Ldone.
  assert (forall m, done st' !!! m = true <-> done st !!! m = true \/ m = n) as Hdone.
  { intros m. rewrite D'. destruct (decide (n = m)) as [<-|Hne].
    - rewrite lookup_total_insert_eq by lia. tauto.
    - rewrite lookup_total_insert_ne by done. naive_solver. }
  pose proof (kahn_picks st n s Ha K Hn Hin Hd Hz Hs) as Hpicks. cbv zeta in Hpicks. rewrite <-P' in Hpicks.
  split; [done|..].
  - apply Hdone. left. apply K.
  - intros m Hm Hmd. apply Hdone in Hmd as [Hmd| ->].
    + rewrite P'. destruct (decide (n = m)) as [<-|Hne]; [congruence|].
      rewrite lookup_total_insert_ne by done. by apply K.
    + rewrite P', lookup_total_insert_eq; [done|]. by rewrite (picked_length _ (k_lengths _ K)).
  - intros m Hm. by apply Hpicks.
  - intros m Hm Hf Hp. rewrite Hdone. by apply Hpicks.
  - intros c Hc.
    pose proof (sum_to_update (node_count g)
      (fun m => if bool_decide (c ∈ children groups !!! m) && negb (done st' !!! m) then 1 else 0)
      (fun m => if bool_decide (c ∈ children groups !!! m) && negb (done st !!! m) then 1 else 0) n Hn) as Hs'.
    cbn beta in Hs'. rewrite (proj2 (Hdone n)) in Hs' by tauto. rewrite Hd in Hs'.
    rewrite andb_false_r, andb_true_r, <-(k_degree _ K c Hc) in Hs'. rewrite G'.
    specialize (Hs' ltac:(intros j Hj Hne; rewrite D', lookup_total_insert_ne by done; done)).
    destruct (decide (c ∈ children groups !!! n)) as [Hcn|Hcn];
      [rewrite (bool_decide_true (c ∈ children groups !!! n)) in Hs' by done
      |rewrite (bool_decide_false (c ∈ children groups !!! n)) in Hs' by done]; lia.
  - intros x Hx. rewrite G'. apply R' in Hx as [Hx|(c & Hc & Hcz & ->)].
    + destruct (k_ready _ K x) as (? & ? & Hxz); [rewrite Er; by right|]. rewrite Hxz. by case_decide.
    + cbn. rewrite decide_True by done. split_and!; [done| |done].
      apply Ho. apply Ho in Hin as (p & Hp & Hl). exists n. split; [by eapply rtc_r|].
      by apply (children_spec _ _ Ho n c).
  - intros m Hm Hmd Hmz. rewrite R'. assert (m <> n /\ done st !!! m = false) as [Hne Hmd'].
    { split; [intros ->|]; [|apply not_true_is_false; intros ?]; by rewrite (proj2 (Hdone _)) in Hmd by tauto. }
    rewrite G' in Hmz. case_decide as Hmc; [right; by exists m|]. left.
    pose proof (k_all _ K m Hm Hmd' Hmz) as Hr. rewrite Er in Hr.
    by apply elem_of_cons in Hr as [[= ->]|?].
  - intros m p Hmd Hm Hl Hp. rewrite Hdone in Hmd |- *. left. destruct Hmd as [Hmd| ->].
    + by apply (k_parents _ K m p).
    + by apply (parents_done st n p).
Qed.

Lemma root_not_below : acyclic -> root g ∉ order groups.
Proof.
  intros Ha Hr. assert (below_root g (root g)) as Hb by (by apply Ho).
  apply (Ha _ Hb). destruct Hb as (m & Hm & Hl). by eapply tc_rtc_l; [|apply tc_once].
Qed.

Lemma kahn_start : acyclic -> kahn (select_start g groups).
Proof.
  intros Ha. pose proof start_lengths as L0. destruct picked_first_spec as [Lp Hp].
  assert (forall m, m < node_count g -> m <> root g -> done (select_start g groups) !!! m = false) as Hd.
  { intros m Hm Hne. cbn. rewrite lookup_total_insert_ne by done. by apply lookup_total_replicate. }
  assert (done (select_start g groups) !!! root g = true) as Hr.
  { cbn. apply lookup_total_insert_eq. rewrite length_replicate. apply Hg. }
  split; [done|done|..].
  - intros n Hn Hdn. destruct (decide (n = root g)) as [-> |Hne]; [|by rewrite Hd in Hdn].
    cbn. rewrite Hp by done. unfold first_scope. rewrite Nat.eqb_refl.
    destruct (_ && _), (direct_edges g !! root g); done.
  - intros n Hn _. cbn. by apply Hp.
  - intros n Hn Hf Hpn. cbn in Hpn. by rewrite Hp, Hf in Hpn.
  - intros c Hc. cbn [degree select_start]. rewrite (degree_spec _ _ Ho) by done. apply sum_to_ext.
    intros i Hi. destruct (decide (i = root g)) as [-> |Hne].
    + rewrite bool_decide_false; [done|]. intros Hin. by apply (children_spec _ _ Ho) in Hin as [? _].
    + rewrite Hd by done. by rewrite andb_true_r.
  - intros x. cbn. rewrite elem_of_reverse. change (map ?f ?l) with (f <$> l).
    rewrite list_elem_of_fmap. intros (n & -> & [Hn Hz%Nat.eqb_eq]%filter_elem). done.
  - intros n Hn _ Hz. cbn in *. rewrite elem_of_reverse. change (map ?f ?l) with (f <$> l).
    rewrite list_elem_of_fmap. exists n. split; [done|]. apply filter_elem. by rewrite Hz.
  - intros n p Hdn Hn. pose proof (order_count n Hn) as Hlt.
    destruct (decide (n = root g)) as [-> |Hne]; [by apply root_not_below in Ha|by rewrite Hd in Hdn].
Qed.

(** When nothing is ready every node is resolved: one left would have a parent left,
    and so on without end. *)
Lemma kahn_finished st :
  acyclic -> kahn st -> ready st = [] -> forall n, n ∈ order groups -> done st !!! n = true.
Proof.
  intros Ha K Er n Hn.
  set (R := fun m p => linked (graph g) p m /\ p ∈ order groups).
  assert (forall x y, tc R x y -> y ∈ order groups /\ tc (linked (graph g)) y x) as HR.
  { intros x y Hxy. induction Hxy as [x y [Hl Hy]|x y z [Hl Hy] _ [Hz IH]].
    - split; [done|by apply tc_once].
    - split; [done|by eapply tc_r]. }
  assert (sn R n) as Hsn.
  { apply tc_finite_sn.
    - intros m [Hmo Htc]%HR. by apply (Ha m); [apply Ho|].
    - exists (order groups). intros y Hy. by apply HR in Hy as [? _]. }
  revert Hn. induction Hsn as [n _ IH]. intros Hn. destruct (done st !!! n) eqn:Ed; [done|]. exfalso.
  pose proof (order_count n Hn) as Hlt.
  assert (degree st !!! n <> 0) as Hz.
  { intros Hz. pose proof (k_all _ K n Hn Ed Hz) as Hin. rewrite Er in Hin. by apply not_elem_of_nil in Hin. }
  rewrite (k_degree _ K n Hlt) in Hz. apply Hz. clear Hz.
  rewrite (sum_to_ext _ _ (fun _ => 0)).
  { unfold sum_to. generalize (seq 0 (node_count g)). by induction l. }
  intros p Hp. case_bool_decide as Hc; [|done]. cbn.
  apply (children_spec _ _ Ho) in Hc as (Hr & Hb & Hl); [|done]. apply Ho in Hb.
  assert (done st !!! p = true) as ->; [|done]. apply IH; [by split|done].
Qed.

Lemma select_acyclic :
  acyclic ->
  exists st, run_loop (select_step g groups) (N.of_nat (2 + node_count g)) (select_start g groups)
    = Some (Some (Ok st)) /\ kahn st /\ forall n, n ∈ order groups -> done st !!! n = true.
Proof.
  intros Ha.
  destruct (drain_rule kahn False (select_start g groups)) as (r & Hr & Hst).
  - apply k_lengths.
  - apply kahn_skip.
  - intros. by eapply kahn_node.
  - intros st n broken rest e K Er. destruct (k_ready _ K (n, broken)) as (Eb & _); [rewrite Er; left|].
    cbn in Eb. subst broken. done.
  - by apply kahn_start.
  - destruct r as [st|e]; [|done]. destruct Hst as [K Er].
    pose proof (kahn_finished st Ha K Er) as Hall.
    exists st. split; [|done].
    assert (select_step g groups (select_start g groups) = inr (Some (Ok st))) as Hstep.
    { unfold select_step. rewrite Hr. cbn. unfold nearest.
      replace (List.filter _ (order groups)) with (@nil nat); [done|].
      symmetry. apply list_empty_filter_bool. intros x Hx. by rewrite Hall. }
    by apply run_once.
Qed.
End Total.

(** ** The widest of the offers *)

(** [s] is the widest scope that [offers] has other than [system], or the node's own
    where there is none. *)
Definition widest_of (offers : Scope -> Prop) (own s : Scope) : Prop :=
  (offers s /\ s <> System /\ forall s', offers s' -> s' <> System -> width s' <= width s) \/
  ((forall s', offers s' -> s' = System) /\ s = own).

(** The offers of the edges [l]. *)
Definition offered (picked : list (option Scope)) (l : list EdgeRef.t) (s : Scope) : Prop :=
  exists e p, e ∈ l /\ picked !!! EdgeRef.source e = Some p /\ s = scope_below (EdgeRef.weight e) p.

Lemma offered_snoc picked l e s :
  offered picked (l ++ [e]) s <-> offered picked l s \/ offered picked [e] s.
Proof. unfold offered. setoid_rewrite elem_of_app. naive_solver. Qed.

Lemma offers_widest picked l own :
  widest_of (offered picked l) own (default own (foldl (offer_edge picked) None l)) /\
  (foldl (offer_edge picked) None l = None -> forall s, offered picked l s -> s = System) /\
  (forall s, foldl (offer_edge picked) None l = Some s -> offered picked l s /\ s <> System /\
     forall s', offered picked l s' -> s' <> System -> width s' <= width s).
Proof.
  enough ((foldl (offer_edge picked) None l = None -> forall s, offered picked l s -> s = System) /\
    (forall s, foldl (offer_edge picked) None l = Some s -> offered picked l s /\ s <> System /\
     forall s', offered picked l s' -> s' <> System -> width s' <= width s)) as [HN HS].
  { split; [|done]. unfold widest_of. destruct (foldl _ _ _) as [s|]; [left; by apply HS|right].
    split; [by apply HN|done]. }
  induction l as [|e l [IHN IHS]] using rev_ind.
  { cbn. split; [|done]. intros _ s (e & p & []%not_elem_of_nil & _). }
  rewrite foldl_app. cbn [foldl]. set (w := foldl _ None l) in *.
  assert (forall s, offered picked [e] s <->
    exists p, picked !!! EdgeRef.source e = Some p /\ s = scope_below (EdgeRef.weight e) p) as H1.
  { intros s. unfold offered. setoid_rewrite list_elem_of_singleton. naive_solver. }
  setoid_rewrite offered_snoc. setoid_rewrite H1. unfold offer_edge.
  destruct (picked !!! EdgeRef.source e) as [p|]; [|naive_solver].
  set (s0 := scope_below (EdgeRef.weight e) p). unfold offer.
  destruct (decide (s0 = System)) as [Es|Es].
  { rewrite bool_decide_true by done. cbn. naive_solver. }
  rewrite bool_decide_false by done. cbn [negb andb]. destruct w as [s1|]; cbn [is_none_or].
  - destruct (IHS s1 eq_refl) as (O1 & N1 & M1). destruct (Nat.ltb_spec (width s1) (width s0)) as [Hlt|Hge].
    + split; [done|]. intros s [= <-]. split_and!; [right; by exists p|done|].
      intros s' [Hs'|(p' & [= <-] & ->)] Hn'; [|done]. pose proof (M1 s' Hs' Hn'). lia.
    + split; [done|]. intros s [= <-]. split_and!; [by left|done|].
      intros s' [Hs'|(p' & [= <-] & ->)] Hn'; [by apply M1|done].
  - split; [done|]. intros s [= <-]. split_and!; [right; by exists p|done|].
    intros s' [Hs'|(p' & [= <-] & ->)] Hn'; [|done]. by rewrite (IHN eq_refl s' Hs') in Hn'.
Qed.

(** ** Writing back *)

Lemma write_scopes_ok g (picked : list (option Scope)) :
  graph_ok g -> length picked = node_count g ->
  graph_ok (write_scopes g picked) /\ root (write_scopes g picked) = root g /\
  arcs (graph (write_scopes g picked)) = arcs (graph g) /\
  forall n, node (write_scopes g picked) n =
    (fun w => match picked !!! n with Some s => Node.set_scope w s | None => w end) <$> node g n.
Proof.
  intros [V D R] Hl. unfold write_scopes, node, node_count, pet_node_count in *.
  set (ws := zip_with _ _ _).
  assert (length ws = length (node_weights (graph g))) as Lw by (unfold ws; rewrite length_zip_with; lia).
  destruct (set_weights_spec (graph g) ws V Lw) as (V' & N' & E').
  assert (arcs (set_weights (graph g) ws) = arcs (graph g)) as Ea by (unfold arcs; by rewrite E').
  split; [|split; [done|split; [done|]]].
  - split; cbn; [done|by rewrite Ea|]. unfold node_count, pet_node_count. cbn. by rewrite N', Lw.
  - intros n. cbn. rewrite N'. unfold ws. rewrite lookup_zip_with.
    destruct (node_weights (graph g) !! n) as [w|] eqn:En; [|done]. cbn.
    apply lookup_lt_Some in En as Hn. rewrite <-Hl in Hn. apply lookup_lt_is_Some in Hn as [s Hs].
    rewrite Hs. cbn. by rewrite (list_lookup_total_correct _ _ _ Hs).
Qed.
End Facts.

(** ** The scopes selected *)

Section Selected.
Context {RepoContext G : Type} `{PetGraphLaws (Node.t RepoContext) G}.

(** The scopes a node has below its parents, at the scopes they have in [g']. *)
Definition below_parents (g g' : Graph G) (n : nat) (s : Scope) : Prop :=
  exists p e wp, (p, n, e) ∈ arcs (graph g) /\ (p = root g \/ below_root g p) /\
    node g' p = Some wp /\ s = scope_below e (Node.scope wp).

(** The equation of a node that can be reached. *)
Definition scope_equation (g g' : Graph G) (n : nat) (w w' : Node.t RepoContext) : Prop :=
  if Node.local w then Node.scope w' = System
  else match direct_edges g !! n with
       | Some e => Node.scope w' = scope_below e (root_scope g)
       | None => widest_of (below_parents g g' n) (Node.scope w) (Node.scope w')
       end.

Lemma node_some (g : Graph G) n : n < node_count g -> exists w, node g n = Some w.
Proof. intros Hn. by apply lookup_lt_is_Some. Qed.

(** The scopes a finished selection picked are a solution. *)
Lemma kahn_solution g groups st n w :
  graph_ok g -> order_ok g groups -> acyclic g -> kahn g groups st ->
  (forall n, n ∈ order groups -> done st !!! n = true) -> below_root g n -> node g n = Some w ->
  exists s, picked st !!! n = Some s /\
    scope_equation g (write_scopes g (picked st)) n w (Node.set_scope w s).
Proof.
  intros Hg Ho Ha K Hall Hb Hw. pose proof (proj2 (order_below _ _ Ho n) Hb) as Hin.
  pose proof (order_count g groups Hg Ho n Hin) as Hn.
  destruct (picked st !!! n) as [s|] eqn:Es; [|exfalso; by apply (k_picked _ _ _ K n Hn); [apply Hall|]].
  exists s. split; [done|]. unfold scope_equation. cbn [Node.scope Node.set_scope].
  pose proof (k_first _ _ _ K n Hn) as Hf. pose proof (k_new _ _ _ K n Hn) as Hnew.
  unfold first_scope, local_node in Hf, Hnew. rewrite Hw, (bool_decide_true (n ∈ order groups)) in Hf, Hnew by done.
  cbn [from_option] in Hf, Hnew. rewrite andb_true_r in Hf, Hnew.
  destruct (Node.local w); [by rewrite Es in Hf; specialize (Hf ltac:(done)); simplify_eq|].
  destruct (direct_edges g !! n) as [e|]; [by rewrite Es in Hf; specialize (Hf ltac:(done)); simplify_eq|].
  assert (n <> root g) as Hr by (intros ->; by apply (root_not_below g groups Ho Ha)).
  rewrite (proj2 (Nat.eqb_neq _ _) Hr) in Hnew. destruct (Hnew eq_refl) as (_ & _ & E); [by rewrite Es|].
  rewrite Es in E. injection E as ->. unfold own_scope. rewrite Hw. cbn [from_option].
  destruct (offers_widest (picked st) (edges_into (graph g) n) (Node.scope w)) as [Hwide _].
  assert (forall s, offered (picked st) (edges_into (graph g) n) s <->
                    below_parents g (write_scopes g (picked st)) n s) as Heq.
  { destruct (write_scopes_ok g (picked st) Hg (picked_length _ _ (k_lengths _ _ _ K))) as (_ & _ & _ & Hnode).
    intros s. unfold offered, below_parents. split.
    - intros (e & p & He & Hp & ->). apply edges_into_elem in He as [He Ht]; [|apply Hg].
      assert ((EdgeRef.source e, n, EdgeRef.weight e) ∈ arcs (graph g)) as Harc.
      { apply arcs_elem. exists e. split; [done|]. unfold arc_of. congruence. }
      destruct (ends_exist _ _ _ _ (ok_valid _ Hg) Harc) as [Hsrc _].
      destruct (node_some g _ Hsrc) as [wp Hwp].
      exists (EdgeRef.source e), (EdgeRef.weight e), (Node.set_scope wp p).
      split_and!; [done| |by rewrite Hnode, Hwp, Hp|done].
      destruct (decide (EdgeRef.source e = root g)) as [|Hne]; [by left|right].
      destruct (first_scope g groups (EdgeRef.source e)) as [fs|] eqn:Ef.
      + unfold first_scope in Ef. rewrite (proj2 (Nat.eqb_neq _ _) Hne) in Ef.
        destruct (local_node g (EdgeRef.source e) && bool_decide (EdgeRef.source e ∈ order groups)) eqn:El.
        * bool_simpl. by apply Ho.
        * pose proof (direct_edges_spec g (EdgeRef.source e) (ok_valid _ Hg)) as Hd.
          destruct (direct_edges g !! EdgeRef.source e); [|done].
          exists (root g). split; [done|]. eexists. apply Hd.
      + apply Ho. by apply (k_new _ _ _ K _ Hsrc Ef); rewrite Hp.
    - intros (p & e & wp & Harc & Hp & Hwp & ->). apply arcs_elem in Harc as (r & Hr' & E').
      unfold arc_of in E'. simplify_eq. exists r, (Node.scope wp).
      split_and!; [apply edges_into_elem; [apply Hg|done]| |done].
      assert (EdgeRef.source r < node_count g) as Hsrc.
      { apply (ends_exist (graph g) (EdgeRef.source r) (EdgeRef.target r) (EdgeRef.weight r));
          [apply Hg|apply arcs_elem; by exists r]. }
      rewrite Hnode in Hwp. destruct (node_some g _ Hsrc) as [w0 Hw0]. rewrite Hw0 in Hwp. cbn in Hwp.
      assert (picked st !!! EdgeRef.source r <> None) as Hps.
      { apply (k_picked _ _ _ K _ Hsrc). destruct Hp as [-> |Hp]; [apply K|]. by apply Hall, Ho. }
      destruct (picked st !!! EdgeRef.source r); [|done]. injection Hwp as <-. done. }
  unfold widest_of in *. setoid_rewrite <-Heq. exact Hwide.
Qed.
End Selected.

(** C9: where the resolved graph has no cycle, selecting scopes succeeds and solves the
    equations of Maven's JavaScopeSelector: a system file is at [system], a direct
    dependency at the scope its first declaration has below the root, and any other
    node at the widest scope, [system] apart, that it has below the parents that can be
    reached, each at the scope selected for it; the edges, the root and the nodes that
    cannot be reached are left alone. *)
Theorem select_scopes_solves {RepoContext G} `{PetGraphLaws (Node.t RepoContext) G} (g : Graph G) :
  graph_ok g -> acyclic g ->
  exists g', select_scopes g = Some (Ok g') /\ graph_ok g' /\ arcs (graph g') = arcs (graph g) /\
    root g' = root g /\
    forall n w, node g n = Some w -> exists w', node g' n = Some w' /\
      Node.set_scope w (Node.scope w') = w' /\
      (below_root g n -> scope_equation g g' n w w') /\ (~ below_root g n -> w' = w).
Proof.
  intros Hg Ha. unfold select_scopes. destruct (conflict_order_ok g Hg) as (groups & -> & Ho). cbn [mbind option_bind].
  destruct (select_acyclic g groups Hg Ho Ha) as (st & -> & K & Hall). cbn [mjoin option_join mbind option_bind].
  pose proof (picked_length _ _ (k_lengths _ _ _ K)) as Hlen.
  destruct (write_scopes_ok g (picked st) Hg Hlen) as (Hg' & Hroot & Harcs & Hnode).
  exists (write_scopes g (picked st)). split_and!; [done..|]. intros n w Hw. rewrite Hnode, Hw. cbn [fmap option_fmap option_map].
  assert (n < node_count g) as Hn by (by eapply lookup_lt_Some).
  destruct (picked st !!! n) as [s|] eqn:Es.
  - exists (Node.set_scope w s). split_and!; [done|done| |].
    + intros Hb. destruct (kahn_solution g groups st n w Hg Ho Ha K Hall Hb Hw) as (s' & Es' & Heq).
      rewrite Es in Es'. by injection Es' as ->.
    + intros Hnb. assert (n ∉ order groups) as Hno by (by rewrite (order_below _ _ Ho)).
      destruct (first_scope g groups n) as [fs|] eqn:Ef.
      * rewrite (k_first _ _ _ K n Hn) in Es by (by rewrite Ef). unfold first_scope in Es.
        rewrite (bool_decide_false (n ∈ order groups)), andb_false_r in Es by done.
        pose proof (direct_edges_spec g n (ok_valid _ Hg)) as Hd.
        destruct (direct_edges g !! n) as [e|].
        -- exfalso. apply Hnb. exists (root g). split; [done|]. eexists. apply Hd.
        -- destruct (Nat.eqb_spec n (root g)) as [-> |]; [|done]. injection Es as <-.
           unfold root_scope. rewrite Hw. by destruct w.
      * exfalso. apply Hno. by apply (k_new _ _ _ K n Hn Ef); rewrite Es.
  - exists w. split_and!; [done|by destruct w| |done].
    intros Hb. exfalso. apply (k_picked _ _ _ K n Hn); [|done]. by apply Hall, Ho.
Qed.

Lemma select_scopes_ok {RepoContext G} `{PetGraphLaws (Node.t RepoContext) G} (g : Graph G) :
  graph_ok g ->
  exists r, select_scopes g = Some r /\
    forall g', r = Ok g' -> graph_ok g' /\ arcs (graph g') = arcs (graph g) /\ root g' = root g /\
      forall n w, node g n = Some w -> exists s, node g' n = Some (Node.set_scope w s).
Proof.
  intros Hg. unfold select_scopes. destruct (conflict_order_ok g Hg) as (groups & -> & Ho). cbn [mbind option_bind].
  destruct (select_loop_total g groups Hg Ho) as (r & -> & Hr). cbn [mjoin option_join mbind option_bind].
  destruct r as [st|e]; cbn; [|eexists; split; [done|by intros]].
  eexists. split; [done|]. intros g' [= <-].
  destruct (write_scopes_ok g (picked st) Hg (picked_length _ _ (proj1 Hr))) as (Hg' & Hroot & Harcs & Hnode).
  split_and!; [done..|]. intros n w Hw. rewrite Hnode, Hw. cbn.
  destruct (picked st !!! n) as [s|]; [by exists s|]. exists (Node.scope w). by destruct w.
Qed.

(** selecting scopes ends on every graph, cycles included: it gives every node a
    scope, changing nothing else, or refuses the graph because a cycle needs more
    states than the limit. *)
Theorem select_scopes_total {RepoContext G} `{PetGraphLaws (Node.t RepoContext) G} (g : Graph G) :
  graph_ok g ->
  exists r, select_scopes g = Some r /\
    forall g', r = Ok g' -> graph_ok g' /\ arcs (graph g') = arcs (graph g) /\ root g' = root g /\
      forall n w, node g n = Some w -> exists s, node g' n = Some (Node.set_scope w s).
Proof. apply select_scopes_ok. Qed.

(** ** Witnesses: the demonstration graph, and one with a cycle *)

Definition selected_scopes (g : Graph (ListGraph (Node.t unit))) : option (list Scope) :=
  match select_scopes g with Some (Ok g') => Some (map Node.scope (list_nodes (graph g'))) | _ => None end.

Definition cyclic_graph : Graph (ListGraph (Node.t unit)) := {|
  graph := {| list_nodes := map demo_node [$"root"; $"a"; $"b"; $"c"; $"d"];
              list_arcs := [(0, 1, demo_edge Runtime (Some 0%N)); (1, 2, demo_edge Compile None);
                            (2, 3, demo_edge Compile None); (3, 2, demo_edge Compile None);
                            (0, 4, demo_edge Test (Some 1%N)); (4, 3, demo_edge Compile None)] |};
  root := 0 |}.

Lemma cyclic_graph_ok : graph_ok cyclic_graph.
Proof.
  split; cbn; [repeat constructor|by apply (bool_decide_unpack _); vm_compute|lia].
Qed.

Lemma demo_acyclic : acyclic demo_graph.
Proof.
  set (rank n := match n with 0 => 0 | 2 => 1 | _ => 2 end).
  assert (forall a b, tc (linked (graph demo_graph)) a b -> rank a < rank b) as Hr.
  { intros a b Hab. induction Hab as [a b [w Hw]|a b c [w Hw] _ IH];
      unfold arcs in Hw; cbn in Hw; rewrite !elem_of_cons in Hw;
      destruct Hw as [[= -> -> ->]|[[= -> -> ->]|[[= -> -> ->]|[]%not_elem_of_nil]]]; cbn in *; lia. }
  intros n _ Hn. apply Hr in Hn. lia.
Qed.

Lemma select_scopes_solves_witness :
  selected_scopes demo_graph = Some [Compile; Test; Test] /\
  exists g', select_scopes demo_graph = Some (Ok g') /\ graph_ok g'.
Proof.
  split; [by vm_compute|].
  destruct (select_scopes_solves demo_graph demo_graph_ok demo_acyclic) as (g' & E & Hg' & _). eauto.
Defined.

Lemma select_scopes_total_witness :
  selected_scopes cyclic_graph = Some [Compile; Runtime; Runtime; Runtime; Test] /\
  exists r, select_scopes cyclic_graph = Some r.
Proof.
  split; [by vm_compute|].
  destruct (select_scopes_total cyclic_graph cyclic_graph_ok) as (r & E & _). eauto.
Defined.
