(* ===== verification/Walk.v ===== *)
(** * The walk of the solver ([Walk] of [rv-resolver/src/solver/mod.rs])

    The state of a resolution and the operations on it: groups and their candidates,
    the graph, generations, shadows, the dirty groups and the queue.  An operation that
    can fail returns a [result]; the others are functions on the state.  Allocations the
    code can tell apart, the [Arc]s of candidates and the nodes of tree orders, are
    numbered by counters of the state.  The marks of hints to the backend are left out. *)

From Stdlib Require Import Ascii String Lia.
From stdpp Require Import base list strings gmap.
From S2P Require Import Prelude Iter Str Version Range Coordinates Snapshot Dependency DepManagement Keys Queue Management Relocation Graph Mediation Load.

#[local] Set Warnings "-clear-no-such-hyp".

Definition MAX_WINNER_CHANGES : N := 256.
Definition ROOT_GENERATION : N := 1.

Section Walk.
Context `{Unicode} `{SolverBackend} (management : Management).
Context {G : Type} `{PetGraph (Node.t RepoContext) G}.

Abbreviation Failure := (ResolveError Error).
Abbreviation Item := (QueueItem RepoContext).
Abbreviation Cand := (@Candidate RepoContext RepoRef.t Project).
Abbreviation Sel := (@Selected RepoContext RepoRef.t Project).
Abbreviation Cache := (gmap (CoordText * RepoContext) (Coord.t * list Coord.t)).

Record Walk := {
  graph : Graph.Graph G;
  generations : list N;
  next_generation : N;
  selected : gmap CoordKey Sel;
  groups : gmap CoordKey CoordKey;
  declared_by : gmap nat (list CoordKey);
  shadows : gmap CoordKey (list CoordKey);
  dirty : list CoordKey;
  dirty_set : gset CoordKey;
  queue : list Item;
  next_declared_at : N;
  walk_loads : list (list Cand);
  to_confirm : list (CoordKey * Cand * nat);
  unscanned : list (CoordKey * Cand);
  relocations : Cache;
  next_arc : nat;
  next_order : nat;
}.

(** ** Assignments to one field *)

Definition set_graph (x : Graph.Graph G) (w : Walk) : Walk := {|
  graph := x; generations := generations w; next_generation := next_generation w; selected :=
  selected w; groups := groups w; declared_by := declared_by w; shadows := shadows w; dirty := dirty
  w; dirty_set := dirty_set w; queue := queue w; next_declared_at := next_declared_at w; walk_loads
  := walk_loads w; to_confirm := to_confirm w; unscanned := unscanned w; relocations := relocations
  w; next_arc := next_arc w; next_order := next_order w |}.

Definition set_selected (x : gmap CoordKey Sel) (w : Walk) : Walk := {|
  graph := graph w; generations := generations w; next_generation := next_generation w; selected :=
  x; groups := groups w; declared_by := declared_by w; shadows := shadows w; dirty := dirty w;
  dirty_set := dirty_set w; queue := queue w; next_declared_at := next_declared_at w; walk_loads :=
  walk_loads w; to_confirm := to_confirm w; unscanned := unscanned w; relocations := relocations w;
  next_arc := next_arc w; next_order := next_order w |}.

Definition set_groups (x : gmap CoordKey CoordKey) (w : Walk) : Walk := {|
  graph := graph w; generations := generations w; next_generation := next_generation w; selected :=
  selected w; groups := x; declared_by := declared_by w; shadows := shadows w; dirty := dirty w;
  dirty_set := dirty_set w; queue := queue w; next_declared_at := next_declared_at w; walk_loads :=
  walk_loads w; to_confirm := to_confirm w; unscanned := unscanned w; relocations := relocations w;
  next_arc := next_arc w; next_order := next_order w |}.

Definition set_shadows (x : gmap CoordKey (list CoordKey)) (w : Walk) : Walk := {|
  graph := graph w; generations := generations w; next_generation := next_generation w; selected :=
  selected w; groups := groups w; declared_by := declared_by w; shadows := x; dirty := dirty w;
  dirty_set := dirty_set w; queue := queue w; next_declared_at := next_declared_at w; walk_loads :=
  walk_loads w; to_confirm := to_confirm w; unscanned := unscanned w; relocations := relocations w;
  next_arc := next_arc w; next_order := next_order w |}.

Definition set_declared (x : gmap nat (list CoordKey)) (w : Walk) : Walk := {|
  graph := graph w; generations := generations w; next_generation := next_generation w; selected :=
  selected w; groups := groups w; declared_by := x; shadows := shadows w; dirty := dirty w;
  dirty_set := dirty_set w; queue := queue w; next_declared_at := next_declared_at w; walk_loads :=
  walk_loads w; to_confirm := to_confirm w; unscanned := unscanned w; relocations := relocations w;
  next_arc := next_arc w; next_order := next_order w |}.

Definition set_dirty (l : list CoordKey) (s : gset CoordKey) (w : Walk) : Walk := {|
  graph := graph w; generations := generations w; next_generation := next_generation w; selected :=
  selected w; groups := groups w; declared_by := declared_by w; shadows := shadows w; dirty := l;
  dirty_set := s; queue := queue w; next_declared_at := next_declared_at w; walk_loads := walk_loads
  w; to_confirm := to_confirm w; unscanned := unscanned w; relocations := relocations w; next_arc :=
  next_arc w; next_order := next_order w |}.

Definition set_queue (x : list Item) (w : Walk) : Walk := {|
  graph := graph w; generations := generations w; next_generation := next_generation w; selected :=
  selected w; groups := groups w; declared_by := declared_by w; shadows := shadows w; dirty := dirty
  w; dirty_set := dirty_set w; queue := x; next_declared_at := next_declared_at w; walk_loads :=
  walk_loads w; to_confirm := to_confirm w; unscanned := unscanned w; relocations := relocations w;
  next_arc := next_arc w; next_order := next_order w |}.

Definition set_loads (x : list (list Cand)) (w : Walk) : Walk := {|
  graph := graph w; generations := generations w; next_generation := next_generation w; selected :=
  selected w; groups := groups w; declared_by := declared_by w; shadows := shadows w; dirty := dirty
  w; dirty_set := dirty_set w; queue := queue w; next_declared_at := next_declared_at w; walk_loads
  := x; to_confirm := to_confirm w; unscanned := unscanned w; relocations := relocations w; next_arc
  := next_arc w; next_order := next_order w |}.

Definition set_confirm (x : list (CoordKey * Cand * nat)) (w : Walk) : Walk := {|
  graph := graph w; generations := generations w; next_generation := next_generation w; selected :=
  selected w; groups := groups w; declared_by := declared_by w; shadows := shadows w; dirty := dirty
  w; dirty_set := dirty_set w; queue := queue w; next_declared_at := next_declared_at w; walk_loads
  := walk_loads w; to_confirm := x; unscanned := unscanned w; relocations := relocations w; next_arc
  := next_arc w; next_order := next_order w |}.

Definition set_unscanned (x : list (CoordKey * Cand)) (w : Walk) : Walk := {|
  graph := graph w; generations := generations w; next_generation := next_generation w; selected :=
  selected w; groups := groups w; declared_by := declared_by w; shadows := shadows w; dirty := dirty
  w; dirty_set := dirty_set w; queue := queue w; next_declared_at := next_declared_at w; walk_loads
  := walk_loads w; to_confirm := to_confirm w; unscanned := x; relocations := relocations w;
  next_arc := next_arc w; next_order := next_order w |}.

Definition set_relocations (x : Cache) (w : Walk) : Walk := {|
  graph := graph w; generations := generations w; next_generation := next_generation w; selected :=
  selected w; groups := groups w; declared_by := declared_by w; shadows := shadows w; dirty := dirty
  w; dirty_set := dirty_set w; queue := queue w; next_declared_at := next_declared_at w; walk_loads
  := walk_loads w; to_confirm := to_confirm w; unscanned := unscanned w; relocations := x; next_arc
  := next_arc w; next_order := next_order w |}.

(** [Walk::new]. *)
Definition new_walk (g : Graph.Graph G) : Walk := {|
  graph := g; generations := [ROOT_GENERATION]; next_generation := ROOT_GENERATION + 1;
  selected := ∅; groups := ∅; declared_by := ∅; shadows := ∅; dirty := []; dirty_set := ∅;
  queue := []; next_declared_at := 0; walk_loads := []; to_confirm := []; unscanned := [];
  relocations := ∅; next_arc := 0; next_order := 0 |}.

(** [Walk::declare], whose result is the number before. *)
Definition declare_one  (w : Walk) : Walk := {|
  graph := graph w; generations := generations w; next_generation := next_generation w; selected :=
  selected w; groups := groups w; declared_by := declared_by w; shadows := shadows w; dirty := dirty
  w; dirty_set := dirty_set w; queue := queue w; next_declared_at := (next_declared_at w + 1)%N;
  walk_loads := walk_loads w; to_confirm := to_confirm w; unscanned := unscanned w; relocations :=
  relocations w; next_arc := next_arc w; next_order := next_order w |}.

(** A node takes a new generation. *)
Definition new_generation (node : nat) (w : Walk) : Walk := {|
  graph := graph w; generations := <[node := next_generation w]> (generations w); next_generation :=
  (next_generation w + 1)%N; selected := selected w; groups := groups w; declared_by := declared_by
  w; shadows := shadows w; dirty := dirty w; dirty_set := dirty_set w; queue := queue w;
  next_declared_at := next_declared_at w; walk_loads := walk_loads w; to_confirm := to_confirm w;
  unscanned := unscanned w; relocations := relocations w; next_arc := next_arc w; next_order :=
  next_order w |}.

(** [n] allocations of candidates, and one of a tree order. *)
Definition allocated (n : nat) (w : Walk) : Walk := {|
  graph := graph w; generations := generations w; next_generation := next_generation w; selected :=
  selected w; groups := groups w; declared_by := declared_by w; shadows := shadows w; dirty := dirty
  w; dirty_set := dirty_set w; queue := queue w; next_declared_at := next_declared_at w; walk_loads
  := walk_loads w; to_confirm := to_confirm w; unscanned := unscanned w; relocations := relocations
  w; next_arc := (next_arc w + n); next_order := next_order w |}.

Definition order_allocated  (w : Walk) : Walk := {|
  graph := graph w; generations := generations w; next_generation := next_generation w; selected :=
  selected w; groups := groups w; declared_by := declared_by w; shadows := shadows w; dirty := dirty
  w; dirty_set := dirty_set w; queue := queue w; next_declared_at := next_declared_at w; walk_loads
  := walk_loads w; to_confirm := to_confirm w; unscanned := unscanned w; relocations := relocations
  w; next_arc := next_arc w; next_order := S (next_order w) |}.

(** [Walk::add_node], whose result is the number of nodes before. *)
Definition add_node (n : Node.t RepoContext) (w : Walk) : Walk := {|
  graph := (Graph.insert_node (graph w) n).1; generations := generations w ++ [next_generation w];
  next_generation := (next_generation w + 1)%N; selected := selected w; groups := groups w;
  declared_by := declared_by w; shadows := shadows w; dirty := dirty w; dirty_set := dirty_set w;
  queue := queue w; next_declared_at := next_declared_at w; walk_loads := walk_loads w; to_confirm
  := to_confirm w; unscanned := unscanned w; relocations := relocations w; next_arc := next_arc w;
  next_order := next_order w |}.

(** ** Groups *)

(** [Walk::mark_dirty], [take_dirty] and [is_dirty]. *)
Definition mark_dirty (key : CoordKey) (w : Walk) : Walk :=
  if decide (key ∈ dirty_set w) then w
  else set_dirty (dirty w ++ [key]) ({[key]} ∪ dirty_set w) w.

Definition take_dirty (w : Walk) : option (CoordKey * Walk) :=
  match dirty w with
  | [] => None
  | key :: rest => Some (key, set_dirty rest (dirty_set w ∖ {[key]}) w)
  end.

Definition is_dirty (key : CoordKey) (w : Walk) : bool := bool_decide (key ∈ dirty_set w).

(** [Walk::group_of]: merged groups form a forest, so that as many steps as there are
    merges suffice. *)
Fixpoint follow_groups (fuel : nat) (gs : gmap CoordKey CoordKey) (key : CoordKey) : CoordKey :=
  match fuel, gs !! key with
  | S fuel, Some next => follow_groups fuel gs next
  | _, _ => key
  end.

Definition group_of (w : Walk) (key : CoordKey) : CoordKey := follow_groups (size (groups w)) (groups w) key.

Definition selection_of (w : Walk) (key : CoordKey) : option Sel := selected w !! group_of w key.

(** [Walk::is_live]. *)
Definition is_live (w : Walk) (it : Item) : bool :=
  match shadow it with
  | None => (generations w !!! item_parent it =? parent_generation it)%N
  | Some origin =>
    match selection_of w (shadow_group origin) with
    | Some s => bool_decide (is_Some (instance s origin))
    | None => false
    end
  end.

(** [Arc::ptr_eq], and [Walk::holds]. *)
Definition ptr_eq (a b : Cand) : bool := arc a =? arc b.

Definition holds (w : Walk) (key : CoordKey) (c : Cand) : bool :=
  is_some_and (fun s => existsb (ptr_eq c) (candidates s)) (selected w !! key).

Definition beneath_own_group (w : Walk) (path : PathNode RepoContext) (key : CoordKey) : bool :=
  if decide (groups w = ∅) then path_contains path key
  else existsb (fun k => bool_decide (group_of w k = group_of w key)) (path_keys path).

(** [Walk::mediated_before]. *)
Definition place_cmp (a b : N * TreeOrder) : comparison :=
  ord_then (N.compare a.1 b.1) (tree_cmp a.2 b.2).

Definition first_place (w : Walk) (key : CoordKey) : option (N * TreeOrder) :=
  s ← selection_of w key;
  min_by place_cmp (map (fun c => (depth (item c), order (item c))) (candidates s)).

Definition mediated_before (w : Walk) (key other : CoordKey) : bool :=
  match first_place w key, first_place w other with
  | Some a, Some b => match place_cmp a b with Lt => true | _ => false end
  | _, _ => false
  end.

(** ** Shadows *)

Definition winner_is (s : Sel) (c : Cand) : bool := is_some_and (fun won => same_candidate won c) (winner s).

(** [Walk::shadow_holds]. *)
Definition shadow_holds (w : Walk) (origin : ShadowOrigin) (key : CoordKey) : bool :=
  match selection_of w (shadow_group origin) with
  | None => false
  | Some s =>
    match instance s origin with
    | None => false
    | Some c =>
      winner_is s c || (on_winner_path s key && mediated_before w key (shadow_group origin))
    end
  end.

Inductive ShadowRole := RoleCandidate | RoleWalk | RoleDrop.

(** [Walk::shadow_role]. *)
Definition shadow_role (w : Walk) (origin : ShadowOrigin) (key target : CoordKey) : ShadowRole :=
  match selection_of w (shadow_group origin) with
  | None => RoleDrop
  | Some s =>
    match instance s origin with
    | None => RoleDrop
    | Some c =>
      let known := bool_decide (is_Some (selected w !! key)) in
      if winner_is s c then if known then RoleCandidate else RoleDrop
      else
        match on_winner_path s target, known with
        | true, true => if mediated_before w key (shadow_group origin) then RoleCandidate else RoleDrop
        | false, false => RoleWalk
        | _, _ => RoleDrop
        end
    end
  end.

(** The candidates of a group that a shadow of [group] holds up no longer, and whether
    another still does. *)
Definition stale_shadow (w : Walk) (group : CoordKey) (c : Cand) : option bool :=
  match shadow (item c) with
  | None => None
  | Some origin =>
    if decide (group_of w (shadow_group origin) = group)
    then Some (negb (shadow_holds w origin (key_of (coord c)))) else None
  end.

(** One target of [Walk::revalidate_shadows]: the walk, and the targets kept. *)
Definition revalidate_target (group : CoordKey) (st : Walk * list CoordKey) (key : CoordKey)
    : Walk * list CoordKey :=
  let '(w, kept) := st in
  let key := group_of w key in
  if decide (key ∈ kept) then (w, kept)
  else
    match selected w !! key with
    | None => (w, kept)
    | Some s =>
      let stale := List.filter (fun c => bool_decide (stale_shadow w group c = Some true)) (candidates s) in
      let live := existsb (fun c => bool_decide (stale_shadow w group c = Some false)) (candidates s) in
      let w :=
        if decide (stale = []) then w
        else
          mark_dirty key (set_selected (<[key := with_candidates s
            (List.filter (fun c => negb (existsb (fun st => ptr_eq st c) stale)) (candidates s))]>
            (selected w)) w) in
      (w, if live then kept ++ [key] else kept)
    end.

Definition revalidate_shadows (group : CoordKey) (w : Walk) : Walk :=
  match shadows w !! group with
  | None => w
  | Some targets =>
    let w := set_shadows (delete group (shadows w)) w in
    let '(w, kept) := foldl (revalidate_target group) (w, []) targets in
    if decide (kept = []) then w else set_shadows (<[group := kept]> (shadows w)) w
  end.

(** [entry(key).or_default().push(..)] on the shadows. *)
Definition push_shadow (origin key : CoordKey) (w : Walk) : Walk :=
  set_shadows (<[origin := default [] (shadows w !! origin) ++ [key]]> (shadows w)) w.

(** ** Retiring a winner *)

(** The shadow that takes the place of a declaration, in an allocation of its own. *)
Definition as_shadow (origin : ShadowOrigin) (address : nat) (c : Cand) : Cand :=
  let it := item c in {|
  arc := address;
  item := {| item_parent := item_parent it; parent_generation := parent_generation it;
     dependency := dependency it; item_managed_scope := item_managed_scope it; depth := depth it;
     order := order it; declared_at := declared_at it; item_exclusions := item_exclusions it;
     item_path := item_path it; shadow := Some origin |};
  coord := coord c; resolved_version := resolved_version c; resolved_project := resolved_project c;
  hard := hard c; source := source c; inherited := inherited c |}.

(** [retain_mut] of [Walk::retire]: the candidates kept, whether one changed, and the
    next allocation, which moved on if one was made a shadow. *)
Fixpoint retire_candidates (node : nat) (old : N) (convert : option (ShadowOrigin * PathNode RepoContext))
    (next : nat) (cs : list Cand) : list Cand * bool * nat :=
  match cs with
  | [] => ([], false, next)
  | c :: cs =>
    let it := item c in
    if bool_decide (is_Some (shadow it)) || negb (item_parent it =? node)
       || negb (parent_generation it =? old)%N
    then let '(kept, changed, final) := retire_candidates node old convert next cs in (c :: kept, changed, final)
    else
      match convert with
      | Some (origin, path) =>
        if path_contains path (key_of (coord c)) then
          let '(kept, _, final) := retire_candidates node old convert (S next) cs in
          (as_shadow origin next c :: kept, true, final)
        else let '(kept, _, final) := retire_candidates node old convert next cs in (kept, true, final)
      | None => let '(kept, _, final) := retire_candidates node old convert next cs in (kept, true, final)
      end
  end.

(** One key of [Walk::retire]: the walk, and the groups touched. *)
Definition retire_key (node : nat) (old : N) (convert : option (ShadowOrigin * PathNode RepoContext))
    (st : Walk * list CoordKey) (key : CoordKey) : Walk * list CoordKey :=
  let '(w, touched) := st in
  let key := group_of w key in
  if decide (key ∈ touched) then (w, touched)
  else
    let convert := opt_filter (fun c => mediated_before w key (shadow_group c.1)) convert in
    match selected w !! key with
    | None => (w, touched)
    | Some s =>
      let '(kept, changed, next) := retire_candidates node old convert (next_arc w) (candidates s) in
      let converted := negb (next =? next_arc w) in
      let w := allocated (next - next_arc w) (set_selected (<[key := with_candidates s kept]> (selected w)) w) in
      let w :=
        match convert with
        | Some (origin, _) =>
          if converted then push_shadow (group_of w (shadow_group origin)) key w else w
        | None => w
        end in
      (w, if changed : bool then touched ++ [key] else touched)
    end.

(** [Walk::retire]. *)
Definition retire (node : nat) (convert : option (ShadowOrigin * PathNode RepoContext)) (w : Walk) : Walk :=
  let old := generations w !!! node in
  let w := new_generation node w in
  let w := set_graph (default (graph w) (Graph.clear_outgoing (graph w) node)) w in
  let keys := default [] (declared_by w !! node) in
  let w := set_declared (delete node (declared_by w)) w in
  let '(w, touched) := foldl (retire_key node old convert) (w, []) keys in
  foldl (fun w key => mark_dirty key (revalidate_shadows key w)) w touched.

(** [Walk::drop_group]. *)
Definition drop_group (key : CoordKey) (w : Walk) : Walk :=
  match selected w !! key with
  | None => w
  | Some s =>
    let w := set_selected (delete key (selected w)) w in
    let w := set_graph (default (graph w) (Graph.clear_incoming (graph w) (node s))) w in
    revalidate_shadows key (retire (node s) None w)
  end.

(** ** Merging groups *)

Definition unsettled (s : Sel) (cs : list Cand) : Sel := {|
  node := node s; candidates := cs; winner := winner s; winner_path := winner_path s;
  scanned := scanned s; walked := walked s; dirty_checked := dirty_checked s;
  conflict := conflict s; winners := winners s; changes := changes s; settled := None |}.

(** The selection of the group merged into takes the candidates of the other; the
    node left over is retired. *)
Definition merge_selected (into : CoordKey) (moved : Sel) (w : Walk) : Walk :=
  match selected w !! into with
  | None => set_selected (<[into := moved]> (selected w)) w
  | Some s =>
    let w := set_selected (<[into := unsettled s (candidates s ++ candidates moved)]> (selected w)) w in
    let w := set_graph (default (graph w) (Graph.retarget_incoming (graph w) (node moved) (node s))) w in
    retire (node moved) None w
  end.

(** The candidates below another of their own group are dropped. *)
Definition drop_beneath (into : CoordKey) (w : Walk) : Walk :=
  match selected w !! into with
  | None => w
  | Some s =>
    let w' := set_selected (delete into (selected w)) w in
    set_selected (<[into := with_candidates s
      (List.filter (fun c => negb (beneath_own_group w' (item_path (item c)) into)) (candidates s))]> (selected w)) w
  end.

(** [Walk::union]. *)
Definition union_groups (from_key target : CoordKey) (w : Walk) : Walk :=
  let into := group_of w from_key in
  let from := group_of w target in
  if decide (into = from) then w
  else
    let w := set_groups (<[from := into]> (groups w)) w in
    let w :=
      match shadows w !! from with
      | None => w
      | Some moved =>
        let rest := delete from (shadows w) in
        set_shadows (<[into := default [] (rest !! into) ++ moved]> rest) w
      end in
    match selected w !! from with
    | None => w
    | Some moved =>
      let w := set_selected (delete from (selected w)) w in
      mark_dirty into (drop_beneath into (merge_selected into moved w))
    end.

(** ** Queueing what a candidate declares *)

Definition limit_text (l : limit) : str :=
  match l with
  | QueuedAtOnce => $"declarations queued at once"
  | LevelsOfDepth => $"levels of depth"
  | Declarations => $"declarations"
  | StatesGathering => $"states gathering a cycle's scope"
  end.

Definition limit_failure (e : GraphLimitExceeded) : Failure :=
  LimitExceeded (limit_text (what e)) (limit_value e) (limit_coord e).

(** [push_queue] on the queue of the walk. *)
Definition push_item (it : Item) (w : Walk) : result Failure Walk :=
  q ← map_err limit_failure (push_queue (queue w) it);
  Ok (set_queue q w).

(** A declaration with the version the declaring artifact's own management gives it. *)
Definition child_dependency (project : Project) (d : Dependency) : Dependency :=
  match version d with
  | Some _ => d
  | None => {|
      group_id := group_id d; artifact_id := artifact_id d;
      version := managed_child_version (project_management project) d;
      type_ := type_ d; classifier := classifier d; scope := scope d; optional := optional d;
      exclusions := exclusions d; system_path := system_path d |}
  end.

(** Queue one declaration below [of]: its number and its order are new. *)
Definition queue_child (parent : nat) (generation : N) (above : Item) (path : PathNode RepoContext)
    (excluded : list ExclusionKey) (origin : option ShadowOrigin) (index : nat) (d : Dependency) (w : Walk)
    : result Failure Walk :=
  let it := {|
    item_parent := parent; parent_generation := generation; dependency := d; item_managed_scope := false;
    depth := depth above + 1; order := child (next_order w) (order above) (N.of_nat index);
    declared_at := next_declared_at w; item_exclusions := excluded; item_path := path; shadow := origin |} in
  push_item it (order_allocated (declare_one w)).

(** The path below a candidate. *)
Definition path_below (c : Cand) (repos : RepoContext) : PathNode RepoContext :=
  path_extend (item_path (item c)) (coord c) (resolved (resolved_version c)) repos.

Definition below_exclusions (c : Cand) : list ExclusionKey :=
  extend_exclusions (item_exclusions (item c)) (exclusions (dependency (item c))).

Fixpoint queue_all (parent : nat) (generation : N) (c : Cand) (path : PathNode RepoContext) (project : Project)
    (origin : option ShadowOrigin) (index : nat) (ds : list Dependency) (w : Walk) : result Failure Walk :=
  match ds with
  | [] => Ok w
  | d :: ds =>
    w ← queue_child parent generation (item c) path (below_exclusions c) origin index
          (child_dependency project d) w;
    queue_all parent generation c path project origin (S index) ds w
  end.

(** [Walk::queue_children]. *)
Definition queue_children (c : Cand) (parent : nat) (generation : N) (origin : option ShadowOrigin) (w : Walk)
    : result Failure Walk :=
  if negb (follows (dependency (item c))) then Ok w
  else
    match resolved_project c with
    | None => Ok w
    | Some project =>
      let repos := extend_repo_context (path_repos (item_path (item c))) (coord c) project in
      queue_all parent generation c (path_below c repos) project origin 0 (project_dependencies project) w
    end.

(** [Walk::queue_shadow]: below the root, at generation 0. *)
Definition queue_shadow (c : Cand) (project : Project) (index : nat) (d : Dependency) (origin : ShadowOrigin)
    (w : Walk) : result Failure Walk :=
  if negb (follows (dependency (item c))) then Ok w
  else
    let repos := extend_repo_context (path_repos (item_path (item c))) (coord c) project in
    queue_child (Graph.root (graph w)) 0 (item c) (path_below c repos) (below_exclusions c) (Some origin)
      index (child_dependency project d) w.

(** A loop over a list whose body can fail. *)
Fixpoint each {A S} (f : A -> S -> result Failure S) (l : list A) (s : S) : result Failure S :=
  match l with
  | [] => Ok s
  | a :: l => s ← f a s; each f l s
  end.

(** [filter(|c| set.insert(c.item.declared_at))]: the first of each declaration not in
    the set yet. *)
Fixpoint insert_declared (seen : gset N) (cs : list Cand) : list Cand * gset N :=
  match cs with
  | [] => ([], seen)
  | c :: cs =>
    if decide (declared_at (item c) ∈ seen) then insert_declared seen cs
    else let '(kept, seen) := insert_declared ({[declared_at (item c)]} ∪ seen) cs in (c :: kept, seen)
  end.

Definition with_scanned (s : Sel) (scanned walked : gset N) : Sel := {|
  node := node s; candidates := candidates s; winner := winner s; winner_path := winner_path s;
  scanned := scanned; walked := walked; dirty_checked := dirty_checked s;
  conflict := conflict s; winners := winners s; changes := changes s; settled := settled s |}.

Definition origin_of (key : CoordKey) (c : Cand) : ShadowOrigin :=
  {| shadow_group := key; Queue.instance := declared_at (item c); shadow_coord := coord c |}.

(** A declaration of a loser that [Walk::scan_losers] takes up. *)
Definition scanned_dependency (key : CoordKey) (path : PathNode RepoContext) (loser : Cand) (w : Walk)
    (d : Dependency) : bool :=
  let target := dependency_key d in
  existsb (fun k => bool_decide (key_group_id k = group_id d) && bool_decide (key_artifact_id k = artifact_id d))
    (path_keys path)
  && path_contains path target
  && mediated_before w target key
  && negb (path_contains (path_below loser (path_repos (item_path (item loser)))) target)
  && is_followed_transitively d
  && negb (is_excluded d (below_exclusions loser)).

Definition scan_loser (key : CoordKey) (path : PathNode RepoContext) (loser : Cand) (w : Walk)
    : result Failure Walk :=
  match resolved_project loser with
  | None => Ok w
  | Some project =>
    each (fun '(index, d) w =>
        if scanned_dependency key path loser w d
        then queue_shadow loser project index d (origin_of key loser) w else Ok w)
      (imap pair (project_dependencies project)) w
  end.

(** [Walk::scan_losers]. *)
Definition scan_losers (key : CoordKey) (from : nat) (w : Walk) : result Failure Walk :=
  match selected w !! key with
  | None => Ok w
  | Some s =>
    match winner s, winner_path s with
    | Some won, Some path =>
      let '(losers, seen) := insert_declared (scanned s)
        (List.filter (fun c => bool_decide (shadow (item c) = None) && bool_decide (is_Some (resolved_project c))
                               && follows (dependency (item c)) && negb (same_candidate c won))
          (drop from (candidates s))) in
      let w := set_selected (<[key := with_scanned s seen (walked s)]> (selected w)) w in
      each (scan_loser key path) losers w
    | _, _ => Ok w
    end
  end.

(** ** Below what the winner excludes *)

(** The derived order of keys, for the sort of [Walk::walk_excluded_dependencies]. *)
Definition key_cmp (a b : CoordKey) : comparison :=
  ord_then (str_cmp (key_group_id a) (key_group_id b))
 (ord_then (str_cmp (key_artifact_id a) (key_artifact_id b))
 (ord_then (opt_cmp str_cmp (key_packaging a) (key_packaging b))
           (opt_cmp str_cmp (key_classifier a) (key_classifier b)))).

Definition walk_loser (key : CoordKey) (excluded : list ExclusionKey) (project : Project) (loser : Cand)
    (st : Walk * bool) : result Failure (Walk * bool) :=
  each (fun '(index, d) '(w, queued) =>
      let target := dependency_key d in
      if negb (is_followed_transitively d) || negb (is_excluded d excluded)
         || is_excluded d (below_exclusions loser)
         || path_contains (path_below loser (path_repos (item_path (item loser)))) target
         || bool_decide (is_Some (selection_of w target))
      then Ok (w, queued)
      else w ← queue_shadow loser project index d (origin_of key loser) w; Ok (w, true))
    (imap pair (project_dependencies project)) st.

Definition walk_group (key : CoordKey) (st : Walk * bool) : result Failure (Walk * bool) :=
  let '(w, queued) := st in
  match selected w !! key with
  | None => Ok st
  | Some s =>
    match winner s with
    | None => Ok st
    | Some won =>
      let excluded := below_exclusions won in
      match resolved_project won with
      | None => Ok st
      | Some project =>
        if decide (excluded = []) then Ok st
        else
          let '(losers, seen) := insert_declared (walked s)
            (List.filter (fun c => bool_decide (shadow (item c) = None) && same_text (coord c) (coord won)
                                   && follows (dependency (item c)) && negb (same_candidate c won))
              (candidates s)) in
          let w := set_selected (<[key := with_scanned s (scanned s) seen]> (selected w)) w in
          each (walk_loser key excluded project) losers (w, queued)
      end
    end
  end.

(** [Walk::walk_excluded_dependencies]: whether anything was queued. *)
Definition walk_excluded_dependencies (w : Walk) : result Failure (Walk * bool) :=
  let keys := sort_by (fun a b => match key_cmp a b with Gt => false | _ => true end)
                (map fst (map_to_list (selected w))) in
  each walk_group keys (w, false).

(** ** Cycles of the workspace *)

(** [Walk::workspace_dependency_cycle]: the modules up the path, to the one named. *)
Fixpoint module_cycle (w : Walk) (module : str) (seen : list str) (p : PathNode RepoContext) : option str :=
  let 'Path key _ parent _ _ := p in
  index ← match parent with
          | None => Some (Graph.root (graph w))
          | Some _ => node <$> selection_of w key
          end;
  n ← Graph.node (graph w) index;
  m ← Node.workspace_module n;
  let seen := (Coord.group_id (Node.coord n) ++ $":" ++ Coord.artifact_id (Node.coord n)) :: seen in
  if decide (m = module) then Some (join $" -> " (seen ++ take 1 seen))
  else match parent with Some up => module_cycle w module seen up | None => None end.

Definition refuse_cycle (c : Cand) (w : Walk) : result Failure unit :=
  match shadow (item c), resolved_project c ≫= workspace_module with
  | None, Some module =>
    match module_cycle w module [] (item_path (item c)) with
    | Some cycle => Err (WorkspaceDependencyCycle cycle)
    | None => Ok ()
    end
  | _, _ => Ok ()
  end.

(** ** Adding a resolution *)

(** The candidates of a resolution, lowest version first, each in its [Arc]. *)
Definition new_candidates (first : nat) (r : Resolution) : list Cand :=
  let c := res_candidate r in
  imap (fun position v => {|
      arc := first + position; item := item c; coord := with_version (coord c) (resolved v);
      resolved_version := v;
      resolved_project := if decide (effective_scope (dependency (item c)) = System)
                          then resolved_project c else None;
      hard := hard c; source := removelast (source c) ++ [position]; inherited := inherited c |})
    (alternatives r)
  ++ [{| arc := first + length (alternatives r); item := item c; coord := coord c;
         resolved_version := resolved_version c; resolved_project := resolved_project c;
         hard := hard c; source := source c; inherited := inherited c |}].

Definition same_order (a b : Item) : bool := is_eq (tree_cmp (order a) (order b)).

(** How a declaration joins a group that is there: [None] for a shadow already in it;
    else the selection, and where the new candidates only have to be scanned, from
    which place on and after which was confirmed. *)
Definition join_group (it : Item) (cs : list Cand) (s : Sel) : option (Sel * option (nat * option Cand)) :=
  let before := length (candidates s) in
  if bool_decide (is_Some (shadow it)) then
    if existsb (fun c => same_order (item c) it) (candidates s) then None
    else Some (with_candidates s (candidates s ++ cs), None)
  else
    let kept := List.filter (fun c => bool_decide (shadow (item c) = None) || negb (same_order (item c) it))
                  (candidates s) in
    match winner s, settled s with
    | Some won, Some state =>
      if (length kept =? before) && behind_settled won cs then
        let '(lowest, state) := lowest_rejecting state cs in
        Some ({| node := node s; candidates := kept ++ cs; winner := winner s; winner_path := winner_path s;
                 scanned := scanned s; walked := walked s; dirty_checked := dirty_checked s;
                 conflict := conflict s; winners := winners s; changes := changes s;
                 settled := Some state |}, Some (before, lowest))
      else Some (with_candidates s (kept ++ cs), None)
    | _, _ => Some (with_candidates s (kept ++ cs), None)
    end.

(** The node of a new group, before it has a winner. *)
Definition new_node (c : Coord.t) (s : Scope) : Node.t RepoContext := {|
  Node.coord := c; Node.scope := s; Node.repo_url := None; Node.build_repo := None; Node.repos := no_repos;
  Node.checksum := None; Node.workspace_module := None; Node.local := false; Node.system_path := None;
  Node.winner_parent := None |}.

(** What is left to do for a declaration that joined its group. *)
Definition after_joining (key : CoordKey) (settled : option (nat * option Cand)) (w : Walk)
    : result Failure Walk :=
  match settled with
  | Some (from, lowest) =>
    if is_dirty key w then Ok (mark_dirty key w)
    else
      match lowest with
      | None =>
        let is_dirty := is_some_and (fun s =>
          is_some_and (fun won => negb (bool_decide (dirty_ranges s won = []))) (winner s)) (selected w !! key) in
        if is_dirty then Ok (mark_dirty key w) else scan_losers key from w
      | Some c => Ok (set_confirm (to_confirm w ++ [(key, c, from)]) w)
      end
  | None => Ok (mark_dirty key w)
  end.

(** The edge of a declaration, or the group its shadow is noted for. *)
Definition record_declaration (it : Item) (key : CoordKey) (n : nat) (w : Walk) : Walk :=
  match shadow it with
  | None =>
    let w := set_graph (Graph.add_edge (graph w) (item_parent it) n (edge it)).1 w in
    set_declared (<[item_parent it := default [] (declared_by w !! item_parent it) ++ [key]]> (declared_by w)) w
  | Some origin => push_shadow (group_of w (shadow_group origin)) key w
  end.

(** The candidates join their group, which may be new. *)
Definition enter_group (it : Item) (key : CoordKey) (cs : list Cand) (w : Walk) : result Failure Walk :=
  match selected w !! key with
  | Some s =>
    match join_group it cs s with
    | None => Ok w
    | Some (s, settled) =>
      let w := set_selected (<[key := s]> (selected w)) w in
      after_joining key settled (record_declaration it key (node s) w)
    end
  | None =>
    if bool_decide (is_Some (shadow it)) then Ok w
    else
      match last cs with
      | None => Ok w
      | Some c =>
        let n := Graph.node_count (graph w) in
        let w := add_node (new_node (coord c) (effective_scope (dependency (item c)))) w in
        let w := set_selected (<[key := new_selected n cs]> (selected w)) w in
        after_joining key None (record_declaration it key n w)
      end
  end.

(** The candidates of a declaration that is not cut: a shadow may be a candidate, a step
    of a walk, or nothing. *)
Definition place_candidates (it : Item) (key target : CoordKey) (cs : list Cand) (w : Walk)
    : result Failure Walk :=
  let role := match shadow it with Some origin => shadow_role w origin key target | None => RoleCandidate end in
  match role, last cs with
  | RoleDrop, _ => Ok w
  | RoleWalk, Some highest =>
    if decide (is_Some (resolved_project highest))
    then queue_children highest (Graph.root (graph w)) 0 (shadow it) w
    else Ok (set_loads (cs :: walk_loads w) w)
  | RoleCandidate, Some highest =>
    let w :=
      if (1 <? length cs) && bool_decide (resolved_project highest = None)
      then set_unscanned (unscanned w ++ [(key, highest)]) w else w in
    enter_group it key cs w
  | _, None => Ok w
  end.

(** [Walk::add_resolution]. *)
Definition add_resolution (r : Resolution) (w : Walk) : result Failure Walk :=
  let c := res_candidate r in
  let it := item c in
  let target := key_of (coord c) in
  _ ← refuse_cycle c w;
  let cyclic := path_contains (item_path it) target in
  let w := foldl (fun w alias => union_groups alias target w) w (if cyclic then inherited c else aliases r) in
  if cyclic || beneath_own_group w (item_path it) target then
    match shadow it, selection_of w target with
    | None, Some s => Ok (set_graph (Graph.add_edge (graph w) (item_parent it) (node s) (edge it)).1 w)
    | _, _ => Ok w
    end
  else
    let cs := new_candidates (next_arc w) r in
    place_candidates it (group_of w target) target cs (allocated (length cs) w).

(** [Walk::pending]: the place of a candidate that waits for its confirmation. *)
Definition pending_at (w : Walk) (key : CoordKey) (c : Cand) (from : nat) : option nat :=
  if is_dirty key w then None
  else
    s ← selected w !! key;
    if decide (is_Some (settled s)) then
      if from <=? length (candidates s) then
        '(index, _) ← list_find (fun c' => ptr_eq c' c) (drop from (candidates s));
        Some (from + index)
      else None
    else None.

(** A candidate gives way to what it relocated to, and with it, where it [stops] its
    declaration, the higher versions of the declaration. *)
Definition give_way (key : CoordKey) (s : Sel) (best : Cand) (stops : bool) (w : Walk) : Walk :=
  let kept := List.filter (fun c => negb (ptr_eq c best)
      && (negb stops || negb (declared_at (item c) =? declared_at (item best))%N
          || source_ltb (source c) (source best))) (candidates s) in
  let remaining := existsb (fun c => (declared_at (item c) =? declared_at (item best))%N) kept in
  let w := set_selected (<[key := with_candidates s kept]> (selected w)) w in
  let w :=
    if bool_decide (shadow (item best) = None) && negb remaining
    then set_graph (Graph.remove_edge (graph w) (item_parent (item best)) (node s) (edge (item best))) w
    else w in
  mark_dirty key (revalidate_shadows key w).

(** [Walk::apply_load]. *)
Definition apply_load (key : CoordKey) (best : Cand) (loaded : Load) (w : Walk) : result Failure Walk :=
  match selected w !! key with
  | None => Ok w
  | Some s =>
    match loaded with
    | Ready c =>
      let c := {| arc := next_arc w; item := item c; coord := coord c; resolved_version := resolved_version c;
                  resolved_project := resolved_project c; hard := hard c; source := source c;
                  inherited := inherited c |} in
      Ok (allocated 1 (set_selected (<[key := with_candidates s
        (map (fun c' => if ptr_eq c' best then c else c') (candidates s))]> (selected w)) w))
    | Relocated r => add_resolution r (give_way key s best true w)
    | Cyclic r => add_resolution r (give_way key s best false w)
    | Excluded => Ok (give_way key s best true w)
    end
  end.

(** ** A new winner *)

(** What the node takes over from its winner. *)
Definition winner_node (c : Cand) (project : Project) (n : Node.t RepoContext) : Node.t RepoContext :=
  let local := bool_decide (effective_scope (dependency (item c)) = System) in
  let build_repo := if local then None else repo (resolved_version c) in {|
  Node.coord := with_version (coord c) (resolved (resolved_version c));
  Node.scope := effective_scope (dependency (item c));
  Node.repo_url :=
    if local then None
    else match build_repo with Some r => Some (RepoRef.url r) | None => project_repo_url project end;
  Node.build_repo := build_repo;
  Node.repos := path_repos (item_path (item c));
  Node.checksum := Node.checksum n;
  Node.workspace_module := workspace_module project;
  Node.local := local;
  Node.system_path := system_path (dependency (item c));
  Node.winner_parent := match shadow (item c) with None => Some (item_parent (item c)) | Some _ => None end |}.

(** The equality of two winners in [winners]. *)
Definition same_winner (a b : TreeOrder * str) : bool := is_eq (tree_cmp a.1 b.1) && bool_decide (a.2 = b.2).

(** [Walk::commit]. *)
Definition commit (key : CoordKey) (won : Cand) (w : Walk) : result Failure Walk :=
  _ ← refuse_cycle won w;
  match selected w !! key, resolved_project won with
  | Some s, Some project =>
    let mark := (order (item won), Coord.display (coord won)) in
    let came_back := existsb (same_winner mark) (winners s) in
    let changes := if came_back then (changes s + 1)%N else changes s in
    if (MAX_WINNER_CHANGES <? changes)%N
    then Err (MediationDiverged (Coord.group_id (coord won) ++ $":" ++ Coord.artifact_id (coord won)) MAX_WINNER_CHANGES)
    else
      let repos := extend_repo_context (path_repos (item_path (item won))) (coord won) project in
      let path := path_below won repos in
      let convert :=
        previous ← winner s;
        c ← instance_of s previous;
        Some (origin_of key c, path) in
      let s := {| node := node s; candidates := candidates s; winner := Some won; winner_path := Some path;
                  scanned := ∅; walked := ∅; dirty_checked := ∅; conflict := conflict s;
                  winners := if came_back then winners s else mark :: winners s; changes := changes;
                  settled := settled s |} in
      let w := retire (node s) convert (set_selected (<[key := s]> (selected w)) w) in
      let generation := generations w !!! node s in
      let w := set_graph (Graph.update_node (graph w) (node s) (winner_node won project)) w in
      queue_children won (node s) generation None (revalidate_shadows key w)
  | _, _ => Ok w
  end.
End Walk.
