(* ===== verification/WalkInv.v ===== *)
(** * Invariants of the walk ([Walk] of [rv-resolver/src/solver/mod.rs])

    What holds of the state between any two operations of [Walk]: merged groups form a
    forest, the selections are those of its roots, each with a node of its own, every
    edge of the graph ends at the node of a selection, and what a group holds is in the
    group its coordinates name; and what no operation undoes: groups only merge, the
    graph only grows, and a selection that is not marked dirty keeps its winner, which
    every constraint that was added since accepts.  This file has the assignments to
    the state and the retiring of winners, [WalkOps.v] the other operations. *)

From Stdlib Require Import Ascii String Lia.
From stdpp Require Import base list strings gmap.
From S2P Require Import Prelude Iter Str Version Range Coordinates Snapshot Dependency DepManagement Keys Queue Management Relocation Graph Mediation Load Walk.

#[local] Set Warnings "-clear-no-such-hyp".

(** ** Merged groups *)

(** Following the merges ends within as many steps as there are. *)
Definition rep (gs : gmap CoordKey CoordKey) (k : CoordKey) : CoordKey := follow_groups (size gs) gs k.

Definition forest (gs : gmap CoordKey CoordKey) : Prop := forall k, gs !! rep gs k = None.

Lemma rep_root gs k : gs !! k = None -> rep gs k = k.
Proof. unfold rep. intros E. destruct (size gs); cbn; by rewrite ?E. Qed.

Lemma follow_union gs from into n k :
  gs !! from = None -> gs !! into = None -> from <> into -> gs !! follow_groups n gs k = None ->
  follow_groups (S n) (<[from := into]> gs) k =
    if decide (follow_groups n gs k = from) then into else follow_groups n gs k.
Proof.
  intros Hf Hi Hne. revert k. induction n as [|n IH]; intros k Hend.
  - cbn [follow_groups] in *. destruct (decide (k = from)) as [-> |Hk].
    + by rewrite lookup_insert_eq.
    + by rewrite lookup_insert_ne, Hend by done.
  - remember (S n) as m. cbn [follow_groups]. subst m. cbn [follow_groups] in Hend |- *.
    destruct (gs !! k) as [next|] eqn:Ek.
    + rewrite lookup_insert_ne, Ek by congruence. by apply IH.
    + destruct (decide (k = from)) as [-> |Hk].
      * rewrite lookup_insert_eq. cbn [follow_groups]. by rewrite lookup_insert_ne, Hi by done.
      * by rewrite lookup_insert_ne, Ek by done.
Qed.

(** The union of two groups: what was in the one is in the other. *)
Lemma rep_union gs from into k :
  forest gs -> gs !! from = None -> gs !! into = None -> from <> into ->
  rep (<[from := into]> gs) k = if decide (rep gs k = from) then into else rep gs k.
Proof.
  intros Hf Hfrom Hinto Hne. unfold rep at 1. rewrite map_size_insert_None by done.
  apply follow_union; [done..|apply Hf].
Qed.

Lemma forest_union gs from into :
  forest gs -> gs !! from = None -> gs !! into = None -> from <> into -> forest (<[from := into]> gs).
Proof.
  intros Hf Hfrom Hinto Hne k. rewrite rep_union by done.
  destruct (decide (rep gs k = from)); rewrite lookup_insert_ne; auto.
Qed.

(** Groups that only merge. *)
Definition coarser (gs gs' : gmap CoordKey CoordKey) : Prop :=
  forall k k', rep gs k = rep gs k' -> rep gs' k = rep gs' k'.

#[export] Instance coarser_preorder : PreOrder coarser.
Proof. split; [by intros gs k k'|]. intros a b c Hab Hbc k k' E. auto. Qed.

Section Invariant.
Context `{Unicode} `{SolverBackend} {G : Type} `{PetGraphLaws (Node.t RepoContext) G}.

Abbreviation Failure := (ResolveError Error).
Abbreviation Item := (QueueItem RepoContext).
Abbreviation Cand := (@Candidate RepoContext RepoRef.t Project).
Abbreviation Sel := (@Selected RepoContext RepoRef.t Project).
Abbreviation W := (@Walk _ G).
Abbreviation graph_arcs g := (arcs (Graph.graph g)).
Abbreviation nodes g := (Graph.node_count g).

(** ** The invariant *)

(** An item whose parent is a node. *)
Definition item_ok (g : Graph.Graph G) (it : Item) : Prop := item_parent it < nodes g.

(** A candidate of the group of [k]. *)
Definition cand_ok (g : Graph.Graph G) (gs : gmap CoordKey CoordKey) (k : CoordKey) (c : Cand) : Prop :=
  rep gs (key_of (coord c)) = rep gs k /\ item_ok g (item c).

Record core_ok (g : Graph.Graph G) (sel : gmap CoordKey Sel) (gs : gmap CoordKey CoordKey) : Prop := {
  core_graph : graph_ok g;
  core_forest : forest gs;
  core_rep k s : sel !! k = Some s -> gs !! k = None;
  core_node k s : sel !! k = Some s -> node s < nodes g /\ node s <> Graph.root g;
  core_distinct k k' s s' : sel !! k = Some s -> sel !! k' = Some s' -> node s = node s' -> k = k';
  core_target a b e : (a, b, e) ∈ graph_arcs g -> exists k s, sel !! k = Some s /\ node s = b;
  core_cand k s c : sel !! k = Some s -> c ∈ candidates s -> cand_ok g gs k c;
  core_named k s n : sel !! k = Some s -> Graph.node g (node s) = Some n -> rep gs (key_of (Node.coord n)) = k;
}.

(** The candidates of the selections. *)
Definition pool (w : W) (c : Cand) : Prop := exists k s, selected w !! k = Some s /\ c ∈ candidates s.

(** An allocation the state knows: a candidate of a selection in the same [Arc] has the
    same constraint. *)
Definition arc_ok (w : W) (c : Cand) : Prop :=
  arc c < next_arc w /\ cand_wf c /\ forall c', pool w c' -> arc c' = arc c -> hard c' = hard c.

(** A candidate in hand. *)
Definition held (w : W) (k : CoordKey) (c : Cand) : Prop := cand_ok (graph w) (groups w) k c /\ arc_ok w c.

Record walk_ok (w : W) : Prop := {
  walk_core : core_ok (graph w) (selected w) (groups w);
  walk_generations : length (generations w) = nodes (graph w);
  walk_fresh : Forall (fun g => (g < next_generation w)%N) (generations w);
  walk_dirty : NoDup (dirty w) /\ (forall k, k ∈ dirty_set w <-> k ∈ dirty w);
  walk_queue : Forall (item_ok (graph w)) (queue w);
  walk_probes : Forall (Forall (fun c => item_ok (graph w) (item c) /\ cand_wf c)) (walk_loads w);
  walk_confirm : Forall (fun x => held w x.1.1 x.1.2) (to_confirm w);
  walk_unscanned : Forall (fun x => held w x.1 x.2) (unscanned w);
  walk_arcs c : pool w c -> arc_ok w c;
}.

(** A key of one of the groups left out. *)
Definition exempt (X : CoordKey -> Prop) (w : W) (k : CoordKey) : Prop :=
  exists e, X e /\ rep (groups w) k = rep (groups w) e.

(** A selection that keeps its winner, which accepts each constraint added to it. *)
Record calm (s s' : Sel) : Prop := {
  calm_winner : winner s' = winner s;
  calm_conflict : conflict s' = conflict s;
  calm_hard c h : c ∈ candidates s' -> hard c = Some h ->
    (exists c0, c0 ∈ candidates s /\ hard c0 = Some h) \/ (exists won, winner s = Some won /\ accepts h won = true);
}.

(** A selection that keeps its node, the coordinate of it, and the coordinate of its
    winner. *)
Definition same_label (w w' : W) (k : CoordKey) (s' : Sel) (won' : Cand) : Prop :=
  exists k0 s won, selected w !! k0 = Some s /\ rep (groups w') k0 = rep (groups w') k /\ node s' = node s /\
    winner s = Some won /\ coord_text (coord won) = coord_text (coord won') /\
    Graph.node (graph w') (node s) = Graph.node (graph w) (node s).

(** What no operation undoes, outside the groups [X] for constraints and [L] for
    coordinates. *)
Record grows (X L : CoordKey -> Prop) (w w' : W) : Prop := {
  grows_nodes : nodes (graph w) <= nodes (graph w');
  grows_root : Graph.root (graph w') = Graph.root (graph w);
  grows_groups : coarser (groups w) (groups w');
  grows_arcs : next_arc w <= next_arc w';
  grows_pool c : pool w' c -> pool w c \/ next_arc w <= arc c;
  grows_selected k s' : selected w' !! k = Some s' ->
    exempt X w' k \/ k ∈ dirty_set w' \/
    (k ∉ dirty_set w /\ exists s, selected w !! k = Some s /\ calm s s');
  grows_label k s' won' : selected w' !! k = Some s' -> winner s' = Some won' ->
    exempt L w' k \/ same_label w w' k s' won';
}.

Lemma exempt_coarser X (w w' : W) k :
  coarser (groups w) (groups w') -> exempt X w k -> exempt X w' k.
Proof. intros Hc (e & He & E). exists e. split; [done|by apply Hc]. Qed.

Lemma calm_refl s : calm s s.
Proof. split; eauto. Qed.

Lemma calm_trans a b c : calm a b -> calm b c -> calm a c.
Proof.
  intros [W1 C1 Hh1] [W2 C2 Hh2]. split; [congruence..|]. intros x h Hx Hh.
  destruct (Hh2 x h Hx Hh) as [(x0 & Hx0 & Hh0)|(won & Hw & Ha)]; [by eapply Hh1|]. right. exists won.
  split; [congruence|done].
Qed.

(** Selections that do not change. *)
Lemma selected_refl X (w w' : W) k s' :
  selected w' !! k = Some s' -> selected w !! k = Some s' -> (forall k, k ∈ dirty_set w -> k ∈ dirty_set w') ->
  exempt X w' k \/ k ∈ dirty_set w' \/ (k ∉ dirty_set w /\ exists s, selected w !! k = Some s /\ calm s s').
Proof.
  intros E E0 Hd. right. destruct (decide (k ∈ dirty_set w)) as [Hk|Hk]; [left; by apply Hd|right].
  split; [done|]. exists s'. split; [done|apply calm_refl].
Qed.

#[export] Instance grows_preorder X L : PreOrder (grows X L).
Proof.
  split.
  - intros w. split; try done; [by left| |].
    + intros k s' E. by eapply selected_refl.
    + intros k s' won' E Hw. right. exists k, s', won'. done.
  - intros a b c [N1 R1 C1 A1 P1 S1 B1] [N2 R2 C2 A2 P2 S2 B2]. split; [lia|congruence|by etrans|lia|..].
    + intros x [Hx|?]%P2; [|right; lia]. by apply P1.
    + intros k s' E. destruct (S2 k s' E) as [?|[?|(Hd & s & Es & Hc)]]; [auto..|].
      destruct (S1 k s Es) as [Hx|[?|(Hd' & s0 & E0 & Hc0)]]; [left; by eapply exempt_coarser|done|].
      right; right. split; [done|]. exists s0. split; [done|by eapply calm_trans].
    + intros k s' won' E Hw. destruct (B2 k s' won' E Hw) as [?|(k0 & s & won & Es & Ek & En & Ew & Et & Eg)]; [by left|].
      destruct (B1 k0 s won Es Ew) as [(e & He & Ee)|(k1 & s0 & won0 & E0 & Ek0 & En0 & Ew0 & Et0 & Eg0)].
      * left. exists e. split; [done|]. rewrite <-Ek. by apply C2.
      * right. exists k1, s0, won0. split_and!; [done|by rewrite <-Ek; apply C2|congruence|done|congruence|].
        rewrite <-Eg0, <-En0. done.
Qed.

(** An operation that keeps the invariant. *)
Definition keeps_but (X L : CoordKey -> Prop) (w w' : W) : Prop := walk_ok w' /\ grows X L w w'.

Definition keeps_but_ok X L (w : W) (r : result Failure W) : Prop :=
  match r with Ok w' => keeps_but X L w w' | Err _ => True end.

Section Rules.
Context {X L : CoordKey -> Prop}.
Abbreviation keeps := (keeps_but X L).
Abbreviation keeps_ok := (keeps_but_ok X L).

Lemma keeps_refl w : walk_ok w -> keeps w w.
Proof. by split. Qed.

Lemma keeps_trans w w' w'' : keeps w w' -> (walk_ok w' -> keeps w' w'') -> keeps w w''.
Proof. intros [K G1] HK. destruct (HK K) as [K' G2]. split; [done|by etrans]. Qed.

Lemma keeps_ok_trans w w' r : keeps w w' -> (walk_ok w' -> keeps_ok w' r) -> keeps_ok w r.
Proof. intros K HK. destruct r; [|done]. cbn in *. eapply keeps_trans; eauto. Qed.

Lemma keeps_ok_then w w' r : keeps w w' -> (keeps w w' -> keeps_ok w' r) -> keeps_ok w r.
Proof. intros K HK. eapply keeps_ok_trans; [done|]. by intros _; apply HK. Qed.

Lemma keeps_ok_bind w (r : result Failure W) f :
  keeps_ok w r -> (forall w', keeps w w' -> keeps_ok w' (f w')) -> keeps_ok w (r ≫= f).
Proof.
  intros Hr Hf. destruct r as [w'|]; [|done]. cbn in *.
  eapply keeps_ok_trans; [done|]. intros _. by apply Hf.
Qed.

Lemma cand_grows w w' k c :
  grows X L w w' -> cand_ok (graph w) (groups w) k c -> cand_ok (graph w') (groups w') k c.
Proof. intros Hg [E I]. split; [by apply Hg|]. unfold item_ok in *. pose proof (grows_nodes _ _ _ _ Hg). lia. Qed.

Lemma item_grows w w' it : grows X L w w' -> item_ok (graph w) it -> item_ok (graph w') it.
Proof. intros Hg I. unfold item_ok in *. pose proof (grows_nodes _ _ _ _ Hg). lia. Qed.

Lemma arc_grows w w' c : grows X L w w' -> arc_ok w c -> arc_ok w' c.
Proof.
  intros Hg (Ha & Hw & Hp). pose proof (grows_arcs _ _ _ _ Hg). split_and!; [lia|done|].
  intros c' [Hc|Hc]%(grows_pool _ _ _ _ Hg) E; [by apply Hp|lia].
Qed.

Lemma held_grows w w' k c : grows X L w w' -> held w k c -> held w' k c.
Proof. intros Hg [Hc Ha]. split; [by eapply cand_grows|by eapply arc_grows]. Qed.

(** A group left out that is dirty need not be. *)
Lemma keeps_dirty_exempt k w w' :
  keeps_but (fun e => X e \/ e = k) L w w' -> groups w' !! k = None -> k ∈ dirty_set w' -> keeps w w'.
Proof.
  intros [K [N R C A P S B]] Hk Hd. split; [done|]. split; try done.
  intros k' s' E. destruct (S k' s' E) as [(e & [He| ->] & Ee)|?]; [left; by exists e| |by right].
  right; left. rewrite (rep_root _ k), (rep_root _ k') in Ee by (done || by eapply core_rep; [apply K|]). by subst.
Qed.
End Rules.

(** ** The core under changes of the selections and of the graph *)

Section Core.
Context (g : Graph.Graph G) (sel : gmap CoordKey Sel) (gs : gmap CoordKey CoordKey) (C : core_ok g sel gs).

(** A selection changes, but not its node. *)
Lemma core_update k s s' :
  sel !! k = Some s -> node s' = node s -> (forall c, c ∈ candidates s' -> cand_ok g gs k c) ->
  core_ok g (<[k := s']> sel) gs.
Proof.
  intros Ek En Hc.
  assert (forall k1 s1, <[k := s']> sel !! k1 = Some s1 -> exists s0, sel !! k1 = Some s0 /\ node s0 = node s1) as Hold.
  { intros k1 s1 [[<- <-]|[_ ?]]%lookup_insert_Some; eauto. }
  assert (forall k1 s1, sel !! k1 = Some s1 -> exists s2, <[k := s']> sel !! k1 = Some s2 /\ node s2 = node s1) as Hnew.
  { intros k1 s1 E1. destruct (decide (k1 = k)) as [-> |].
    - rewrite lookup_insert_eq. simplify_eq. eauto.
    - rewrite lookup_insert_ne by done. eauto. }
  split.
  - apply C.
  - apply C.
  - intros k1 s1 (s0 & E0 & _)%Hold. by eapply core_rep.
  - intros k1 s1 (s0 & E0 & <-)%Hold. by eapply core_node.
  - intros k1 k2 s1 s2 (s0 & E0 & <-)%Hold (s3 & E3 & <-)%Hold. by eapply core_distinct.
  - intros a b e (k1 & s1 & E1 & <-)%(core_target _ _ _ C). destruct (Hnew _ _ E1) as (s2 & E2 & <-). eauto.
  - intros k1 s1 c [[<- <-]|[_ E1]]%lookup_insert_Some Hin; [by apply Hc|by eapply core_cand].
  - intros k1 s1 n (s0 & E0 & <-)%Hold. by eapply core_named.
Qed.

(** The edges change, and still end at selections. *)
Lemma core_rewire g' P :
  rewired g g' P -> (forall a b e, P (a, b, e) -> exists k s, sel !! k = Some s /\ node s = b) ->
  core_ok g' sel gs.
Proof.
  intros [O N R A] HP.
  assert (nodes g' = nodes g) as Hn by (unfold nodes, pet_node_count; by rewrite N).
  split; unfold cand_ok, item_ok; rewrite ?Hn, ?R.
  - done.
  - apply C.
  - apply C.
  - apply C.
  - apply C.
  - intros a b e Hin%A. eauto.
  - apply C.
  - intros k s n Ek En. apply (core_named _ _ _ C k s n Ek). unfold Graph.node in *. by rewrite <-N.
Qed.

(** A selection goes, with the edges to its node. *)
Lemma core_delete k s :
  sel !! k = Some s -> (forall a b e, (a, b, e) ∈ graph_arcs g -> b <> node s) -> core_ok g (delete k sel) gs.
Proof.
  intros Ek Hno. split.
  - apply C.
  - apply C.
  - intros k1 s1 [_ E1]%lookup_delete_Some. by eapply core_rep.
  - intros k1 s1 [_ E1]%lookup_delete_Some. by eapply core_node.
  - intros k1 k2 s1 s2 [_ E1]%lookup_delete_Some [_ E2]%lookup_delete_Some. by eapply core_distinct.
  - intros a b e Hin. destruct (core_target _ _ _ C _ _ _ Hin) as (k1 & s1 & E1 & <-).
    exists k1, s1. split; [|done]. rewrite lookup_delete_ne; [done|]. intros <-.
    apply (Hno _ _ _ Hin). congruence.
  - intros k1 s1 c [_ E1]%lookup_delete_Some. by eapply core_cand.
  - intros k1 s1 n [_ E1]%lookup_delete_Some. by eapply core_named.
Qed.

(** Two groups merge, of which the one that goes has no selection. *)
Lemma core_union from into :
  gs !! from = None -> gs !! into = None -> from <> into -> sel !! from = None ->
  core_ok g sel (<[from := into]> gs).
Proof.
  intros Hf Hi Hne Hs.
  assert (forall k s, sel !! k = Some s -> k <> from) as Hk by congruence.
  split; try apply C.
  - apply forest_union; [apply C|done..].
  - intros k s Ek. rewrite lookup_insert_ne by (symmetry; eauto). by eapply core_rep.
  - intros k s c Ek Hin. destruct (core_cand _ _ _ C k s c Ek Hin) as [E I]. split; [|done].
    rewrite !rep_union by (done || apply C). by rewrite E.
  - intros k s n Ek En. rewrite rep_union by (done || apply C).
    rewrite (core_named _ _ _ C k s n Ek En). rewrite decide_False; eauto.
Qed.
(** Two groups merge, of which only the one that goes has a selection: it moves. *)
Lemma core_move from into moved :
  gs !! from = None -> gs !! into = None -> from <> into -> sel !! from = Some moved -> sel !! into = None ->
  core_ok g (<[into := moved]> (delete from sel)) (<[from := into]> gs).
Proof.
  intros Hf Hi Hne Ef Ei.
  assert (forall k s, <[into := moved]> (delete from sel) !! k = Some s ->
    exists k0, sel !! k0 = Some s /\ k = (if decide (k0 = from) then into else k0) /\
      (k = into <-> k0 = from)) as Hold.
  { intros k s [[<- <-]|[Hk [Hk' E]%lookup_delete_Some]]%lookup_insert_Some.
    - exists from. rewrite decide_True by done. done.
    - exists k. rewrite decide_False by done. split_and!; [done..|]. naive_solver. }
  split.
  - apply C.
  - apply forest_union; [apply C|done..].
  - intros k s (k0 & E0 & -> & _)%Hold. destruct (decide (k0 = from)) as [-> |Hk].
    + by rewrite lookup_insert_ne.
    + rewrite lookup_insert_ne by done. by eapply core_rep.
  - intros k s (k0 & E0 & _)%Hold. by eapply core_node.
  - intros k1 k2 s1 s2 (k3 & E3 & -> & _)%Hold (k4 & E4 & -> & _)%Hold En.
    by rewrite (core_distinct _ _ _ C _ _ _ _ E3 E4 En).
  - intros a b e (k & s & E & <-)%(core_target _ _ _ C). destruct (decide (k = from)) as [-> |Hk].
    + exists into, moved. split; [apply lookup_insert_eq|congruence].
    + exists k, s. split; [|done]. rewrite lookup_insert_ne, lookup_delete_ne by congruence. done.
  - intros k s c (k0 & E0 & -> & _)%Hold Hin. destruct (core_cand _ _ _ C _ _ _ E0 Hin) as [E I].
    split; [|done]. pose proof (rep_root _ _ (core_rep _ _ _ C _ _ E0)) as R.
    rewrite !rep_union by (done || apply C). rewrite E, R.
    destruct (decide (k0 = from)); [rewrite (rep_root _ into)|rewrite R]; by rewrite ?decide_False.
  - intros k s n (k0 & E0 & -> & _)%Hold En. rewrite rep_union by (done || apply C).
    by rewrite (core_named _ _ _ C _ _ _ E0 En).
Qed.

(** Two groups merge that both have a selection: the node of the one stands for both. *)
Lemma core_merge from into moved s s' g' :
  gs !! from = None -> gs !! into = None -> from <> into ->
  sel !! from = Some moved -> sel !! into = Some s ->
  node s' = node s -> candidates s' = candidates s ++ candidates moved ->
  rewired g g' (fun x => x.1.2 <> node moved /\
    (if decide (x.1.2 = node s) then merged g (node moved) (node s) (x.1.1, x.2) else x ∈ graph_arcs g)) ->
  core_ok g' (<[into := s']> (delete from sel)) (<[from := into]> gs).
Proof.
  intros Hf Hi Hne Ef Ei En Ec [O N R A].
  assert (nodes g' = nodes g) as Hn by (unfold nodes, pet_node_count; by rewrite N).
  assert (forall k s1, <[into := s']> (delete from sel) !! k = Some s1 ->
    k <> from /\ exists s0, sel !! k = Some s0 /\ node s0 = node s1) as Hold.
  { intros k s1 [[<- <-]|[Hk [Hk' E]%lookup_delete_Some]]%lookup_insert_Some; naive_solver. }
  pose proof (rep_root _ _ Hf) as Rf. pose proof (rep_root _ _ Hi) as Ri.
  split.
  - done.
  - apply forest_union; [apply C|done..].
  - intros k s1 (Hk & s0 & E0 & _)%Hold. rewrite lookup_insert_ne by done. by eapply core_rep.
  - intros k s1 (Hk & s0 & E0 & <-)%Hold. rewrite Hn, R. by eapply core_node.
  - intros k1 k2 s1 s2 (_ & s3 & E3 & <-)%Hold (_ & s4 & E4 & <-)%Hold. by eapply core_distinct.
  - intros a b e Hin%A. cbn in Hin. destruct Hin as [Hb Hin]. destruct (decide (b = node s)) as [-> |Hb'].
    + exists into, s'. by rewrite lookup_insert_eq.
    + destruct (core_target _ _ _ C _ _ _ Hin) as (k & s1 & E1 & <-). exists k, s1. split; [|done].
      rewrite lookup_insert_ne, lookup_delete_ne by congruence. done.
  - intros k s1 c Ek Hin. unfold cand_ok, item_ok. rewrite Hn, !rep_union by (done || apply C).
    apply lookup_insert_Some in Ek as [[<- <-]|[Hk [Hk' E]%lookup_delete_Some]].
    + rewrite Ec, elem_of_app in Hin. rewrite Ri, (decide_False (P := into = from)) by congruence.
      destruct Hin as [Hin|Hin]; (eapply (core_cand _ _ _ C) in Hin as [E I]; [|done]);
        rewrite E, ?Rf, ?Ri; by case_decide.
    + destruct (core_cand _ _ _ C _ _ _ E Hin) as [Er I]. by rewrite Er.
  - intros k s1 n (Hk & s0 & E0 & <-)%Hold En'. rewrite rep_union by (done || apply C).
    rewrite (core_named _ _ _ C k s0 n E0) by (unfold Graph.node in *; by rewrite <-N). by rewrite decide_False.
Qed.

(** A new node, and a new selection with it. *)
Lemma core_add k s n g' :
  gs !! k = None -> sel !! k = None ->
  graph_ok g' -> node_weights (Graph.graph g') = node_weights (Graph.graph g) ++ [n] ->
  Graph.root g' = Graph.root g -> graph_arcs g' = graph_arcs g ->
  node s = nodes g -> (forall c, c ∈ candidates s -> cand_ok g gs k c) ->
  rep gs (key_of (Node.coord n)) = k ->
  core_ok g' (<[k := s]> sel) gs.
Proof.
  intros Hk Ek O N R A Hs Hc Hn.
  assert (nodes g' = S (nodes g)) as Hcount.
  { unfold nodes, pet_node_count. rewrite N, length_app. cbn. lia. }
  split; unfold cand_ok, item_ok in *.
  - done.
  - apply C.
  - intros k1 s1 [[<- <-]|[_ E1]]%lookup_insert_Some; [done|by eapply core_rep].
  - intros k1 s1 [[<- <-]|[_ E1]]%lookup_insert_Some; rewrite Hcount, R.
    + pose proof (ok_root _ (core_graph _ _ _ C)). lia.
    + destruct (core_node _ _ _ C _ _ E1). split; [lia|done].
  - intros k1 k2 s1 s2 [[<- <-]|[_ E1]]%lookup_insert_Some [[<- <-]|[_ E2]]%lookup_insert_Some Hnode; try done.
    + pose proof (proj1 (core_node _ _ _ C _ _ E2)). lia.
    + pose proof (proj1 (core_node _ _ _ C _ _ E1)). lia.
    + by eapply core_distinct.
  - rewrite A. intros a b e (k1 & s1 & E1 & <-)%(core_target _ _ _ C). exists k1, s1. split; [|done].
    rewrite lookup_insert_ne; congruence.
  - intros k1 s1 c [[<- <-]|[_ E1]]%lookup_insert_Some Hin; rewrite Hcount.
    + destruct (Hc c Hin). split; [done|lia].
    + destruct (core_cand _ _ _ C _ _ _ E1 Hin) as [? I]. unfold item_ok in I. split; [done|lia].
  - intros k1 s1 n1 [[<- <-]|[_ E1]]%lookup_insert_Some; unfold Graph.node; rewrite N.
    + rewrite Hs. unfold nodes, pet_node_count. rewrite list_lookup_middle by done. congruence.
    + rewrite lookup_app_l by (pose proof (proj1 (core_node _ _ _ C _ _ E1)); done). by eapply core_named.
Qed.

(** The node of a selection takes another coordinate of its group. *)
Lemma core_relabel k s f :
  sel !! k = Some s -> (forall n, rep gs (key_of (Node.coord (f n))) = k) ->
  core_ok (Graph.update_node g (node s) f) sel gs.
Proof.
  intros Ek Hf. pose proof (core_graph _ _ _ C) as [V D R].
  destruct (set_weights_spec (Graph.graph g) (alter f (node s) (node_weights (Graph.graph g))) V) as (V' & N & E);
    [by rewrite length_alter|].
  assert (nodes (Graph.update_node g (node s) f) = nodes g) as Hn.
  { unfold Graph.update_node, nodes, pet_node_count. cbn. by rewrite N, length_alter. }
  assert (graph_arcs (Graph.update_node g (node s) f) = graph_arcs g) as Ha.
  { unfold arcs. cbn. by rewrite E. }
  split; unfold cand_ok, item_ok; rewrite ?Hn, ?Ha; try apply C.
  - split; [done|by rewrite Ha|by rewrite Hn].
  - intros k1 s1 n E1. unfold Graph.node, Graph.update_node. cbn. rewrite N.
    destruct (decide (node s1 = node s)) as [En|En].
    + rewrite (core_distinct _ _ _ C _ _ _ _ E1 Ek En), En, list_lookup_alter_eq. intros (n0 & _ & ->)%fmap_Some. apply Hf.
    + rewrite list_lookup_alter_ne by done. by eapply core_named.
Qed.
End Core.

(** ** Assignments to the state *)

Lemma mark_dirty_elem k (w : W) : k ∈ dirty_set (mark_dirty k w).
Proof. unfold mark_dirty. case_decide; [done|]. cbn. set_solver. Qed.

Section Assignments.
Context {X L : CoordKey -> Prop}.
Abbreviation keeps := (keeps_but X L).
Abbreviation keeps_ok := (keeps_but_ok X L).

(** The core changes, and no list of what is left to do. *)
Lemma keeps_core (w w' : W) :
  walk_ok w -> core_ok (graph w') (selected w') (groups w') ->
  nodes (graph w') = nodes (graph w) -> Graph.root (graph w') = Graph.root (graph w) ->
  coarser (groups w) (groups w') ->
  generations w' = generations w -> next_generation w' = next_generation w ->
  dirty w' = dirty w -> dirty_set w' = dirty_set w -> queue w' = queue w ->
  walk_loads w' = walk_loads w -> to_confirm w' = to_confirm w -> unscanned w' = unscanned w ->
  next_arc w <= next_arc w' ->
  (forall c, pool w' c -> pool w c \/ next_arc w <= arc c /\ arc_ok w' c) ->
  (forall k s', selected w' !! k = Some s' -> exempt X w' k \/ k ∈ dirty_set w' \/
    (k ∉ dirty_set w /\ exists s, selected w !! k = Some s /\ calm s s')) ->
  (forall k s' won', selected w' !! k = Some s' -> winner s' = Some won' -> exempt L w' k \/ same_label w w' k s' won') ->
  keeps w w'.
Proof.
  intros K C' N R Co Eg En Ed Es Eq El Ec Eu Ea Hpool Hsel Hlab.
  assert (grows X L w w') as Hg.
  { split; [lia|done|done|done| |done|done]. intros c [?|[? _]]%Hpool; auto. }
  split; [|done]. destruct K as [C Lg F D Q P Cf U A].
  split; rewrite ?Eg, ?En, ?Ed, ?Es, ?Eq, ?El, ?Ec, ?Eu, ?N; try done.
  - eapply Forall_impl; [exact Q|]. intros; by eapply item_grows.
  - eapply Forall_impl; [exact P|]. intros l Hl; eapply Forall_impl; [exact Hl|]. intros c [Hc Hw]. split; [by eapply item_grows|done].
  - eapply Forall_impl; [exact Cf|]. intros; by eapply held_grows.
  - eapply Forall_impl; [exact U|]. intros; by eapply held_grows.
  - intros c [Hc|[_ Hc]]%Hpool; [|done]. eapply arc_grows; [done|by apply A].
Qed.

(** The same, where the selections and the weights of the nodes stay. *)
Lemma keeps_same (w w' : W) :
  walk_ok w -> core_ok (graph w') (selected w') (groups w') ->
  node_weights (Graph.graph (graph w')) = node_weights (Graph.graph (graph w)) ->
  Graph.root (graph w') = Graph.root (graph w) -> coarser (groups w) (groups w') ->
  generations w' = generations w -> next_generation w' = next_generation w ->
  dirty w' = dirty w -> dirty_set w' = dirty_set w -> queue w' = queue w ->
  walk_loads w' = walk_loads w -> to_confirm w' = to_confirm w -> unscanned w' = unscanned w ->
  next_arc w <= next_arc w' -> selected w' = selected w -> keeps w w'.
Proof.
  intros K C' N R Co Eg En Ed Es Eq El Ec Eu Ea Esel.
  apply keeps_core; try done.
  - unfold nodes, pet_node_count. by rewrite N.
  - intros c. unfold pool. rewrite Esel. auto.
  - intros k s' E. eapply selected_refl; [done|by rewrite <-Esel|]. by rewrite Es.
  - intros k s' won' E Hw. right. exists k, s', won'. rewrite <-Esel. unfold Graph.node. by rewrite N.
Qed.

(** What the invariant does not mention. *)
Lemma keeps_shadows w x : walk_ok w -> keeps w (set_shadows x w).
Proof. intros K. apply keeps_same; [done|apply K|done..]. Qed.

Lemma keeps_declared w x : walk_ok w -> keeps w (set_declared x w).
Proof. intros K. apply keeps_same; [done|apply K|done..]. Qed.

Lemma keeps_relocations w x : walk_ok w -> keeps w (set_relocations x w).
Proof. intros K. apply keeps_same; [done|apply K|done..]. Qed.

Lemma keeps_allocated w n : walk_ok w -> keeps w (allocated n w).
Proof. intros K. apply keeps_same; [done|apply K|try done..]. cbn. lia. Qed.

Lemma keeps_declare w : walk_ok w -> keeps w (order_allocated (declare_one w)).
Proof. intros K. apply keeps_same; [done|apply K|done..]. Qed.

Lemma keeps_push_shadow w o k : walk_ok w -> keeps w (push_shadow o k w).
Proof. apply keeps_shadows. Qed.

(** *** Changes of one selection *)

(** A selection that keeps its winner, and one that need not. *)
Definition changed (w : W) (k : CoordKey) (s s' : Sel) : Prop :=
  (exempt X w k \/ calm s s') /\
  (forall won', winner s' = Some won' -> exempt L w k \/
     exists won, winner s = Some won /\ coord_text (coord won) = coord_text (coord won')).

(** The candidates a selection changes to: its own, and those of new allocations. *)
Definition taken (w : W) (next : nat) (k : CoordKey) (s : Sel) (cs : list Cand) : Prop :=
  (forall c, c ∈ cs -> cand_ok (graph w) (groups w) k c) /\
  (forall c, c ∈ cs -> c ∈ candidates s \/ next_arc w <= arc c < next /\ cand_wf c) /\
  (forall c c', c ∈ cs -> c' ∈ cs -> next_arc w <= arc c -> arc c' = arc c -> hard c' = hard c).

Lemma keeps_change w w' k s s' :
  walk_ok w -> selected w !! k = Some s -> selected w' = <[k := s']> (selected w) ->
  graph w' = graph w -> groups w' = groups w ->
  generations w' = generations w -> next_generation w' = next_generation w ->
  dirty w' = dirty w -> dirty_set w' = dirty_set w -> queue w' = queue w ->
  walk_loads w' = walk_loads w -> to_confirm w' = to_confirm w -> unscanned w' = unscanned w ->
  next_arc w <= next_arc w' ->
  node s' = node s -> taken w (next_arc w') k s (candidates s') -> changed w k s s' -> keeps w w'.
Proof.
  intros K E Esel Eg Egs Egen En Ed Es Eq El Ec Eu Ea Hn (Hc & Hnew & Hfun) [Hx Hl].
  assert (forall c, pool w' c -> pool w c \/ c ∈ candidates s' /\ next_arc w <= arc c < next_arc w' /\ cand_wf c) as Hpool.
  { intros c (k1 & s1 & E1 & Hin). rewrite Esel in E1.
    apply lookup_insert_Some in E1 as [[<- <-]|[_ E1]]; [|left; by exists k1, s1].
    destruct (Hnew c Hin) as [?|?]; [left; by exists k, s|by right]. }
  assert (forall c, pool w c -> arc c < next_arc w) as Hold by (intros c Hc'; by apply (walk_arcs _ K)).
  apply keeps_core; rewrite ?Eg, ?Egs; try done.
  - rewrite Esel. eapply core_update; [apply K|done..].
  - intros c Hp. destruct (Hpool c Hp) as [?|(Hin & Hr & Hw)]; [by left|right].
    split; [lia|]. split_and!; [lia|done|]. intros c' Hp' Ea'.
    destruct (Hpool c' Hp') as [Ho%Hold|(Hin' & _)]; [lia|]. apply (Hfun c c'); [done..|lia|done].
  - intros k1 s1 E1. rewrite Esel in E1. apply lookup_insert_Some in E1 as [[<- <-]|[Hne E1]].
    + destruct Hx as [(e & He & Hr)|Hcalm]; [left; exists e; by rewrite Egs|]. right. rewrite Es.
      destruct (decide (k ∈ dirty_set w)); [by left|right]. split; [done|]. by exists s.
    + eapply (selected_refl X w w'); [by rewrite Esel, lookup_insert_ne|done|by rewrite Es].
  - intros k1 s1 won' E1 Hw. rewrite Esel in E1. apply lookup_insert_Some in E1 as [[<- <-]|[_ E1]].
    + destruct (Hl won' Hw) as [(e & He & Hr)|(won & Ew & Et)]; [left; exists e; by rewrite Egs|].
      right. exists k, s, won. by rewrite Eg.
    + right. exists k1, s1, won'. by rewrite Eg.
Qed.

Lemma changed_calm w k s s' : calm s s' -> changed w k s s'.
Proof. intros Hc. split; [by right|]. intros won' Hw. right. exists won'. split; [|done]. by rewrite <-(calm_winner _ _ Hc). Qed.

Lemma taken_sub w next k s cs :
  walk_ok w -> selected w !! k = Some s -> (forall c, c ∈ cs -> c ∈ candidates s) -> taken w next k s cs.
Proof.
  intros K E Hc. split_and!.
  - intros c Hin%Hc. by eapply core_cand; [apply K|..].
  - auto.
  - intros c c' Hin%Hc _ Ha. assert (arc c < next_arc w); [|lia]. apply (walk_arcs _ K). by exists k, s.
Qed.

Lemma calm_sub s s' :
  winner s' = winner s -> conflict s' = conflict s ->
  (forall c, c ∈ candidates s' -> exists c0, c0 ∈ candidates s /\ hard c0 = hard c) -> calm s s'.
Proof. intros Hw Hc Hin. split; [done..|]. intros c h (c0 & Hc0 & Eh)%Hin Hh. left. exists c0. by rewrite Eh. Qed.

(** A selection keeps its node and its winner, and no candidate is new. *)
Lemma keeps_shrunk w k s s' :
  walk_ok w -> selected w !! k = Some s -> node s' = node s ->
  (forall c, c ∈ candidates s' -> c ∈ candidates s) -> winner s' = winner s -> conflict s' = conflict s ->
  keeps w (set_selected (<[k := s']> (selected w)) w).
Proof.
  intros K E N Hc Hw Hcf. eapply keeps_change; try done; [by apply taken_sub|]. apply changed_calm, calm_sub; [done..|].
  intros c Hin. exists c. auto.
Qed.

(** The selection of a group left out. *)
Lemma keeps_left_out w k s s' :
  walk_ok w -> selected w !! k = Some s -> node s' = node s ->
  (forall c, c ∈ candidates s' -> c ∈ candidates s) -> changed w k s s' ->
  keeps w (set_selected (<[k := s']> (selected w)) w).
Proof. intros K E N Hc Hch. eapply keeps_change; try done. by apply taken_sub. Qed.

(** *** Changes of the graph *)

(** The edges change, and still end at selections. *)
Lemma keeps_rewired w g' P :
  walk_ok w -> rewired (graph w) g' P ->
  (forall a b e, P (a, b, e) -> exists k s, selected w !! k = Some s /\ node s = b) ->
  keeps w (set_graph g' w).
Proof.
  intros K HR HP. apply keeps_same; cbn; try done.
  - eapply core_rewire; [apply K|done..].
  - apply HR.
  - apply HR.
Qed.

Lemma keeps_add_edge w a k s e :
  walk_ok w -> selected w !! k = Some s -> a < nodes (graph w) ->
  keeps w (set_graph (Graph.add_edge (graph w) a (node s) e).1 w).
Proof.
  intros K E Ha. pose proof (walk_core _ K) as C.
  eapply keeps_rewired; [done|apply add_edge_ok; [apply C|done|by eapply core_node]|].
  cbn. intros a' b' e' [[= -> -> ->]|Hin]; [eauto|by eapply core_target].
Qed.

Lemma keeps_remove_edge w a b e :
  walk_ok w -> keeps w (set_graph (Graph.remove_edge (graph w) a b e) w).
Proof.
  intros K. pose proof (walk_core _ K) as C.
  eapply keeps_rewired; [done|apply remove_edge_ok, C|].
  cbn. intros a' b' e' [_ Hin]. by eapply core_target.
Qed.

Lemma keeps_clear_outgoing w n :
  walk_ok w -> keeps w (set_graph (default (graph w) (Graph.clear_outgoing (graph w) n)) w).
Proof.
  intros K. pose proof (walk_core _ K) as C.
  destruct (clear_outgoing_ok (graph w) n (core_graph _ _ _ C)) as (g' & -> & R). cbn.
  eapply keeps_rewired; [done..|]. intros a b e [Hin _]. by eapply core_target.
Qed.

(** *** Changes of the other fields *)

(** A field of what is left to do changes, or the generations or the dirty groups. *)
Lemma keeps_rest (w w' : W) :
  walk_ok w -> graph w' = graph w -> selected w' = selected w -> groups w' = groups w -> next_arc w' = next_arc w ->
  length (generations w') = nodes (graph w) -> Forall (fun g => (g < next_generation w')%N) (generations w') ->
  NoDup (dirty w') /\ (forall k, k ∈ dirty_set w' <-> k ∈ dirty w') ->
  (forall k, k ∈ dirty_set w -> k ∈ dirty_set w' \/ exempt X w k) ->
  Forall (item_ok (graph w)) (queue w') ->
  Forall (Forall (fun c => item_ok (graph w) (item c) /\ cand_wf c)) (walk_loads w') ->
  Forall (fun x => held w x.1.1 x.1.2) (to_confirm w') -> Forall (fun x => held w x.1 x.2) (unscanned w') ->
  keeps w w'.
Proof.
  intros K Eg Es Egs Ea Hlen Hf Hd Hk Hq Hp Hc Hu.
  assert (forall c, pool w' c <-> pool w c) as Hpool by (intros c; unfold pool; by rewrite Es).
  assert (grows X L w w') as Hg.
  { split; rewrite ?Eg, ?Egs, ?Ea; try done.
    - intros c. rewrite Hpool. auto.
    - intros k s' E. rewrite Es in E. destruct (decide (k ∈ dirty_set w)) as [Hin|Hin].
      + destruct (Hk k Hin) as [?|(e & He & Hr)]; [auto|]. left. exists e. by rewrite Egs.
      + right; right. split; [done|]. exists s'. split; [done|apply calm_refl].
    - intros k s' won' E Hw. right. exists k, s', won'. by rewrite Eg, <-Es. }
  split; [|done]. split; rewrite ?Eg, ?Es, ?Egs; try done.
  - apply K.
  - eapply Forall_impl; [exact Hc|]. intros; by eapply held_grows.
  - eapply Forall_impl; [exact Hu|]. intros; by eapply held_grows.
  - intros c ?%Hpool. eapply arc_grows; [done|by apply K].
Qed.

Lemma keeps_generation w n : walk_ok w -> keeps w (new_generation n w).
Proof.
  intros K. apply keeps_rest; cbn; try done; try apply K; auto.
  - rewrite length_insert. apply K.
  - apply Forall_insert; [|lia]. eapply Forall_impl; [apply K|]. cbn. lia.
Qed.

Lemma keeps_mark_dirty w k : walk_ok w -> keeps w (mark_dirty k w).
Proof.
  intros K. unfold mark_dirty. destruct (decide (k ∈ dirty_set w)) as [|Hk]; [by apply keeps_refl|].
  apply keeps_rest; cbn; try done; try apply K; [|set_solver].
  destruct (walk_dirty _ K) as [D Ds]. rewrite Ds in Hk. split.
  - apply NoDup_app. split_and!; [done| |apply NoDup_singleton]. intros x Hx ->%list_elem_of_singleton. done.
  - intros k'. rewrite elem_of_union, elem_of_singleton, elem_of_app, list_elem_of_singleton, Ds. tauto.
Qed.

Lemma keeps_queue w q : walk_ok w -> Forall (item_ok (graph w)) q -> keeps w (set_queue q w).
Proof. intros K Hq. apply keeps_rest; cbn; try done; try apply K; auto. Qed.

Lemma keeps_loads w l :
  walk_ok w -> Forall (Forall (fun c => item_ok (graph w) (item c) /\ cand_wf c)) l -> keeps w (set_loads l w).
Proof. intros K Hq. apply keeps_rest; cbn; try done; try apply K; auto. Qed.

Lemma keeps_confirm w l : walk_ok w -> Forall (fun x => held w x.1.1 x.1.2) l -> keeps w (set_confirm l w).
Proof. intros K Hq. apply keeps_rest; cbn; try done; try apply K; auto. Qed.

Lemma keeps_unscanned w l : walk_ok w -> Forall (fun x => held w x.1 x.2) l -> keeps w (set_unscanned l w).
Proof. intros K Hq. apply keeps_rest; cbn; try done; try apply K; auto. Qed.

(** Loops of operations. *)
Lemma keeps_foldl {A B} (f : W * B -> A -> W * B) l st :
  (forall st a, walk_ok st.1 -> keeps st.1 (f st a).1) -> walk_ok st.1 -> keeps st.1 (foldl f st l).1.
Proof.
  intros Hf. revert st. induction l as [|a l IH]; intros st K; [by apply keeps_refl|]. cbn.
  eapply keeps_trans; [by apply Hf|]. apply IH.
Qed.

Lemma keeps_foldl' {A} (f : W -> A -> W) l w :
  (forall w a, walk_ok w -> keeps w (f w a)) -> walk_ok w -> keeps w (foldl f w l).
Proof.
  intros Hf. revert w. induction l as [|a l IH]; intros w K; [by apply keeps_refl|]. cbn.
  eapply keeps_trans; [by apply Hf|]. apply IH.
Qed.

Lemma group_rep (w : W) k : group_of w k = rep (groups w) k.
Proof. done. Qed.

Lemma group_root (w : W) k : walk_ok w -> group_of w (group_of w k) = group_of w k.
Proof. intros K. apply rep_root. apply (core_forest _ _ _ (walk_core _ K)). Qed.

(** ** Shadows, retired winners and dropped groups *)

Lemma keeps_revalidate_target group st k : walk_ok st.1 -> keeps st.1 (revalidate_target group st k).1.
Proof.
  destruct st as [w kept]. cbn. intros K. destruct (decide _); [by apply keeps_refl|].
  destruct (selected w !! group_of w k) as [s|] eqn:E; [|by apply keeps_refl]. cbn [fst].
  destruct (decide _); [by apply keeps_refl|].
  eapply keeps_trans; [|apply keeps_mark_dirty]. eapply keeps_shrunk; try done.
  cbn. intros c [Hc _]%filter_elem. done.
Qed.

Lemma keeps_revalidate group w : walk_ok w -> keeps w (revalidate_shadows group w).
Proof.
  intros K. unfold revalidate_shadows. destruct (shadows w !! group) as [targets|]; [|by apply keeps_refl].
  eapply keeps_trans; [by apply (keeps_shadows w (delete group (shadows w)))|]. intros K'. set (w' := set_shadows _ _) in *. clearbody w'.
  pose proof (keeps_foldl (revalidate_target group) targets (w', []) (keeps_revalidate_target group) K') as KF.
  cbn in KF. destruct (foldl _ _ _) as [w1 kept]. cbn in KF.
  case_decide; [done|]. eapply keeps_trans; [done|]. apply keeps_shadows.
Qed.

(** The candidates [retire] keeps, or makes shadows of in allocations of their own. *)
Lemma retire_candidates_elem n old convert next cs :
  let '(kept, _, final) := retire_candidates n old convert next cs in
  next <= final /\
  (forall c, c ∈ kept -> exists c0, c0 ∈ cs /\ (coord c, resolved_version c) = (coord c0, resolved_version c0) /\ item_parent (item c) = item_parent (item c0) /\
     hard c = hard c0 /\ (c = c0 \/ next <= arc c < final)) /\
  (forall c c', c ∈ kept -> c' ∈ kept -> next <= arc c -> (forall x, x ∈ cs -> arc x < next) -> arc c' = arc c -> hard c' = hard c).
Proof.
  revert next. induction cs as [|c0 cs IH]; intros next; cbn [retire_candidates].
  { split_and!; [done|by intros c ?%not_elem_of_nil|by intros c c' ?%not_elem_of_nil]. }
  destruct (_ || _ || _).
  - specialize (IH next). destruct (retire_candidates _ _ _ _ cs) as [[kept changed] final].
    destruct IH as (Hle & Hel & Hfun). split_and!; [done| |].
    + intros c [-> |Hc]%elem_of_cons; [exists c0; split_and!; [by left|auto..]|].
      destruct (Hel c Hc) as (c1 & Hc1 & ?). exists c1. split; [by right|done].
    + intros c c' Hc Hc' Hn Hold Ea. pose proof (Hold c0 (list_elem_of_here _ _)).
      apply elem_of_cons in Hc as [-> |Hc]; [lia|]. apply elem_of_cons in Hc' as [-> |Hc']; [lia|].
      apply Hfun; try done. intros x Hx. apply Hold. by right.
  - assert (forall next', next <= next' ->
      let '(kept, _, final) := retire_candidates n old convert next' cs in
      next <= final /\ (forall c, c ∈ kept -> exists c1, c1 ∈ c0 :: cs /\ (coord c, resolved_version c) = (coord c1, resolved_version c1) /\
        item_parent (item c) = item_parent (item c1) /\ hard c = hard c1 /\ (c = c1 \/ next' <= arc c < final))) as Htail.
    { intros next' Hle. specialize (IH next'). destruct (retire_candidates _ _ _ _ cs) as [[kept changed] final].
      destruct IH as (Hle' & Hel & _). split; [lia|]. intros c Hc. destruct (Hel c Hc) as (c1 & Hc1 & ?).
      exists c1. split; [by right|done]. }
    assert (let '(kept, _, final) := retire_candidates n old convert next cs in
      next <= final /\
      (forall c, c ∈ kept -> exists c1, c1 ∈ c0 :: cs /\ (coord c, resolved_version c) = (coord c1, resolved_version c1) /\ item_parent (item c) = item_parent (item c1) /\
         hard c = hard c1 /\ (c = c1 \/ next <= arc c < final)) /\
      (forall c c', c ∈ kept -> c' ∈ kept -> next <= arc c -> (forall x, x ∈ c0 :: cs -> arc x < next) ->
         arc c' = arc c -> hard c' = hard c)) as Hdrop.
    { specialize (Htail next ltac:(lia)). specialize (IH next). destruct (retire_candidates _ _ _ _ cs) as [[kept changed] final].
      destruct Htail as [Hle Hel], IH as (_ & _ & Hfun). split_and!; [done..|].
      intros c c' Hc Hc' Hn Hold. apply Hfun; try done. intros x Hx. apply Hold. by right. }
    destruct convert as [[origin path]|]; [destruct (path_contains _ _)|];
      [|by destruct (retire_candidates _ _ _ _ cs) as [[kept changed] final]..].
    specialize (Htail (S next) ltac:(lia)). specialize (IH (S next)).
    destruct (retire_candidates _ _ _ _ cs) as [[kept changed] final]. destruct Htail as [Hle Hel], IH as (Hle' & Hel' & Hfun).
    split_and!; [done| |].
    + intros c [-> |Hc]%elem_of_cons; [exists c0; split_and!; [by left|done..|right; cbn; lia]|].
      destruct (Hel c Hc) as (c1 & Hc1 & H1' & H2' & H3' & [?|?]); exists c1; split_and!; auto; right; lia.
    + intros c c' Hc Hc' Hn Hold Ea.
      assert (forall x, x ∈ kept -> x ∈ cs \/ S next <= arc x) as Hk.
      { intros x Hx. destruct (Hel' x Hx) as (c1 & Hc1 & _ & _ & _ & [-> |?]); [by left|right; lia]. }
      assert (forall x, x ∈ kept -> arc x <> next) as Hne.
      { intros x [Hx|?]%Hk; [|lia]. specialize (Hold x ltac:(by right)). lia. }
      apply elem_of_cons in Hc as [-> |Hc], Hc' as [-> |Hc']; [done|..].
      * cbn in Ea. by apply Hne in Hc'.
      * cbn in Ea. symmetry in Ea. by apply Hne in Hc.
      * apply Hfun; try done.
        -- destruct (Hk c Hc) as [Hx|?]; [|lia]. specialize (Hold c ltac:(by right)). lia.
        -- intros x Hx. specialize (Hold x ltac:(by right)). lia.
Qed.

Lemma keeps_retire_key n old convert st k : walk_ok st.1 -> keeps st.1 (retire_key n old convert st k).1.
Proof.
  destruct st as [w touched]. unfold retire_key. cbn [fst]. intros K.
  destruct (decide _); [by apply keeps_refl|]. set (convert' := opt_filter _ _). clearbody convert'.
  destruct (selected w !! group_of w k) as [s|] eqn:E; [|by apply keeps_refl].
  pose proof (retire_candidates_elem n old convert' (next_arc w) (candidates s)) as Hkept.
  destruct (retire_candidates _ _ _ _ _) as [[kept changed] next]. destruct Hkept as (Hle & Hel & Hfun). cbn [fst] in *.
  assert (forall c, c ∈ candidates s -> arc_ok w c) as Harc by (intros c Hc; apply K; by eexists _, _).
  assert (keeps w (allocated (next - next_arc w) (set_selected (<[group_of w k := with_candidates s kept]> (selected w)) w))) as KA.
  { eapply keeps_change; try done; cbn; [lia| |].
    - replace (next_arc w + (next - next_arc w)) with next by lia. split_and!.
      + intros c (c0 & Hc0 & [= Ec _] & Ei & _)%Hel. destruct (core_cand _ _ _ (walk_core _ K) _ _ _ E Hc0) as [Er I].
        split; [by rewrite Ec|]. unfold item_ok in *. by rewrite Ei.
      + intros c (c0 & Hc0 & [= Ec Ev] & _ & Eh & [-> |Hr])%Hel; [by left|right]. split; [lia|]. unfold cand_wf. rewrite Eh, Ec, Ev. by apply Harc.
      + intros c c' Hc Hc' Ha. apply Hfun; try done. intros x Hx. by apply Harc.
    - apply changed_calm, calm_sub; [done..|]. cbn. intros c (c0 & Hc0 & _ & _ & Eh & _)%Hel. by exists c0. }
  destruct convert' as [[origin path]|]; [|apply KA].
  destruct (negb _); [|apply KA]. eapply keeps_trans; [apply KA|]. apply keeps_push_shadow.
Qed.

Lemma keeps_retire n convert w : walk_ok w -> keeps w (retire n convert w).
Proof.
  intros K. unfold retire. set (old := generations w !!! n). clearbody old.
  eapply keeps_trans; [by apply (keeps_generation w n)|]. generalize (new_generation n w). clear w K. intros w K.
  eapply keeps_trans; [by apply (keeps_clear_outgoing w n)|]. generalize (set_graph (default (graph w) (Graph.clear_outgoing (graph w) n)) w).
  clear w K. intros w1 K.
  eapply keeps_trans; [by apply (keeps_declared w1 (delete n (declared_by w1)))|].
  set (w2 := set_declared _ _). clearbody w2. intros K2.
  pose proof (keeps_foldl (retire_key n old convert) (default [] (declared_by w1 !! n)) (w2, []) (keeps_retire_key n old convert) K2) as KF.
  cbn in KF. destruct (foldl _ _ _) as [w3 touched]. cbn in KF. eapply keeps_trans; [done|]. intros K3.
  apply keeps_foldl'; [|done]. intros w4 k K4. eapply keeps_trans; [by apply keeps_revalidate|]. apply keeps_mark_dirty.
Qed.

Lemma keeps_drop_group k w : walk_ok w -> keeps w (drop_group k w).
Proof.
  intros K. unfold drop_group. destruct (selected w !! k) as [s|] eqn:E; [|by apply keeps_refl].
  pose proof (walk_core _ K) as C.
  eapply keeps_trans with (w' := set_graph (default (graph w) (Graph.clear_incoming (graph w) (node s)))
    (set_selected (delete k (selected w)) w)).
  - destruct (clear_incoming_ok (graph w) (node s) (core_graph _ _ _ C)) as (g' & -> & R). cbn [default].
    apply keeps_core; cbn; try done.
    + eapply core_delete; [|done|].
      * eapply core_rewire; [done..|]. intros a b e [Hin _]. by eapply core_target.
      * by intros a b e [_ Hb]%(rewired_arcs _ _ _ R).
    + unfold nodes, pet_node_count. by rewrite (rewired_nodes _ _ _ R).
    + apply R.
    + intros c (k1 & s1 & E1 & Hc). cbn in E1. apply lookup_delete_Some in E1 as [_ E1]. left. by exists k1, s1.
    + intros k1 s1 E1. apply (selected_refl X w (set_graph g' (set_selected (delete k (selected w)) w)));
        [exact E1|by apply lookup_delete_Some in E1 as [_ E1]|done].
    + intros k1 s1 won' [_ E1]%lookup_delete_Some Hw. right. exists k1, s1, won'. unfold Graph.node. cbn.
      by rewrite (rewired_nodes _ _ _ R).
  - intros K'. eapply keeps_trans; [by apply keeps_retire|]. apply keeps_revalidate.
Qed.

Lemma keeps_drop_beneath k w : walk_ok w -> keeps w (drop_beneath k w).
Proof.
  intros K. unfold drop_beneath. destruct (selected w !! k) as [s|] eqn:E; [|by apply keeps_refl].
  eapply keeps_shrunk; try done. cbn. by intros c [Hc _]%filter_elem.
Qed.

End Assignments.

(** The union of two groups, up to the shadows of the one that goes. *)
Lemma coarser_union gs from into :
  forest gs -> gs !! from = None -> gs !! into = None -> from <> into -> coarser gs (<[from := into]> gs).
Proof. intros F Hf Hi Hne k k' E. by rewrite !rep_union, E. Qed.
End Invariant.
