(* ===== verification/WalkOps.v ===== *)
(** * The operations of the walk keep its invariant ([Walk] of [rv-resolver/src/solver/mod.rs])

    Merging groups, queueing, adding a resolution, loading candidates and committing a
    winner: each keeps the invariant of [WalkInv.v], and a group that takes up a
    constraint its winner may not accept is marked dirty. *)

From Stdlib Require Import Ascii String Lia.
From stdpp Require Import base list strings gmap.
From S2P Require Import Prelude Iter Str Version Range Coordinates Snapshot Dependency DepManagement Keys Queue Management Relocation Graph Mediation Load Walk WalkInv.

#[local] Set Warnings "-clear-no-such-hyp".

Section Places.
Context `{Unicode} `{SolverBackend} {G : Type} `{PetGraphLaws (Node.t RepoContext) G}.

Abbreviation Failure := (ResolveError Error).
Abbreviation Item := (QueueItem RepoContext).
Abbreviation Cand := (@Candidate RepoContext RepoRef.t Project).
Abbreviation Sel := (@Selected RepoContext RepoRef.t Project).
Abbreviation W := (@Walk _ G).
Abbreviation graph_arcs g := (arcs (Graph.graph g)).
Abbreviation nodes g := (Graph.node_count g).

(** ** Which group has which node *)

Definition places (w : W) : gmap CoordKey nat := node <$> selected w.

(** The nodes and the merges. *)
Definition frame (w : W) : gmap CoordKey nat * gmap CoordKey CoordKey := (places w, groups w).

Lemma places_selected (w : W) k s s' :
  selected w !! k = Some s -> node s' = node s -> places (set_selected (<[k := s']> (selected w)) w) = places w.
Proof.
  intros E N. unfold places. cbn. rewrite fmap_insert. apply insert_id. by rewrite lookup_fmap, E, N.
Qed.

Lemma frame_selected (w : W) k s s' :
  selected w !! k = Some s -> node s' = node s -> frame (set_selected (<[k := s']> (selected w)) w) = frame w.
Proof. intros E N. unfold frame. by rewrite (places_selected w k s s'). Qed.

Lemma frame_mark_dirty (w : W) k : frame (mark_dirty k w) = frame w.
Proof. unfold mark_dirty. by case_decide. Qed.

Lemma frame_foldl {A B} (f : W * B -> A -> W * B) l st :
  (forall st a, frame (f st a).1 = frame st.1) -> frame (foldl f st l).1 = frame st.1.
Proof. intros Hf. revert st. induction l as [|a l IH]; intros st; [done|]. cbn. by rewrite IH. Qed.

Lemma frame_revalidate (w : W) group : frame (revalidate_shadows group w) = frame w.
Proof.
  unfold revalidate_shadows. destruct (shadows w !! group) as [targets|]; [|done].
  set (w0 := set_shadows (delete group (shadows w)) w).
  assert (frame (foldl (revalidate_target group) (w0, []) targets).1 = frame w) as Hf.
  { rewrite frame_foldl; [done|]. intros [w1 kept] k. cbn. case_decide; [done|].
    destruct (selected w1 !! _) as [s|] eqn:E; [|done]. cbn [fst]. case_decide; [done|].
    rewrite frame_mark_dirty. by eapply frame_selected. }
  destruct (foldl _ _ _) as [w1 kept]. cbn in Hf. by case_decide.
Qed.

Lemma frame_retire n convert (w : W) : frame (retire n convert w) = frame w.
Proof.
  unfold retire. set (w1 := set_declared _ _). set (keys := default [] _). clearbody keys.
  assert (frame (foldl (retire_key n (generations w !!! n) convert) (w1, []) keys).1 = frame w) as Hf.
  { rewrite frame_foldl; [done|]. intros [w2 touched] k. unfold retire_key. cbn [fst]. case_decide; [done|].
    set (convert' := opt_filter _ _). destruct (selected w2 !! _) as [s|] eqn:E; [|done].
    destruct (retire_candidates _ _ _ _ _) as [[kept changed] next]. cbn [fst].
    assert (frame (set_selected (<[group_of w2 k := with_candidates s kept]> (selected w2)) w2) = frame w2) as Hp
      by (by eapply frame_selected).
    destruct convert' as [[origin path]|]; [|done]. by destruct (negb _). }
  destruct (foldl _ _ keys) as [w2 touched]. cbn in Hf. rewrite <-Hf. clear. revert w2.
  induction touched as [|k l IH]; intros w2; [done|]. cbn. by rewrite IH, frame_mark_dirty, frame_revalidate.
Qed.

Lemma places_mark_dirty (w : W) k : places (mark_dirty k w) = places w.
Proof. exact (f_equal fst (frame_mark_dirty w k)). Qed.

Lemma places_retire n convert (w : W) : places (retire n convert w) = places w.
Proof. exact (f_equal fst (frame_retire n convert w)). Qed.

Lemma frame_drop_group k (w : W) : frame (drop_group k w) = (delete k (places w), groups w).
Proof.
  unfold drop_group. destruct (selected w !! k) as [s|] eqn:E.
  - rewrite frame_revalidate, frame_retire. unfold frame, places. cbn. by rewrite fmap_delete.
  - unfold frame. f_equal. symmetry. apply delete_id. unfold places. by rewrite lookup_fmap, E.
Qed.

Lemma places_lookup (w : W) k n : places w !! k = Some n -> exists s, selected w !! k = Some s /\ node s = n.
Proof. unfold places. rewrite lookup_fmap. destruct (selected w !! k); naive_solver. Qed.

Lemma places_drop_beneath k (w : W) : places (drop_beneath k w) = places w.
Proof.
  unfold drop_beneath. destruct (selected w !! k) as [s|] eqn:E; [|done]. by eapply places_selected.
Qed.

End Places.

(** ** Merging groups *)

Section Operations.
Context `{Unicode} `{SolverBackend} {G : Type} `{PetGraphLaws (Node.t RepoContext) G}.
Context {X L : CoordKey -> Prop}.

Abbreviation Failure := (ResolveError Error).
Abbreviation Item := (QueueItem RepoContext).
Abbreviation Cand := (@Candidate RepoContext RepoRef.t Project).
Abbreviation Sel := (@Selected RepoContext RepoRef.t Project).
Abbreviation W := (@Walk _ G).
Abbreviation graph_arcs g := (arcs (Graph.graph g)).
Abbreviation nodes g := (Graph.node_count g).
Abbreviation keeps := (keeps_but X L).
Abbreviation keeps_ok := (keeps_but_ok X L).

Lemma keeps_merge_selected from into moved (w : W) x :
  walk_ok w -> groups w !! from = None -> groups w !! into = None -> from <> into -> selected w !! from = Some moved ->
  keeps_but (fun e => X e \/ e = into) L w (merge_selected into moved
    (set_selected (delete from (selected w)) (set_shadows x (set_groups (<[from := into]> (groups w)) w)))).
Proof.
  intros K Hf Hi Hne Ef. pose proof (walk_core _ K) as C.
  assert (coarser (groups w) (<[from := into]> (groups w))) as Co by (apply coarser_union; try done; apply C).
  assert (rep (<[from := into]> (groups w)) from = rep (<[from := into]> (groups w)) into) as Hrep.
  { rewrite !rep_union, (rep_root _ from), (rep_root _ into) by (done || apply C). rewrite decide_True, decide_False; done. }
  unfold merge_selected. cbn [selected set_selected].
  rewrite lookup_delete_ne by done. destruct (selected w !! into) as [s|] eqn:Ei.
  - destruct (retarget_incoming_ok (graph w) (node moved) (node s)) as (g' & E & R).
    { apply C. }
    { intros Hn. apply Hne. by eapply core_distinct. }
    { by eapply core_node. }
    eapply keeps_trans; [|apply keeps_retire]. cbn [graph set_selected set_shadows set_groups]. rewrite E. cbn [default].
    apply keeps_core; cbn; try done.
    + by eapply core_merge.
    + unfold Graph.node_count, pet_node_count. by rewrite (rewired_nodes _ _ _ R).
    + apply R.
    + intros c (k1 & s1 & E1 & Hc). cbn in E1. left.
      apply lookup_insert_Some in E1 as [[<- <-]|[_ [_ E1]%lookup_delete_Some]]; [|by exists k1, s1].
      cbn in Hc. apply elem_of_app in Hc as [Hc|Hc]; [by exists into, s|by exists from, moved].
    + intros k1 s1 E1. destruct (decide (k1 = into)) as [-> |Hk]; [left; exists into; auto|].
      rewrite lookup_insert_ne in E1 by done. apply lookup_delete_Some in E1 as [_ E1]. right.
      destruct (decide (k1 ∈ dirty_set w)); [by left|right]. split; [done|]. exists s1. split; [done|apply calm_refl].
    + intros k1 s1 won' E1 Hw. right. apply lookup_insert_Some in E1 as [[<- <-]|[_ [_ E1]%lookup_delete_Some]].
      * exists into, s, won'. unfold Graph.node. cbn. by rewrite (rewired_nodes _ _ _ R).
      * exists k1, s1, won'. unfold Graph.node. cbn. by rewrite (rewired_nodes _ _ _ R).
  - apply keeps_core; cbn; try done.
    + by eapply core_move.
    + intros c (k1 & s1 & E1 & Hc). cbn in E1. left.
      apply lookup_insert_Some in E1 as [[<- <-]|[_ [_ E1]%lookup_delete_Some]]; [by exists from, moved|by exists k1, s1].
    + intros k1 s1 E1. destruct (decide (k1 = into)) as [-> |Hk]; [left; exists into; auto|].
      rewrite lookup_insert_ne in E1 by done. apply lookup_delete_Some in E1 as [_ E1]. right.
      destruct (decide (k1 ∈ dirty_set w)); [by left|right]. split; [done|]. exists s1. split; [done|apply calm_refl].
    + intros k1 s1 won' E1 Hw. right. apply lookup_insert_Some in E1 as [[<- <-]|[_ [_ E1]%lookup_delete_Some]].
      * by exists from, moved, won'.
      * by exists k1, s1, won'.
Qed.

Lemma places_merge_selected into moved (w : W) : is_Some (places (merge_selected into moved w) !! into).
Proof.
  unfold merge_selected. destruct (selected w !! into) as [s|] eqn:E.
  - rewrite places_retire. unfold places. cbn. by rewrite lookup_fmap, lookup_insert_eq.
  - unfold places. cbn. by rewrite lookup_fmap, lookup_insert_eq.
Qed.

Lemma keeps_union from_key target (w : W) : walk_ok w -> keeps_but X L w (union_groups from_key target w).
Proof.
  intros K. pose proof (walk_core _ K) as C. unfold union_groups.
  set (into := group_of w from_key). set (from := group_of w target).
  assert (groups w !! into = None) as Hi by apply (core_forest _ _ _ C).
  assert (groups w !! from = None) as Hf by apply (core_forest _ _ _ C).
  clearbody into from. case_decide as Hne; [by apply keeps_refl|]. apply not_eq_sym in Hne.
  set (w1 := match shadows _ !! from with None => _ | Some _ => _ end).
  assert (exists x, w1 = set_shadows x (set_groups (<[from := into]> (groups w)) w)) as [x Hx].
  { unfold w1. destruct (shadows _ !! from); [by eexists|]. exists (shadows w). by destruct w. }
  clearbody w1. subst w1. cbn [selected set_shadows set_groups].
  destruct (selected w !! from) as [moved|] eqn:Ef.
  - set (w1 := merge_selected into moved _).
    assert (is_Some (places w1 !! into)) as Hp by apply places_merge_selected.
    assert (keeps_but (fun e => X e \/ e = into) L w (mark_dirty into (drop_beneath into w1))) as KM.
    { eapply keeps_trans; [by apply (keeps_merge_selected from into moved w x)|]. intros K'.
      eapply keeps_trans; [by apply keeps_drop_beneath|]. apply keeps_mark_dirty. }
    apply (keeps_dirty_exempt into); [exact KM| |apply mark_dirty_elem].
    rewrite <-(places_drop_beneath into), <-(places_mark_dirty _ into) in Hp. destruct Hp as [n Hp].
    apply places_lookup in Hp as (s & Es & _). destruct KM as [KM _]. by eapply core_rep; [apply KM|].
  - apply keeps_same; cbn; try done.
    + apply core_union; done.
    + apply coarser_union; try done; apply C.
Qed.
(** ** Queueing *)

(** A loop whose body can fail. *)
Lemma each_rule {A S} (R : S -> S -> Prop) `{!PreOrder R} (f : A -> S -> result Failure S) l s :
  (forall a s', a ∈ l -> R s s' -> match f a s' with Ok s'' => R s' s'' | Err _ => True end) ->
  match each f l s with Ok s' => R s s' | Err _ => True end.
Proof.
  revert s. induction l as [|a l IH]; intros s Hf; [apply PreOrder_Reflexive|]. cbn [each].
  pose proof (Hf a s (list_elem_of_here _ _) (PreOrder_Reflexive s)) as Ha.
  destruct (f a s) as [s1|e]; [|done]. cbn. specialize (IH s1).
  destruct (each f l s1) as [s2|e]; [|done]. etrans; [exact Ha|]. apply IH.
  intros b s3 Hb R3. apply Hf; [by right|by etrans].
Qed.

Definition keeping (w w' : W) : Prop := walk_ok w -> keeps w w'.

#[export] Instance keeping_preorder : PreOrder keeping.
Proof. split; [intros w; exact (keeps_refl w)|]. intros a b c Hab Hbc K. eapply keeps_trans; eauto. Qed.

Lemma keeps_each {A} (f : A -> W -> result Failure W) l w :
  walk_ok w -> (forall a w', a ∈ l -> keeps w w' -> keeps_ok w' (f a w')) -> keeps_ok w (each f l w).
Proof.
  intros K Hf. pose proof (each_rule keeping f l w) as Hr. destruct (each f l w) as [w1|]; [|done].
  apply Hr; [|done]. intros a w' Ha Hw. specialize (Hf a w' Ha (Hw K)).
  destruct (f a w'); [|done]. by intros _.
Qed.

Lemma keeps_push_item it w : walk_ok w -> item_ok (graph w) it -> keeps_ok w (push_item it w).
Proof.
  intros K Hi. unfold push_item, push_queue. cbn.
  destruct (MAX_QUEUE_SIZE <=? _)%N; [done|]. destruct (MAX_DEPTH <? _)%N; [done|].
  destruct (MAX_DECLARATIONS <=? _)%N; [done|]. cbn.
  apply keeps_queue; [done|]. constructor; [done|apply K].
Qed.

Lemma keeps_queue_child parent generation above path excluded origin index d w :
  walk_ok w -> parent < nodes (graph w) ->
  keeps_ok w (queue_child parent generation above path excluded origin index d w).
Proof.
  intros K Hp. unfold queue_child. eapply keeps_ok_trans; [by apply keeps_declare|].
  intros K'. by apply keeps_push_item.
Qed.

Lemma keeps_queue_all parent generation c path project origin index ds w :
  walk_ok w -> parent < nodes (graph w) ->
  keeps_ok w (queue_all parent generation c path project origin index ds w).
Proof.
  revert index w. induction ds as [|d ds IH]; intros index w K Hp; [by apply keeps_refl|]. cbn [queue_all].
  apply keeps_ok_bind; [by apply keeps_queue_child|]. intros w' [K' L']. apply IH; [done|].
  pose proof (grows_nodes _ _ _ _ L'). lia.
Qed.

Lemma keeps_queue_children c parent generation origin w :
  walk_ok w -> parent < nodes (graph w) -> keeps_ok w (queue_children c parent generation origin w).
Proof.
  intros K Hp. unfold queue_children. destruct (negb _); [by apply keeps_refl|].
  destruct (resolved_project c); [|by apply keeps_refl]. by apply keeps_queue_all.
Qed.

Lemma root_counts w : walk_ok w -> Graph.root (graph w) < nodes (graph w).
Proof. intros K. apply (ok_root _ (core_graph _ _ _ (walk_core _ K))). Qed.

Lemma keeps_queue_shadow c project index d origin w :
  walk_ok w -> keeps_ok w (queue_shadow c project index d origin w).
Proof.
  intros K. unfold queue_shadow. destruct (negb _); [by apply keeps_refl|].
  apply keeps_queue_child; [done|by apply root_counts].
Qed.

Lemma keeps_scan_losers k from w : walk_ok w -> keeps_ok w (scan_losers k from w).
Proof.
  intros K. unfold scan_losers. destruct (selected w !! k) as [s|] eqn:E; [|by apply keeps_refl].
  destruct (winner s) as [won|]; [|by apply keeps_refl]. destruct (winner_path s) as [path|]; [|by apply keeps_refl].
  destruct (insert_declared _ _) as [losers seen].
  eapply keeps_ok_trans; [by eapply (keeps_shrunk w k s (with_scanned s seen (walked s)))|]. intros K'.
  apply keeps_each; [done|]. intros loser w1 _ [K1 _]. unfold scan_loser.
  destruct (resolved_project loser); [|by apply keeps_refl].
  apply keeps_each; [done|]. intros [index d] w2 _ [K2 _].
  destruct (scanned_dependency _ _ _ _ _); [by apply keeps_queue_shadow|by apply keeps_refl].
Qed.

(** The same, for a loop that also notes whether anything was queued. *)
Definition keeps_flag (st : W * bool) (r : result Failure (W * bool)) : Prop :=
  match r with Ok st' => keeps st.1 st'.1 | Err _ => True end.

Definition keeping_flag (st st' : W * bool) : Prop := keeping st.1 st'.1.

#[export] Instance keeping_flag_preorder : PreOrder keeping_flag.
Proof. unfold keeping_flag. split; [by intros st|]. intros a b c Hab Hbc. by etrans. Qed.

Lemma keeps_each_flag {A} (f : A -> W * bool -> result Failure (W * bool)) l st :
  walk_ok st.1 -> (forall a st', walk_ok st'.1 -> keeps_flag st' (f a st')) -> keeps_flag st (each f l st).
Proof.
  intros K Hf. pose proof (each_rule keeping_flag f l st) as Hr.
  destruct (each f l st) as [st1|]; [|done]. apply Hr; [|done]. intros a st' _ Hst.
  specialize (Hf a st'). destruct (f a st'); [|done]. intros K'. by apply Hf.
Qed.

Lemma keeps_walk_loser k excluded project loser st :
  walk_ok st.1 -> keeps_flag st (walk_loser k excluded project loser st).
Proof.
  intros K. apply keeps_each_flag; [done|]. intros [index d] [w queued] K'. cbn in K'.
  cbn beta match zeta. destruct (negb (is_followed_transitively d) || _ || _ || _ || _); [by apply keeps_refl|].
  pose proof (keeps_queue_shadow loser project index d (origin_of k loser) w K') as Hq.
  destruct (queue_shadow _ _ _ _ _ _) as [w'|]; done.
Qed.

Lemma keeps_walk_excluded w : walk_ok w -> keeps_flag (w, false) (walk_excluded_dependencies w).
Proof.
  intros K. apply keeps_each_flag; [done|]. intros k [w1 queued] K1. cbn in K1. unfold walk_group.
  destruct (selected w1 !! k) as [s|] eqn:E; [|by apply keeps_refl].
  destruct (winner s) as [won|]; [|by apply keeps_refl].
  destruct (resolved_project won) as [project|]; [|by apply keeps_refl].
  case_decide; [by apply keeps_refl|]. destruct (insert_declared _ _) as [losers seen].
  pose proof (keeps_shrunk (X := X) (L := L) w1 k s (with_scanned s (scanned s) seen) K1 E eq_refl (fun c Hc => Hc) eq_refl eq_refl) as Ks.
  pose proof (keeps_each_flag (walk_loser k (below_exclusions won) project) losers
    (set_selected (<[k := with_scanned s (scanned s) seen]> (selected w1)) w1, queued) (proj1 Ks)
    (fun a st => keeps_walk_loser _ _ _ a st)) as Ke.
  destruct (each _ _ _) as [st'|]; [|done]. cbn in *. eapply keeps_trans; eauto.
Qed.

(** ** Adding a resolution *)

Lemma new_candidates_elem first r c :
  c ∈ new_candidates first r ->
  key_of (coord c) = key_of (coord (res_candidate r)) /\ item c = item (res_candidate r) /\
  hard c = hard (res_candidate r) /\ first <= arc c < first + length (new_candidates first r) /\
  (cand_wf (res_candidate r) -> cand_wf c).
Proof.
  unfold new_candidates. rewrite elem_of_app, list_elem_of_singleton, length_app, length_imap. cbn [length].
  intros [Hc| ->]; [|cbn; split_and!; auto; lia].
  apply elem_of_lookup_imap in Hc as (i & v & -> & Hi). apply lookup_lt_Some in Hi. cbn. split_and!; auto; [lia..|].
  intros [Hh _]. split; [done|by left].
Qed.

Lemma keeps_after_joining k settled w :
  walk_ok w -> (forall from c, settled = Some (from, Some c) -> held w k c) -> keeps_ok w (after_joining k settled w).
Proof.
  intros K Hc. unfold after_joining. destruct settled as [[from lowest]|]; [|by apply keeps_mark_dirty].
  destruct (is_dirty k w); [by apply keeps_mark_dirty|]. destruct lowest as [c|].
  - apply keeps_confirm; [done|]. apply Forall_app. split; [apply K|]. constructor; [|constructor]. by eapply Hc.
  - destruct (is_some_and _ _); [by apply keeps_mark_dirty|by apply keeps_scan_losers].
Qed.

Lemma lowest_rejecting_elem (st : @Settled RepoContext RepoRef.t Project) cs c st' :
  lowest_rejecting st cs = (Some c, st') -> c ∈ cs.
Proof.
  unfold lowest_rejecting. assert (forall x, x ∈ (filter_rejecting st cs).1 -> x ∈ cs) as Hf.
  { intros x. revert st. induction cs as [|c0 cs IH]; intros st; cbn [filter_rejecting]; [done|].
    destruct (match hard c0 with Some h => _ | None => _ end) as [rejected st1].
    specialize (IH st1). destruct (filter_rejecting st1 cs) as [kept st2]. cbn in *.
    destruct rejected; rewrite ?elem_of_cons; tauto. }
  destruct (filter_rejecting st cs) as [kept st1]. cbn in Hf. intros [= E _].
  destruct (min_by _ kept) as [m|] eqn:M; [|done]. cbn in E. case_match; [|done]. simplify_eq.
  apply Hf. by eapply min_by_elem.
Qed.

(** Joining a group, a declaration brings its own candidates and no others; the winner
    stays, and on the shortcut it accepts what they constrain. *)
Lemma join_group_elem it cs (s s' : Sel) shortcut :
  join_group it cs s = Some (s', shortcut) ->
  node s' = node s /\ winner s' = winner s /\ conflict s' = conflict s /\
  (forall c, c ∈ candidates s' -> c ∈ candidates s \/ c ∈ cs) /\ (forall c, c ∈ cs -> c ∈ candidates s') /\
  (forall from c, shortcut = Some (from, Some c) -> c ∈ cs) /\
  (is_Some shortcut -> calm s s').
Proof.
  unfold join_group. set (kept := List.filter _ _).
  assert (forall c, c ∈ kept ++ cs -> c ∈ candidates s \/ c ∈ cs) as Hk.
  { intros c [[Hc _]%filter_elem|Hc]%elem_of_app; auto. }
  assert (forall l c, c ∈ cs -> c ∈ l ++ cs) as Hr by (intros; apply elem_of_app; auto).
  clearbody kept. destruct (bool_decide _).
  { destruct (existsb _ _); [done|]. intros [= <- <-]. split_and!; try done; cbn; [|apply Hr].
    intros c [?|?]%elem_of_app; auto. }
  destruct (winner s) as [won|] eqn:Ew; [destruct (settled s) as [state|]; [destruct (_ && _) eqn:Eb|]|];
    [|intros [= <- <-]; (split_and!; try done; first [exact Ew | exact (Hr _) | by intros []])..].
  destruct (lowest_rejecting state cs) as [lowest state'] eqn:El. intros [= <- <-]. split_and!; try done.
  - exact (Hr _).
  - intros from c [= <- ->]. by eapply lowest_rejecting_elem.
  - intros _. apply andb_true_iff in Eb as [_ Hb]. unfold behind_settled in Hb. rewrite forallb_forall in Hb.
    split; [done..|]. cbn. intros c h Hc Hh. destruct (Hk c Hc) as [?|Hin]; [left; eauto|right].
    exists won. split; [done|]. apply list_elem_of_In in Hin. specialize (Hb c Hin).
    apply andb_true_iff in Hb as [_ Ha]. by rewrite Hh in Ha.
Qed.

(** The candidates of a resolution: in allocations of their own. *)
Definition fresh (w : W) (n : nat) (cs : list Cand) : Prop :=
  (forall c, c ∈ cs -> next_arc w <= arc c < next_arc w + n /\ cand_wf c) /\
  (forall c c', c ∈ cs -> c' ∈ cs -> hard c' = hard c).

Definition pending (w : W) (k : CoordKey) (cs : list Cand) (u : list (CoordKey * Cand)) : Prop :=
  forall x, x ∈ u -> x ∈ unscanned w \/ x.1 = k /\ x.2 ∈ cs.

Lemma fresh_held w n k c cs :
  walk_ok w -> fresh w n cs -> (forall c, c ∈ cs -> cand_ok (graph w) (groups w) k c) -> c ∈ cs -> held (allocated n w) k c.
Proof.
  intros K [Hf _] Hc Hin. split; [by apply Hc|]. destruct (Hf c Hin) as [Hr Hw]. split_and!; [cbn; lia|done|].
  intros c' Hp Ea. assert (arc c' < next_arc w); [|lia]. by apply (walk_arcs _ K).
Qed.

Lemma keeps_pending w n k cs u :
  walk_ok w -> fresh w n cs -> (forall c, c ∈ cs -> cand_ok (graph w) (groups w) k c) -> pending w k cs u ->
  keeps w (set_unscanned u (allocated n w)).
Proof.
  intros K Hf Hc Hu. pose proof (keeps_allocated (X := X) (L := L) w n K) as Ka. eapply keeps_trans; [exact Ka|]. intros K1.
  apply keeps_unscanned; [done|]. apply Forall_forall. intros [k' c] [Hin|[Hk Hin]]%Hu; cbn in *.
  - eapply held_grows; [apply Ka|]. pose proof (walk_unscanned _ K) as Hall. rewrite Forall_forall in Hall. by apply (Hall (k', c)).
  - subst. by eapply fresh_held.
Qed.

Lemma keeps_record it k s w :
  walk_ok w -> selected w !! k = Some s -> item_ok (graph w) it -> keeps w (record_declaration it k (node s) w).
Proof.
  intros K E I. unfold record_declaration. destruct (shadow it); [by apply keeps_push_shadow|].
  eapply keeps_trans; [by eapply keeps_add_edge|]. intros K'. by apply keeps_declared.
Qed.

(** Candidates that are in the state now. *)
Lemma pool_held w k c : walk_ok w -> pool w c -> cand_ok (graph w) (groups w) k c -> held w k c.
Proof. intros K Hp Hc. split; [done|by apply K]. Qed.
End Operations.

Section Joining.
Context `{Unicode} `{SolverBackend} {G : Type} `{PetGraphLaws (Node.t RepoContext) G}.
Context {X L : CoordKey -> Prop}.

Abbreviation Failure := (ResolveError Error).
Abbreviation Item := (QueueItem RepoContext).
Abbreviation Cand := (@Candidate RepoContext RepoRef.t Project).
Abbreviation Sel := (@Selected RepoContext RepoRef.t Project).
Abbreviation W := (@Walk _ G).
Abbreviation nodes g := (Graph.node_count g).

(** The candidates join a selection. *)
Lemma keeps_joined (w : W) n k cs u s s' :
  walk_ok w -> selected w !! k = Some s -> fresh w n cs ->
  (forall c, c ∈ cs -> cand_ok (graph w) (groups w) k c) -> pending w k cs u ->
  node s' = node s -> (forall c, c ∈ candidates s' -> c ∈ candidates s \/ c ∈ cs) ->
  winner s' = winner s -> (exempt X w k \/ calm s s') ->
  keeps_but X L w (set_selected (<[k := s']> (selected w)) (set_unscanned u (allocated n w))).
Proof.
  intros K E [Hf Hfun] Hc Hu Hn Hin Hw Hx.
  assert (forall c, c ∈ candidates s -> arc_ok w c) as Ha by (intros c Hs; apply K; by exists k, s).
  assert (keeps_but X L w (allocated n (set_selected (<[k := s']> (selected w)) w))) as Kj.
  { eapply keeps_change; try done; cbn; [lia| |].
    - split_and!.
      + intros c [Hs|Hs]%Hin; [by eapply core_cand; [apply K|..]|by apply Hc].
      + intros c [Hs|Hs]%Hin; [by left|right; by apply Hf].
      + intros c c' [Hs|Hs]%Hin [Hs'|Hs']%Hin Hr Ea; [destruct (Ha c Hs); lia|..].
        * destruct (Ha c Hs); lia.
        * destruct (Ha c' Hs'), (Hf c Hs). lia.
        * by apply Hfun.
    - split; [done|]. intros won' Hw'. right. exists won'. split; [congruence|done]. }
  eapply keeps_trans; [exact Kj|]. intros K1.
  change (keeps_but X L (allocated n (set_selected (<[k := s']> (selected w)) w))
    (set_unscanned u (allocated n (set_selected (<[k := s']> (selected w)) w)))).
  apply keeps_unscanned; [done|]. apply Forall_forall. intros [k' c] [Hs|[Hk Hs]]%Hu; cbn in *.
  - eapply held_grows; [apply Kj|]. pose proof (walk_unscanned _ K) as Hall. rewrite Forall_forall in Hall. by apply (Hall (k', c)).
  - subst. split; [by apply Hc|]. destruct (Hf c Hs) as [Hr Hwf]. split_and!; [cbn; lia|done|].
    intros c' (k1 & s1 & E1 & Hc1) Ea. cbn in E1. apply lookup_insert_Some in E1 as [[<- <-]|[_ E1]].
    + apply Hin in Hc1 as [Hc1|Hc1]; [destruct (Ha c' Hc1); lia|by apply Hfun].
    + assert (arc c' < next_arc w); [|lia]. apply (walk_arcs _ K). by exists k1, s1.
Qed.

(** A new node for a new selection, which is left out. *)
Lemma keeps_add_node (w : W) n x k s :
  walk_ok w -> groups w !! k = None -> selected w !! k = None ->
  node s = nodes (graph w) -> winner s = None -> (forall c, c ∈ candidates s -> cand_ok (graph w) (groups w) k c) ->
  fresh w n (candidates s) -> rep (groups w) (key_of (Node.coord x)) = k ->
  keeps_but (fun e => X e \/ e = k) L w (allocated n (set_selected (<[k := s]> (selected (add_node x w))) (add_node x w))).
Proof.
  intros K Hk E Hs Hwin Hc [Hf Hfun] Hn. pose proof (walk_core _ K) as C. pose proof (core_graph _ _ _ C) as [V D R].
  destruct (add_node_spec (Graph.graph (graph w)) x V) as (V' & N & Er & Ei).
  set (g' := (Graph.insert_node (graph w) x).1).
  assert (Graph.graph g' = (pet_add_node (Graph.graph (graph w)) x).1 /\ Graph.root g' = Graph.root (graph w)) as [Eg Eroot].
  { unfold g', Graph.insert_node. by destruct (pet_add_node _ _). }
  rewrite <-Eg in V', N, Er.
  assert (arcs (Graph.graph g') = arcs (Graph.graph (graph w))) as Ea by (unfold arcs; by rewrite Er).
  assert (nodes g' = S (nodes (graph w))) as Hcount.
  { unfold Graph.node_count, pet_node_count. rewrite N, length_app. cbn. lia. }
  assert (core_ok g' (<[k := s]> (selected w)) (groups w)) as C'.
  { eapply core_add; try done. split; [done|by rewrite Ea|]. rewrite Eroot, Hcount. lia. }
  set (w' := allocated _ _).
  assert (forall c, pool w' c -> pool w c \/ c ∈ candidates s) as Hpool.
  { intros c (k1 & s1 & E1 & Hin). cbn in E1. apply lookup_insert_Some in E1 as [[<- <-]|[_ E1]]; [by right|left; by exists k1, s1]. }
  assert (forall c, pool w c -> arc c < next_arc w) as Hold by (intros c Hp; by apply (walk_arcs _ K)).
  assert (grows (fun e => X e \/ e = k) L w w') as Hg.
  { split; cbn; fold g'; [lia|done|done|lia|..].
    - intros c [?|Hin]%Hpool; [by left|right; by apply Hf].
    - intros k1 s1 E1. destruct (decide (k1 = k)) as [-> |Hne]; [left; exists k; auto|].
      apply (selected_refl _ w w'); [exact E1|by rewrite lookup_insert_ne in E1|done].
    - intros k1 s1 won' E1 Hw. apply lookup_insert_Some in E1 as [[<- <-]|[_ E1]]; [congruence|].
      right. exists k1, s1, won'. split_and!; try done. unfold Graph.node. cbn. fold g'. rewrite N.
      apply lookup_app_l. exact (proj1 (core_node _ _ _ C _ _ E1)). }
  split; [|done]. destruct K as [_ Lg F Ds Q P Cf U A]. split; cbn; fold g'; try done.
  - rewrite length_app, Hcount. cbn. lia.
  - apply Forall_app. split; [|by repeat constructor; lia]. eapply Forall_impl; [exact F|]. cbn. lia.
  - eapply Forall_impl; [exact Q|]. intros i Hi; exact (item_grows _ _ _ Hg Hi).
  - eapply Forall_impl; [exact P|]. intros l Hl; eapply Forall_impl; [exact Hl|]. intros i [Hi Hw]; split; [exact (item_grows _ _ _ Hg Hi)|done].
  - eapply Forall_impl; [exact Cf|]. intros i Hi; exact (held_grows _ _ _ _ Hg Hi).
  - eapply Forall_impl; [exact U|]. intros i Hi; exact (held_grows _ _ _ _ Hg Hi).
  - intros c [Hp|Hin]%Hpool; [exact (arc_grows _ _ _ Hg (A c Hp))|]. destruct (Hf c Hin) as [Hr Hwf].
    split_and!; [cbn; lia|done|]. intros c' [Hp|Hin']%Hpool Earc; [apply Hold in Hp; lia|by apply Hfun].
Qed.

Lemma groups_record it k n (w : W) : groups (record_declaration it k n w) = groups w.
Proof. unfold record_declaration. by destruct (shadow it). Qed.

Lemma groups_mark_dirty k (w : W) : groups (mark_dirty k w) = groups w.
Proof. unfold mark_dirty. by case_decide. Qed.
End Joining.

Section Adding.
Context `{Unicode} `{SolverBackend} {G : Type} `{PetGraphLaws (Node.t RepoContext) G}.
Context {X L : CoordKey -> Prop}.

Abbreviation Failure := (ResolveError Error).
Abbreviation Item := (QueueItem RepoContext).
Abbreviation Cand := (@Candidate RepoContext RepoRef.t Project).
Abbreviation Sel := (@Selected RepoContext RepoRef.t Project).
Abbreviation W := (@Walk _ G).
Abbreviation nodes g := (Graph.node_count g).
Abbreviation keeps := (keeps_but X L).
Abbreviation keeps_ok := (keeps_but_ok X L).

(** A declaration recorded for a group that was left out, which is marked dirty. *)
Lemma keeps_marked it k s (w w1 : W) :
  keeps_but (fun e => X e \/ e = k) L w w1 -> selected w1 !! k = Some s -> groups w1 !! k = None -> item_ok (graph w1) it ->
  keeps_ok w (after_joining k None (record_declaration it k (node s) w1)).
Proof.
  intros [K1 G1] E Hk I. cbn [after_joining keeps_but_ok]. apply (keeps_dirty_exempt k).
  - eapply keeps_trans; [by split|]. intros _. eapply keeps_trans; [by apply keeps_record|]. apply keeps_mark_dirty.
  - by rewrite groups_mark_dirty, groups_record.
  - apply mark_dirty_elem.
Qed.

Lemma keeps_enter_group it k cs n u w :
  walk_ok w -> groups w !! k = None -> item_ok (graph w) it ->
  (forall c, c ∈ cs -> cand_ok (graph w) (groups w) k c) -> fresh w n cs -> pending w k cs u ->
  keeps_ok w (enter_group it k cs (set_unscanned u (allocated n w))).
Proof.
  intros K Hk I Hc Hf Hu. unfold enter_group. pose proof (walk_core _ K) as C.
  assert (keeps w (set_unscanned u (allocated n w))) as Kp by (by eapply keeps_pending).
  cbn [selected set_unscanned allocated]. destruct (selected w !! k) as [s|] eqn:E.
  - destruct (join_group it cs s) as [[s' shortcut]|] eqn:J; [|exact Kp].
    apply join_group_elem in J as (Hn & Hw & Hcf & Hin & Hsub & Hl & Hcalm).
    destruct shortcut as [[from lowest]|].
    + pose proof (keeps_joined (X := X) (L := L) w n k cs u s s' K E Hf Hc Hu Hn Hin Hw (or_intror (Hcalm (mk_is_Some _ _ eq_refl)))) as Kj.
      set (w1 := set_selected _ _) in *. assert (selected w1 !! k = Some s') as E1 by apply lookup_insert_eq.
      assert (forall c, c ∈ cs -> pool w1 c /\ cand_ok (graph w1) (groups w1) k c) as Hp.
      { intros c Hin'. split; [exists k, s'; auto|]. eapply cand_grows; [apply Kj|auto]. }
      clearbody w1. destruct Kj as [K1 G1]. eapply keeps_ok_then.
      { eapply keeps_trans; [by split|]. intros _. apply keeps_record; [done|done|by eapply item_grows]. }
      intros [K2 G2]. apply keeps_after_joining; [done|]. intros from' c Hs. destruct (Hp c (Hl _ _ Hs)) as [Hpc Hcc].
      apply (held_grows (X := X) (L := L) w1); [|by apply pool_held].
      apply (keeps_record (X := X) (L := L) it k s' w1); [done|done|by eapply item_grows].
    + pose proof (keeps_joined (X := fun e => X e \/ e = k) (L := L) w n k cs u s s' K E Hf Hc Hu Hn Hin Hw
        (or_introl (ex_intro _ k (conj (or_intror eq_refl) eq_refl)))) as Kj.
      eapply keeps_marked; [exact Kj|apply lookup_insert_eq|done|done].
  - destruct (bool_decide _); [exact Kp|]. destruct (last cs) as [c|] eqn:Hlast; [|exact Kp].
    assert (c ∈ cs) as Hin by (by apply last_Some_elem_of).
    set (x := new_node (coord c) (effective_scope (dependency (item c)))).
    set (s := new_selected (nodes (graph w)) cs).
    assert (rep (groups w) (key_of (Node.coord x)) = k) as Hx by (cbn; destruct (Hc c Hin) as [-> _]; by apply rep_root).
    pose proof (keeps_add_node (X := X) (L := L) w n x k s K Hk E eq_refl eq_refl Hc Hf Hx) as Ka.
    set (w1 := allocated n (set_selected (<[k := s]> (selected (add_node x w))) (add_node x w))) in Ka.
    assert (keeps_but (fun e => X e \/ e = k) L w (set_unscanned u w1)) as Ku.
    { eapply keeps_trans; [exact Ka|]. intros K1. apply keeps_unscanned; [done|]. apply Forall_forall.
      intros [k' c'] [Hs|[Hk' Hs]]%Hu; cbn in *.
      - eapply held_grows; [apply Ka|]. pose proof (walk_unscanned _ K) as Hall. rewrite Forall_forall in Hall. by apply (Hall (k', c')).
      - rewrite Hk'. apply pool_held; [done|exists k, s; split; [apply lookup_insert_eq|done]|].
        eapply cand_grows; [apply Ka|by apply Hc]. }
    change (keeps_ok w (after_joining k None (record_declaration it k (node s) (set_unscanned u w1)))).
    eapply keeps_marked; [exact Ku|apply lookup_insert_eq|done|]. destruct Ku as [_ Gu]. by eapply item_grows.
Qed.

Lemma keeps_place_candidates it k target cs n w :
  walk_ok w -> groups w !! k = None -> item_ok (graph w) it ->
  (forall c, c ∈ cs -> cand_ok (graph w) (groups w) k c) -> fresh w n cs ->
  keeps_ok w (place_candidates it k target cs (allocated n w)).
Proof.
  intros K Hk I Hc Hf. unfold place_candidates.
  pose proof (keeps_allocated (X := X) (L := L) w n K) as Ka.
  destruct (match shadow it with Some _ => _ | None => _ end); [..|exact Ka];
    destruct (last cs) as [highest|] eqn:Hl; try exact Ka.
  - assert (highest ∈ cs) as Hin by (by apply last_Some_elem_of). destruct (_ && _).
    + change (keeps_ok w (enter_group it k cs (set_unscanned (unscanned w ++ [(k, highest)]) (allocated n w)))).
      apply keeps_enter_group; try done. intros x [?|Hx]%elem_of_app; [by left|].
      apply list_elem_of_singleton in Hx. subst. by right.
    + change (keeps_ok w (enter_group it k cs (set_unscanned (unscanned w) (allocated n w)))).
      apply keeps_enter_group; try done. intros x Hx. by left.
  - case_decide.
    + eapply keeps_ok_trans; [exact Ka|]. intros K1. apply keeps_queue_children; [done|by apply root_counts].
    + eapply keeps_ok_then; [exact Ka|]. intros [K1 _]. apply keeps_loads; [done|]. constructor; [|apply K1].
      apply Forall_forall. intros c Hin. split; [by apply Hc|by apply Hf].
Qed.

Lemma keeps_add_resolution r w :
  walk_ok w -> item_ok (graph w) (item (res_candidate r)) -> cand_wf (res_candidate r) ->
  keeps_ok w (add_resolution r w).
Proof.
  intros K I Hr. unfold add_resolution. destruct (refuse_cycle _ _); [|done]. cbn.
  set (l := if path_contains _ _ then _ else _).
  eapply keeps_ok_then; [apply (keeps_foldl' (fun w alias => union_groups alias (key_of (coord (res_candidate r))) w) l w);
    [intros; by apply keeps_union|done]|].
  generalize (foldl (fun w alias => union_groups alias (key_of (coord (res_candidate r))) w) w l). intros w' [K' G'].
  eapply item_grows in I; [|exact G']. clear w K G' l. destruct (_ || _).
  - destruct (shadow _); [by apply keeps_refl|]. unfold selection_of.
    destruct (selected w' !! _) as [s|] eqn:E; [|by apply keeps_refl]. by eapply keeps_add_edge.
  - apply keeps_place_candidates; [done| |done|..].
    + apply (core_forest _ _ _ (walk_core _ K')).
    + intros c (Ek & Ei & _)%new_candidates_elem. split; [|unfold item_ok in *; by rewrite Ei].
      rewrite Ek. symmetry. by apply (group_root w').
    + split.
      * intros c (_ & _ & _ & Ha & Hw)%new_candidates_elem. split; [done|by apply Hw].
      * intros c c' (_ & _ & Eh & _)%new_candidates_elem (_ & _ & Eh' & _)%new_candidates_elem. congruence.
Qed.

(** ** Loads and commits *)

Lemma keeps_give_way k s c stops w :
  walk_ok w -> selected w !! k = Some s -> keeps w (give_way k s c stops w).
Proof.
  intros K E. unfold give_way. set (kept := List.filter _ _).
  eapply keeps_trans; [apply (keeps_shrunk w k s (with_candidates s kept)); try done|].
  { by intros c' [Hc _]%filter_elem. }
  intros K1. cbv zeta. generalize dependent (set_selected (<[k := with_candidates s kept]> (selected w)) w). intros w1 K1.
  eapply keeps_trans; [|apply keeps_mark_dirty]. eapply keeps_trans; [|apply keeps_revalidate].
  destruct (_ && _); [by apply keeps_remove_edge|by apply keeps_refl].
Qed.

Lemma keeps_apply_load k c l w :
  walk_ok w -> held w k c -> load_of c l -> keeps_ok w (apply_load k c l w).
Proof.
  intros K [[Ec Ic] Ha] Hl. unfold apply_load. destruct (selected w !! k) as [s|] eqn:E; [|by apply keeps_refl].
  pose proof (fun stops => keeps_give_way k s c stops w K E) as Hgive.
  destruct l as [c'|r|r|]; cbn in Hl.
  - destruct Hl as (El & Ei & _ & Eh & Hw). set (new := Build_Candidate _ _ _ _ _ _ _ _).
    assert (forall x, x ∈ map (fun c' => if ptr_eq c' c then new else c') (candidates s) ->
      x ∈ candidates s \/ x = new /\ exists c0, c0 ∈ candidates s /\ hard c0 = hard new) as Hel.
    { intros x (c0 & -> & Hc0)%list_elem_of_fmap. destruct (ptr_eq c0 c) eqn:Ep; [right|by left].
      split; [done|]. exists c0. split; [done|]. unfold ptr_eq in Ep. apply Nat.eqb_eq in Ep.
      cbn. rewrite Eh. apply Ha; [by exists k, s|done]. }
    assert (forall x, x ∈ candidates s -> arc_ok w x) as Harc by (intros x Hx; apply K; by exists k, s).
    cbn [keeps_but_ok]. eapply keeps_change; try done; cbn [next_arc allocated set_selected candidates with_candidates]; [lia| |].
    + split_and!.
      * intros x [Hx|[-> _]]%Hel; [by eapply core_cand; [apply K|..]|]. split; cbn; [by rewrite El|].
        unfold item_ok in *. by rewrite Ei.
      * intros x [Hx|[-> _]]%Hel; [by left|right]. cbn. split; [lia|]. apply Hw, Ha.
      * intros x y [Hx|[-> _]]%Hel [Hy|[-> _]]%Hel Hr Ea; [destruct (Harc x Hx); lia| | |done].
        -- destruct (Harc x Hx). lia.
        -- destruct (Harc y Hy). cbn in Ea. lia.
    + apply changed_calm, calm_sub; [done..|]. cbn. intros x [Hx|[-> Hx]]%Hel; [by exists x|done].
  - eapply keeps_ok_then; [apply Hgive|]. intros [K1 G1]. destruct Hl as [[Hp _] Hw]. apply keeps_add_resolution; [done| |done].
    eapply item_grows; [done|]. unfold item_ok in *. by rewrite Hp.
  - eapply keeps_ok_then; [apply Hgive|]. intros [K1 G1]. destruct Hl as [[Hp _] Hw]. apply keeps_add_resolution; [done| |done].
    eapply item_grows; [done|]. unfold item_ok in *. by rewrite Hp.
  - apply Hgive.
Qed.

(** A node takes the coordinate of its group's new winner. *)
Lemma keeps_update_node k n f w :
  walk_ok w -> places w !! k = Some n -> (forall x, rep (groups w) (key_of (Node.coord (f x))) = k) -> exempt L w k ->
  keeps w (set_graph (Graph.update_node (graph w) n f) w).
Proof.
  intros K (s & E & <-)%places_lookup Hf Hx. pose proof (walk_core _ K) as C.
  destruct (set_weights_spec (Graph.graph (graph w)) (alter f (node s) (node_weights (Graph.graph (graph w)))))
    as (_ & N & _); [apply K|by rewrite length_alter|].
  apply keeps_core; cbn; try done.
  - by eapply core_relabel; [apply K|..].
  - unfold Graph.update_node, Graph.node_count, pet_node_count. cbn. by rewrite N, length_alter.
  - intros c Hc. by left.
  - intros k1 s1 E1. by apply (selected_refl X w (set_graph (Graph.update_node (graph w) (node s) f) w)).
  - intros k1 s1 won' E1 Hw. destruct (decide (k1 = k)) as [-> |Hne]; [by left|right].
    exists k1, s1, won'. split_and!; try done. unfold Graph.node, Graph.update_node. cbn. rewrite N.
    apply list_lookup_alter_ne. intros En. apply Hne. by eapply (core_distinct _ _ _ C).
Qed.
End Adding.

(** *** A commit, in its steps *)

Definition just (k : CoordKey) : CoordKey -> Prop := fun e => e = k.

Section Commit.
Context `{Unicode} `{SolverBackend} {G : Type} `{PetGraphLaws (Node.t RepoContext) G}.

Abbreviation Cand := (@Candidate RepoContext RepoRef.t Project).
Abbreviation Sel := (@Selected RepoContext RepoRef.t Project).
Abbreviation W := (@Walk _ G).

(** The winner is set, its node is retired, takes its coordinate, and its declarations
    are queued. *)
Record commits (k : CoordKey) (won : Cand) (w w' : W) (s s1 : Sel) (project : Project) (w1 w2 w3 : W) : Prop := {
  commits_at : selected w !! k = Some s;
  commits_to : selected w1 !! k = Some s1;
  commits_candidates : candidates s1 = candidates s;
  commits_winner : winner s1 = Some won;
  commits_conflict : conflict s1 = conflict s;
  commits_node : node s1 = node s;
  commits_groups : groups w1 = groups w;
  commits_set : keeps_but (just k) (just k) w w1;
  commits_retire X L : keeps_but X L w1 w2;
  commits_placed : exists s2, selected w2 !! k = Some s2 /\ node s2 = node s;
  commits_label : keeps_but (fun _ => False) (just k) w2 w3;
  commits_labelled n : Graph.node (graph w2) (node s) = Some n -> Graph.node (graph w3) (node s) = Some (winner_node won project n);
  commits_same : selected w3 = selected w2 /\ dirty_set w3 = dirty_set w2 /\ groups w3 = groups w2;
  commits_rest X L : keeps_but X L w3 w';
}.

Lemma commit_steps k won w w' :
  walk_ok w -> held w k won -> is_Some (selected w !! k) -> is_Some (resolved_project won) -> commit k won w = Ok w' ->
  exists s s1 project w1 w2 w3, commits k won w w' s s1 project w1 w2 w3.
Proof.
  intros K [Hc _] [s E] [project Ep]. unfold commit. destruct (refuse_cycle won w); [|done]. cbn.
  rewrite E, Ep. set (changes := if existsb _ _ then _ else _). destruct (_ <? _)%N; [done|]. cbv zeta.
  set (s1 := Build_Selected _ _ _ _ _ _ _ _ _ _ _). set (convert := winner s ≫= _).
  set (w1 := set_selected (<[k := s1]> (selected w)) w).
  set (w2 := retire (node s1) convert w1).
  set (w3 := set_graph (Graph.update_node (graph w2) (node s1) (winner_node won project)) w2). intros Er.
  assert (keeps_but (just k) (just k) w w1) as K1.
  { eapply keeps_left_out; try done. split; [left; by exists k|]. intros won' _. left. by exists k. }
  assert (forall X L, keeps_but X L w1 w2) as K2 by (intros X L; apply keeps_retire, K1).
  assert (places w2 !! k = Some (node s)) as Hp.
  { unfold w2. rewrite places_retire. unfold places. cbn. by rewrite lookup_fmap, lookup_insert_eq. }
  destruct (K2 (just k) (just k)) as [W2 G2]. pose proof (places_lookup _ _ _ Hp) as (s2 & E2 & N2).
  pose proof (walk_core _ W2) as C2.
  assert (keeps_but (fun _ => False) (just k) w2 w3) as K3.
  { apply (keeps_update_node k); [done|done| |by exists k].
    intros x. destruct (cand_grows _ _ _ _ (proj2 K1) Hc) as [Er' I'].
    destruct (cand_grows _ _ _ _ G2 (conj Er' I')) as [Er2 _]. cbn.
    rewrite (rep_root _ k) in Er2 by (by eapply core_rep). exact Er2. }
  exists s, s1, project, w1, w2, w3. split; try done.
  - apply lookup_insert_eq.
  - by exists s2.
  - intros n En. unfold w3, Graph.node, Graph.update_node. cbn.
    destruct (set_weights_spec (Graph.graph (graph w2)) (alter (winner_node won project) (node s) (node_weights (Graph.graph (graph w2)))))
      as (_ & N & _); [apply C2|by rewrite length_alter|].
    rewrite N, list_lookup_alter_eq. unfold Graph.node in En. by rewrite En.
  - intros X L. destruct K3 as [W3 G3].
    assert (keeps_but_ok X L w3 (Ok w')) as Hk; [|exact Hk]. rewrite <-Er.
    eapply keeps_ok_then; [by apply (keeps_revalidate k)|]. intros [W4 G4]. apply keeps_queue_children; [done|].
    pose proof (core_node _ _ _ C2 _ _ E2) as [Hlt _]. rewrite N2 in Hlt.
    eapply Nat.lt_le_trans; [exact Hlt|]. etrans; [exact (grows_nodes _ _ _ _ G3)|exact (grows_nodes _ _ _ _ G4)].
Qed.
End Commit.
