(* ===== verification/Solve.v ===== *)
(** * Solving ([Solver] of [rv-resolver/src/solver/mod.rs])

    The loops that drive the walk: declarations are taken from the queue in order, read,
    and mediated before the next is read; the graph is finished once nothing is left to
    do.  Loops whose end depends on what the backend answers take a budget, and a run
    that exceeds it has no result ([None]). *)

From Stdlib Require Import Ascii String Lia.
From stdpp Require Import base list strings gmap.
From S2P Require Import ConflictOrder Scopes Prelude Iter Str Version Range Coordinates Snapshot Dependency DepManagement Keys Queue Management Relocation Graph Mediation Load Walk.

#[local] Set Warnings "-clear-no-such-hyp".

Section Solve.
Context `{Unicode} `{SolverBackend} (management : Management).
Context {G : Type} `{PetGraph (Node.t RepoContext) G}.
Context (budget : N).

Abbreviation Failure := (ResolveError Error).
Abbreviation Item := (QueueItem RepoContext).
Abbreviation Cand := (@Candidate RepoContext RepoRef.t Project).
Abbreviation Sel := (@Selected RepoContext RepoRef.t Project).
Abbreviation W := (@Walk _ G).

(** A run: no result when a budget did not suffice. *)
Definition Run (A : Type) : Type := option (result Failure A).

#[global] Instance run_ret : MRet Run := fun A a => Some (Ok a).
#[global] Instance run_bind : MBind Run := fun A B f m =>
  match m with None => None | Some (Err e) => Some (Err e) | Some (Ok a) => f a end.

Definition ran {A} (o : option A) : Run A := match o with Some a => Some (Ok a) | None => None end.

(** The run a loop leaves with; a loop that exceeds its budget has none. *)
Definition joined {A} (o : option (Run A)) : Run A := match o with Some r => r | None => None end.

(** What is read through the relocation cache of the walk. *)
Definition reading {A} (m : Cached A) (w : W) : Run (A * W) :=
  match m (relocations w) with
  | None => None
  | Some (Err e, _) => Some (Err e)
  | Some (Ok a, cache) => Some (Ok (a, set_relocations cache w))
  end.

(** A loop over a list whose body is a run. *)
Fixpoint each_run {A S} (f : A -> S -> Run S) (l : list A) (s : S) : Run S :=
  match l with
  | [] => mret s
  | a :: l => s ← f a s; each_run f l s
  end.

(** ** Loading candidates of a group *)

(** [load_in_order]: the loads in order, through the first that relocates, is excluded
    or fails. *)
Fixpoint load_in_order (probes : list Cand) (cache : gmap (CoordText * RepoContext) (Coord.t * list Coord.t))
    : option (list (result Failure Load) * gmap (CoordText * RepoContext) (Coord.t * list Coord.t)) :=
  match probes with
  | [] => Some ([], cache)
  | probe :: probes =>
    '(loaded, cache) ← load_candidate management probe cache;
    match loaded with
    | Ok (Ready _) | Ok (Cyclic _) =>
      '(rest, cache) ← load_in_order probes cache;
      Some (loaded :: rest, cache)
    | _ => Some ([loaded], cache)
    end
  end.

(** The versions of the candidate's range below it that are not loaded, lowest first. *)
Definition lower_versions (s : Sel) (c : Cand) : list Cand :=
  sort_by (fun a b => negb (source_ltb (source b) (source a)))
    (List.filter (fun c' =>
       (declared_at (item c') =? declared_at (item c))%N && bool_decide (resolved_project c' = None)
       && (length (source c') =? length (source c))
       && bool_decide (removelast (source c') = removelast (source c))
       && source_ltb (source c') (source c)) (candidates s)).

(** The loads of [load_one] applied, in order, from the place [index] on, of [last] the
    last: [Some] of the candidate that relocated ends the loop. *)
Fixpoint apply_loads (key : CoordKey) (last index : nat) (loads : list (Cand * result Failure Load)) (w : W)
    : result Failure (option Cand * W) :=
  match loads with
  | [] => Ok (None, w)
  | (probe, loaded) :: loads =>
    let group := group_of w key in
    if negb (holds w group probe) then
      apply_loads key last (S index) loads (if index =? last then mark_dirty group w else w)
    else
      loaded ← loaded;
      let relocated := match loaded with Ready _ | Cyclic _ => false | _ => true end in
      w ← apply_load group probe loaded w;
      if relocated then Ok (Some probe, w) else apply_loads key last (S index) loads w
  end.

(** [load_one]. *)
Definition load_one (key : CoordKey) (c : Cand) (w : W) : Run (option Cand * W) :=
  let lower := from_option (fun s => lower_versions s c) [] (selected w !! key) ++ [c] in
  '(loads, cache) ← ran (load_in_order lower (relocations w));
  let w := set_relocations cache w in
  '(relocated, w) ← (Some (apply_loads key (length lower - 1) 0 (zip lower loads) w) : Run _);
  match relocated with
  | Some probe => mret (Some probe, w)
  | None =>
    mret (None, if length loads =? length lower then w else mark_dirty (group_of w key) w)
  end.

(** [load]: where a version relocated, the same version of other declarations does. *)
Definition load (key : CoordKey) (c : Cand) (w : W) : Run W :=
  '(relocated, w) ← load_one key c w;
  match relocated with
  | None => mret w
  | Some probe =>
    let others := from_option (fun s => List.filter (fun c =>
        bool_decide (resolved_project c = None) && same_text (coord c) (coord probe)) (candidates s))
      [] (selection_of w key) in
    each_run (fun other w =>
      let key := group_of w key in
      if holds w key other then '(_, w) ← load_one key other w; mret w else mret w) others w
  end.

(** [confirm]. *)
Definition confirm (entry : CoordKey * Cand * nat) (w : W) : Run W :=
  let '(key, c, from) := entry in
  let key := group_of w key in
  match pending_at w key c from with
  | None => mret (mark_dirty key w)
  | Some index =>
    '(loaded, w) ← reading (load_candidate management c) w;
    match loaded, selected w !! key with
    | Ready loaded, Some s =>
      let c := {| arc := next_arc w; item := item loaded; coord := coord loaded;
                  resolved_version := resolved_version loaded; resolved_project := resolved_project loaded;
                  hard := hard loaded; source := source loaded; inherited := inherited loaded |} in
      Some (scan_losers key from (allocated 1
        (set_selected (<[key := with_candidates s (<[index := c]> (candidates s))]> (selected w)) w)))
    | _, _ => mret (mark_dirty key w)
    end
  end.

(** ** Mediating a group again *)

Definition with_checked (s : Sel) (at_place : N) : Sel := {|
  node := node s; candidates := candidates s; winner := winner s; winner_path := winner_path s;
  scanned := scanned s; walked := walked s; dirty_checked := {[at_place]} ∪ dirty_checked s;
  conflict := conflict s; winners := winners s; changes := changes s; settled := settled s |}.

Definition note_checked (key : CoordKey) (at_place : N) (w : W) : W :=
  match selected w !! key with
  | Some s => set_selected (<[key := with_checked s at_place]> (selected w)) w
  | None => w
  end.

Definition with_outcome (s : Sel) (won : option Cand) (c : option Conflict) (st : option Settled) : Sel := {|
  node := node s; candidates := candidates s; winner := won; winner_path := winner_path s;
  scanned := scanned s; walked := walked s; dirty_checked := dirty_checked s;
  conflict := c; winners := winners s; changes := changes s; settled := st |}.

(** One losing range whose preferred version is probed for a relocation; the flag says
    whether one relocated. *)
Definition probe_dirty (key : CoordKey) (c : Cand) (st : W * bool) : Run (W * bool) :=
  let '(w, relocated) := st in
  let key := group_of w key in
  if negb (holds w key c) then mret st
  else
    let already := is_some_and (fun s => existsb (fun c' =>
        same_text (coord c') (coord c) && bool_decide (path_repos (item_path (item c')) = path_repos (item_path (item c)))
        && bool_decide (is_Some (resolved_project c'))) (candidates s)) (selected w !! key) in
    if already then mret (note_checked key (declared_at (item c)) w, relocated)
    else
      '(loaded, w) ← reading (load_candidate management c) w;
      match loaded with
      | Relocated _ | Cyclic _ => w ← load key c w; mret (w, true)
      | _ => mret (note_checked key (declared_at (item c)) w, relocated)
      end.

(** [unconfirmed] candidates that are still held are loaded. *)
Definition load_held (key : CoordKey) (c : Cand) (w : W) : Run W :=
  let key := group_of w key in
  if holds w key c then load key c w else mret w.

(** The winner is settled, and its losers are scanned. *)
Definition settle_group (key : CoordKey) (w : W) : result Failure W :=
  let w :=
    match selected w !! key with
    | Some s => set_selected (<[key := with_outcome s (winner s) (conflict s) (settle s)]> (selected w)) w
    | None => w
    end in
  scan_losers key 0 w.

(** One turn of [reconsider]: another turn, or the end. *)
Definition reconsider_step (key : CoordKey) (w : W) : W + Run W :=
  let continue (r : Run W) : W + Run W :=
    match r with Some (Ok w) => inl w | Some (Err e) => inr (Some (Err e)) | None => inr None end in
  let key := group_of w key in
  match selected w !! key with
  | None => inr (mret w)
  | Some s =>
    let s := with_outcome s (winner s) (conflict s) None in
    let w := set_selected (<[key := s]> (selected w)) w in
    if forallb (fun c => bool_decide (is_Some (shadow (item c)))) (candidates s) then inr (mret (drop_group key w))
    else
      let best := best s in
      match unconfirmed s best, best with
      | (_ :: _) as unconfirmed, _ => continue (each_run (load_held key) unconfirmed w)
      | [], None => inr (mret (set_selected (<[key := with_outcome s (winner s) (note_conflict s) None]> (selected w)) w))
      | [], Some best =>
        match each_run (probe_dirty key) (dirty_ranges s best) (w, false) with
        | None => inr None
        | Some (Err e) => inr (Some (Err e))
        | Some (Ok (w, true)) => inl w
        | Some (Ok (w, false)) =>
          match selected w !! key with
          | None => inr None
          | Some s =>
            let s := with_outcome s (winner s) None (settled s) in
            let w := set_selected (<[key := s]> (selected w)) w in
            if winner_is s best then
              let w := set_selected (<[key := with_outcome s (Some best) None (settled s)]> (selected w)) w in
              inr (Some (settle_group key w))
            else if decide (resolved_project best = None) then continue (load key best w)
            else inr (Some (w ← commit key best w; settle_group key w))
          end
        end
      end
  end.

Definition reconsider (key : CoordKey) (w : W) : Run W :=
  joined (run_loop (reconsider_step key) budget w).

(** ** Mediating a declaration *)

(** A version of a range that a shadow walk loaded. *)
Definition add_loaded (loaded : result Failure Load) (w : W) : result Failure W :=
  loaded ← loaded;
  match loaded with
  | Ready c => add_resolution (only c) w
  | Relocated r | Cyclic r => add_resolution r w
  | Excluded => Ok w
  end.

(** One turn of the loop of [mediate]. *)
Definition mediate_step (w : W) : W + Run W :=
  let continue (r : Run W) : W + Run W :=
    match r with Some (Ok w) => inl w | Some (Err e) => inr (Some (Err e)) | None => inr None end in
  match unscanned w with
  | (key, c) :: rest =>
    let w := set_unscanned rest w in
    continue (load_held key c w)
  | [] =>
    match walk_loads w with
    | probes :: rest =>
      let w := set_loads rest w in
      continue (
        '(loads, cache) ← ran (load_in_order probes (relocations w));
        Some (each add_loaded loads (set_relocations cache w)))
    | [] =>
      match to_confirm w with
      | (_ :: _) as entries => continue (each_run confirm entries (set_confirm [] w))
      | [] =>
        match take_dirty w with
        | Some (key, w) => continue (reconsider key w)
        | None => inr (mret w)
        end
      end
    end
  end.

(** [mediate]: a declaration that went stale while queued is dropped, failures
    included. *)
Definition mediate (it : Item) (outcome : result Failure (option Resolution)) (w : W) : Run W :=
  if negb (is_live w it) then mret w
  else
    match outcome with
    | Err e => Some (Err e)
    | Ok found =>
      w ← (Some (match found with None => Ok w | Some r => add_resolution r w end) : Run W);
      joined (run_loop mediate_step budget w)
    end.

(** ** The walk from its start to its end *)

Record SolverRoot := { root_coord : Coord.t; root_dependencies : list Dependency; root_scope : Scope }.

Definition root_node (r : SolverRoot) : Node.t RepoContext := {|
  Node.coord := root_coord r; Node.scope := root_scope r; Node.repo_url := None; Node.build_repo := None;
  Node.repos := no_repos; Node.checksum := None; Node.workspace_module := module_at (root_coord r);
  Node.local := false; Node.system_path := None; Node.winner_parent := None |}.

(** One of the root's own dependencies: checked before any is read, and queued. *)
Definition start_item (path : PathNode RepoContext) (entry : nat * Dependency) (w : W) : result Failure W :=
  let '(index, d) := entry in
  let it := {|
    item_parent := Graph.root (graph w); parent_generation := ROOT_GENERATION; dependency := d;
    item_managed_scope := false; depth := 1; order := child (next_order w) TreeRoot (N.of_nat index);
    declared_at := next_declared_at w; item_exclusions := []; item_path := path; shadow := None |} in
  let w := order_allocated (declare_one w) in
  let managed := apply_managed_metadata management it in
  let d := dependency managed in
  _ ← (if decide (effective_scope d = Import) then Ok ()
       else
         version ← map_err missing_version (resolve_version_str management d 1);
         _ ← refuse_undefined_property managed version;
         _ ← requirement_of (group_id d) (artifact_id d) version;
         Ok ());
  push_item it w.

(** [start], which is all of [check_root]. *)
Definition start (r : SolverRoot) : result Failure W :=
  each (start_item (path_root no_repos (root_coord r))) (imap pair (root_dependencies r))
    (new_walk (new_graph (root_node r))).

(** The winner of a group that still names an undefined property, the first declared. *)
Definition unresolved_winner (w : W) : option Cand :=
  let reached := Graph.reachable (graph w) in
  min_by (fun a b => N.compare (declared_at (item a)) (declared_at (item b)))
    (omap (fun s : Sel => c ← winner s;
       if names_property (coord c) && bool_decide (node s ∈ reached) then Some c else None)
      (map snd (map_to_list (selected w)))).

Definition refuse_unresolved_winners (w : W) : result Failure unit :=
  match unresolved_winner w with
  | None => Ok ()
  | Some c =>
    version ← version_of management (item c);
    map_err (fun err => declared_below err (item_path (item c))) (refuse_undefined_property (item c) version)
  end.

(** The conflict first declared. *)
Definition first_conflict (w : W) : option Conflict :=
  min_by (fun a b => sort_key_cmp (conflict_at a) (conflict_at b))
    (omap conflict (map snd (map_to_list (selected w)))).

(** [Walk::finish]. *)
Definition finish (w : W) : Run (Graph.Graph G) :=
  g ← (match Scopes.select_scopes (graph w) with
       | None => None
       | Some r => Some (map_err limit_failure r)
       end : Run _);
  _ ← (Some (each (fun (s : Sel) _ =>
         match winner s, Graph.node g (node s) with
         | Some won, Some n => note_winner (Node.coord n) (item_path (item won))
         | _, _ => Ok ()
         end) (map snd (map_to_list (selected w))) ()) : Run _);
  match first_conflict w with
  | Some c => Some (Err (VersionConflict (conflict_coord c) (conflict_requested c) (conflict_selected c)))
  | None => mret g
  end.

(** [BinaryHeap::pop]: a greatest item, and the others. *)
Fixpoint pop_greatest (first : Item) (rest : list Item) : Item * list Item :=
  match rest with
  | [] => (first, [])
  | it :: rest =>
    match item_cmp first it with
    | Lt => let '(top, others) := pop_greatest it rest in (top, first :: others)
    | _ => let '(top, others) := pop_greatest first rest in (top, it :: others)
    end
  end.

(** One turn of [solve]: the walk goes on, or there is a graph. *)
Definition solve_step (w : W) : W + Run (Graph.Graph G) :=
  match queue w with
  | [] =>
    match walk_excluded_dependencies w with
    | Err e => inr (Some (Err e))
    | Ok (w, true) => inl w
    | Ok (w, false) =>
      inr (_ ← (Some (refuse_unresolved_winners w) : Run _); finish w)
    end
  | first :: rest =>
    let '(it, rest) := pop_greatest first rest in
    let w := set_queue rest w in
    match resolve_item management it (relocations w) with
    | None => inr None
    | Some (outcome, cache) =>
      let outcome := map_err (fun err => declared_below err (item_path it)) outcome in
      match mediate it outcome (set_relocations cache w) with
      | Some (Ok w) => inl w
      | Some (Err e) => inr (Some (Err e))
      | None => inr None
      end
    end
  end.

(** [solve]. *)
Definition solve (r : SolverRoot) : Run (Graph.Graph G) :=
  w ← (Some (start r) : Run W);
  joined (run_loop solve_step budget w).
End Solve.
