(* ===== verification/SolveInv.v ===== *)
(** * The invariant of a resolution ([Solver] of [rv-resolver/src/solver/mod.rs])

    Every turn of the loops of [solve] keeps the invariant of the walk, so that it holds
    of the graph a resolution returns: it has one node per artifact.  What is loaded for
    a group keeps the winners of the others; [SolveFacts.v] goes on from there. *)

From Stdlib Require Import Ascii String Lia.
From stdpp Require Import base list strings gmap relations.
From S2P Require Import ConflictOrder Scopes Prelude Iter Str Version Range Coordinates Snapshot Dependency DepManagement Keys Queue Management Relocation Graph Mediation Load Walk WalkInv WalkOps Solve.

#[local] Set Warnings "-clear-no-such-hyp".

Lemma elem_of_inserted {A} (l : list A) i x y : y ∈ <[i := x]> l -> y = x \/ y ∈ l.
Proof.
  intros (j & [(_ & <- & _)|[_ Hj]]%list_lookup_insert_Some)%list_elem_of_lookup_1; [by left|].
  right. by eapply list_elem_of_lookup_2.
Qed.

Section SolveInv.
Context `{Unicode} `{SolverBackend} (management : Management).
Context {G : Type} `{PetGraphLaws (Node.t RepoContext) G} (budget : N).
Context {X L : CoordKey -> Prop}.

Abbreviation Failure := (ResolveError Error).
Abbreviation Item := (QueueItem RepoContext).
Abbreviation Cand := (@Candidate RepoContext RepoRef.t Project).
Abbreviation Sel := (@Selected RepoContext RepoRef.t Project).
Abbreviation W := (@Walk _ G).
Abbreviation keeps := (keeps_but X L).
Abbreviation keeps_ok := (keeps_but_ok X L).

Definition keeps_run (w : W) (r : Run W) : Prop :=
  match r with Some (Ok w') => keeps w w' | _ => True end.

(** The same, of code that returns something beside the walk. *)
Definition keeps_with {A} (w : W) (P : A -> W -> Prop) (r : Run (A * W)) : Prop :=
  match r with Some (Ok (a, w')) => keeps w w' /\ P a w' | _ => True end.

Lemma keeps_run_then w w' r : keeps w w' -> (keeps w w' -> keeps_run w' r) -> keeps_run w r.
Proof. intros K HK. destruct r as [[w1|]|]; try done. specialize (HK K). cbn in *. by eapply keeps_trans. Qed.

Lemma keeps_run_bind w (r : Run W) f :
  keeps_run w r -> (forall w', keeps w w' -> keeps_run w' (f w')) -> keeps_run w (r ≫= f).
Proof.
  intros Hr Hf. destruct r as [[w'|]|]; try done. cbn in *. eapply keeps_run_then; [done|]. by intros; apply Hf.
Qed.

Lemma keeps_with_bind {A} w (P : A -> W -> Prop) (r : Run (A * W)) f :
  keeps_with w P r -> (forall a w', keeps w w' -> P a w' -> keeps_run w' (f (a, w'))) -> keeps_run w (r ≫= f).
Proof.
  intros Hr Hf. destruct r as [[[a w']|]|]; try done. cbn in *. destruct Hr as [K HP].
  eapply keeps_run_then; [done|]. intros _. by apply Hf.
Qed.

Lemma keeps_each_run {A} (f : A -> W -> Run W) l w :
  walk_ok w -> (forall a w', a ∈ l -> keeps w w' -> keeps_run w' (f a w')) -> keeps_run w (each_run f l w).
Proof.
  revert w. induction l as [|a l IH]; intros w K Hf; [by apply keeps_refl|]. cbn [each_run].
  apply keeps_run_bind; [apply Hf; [by left|by apply keeps_refl]|]. intros w' K'. apply IH; [apply K'|].
  intros b w'' Hb K''. apply Hf; [by right|]. by eapply keeps_trans.
Qed.

(** A run that is only a fallible operation. *)
Lemma keeps_run_ok w (r : result Failure W) : keeps_ok w r -> keeps_run w (Some r).
Proof. by destruct r. Qed.

(** ** Loading *)

Lemma cand_group w k c :
  walk_ok w -> held w k c -> held w (group_of w k) c.
Proof. intros K [[E I] A]. split; [|done]. split; [|done]. rewrite E. symmetry. by apply group_root. Qed.

Lemma own_held w k s c : walk_ok w -> selected w !! k = Some s -> c ∈ candidates s -> held w k c.
Proof. intros K E Hc. apply pool_held; [done|by exists k, s|]. by eapply core_cand; [apply K|..]. Qed.

Lemma selection_cand w k s c :
  walk_ok w -> selection_of w k = Some s -> c ∈ candidates s -> held w k c.
Proof.
  intros K E Hc. destruct (core_cand _ _ _ (walk_core _ K) _ _ _ E Hc) as [Er I].
  apply pool_held; [done|by eexists _, _|]. split; [|done]. rewrite Er. by apply group_root.
Qed.

Lemma load_in_order_of probes cache loads cache' :
  load_in_order management probes cache = Some (loads, cache') ->
  Forall (fun x => forall l, x.2 = Ok l -> load_of x.1 l) (zip probes loads).
Proof.
  revert cache loads. induction probes as [|probe probes IH]; intros cache loads E; cbn in E; [by simplify_eq|].
  destruct (load_candidate management probe cache) as [[loaded cache1]|] eqn:El; [|done]. cbn in E.
  assert (forall l, loaded = Ok l -> load_of probe l) as Hl by (intros l ->; by eapply (load_candidate_of management probe)).
  destruct loaded as [[c|r|r|]|e];
    try (simplify_eq; cbn; constructor; [exact Hl|destruct probes; constructor]);
    (destruct (load_in_order management probes cache1) as [[rest cache2]|] eqn:Er; [|done]; cbn in E; simplify_eq;
     constructor; [exact Hl|by eapply IH]).
Qed.

Lemma keeps_apply_loads k last index loads w :
  walk_ok w -> Forall (fun x => held w k x.1 /\ forall l, x.2 = Ok l -> load_of x.1 l) loads ->
  keeps_with w (fun _ _ => True) (Some (apply_loads k last index loads w)).
Proof.
  revert index w. induction loads as [|[probe loaded] rest IH]; intros index w K Hl; cbn [apply_loads]; [by split; [apply keeps_refl|]|].
  apply Forall_cons in Hl as [[Hc Hl] Hrest]. cbn in Hc, Hl.
  assert (forall w', keeps w w' -> keeps_with w (fun _ _ => True) (Some (apply_loads k last (S index) rest w'))) as Hnext.
  { intros w' [K' L']. specialize (IH (S index) w' K'). destruct (apply_loads k last (S index) rest w') as [[o w'']|]; [|done].
    destruct IH as [K'' _]; [|split; [|done]; eapply keeps_trans; [by split|done]].
    eapply Forall_impl; [exact Hrest|]. intros x [Hx1 Hx2]. split; [by eapply held_grows|done]. }
  destruct (negb _).
  - apply Hnext. destruct (_ =? _); [by apply keeps_mark_dirty|by apply keeps_refl].
  - destruct loaded as [l|e]; [|done]. cbn [mbind result_bind].
    pose proof (keeps_apply_load (X := X) (L := L) (group_of w k) probe l w K (cand_group _ _ _ K Hc) (Hl l eq_refl)) as Ka.
    destruct (apply_load _ _ _ _) as [w'|]; [|done]. cbn in Ka |- *.
    destruct l; try (by split); by apply Hnext.
Qed.

Lemma lower_versions_elem (s : Sel) c x : x ∈ lower_versions s c -> x ∈ candidates s.
Proof. unfold lower_versions. rewrite sort_by_perm. by intros [Hx _]%filter_elem. Qed.

Lemma keeps_load_one k c w :
  walk_ok w -> groups w !! k = None -> held w k c ->
  keeps_with w (fun _ _ => True) (load_one management k c w).
Proof.
  intros K Hk Hc. unfold load_one. set (lower := from_option _ _ _ ++ [c]).
  assert (forall x, x ∈ lower -> held w k x) as Hlower.
  { intros x [Hx| ->%list_elem_of_singleton]%elem_of_app; [|done].
    destruct (selected w !! k) as [s|] eqn:E; [|by apply not_elem_of_nil in Hx]. cbn in Hx.
    eapply own_held; [done..|]. by eapply lower_versions_elem. }
  clearbody lower. destruct (load_in_order management lower (relocations w)) as [[loads cache]|] eqn:El; [|done].
  cbn [ran mbind run_bind]. apply load_in_order_of in El.
  pose proof (keeps_relocations (X := X) (L := L) w cache K) as Kr.
  pose proof (keeps_apply_loads k (length lower - 1) 0 (zip lower loads) (set_relocations cache w) (proj1 Kr)) as Ka.
  destruct (apply_loads _ _ _ _ _) as [[o w']|]; [|done]. cbn in Ka |- *.
  destruct Ka as [Ka _].
  { apply Forall_forall. intros x Hx. rewrite Forall_forall in El. split; [|by apply El].
    apply (held_grows (X := X) (L := L) w (set_relocations cache w)); [apply Kr|]. apply Hlower. destruct x. by eapply elem_of_zip_l. }
  assert (keeps w w') as Kw by (eapply keeps_trans; [exact Kr|done]).
  destruct o; cbn; [done|]. split; [|done]. destruct (_ =? _); [done|]. eapply keeps_trans; [done|]. apply keeps_mark_dirty.
Qed.
Lemma keeps_with_run {A} w (r : Run (A * W)) (f : A * W -> Run W) :
  keeps_with w (fun _ _ => True) r -> (forall a w', keeps w w' -> keeps_run w' (f (a, w'))) -> keeps_run w (r ≫= f).
Proof. intros Hr Hf. eapply keeps_with_bind; [done|]. intros a w' K _. by apply Hf. Qed.

Lemma group_is_root w k : walk_ok w -> groups w !! group_of w k = None.
Proof. intros K. apply (core_forest _ _ _ (walk_core _ K)). Qed.

Lemma keeps_load k c w :
  walk_ok w -> groups w !! k = None -> held w k c -> keeps_run w (load management k c w).
Proof.
  intros K Hk Hc. unfold load. apply keeps_with_run; [by apply keeps_load_one|].
  intros [probe|] w' [K' L']; [|by apply keeps_refl]. apply keeps_each_run; [done|].
  intros other w1 Hother [K1 L1].
  assert (held w1 k other) as Ho.
  { eapply held_grows; [exact L1|]. destruct (selection_of w' k) as [s|] eqn:E; [|by apply not_elem_of_nil in Hother].
    apply filter_elem in Hother as [Hother _]. by eapply selection_cand. }
  destruct (holds _ _ _); [|by apply keeps_refl]. apply keeps_with_run.
  - apply keeps_load_one; [done|by apply group_is_root|by apply cand_group].
  - intros a w2 [K2 _]. by apply keeps_refl.
Qed.

Lemma keeps_load_held k c w :
  walk_ok w -> held w k c -> keeps_run w (load_held management k c w).
Proof.
  intros K Hc. unfold load_held. destruct (holds _ _ _); [|by apply keeps_refl].
  apply keeps_load; [done|by apply group_is_root|by apply cand_group].
Qed.

(** What is read beside the walk. *)
Lemma keeps_reading {A} (m : Cached A) (P : A -> Prop) w :
  walk_ok w -> yields m P -> keeps_with w (fun a w' => P a /\ exists cache, w' = set_relocations cache w) (reading m w).
Proof.
  intros K Hm. unfold reading. destruct (m (relocations w)) as [[[a|e] cache]|] eqn:E; try done. cbn.
  split_and!; [by apply keeps_relocations|by eapply Hm|by eexists].
Qed.

(** The place a confirmation waits at. *)
Lemma pending_at_arc (w : W) k c from s index :
  pending_at w k c from = Some index -> selected w !! k = Some s ->
  exists c0, candidates s !! index = Some c0 /\ arc c0 = arc c.
Proof.
  unfold pending_at. intros Ep E. destruct (is_dirty k w); [done|]. rewrite E in Ep. cbn in Ep.
  case_decide; [|done]. destruct (_ <=? _); [|done].
  destruct (list_find _ _) as [[i c0]|] eqn:Ef; [|done]. cbn in Ep. simplify_eq.
  apply list_find_Some in Ef as (Hl & Hp & _). rewrite lookup_drop in Hl. exists c0. split; [done|].
  unfold ptr_eq in Hp. by apply Nat.eqb_eq, Is_true_true.
Qed.

(** A candidate is replaced by one with the same constraint, in an allocation of its own. *)
Lemma keeps_replaced w k s index c0 new :
  walk_ok w -> selected w !! k = Some s -> candidates s !! index = Some c0 ->
  cand_ok (graph w) (groups w) k new -> cand_wf new -> hard new = hard c0 -> arc new = next_arc w ->
  keeps w (allocated 1 (set_selected (<[k := with_candidates s (<[index := new]> (candidates s))]> (selected w)) w)).
Proof.
  intros K E Ei Hc Hwf Eh Ea.
  assert (forall c, c ∈ candidates s -> arc c < next_arc w) as Hold.
  { intros c Hin. apply (walk_arcs _ K). by exists k, s. }
  eapply keeps_change; try done; cbn [next_arc allocated set_selected]; [lia|split_and!|].
  - intros c [-> |Hin]%elem_of_inserted; [done|by eapply core_cand; [apply K|..]].
  - intros c [-> |Hin]%elem_of_inserted; [right|by left]. split; [lia|done].
  - intros c c' [-> |Hin]%elem_of_inserted [-> |Hin']%elem_of_inserted Hr Ea'; [done|..].
    + apply Hold in Hin'. lia.
    + apply Hold in Hin. lia.
    + apply Hold in Hin. lia.
  - apply changed_calm, calm_sub; [done..|]. cbn. intros c [-> |Hin]%elem_of_inserted; [|by exists c].
    exists c0. split; [by eapply list_elem_of_lookup_2|done].
Qed.

Lemma keeps_confirm_one k c from w :
  walk_ok w -> held w k c -> keeps_run w (confirm management (k, c, from) w).
Proof.
  intros K Hc. apply (cand_group w k c K) in Hc. unfold confirm. set (key := group_of w k) in *.
  destruct (pending_at _ _ _ _) as [index|] eqn:Ep; [|by apply keeps_mark_dirty].
  eapply keeps_with_bind; [apply keeps_reading; [done|apply load_candidate_of]|].
  intros l w' [K' G'] [Hl [cache ->]]. cbv beta. destruct l as [c'|r|r|]; try by apply keeps_mark_dirty.
  cbn [selected set_relocations]. destruct (selected w !! key) as [s|] eqn:E; [|by apply keeps_mark_dirty].
  eapply pending_at_arc in Ep as (c0 & Ei & Ea); [|done]. destruct Hl as (Ec & Eit & _ & Eh & Hw).
  eapply keeps_run_then; [|intros [K1 _]; apply keeps_run_ok, keeps_scan_losers; exact K1].
  destruct Hc as [Hc Harc]. assert (hard c0 = hard c) as Eh0.
  { apply Harc; [|done]. exists key, s. split; [done|by eapply list_elem_of_lookup_2]. }
  eapply (keeps_replaced (set_relocations cache w)); try done; [split; cbn|apply Hw, Harc|by cbn; rewrite Eh].
  - rewrite Ec. apply Hc.
  - unfold item_ok in *. rewrite Eit. apply Hc.
Qed.

(** ** Mediating a group again *)

Lemma keeps_unsettled w k s st :
  walk_ok w -> selected w !! k = Some s ->
  keeps w (set_selected (<[k := with_outcome s (winner s) (conflict s) st]> (selected w)) w).
Proof. intros K E. by eapply keeps_shrunk. Qed.

Lemma keeps_note_checked k at_place w : walk_ok w -> keeps w (note_checked k at_place w).
Proof.
  intros K. unfold note_checked. destruct (selected w !! k) as [s|] eqn:E; [|by apply keeps_refl].
  by eapply keeps_shrunk.
Qed.

Lemma keeps_settle_group k w : walk_ok w -> keeps_ok w (settle_group k w).
Proof.
  intros K. unfold settle_group. eapply keeps_ok_trans; [|apply keeps_scan_losers].
  destruct (selected w !! k) as [s|] eqn:E; [by apply keeps_unsettled|by apply keeps_refl].
Qed.

Definition keeps_probe (w : W) (r : Run (W * bool)) : Prop :=
  match r with Some (Ok (w', _)) => keeps w w' | _ => True end.

Lemma keeps_probe_dirty k c w relocated :
  walk_ok w -> held w k c -> keeps_probe w (probe_dirty management k c (w, relocated)).
Proof.
  intros K Hc. unfold probe_dirty. cbn [fst snd]. destruct (negb _); [by apply keeps_refl|].
  destruct (is_some_and _ _); [by apply keeps_note_checked|].
  pose proof (keeps_reading (load_candidate management c) _ w K (load_candidate_of management c)) as Kr.
  destruct (reading _ w) as [[[l w']|e]|]; try done. cbn in Kr. destruct Kr as ([K' L'] & _ & cache & Ew). cbn.
  assert (keeps w (note_checked (group_of w k) (declared_at (item c)) w')) as Kn.
  { eapply keeps_trans; [by split|]. apply keeps_note_checked. }
  assert (keeps_run w' (load management (group_of w k) c w')) as Kl.
  { apply keeps_load; [done|rewrite Ew; by apply (group_is_root w)|]. eapply held_grows; [done|by apply cand_group]. }
  destruct l as [c'|r|r|]; try exact Kn;
    (destruct (load _ _ _ _) as [[w2|]|]; [|done..]; cbn in Kl |- *; eapply keeps_trans; [by split|done]).
Qed.

Lemma keeps_probes k cs st :
  walk_ok st.1 -> (forall c, c ∈ cs -> held st.1 k c) ->
  keeps_probe st.1 (each_run (probe_dirty management k) cs st).
Proof.
  revert st. induction cs as [|c cs IH]; intros [w relocated] K Hc; [by apply keeps_refl|]. cbn [each_run fst] in *.
  pose proof (keeps_probe_dirty k c w relocated K (Hc c (list_elem_of_here _ _))) as Kp.
  destruct (probe_dirty _ _ _ _) as [[[w' relocated']|]|]; [|done..]. cbn in Kp |- *.
  specialize (IH (w', relocated') (proj1 Kp)). cbn in IH.
  destruct (each_run _ _ _) as [[[w2 b]|]|]; [|done..]. cbn in IH |- *. eapply keeps_trans; [exact Kp|]. intros _. apply IH.
  intros x Hx. eapply held_grows; [apply Kp|]. apply Hc. by right.
Qed.


(** A version of a range that a shadow walk loaded. *)
Lemma keeps_add_loaded probe loaded w :
  walk_ok w -> item_ok (graph w) (item probe) -> cand_wf probe -> (forall l, loaded = Ok l -> load_of probe l) ->
  keeps_ok w (add_loaded loaded w).
Proof.
  intros K I Hp Hl. unfold add_loaded. destruct loaded as [l|]; [|done]. specialize (Hl l eq_refl). cbn.
  destruct l as [c|r|r|]; cbn in Hl; [| | |by apply keeps_refl]; apply keeps_add_resolution; try done; unfold item_ok in *; cbn.
  - by destruct Hl as (_ & -> & _).
  - by apply Hl.
  - by destruct Hl as [[-> _] _].
  - apply Hl.
  - by destruct Hl as [[-> _] _].
  - apply Hl.
Qed.

Lemma keeps_start_item path entry w : walk_ok w -> keeps_ok w (start_item management path entry w).
Proof.
  intros K. unfold start_item. destruct entry as [index d]. cbv zeta.
  destruct (if decide _ then _ else _) as [u|]; [|done]. cbn [mbind result_bind].
  eapply keeps_ok_trans; [by apply keeps_declare|]. intros K'. apply keeps_push_item; [done|].
  exact (root_counts w K).
Qed.

End SolveInv.

Section Elements.
Context `{Unicode} `{SolverBackend} (management : Management).
Context {G : Type} `{PetGraphLaws (Node.t RepoContext) G}.

Abbreviation Item := (QueueItem RepoContext).
Abbreviation Cand := (@Candidate RepoContext RepoRef.t Project).
Abbreviation Sel := (@Selected RepoContext RepoRef.t Project).
Abbreviation W := (@Walk _ G).

(** ** What [Selected] names is among its candidates *)

Lemma best_elem (s : Sel) c : best s = Some c -> c ∈ candidates s.
Proof. unfold best. intros Hc%min_by_elem%filter_elem. apply Hc. Qed.

Lemma entry_with_all {K V} `{EqDecision K} (P : V -> Prop) (k : K) f (m : list (K * V)) :
  Forall (fun x => P x.2) m -> (forall o, (forall v, o = Some v -> P v) -> P (f o)) ->
  Forall (fun x => P x.2) (entry_with k f m).
Proof.
  intros Hm Hf. induction Hm as [|[k' v] m Hv Hm IH]; cbn [entry_with].
  - constructor; [|constructor]. by apply Hf.
  - case_decide; constructor; try done. cbn. apply Hf. by intros ? [= <-].
Qed.

Lemma fold_all {A S} (P : S -> Prop) (f : S -> A -> S) l s :
  P s -> (forall s a, a ∈ l -> P s -> P (f s a)) -> P (foldl f s l).
Proof.
  revert s. induction l as [|a l IH]; intros s Ps Hf; [done|]. cbn. apply IH; [apply Hf; [by left|done]|].
  intros s' b Hb. apply Hf. by right.
Qed.

Lemma values_elem {K} (cs : list Cand) (m : list (K * Cand)) c :
  Forall (fun x => x.2 ∈ cs) m -> c ∈ map snd m -> c ∈ cs.
Proof. rewrite Forall_forall. intros Hm (x & -> & Hx)%list_elem_of_fmap. by apply Hm. Qed.

Lemma unconfirmed_elem (s : Sel) b c : c ∈ unconfirmed s b -> c ∈ candidates s.
Proof.
  unfold unconfirmed. case_decide; [by intros ?%not_elem_of_nil|]. intros [Hc _]%filter_elem.
  eapply values_elem; [|exact Hc]. apply fold_all; [constructor|]. intros m c0 Hc0 Hm.
  destruct (hard c0); [|done]. destruct (negb _); [done|]. apply (entry_with_all (fun x => x ∈ candidates s)); [done|].
  intros [e|] He; [|done]. destruct (source_ltb _ _); [done|]. by apply He.
Qed.

Lemma dirty_ranges_elem (s : Sel) b c : c ∈ dirty_ranges s b -> c ∈ candidates s.
Proof.
  unfold dirty_ranges. intros Hc. eapply values_elem; [|exact Hc]. apply fold_all; [constructor|]. intros m c0 Hc0 Hm.
  destruct (dirty_candidate _ _ _); [|done]. apply (entry_with_all (fun x => x ∈ candidates s)); [done|].
  intros [e|] He; [|done]. destruct (source_ltb _ _); [done|]. by apply He.
Qed.

Lemma load_in_order_elem probes cache loads cache' loaded :
  load_in_order management probes cache = Some (loads, cache') -> loaded ∈ loads ->
  exists probe, probe ∈ probes /\ forall l, loaded = Ok l -> load_of probe l.
Proof.
  intros E Hin. apply load_in_order_of in E as Hz. rewrite Forall_forall in Hz.
  apply list_elem_of_lookup_1 in Hin as [i Hi].
  assert (length loads <= length probes) as Hlen.
  { clear - E. revert cache loads E. induction probes as [|probe probes IH]; intros cache loads E; cbn in E; [by simplify_eq|].
    destruct (load_candidate _ _ _) as [[l cache1]|]; [|done]. cbn in E.
    destruct l as [[c|r|r|]|e]; try (simplify_eq; cbn; lia);
      (destruct (load_in_order _ _ _) as [[rest cache2]|] eqn:Er; [|done]; cbn in E; simplify_eq;
       apply IH in Er; cbn; lia). }
  destruct (lookup_lt_is_Some_2 probes i) as [probe Hp]; [apply lookup_lt_Some in Hi; lia|].
  exists probe. split; [by eapply list_elem_of_lookup_2|]. intros l ->.
  apply (Hz (probe, Ok l)); [|done]. apply list_elem_of_lookup_2 with (i := i), lookup_zip_Some. done.
Qed.

Lemma pop_greatest_perm first rest it others :
  pop_greatest first rest = (it, others) -> it :: others ≡ₚ (first :: rest : list Item).
Proof.
  revert first it others. induction rest as [|x rest IH]; intros first it others E; cbn in E; [by simplify_eq|].
  destruct (item_cmp first x); (destruct (pop_greatest _ _) as [top l] eqn:Ep; simplify_eq; apply IH in Ep).
  - rewrite (Permutation_swap x it l), Ep. apply Permutation_swap.
  - rewrite (Permutation_swap first it l), Ep. done.
  - rewrite (Permutation_swap x it l), Ep. apply Permutation_swap.
Qed.

(** ** The start *)

Lemma new_walk_ok (n : Node.t RepoContext) : walk_ok (new_walk (new_graph n) : W).
Proof.
  destruct (add_node_spec (empty_graph : G) n empty_valid) as (V & N & E & I).
  assert (Graph.graph (new_graph n : Graph.Graph G) = (pet_add_node empty_graph n).1) as Eg
    by (unfold new_graph; by destruct (pet_add_node _ _)).
  assert (Graph.root (new_graph n : Graph.Graph G) = 0) as Er.
  { unfold new_graph, pet_node_count in *. destruct (pet_add_node _ _). cbn in *. by rewrite I, empty_nodes. }
  assert (Graph.node_count (new_graph n : Graph.Graph G) = 1) as Hn.
  { unfold Graph.node_count, pet_node_count. by rewrite Eg, N, empty_nodes. }
  assert (arcs (Graph.graph (new_graph n : Graph.Graph G)) = []) as Ea.
  { unfold arcs. rewrite Eg, E. apply empty_arcs. }
  split; cbn; try done; [|by repeat constructor|split; [constructor|set_solver]|by intros c (k & s & ? & _); simplify_map_eq].
  split; try (by intros; simplify_map_eq).
  - split; [by rewrite Eg|rewrite Ea; constructor|]. rewrite Er, Hn. lia.
  - rewrite Ea. by intros a b e ?%not_elem_of_nil.
Qed.

(** ** What a probe leaves *)

(** Probes that find no relocation leave the candidates of every group. *)
Definition quiet (w w' : W) : Prop :=
  groups w' = groups w /\
  forall k s', selected w' !! k = Some s' -> exists s, selected w !! k = Some s /\ candidates s' = candidates s.

#[export] Instance quiet_preorder : PreOrder quiet.
Proof.
  split; [intros w; split; [done|eauto]|]. intros a b c [G1 S1] [G2 S2]. split; [congruence|].
  intros k s' (s & E & Ec)%S2. apply S1 in E as (s0 & E0 & E1). exists s0. split; [done|congruence].
Qed.

Lemma quiet_note_checked k at_place (w : W) : quiet w (note_checked k at_place w).
Proof.
  unfold note_checked. destruct (selected w !! k) as [s|] eqn:E; [|done]. split; [done|]. cbn.
  intros k' s' [[<- <-]|[_ E']]%lookup_insert_Some; eauto.
Qed.

Lemma quiet_relocations cache (w : W) : quiet w (set_relocations cache w).
Proof. split; [done|]. cbn. eauto. Qed.

Lemma probe_dirty_quiet k c (w w' : W) relocated :
  probe_dirty management k c (w, relocated) = Some (Ok (w', false)) -> relocated = false /\ quiet w w'.
Proof.
  unfold probe_dirty. destruct (negb _); [by intros [= -> ->]|]. destruct (is_some_and _ _).
  { intros [= <- ->]. split; [done|apply quiet_note_checked]. }
  unfold reading. destruct (load_candidate _ _ _) as [[[l|e] cache]|]; try done. cbn.
  destruct l as [c'|r|r|]; cbn.
  2,3: by destruct (load _ _ _ _) as [[w2|]|].
  all: intros [= <- ->]; split; [done|]; etrans; [apply quiet_relocations|apply quiet_note_checked].
Qed.

Lemma probes_quiet k cs (w w' : W) relocated :
  each_run (probe_dirty management k) cs (w, relocated) = Some (Ok (w', false)) -> relocated = false /\ quiet w w'.
Proof.
  revert w relocated. induction cs as [|c cs IH]; intros w relocated; cbn [each_run]; [by intros [= -> ->]|].
  destruct (probe_dirty _ _ _ _) as [[[w1 b]|]|] eqn:E; [|done..]. cbn. intros [-> Hq]%IH.
  apply probe_dirty_quiet in E as [-> Hq']. split; [done|by etrans].
Qed.

(** The best candidate satisfies the constraints of all. *)
Lemma best_unanimous (s : Sel) c :
  (forall c, c ∈ candidates s -> hard_wf (hard c)) -> best s = Some c -> unanimous (candidates s) c.
Proof.
  unfold best. intros Hwf [_ Hall]%min_by_elem%filter_elem d h Hd Hh. rewrite forallb_forall in Hall.
  assert (h ∈ omap hard (candidates s)) as Hin by (apply list_elem_of_omap; by exists d).
  destruct (first_texts_cover [] _ h Hin) as [Hn%elem_of_nil|(h' & Hin' & Ht)]; [done|].
  pose proof (first_texts_sub _ _ _ Hin') as (d' & Hd' & Hh')%list_elem_of_omap.
  unfold accepts. rewrite <-(hard_text_inj h' h); [|by apply (Hwf d')|by apply (Hwf d)|done]. by apply Hall, list_elem_of_In.
Qed.
End Elements.
