(* ===== verification/SolveFacts.v ===== *)
(** * What a resolution returns ([Solver] of [rv-resolver/src/solver/mod.rs])

    Every turn of the loops of [solve] keeps the invariant of the walk, so that the graph
    a resolution returns has one node per artifact; and every group that is not marked
    dirty has a winner that each of its constraints accepts, at the node that has the
    winner's coordinate, or a conflict, so that a resolution that returns a graph
    satisfies every constraint of the candidates it mediated. *)

From Stdlib Require Import Ascii String Lia.
From stdpp Require Import base list strings gmap relations.
From S2P Require Import ConflictOrder Scopes Prelude Iter Str Version Range Coordinates Snapshot Dependency DepManagement Keys Queue Management Relocation Graph Mediation Load Walk WalkInv WalkOps Solve SolveInv.

#[local] Set Warnings "-clear-no-such-hyp".

Lemma min_by_none {A} (cmp : A -> A -> comparison) l : min_by cmp l = None -> l = [].
Proof. by destruct l. Qed.

(** No group, and every group. *)
Definition none : CoordKey -> Prop := fun _ => False.
Definition any : CoordKey -> Prop := fun _ => True.

Section SolveFacts.
Context `{Unicode} `{SolverBackend} (management : Management).
Context {G : Type} `{PetGraphLaws (Node.t RepoContext) G} (budget : N).

Abbreviation Failure := (ResolveError Error).
Abbreviation Item := (QueueItem RepoContext).
Abbreviation Cand := (@Candidate RepoContext RepoRef.t Project).
Abbreviation Sel := (@Selected RepoContext RepoRef.t Project).
Abbreviation W := (@Walk _ G).

(** ** Groups that need no mediation *)

(** A winner that satisfies every constraint of its group, or a conflict. *)
Definition fine (s : Sel) : Prop :=
  is_Some (conflict s) \/ exists won, winner s = Some won /\ unanimous (candidates s) won.

Definition tidy (X : CoordKey -> Prop) (w : W) : Prop :=
  forall k s, selected w !! k = Some s -> exempt X w k \/ k ∈ dirty_set w \/ fine s.

(** The coordinate [n] is [c], or [c] at the snapshot build the backend gives for it. *)
Definition selects (c n : Coord.t) : Prop :=
  exists v, version_of_coord c v /\ coord_text n = coord_text (with_version c v).

Lemma selects_text c d n : coord_text c = coord_text d -> selects c n -> selects d n.
Proof.
  intros E (v & Hv & En). exists v. split; [by eapply version_of_text|]. rewrite En. unfold coord_text in *. cbn. congruence.
Qed.

Lemma selects_cases c n : selects c n -> coord_text n = coord_text c \/
  exists c' repos build, coord_text c' = coord_text c /\
    resolves_through_snapshot_metadata (original (Coord.version c')) = true /\
    resolve_snapshot_version c' repos = Ok build /\ coord_text n = coord_text (with_version c (resolved build)).
Proof.
  intros (v & [Hv|(c' & repos & build & Ec & Er & Eb & ->)] & ->); [left|right; by exists c', repos, build].
  unfold coord_text. cbn. by rewrite Hv.
Qed.

(** The node of a selection has the coordinate of its winner. *)
Definition label_of (w : W) (s : Sel) (won : Cand) : Prop :=
  exists n, Graph.node (graph w) (node s) = Some n /\ selects (coord won) (Node.coord n).

Definition labelled (L : CoordKey -> Prop) (w : W) : Prop :=
  forall k s won, selected w !! k = Some s -> winner s = Some won -> exempt L w k \/ label_of w s won.

Lemma fine_calm s s' : calm s s' -> fine s -> fine s'.
Proof.
  intros [Ew Ec Hh] [Hc|(won & Hw & Hu)]; [left; by rewrite Ec|right].
  exists won. split; [congruence|]. intros c h Hin Hc. destruct (Hh c h Hin Hc) as [(c0 & Hc0 & Eh)|(won' & Hw' & Ha)].
  - by eapply Hu.
  - by simplify_eq.
Qed.

Lemma tidy_grows X L w w' : grows X L w w' -> tidy X w -> tidy X w'.
Proof.
  intros Hg Ht k s' E. destruct (grows_selected _ _ _ _ Hg k s' E) as [?|[?|(Hd & s & Es & Hc)]]; [auto..|].
  destruct (Ht k s Es) as [Hx|[?|Hf]]; [|done|right; right; by eapply fine_calm].
  left. eapply exempt_coarser; [apply Hg|done].
Qed.

Lemma labelled_grows X L w w' : grows X L w w' -> labelled L w -> labelled L w'.
Proof.
  intros Hg Hl k s' won' E Hw.
  destruct (grows_label _ _ _ _ Hg k s' won' E Hw) as [?|(k0 & s & won & Es & Ek & En & Ew & Et & Eg)]; [by left|].
  destruct (Hl k0 s won Es Ew) as [Hx|(n & Hn & Hc)].
  - left. apply (exempt_coarser L w w') in Hx as (e & He & Ee); [|apply Hg]. exists e. split; [done|congruence].
  - right. exists n. rewrite En, Eg. split; [done|by eapply selects_text].
Qed.

Lemma exempt_weaken (X X' : CoordKey -> Prop) (w : W) k : (forall e, X e -> X' e) -> exempt X w k -> exempt X' w k.
Proof. intros Hs (e & He & Ee). exists e. auto. Qed.

Lemma grows_weaken (X X' L L' : CoordKey -> Prop) (w w' : W) :
  (forall e, X e -> X' e) -> (forall e, L e -> L' e) -> grows X L w w' -> grows X' L' w w'.
Proof.
  intros Hx Hl Hg. split; try apply Hg.
  - intros k s' E. destruct (grows_selected _ _ _ _ Hg k s' E) as [?|?]; [left; by eapply exempt_weaken|by right].
  - intros k s' won' E Hw. destruct (grows_label _ _ _ _ Hg k s' won' E Hw) as [?|?]; [left; by eapply exempt_weaken|by right].
Qed.

Lemma keeps_any X L (w w' : W) : keeps_but X L w w' -> keeps_but any any w w'.
Proof. intros [K Hg]. split; [done|]. by eapply grows_weaken, Hg. Qed.

Lemma tidy_weaken (X X' : CoordKey -> Prop) (w : W) : (forall e, X e -> X' e) -> tidy X w -> tidy X' w.
Proof. intros Hx Ht k s E. destruct (Ht k s E) as [?|?]; [left; by eapply exempt_weaken|by right]. Qed.

Lemma labelled_weaken (X X' : CoordKey -> Prop) (w : W) : (forall e, X e -> X' e) -> labelled X w -> labelled X' w.
Proof. intros Hx Ht k s won E Hw. destruct (Ht k s won E Hw) as [?|?]; [left; by eapply exempt_weaken|by right]. Qed.

(** A selection left out for [k] is that of its group. *)
Lemma exempt_just (w : W) k k' s : walk_ok w -> selected w !! k' = Some s -> exempt (just k) w k' -> k' = group_of w k.
Proof.
  intros K E (e & -> & Er). rewrite (rep_root _ k') in Er; [done|]. by eapply core_rep; [apply K|].
Qed.

(** The one group left out is mediated. *)
Lemma tidy_close (w : W) k :
  walk_ok w -> tidy (just k) w -> (forall s, selected w !! group_of w k = Some s -> fine s) -> tidy none w.
Proof.
  intros K Ht Hf k' s E. destruct (Ht k' s E) as [Hx|?]; [|by right]. right; right.
  pose proof (exempt_just _ _ _ _ K E Hx). subst. by apply Hf.
Qed.

Lemma labelled_close (w : W) k :
  walk_ok w -> labelled (just k) w ->
  (forall s won, selected w !! group_of w k = Some s -> winner s = Some won -> label_of w s won) -> labelled none w.
Proof.
  intros K Ht Hf k' s won E Hw. destruct (Ht k' s won E Hw) as [Hx|?]; [|by right]. right.
  pose proof (exempt_just _ _ _ _ K E Hx). subst. by apply Hf.
Qed.

(** Between two turns of the outer loops. *)
Record good (w : W) : Prop := {
  good_ok : walk_ok w;
  good_tidy : tidy none w;
  good_label : labelled none w;
}.

Lemma good_keeps w w' : good w -> keeps_but none none w w' -> good w'.
Proof. intros [K T B] [K' Hg]. split; [done|by eapply tidy_grows|by eapply labelled_grows]. Qed.

(** ** A commit *)

Lemma commit_keeps k won w w' :
  walk_ok w -> held w k won -> is_Some (selected w !! k) -> is_Some (resolved_project won) -> commit k won w = Ok w' ->
  keeps_but any any w w'.
Proof.
  intros K Hh Hs Hp Ec. destruct (commit_steps _ _ _ _ K Hh Hs Hp Ec) as (s & s1 & project & w1 & w2 & w3 & HC).
  eapply keeps_trans; [eapply keeps_any, HC|]. intros _.
  eapply keeps_trans; [apply (commits_retire _ _ _ _ _ _ _ _ _ _ HC)|]. intros _.
  eapply keeps_trans; [eapply keeps_any, (commits_label _ _ _ _ _ _ _ _ _ _ HC)|]. intros _. apply HC.
Qed.

Lemma commit_settles k won w w' :
  walk_ok w -> held w k won -> is_Some (selected w !! k) -> is_Some (resolved_project won) ->
  (forall s, selected w !! k = Some s -> unanimous (candidates s) won) ->
  tidy (just k) w -> labelled (just k) w -> commit k won w = Ok w' -> good w'.
Proof.
  intros K Hh Hs Hp Hu Ht Hl Ec.
  destruct (commit_steps k won w w' K Hh Hs Hp Ec) as (s & s1 & project & w1 & w2 & w3 & HC).
  destruct HC as [E E1 Ecs Ew Ecf En Eg K1 K2 (s2 & E2 & N2) K3 Hlab (Es3 & Ed3 & Eg3) K4].
  assert (group_of w1 k = k) as Hk1 by (apply rep_root; by eapply core_rep; [apply K1|]).
  assert (tidy none w1) as T1.
  { apply (tidy_close w1 k); [apply K1|eapply tidy_grows; [apply K1|done]|]. rewrite Hk1. intros s' E'. simplify_eq.
    right. exists won. split; [done|]. rewrite Ecs. by apply Hu. }
  assert (labelled (just k) w3) as B3.
  { eapply labelled_grows; [apply K3|]. eapply labelled_grows; [apply (K2 none (just k))|].
    eapply labelled_grows; [apply K1|done]. }
  assert (tidy none w3) as T3.
  { eapply tidy_grows; [apply K3|]. eapply tidy_grows; [apply (K2 none none)|done]. }
  apply (good_keeps w3); [|apply K4]. split; [apply K3|done|].
  apply (labelled_close w3 k); [apply K3|done|]. rewrite <-Es3 in E2.
  assert (group_of w3 k = k) as -> by (apply rep_root; by eapply core_rep; [apply K3|]).
  intros s' won' E' Hw. rewrite E2 in E'. injection E' as <-.
  destruct (K2 none none) as [W2 G2]. rewrite Es3 in E2.
  destruct (grows_label _ _ _ _ G2 k s2 won' E2 Hw) as [(? & [] & _)|(k0 & s0 & won0 & E0 & _ & N0 & Ew0 & Et & _)].
  assert (k0 = k) as -> by (eapply (core_distinct _ _ _ (walk_core _ (proj1 K1))); [exact E0|exact E1|congruence]).
  rewrite E1 in E0. injection E0 as <-. rewrite Ew in Ew0. injection Ew0 as <-.
  pose proof (core_node _ _ _ (walk_core _ W2) _ _ E2) as [Hlt _].
  destruct (lookup_lt_is_Some_2 (node_weights (Graph.graph (graph w2))) (node s2)) as [n Hn]; [exact Hlt|].
  exists (winner_node won project n). rewrite N2. split; [apply Hlab; rewrite <-N2; exact Hn|].
  apply (selects_text (coord won)); [done|]. exists (resolved (resolved_version won)). split; [apply Hh|done].
Qed.

(** ** A turn of [reconsider], and all of them *)

(** A group is mediated: the others stay as they are, and at the end none is left out. *)
Definition mediated (k : CoordKey) (w : W) (x : W + Run W) : Prop :=
  match x with
  | inl w' => keeps_but (just k) none w w'
  | inr (Some (Ok w')) => keeps_but any any w w' /\ (tidy (just k) w -> labelled none w -> good w')
  | inr _ => True
  end.

Abbreviation continue r :=
  (match r with Some (Ok w) => inl w | Some (Err e) => inr (Some (Err e)) | None => inr None end).

Lemma mediated_continue k w w' (r : Run W) :
  keeps_but (just k) none w w' -> keeps_run (X := just k) (L := none) w' r -> mediated k w (continue r).
Proof. intros K Hr. destruct r as [[w2|]|]; try done. cbn in *. by eapply keeps_trans. Qed.

Lemma mediated_fine k w w' :
  keeps_but (just k) none w w' -> (forall s, selected w' !! group_of w' k = Some s -> fine s) ->
  mediated k w (inr (Some (Ok w'))).
Proof.
  intros [K Hg] Hf. cbn. split; [by eapply keeps_any|]. intros Ht Hl. split; [done| |by eapply labelled_grows].
  apply (tidy_close w' k); [done|by eapply tidy_grows|done].
Qed.

(** Nothing undone after the end. *)
Lemma mediated_then k w w' (r : result Failure W) :
  mediated k w (inr (Some (Ok w'))) -> (walk_ok w' -> keeps_but_ok none none w' r) -> mediated k w (inr (Some r)).
Proof.
  intros [[K Hg] Hgood] Hr. destruct r as [w2|]; [|done]. specialize (Hr K). cbn in *. split.
  - eapply keeps_trans; [by split|]. intros _. by eapply keeps_any.
  - intros Ht Hl. eapply good_keeps; [by apply Hgood|done].
Qed.

(** Nor before. *)
Lemma mediated_from k w w' x : keeps_but (just k) none w w' -> mediated k w' x -> mediated k w x.
Proof.
  intros [K Hg] Hx. destruct x as [w2|[[w2|]|]]; cbn in *; [by eapply keeps_trans| |done..].
  destruct Hx as [K2 Hgood]. split; [eapply keeps_trans; [by eapply keeps_any|by intros _]|].
  intros Ht Hl. apply Hgood; [by eapply tidy_grows|by eapply labelled_grows].
Qed.

(** The outcome of a mediation, whose winner is the same but for its allocation. *)
Lemma keeps_outcome k w s won c st :
  walk_ok w -> selected w !! group_of w k = Some s ->
  (forall won', won = Some won' -> exists won0, winner s = Some won0 /\ coord_text (coord won0) = coord_text (coord won')) ->
  keeps_but (just k) none w (set_selected (<[group_of w k := with_outcome s won c st]> (selected w)) w).
Proof.
  intros K E Hw. eapply keeps_left_out; try done. split; [|intros won' Hwon; right; by apply Hw].
  left. exists k. split; [done|]. by apply group_root.
Qed.

Lemma mediated_commit k best w :
  walk_ok w -> held w (group_of w k) best -> is_Some (selected w !! group_of w k) -> is_Some (resolved_project best) ->
  (forall s, selected w !! group_of w k = Some s -> unanimous (candidates s) best) ->
  mediated k w (inr (Some (w' ← commit (group_of w k) best w; settle_group (group_of w k) w'))).
Proof.
  intros K Hh Hs Hp Hu. destruct (commit _ _ _) as [w'|] eqn:Ec; [|done]. cbn [mbind result_bind].
  apply (mediated_then k w w'); [|intros K'; by apply keeps_settle_group].
  assert (forall k', exempt (just k) w k' -> exempt (just (group_of w k)) w k') as Hx.
  { intros k' (e & -> & Er). exists (group_of w k). split; [done|]. rewrite Er. symmetry. by apply group_root. }
  assert (forall X, (forall k', exempt X w k' -> exempt (just (group_of w k)) w k') -> tidy X w -> tidy (just (group_of w k)) w) as Ht
    by (intros X HX HT k' s E; destruct (HT k' s E) as [?|?]; auto).
  split; [by eapply commit_keeps|]. intros HT HL. eapply (commit_settles (group_of w k) best w); try done.
  - by eapply Ht.
  - intros k' s won E Hw. destruct (HL k' s won E Hw) as [(? & [] & _)|?]. by right.
Qed.

Lemma all_shadows_nil (cs : list Cand) :
  forallb (fun c => bool_decide (is_Some (shadow (item c)))) cs = false -> cs <> [].
Proof. by destruct cs. Qed.

Lemma note_conflict_some (s : Sel) : candidates s <> [] -> is_Some (note_conflict s).
Proof.
  intros Hne. unfold note_conflict. set (culprit := match max_by_key _ _ with Some _ => _ | None => _ end).
  assert (is_Some culprit) as [c ->]; [|done]. unfold culprit. destruct (max_by_key _ _); [done|].
  by destruct (candidates s).
Qed.

(** The turn once the best candidate is known, and the losing ranges were probed. *)
Lemma mediated_best k best s w :
  walk_ok w -> selected w !! group_of w k = Some s -> held w (group_of w k) best -> unanimous (candidates s) best ->
  let key := group_of w k in
  let s := with_outcome s (winner s) None (settled s) in
  mediated k w
    (let w := set_selected (<[key := s]> (selected w)) w in
     if winner_is s best then
       let w := set_selected (<[key := with_outcome s (Some best) None (settled s)]> (selected w)) w in
       inr (Some (settle_group key w))
     else if decide (resolved_project best = None) then continue (load management key best w)
     else inr (Some (w ← commit key best w; settle_group key w))).
Proof.
  intros K E Hb Hu key s1. cbv zeta. unfold key. clear key.
  assert (keeps_but (just k) none w (set_selected (<[group_of w k := s1]> (selected w)) w)) as K1.
  { apply keeps_outcome; [done..|]. intros won' ->. eauto. }
  set (w1 := set_selected _ w) in *.
  assert (group_of w1 k = group_of w k) as Hk by done.
  assert (selected w1 !! group_of w k = Some s1) as E1 by apply lookup_insert_eq.
  assert (held w1 (group_of w k) best) as Hb1 by (eapply held_grows; [apply K1|done]).
  destruct (winner_is s1 best) eqn:Ew; [|case_decide as Hp].
  - set (w2 := set_selected (<[group_of w1 k := with_outcome s1 (Some best) None (settled s1)]> (selected w1)) w1).
    assert (keeps_but (just k) none w1 w2) as K2.
    { apply keeps_outcome; [apply K1|done|]. intros won' [= <-]. unfold winner_is, is_some_and in Ew.
      destruct (winner s1) as [won|]; [|done]. exists won. split; [done|]. unfold same_candidate in Ew.
      apply andb_true_iff in Ew as [_ Ew]. unfold same_text in Ew. by apply bool_decide_eq_true in Ew. }
    apply (mediated_then k w w2); [|intros K'; by apply keeps_settle_group].
    apply mediated_fine; [by eapply keeps_trans|]. change (group_of w2 k) with (group_of w1 k).
    unfold w2. cbn [selected set_selected]. rewrite lookup_insert_eq. intros s2 [= <-]. right. by exists best.
  - eapply mediated_continue; [exact K1|]. apply (keeps_load (X := just k) (L := none) management); [apply K1|exact (group_is_root w k K)|done].
  - apply (mediated_from k w w1 _ K1), (mediated_commit k best w1); [apply K1|done|by eexists| |].
    + by destruct (resolved_project best).
    + rewrite Hk, E1. by intros s2 [= <-].
Qed.

Lemma mediated_step k w : walk_ok w -> mediated k w (reconsider_step management k w).
Proof.
  intros K. unfold reconsider_step. cbv zeta. set (key := group_of w k).
  destruct (selected w !! key) as [s|] eqn:E.
  2: { apply mediated_fine; [by apply keeps_refl|]. fold key. by rewrite E. }
  set (s1 := with_outcome s (winner s) (conflict s) None).
  assert (keeps_but (just k) none w (set_selected (<[key := s1]> (selected w)) w)) as K1 by (by apply keeps_unsettled).
  assert (selected (set_selected (<[key := s1]> (selected w)) w) !! key = Some s1) as E1 by apply lookup_insert_eq.
  assert (group_of (set_selected (<[key := s1]> (selected w)) w) k = key) as Hk by done.
  set (w1 := set_selected _ w) in *. apply (mediated_from k w w1 _ K1). destruct K1 as [K1 _].
  clearbody s1 w1 key. clear s E w K. rename w1 into w, s1 into s, K1 into K, E1 into E.
  assert (forall c, c ∈ candidates s -> held w key c) as Hs by (intros; by eapply own_held).
  destruct (forallb _ _) eqn:Hall.
  { pose proof (frame_drop_group key w) as Hf. unfold frame in Hf. injection Hf as Hp Hg.
    apply mediated_fine; [by apply keeps_drop_group|]. unfold group_of. rewrite Hg. fold (group_of w k). rewrite Hk.
    intros s' E'. assert (places (drop_group key w) !! key = Some (node s')) as Hn by (unfold places; by rewrite lookup_fmap, E').
    by rewrite Hp, lookup_delete_eq in Hn. }
  destruct (unconfirmed s (best s)) as [|u us] eqn:Eu.
  2: { eapply mediated_continue; [by apply keeps_refl|]. apply (keeps_each_run (X := just k) (L := none)); [done|]. intros c w' Hc [K' Hg].
    apply (keeps_load_held (X := just k) (L := none) management); [done|]. eapply held_grows; [done|]. apply Hs, (unconfirmed_elem s (best s)). by rewrite Eu. }
  destruct (best s) as [b|] eqn:Eb.
  2: { rewrite <-Hk in E |- *. apply mediated_fine.
    - apply keeps_outcome; [done..|]. intros won' ->. eauto.
    - cbn [selected set_selected]. change (group_of (set_selected _ w) k) with (group_of w k). rewrite lookup_insert_eq.
      intros s' [= <-]. left. by apply note_conflict_some, all_shadows_nil. }
  apply best_elem in Eb as Hb. pose proof (Hs b Hb) as Hh.
  assert (unanimous (candidates s) b) as Hu by (apply best_unanimous; [intros c Hc; apply (Hs c Hc)|done]).
  pose proof (keeps_probes (X := just k) (L := none) management key (dirty_ranges s b) (w, false) K
    (fun c Hc => Hs c (dirty_ranges_elem s b c Hc))) as Kp. cbn [fst] in Kp.
  destruct (each_run _ _ _) as [[[w2 relocated]|]|] eqn:Ep; [|done..]. cbn [keeps_probe] in Kp.
  destruct relocated; [exact Kp|]. apply probes_quiet in Ep as [_ [Hg Hq]].
  destruct (selected w2 !! key) as [s2|] eqn:E2; [|done]. apply (mediated_from k w w2 _ Kp).
  assert (group_of w2 k = key) as Hk2 by (rewrite <-Hk; unfold group_of; by rewrite Hg).
  destruct (Hq key s2 E2) as (s0 & E0 & Ecs). rewrite E in E0. injection E0 as <-.
  rewrite <-Hk2 in E2, Hh |- *. refine (mediated_best k b s2 w2 _ E2 _ _); [apply Kp| |by rewrite Ecs].
  eapply held_grows; [apply Kp|done].
Qed.

(** ** The loops *)

(** From one state between turns to another. *)
Definition advances (w w' : W) : Prop := keeps_but any any w w' /\ (good w -> good w').

Lemma advances_refl w : walk_ok w -> advances w w.
Proof. intros K. split; [by apply keeps_refl|done]. Qed.

Lemma advances_trans w w' w'' : advances w w' -> (walk_ok w' -> advances w' w'') -> advances w w''.
Proof.
  intros [K1 G1] Ha. destruct (Ha (proj1 K1)) as [K2 G2]. split; [by eapply keeps_trans|auto].
Qed.

Lemma advances_keeps w w' : keeps_but none none w w' -> advances w w'.
Proof. intros K. split; [by eapply keeps_any|]. intros Hg. by eapply good_keeps. Qed.

Definition advances_run (w : W) (r : Run W) : Prop := match r with Some (Ok w') => advances w w' | _ => True end.

(** A turn of the loop of [mediate]: it is left once no group is dirty. *)
Definition advances_turn (w : W) (x : W + Run W) : Prop :=
  match x with
  | inl w' => advances w w'
  | inr (Some (Ok w')) => w' = w /\ dirty w = []
  | inr _ => True
  end.

Lemma advances_continue w w' (r : Run W) :
  keeps_but none none w w' -> keeps_run (X := none) (L := none) w' r -> advances_turn w (continue r).
Proof. intros K Hr. destruct r as [[w2|]|]; try done. cbn in *. apply advances_keeps. by eapply keeps_trans. Qed.

Lemma keeps_take_dirty w k w' : walk_ok w -> take_dirty w = Some (k, w') -> keeps_but (just k) none w w'.
Proof.
  intros K E. unfold take_dirty in E. destruct (dirty w) as [|k' rest] eqn:Ed; [done|]. simplify_eq.
  destruct (walk_dirty _ K) as [D Ds]. rewrite Ed in D. apply NoDup_cons in D as [Hk D].
  apply keeps_rest; cbn; try done; try apply K.
  - split; [done|]. intros x. rewrite elem_of_difference, elem_of_singleton, Ds, Ed, elem_of_cons. naive_solver.
  - intros x Hx. destruct (decide (x = k)) as [-> |Hne]; [right; by exists k|left]. set_solver.
Qed.

Lemma reconsider_advances w k w0 :
  walk_ok w -> take_dirty w = Some (k, w0) -> advances_run w (reconsider management budget k w0).
Proof.
  intros K Et. apply keeps_take_dirty in Et as K0; [|done].
  assert (mediated k w (inr (reconsider management budget k w0))) as Hm.
  { unfold reconsider, joined. destruct (run_loop _ _ _) as [r|] eqn:E; [|done].
    eapply (run_partial _ (fun w' => keeps_but (just k) none w w') (fun r => mediated k w (inr r))); [|exact K0|exact E].
    intros w' Kw. pose proof (mediated_from k w w' _ Kw (mediated_step k w' (proj1 Kw))) as Hm.
    by destruct (reconsider_step _ _ _). }
  destruct (reconsider _ _ _ _) as [[w'|]|]; [|done..]. destruct Hm as [Km Hg]. split; [done|].
  intros [_ Ht Hl]. apply Hg; [|done]. by eapply tidy_weaken; [|exact Ht].
Qed.

Lemma mediate_step_advances w : walk_ok w -> advances_turn w (mediate_step management budget w).
Proof.
  intros K. unfold mediate_step.
  destruct (unscanned w) as [|[k c] rest] eqn:Eu.
  2: { pose proof (walk_unscanned _ K) as Hu. rewrite Eu in Hu. apply Forall_cons in Hu as [Hh Hrest].
    assert (keeps_but none none w (set_unscanned rest w)) as Ku by (by apply keeps_unscanned).
    eapply advances_continue; [exact Ku|].
    apply (keeps_load_held (X := none) (L := none) management); [apply Ku|]. eapply held_grows; [apply Ku|done]. }
  destruct (walk_loads w) as [|probes rest] eqn:El.
  2: { pose proof (walk_probes _ K) as Hp. rewrite El in Hp. apply Forall_cons in Hp as [Hp Hrest].
    assert (keeps_but none none w (set_loads rest w)) as Kl by (by apply keeps_loads).
    eapply advances_continue; [exact Kl|]. destruct Kl as [Kl Gl].
    destruct (load_in_order _ _ _) as [[loads cache]|] eqn:E; [|done]. cbn [ran mbind run_bind].
    apply keeps_run_ok. eapply keeps_ok_then; [by apply (keeps_relocations _ cache)|]. intros [K1 G1].
    apply keeps_each; [done|]. intros loaded w2 Hin [K2 G2].
    destruct (load_in_order_elem _ _ _ _ _ _ E Hin) as (probe & Hprobe & Hl).
    rewrite Forall_forall in Hp. destruct (Hp probe Hprobe) as [Hi Hw].
    apply (keeps_add_loaded probe); [done| |done..]. eapply item_grows; [exact G2|done]. }
  destruct (to_confirm w) as [|entry entries] eqn:Ec.
  2: { assert (keeps_but none none w (set_confirm [] w)) as Kc by (by apply keeps_confirm).
    eapply advances_continue; [exact Kc|].
    pose proof (walk_confirm _ K) as Hh. rewrite Ec, Forall_forall in Hh.
    apply (keeps_each_run (X := none) (L := none)); [apply Kc|]. intros [[k c] from] w' Hin [K' G'].
    apply (keeps_confirm_one (X := none) (L := none) management); [done|].
    eapply held_grows; [exact G'|]. eapply held_grows; [apply Kc|]. by apply (Hh _ Hin). }
  destruct (take_dirty w) as [[k w0]|] eqn:Et.
  - pose proof (reconsider_advances w k w0 K Et) as Ha. by destruct (reconsider _ _ _ _) as [[w'|]|].
  - split; [done|]. unfold take_dirty in Et. by destruct (dirty w).
Qed.

(** After a turn of [solve], no group is dirty if none was before. *)
Definition settles (w w' : W) : Prop := advances w w' /\ (dirty w = [] -> dirty w' = []).

Lemma mediate_settles it outcome w :
  walk_ok w -> item_ok (graph w) it -> (forall found, outcome = Ok found -> resolution_of it found) ->
  match mediate management budget it outcome w with Some (Ok w') => settles w w' | _ => True end.
Proof.
  intros K I Hr. unfold mediate. destruct (negb _); [split; [by apply advances_refl|done]|].
  destruct outcome as [found|]; [|done]. specialize (Hr found eq_refl).
  set (added := match found with None => _ | Some _ => _ end).
  assert (keeps_but_ok none none w added) as Ka.
  { unfold added. destruct found as [r|]; [|by apply keeps_refl]. destruct (Hr r eq_refl) as [[Hp _] Hw].
    apply keeps_add_resolution; [done| |done]. unfold item_ok. by rewrite Hp. }
  clearbody added. destruct added as [w1|]; [|done]. cbn in Ka |- *. unfold joined.
  destruct (run_loop _ _ _) as [r|] eqn:E; [|done].
  eapply (run_partial _ (advances w) (fun r => match r with Some (Ok w') => settles w w' | _ => True end));
    [|by apply advances_keeps|exact E].
  intros w2 Ha. pose proof (mediate_step_advances w2 (proj1 (proj1 Ha))) as Hs.
  destruct (mediate_step _ _ _) as [w3|[[w3|]|]]; [by eapply advances_trans| |done..].
  destruct Hs as [-> Hd]. by split.
Qed.

(** Operations that mark no group dirty. *)
Definition same_dirty (w w' : W) : Prop := dirty w' = dirty w.
Definition same_dirty_flag (st st' : W * bool) : Prop := same_dirty st.1 st'.1.

#[local] Instance same_dirty_preorder : PreOrder same_dirty.
Proof. split; unfold same_dirty; [done|intros a b c; congruence]. Qed.
#[local] Instance same_dirty_flag_preorder : PreOrder same_dirty_flag.
Proof. split; unfold same_dirty_flag, same_dirty; [done|intros a b c; congruence]. Qed.

(** What walking below the exclusions of the winners leaves. *)
Lemma walk_excluded_dirty (w w' : W) queued : walk_excluded_dependencies w = Ok (w', queued) -> dirty w' = dirty w.
Proof.
  intros E. unfold walk_excluded_dependencies in E.
  set (keys := sort_by _ _) in E. pose proof (each_rule same_dirty_flag walk_group keys (w, false)) as Hr. rewrite E in Hr.
  apply Hr. clear - H1. intros k [w1 q] _ _. unfold walk_group. destruct (selected w1 !! k) as [s|]; [|done].
  destruct (winner s) as [won|]; [|done]. destruct (resolved_project won) as [project|]; [|done].
  case_decide; [done|]. destruct (insert_declared _ _) as [losers seen].
  set (st := (_, q)). assert (same_dirty_flag (w1, q) st) as Hst by done. clearbody st.
  pose proof (each_rule same_dirty_flag (walk_loser k (below_exclusions won) project) losers st) as Hl.
  destruct (each _ losers st) as [st'|]; [|done]. etrans; [exact Hst|]. apply Hl.
  intros loser st1 _ _. unfold walk_loser.
  match goal with |- context [each ?f ?l ?st] => pose proof (each_rule same_dirty_flag f l st) as Hf; destruct (each f l st) as [st2|] end; [|done].
  apply Hf. intros [index d] [w2 q2] _ _. cbv beta iota zeta.
  destruct (_ || _); [done|]. unfold queue_shadow, queue_child, push_item.
  destruct (negb _); [done|]. by destruct (push_queue _ _).
Qed.

Lemma solve_step_settles w :
  walk_ok w ->
  match solve_step management budget w with
  | inl w' => settles w w'
  | inr (Some (Ok g)) =>
    exists w', queue w = [] /\ walk_excluded_dependencies w = Ok (w', false) /\ settles w w' /\ finish w' = Some (Ok g)
  | inr _ => True
  end.
Proof.
  intros K. unfold solve_step. destruct (queue w) as [|first rest] eqn:Eq.
  - pose proof (keeps_walk_excluded (X := none) (L := none) w K) as Kx.
    destruct (walk_excluded_dependencies w) as [[w' queued]|] eqn:Ex; [|done]. cbn in Kx.
    assert (settles w w') as Hs.
    { split; [by apply advances_keeps|]. by rewrite (walk_excluded_dirty _ _ _ Ex). }
    destruct queued; [done|]. destruct (refuse_unresolved_winners _ _); [|done]. cbn [mbind run_bind].
    destruct (finish w') as [[g|]|] eqn:Ef; [|done..]. by exists w'.
  - destruct (pop_greatest first rest) as [it others] eqn:Ep. apply pop_greatest_perm in Ep.
    pose proof (walk_queue _ K) as Hq. rewrite Eq, <-Ep in Hq. apply Forall_cons in Hq as [Hit Hq].
    assert (keeps_but none none w (set_queue others w)) as Kq by (by apply keeps_queue).
    cbn [relocations set_queue].
    destruct (resolve_item management it (relocations w)) as [[outcome cache]|] eqn:Er; [|done].
    assert (keeps_but none none w (set_relocations cache (set_queue others w))) as Kr
      by (eapply keeps_trans; [exact Kq|]; apply keeps_relocations).
    assert (dirty (set_relocations cache (set_queue others w)) = dirty w) as Hd by done.
    set (w' := set_relocations _ _) in *. clearbody w'. destruct Kr as [K' G'].
    pose proof (mediate_settles it (map_err (fun err => declared_below err (item_path it)) outcome) w' K') as Km.
    destruct (mediate _ _ _ _ _) as [[w2|]|]; [|done..].
    destruct Km as [Ha Hd']; [by eapply item_grows| |].
    { intros found Ef. destruct outcome as [found'|]; [|done]. cbn in Ef. simplify_eq.
      by eapply (resolve_item_of management it). }
    split; [|by rewrite <-Hd]. eapply advances_trans; [by apply advances_keeps; split|]. by intros _.
Qed.

(** ** The start *)

Lemma start_settled r (w : W) : start management r = Ok w -> good w /\ dirty w = [].
Proof.
  intros Es. set (w0 := new_walk (new_graph (root_node r)) : W).
  assert (good w0) as G0 by (split; [apply new_walk_ok|by intros k s ?; simplify_map_eq..]).
  set (path := path_root no_repos (root_coord r)).
  pose proof (keeps_each (X := none) (L := none) (start_item management path) (imap pair (root_dependencies r)) w0
    (good_ok _ G0) (fun a w' _ Kw => keeps_start_item management _ a w' (proj1 Kw))) as Kw.
  pose proof (each_rule same_dirty (start_item management path) (imap pair (root_dependencies r)) w0) as Hd.
  unfold start in Es. fold w0 path in Es. rewrite Es in Kw, Hd. split; [by eapply good_keeps|]. apply Hd.
  intros [index d] w1 _ _. unfold start_item. cbv zeta. destruct (if decide _ then _ else _); [|done].
  cbn [mbind result_bind]. unfold push_item. by destruct (push_queue _ _).
Qed.

(** ** The end *)

Lemma reachable_selected w g a :
  walk_ok w -> graph_ok g -> arcs (Graph.graph g) = arcs (Graph.graph (graph w)) -> Graph.root g = Graph.root (graph w) ->
  a ∈ Graph.reachable g -> a <> Graph.root g -> exists k s, selected w !! k = Some s /\ node s = a.
Proof.
  intros K [V D R] Ea Er Ha Hne. unfold Graph.reachable in Ha. rewrite bfs_spec in Ha by done.
  apply rtc_inv_r in Ha as [<-|(x & _ & e & Hin)]; [done|]. rewrite Ea in Hin. by eapply core_target; [apply K|].
Qed.

(** A node below the root is that of a selection, with its coordinate; no selection has
    a conflict. *)
Record finishes (w : W) (g : Graph.Graph G) : Prop := {
  finishes_ok : graph_ok g;
  finishes_at a : a ∈ Graph.reachable g -> a <> Graph.root g -> exists k s, selected w !! k = Some s /\ node s = a;
  finishes_coord k s n : selected w !! k = Some s -> Graph.node g (node s) = Some n ->
    exists n0, Graph.node (graph w) (node s) = Some n0 /\ Node.coord n = Node.coord n0;
  finishes_conflict k s : selected w !! k = Some s -> conflict s = None;
}.

Lemma finish_finishes w g : walk_ok w -> finish w = Some (Ok g) -> finishes w g.
Proof.
  intros K E. unfold finish in E. destruct (select_scopes_ok (graph w)) as (r & Er & Hr); [apply K|].
  rewrite Er in E. destruct r as [g'|]; [|done]. cbn [map_err mbind run_bind] in E.
  destruct (Hr g' eq_refl) as (O & Ea & Eroot & Hn). destruct (each _ _ _); [|done]. cbn in E.
  destruct (first_conflict w) as [c|] eqn:Ec; [done|]. unfold mret, run_ret in E. injection E as <-. split.
  - done.
  - intros x. by apply reachable_selected.
  - intros k s n Ek En. pose proof (core_node _ _ _ (walk_core _ K) _ _ Ek) as [Hlt _].
    destruct (lookup_lt_is_Some_2 (node_weights (Graph.graph (graph w))) (node s)) as [n0 En0]; [exact Hlt|].
    destruct (Hn _ _ En0) as [sc Esc]. exists n0. split; [done|]. rewrite En in Esc. by injection Esc as ->.
  - intros k s Ek. destruct (conflict s) as [c|] eqn:Es; [|done]. unfold first_conflict in Ec.
    apply min_by_none in Ec. assert (c ∈ omap conflict (map snd (map_to_list (selected w)))) as Hin.
    { apply list_elem_of_omap. exists s. split; [|done]. apply list_elem_of_fmap. exists (k, s).
      split; [done|]. by apply elem_of_map_to_list. }
    rewrite Ec in Hin. by apply not_elem_of_nil in Hin.
Qed.

(** The walk a graph is finished from. *)
Definition solved_by (r : SolverRoot) (w : W) (g : Graph.Graph G) : Prop :=
  exists w0 w1, start management r = Ok w0 /\ rtc (fun a b => solve_step management budget a = inl b) w0 w1 /\
    queue w1 = [] /\ walk_excluded_dependencies w1 = Ok (w, false) /\ finish w = Some (Ok g).

Lemma solve_ends r g :
  solve management budget r = Some (Ok g) -> exists w, solved_by r w g /\ good w /\ dirty w = [] /\ finishes w g.
Proof.
  unfold solve. intros E. destruct (start management r) as [w0|] eqn:Es; [|done]. cbn [mbind run_bind] in E.
  destruct (start_settled r w0 Es) as [G0 D0]. unfold joined in E. destruct (run_loop _ _ _) as [o|] eqn:El; [|done]. subst o.
  eapply (run_partial _ (fun w => rtc (fun a b => solve_step management budget a = inl b) w0 w /\ good w /\ dirty w = [])
    (fun o => forall g, o = Some (Ok g) -> exists w, solved_by r w g /\ good w /\ dirty w = [] /\ finishes w g)); [| |exact El|done].
  2: done.
  intros w (Hr & Hg & Hd). pose proof (solve_step_settles w (good_ok _ Hg)) as Hs.
  destruct (solve_step management budget w) as [w'|[[g'|]|]] eqn:Ew; [| |done..].
  - destruct Hs as [[_ Ha] Hd']. split_and!; [by eapply rtc_r|by apply Ha|by apply Hd'].
  - intros ? [= <-]. destruct Hs as (w' & Eq & Ex & [[_ Ha] Hd'] & Ef). exists w'.
    split_and!; [by exists w0, w|by apply Ha|by apply Hd'|]. by apply finish_finishes; [apply Ha|].
Qed.
End SolveFacts.

(** ** Theorems *)

(** A turn of one of the loops that goes on. *)
Inductive turn `{Unicode} `{SolverBackend} {G} `{PetGraph (Node.t RepoContext) G} (management : Management) (budget : N)
    : @Walk _ G -> @Walk _ G -> Prop :=
  | Turn_solve w w' : solve_step management budget w = inl w' -> turn management budget w w'
  | Turn_mediate w w' : mediate_step management budget w = inl w' -> turn management budget w w'
  | Turn_reconsider k w w' : reconsider_step management k w = inl w' -> turn management budget w w'.

(** C3: in every state a resolution reaches, the merged groups form a forest whose roots
    have the selections; each selection has a node of its own, which is not the root
    and is named by the group; every edge of the graph ends at the node of a selection;
    every candidate is in the group its coordinate names and hangs below a node, and two
    in one allocation have one constraint; each node has a generation, all of them older
    than the next; and the dirty groups are listed once each.  From one state to a later
    one, groups only merge, the root stays and the nodes only grow in number. *)
Theorem walk_invariant `{Unicode} `{SolverBackend} {G} `{PetGraphLaws (Node.t RepoContext) G}
    (management : Management) (budget : N) (r : SolverRoot) (w w' : @Walk _ G) :
  start management r = Ok w -> rtc (turn management budget) w w' -> walk_ok w' /\ grows any any w w'.
Proof.
  intros Es Hr. destruct (start_settled management r w Es) as [[K _ _] _]. change (keeps_but any any w w').
  clear r Es.
  induction Hr as [w|w w1 w2 Ht Hr IH]; [by apply keeps_refl|].
  assert (keeps_but any any w w1) as K1.
  { destruct Ht as [w w1 E|w w1 E|k w w1 E].
    - pose proof (solve_step_settles management budget w K) as Hs. rewrite E in Hs. apply Hs.
    - pose proof (mediate_step_advances management budget w K) as Hs. rewrite E in Hs. apply Hs.
    - pose proof (mediated_step management k w K) as Hs. rewrite E in Hs. by eapply keeps_any. }
  eapply keeps_trans; [exact K1|]. intros K1'. by apply IH.
Qed.

(** C2: the graph a resolution returns is well formed, with no edge twice, and has one
    node per artifact: two nodes below the root that agree in group, artifact, packaging
    and classifier are the same node, so that one version of each artifact was
    selected. *)
Theorem solve_one_node_per_artifact `{Unicode} `{SolverBackend} {G} `{PetGraphLaws (Node.t RepoContext) G}
    (management : Management) (budget : N) (r : SolverRoot) (g : Graph.Graph G) :
  solve management budget r = Some (Ok g) ->
  graph_ok g /\
  forall a b na nb, a ∈ Graph.reachable g -> b ∈ Graph.reachable g -> a <> Graph.root g -> b <> Graph.root g ->
    Graph.node g a = Some na -> Graph.node g b = Some nb ->
    key_of (Node.coord na) = key_of (Node.coord nb) -> a = b.
Proof.
  intros E. destruct (solve_ends management budget r g E) as (w & _ & [K _ _] & _ & [O Hat Hcoord _]). split; [done|].
  intros a b na nb Ha Hb Hra Hrb Ena Enb Hk.
  destruct (Hat a Ha Hra) as (ka & sa & Eka & <-), (Hat b Hb Hrb) as (kb & sb & Ekb & <-).
  assert (forall k s n, selected w !! k = Some s -> Graph.node g (node s) = Some n -> rep (groups w) (key_of (Node.coord n)) = k) as Hrep.
  { intros k s n Ek (n0 & En0 & ->)%(Hcoord k s n Ek). exact (core_named _ _ _ (walk_core _ K) k s n0 Ek En0). }
  pose proof (Hrep _ _ _ Eka Ena) as Ra. pose proof (Hrep _ _ _ Ekb Enb) as Rb. rewrite Hk in Ra. congruence.
Qed.

(** C1: a resolution that returns a graph has satisfied every constraint: it was finished
    from a walk with nothing left to do in which each node below the root belongs to a
    group whose winner every version range and hard version of every candidate of the
    group accepts, and the node has the group, artifact, version, packaging and
    classifier of that winner; only where the version of the winner is resolved through
    snapshot metadata may the version be the build the backend gives for it instead. *)
Theorem solve_satisfies_constraints `{Unicode} `{SolverBackend} {G} `{PetGraphLaws (Node.t RepoContext) G}
    (management : Management) (budget : N) (r : SolverRoot) (g : Graph.Graph G) :
  solve management budget r = Some (Ok g) ->
  exists w, solved_by management budget r w g /\ dirty w = [] /\
    forall a n, a ∈ Graph.reachable g -> a <> Graph.root g -> Graph.node g a = Some n ->
    exists k s won, selected w !! k = Some s /\ node s = a /\ winner s = Some won /\
      (forall d h, d ∈ candidates s -> hard d = Some h -> req_matches (req h) (Coord.version (coord won)) = true) /\
      (coord_text (Node.coord n) = coord_text (coord won) \/
       exists c repos build, coord_text c = coord_text (coord won) /\
         resolves_through_snapshot_metadata (original (Coord.version c)) = true /\
         resolve_snapshot_version c repos = Ok build /\
         coord_text (Node.coord n) = coord_text (with_version (coord won) (resolved build))).
Proof.
  intros E. destruct (solve_ends management budget r g E) as (w & Hs & [K Ht Hl] & Hd & [O Hat Hcoord Hc]). exists w. split_and!; [done..|].
  intros a n Ha Hra En. destruct (Hat a Ha Hra) as (k & s & Ek & <-). exists k, s.
  destruct (Ht k s Ek) as [(? & [] & _)|[Hdirty|[Hcf|(won & Hw & Hu)]]].
  - apply (walk_dirty _ K) in Hdirty. rewrite Hd in Hdirty. by apply not_elem_of_nil in Hdirty.
  - rewrite (Hc k s Ek) in Hcf. by destruct Hcf.
  - destruct (Hl k s won Ek Hw) as [(? & [] & _)|(n0 & En0 & Hsel)].
    destruct (Hcoord k s n Ek En) as (n1 & En1 & Ecoord). exists won. split_and!; try done. rewrite Ecoord.
    assert (n1 = n0) as -> by congruence. by apply selects_cases.
Qed.
