(* ===== verification/SolveDemo.v ===== *)
(** * A resolution, run ([Solver] of [rv-resolver/src/solver/mod.rs])

    A backend that serves a small repository, with a relocation and a range, on which
    the solver of the model runs; the witnesses of the theorems on resolutions. *)

From Stdlib Require Import Ascii String Lia.
From stdpp Require Import base list strings gmap relations.
From S2P Require Import ConflictOrder Scopes Prelude Iter Str Version Range Coordinates Snapshot Dependency DepManagement Keys Queue Management Relocation Graph Mediation Load Walk WalkInv WalkOps Solve SolveInv SolveFacts.

#[local] Existing Instance ascii_tables.

(** A project: what it declares, and where it moved. *)
Record DemoProject := { demo_dependencies : list Dependency; demo_moved : option Relocation }.

Definition demo_dependency (a v : str) : Dependency := {|
  group_id := $"g"; artifact_id := a; version := Some v; type_ := None; classifier := None;
  Dependency.scope := None; optional := None; exclusions := []; system_path := None |}.

Definition declares (l : list (str * str)) : DemoProject :=
  {| demo_dependencies := map (fun x => demo_dependency x.1 x.2) l; demo_moved := None |}.

Definition moved_to (a : str) : DemoProject := {|
  demo_dependencies := [];
  demo_moved := Some {| rel_group_id := None; rel_artifact_id := Some a; rel_version := None; rel_message := None |} |}.

Definition demo_projects : list (str * str * DemoProject) := [
  ($"b", $"1", declares [($"d", $"2")]);
  ($"c", $"1", declares [($"d", $"1"); ($"e", $"[1,3)"); ($"old", $"1")]);
  ($"d", $"1", declares []);
  ($"d", $"2", declares [($"e", $"1")]);
  ($"e", $"1", declares []);
  ($"e", $"2", declares [($"b", $"1")]);
  ($"old", $"1", moved_to $"e")].

Definition demo_find (a v : str) : option DemoProject :=
  (fun x => x.2) <$> List.find (fun x => bool_decide (x.1 = (a, v))) demo_projects.

Definition demo_relocations : Backend := {|
  Error := unit; Project := DemoProject; RepoContext := unit;
  project_relocation p := demo_moved p; workspace_module _ := None;
  fetch_project c _ _ :=
    match demo_find (Coord.artifact_id c) (original (Coord.version c)) with
    | Some p => Ok p
    | None => Err (Other tt)
    end;
  resolve_snapshot_version _ _ := Err (Other tt);
|}.

Definition demo_solver : SolverBackend := {|
  relocation_backend := demo_relocations; no_repos := tt;
  project_dependencies p := demo_dependencies p; project_management _ := []; project_repo_url _ := None;
  plain_project _ _ _ := declares [];
  module_at _ := None; is_reactor_module _ _ _ := false;
  resolve_version _ _ _ _ := Err (Other tt);
  resolve_versions _ a r _ :=
    Ok (map (fun v => {| resolved := v; repo := None |}) (List.filter (req_matches r)
      (map (fun x => unresolved x.1.2) (List.filter (fun x => bool_decide (x.1.1 = a)) demo_projects))));
  extend_repo_context r _ _ := r; dropped_repos_on_path _ _ _ := []; note_winner _ _ := Ok ();
|}.
#[local] Existing Instance demo_solver.

Definition demo_root : SolverRoot := {|
  root_coord := demo_coord $"app";
  root_dependencies := [demo_dependency $"b" $"1"; demo_dependency $"c" $"1"]; root_scope := Compile |}.

Definition demo_management : Management := Management.new [].

Definition demo_solve : Run (Graph.Graph (ListGraph (Node.t RepoContext))) := solve demo_management 1000 demo_root.

(** The artifacts of the nodes, and the ends of the edges. *)
Definition outline (g : Graph.Graph (ListGraph (Node.t RepoContext))) : list str * list (nat * nat) :=
  (map (fun n => Coord.display (Node.coord n)) (list_nodes (Graph.graph g)), map fst (list_arcs (Graph.graph g))).

Definition demo_outline : list str * list (nat * nat) :=
  ([$"g:app:1"; $"g:b:1"; $"g:c:1"; $"g:d:2"; $"g:e:2"],
   [(0, 1); (0, 2); (1, 3); (2, 3); (2, 4); (2, 4); (3, 4); (4, 1)]).

(** The range admits [e:2], which wins over the relocated [old] and the [e:1] of [d:2];
    [d:2] is declared first. *)
Lemma solve_one_node_per_artifact_witness :
  match demo_solve with
  | Some (Ok g) => outline g = demo_outline /\ graph_ok g
  | _ => False
  end.
Proof.
  assert (match demo_solve with Some (Ok g) => outline g = demo_outline | _ => False end) as Ho by by vm_compute.
  unfold demo_solve in *. destruct (solve demo_management 1000 demo_root) as [[g|e]|] eqn:E; [|done..].
  split; [exact Ho|]. exact (proj1 (solve_one_node_per_artifact demo_management 1000 demo_root g E)).
Defined.

(** The range [[1,3)] of [c:1] and the version [1] of [d:2] meet at [e:2]. *)
Lemma solve_satisfies_constraints_witness :
  match demo_solve with
  | Some (Ok g) => outline g = demo_outline /\ exists w, solved_by demo_management 1000 demo_root w g /\ dirty w = []
  | _ => False
  end.
Proof.
  assert (match demo_solve with Some (Ok g) => outline g = demo_outline | _ => False end) as Ho by by vm_compute.
  unfold demo_solve in *. destruct (solve demo_management 1000 demo_root) as [[g|e]|] eqn:E; [|done..].
  split; [exact Ho|]. destruct (solve_satisfies_constraints demo_management 1000 demo_root g E) as (w & Hs & Hd & _).
  exact (ex_intro _ w (conj Hs Hd)).
Defined.

(** The walk before its first turn, and after. *)
Definition demo_start : result (ResolveError Error) (@Walk _ (ListGraph (Node.t RepoContext))) := start demo_management demo_root.

Definition demo_turn : option (@Walk _ (ListGraph (Node.t RepoContext))) :=
  match demo_start with
  | Ok w => match solve_step demo_management 1000 w with inl w' => Some w' | inr _ => None end
  | Err _ => None
  end.

Lemma walk_invariant_witness :
  from_option (fun w => length (generations w) = 2 /\ walk_ok w) False demo_turn.
Proof.
  assert (from_option (fun w => length (generations w) = 2) False demo_turn) as Hl by by vm_compute.
  unfold demo_turn, demo_start in *. destruct (start demo_management demo_root) as [w0|] eqn:E0; [|done].
  destruct (solve_step demo_management 1000 w0) as [w1|] eqn:E1; [|done]. split; [exact Hl|].
  apply (walk_invariant demo_management 1000 demo_root w0 w1); [exact E0|].
  apply rtc_once. by apply Turn_solve.
Defined.
