(* ===== verification/Retry.v ===== *)
(** * The retry rule ([rv-http/src/retry.rs])

    The loop of [run] as a function of what it meets: what each read of the
    cooldown gives (other requests move it meanwhile), how each attempt ends,
    what the backoff and the jitter draw.  It produces the sleeps, attempts and
    changes of the cooldown in order, and the result.

    A [Duration] is its number of nanoseconds; the saturating operations stop at
    [Duration::MAX]. *)

From stdpp Require Import base list.
From Stdlib Require Import NArith.
From S2P Require Import Prelude Str.

#[local] Set Warnings "-clear-no-such-hyp".
#[local] Open Scope N_scope.

Definition secs (n : N) : N := n * 1000000000.
Definition duration_max : N := 18446744073709551615 * 1000000000 + 999999999.
Definition saturating_mul (d n : N) : N := N.min (d * n) duration_max.
Definition saturating_add (d e : N) : N := N.min (d + e) duration_max.
Definition checked_add (d e : N) : option N := if d + e <=? duration_max then Some (d + e) else None.

Definition MAX_BUSY_WAIT : N := secs 60.

Record RetryPolicy := { retries : N; budget : N }.

(** [u32::try_from(n).unwrap_or(u32::MAX).saturating_add(1)]. *)
Definition next_number (n : N) : N := N.min (N.min n u32_max + 1) u32_max.

(** [RetryPolicy::new]. *)
Definition new_policy (retries timeout : N) : RetryPolicy :=
  {| retries := retries;
     budget := saturating_add (saturating_mul timeout (next_number retries)) (secs 5) |}.

Inductive Outcome (E : Type) :=
  | Permanent (error : E)
  | Transient (error : E)
  | Unresolved (error : E)
  | Busy (error : E) (retry_after : option N).
Arguments Permanent {E}.
Arguments Transient {E}.
Arguments Unresolved {E}.
Arguments Busy {E}.

Definition is_transient {E} (o : Outcome E) : bool :=
  match o with Permanent _ => false | _ => true end.

Definition into_error {E} (o : Outcome E) : E :=
  match o with Permanent e | Transient e | Unresolved e | Busy e _ => e end.

(** [Cooldown::hold] and [Cooldown::remaining], at the instant [now]. *)
Definition hold (until : option N) (now wait : N) : option N :=
  let u := now + wait in
  if is_none_or (fun held => held <? u) until then Some u else until.

Definition remaining (until : option N) (now : N) : N :=
  match until with None => 0 | Some u => u - now end.

Section Run.
Context {T E : Type}.

(** What one round of the outer loop meets. *)
Record Round := {
  holds : list N;             (** reads of [cooldown.remaining()], zero after them *)
  outcome : result (Outcome E) T;
  unresolvable : bool * bool; (** the two loads of [cooldown.unresolvable] *)
  backoff : option N;         (** [backoff.next()] *)
  jitter : N;                 (** [step.mul_f64(fastrand::f64() / 2.0)] *)
}.

Inductive event :=
  | Sleep (d : N)
  | Attempt
  | SetUnresolvable (b : bool)
  | Hold (d : N)
  | OnRetry (e : E) (d : N).

Record state := { tried : N; waited : N; unresolved : bool }.

(** The inner loop: the sleeps the cooldown asks for, within the budget. *)
Fixpoint wait_for (policy : RetryPolicy) (reads : list N) (waited : N) : list event * N :=
  match reads with
  | [] => ([], waited)
  | read :: reads =>
    let held := N.min read (budget policy - waited) in
    if held =? 0 then ([], waited)
    else
      let '(events, waited) := wait_for policy reads (waited + held) in
      (Sleep held :: events, waited)
  end.

(** The wait before the next attempt, or [None] to give up. *)
Definition next_wait (tried : N) (busy : option (option N)) (r : Round) : option N :=
  match busy with
  | None => Some (default (secs 30) (backoff r))
  | Some retry_after =>
    if is_some_and (fun d => MAX_BUSY_WAIT <? d) retry_after then None
    else
      let step := saturating_mul (secs 5) (next_number tried) in
      let jittered := saturating_add step (jitter r) in
      Some (N.min (N.max jittered (default 0 retry_after)) MAX_BUSY_WAIT)
  end.

(** What an outcome asks for: a result, or the error to retry on, whether the
    server was busy, and the flag stored. *)
Inductive verdict := Return (r : result E T) | Retry (e : E) (busy : option (option N)).

Definition judge (failed_before : bool) (r : Round) : list event * verdict :=
  match outcome r with
  | Ok value => ([], Return (Ok value))
  | Err (Permanent e) => ([], Return (Err e))
  | Err (Transient e) => ([], Retry e None)
  | Err (Unresolved e) =>
    let stores := if failed_before then [SetUnresolvable true] else [] in
    if failed_before || (unresolvable r).2 then (stores, Return (Err e)) else (stores, Retry e None)
  | Err (Busy e retry_after) => ([], Retry e (Some retry_after))
  end.

(** The flag an attempt that got past the lookup clears. *)
Definition cleared (r : Round) : list event :=
  let lookup_failed := match outcome r with Err (Unresolved _) => true | _ => false end in
  if negb lookup_failed && (unresolvable r).1 then [SetUnresolvable false] else [].

(** What a retry does: a busy server's cooldown is held, then the wait. *)
Definition before_retry (busy : option (option N)) (e : E) (wait : N) : list event :=
  (if bool_decide (is_Some busy) then [Hold wait] else []) ++ [OnRetry e wait; Sleep wait].

(** One round of the outer loop: what happens, and the result or the state for
    the next round. *)
Definition round (policy : RetryPolicy) (s : state) (r : Round) : list event * (state + result E T) :=
  let '(sleeps, waited) := wait_for policy (holds r) (waited s) in
  let lookup_failed := match outcome r with Err (Unresolved _) => true | _ => false end in
  let '(stores, v) := judge (unresolved s) r in
  let before := sleeps ++ [Attempt] ++ cleared r ++ stores in
  match v with
  | Return res => (before, inr res)
  | Retry e busy =>
    if retries policy <=? tried s then (before, inr (Err e))
    else
      match next_wait (tried s) busy r with
      | None => (before, inr (Err e))
      | Some wait =>
        match opt_filter (fun total => total <=? budget policy) (checked_add waited wait) with
        | None => (before, inr (Err e))
        | Some total =>
          (before ++ before_retry busy e wait,
           inl {| tried := tried s + 1; waited := total; unresolved := lookup_failed |})
        end
      end
  end.

(** [run] over the rounds it meets; [None] when they are not enough. *)
Fixpoint run (policy : RetryPolicy) (s : state) (rounds : list Round) : list event * option (result E T) :=
  match rounds with
  | [] => ([], None)
  | r :: rounds =>
    match round policy s r with
    | (events, inr res) => (events, Some res)
    | (events, inl s) => let '(more, res) := run policy s rounds in (events ++ more, res)
    end
  end.

Definition start : state := {| tried := 0; waited := 0; unresolved := false |}.

(** ** Bounds *)

Definition slept (e : event) : N := match e with Sleep d => d | _ => 0 end.
Definition attempts (e : event) : N := match e with Attempt => 1 | _ => 0 end.
Definition total (f : event -> N) (l : list event) : N := foldr (fun e n => f e + n) 0 l.

Lemma total_nil f : total f [] = 0.
Proof. done. Qed.

Lemma total_cons f e l : total f (e :: l) = f e + total f l.
Proof. done. Qed.

Lemma total_app f l k : total f (l ++ k) = total f l + total f k.
Proof. unfold total. induction l as [|e l IH]; cbn [foldr app]; [done|]. rewrite IH. lia. Qed.

(** Sums over concrete events. *)
Ltac totals :=
  rewrite ?total_app, ?total_cons, ?total_nil; cbn [slept attempts length]; lia.

Lemma wait_for_spec policy reads w events w' :
  wait_for policy reads w = (events, w') -> w <= budget policy ->
  total slept events + w = w' /\ w' <= budget policy /\ total attempts events = 0.
Proof.
  revert w events w'. induction reads as [|read reads IH]; intros w events w'; cbn [wait_for].
  - intros [= <- <-] Hw. totals.
  - destruct (N.eqb_spec (N.min read (budget policy - w)) 0) as [E0|E0].
    + intros [= <- <-] Hw. totals.
    + destruct (wait_for policy reads _) as [ev w1] eqn:Ew. intros [= <- <-] Hw.
      apply IH in Ew as (H1 & H2 & H3); [|lia]. totals.
Qed.

Lemma judge_events failed r events v :
  judge failed r = (events, v) -> total slept events = 0 /\ total attempts events = 0.
Proof.
  unfold judge. destruct (outcome r) as [x|[e|e|e|e ra]]; try by intros [= <- <-].
  destruct failed, (unresolvable r) as [? []]; cbn; by intros [= <- <-].
Qed.

Lemma round_spec policy s r events next :
  waited s <= budget policy -> round policy s r = (events, next) ->
  total attempts events = 1 /\ waited s + total slept events <= budget policy /\
  (forall s', next = inl s' ->
     tried s < retries policy /\ tried s' = tried s + 1 /\
     waited s' = waited s + total slept events /\ waited s' <= budget policy).
Proof.
  intros Hw. unfold round.
  destruct (wait_for policy (holds r) (waited s)) as [sleeps w] eqn:Ew.
  apply wait_for_spec in Ew as (Hs & Hb & Ha); [|done].
  destruct (judge (unresolved s) r) as [stores v] eqn:Ej. apply judge_events in Ej as [Js Ja].
  assert (total slept (cleared r) = 0 /\ total attempts (cleared r) = 0) as [Cs Ca]
    by (unfold cleared; by repeat case_match).
  assert (total attempts (sleeps ++ [Attempt] ++ cleared r ++ stores) = 1) as Hatt
    by totals.
  assert (waited s + total slept (sleeps ++ [Attempt] ++ cleared r ++ stores) = w) as Hslept
    by totals.
  set (before := sleeps ++ _) in *. clearbody before.
  destruct v as [res|e busy]; [intros [= <- <-]; split_and!; [done|lia|done]|].
  destruct (N.leb_spec (retries policy) (tried s)); [intros [= <- <-]; split_and!; [done|lia|done]|].
  destruct (next_wait (tried s) busy r) as [wait|]; [|intros [= <- <-]; split_and!; [done|lia|done]].
  unfold checked_add. destruct (w + wait <=? duration_max); cbn [opt_filter];
    [|intros [= <- <-]; split_and!; [done|lia|done]].
  destruct (N.leb_spec (w + wait) (budget policy)); [|intros [= <- <-]; split_and!; [done|lia|done]].
  intros [= <- <-]. rewrite !(total_app _ before), Hatt.
  assert (total slept (before_retry busy e wait) = wait /\
          total attempts (before_retry busy e wait) = 0) as [H1 H2]
    by (unfold before_retry; case_match; totals).
  rewrite H1, H2. split_and!; [lia|lia|]. intros s' [= <-]. cbn [tried waited]. lia.
Qed.

Lemma run_spec policy rounds s events res :
  waited s <= budget policy -> tried s <= retries policy -> run policy s rounds = (events, res) ->
  total attempts events <= retries policy - tried s + 1 /\
  waited s + total slept events <= budget policy /\
  (retries policy - tried s < N.of_nat (length rounds) -> is_Some res).
Proof.
  revert s events res. induction rounds as [|r rounds IH]; intros s events res Hw Ht; cbn [run].
  - intros [= <- <-]. split_and!; totals.
  - destruct (round policy s r) as [ev [s'|x]] eqn:Er; apply round_spec in Er as (H1 & H2 & H3); try done.
    + destruct (H3 s' eq_refl) as (Ha & Hb & Hc & Hd).
      destruct (run policy s' rounds) as [more res'] eqn:Em. intros [= <- <-].
      apply IH in Em as (I1 & I2 & I3); [|done|lia].
      rewrite !total_app. split_and!; [lia|lia|]. intros Hl. apply I3. cbn [length] in Hl. lia.
    + intros [= <- <-]. split_and!; [lia|done|by eauto].
Qed.

(** whatever the network, the cooldown and the random draws do, a request is
    attempted at most once more than its retries, sleeps in all at most its
    budget, and returns by the attempt after its last retry. *)
Theorem retry_bounds policy rounds :
  let '(events, res) := run policy start rounds in
  total attempts events <= retries policy + 1 /\ total slept events <= budget policy /\
  (retries policy < N.of_nat (length rounds) -> is_Some res).
Proof.
  destruct (run policy start rounds) as [events res] eqn:Er.
  apply run_spec in Er as (H1 & H2 & H3); cbn in *; try lia.
  split_and!; [lia|lia|]. intros Hl. apply H3. lia.
Qed.

(** What a finished run returns: the end of its last attempt. *)
Definition ends_with_outcome (r : Round) (res : result E T) : Prop :=
  match outcome r, res with
  | Ok v, Ok w => v = w
  | Err o, Err e => into_error o = e
  | _, _ => False
  end.

Lemma round_result policy s r events res : round policy s r = (events, inr res) -> ends_with_outcome r res.
Proof.
  unfold round, ends_with_outcome, judge. destruct (wait_for _ _ _) as [sl w].
  destruct (outcome r) as [x|[e|e|e|e ra]]; try by intros [= <- <-].
  all: try destruct (unresolved s || _).
  all: try (by intros [= <- <-]).
  all: repeat case_match; intros E0; try discriminate E0; by injection E0 as <- <-.
Qed.

(** a success is returned at once, and a failed request returns the error of
    its last attempt; a retry after a busy answer waits at least the server's
    [Retry-After] and at most the longest busy wait, and one that asks for longer
    ends the retries. *)
Theorem retry_result policy rounds events res :
  run policy start rounds = (events, Some res) ->
  (exists r, r ∈ rounds /\ ends_with_outcome r res) /\
  (forall tried d r wait, next_wait tried (Some (Some d)) r = Some wait ->
     d <= wait <= MAX_BUSY_WAIT) /\
  (forall tried d r, MAX_BUSY_WAIT < d -> next_wait tried (Some (Some d)) r = None).
Proof.
  intros E0. split_and!.
  - revert E0. generalize start as s. revert events.
    induction rounds as [|r rounds IH]; intros events s; cbn [run]; [done|].
    destruct (round policy s r) as [ev [s'|x]] eqn:Er.
    + destruct (run policy s' rounds) as [more res'] eqn:Em. intros [= <- ->].
      destruct (IH _ _ Em) as (r' & ? & ?). exists r'. split; [by right|done].
    + intros [= <- <-]. exists r. split; [by left|by eapply round_result].
  - intros n d r w. cbn [next_wait is_some_and default].
    destruct (N.ltb_spec MAX_BUSY_WAIT d); [done|]. intros [= <-]. lia.
  - intros n d r Hd. cbn [next_wait is_some_and]. by rewrite (proj2 (N.ltb_lt _ _) Hd).
Qed.
End Run.

(** A server busy once, then serving. *)
Definition demo_rounds : list (Round (T:=nat) (E:=unit)) :=
  [{| holds := [secs 2; 0]; outcome := Err (Busy tt (Some (secs 7))); unresolvable := (false, false);
      backoff := None; jitter := secs 1 |};
   {| holds := []; outcome := Ok 42%nat; unresolvable := (true, false); backoff := None; jitter := 0 |}].

Definition demo_events : list (event (E:=unit)) :=
  [Sleep (secs 2); Attempt; Hold (secs 7); OnRetry tt (secs 7); Sleep (secs 7); Attempt;
   SetUnresolvable false].

Lemma retry_result_witness :
  run (new_policy 3 (secs 10)) start demo_rounds = (demo_events, Some (Ok 42%nat)) /\
  exists r, r ∈ demo_rounds /\ ends_with_outcome r (Ok 42%nat).
Proof.
  split; [by vm_compute|].
  apply (retry_result (new_policy 3 (secs 10)) demo_rounds demo_events). by vm_compute.
Defined.
