(* ===== verification/PathUtils.v ===== *)
(** * Names and POM entries on Windows ([rv-fs/src/path_utils.rs])

    The lexical rules: names Win32 reads back unchanged, generated short names,
    and the normalization of a module or parent entry.  What the file system is
    asked (canonicalization, existence) is not modelled. *)

From Stdlib Require Import Ascii String.
From stdpp Require Import base list strings gmap.
From S2P Require Import Prelude Str Snapshot.

#[local] Set Warnings "-clear-no-such-hyp".

(** [str::trim_end_matches] of a character class, and [str::to_ascii_uppercase]. *)
Fixpoint skip_while (p : ascii -> bool) (s : str) : str :=
  match s with
  | [] => []
  | c :: r => if p c then skip_while p r else s
  end.
Definition trim_end_matches (p : ascii -> bool) (s : str) : str := reverse (skip_while p (reverse s)).

Definition upper_byte (c : ascii) : ascii := if is_lower c then ascii_of_N (code c - 32) else c.
Definition to_ascii_uppercase (s : str) : str := map upper_byte s.

(** The characters of a device number: [1] to [9] and superscript 1, 2, 3. *)
Definition device_number (c : N) : bool :=
  ((49 <=? c) && (c <=? 57) || (c =? 0xB9) || (c =? 0xB2) || (c =? 0xB3))%N.

Definition is_device_name (stem : str) : bool :=
  bool_decide (stem ∈ [$"AUX"; $"NUL"; $"PRN"; $"CON"])
  || is_some_and (fun number => match chars number with [c] => device_number c | _ => false end)
       (match strip_prefix $"COM" stem with Some r => Some r | None => strip_prefix $"LPT" stem end).

(** The bytes no Win32 name holds. *)
Definition forbidden_byte (c : ascii) : bool :=
  (code c <=? 31)%N || bool_decide (code c ∈ [60; 62; 58; 34; 47; 92; 124; 63; 42]%N).

(** [plain_name_is_safe], of a name that is UTF-8. *)
Definition plain_name_is_safe (text : str) : bool :=
  if bool_decide (text = [])
     || (255 <? length (concat (map utf16 (chars text))))
     || ends_with_char (one_of ["."; " "]%char) text
     || existsb forbidden_byte text
  then false
  else
    let stem := trim_end_matches (one_of [" "]%char) (default text (head (split "."%char text))) in
    negb (is_device_name (to_ascii_uppercase stem)).

Definition is_short_name_alias (name : str) : bool :=
  let '(stem, extension) :=
    match rsplit_once "."%char name with
    | Some (stem, extension) => (stem, Some extension)
    | None => (name, None)
    end in
  if contains_char (one_of ["."]%char) stem
     || is_some_and (fun ext => bool_decide (ext = []) || (3 <? length (chars ext))) extension
  then false
  else
    match rsplit_once "~"%char stem with
    | None => false
    | Some (prefix, number) =>
      negb (bool_decide (prefix = [])) && negb (bool_decide (number = []))
      && forallb is_digit number
      && (length (chars prefix) + 1 + length number <=? 8)
    end.

Definition separator : ascii -> bool := one_of ["/"; "\"]%char.

Definition is_rooted (entry : str) : bool :=
  starts_with_char separator entry
  || match entry with a :: b :: _ => is_alpha a && bool_decide (b = ":"%char) | _ => false end.

(** [entry.split(['/', '\\'])]: as the split at one separator once both are it. *)
Definition entry_segments (entry : str) : list str :=
  List.filter (fun s => negb (bool_decide (s = [])))
    (split "/"%char (replace_char "\"%char "/"%char entry)).

Definition trailing : ascii -> bool := one_of ["."; " "]%char.

(** An inner segment that ends in a single dot loses it. *)
Definition inner_name (name : str) : str :=
  match opt_filter (fun s => negb (ends_with_char (one_of ["."]%char) s)) (strip_suffix $"." name) with
  | Some stripped => stripped
  | None => name
  end.

(** One segment of the loop of [win32_entry]; the vector is kept last first. *)
Definition win32_step (final : bool) (segment : str) (normalized : list str) : list str :=
  if decide (segment = $".") then normalized
  else if decide (segment = $"..") then
    match normalized with
    | last :: rest => if decide (last = $"..") then $".." :: normalized else rest
    | [] => [$".."]
    end
  else if final then
    let name := trim_end_matches trailing segment in
    if decide (name = []) then normalized else name :: normalized
  else inner_name segment :: normalized.

Fixpoint win32_loop (segments normalized : list str) : list str :=
  match segments with
  | [] => normalized
  | segment :: rest => win32_loop rest (win32_step (bool_decide (rest = [])) segment normalized)
  end.

Definition win32_entry (entry : str) : str :=
  if is_rooted entry then entry
  else join $"/" (reverse (win32_loop (entry_segments entry) [])).

(** ** The shape of a normalized entry *)

(** A segment that names an entry of the directory it is looked up in. *)
Definition named (s : str) : Prop := s <> [] /\ s <> $"." /\ s <> $"..".

(** Steps up, and then names, with the last first. *)
Definition climbs_then_names (l : list str) : Prop :=
  exists names ups, l = names ++ replicate ups $".." /\ Forall named names.

Lemma skip_while_head p s c r : skip_while p s = c :: r -> p c = false.
Proof. induction s as [|a s IH]; cbn; [done|]. destruct (p a) eqn:E; [done|]. by intros [= -> ->]. Qed.

Lemma trim_end_last p s c : last (trim_end_matches p s) = Some c -> p c = false.
Proof.
  unfold trim_end_matches. destruct (skip_while p (reverse s)) as [|a r] eqn:E; [done|].
  rewrite reverse_cons, last_snoc. intros [= ->]. by eapply skip_while_head.
Qed.

Lemma inner_named s : named s -> named (inner_name s).
Proof.
  intros (H1 & H2 & H3). unfold inner_name.
  destruct (strip_suffix $"." s) as [r|] eqn:E; cbn [opt_filter]; [|done].
  apply strip_suffix_Some in E. destruct (ends_with_char _ r) eqn:Ee; cbn [negb]; [done|].
  split_and!; intros ->; [by apply H2|by vm_compute in Ee..].
Qed.

Lemma trimmed_named s : trim_end_matches trailing s <> [] -> named (trim_end_matches trailing s).
Proof.
  intros Hne. split_and!; [done|..]; intros E;
    assert (last (trim_end_matches trailing s) = Some "."%char) as H by (by rewrite E);
    apply trim_end_last in H; by vm_compute in H.
Qed.

Lemma win32_step_shape final s l :
  s <> [] -> climbs_then_names l -> climbs_then_names (win32_step final s l).
Proof.
  intros Hs (names & ups & -> & HF). unfold win32_step.
  destruct (decide (s = $".")) as [|Hd]; [by exists names, ups|].
  destruct (decide (s = $"..")) as [->|Hdd].
  - destruct names as [|n names]; cbn [app].
    + destruct ups as [|ups]; cbn [replicate]; [by exists [], 1|].
      rewrite decide_True by done. by exists [], (S (S ups)).
    + apply Forall_cons in HF as [(_ & _ & Hn) HF]. rewrite decide_False by done.
      by exists names, ups.
  - destruct final.
    + case_decide as E; [by exists names, ups|].
      exists (trim_end_matches trailing s :: names), ups. split; [done|].
      constructor; [by apply trimmed_named|done].
    + exists (inner_name s :: names), ups. split; [done|]. constructor; [by apply inner_named|done].
Qed.

Lemma win32_loop_shape segments l :
  Forall (fun s => s <> []) segments -> climbs_then_names l -> climbs_then_names (win32_loop segments l).
Proof.
  intros HF. revert l. induction HF as [|s segments Hs HF IH]; intros l Hl; [done|].
  cbn [win32_loop]. apply IH. by apply win32_step_shape.
Qed.

Lemma entry_segments_nonempty e : Forall (fun s => s <> []) (entry_segments e).
Proof.
  unfold entry_segments. apply Forall_forall. intros s Hs. apply list_elem_of_In, List.filter_In in Hs.
  destruct Hs as [_ Hs]. by bool_simpl.
Qed.

(** a normalized entry first climbs and then names: every [..] is at its start
    and every other segment is a name, never empty or [.], so what an entry
    climbs out of the directory it is joined to shows in its first segments. *)
Theorem win32_entry_shape entry :
  is_rooted entry = false ->
  exists ups names, win32_entry entry = join $"/" (replicate ups $".." ++ names) /\ Forall named names.
Proof.
  intros Hr. unfold win32_entry. rewrite Hr.
  destruct (win32_loop_shape (entry_segments entry) [] (entry_segments_nonempty entry))
    as (names & ups & -> & HF); [by exists [], 0|].
  exists ups, (reverse names). rewrite reverse_app, reverse_replicate. split; [done|].
  by apply Forall_reverse.
Qed.

Lemma win32_entry_shape_witness :
  win32_entry $"a/../..\b./c. ." = $"../b/c" /\
  exists ups names, win32_entry $"a/../..\b./c. ." = join $"/" (replicate ups $".." ++ names) /\
    Forall named names.
Proof. split; [by vm_compute|]. apply win32_entry_shape. by vm_compute. Defined.

(** Dropping a leading [.] can leave a drive: the entry is then no longer
    relative, although the one it was normalized from was. *)
Example normalized_entry_becomes_rooted :
  is_rooted $"./C:/x" = false /\ win32_entry $"./C:/x" = $"C:/x" /\ is_rooted (win32_entry $"./C:/x") = true.
Proof. by vm_compute. Qed.
