(* ===== verification/LockText.v ===== *)
(** * Texts of the lock file ([rv-lock/src/scope.rs], [platform.rs], [system.rs],
    [split_parse.rs])

    Scopes and platforms as the lock writes them, the system paths it holds, and
    the cut of a large lock into module blocks. *)

From Stdlib Require Import Ascii String.
From stdpp Require Import base list strings gmap.
From S2P Require Import Prelude Str Component Layout PathUtils.

#[local] Set Warnings "-clear-no-such-hyp".

Module LockScope.
Inductive t := Compile | Import | Provided | Runtime | System | Test.

(** The derived [Ord]: the order of declaration. *)
Definition rank (s : t) : nat :=
  match s with
  | Compile => 0 | Import => 1 | Provided => 2 | Runtime => 3 | System => 4 | Test => 5
  end.
Definition cmp (a b : t) : comparison := Nat.compare (rank a) (rank b).

Definition ALL : list t := [Compile; Provided; Runtime; Test; System; Import].

Definition as_str (s : t) : str :=
  match s with
  | Compile => $"compile" | Provided => $"provided" | Runtime => $"runtime"
  | Test => $"test" | System => $"system" | Import => $"import"
  end.

Record InvalidScope := { rejected : str }.

Definition from_str (value : str) : result InvalidScope t :=
  ok_or (List.find (fun s => bool_decide (as_str s = value)) ALL) {| rejected := value |}.
End LockScope.

Module Platform.
Record t := { os : str; arch : str; jdk : option str }.

(** The refused text; the code holds it in its escaped form. *)
Record InvalidPlatform := { text : str }.

Definition valid (token : str) : bool :=
  negb (bool_decide (token = []))
  && forallb (fun c => is_alnum c || bool_decide (c = "_"%char)) token.

Definition new (os arch : str) : result InvalidPlatform t :=
  if negb (valid os) || negb (valid arch) then Err {| text := os ++ $"-" ++ arch |}
  else Ok {| os := os; arch := arch; jdk := None |}.

Definition with_jdk (p : t) (jdk : str) : t := {| os := os p; arch := arch p; jdk := Some jdk |}.
Definition without_jdk (p : t) : t := {| os := os p; arch := arch p; jdk := None |}.
Definition os_arch (p : t) : str := os p ++ $"-" ++ arch p.

Definition display (p : t) : str :=
  match jdk p with
  | None => os p ++ $"-" ++ arch p
  | Some jdk => os p ++ $"-" ++ arch p ++ $" (JDK " ++ jdk ++ $")"
  end.

Definition from_str (value : str) : result InvalidPlatform t :=
  p ← ok_or (split_once "-"%char value) {| text := value |};
  new p.1 p.2.
End Platform.

(** ** System paths *)

Definition MAX_SYSTEM_PATH_LEN : N := 4096.

Inductive SystemPathFault :=
  | EmptyPath | LongPath | UnsafePath | SeparatorOrColon | AbsolutePath | DotPart.

(** [check_system_path]; the reasons are named after their wording. *)
Definition check_system_path (path : str) : result SystemPathFault unit :=
  if bool_decide (path = []) then Err EmptyPath
  else if (MAX_SYSTEM_PATH_LEN <? N.of_nat (length path))%N then Err LongPath
  else if negb (is_terminal_safe path) then Err UnsafePath
  else if contains_char (one_of ["\"]%char) path || contains_char (one_of [":"]%char) path
  then Err SeparatorOrColon
  else if starts_with_char (one_of ["/"]%char) path then Err AbsolutePath
  else if existsb (fun part => bool_decide (part = []) || bool_decide (part = $".")
                              || bool_decide (part = $"..")) (split slash path)
  then Err DotPart
  else Ok tt.

(** ** Module blocks *)

Definition newline : ascii := ascii_of_N 10.
Definition MODULE : str := $"[[platforms.modules]]" ++ [newline].

(** [str::split_inclusive] at newlines: each line with its newline. *)
Fixpoint split_inclusive (s : str) : list str :=
  match s with
  | [] => []
  | c :: s =>
    if decide (c = newline) then [c] :: split_inclusive s
    else match split_inclusive s with
         | [] => [[c]]
         | line :: lines => (c :: line) :: lines
         end
  end.

Definition bracket : ascii -> bool := one_of ["["]%char.
Definition blank : ascii -> bool := one_of [" "%char; ascii_of_N 9].

(** The loop of [module_blocks]: the open block's start and the offset. *)
Fixpoint blocks_loop (lines : list str) (open : option nat) (at_ : nat) : option (list (nat * nat)) :=
  match lines with
  | [] => Some (match open with Some start => [(start, at_)] | None => [] end)
  | line :: lines =>
    if starts_with_char bracket line then
      let closed := match open with Some start => [(start, at_)] | None => [] end in
      let open := if decide (line = MODULE) then Some at_ else None in
      (app closed) <$> blocks_loop lines open (at_ + length line)
    else if bool_decide (is_Some open) && starts_with_char bracket (skip_while blank line) then None
    else blocks_loop lines open (at_ + length line)
  end.

Definition module_blocks (contents : str) : option (list (nat * nat)) :=
  blocks_loop (split_inclusive contents) None 0.

(** ** Facts *)

(** The texts of a lock row name what they stand for: a scope reads back from
    its name and scopes sort as their names do, as lock rows are sorted; a
    platform that was read prints as the text it was read from, and so reads
    back from it. *)
Lemma lock_text_roundtrip (a b : LockScope.t) (value : str) (p : Platform.t) :
  LockScope.from_str (LockScope.as_str a) = Ok a /\
  LockScope.cmp a b = str_cmp (LockScope.as_str a) (LockScope.as_str b) /\
  (Platform.from_str value = Ok p -> Platform.display p = value /\ Platform.jdk p = None /\
     Platform.from_str (Platform.os_arch p) = Ok p).
Proof.
  split; [by destruct a; vm_compute|]. split; [by destruct a, b; vm_compute|].
  unfold Platform.from_str. intros E. inv_ok E. inv_ok Ha. destruct a0 as [os arch].
  apply split_once_Some in Ha as [-> Ho]. cbn [fst snd] in E. unfold Platform.new in E.
  inv_ok E. injection E as <-. unfold Platform.display, Platform.os_arch. cbn [Platform.jdk Platform.os Platform.arch].
  split; [done|]. split; [done|].
  rewrite (proj2 (split_once_Some "-"%char _ os arch)) by done. cbn. unfold Platform.new.
  by rewrite E0.
Qed.

Lemma lock_text_roundtrip_witness :
  let p := {| Platform.os := $"linux"; Platform.arch := $"x86_64"; Platform.jdk := None |} in
  Platform.display p = $"linux-x86_64" /\ Platform.jdk p = None /\
  Platform.from_str (Platform.os_arch p) = Ok p.
Proof.
  apply (lock_text_roundtrip LockScope.Compile LockScope.Test $"linux-x86_64"). by vm_compute.
Defined.

Lemma contains_one_of c s : contains_char (one_of [c]) s = false <-> c ∉ s.
Proof.
  rewrite <-not_contains_char. unfold contains_char, one_of.
  assert (forall l, existsb (fun x => bool_decide (x ∈ [c])) l = existsb (fun x => bool_decide (x = c)) l) as ->.
  { induction l as [|x l IH]; [done|]. cbn [existsb]. rewrite IH. f_equal.
    apply bool_decide_ext, list_elem_of_singleton. }
  done.
Qed.

(** [check_system_path] accepts exactly the printable relative paths of at most
    4096 bytes without a colon whose parts each name a plain entry, so the path of
    a recorded system file does not climb out of the directory that holds the lock. *)
Theorem check_system_path_spec path :
  check_system_path path = Ok tt <->
  (N.of_nat (length path) <= MAX_SYSTEM_PATH_LEN)%N /\ is_terminal_safe path = true /\
  ":"%char ∉ path /\ Forall safe_segment (split slash path).
Proof.
  assert (forall part, existsb (fun part => bool_decide (part = []) || bool_decide (part = $".")
            || bool_decide (part = $"..")) part = false <->
          Forall (fun p => p <> [] /\ p <> $"." /\ p <> $"..") part) as Hparts.
  { induction part as [|p ps IH]; cbn [existsb]; [by split|].
    rewrite Forall_cons, orb_false_iff, IH, !orb_false_iff, !bool_decide_eq_false. tauto. }
  assert (starts_with_char (one_of ["/"]%char) path = true -> head (split slash path) = Some []) as Habs.
  { destruct path as [|c path]; [done|]. cbn [starts_with_char].
    rewrite one_of_true, list_elem_of_singleton. by intros ->. }
  unfold check_system_path. split.
  - intros H. repeat inv_ok H. apply negb_false_iff in E1. apply orb_false_iff in E2 as [E2 E5].
    apply contains_one_of in E2, E5. apply Hparts in E4. split_and!; [by apply N.ltb_ge|done..|].
    rewrite Forall_forall in E4 |- *. intros p Hp. destruct (E4 p Hp) as (H1 & H2 & H3).
    pose proof (split_no_sep slash path) as Hsep. rewrite Forall_forall in Hsep.
    split_and!; [done..|by apply Hsep|]. intros Hin. apply E2. by eapply split_elem.
  - intros (Hl & Hs & Hc & HF).
    assert (path <> []) as Hne.
    { intros ->. apply Forall_cons in HF as [[H _] _]. done. }
    rewrite bool_decide_eq_false_2 by done. rewrite (proj2 (N.ltb_ge _ _) Hl), Hs. cbn [negb].
    assert ("\"%char ∉ path) as Hb.
    { intros Hin. rewrite <-(join_split slash path) in Hin. revert HF Hin.
      generalize (split slash path). induction l as [|p [|q l] IH]; intros HF Hin.
      - by apply elem_of_nil in Hin.
      - apply Forall_cons in HF as [(_ & _ & _ & _ & H) _]. done.
      - apply Forall_cons in HF as [(_ & _ & _ & _ & H) HF].
        change (join [slash] (p :: q :: l)) with (p ++ [slash] ++ join [slash] (q :: l)) in Hin.
        apply elem_of_app in Hin as [Hin|[Hin|Hin]%elem_of_app]; [done|..].
        + by apply list_elem_of_singleton in Hin.
        + by apply IH. }
    rewrite (proj2 (contains_one_of _ _) Hb), (proj2 (contains_one_of _ _) Hc). cbn [orb].
    destruct (starts_with_char _ path) eqn:Ea.
    { specialize (Habs eq_refl). destruct (split slash path); [done|]. injection Habs as ->.
      apply Forall_cons in HF as [[H _] _]. done. }
    rewrite (proj2 (Hparts _)); [done|]. eapply Forall_impl; [exact HF|].
    intros p (H1 & H2 & H3 & _). done.
Qed.

(** ** Blocks are slices of the text, in order *)

Lemma split_inclusive_concat s : concat (split_inclusive s) = s.
Proof.
  induction s as [|c s IH]; cbn [split_inclusive]; [done|]. case_decide; cbn; [by rewrite IH|].
  destruct (split_inclusive s) as [|line lines]; cbn in *; by rewrite <-IH.
Qed.

Definition block_at (contents : str) (block : nat * nat) : Prop :=
  block.1 + length MODULE <= block.2 <= length contents /\
  take (length MODULE) (drop block.1 contents) = MODULE.

Fixpoint ordered_from (lo : nat) (blocks : list (nat * nat)) : Prop :=
  match blocks with [] => True | b :: bs => lo <= b.1 /\ ordered_from b.2 bs end.

Lemma ordered_from_le lo lo' bs : lo <= lo' -> ordered_from lo' bs -> ordered_from lo bs.
Proof. intros Hle. destruct bs as [|b bs]; [done|]. intros [H1 H2]. split; [lia|done]. Qed.

Lemma block_at_app pre post b : block_at pre b -> block_at (pre ++ post) b.
Proof.
  intros [[H1 H2] H3]. split; [rewrite length_app; lia|].
  rewrite drop_app_le by lia. rewrite take_app_le; [done|]. rewrite length_drop. lia.
Qed.

Lemma block_at_grow contents s e e' :
  block_at contents (s, e) -> e <= e' -> e' <= length contents -> block_at contents (s, e').
Proof. intros [[H1 H2] H3] H4 H5. cbn in *. split; [cbn; lia|done]. Qed.

Lemma blocks_loop_spec lines pre open blocks :
  (forall s, open = Some s -> block_at pre (s, length pre)) ->
  blocks_loop lines open (length pre) = Some blocks ->
  Forall (block_at (pre ++ concat lines)) blocks /\ ordered_from (default (length pre) open) blocks.
Proof.
  revert pre open blocks. induction lines as [|line lines IH]; intros pre open blocks Hopen; cbn [blocks_loop].
  - intros [= <-]. cbn. rewrite app_nil_r. destruct open as [s|]; [|done].
    split; [|by cbn]. constructor; [by apply Hopen|done].
  - rewrite <-length_app. cbn [concat]. rewrite (app_assoc pre line).
    destruct (starts_with_char bracket line) eqn:Eb.
    + intros E. apply fmap_Some in E as (bs & E & ->).
      destruct (IH (pre ++ line) (if decide (line = MODULE) then Some (length pre) else None) bs) as [HF Ho].
      * intros s. case_decide as Em; [|done]. intros [= <-]. split; cbn [fst snd].
        -- rewrite length_app, Em. lia.
        -- rewrite drop_app_length, Em. done.
      * done.
      * assert (length pre <= default (length (pre ++ line)) (if decide (line = MODULE) then Some (length pre) else None))
          as Hle by (rewrite length_app; case_decide; cbn [default]; unfold id; lia).
        pose proof (ordered_from_le _ _ _ Hle Ho) as Ho'.
        destruct open as [s|]; cbn [app]; [|done]. split; [|by cbn].
        constructor; [|done]. rewrite <-app_assoc. by apply block_at_app, Hopen.
    + destruct (bool_decide (is_Some open) && _); [done|]. intros E.
      destruct (IH (pre ++ line) open blocks) as [HF Ho]; [|done|].
      * intros s Hs. eapply (block_at_grow _ s (length pre)); [by apply block_at_app, Hopen|..];
          rewrite length_app; lia.
      * split; [done|]. destruct open as [s|]; [done|].
        apply (ordered_from_le (length pre) (length (pre ++ line))); [rewrite length_app; lia|done].
Qed.

(** The blocks of a text are disjoint slices of it, in order, each starting with
    the header line, so that cutting them out and putting them back is safe. *)
Lemma module_blocks_spec contents blocks :
  module_blocks contents = Some blocks ->
  Forall (block_at contents) blocks /\ ordered_from 0 blocks.
Proof.
  unfold module_blocks. intros E. destruct (blocks_loop_spec (split_inclusive contents) [] None blocks) as [HF Ho];
    [done|done|]. cbn [app] in HF. by rewrite split_inclusive_concat in HF.
Qed.
