(* ===== verification/Ambient.v ===== *)
(** * Host inputs of a resolution ([rv-lock/src/ambient.rs])

    The names under which the lock records the host values and the activation
    conditions a resolution consulted: their constructors with the rules each name
    must pass, their text, the order the lock lists them in (compared a run of bytes
    at a time) and the reader of the text.  The JSON text of a private lookup is
    [serde_json]'s, as a class. *)

From Stdlib Require Import Ascii String Lia.
From stdpp Require Import base list strings gmap.
From S2P Require Import Prelude Str Component Coordinates.

#[local] Set Warnings "-clear-no-such-hyp".

(** [HostCondition]. *)
Inductive HostCondition :=
  | Jdk (spec : str)
  | Property (name : str) (value : option str)
  | File (path : str)
  | Settings (key : str).

(** [AmbientInput]. *)
Inductive AmbientInput :=
  | Env (name : str)
  | JavaHome
  | JavaVersion
  | OsRelease
  | SettingsProperty (name : str)
  | UserProperty (name : str)
  | UserPropertyLookup (template : str)
  | Condition (condition : HostCondition) (holds : bool).

#[export] Instance host_condition_eq_dec : EqDecision HostCondition.
Proof. solve_decision. Defined.
#[export] Instance ambient_input_eq_dec : EqDecision AmbientInput.
Proof. solve_decision. Defined.

(** [InvalidAmbientInput]. *)
Record InvalidAmbientInput := { rejected_input : str }.

(** [PropertyLookup::parse] and [encode]: [serde_json] on a derived type. *)
Class LookupJson := {
  Lookup : Type;
  parse_lookup : str -> option Lookup;
  encode_lookup : Lookup -> str;
}.

(** ** Rules of the names *)

Definition MAX_ENV_NAME_LEN : nat := 255.
Definition MAX_SETTINGS_PROPERTY_NAME_LEN : nat := 128.
Definition MAX_CONDITION_TEXT_LEN : nat := 256.

Definition underscore : ascii := "_"%char.

Definition is_env_var_name (name : str) : bool :=
  (length name <=? MAX_ENV_NAME_LEN)
  && match name with
     | [] => false
     | first :: rest =>
       (is_alpha first || bool_decide (first = underscore))
       && forallb (fun byte => is_alnum byte || bool_decide (byte = underscore)) rest
     end.

Definition is_settings_property_name (name : str) : bool :=
  negb (is_empty name) && (length name <=? MAX_SETTINGS_PROPERTY_NAME_LEN)
  && forallb (fun byte => is_alnum byte || one_of ["."; "-"; "_"]%char byte) name.

(** [is_option_name] of [codec.rs]. *)
Definition is_option_name (name : str) : bool :=
  (1 <=? length name) && (length name <=? 256)
  && forallb (fun byte => is_graphic byte && negb (bool_decide (byte = "="%char))) name.

Definition is_condition_text (text : str) : bool :=
  negb (is_empty text) && (length (chars text) <=? MAX_CONDITION_TEXT_LEN) && is_terminal_safe text.

(** The [all] of [is_project_path] with the depth its closure counts. *)
Fixpoint inside_project (depth : nat) (names : list str) : bool :=
  match names with
  | [] => true
  | name :: names =>
    if bool_decide (name = [] \/ name = $".") then false
    else if bool_decide (name = $"..") then
      match depth with
      | O => false
      | S up => inside_project up names
      end
    else inside_project (S depth) names
  end.

Definition is_project_path (path : str) : bool :=
  is_condition_text path && negb (contains_char (one_of ["\"; ":"]%char) path)
  && inside_project 0 (split "/"%char path).

Definition is_property_name (a : AmbientInput) : bool :=
  match a with UserProperty _ | SettingsProperty _ | Env _ => true | _ => false end.

(** ** Constructors *)

Definition or_reject (ok : bool) (a : AmbientInput) (text : str) : result InvalidAmbientInput AmbientInput :=
  if ok then Ok a else Err {| rejected_input := text |}.

Definition env_input (name : str) := or_reject (is_env_var_name name) (Env name) ($"env." ++ name).
Definition settings_property (name : str) :=
  or_reject (is_settings_property_name name) (SettingsProperty name) ($"settings-property:" ++ name).
Definition user_property (name : str) :=
  or_reject (is_option_name name) (UserProperty name) ($"user-property:" ++ name).
Definition jdk_condition (spec : str) (holds : bool) :=
  or_reject (is_condition_text spec) (Condition (Jdk spec) holds) ($"jdk:" ++ spec).

Definition is_host_property (name : str) : bool :=
  let property := default name (strip_prefix $"!" name) in
  bool_decide (property = $"java.version" \/ property = $"java.home")
  || is_some_and is_env_var_name (strip_prefix $"env." property).

Definition property_condition (name : str) (value : option str) (holds : bool) :=
  or_reject (is_host_property name && is_none_or is_condition_text value)
    (Condition (Property name value) holds)
    ($"property:" ++ name ++ from_option (fun v => $"=" ++ v) [] value).

Definition file_condition (path : str) (exists_ : bool) :=
  or_reject (is_project_path path) (Condition (File path) exists_) ($"file:" ++ path).

Definition is_settings_key (key : str) : bool :=
  (length key =? 16) && forallb (fun byte => is_digit byte || in_range 97 102 byte) key.

Definition settings_condition (key : str) (holds : bool) :=
  or_reject (is_settings_key key) (Condition (Settings key) holds) ($"settings:" ++ key).

(** ** Text and order *)

(** [HostCondition::pieces]. *)
Definition condition_pieces (c : HostCondition) : list str :=
  match c with
  | Jdk spec => [$"jdk:"; spec; []; []]
  | File path => [$"file:"; path; []; []]
  | Settings key => [$"settings:"; key; []; []]
  | Property name None => [$"property:"; name; []; []]
  | Property name (Some value) => [$"property:"; name; $"="; value]
  end.

(** [Display for HostCondition]. *)
Definition condition_text (c : HostCondition) : str := concat (condition_pieces c).

Definition holds_text (holds : bool) : str := if holds then $" is true" else $" is false".

(** [AmbientInput::pieces]. *)
Definition input_pieces (a : AmbientInput) : list str :=
  match a with
  | Env name => [$"env."; name; []; []; []; []]
  | JavaHome => [$"java.home"; []; []; []; []; []]
  | JavaVersion => [$"java.version"; []; []; []; []; []]
  | OsRelease => [$"os-release"; []; []; []; []; []]
  | SettingsProperty name => [$"settings-property:"; name; []; []; []; []]
  | UserProperty name => [$"user-property:"; name; []; []; []; []]
  | UserPropertyLookup template => [$"user-property-lookup:"; template; []; []; []; []]
  | Condition condition holds => condition_pieces condition ++ [holds_text holds; []]
  end.

(** [Display for AmbientInput]. *)
Definition input_text (a : AmbientInput) : str := concat (input_pieces a).

(** [while a.is_empty() && let Some(next) = ours.next()]. *)
Fixpoint refill (a : str) (pieces : list str) : str * list str :=
  match pieces with
  | next :: pieces' => if is_empty a then refill next pieces' else (a, pieces)
  | [] => (a, [])
  end.

(** The [loop] of [Ord for AmbientInput]; every round that goes on drops a byte. *)
Fixpoint pieces_cmp (fuel : nat) (a : str) (ours : list str) (b : str) (theirs : list str)
    : option comparison :=
  match fuel with
  | O => None
  | S fuel =>
    let '(a, ours) := refill a ours in
    let '(b, theirs) := refill b theirs in
    if is_empty a || is_empty b then Some (Nat.compare (length a) (length b))
    else
      let n := Nat.min (length a) (length b) in
      match str_cmp (take n a) (take n b) with
      | Eq => pieces_cmp fuel (drop n a) ours (drop n b) theirs
      | order => Some order
      end
  end.

(** [Ord for AmbientInput]. *)
Definition input_cmp (a b : AmbientInput) : comparison :=
  default Eq (pieces_cmp (S (length (input_text a))) [] (input_pieces a) [] (input_pieces b)).

(** ** Reading ([FromStr for AmbientInput]) *)

(** [str::rsplit_once] with a text. *)
Definition rsplit_once_str (p s : str) : option (str * str) :=
  (fun i => (take i s, drop (i + length p) s)) <$> rfind_str p s.

Definition read_condition (condition : str) (holds : bool) : option (result InvalidAmbientInput AmbientInput) :=
  match strip_prefix $"jdk:" condition with
  | Some spec => Some (jdk_condition spec holds)
  | None =>
    match strip_prefix $"file:" condition with
    | Some path => Some (file_condition path holds)
    | None =>
      match strip_prefix $"settings:" condition with
      | Some key => Some (settings_condition key holds)
      | None =>
        property ← strip_prefix $"property:" condition;
        Some (match split_once "="%char property with
              | Some (name, expected) => property_condition name (Some expected) holds
              | None => property_condition property None holds
              end)
      end
    end
  end.

Definition read_holds (text : str) : option bool :=
  if bool_decide (text = $"true") then Some true
  else if bool_decide (text = $"false") then Some false else None.

Section Reading.
Context `{LookupJson}.

Definition read_named (value : str) : option (result InvalidAmbientInput AmbientInput) :=
  let invalid := Err {| rejected_input := value |} in
  match strip_prefix $"user-property:" value with
  | Some name => Some (user_property name)
  | None =>
    match strip_prefix $"user-property-lookup:" value with
    | Some template =>
      Some (match parse_lookup template with
            | Some lookup =>
              if is_terminal_safe template then Ok (UserPropertyLookup (encode_lookup lookup)) else invalid
            | None => invalid
            end)
    | None =>
      match strip_prefix $"env." value with
      | Some name => Some (env_input name)
      | None => settings_property <$> strip_prefix $"settings-property:" value
      end
    end
  end.

Definition read_input (value : str) : result InvalidAmbientInput AmbientInput :=
  let invalid := {| rejected_input := value |} in
  if bool_decide (value = $"java.home") then Ok JavaHome
  else if bool_decide (value = $"java.version") then Ok JavaVersion
  else if bool_decide (value = $"os-release") then Ok OsRelease
  else
    match read_named value with
    | Some named => map_err (fun _ => invalid) named
    | None =>
      parts ← ok_or (rsplit_once_str $" is " value) invalid;
      holds ← ok_or (read_holds parts.2) invalid;
      parsed ← ok_or (read_condition parts.1 holds) invalid;
      map_err (fun _ => invalid) parsed
    end.
End Reading.

(** ** The order is the order of the texts *)

Lemma refill_spec a pieces :
  let '(a', pieces') := refill a pieces in
  a' ++ concat pieces' = a ++ concat pieces /\ (a' = [] -> pieces' = []).
Proof.
  revert a. induction pieces as [|p ps IH]; intros a; cbn; [by rewrite app_nil_r|].
  unfold is_empty. case_bool_decide as Ea; [subst a; apply IH|]. split; [done|]. by intros ->.
Qed.

(** Texts that share a run compare as what follows it. *)
Lemma str_cmp_app_same p a b : str_cmp (p ++ a) (p ++ b) = str_cmp a b.
Proof.
  induction p as [|c p IH]; [done|]. unfold str_cmp in *. cbn. by rewrite cmp_refl.
Qed.

Lemma str_cmp_app_lt p q a b :
  length p = length q -> str_cmp p q <> Eq -> str_cmp (p ++ a) (q ++ b) = str_cmp p q.
Proof.
  revert q. induction p as [|c p IH]; intros [|d q] El En; try done. unfold str_cmp in *. cbn in *.
  destruct (ascii_cmp c d); cbn in *; [apply IH; [lia|done]|done..].
Qed.

Lemma pieces_cmp_spec fuel : forall a ours b theirs, length (a ++ concat ours) < fuel ->
  pieces_cmp fuel a ours b theirs = Some (str_cmp (a ++ concat ours) (b ++ concat theirs)).
Proof.
  induction fuel as [|fuel IH]; intros a ours b theirs Hf; [lia|]. cbn [pieces_cmp].
  pose proof (refill_spec a ours) as Ha. pose proof (refill_spec b theirs) as Hb.
  destruct (refill a ours) as [a' ours'], (refill b theirs) as [b' theirs'].
  destruct Ha as [Ea Na], Hb as [Eb Nb]. rewrite <-Ea in Hf |- *. rewrite <-Eb. clear a ours b theirs Ea Eb.
  unfold is_empty. case_bool_decide as E1; cbn [orb].
  - rewrite Na by done. subst a'. cbn. destruct b' as [|c b']; cbn; [|done]. by rewrite Nb.
  - case_bool_decide as E2.
    + rewrite Nb by done. subst b'. destruct a' as [|c a']; [done|]. done.
    + set (n := Nat.min (length a') (length b')).
      assert (0 < n) as Hn by (destruct a', b'; cbn in *; try done; unfold n; cbn; lia).
      assert (length (take n a') = length (take n b')) as El by (rewrite !length_take; unfold n; lia).
      assert (a' ++ concat ours' = take n a' ++ drop n a' ++ concat ours') as -> by (by rewrite app_assoc, take_drop).
      assert (b' ++ concat theirs' = take n b' ++ drop n b' ++ concat theirs') as -> by (by rewrite app_assoc, take_drop).
      destruct (str_cmp (take n a') (take n b')) eqn:E.
      * apply cmp_eq in E as E'. rewrite E', str_cmp_app_same. apply IH.
        rewrite length_app, length_drop. rewrite length_app in Hf. destruct a'; cbn in *; [done|lia].
      * rewrite str_cmp_app_lt, E by (try done; by rewrite E). done.
      * rewrite str_cmp_app_lt, E by (try done; by rewrite E). done.
Qed.

(** the order of host inputs, compared a run of bytes at a time, is the order of
    their texts. *)
Theorem input_cmp_text a b : input_cmp a b = str_cmp (input_text a) (input_text b).
Proof. unfold input_cmp. by rewrite pieces_cmp_spec by (cbn; unfold input_text; lia). Qed.

(** ** What is recorded reads back *)

Section RoundTrip.
Context `{LookupJson}.

Definition condition_ok (c : HostCondition) : bool :=
  match c with
  | Jdk spec => is_condition_text spec
  | Property name value => is_host_property name && is_none_or is_condition_text value
  | File path => is_project_path path
  | Settings key => is_settings_key key
  end.

(** The inputs the lock can hold. *)
Definition input_ok (a : AmbientInput) : bool :=
  match a with
  | Env name => is_env_var_name name
  | JavaHome | JavaVersion | OsRelease => true
  | SettingsProperty name => is_settings_property_name name
  | UserProperty name => is_option_name name
  | UserPropertyLookup template =>
    is_terminal_safe template
    && is_some_and (fun l => bool_decide (encode_lookup l = template)) (parse_lookup template)
  | Condition condition _ => condition_ok condition
  end.

Lemma map_reject_Ok ok a (text : InvalidAmbientInput) t' b :
  map_err (fun _ => text) (or_reject ok a t') = Ok b <-> ok = true /\ a = b.
Proof. unfold or_reject. destruct ok; cbn; naive_solver. Qed.

Lemma rfind_str_app p a s i : rfind_str p s = Some i -> rfind_str p (a ++ s) = Some (length a + i).
Proof. intros E. induction a as [|c a IH]; cbn; [done|]. by rewrite IH. Qed.

Lemma rsplit_holds text (h : bool) :
  rsplit_once_str $" is " (text ++ holds_text h) = Some (text, if h then $"true" else $"false").
Proof.
  unfold rsplit_once_str. rewrite (rfind_str_app _ _ _ 0) by (by destruct h). cbn [fmap option_fmap option_map].
  rewrite Nat.add_0_r, take_app_length. do 2 f_equal. rewrite drop_app_add'; [|done]. by destruct h.
Qed.

Lemma env_name_no_eq name : is_env_var_name name = true -> "="%char ∉ name.
Proof.
  unfold is_env_var_name. intros [_ E]%andb_true_iff Hin. destruct name as [|c name]; [done|].
  apply andb_true_iff in E as [Ec En].
  apply elem_of_cons in Hin as [<-|Hin]; [by vm_compute in Ec|].
  rewrite forallb_forall in En. apply list_elem_of_In, En in Hin. by vm_compute in Hin.
Qed.

Lemma host_property_no_eq name : is_host_property name = true -> "="%char ∉ name.
Proof.
  unfold is_host_property. set (property := default name _). intros E.
  assert ("="%char ∉ property) as Hp.
  { apply orb_true_iff in E as [E|E].
    - apply bool_decide_eq_true in E as [->| ->]; by apply (bool_decide_unpack _).
    - destruct (strip_prefix $"env." property) as [n|] eqn:En; [|done]. cbn in E.
      apply strip_prefix_Some in En. rewrite En. apply env_name_no_eq in E. intros [Hin|Hin]%elem_of_app; [|done].
      revert Hin. by apply (bool_decide_unpack _). }
  destruct (strip_prefix $"!" name) as [n|] eqn:En; [|done]. cbn in property. subst property.
  apply strip_prefix_Some in En. rewrite En. cbn. set_solver.
Qed.

Lemma split_once_None c s : c ∉ s -> split_once c s = None.
Proof.
  intros Hc. destruct (split_once c s) as [[a b]|] eqn:E; [|done].
  apply split_once_Some in E as [-> _]. set_solver.
Qed.

Lemma property_text name value :
  concat (condition_pieces (Property name value)) = $"property:" ++ name ++ from_option (fun v => $"=" ++ v) [] value.
Proof. destruct value; cbn; by rewrite ?app_nil_r. Qed.

(** The prefix of a text decides its kind. *)
Lemma read_condition_kinds text h :
  read_condition ($"jdk:" ++ text) h = Some (jdk_condition text h)
  /\ read_condition ($"file:" ++ text) h = Some (file_condition text h)
  /\ read_condition ($"settings:" ++ text) h = Some (settings_condition text h)
  /\ read_condition ($"property:" ++ text) h
     = Some (match split_once "="%char text with
             | Some (name, expected) => property_condition name (Some expected) h
             | None => property_condition text None h
             end).
Proof. done. Qed.

Lemma read_input_kinds text :
  (let invalid s := fun _ : InvalidAmbientInput => {| rejected_input := s ++ text |} in
   read_input ($"env." ++ text) = map_err (invalid $"env.") (env_input text)
   /\ read_input ($"settings-property:" ++ text) = map_err (invalid $"settings-property:") (settings_property text)
   /\ read_input ($"user-property:" ++ text) = map_err (invalid $"user-property:") (user_property text))
  /\ read_named ($"user-property-lookup:" ++ text)
     = Some (match parse_lookup text with
             | Some lookup =>
               if is_terminal_safe text then Ok (UserPropertyLookup (encode_lookup lookup))
               else Err {| rejected_input := $"user-property-lookup:" ++ text |}
             | None => Err {| rejected_input := $"user-property-lookup:" ++ text |}
             end).
Proof. done. Qed.

Lemma read_condition_text c holds (text : InvalidAmbientInput) b :
  (parsed ← ok_or (read_condition (condition_text c) holds) text; map_err (fun _ => text) parsed) = Ok b
  /\ b = Condition c holds <-> condition_ok c = true /\ b = Condition c holds.
Proof.
  unfold condition_text. destruct c as [spec|name value|path|key].
  1,3,4: cbn [condition_pieces concat]; rewrite !app_nil_r;
    first [rewrite (proj1 (read_condition_kinds _ _))|rewrite (proj1 (proj2 (read_condition_kinds _ _)))
          |rewrite (proj1 (proj2 (proj2 (read_condition_kinds _ _))))];
    cbn [ok_or mbind result_bind]; unfold jdk_condition, file_condition, settings_condition;
    rewrite map_reject_Ok; cbn; naive_solver.
  rewrite property_text, (proj2 (proj2 (proj2 (read_condition_kinds _ _)))). cbn [ok_or mbind result_bind].
  destruct value as [v|]; cbn [from_option].
  - destruct (is_host_property name) eqn:Eh.
    + rewrite (proj2 (split_once_Some "="%char (name ++ $"=" ++ v) name v)) by (split; [done|by apply host_property_no_eq]).
      unfold property_condition. rewrite map_reject_Ok. cbn [condition_ok]. rewrite Eh. split; [by intros [[] ->]|by intros [? ->]].
    + split; [|intros [E _]; cbn [condition_ok] in E; by rewrite Eh in E]. intros [E ->]. exfalso.
      destruct (split_once _ _) as [[n e]|]; unfold property_condition in E; apply map_reject_Ok in E as [E1 E2];
        [injection E2 as -> ->|done]. rewrite Eh in E1. done.
  - rewrite app_nil_r. destruct (is_host_property name) eqn:Eh.
    + rewrite split_once_None by (by apply host_property_no_eq).
      unfold property_condition. rewrite map_reject_Ok. cbn [condition_ok]. rewrite Eh. split; [by intros [[] ->]|by intros [? ->]].
    + split; [|intros [E _]; cbn [condition_ok] in E; by rewrite Eh in E]. intros [E ->]. exfalso.
      destruct (split_once _ _) as [[n e]|]; unfold property_condition in E; apply map_reject_Ok in E as [E1 E2];
        [done|]. rewrite Eh in E1. done.
Qed.

Lemma read_condition_input c holds (text := condition_text c ++ holds_text holds)
    (invalid := {| rejected_input := text |}) :
  read_input text = (parsed ← ok_or (read_condition (condition_text c) holds) invalid; map_err (fun _ => invalid) parsed).
Proof.
  assert (read_named text = None) as En by (by subst text; destruct c as [|? []| |]).
  assert (text <> $"java.home" /\ text <> $"java.version" /\ text <> $"os-release") as (N1 & N2 & N3)
    by (subst text; split_and!; by destruct c as [|? []| |]).
  unfold read_input. rewrite !bool_decide_eq_false_2 by done. rewrite En.
  subst text. rewrite rsplit_holds. cbn [ok_or mbind result_bind snd fst]. by destruct holds.
Qed.

Lemma input_reads a : read_input (input_text a) = Ok a <-> input_ok a = true.
Proof.
  destruct a as [name| | | |name|name|template|c holds]; unfold input_text; cbn [input_pieces concat];
    rewrite ?app_nil_r; try done.
  1,2,3: destruct (read_input_kinds name) as ((E1 & E2 & E3) & _); first [rewrite E1|rewrite E2|rewrite E3];
    unfold env_input, settings_property, user_property; rewrite map_reject_Ok; cbn; naive_solver.
  - unfold read_input. rewrite (proj2 (read_input_kinds template)). cbn. destruct (parse_lookup template) as [l|]; cbn; [|by rewrite andb_false_r].
    destruct (is_terminal_safe template); cbn; [|done]. rewrite bool_decide_eq_true. naive_solver.
  - rewrite concat_app. cbn [concat]. rewrite app_nil_r. fold (condition_text c). rewrite read_condition_input.
    pose proof (read_condition_text c holds {| rejected_input := condition_text c ++ holds_text holds |}
      (Condition c holds)) as Hr. cbn [input_ok]. naive_solver.
Qed.

(** A lookup holds the text that encodes one, as [PropertyLookup::encode] gives it. *)
Definition lookup_typed (a : AmbientInput) : Prop :=
  match a with
  | UserPropertyLookup template => exists l, parse_lookup template = Some l /\ encode_lookup l = template
  | _ => True
  end.

(** What the text of an input reads as has the same text, even where it is not the input. *)
Lemma read_same_text a b : lookup_typed a -> read_input (input_text a) = Ok b -> input_text b = input_text a.
Proof.
  destruct a as [name| | | |name|name|template|c holds]; intros Ht; unfold input_text at 1; cbn [input_pieces concat];
    rewrite ?app_nil_r; try (by intros [= <-]).
  1,2,3: destruct (read_input_kinds name) as ((E1 & E2 & E3) & _); first [rewrite E1|rewrite E2|rewrite E3];
    unfold env_input, settings_property, user_property; rewrite map_reject_Ok; by intros [_ <-].
  - unfold read_input. rewrite (proj2 (read_input_kinds template)). cbn. destruct Ht as (l & -> & El).
    destruct (is_terminal_safe template); cbn; [|done]. intros [= <-]. by rewrite El.
  - rewrite concat_app. cbn [concat]. rewrite app_nil_r. fold (condition_text c). rewrite read_condition_input.
    set (invalid := {| rejected_input := _ |}). clearbody invalid. unfold condition_text. destruct c as [spec|name value|path|key].
    1,3,4: cbn [condition_pieces concat]; rewrite !app_nil_r;
      first [rewrite (proj1 (read_condition_kinds _ _))|rewrite (proj1 (proj2 (read_condition_kinds _ _)))
            |rewrite (proj1 (proj2 (proj2 (read_condition_kinds _ _))))];
      cbn [ok_or mbind result_bind]; unfold jdk_condition, file_condition, settings_condition;
      rewrite map_reject_Ok; by intros [_ <-].
    rewrite property_text, (proj2 (proj2 (proj2 (read_condition_kinds _ _)))). cbn [ok_or mbind result_bind].
    set (rest := name ++ _). destruct (split_once "="%char rest) as [[n e]|] eqn:Es; unfold property_condition;
      rewrite map_reject_Ok; intros [_ <-]; unfold input_text; cbn [input_pieces]; rewrite !concat_app, !property_text;
      fold rest; cbn [from_option]; f_equal.
    + apply split_once_Some in Es as [Es _]. by rewrite Es.
    + by rewrite app_nil_r.
Qed.

(** C40: a host input reads back from its text exactly when it is one the lock can hold:
    a name that passes the rules of its kind, a condition whose text does, and a private
    lookup whose JSON text is printable. *)
Theorem input_roundtrip a : read_input (input_text a) = Ok a <-> input_ok a = true.
Proof. apply input_reads. Qed.

(** The constructor of a private lookup makes no check of its text: one whose JSON is
    not printable is recorded and then refused. *)
Corollary unprintable_lookup l :
  is_terminal_safe (encode_lookup l) = false ->
  read_input (input_text (UserPropertyLookup (encode_lookup l))) <> Ok (UserPropertyLookup (encode_lookup l)).
Proof.
  intros E. unfold input_text, read_input. cbn [input_pieces concat]. rewrite !app_nil_r, (proj2 (read_input_kinds _)), E.
  cbn. by destruct (parse_lookup _).
Qed.
End RoundTrip.
