(* ===== verification/LockRows.v ===== *)
(** * Rows of the lock ([rv-lock/src/lock.rs])

    The records of a lock (artifacts, support POMs, modules with their packages and
    edges, platforms), what a row names (its file, its companion POM, its origins) and
    the canonical form in which a lock is written and compared.  A SHA-256 is its
    digits, a [BTreeMap] the list of its entries in key order, a [BTreeSet] the list of
    its elements in order, and a [HashMap] collected from a list the last entry of a
    key. *)

From Stdlib Require Import Ascii String Lia.
From stdpp Require Import base list strings gmap sorting.
From S2P Require Import Prelude Iter Str Version Component Coordinates Snapshot Layout Digest LockText Ambient.

#[local] Set Warnings "-clear-no-such-hyp".

#[export] Instance stamp_eq_dec : EqDecision SnapshotStamp.t.
Proof. solve_decision. Defined.
#[export] Instance platform_eq_dec : EqDecision Platform.t.
Proof. solve_decision. Defined.

(** ** Rows of the lock *)

(** [LockArtifact]; a SHA-256 is its digits. *)
Record LockArtifact := {
  coordinate : ArtifactCoord.t;
  repo_url : str;
  other_repo_urls : list str;
  checksums : list Digest;
  snapshot : option SnapshotStamp.t;
  pom_snapshot : option SnapshotStamp.t;
  pom_base : bool;
  pom_sha256 : option str;
  pom_repo_urls : list str;
}.

Record SupportPom := {
  sup_repo_url : str;
  sup_sha256 : str;
  sup_snapshot : option SnapshotStamp.t;
}.

(** [LockEdge]: indices into the packages of the module. *)
Record LockEdge := { from : nat; to : nat; edge_scope : option LockScope.t; optional : bool }.

(** [LockModulePackage]. *)
Record LockModulePackage := {
  package_coordinate : ArtifactCoord.t;
  workspace_module : option str;
  system_path : option str;
  system_sha256 : option str;
  direct_scope : option LockScope.t;
  package_scope : LockScope.t;
}.

(** [ParentRange]. *)
Record ParentRange := { range_model : str; range_parent : str; range_selected : str }.

(** [LockModule]. *)
Record LockModule := {
  module_path : str;
  module_gav : Gav.t;
  packaging : str;
  packages : list LockModulePackage;
  edges : list LockEdge;
  parent_ranges : list ParentRange;
  module_support_poms : list str;
}.

(** [RepoIds]: the ids of each origin, a map of sets. *)
Abbreviation RepoIds := (list (str * list str)).

(** [ModelInputs]. *)
Record ModelInputs := {
  profiles : list str;
  pom_hashes : list (str * str);
  graphs : list (str * str);
  ambient_inputs : list AmbientInput;
  module_ambient_inputs : list (str * list AmbientInput);
}.

(** [LockPlatform]. *)
Record LockPlatform := {
  platform : Platform.t;
  model_hash : str;
  artifacts : list LockArtifact;
  modules : list LockModule;
  support_poms : list (str * SupportPom);
  model_inputs : option ModelInputs;
  platform_repo_ids : option RepoIds;
  platform_host_inputs : option (list AmbientInput);
}.

(** [LockResolution]. *)
Record LockResolution := { resolution_inputs : list AmbientInput; command_line : list str }.

(** [Lockfile]. *)
Record Lockfile := {
  config_hash : option str;
  resolution : LockResolution;
  platforms : list LockPlatform;
  repo_ids : RepoIds;
}.

(** A lock of these platforms that records nothing else. *)
Definition lock_of (hash : option str) (ps : list LockPlatform) : Lockfile :=
  {| config_hash := hash; resolution := {| resolution_inputs := []; command_line := [] |};
     platforms := ps; repo_ids := [] |}.

#[export] Instance lock_scope_eq_dec : EqDecision LockScope.t.
Proof. solve_decision. Defined.
#[export] Instance lock_edge_eq_dec : EqDecision LockEdge.
Proof. solve_decision. Defined.
#[export] Instance lock_package_eq_dec : EqDecision LockModulePackage.
Proof. solve_decision. Defined.
#[export] Instance parent_range_eq_dec : EqDecision ParentRange.
Proof. solve_decision. Defined.
#[export] Instance lock_module_eq_dec : EqDecision LockModule.
Proof. solve_decision. Defined.

Definition row_gav (a : LockArtifact) : Gav.t := ArtifactCoord.gav (coordinate a).
Definition row_version (a : LockArtifact) : str := Gav.version (row_gav a).

(** [LockArtifact::pin]. *)
Definition pin (a : LockArtifact) : option Digest :=
  match List.find (fun c => bool_decide (algorithm c = Sha256)) (checksums a) with
  | Some c => Some c
  | None => head (checksums a)
  end.

Definition bytes_differ (a other : LockArtifact) : bool :=
  negb (bool_decide (pin a = pin other))
  || existsb (fun mine => existsb (fun theirs =>
       bool_decide (algorithm theirs = algorithm mine) && negb (bool_decide (theirs = mine)))
       (checksums other)) (checksums a).

Definition conflicts_with (a other : LockArtifact) : bool :=
  negb (bool_decide (snapshot a = snapshot other)) || bytes_differ a other.

Definition file_version (a : LockArtifact) : str :=
  default (row_version a) (snapshot a ≫= fun s => SnapshotStamp.resolved_version s (row_version a)).

Definition directory_version (a : LockArtifact) : str :=
  let file := file_version a in default file (snapshot_base_version file).

(** [LockArtifact::coord]: the file, with the timestamped version. *)
Definition file_coord (a : LockArtifact) : ArtifactCoord.t :=
  ArtifactCoord.of_gav (Gav.new (Gav.group (row_gav a)) (Gav.artifact (row_gav a)) (file_version a))
    (ArtifactCoord.extension (coordinate a)) (ArtifactCoord.classifier (coordinate a)).

Definition pom_build (a : LockArtifact) : option SnapshotStamp.t :=
  if pom_base a then None
  else match pom_snapshot a with Some s => Some s | None => snapshot a end.

Definition pom_gav (a : LockArtifact) : Gav.t :=
  Gav.new (Gav.group (row_gav a)) (Gav.artifact (row_gav a))
    (default (row_version a) (pom_build a ≫= fun s => SnapshotStamp.resolved_version s (row_version a))).

Definition repository_path (a : LockArtifact) : str :=
  artifact_path (file_coord a) (directory_version a) (file_version a).

(** [split_support_pom_coord]. *)
Definition split_support_pom_coord (coord : str) : option (str * str * str) :=
  match split ":"%char coord with
  | [group; artifact; version] =>
    if negb (bool_decide (group = [])) && negb (bool_decide (artifact = []))
       && negb (bool_decide (version = []))
    then Some (group, artifact, version) else None
  | _ => None
  end.

(** [SupportPom::file_gav]. *)
Definition file_gav (p : SupportPom) (coord : str) : option Gav.t :=
  '(group, artifact, version) ← split_support_pom_coord coord;
  file_version ← match sup_snapshot p with
                 | Some stamp => SnapshotStamp.resolved_version stamp version
                 | None => Some version
                 end;
  Some (Gav.new group artifact file_version).

(** ** Maps *)

(** [HashMap::get] in a map collected from [l]: a later entry replaces an earlier. *)
Definition get_last {K V} `{EqDecision K} (k : K) (l : list (K * V)) : option V :=
  snd <$> last (List.filter (fun e => bool_decide (e.1 = k)) l).

(** [BTreeMap::get], and [entry(k).or_insert(v)] in key order. *)
Definition btree_get {V} (k : str) (m : list (str * V)) : option V :=
  snd <$> List.find (fun e => bool_decide (e.1 = k)) m.

Fixpoint or_insert {V} (k : str) (v : V) (m : list (str * V)) : list (str * V) :=
  match m with
  | [] => [(k, v)]
  | (k', v') :: m' =>
    match str_cmp k k' with
    | Lt => (k, v) :: m
    | Eq => m
    | Gt => (k', v') :: or_insert k v m'
    end
  end.

(** [Iterator::find_map]. *)
Fixpoint find_map {A B} (f : A -> option B) (l : list A) : option B :=
  match l with
  | [] => None
  | a :: l => match f a with Some b => Some b | None => find_map f l end
  end.

Definition or_else {A} (a b : option A) : option A := match a with Some _ => a | None => b end.

(** ** What a row names *)

Definition file_origins (a : LockArtifact) : list str := repo_url a :: other_repo_urls a.

Definition pom_origins (a : LockArtifact) : list str :=
  if bool_decide (pom_repo_urls a = []) then file_origins a else pom_repo_urls a.

(** [slice::binary_search] of the standard library: the half of the slice the element
    is not in is dropped until one element is left. *)
Fixpoint search_base (fuel : nat) (x : str) (l : list str) (base size : nat) : nat :=
  match fuel with
  | O => base
  | S fuel =>
    if size <=? 1 then base
    else
      let half := size / 2 in
      let mid := base + half in
      let base := match l !! mid with
                  | Some y => match str_cmp y x with Gt => base | _ => mid end
                  | None => mid
                  end in
      search_base fuel x l base (size - half)
  end.

(** [binary_search(x).is_ok()]. *)
Definition binary_search (x : str) (l : list str) : bool :=
  match l !! search_base (length l) x l 0 (length l) with
  | Some y => bool_decide (y = x)
  | None => false
  end.

(** [LockArtifact::origins]. *)
Definition origins (a : LockArtifact) : list str :=
  file_origins a
  ++ List.filter (fun origin => negb (bool_decide (origin = repo_url a)) && negb (binary_search origin (other_repo_urls a)))
       (pom_repo_urls a).

(** [LockArtifact::versioned_origins]. *)
Definition versioned_origins (a : LockArtifact) : list (str * str) :=
  map (fun origin => (row_version a, origin)) (origins a).

Definition is_snapshot_row (a : LockArtifact) : bool :=
  bool_decide (is_Some (snapshot a)) || is_snapshot_version (file_version a).

(** [LockArtifact::is_own_pom]. *)
Definition is_own_pom (a : LockArtifact) : bool :=
  bool_decide (ArtifactCoord.extension (coordinate a) = $"pom")
  && bool_decide (ArtifactCoord.classifier (coordinate a) = None).

(** ** Canonical form *)

Definition package_cmp (a b : LockModulePackage) : comparison :=
  ord_then (ArtifactCoord.cmp (package_coordinate a) (package_coordinate b))
    (ord_then (opt_cmp str_cmp (workspace_module a) (workspace_module b))
    (ord_then (opt_cmp str_cmp (system_path a) (system_path b))
    (ord_then (opt_cmp str_cmp (system_sha256 a) (system_sha256 b))
    (ord_then (opt_cmp LockScope.cmp (direct_scope a) (direct_scope b))
       (LockScope.cmp (package_scope a) (package_scope b)))))).

Definition bool_cmp (a b : bool) : comparison := Nat.compare (Nat.b2n a) (Nat.b2n b).

Definition edge_cmp (a b : LockEdge) : comparison :=
  ord_then (Nat.compare (from a) (from b))
    (ord_then (Nat.compare (to a) (to b))
    (ord_then (opt_cmp LockScope.cmp (edge_scope a) (edge_scope b)) (bool_cmp (optional a) (optional b)))).

Definition range_cmp (a b : ParentRange) : comparison :=
  ord_then (str_cmp (range_model a) (range_model b))
    (ord_then (str_cmp (range_parent a) (range_parent b)) (str_cmp (range_selected a) (range_selected b))).

(** The [remap] of [canonicalize_module]: where each old index goes. *)
Definition remap_of {A} (indexed : list (nat * A)) : list nat :=
  foldl (fun remap e => <[e.2.1 := e.1]> remap) (replicate (length indexed) 0) (imap pair indexed).

(** [remap.get(i).copied().unwrap_or(i)]. *)
Definition remapped (remap : list nat) (i : nat) : nat := default i (remap !! i).

Definition remap_edge (remap : list nat) (e : LockEdge) : LockEdge :=
  {| from := remapped remap (from e); to := remapped remap (to e);
     edge_scope := edge_scope e; optional := optional e |}.

(** [canonicalize_module]. *)
Definition canonicalize_module (m : LockModule) : LockModule :=
  let indexed := sort_by (leb_of (fun l r => package_cmp l.2 r.2)) (imap pair (packages m)) in
  let remap := remap_of indexed in
  {| module_path := module_path m; module_gav := module_gav m; packaging := packaging m;
     packages := map snd indexed;
     edges := sort_cmp edge_cmp (map (remap_edge remap) (edges m));
     parent_ranges := sort_cmp range_cmp (parent_ranges m);
     module_support_poms := sort_dedup str_cmp (module_support_poms m) |}.

(** [is_canonical_module]. *)
Definition is_canonical_module (m : LockModule) : bool :=
  is_sorted package_cmp (packages m) && is_sorted edge_cmp (edges m)
  && is_sorted range_cmp (parent_ranges m) && is_strictly_sorted str_cmp (module_support_poms m).

(** The loop over the artifacts in [LockPlatform::canonicalize]. *)
Definition canonicalize_artifact (a : LockArtifact) : LockArtifact :=
  let other := sort_dedup str_cmp (List.filter (fun origin => negb (bool_decide (origin = repo_url a))) (other_repo_urls a)) in
  let pom := sort_dedup str_cmp (pom_repo_urls a) in
  {| coordinate := coordinate a; repo_url := repo_url a; other_repo_urls := other;
     checksums := sort_dedup Digest.cmp (checksums a);
     snapshot := snapshot a; pom_snapshot := pom_snapshot a; pom_base := pom_base a; pom_sha256 := pom_sha256 a;
     pom_repo_urls := if bool_decide (pom = sort_dedup str_cmp (repo_url a :: other)) then [] else pom |}.

(** [LockPlatform::canonicalize]. *)
Definition canonicalize_platform (p : LockPlatform) : LockPlatform :=
  {| platform := platform p; model_hash := model_hash p;
     artifacts := map canonicalize_artifact
       (sort_by (leb_of (fun l r => ArtifactCoord.cmp (coordinate l) (coordinate r))) (artifacts p));
     modules := map canonicalize_module
       (sort_by (leb_of (fun l r => str_cmp (module_path l) (module_path r))) (modules p));
     support_poms := support_poms p; model_inputs := model_inputs p;
     platform_repo_ids := platform_repo_ids p; platform_host_inputs := platform_host_inputs p |}.

(** * The canonical form of a lock

    [canonicalize_module] sorts the packages of a module and renumbers its edges.  It
    keeps the graph, its result depends on the graph alone and not on the order in which
    the packages were found, and [is_canonical_module] tells whether it would change a
    module. *)

(** ** The derived orders are orders *)

#[export] Instance scope_total_cmp : TotalCmp LockScope.cmp.
Proof. apply (total_cmp_inj LockScope.rank); [|apply _]. by intros [] []. Qed.

#[export] Instance bool_total_cmp : TotalCmp bool_cmp.
Proof. apply (total_cmp_inj Nat.b2n); [|apply _]. by intros [] []. Qed.

#[export] Instance digest_total_cmp : TotalCmp Digest.cmp.
Proof.
  apply (total_cmp_inj (fun d => (Digest.rank (algorithm d), hex d)) (pair_cmp Nat.compare str_cmp)); [|apply _].
  intros [a h] [b k]. cbn. intros [= E ->]. by destruct a, b.
Qed.

#[export] Instance package_total_cmp : TotalCmp package_cmp.
Proof.
  apply (total_cmp_inj
    (fun p => (package_coordinate p, (workspace_module p, (system_path p, (system_sha256 p, (direct_scope p, package_scope p))))))
    (pair_cmp ArtifactCoord.cmp (pair_cmp (opt_cmp str_cmp) (pair_cmp (opt_cmp str_cmp)
      (pair_cmp (opt_cmp str_cmp) (pair_cmp (opt_cmp LockScope.cmp) LockScope.cmp)))))); [|apply _].
  intros [] []. cbn. congruence.
Qed.

#[export] Instance edge_total_cmp : TotalCmp edge_cmp.
Proof.
  apply (total_cmp_inj (fun e => (from e, (to e, (edge_scope e, optional e))))
    (pair_cmp Nat.compare (pair_cmp Nat.compare (pair_cmp (opt_cmp LockScope.cmp) bool_cmp)))); [|apply _].
  intros [] []. cbn. congruence.
Qed.

#[export] Instance range_total_cmp : TotalCmp range_cmp.
Proof.
  apply (total_cmp_inj (fun r => (range_model r, (range_parent r, range_selected r)))
    (pair_cmp str_cmp (pair_cmp str_cmp str_cmp))); [|apply _].
  intros [] []. cbn. congruence.
Qed.

(** ** Origins of a row *)

Lemma binary_search_elem x l : binary_search x l = true -> x ∈ l.
Proof.
  unfold binary_search. destruct (l !! _) as [y|] eqn:E; [|done]. rewrite bool_decide_eq_true. intros ->.
  by eapply list_elem_of_lookup_2.
Qed.

(** On an unsorted list an origin can repeat, never go missing. *)
Lemma origins_elem a x : x ∈ origins a <-> x ∈ file_origins a \/ x ∈ pom_repo_urls a.
Proof.
  unfold origins. rewrite elem_of_app. split; [intros [?|H]; [by left|]|intros [?|H]; [by left|]].
  - apply list_elem_of_In, filter_In in H as [H%list_elem_of_In _]. by right.
  - destruct (decide (x = repo_url a)) as [->|Hn]; [by left; left|].
    destruct (binary_search x (other_repo_urls a)) eqn:Eb.
    + apply binary_search_elem in Eb. left. by right.
    + right. apply list_elem_of_In, filter_In. split; [by apply list_elem_of_In|].
      by rewrite (bool_decide_eq_false_2 _ Hn), Eb.
Qed.

(** ** The renumbering *)

Lemma foldl_insert_other (es : list (nat * nat)) (init : list nat) k :
  k ∉ map snd es -> foldl (fun remap e => <[e.2 := e.1]> remap) init es !! k = init !! k.
Proof.
  revert init. induction es as [|[v j] es IH]; intros init Hk; [done|]. cbn in *. apply not_elem_of_cons in Hk as [Hj Hk].
  rewrite IH by done. by apply list_lookup_insert_ne.
Qed.

Lemma foldl_insert_lookup (es : list (nat * nat)) (init : list nat) v k :
  NoDup (map snd es) -> (v, k) ∈ es -> k < length init ->
  foldl (fun remap e => <[e.2 := e.1]> remap) init es !! k = Some v.
Proof.
  revert init. induction es as [|[w j] es IH]; intros init Hd Hin Hl; [by apply elem_of_nil in Hin|].
  cbn in Hd |- *. apply NoDup_cons in Hd as [Hj Hd]. apply elem_of_cons in Hin as [[= -> ->]|Hin].
  - rewrite foldl_insert_other by done. by apply list_lookup_insert_eq.
  - apply IH; [done..|]. by rewrite length_insert.
Qed.

Lemma remap_pairs {A} (indexed : list (nat * A)) :
  remap_of indexed = foldl (fun remap e => <[e.2 := e.1]> remap) (replicate (length indexed) 0)
                       (imap (fun new e => (new, e.1)) indexed).
Proof.
  unfold remap_of. generalize (replicate (length indexed) 0). generalize 0 as k.
  assert (forall (f : nat -> nat) (init : list nat), foldl (fun remap e => <[e.2.1:=e.1]> remap) init (imap (fun i => pair (f i)) indexed)
     = foldl (fun remap e => <[e.2:=e.1]> remap) init (imap (fun i e => (f i, e.1)) indexed)) as Hf.
  { induction indexed as [|[i x] l IH]; intros f init; [done|]. cbn. apply (IH (f ∘ S)). }
  intros _ init. apply (Hf id).
Qed.

Lemma map_snd_imap_fst {A} (l : list (nat * A)) (f : nat -> nat) :
  map snd (imap (fun new e => (f new, e.1)) l) = map fst l.
Proof. revert f. induction l as [|[i x] l IH]; intros f; [done|]. cbn. f_equal. apply (IH (f ∘ S)). Qed.

(** Where the entry of an old index ended up is where the index goes. *)
Lemma remap_lookup {A} (indexed : list (nat * A)) old new x :
  NoDup (map fst indexed) -> (forall e, e ∈ indexed -> e.1 < length indexed) ->
  indexed !! new = Some (old, x) -> remap_of indexed !! old = Some new.
Proof.
  intros Hd Hb Hl. rewrite remap_pairs. apply foldl_insert_lookup.
  - pose proof (map_snd_imap_fst indexed id) as E. unfold id in E. by rewrite E.
  - apply list_elem_of_lookup. exists new. rewrite list_lookup_imap, Hl. done.
  - rewrite length_replicate. apply (Hb (old, x)). by eapply list_elem_of_lookup_2.
Qed.

Lemma map_fst_imap {A} (l : list A) k : map fst (imap (fun i => pair (k + i)) l) = seq k (length l).
Proof.
  revert k. induction l as [|x l IH]; intros k; [done|]. cbn. rewrite Nat.add_0_r. f_equal. rewrite <-(IH (S k)).
  f_equal. apply imap_ext. intros. cbn. f_equal. lia.
Qed.

Lemma map_snd_imap {A} (l : list A) (f : nat -> nat) : map snd (imap (fun i => pair (f i)) l) = l.
Proof. revert f. induction l as [|x l IH]; intros f; [done|]. cbn. f_equal. apply (IH (f ∘ S)). Qed.

(** ** Packages in order *)

Section Packages.
Context (l : list LockModulePackage).
Let indexed : list (nat * LockModulePackage) := sort_by (leb_of (fun l r => package_cmp l.2 r.2)) (imap pair l).

Lemma indexed_perm : indexed ≡ₚ imap pair l.
Proof. apply sort_by_perm. Qed.

Lemma indexed_length : length indexed = length l.
Proof. by rewrite indexed_perm, length_imap. Qed.

Lemma indexed_fst : map fst indexed ≡ₚ seq 0 (length l).
Proof. rewrite indexed_perm. by rewrite <-(map_fst_imap l 0). Qed.

Lemma indexed_elem e : e ∈ indexed -> l !! e.1 = Some e.2.
Proof.
  rewrite indexed_perm. intros (i & E)%list_elem_of_lookup. rewrite list_lookup_imap in E.
  destruct (l !! i) as [x|] eqn:Ei; [|done]. by injection E as <-.
Qed.

Lemma indexed_sorted : map snd indexed = sort_cmp package_cmp l.
Proof.
  apply (sorted_unique id package_cmp).
  - pose proof (sort_by_sorted snd package_cmp (imap pair l)) as Hs. fold indexed in Hs.
    induction Hs as [|e k Hs IH He]; cbn; [constructor|]. constructor; [done|].
    apply Forall_fmap. eapply Forall_impl; [exact He|]. done.
  - apply (sort_by_sorted id package_cmp).
  - rewrite sort_cmp_perm, indexed_perm. apply reflexive_eq, (map_snd_imap l id).
  - by intros.
Qed.

Lemma indexed_remap i p : l !! i = Some p ->
  exists j, remap_of indexed !! i = Some j /\ sort_cmp package_cmp l !! j = Some p /\ indexed !! j = Some (i, p).
Proof.
  intros Hi. assert ((i, p) ∈ indexed) as (j & Hj)%list_elem_of_lookup.
  { rewrite indexed_perm. apply list_elem_of_lookup. exists i. by rewrite list_lookup_imap, Hi. }
  exists j. split_and!; [|by rewrite <-indexed_sorted; apply (list_lookup_fmap_Some_2 snd _ _ _ Hj)|done].
  apply (remap_lookup _ _ _ p); [|intros e He|done].
  - rewrite indexed_fst. apply NoDup_seq.
  - rewrite indexed_length. apply indexed_elem in He. by eapply lookup_lt_Some.
Qed.

Lemma remap_length : length (remap_of indexed) = length l.
Proof.
  rewrite remap_pairs, <-indexed_length. rewrite <-(length_replicate (length indexed) 0) at 2.
  generalize (replicate (length indexed) 0). induction (imap _ indexed) as [|e es IH]; intros init; [done|].
  cbn. by rewrite IH, length_insert.
Qed.
End Packages.

(** ** Canonical modules *)

Abbreviation module_remap m :=
  (remap_of (sort_by (leb_of (fun l r => package_cmp l.2 r.2)) (imap pair (packages m)))).

Definition rename_edge (f : nat -> nat) (e : LockEdge) : LockEdge :=
  {| from := f (from e); to := f (to e); edge_scope := edge_scope e; optional := optional e |}.

Definition edges_in_range (m : LockModule) : Prop :=
  Forall (fun e => from e < length (packages m) /\ to e < length (packages m)) (edges m).

Lemma canonicalize_packages m : packages (canonicalize_module m) = sort_cmp package_cmp (packages m).
Proof. apply indexed_sorted. Qed.

Lemma canonicalize_edges m :
  edges (canonicalize_module m) = sort_cmp edge_cmp (map (rename_edge (remapped (module_remap m))) (edges m)).
Proof. done. Qed.

Lemma remapped_lookup m i p : packages m !! i = Some p ->
  sort_cmp package_cmp (packages m) !! remapped (module_remap m) i = Some p.
Proof. intros Hi. destruct (indexed_remap _ _ _ Hi) as (j & Hj & Hs & _). unfold remapped. by rewrite Hj. Qed.

(** The sorted packages leave every index alone. *)
Lemma remapped_sorted m i : is_sorted package_cmp (packages m) = true -> remapped (module_remap m) i = i.
Proof.
  intros Hs. unfold remapped. destruct (packages m !! i) as [p|] eqn:Ei.
  - destruct (indexed_remap _ _ _ Ei) as (j & Hj & _ & Hi). rewrite Hj. cbn.
    rewrite (sort_by_id snd package_cmp) in Hi.
    + rewrite list_lookup_imap in Hi. destruct (packages m !! j); [|done]. by injection Hi.
    + apply (is_sorted_strong id package_cmp) in Hs.
      assert (forall l (f : nat -> nat), StronglySorted (fun a b => leb_of package_cmp a b = true) l ->
        StronglySorted (fun a b : nat * LockModulePackage => leb_of (fun l r => package_cmp l.2 r.2) a b = true)
          (imap (fun i => pair (f i)) l)) as Hm; [|by apply (Hm _ id)].
      clear. induction l as [|x l IH]; intros f Hs; cbn; [constructor|].
      apply StronglySorted_inv in Hs as [Hs Hx]. constructor; [by apply (IH (f ∘ S))|].
      apply Forall_forall. intros e (k & Hk)%list_elem_of_lookup. rewrite list_lookup_imap in Hk.
      destruct (l !! k) as [y|] eqn:Ey; [|done]. injection Hk as <-. rewrite Forall_forall in Hx.
      apply (Hx y). by eapply list_elem_of_lookup_2.
  - rewrite lookup_ge_None_2; [done|]. rewrite remap_length. by apply lookup_ge_None in Ei.
Qed.

Lemma rename_edge_id f l : (forall i, f i = i) -> map (rename_edge f) l = l.
Proof. intros Hf. induction l as [|[] l IH]; cbn; [done|]. unfold rename_edge at 1. cbn. by rewrite !Hf, IH. Qed.

(** A module in canonical form stays as it is. *)
Lemma canonical_fixed m : is_canonical_module m = true -> canonicalize_module m = m.
Proof.
  unfold is_canonical_module. rewrite !andb_true_iff. intros [[[Hp He] Hr] Hs].
  destruct m as [mp g pk ps es rs ss]. unfold canonicalize_module.
  cbn [module_path module_gav packaging packages edges parent_ranges module_support_poms] in *.
  change (remap_edge ?r) with (rename_edge (remapped r)). rewrite indexed_sorted, rename_edge_id.
  - f_equal; [by apply is_sorted_sort_cmp..|by apply sort_dedup_id].
  - intros i. by apply (remapped_sorted {| module_path := mp; module_gav := g; packaging := pk; packages := ps;
      edges := es; parent_ranges := rs; module_support_poms := ss |}).
Qed.

Lemma canonicalize_canonical m : is_canonical_module (canonicalize_module m) = true.
Proof.
  unfold is_canonical_module. rewrite canonicalize_packages, canonicalize_edges.
  cbn [canonicalize_module parent_ranges module_support_poms].
  by rewrite !sort_cmp_sorted, sort_dedup_strict by done.
Qed.

(** [is_canonical_module] tells whether [canonicalize_module] would leave a module as
    it is, for every module, also one with packages that repeat or edges out of range. *)
Theorem is_canonical_iff m : is_canonical_module m = true <-> canonicalize_module m = m.
Proof. split; [apply canonical_fixed|]. intros <-. apply canonicalize_canonical. Qed.

(** ** The form depends on the graph alone *)

(** [m'] is [m] with its packages found in another order: [f] says where each package
    went, and rows are listed in any order. *)
Record renumbered (f : nat -> nat) (m m' : LockModule) : Prop := {
  rn_path : module_path m' = module_path m;
  rn_gav : module_gav m' = module_gav m;
  rn_packaging : packaging m' = packaging m;
  rn_length : length (packages m') = length (packages m);
  rn_packages : forall i p, packages m !! i = Some p -> packages m' !! f i = Some p;
  rn_edges : edges m' ≡ₚ map (rename_edge f) (edges m);
  rn_ranges : parent_ranges m' ≡ₚ parent_ranges m;
  rn_support : forall c, c ∈ module_support_poms m' <-> c ∈ module_support_poms m;
}.

Lemma renumbered_perm f m m' :
  NoDup (packages m) -> renumbered f m m' -> packages m' ≡ₚ packages m.
Proof.
  intros Hd Hr. symmetry. apply submseteq_length_Permutation; [|by rewrite (rn_length _ _ _ Hr)].
  apply NoDup_submseteq; [done|]. intros p (i & Hi)%list_elem_of_lookup.
  eapply list_elem_of_lookup_2, (rn_packages _ _ _ Hr), Hi.
Qed.

Lemma renumbered_remap f m m' i :
  NoDup (packages m) -> renumbered f m m' -> i < length (packages m) ->
  remapped (module_remap m') (f i) = remapped (module_remap m) i.
Proof.
  intros Hd Hr Hi. destruct (lookup_lt_is_Some_2 _ _ Hi) as [p Hp].
  pose proof (remapped_lookup m i p Hp) as H1.
  pose proof (remapped_lookup m' (f i) p (rn_packages _ _ _ Hr i p Hp)) as H2.
  rewrite (sort_cmp_eq package_cmp _ _ (renumbered_perm f m m' Hd Hr)) in H2.
  eapply NoDup_lookup; [|exact H2|exact H1]. by rewrite sort_cmp_perm.
Qed.

Lemma canonicalize_renumbered f m m' :
  NoDup (packages m) -> edges_in_range m -> renumbered f m m' ->
  canonicalize_module m' = canonicalize_module m.
Proof.
  intros Hd He Hr. pose proof (renumbered_perm f m m' Hd Hr) as Hp.
  assert (edges (canonicalize_module m') = edges (canonicalize_module m)) as Ee.
  { rewrite !canonicalize_edges. apply sort_cmp_eq; [done|]. rewrite (rn_edges _ _ _ Hr), map_map.
    apply reflexive_eq, map_ext_in. intros e Hin%list_elem_of_In. unfold edges_in_range in He.
    rewrite Forall_forall in He. destruct (He e Hin). unfold rename_edge. cbn. by rewrite !(renumbered_remap f m m'). }
  assert (packages (canonicalize_module m') = packages (canonicalize_module m)) as Ep
    by (rewrite !canonicalize_packages; by apply sort_cmp_eq).
  unfold canonicalize_module in Ee, Ep |- *. cbn [edges packages] in Ee, Ep. rewrite Ee, Ep.
  rewrite (rn_path _ _ _ Hr), (rn_gav _ _ _ Hr), (rn_packaging _ _ _ Hr).
  f_equal; [apply sort_cmp_eq; [done|by apply (rn_ranges _ _ _ Hr)]|].
  apply sort_dedup_eq; [done|]. by apply (rn_support _ _ _ Hr).
Qed.

(** The canonical form is the module with its packages renumbered. *)
Lemma canonicalize_is_renumbered m :
  renumbered (remapped (module_remap m)) m (canonicalize_module m).
Proof.
  constructor; try done.
  - by rewrite canonicalize_packages, sort_cmp_perm.
  - intros i p. rewrite canonicalize_packages. apply remapped_lookup.
  - rewrite canonicalize_edges. apply sort_cmp_perm.
  - apply sort_cmp_perm.
  - intros c. by apply sort_dedup_elem.
Qed.

Lemma canonicalize_idem m : canonicalize_module (canonicalize_module m) = canonicalize_module m.
Proof. apply canonical_fixed, canonicalize_canonical. Qed.
