(* ===== verification/LockMerge.v ===== *)
(** * Merging a fresh resolution with the previous lock ([rv-lock/src/merge.rs])

    Which platforms of the previous lock may be carried into the new one, decided
    from the pins of the two locks, over the rows of [LockRows.v], with the pin checks
    of [lock.rs].  What is carried along and not looked at by these rules (modules,
    inputs, repository ids) is not read here. *)

From Stdlib Require Import Ascii String.
From stdpp Require Import base list strings gmap.
From S2P Require Import Prelude Str Version Component Coordinates Snapshot Layout Digest LockText LockRows.

#[local] Set Warnings "-clear-no-such-hyp".

(** [Lockfile::support_poms]. *)
Definition lock_support_poms (l : Lockfile) : list (str * SupportPom) :=
  foldl (fun poms p => foldl (fun poms e => or_insert e.1 e.2 poms) poms (support_poms p)) []
    (platforms l).

(** [LockPlatform::conflicting_artifact_pin]. *)
Definition conflicting_artifact_pin (p other : LockPlatform) : option ArtifactCoord.t :=
  let theirs := map (fun a => (coordinate a, a)) (artifacts other) in
  coordinate <$> List.find (fun a =>
    is_some_and (conflicts_with a) (get_last (coordinate a) theirs)
    || existsb (bytes_differ a)
         (List.filter (fun o => bool_decide (repository_path o = repository_path a)) (artifacts other)))
    (artifacts p).

(** ** The rules of [merge.rs] *)

Abbreviation PomPins := (list (Gav.t * option str)).
Abbreviation PomBuilds := (list (Gav.t * Gav.t)).

Inductive DropReason :=
  | Reconfigured
  | ConflictingPom (coord : str)
  | ConflictingArtifact (coord : str)
  | ModelChanged
  | SystemFileChanged (path : str)
  | ModelUnavailable (error : str).

Record Candidate := { candidate_platform : Platform.t; dropped : option DropReason }.

Definition conflicting_support_pom (kept fresh : list (str * SupportPom)) : option str :=
  let fresh_files :=
    omap (fun e => (fun g => (g, sup_sha256 e.2)) <$> file_gav e.2 e.1) fresh in
  fst <$> List.find (fun e =>
    is_some_and (fun f => negb (bool_decide (sup_sha256 f = sup_sha256 e.2))
                          || negb (bool_decide (sup_snapshot f = sup_snapshot e.2)))
      (btree_get e.1 fresh)
    || is_some_and (fun digest => negb (bool_decide (digest = sup_sha256 e.2)))
         (file_gav e.2 e.1 ≫= fun file => get_last file fresh_files)) kept.

Definition platform_companion_pom_pins (p : LockPlatform) : PomPins :=
  map (fun a => (pom_gav a, pom_sha256 a)) (artifacts p).

Definition companion_pom_pins (l : Lockfile) : PomPins :=
  concat (map platform_companion_pom_pins (platforms l)).

Definition conflicting_support_companion_pin (support : list (str * SupportPom)) (companions : PomPins)
    : option str :=
  find_map (fun e =>
    file ← file_gav e.2 e.1;
    companion ← get_last file companions;
    if bool_decide (companion = Some (sup_sha256 e.2)) then None else Some e.1) support.

Definition conflicting_snapshot_pom (support : list (str * SupportPom)) (platforms : list LockPlatform)
    : option str :=
  let builds := omap (fun e =>
    '(group, artifact, version) ← split_support_pom_coord e.1;
    if resolves_through_snapshot_metadata version
    then Some (Gav.new group artifact version, e) else None) support in
  find_map (fun a =>
    e ← get_last (row_gav a) builds;
    if bool_decide (pom_sha256 a = Some (sup_sha256 e.2)) then None else Some e.1)
    (concat (map artifacts platforms)).

Definition conflicting_companion_pom_pin (fresh : PomPins) (fresh_builds : PomBuilds)
    (candidate : LockPlatform) : option str :=
  find_map (fun a =>
    let gav := pom_gav a in
    if is_some_and (fun build => negb (bool_decide (build = gav))) (get_last (row_gav a) fresh_builds)
    then Some (Gav.display (row_gav a))
    else
      digest ← get_last gav fresh;
      if bool_decide (digest = pom_sha256 a) then None else Some (Gav.display gav))
    (artifacts candidate).

(** The verdict on one platform of the previous lock. *)
Definition drop_reason (fresh : Lockfile) (inputs_unchanged : bool) (prev : LockPlatform)
    : option DropReason :=
  let fresh_pom_pins := companion_pom_pins fresh in
  let fresh_support := lock_support_poms fresh in
  let fresh_pom_builds :=
    map (fun a => (row_gav a, pom_gav a)) (concat (map artifacts (platforms fresh))) in
  if negb inputs_unchanged then Some Reconfigured
  else
    match or_else (conflicting_support_pom (support_poms prev) fresh_support)
         (or_else (conflicting_support_companion_pin (support_poms prev) fresh_pom_pins)
         (or_else (conflicting_snapshot_pom (support_poms prev) (platforms fresh))
                  (conflicting_snapshot_pom fresh_support [prev]))) with
    | Some coord => Some (ConflictingPom coord)
    | None =>
      match conflicting_companion_pom_pin fresh_pom_pins fresh_pom_builds prev with
      | Some coord => Some (ConflictingPom coord)
      | None =>
        match find_map (conflicting_artifact_pin prev) (platforms fresh) with
        | Some coordinate => Some (ConflictingArtifact (ArtifactCoord.display coordinate))
        | None =>
          ConflictingPom <$> conflicting_support_companion_pin fresh_support
                               (platform_companion_pom_pins prev)
        end
      end
    end.

(** [preservation]. *)
Definition preservation (fresh previous : Lockfile) (hash : str) : list Candidate :=
  let resolved_platforms := map platform (platforms fresh) in
  let inputs_unchanged := is_some_and (fun stored => bool_decide (stored = hash)) (config_hash previous) in
  omap (fun prev =>
    if bool_decide (platform prev ∈ resolved_platforms) then None
    else Some {| candidate_platform := platform prev; dropped := drop_reason fresh inputs_unchanged prev |})
    (platforms previous).

(** [Lockfile::support_companion_conflict]. *)
Definition support_companion_conflict (l : Lockfile) : option str :=
  conflicting_support_companion_pin (lock_support_poms l) (companion_pom_pins l).

(** ** The checks a lock passes ([lock.rs]) *)

(** What a refusal names; its wording and the platforms it lists are not kept. *)
Inductive PinConflict :=
  | FileBytes (file : str)
  | SupportBuild (coord : str)
  | SupportFile (other coord : str)
  | ArtifactBuild (c : ArtifactCoord.t)
  | CompanionBuild (gav : Gav.t)
  | CompanionPin (gav : Gav.t)
  | SupportCompanion (gav : Gav.t) (coord : str)
  | SnapshotPom (coord : str).

(** [HashMap::entry(k).or_insert(v)]: the value there, and the map. *)
Definition entry_or_insert {K V} `{EqDecision K} (k : K) (v : V) (m : list (K * V)) : V * list (K * V) :=
  match List.find (fun e => bool_decide (e.1 = k)) m with
  | Some e => (e.2, m)
  | None => (v, m ++ [(k, v)])
  end.

Definition rows (ps : list LockPlatform) : list LockArtifact := concat (map artifacts ps).
Definition supports (ps : list LockPlatform) : list (str * SupportPom) := concat (map support_poms ps).

(** The first loop of [check_cross_platform_pins]: every pair of rows of a file. *)
Fixpoint check_files (files : list (str * LockArtifact)) (l : list LockArtifact) : result PinConflict unit :=
  match l with
  | [] => Ok tt
  | a :: l =>
    let file := repository_path a in
    let seen := List.filter (fun e => bool_decide (e.1 = file)) files in
    if existsb (fun e => bytes_differ e.2 a) seen then Err (FileBytes file)
    else check_files (files ++ [(file, a)]) l
  end.

(** The second: support POMs by coordinate and by file. *)
Fixpoint check_support (support : list (str * SupportPom)) (support_files : list (Gav.t * (str * str)))
    (l : list (str * SupportPom)) : result PinConflict unit :=
  match l with
  | [] => Ok tt
  | (coord, pin) :: l =>
    let '(seen, support) := entry_or_insert coord pin support in
    if negb (bool_decide (sup_snapshot seen = sup_snapshot pin))
       || negb (bool_decide (sup_sha256 seen = sup_sha256 pin)) then Err (SupportBuild coord)
    else
      match file_gav pin coord with
      | None => check_support support support_files l
      | Some file =>
        let '((digest, other), support_files) :=
          entry_or_insert file (sup_sha256 pin, coord) support_files in
        if negb (bool_decide (digest = sup_sha256 pin)) then Err (SupportFile other coord)
        else check_support support support_files l
      end
  end.

(** The third: one build for a coordinate. *)
Fixpoint check_builds (builds : list (ArtifactCoord.t * option SnapshotStamp.t)) (l : list LockArtifact)
    : result PinConflict unit :=
  match l with
  | [] => Ok tt
  | a :: l =>
    let '(build, builds) := entry_or_insert (coordinate a) (snapshot a) builds in
    if negb (bool_decide (build = snapshot a)) then Err (ArtifactBuild (coordinate a))
    else check_builds builds l
  end.

Definition check_cross_platform_pins (ps : list LockPlatform) : result PinConflict unit :=
  _ ← check_files [] (rows ps);
  _ ← check_support [] [] (supports ps);
  check_builds [] (rows ps).

(** The loop of [check_pom_pins] over the rows. *)
Fixpoint check_companions (support : list (Gav.t * (str * SupportPom))) (builds : list (Gav.t * Gav.t))
    (pinned : list (Gav.t * option str)) (l : list LockArtifact) : result PinConflict unit :=
  match l with
  | [] => Ok tt
  | a :: l =>
    let digest := pom_sha256 a in
    let gav := pom_gav a in
    let '(seen, builds) := entry_or_insert (row_gav a) gav builds in
    if negb (bool_decide (seen = gav)) then Err (CompanionBuild (row_gav a))
    else
      let '(seen, pinned) := entry_or_insert gav digest pinned in
      if negb (bool_decide (seen = digest)) then Err (CompanionPin gav)
      else
        match get_last gav support with
        | Some (coord, pin) =>
          if negb (bool_decide (Some (sup_sha256 pin) = digest)) then Err (SupportCompanion gav coord)
          else check_companions support builds pinned l
        | None => check_companions support builds pinned l
        end
  end.

Fixpoint check_snapshots (all : list LockPlatform) (l : list LockPlatform) : result PinConflict unit :=
  match l with
  | [] => Ok tt
  | p :: l =>
    match conflicting_snapshot_pom (support_poms p) all with
    | Some coord => Err (SnapshotPom coord)
    | None => check_snapshots all l
    end
  end.

Definition support_by_file (l : list (str * SupportPom)) : list (Gav.t * (str * SupportPom)) :=
  omap (fun e => (fun g => (g, e)) <$> file_gav e.2 e.1) l.

Definition check_pom_pins (ps : list LockPlatform) : result PinConflict unit :=
  _ ← check_companions (support_by_file (supports ps)) [] [] (rows ps);
  check_snapshots ps ps.

(** The last two checks of [Lockfile::validate]. *)
Definition check_pins (ps : list LockPlatform) : result PinConflict unit :=
  _ ← check_cross_platform_pins ps;
  check_pom_pins ps.

(** ** Maps *)

Lemma get_last_elem {K V} `{EqDecision K} (k : K) (l : list (K * V)) v :
  get_last k l = Some v -> (k, v) ∈ l.
Proof.
  unfold get_last. intros ([k' v'] & E & ->)%fmap_Some. apply last_Some_elem_of in E.
  apply list_elem_of_In, filter_In in E as [E Ek]. cbn in Ek. bool_simpl. subst. by apply list_elem_of_In.
Qed.

Lemma get_last_some {K V} `{EqDecision K} (k : K) (l : list (K * V)) v :
  (k, v) ∈ l -> exists v', get_last k l = Some v' /\ (k, v') ∈ l.
Proof.
  intros Hin. assert (is_Some (get_last k l)) as [v' E].
  { unfold get_last. apply fmap_is_Some, last_is_Some. intros En.
    assert (In (k, v) (List.filter (fun e => bool_decide (e.1 = k)) l)) as H
      by (apply filter_In; split; [by apply list_elem_of_In|by apply bool_decide_eq_true]).
    by rewrite En in H. }
  exists v'. split; [done|]. by apply get_last_elem.
Qed.

Lemma find_map_None {A B} (f : A -> option B) l : find_map f l = None <-> Forall (fun a => f a = None) l.
Proof.
  induction l as [|a l IH]; cbn [find_map]; [by split|]. rewrite Forall_cons, <-IH.
  destruct (f a); naive_solver.
Qed.

Lemma find_None_Forall {A} (f : A -> bool) l : List.find f l = None -> Forall (fun a => f a = false) l.
Proof.
  induction l as [|a l IH]; cbn [List.find]; [done|]. destruct (f a) eqn:E; [done|].
  intros H. constructor; [done|by apply IH].
Qed.

Lemma btree_get_some {V} k (m : list (str * V)) v :
  (k, v) ∈ m -> exists v', btree_get k m = Some v' /\ (k, v') ∈ m.
Proof.
  intros Hin. unfold btree_get. destruct (List.find _ m) as [[k' v']|] eqn:E.
  - apply find_some in E as [E Ek]. cbn in Ek. bool_simpl. subst. exists v'.
    split; [done|by apply list_elem_of_In].
  - apply find_None_Forall in E. rewrite Forall_forall in E. specialize (E _ Hin). cbn in E. by bool_simpl.
Qed.

Lemma or_insert_spec {V} k (v : V) m :
  (forall x, x ∈ or_insert k v m -> x = (k, v) \/ x ∈ m) /\
  (forall x, x ∈ m -> x ∈ or_insert k v m) /\ exists v', (k, v') ∈ or_insert k v m.
Proof.
  induction m as [|[k' v'] m (IH1 & IH2 & w & IH3)]; cbn [or_insert].
  - split_and!; [set_solver..|]. exists v. by left.
  - destruct (str_cmp k k') eqn:E.
    + apply cmp_eq in E as ->. split_and!; [by right|done|]. exists v'. by left.
    + split_and!; [set_solver..|]. exists v. by left.
    + split_and!.
      * intros x [->|Hx]%elem_of_cons; [right; by left|]. destruct (IH1 x Hx); [by left|right; by right].
      * intros x [->|Hx]%elem_of_cons; [by left|right; by apply IH2].
      * exists w. by right.
Qed.

Lemma insert_all_spec {V} (l m : list (str * V)) :
  let r := foldl (fun poms e => or_insert e.1 e.2 poms) m l in
  (forall x, x ∈ r -> x ∈ l \/ x ∈ m) /\ (forall x, x ∈ m -> x ∈ r) /\
  (forall k v, (k, v) ∈ l -> exists v', (k, v') ∈ r).
Proof.
  cbv zeta. revert m. induction l as [|[k v] l IH]; intros m; cbn [foldl].
  - split_and!; [by right|done|]. by intros k v ?%elem_of_nil.
  - destruct (IH (or_insert k v m)) as (H1 & H2 & H3), (or_insert_spec k v m) as (O1 & O2 & w & O3).
    split_and!.
    + intros x [Hx|Hx]%H1; [left; by right|]. destruct (O1 x Hx) as [->|?]; [left; by left|by right].
    + intros x Hx. by apply H2, O2.
    + intros k' v' [[= -> ->]|Hx]%elem_of_cons; [exists w; by apply H2|by eapply H3].
Qed.

(** The lock's support POMs are its platforms', one for each coordinate. *)
Lemma lock_support_spec l :
  (forall c x, (c, x) ∈ lock_support_poms l -> exists p, p ∈ platforms l /\ (c, x) ∈ support_poms p) /\
  (forall p c x, p ∈ platforms l -> (c, x) ∈ support_poms p -> exists y, (c, y) ∈ lock_support_poms l).
Proof.
  unfold lock_support_poms. set (step := fun poms p => foldl _ poms (support_poms p)).
  assert (forall ps m,
    (forall x, x ∈ foldl step m ps -> x ∈ m \/ exists p, p ∈ ps /\ x ∈ support_poms p) /\
    (forall x, x ∈ m -> x ∈ foldl step m ps) /\
    (forall p c x, p ∈ ps -> (c, x) ∈ support_poms p -> exists y, (c, y) ∈ foldl step m ps)) as Hall.
  { induction ps as [|p ps IH]; intros m; cbn [foldl].
    - split_and!; [by left|done|]. by intros p c x ?%elem_of_nil.
    - destruct (IH (step m p)) as (H1 & H2 & H3), (insert_all_spec (support_poms p) m) as (S1 & S2 & S3).
      split_and!.
      + intros x [Hx|(q & Hq & Hx)]%H1.
        * destruct (S1 x Hx); [right; exists p; by split; [left|]|by left].
        * right. exists q. by split; [right|].
      + intros x Hx. by apply H2, S2.
      + intros q c x [->|Hq]%elem_of_cons Hx; [|by eapply H3]. destruct (S3 c x Hx) as [y Hy].
        exists y. by apply H2. }
  destruct (Hall (platforms l) []) as (H1 & _ & H3). split; [|done].
  intros c x [Hx%elem_of_nil|Hx]%H1; done.
Qed.

(** ** What the checks establish *)

Definition consistent {K W} (l : list (K * W)) : Prop :=
  forall k v w, (k, v) ∈ l -> (k, w) ∈ l -> v = w.

Lemma consistent_sub {K W} (l k : list (K * W)) : (forall x, x ∈ l -> x ∈ k) -> consistent k -> consistent l.
Proof. intros Hs Hc a v w H1 H2. by eapply Hc; apply Hs. Qed.

Lemma consistent_map {A K W} (key : A -> K) (val : A -> W) l :
  consistent (map (fun x => (key x, val x)) l) <->
  (forall x y, x ∈ l -> y ∈ l -> key x = key y -> val x = val y).
Proof.
  split.
  - intros Hc x y Hx Hy E. eapply (Hc (key x)); apply list_elem_of_fmap; [by exists x|exists y].
    by rewrite E.
  - intros Hall k v w (x & E & Hx)%list_elem_of_fmap (y & E' & Hy)%list_elem_of_fmap.
    injection E as -> ->. injection E' as E1 ->. by apply Hall.
Qed.

(** A map of first entries that stands for a consistent list. *)
Section FirstSeen.
Context {K V W : Type} `{EqDecision K} (f : V -> W).

Definition first_of (k : K) (m : list (K * V)) : option V :=
  snd <$> List.find (fun e => bool_decide (e.1 = k)) m.

Definition stands_for (m : list (K * V)) (l : list (K * W)) : Prop :=
  forall k w, (k, w) ∈ l <-> f <$> first_of k m = Some w.

Lemma first_of_snoc k k' v m :
  first_of k m = None -> first_of k' (m ++ [(k, v)]) = if decide (k' = k) then Some v else first_of k' m.
Proof.
  unfold first_of. induction m as [|[k0 v0] m IH]; cbn [app List.find fst].
  - intros _. case_decide as E; [subst; by rewrite bool_decide_eq_true_2|].
    by rewrite bool_decide_eq_false_2.
  - destruct (bool_decide_reflect (k0 = k)) as [->|H0]; [done|]. intros Hn.
    destruct (bool_decide_reflect (k0 = k')) as [->|H1]; [by rewrite decide_False|]. by apply IH.
Qed.

Lemma entry_step m l k v seen m' :
  stands_for m l -> entry_or_insert k v m = (seen, m') ->
  (f seen = f v -> stands_for m' (l ++ [(k, f v)])) /\
  (consistent (l ++ [(k, f v)]) -> f seen = f v).
Proof.
  intros Hm. unfold entry_or_insert. destruct (List.find _ m) as [[k0 v0]|] eqn:E.
  - intros [= <- <-]. assert (first_of k m = Some v0) as Hf by (unfold first_of; by rewrite E). split.
    + intros Ev k' w. rewrite elem_of_app, list_elem_of_singleton, (Hm k' w). split; [|by left].
      intros [?|[= -> ->]]; [done|]. by rewrite Hf, <-Ev.
    + intros Hc. apply (Hc k); apply elem_of_app; [left; apply Hm; by rewrite Hf|right; by left].
  - intros [= <- <-]. split; [|done]. intros _ k' w.
    assert (first_of k m = None) as Hf by (unfold first_of; by rewrite E).
    rewrite first_of_snoc by done. rewrite elem_of_app, list_elem_of_singleton, (Hm k' w). case_decide as Ek.
    + subst. rewrite Hf. cbn. naive_solver.
    + naive_solver.
Qed.

Lemma stands_for_nil : stands_for [] [].
Proof. intros k w. cbn. split; [by intros ?%elem_of_nil|done]. Qed.
End FirstSeen.

Lemma app_cons_snoc {A} (l : list A) x k : l ++ x :: k = (l ++ [x]) ++ k.
Proof. by rewrite <-app_assoc. Qed.

Lemma consistent_prefix {K W} (l k : list (K * W)) : consistent (l ++ k) -> consistent l.
Proof. apply consistent_sub. intros x Hx. apply elem_of_app. by left. Qed.

Definition build_entry (a : LockArtifact) := (coordinate a, snapshot a).

Definition support_entry (e : str * SupportPom) := (e.1, (sup_snapshot e.2, sup_sha256 e.2)).
Definition file_entries (l : list (str * SupportPom)) : list (Gav.t * str) :=
  omap (fun e => (fun g => (g, sup_sha256 e.2)) <$> file_gav e.2 e.1) l.
Definition pom_build_entry (a : LockArtifact) := (row_gav a, pom_gav a).
Definition pom_pin_entry (a : LockArtifact) := (pom_gav a, pom_sha256 a).

Lemma stands_consistent {K V W} `{EqDecision K} (f : V -> W) (m : list (K * V)) l :
  stands_for f m l -> consistent l.
Proof. intros Hm k v w Hv%Hm Hw%Hm. congruence. Qed.

Lemma check_builds_Ok m pre l :
  stands_for id m pre -> check_builds m l = Ok tt <-> consistent (pre ++ map build_entry l).
Proof.
  revert m pre. induction l as [|a l IH]; intros m pre Hm; cbn [check_builds map].
  - rewrite app_nil_r. split; [|done]. intros _. by eapply stands_consistent.
  - destruct (entry_or_insert _ _ m) as [seen m'] eqn:E.
    destruct (entry_step id m pre _ _ _ _ Hm E) as [H1 H2]. rewrite app_cons_snoc.
    case_bool_decide as Es; cbn [negb]; [by apply IH, H1|]. split; [done|].
    intros Hc. destruct Es. by apply H2, (consistent_prefix _ _ Hc).
Qed.

Lemma check_support_Ok m n pre fpre l :
  stands_for (fun p => (sup_snapshot p, sup_sha256 p)) m pre -> stands_for fst n fpre ->
  check_support m n l = Ok tt <->
  consistent (pre ++ map support_entry l) /\ consistent (fpre ++ file_entries l).
Proof.
  revert m n pre fpre. induction l as [|[c x] l IH]; intros m n pre fpre Hm Hn.
  - cbn. rewrite !app_nil_r. split; [|done]. intros _. split; by eapply stands_consistent.
  - cbn [check_support map]. destruct (entry_or_insert c x m) as [seen m'] eqn:E.
    destruct (entry_step _ m pre _ _ _ _ Hm E) as [H1 H2]. cbn [fst snd] in *.
    rewrite (app_cons_snoc pre).
    destruct (_ || _) eqn:Es.
    { split; [done|]. intros [Hc%consistent_prefix%H2 _]. injection Hc as E1 E2.
      rewrite E1, E2, !bool_decide_eq_true_2 in Es by done. done. }
    apply orb_false_iff in Es as [E1 E2]. bool_simpl. assert (stands_for (fun p => (sup_snapshot p, sup_sha256 p)) m'
      (pre ++ [(c, (sup_snapshot x, sup_sha256 x))])) as Hm' by (apply H1; by f_equal).
    unfold file_entries. cbn [omap list_omap fst snd]. fold (file_entries l).
    destruct (file_gav x c) as [g|] eqn:Eg; cbn [fmap option_fmap option_map].
    + destruct (entry_or_insert g (sup_sha256 x, c) n) as [[digest other] n'] eqn:E'.
      destruct (entry_step fst n fpre _ _ _ _ Hn E') as [H1' H2']. cbn [fst] in *.
      rewrite (app_cons_snoc fpre). case_bool_decide as Ed; cbn [negb].
      * apply IH; [done|]. by apply H1'.
      * split; [done|]. intros [_ Hc]. destruct Ed. by apply H2', (consistent_prefix _ _ Hc).
    + by apply IH.
Qed.

Definition row_agrees (support : list (Gav.t * (str * SupportPom))) (a : LockArtifact) : Prop :=
  forall e, get_last (pom_gav a) support = Some e -> pom_sha256 a = Some (sup_sha256 e.2).

Lemma check_companions_Ok support m n pre ppre l :
  stands_for id m pre -> stands_for id n ppre ->
  check_companions support m n l = Ok tt <->
  consistent (pre ++ map pom_build_entry l) /\ consistent (ppre ++ map pom_pin_entry l) /\
  Forall (row_agrees support) l.
Proof.
  revert m n pre ppre. induction l as [|a l IH]; intros m n pre ppre Hm Hn; cbn [check_companions map].
  - rewrite !app_nil_r. split; [|done]. intros _. split_and!; [by eapply stands_consistent..|constructor].
  - destruct (entry_or_insert (row_gav a) (pom_gav a) m) as [seen m'] eqn:E.
    destruct (entry_step id m pre _ _ _ _ Hm E) as [H1 H2]. rewrite (app_cons_snoc pre).
    case_bool_decide as Es; cbn [negb].
    2:{ split; [done|]. intros [Hc _]. destruct Es. by apply H2, (consistent_prefix _ _ Hc). }
    destruct (entry_or_insert (pom_gav a) (pom_sha256 a) n) as [seen' n'] eqn:E'.
    destruct (entry_step id n ppre _ _ _ _ Hn E') as [H1' H2']. rewrite (app_cons_snoc ppre).
    case_bool_decide as Es'; cbn [negb].
    2:{ split; [done|]. intros (_ & Hc & _). destruct Es'. by apply H2', (consistent_prefix _ _ Hc). }
    rewrite Forall_cons. unfold row_agrees at 1.
    destruct (get_last (pom_gav a) support) as [[c x]|].
    + case_bool_decide as Ed; cbn [negb].
      * rewrite (IH m' n'); [|by apply H1|by apply H1']. naive_solver.
      * split; [done|]. intros (_ & _ & Ha & _). destruct Ed. by rewrite (Ha (c, x)).
    + rewrite (IH m' n'); [|by apply H1|by apply H1']. naive_solver.
Qed.

Definition same_file (a b : LockArtifact) : Prop :=
  repository_path a = repository_path b -> bytes_differ a b = false.

Lemma check_files_Ok files l :
  Forall (fun e => e.1 = repository_path e.2) files ->
  check_files files l = Ok tt <->
  ForallOrdPairs same_file l /\ (forall e a, e ∈ files -> a ∈ l -> same_file e.2 a).
Proof.
  revert files. induction l as [|a l IH]; intros files Hf; cbn [check_files].
  - split; [|done]. intros _. split; [constructor|]. by intros e a _ ?%elem_of_nil.
  - assert (existsb (fun e => bytes_differ e.2 a)
        (List.filter (fun e => bool_decide (e.1 = repository_path a)) files) = false
      <-> forall e, e ∈ files -> same_file e.2 a) as Hx.
    { rewrite <-not_true_iff_false, existsb_exists. rewrite Forall_forall in Hf. split.
      - intros Hn e He Ep. destruct (bytes_differ e.2 a) eqn:Ed; [|done]. destruct Hn. exists e.
        split; [|done]. apply filter_In. split; [by apply list_elem_of_In|].
        apply bool_decide_eq_true. by rewrite (Hf e He).
      - intros Hall (e & He & Ed). apply filter_In in He as [He%list_elem_of_In Ep]. bool_simpl.
        rewrite (Hf e He) in Ep. by rewrite (Hall e He Ep) in Ed. }
    destruct (existsb _ _).
    + split; [done|]. intros [_ Hall]. enough (true = false) by done. apply Hx. intros e He. apply Hall; [done|by left].
    + rewrite IH by (apply Forall_app; split; [done|by repeat constructor]).
      destruct Hx as [Hx _]. specialize (Hx eq_refl). split.
      * intros [Hp Hall]. split.
        { constructor; [|done]. apply List.Forall_forall. intros b Hb%list_elem_of_In.
          apply (Hall (repository_path a, a) b); [|done]. apply elem_of_app. right. by left. }
        intros e b He [->|Hb]%elem_of_cons; [by apply Hx|]. apply Hall; [|done]. apply elem_of_app. by left.
      * intros [Hp Hall]. inversion Hp as [|? ? Ha Hp' E1]; subst. rewrite List.Forall_forall in Ha.
        split; [done|]. intros e b [He| ->%list_elem_of_singleton]%elem_of_app Hb.
        { apply Hall; [done|by right]. }
        { by apply Ha, list_elem_of_In. }
Qed.

(** ** Snapshot POMs *)

(** The row a [-SNAPSHOT] support POM shares its plain path with. *)
Definition snapshot_gav (coord : str) : option Gav.t :=
  '(group, artifact, version) ← split_support_pom_coord coord;
  if resolves_through_snapshot_metadata version then Some (Gav.new group artifact version) else None.

Lemma snapshot_gav_inj c d g : snapshot_gav c = Some g -> snapshot_gav d = Some g -> c = d.
Proof.
  assert (forall c, snapshot_gav c = Some g -> c = Gav.display g) as H.
  { intros x. unfold snapshot_gav, split_support_pom_coord. rewrite <-(join_split ":"%char x) at 2.
    destruct (split ":"%char x) as [|a [|b [|v [|? ?]]]]; try done.
    destruct (_ && _); [|done]. cbn. destruct (resolves_through_snapshot_metadata v); [|done].
    intros [= <-]. done. }
  intros ->%H ->%H. done.
Qed.

Lemma conflicting_snapshot_pom_None support ps :
  consistent (map support_entry support) ->
  conflicting_snapshot_pom support ps = None <->
  (forall c x a, (c, x) ∈ support -> a ∈ rows ps -> snapshot_gav c = Some (row_gav a) ->
     pom_sha256 a = Some (sup_sha256 x)).
Proof.
  intros Hc. unfold conflicting_snapshot_pom. fold (rows ps). set (builds := omap _ support).
  assert (forall g e, (g, e) ∈ builds <-> e ∈ support /\ snapshot_gav e.1 = Some g) as Hb.
  { intros g e. unfold builds. rewrite list_elem_of_omap. unfold snapshot_gav. split.
    - intros (e' & He & E). destruct (split_support_pom_coord e'.1) as [[[? ?] v]|] eqn:Es; [|done].
      cbn in E. destruct (resolves_through_snapshot_metadata v) eqn:Er; [|done]. injection E as <- <-.
      rewrite Es. cbn. by rewrite Er.
    - intros [He E]. exists e. split; [done|].
      destruct (split_support_pom_coord e.1) as [[[? ?] v]|]; [|done]. cbn in *.
      destruct (resolves_through_snapshot_metadata v); [|done]. by injection E as <-. }
  rewrite find_map_None, Forall_forall. split.
  - intros Hn c x a Hx Ha Eg. specialize (Hn a Ha).
    destruct (get_last_some (row_gav a) builds (c, x)) as (e & E & He); [by apply Hb|].
    rewrite E in Hn. cbn in Hn. case_bool_decide as Ep; [|done]. rewrite Ep. f_equal.
    apply Hb in He as [He Ee]. assert (e.1 = c) as Ec by (by eapply snapshot_gav_inj).
    assert (snd (support_entry e) = snd (support_entry (c, x))) as [=]; [|done].
    eapply (Hc c); apply list_elem_of_fmap; [exists e|exists (c, x)]; unfold support_entry; by rewrite ?Ec.
  - intros Hall a Ha. destruct (get_last (row_gav a) builds) as [[c x]|] eqn:E; [|done].
    apply get_last_elem, Hb in E as [He Ee]. cbn in *. by rewrite bool_decide_eq_true_2 by (by eapply Hall).
Qed.

Lemma check_snapshots_Ok all l :
  check_snapshots all l = Ok tt <-> Forall (fun p => conflicting_snapshot_pom (support_poms p) all = None) l.
Proof.
  induction l as [|p l IH]; cbn [check_snapshots]; [by split|]. rewrite Forall_cons, <-IH.
  destruct (conflicting_snapshot_pom _ _); naive_solver.
Qed.

(** ** Locks whose pins describe a local repository that can exist *)

Record pins_ok (ps : list LockPlatform) : Prop := {
  ok_files : ForallOrdPairs same_file (rows ps);
  ok_support : forall c x y, (c, x) ∈ supports ps -> (c, y) ∈ supports ps ->
    sup_snapshot x = sup_snapshot y /\ sup_sha256 x = sup_sha256 y;
  ok_support_files : forall c x d y g, (c, x) ∈ supports ps -> (d, y) ∈ supports ps ->
    file_gav x c = Some g -> file_gav y d = Some g -> sup_sha256 x = sup_sha256 y;
  ok_builds : forall a b, a ∈ rows ps -> b ∈ rows ps -> coordinate a = coordinate b -> snapshot a = snapshot b;
  ok_pom_builds : forall a b, a ∈ rows ps -> b ∈ rows ps -> row_gav a = row_gav b -> pom_gav a = pom_gav b;
  ok_pom_pins : forall a b, a ∈ rows ps -> b ∈ rows ps -> pom_gav a = pom_gav b -> pom_sha256 a = pom_sha256 b;
  ok_companions : forall c x a, (c, x) ∈ supports ps -> a ∈ rows ps -> file_gav x c = Some (pom_gav a) ->
    pom_sha256 a = Some (sup_sha256 x);
  ok_snapshots : forall c x a, (c, x) ∈ supports ps -> a ∈ rows ps -> snapshot_gav c = Some (row_gav a) ->
    pom_sha256 a = Some (sup_sha256 x);
}.

Lemma elem_supports ps c x : (c, x) ∈ supports ps <-> exists p, p ∈ ps /\ (c, x) ∈ support_poms p.
Proof.
  unfold supports. rewrite list_elem_of_In, in_concat. split.
  - intros (l & (p & <- & Hp)%in_map_iff & Hin). exists p. by rewrite !list_elem_of_In.
  - intros (p & Hp & Hin). exists (support_poms p). split; [|by apply list_elem_of_In].
    apply in_map_iff. exists p. split; [done|by apply list_elem_of_In].
Qed.

Lemma elem_rows ps a : a ∈ rows ps <-> exists p, p ∈ ps /\ a ∈ artifacts p.
Proof.
  unfold rows. rewrite list_elem_of_In, in_concat. split.
  - intros (l & (p & <- & Hp)%in_map_iff & Hin). exists p. by rewrite !list_elem_of_In.
  - intros (p & Hp & Hin). exists (artifacts p). split; [|by apply list_elem_of_In].
    apply in_map_iff. exists p. split; [done|by apply list_elem_of_In].
Qed.

Lemma support_consistent l :
  consistent (map support_entry l) <->
  (forall c x y, (c, x) ∈ l -> (c, y) ∈ l -> sup_snapshot x = sup_snapshot y /\ sup_sha256 x = sup_sha256 y).
Proof.
  unfold support_entry. rewrite consistent_map. split.
  - intros H c x y Hx Hy. by specialize (H (c, x) (c, y) Hx Hy eq_refl) as [= ].
  - intros H [c x] [d y] Hx Hy. cbn. intros ->. destruct (H d x y Hx Hy). by f_equal.
Qed.

Lemma file_consistent l :
  consistent (file_entries l) <->
  (forall c x d y g, (c, x) ∈ l -> (d, y) ∈ l -> file_gav x c = Some g -> file_gav y d = Some g ->
     sup_sha256 x = sup_sha256 y).
Proof.
  unfold file_entries. split.
  - intros Hc c x d y g Hx Hy Ex Ey. apply (Hc g); apply list_elem_of_omap; [exists (c, x)|exists (d, y)];
      (split; [done|]); cbn; by rewrite ?Ex, ?Ey.
  - intros H g v w ([c x] & Hx & (g1 & Ex & E1)%fmap_Some)%list_elem_of_omap
      ([d y] & Hy & (g2 & Ey & E2)%fmap_Some)%list_elem_of_omap.
    injection E1 as -> ->. injection E2 as -> ->. by eapply H.
Qed.

Lemma companions_agree ps :
  (forall c x d y g, (c, x) ∈ supports ps -> (d, y) ∈ supports ps ->
     file_gav x c = Some g -> file_gav y d = Some g -> sup_sha256 x = sup_sha256 y) ->
  Forall (row_agrees (support_by_file (supports ps))) (rows ps) <->
  (forall c x a, (c, x) ∈ supports ps -> a ∈ rows ps -> file_gav x c = Some (pom_gav a) ->
     pom_sha256 a = Some (sup_sha256 x)).
Proof.
  intros Hf. rewrite Forall_forall.
  assert (forall g e, (g, e) ∈ support_by_file (supports ps) <-> e ∈ supports ps /\ file_gav e.2 e.1 = Some g) as Hb.
  { intros g e. unfold support_by_file. rewrite list_elem_of_omap. split.
    - intros (e' & He & (g' & Eg & E)%fmap_Some). by injection E as -> ->.
    - intros [He Eg]. exists e. by rewrite Eg. }
  split.
  - intros H c x a Hx Ha Eg. destruct (get_last_some (pom_gav a) _ (c, x) (proj2 (Hb _ _) (conj Hx Eg)))
      as ([d y] & E & [Hy Ey]%Hb).
    rewrite (H a Ha (d, y) E). f_equal. by eapply (Hf d y c x).
  - intros H a Ha [c x] [He Eg]%get_last_elem%Hb. by eapply H.
Qed.

(** The two checks pass exactly on such locks. *)
Lemma check_pins_Ok ps : check_pins ps = Ok tt <-> pins_ok ps.
Proof.
  assert (check_pins ps = Ok tt <->
    check_files [] (rows ps) = Ok tt /\ check_support [] [] (supports ps) = Ok tt /\
    check_builds [] (rows ps) = Ok tt /\
    check_companions (support_by_file (supports ps)) [] [] (rows ps) = Ok tt /\
    check_snapshots ps ps = Ok tt) as ->.
  { unfold check_pins, check_cross_platform_pins, check_pom_pins.
    destruct (check_files _ _) as [[]|]; [|cbn; naive_solver].
    destruct (check_support _ _ _) as [[]|]; [|cbn; naive_solver].
    destruct (check_builds _ _) as [[]|]; [|cbn; naive_solver].
    destruct (check_companions _ _ _ _) as [[]|]; [|cbn; naive_solver]. cbn. naive_solver. }
  rewrite check_files_Ok by constructor. rewrite (check_support_Ok [] [] [] []) by apply stands_for_nil.
  rewrite (check_builds_Ok [] []) by apply stands_for_nil.
  rewrite (check_companions_Ok _ [] [] [] []) by apply stands_for_nil. cbn [app].
  rewrite check_snapshots_Ok, support_consistent, file_consistent.
  unfold build_entry, pom_build_entry, pom_pin_entry. rewrite !consistent_map.
  assert ((forall c x y, (c, x) ∈ supports ps -> (c, y) ∈ supports ps ->
      sup_snapshot x = sup_snapshot y /\ sup_sha256 x = sup_sha256 y) ->
    Forall (fun p => conflicting_snapshot_pom (support_poms p) ps = None) ps <->
    (forall c x a, (c, x) ∈ supports ps -> a ∈ rows ps -> snapshot_gav c = Some (row_gav a) ->
      pom_sha256 a = Some (sup_sha256 x))) as Hsnap.
  { intros Hs. rewrite Forall_forall.
    assert (forall p, p ∈ ps -> consistent (map support_entry (support_poms p))) as Hcp.
    { intros p Hp. apply support_consistent. intros c x y Hx Hy. apply (Hs c); apply elem_supports; by exists p. }
    split.
    - intros H c x a (p & Hp & Hx)%elem_supports. 
      by apply (proj1 (conflicting_snapshot_pom_None _ ps (Hcp p Hp)) (H p Hp)).
    - intros H p Hp. apply conflicting_snapshot_pom_None; [by apply Hcp|]. intros c x a Hx.
      apply H, elem_supports. by exists p. }
  split.
  - intros ([Hf _] & [Hs Hg] & Hb & (Hpb & Hpp & Hc) & Hn).
    pose proof (proj1 (companions_agree ps Hg) Hc). pose proof (proj1 (Hsnap Hs) Hn). by split.
  - intros [Hf Hs Hg Hb Hpb Hpp Hc Hn]. split_and!; try done.
    + by intros e a ?%elem_of_nil.
    + by apply companions_agree.
    + by apply Hsnap.
Qed.

(** ** A platform the rules keep *)

Lemma file_gav_same x y c : sup_snapshot x = sup_snapshot y -> file_gav x c = file_gav y c.
Proof. unfold file_gav. by intros ->. Qed.

Lemma bytes_differ_sym a b : bytes_differ a b = bytes_differ b a.
Proof.
  unfold bytes_differ. f_equal.
  - f_equal. apply bool_decide_ext. naive_solver.
  - apply eq_true_iff_eq. rewrite !existsb_exists. setoid_rewrite existsb_exists.
    setoid_rewrite andb_true_iff. setoid_rewrite negb_true_iff.
    setoid_rewrite bool_decide_eq_true. setoid_rewrite bool_decide_eq_false.
    split; intros (x & Hx & y & Hy & E & Hne); exists y; (split; [done|]); exists x; by split_and!.
Qed.

Lemma same_file_sym a b : same_file a b -> same_file b a.
Proof. unfold same_file. rewrite bytes_differ_sym. naive_solver. Qed.

Lemma companion_pins_rows l : companion_pom_pins l = map pom_pin_entry (rows (platforms l)).
Proof. unfold companion_pom_pins, rows. by rewrite concat_map, map_map. Qed.

Section Kept.
Context (fresh : Lockfile) (prev : LockPlatform).
Context (Hfresh : pins_ok (platforms fresh)) (Hprev : pins_ok [prev]).
Context (Hdrop : drop_reason fresh true prev = None).

Lemma prev_support c x : (c, x) ∈ support_poms prev -> (c, x) ∈ supports [prev].
Proof. intros. apply elem_supports. exists prev. by split; [left|]. Qed.

Lemma prev_row a : a ∈ artifacts prev -> a ∈ rows [prev].
Proof. intros. apply elem_rows. exists prev. by split; [left|]. Qed.

(** The verdict, rule by rule. *)
Lemma kept_rules :
  conflicting_support_pom (support_poms prev) (lock_support_poms fresh) = None /\
  conflicting_support_companion_pin (support_poms prev) (companion_pom_pins fresh) = None /\
  conflicting_snapshot_pom (support_poms prev) (platforms fresh) = None /\
  conflicting_snapshot_pom (lock_support_poms fresh) [prev] = None /\
  conflicting_companion_pom_pin (companion_pom_pins fresh)
    (map (fun a => (row_gav a, pom_gav a)) (rows (platforms fresh))) prev = None /\
  Forall (fun p => conflicting_artifact_pin prev p = None) (platforms fresh) /\
  conflicting_support_companion_pin (lock_support_poms fresh) (platform_companion_pom_pins prev) = None.
Proof.
  revert Hdrop. unfold drop_reason, or_else. cbn [negb].
  destruct (conflicting_support_pom _ _); [done|].
  destruct (conflicting_support_companion_pin (support_poms prev) _); [done|].
  destruct (conflicting_snapshot_pom (support_poms prev) _); [done|].
  destruct (conflicting_snapshot_pom (lock_support_poms fresh) _); [done|].
  fold (rows (platforms fresh)). destruct (conflicting_companion_pom_pin _ _ _); [done|].
  destruct (find_map _ _) eqn:E; [done|]. apply find_map_None in E. intros Hd%fmap_None. by split_and!.
Qed.

(** The support POMs of the whole fresh lock, against those of its platforms. *)
Lemma lock_support_sub c x : (c, x) ∈ lock_support_poms fresh -> (c, x) ∈ supports (platforms fresh).
Proof. intros (p & Hp & Hx)%(lock_support_spec fresh). apply elem_supports. by exists p. Qed.

Lemma lock_support_cover c x :
  (c, x) ∈ supports (platforms fresh) ->
  exists y, (c, y) ∈ lock_support_poms fresh /\ sup_snapshot y = sup_snapshot x /\ sup_sha256 y = sup_sha256 x.
Proof.
  intros Hx. pose proof Hx as (p & Hp & Hxp)%elem_supports.
  destruct (proj2 (lock_support_spec fresh) p c x Hp Hxp) as [y Hy]. exists y. split; [done|].
  by apply (ok_support _ Hfresh c); [apply lock_support_sub|].
Qed.

Lemma kept_support c x y :
  (c, x) ∈ support_poms prev -> (c, y) ∈ supports (platforms fresh) ->
  sup_snapshot x = sup_snapshot y /\ sup_sha256 x = sup_sha256 y.
Proof.
  intros Hx (z & Hz & E1 & E2)%lock_support_cover. destruct kept_rules as (Hn & _).
  apply fmap_None, find_None_Forall in Hn. rewrite Forall_forall in Hn. specialize (Hn _ Hx).
  apply orb_false_iff in Hn as [Hn _]. cbn in Hn.
  destruct (btree_get_some c _ z Hz) as (w & E & Hw). rewrite E in Hn. cbn in Hn. bool_simpl.
  destruct (ok_support _ Hfresh c w z) as [E3 E4]; [by apply lock_support_sub..|]. split; congruence.
Qed.

Lemma kept_support_files c x d y g :
  (c, x) ∈ support_poms prev -> (d, y) ∈ supports (platforms fresh) ->
  file_gav x c = Some g -> file_gav y d = Some g -> sup_sha256 x = sup_sha256 y.
Proof.
  intros Hx (z & Hz & E1 & E2)%lock_support_cover Eg Eg'. destruct kept_rules as (Hn & _).
  apply fmap_None, find_None_Forall in Hn. rewrite Forall_forall in Hn. specialize (Hn _ Hx).
  apply orb_false_iff in Hn as [_ Hn]. cbn in Hn. rewrite Eg in Hn. cbn in Hn.
  fold (file_entries (lock_support_poms fresh)) in Hn.
  destruct (get_last_some g (file_entries (lock_support_poms fresh)) (sup_sha256 z)) as (s & E & Hs).
  { apply list_elem_of_omap. exists (d, z). split; [done|]. cbn. by rewrite (file_gav_same z y), Eg'. }
  rewrite E in Hn. cbn in Hn. bool_simpl.
  apply list_elem_of_omap in Hs as ([k v] & Hk & (g' & Ek & [= -> ->])%fmap_Some). cbn in *.
  rewrite <-Hn, <-E2. apply (ok_support_files _ Hfresh k v d z g'); [by apply lock_support_sub..|done|].
  by rewrite (file_gav_same z y).
Qed.

Lemma kept_rows a b :
  a ∈ artifacts prev -> b ∈ rows (platforms fresh) ->
  same_file a b /\ (coordinate a = coordinate b -> snapshot a = snapshot b).
Proof.
  intros Ha (p & Hp & Hb)%elem_rows. destruct kept_rules as (_ & _ & _ & _ & _ & Hn & _).
  rewrite Forall_forall in Hn. specialize (Hn p Hp). apply fmap_None, find_None_Forall in Hn.
  rewrite Forall_forall in Hn. specialize (Hn a Ha). apply orb_false_iff in Hn as [Hc Hf]. split.
  - intros Ep. destruct (bytes_differ a b) eqn:Ed; [|done]. exfalso. apply not_true_iff_false in Hf.
    apply Hf, existsb_exists. exists b. split; [|done]. apply filter_In.
    split; [by apply list_elem_of_In|]. by apply bool_decide_eq_true.
  - intros Ec. rewrite Ec in Hc.
    destruct (get_last_some (coordinate b) (map (fun a => (coordinate a, a)) (artifacts p)) b)
      as (b' & E & (x & [= Ex ->] & Hx)%list_elem_of_fmap).
    { apply list_elem_of_fmap. by exists b. }
    rewrite E in Hc. cbn in Hc. unfold conflicts_with in Hc. bool_simpl. rewrite H.
    apply (ok_builds _ Hfresh); [apply elem_rows; by exists p..|done].
Qed.

Lemma kept_companions a b :
  a ∈ artifacts prev -> b ∈ rows (platforms fresh) ->
  (row_gav a = row_gav b -> pom_gav a = pom_gav b) /\ (pom_gav a = pom_gav b -> pom_sha256 a = pom_sha256 b).
Proof.
  intros Ha Hb. destruct kept_rules as (_ & _ & _ & _ & Hn & _). apply find_map_None in Hn.
  rewrite Forall_forall in Hn. specialize (Hn a Ha). cbv zeta in Hn.
  destruct (is_some_and _ _) eqn:Es; [done|]. split.
  - intros Eg. destruct (get_last_some (row_gav a) (map (fun a => (row_gav a, pom_gav a)) (rows (platforms fresh))) (pom_gav b))
      as (g & E & (x & [= Ex ->] & Hx)%list_elem_of_fmap).
    { apply list_elem_of_fmap. exists b. by rewrite Eg. }
    rewrite E in Es. cbn in Es. bool_simpl. rewrite <-Es. apply (ok_pom_builds _ Hfresh); [done..|congruence].
  - intros Eg. destruct (get_last_some (pom_gav a) (companion_pom_pins fresh) (pom_sha256 b)) as (d & E & Hd).
    { rewrite companion_pins_rows. apply list_elem_of_fmap. exists b. unfold pom_pin_entry. by rewrite Eg. }
    rewrite E in Hn. cbn in Hn. case_bool_decide as Ed; [|done]. rewrite <-Ed.
    rewrite companion_pins_rows in Hd. apply list_elem_of_fmap in Hd as (x & [Ex ->]%pair_equal_spec & Hx).
    apply (ok_pom_pins _ Hfresh); [done..|congruence].
Qed.
Lemma support_companion support l c x a :
  conflicting_support_companion_pin support (map pom_pin_entry l) = None ->
  (forall a b, a ∈ l -> b ∈ l -> pom_gav a = pom_gav b -> pom_sha256 a = pom_sha256 b) ->
  (c, x) ∈ support -> a ∈ l -> file_gav x c = Some (pom_gav a) -> pom_sha256 a = Some (sup_sha256 x).
Proof.
  intros Hn%find_map_None Hl Hx Ha Eg. rewrite Forall_forall in Hn. specialize (Hn _ Hx).
  cbn in Hn. rewrite Eg in Hn. cbn in Hn.
  destruct (get_last_some (pom_gav a) (map pom_pin_entry l) (pom_sha256 a)) as (s & E & Hs).
  { apply list_elem_of_fmap. by exists a. }
  rewrite E in Hn. cbn in Hn. case_bool_decide as Ed; [|done]. rewrite <-Ed.
  apply list_elem_of_fmap in Hs as (b & [Eb ->]%pair_equal_spec & Hb). by apply Hl.
Qed.

Lemma kept_support_pins c x b :
  (c, x) ∈ support_poms prev -> b ∈ rows (platforms fresh) -> file_gav x c = Some (pom_gav b) ->
  pom_sha256 b = Some (sup_sha256 x).
Proof.
  destruct kept_rules as (_ & Hn & _). rewrite companion_pins_rows in Hn.
  apply (support_companion _ _ _ _ _ Hn), (ok_pom_pins _ Hfresh).
Qed.

Lemma kept_companion_pins c y a :
  (c, y) ∈ supports (platforms fresh) -> a ∈ artifacts prev -> file_gav y c = Some (pom_gav a) ->
  pom_sha256 a = Some (sup_sha256 y).
Proof.
  intros (z & Hz & E1 & E2)%lock_support_cover Ha Eg. destruct kept_rules as (_ & _ & _ & _ & _ & _ & Hn).
  rewrite <-E2. apply (support_companion _ (artifacts prev) c z a Hn); [|done..|].
  - intros b d Hb Hd. by apply (ok_pom_pins _ Hprev); apply prev_row.
  - by rewrite (file_gav_same z y).
Qed.

Lemma kept_snapshots c x b :
  (c, x) ∈ support_poms prev -> b ∈ rows (platforms fresh) -> snapshot_gav c = Some (row_gav b) ->
  pom_sha256 b = Some (sup_sha256 x).
Proof.
  destruct kept_rules as (_ & _ & Hn & _). apply conflicting_snapshot_pom_None; [|done].
  apply support_consistent. intros k y z Hy Hz. by apply (ok_support _ Hprev k); apply prev_support.
Qed.

Lemma kept_snapshot_rows c y a :
  (c, y) ∈ supports (platforms fresh) -> a ∈ artifacts prev -> snapshot_gav c = Some (row_gav a) ->
  pom_sha256 a = Some (sup_sha256 y).
Proof.
  intros (z & Hz & E1 & E2)%lock_support_cover Ha Eg. destruct kept_rules as (_ & _ & _ & Hn & _).
  rewrite <-E2. eapply (proj1 (conflicting_snapshot_pom_None _ _ _) Hn); [done|by apply prev_row|done].
  Unshelve. apply support_consistent. intros k u v Hu Hv.
  by apply (ok_support _ Hfresh k); apply lock_support_sub.
Qed.
End Kept.

(** ** The merged lock *)

Lemma ordered_pairs_app {A} (R : A -> A -> Prop) l k :
  ForallOrdPairs R l -> ForallOrdPairs R k -> (forall a b, a ∈ l -> b ∈ k -> R a b) ->
  ForallOrdPairs R (l ++ k).
Proof.
  intros Hl Hk Hlk. induction Hl as [|a l Ha Hl IH]; [done|]. cbn. constructor.
  - rewrite List.Forall_forall in *. intros x [Hx|Hx]%in_app_iff; [by apply Ha|].
    apply Hlk; [by left|by apply list_elem_of_In].
  - apply IH. intros x y Hx. apply Hlk. by right.
Qed.

Lemma ordered_pairs_sublist {A} (R : A -> A -> Prop) l k :
  l `sublist_of` k -> ForallOrdPairs R k -> ForallOrdPairs R l.
Proof.
  induction 1 as [|x l k Hs IH|x l k Hs IH]; intros Hk; [done|..]; inversion Hk as [|? ? Hx Hk']; subst.
  - constructor; [|by apply IH]. rewrite List.Forall_forall in *. intros y Hy. apply Hx, list_elem_of_In.
    eapply elem_of_submseteq; [by apply list_elem_of_In|by apply sublist_submseteq].
  - by apply IH.
Qed.

Lemma ordered_pairs_perm {A} (R : A -> A -> Prop) l k :
  (forall a b, R a b -> R b a) -> l ≡ₚ k -> ForallOrdPairs R l -> ForallOrdPairs R k.
Proof.
  intros HR. induction 1 as [|x l k Hp IH|x y l|l k m Hp IH Hp' IH']; intros Hl; [done| | |by auto].
  - inversion Hl as [|? ? Hx Hl']; subst. constructor; [|by apply IH].
    rewrite List.Forall_forall in *. intros z Hz. apply Hx. apply list_elem_of_In. rewrite Hp.
    by apply list_elem_of_In.
  - inversion Hl as [|? ? Hy Hl']; subst. inversion Hl' as [|? ? Hx Hl'']; subst.
    inversion Hy as [|? ? Hyx Hyl]; subst. constructor; [constructor; [by apply HR|done]|by constructor].
Qed.

Lemma rows_sublist ps qs : ps `sublist_of` qs -> rows ps `sublist_of` rows qs.
Proof.
  induction 1 as [|p ps qs H IH|p ps qs H IH]; cbn; [done|..].
  - by apply sublist_app.
  - by apply sublist_inserts_l.
Qed.

Lemma rows_perm ps qs : ps ≡ₚ qs -> rows ps ≡ₚ rows qs.
Proof.
  unfold rows. induction 1 as [|p ps qs H IH|p q ps|l k m H IH H' IH']; cbn; [done|by rewrite IH| |].
  - by rewrite !app_assoc, (Permutation_app_comm (artifacts q)).
  - by rewrite IH.
Qed.

Lemma pins_ok_perm ps qs : ps ≡ₚ qs -> pins_ok ps -> pins_ok qs.
Proof.
  intros Hp H.
  assert (forall a, a ∈ rows qs -> a ∈ rows ps) as Hr by (intros a; by rewrite (rows_perm _ _ Hp)).
  assert (forall e, e ∈ supports qs -> e ∈ supports ps) as Hs.
  { intros [c x] (p & Hin & Hx)%elem_supports. apply elem_supports. exists p. by rewrite Hp. }
  split; eauto using ok_support, ok_support_files, ok_builds, ok_pom_builds, ok_pom_pins, ok_companions, ok_snapshots.
  apply (ordered_pairs_perm _ (rows ps)); [apply same_file_sym|by apply rows_perm|by apply ok_files].
Qed.

Lemma pins_ok_sublist ps qs : ps `sublist_of` qs -> pins_ok qs -> pins_ok ps.
Proof.
  intros Hp H.
  assert (forall p, p ∈ ps -> p ∈ qs) as Hin
    by (intros p Hi; eapply elem_of_submseteq; [exact Hi|by apply sublist_submseteq]).
  assert (forall a, a ∈ rows ps -> a ∈ rows qs) as Hr by (intros a (p & ? & ?)%elem_rows; apply elem_rows; eauto).
  assert (forall e, e ∈ supports ps -> e ∈ supports qs) as Hs
    by (intros [c x] (p & ? & ?)%elem_supports; apply elem_supports; eauto).
  split; eauto using ok_support, ok_support_files, ok_builds, ok_pom_builds, ok_pom_pins, ok_companions, ok_snapshots.
  apply (ordered_pairs_sublist _ _ (rows qs)); [by apply rows_sublist|by apply ok_files].
Qed.

Lemma pairs_app {A} (R : A -> A -> Prop) l k :
  (forall a b, R a b -> R b a) -> (forall a b, a ∈ l -> b ∈ l -> R a b) ->
  (forall a b, a ∈ k -> b ∈ k -> R a b) -> (forall a b, a ∈ k -> b ∈ l -> R a b) ->
  forall a b, a ∈ l ++ k -> b ∈ l ++ k -> R a b.
Proof. intros HR Hl Hk Hkl a b [Ha|Ha]%elem_of_app [Hb|Hb]%elem_of_app; auto. Qed.

Lemma merged_pins_ok fresh kept :
  pins_ok (platforms fresh) -> pins_ok kept ->
  (forall p, p ∈ kept -> pins_ok [p] /\ drop_reason fresh true p = None) ->
  pins_ok (platforms fresh ++ kept).
Proof.
  intros Hf Hk Hd. set (fs := platforms fresh) in *.
  assert (rows (fs ++ kept) = rows fs ++ rows kept) as Er by (unfold rows; by rewrite map_app, concat_app).
  assert (supports (fs ++ kept) = supports fs ++ supports kept) as Es
    by (unfold supports; by rewrite map_app, concat_app).
  assert (forall (R : LockArtifact -> LockArtifact -> Prop), (forall a b, R a b -> R b a) ->
    (forall a b, a ∈ rows fs -> b ∈ rows fs -> R a b) -> (forall a b, a ∈ rows kept -> b ∈ rows kept -> R a b) ->
    (forall p a b, p ∈ kept -> a ∈ artifacts p -> b ∈ rows fs -> R a b) ->
    forall a b, a ∈ rows (fs ++ kept) -> b ∈ rows (fs ++ kept) -> R a b) as Hrows.
  { intros R HR Hl Hr Hc. rewrite Er. apply pairs_app; [done..|].
    intros a b (p & Hp & Ha)%elem_rows Hb. by apply (Hc p). }
  split; rewrite ?Es, ?Er.
  - apply ordered_pairs_app; [by apply ok_files..|]. intros a b Ha (p & Hp & Hb)%elem_rows.
    destruct (Hd p Hp). apply same_file_sym. by apply (kept_rows fresh p).
  - intros c x y Hx Hy.
    apply (pairs_app (fun e d => e.1 = d.1 -> sup_snapshot e.2 = sup_snapshot d.2 /\ sup_sha256 e.2 = sup_sha256 d.2)
      (supports fs) (supports kept)) with (a := (c, x)) (b := (c, y)); [naive_solver|..|done|done|done];
      intros [d u] [e v] Hu Hv; cbn; intros <-.
    + by apply (ok_support _ Hf d).
    + by apply (ok_support _ Hk d).
    + apply elem_supports in Hu as (p & Hp & Hu). destruct (Hd p Hp). by apply (kept_support fresh p Hf H0 d).
  - intros c x d y g Hx Hy.
    apply (pairs_app (fun e d => file_gav e.2 e.1 = Some g -> file_gav d.2 d.1 = Some g -> sup_sha256 e.2 = sup_sha256 d.2)
      (supports fs) (supports kept)) with (a := (c, x)) (b := (d, y)); [naive_solver|..|done|done];
      intros [k u] [e v] Hu Hv; cbn; intros Eu Ev.
    + by apply (ok_support_files _ Hf k u e v g).
    + by apply (ok_support_files _ Hk k u e v g).
    + apply elem_supports in Hu as (p & Hp & Hu). destruct (Hd p Hp).
      by apply (kept_support_files fresh p Hf H0 k u e v g).
  - rewrite <-Er. apply (Hrows (fun a b => coordinate a = coordinate b -> snapshot a = snapshot b));
      [by intros a b Hab E; symmetry; apply Hab|by apply (ok_builds _ Hf)|by apply (ok_builds _ Hk)|].
    intros p a b Hp Ha Hb. destruct (Hd p Hp). by apply (kept_rows fresh p).
  - rewrite <-Er. apply (Hrows (fun a b => row_gav a = row_gav b -> pom_gav a = pom_gav b));
      [by intros a b Hab E; symmetry; apply Hab|by apply (ok_pom_builds _ Hf)|by apply (ok_pom_builds _ Hk)|].
    intros p a b Hp Ha Hb. destruct (Hd p Hp). by apply (kept_companions fresh p).
  - rewrite <-Er. apply (Hrows (fun a b => pom_gav a = pom_gav b -> pom_sha256 a = pom_sha256 b));
      [by intros a b Hab E; symmetry; apply Hab|by apply (ok_pom_pins _ Hf)|by apply (ok_pom_pins _ Hk)|].
    intros p a b Hp Ha Hb. destruct (Hd p Hp). by apply (kept_companions fresh p).
  - intros c x a [Hx|Hx]%elem_of_app [Ha|Ha]%elem_of_app.
    + by apply (ok_companions _ Hf c).
    + apply elem_rows in Ha as (q & Hq & Ha). destruct (Hd q Hq). by apply (kept_companion_pins fresh q Hf H H0 c x a).
    + apply elem_supports in Hx as (p & Hp & Hx). destruct (Hd p Hp). by apply (kept_support_pins fresh p Hf H0 c x a).
    + by apply (ok_companions _ Hk c).
  - intros c x a [Hx|Hx]%elem_of_app [Ha|Ha]%elem_of_app.
    + by apply (ok_snapshots _ Hf c).
    + apply elem_rows in Ha as (q & Hq & Ha). destruct (Hd q Hq). by apply (kept_snapshot_rows fresh q Hf H0 c x a).
    + apply elem_supports in Hx as (p & Hp & Hx). destruct (Hd p Hp). by apply (kept_snapshots fresh p H H0 c x a).
    + by apply (ok_snapshots _ Hk c).
Qed.

(** C36: the pin checks of a lock, which stop at the first disagreement with the
    first row seen, accept exactly the locks whose pins agree pairwise: one set of
    bytes for every local-repository file, one build for every coordinate, one
    companion POM for every version, and support POMs that agree with each other and
    with the rows that share their files. *)
Theorem pin_checks_spec ps : check_pins ps = Ok tt <-> pins_ok ps.
Proof. apply check_pins_Ok. Qed.

(** C29: carrying platforms forward never makes a lock that raeva refuses to write:
    if the fresh and the previous lock pass the pin checks, so does every lock, in
    whatever order its platforms are sorted, made of the fresh platforms and
    platforms of the previous one that [preservation] leaves open; it leaves none
    open unless the configuration is the one they were resolved under, and never
    one that was resolved again. *)
Theorem preservation_sound fresh previous hash kept merged :
  check_pins (platforms fresh) = Ok tt -> check_pins (platforms previous) = Ok tt ->
  NoDup (map platform (platforms previous)) ->
  kept `sublist_of` platforms previous ->
  Forall (fun p => {| candidate_platform := platform p; dropped := None |}
                   ∈ preservation fresh previous hash) kept ->
  merged ≡ₚ platforms fresh ++ kept ->
  check_pins merged = Ok tt /\ (kept <> [] -> config_hash previous = Some hash) /\
  Forall (fun p => platform p ∉ map platform (platforms fresh)) kept.
Proof.
  rewrite !check_pins_Ok. intros Hf Hp Hnd Hsub Hkept Hm. rewrite Forall_forall in Hkept.
  assert (forall p, p ∈ kept -> p ∈ platforms previous) as Hin
    by (intros p Hi; eapply elem_of_submseteq; [exact Hi|by apply sublist_submseteq]).
  assert (forall p, p ∈ kept -> config_hash previous = Some hash /\ drop_reason fresh true p = None /\
    platform p ∉ map platform (platforms fresh)) as Hd.
  { intros p Hi. pose proof (Hkept p Hi) as (q & Hq & E)%list_elem_of_omap.
    case_bool_decide as Er; [done|]. injection E as Epl Ed.
    assert (q = p) as ->.
    { apply list_elem_of_lookup in Hq as [i Hq]. pose proof (Hin p Hi) as [j Hj]%list_elem_of_lookup.
      assert (i = j) as ->; [|congruence]. eapply (NoDup_lookup _ _ _ (platform p) Hnd);
        apply list_lookup_fmap_Some; [exists q|exists p]; done. }
    destruct (is_some_and _ _) eqn:Ec; [|done]. destruct (config_hash previous) as [h|]; [|done].
    cbn in Ec. bool_simpl. by subst. }
  split_and!.
  - apply (pins_ok_perm (platforms fresh ++ kept)); [done|]. apply merged_pins_ok; [done|by eapply pins_ok_sublist|].
    intros p Hi. split; [|by apply Hd]. apply (pins_ok_sublist _ (platforms previous)); [|done].
    by apply singleton_sublist_l, Hin.
  - destruct kept as [|p kept]; [done|]. intros _. apply (Hd p). by left.
  - apply Forall_forall. intros p Hi. by apply Hd.
Qed.

(** ** Two platforms that share a row *)

Definition demo_row : LockArtifact := {|
  coordinate := ArtifactCoord.new $"g" $"a" $"1.0" $"jar" None; repo_url := $"r"; other_repo_urls := [];
  checksums := []; snapshot := None; pom_snapshot := None; pom_base := false;
  pom_sha256 := Some $"aa"; pom_repo_urls := [] |}.
Definition demo_support : str * SupportPom :=
  ($"g:parent:1", {| sup_repo_url := $"r"; sup_sha256 := $"bb"; sup_snapshot := None |}).
Definition demo_platform (os : str) (support : list (str * SupportPom)) : LockPlatform := {|
  platform := {| Platform.os := os; Platform.arch := $"x86_64"; Platform.jdk := None |};
  model_hash := []; artifacts := [demo_row]; modules := []; support_poms := support;
  model_inputs := None; platform_repo_ids := None; platform_host_inputs := None |}.
Definition demo_fresh : Lockfile :=
  lock_of (Some $"h") [demo_platform $"macos" []].
Definition demo_previous : Lockfile :=
  lock_of (Some $"h") [demo_platform $"linux" [demo_support]].

Lemma preservation_sound_witness :
  check_pins [demo_platform $"linux" [demo_support]; demo_platform $"macos" []] = Ok tt.
Proof.
  refine (proj1 (preservation_sound demo_fresh demo_previous $"h" [demo_platform $"linux" [demo_support]]
    _ _ _ _ _ _ _)); [by vm_compute..| |done| |].
  - apply NoDup_singleton.
  - apply Forall_cons. split; [|by apply Forall_nil]. by left.
  - apply Permutation_swap.
Defined.

(** Other bytes for the shared POM drop the platform. *)
Example preservation_drops :
  map dropped (preservation demo_fresh (lock_of (Some $"h")
    [{| platform := platform (demo_platform $"linux" []);
        artifacts := [{| coordinate := coordinate demo_row; repo_url := $"r"; other_repo_urls := [];
          checksums := []; snapshot := None; pom_snapshot := None; pom_base := false;
          pom_sha256 := Some $"cc"; pom_repo_urls := [] |}]; support_poms := [];
        model_hash := []; modules := []; model_inputs := None; platform_repo_ids := None;
        platform_host_inputs := None |}]) $"h")
  = [Some (ConflictingPom $"g:a:1.0")].
Proof. by vm_compute. Qed.
