(* ===== verification/LockLines.v ===== *)
(** * Module rows as text ([rv-lock/src/codec.rs])

    The packages and edges of a module are blocks of lines in the lock: how they are
    written and read back, with the rows of a module around them.  A message is its
    cause. *)

From Stdlib Require Import Ascii String Lia.
From stdpp Require Import base list strings gmap.
From S2P Require Import Prelude Iter Str Version Component Coordinates Snapshot Layout Digest LockText Ambient LockRows.

#[local] Set Warnings "-clear-no-such-hyp".

Definition tab : ascii := ascii_of_N 9.
Definition space : ascii := " "%char.

(** The causes of [LockError::Invalid] of a line. *)
Inductive LineFault :=
  | PackageStart
  | DirectScope (scope : str)
  | ScopeColumn (scope : str)
  | RedundantScope
  | SystemDigest
  | TooManyColumns
  | BadEdge (line : str)
  | EdgeScope (scope : str)
  | BadModuleGav (gav : str)
  | BadSupportCoord (coord : str).

(** ** Coordinates in rows *)

(** [split_reactor_gav]: a version may hold a colon. *)
Definition split_reactor_gav (gav : str) : option (str * str * str) :=
  '(group, rest) ← split_once colon gav;
  '(artifact, version) ← split_once colon rest;
  if negb (is_empty group) && negb (is_empty artifact) && negb (is_empty version)
  then Some (group, artifact, version) else None.

(** [validate_support_pom_coord]. *)
Definition validate_support_pom_coord (coord : str) : result LineFault unit :=
  match split_support_pom_coord coord with
  | None => Err (BadSupportCoord coord)
  | Some (group, artifact, version) =>
    map_err (fun _ => BadSupportCoord coord)
      (_ ← validate_coordinate_component Group group;
       _ ← validate_coordinate_component Artifact artifact;
       validate_coordinate_component VersionField version)
  end.

(** [is_sha256_hex] and [lowercase_sha256]. *)
Definition is_sha256_hex (value : str) : bool :=
  (length value =? 64) && forallb (fun byte => is_hexdigit byte && negb (is_upper byte)) value.

Definition lowercase_sha256 (value : str) : option str :=
  if is_sha256_hex value then
    match Digest.from_str Sha256 value with Ok d => Some (hex d) | Err _ => None end
  else None.

(** ** Writing *)

(** [Iterator::rposition]. *)
Fixpoint rposition {A} (p : A -> bool) (l : list A) : option nat :=
  match l with
  | [] => None
  | a :: l =>
    match rposition p l with
    | Some i => Some (S i)
    | None => if p a then Some 0 else None
    end
  end.

Definition package_kind (c : ArtifactCoord.t) : str :=
  match ArtifactCoord.classifier c with
  | Some classifier => ArtifactCoord.extension c ++ $":" ++ classifier
  | None => ArtifactCoord.extension c
  end.

Definition package_columns (p : LockModulePackage) : list str :=
  [Gav.display (ArtifactCoord.gav (package_coordinate p));
   package_kind (package_coordinate p);
   from_option LockScope.as_str [] (direct_scope p);
   (if bool_decide (default LockScope.Compile (direct_scope p) = package_scope p) then []
    else LockScope.as_str (package_scope p));
   default [] (workspace_module p);
   default [] (system_path p);
   default [] (system_sha256 p)].

Definition encode_package (p : LockModulePackage) : str :=
  let columns := package_columns p in
  let kept := rposition (fun column => negb (is_empty column)) columns in
  join [tab] (take (from_option S 0 kept) columns).

(** [encode_packages]. *)
Definition encode_packages (m : LockModule) : str := join [newline] (map encode_package (packages m)).

(** [Display] of a [usize]. *)
Definition fmt_usize (n : nat) : str := fmt_digits 20 (N.of_nat n) [].

Definition encode_edge (e : LockEdge) : str :=
  fmt_usize (from e) ++ [space] ++ fmt_usize (to e)
  ++ from_option (fun scope => [space] ++ LockScope.as_str scope) [] (edge_scope e)
  ++ (if optional e then $" optional" else []).

(** [encode_edges]. *)
Definition encode_edges (m : LockModule) : str := join [newline] (map encode_edge (edges m)).

(** ** Reading *)

Definition lines (block : str) : list str := if is_empty block then [] else split newline block.

Definition decode_scope (fault : str -> LineFault) (scope : option str) : result LineFault (option LockScope.t) :=
  transpose ((fun scope => map_err (fun _ => fault scope) (LockScope.from_str scope)) <$> scope).

(** [LockModulePackage::new]. *)
Definition new_package (c : ArtifactCoord.t) (direct : option LockScope.t) : LockModulePackage :=
  {| package_coordinate := c; direct_scope := direct; package_scope := default LockScope.Compile direct;
     workspace_module := None; system_path := None; system_sha256 := None |}.

Definition package_coordinate_of (gav kind : option str) : option ArtifactCoord.t :=
  gav ← gav;
  '(group, artifact, version) ← split_reactor_gav gav;
  kind ← kind;
  let '(packaging, classifier) :=
    match split_once colon kind with
    | Some (packaging, classifier) => (packaging, Some classifier)
    | None => (kind, None)
    end in
  if is_some_and is_empty classifier then None
  else Some (ArtifactCoord.new group artifact version packaging classifier).

(** [decode_package]; [column i] is what the [i]-th call of the closure gives. *)
Definition decode_package (line : str) : result LineFault LockModulePackage :=
  let columns := split tab line in
  let column (i : nat) := opt_filter (fun value => negb (is_empty value)) (columns !! i) in
  coordinate ← ok_or (package_coordinate_of (column 0) (column 1)) PackageStart;
  direct ← decode_scope DirectScope (column 2);
  let package := new_package coordinate direct in
  scope ← decode_scope ScopeColumn (column 3);
  scope ← match scope with
          | Some scope => if bool_decide (scope = package_scope package) then Err RedundantScope else Ok scope
          | None => Ok (package_scope package)
          end;
  sha256 ← transpose ((fun digest => ok_or (lowercase_sha256 digest) SystemDigest) <$> column 6);
  if bool_decide (7 < length columns) then Err TooManyColumns
  else Ok {| package_coordinate := package_coordinate package; direct_scope := direct_scope package;
             package_scope := scope; workspace_module := column 4; system_path := column 5;
             system_sha256 := sha256 |}.

Definition read_index (field : str) : option nat :=
  opt_filter (fun _ => all_digits field) (N.to_nat <$> parse_u64 field).

(** The loop over the fields after the two indices. *)
Fixpoint edge_fields (line : str) (e : LockEdge) (fields : list str) : result LineFault LockEdge :=
  match fields with
  | [] => Ok e
  | field :: fields =>
    if optional e then Err (BadEdge line)
    else if bool_decide (field = $"optional") then
      edge_fields line {| from := from e; to := to e; edge_scope := edge_scope e; optional := true |} fields
    else
      match edge_scope e with
      | None =>
        scope ← decode_scope EdgeScope (Some field);
        edge_fields line {| from := from e; to := to e; edge_scope := scope; optional := optional e |} fields
      | Some _ => Err (BadEdge line)
      end
  end.

(** [decode_edge]. *)
Definition decode_edge (line : str) : result LineFault LockEdge :=
  match split space line with
  | from :: rest =>
    from ← ok_or (read_index from) (BadEdge line);
    match rest with
    | to :: fields =>
      to ← ok_or (read_index to) (BadEdge line);
      edge_fields line {| from := from; to := to; edge_scope := None; optional := false |} fields
    | [] => Err (BadEdge line)
    end
  | [] => Err (BadEdge line)
  end.

(** ** Modules *)

(** [RawModule]. *)
Record RawModule := {
  raw_path : str;
  raw_gav : str;
  raw_packaging : str;
  raw_packages : str;
  raw_edges : str;
  raw_parent_ranges : list ParentRange;
  raw_support_poms : str;
}.

(** The rows of [encode_platform] for a module. *)
Definition encode_module (m : LockModule) : RawModule :=
  {| raw_path := module_path m; raw_gav := Gav.display (module_gav m); raw_packaging := packaging m;
     raw_packages := encode_packages m; raw_edges := encode_edges m;
     raw_parent_ranges := parent_ranges m; raw_support_poms := join [newline] (module_support_poms m) |}.

(** [decode_module]. *)
Definition decode_module (raw : RawModule) : result LineFault LockModule :=
  packages ← try_map decode_package (lines (raw_packages raw));
  edges ← try_map decode_edge (lines (raw_edges raw));
  '(group, artifact, version) ← ok_or (split_reactor_gav (raw_gav raw)) (BadModuleGav (raw_gav raw));
  support ← try_map (fun coord => _ ← validate_support_pom_coord coord; Ok coord) (lines (raw_support_poms raw));
  Ok {| module_path := raw_path raw; module_gav := Gav.new group artifact version; packaging := raw_packaging raw;
        packages := packages; edges := edges; parent_ranges := raw_parent_ranges raw;
        module_support_poms := support |}.

(** * The text of a module reads back

    A module whose texts hold no separator is what its row decodes to. *)

Definition line_free (s : str) : Prop := tab ∉ s /\ newline ∉ s.

(** A text that fills a column. *)
Definition column_text (s : str) : Prop := s <> [] /\ line_free s.

Record coordinate_ok (c : ArtifactCoord.t) : Prop := {
  co_group : column_text (Gav.group (ArtifactCoord.gav c));
  co_group_colon : colon ∉ Gav.group (ArtifactCoord.gav c);
  co_artifact : column_text (Gav.artifact (ArtifactCoord.gav c));
  co_artifact_colon : colon ∉ Gav.artifact (ArtifactCoord.gav c);
  co_version : column_text (Gav.version (ArtifactCoord.gav c));
  co_extension : column_text (ArtifactCoord.extension c);
  co_extension_colon : colon ∉ ArtifactCoord.extension c;
  co_classifier : from_option column_text True (ArtifactCoord.classifier c);
}.

Record package_ok (p : LockModulePackage) : Prop := {
  pk_coordinate : coordinate_ok (package_coordinate p);
  pk_workspace : from_option column_text True (workspace_module p);
  pk_system : from_option column_text True (system_path p);
  pk_sha256 : from_option (fun h => is_sha256_hex h = true) True (system_sha256 p);
}.

(** ** Columns *)

Lemma line_free_app a b : line_free (a ++ b) <-> line_free a /\ line_free b.
Proof. unfold line_free. rewrite !not_elem_of_app. tauto. Qed.

Lemma rposition_spec {A} (p : A -> bool) l i :
  match rposition p l with Some last => last < i | None => True end -> from_option p false (l !! i) = false.
Proof.
  revert i. induction l as [|a l IH]; intros i Hi; [done|]. cbn in Hi.
  destruct i as [|i]; cbn.
  - destruct (rposition p l) as [j|]; [lia|]. destruct (p a); [lia|done].
  - apply IH. destruct (rposition p l) as [j|]; [lia|done].
Qed.

Lemma kept_column (l : list str) i :
  opt_filter (fun value => negb (is_empty value))
    (take (from_option S 0 (rposition (fun column => negb (is_empty column)) l)) l !! i)
  = opt_filter (fun value => negb (is_empty value)) (l !! i).
Proof.
  set (k := from_option S 0 _). destruct (decide (i < k)) as [Hi|Hi].
  - by rewrite lookup_take_lt.
  - rewrite lookup_take_ge by lia. pose proof (rposition_spec (fun c => negb (is_empty c)) l i) as Hr. cbn in Hr |- *.
    destruct (l !! i) as [c|]; [|done]. cbn in *. unfold k in Hi.
    destruct (rposition _ l) as [j|]; rewrite Hr; cbn in *; try done; lia.
Qed.

Lemma column_free c : column_text c -> Forall (fun p => tab ∉ p) [c] /\ newline ∉ c.
Proof. intros [_ [Ht Hn]]. by rewrite Forall_singleton. Qed.

Lemma sha_line_free h : is_sha256_hex h = true -> column_text h.
Proof.
  unfold is_sha256_hex. intros [E F]%andb_true_iff. apply Nat.eqb_eq in E. split; [by intros ->|].
  assert (forall c, (is_hexdigit c && negb (is_upper c)) = false -> c ∉ h) as Hf; [|by split; apply Hf].
  intros c Hc Hin. rewrite forallb_forall in F. apply list_elem_of_In, F in Hin. congruence.
Qed.

Lemma sha_lowercase h : is_sha256_hex h = true -> lowercase_sha256 h = Some h.
Proof.
  intros E. unfold lowercase_sha256. rewrite E. unfold is_sha256_hex in E. apply andb_true_iff in E as [El F].
  unfold from_str, normalize_hex. cbn [hex_len]. rewrite El. cbn [negb].
  assert (forallb is_hexdigit h = true) as ->.
  { apply forallb_forall. intros c Hc. rewrite forallb_forall in F. specialize (F c Hc). by apply andb_true_iff in F as [? _]. }
  cbn. f_equal. unfold to_ascii_lowercase. rewrite <-map_id. apply map_ext_in. intros c Hc.
  rewrite forallb_forall in F. specialize (F c Hc). apply andb_true_iff in F as [_ F].
  unfold lower_byte. by destruct (is_upper c).
Qed.

Section Package.
Context (p : LockModulePackage) (Hp : package_ok p).

Lemma scope_line_free s : column_text (LockScope.as_str s).
Proof. destruct s; (split; [done|]); split; by apply (bool_decide_unpack _). Qed.

Lemma opt_line_free o : from_option column_text True o -> line_free (default [] o).
Proof. destruct o as [c|]; cbn; [by intros [_ ?]|]. intros _. split; apply not_elem_of_nil. Qed.

Lemma columns_free : Forall line_free (package_columns p).
Proof.
  destruct Hp as [[] ? ? ?]. unfold package_columns, Gav.display, package_kind.
  assert (line_free $":") as Hc by (split; by apply (bool_decide_unpack _)).
  assert (line_free []) as Hn by (split; apply not_elem_of_nil).
  repeat (apply Forall_cons; split).
  - rewrite !line_free_app. split_and!; try done; [apply co_group0|apply co_artifact0|apply co_version0].
  - destruct (ArtifactCoord.classifier _) as [k|]; [|apply co_extension0].
    rewrite !line_free_app. split_and!; [apply co_extension0|done|apply co_classifier0].
  - destruct (direct_scope p); [apply scope_line_free|done].
  - case_bool_decide; [done|apply scope_line_free].
  - by apply opt_line_free.
  - by apply opt_line_free.
  - apply opt_line_free. destruct (system_sha256 p); [by apply sha_line_free|done].
  - apply Forall_nil. done.
Qed.

Lemma kept_nonempty : exists k, from_option S 0 (rposition (fun column => negb (is_empty column)) (package_columns p)) = S k.
Proof.
  destruct (rposition _ _) as [k|] eqn:E; [by exists k|].
  pose proof (rposition_spec (fun column => negb (is_empty column)) (package_columns p) 0) as Hr.
  rewrite E in Hr. specialize (Hr I). cbn in Hr. unfold Gav.display, is_empty in Hr.
  destruct (Gav.group _) eqn:Eg; [|done]. by destruct (co_group _ (pk_coordinate _ Hp)).
Qed.

Lemma package_split :
  split tab (encode_package p) = take (from_option S 0 (rposition (fun column => negb (is_empty column)) (package_columns p))) (package_columns p).
Proof.
  unfold encode_package. destruct kept_nonempty as [k ->]. apply split_join; [done|].
  apply Forall_take. eapply Forall_impl; [apply columns_free|]. by intros ? [? _].
Qed.

End Package.

Lemma gav_back g : 
  Gav.group g <> [] -> colon ∉ Gav.group g -> Gav.artifact g <> [] -> colon ∉ Gav.artifact g -> Gav.version g <> [] ->
  split_reactor_gav (Gav.display g) = Some (Gav.group g, Gav.artifact g, Gav.version g).
Proof.
  destruct g as [g a v]. cbn. intros Hg Cg Ha Ca Hv. unfold split_reactor_gav, Gav.display.
  cbn [Gav.group Gav.artifact Gav.version].
  rewrite (proj2 (split_once_Some colon _ g (a ++ colon :: v))) by done. cbn [mbind option_bind].
  rewrite (proj2 (split_once_Some colon _ a v)) by done. cbn [mbind option_bind]. unfold is_empty.
  by rewrite !bool_decide_eq_false_2 by done.
Qed.

Lemma coordinate_back c : coordinate_ok c ->
  package_coordinate_of (Some (Gav.display (ArtifactCoord.gav c))) (Some (package_kind c)) = Some c.
Proof.
  intros [[Hg _] Cg [Ha _] Ca [Hv _] _ Ce Hk]. unfold package_coordinate_of. cbn [mbind option_bind].
  rewrite gav_back by done. cbn [mbind option_bind]. destruct c as [[g a v] e [k|]]; cbn in *.
  - rewrite (proj2 (split_once_Some colon _ e k)) by done. destruct Hk as [Hk _]. cbn. unfold is_empty.
    rewrite bool_decide_eq_false_2 by done. unfold ArtifactCoord.new, ArtifactCoord.of_gav, Gav.new. cbn. unfold is_empty.
    by rewrite bool_decide_eq_false_2 by done.
  - by rewrite split_once_None by done.
Qed.

Lemma display_nonempty c : coordinate_ok c ->
  Gav.display (ArtifactCoord.gav c) <> [] /\ package_kind c <> [].
Proof.
  intros [[Hg _] _ _ _ _ [He _] _ _]. unfold Gav.display, package_kind. split.
  - by destruct (Gav.group _).
  - destruct (ArtifactCoord.extension c), (ArtifactCoord.classifier c); done.
Qed.

Lemma opt_column o : from_option column_text True o ->
  opt_filter (fun value => negb (is_empty value)) (Some (default [] o)) = o.
Proof. destruct o as [c|]; cbn; [|done]. intros [Hc _]. unfold is_empty. by rewrite bool_decide_eq_false_2. Qed.

Lemma scope_back fault (o : option LockScope.t) :
  decode_scope fault (opt_filter (fun value => negb (is_empty value)) (Some (from_option LockScope.as_str [] o))) = Ok o.
Proof. by destruct o as [[]|]. Qed.

(** A package reads back from its line. *)
Lemma package_roundtrip p : package_ok p -> decode_package (encode_package p) = Ok p.
Proof.
  intros Hp. unfold decode_package. rewrite package_split by done. rewrite !kept_column.
  assert (length (take (from_option S 0 (rposition (fun column => negb (is_empty column)) (package_columns p))) (package_columns p)) <= 7) as Hl
    by (rewrite length_take; cbn; lia).
  rewrite (bool_decide_eq_false_2 (7 < _)) by lia. clear Hl.
  destruct (display_nonempty _ (pk_coordinate _ Hp)) as [Hd Hk]. cbn [package_columns lookup list_lookup].
  cbn [opt_filter]. 
  assert (forall s : str, s <> [] -> is_empty s = false) as Hne by (intros s ?; by apply bool_decide_eq_false_2).
  rewrite (Hne _ Hd), (Hne _ Hk). cbn [negb].
  rewrite coordinate_back by apply Hp. cbn [ok_or mbind result_bind].
  pose proof (scope_back DirectScope (direct_scope p)) as Es. cbn [opt_filter] in Es. rewrite Es. cbn [mbind result_bind]. clear Es.
  pose proof (opt_column _ (pk_workspace _ Hp)) as Ew. pose proof (opt_column _ (pk_system _ Hp)) as Ey.
  assert (from_option column_text True (system_sha256 p)) as Hs.
  { pose proof (pk_sha256 _ Hp). destruct (system_sha256 p); [by apply sha_line_free|done]. }
  pose proof (opt_column _ Hs) as Eh. cbn [opt_filter] in Ew, Ey, Eh. rewrite Ew, Ey, Eh.
  assert (transpose ((fun digest => ok_or (lowercase_sha256 digest) SystemDigest) <$> system_sha256 p) = Ok (system_sha256 p)) as ->.
  { pose proof (pk_sha256 _ Hp) as Hx. destruct (system_sha256 p) as [h|]; [|done]. cbn in *. by rewrite sha_lowercase. }
  case_bool_decide as E; [|pose proof (scope_back ScopeColumn (Some (package_scope p))) as Es; cbn [opt_filter from_option] in Es; rewrite Es].
  - cbn. destruct p. cbn in *. by subst.
  - cbn [mbind result_bind new_package package_scope]. rewrite bool_decide_eq_false_2 by congruence. by destruct p.
Qed.

(** ** Edges *)

Definition fits_usize (n : nat) : Prop := (N.of_nat n < 2 ^ 64)%N.
Definition edge_fits (e : LockEdge) : Prop := fits_usize (from e) /\ fits_usize (to e).

Lemma fold_fmt_digits fuel n acc :
  (n < 10 ^ N.of_nat fuel)%N ->
  foldl (fun acc c => (10 * acc + digit_value c)%N) 0%N (fmt_digits fuel n acc)
  = foldl (fun acc c => (10 * acc + digit_value c)%N) n acc.
Proof.
  revert n acc. induction fuel as [|fuel IH]; intros n acc Hf; cbn [fmt_digits].
  - cbn in Hf. by replace n with 0%N by lia.
  - assert (n mod 10 < 10)%N as Hd by (apply N.mod_lt; lia).
    apply digit_byte_spec in Hd as [_ Hd2]. pose proof (N.div_mod n 10 ltac:(lia)) as Hdm.
    destruct (N.ltb_spec n 10) as [Hlt|Hge].
    + cbn [foldl]. by rewrite Hd2, (N.mod_small n) by done.
    + rewrite IH; [cbn [foldl]; rewrite Hd2; f_equal; lia|].
      rewrite Nat2N.inj_succ, N.pow_succ_r' in Hf. apply N.Div0.div_lt_upper_bound. lia.
Qed.

Lemma fmt_usize_digits n : all_digits (fmt_usize n) = true.
Proof. by apply fmt_digits_digits. Qed.

Lemma fmt_usize_nonempty n : fmt_usize n <> [].
Proof.
  unfold fmt_usize. change 20 with (S 19). generalize 19 as fuel. intros fuel. cbn [fmt_digits].
  destruct (_ <? 10)%N; [done|]. by apply fmt_digits_nonempty.
Qed.

Lemma read_fmt_index n : fits_usize n -> read_index (fmt_usize n) = Some n.
Proof.
  intros Hn. unfold read_index, parse_u64. pose proof (fmt_usize_digits n) as Hd. pose proof (fmt_usize_nonempty n) as Hne.
  assert (match fmt_usize n with "+"%char :: rest => rest | _ => fmt_usize n end = fmt_usize n) as ->.
  { destruct (fmt_usize n) as [|c s] eqn:E; [done|]. cbn in Hd. apply andb_true_iff in Hd as [Hc _].
    by destruct c as [[] [] [] [] [] [] [] []]. }
  rewrite Hd, bool_decide_eq_false_2 by done. cbn [orb negb].
  assert (foldl (fun acc c => (10 * acc + digit_value c)%N) 0%N (fmt_usize n) = N.of_nat n) as ->.
  { unfold fmt_usize. rewrite fold_fmt_digits; [done|]. unfold fits_usize in Hn. etransitivity; [exact Hn|]. by vm_compute. }
  unfold fits_usize in Hn. rewrite (proj2 (N.ltb_lt _ _) Hn). cbn [fmap option_fmap option_map opt_filter]. by rewrite Nat2N.id.
Qed.

Definition edge_words (e : LockEdge) : list str :=
  fmt_usize (from e) :: fmt_usize (to e)
  :: option_list (LockScope.as_str <$> edge_scope e) ++ (if optional e then [$"optional"] else []).

Lemma encode_edge_words e : encode_edge e = join [space] (edge_words e).
Proof. unfold encode_edge, edge_words. by destruct (edge_scope e) as [s|], (optional e); cbn; rewrite <-?app_assoc, ?app_nil_r. Qed.

Lemma all_digits_free s c : all_digits s = true -> is_digit c = false -> c ∉ s.
Proof. intros Hd Hc Hin. unfold all_digits in Hd. rewrite forallb_forall in Hd. apply list_elem_of_In, Hd in Hin. congruence. Qed.

Lemma edge_words_free e c : is_digit c = false -> c = space \/ c = newline ->
  Forall (fun w => c ∉ w) (edge_words e).
Proof.
  intros Hd Hc. unfold edge_words. repeat (apply Forall_cons; split; [by apply all_digits_free; [apply fmt_usize_digits|]|]).
  apply Forall_app. split.
  - destruct (edge_scope e) as [s|]; cbn; [|constructor]. apply Forall_singleton.
    destruct Hc as [->| ->]; destruct s; by apply (bool_decide_unpack _).
  - destruct (optional e); [|constructor]. apply Forall_singleton. destruct Hc as [->| ->]; by apply (bool_decide_unpack _).
Qed.

(** An edge reads back from its line. *)
Lemma edge_roundtrip e : edge_fits e -> decode_edge (encode_edge e) = Ok e.
Proof.
  intros [Hf Ht]. unfold decode_edge. rewrite encode_edge_words, split_join; [|done|by apply edge_words_free; [|left]].
  unfold edge_words. rewrite !read_fmt_index by done. cbn [ok_or mbind result_bind].
  destruct e as [f t [[]|] []]; reflexivity.
Qed.

(** ** Blocks of lines *)

Lemma lines_join l : Forall (fun s => s <> [] /\ newline ∉ s) l -> lines (join [newline] l) = l.
Proof.
  intros Hl. unfold lines, is_empty. destruct l as [|a l]; [done|].
  rewrite bool_decide_eq_false_2.
  - apply split_join; [done|]. eapply Forall_impl; [exact Hl|]. by intros s [_ ?].
  - apply Forall_cons in Hl as [[Ha _] _]. destruct a as [|c a]; [done|]. by destruct l.
Qed.

Lemma try_map_roundtrip {A E} (dec : str -> result E A) (enc : A -> str) l :
  (forall a, a ∈ l -> dec (enc a) = Ok a) -> try_map dec (map enc l) = Ok l.
Proof.
  induction l as [|a l IH]; intros H; [done|]. cbn. rewrite H by left. cbn. rewrite IH; [done|].
  intros b Hb. apply H. by right.
Qed.

Lemma join_elem (c : ascii) sep l : c ∈ join sep l -> c ∈ sep \/ exists s, s ∈ l /\ c ∈ s.
Proof.
  induction l as [|a [|b l] IH]; intros Hc; [by apply elem_of_nil in Hc|by right; exists a; split; [left|]|].
  rewrite join_cons in Hc. apply elem_of_app in Hc as [Hc|Hc]; [right; exists a; split; [left|done]|].
  apply elem_of_app in Hc as [Hc|Hc]; [by left|]. destruct (IH Hc) as [?|(s & Hs & ?)]; [by left|].
  right. exists s. split; [by right|done].
Qed.

Lemma package_line p : package_ok p -> encode_package p <> [] /\ newline ∉ encode_package p.
Proof.
  intros Hp. split.
  - intros E. pose proof (package_roundtrip p Hp) as Hr. rewrite E in Hr. done.
  - unfold encode_package. intros [Hin|(s & Hs & Hc)]%join_elem; [by apply list_elem_of_singleton in Hin|].
    pose proof (columns_free p Hp) as Hf. rewrite Forall_forall in Hf.
    apply list_elem_of_lookup in Hs as (i & Hs). apply lookup_take_Some in Hs as [Hs _].
    destruct (Hf s) as [_ Hn]; [by eapply list_elem_of_lookup_2|done].
Qed.

Lemma edge_line e : encode_edge e <> [] /\ newline ∉ encode_edge e.
Proof.
  rewrite encode_edge_words. split.
  - unfold edge_words. pose proof (fmt_usize_nonempty (from e)). by destruct (fmt_usize (from e)).
  - intros [Hin|(s & Hs & Hc)]%join_elem; [by apply list_elem_of_singleton in Hin|].
    pose proof (edge_words_free e newline eq_refl (or_intror eq_refl)) as Hf. rewrite Forall_forall in Hf. by apply (Hf s).
Qed.

(** ** Modules *)

Lemma support_coord_line coord :
  validate_support_pom_coord coord = Ok tt -> coord <> [] /\ newline ∉ coord /\ tab ∉ coord.
Proof.
  unfold validate_support_pom_coord. destruct (split_support_pom_coord coord) as [[[g a] v]|] eqn:E; [|done].
  intros Ho%map_err_Ok. apply bind_Ok in Ho as ([] & Hg & Ho). apply bind_Ok in Ho as ([] & Ha & Hv).
  apply validate_Ok in Hg, Ha, Hv. unfold split_support_pom_coord in E.
  destruct (split ":"%char coord) as [|g' [|a' [|v' [|]]]] eqn:Es; try done.
  destruct (negb _ && negb _ && negb _) eqn:En; [|done].
  injection E as -> -> ->. pose proof (join_split colon coord) as Ej. unfold colon in Ej. rewrite Es in Ej. cbn [join] in Ej. subst coord.
  split; [by destruct g|].
  assert (forall c, is_graphic c = false -> c <> colon -> c ∉ g ++ [colon] ++ a ++ [colon] ++ v) as Hf.
  { intros c Hc Hn. rewrite !not_elem_of_app, !not_elem_of_cons.
    split_and!; try done; try apply not_elem_of_nil; eapply ok_free; eauto. }
  by split; apply Hf.
Qed.

Record module_text_ok (m : LockModule) : Prop := {
  mt_group : Gav.group (module_gav m) <> [] /\ colon ∉ Gav.group (module_gav m);
  mt_artifact : Gav.artifact (module_gav m) <> [] /\ colon ∉ Gav.artifact (module_gav m);
  mt_version : Gav.version (module_gav m) <> [];
  mt_packages : Forall package_ok (packages m);
  mt_edges : Forall edge_fits (edges m);
  mt_support : Forall (fun c => validate_support_pom_coord c = Ok tt) (module_support_poms m);
}.

Lemma module_roundtrip m : module_text_ok m -> decode_module (encode_module m) = Ok m.
Proof.
  intros [[Hg Cg] [Ha Ca] Hv Hp He Hs]. unfold decode_module, encode_module. cbn [raw_packages raw_edges raw_gav raw_support_poms raw_path raw_packaging raw_parent_ranges].
  unfold encode_packages, encode_edges. rewrite !lines_join.
  - rewrite (try_map_roundtrip decode_package encode_package) by (intros p Hin; apply package_roundtrip; rewrite Forall_forall in Hp; auto). cbn [mbind result_bind].
    rewrite (try_map_roundtrip decode_edge encode_edge) by (intros e Hin; apply edge_roundtrip; rewrite Forall_forall in He; auto). cbn [mbind result_bind].
    rewrite gav_back by done. cbn [ok_or mbind result_bind].
    assert (try_map (fun coord => _ ← validate_support_pom_coord coord; Ok coord) (module_support_poms m)
      = Ok (module_support_poms m)) as ->.
    { clear -Hs. induction (module_support_poms m) as [|c l IH]; [done|]. apply Forall_cons in Hs as [Hc Hs].
      cbn. rewrite Hc. cbn. by rewrite IH. }
    cbn. by destruct m as [? [] ? ? ? ? ?].
  - apply Forall_forall. intros s (p & -> & Hin)%list_elem_of_fmap. apply package_line. rewrite Forall_forall in Hp. auto.
  - apply Forall_forall. intros s (e & -> & Hin)%list_elem_of_fmap. apply edge_line.
  - eapply Forall_impl; [exact Hs|]. intros c Hc%support_coord_line. naive_solver.
Qed.
