(* ===== verification/Addr.v ===== *)
(** * Internet addresses ([rv-repo/src/transport/guard.rs])

    Which addresses the screen of the transport lets a connection reach.  The code
    spells the ranges out on octets and segments; here they are compared with the
    registry they come from, a table of address blocks. *)

From Stdlib Require Import Ascii String Lia ZArith.
From stdpp Require Import base numbers list.
From S2P Require Import Prelude.

#[local] Open Scope N_scope.

(** [Ipv4Addr] and [Ipv6Addr] as their bits, and [IpAddr]. *)
Inductive IpAddr := V4 (bits : N) | V6 (bits : N).

#[export] Instance ip_addr_eq_dec : EqDecision IpAddr.
Proof. solve_decision. Defined.

Definition width_of (a : IpAddr) : N := match a with V4 _ => 32 | V6 _ => 128 end.
Definition bits_of (a : IpAddr) : N := match a with V4 b | V6 b => b end.

(** An address as wide as it can be. *)
Definition addr_ok (a : IpAddr) : Prop := bits_of a < 2 ^ width_of a.

(** [Ipv4Addr::octets] and [Ipv6Addr::segments], the [i]th from the left. *)
Definition octet (b i : N) : N := b / 2 ^ (24 - 8 * i) mod 2 ^ 8.
Definition segment (b i : N) : N := b / 2 ^ (112 - 16 * i) mod 2 ^ 16.

(** ** Predicates of the standard library *)

Module Ipv4.
Definition is_loopback (b : N) : bool := octet b 0 =? 127.
Definition is_private (b : N) : bool :=
  (octet b 0 =? 10)
  || ((octet b 0 =? 172) && (16 <=? octet b 1) && (octet b 1 <=? 31))
  || ((octet b 0 =? 192) && (octet b 1 =? 168)).
Definition is_link_local (b : N) : bool := (octet b 0 =? 169) && (octet b 1 =? 254).
Definition is_broadcast (b : N) : bool := b =? 2 ^ 32 - 1.
Definition is_multicast (b : N) : bool := (224 <=? octet b 0) && (octet b 0 <=? 239).
Definition is_documentation (b : N) : bool :=
  ((octet b 0 =? 192) && (octet b 1 =? 0) && (octet b 2 =? 2))
  || ((octet b 0 =? 198) && (octet b 1 =? 51) && (octet b 2 =? 100))
  || ((octet b 0 =? 203) && (octet b 1 =? 0) && (octet b 2 =? 113)).
End Ipv4.

Module Ipv6.
Definition is_loopback (b : N) : bool := b =? 1.
Definition is_unspecified (b : N) : bool := b =? 0.
Definition is_multicast (b : N) : bool := N.land (segment b 0) 0xff00 =? 0xff00.
End Ipv6.

Definition is_loopback (a : IpAddr) : bool :=
  match a with V4 b => Ipv4.is_loopback b | V6 b => Ipv6.is_loopback b end.

(** ** The screen *)

Definition is_globally_routable_v4 (b : N) : bool :=
  let first := octet b 0 in
  let second := octet b 1 in
  let third := octet b 2 in
  negb (Ipv4.is_loopback b
    || Ipv4.is_private b
    || Ipv4.is_link_local b
    || Ipv4.is_broadcast b
    || Ipv4.is_multicast b
    || Ipv4.is_documentation b
    || (first =? 0)
    || ((first =? 192) && (second =? 0) && (third =? 0))
    || ((first =? 192) && (second =? 88) && (third =? 99))
    || ((first =? 100) && ((64 <=? second) && (second <? 128)))
    || ((first =? 198) && (N.land second 0xfe =? 18))
    || (240 <=? first)).

(** The address in an IPv4-mapped, IPv4-compatible or NAT64 address. *)
Definition embedded_ipv4 (b : N) : option N :=
  let zeros := (segment b 0 =? 0) && (segment b 1 =? 0) && (segment b 2 =? 0) && (segment b 3 =? 0)
               && (segment b 4 =? 0) && ((segment b 5 =? 0) || (segment b 5 =? 0xffff)) in
  let nat64 := (segment b 0 =? 0x64) && (segment b 1 =? 0xff9b) && (segment b 2 =? 0) && (segment b 3 =? 0)
               && (segment b 4 =? 0) && (segment b 5 =? 0) in
  if zeros || nat64 then Some (b mod 2 ^ 32) else None.

Definition is_globally_routable_v6 (b : N) : bool :=
  if Ipv6.is_loopback b || Ipv6.is_unspecified b || Ipv6.is_multicast b then false
  else
    match embedded_ipv4 b with
    | Some mapped => is_globally_routable_v4 mapped
    | None =>
      let first := segment b 0 in
      let second := segment b 1 in
      let third := segment b 2 in
      let fourth := segment b 3 in
      negb ((N.land first 0xfe00 =? 0xfc00)
        || (N.land first 0xffc0 =? 0xfe80)
        || (N.land first 0xffc0 =? 0xfec0)
        || ((first =? 0x100) && (second =? 0) && (third =? 0) && (fourth =? 0))
        || ((first =? 0x100) && (second =? 0) && (third =? 0) && (fourth =? 1))
        || ((first =? 0x2001) && (second <? 0x200))
        || ((first =? 0x2001) && (second =? 0xdb8))
        || ((first =? 0x3fff) && (second <=? 0xfff))
        || (first =? 0x2002)
        || ((first =? 0x64) && (second =? 0xff9b) && (third =? 1))
        || (first =? 0x5f00))
    end.

Definition is_globally_routable (a : IpAddr) : bool :=
  match a with V4 b => is_globally_routable_v4 b | V6 b => is_globally_routable_v6 b end.

(** ** The registry *)

(** A block of addresses of [width] bits: those that share the first [length] of them
    with [base]. *)
Definition in_block (width b base length : N) : Prop := b / 2 ^ (width - length) = base / 2 ^ (width - length).

Definition v4 (a b c d : N) : N := a * 2 ^ 24 + b * 2 ^ 16 + c * 2 ^ 8 + d.
Definition v6 (a b c d : N) : N := a * 2 ^ 112 + b * 2 ^ 96 + c * 2 ^ 80 + d * 2 ^ 64.

(** The special-purpose blocks of IPv4 ... *)
Definition special_v4 : list (N * N) := [
  (v4 0 0 0 0, 8); (v4 10 0 0 0, 8); (v4 100 64 0 0, 10); (v4 127 0 0 0, 8); (v4 169 254 0 0, 16);
  (v4 172 16 0 0, 12); (v4 192 0 0 0, 24); (v4 192 0 2 0, 24); (v4 192 88 99 0, 24); (v4 192 168 0 0, 16);
  (v4 198 18 0 0, 15); (v4 198 51 100 0, 24); (v4 203 0 113 0, 24); (v4 224 0 0 0, 4); (v4 240 0 0 0, 4)].

(** ... and of IPv6, those that hold an IPv4 address apart. *)
Definition special_v6 : list (N * N) := [
  (v6 0x100 0 0 0, 64); (v6 0x100 0 0 1, 64); (v6 0x64 0xff9b 1 0, 48); (v6 0x2001 0 0 0, 23);
  (v6 0x2001 0xdb8 0 0, 32); (v6 0x2002 0 0 0, 16); (v6 0x3fff 0 0 0, 20); (v6 0x5f00 0 0 0, 16);
  (v6 0xfc00 0 0 0, 7); (v6 0xfe80 0 0 0, 10); (v6 0xfec0 0 0 0, 10); (v6 0xff00 0 0 0, 8); (0, 128); (1, 128)].

Definition embedding_v6 : list (N * N) := [(0, 96); (0xffff * 2 ^ 32, 96); (v6 0x64 0xff9b 0 0, 96)].

(** An address no special-purpose block holds, nor one that the address embeds. *)
Definition public_v4 (b : N) : Prop := forall base len, (base, len) ∈ special_v4 -> ~ in_block 32 b base len.

Definition public_v6 (b : N) : Prop :=
  (forall base len, (base, len) ∈ special_v6 -> ~ in_block 128 b base len) /\
  (forall base len, (base, len) ∈ embedding_v6 -> in_block 128 b base len -> public_v4 (b mod 2 ^ 32)).

Definition public (a : IpAddr) : Prop := match a with V4 b => public_v4 b | V6 b => public_v6 b end.

(** ** Blocks in octets and segments *)

Ltac btrue := repeat rewrite ?orb_true_iff, ?andb_true_iff; rewrite ?N.eqb_eq, ?N.leb_le, ?N.ltb_lt.

(** Masking off the low bits. *)
Lemma land_high x j k : x < 2 ^ (j + k) -> N.land x (N.ones k * 2 ^ j) = x / 2 ^ j * 2 ^ j.
Proof.
  intros Hx. rewrite <-N.shiftl_mul_pow2, <-N.shiftr_div_pow2, <-N.shiftl_mul_pow2.
  apply N.bits_inj. intros i. rewrite N.land_spec. destruct (N.lt_ge_cases i j) as [Hi|Hi].
  - by rewrite !N.shiftl_spec_low, andb_false_r.
  - rewrite !N.shiftl_spec_high, N.shiftr_spec by lia. replace (i - j + j) with i by lia.
    destruct (N.lt_ge_cases (i - j) k) as [Hk|Hk].
    + by rewrite N.ones_spec_low, andb_true_r.
    + rewrite N.ones_spec_high, andb_false_r by done. symmetry.
      destruct (decide (x = 0)) as [-> |Hx0]; [apply N.bits_0|]. apply N.bits_above_log2.
      apply N.lt_le_trans with (j + k); [|lia]. apply N.log2_lt_pow2; lia.
Qed.

(** The leading part of a number, in its leading digits. *)
Lemma div_split b i j : j <= i -> b / 2 ^ j = b / 2 ^ i * 2 ^ (i - j) + b / 2 ^ j mod 2 ^ (i - j).
Proof.
  intros Hij. pose proof (N.div_mod (b / 2 ^ j) (2 ^ (i - j))) as E. rewrite N.Div0.div_div in E.
  replace (2 ^ j * 2 ^ (i - j)) with (2 ^ i) in E by (rewrite <-N.pow_add_r; f_equal; lia).
  rewrite N.mul_comm. apply E. apply N.pow_nonzero. lia.
Qed.

Section V4.
Context (b : N) (Hb : b < 2 ^ 32).

Lemma octets_leading :
  b / 2 ^ 24 = octet b 0 /\ b / 2 ^ 16 = octet b 0 * 2 ^ 8 + octet b 1 /\
  b / 2 ^ 8 = octet b 0 * 2 ^ 16 + octet b 1 * 2 ^ 8 + octet b 2 /\
  octet b 0 < 2 ^ 8 /\ octet b 1 < 2 ^ 8 /\ octet b 2 < 2 ^ 8.
Proof.
  unfold octet. change (24 - 8 * 0) with 24. change (24 - 8 * 1) with 16. change (24 - 8 * 2) with 8.
  assert (b / 2 ^ 24 = b / 2 ^ 24 mod 2 ^ 8) as E0.
  { symmetry. apply N.mod_small. apply N.Div0.div_lt_upper_bound. rewrite <-N.pow_add_r. done. }
  pose proof (div_split b 24 16 ltac:(done)) as E1. pose proof (div_split b 16 8 ltac:(done)) as E2.
  change (24 - 16) with 8 in E1. change (16 - 8) with 8 in E2.
  split_and!; try (apply N.mod_lt; done); [done|by rewrite <-E0|]. rewrite E2, E1 at 1. rewrite <-E0. lia.
Qed.

(** A block whose length is not at an octet: [i] more bits, of the octet [o]. *)
Lemma leading_part j i o x : b / 2 ^ j = x * 2 ^ 8 + o -> o < 2 ^ 8 -> i <= 8 -> b / 2 ^ (j + i) = x * 2 ^ (8 - i) + o / 2 ^ i.
Proof.
  intros E Ho Hi. rewrite N.pow_add_r, <-N.Div0.div_div, E.
  replace (2 ^ 8) with (2 ^ (8 - i) * 2 ^ i) by (rewrite <-N.pow_add_r; f_equal; lia).
  rewrite N.mul_assoc, N.add_comm, N.div_add by (apply N.pow_nonzero; lia). lia.
Qed.

#[local] Ltac Zify.zify_post_hook ::= Z.to_euclidean_division_equations.

(** The blocks of the table, in octets. *)
Ltac block j D :=
  unfold in_block;
  match goal with |- b / 2 ^ ?e = ?c / 2 ^ ?e <-> _ =>
    change e with j; rewrite D; let v := eval vm_compute in (c / 2 ^ j) in change (c / 2 ^ j) with v end;
  change (2 ^ 8) with 256 in *; change (2 ^ 16) with 65536 in *.

Lemma blocks_v4 :
  let a := octet b 0 in let c := octet b 1 in let d := octet b 2 in
  (forall x, x < 256 -> in_block 32 b (v4 x 0 0 0) 8 <-> a = x) /\
  (in_block 32 b (v4 100 64 0 0) 10 <-> a = 100 /\ 64 <= c < 128) /\
  (in_block 32 b (v4 169 254 0 0) 16 <-> a = 169 /\ c = 254) /\
  (in_block 32 b (v4 172 16 0 0) 12 <-> a = 172 /\ 16 <= c <= 31) /\
  (in_block 32 b (v4 192 0 0 0) 24 <-> a = 192 /\ c = 0 /\ d = 0) /\
  (in_block 32 b (v4 192 0 2 0) 24 <-> a = 192 /\ c = 0 /\ d = 2) /\
  (in_block 32 b (v4 192 88 99 0) 24 <-> a = 192 /\ c = 88 /\ d = 99) /\
  (in_block 32 b (v4 192 168 0 0) 16 <-> a = 192 /\ c = 168) /\
  (in_block 32 b (v4 198 18 0 0) 15 <-> a = 198 /\ c / 2 = 9) /\
  (in_block 32 b (v4 198 51 100 0) 24 <-> a = 198 /\ c = 51 /\ d = 100) /\
  (in_block 32 b (v4 203 0 113 0) 24 <-> a = 203 /\ c = 0 /\ d = 113) /\
  (in_block 32 b (v4 224 0 0 0) 4 <-> 224 <= a <= 239) /\
  (in_block 32 b (v4 240 0 0 0) 4 <-> 240 <= a).
Proof.
  cbv zeta. destruct octets_leading as (D24 & D16 & D8 & Ha & Hc & Hd).
  pose proof (leading_part 16 4 _ _ D16 Hc ltac:(done)) as D20. pose proof (leading_part 16 6 _ _ D16 Hc ltac:(done)) as D22.
  pose proof (leading_part 16 1 _ _ D16 Hc ltac:(done)) as D17. pose proof (leading_part 24 4 (octet b 0) 0 D24 Ha ltac:(done)) as D28.
  change (16 + 4) with 20 in D20. change (16 + 6) with 22 in D22. change (16 + 1) with 17 in D17. change (24 + 4) with 28 in D28.
  change (2 ^ (8 - 4)) with 16 in *. change (2 ^ (8 - 6)) with 4 in *. change (2 ^ (8 - 1)) with 128 in *.
  change (2 ^ 4) with 16 in *. change (2 ^ 6) with 64 in *. change (2 ^ 1) with 2 in *.
  split_and!.
  - intros x Hx. unfold in_block. change (32 - 8) with 24. rewrite D24. unfold v4. rewrite !N.mul_0_l, !N.add_0_r, N.div_mul; done.
  - block 22 D22. lia.
  - block 16 D16. lia.
  - block 20 D20. lia.
  - block 8 D8. lia.
  - block 8 D8. lia.
  - block 8 D8. lia.
  - block 16 D16. lia.
  - block 17 D17. lia.
  - block 8 D8. lia.
  - block 8 D8. lia.
  - block 28 D28. lia.
  - block 28 D28. lia.
Qed.

#[local] Ltac Zify.zify_post_hook ::= idtac.

Lemma public_v4_octets :
  public_v4 b <->
  let a := octet b 0 in let c := octet b 1 in let d := octet b 2 in
  a <> 0 /\ a <> 10 /\ ~ (a = 100 /\ 64 <= c < 128) /\ a <> 127 /\ ~ (a = 169 /\ c = 254) /\
  ~ (a = 172 /\ 16 <= c <= 31) /\ ~ (a = 192 /\ c = 0 /\ d = 0) /\ ~ (a = 192 /\ c = 0 /\ d = 2) /\
  ~ (a = 192 /\ c = 88 /\ d = 99) /\ ~ (a = 192 /\ c = 168) /\ ~ (a = 198 /\ c / 2 = 9) /\
  ~ (a = 198 /\ c = 51 /\ d = 100) /\ ~ (a = 203 /\ c = 0 /\ d = 113) /\ ~ (224 <= a <= 239) /\ ~ (240 <= a).
Proof.
  assert (public_v4 b <-> Forall (fun x => ~ in_block 32 b x.1 x.2) special_v4) as ->.
  { rewrite Forall_forall. split; [intros Hp [base len] Hx; exact (Hp base len Hx)|intros Hp base len Hx; exact (Hp (base, len) Hx)]. }
  destruct blocks_v4 as (B8 & B1 & B2 & B3 & B4 & B5 & B6 & B7 & B9 & B10 & B11 & B12 & B13).
  unfold special_v4. rewrite !Forall_cons, Forall_nil. cbn [fst snd].
  rewrite B1, B2, B3, B4, B5, B6, B7, B9, B10, B11, B12, B13, !B8 by done. cbv zeta. tauto.
Qed.

(** The tests of the code, block by block. *)
Lemma tests_v4 :
  let a := octet b 0 in let c := octet b 1 in let d := octet b 2 in
  (Ipv4.is_loopback b = true <-> a = 127) /\
  (Ipv4.is_private b = true <-> a = 10 \/ (a = 172 /\ 16 <= c <= 31) \/ (a = 192 /\ c = 168)) /\
  (Ipv4.is_link_local b = true <-> a = 169 /\ c = 254) /\
  (Ipv4.is_broadcast b = true -> 240 <= a) /\
  (Ipv4.is_multicast b = true <-> 224 <= a <= 239) /\
  (Ipv4.is_documentation b = true <->
    (a = 192 /\ c = 0 /\ d = 2) \/ (a = 198 /\ c = 51 /\ d = 100) \/ (a = 203 /\ c = 0 /\ d = 113)) /\
  ((a =? 0) = true <-> a = 0) /\
  (((a =? 192) && (c =? 0) && (d =? 0)) = true <-> a = 192 /\ c = 0 /\ d = 0) /\
  (((a =? 192) && (c =? 88) && (d =? 99)) = true <-> a = 192 /\ c = 88 /\ d = 99) /\
  (((a =? 100) && ((64 <=? c) && (c <? 128))) = true <-> a = 100 /\ 64 <= c < 128) /\
  (((a =? 198) && (N.land c 0xfe =? 18)) = true <-> a = 198 /\ c / 2 = 9) /\
  ((240 <=? a) = true <-> 240 <= a).
Proof.
  destruct octets_leading as (_ & _ & _ & _ & Hc & _). cbv zeta.
  assert (Ipv4.is_broadcast b = true -> 240 <= octet b 0) as Htop.
  { unfold Ipv4.is_broadcast. intros E%N.eqb_eq. rewrite E. by vm_compute. }
  unfold Ipv4.is_loopback, Ipv4.is_private, Ipv4.is_link_local, Ipv4.is_multicast, Ipv4.is_documentation.
  assert (N.land (octet b 1) 0xfe = octet b 1 / 2 * 2) as -> by exact (land_high (octet b 1) 1 7 Hc).
  split_and!; [| | |exact Htop|..]; btrue; clear; lia.
Qed.

Lemma routable_v4 : is_globally_routable_v4 b = true <-> public_v4 b.
Proof.
  rewrite public_v4_octets.
  destruct tests_v4 as (T1 & T2 & T3 & T4 & T5 & T6 & T7 & T8 & T9 & T10 & T11 & T12).
  unfold is_globally_routable_v4. cbv zeta in *.
  rewrite negb_true_iff, <-not_true_iff_false, !orb_true_iff, T1, T2, T3, T5, T6, T7, T8, T9, T10, T11, T12. tauto.
Qed.
End V4.


Section V6.
Context (b : N) (Hb : b < 2 ^ 128).

Lemma segments_leading :
  b / 2 ^ 112 = segment b 0 /\ b / 2 ^ 96 = segment b 0 * 2 ^ 16 + segment b 1 /\
  b / 2 ^ 80 = b / 2 ^ 96 * 2 ^ 16 + segment b 2 /\ b / 2 ^ 64 = b / 2 ^ 80 * 2 ^ 16 + segment b 3 /\
  b / 2 ^ 48 = b / 2 ^ 64 * 2 ^ 16 + segment b 4 /\ b / 2 ^ 32 = b / 2 ^ 48 * 2 ^ 16 + segment b 5 /\
  (forall i, segment b i < 2 ^ 16).
Proof.
  assert (b / 2 ^ 112 = segment b 0) as E0.
  { unfold segment. change (112 - 16 * 0) with 112. symmetry. apply N.mod_small.
    apply N.Div0.div_lt_upper_bound. rewrite <-N.pow_add_r. done. }
  split_and!; [done|rewrite <-E0| | | | |].
  - exact (div_split b 112 96 ltac:(done)).
  - exact (div_split b 96 80 ltac:(done)).
  - exact (div_split b 80 64 ltac:(done)).
  - exact (div_split b 64 48 ltac:(done)).
  - exact (div_split b 48 32 ltac:(done)).
  - intros i. by apply N.mod_lt.
Qed.

(** A number of two digits. *)
Lemma digit x y c : y < 2 ^ 16 -> x * 2 ^ 16 + y = c <-> x = c / 2 ^ 16 /\ y = c mod 2 ^ 16.
Proof.
  intros Hy. pose proof (N.div_mod c (2 ^ 16) ltac:(done)) as E. pose proof (N.mod_lt c (2 ^ 16) ltac:(done)) as Hm.
  set (q := c / 2 ^ 16) in *. set (r := c mod 2 ^ 16) in *. change (2 ^ 16) with 65536 in *. lia.
Qed.

(** A block that ends within the segment [s], [i] bits before its end. *)
Lemma leading_segment j i s x :
  b / 2 ^ j = x * 2 ^ 16 + s -> i <= 16 -> b / 2 ^ (j + i) = x * 2 ^ (16 - i) + s / 2 ^ i.
Proof.
  intros E Hi. rewrite N.pow_add_r, <-N.Div0.div_div, E.
  replace (2 ^ 16) with (2 ^ (16 - i) * 2 ^ i) by (rewrite <-N.pow_add_r; f_equal; lia).
  rewrite N.mul_assoc, N.add_comm, N.div_add by (apply N.pow_nonzero; lia). lia.
Qed.

(** Reads a block of the table down to the segment its length ends in. *)
Ltac seg_block j :=
  unfold in_block;
  match goal with |- b / 2 ^ ?e = ?c / 2 ^ ?e <-> _ =>
    change e with j; let v := eval vm_compute in (c / 2 ^ j) in change (c / 2 ^ j) with v end.

Ltac split_digit :=
  match goal with |- context [?x * 2 ^ 16 + ?y = ?c] =>
    rewrite (digit x y c) by done;
    let q := eval vm_compute in (c / 2 ^ 16) in let r := eval vm_compute in (c mod 2 ^ 16) in
    change (c / 2 ^ 16) with q; change (c mod 2 ^ 16) with r end.

Ltac small_div :=
  match goal with H0 : segment b 0 < _, H1 : segment b 1 < _ |- context [segment b 1 / ?k] =>
    let E := fresh in let L := fresh in
    pose proof (N.div_mod (segment b 1) k ltac:(done)) as E; pose proof (N.mod_lt (segment b 1) k ltac:(done)) as L;
    revert E L H0 H1; change (2 ^ 16) with 65536; generalize (segment b 1 / k) (segment b 1 mod k); clear; lia end.

Lemma blocks_v6 :
  let s i := segment b i in
  (forall x, x < 2 ^ 16 -> in_block 128 b (v6 x 0 0 0) 16 <-> s 0 = x) /\
  (in_block 128 b (v6 0x100 0 0 0) 64 <-> s 0 = 0x100 /\ s 1 = 0 /\ s 2 = 0 /\ s 3 = 0) /\
  (in_block 128 b (v6 0x100 0 0 1) 64 <-> s 0 = 0x100 /\ s 1 = 0 /\ s 2 = 0 /\ s 3 = 1) /\
  (in_block 128 b (v6 0x64 0xff9b 1 0) 48 <-> s 0 = 0x64 /\ s 1 = 0xff9b /\ s 2 = 1) /\
  (in_block 128 b (v6 0x2001 0 0 0) 23 <-> s 0 = 0x2001 /\ s 1 < 0x200) /\
  (in_block 128 b (v6 0x2001 0xdb8 0 0) 32 <-> s 0 = 0x2001 /\ s 1 = 0xdb8) /\
  (in_block 128 b (v6 0x3fff 0 0 0) 20 <-> s 0 = 0x3fff /\ s 1 <= 0xfff) /\
  (in_block 128 b (v6 0xfc00 0 0 0) 7 <-> s 0 / 2 ^ 9 * 2 ^ 9 = 0xfc00) /\
  (in_block 128 b (v6 0xfe80 0 0 0) 10 <-> s 0 / 2 ^ 6 * 2 ^ 6 = 0xfe80) /\
  (in_block 128 b (v6 0xfec0 0 0 0) 10 <-> s 0 / 2 ^ 6 * 2 ^ 6 = 0xfec0) /\
  (in_block 128 b (v6 0xff00 0 0 0) 8 <-> s 0 / 2 ^ 8 * 2 ^ 8 = 0xff00) /\
  (in_block 128 b 0 128 <-> b = 0) /\ (in_block 128 b 1 128 <-> b = 1).
Proof.
  cbv zeta. destruct segments_leading as (D112 & D96 & D80 & D64 & _ & _ & Hs).
  assert (forall j, j <= 16 -> b / 2 ^ (112 + j) = segment b 0 / 2 ^ j) as Dtop.
  { intros j Hj. rewrite N.pow_add_r, <-N.Div0.div_div, D112. done. }
  pose proof (leading_segment 96 9 _ _ D96 ltac:(done)) as D105.
  pose proof (leading_segment 96 12 _ _ D96 ltac:(done)) as D108.
  pose proof (Hs 0) as H0. pose proof (Hs 1) as H1.
  split_and!.
  - intros x Hx. unfold in_block. change (128 - 16) with 112. rewrite D112. unfold v6.
    rewrite !N.mul_0_l, !N.add_0_r, N.div_mul; done.
  - seg_block 64. rewrite D64, D80, D96. do 3 split_digit. tauto.
  - seg_block 64. rewrite D64, D80, D96. do 3 split_digit. tauto.
  - seg_block 80. rewrite D80, D96. do 2 split_digit. tauto.
  - seg_block 105. change 105 with (96 + 9). rewrite D105. change (2 ^ (16 - 9)) with 128. change (2 ^ 9) with 512. small_div.
  - seg_block 96. rewrite D96. split_digit. tauto.
  - seg_block 108. change 108 with (96 + 12). rewrite D108. change (2 ^ (16 - 12)) with 16. change (2 ^ 12) with 4096. small_div.
  - seg_block 121. change 121 with (112 + 9). rewrite Dtop by done. change (2 ^ 9) with 512. clear. lia.
  - seg_block 118. change 118 with (112 + 6). rewrite Dtop by done. change (2 ^ 6) with 64. clear. lia.
  - seg_block 118. change 118 with (112 + 6). rewrite Dtop by done. change (2 ^ 6) with 64. clear. lia.
  - seg_block 120. change 120 with (112 + 8). rewrite Dtop by done. change (2 ^ 8) with 256. clear. lia.
  - seg_block 0. rewrite N.div_1_r. done.
  - seg_block 0. rewrite N.div_1_r. done.
Qed.

Lemma embedding_blocks :
  (exists base len, (base, len) ∈ embedding_v6 /\ in_block 128 b base len) <-> is_Some (embedded_ipv4 b).
Proof.
  destruct segments_leading as (_ & D96 & D80 & D64 & D48 & D32 & Hs).
  transitivity (Exists (fun x => in_block 128 b x.1 x.2) embedding_v6).
  { rewrite list.Exists_exists. split; [intros (base & len & Hx & Hi); by exists (base, len)|intros ([base len] & Hx & Hi); by exists base, len]. }
  unfold embedding_v6. rewrite !Exists_cons, Exists_nil. cbn [fst snd].
  assert (forall c, in_block 128 b c 96 <-> b / 2 ^ 32 = c / 2 ^ 32) as Hblock by done.
  rewrite !Hblock, D32, D48, D64, D80, D96.
  change (0 / 2 ^ 32) with 0. change (0xffff * 2 ^ 32 / 2 ^ 32) with 0xffff.
  let c := eval vm_compute in (v6 0x64 0xff9b 0 0 / 2 ^ 32) in change (v6 0x64 0xff9b 0 0 / 2 ^ 32) with c.
  repeat split_digit. unfold embedded_ipv4. cbv zeta.
  match goal with |- _ <-> is_Some (if ?t then _ else _) => transitivity (t = true) end.
  - btrue. tauto.
  - case_match; split; try done; by intros [].
Qed.

Lemma tests_v6 :
  let s i := segment b i in
  (Ipv6.is_multicast b = true <-> s 0 / 2 ^ 8 * 2 ^ 8 = 0xff00) /\
  N.land (s 0) 0xfe00 = s 0 / 2 ^ 9 * 2 ^ 9 /\ N.land (s 0) 0xffc0 = s 0 / 2 ^ 6 * 2 ^ 6.
Proof.
  cbv zeta. destruct segments_leading as (_ & _ & _ & _ & _ & _ & Hs). specialize (Hs 0). split_and!.
  - unfold Ipv6.is_multicast. by rewrite N.eqb_eq, <-(land_high (segment b 0) 8 8 Hs).
  - exact (land_high (segment b 0) 9 7 Hs).
  - exact (land_high (segment b 0) 6 10 Hs).
Qed.

(** An address that embeds another is in no special-purpose block but the two single addresses. *)
Lemma embedded_segments a :
  embedded_ipv4 b = Some a ->
  a = b mod 2 ^ 32 /\ (segment b 0 = 0 \/ segment b 0 = 0x64 /\ segment b 2 = 0).
Proof. unfold embedded_ipv4. cbv zeta. case_match eqn:E; [|done]. intros [= <-]. split; [done|]. revert E. btrue. tauto. Qed.

Lemma routable_v6 : is_globally_routable_v6 b = true <-> public_v6 b.
Proof.
  unfold public_v6.
  assert ((forall base len, (base, len) ∈ embedding_v6 -> in_block 128 b base len -> public_v4 (b mod 2 ^ 32)) <->
    (is_Some (embedded_ipv4 b) -> public_v4 (b mod 2 ^ 32))) as ->.
  { rewrite <-embedding_blocks. split; [intros Hf (? & ? & ? & ?); eauto|intros Hf ? ? ? ?; eauto]. }
  assert ((forall base len, (base, len) ∈ special_v6 -> ~ in_block 128 b base len) <->
    Forall (fun x => ~ in_block 128 b x.1 x.2) special_v6) as ->.
  { rewrite Forall_forall. split; [intros Hp [base len] Hx; exact (Hp base len Hx)|intros Hp base len Hx; exact (Hp (base, len) Hx)]. }
  destruct blocks_v6 as (B16 & B1 & B2 & B3 & B4 & B5 & B6 & B7 & B8 & B9 & B10 & B11 & B12).
  unfold special_v6. rewrite !Forall_cons, Forall_nil. cbn [fst snd].
  rewrite B1, B2, B3, B4, B5, B6, B7, B8, B9, B10, B11, B12, !B16 by done.
  clear B1 B2 B3 B4 B5 B6 B7 B8 B9 B10 B11 B12 B16.
  destruct tests_v6 as (T1 & T2 & T3). unfold is_globally_routable_v6. cbv zeta. rewrite T2, T3.
  assert (((Ipv6.is_loopback b || Ipv6.is_unspecified b || Ipv6.is_multicast b) = true) <->
    b = 1 \/ b = 0 \/ segment b 0 / 2 ^ 8 * 2 ^ 8 = 0xff00) as Tsingle.
  { rewrite !orb_true_iff, T1. unfold Ipv6.is_loopback, Ipv6.is_unspecified. rewrite !N.eqb_eq. tauto. }
  destruct (Ipv6.is_loopback b || _ || _).
  { split; [done|]. tauto. }
  assert (b <> 0 /\ b <> 1 /\ segment b 0 / 2 ^ 8 * 2 ^ 8 <> 0xff00) as (N0 & N1 & N2).
  { split_and!; intros Hx; discriminate (proj2 Tsingle ltac:(auto)). }
  clear T1 T2 T3 Tsingle.
  destruct (embedded_ipv4 b) as [a|] eqn:Ee.
  - destruct (embedded_segments a Ee) as [-> Hseg]. rewrite routable_v4 by (apply N.mod_lt; done).
    split.
    + intros Hp. split; [|done]. clear Ee Hp.
      destruct Hseg as [E|[E E2]]; rewrite E; try rewrite E2; split_and!; vm_compute; intuition congruence.
    + intros [_ Hp]. by apply Hp.
  - assert ((is_Some (@None N) -> public_v4 (b mod 2 ^ 32)) <-> True) as -> by (split; [done|intros _ []%is_Some_None]).
    rewrite negb_true_iff, <-not_true_iff_false. btrue. tauto.
Qed.
End V6.

(** C18: The addresses the screen lets through are those in no block of the tables
    [special_v4] and [special_v6] of this file, an embedded IPv4 address screened in the
    place of its carrier. The tables are written by hand: the special-purpose blocks of the
    registries that are not globally reachable, with multicast and site-local addresses. *)
Theorem routable_is_public (a : IpAddr) (Ha : addr_ok a) : is_globally_routable a = true <-> public a.
Proof. destruct a as [b|b]; [by apply routable_v4|by apply routable_v6]. Qed.

(** [::ffff:10.0.0.1] is as private as the address it carries; [2606:4700::1111] is public. *)
Lemma routable_is_public_witness :
  ~ public (V6 (0xffff * 2 ^ 32 + v4 10 0 0 1)) /\ public (V6 (v6 0x2606 0x4700 0 0 + 0x1111)) /\ public (V4 (v4 151 101 0 215)).
Proof.
  split_and!.
  - intros Hp. apply (proj2 (routable_is_public (V6 (0xffff * 2 ^ 32 + v4 10 0 0 1)) ltac:(vm_compute; reflexivity))) in Hp.
    vm_compute in Hp. discriminate Hp.
  - apply (routable_is_public (V6 (v6 0x2606 0x4700 0 0 + 0x1111)) ltac:(vm_compute; reflexivity)). vm_compute. reflexivity.
  - apply (routable_is_public (V4 (v4 151 101 0 215)) ltac:(vm_compute; reflexivity)). vm_compute. reflexivity.
Defined.
