(* ===== verification/IpText.v ===== *)
(** * Reading addresses

    [IpAddr::from_str] of the standard library, which the proxy variables and the proxy
    hosts go through: a reader that consumes a text from the left, with the places it
    backs up to. *)

From Stdlib Require Import Ascii String Lia.
From stdpp Require Import base numbers list strings.
From S2P Require Import Prelude Str Addr.

(** A reader: a value and the text it leaves, or nothing read. *)
Abbreviation reader A := (str -> option (A * str)).

Definition hex_value (c : ascii) : option N :=
  (if is_digit c then Some (code c - 48)
   else if in_range 97 102 c then Some (code c - 87)
   else if in_range 65 70 c then Some (code c - 55) else None)%N.

Definition digit_in (radix : N) (c : ascii) : option N := opt_filter (fun d => d <? radix)%N (hex_value c).

Fixpoint read_digits (radix max : N) (limit count : nat) (acc : N) (s : str) : option (N * nat * str) :=
  match s with
  | c :: rest =>
    match digit_in radix c with
    | Some d =>
      let acc := (acc * radix + d)%N in
      if (max <? acc)%N then None
      else if (limit <? S count)%nat then None
      else read_digits radix max limit (S count) acc rest
    | None => Some (acc, count, s)
    end
  | [] => Some (acc, count, s)
  end.

(** [read_number]: at most [limit] digits, and no zero before others unless [zeros]. *)
Definition read_number (radix max : N) (limit : nat) (zeros : bool) : reader N := fun s =>
  match read_digits radix max limit 0 0 s with
  | None => None
  | Some (n, count, rest) =>
    if decide (count = 0) then None
    else if negb zeros && starts_with_char (one_of ["0"]%char) s && (1 <? count)%nat then None
    else Some (n, rest)
  end.

Definition read_separated {A} (sep : ascii) (index : nat) (inner : reader A) : reader A := fun s =>
  if decide (index = 0) then inner s
  else match s with c :: rest => if decide (c = sep) then inner rest else None | [] => None end.

Fixpoint read_octets (left_ index : nat) (acc : N) : reader N := fun s =>
  match left_ with
  | O => Some (acc, s)
  | S left_ =>
    match read_separated "." index (read_number 10 255 3 false) s with
    | Some (n, rest) => read_octets left_ (S index) (acc * 256 + n)%N rest
    | None => None
    end
  end.

Definition read_ipv4_addr : reader N := read_octets 4 0 0.

(** [read_groups]: the groups read, at most [left_] of them, and whether an IPv4 address
    ended them. *)
Fixpoint read_groups (left_ index : nat) (acc : list N) (s : str) : list N * bool * str :=
  match left_ with
  | O => (acc, false, s)
  | S left_ =>
    let group :=
      match read_separated ":" index (read_number 16 65535 4 true) s with
      | Some (g, rest) => read_groups left_ (S index) (acc ++ [g]) rest
      | None => (acc, false, s)
      end in
    if decide (left_ = 0) then group
    else
      match read_separated ":" index read_ipv4_addr s with
      | Some (b, rest) => (acc ++ [b / 65536; b mod 65536], true, rest)%N
      | None => group
      end
  end.

Definition join_groups (l : list N) : N := foldl (fun acc g => acc * 65536 + g)%N 0%N l.

Definition read_ipv6_addr : reader N := fun s =>
  let '(front, ends_v4, rest) := read_groups 8 0 [] s in
  if decide (length front = 8) then Some (join_groups front, rest)
  else if ends_v4 then None
  else
    match strip_prefix $"::" rest with
    | None => None
    | Some rest =>
      let '(tail_groups, _, rest) := read_groups (8 - (length front + 1)) 0 [] rest in
      Some (join_groups (front ++ replicate (8 - length front - length tail_groups) 0%N ++ tail_groups), rest)
    end.

Definition whole {A} (r : option (A * str)) : option A :=
  match r with Some (a, []) => Some a | _ => None end.

Definition parse_ipv6 (s : str) : option N := whole (read_ipv6_addr s).

(** [str::parse::<IpAddr>]. *)
Definition parse_ip (s : str) : option IpAddr :=
  whole match read_ipv4_addr s with
        | Some (b, rest) => Some (V4 b, rest)
        | None => match read_ipv6_addr s with Some (b, rest) => Some (V6 b, rest) | None => None end
        end.

Example parse_ip_samples :
  map parse_ip [$"10.0.0.1"; $"010.0.0.1"; $"::1"; $"::ffff:10.0.0.1"; $"2001:db8::8:1"; $"1:2:3:4:5:6:7:8"; $"1::2::3"; $"256.1.1.1"; $"::"]
  = [Some (V4 (v4 10 0 0 1)); None; Some (V6 1); Some (V6 (0xffff * 2 ^ 32 + v4 10 0 0 1)); Some (V6 (v6 0x2001 0xdb8 0 0 + 0x80001));
     Some (V6 (v6 1 2 3 4 + 0x5000600070008)); None; None; Some (V6 0)]%N.
Proof. vm_compute. done. Qed.

(** ** What is read is an address *)

Lemma read_digits_max radix max limit count acc s n k r :
  (acc <= max)%N -> read_digits radix max limit count acc s = Some (n, k, r) -> (n <= max)%N.
Proof.
  revert count acc. induction s as [|c s IH]; intros count acc Ha; cbn [read_digits]; [naive_solver|].
  destruct (digit_in radix c) as [d|]; [|naive_solver].
  destruct (max <? acc * radix + d)%N eqn:E; [done|]. destruct (limit <? S count)%nat; [done|].
  apply IH. apply N.ltb_ge in E. done.
Qed.

Lemma read_number_max radix max limit zeros s n r : read_number radix max limit zeros s = Some (n, r) -> (n <= max)%N.
Proof.
  unfold read_number. destruct (read_digits _ _ _ _ _ _) as [[[m k] rest]|] eqn:E; [|done].
  apply read_digits_max in E; [|lia]. case_decide; [done|]. case_match; [done|]. naive_solver.
Qed.

Lemma read_separated_Some {A} sep i (inner : reader A) s x r :
  read_separated sep i inner s = Some (x, r) -> exists s', inner s' = Some (x, r).
Proof. unfold read_separated. case_decide; [eauto|]. destruct s; [done|]. case_decide; [eauto|done]. Qed.

Lemma read_octets_bound k i acc s n r : read_octets k i acc s = Some (n, r) -> (n < (acc + 1) * 256 ^ N.of_nat k)%N.
Proof.
  revert i acc s. induction k as [|k IH]; intros i acc s; cbn [read_octets].
  - intros [= <- <-]. change (N.of_nat 0) with 0%N. lia.
  - destruct (read_separated _ _ _ _) as [[m rest]|] eqn:E; [|done]. intros Hn%IH.
    apply read_separated_Some in E as (s' & E%read_number_max).
    eapply N.lt_le_trans; [exact Hn|]. rewrite Nat2N.inj_succ, N.pow_succ_r'.
    rewrite N.mul_assoc. apply N.mul_le_mono_r. lia.
Qed.

Lemma read_ipv4_bound s n r : read_ipv4_addr s = Some (n, r) -> (n < 2 ^ 32)%N.
Proof. intros Hn%read_octets_bound. exact Hn. Qed.

Lemma read_groups_bound k i acc s l e r :
  read_groups k i acc s = (l, e, r) -> Forall (fun g => g < 65536)%N acc -> Forall (fun g => g < 65536)%N l /\ length l <= length acc + k.
Proof.
  revert i acc s. induction k as [|k IH]; intros i acc s; cbn [read_groups].
  { intros [= <- <- <-] Ha. split; [done|lia]. }
  intros E Ha.
  destruct (decide (k = 0)) as [->|Hk].
  - destruct (read_separated _ _ _ _) as [[g rest]|] eqn:Es; [|injection E as <- <- <-; split; [done|lia]].
    apply read_separated_Some in Es as (s' & Es%read_number_max).
    apply IH in E as [? Hl]; [|apply Forall_app; split; [done|constructor; [lia|constructor]]].
    split; [done|]. rewrite length_app in Hl. cbn in Hl. lia.
  - destruct (read_separated ":" i read_ipv4_addr s) as [[b rest]|] eqn:Ev.
    + injection E as <- <- <-. apply read_separated_Some in Ev as (s' & Ev%read_ipv4_bound).
      split; [|rewrite length_app; cbn; lia]. apply Forall_app. split; [done|].
      repeat constructor; [apply N.Div0.div_lt_upper_bound; exact Ev|by apply N.mod_lt].
    + destruct (read_separated ":" i (read_number _ _ _ _) s) as [[g rest]|] eqn:Es; [|injection E as <- <- <-; split; [done|lia]].
      apply read_separated_Some in Es as (s' & Es%read_number_max).
      apply IH in E as [? Hl]; [|apply Forall_app; split; [done|constructor; [lia|constructor]]].
      split; [done|]. rewrite length_app in Hl. cbn in Hl. lia.
Qed.

Lemma join_groups_bound l : Forall (fun g => g < 65536)%N l -> (join_groups l < 65536 ^ N.of_nat (length l))%N.
Proof.
  unfold join_groups. induction l as [|g l IH] using rev_ind; [done|]. rewrite Forall_app, Forall_cons.
  intros (Hl & Hg & _). rewrite foldl_app, length_app. cbn [foldl length]. specialize (IH Hl).
  replace (N.of_nat (length l + 1)) with (N.succ (N.of_nat (length l))) by lia. rewrite N.pow_succ_r'.
  set (p := (65536 ^ N.of_nat (length l))%N) in *. lia.
Qed.

Lemma read_ipv6_bound s n r : read_ipv6_addr s = Some (n, r) -> (n < 2 ^ 128)%N.
Proof.
  unfold read_ipv6_addr. destruct (read_groups 8 0 [] s) as [[front e] rest] eqn:Ef.
  destruct (read_groups_bound _ _ _ _ _ _ _ Ef (Forall_nil_2 _)) as [Hf Lf].
  case_decide as E8.
  - intros [= <- _]. apply join_groups_bound in Hf. rewrite E8 in Hf. exact Hf.
  - destruct e; [done|]. destruct (strip_prefix _ rest) as [rest'|]; [|done].
    destruct (read_groups (8 - (length front + 1)) 0 [] rest') as [[tl e'] rest''] eqn:Et.
    destruct (read_groups_bound _ _ _ _ _ _ _ Et (Forall_nil_2 _)) as [Ht Lt]. cbn in Lf, Lt.
    intros [= <- _].
    assert (Forall (fun g => g < 65536)%N (front ++ replicate (8 - length front - length tl) 0%N ++ tl)) as Hall.
    { apply Forall_app. split; [done|]. apply Forall_app. split; [|done]. by apply Forall_replicate. }
    apply join_groups_bound in Hall. rewrite !length_app, length_replicate in Hall.
    replace (length front + (8 - length front - length tl + length tl)) with 8 in Hall by lia. exact Hall.
Qed.

Lemma parse_ip_ok s a : parse_ip s = Some a -> addr_ok a.
Proof.
  unfold parse_ip, whole. destruct (read_ipv4_addr s) as [[b rest]|] eqn:E4.
  - destruct rest; [|done]. intros [= <-]. by apply read_ipv4_bound in E4.
  - destruct (read_ipv6_addr s) as [[b rest]|] eqn:E6; [|done].
    destruct rest; [|done]. intros [= <-]. by apply read_ipv6_bound in E6.
Qed.
