(* ===== verification/Url.v ===== *)
(** * URLs

    What the sources use of the [url] crate: a type of parsed URLs with its accessors
    and setters, as a class, and the documented facts the components rely on.  A small
    table of URLs ([Sample]) shows that the facts can hold together, and serves the
    examples of the components. *)

From Stdlib Require Import Ascii String.
From stdpp Require Import base numbers list strings gmap.
From S2P Require Import Prelude Str Addr.

(** [url::Host]. *)
Inductive Host := Domain (name : str) | HostV4 (bits : N) | HostV6 (bits : N).

#[export] Instance host_eq_dec : EqDecision Host.
Proof. solve_decision. Defined.

(** [url::Origin::Tuple]: scheme, host and port. *)
Abbreviation OriginTuple := (str * Host * N)%type.

Class UrlCrate := {
  Url : Type;
  url_eq_dec :: EqDecision Url;
  parse_url : str -> option Url;
  as_str : Url -> str;
  scheme : Url -> str;
  has_authority : Url -> bool;
  host : Url -> option Host;
  (** How a host is written; a name as it is. *)
  host_text : Host -> str;
  port : Url -> option N;
  port_or_known_default : Url -> option N;
  username : Url -> str;
  password : Url -> option str;
  path : Url -> str;
  query : Url -> option str;
  fragment : Url -> option str;
  (** [Url::origin]: the tuple, or an opaque origin, which equals no other. *)
  origin : Url -> option OriginTuple;
  (** [Origin::ascii_serialization] of a tuple; an opaque one is written [null]. *)
  tuple_text : OriginTuple -> str;
  (** [Url::join] and the setters; a setter that fails leaves the URL alone. *)
  url_join : Url -> str -> option Url;
  set_host : str -> Url -> Url;
  set_port : option N -> Url -> Url;
  set_path : str -> Url -> Url;
  set_username : str -> Url -> Url;
  set_password : option str -> Url -> Url;
  set_query : option str -> Url -> Url;
  set_fragment : option str -> Url -> Url;
}.

Section Accessors.
Context `{UrlCrate}.

Definition host_str (u : Url) : option str := host_text <$> host u.

Definition ascii_serialization (o : option OriginTuple) : str :=
  match o with Some t => tuple_text t | None => $"null" end.

(** [==] of two origins: an opaque origin is made anew by each call. *)
Definition origins_eq (a b : option OriginTuple) : bool :=
  match a, b with Some t, Some t' => bool_decide (t = t') | _, _ => false end.

Definition http_scheme (s : str) : bool := bool_decide (s = $"http" \/ s = $"https").
End Accessors.

(** The facts of the crate's documentation. *)
Class UrlLaws `{UrlCrate} : Prop := {
  host_text_domain d : host_text (Domain d) = d;
  (** An [http] or [https] URL has a host and a port, and they are its origin. *)
  http_origin u : http_scheme (scheme u) = true ->
    exists h p, host u = Some h /\ port_or_known_default u = Some p /\ origin u = Some (scheme u, h, p);
  (** The port that is used follows from the scheme and the port written. *)
  known_port u v : scheme u = scheme v -> port u = port v -> port_or_known_default u = port_or_known_default v;
  (** The text of an origin tells it. *)
  tuple_text_inj u v : http_scheme (scheme u) = true -> http_scheme (scheme v) = true ->
    ascii_serialization (origin u) = ascii_serialization (origin v) -> origin u = origin v;
  (** What the setters that remove a part leave. *)
  username_cleared u : username (set_username [] u) = [];
  password_cleared u : password (set_password None u) = None /\ username (set_password None u) = username u;
  query_set q u : query (set_query q u) = q /\ username (set_query q u) = username u /\ password (set_query q u) = password u;
  fragment_cleared u : fragment (set_fragment None u) = None /\ query (set_fragment None u) = query u /\
    username (set_fragment None u) = username u /\ password (set_fragment None u) = password u;
  (** Removing a part that is not there changes nothing. *)
  nothing_cleared u :
    (username u = [] -> set_username [] u = u) /\ (password u = None -> set_password None u = u) /\
    (fragment u = None -> set_fragment None u = u);
}.

Section Facts.
Context `{UrlLaws}.

Lemma origins_eq_Some a b : origins_eq a b = true <-> exists t, a = Some t /\ b = Some t.
Proof.
  destruct a as [t|], b as [t'|]; cbn; try (split; [done|naive_solver]).
  rewrite bool_decide_eq_true. naive_solver.
Qed.

(** Two web URLs of one origin have the same scheme, host and port. *)
Lemma same_origin_parts u v :
  http_scheme (scheme u) = true -> http_scheme (scheme v) = true -> origins_eq (origin u) (origin v) = true ->
  scheme u = scheme v /\ host u = host v /\ port_or_known_default u = port_or_known_default v.
Proof.
  intros Hu Hv (t & Et & Et')%origins_eq_Some.
  destruct (http_origin u Hu) as (h & p & E1 & E2 & E3), (http_origin v Hv) as (h' & p' & F1 & F2 & F3).
  rewrite Et in E3. rewrite Et' in F3. injection E3 as ->. injection F3 as -> -> ->. by rewrite E1, E2, F1, F2.
Qed.

Lemma origins_eq_text u v :
  http_scheme (scheme u) = true -> http_scheme (scheme v) = true ->
  origins_eq (origin u) (origin v) = true <-> ascii_serialization (origin u) = ascii_serialization (origin v).
Proof.
  intros Hu Hv. split; [by intros (t & -> & ->)%origins_eq_Some|]. intros E%(tuple_text_inj u v Hu Hv).
  destruct (http_origin v Hv) as (h & p & _ & _ & F). rewrite E, F. cbn. by apply bool_decide_eq_true.
Qed.
End Facts.

(** ** A sample of the crate: [http] and [https] URLs of a few hosts and ports *)

Module Sample.
Inductive SHost := Central | Cdn | Nexus | Proxy | Localhost | Private | Public | Mapped.
Inductive SPort := P80 | P443 | P8081 | P8443.

#[global] Instance shost_eq_dec : EqDecision SHost.
Proof. solve_decision. Defined.
#[global] Instance sport_eq_dec : EqDecision SPort.
Proof. solve_decision. Defined.

Record t := {
  https : bool; at_host : SHost; at_port : SPort; user : str; pass : option str;
  at_path : str; at_query : option str; at_fragment : option str }.

#[global] Instance t_eq_dec : EqDecision t.
Proof. solve_decision. Defined.

Definition the_host (h : SHost) : Host :=
  match h with
  | Central => Domain $"repo.maven.apache.org" | Cdn => Domain $"cdn.example" | Nexus => Domain $"nexus.corp"
  | Proxy => Domain $"proxy.corp" | Localhost => Domain $"localhost"
  | Private => HostV4 (v4 10 0 0 1) | Public => HostV4 (v4 151 101 0 215)
  | Mapped => HostV6 (0xffff * 2 ^ 32 + v4 10 0 0 1)
  end%N.
Definition text_of (h : Host) : str :=
  match h with
  | Domain d => d
  | HostV4 b => if bool_decide (b = v4 10 0 0 1) then $"10.0.0.1" else $"151.101.0.215"
  | HostV6 _ => $"[::ffff:a00:1]"
  end.
Definition number (p : SPort) : N := match p with P80 => 80 | P443 => 443 | P8081 => 8081 | P8443 => 8443 end.
Definition scheme_of (u : t) : str := if https u then $"https" else $"http".
Definition default_port (https : bool) : SPort := if https then P443 else P80.
Definition port_of (u : t) : option N :=
  if bool_decide (at_port u = default_port (https u)) then None else Some (number (at_port u)).
Definition port_text (https : bool) (p : SPort) : str :=
  if bool_decide (p = default_port https) then [] else $":" ++ fmt_u32 (number p).

Definition tuple_of (u : t) : OriginTuple := (scheme_of u, the_host (at_host u), number (at_port u)).
Definition text_of_tuple (o : OriginTuple) : str :=
  let '(s, h, p) := o in
  s ++ $"://" ++ text_of h ++
  (if bool_decide ((s, p) = ($"http", 80%N) \/ (s, p) = ($"https", 443%N)) then [] else $":" ++ fmt_u32 p).

Definition suffix (mark : str) (o : option str) : str := match o with Some s => mark ++ s | None => [] end.

Definition print (u : t) : str :=
  scheme_of u ++ $"://" ++ (if bool_decide (user u = []) then [] else user u ++ suffix $":" (pass u) ++ $"@")
  ++ text_of (the_host (at_host u)) ++ port_text (https u) (at_port u) ++ at_path u ++ suffix $"?" (at_query u)
  ++ suffix $"#" (at_fragment u).

Definition cut (c : ascii) (s : str) : str * option str :=
  match split_once c s with Some (a, b) => (a, Some b) | None => (s, None) end.

Definition hosts : list SHost := [Central; Cdn; Nexus; Proxy; Localhost; Private; Public; Mapped].
Definition ports : list SPort := [P80; P443; P8081; P8443].

Definition find_host (s : str) : option SHost := find (fun h => bool_decide (text_of (the_host h) = s)) hosts.
Definition find_port (https : bool) (s : option str) : option SPort :=
  match s with
  | None => Some (default_port https)
  | Some s => find (fun p => bool_decide (fmt_u32 (number p) = s)) ports
  end.

Definition read (text : str) : option t :=
  '(https, rest) ← match strip_prefix $"https://" text with
                   | Some r => Some (true, r)
                   | None => r ← strip_prefix $"http://" text; Some (false, r)
                   end;
  let '(rest, fragment) := cut "#" rest in
  let '(rest, query) := cut "?" rest in
  let '(authority, path) := cut "/" rest in
  let '(info, place) := match cut "@" authority with (a, Some b) => (a, b) | (a, None) => ([], a) end in
  let '(name, pass) := cut ":" info in
  let '(h, p) := match strip_prefix $"[" place with
                 | Some _ => match rsplit_once "]" place with
                             | Some (a, b) => (a ++ $"]", strip_prefix $":" b)
                             | None => (place, None)
                             end
                 | None => cut ":" place
                 end in
  h ← find_host h;
  p ← find_port https p;
  Some {| https := https; at_host := h; at_port := p; user := name; pass := pass;
          at_path := $"/" ++ default [] path; at_query := query; at_fragment := fragment |}.

(** The path up to its last slash. *)
Definition directory (s : str) : str := match rsplit_once "/" s with Some (a, _) => a ++ $"/" | None => $"/" end.

#[global] Instance crate : UrlCrate := {|
  Url := t; parse_url := read; as_str := print; scheme := scheme_of; has_authority _ := true;
  host u := Some (the_host (at_host u)); host_text := text_of; port := port_of;
  port_or_known_default u := Some (number (at_port u)); username := user; password := pass; path := at_path;
  query := at_query; fragment := at_fragment; origin u := Some (tuple_of u); tuple_text := text_of_tuple;
  url_join u s := match read s with
                  | Some v => Some v
                  | None => Some {| https := https u; at_host := at_host u; at_port := at_port u; user := user u; pass := pass u;
                                    at_path := directory (at_path u) ++ s; at_query := None; at_fragment := None |} end;
  set_host h u := match find_host h with
                  | Some h => {| https := https u; at_host := h; at_port := at_port u; user := user u; pass := pass u;
                                 at_path := at_path u; at_query := at_query u; at_fragment := at_fragment u |}
                  | None => u end;
  set_port p u := match p with
                  | None => {| https := https u; at_host := at_host u; at_port := default_port (https u); user := user u;
                               pass := pass u; at_path := at_path u; at_query := at_query u; at_fragment := at_fragment u |}
                  | Some _ => u end;
  set_path s u := {| https := https u; at_host := at_host u; at_port := at_port u; user := user u; pass := pass u;
                     at_path := s; at_query := at_query u; at_fragment := at_fragment u |};
  set_username s u := {| https := https u; at_host := at_host u; at_port := at_port u; user := s; pass := pass u;
                         at_path := at_path u; at_query := at_query u; at_fragment := at_fragment u |};
  set_password s u := {| https := https u; at_host := at_host u; at_port := at_port u; user := user u; pass := s;
                         at_path := at_path u; at_query := at_query u; at_fragment := at_fragment u |};
  set_query s u := {| https := https u; at_host := at_host u; at_port := at_port u; user := user u; pass := pass u;
                      at_path := at_path u; at_query := s; at_fragment := at_fragment u |};
  set_fragment s u := {| https := https u; at_host := at_host u; at_port := at_port u; user := user u; pass := pass u;
                         at_path := at_path u; at_query := at_query u; at_fragment := s |};
|}.

Definition tuples : list OriginTuple :=
  s ← [$"http"; $"https"]; h ← map the_host hosts; p ← map number ports; [(s, h, p)].

Lemma tuple_listed u : tuple_of u ∈ tuples.
Proof. unfold tuple_of, scheme_of. apply (bool_decide_unpack _). destruct (https u), (at_host u), (at_port u); vm_compute; done. Qed.

Lemma tuples_told : Forall (fun a => Forall (fun b => text_of_tuple a = text_of_tuple b -> a = b) tuples) tuples.
Proof. apply (bool_decide_unpack _). vm_compute. done. Qed.

#[global] Instance laws : UrlLaws.
Proof.
  split; cbn.
  - done.
  - eauto.
  - intros [h ? p ? ? ? ? ?] [h' ? p' ? ? ? ? ?]. unfold scheme_of, port_of. cbn. destruct h, h', p, p'; vm_compute; congruence.
  - intros u v _ _ E. f_equal. pose proof tuples_told as Ht. rewrite Forall_forall in Ht.
    specialize (Ht _ (tuple_listed u)). rewrite Forall_forall in Ht. exact (Ht _ (tuple_listed v) E).
  - done.
  - done.
  - done.
  - done.
  - intros []. split_and!; cbn; congruence.
Qed.
End Sample.
