(* ===== verification/Redact.v ===== *)
(** * Redaction of URLs ([rv-config/src/redact.rs])

    How a URL is shown in messages, which part of it may carry a secret, and the test for
    a secret value in the path of a repository URL. *)

From Stdlib Require Import Ascii String Lia.
From stdpp Require Import base numbers list strings.
From S2P Require Import Prelude Iter Str PathUtils Addr Url.

#[local] Set Warnings "-clear-no-such-hyp".

Definition REDACTED : str := $"***".
Definition UNPARSABLE_URL : str := $"<unparsable URL>".
Definition UNPARSABLE_URL_PLACEHOLDER : str := $"https://redacted.invalid/".

(** [str::find] and [str::rfind] of a class of characters. *)
Fixpoint find_char (p : ascii -> bool) (s : str) : option nat :=
  match s with [] => None | c :: s => if p c then Some 0 else S <$> find_char p s end.

Definition rfind_char (p : ascii -> bool) (s : str) : option nat :=
  match find_char p (reverse s) with Some i => Some (length s - 1 - i) | None => None end.

Definition trim_start_matches (p : ascii -> bool) (s : str) : str := skip_while p s.

(** ** Reading the text of a URL *)

Definition is_scheme (text : str) : bool :=
  match text with
  | [] => false
  | c :: rest => is_alpha c && forallb (fun c => is_alnum c || one_of ["+"; "-"; "."]%char c) rest
  end.

Definition is_ctl (c : ascii) : bool := (code c <=? 32)%N.
Definition is_tab_or_newline (c : ascii) : bool := one_of [ascii_of_N 9; ascii_of_N 10; ascii_of_N 13] c.

Definition special_schemes : list str := [$"http"; $"https"; $"ws"; $"wss"; $"ftp"].

Definition raw_authority_has_port (raw : str) : bool :=
  let cleaned := List.filter (fun c => negb (is_tab_or_newline c)) (trim_end_matches is_ctl (trim_start_matches is_ctl raw)) in
  match split_once ":" cleaned with
  | None => false
  | Some (scheme, rest) =>
    if negb (is_scheme scheme) then false
    else
      let lower := to_ascii_lowercase scheme in
      let read :=
        if bool_decide (lower ∈ special_schemes) then Some (trim_start_matches (one_of ["/"; "\"]%char) rest, ["/"; "?"; "#"; "\"]%char)
        else if bool_decide (lower = $"file") then None
        else (fun rest => (rest, ["/"; "?"; "#"]%char)) <$> strip_prefix $"//" rest in
      match read with
      | None => false
      | Some (rest, delimiters) =>
        let authority := take (default (length rest) (find_char (one_of delimiters) rest)) rest in
        let host_end := match rfind_char (one_of ["]"]%char) authority with Some i => i + 1 | None => 0 end in
        contains_char (one_of [":"]%char) (drop host_end authority)
      end
  end.

Definition query_or_fragment : ascii -> bool := one_of ["?"; "#"]%char.

(** Removes everything up to the last [@] of the text, and its query and fragment. *)
Definition strip_misread_userinfo (raw : str) : str :=
  let scheme_len := match opt_filter (fun e => is_scheme (take e raw)) (find_str $"://" raw) with Some e => e + 3 | None => 0 end in
  let scheme := take scheme_len raw in
  let rest := drop scheme_len raw in
  let query := find_char query_or_fragment rest in
  let finish (out rest : str) :=
    match find_char query_or_fragment rest with
    | Some index => out ++ take index rest ++ $"?" ++ REDACTED
    | None => out ++ rest
    end in
  match rfind_char (one_of ["@"]%char) rest with
  | Some at_ =>
    if is_some_and (fun q => (q <? at_)%nat) query then scheme ++ REDACTED
    else finish (scheme ++ REDACTED) (drop at_ rest)
  | None => finish scheme rest
  end.

(** ** Showing a URL *)

Section Redact.
Context `{UrlCrate}.

(** [Url::parse(UNPARSABLE_URL_PLACEHOLDER).expect(..)]; the URL given instead is one no
    caller sees, as the text parses. *)
Definition placeholder (u : Url) : Url := default u (parse_url UNPARSABLE_URL_PLACEHOLDER).

Definition misread (url : Url) (had_port : bool) : bool :=
  bool_decide (username url = []) && bool_decide (password url = None)
  && (had_port || bool_decide (is_Some (port url))) && contains_char (one_of ["@"]%char) (as_str url).

Definition redact_parsed (url : Url) (had_port : bool) : Url :=
  if negb (has_authority url) then placeholder url
  else
    let redacted :=
      if misread url had_port then
        match parse_url (strip_misread_userinfo (as_str url)) with
        | Some r => r
        | None => set_path [] (set_port None (set_host $"redacted.invalid" url))
        end
      else url in
    let redacted := set_password None (set_username [] redacted) in
    let redacted := match query redacted with Some _ => set_query (Some REDACTED) redacted | None => redacted end in
    set_fragment None redacted.

(** [MASKED_URLS]: each expanded URL with the masked form shown for it. *)
Abbreviation MaskedUrls := (list (str * str)).

Definition register_masked_url (urls : MaskedUrls) (expanded masked : str) : MaskedUrls :=
  let shown url := trim_end_matches (one_of ["/"]%char) (as_str (redact_parsed url false)) in
  match parse_url expanded with
  | None => urls
  | Some e =>
    let expanded := shown e in
    let masked := match parse_url masked with
                  | None => trim_end_matches (one_of ["/"]%char) UNPARSABLE_URL_PLACEHOLDER
                  | Some m => shown m
                  end in
    if bool_decide (expanded <> masked) && negb (existsb (fun p => bool_decide (p.1 = expanded)) urls)
    then sort_by (fun a b => (length b.1 <=? length a.1)%nat) (urls ++ [(expanded, masked)])
    else urls
  end.

Definition covers (shown expanded : str) : bool :=
  match strip_prefix expanded shown with
  | Some rest => bool_decide (rest = []) || starts_with_char (one_of ["/"; "?"; "#"]%char) rest
  | None => false
  end.

Definition mask (urls : MaskedUrls) (url : Url) : Url :=
  let shown := as_str url in
  match find (fun p => covers shown p.1) urls with
  | None => url
  | Some (expanded, masked) =>
    match parse_url (masked ++ drop (length expanded) shown) with Some u => u | None => placeholder url end
  end.

Definition redact_url (urls : MaskedUrls) (raw : str) : str :=
  match parse_url raw with
  | Some parsed =>
    if has_authority parsed then as_str (mask urls (redact_parsed parsed (raw_authority_has_port raw))) else UNPARSABLE_URL
  | None => UNPARSABLE_URL
  end.

Definition redacted_url (urls : MaskedUrls) (url : Url) : Url := mask urls (redact_parsed url false).

(** The part of a URL that may carry a secret. *)
Definition secret_url_part (url : str) : option str :=
  let unparsed := if contains_char (one_of ["@"]%char) url then Some $"userinfo" else None in
  match parse_url url with
  | None => unparsed
  | Some parsed =>
    if negb (has_authority parsed) then unparsed
    else if bool_decide (username parsed <> []) || bool_decide (password parsed <> None) then Some $"userinfo"
    else if bool_decide (query parsed <> None) then Some $"a query"
    else if bool_decide (fragment parsed <> None) then Some $"a fragment"
    else
      let redacted := as_str (redact_parsed parsed (raw_authority_has_port url)) in
      if bool_decide (redacted <> as_str parsed) then Some $"userinfo" else None
  end.

(** The path of a repository URL as written. *)
Definition repository_url_path (url : str) : option str :=
  if is_some_and (fun u => bool_decide (scheme u = $"file")) (parse_url url) then None
  else Some match find_str $"://" url with
            | Some i =>
              let rest := drop (i + 3) url in
              match find_char (one_of ["/"; "\"]%char) rest with Some slash => drop slash rest | None => [] end
            | None => url
            end.
End Redact.

(** ** Secret names and values *)

Definition secret_words : list str :=
  [$"TOKEN"; $"SECRET"; $"PASS"; $"KEY"; $"AUTH"; $"CREDENTIAL"; $"ENTITLEMENT"].

Definition secret_named (name : str) : bool :=
  existsb (fun word => contains word (to_ascii_uppercase name)) secret_words.

(** The offset of the brace that closes the one before the text. *)
Fixpoint closing_brace_at (depth at_ : nat) (text : str) : option nat :=
  match text with
  | [] => None
  | c :: text =>
    let depth := if decide (c = "{"%char) then S depth else if decide (c = "}"%char) then depth - 1 else depth in
    if decide (depth = 0) then Some at_ else closing_brace_at depth (S at_) text
  end.

Definition closing_brace (text : str) : option nat := closing_brace_at 1 0 text.

(** The text around each [${...}]. *)
Fixpoint literal_parts_from (fuel : nat) (parts : list str) (rest : str) : list str :=
  match fuel with
  | O => parts ++ [rest]
  | S fuel =>
    match find_str $"${" rest with
    | Some start =>
      match closing_brace (drop (start + 2) rest) with
      | Some stop => literal_parts_from fuel (parts ++ [take start rest]) (drop (start + 2 + stop + 1) rest)
      | None => parts ++ [rest]
      end
    | None => parts ++ [rest]
    end
  end.

Definition literal_parts (value : str) : list str := literal_parts_from (S (length value)) [] value.

(** [char::len_utf8] of the character a text starts with, 1 at the end. *)
Definition char_len (s : str) : nat :=
  match s with
  | [] => 1
  | c :: _ => if (code c <? 192)%N then 1 else if (code c <? 224)%N then 2 else if (code c <? 240)%N then 3 else 4
  end.

(** The places [part] starts at, from [at_] on. *)
Fixpoint occurrences_from (fuel : nat) (text : str) (at_ : nat) (part : str) : list nat :=
  match fuel with
  | O => []
  | S fuel =>
    if decide (length text < at_) then []
    else match find_str part (drop at_ text) with
         | None => []
         | Some found =>
           let found := at_ + found in
           found :: occurrences_from fuel text (found + char_len (drop found text)) part
         end
  end.

Definition occurrences (text : str) (from : nat) (part : str) : list nat :=
  occurrences_from (S (S (length text))) text from part.

Definition is_separator : ascii -> bool := one_of ["/"; "\"]%char.

(** Whether the character beside a value, or the end of the text, ends a segment. *)
Definition edge (segments : bool) (c : option ascii) : bool := negb segments || is_none_or is_separator c.

Definition starts_segment (segments : bool) (text : str) (at_ : nat) (part : str) : bool :=
  edge segments (last (take at_ text)) || edge segments (head part).
Definition ends_segment (segments : bool) (text : str) (at_ : nat) (part : str) : bool :=
  let stop := at_ + length part in
  edge segments (head (drop stop text)) || edge segments (last part).

Fixpoint find_middle (text : str) (at_ : nat) (middle : list str) : option nat :=
  match middle with
  | [] => Some at_
  | part :: middle =>
    match find_str part (drop at_ text) with
    | Some found => find_middle text (at_ + (found + length part)) middle
    | None => None
    end
  end.

Definition split_last {A} (l : list A) : option (A * list A) :=
  match last l with Some x => Some (x, take (length l - 1) l) | None => None end.

Definition holds_value (text value : str) (segments : bool) : bool :=
  let parts := literal_parts value in
  if negb (existsb (contains_char (fun c => negb (is_separator c))) parts) then false
  else
    match parts with
    | [] => false
    | first :: rest =>
      match split_last rest with
      | None => existsb (fun at_ => starts_segment segments text at_ first && ends_segment segments text at_ first) (occurrences text 0 first)
      | Some (last_part, middle) =>
        match find (fun at_ => starts_segment segments text at_ first) (occurrences text 0 first) with
        | None => false
        | Some start =>
          match find_middle text (start + length first) middle with
          | None => false
          | Some at_ => existsb (fun at_ => ends_segment segments text at_ last_part) (occurrences text at_ last_part)
          end
        end
      end
    end.

Section Values.
Context `{UrlCrate}.

Definition url_path_holds (url value : str) : bool :=
  is_some_and (fun path => holds_value path value true) (repository_url_path url).

(** Names and values of secret inputs. *)
Definition secret_input_in_path (url : str) (secrets : list (str * str)) : option str :=
  fst <$> find (fun p => url_path_holds url p.2) secrets.
End Values.

Definition without_secret_values (text : str) (secrets : list (str * str)) : str :=
  if existsb (fun p => holds_value text p.2 false) secrets then REDACTED else text.
