(* ===== verification/Proxy.v ===== *)
(** * Proxies ([rv-repo/src/proxy.rs], [rv-config/src/proxy_env.rs])

    Which proxy a URL goes through: the routes of the configured proxies, the hosts they
    leave alone, and the proxies that the environment names. *)

From Stdlib Require Import Ascii String Lia.
From stdpp Require Import base numbers list strings.
From S2P Require Import Prelude Iter Str PathUtils Addr IpText Url.

#[local] Set Warnings "-clear-no-such-hyp".

(** ** Data *)

Inductive ProxyAuthType := Basic | Bearer.

Inductive NoProxy :=
  | NoProxyAll
  | NoProxyDomain (name : str) (port : option N)
  | NoProxyAddress (addr : IpAddr) (port : option N)
  | NoProxyNetwork (addr : IpAddr) (prefix : N).

Record EnvironmentProxy := { variable : str; no_proxy : list NoProxy }.

Record ProxyConfig := {
  proxy_id : option str; protocol : option str; proxy_host : str; proxy_port : N;
  auth_type : option ProxyAuthType; proxy_username : option str; proxy_password : option str;
  token_env : option str; token : option str; non_proxy_hosts : list str;
  environment : option EnvironmentProxy }.

(** [ProxyConfig::new]. *)
Definition new_proxy (host : str) (port : N) : ProxyConfig :=
  {| proxy_id := None; protocol := None; proxy_host := host; proxy_port := port; auth_type := None;
     proxy_username := None; proxy_password := None; token_env := None; token := None;
     non_proxy_hosts := []; environment := None |}.

(** ** Hosts a proxy leaves alone *)

Definition star : ascii := "*"%char.
Definition dots : ascii -> bool := one_of ["."]%char.

(** The variables of the loop of [glob_matches]: the places in pattern and text, and the
    place to resume from. *)
Record Glob := { at_pattern : nat; at_text : nat; resume : option (nat * nat) }.

Definition glob_step (pattern text : str) (g : Glob) : Glob + bool :=
  let p := at_pattern g in
  let t := at_text g in
  match text !! t with
  | None => inr (forallb (fun b => bool_decide (b = star)) (drop p pattern))
  | Some c =>
    if decide (pattern !! p = Some star) then inl {| at_pattern := p + 1; at_text := t; resume := Some (p, t) |}
    else if decide (pattern !! p = Some c) then inl {| at_pattern := p + 1; at_text := t + 1; resume := resume g |}
    else match resume g with
         | Some (s, matched) => inl {| at_pattern := s + 1; at_text := matched + 1; resume := Some (s, matched + 1) |}
         | None => inr false
         end
  end.

Definition glob_fuel (pattern text : str) : N :=
  let width := N.of_nat (length pattern + length text + 2) in
  ((N.of_nat (length text) + 2) * width + width + 1)%N.

Definition glob_matches (pattern text : str) : bool :=
  default false (run_loop (glob_step pattern text) (glob_fuel pattern text) {| at_pattern := 0; at_text := 0; resume := None |}).

Definition bypass_entry (host entry : str) : bool :=
  let entry := to_ascii_lowercase (trim_end_matches dots (trim entry)) in
  if bool_decide (entry = []) then false
  else
    is_some_and (fun suffix => bool_decide (suffix <> []) && (bool_decide (host = suffix) || ends_with entry host)) (strip_prefix $"." entry)
    || bool_decide (strip_prefix $"*." entry = Some host)
    || glob_matches entry host.

Definition should_bypass_proxy (host : str) (non_proxy_hosts : list str) : bool :=
  let host := to_ascii_lowercase (trim_end_matches dots host) in
  existsb (bypass_entry host) non_proxy_hosts.

(** ** [NO_PROXY] *)

Definition u_mask (width prefix : N) : N :=
  let shift := (width - prefix)%N in
  if (shift <? width)%N then ((2 ^ width - 1) * 2 ^ shift) mod 2 ^ width else 0.

(** The first address of the range [addr] is in. *)
Definition network_start (addr : IpAddr) (prefix : N) : option IpAddr :=
  match addr with
  | V4 b => if (prefix <=? 32)%N then Some (V4 (N.land b (u_mask 32 prefix))) else None
  | V6 b => if (prefix <=? 128)%N then Some (V6 (N.land b (u_mask 128 prefix))) else None
  end.

Section Urls.
Context `{UrlCrate}.

Definition ip_literal (url : Url) : option IpAddr :=
  match host url with
  | Some (HostV4 b) => Some (V4 b)
  | Some (HostV6 b) => Some (V6 b)
  | Some (Domain _) | None => None
  end.

(** [NoProxy::matches]. *)
Definition no_proxy_matches (entry : NoProxy) (url : Url) : bool :=
  let port_matches port := bool_decide (port = None) || bool_decide (port = port_or_known_default url) in
  match entry with
  | NoProxyAll => true
  | NoProxyDomain name port =>
    match host url with
    | Some (Domain d) =>
      let d := to_ascii_lowercase (trim_end_matches dots d) in
      is_some_and (fun rest => bool_decide (rest = []) || ends_with_char dots rest) (strip_suffix name d) && port_matches port
    | _ => false
    end
  | NoProxyAddress addr port => bool_decide (ip_literal url = Some addr) && port_matches port
  | NoProxyNetwork addr prefix => is_some_and (fun ip => bool_decide (network_start ip prefix = Some addr)) (ip_literal url)
  end.

(** The names of this machine. *)
Definition localhost_name (d : str) : bool :=
  let d := to_ascii_lowercase (trim_end_matches dots d) in
  bool_decide (d = $"localhost") || ends_with $".localhost" d.

(** [EnvironmentProxy::bypasses]. *)
Definition bypasses (e : EnvironmentProxy) (url : Url) : bool :=
  let loopback := match host url with
                  | Some (Domain d) => localhost_name d
                  | Some (HostV4 b) => Ipv4.is_loopback b
                  | Some (HostV6 b) => Ipv6.is_loopback b
                  | None => false
                  end in
  loopback || existsb (fun entry => no_proxy_matches entry url) (no_proxy e).

(** ** Routes *)

Inductive Protocol := Http | Https | All.

Record Route := { route_protocol : Protocol; route_direct : list str; route_environment : option EnvironmentProxy }.

(** [RepoError::Config] and [RepoError::AuthSetup], with what they say. *)
Inductive ProxyError :=
  | UnknownProtocol (protocol : str)
  | EmptyHost
  | HostHasUserinfo
  | HostHasDelimiter
  | NotAnIpv6Literal
  | InvalidHost
  | TokenMissing
  | TokenVariableUnset (env : str)
  | TokenInvalid.

(** [Route::new]. *)
Definition new_route (config : ProxyConfig) : result ProxyError Route :=
  let name := default $"http" (protocol config) in
  let lower := to_ascii_lowercase name in
  p ← (if bool_decide (lower = $"http") then Ok Http
       else if bool_decide (lower = $"https") then Ok Https
       else if bool_decide (lower = $"all") then Ok All
       else Err (UnknownProtocol name));
  Ok {| route_protocol := p; route_direct := non_proxy_hosts config; route_environment := environment config |}.

(** [Route::carries]. *)
Definition route_carries (r : Route) (scheme : str) (url : Url) : bool :=
  (match route_protocol r with
   | Http => bool_decide (scheme = $"http")
   | Https => bool_decide (scheme = $"https")
   | All => true
   end)
  && negb (is_some_and (fun h => should_bypass_proxy h (route_direct r)) (host_str url))
  && negb (is_some_and (fun e => bypasses e url) (route_environment r)).

(** [Iterator::position]. *)
Fixpoint position {A} (p : A -> bool) (l : list A) : option nat :=
  match l with [] => None | x :: l => if p x then Some 0 else S <$> position p l end.

(** [Routes::select]. *)
Definition select (routes : list Route) (url : Url) : option nat :=
  let first scheme := position (fun r => route_carries r scheme url) routes in
  if bool_decide (scheme url = $"http") then first $"http"
  else if bool_decide (scheme url = $"https") then
    match first $"https" with
    | Some i => Some i
    | None => position (fun r => bool_decide (route_environment r = None) && route_carries r $"http" url) routes
    end
  else None.

(** [ProxySet]: the routes, and the hosts of the proxies, in the order of the routes. *)
Record ProxySet := { proxy_hosts_of : list str; routes : list Route }.

Definition no_proxies : ProxySet := {| proxy_hosts_of := []; routes := [] |}.

(** [ProxySet::carries]. *)
Definition carries (s : ProxySet) (url : Url) : bool := bool_decide (is_Some (select (routes s) url)).

(** ** Building *)

Definition build_proxy_url (host : str) (port : N) : result ProxyError str :=
  let trimmed := trim host in
  if bool_decide (trimmed = []) then Err EmptyHost
  else if contains_char (one_of ["@"]%char) trimmed then Err HostHasUserinfo
  else if contains_char (one_of ["/"; "?"; "#"]%char) trimmed then Err HostHasDelimiter
  else
    let bracketed := starts_with_char (one_of ["["]%char) trimmed && ends_with_char (one_of ["]"]%char) trimmed in
    candidate ← (if negb bracketed && contains_char (one_of [":"]%char) trimmed then
                   if bool_decide (parse_ipv6 trimmed = None) then Err NotAnIpv6Literal
                   else Ok ($"http://[" ++ trimmed ++ $"]:" ++ fmt_u32 port)
                 else Ok ($"http://" ++ trimmed ++ $":" ++ fmt_u32 port));
    _ ← ok_or (parse_url candidate) InvalidHost;
    Ok candidate.

(** [proxy_auth_token], with the variables of the environment. *)
Definition proxy_auth_token (env : str -> option str) (config : ProxyConfig) : result ProxyError str :=
  match token config with
  | Some t => Ok t
  | None =>
    name ← ok_or (token_env config) TokenMissing;
    ok_or (env name) (TokenVariableUnset name)
  end.

(** What a built proxy sends in [Proxy-Authorization]. *)
Inductive ProxyAuth := NoProxyAuth | BasicAuth (user password : str) | BearerAuth (header : str).

(** [HeaderValue::from_bytes]: visible bytes, blanks and tabs. *)
Definition header_value (s : str) : bool :=
  forallb (fun c => ((32 <=? code c) && negb (code c =? 127)) || (code c =? 9))%N s.

(** [build_proxy]: the URL of the proxy and its credential. *)
Definition build_proxy (env : str -> option str) (config : ProxyConfig) : result ProxyError (str * ProxyAuth) :=
  proxy_url ← build_proxy_url (proxy_host config) (proxy_port config);
  auth ← (match default Basic (auth_type config) with
          | Basic =>
            Ok match proxy_username config with
               | Some user => BasicAuth user (default [] (proxy_password config))
               | None => NoProxyAuth
               end
          | Bearer =>
            tok ← proxy_auth_token env config;
            if header_value ($"Bearer " ++ tok) then Ok (BearerAuth ($"Bearer " ++ tok)) else Err TokenInvalid
          end);
  Ok (proxy_url, auth).

(** [ProxySet::new]: the routes first, then the proxies. *)
Definition new_proxy_set (env : str -> option str) (configs : list ProxyConfig) : result ProxyError (ProxySet * list (str * ProxyAuth)) :=
  rs ← try_map new_route configs;
  ps ← try_map (build_proxy env) configs;
  Ok ({| proxy_hosts_of := map proxy_host configs; routes := rs |}, ps).

(** ** The environment *)

Definition PROXY_VARIABLES : list (str * list str) :=
  [($"https", [$"https_proxy"; $"HTTPS_PROXY"]); ($"http", [$"http_proxy"; $"HTTP_PROXY"])].
Definition NO_PROXY_VARIABLES : list str := [$"no_proxy"; $"NO_PROXY"].

Inductive EnvProxyError :=
  | NotAProxyUrl
  | NotPlainHttp (scheme : str)
  | HasPathQueryOrFragment
  | NamesNoHost
  | UserNotUtf8
  | PasswordNotUtf8
  | PasswordWithoutUser
  | UnsupportedEntry (position : nat).

(** [String::from_utf8]: whether the bytes are UTF-8. *)
Definition cont (c : ascii) : bool := in_range 128 191 c.

Fixpoint valid_utf8 (s : str) : bool :=
  match s with
  | [] => true
  | a :: s1 =>
    if (code a <? 128)%N then valid_utf8 s1
    else match s1 with
    | [] => false
    | b :: s2 =>
      if in_range 194 223 a then cont b && valid_utf8 s2
      else match s2 with
      | [] => false
      | c :: s3 =>
        if in_range 224 239 a then
          (if (code a =? 224)%N then in_range 160 191 b else if (code a =? 237)%N then in_range 128 159 b else cont b)
          && cont c && valid_utf8 s3
        else match s3 with
        | [] => false
        | d :: s4 =>
          in_range 240 244 a
          && (if (code a =? 240)%N then in_range 144 191 b else if (code a =? 244)%N then in_range 128 143 b else cont b)
          && cont c && cont d && valid_utf8 s4
        end
      end
    end
  end.

(** [u8::from_str_radix(hex, 16)] of two bytes: a sign before a digit is read too. *)
Definition hex_pair (a b : ascii) : option N :=
  if decide (a = "+"%char) then hex_value b
  else x ← hex_value a; y ← hex_value b; Some (x * 16 + y)%N.

(** [text.get(index + 1..index + 3)] fails past the end and within a character. *)
Fixpoint percent_decode_bytes (s : str) : option str :=
  match s with
  | [] => Some []
  | c :: rest =>
    if decide (c = "%"%char) then
      match rest with
      | a :: b :: rest =>
        n ← hex_pair a b; out ← percent_decode_bytes rest; Some (ascii_of_N n :: out)
      | _ => None
      end
    else out ← percent_decode_bytes rest; Some (c :: out)
  end.

Definition percent_decode (s : str) : option str := opt_filter valid_utf8 (percent_decode_bytes s).

Definition parse_proxy (value : str) : result EnvProxyError ProxyConfig :=
  let value := trim value in
  url ← ok_or (if contains $"://" value then parse_url value else parse_url ($"http://" ++ value)) NotAProxyUrl;
  if negb (bool_decide (scheme url = $"http")) then Err (NotPlainHttp (scheme url))
  else if negb (bool_decide (path url = [] \/ path url = $"/")) || bool_decide (is_Some (query url)) || bool_decide (is_Some (fragment url))
  then Err HasPathQueryOrFragment
  else
    host ← ok_or (opt_filter (fun h => negb (bool_decide (h = []))) (host_str url)) NamesNoHost;
    let proxy := new_proxy host (default 80%N (port_or_known_default url)) in
    user ← ok_or (percent_decode (username url)) UserNotUtf8;
    pass ← transpose ((fun p => ok_or (percent_decode p) PasswordNotUtf8) <$> password url);
    if bool_decide (user = []) then
      match pass with Some _ => Err PasswordWithoutUser | None => Ok proxy end
    else
      Ok {| proxy_id := proxy_id proxy; protocol := protocol proxy; proxy_host := proxy_host proxy;
            proxy_port := proxy_port proxy; auth_type := auth_type proxy; proxy_username := Some user;
            proxy_password := pass; token_env := token_env proxy; token := token proxy;
            non_proxy_hosts := non_proxy_hosts proxy; environment := environment proxy |}.

(** [str::parse] into [u8] and [u16]. *)
Definition parse_u8 (s : str) : option N := opt_filter (fun n => n <=? 255)%N (parse_u32 s).
Definition parse_u16 (s : str) : option N := opt_filter (fun n => n <=? 65535)%N (parse_u32 s).

Definition read_address (text : str) : option IpAddr :=
  parse_ip (default text (t ← strip_prefix $"[" text; strip_suffix $"]" t)).

Definition parse_no_proxy (position : nat) (entry : str) : result EnvProxyError NoProxy :=
  let unsupported := UnsupportedEntry position in
  if bool_decide (entry = $"*") then Ok NoProxyAll
  else
    match split_once "/" entry with
    | Some (addr, prefix) =>
      addr ← ok_or (read_address addr) unsupported;
      prefix ← ok_or (parse_u8 prefix) unsupported;
      start ← ok_or (network_start addr prefix) unsupported;
      Ok (NoProxyNetwork start prefix)
    | None =>
      match read_address entry with
      | Some addr => Ok (NoProxyAddress addr None)
      | None =>
        '(host, port) ← (match rsplit_once ":" entry with
                         | Some (host, port) => port ← ok_or (parse_u16 port) unsupported; Ok (host, Some port)
                         | None => Ok (entry, None)
                         end);
        match read_address host with
        | Some addr => Ok (NoProxyAddress addr port)
        | None =>
          let bare := match strip_prefix $"*." host with
                      | Some r => r
                      | None => default host (strip_prefix $"." host)
                      end in
          let name := to_ascii_lowercase (trim_end_matches dots bare) in
          if bool_decide (name <> []) && negb (starts_with_char dots name)
             && forallb (fun b => is_alnum b || one_of ["-"; "_"; "."]%char b) name
          then Ok (NoProxyDomain name port) else Err unsupported
        end
      end
    end.

(** The first of the variables that is set to more than blanks. *)
Fixpoint first_set (read : str -> option str) (names : list str) : option (str * str) :=
  match names with
  | [] => None
  | name :: names =>
    match opt_filter (fun value => negb (bool_decide (trim value = []))) (read name) with
    | Some value => Some (name, value)
    | None => first_set read names
    end
  end.

Definition with_environment (p : ProxyConfig) (id protocol : option str) (e : EnvironmentProxy) : ProxyConfig :=
  {| proxy_id := id; protocol := protocol; proxy_host := proxy_host p; proxy_port := proxy_port p;
     auth_type := auth_type p; proxy_username := proxy_username p; proxy_password := proxy_password p;
     token_env := token_env p; token := token p; non_proxy_hosts := non_proxy_hosts p; environment := Some e |}.

Fixpoint variable_proxies (read : str -> option str) (variables : list (str * list str)) : result (str * EnvProxyError) (list ProxyConfig) :=
  match variables with
  | [] => Ok []
  | (scheme, names) :: variables =>
    match first_set read names with
    | Some (variable, value) =>
      proxy ← map_err (fun e => (variable, e)) (parse_proxy value);
      let proxy := with_environment proxy (Some variable) (Some scheme) {| variable := variable; no_proxy := [] |} in
      rest ← variable_proxies read variables;
      Ok (proxy :: rest)
    | None => variable_proxies read variables
    end
  end.

Definition environment_proxies (read : str -> option str) : result (str * EnvProxyError) (list ProxyConfig) :=
  proxies ← variable_proxies read PROXY_VARIABLES;
  if bool_decide (length proxies = 0) then Ok proxies
  else
    match first_set read NO_PROXY_VARIABLES with
    | None => Ok proxies
    | Some (variable_, value) =>
      let entries := List.filter (fun e => negb (bool_decide (e = []))) (map trim (split "," value)) in
      entries ← map_err (fun e => (variable_, e)) (try_map (fun '(i, e) => parse_no_proxy (i + 1) e) (imap pair entries));
      Ok (map (fun p => match environment p with
                        | Some e => with_environment p (proxy_id p) (protocol p) {| variable := variable e; no_proxy := entries |}
                        | None => p
                        end) proxies)
    end.
End Urls.
