(* ===== verification/RedactFacts.v ===== *)
(** * What redaction hides

    A URL that is shown carries no userinfo and no query of its own, and is shown whole when
    it has no part that may be secret; the search for a secret value in a path finds it
    exactly when the path holds it. *)

From Stdlib Require Import Ascii String Lia.
From stdpp Require Import base numbers list strings.
From S2P Require Import Prelude Iter Str PathUtils Addr Url Redact Proxy.

#[local] Set Warnings "-clear-no-such-hyp".

Section Urls.
Context `{UrlLaws}.

(** A URL without anything that may carry a secret. *)
Definition bare (u : Url) : Prop :=
  username u = [] /\ password u = None /\ fragment u = None /\ (query u = None \/ query u = Some REDACTED).

Lemma redact_parsed_bare u port : has_authority u = true -> bare (redact_parsed u port).
Proof.
  intros Ha. unfold redact_parsed. rewrite Ha. cbn [negb]. cbv zeta.
  set (x := if misread u port then _ else u). set (y := set_password None (set_username [] x)).
  assert (username y = [] /\ password y = None) as [Hu Hp].
  { destruct (password_cleared (set_username [] x)) as [E1 E2]. subst y. rewrite E1, E2. split; [apply username_cleared|done]. }
  set (z := match query y with Some _ => _ | None => y end).
  assert (username z = [] /\ password z = None /\ (query z = None \/ query z = Some REDACTED)) as (Zu & Zp & Zq).
  { subst z. destruct (query y) eqn:Eq; [|by auto]. destruct (query_set (Some REDACTED) y) as (E1 & E2 & E3). rewrite E1, E2, E3. auto. }
  destruct (fragment_cleared z) as (F1 & F2 & F3 & F4). unfold bare. rewrite F1, F2, F3, F4. auto.
Qed.

(** A URL is shown bare, or, when it does not parse to one with an authority, not at all; and
    as it parses when no part of it may be secret.  Mirrors whose URL holds a secret apart. *)
Theorem redact_url_hides (masks : list (str * str)) (raw : str)
    (Hmask : forall u, parse_url raw = Some u -> find (fun p => covers (as_str (redact_parsed u (raw_authority_has_port raw))) p.1) masks = None) :
  (redact_url masks raw = UNPARSABLE_URL \/ exists u, redact_url masks raw = as_str u /\ bare u) /\
  (forall u, parse_url raw = Some u -> has_authority u = true -> secret_url_part raw = None -> redact_url masks raw = as_str u).
Proof.
  unfold redact_url. destruct (parse_url raw) as [u|] eqn:Ep; [|split; [by left|done]].
  destruct (has_authority u) eqn:Ea; [|split; [by left|intros v [= <-]; congruence]].
  assert (mask masks (redact_parsed u (raw_authority_has_port raw)) = redact_parsed u (raw_authority_has_port raw)) as ->.
  { unfold mask. by rewrite (Hmask u eq_refl). }
  split; [right; eexists; split; [done|by apply redact_parsed_bare]|].
  intros v [= <-] _. unfold secret_url_part. rewrite Ep, Ea. cbn [negb].
  destruct (_ || _); [done|]. destruct (bool_decide (query u <> None)); [done|]. destruct (bool_decide (fragment u <> None)); [done|].
  destruct (bool_decide (as_str _ <> _)) eqn:E; [done|]. intros _. apply bool_decide_eq_false in E. by apply dec_stable in E.
Qed.
End Urls.

(** ** Characters *)

Lemma cont_lead a s : valid_utf8 (a :: s) = true -> cont a = false.
Proof.
  cbn [valid_utf8]. unfold cont, in_range. destruct (code a <? 128)%N eqn:E1; [intros _; apply andb_false_iff; left; apply N.leb_gt; by apply N.ltb_lt|].
  destruct s as [|b s]; [done|]. destruct ((194 <=? code a) && _)%N eqn:E2.
  { intros _. apply andb_true_iff in E2 as [E2 _]. apply N.leb_le in E2. apply andb_false_iff. right. apply N.leb_gt. lia. }
  destruct s as [|c s]; [done|]. destruct ((224 <=? code a) && _)%N eqn:E3.
  { intros _. apply andb_true_iff in E3 as [E3 _]. apply N.leb_le in E3. apply andb_false_iff. right. apply N.leb_gt. lia. }
  destruct s as [|d s]; [done|]. intros Hv. rewrite !andb_true_iff in Hv. destruct Hv as ((((Ha & _) & _) & _) & _). destruct Ha as [Ha _].
  apply N.leb_le in Ha. apply andb_false_iff. right. apply N.leb_gt. lia.
Qed.

(** The first character of a text: its length, what follows it, and its other bytes. *)
Lemma char_jump a s :
  valid_utf8 (a :: s) = true ->
  let k := char_len (a :: s) in
  1 <= k <= length (a :: s) /\ valid_utf8 (drop k (a :: s)) = true /\
  forall j c, 0 < j < k -> (a :: s) !! j = Some c -> cont c = true.
Proof.
  cbn [valid_utf8 char_len]. unfold in_range. destruct (code a <? 128)%N eqn:E1.
  { apply N.ltb_lt in E1. rewrite (proj2 (N.ltb_lt (code a) 192)) by lia. intros Hv. cbv zeta. split_and!; [lia|cbn; lia|done|]. intros j c ?. lia. }
  destruct s as [|b s]; [done|]. destruct ((194 <=? code a) && _)%N eqn:E2.
  { apply andb_true_iff in E2 as [L2 U2]. apply N.leb_le in L2, U2.
    rewrite (proj2 (N.ltb_ge (code a) 192)), (proj2 (N.ltb_lt (code a) 224)) by lia. intros [Hb Hv]%andb_true_iff. cbv zeta.
    split_and!; [lia|cbn; lia|done|]. intros j c Hj. assert (j = 1) as -> by lia. by intros [= <-]. }
  destruct s as [|c s]; [done|]. destruct ((224 <=? code a) && _)%N eqn:E3.
  { apply andb_true_iff in E3 as [L3 U3]. apply N.leb_le in L3, U3.
    rewrite (proj2 (N.ltb_ge (code a) 192)), (proj2 (N.ltb_ge (code a) 224)), (proj2 (N.ltb_lt (code a) 240)) by lia.
    rewrite !andb_true_iff. intros [[Hb Hc] Hv]. cbv zeta. split_and!; [lia|cbn; lia|done|]. intros j x Hj.
    assert (j = 1 \/ j = 2) as [-> | ->] by lia; intros [= <-]; [|done]. revert Hb. unfold cont, in_range.
    destruct (code a =? 224)%N; [|destruct (code a =? 237)%N]; rewrite !andb_true_iff, !N.leb_le; lia. }
  destruct s as [|d s]; [done|]. rewrite !andb_true_iff, !N.leb_le. intros ((((Ha & Hb) & Hc) & Hd) & Hv).
  rewrite (proj2 (N.ltb_ge (code a) 192)), (proj2 (N.ltb_ge (code a) 224)), (proj2 (N.ltb_ge (code a) 240)) by lia. cbv zeta.
  split_and!; [lia|cbn; lia|done|]. intros j x Hj. assert (j = 1 \/ j = 2 \/ j = 3) as [-> | [-> | ->]] by lia; intros [= <-]; try done.
  revert Hb. unfold cont, in_range. destruct (code a =? 240)%N; [|destruct (code a =? 244)%N]; rewrite !andb_true_iff, !N.leb_le; lia.
Qed.

(** Cutting a text where no character is cut. *)
Definition starts_char (b : str) : Prop := forall c, head b = Some c -> cont c = false.

Lemma valid_split a b : valid_utf8 (a ++ b) = true -> starts_char b -> valid_utf8 a = true /\ valid_utf8 b = true.
Proof.
  intros Hv Hb. remember (length a) as n eqn:En. revert a En Hv. induction (lt_wf n) as [n _ IH]. intros a -> Hv.
  assert (forall a', length a' < length a -> valid_utf8 (a' ++ b) = true -> valid_utf8 a' = true /\ valid_utf8 b = true) as IH'.
  { intros a' Hl Hv'. by apply (IH (length a') Hl a'). }
  assert (forall r, b = r -> match r with [] => True | c :: _ => cont c = false end) as Hhead.
  { intros [|c r] ->; [done|]. by apply Hb. }
  specialize (Hhead b eq_refl). clear IH Hb. unfold in_range in *.
  assert (forall l h c, cont c = false -> (128 <= l)%N -> (h <= 191)%N -> ((l <=? code c) && (code c <=? h))%N = false) as Hrange.
  { intros l h c. unfold cont, in_range. rewrite !andb_false_iff, !N.leb_gt. lia. }
  destruct a as [|x a]; [done|]. cbn [app valid_utf8] in *. unfold in_range in *. destruct (code x <? 128)%N; [by apply IH'; [cbn; lia|]|].
  destruct a as [|y a]; cbn [app] in *.
  { destruct b as [|y b]; [done|]. exfalso.
    destruct ((194 <=? code x) && _)%N; [by rewrite Hhead in Hv|]. destruct b as [|z b]; [done|].
    destruct ((224 <=? code x) && _)%N; [|destruct b as [|w b]; [done|]];
    (destruct (code x =? _)%N; [|destruct (code x =? _)%N]); rewrite ?Hhead, ?(Hrange _ _ y Hhead), ?andb_false_r in Hv by lia; done. }
  destruct ((194 <=? code x) && _)%N.
  { apply andb_true_iff in Hv as [-> Hv]. apply IH' in Hv as [-> ->]; [done|cbn; lia]. }
  destruct a as [|z a]; cbn [app] in *.
  { destruct b as [|z b]; [done|]. exfalso. destruct ((224 <=? code x) && _)%N; [|destruct b as [|w b]; [done|]];
    rewrite ?Hhead, ?andb_false_r in Hv; done. }
  destruct ((224 <=? code x) && _)%N.
  { apply andb_true_iff in Hv as [-> Hv]. apply IH' in Hv as [-> ->]; [done|cbn; lia]. }
  destruct a as [|w a]; cbn [app] in *.
  { destruct b as [|w b]; [done|]. exfalso. rewrite ?Hhead, ?andb_false_r in Hv. done. }
  apply andb_true_iff in Hv as [-> Hv]. apply IH' in Hv as [-> ->]; [done|cbn; lia].
Qed.

(** A byte that no character continues with starts one. *)
Lemma boundary_at s i c : valid_utf8 s = true -> s !! i = Some c -> cont c = false -> valid_utf8 (drop i s) = true.
Proof.
  intros Hv Hi Hc. rewrite <-(take_drop i s) in Hv. apply valid_split in Hv as [_ ?]; [done|].
  intros x. rewrite (drop_S _ _ _ Hi). by intros [= <-].
Qed.

Lemma valid_starts s : valid_utf8 s = true -> starts_char s.
Proof. intros Hv c. destruct s as [|a s]; [done|]. intros [= <-]. by apply (cont_lead a s). Qed.

(** What follows a whole text in a text. *)
Lemma valid_after p t : valid_utf8 p = true -> valid_utf8 (p ++ t) = true -> valid_utf8 t = true.
Proof.
  remember (length p) as n eqn:En. revert p En. induction (lt_wf n) as [n _ IH]. intros [|x p] -> Hp Hv; [done|].
  destruct (char_jump x p Hp) as (Hk & Hd & _). destruct (char_jump x (p ++ t) Hv) as (_ & Hd' & _).
  change (char_len (x :: p ++ t)) with (char_len (x :: p)) in Hd'. change (x :: p ++ t) with ((x :: p) ++ t) in Hd'.
  rewrite drop_app_le in Hd' by lia. apply (IH (length (drop (char_len (x :: p)) (x :: p)))) with (p := drop (char_len (x :: p)) (x :: p)); try done.
  rewrite length_drop. cbn in *. lia.
Qed.

(** ** Occurrences *)

Section Occurrences.
Context (text : str) (Htext : valid_utf8 text = true).

Definition occurs (i : nat) (part : str) : Prop := i <= length text /\ exists t, drop i text = part ++ t.

Definition boundary (i : nat) : Prop := i <= length text /\ valid_utf8 (drop i text) = true.

Lemma occurs_bound i part : occurs i part -> i + length part <= length text.
Proof. intros [Hi [t E]]. apply (f_equal length) in E. rewrite length_drop, length_app in E. lia. Qed.

(** A part that is found starts and ends between characters. *)
Lemma occurs_boundary i part : valid_utf8 part = true -> part <> [] -> occurs i part -> boundary i.
Proof.
  intros Hp Hn [Hi [t E]]. split; [done|]. destruct part as [|c part]; [done|].
  apply (boundary_at text i c Htext); [|by apply (cont_lead c part)].
  rewrite <-(Nat.add_0_r i), <-lookup_drop, E. done.
Qed.

Lemma occurs_end i part : valid_utf8 part = true -> boundary i -> occurs i part -> boundary (i + length part).
Proof.
  intros Hp [Hi Hv] Ho. pose proof (occurs_bound i part Ho). destruct Ho as [_ [t E]]. split; [done|].
  rewrite <-drop_drop, E, drop_app_length. rewrite E in Hv. by apply (valid_after part).
Qed.

Lemma find_str_first part a :
  a <= length text ->
  match find_str part (drop a text) with
  | Some k => occurs (a + k) part /\ forall i, a <= i -> occurs i part -> a + k <= i
  | None => forall i, a <= i -> ~ occurs i part
  end.
Proof.
  intros Ha. pose proof (find_str_spec part (drop a text)) as Hf. rewrite length_drop in Hf.
  assert (forall i, a <= i -> occurs i part -> starts_with part (drop (i - a) (drop a text)) = true) as Hs.
  { intros i Hi [_ [t E]]. apply starts_with_app. exists t. rewrite drop_drop. by replace (a + (i - a)) with i by lia. }
  destruct (find_str part (drop a text)) as [k|].
  - destruct Hf as ([t E] & Hk & Hmin). rewrite drop_drop in E. split; [split; [lia|eauto]|].
    intros i Hi Ho. destruct (decide (a + k <= i)) as [|Hn]; [done|]. specialize (Hmin (i - a) ltac:(lia)).
    rewrite (Hs i Hi Ho) in Hmin. done.
  - intros i Hi Ho. specialize (Hf (i - a)). rewrite (Hs i Hi Ho) in Hf. destruct Ho as [Ho _]. discriminate Hf. lia.
Qed.

(** The step to the next character. *)
Lemma next_char i : boundary i -> i < length text ->
  let j := i + char_len (drop i text) in boundary j /\ i < j /\ forall k part, valid_utf8 part = true -> part <> [] -> i < k -> occurs k part -> j <= k.
Proof.
  intros [Hi Hv] Hlt. destruct (drop i text) as [|a s] eqn:E.
  { apply (f_equal length) in E. rewrite length_drop in E. cbn in E. lia. }
  destruct (char_jump a s Hv) as (Hk & Hd & Hc). cbv zeta. set (n := char_len (a :: s)) in *.
  pose proof (f_equal length E) as El. rewrite length_drop in El. split_and!; [split; [lia|]|lia|].
  - by rewrite <-drop_drop, E.
  - intros k part Hp Hn Hik [Hkl [t Et]]. destruct (decide (i + n <= k)) as [|Hlt']; [done|]. exfalso.
    destruct part as [|c part]; [done|]. specialize (Hc (k - i) c ltac:(lia)).
    rewrite <-E, lookup_drop in Hc. replace (i + (k - i)) with k in Hc by lia.
    rewrite <-(Nat.add_0_r k), <-lookup_drop, Et in Hc. specialize (Hc eq_refl). rewrite (cont_lead c part Hp) in Hc. done.
Qed.

Lemma occurrences_sound fuel a part i : i ∈ occurrences_from fuel text a part -> a <= i /\ occurs i part.
Proof.
  revert a. induction fuel as [|fuel IH]; intros a; cbn [occurrences_from]; [by intros ?%elem_of_nil|].
  case_decide as Ha; [by intros ?%elem_of_nil|]. pose proof (find_str_first part a ltac:(lia)) as Hf.
  destruct (find_str part (drop a text)) as [k|]; [|by intros ?%elem_of_nil]. destruct Hf as [Ho _].
  intros [->|[? ?]%IH]%elem_of_cons; [split; [lia|done]|]. split; [lia|done].
Qed.

(** Every place of a part that is not empty is among them, and is passed only for an
    earlier one. *)
Lemma occurrences_complete fuel a part i :
  valid_utf8 part = true -> part <> [] -> boundary a -> length text - a < fuel -> a <= i -> occurs i part ->
  i ∈ occurrences_from fuel text a part.
Proof.
  intros Hp Hn. revert a. induction fuel as [|fuel IH]; intros a Hb Hf Hai Ho; [lia|]. cbn [occurrences_from].
  pose proof (occurs_bound i part Ho) as Hbound. assert (0 < length part) as Hpos by (destruct part; [done|cbn; lia]).
  rewrite decide_False by lia. pose proof (find_str_first part a ltac:(lia)) as Hfirst.
  destruct (find_str part (drop a text)) as [k|]; [|by destruct (Hfirst i Hai Ho)]. destruct Hfirst as [Hk Hmin].
  specialize (Hmin i Hai Ho). apply elem_of_cons. destruct (decide (i = a + k)) as [|Hne]; [by left|]. right.
  pose proof (occurs_boundary _ _ Hp Hn Hk) as Hbk. pose proof (occurs_bound _ _ Hk).
  destruct (next_char (a + k) Hbk ltac:(lia)) as (Hb' & Hlt & Hnext). specialize (Hnext i part Hp Hn ltac:(lia) Ho).
  apply IH; [done|lia|done|done].
Qed.

(** The end of the text is a place of the empty part. *)
Lemma occurrences_end fuel a : boundary a -> length text - a < fuel -> length text ∈ occurrences_from fuel text a [].
Proof.
  revert a. induction fuel as [|fuel IH]; intros a Hb Hf; [lia|]. cbn [occurrences_from].
  destruct Hb as [Hal Hv]. rewrite decide_False by lia.
  assert (find_str [] (drop a text) = Some 0) as -> by (by destruct (drop a text)). rewrite Nat.add_0_r. apply elem_of_cons.
  destruct (decide (a = length text)) as [->|Hne]; [by left|]. right.
  destruct (next_char a (conj Hal Hv) ltac:(lia)) as (Hb' & Hlt & _). apply IH; [done|lia].
Qed.

(** The first place where a test holds. *)
Lemma occurrences_find fuel a part p s :
  valid_utf8 part = true -> part <> [] -> boundary a ->
  find p (occurrences_from fuel text a part) = Some s -> forall i, a <= i -> occurs i part -> p i = true -> s <= i.
Proof.
  intros Hp Hn. revert a. induction fuel as [|fuel IH]; intros a Hb; cbn [occurrences_from]; [done|].
  destruct Hb as [Hal Hv]. rewrite decide_False by lia. pose proof (find_str_first part a ltac:(lia)) as Hfirst.
  destruct (find_str part (drop a text)) as [k|]; [|done]. destruct Hfirst as [Hk Hmin]. cbn [find].
  destruct (p (a + k)) eqn:Ep; [intros [= <-]; auto|]. intros Hs i Hi Ho Hpi. specialize (Hmin i Hi Ho).
  assert (a + k <> i) by congruence. pose proof (occurs_boundary _ _ Hp Hn Hk) as Hbk. pose proof (occurs_bound _ _ Ho).
  assert (0 < length part) by (destruct part; [done|cbn; lia]).
  destruct (next_char (a + k) Hbk ltac:(lia)) as (Hb' & Hlt & Hnext). apply (IH _ Hb' Hs i); [|done|done].
  apply (Hnext i part); [done|done|lia|done].
Qed.

(** ** Parts in order *)

(** The parts of a value, one after another, from one place to another. *)
Inductive laid : nat -> list str -> nat -> Prop :=
  | laid_nil a : laid a [] a
  | laid_cons a i p ps b : a <= i -> occurs i p -> laid (i + length p) ps b -> laid a (p :: ps) b.

(** Taking each part where it first comes ends earliest. *)
Lemma find_middle_first ps a :
  Forall (fun p => valid_utf8 p = true) ps -> boundary a ->
  match find_middle text a ps with
  | Some b => laid a ps b /\ boundary b /\ forall a' b', a <= a' -> laid a' ps b' -> b <= b'
  | None => forall a' b', a <= a' -> ~ laid a' ps b'
  end.
Proof.
  revert a. induction ps as [|p ps IH]; intros a Hv Hb; cbn [find_middle].
  { split_and!; [constructor|done|]. intros a' b' Ha Hl. by inversion Hl; subst. }
  apply Forall_cons in Hv as [Hp Hv]. destruct Hb as [Hal Hvt]. pose proof (find_str_first p a Hal) as Hf.
  destruct (find_str p (drop a text)) as [k|] eqn:Ek.
  - destruct Hf as [Hk Hmin]. assert (boundary (a + k)) as Hbk.
    { destruct (decide (p = [])) as [-> |Hn]; [|by apply (occurs_boundary _ p)].
      assert (k = 0) as -> by (destruct (drop a text); cbn in Ek; congruence). rewrite Nat.add_0_r. done. }
    pose proof (occurs_end _ _ Hp Hbk Hk) as Hbe. rewrite Nat.add_assoc. specialize (IH _ Hv Hbe).
    assert (forall a' b', a <= a' -> laid a' (p :: ps) b' -> exists i, a + k + length p <= i /\ laid i ps b') as Hinv.
    { intros a' b' Ha Hl. inversion Hl as [|? i ? ? ? Hi Ho Hl']; subst. exists (i + length p). split; [|done].
      specialize (Hmin i ltac:(lia) Ho). lia. }
    destruct (find_middle text (a + k + length p) ps) as [b|].
    + destruct IH as (Hl & Hbb & Hleast). split_and!; [apply (laid_cons a (a + k)); [lia|done|done]|done|].
      intros a' b' Ha Hl'. destruct (Hinv a' b' Ha Hl') as (i & Hi & Hl''). by apply (Hleast i).
    + intros a' b' Ha Hl'. destruct (Hinv a' b' Ha Hl') as (i & Hi & Hl''). by apply (IH i b').
  - intros a' b' Ha Hl. inversion Hl; subst. eapply Hf; [|done]. lia.
Qed.
End Occurrences.

(** ** The parts of a value *)

Lemma closing_brace_at_Some depth a text i :
  0 < depth -> closing_brace_at depth a text = Some i -> a <= i /\ text !! (i - a) = Some "}"%char.
Proof.
  revert depth a. induction text as [|c text IH]; intros depth a Hd; cbn [closing_brace_at]; [done|].
  destruct (decide (c = "{"%char)) as [->|Hn].
  { rewrite decide_False by lia. intros [Hi E]%IH; [|lia]. split; [lia|]. by replace (i - a) with (S (i - S a)) by lia. }
  destruct (decide (c = "}"%char)) as [->|Hn'].
  - case_decide as E0; [intros [= <-]; by rewrite Nat.sub_diag|].
    intros [Hi E]%IH; [|lia]. split; [lia|]. by replace (i - a) with (S (i - S a)) by lia.
  - rewrite decide_False by lia. intros [Hi E]%IH; [|lia]. split; [lia|]. by replace (i - a) with (S (i - S a)) by lia.
Qed.

(** One reference of a value: what is before and behind it. *)
Lemma reference_cut rest start stop :
  valid_utf8 rest = true -> find_str $"${" rest = Some start -> closing_brace (drop (start + 2) rest) = Some stop ->
  valid_utf8 (take start rest) = true /\ valid_utf8 (drop (start + 2 + stop + 1) rest) = true /\
  length (drop (start + 2 + stop + 1) rest) < length rest.
Proof.
  intros Hv Hs Hc. pose proof (find_str_spec $"${" rest) as Hf. rewrite Hs in Hf. destruct Hf as ([t Et] & Hl & _).
  pose proof (take_drop start rest) as Es. rewrite <-Es, Et in Hv.
  apply valid_split in Hv as [Ht Hv]; [|by intros c [= <-]]. split; [done|].
  apply (valid_after $"${") in Hv; [|done].
  assert (drop (start + 2) rest = t) as E2 by (rewrite <-drop_drop, Et; done).
  rewrite E2 in Hc. apply closing_brace_at_Some in Hc as [_ Hc]; [|lia]. rewrite Nat.sub_0_r in Hc.
  pose proof (boundary_at t stop "}"%char Hv Hc eq_refl) as Hb. rewrite (drop_S _ _ _ Hc) in Hb.
  apply (valid_after $"}") in Hb; [|done].
  split; [|rewrite length_drop; apply (f_equal length) in Et; rewrite length_drop, length_app in Et; cbn in Et; lia].
  replace (start + 2 + stop + 1) with (start + 2 + S stop) by lia. by rewrite <-drop_drop, E2.
Qed.

Lemma literal_parts_valid fuel parts rest :
  Forall (fun p => valid_utf8 p = true) parts -> valid_utf8 rest = true ->
  Forall (fun p => valid_utf8 p = true) (literal_parts_from fuel parts rest).
Proof.
  assert (forall parts rest, Forall (fun p => valid_utf8 p = true) parts -> valid_utf8 rest = true -> Forall (fun p => valid_utf8 p = true) (parts ++ [rest])) as Happ.
  { intros ps r Hps Hr. apply Forall_app. split; [done|]. by constructor. }
  revert parts rest. induction fuel as [|fuel IH]; intros parts rest Hp Hr; cbn [literal_parts_from]; [by apply Happ|].
  destruct (find_str $"${" rest) as [start|] eqn:Es; [|by apply Happ].
  destruct (closing_brace _) as [stop|] eqn:Ec; [|by apply Happ].
  destruct (reference_cut rest start stop Hr Es Ec) as (H1 & H2 & _). apply IH; [by apply Happ|done].
Qed.

(** The parts do not depend on the budget of the loop. *)
Lemma literal_parts_enough fuel fuel' parts rest :
  valid_utf8 rest = true -> length rest < fuel -> length rest < fuel' ->
  literal_parts_from fuel parts rest = literal_parts_from fuel' parts rest.
Proof.
  revert fuel' parts rest. induction fuel as [|fuel IH]; intros [|fuel'] parts rest Hv Hf Hf'; try lia. cbn [literal_parts_from].
  destruct (find_str $"${" rest) as [start|] eqn:Es; [|done]. destruct (closing_brace _) as [stop|] eqn:Ec; [|done].
  destruct (reference_cut rest start stop Hv Es Ec) as (_ & H2 & H3). apply IH; [done|lia|lia].
Qed.

Lemma literal_parts_from_nonempty fuel parts rest : literal_parts_from fuel parts rest <> [].
Proof.
  revert parts rest. induction fuel as [|fuel IH]; intros parts rest; cbn [literal_parts_from]; [by destruct parts|].
  destruct (find_str _ _); [|by destruct parts]. destruct (closing_brace _); [apply IH|by destruct parts].
Qed.

(** ** The search *)

(** A text holds a value: its parts lie in the text in order, the first where a segment
    starts and the last where one ends, and some part is more than separators. *)
Definition holds (text : str) (segments : bool) (parts : list str) : Prop :=
  (exists part, part ∈ parts /\ exists c, c ∈ part /\ is_separator c = false) /\
  match parts with
  | [] => False
  | first :: rest => exists i, occurs text i first /\ starts_segment segments text i first = true /\
    match split_last rest with
    | None => ends_segment segments text i first = true
    | Some (last_part, middle) => exists b j, laid text (i + length first) middle b /\ b <= j /\ occurs text j last_part /\
        ends_segment segments text j last_part = true
    end
  end.

Lemma split_last_Some {A} (l : list A) x r : split_last l = Some (x, r) -> l = r ++ [x].
Proof.
  unfold split_last. destruct l as [|y l _] using rev_ind; [done|]. rewrite last_snoc, length_app. cbn. intros [= <- <-].
  f_equal. rewrite take_app_le by lia. rewrite take_ge by lia. done.
Qed.

Section Holds.
Context (text : str) (segments : bool) (Htext : valid_utf8 text = true).

Lemma boundary_0 : boundary text 0.
Proof. split; [lia|done]. Qed.

(** A part anywhere from a place on, under a test that holds at the end of the text. *)
Lemma occurrences_any a part (p : nat -> bool) :
  valid_utf8 part = true -> boundary text a -> (part = [] -> p (length text) = true) ->
  existsb p (occurrences text a part) = true <-> exists i, a <= i /\ occurs text i part /\ p i = true.
Proof.
  intros Hp Hb Hend. rewrite existsb_exists. setoid_rewrite <-list_elem_of_In. split.
  - intros (i & Hi & Hpi). apply (occurrences_sound text) in Hi as [? ?]. eauto.
  - intros (i & Hai & Ho & Hpi). unfold occurrences. destruct (decide (part = [])) as [->|Hn].
    + exists (length text). split; [|by apply Hend]. apply occurrences_end; try done; lia.
    + exists i. split; [|done]. apply occurrences_complete; try done; lia.
Qed.

(** The first place from the start of the text where a part starts a segment. *)
Lemma first_start part :
  valid_utf8 part = true ->
  match find (fun i => starts_segment segments text i part) (occurrences text 0 part) with
  | Some s => occurs text s part /\ starts_segment segments text s part = true /\ boundary text s /\
      forall i, occurs text i part -> starts_segment segments text i part = true -> s <= i
  | None => forall i, occurs text i part -> starts_segment segments text i part = false
  end.
Proof.
  intros Hp. destruct (decide (part = [])) as [->|Hn].
  - assert (occurs text 0 []) as Ho by (split; [lia|by exists text]).
    assert (starts_segment segments text 0 [] = true) as Hs by (unfold starts_segment, edge; cbn; by rewrite orb_true_r).
    unfold occurrences. cbn [occurrences_from]. rewrite decide_False by lia.
    assert (find_str [] (drop 0 text) = Some 0) as -> by (by destruct text). cbn [find Nat.add]. rewrite Hs.
    split; [done|]. split; [done|]. split; [apply boundary_0; done|intros; lia].
  - destruct (find _ _) as [s|] eqn:Ef.
    + pose proof (find_some _ _ Ef) as [Hin%list_elem_of_In Hs]. apply (occurrences_sound text) in Hin as [_ Ho].
      split; [done|]. split; [done|]. split; [by apply (occurs_boundary text Htext s part)|].
      intros i Hi Hsi. apply (occurrences_find text Htext _ 0 part _ s Hp Hn boundary_0 Ef i); [lia|done|done].
    + intros i Hi. apply (find_none _ _ Ef). apply list_elem_of_In. apply occurrences_complete; try done; try lia. by apply boundary_0.
Qed.
End Holds.

(** C19: The search for a value in a text finds it exactly when the text holds it, however the
    parts of the value overlap or repeat. *)
Theorem holds_value_spec (text value : str) (segments : bool)
    (Htext : valid_utf8 text = true) (Hvalue : valid_utf8 value = true) :
  holds_value text value segments = true <-> holds text segments (literal_parts value).
Proof.
  assert (Forall (fun p => valid_utf8 p = true) (literal_parts value)) as Hparts by (by apply literal_parts_valid).
  unfold holds_value. generalize dependent (literal_parts value). intros parts Hparts. unfold holds.
  assert (existsb (contains_char (fun c => negb (is_separator c))) parts = true <-> exists part, part ∈ parts /\ exists c, c ∈ part /\ is_separator c = false) as Hsome.
  { rewrite existsb_exists. setoid_rewrite list_elem_of_In. unfold contains_char. setoid_rewrite existsb_exists. setoid_rewrite negb_true_iff. done. }
  rewrite <-Hsome. destruct (existsb _ parts); cbn [negb]; [|split; [done|by intros [? _]]].
  assert (forall P Q : Prop, (P <-> Q) -> (P <-> true = true /\ Q)) as Hdrop by tauto. apply Hdrop. clear Hdrop Hsome.
  destruct parts as [|first rest]; [done|]. apply Forall_cons in Hparts as [Hfirst Hrest].
  pose proof (first_start text segments Htext first Hfirst) as Hf.
  destruct (split_last rest) as [[last_part middle]|] eqn:El.
  - apply split_last_Some in El as ->. apply Forall_app in Hrest as [Hmid [Hlast _]%Forall_cons].
    destruct (find _ (occurrences text 0 first)) as [s|]; cycle 1.
    { split; [done|]. intros (i & Ho & Hs & _). rewrite Hf in Hs; done. }
    destruct Hf as (Ho & Hs & Hb & Hleast). pose proof (occurs_end text s first Hfirst Hb Ho) as Hbe.
    pose proof (find_middle_first text Htext middle (s + length first) Hmid Hbe) as Hm.
    destruct (find_middle text (s + length first) middle) as [b|]; cycle 1.
    { split; [done|]. intros (i & Hi & Hsi & b & j & Hl & _). specialize (Hleast i Hi Hsi). exfalso. apply (Hm (i + length first) b); [lia|done]. }
    destruct Hm as (Hl & Hbb & Hmin). rewrite (occurrences_any text Htext) by (try done; intros ->; unfold ends_segment, edge;
      rewrite Nat.add_0_r, drop_all; cbn; by rewrite orb_true_r).
    split.
    + intros (j & Hj & Hoj & Hej). exists s. split; [done|]. split; [done|]. by exists b, j.
    + intros (i & Hi & Hsi & b' & j & Hl' & Hj & Hoj & Hej). specialize (Hleast i Hi Hsi).
      specialize (Hmin (i + length first) b' ltac:(lia) Hl'). exists j. split; [lia|done].
  - rewrite (occurrences_any text Htext 0 first _ Hfirst (boundary_0 text Htext)); cycle 1.
    { intros ->. unfold starts_segment, ends_segment, edge. rewrite Nat.add_0_r, drop_all. cbn. by rewrite !orb_true_r. }
    setoid_rewrite andb_true_iff. split; [intros (i & _ & ? & ? & ?); eauto|]. intros (i & ? & ? & ?). exists i. split; [lia|done].
Qed.
