(* ===== verification/ProxyFacts.v ===== *)
(** * Facts about proxies

    The resuming loop of [glob_matches] ends and decides the pattern language; a [NO_PROXY]
    range bypasses the addresses of its block; which proxy a URL goes through depends on
    its origin alone. *)

From Stdlib Require Import Ascii String Lia.
From stdpp Require Import base numbers list strings.
From S2P Require Import Prelude Iter Str PathUtils Addr IpText Url Proxy.

#[local] Set Warnings "-clear-no-such-hyp".

(** ** Patterns *)

(** A text a pattern matches: a star stands for any run of characters. *)
Inductive globs : str -> str -> Prop :=
  | globs_end : globs [] []
  | globs_star p run t : globs p t -> globs (star :: p) (run ++ t)
  | globs_byte c p t : c <> star -> globs p t -> globs (c :: p) (c :: t).

Lemma globs_nil_l t : globs [] t -> t = [].
Proof. by inversion 1. Qed.

Lemma globs_nil_r p : globs p [] <-> forallb (fun b => bool_decide (b = star)) p = true.
Proof.
  split.
  - intros Hg. remember [] as t eqn:Et. induction Hg as [|p run t Hg IH|]; cbn; [done| |done].
    apply app_eq_nil in Et as [-> ->]. rewrite bool_decide_true by done. by apply IH.
  - induction p as [|c p IH]; cbn; [constructor|]. intros [->%bool_decide_eq_true Hp]%andb_true_iff.
    apply (globs_star p []). by apply IH.
Qed.

Lemma globs_star_drop p t : globs (star :: p) t <-> exists k, k <= length t /\ globs p (drop k t).
Proof.
  split.
  - inversion 1 as [|? run t' Hg|]; subst; [|done]. exists (length run). rewrite length_app. split; [lia|].
    by rewrite drop_app_length.
  - intros (k & _ & Hg). rewrite <-(take_drop k t). by constructor.
Qed.

Lemma globs_byte_inv c p t : c <> star -> globs (c :: p) t -> exists t', t = c :: t' /\ globs p t'.
Proof. intros Hc. inversion 1; subst; [done|]. eauto. Qed.

(** A run of plain bytes before the rest of a pattern. *)
Lemma globs_run run p t : star ∉ run -> globs (run ++ p) t <-> exists t', t = run ++ t' /\ globs p t'.
Proof.
  revert t. induction run as [|c run IH]; intros t Hs; cbn.
  - split; [eauto|by intros (? & -> & ?)].
  - apply not_elem_of_cons in Hs as [Hc Hs]. split.
    + intros (t' & -> & Hg)%globs_byte_inv; [|congruence]. apply IH in Hg as (t'' & -> & Hg); eauto.
    + intros (t' & -> & Hg). constructor; [congruence|]. apply IH; eauto.
Qed.

Section Glob.
Context (pattern text : str).

(** What is left to decide: with nothing to resume from, whether the rest of the pattern
    matches the rest of the text; else whether the pattern behind the last star matches
    from where it stands or further on. *)
Definition left_to_match (g : Glob) : Prop :=
  match resume g with
  | None => globs (drop (at_pattern g) pattern) (drop (at_text g) text)
  | Some (s, m) => exists k, m <= k <= length text /\ globs (drop (S s) pattern) (drop k text)
  end.

(** The bytes between the last star and the place in the pattern are those of the text. *)
Definition glob_inv (g : Glob) : Prop :=
  (globs pattern text <-> left_to_match g) /\ at_text g <= length text /\ at_pattern g <= length pattern /\
  match resume g with
  | None => True
  | Some (s, m) => s < at_pattern g /\ m <= at_text g /\ exists run, star ∉ run /\ drop (S s) pattern = run ++ drop (at_pattern g) pattern /\
      drop m text = run ++ drop (at_text g) text
  end.

Definition glob_measure (g : Glob) : N :=
  let width := (length pattern + length text + 2) in
  N.of_nat (match resume g with None => length text + 1 | Some (_, m) => length text - m end * width
            + (length text - at_text g) + (length pattern - at_pattern g)).

Lemma glob_star_step p t r :
  glob_inv {| at_pattern := p; at_text := t; resume := r |} -> t < length text -> pattern !! p = Some star ->
  glob_inv {| at_pattern := p + 1; at_text := t; resume := Some (p, t) |}.
Proof.
  intros (Hm & Ht & Hp & Hr) Hlt Hs. unfold glob_inv, left_to_match in *. cbn in *.
  pose proof (lookup_lt_Some _ _ _ Hs) as Hlp. replace (p + 1) with (S p) by lia.
  pose proof (drop_S _ _ _ Hs) as Ed. split_and!; [|lia|lia|lia|lia|].
  2:{ exists []. split; [apply not_elem_of_nil|done]. }
  rewrite Hm. destruct r as [[s m]|].
  - destruct Hr as (_ & Hmt & run & Hrun & E1 & E2). rewrite E1, Ed. split.
    + intros (k & Hk & (t' & Et & Hg)%globs_run); [|done]. apply globs_star_drop in Hg as (j & Hj & Hg).
      assert (drop (k + length run) text = t') as Et'.
      { rewrite <-drop_drop, Et. by rewrite drop_app_length. }
      assert (length run = t - m) as El.
      { apply (f_equal length) in E2. rewrite length_app, !length_drop in E2. lia. }
      exists (k + length run + j). rewrite <-Et', drop_drop in Hg. split; [|done].
      rewrite <-Et', length_drop in Hj.
      apply (f_equal length) in Et. rewrite length_app, length_drop in Et. lia.
    + intros (k & Hk & Hg). exists m. split; [lia|]. apply globs_run; [done|]. exists (drop t text).
      split; [done|]. apply globs_star_drop. exists (k - t). rewrite length_drop, drop_drop. split; [lia|].
      by replace (t + (k - t)) with k by lia.
  - rewrite Ed. rewrite globs_star_drop. split.
    + intros (k & Hk & Hg). exists (t + k). rewrite drop_drop in Hg. rewrite length_drop in Hk. split; [lia|done].
    + intros (k & Hk & Hg). exists (k - t). rewrite length_drop, drop_drop. split; [lia|].
      by replace (t + (k - t)) with k by lia.
Qed.

Lemma glob_byte_step p t r c :
  glob_inv {| at_pattern := p; at_text := t; resume := r |} -> text !! t = Some c -> pattern !! p = Some c -> c <> star ->
  glob_inv {| at_pattern := p + 1; at_text := t + 1; resume := r |}.
Proof.
  intros (Hm & Ht & Hp & Hr) Hc Hpc Hs. unfold glob_inv, left_to_match in *. cbn in *.
  pose proof (lookup_lt_Some _ _ _ Hc). pose proof (lookup_lt_Some _ _ _ Hpc).
  replace (p + 1) with (S p) by lia. replace (t + 1) with (S t) by lia.
  pose proof (drop_S _ _ _ Hpc) as Ep. pose proof (drop_S _ _ _ Hc) as Et.
  destruct r as [[s m]|]; split_and!; try lia; try done.
  - destruct Hr as (_ & Hmt & run & Hrun & E1 & E2). exists (run ++ [c]). split_and!.
    + rewrite not_elem_of_app, list_elem_of_singleton. split; [done|congruence].
    + by rewrite E1, Ep, <-app_assoc.
    + by rewrite E2, Et, <-app_assoc.
  - rewrite Hm, Ep, Et. split; [|by constructor]. intros Hg. apply globs_byte_inv in Hg as (t' & E & Hg); [|done]. injection E as E. by rewrite E.
Qed.

(** Behind the last star, the text does not match from where it stands. *)
Lemma glob_mismatch p t c :
  text !! t = Some c -> pattern !! p <> Some star -> pattern !! p <> Some c -> globs (drop p pattern) (drop t text) -> False.
Proof.
  intros Hc Hs Hn Hg. rewrite (drop_S _ _ _ Hc) in Hg. destruct (pattern !! p) as [d|] eqn:Ed.
  - rewrite (drop_S _ _ _ Ed) in Hg. apply globs_byte_inv in Hg as (t' & E & _); congruence.
  - rewrite drop_ge in Hg by (by apply lookup_ge_None). apply globs_nil_l in Hg. done.
Qed.

Lemma glob_resume_step p t s m c :
  glob_inv {| at_pattern := p; at_text := t; resume := Some (s, m) |} -> text !! t = Some c ->
  pattern !! p <> Some star -> pattern !! p <> Some c ->
  glob_inv {| at_pattern := s + 1; at_text := m + 1; resume := Some (s, m + 1) |}.
Proof.
  intros (Hm & Ht & Hp & Hsp & Hmt & run & Hrun & E1 & E2) Hc Hs Hn. unfold glob_inv, left_to_match in *. cbn in *.
  pose proof (lookup_lt_Some _ _ _ Hc). replace (s + 1) with (S s) by lia. replace (m + 1) with (S m) by lia.
  split_and!; [|lia|lia|lia|lia|].
  2:{ exists []. split; [apply not_elem_of_nil|done]. }
  rewrite Hm. split.
  - intros (k & Hk & Hg). exists k. split; [|done]. destruct (decide (k = m)) as [-> |]; [|lia]. exfalso.
    rewrite E1, E2 in Hg. apply globs_run in Hg as (t' & E & Hg); [|done]. apply app_inv_head in E as <-.
    by apply (glob_mismatch p t c).
  - intros (k & Hk & Hg). exists k. split; [lia|done].
Qed.

(** At the end of the text, what is left of the pattern decides. *)
Lemma glob_end p t r :
  glob_inv {| at_pattern := p; at_text := t; resume := r |} -> text !! t = None ->
  globs pattern text <-> globs (drop p pattern) [].
Proof.
  intros (Hm & Ht & Hp & Hr) Hn%lookup_ge_None. unfold left_to_match in *. cbn in *. rewrite Hm.
  assert (drop t text = []) as Et by (by apply drop_ge). destruct r as [[s m]|]; [|by rewrite Et].
  destruct Hr as (Hsp & Hmt & run & Hrun & E1 & E2). rewrite E1. rewrite Et, app_nil_r in E2. split.
  - intros (k & Hk & (t' & E & Hg)%globs_run); [|done].
    assert (t' = []) as ->; [|done]. apply length_zero_iff_nil.
    apply (f_equal length) in E, E2. rewrite length_app, !length_drop in *. lia.
  - intros Hg. exists m. split; [lia|]. apply globs_run; [done|]. exists []. by rewrite app_nil_r.
Qed.

Lemma glob_step_ok g :
  glob_inv g ->
  match glob_step pattern text g with
  | inl g' => glob_inv g' /\ (glob_measure g' < glob_measure g)%N
  | inr b => b = true <-> globs pattern text
  end.
Proof.
  destruct g as [p t r]. intros Hi. unfold glob_step. cbn. pose proof Hi as (_ & Ht & Hp & Hr). cbn in Ht, Hp, Hr.
  destruct (text !! t) as [c|] eqn:Ec.
  - pose proof (lookup_lt_Some _ _ _ Ec) as Hlt. case_decide as Es; [|case_decide as Eb; [|destruct r as [[s m]|]]].
    + pose proof (lookup_lt_Some _ _ _ Es). split; [by apply (glob_star_step p t r)|]. unfold glob_measure. cbn.
      destruct r as [[s m]|]; [destruct Hr as (? & ? & _)|]; nia.
    + pose proof (lookup_lt_Some _ _ _ Eb). split; [apply (glob_byte_step p t r c); congruence|]. unfold glob_measure. cbn.
      destruct r as [[s m]|]; nia.
    + split; [by apply (glob_resume_step p t s m c)|]. destruct Hr as (Hsp & Hmt & _). unfold glob_measure. cbn. nia.
    + split; [done|]. destruct Hi as (Hm & _). rewrite Hm. intros Hg. exfalso. by apply (glob_mismatch p t c).
  - rewrite (glob_end p t r) by done. by rewrite globs_nil_r.
Qed.

(** The loop ends, and decides the language of the pattern. *)
Lemma glob_decides : exists b,
  run_loop (glob_step pattern text) (glob_fuel pattern text) {| at_pattern := 0; at_text := 0; resume := None |} = Some b /\
  (b = true <-> globs pattern text).
Proof.
  apply (run_total _ glob_inv (fun b => b = true <-> globs pattern text) glob_measure glob_step_ok).
  - unfold glob_inv, left_to_match. cbn. split_and!; [done|lia|lia|done].
  - unfold glob_measure, glob_fuel. cbn. nia.
Qed.
End Glob.

Lemma glob_matches_globs pattern text : glob_matches pattern text = true <-> globs pattern text.
Proof. unfold glob_matches. destruct (glob_decides pattern text) as (b & -> & Hb). exact Hb. Qed.

(** How an entry of [non_proxy_hosts] and a host are compared. *)
Definition entry_text (entry : str) : str := to_ascii_lowercase (trim_end_matches dots (trim entry)).
Definition host_name (host : str) : str := to_ascii_lowercase (trim_end_matches dots host).

(** A host goes direct when some entry, both in lower case and without final dots, is not
    empty and matches it whole, the stars of the entry for any run of characters; or is the
    host or a parent of it behind a dot; or is the host behind a star and a dot.  The loop
    that decides it ends on every entry and host. *)
Theorem should_bypass_proxy_spec (host : str) (entries : list str) :
  should_bypass_proxy host entries = true <->
  exists entry, entry ∈ entries /\ entry_text entry <> [] /\
    (globs (entry_text entry) (host_name host) \/
     (exists parent, parent <> [] /\ entry_text entry = $"." ++ parent /\
        (host_name host = parent \/ exists sub, host_name host = sub ++ $"." ++ parent)) \/
     entry_text entry = $"*." ++ host_name host).
Proof.
  unfold should_bypass_proxy. rewrite existsb_exists. setoid_rewrite <-list_elem_of_In.
  apply exist_proper. intros entry. apply and_iff_compat_l. unfold bypass_entry.
  fold (entry_text entry). fold (host_name host). set (e := entry_text entry). set (h := host_name host).
  case_bool_decide as Ee; [rewrite Ee; naive_solver|]. rewrite !orb_true_iff, glob_matches_globs, bool_decide_eq_true, strip_prefix_Some.
  assert (is_some_and (fun suffix => bool_decide (suffix <> []) && (bool_decide (h = suffix) || ends_with e h)) (strip_prefix $"." e) = true <->
    exists parent, parent <> [] /\ e = $"." ++ parent /\ (h = parent \/ exists sub, h = sub ++ $"." ++ parent)) as ->.
  { destruct (strip_prefix $"." e) as [parent|] eqn:Ep; cbn [is_some_and].
    - apply strip_prefix_Some in Ep. rewrite andb_true_iff, orb_true_iff, !bool_decide_eq_true.
      assert (ends_with e h = true <-> exists sub, h = sub ++ $"." ++ parent) as ->.
      { unfold ends_with. rewrite <-Ep. destruct (strip_suffix e h) as [sub|] eqn:Es.
        - apply strip_suffix_Some in Es. naive_solver.
        - split; [done|]. intros [sub Hsub]. apply strip_suffix_Some in Hsub. congruence. }
      split; [naive_solver|]. intros (q & Hq & Eq & Hh). rewrite Ep in Eq. apply app_inv_head in Eq as <-. done.
    - split; [done|]. intros (q & _ & Eq & _). apply strip_prefix_Some in Eq. congruence. }
  tauto.
Qed.

(** ** Ranges of addresses *)

Lemma mask_start width prefix b :
  (prefix <= width)%N -> (b < 2 ^ width)%N -> N.land b (u_mask width prefix) = (b / 2 ^ (width - prefix) * 2 ^ (width - prefix))%N.
Proof.
  intros Hp Hb. unfold u_mask. destruct (width - prefix <? width)%N eqn:E.
  - apply N.ltb_lt in E. set (k := (width - prefix)%N) in *.
    assert (((2 ^ width - 1) * 2 ^ k) mod 2 ^ width = N.ones prefix * 2 ^ k)%N as ->.
    { assert (2 ^ width = 2 ^ prefix * 2 ^ k)%N as Ew by (rewrite <-N.pow_add_r; f_equal; lia).
      rewrite N.ones_equiv. symmetry. apply (N.mod_unique _ _ (2 ^ k - 1)%N).
      - rewrite Ew. apply N.mul_lt_mono_pos_r; [|lia]. apply N.neq_0_lt_0, N.pow_nonzero. lia.
      - pose proof (N.neq_0_lt_0 (2 ^ prefix)%N). pose proof (N.pow_nonzero 2 prefix). pose proof (N.pow_nonzero 2 k).
        rewrite Ew. set (x := (2 ^ prefix)%N) in *. set (y := (2 ^ k)%N) in *. clearbody x y. nia. }
    apply land_high. replace (k + prefix)%N with width by lia. done.
  - apply N.ltb_ge in E. assert (prefix = 0)%N as -> by lia. rewrite N.land_0_r, N.sub_0_r, N.div_small; done.
Qed.

(** The address [base] and the length of a range, and the addresses it holds. *)
Definition in_range_of (base : IpAddr) (prefix : N) (a : IpAddr) : Prop :=
  width_of a = width_of base /\ in_block (width_of base) (bits_of a) (bits_of base) prefix.

Lemma scaled_eq x y k : (x * 2 ^ k = y * 2 ^ k <-> x = y)%N.
Proof. apply N.mul_cancel_r, N.pow_nonzero. lia. Qed.

Lemma network_start_eq base a prefix start :
  addr_ok base -> addr_ok a -> network_start base prefix = Some start ->
  network_start a prefix = Some start <-> in_range_of base prefix a.
Proof.
  unfold addr_ok, in_range_of, in_block. destruct base as [b|b], a as [c|c]; cbn [width_of bits_of network_start]; intros Hb Hc.
  - destruct (prefix <=? 32)%N eqn:E; [|done]. apply N.leb_le in E. intros [= <-]. rewrite !mask_start by done.
    rewrite <-(scaled_eq (c / _) _ (32 - prefix)). split; [by intros [= ->]|by intros [_ ->]].
  - destruct (prefix <=? 32)%N; [intros [= <-]|done]. split; [by destruct (prefix <=? 128)%N|by intros []].
  - destruct (prefix <=? 128)%N; [intros [= <-]|done]. split; [by destruct (prefix <=? 32)%N|by intros []].
  - destruct (prefix <=? 128)%N eqn:E; [|done]. apply N.leb_le in E. intros [= <-]. rewrite !mask_start by done.
    rewrite <-(scaled_eq (c / _) _ (128 - prefix)). split; [by intros [= ->]|by intros [_ ->]].
Qed.

Section Urls.
Context `{UrlCrate}.

(** A [NO_PROXY] entry that is a range, [base/prefix], sends direct the URLs whose host is
    an address of the block of that length around the base, and no others. *)
Theorem no_proxy_range (base_text prefix_text : str) (position : nat) (base : IpAddr) (prefix : N) (url : Url)
    (Hbase : read_address base_text = Some base) (Hprefix : parse_u8 prefix_text = Some prefix)
    (Hno : "/"%char ∉ base_text) (Hlen : (prefix <= width_of base)%N)
    (Hurl : forall a, ip_literal url = Some a -> addr_ok a) :
  exists entry, parse_no_proxy position (base_text ++ $"/" ++ prefix_text) = Ok entry /\
    (no_proxy_matches entry url = true <-> exists a, ip_literal url = Some a /\ in_range_of base prefix a).
Proof.
  unfold parse_no_proxy. rewrite bool_decide_false; cycle 1.
  { intros E. destruct base_text as [|c [|d l]]; cbn in E; try discriminate E; injection E; intros; subst; done. }
  assert (split_once "/" (base_text ++ $"/" ++ prefix_text) = Some (base_text, prefix_text)) as ->.
  { apply split_once_Some. split; done. }
  rewrite Hbase, Hprefix. cbn [ok_or mbind result_bind].
  assert (addr_ok base) as Hok by (by eapply parse_ip_ok).
  destruct (network_start base prefix) as [start|] eqn:Es; cycle 1.
  { destruct base as [b|b]; cbn in Es, Hlen; apply N.leb_le in Hlen; rewrite Hlen in Es; done. }
  eexists. split; [done|]. cbn [no_proxy_matches]. destruct (ip_literal url) as [a|]; cbn [is_some_and].
  - rewrite bool_decide_eq_true, (network_start_eq base) by eauto. naive_solver.
  - naive_solver.
Qed.
End Urls.

(** ** The proxy of an origin *)

Section Origins.
Context `{UrlLaws}.

Lemma no_proxy_matches_same e u v :
  host u = host v -> port_or_known_default u = port_or_known_default v -> no_proxy_matches e u = no_proxy_matches e v.
Proof. intros Eh Ep. unfold no_proxy_matches, ip_literal. by rewrite Eh, Ep. Qed.

Lemma route_carries_same r s u v :
  host u = host v -> port_or_known_default u = port_or_known_default v -> route_carries r s u = route_carries r s v.
Proof.
  intros Eh Ep. unfold route_carries, host_str, bypasses. rewrite Eh. do 2 f_equal.
  destruct (route_environment r) as [e|]; [|done]. cbn. f_equal.
  induction (no_proxy e) as [|entry l IH]; cbn; [done|]. by rewrite (no_proxy_matches_same entry u v), IH.
Qed.

Lemma position_ext {A} (p q : A -> bool) l : (forall x, p x = q x) -> position p l = position q l.
Proof. intros E. induction l as [|x l IH]; cbn; [done|]. by rewrite E, IH. Qed.

Lemma carries_same_origin s u v :
  http_scheme (scheme u) = true -> http_scheme (scheme v) = true -> origins_eq (origin u) (origin v) = true ->
  carries s u = carries s v.
Proof.
  intros Hu Hv Ho. destruct (same_origin_parts u v Hu Hv Ho) as (Es & Eh & Ep).
  unfold carries, select. rewrite Es.
  rewrite !(position_ext (fun r => route_carries r _ u) (fun r => route_carries r _ v)) by (intros; by apply route_carries_same).
  rewrite (position_ext (fun r => bool_decide (route_environment r = None) && route_carries r $"http" u)
    (fun r => bool_decide (route_environment r = None) && route_carries r $"http" v)); [done|].
  intros r. f_equal. by apply route_carries_same.
Qed.
End Origins.
