(* ===== verification/Guard.v ===== *)
(** * The redirect policy and the address screen ([rv-repo/src/transport/guard.rs],
      [rv-repo/src/transport/mod.rs])

    The guard that decides a redirect, the resolver that screens the addresses of a name,
    the set of clients a request is sent through and the grants that widen it. *)

From Stdlib Require Import Ascii String Lia.
From stdpp Require Import base numbers list strings gmap sets.
From S2P Require Import Prelude Str PathUtils Addr Url Redact Proxy ProxyFacts.

#[local] Set Warnings "-clear-no-such-hyp".

(** ** Rejections *)

Inductive RedirectRejectionKind :=
  | OriginNotConfigured | InsecureOrigin | HttpsDowngrade | NonGlobalTarget
  | ProxiedTargetNotConfigured | ExemptHostOriginMismatch | SecondCrossOriginHop | ChainLimit.

#[export] Instance rejection_eq_dec : EqDecision RedirectRejectionKind.
Proof. solve_decision. Defined.

(** The text of a message, an address written where it stands. *)
Inductive Piece := Txt (s : str) | Ip (a : IpAddr).

Record RedirectPolicyError := { kind : RedirectRejectionKind; details : list Piece }.

Definition reject {A} (k : RedirectRejectionKind) (d : list Piece) : result RedirectPolicyError A :=
  Err {| kind := k; details := d |}.

(** ** Hosts and addresses *)

Definition normalized_host (host : str) : str :=
  to_ascii_lowercase (trim_end_matches (one_of ["]"]%char) (trim_start_matches (one_of ["["]%char) (trim host))).

(** [ConfiguredHosts::new] and [contains] of both kinds of host sets. *)
Definition configured_hosts (hosts : list str) : gset str := list_to_set (map normalized_host hosts).
Definition hosts_contain (hosts : gset str) (host : str) : bool := bool_decide (normalized_host host ∈ hosts).

(** [SocketAddr]: an address and a port. *)
Abbreviation SocketAddr := (IpAddr * N)%type.

Definition screen_resolved_addrs (host : str) (exempt : bool) (addrs : list SocketAddr) : result RedirectPolicyError (list SocketAddr) :=
  match find (fun addr => negb exempt && negb (is_globally_routable addr.1)) addrs with
  | Some blocked => reject NonGlobalTarget [Txt host; Txt $" resolves to non-global address "; Ip blocked.1]
  | None => Ok addrs
  end.

(** [GlobalOnlyResolver::resolve]: what the connection gets for the answer of the system. *)
Definition resolve (exempt_hosts : gset str) (name : str) (answer : list SocketAddr) : result RedirectPolicyError (list SocketAddr) :=
  let host := to_ascii_lowercase name in
  screen_resolved_addrs host (hosts_contain exempt_hosts host) answer.

Section Guard.
Context `{UrlCrate}.

Definition origin_key (url : Url) : option str :=
  if http_scheme (scheme url) then Some (ascii_serialization (origin url)) else None.

(** ** The guard *)

Record RedirectGuard := {
  origins : gset str;
  root_issuer : option str;
  exempt_hosts : gset str;
  guard_proxies : ProxySet }.

(** [RedirectGuard::default]. *)
Definition no_guard : RedirectGuard :=
  {| origins := ∅; root_issuer := None; exempt_hosts := ∅; guard_proxies := no_proxies |}.

(** The endpoints of the configuration that the guards read: the proxies, or what is wrong
    with the variables that name them, and the URLs of the repositories and of the mirrors. *)
Record Endpoints := {
  proxy_error : option str; config_proxies : list ProxyConfig; repository_urls : list str; mirror_urls : list str }.

Fixpoint collect_endpoints (urls : list str) (found : gset str) (hosts : list str) : option (gset str * list str) :=
  match urls with
  | [] => Some (found, hosts)
  | u :: urls =>
    url ← parse_url u;
    match origin_key url with
    | Some o => collect_endpoints urls ({[ o ]} ∪ found) (hosts ++ option_list (host_str url))
    | None => collect_endpoints urls found hosts
    end
  end.

(** [redirect_guard]; [None] for a URL that does not parse. *)
Definition redirect_guard (config : Endpoints) (proxies : ProxySet) : option RedirectGuard :=
  '(found, hosts) ← collect_endpoints (repository_urls config ++ mirror_urls config) ∅ (map proxy_host (config_proxies config));
  Some {| origins := found; root_issuer := None; exempt_hosts := configured_hosts hosts; guard_proxies := proxies |}.

Definition MAX_REDIRECT_HOPS : nat := 5.

Definition non_global_literal_target (masks : list (str * str)) (target : Url) (trusted_origins : gset str) : option (list Piece) :=
  match ip_literal target with
  | None => None
  | Some addr =>
    if is_globally_routable addr || bool_decide (ascii_serialization (origin target) ∈ trusted_origins) then None
    else Some [Txt $"redirect target "; Txt (redact_url masks (as_str target)); Txt $" resolves to non-global address "; Ip addr]
  end.

(** [windows(2).any]: whether two neighbours differ in origin. *)
Fixpoint crosses (urls : list Url) : bool :=
  match urls with
  | a :: (b :: _) as rest => negb (origins_eq (origin a) (origin b)) || crosses rest
  | _ => false
  end.

Section Evaluate.
Context (masks : list (str * str)) (g : RedirectGuard).

Definition screen_target (target : Url) (issuer_origin : str) : result RedirectPolicyError unit :=
  let shown := Txt (redact_url masks (as_str target)) in
  match host target with
  | None => reject NonGlobalTarget [Txt $"redirect target "; shown; Txt $" has no host"]
  | Some (Domain domain) =>
    if bool_decide (ascii_serialization (origin target) ∈ origins g) then Ok tt
    else if carries (guard_proxies g) target then
      reject ProxiedTargetNotConfigured
        [Txt $"a proxy would resolve and connect to "; shown; Txt $" on raeva's behalf, so "; Txt issuer_origin;
         Txt $" may redirect only to a configured repository or mirror origin"]
    else if hosts_contain (exempt_hosts g) domain then
      reject ExemptHostOriginMismatch
        [Txt domain; Txt $" is exempt from the address screen because it is configured, but "; shown;
         Txt $" is not a configured origin"]
    else Ok tt
  | Some _ =>
    match non_global_literal_target masks target (origins g) with
    | Some d => reject NonGlobalTarget d
    | None => Ok tt
    end
  end.

Definition evaluate (previous : list Url) (target : Url) : result RedirectPolicyError unit :=
  let shown := Txt (redact_url masks (as_str target)) in
  if (MAX_REDIRECT_HOPS <=? length previous)%nat then
    reject ChainLimit [Txt $"redirect chain reached "; Txt (fmt_u32 (N.of_nat MAX_REDIRECT_HOPS)); Txt $" hops before "; shown]
  else
    match last previous with
    | None => reject OriginNotConfigured [Txt $"redirect to "; shown; Txt $" has no issuing request origin"]
    | Some issuer =>
      if origins_eq (origin issuer) (origin target) then Ok tt
      else
        let issuer_origin := ascii_serialization (origin issuer) in
        if crosses previous then
          reject SecondCrossOriginHop
            [Txt $"redirect chain already crossed origin once; refusing "; Txt issuer_origin; Txt $" -> "; shown]
        else if negb (bool_decide (issuer_origin ∈ origins g)) && negb (bool_decide (root_issuer g = Some issuer_origin)) then
          reject OriginNotConfigured
            [Txt $"redirect issuer "; Txt issuer_origin; Txt $" is not a configured repository, mirror or root-model repository"]
        else if negb (bool_decide (scheme issuer = $"https")) then
          reject InsecureOrigin
            [Txt $"plain-http trusted origin "; Txt issuer_origin; Txt $" may redirect only within its own origin, not to ";
             shown; Txt $"; configure the repository or a mirror with the URL it redirects to"]
        else if negb (bool_decide (scheme target = $"https")) then
          reject HttpsDowngrade
            [Txt $"redirect from "; Txt issuer_origin; Txt $" to "; shown; Txt $" would downgrade transport"]
        else screen_target target issuer_origin
    end.
End Evaluate.

(** ** Clients *)

(** The hosts a resolver waves through: a frozen set, or the set of the running program. *)
Inductive Exempt := Frozen (hosts : gset str) | Live.

(** What [BuildOptions::client] gives a client: its redirect policy, the hosts its resolver
    exempts and its proxies. *)
Record Client := { policy : RedirectGuard; exemptions : Exempt; client_proxies : ProxySet }.

Record Clients := { configured : Client; runtime : Client; screened : Client; direct : Client }.

(** [ClientSet], with the state its lazy clients and grants share. *)
Record ClientSet := {
  frozen_guard : RedirectGuard;
  built : option Clients;
  root_clients : gmap str (option Client);
  configured_origins : gset str;
  trusted_origins : gset str;
  trusted_hosts : gset str;
  proxy_hosts : gset str;
  proxies : ProxySet;
  screen_literals : bool }.

Definition from_guard (guard : RedirectGuard) (proxies : ProxySet) : ClientSet :=
  {| frozen_guard := guard; built := None; root_clients := ∅;
     configured_origins := origins guard; trusted_origins := origins guard;
     trusted_hosts := exempt_hosts guard; proxy_hosts := configured_hosts (proxy_hosts_of proxies);
     proxies := proxies; screen_literals := true |}.

(** [ProxySet::from_config] and [ClientSet::build]. *)
Inductive SetupError := ProxyVariable (error : str) | ProxyInvalid (e : ProxyError) | UrlInvalid.

Definition proxies_from_config (env : str -> option str) (config : Endpoints) : result SetupError ProxySet :=
  match proxy_error config with
  | Some e => Err (ProxyVariable e)
  | None => fst <$> map_err ProxyInvalid (new_proxy_set env (config_proxies config))
  end.

Definition build_client_set (env : str -> option str) (config : Endpoints) : result SetupError ClientSet :=
  proxies ← proxies_from_config env config;
  guard ← ok_or (redirect_guard config proxies) UrlInvalid;
  Ok (from_guard guard proxies).

(** Errors of [client_for]: the screen's, and that of a client that cannot be built. *)
Inductive TransportError := NonGlobalAddress (url : str) (addr : IpAddr) | ClientNotBuilt.

(** Whether the HTTP library builds a client, which loads the trust roots. *)
Context (builds : Client -> bool) (masks : list (str * str)).

Definition build_client (c : Client) : result TransportError Client :=
  if builds c then Ok c else Err ClientNotBuilt.

(** [LazyClients::build]. *)
Definition build_clients (guard : RedirectGuard) (proxy_hosts : gset str) (proxies : ProxySet) : result TransportError Clients :=
  configured ← build_client {| policy := guard; exemptions := Frozen (exempt_hosts guard); client_proxies := proxies |};
  runtime ← build_client {| policy := no_guard; exemptions := Live; client_proxies := proxies |};
  screened ← build_client {| policy := no_guard; exemptions := Frozen proxy_hosts; client_proxies := proxies |};
  direct ← build_client {| policy := no_guard; exemptions := Frozen ∅; client_proxies := no_proxies |};
  Ok {| configured := configured; runtime := runtime; screened := screened; direct := direct |}.

Definition with_built (s : ClientSet) (c : Clients) : ClientSet :=
  {| frozen_guard := frozen_guard s; built := Some c; root_clients := root_clients s;
     configured_origins := configured_origins s; trusted_origins := trusted_origins s;
     trusted_hosts := trusted_hosts s; proxy_hosts := proxy_hosts s; proxies := proxies s;
     screen_literals := screen_literals s |}.

Definition with_root_clients (s : ClientSet) (m : gmap str (option Client)) : ClientSet :=
  {| frozen_guard := frozen_guard s; built := built s; root_clients := m;
     configured_origins := configured_origins s; trusted_origins := trusted_origins s;
     trusted_hosts := trusted_hosts s; proxy_hosts := proxy_hosts s; proxies := proxies s;
     screen_literals := screen_literals s |}.

(** [LazyClients::get]. *)
Definition get_clients (s : ClientSet) : result TransportError (Clients * ClientSet) :=
  match built s with
  | Some c => Ok (c, s)
  | None => c ← build_clients (frozen_guard s) (proxy_hosts s) (proxies s); Ok (c, with_built s c)
  end.

(** The client of a root issuer: its host joins the exempt ones. *)
Definition root_guard (guard : RedirectGuard) (origin : str) (host : option str) : RedirectGuard :=
  {| origins := origins guard; root_issuer := Some origin;
     exempt_hosts := configured_hosts (elements (exempt_hosts guard) ++ option_list host);
     guard_proxies := guard_proxies guard |}.

Definition root_client (s : ClientSet) (origin : str) (host : option str) : Client :=
  let guard := root_guard (frozen_guard s) origin host in
  {| policy := guard; exemptions := Frozen (exempt_hosts guard); client_proxies := proxies s |}.

(** [RootRedirectClients::client_for]. *)
Definition root_client_for (s : ClientSet) (url : Url) : result TransportError (option Client * ClientSet) :=
  match origin_key url with
  | None => Ok (None, s)
  | Some origin =>
    match root_clients s !! origin with
    | None => Ok (None, s)
    | Some (Some client) => Ok (Some client, s)
    | Some None =>
      client ← build_client (root_client s origin (host_str url));
      Ok (Some client, with_root_clients s (<[origin := Some client]> (root_clients s)))
    end
  end.

Definition localhost_v4 : IpAddr := V4 (v4 127 0 0 1).

(** The address the screen of [client_for] reads for a URL. *)
Definition screened_address (s : ClientSet) (url : Url) : option IpAddr :=
  match ip_literal url with
  | Some addr => Some addr
  | None => if carries (proxies s) url && is_some_and localhost_name (host_str url) then Some localhost_v4 else None
  end.

(** [ClientSet::client_for]. *)
Definition client_for (s : ClientSet) (url : Url) : result TransportError (Client * ClientSet) :=
  '(root, s) ← root_client_for s url;
  match root with
  | Some client => Ok (client, s)
  | None =>
    let origin := origin_key url in
    let trusted := is_some_and (fun o => bool_decide (o ∈ trusted_origins s)) origin in
    let blocked := if screen_literals s && negb trusted
                   then opt_filter (fun addr => negb (is_globally_routable addr)) (screened_address s url) else None in
    match blocked with
    | Some addr => Err (NonGlobalAddress (redact_url masks (as_str url)) addr)
    | None =>
      '(clients, s) ← get_clients s;
      Ok (match origin with
          | Some o =>
            if bool_decide (o ∈ configured_origins s) then configured clients
            else if trusted then runtime clients
            else if is_some_and (hosts_contain (proxy_hosts s)) (host_str url) && negb (carries (proxies s) url) then direct clients
            else screened clients
          | None =>
            if is_some_and (hosts_contain (proxy_hosts s)) (host_str url) && negb (carries (proxies s) url) then direct clients
            else screened clients
          end, s)
    end
  end.

(** ** Grants *)

(** [parsed_origin] of the URL of a repository. *)
Definition parsed_origin (repo_url : str) : option (Url * str) :=
  url ← parse_url repo_url; o ← origin_key url; Some (url, o).

Definition with_trusted_host (s : ClientSet) (host : str) : ClientSet :=
  {| frozen_guard := frozen_guard s; built := built s; root_clients := root_clients s;
     configured_origins := configured_origins s; trusted_origins := trusted_origins s;
     trusted_hosts := {[ normalized_host host ]} ∪ trusted_hosts s; proxy_hosts := proxy_hosts s; proxies := proxies s;
     screen_literals := screen_literals s |}.

Definition with_trusted_origin (s : ClientSet) (o : str) : ClientSet :=
  {| frozen_guard := frozen_guard s; built := built s; root_clients := root_clients s;
     configured_origins := configured_origins s; trusted_origins := {[ o ]} ∪ trusted_origins s;
     trusted_hosts := trusted_hosts s; proxy_hosts := proxy_hosts s; proxies := proxies s;
     screen_literals := screen_literals s |}.

(** The two halves of [Grants::exempt], each one lock: the host, then the origin. *)
Definition exempt_host (s : ClientSet) (repo_url : str) : ClientSet :=
  match parsed_origin repo_url with
  | Some (url, _) => match host_str url with Some h => with_trusted_host s h | None => s end
  | None => s
  end.

Definition exempt_origin (s : ClientSet) (repo_url : str) : ClientSet :=
  match parsed_origin repo_url with Some (_, o) => with_trusted_origin s o | None => s end.

Definition exempt (s : ClientSet) (repo_url : str) : ClientSet := exempt_origin (exempt_host s repo_url) repo_url.

(** [Grants::authorize_issuer]. *)
Definition authorize_issuer (s : ClientSet) (repo_url : str) : ClientSet :=
  match parsed_origin repo_url with
  | Some (_, o) =>
    match root_clients s !! o with Some _ => s | None => with_root_clients s (<[o := None]> (root_clients s)) end
  | None => s
  end.

(** ** Runs *)

(** The states a run goes through: the grants of concurrent readers of POMs, each half of
    [exempt] a step of its own, and the requests.  [pending] holds the repositories whose
    host is exempt and whose origin is not yet. *)
Record Run := { clients_of : ClientSet; pending : list str }.

Inductive step : Run -> Run -> Prop :=
  | step_exempt_host s l repo : step {| clients_of := s; pending := l |} {| clients_of := exempt_host s repo; pending := repo :: l |}
  | step_exempt_origin s l repo : repo ∈ l -> step {| clients_of := s; pending := l |} {| clients_of := exempt_origin s repo; pending := l |}
  | step_authorize s l repo : step {| clients_of := s; pending := l |} {| clients_of := authorize_issuer s repo; pending := l |}
  | step_request s l url c s' : client_for s url = Ok (c, s') ->
      step {| clients_of := s; pending := l |} {| clients_of := s'; pending := l |}.

Inductive runs : Run -> Run -> Prop :=
  | runs_refl r : runs r r
  | runs_step r r' r'' : runs r r' -> step r' r'' -> runs r r''.
End Guard.

(** * What the guard and the screen keep

    An accepted chain of redirects, the invariant of the client set under concurrent grants,
    and the addresses a request can reach. *)

(** ** Hosts, compared without case *)

Lemma lower_byte_fixed c x : is_upper c = false -> is_lower c = false -> lower_byte x = c <-> x = c.
Proof.
  intros Hu Hl. unfold lower_byte. destruct (is_upper x) eqn:Ex.
  - split; [|congruence]. intros E. exfalso. revert Hl. rewrite <-E. clear -Ex. destruct x as [[] [] [] [] [] [] [] []]; vm_compute in *; congruence.
  - done.
Qed.

Lemma lower_idem s : to_ascii_lowercase (to_ascii_lowercase s) = to_ascii_lowercase s.
Proof.
  unfold to_ascii_lowercase. rewrite map_map. apply map_ext. intros x.
  destruct x as [[] [] [] [] [] [] [] []]; vm_compute; done.
Qed.

(** Bytes that case does not change. *)
Definition caseless (c : ascii) : Prop := is_upper c = false /\ is_lower c = false.

Lemma strip_prefix_lower w s :
  Forall caseless w -> strip_prefix w (to_ascii_lowercase s) = to_ascii_lowercase <$> strip_prefix w s.
Proof.
  intros Hw. revert s. induction Hw as [|c w [Hu Hl] Hw IH]; intros s; [done|]. destruct s as [|x s]; [done|].
  cbn. pose proof (lower_byte_fixed c x Hu Hl) as E. destruct (decide (c = x)) as [<-|Hn].
  - rewrite decide_True by (symmetry; by apply E). apply IH.
  - rewrite decide_False; [done|]. intros Ec. apply Hn. symmetry. by apply E.
Qed.

Lemma strip_all_lower ws fuel s :
  Forall (Forall caseless) ws -> strip_all ws fuel (to_ascii_lowercase s) = to_ascii_lowercase (strip_all ws fuel s).
Proof.
  intros Hws. revert s. induction fuel as [|fuel IH]; intros s; [done|]. cbn [strip_all].
  assert (strip_any ws (to_ascii_lowercase s) = to_ascii_lowercase <$> strip_any ws s) as ->.
  { clear IH. induction Hws as [|w ws Hw Hws IH]; [done|]. cbn. rewrite strip_prefix_lower by done.
    by destruct (strip_prefix w s). }
  destruct (strip_any ws s); [apply IH|done].
Qed.

Lemma whitespace_caseless : Forall (Forall caseless) whitespace /\ Forall (Forall caseless) (map reverse whitespace).
Proof. unfold caseless. split; apply (bool_decide_unpack _); vm_compute; done. Qed.

Lemma lower_reverse s : to_ascii_lowercase (reverse s) = reverse (to_ascii_lowercase s).
Proof. unfold to_ascii_lowercase, reverse. rewrite <-!rev_alt. apply map_rev. Qed.

Lemma trim_lower s : trim (to_ascii_lowercase s) = to_ascii_lowercase (trim s).
Proof.
  destruct whitespace_caseless as [H1 H2]. unfold trim, trim_end, trim_start.
  assert (forall t, length (to_ascii_lowercase t) = length t) as Hl by (intros; apply length_map).
  rewrite Hl, strip_all_lower, Hl, <-lower_reverse, strip_all_lower, lower_reverse by done. done.
Qed.

Lemma skip_while_lower c s : caseless c -> skip_while (one_of [c]) (to_ascii_lowercase s) = to_ascii_lowercase (skip_while (one_of [c]) s).
Proof.
  intros [Hu Hl]. induction s as [|x s IH]; [done|]. cbn.
  assert (one_of [c] (lower_byte x) = one_of [c] x) as ->.
  { unfold one_of. apply bool_decide_ext. rewrite !list_elem_of_singleton. by apply lower_byte_fixed. }
  destruct (one_of [c] x); [apply IH|done].
Qed.

Lemma normalized_host_lower s : normalized_host (to_ascii_lowercase s) = normalized_host s.
Proof.
  unfold normalized_host, trim_end_matches, trim_start_matches. rewrite trim_lower, skip_while_lower by done.
  rewrite <-lower_reverse, skip_while_lower, !lower_reverse by done. by rewrite lower_idem.
Qed.

(** ** The screen *)

Lemma resolve_Ok hosts name answer l :
  resolve hosts name answer = Ok l ->
  l = answer /\ (hosts_contain hosts name = true \/ Forall (fun a => is_globally_routable a.1 = true) l).
Proof.
  unfold resolve, screen_resolved_addrs, hosts_contain. rewrite normalized_host_lower.
  destruct (find _ answer) as [blocked|] eqn:Ef; [done|]. intros [= <-]. split; [done|].
  case_bool_decide; [by left|]. right. apply list.Forall_forall. intros a Ha.
  apply find_none with (x := a) in Ef; [|by apply list_elem_of_In]. cbn in Ef. by destruct (is_globally_routable a.1).
Qed.

Section Chains.
Context `{UrlLaws} (masks : list (str * str)) (g : RedirectGuard).

(** A chain of requests, each but the first a redirect the guard lets through. *)
Inductive accepted : list Url -> Prop :=
  | accepted_first u : http_scheme (scheme u) = true -> accepted [u]
  | accepted_hop l v : accepted l -> http_scheme (scheme v) = true -> evaluate masks g l v = Ok tt -> accepted (l ++ [v]).

Definition same_origin (u v : Url) : Prop := origins_eq (origin u) (origin v) = true.

Lemma same_origin_refl u : http_scheme (scheme u) = true -> same_origin u u.
Proof. intros (h & p & _ & _ & E)%http_origin. unfold same_origin. rewrite E. cbn. by apply bool_decide_eq_true. Qed.

Lemma same_origin_trans u v w : same_origin u v -> same_origin v w -> same_origin u w.
Proof. unfold same_origin. rewrite !origins_eq_Some. intros (t & ? & ?) (t' & ? & ?). exists t. split; congruence. Qed.

Lemma same_origin_sym u v : same_origin u v -> same_origin v u.
Proof. unfold same_origin. rewrite !origins_eq_Some. naive_solver. Qed.

Lemma same_origin_key u v : same_origin u v -> ascii_serialization (origin u) = ascii_serialization (origin v).
Proof. unfold same_origin. rewrite origins_eq_Some. by intros (t & -> & ->). Qed.

Lemma accepted_nonempty l : accepted l -> l <> [].
Proof. inversion 1; [done|]. by destruct l0. Qed.

Lemma accepted_http l : accepted l -> Forall (fun v => http_scheme (scheme v) = true) l.
Proof. induction 1; [by repeat constructor|]. apply Forall_app. split; [done|by repeat constructor]. Qed.

(** A chain that does not cross stays on the origin it starts on. *)
Lemma crosses_false l u : head l = Some u -> Forall (fun v => http_scheme (scheme v) = true) l -> crosses l = false -> Forall (same_origin u) l.
Proof.
  revert u. induction l as [|a l IH]; intros u; [done|]. intros [= ->] [Hu Hl]%Forall_cons. destruct l as [|b l].
  - intros _. repeat constructor. by apply same_origin_refl.
  - intros [Eb Hc]%orb_false_iff. apply negb_false_iff in Eb. constructor; [by apply same_origin_refl|].
    eapply Forall_impl; [exact (IH b eq_refl Hl Hc)|]. intros v. by apply same_origin_trans.
Qed.

(** What the guard requires of a hop to another origin. *)
Lemma evaluate_hop l v :
  evaluate masks g l v = Ok tt ->
  length l < MAX_REDIRECT_HOPS /\ exists issuer, last l = Some issuer /\
    (same_origin issuer v \/
     ~ same_origin issuer v /\ crosses l = false /\
     (ascii_serialization (origin issuer) ∈ origins g \/ root_issuer g = Some (ascii_serialization (origin issuer))) /\
     scheme issuer = $"https" /\ scheme v = $"https" /\
     screen_target masks g v (ascii_serialization (origin issuer)) = Ok tt).
Proof.
  unfold evaluate. destruct (_ <=? length l)%nat eqn:El; [done|]. apply Nat.leb_gt in El.
  destruct (last l) as [issuer|]; [|done]. intros He. split; [done|]. exists issuer. split; [done|]. unfold same_origin.
  destruct (origins_eq _ _) eqn:Eo; [by left|]. right. split; [done|].
  destruct (crosses l); [done|]. split; [done|].
  destruct (bool_decide (_ ∈ origins g)) eqn:E1, (bool_decide (root_issuer g = _)) eqn:E2; cbn in He; try done;
  rewrite ?bool_decide_eq_true in *; (split; [tauto|]);
  (destruct (bool_decide (scheme issuer = _)) eqn:E3; [|done]); cbn in He;
  (destruct (bool_decide (scheme v = _)) eqn:E4; [|done]); cbn in He; rewrite ?bool_decide_eq_true in *; done.
Qed.

(** Where an accepted chain is: on the origin it started on, or, behind its one hop to
    another origin, on that of a target the guard screened. *)
Definition on_origin (u : Url) (l : list Url) (v : Url) : Prop :=
  same_origin u v \/
  exists w issuer, w ∈ l /\ same_origin w v /\ same_origin u issuer /\
    (ascii_serialization (origin u) ∈ origins g \/ root_issuer g = Some (ascii_serialization (origin u))) /\
    scheme u = $"https" /\ scheme w = $"https" /\ screen_target masks g w (ascii_serialization (origin u)) = Ok tt.

Lemma accepted_places l u : accepted l -> head l = Some u -> Forall (on_origin u l) l.
Proof.
  intros Hl. revert u. induction Hl as [w Hw|l v Hl IH Hv He]; intros u Hu.
  - injection Hu as ->. apply Forall_singleton. left. by apply same_origin_refl.
  - assert (head l = Some u) as Hu' by (destruct l; [by apply accepted_nonempty in Hl|done]).
    specialize (IH u Hu'). apply Forall_app. split.
    + eapply Forall_impl; [exact IH|]. intros x [Hx|(w & i & Hw & Hrest)]; [by left|]. right. exists w, i. split; [|done].
      apply elem_of_app. by left.
    + apply Forall_singleton. destruct (evaluate_hop l v He) as (_ & issuer & Hi & Hcase).
      assert (issuer ∈ l) as Hil by (by apply last_Some_elem_of).
      rewrite Forall_forall in IH. destruct Hcase as [Hs|(Hn & Hc & Hauth & Hsi & Hsv & Hscreen)].
      * destruct (IH issuer Hil) as [Hx|(w & i & Hw & Hwi & Hrest)].
        -- left. by eapply same_origin_trans.
        -- right. exists w, i. split; [apply elem_of_app; by left|]. split; [by eapply same_origin_trans|done].
      * pose proof (crosses_false l u Hu' (accepted_http l Hl) Hc) as Hall. rewrite Forall_forall in Hall.
        specialize (Hall issuer Hil). pose proof (same_origin_key _ _ Hall) as Ek. rewrite <-Ek in Hauth, Hscreen.
        pose proof (accepted_http l Hl) as Hh. rewrite Forall_forall in Hh.
        assert (http_scheme (scheme u) = true) as Huh.
        { apply Hh. destruct l; [done|]. injection Hu' as ->. by left. }
        destruct (same_origin_parts u issuer Huh (Hh _ Hil) Hall) as (Es & _ & _).
        right. exists v, issuer. split_and!; try done; [apply elem_of_app; right; by left|by apply same_origin_refl|congruence].
Qed.

(** The hops of a chain to another origin. *)
Fixpoint crossings (urls : list Url) : nat :=
  match urls with
  | a :: (b :: _) as rest => (if origins_eq (origin a) (origin b) then 0 else 1) + crossings rest
  | _ => 0
  end.

Lemma crosses_crossings l : crosses l = false <-> crossings l = 0.
Proof.
  induction l as [|a [|b l] IH]; [done|done|]. cbn [crosses crossings]. rewrite orb_false_iff, IH.
  destruct (origins_eq _ _); cbn; [naive_solver lia|]. split; [by intros []|lia].
Qed.

Lemma crossings_app l u v :
  last l = Some u -> crossings (l ++ [v]) = crossings l + (if origins_eq (origin u) (origin v) then 0 else 1).
Proof.
  induction l as [|a [|b l] IH]; [done| |].
  - intros [= ->]. cbn. lia.
  - intros Hl. cbn [app crossings] in *. rewrite IH by done. lia.
Qed.

Lemma crossings_same l u :
  Forall (fun v => http_scheme (scheme v) = true) l -> head l = Some u -> Forall (same_origin u) l -> crossings l = 0.
Proof.
  revert u. induction l as [|a [|b l] IH]; intros u Hh [= ->] Hall; [done|]. rewrite !Forall_cons in Hall. destruct Hall as (_ & Hb & Hall).
  cbn [crossings]. unfold same_origin in Hb. rewrite Hb. cbn. apply Forall_cons in Hh as [Hu Hh]. apply (IH b Hh eq_refl).
  apply Forall_cons. split; [apply same_origin_refl; by apply Forall_cons in Hh as [? _]|].
  eapply Forall_impl; [exact Hall|]. intros v Hv. eapply same_origin_trans; [by apply same_origin_sym|done].
Qed.

End Chains.
