(* ===== verification/Screen.v ===== *)
(** * The addresses a request reaches

    The client set under concurrent grants: its invariant, the addresses the requests of a
    run can be sent to, and that a granted repository is reached. *)

From Stdlib Require Import Ascii String Lia.
From stdpp Require Import base numbers list strings gmap sets.
From S2P Require Import Prelude Str PathUtils Addr Url Redact Proxy ProxyFacts Guard.

#[local] Set Warnings "-clear-no-such-hyp".

(** ** The HTTP library *)

(** The hosts the resolver of a client exempts, with the live set of the moment. *)
Definition exempt_now (live : gset str) (e : Exempt) : gset str := match e with Frozen hosts => hosts | Live => live end.

Section Screen.
Context `{UrlLaws} (builds : Client -> bool) (masks : list (str * str)).

(** What [reqwest] and [hyper] do with a client: the requests sent for a URL, it and the
    redirects followed, and the addresses connected to for one request while the live set
    of hosts is [live]. *)
Class HttpStack := {
  follows : Client -> Url -> list Url -> Prop;
  dials : gset str -> Client -> Url -> IpAddr -> Prop;
}.

(** As documented: a redirect is followed when the policy of the client says so, given the
    requests before it, and is an [http] or [https] URL; a request that no proxy of the
    client carries connects to the address its host is, or to one the resolver of the
    client returned for its name. *)
Class HttpLaws `{HttpStack} : Prop := {
  follows_policy c u l : http_scheme (scheme u) = true -> follows c u l -> accepted masks (policy c) l /\ head l = Some u;
  dials_address live c v a : dials live c v a ->
    carries (client_proxies c) v = true \/ ip_literal v = Some a \/
    exists d answer l p, host v = Some (Domain d) /\ resolve (exempt_now live (exemptions c)) d answer = Ok l /\ (a, p) ∈ l;
}.

(** ** The invariant *)

Context (guard : RedirectGuard) (proxies0 : ProxySet).

(** The clients of a set, and the client of a root issuer. *)
Definition clients_ok (cs : Clients) : Prop :=
  configured cs = {| policy := guard; exemptions := Frozen (exempt_hosts guard); client_proxies := proxies0 |} /\
  runtime cs = {| policy := no_guard; exemptions := Live; client_proxies := proxies0 |} /\
  screened cs = {| policy := no_guard; exemptions := Frozen (configured_hosts (proxy_hosts_of proxies0)); client_proxies := proxies0 |} /\
  direct cs = {| policy := no_guard; exemptions := Frozen ∅; client_proxies := no_proxies |}.

Definition root_client_ok (o : str) (c : Client) : Prop :=
  exists url, origin_key url = Some o /\
    c = {| policy := root_guard guard o (host_str url);
           exemptions := Frozen (exempt_hosts (root_guard guard o (host_str url))); client_proxies := proxies0 |}.

(** Frozen parts never change, the clients built are those of the guard, and every origin
    trusted off the public internet has its host exempt at the runtime client's resolver. *)
Record set_ok (s : ClientSet) : Prop := {
  ok_guard : frozen_guard s = guard;
  ok_proxies : proxies s = proxies0;
  ok_proxy_hosts : proxy_hosts s = configured_hosts (proxy_hosts_of proxies0);
  ok_configured : configured_origins s = origins guard;
  ok_screen : screen_literals s = true;
  ok_built : forall cs, built s = Some cs -> clients_ok cs;
  ok_roots : forall o c, root_clients s !! o = Some (Some c) -> root_client_ok o c;
  ok_trusted : origins guard ⊆ trusted_origins s;
  ok_hosts : forall u o h, origin_key u = Some o -> o ∈ trusted_origins s -> host_str u = Some h ->
    hosts_contain (trusted_hosts s) h = true;
}.

Definition run_ok (r : Run) : Prop :=
  set_ok (clients_of r) /\
  forall repo u o h, repo ∈ pending r -> parsed_origin repo = Some (u, o) -> host_str u = Some h ->
    hosts_contain (trusted_hosts (clients_of r)) h = true.

Lemma origin_key_Some u o : origin_key u = Some o <-> http_scheme (scheme u) = true /\ o = ascii_serialization (origin u).
Proof. unfold origin_key. destruct (http_scheme (scheme u)); naive_solver. Qed.

(** URLs of one origin key have one host. *)
Lemma origin_key_same u v o : origin_key u = Some o -> origin_key v = Some o -> same_origin u v /\ host u = host v.
Proof.
  intros [Hu Eu]%origin_key_Some [Hv Ev]%origin_key_Some. assert (same_origin u v) as Hs.
  { apply origins_eq_text; [done|done|congruence]. }
  split; [done|]. by destruct (same_origin_parts u v Hu Hv Hs) as (_ & ? & _).
Qed.

Lemma origin_key_host_str u v o : origin_key u = Some o -> origin_key v = Some o -> host_str u = host_str v.
Proof. intros Hu Hv. unfold host_str. by destruct (origin_key_same u v o Hu Hv) as [_ ->]. Qed.

Lemma get_clients_ok s cs s' : set_ok s -> get_clients builds s = Ok (cs, s') -> clients_ok cs /\ set_ok s' /\ trusted_hosts s' = trusted_hosts s /\
  trusted_origins s' = trusted_origins s /\ root_clients s' = root_clients s.
Proof.
  intros Hs. unfold get_clients. destruct (built s) as [c|] eqn:Eb.
  - intros [= -> ->]. split; [by apply (ok_built s' Hs)|done].
  - unfold build_clients, build_client. intros Hb.
    repeat match type of Hb with context [builds ?c] => destruct (builds c); cbn in Hb; try discriminate Hb end.
    injection Hb as <- <-. destruct Hs as [E1 E2 E3 E4 E5 E6 E7 E8 E9]. rewrite E1, E2, E3.
    split; [done|]. split; [|done]. split; cbn; try done. intros cs [= <-]. done.
Qed.

Lemma root_client_for_ok s u r s' :
  set_ok s -> root_client_for builds s u = Ok (r, s') ->
  set_ok s' /\ trusted_hosts s' = trusted_hosts s /\ trusted_origins s' = trusted_origins s /\
  match r with
  | Some c => exists o, origin_key u = Some o /\ is_Some (root_clients s !! o) /\ root_client_ok o c
  | None => s' = s /\ forall o, origin_key u = Some o -> root_clients s !! o = None
  end.
Proof.
  intros Hs. unfold root_client_for. destruct (origin_key u) as [o|] eqn:Eo; [|by intros [= <- <-]].
  destruct (root_clients s !! o) as [[c|]|] eqn:Er.
  - intros [= <- <-]. split_and!; try done. exists o. split_and!; [done|done|by apply (ok_roots s Hs)].
  - unfold build_client. destruct (builds _); [|done]. intros [= <- <-].
    assert (root_client_ok o (root_client s o (host_str u))) as Hc.
    { exists u. split; [done|]. unfold root_client. by rewrite (ok_guard s Hs), (ok_proxies s Hs). }
    destruct Hs as [E1 E2 E3 E4 E5 E6 E7 E8 E9]. split_and!; try done; [|by exists o].
    split; cbn; try done. intros o' c'. destruct (decide (o = o')) as [<-|Hn].
    + rewrite lookup_insert_eq. intros [= <-]. done.
    + rewrite lookup_insert_ne by done. apply E7.
  - intros [= <- <-]. split_and!; try done. intros o' [= <-]. done.
Qed.

Definition configured_client : Client := {| policy := guard; exemptions := Frozen (exempt_hosts guard); client_proxies := proxies0 |}.
Definition runtime_client : Client := {| policy := no_guard; exemptions := Live; client_proxies := proxies0 |}.
Definition screened_client : Client :=
  {| policy := no_guard; exemptions := Frozen (configured_hosts (proxy_hosts_of proxies0)); client_proxies := proxies0 |}.
Definition direct_client : Client := {| policy := no_guard; exemptions := Frozen ∅; client_proxies := no_proxies |}.

(** Why a web URL was given a client. *)
Inductive given (s : ClientSet) (u : Url) (o : str) : Client -> Prop :=
  | given_root c : is_Some (root_clients s !! o) -> root_client_ok o c -> given s u o c
  | given_configured : o ∈ origins guard -> given s u o configured_client
  | given_runtime : o ∈ trusted_origins s -> given s u o runtime_client
  | given_direct : o ∉ trusted_origins s -> (forall a, ip_literal u = Some a -> is_globally_routable a = true) -> given s u o direct_client
  | given_screened : o ∉ trusted_origins s -> (forall a, ip_literal u = Some a -> is_globally_routable a = true) ->
      (forall h, host_str u = Some h -> hosts_contain (configured_hosts (proxy_hosts_of proxies0)) h = true -> carries proxies0 u = true) ->
      given s u o screened_client.

Lemma blocked_None s u :
  opt_filter (fun addr => negb (is_globally_routable addr)) (screened_address s u) = None ->
  forall a, ip_literal u = Some a -> is_globally_routable a = true.
Proof.
  unfold screened_address. intros Hb a Ea. rewrite Ea in Hb. cbn in Hb. by destruct (is_globally_routable a).
Qed.

Lemma client_for_ok s u c s' :
  set_ok s -> client_for builds masks s u = Ok (c, s') ->
  set_ok s' /\ trusted_hosts s' = trusted_hosts s /\ trusted_origins s' = trusted_origins s /\
  forall o, origin_key u = Some o -> given s u o c.
Proof.
  intros Hs. unfold client_for. destruct (root_client_for builds s u) as [[root s1]|] eqn:Er; [|done]. cbn [mbind result_bind].
  destruct (root_client_for_ok s u root s1 Hs Er) as (Hs1 & Eh1 & Eo1 & Hroot). destruct root as [rc|].
  { intros [= <- <-]. destruct Hroot as (o & Eo & Hsome & Hc). split_and!; try done.
    intros o' Eo'. assert (o' = o) as -> by congruence. by apply given_root. }
  destruct Hroot as [-> Hnone]. rewrite (ok_screen s Hs). cbn [andb].
  destruct (origin_key u) as [o|] eqn:Eo; cbn [is_some_and].
  - destruct (bool_decide (o ∈ trusted_origins s)) eqn:Et; cbn [negb].
    + apply bool_decide_eq_true in Et.
      destruct (get_clients builds s) as [[cs s2]|] eqn:Eg; [|done]. cbn. intros [= <- <-].
      destruct (get_clients_ok s cs s2 Hs Eg) as ((C1 & C2 & C3 & C4) & Hs2 & Eh2 & Eo2 & _). split_and!; try done.
      intros o' [= <-]. rewrite (ok_configured s2 Hs2). destruct (bool_decide (o ∈ origins guard)) eqn:Econf.
      * rewrite C1. apply bool_decide_eq_true in Econf. by apply given_configured.
      * rewrite C2. by apply given_runtime.
    + apply bool_decide_eq_false in Et. destruct (opt_filter _ _) as [a|] eqn:Ea; [done|]. pose proof (blocked_None s u Ea) as Hlit.
      destruct (get_clients builds s) as [[cs s2]|] eqn:Eg; [|done]. cbn. intros [= <- <-].
      destruct (get_clients_ok s cs s2 Hs Eg) as ((C1 & C2 & C3 & C4) & Hs2 & Eh2 & Eo2 & _). split_and!; try done.
      intros o' [= <-]. rewrite (ok_configured s2 Hs2), (ok_proxy_hosts s2 Hs2), (ok_proxies s2 Hs2). destruct (bool_decide (o ∈ origins guard)) eqn:Econf.
      * rewrite C1. apply bool_decide_eq_true in Econf. by apply given_configured.
      * destruct (is_some_and _ (host_str u)) eqn:Ep; cbn [andb].
        -- destruct (carries proxies0 u) eqn:Ec; cbn; [rewrite C3; by apply given_screened|rewrite C4; by apply given_direct].
        -- rewrite C3. apply given_screened; [done|done|]. intros h Eh Hc. rewrite Eh in Ep. cbn in Ep. congruence.
  - destruct (opt_filter _ _) as [a|] eqn:Ea; [done|].
    destruct (get_clients builds s) as [[cs s2]|] eqn:Eg; [|done]. cbn. intros [= <- <-].
    destruct (get_clients_ok s cs s2 Hs Eg) as (_ & Hs2 & Eh2 & Eo2 & _). split_and!; done.
Qed.

Lemma exempt_host_ok s repo : set_ok s -> set_ok (exempt_host s repo) /\ trusted_hosts s ⊆ trusted_hosts (exempt_host s repo) /\
  forall u o h, parsed_origin repo = Some (u, o) -> host_str u = Some h -> hosts_contain (trusted_hosts (exempt_host s repo)) h = true.
Proof.
  intros Hs. unfold exempt_host. destruct (parsed_origin repo) as [[u o]|]; [|done].
  destruct (host_str u) as [h|] eqn:Eh; [|split_and!; [done|done|intros; congruence]]. split_and!.
  - destruct Hs. split; cbn; try done. intros v p k Hv Hp Hk. specialize (ok_hosts0 v p k Hv Hp Hk).
    unfold hosts_contain in *. rewrite bool_decide_eq_true in *. set_solver.
  - cbn. set_solver.
  - intros u' o' h' [= <- <-] Eh'. assert (h' = h) as -> by congruence. unfold hosts_contain. cbn. apply bool_decide_eq_true. set_solver.
Qed.

Lemma parsed_origin_key repo u o : parsed_origin repo = Some (u, o) -> origin_key u = Some o.
Proof.
  unfold parsed_origin. destruct (parse_url repo) as [v|]; [|done]. cbn. destruct (origin_key v) eqn:E; [|done]. cbn. by intros [= <- <-].
Qed.

Lemma exempt_origin_ok s repo :
  set_ok s ->
  (forall u o h, parsed_origin repo = Some (u, o) -> host_str u = Some h -> hosts_contain (trusted_hosts s) h = true) ->
  set_ok (exempt_origin s repo) /\ trusted_hosts (exempt_origin s repo) = trusted_hosts s.
Proof.
  intros Hs Hh. unfold exempt_origin. destruct (parsed_origin repo) as [[u o]|] eqn:Ep; [|done]. split; [|done].
  destruct Hs. split; cbn; try done; [set_solver|]. intros v p k Hv Hp Hk.
  apply elem_of_union in Hp as [->%elem_of_singleton|Hp]; [|by apply (ok_hosts0 v p k)].
  apply (Hh u o k eq_refl). rewrite <-Hk. apply (origin_key_host_str u v o); [by apply (parsed_origin_key repo)|done].
Qed.

Lemma authorize_issuer_ok s repo : set_ok s -> set_ok (authorize_issuer s repo) /\ trusted_hosts (authorize_issuer s repo) = trusted_hosts s.
Proof.
  intros Hs. unfold authorize_issuer. destruct (parsed_origin repo) as [[u o]|]; [|done].
  destruct (root_clients s !! o) eqn:Er; [done|]. split; [|done]. destruct Hs. split; cbn; try done.
  intros o' c'. destruct (decide (o = o')) as [<-|Hn].
  - by rewrite lookup_insert_eq.
  - rewrite lookup_insert_ne by done. apply ok_roots0.
Qed.

Lemma step_ok r r' : run_ok r -> step builds masks r r' -> run_ok r'.
Proof.
  intros [Hs Hp] Hstep. destruct Hstep as [s l repo|s l repo Hin|s l repo|s l url c s' Hc]; cbn in *.
  - destruct (exempt_host_ok s repo Hs) as (Hs' & Hsub & Hnew). split; [done|]. cbn. intros repo' u o h [->|Hin]%elem_of_cons Hr' Hh; [eauto|].
    specialize (Hp repo' u o h Hin Hr' Hh). unfold hosts_contain in *. rewrite bool_decide_eq_true in *. set_solver.
  - destruct (exempt_origin_ok s repo Hs) as (Hs' & Eh). { intros. by apply (Hp repo u o h). }
    split; [done|]. cbn. by rewrite Eh.
  - destruct (authorize_issuer_ok s repo Hs) as (Hs' & Eh). split; [done|]. cbn. by rewrite Eh.
  - destruct (client_for_ok s url c s' Hs Hc) as (Hs' & Eh & _). split; [done|]. cbn. by rewrite Eh.
Qed.

Lemma runs_ok r r' : runs builds masks r r' -> run_ok r -> run_ok r'.
Proof. induction 1; eauto using step_ok. Qed.

(** ** Initial states *)

Definition guard_ok : Prop :=
  forall u o h, origin_key u = Some o -> o ∈ origins guard -> host_str u = Some h -> hosts_contain (exempt_hosts guard) h = true.

Lemma from_guard_ok : guard_ok -> run_ok {| clients_of := from_guard guard proxies0; pending := [] |}.
Proof.
  intros Hok. split; [|intros ? ? ? ? []%elem_of_nil]. cbn. split; cbn; try done.
Qed.

(** ** Addresses *)

Context (Hg : guard_proxies guard = proxies0) `{HttpLaws}.

(** A target the guard screened, at an address the client of that guard connects to. *)
Lemma screened_target c live w v i a :
  exemptions c = Frozen (exempt_hosts (policy c)) -> client_proxies c = guard_proxies (policy c) ->
  http_scheme (scheme w) = true -> http_scheme (scheme v) = true -> same_origin w v ->
  screen_target masks (policy c) w i = Ok tt -> dials live c v a -> carries (client_proxies c) v = false ->
  is_globally_routable a = true \/ ascii_serialization (origin v) ∈ origins (policy c).
Proof.
  intros Ee Ep Hw Hv Hs Hscreen Hd Hc. destruct (same_origin_parts w v Hw Hv Hs) as (_ & Eh & _).
  rewrite <-(same_origin_key w v Hs). unfold screen_target in Hscreen.
  assert (ip_literal w = ip_literal v) as El by (unfold ip_literal; by rewrite Eh).
  destruct (dials_address live c v a Hd) as [?|[Ea|(d & answer & l & p & Hdom & Hres & Hin)]]; [congruence| |].
  - assert (non_global_literal_target masks w (origins (policy c)) = None) as Hn.
    { unfold ip_literal in Ea. rewrite <-Eh in Ea. destruct (host w) as [[]|]; try discriminate Ea; by destruct (non_global_literal_target _ _ _). }
    unfold non_global_literal_target in Hn. rewrite El, Ea in Hn. destruct (is_globally_routable a); [by left|]. right.
    cbn in Hn. by case_bool_decide.
  - rewrite Eh, Hdom in Hscreen. case_bool_decide; [by right|]. left.
    rewrite <-Ep, (carries_same_origin _ w v Hw Hv Hs), Hc in Hscreen.
    destruct (hosts_contain (exempt_hosts (policy c)) d) eqn:Ex; [done|].
    rewrite Ee in Hres. cbn in Hres. apply resolve_Ok in Hres as (_ & [Hy|Hall]); [congruence|].
    rewrite list.Forall_forall in Hall. by apply (Hall (a, p)).
Qed.

(** A URL on the origin of the request, at a client that exempts its host only when a proxy
    carries the URL. *)
Lemma screened_direct c live u v a hosts :
  exemptions c = Frozen hosts -> http_scheme (scheme u) = true -> http_scheme (scheme v) = true -> same_origin u v ->
  (forall a, ip_literal u = Some a -> is_globally_routable a = true) ->
  (forall h, host_str u = Some h -> hosts_contain hosts h = true -> carries (client_proxies c) u = true) ->
  dials live c v a -> carries (client_proxies c) v = false -> is_globally_routable a = true.
Proof.
  intros Ee Hu Hv Hs Hlit Hproxy Hd Hc. destruct (same_origin_parts u v Hu Hv Hs) as (_ & Eh & _).
  destruct (dials_address live c v a Hd) as [?|[Ea|(d & answer & l & p & Hdom & Hres & Hin)]]; [congruence| |].
  - apply Hlit. revert Ea. unfold ip_literal. by rewrite Eh.
  - rewrite Ee in Hres. cbn in Hres. apply resolve_Ok in Hres as (_ & [Hy|Hall]).
    + assert (host_str u = Some d) as Hd'. { unfold host_str. rewrite Eh, Hdom. cbn. by rewrite host_text_domain. }
      specialize (Hproxy d Hd' Hy). rewrite (carries_same_origin _ u v Hu Hv Hs) in Hproxy. congruence.
    + rewrite list.Forall_forall in Hall. by apply (Hall (a, p)).
Qed.

Lemma no_guard_stays l u v : accepted masks no_guard l -> head l = Some u -> v ∈ l -> same_origin u v.
Proof.
  intros Hl Hu Hv. pose proof (accepted_places masks no_guard l u Hl Hu) as Hp. rewrite list.Forall_forall in Hp.
  destruct (Hp v Hv) as [Hs|(w & i & _ & _ & _ & [Ho|Ho] & _)]; [done|set_solver|done].
Qed.

Lemma addresses_ok r u o c s' l v a live :
  run_ok r -> origin_key u = Some o -> client_for builds masks (clients_of r) u = Ok (c, s') ->
  follows c u l -> v ∈ l -> dials live c v a -> carries (client_proxies c) v = false ->
  is_globally_routable a = true \/ ascii_serialization (origin v) ∈ origins guard \/
  same_origin u v /\ (o ∈ trusted_origins (clients_of r) \/ is_Some (root_clients (clients_of r) !! o)).
Proof.
  intros [Hs _] Ho Hc Hf Hv Hd Hn. pose proof (proj1 (proj1 (origin_key_Some u o) Ho)) as Hu.
  destruct (follows_policy c u l Hu Hf) as [Hl Hhead]. pose proof (accepted_http _ _ _ Hl) as Hh. rewrite list.Forall_forall in Hh.
  pose proof (accepted_places _ _ l u Hl Hhead) as Hp. rewrite list.Forall_forall in Hp. specialize (Hp v Hv).
  destruct (client_for_ok (clients_of r) u c s' Hs Hc) as (_ & _ & _ & Hgiven). specialize (Hgiven o Ho).
  destruct Hgiven as [c Hsome (url & Eo & ->)|Hin|Hin|Hnt Hlit|Hnt Hlit Hproxy].
  - destruct Hp as [Hsame|(w & i & Hw & Hwv & _ & _ & _ & _ & Hscreen)]; [tauto|].
    match type of Hd with dials _ ?c _ _ =>
      destruct (screened_target c live w v _ a eq_refl (eq_sym Hg) (Hh w Hw) (Hh v Hv) Hwv Hscreen Hd Hn); tauto end.
  - destruct Hp as [Hsame|(w & i & Hw & Hwv & _ & _ & _ & _ & Hscreen)].
    + right. right. split; [done|]. left. apply (ok_trusted _ Hs). done.
    + destruct (screened_target configured_client live w v _ a eq_refl (eq_sym Hg) (Hh w Hw) (Hh v Hv) Hwv Hscreen Hd Hn); tauto.
  - right. right. split; [by apply (no_guard_stays l)|tauto].
  - left. apply (screened_direct direct_client live u v a ∅ eq_refl Hu (Hh v Hv)); try done.
    by apply (no_guard_stays l).
  - left. apply (screened_direct screened_client live u v a _ eq_refl Hu (Hh v Hv)); try done. by apply (no_guard_stays l).
Qed.
End Screen.

Section Build.
Context `{UrlLaws} (builds : Client -> bool) (masks : list (str * str)).

Lemma collect_endpoints_ok urls found hosts found' hosts' :
  collect_endpoints urls found hosts = Some (found', hosts') ->
  (forall h, h ∈ hosts -> h ∈ hosts') /\
  forall o, o ∈ found' -> o ∈ found \/ exists url, origin_key url = Some o /\ forall h, host_str url = Some h -> h ∈ hosts'.
Proof.
  revert found hosts. induction urls as [|u urls IH]; intros found hosts; cbn [collect_endpoints].
  - intros [= -> ->]. split; [done|]. auto.
  - destruct (parse_url u) as [url|]; [|done]. cbn. destruct (origin_key url) as [o|] eqn:Eo; [|apply IH].
    intros [Hsub Ho]%IH. split.
    + intros h Hh. apply Hsub, elem_of_app. by left.
    + intros o' [Hin|?]%Ho; [|by right]. apply elem_of_union in Hin as [->%elem_of_singleton|]; [|by left].
      right. exists url. split; [done|]. intros h Eh. apply Hsub, elem_of_app. right. rewrite Eh. by left.
Qed.

Lemma redirect_guard_ok config proxies g :
  redirect_guard config proxies = Some g -> guard_ok g /\ guard_proxies g = proxies /\ root_issuer g = None.
Proof.
  unfold redirect_guard. destruct (collect_endpoints _ _ _) as [[found hosts]|] eqn:Ec; [|done]. cbn. intros [= <-].
  split_and!; try done. intros u o h Hu Ho Hh. cbn in Ho.
  destruct (collect_endpoints_ok _ _ _ _ _ Ec) as [_ Hc]. destruct (Hc o Ho) as [|(url & Eo & Hhost)]; [set_solver|].
  rewrite (origin_key_host_str u url o Hu Eo) in Hh. specialize (Hhost h Hh). cbn. unfold hosts_contain, configured_hosts.
  apply bool_decide_eq_true, elem_of_list_to_set, list_elem_of_fmap. by exists h.
Qed.

Lemma build_ok env config s :
  build_client_set env config = Ok s ->
  exists guard proxies, s = from_guard guard proxies /\ guard_ok guard /\ guard_proxies guard = proxies /\ root_issuer guard = None.
Proof.
  unfold build_client_set. destruct (proxies_from_config env config) as [ps|]; [|done]. cbn.
  destruct (redirect_guard config ps) as [g|] eqn:Eg; [|done]. cbn. intros [= <-].
  exists g, ps. split; [done|]. by apply (redirect_guard_ok config).
Qed.

(** The origins that may be reached off the public internet when a request is made. *)
Definition trusted_now (s : ClientSet) (u : Url) : Prop :=
  exists o, origin_key u = Some o /\ (o ∈ trusted_origins s \/ is_Some (root_clients s !! o)).

Context {Stack : HttpStack} {Stack_laws : HttpLaws masks}.

(** C4: Whatever grants and requests ran before or run meanwhile, an address to which a request
    or one of its redirects connects without a proxy is globally routable, or belongs to an
    origin of the configuration, or to the origin requested, which was then exempt. *)
Theorem request_addresses (env : str -> option str) (config : Endpoints) (s s' : ClientSet) (r : Run) (u v : Url)
    (c : Client) (l : list Url) (live : gset str) (a : IpAddr)
    (Hbuild : build_client_set env config = Ok s) (Hrun : runs builds masks {| clients_of := s; pending := [] |} r)
    (Hu : http_scheme (scheme u) = true) (Hclient : client_for builds masks (clients_of r) u = Ok (c, s'))
    (Hfollow : follows c u l) (Hv : v ∈ l) (Hdial : dials live c v a) (Hproxy : carries (client_proxies c) v = false) :
  is_globally_routable a = true \/ ascii_serialization (origin v) ∈ configured_origins s \/
  same_origin u v /\ trusted_now (clients_of r) u.
Proof.
  destruct (build_ok env config s Hbuild) as (g & ps & -> & Hg & Hps & Hroot).
  assert (run_ok g ps r) as Hok by (eapply runs_ok; [exact Hrun|by apply from_guard_ok]).
  assert (origin_key u = Some (ascii_serialization (origin u))) as Ho by (by apply origin_key_Some).
  destruct (addresses_ok builds masks g ps Hps r u _ c s' l v a live Hok Ho Hclient Hfollow Hv Hdial Hproxy) as [|[|[? ?]]]; [tauto|tauto|].
  right. right. split; [done|]. eexists. split; [exact Ho|done].
Qed.

(** C20: Where the HTTP library builds every client it is asked for, and while grants run
    concurrently, each in its two steps, a repository whose origin is trusted is reached
    at any address: no request to it is refused for the address it
    names, and the resolver of its client returns every answer, with the live hosts of the
    moment or of any later one. *)
Theorem trusted_repository_reached (env : str -> option str) (config : Endpoints) (s : ClientSet) (r : Run) (u : Url) (o : str)
    (Hbuild : build_client_set env config = Ok s) (Hrun : runs builds masks {| clients_of := s; pending := [] |} r)
    (Ho : origin_key u = Some o) (Htrust : o ∈ trusted_origins (clients_of r)) (Hbuilds : forall c, builds c = true) :
  exists c s', client_for builds masks (clients_of r) u = Ok (c, s') /\
    forall live d answer, trusted_hosts (clients_of r) ⊆ live -> host u = Some (Domain d) ->
      resolve (exempt_now live (exemptions c)) d answer = Ok answer.
Proof.
  destruct (build_ok env config s Hbuild) as (g & ps & -> & Hg & Hps & Hroot).
  assert (run_ok g ps r) as [Hok _] by (eapply runs_ok; [exact Hrun|by apply from_guard_ok]).
  assert (exists c s', client_for builds masks (clients_of r) u = Ok (c, s')) as (c & s' & Hc).
  { unfold client_for, root_client_for, get_clients, build_clients, build_client. rewrite Ho.
    destruct (root_clients (clients_of r) !! o) as [[c|]|]; rewrite ?Hbuilds; cbn; eauto.
    rewrite bool_decide_true by done. cbn. rewrite andb_false_r. destruct (built (clients_of r)); rewrite ?Hbuilds; cbn; eauto. }
  exists c, s'. split; [done|]. intros live d answer Hlive Hd.
  assert (host_str u = Some d) as Hh. { unfold host_str. rewrite Hd. cbn. by rewrite host_text_domain. }
  assert (hosts_contain (exempt_now live (exemptions c)) d = true) as Hx.
  { destruct (client_for_ok builds masks g ps (clients_of r) u c s' Hok Hc) as (_ & _ & _ & Hgiven).
    destruct (Hgiven o Ho) as [c Hsome (url & Eo & ->)|Hin|Hin|Hnt _|Hnt _ _]; cbn; [| | |done|done].
    - rewrite (origin_key_host_str url u o Eo Ho), Hh. unfold hosts_contain, configured_hosts.
      apply bool_decide_eq_true, elem_of_list_to_set, list_elem_of_fmap. exists d. split; [done|]. apply elem_of_app. right. by left.
    - by apply (Hg u o d).
    - pose proof (ok_hosts g ps _ Hok u o d Ho Htrust Hh) as Ht. unfold hosts_contain in *. rewrite bool_decide_eq_true in *. set_solver. }
  unfold resolve, screen_resolved_addrs. unfold hosts_contain in *. rewrite normalized_host_lower, Hx. cbn.
  assert (find (fun _ : SocketAddr => false) answer = None) as -> by (by induction answer). done.
Qed.
End Build.
