(* ===== verification/ScreenDemo.v ===== *)
(** * Runs of the transport

    The theorems of the transport at concrete URLs, with the sample of the [url] crate and
    an HTTP library that does all its documentation allows. *)

From Stdlib Require Import Ascii String Lia.
From stdpp Require Import base numbers list strings gmap sets.
From S2P Require Import Prelude Str PathUtils Addr IpText Url Redact Proxy ProxyFacts Guard Screen.

Import Sample.

(** The most liberal HTTP library: it follows any redirect its policy accepts and connects
    to any address the resolver returns for some answer. *)
#[local] Instance any_stack : HttpStack := {|
  follows c u l := accepted [] (policy c) l /\ head l = Some u;
  dials live c v a :=
    carries (client_proxies c) v = true \/ ip_literal v = Some a \/
    exists d answer l p, host v = Some (Domain d) /\ resolve (exempt_now live (exemptions c)) d answer = Ok l /\ (a, p) ∈ l
|}.

#[local] Instance any_stack_laws : HttpLaws [].
Proof. split; [by intros c u l _ Hf|by intros live c v a Hd]. Qed.

Definition no_env : str -> option str := fun _ => None.

Definition central : @Url crate := {| https := true; at_host := Central; at_port := P443; user := []; pass := None;
  at_path := $"/maven2/"; at_query := None; at_fragment := None |}.
Definition cdn : @Url crate := {| https := true; at_host := Cdn; at_port := P443; user := []; pass := None;
  at_path := $"/a.jar"; at_query := None; at_fragment := None |}.
Definition nexus : @Url crate := {| https := false; at_host := Nexus; at_port := P8081; user := []; pass := None;
  at_path := $"/m2/"; at_query := None; at_fragment := None |}.
Definition private : @Url crate := {| https := true; at_host := Private; at_port := P443; user := []; pass := None;
  at_path := $"/"; at_query := None; at_fragment := None |}.

(** Maven Central and a proxy that leaves the addresses of [10.0.0.0/8] alone. *)
Definition demo_config : Endpoints := {|
  proxy_error := None;
  config_proxies := [];
  repository_urls := [$"https://repo.maven.apache.org/maven2/"]; mirror_urls := [] |}.

Definition demo_set : ClientSet :=
  match build_client_set no_env demo_config with Ok s => s | Err _ => from_guard no_guard no_proxies end.

Definition demo_client : Client := configured_client (frozen_guard demo_set) (proxies demo_set).

(** A redirect from Maven Central to a public host is followed; one to a private address
    is not, nor a second one to another origin. *)
Example evaluate_samples :
  evaluate [] (policy demo_client) [central] cdn = Ok tt /\
  match evaluate [] (policy demo_client) [central] private with Err e => kind e = NonGlobalTarget | Ok _ => False end /\
  match evaluate [] (policy demo_client) [central; cdn] central with Err e => kind e = SecondCrossOriginHop | Ok _ => False end /\
  match evaluate [] (policy demo_client) [nexus] cdn with Err e => kind e = OriginNotConfigured | Ok _ => False end.
Proof. vm_compute. done. Qed.

Lemma demo_chain : accepted [] (policy demo_client) [central; cdn].
Proof.
  apply (accepted_hop [] (policy demo_client) [central] cdn); [apply accepted_first|..]; vm_compute; reflexivity.
Defined.


Lemma demo_build : build_client_set no_env demo_config = Ok demo_set.
Proof. vm_compute. reflexivity. Qed.

Lemma demo_request : exists s', client_for (fun _ => true) [] demo_set central = Ok (demo_client, s').
Proof. eexists. vm_compute. reflexivity. Qed.

(** The redirect of Maven Central to the public host connects to a public address. *)
Lemma request_addresses_witness :
  exists s', client_for (fun _ => true) [] demo_set central = Ok (demo_client, s') /\
    (is_globally_routable (V4 (v4 151 101 0 215)) = true \/
     ascii_serialization (origin cdn) ∈ configured_origins demo_set \/
     same_origin central cdn /\ trusted_now demo_set central).
Proof.
  destruct demo_request as (s' & E). exists s'. split; [exact E|].
  apply (request_addresses (fun _ => true) [] no_env demo_config demo_set s' {| clients_of := demo_set; pending := [] |}
           central cdn demo_client [central; cdn] ∅ (V4 (v4 151 101 0 215)) demo_build).
  - apply runs_refl.
  - vm_compute. reflexivity.
  - exact E.
  - split; [exact demo_chain|reflexivity].
  - right. left.
  - right. right. exists $"cdn.example", [(V4 (v4 151 101 0 215), 0%N)], [(V4 (v4 151 101 0 215), 0%N)], 0%N.
    split; [reflexivity|]. split; [vm_compute; reflexivity|left].
  - vm_compute. reflexivity.
Defined.

(** A repository of the project on a private host: its origin is trusted once both halves
    of the grant ran, and an answer that is private is let through. *)
Definition nexus_repo : str := $"http://nexus.corp:8081/m2/".
Definition granted : Run := {| clients_of := exempt_origin (exempt_host demo_set nexus_repo) nexus_repo; pending := [nexus_repo] |}.

Lemma demo_grant : runs (fun _ => true) [] {| clients_of := demo_set; pending := [] |} granted.
Proof.
  eapply runs_step; [eapply runs_step; [apply runs_refl|apply step_exempt_host]|].
  apply step_exempt_origin. left.
Qed.

Lemma trusted_repository_reached_witness :
  exists c s', client_for (fun _ => true) [] (clients_of granted) nexus = Ok (c, s') /\
    resolve (exempt_now (trusted_hosts (clients_of granted)) (exemptions c)) $"nexus.corp" [(V4 (v4 10 0 0 1), 0%N)]
    = Ok [(V4 (v4 10 0 0 1), 0%N)].
Proof.
  destruct (trusted_repository_reached (fun _ => true) [] no_env demo_config demo_set granted nexus $"http://nexus.corp:8081"
              demo_build demo_grant ltac:(vm_compute; reflexivity) ltac:(apply (bool_decide_unpack _); vm_compute; exact I)
              ltac:(intros; reflexivity)) as (c & s' & E & Hr).
  exists c, s'. split; [exact E|]. apply Hr; [reflexivity|reflexivity].
Defined.

(** [10.0.0.0/8] covers [10.0.0.1] and not [151.101.0.215]. *)
Lemma no_proxy_range_witness :
  exists entry, parse_no_proxy 1 $"10.0.0.0/8" = Ok entry /\ no_proxy_matches entry private = true.
Proof.
  destruct (no_proxy_range $"10.0.0.0" $"8" 1 (V4 (v4 10 0 0 0)) 8 private
              ltac:(vm_compute; reflexivity) ltac:(vm_compute; reflexivity)
              ltac:(apply (bool_decide_unpack _); vm_compute; exact I) ltac:(vm_compute; discriminate)
              ltac:(intros a E; injection E as <-; vm_compute; reflexivity)) as (entry & Ep & Hm).
  exists entry. split; [exact Ep|]. apply Hm. exists (V4 (v4 10 0 0 1)). split; [reflexivity|]. split; vm_compute; reflexivity.
Defined.
