(* ===== verification/Security.v ===== *)
(** * The security policy ([rv-config/src/config.rs])

    The [[security]] tables of the user's and the project's files, their merge, and the
    test that admits a repository a dependency declares. *)

From Stdlib Require Import Ascii String Lia.
From stdpp Require Import base numbers list strings.
From S2P Require Import Prelude Str Addr Url Redact.

#[local] Set Warnings "-clear-no-such-hyp".

Record SecurityConfig := {
  allow_env_substitution : list str;
  allow_transitive_repositories : bool;
  transitive_repository_allowlist : list str }.

Definition default_security : SecurityConfig :=
  {| allow_env_substitution := []; allow_transitive_repositories := false; transitive_repository_allowlist := [] |}.

Record SecurityConfigToml := {
  toml_env_substitution : option (list str);
  toml_transitive_repositories : option bool;
  toml_repository_allowlist : option (list str) }.

(** The refusals of [validate_allowlist], and the file they are in. *)
Inductive AllowlistError := BadVariableName (position : nat) | BadAllowlistUrl (position : nat) (shown : str).
Inductive ConfigOrigin := ProjectFile | UserFile.
Inductive ConfigError := InvalidSecurity (origin : ConfigOrigin) (message : AllowlistError).

Definition is_env_var_name (name : str) : bool :=
  (length name <=? 255)%nat &&
  match name with
  | [] => false
  | c :: rest => (is_alpha c || one_of ["_"]%char c) && forallb (fun b => is_alnum b || one_of ["_"]%char b) rest
  end.

Section Urls.
Context `{UrlCrate}.

Definition parse_url_origin (raw : str) : option Url :=
  opt_filter (fun url => http_scheme (scheme url) && bool_decide (is_Some (host_str url))) (parse_url raw).

Definition url_origin_matches (allowed candidate : Url) : bool :=
  if negb (origins_eq (origin allowed) (origin candidate)) then false
  else
    bool_decide (path candidate = path allowed)
    || (starts_with (path allowed) (path candidate)
        && (ends_with_char (one_of ["/"]%char) (path allowed)
            || starts_with_char (one_of ["/"]%char) (drop (length (path allowed)) (path candidate)))).

Definition allows_transitive_repo_url (c : SecurityConfig) (url : str) : bool :=
  match parse_url_origin url with
  | None => false
  | Some candidate =>
    if allow_transitive_repositories c then true
    else existsb (fun allowed => url_origin_matches allowed candidate) (omap parse_url_origin (transitive_repository_allowlist c))
  end.

Fixpoint first_bad {A} (ok : A -> bool) (index : nat) (l : list A) : option (nat * A) :=
  match l with [] => None | x :: l => if ok x then first_bad ok (S index) l else Some (index, x) end.

Definition validate_allowlist (masks : list (str * str)) (c : SecurityConfig) : result AllowlistError unit :=
  match first_bad is_env_var_name 0 (allow_env_substitution c) with
  | Some (index, _) => Err (BadVariableName (index + 1))
  | None =>
    match first_bad (fun e => bool_decide (is_Some (parse_url_origin e))) 0 (transitive_repository_allowlist c) with
    | Some (index, entry) => Err (BadAllowlistUrl (index + 1) (redact_url masks entry))
    | None => Ok tt
    end
  end.

(** What the user's table allows; absent keys take their defaults. *)
Definition user_security (user : option SecurityConfigToml) : SecurityConfig :=
  let env := user ≫= toml_env_substitution in
  let flag := user ≫= toml_transitive_repositories in
  let urls := user ≫= toml_repository_allowlist in
  {| allow_env_substitution := default [] env; allow_transitive_repositories := default false flag;
     transitive_repository_allowlist := default [] urls |}.

(** The keys of the project, each with its name when it asks for more than the user allows. *)
Definition merge_env (user : SecurityConfig) (project : option (list str)) : list str * list str :=
  match project with
  | None => (allow_env_substitution user, [])
  | Some names =>
    let known name := bool_decide (name ∈ allow_env_substitution user) in
    (List.filter known names, if forallb known names then [] else [$"allow_env_substitution"])
  end.

Definition merge_flag (user : SecurityConfig) (project : option bool) : bool * list str :=
  match project with
  | None => (allow_transitive_repositories user, [])
  | Some allow =>
    (allow && allow_transitive_repositories user,
     if allow && negb (allow_transitive_repositories user) then [$"allow_transitive_repositories"] else [])
  end.

Definition merge_allowlist (masks : list (str * str)) (user : SecurityConfig) (project : option (list str)) : result ConfigError (list str * list str) :=
  match project with
  | None => Ok (transitive_repository_allowlist user, [])
  | Some entries =>
    _ ← map_err (InvalidSecurity ProjectFile)
          (validate_allowlist masks {| allow_env_substitution := []; allow_transitive_repositories := false; transitive_repository_allowlist := entries |});
    Ok (List.filter (allows_transitive_repo_url user) entries,
        if forallb (allows_transitive_repo_url user) entries then [] else [$"transitive_repository_allowlist"])
  end.

(** [merge_security]: the merged policy and the project's keys that asked for more. *)
Definition merge_security (masks : list (str * str)) (project user : option SecurityConfigToml) : result ConfigError (SecurityConfig * list str) :=
  let user := user_security user in
  _ ← map_err (InvalidSecurity UserFile) (validate_allowlist masks user);
  match project with
  | None => Ok (user, [])
  | Some project =>
    let '(names, w1) := merge_env user (toml_env_substitution project) in
    let '(flag, w2) := merge_flag user (toml_transitive_repositories project) in
    '(urls, w3) ← merge_allowlist masks user (toml_repository_allowlist project);
    Ok ({| allow_env_substitution := names; allow_transitive_repositories := flag; transitive_repository_allowlist := urls |}, w1 ++ w2 ++ w3)
  end.

(** ** The project only narrows *)

Lemma parse_url_origin_http raw u : parse_url_origin raw = Some u -> http_scheme (scheme u) = true.
Proof.
  unfold parse_url_origin. destruct (parse_url raw) as [v|]; [|done]. cbn.
  destruct (http_scheme (scheme v)) eqn:E; [|done]. cbn. case_bool_decide; [|done]. by intros [= <-].
Qed.

Lemma allows_flag c url u : parse_url_origin url = Some u -> allow_transitive_repositories c = true -> allows_transitive_repo_url c url = true.
Proof. intros Hu Hf. unfold allows_transitive_repo_url. by rewrite Hu, Hf. Qed.

Lemma allows_spec c url :
  allows_transitive_repo_url c url = true <->
  exists u, parse_url_origin url = Some u /\
    (allow_transitive_repositories c = true \/
     exists entry a, entry ∈ transitive_repository_allowlist c /\ parse_url_origin entry = Some a /\ url_origin_matches a u = true).
Proof.
  unfold allows_transitive_repo_url. destruct (parse_url_origin url) as [u|]; [|naive_solver].
  destruct (allow_transitive_repositories c); [naive_solver|]. rewrite existsb_exists. setoid_rewrite <-list_elem_of_In.
  setoid_rewrite list_elem_of_omap. naive_solver.
Qed.

Lemma slash_starts s : starts_with_char (one_of ["/"]%char) s = true <-> exists t, s = "/"%char :: t.
Proof.
  destruct s as [|c s]; cbn; [naive_solver|]. unfold one_of. rewrite bool_decide_eq_true, list_elem_of_singleton. naive_solver.
Qed.

(** What one entry covers, in the parts of the path. *)
Lemma url_origin_matches_spec a u :
  url_origin_matches a u = true <->
  origins_eq (origin a) (origin u) = true /\
  exists rest, path u = path a ++ rest /\
    (rest = [] \/ ends_with_char (one_of ["/"]%char) (path a) = true \/ exists t, rest = "/"%char :: t).
Proof.
  unfold url_origin_matches. destruct (origins_eq _ _); cbn; [|naive_solver].
  rewrite orb_true_iff, bool_decide_eq_true, andb_true_iff, starts_with_app, orb_true_iff, slash_starts. split.
  - intros [E|((rest & E) & Hb)].
    + split; [done|]. exists []. rewrite app_nil_r. auto.
    + split; [done|]. exists rest. split; [done|]. rewrite E, drop_app_length in Hb. tauto.
  - intros (_ & rest & E & [->|Hb]); [left; by rewrite app_nil_r in E|]. right. split; [eauto|].
    rewrite E, drop_app_length. tauto.
Qed.

Lemma url_origin_matches_trans a b c : url_origin_matches a b = true -> url_origin_matches b c = true -> url_origin_matches a c = true.
Proof.
  rewrite !url_origin_matches_spec. intros (O1 & r1 & E1 & B1) (O2 & r2 & E2 & B2). split.
  - apply origins_eq_Some in O1 as (t & -> & Et), O2 as (t' & Et2 & ->). apply origins_eq_Some. exists t. naive_solver.
  - exists (r1 ++ r2). rewrite E2, E1, app_assoc. split; [done|]. destruct B1 as [->|[?|(t & ->)]].
    + cbn. rewrite E1, app_nil_r in B2. done.
    + auto.
    + right. right. by exists (t ++ r2).
Qed.

Lemma merge_env_narrows user project name : name ∈ (merge_env user project).1 -> name ∈ allow_env_substitution user.
Proof. destruct project as [names|]; [|done]. cbn. rewrite list_elem_of_In, filter_In, bool_decide_eq_true. tauto. Qed.

Lemma merge_flag_narrows user project : (merge_flag user project).1 = true -> allow_transitive_repositories user = true.
Proof. destruct project; cbn; [|done]. by intros [? ?]%andb_true_iff. Qed.

Lemma merge_allowlist_narrows masks user project urls w url :
  merge_allowlist masks user project = Ok (urls, w) -> url ∈ urls ->
  url ∈ transitive_repository_allowlist user \/ allows_transitive_repo_url user url = true.
Proof.
  unfold merge_allowlist. destruct project as [entries|]; [|intros [= <- <-]; auto].
  destruct (validate_allowlist masks _) as [[]|]; [|done]. cbn. intros [= <- <-].
  rewrite list_elem_of_In, filter_In. tauto.
Qed.

(** C22: A project file only narrows what the user allows: every variable the merged policy
    substitutes and every repository URL it admits, the user's own policy does too. *)
Theorem project_only_narrows (masks : list (str * str)) (project user : option SecurityConfigToml)
    (merged : SecurityConfig) (widened : list str) (Hm : merge_security masks project user = Ok (merged, widened)) :
  (forall name, name ∈ allow_env_substitution merged -> name ∈ allow_env_substitution (user_security user)) /\
  (forall url, allows_transitive_repo_url merged url = true -> allows_transitive_repo_url (user_security user) url = true).
Proof.
  revert Hm. unfold merge_security. cbv zeta. generalize (user_security user). intros U.
  destruct (validate_allowlist masks U) as [[]|]; [|done]. cbn [map_err mbind result_bind].
  destruct project as [p|]; [|by intros [= <- <-]].
  pose proof (merge_env_narrows U (toml_env_substitution p)) as HX.
  pose proof (merge_flag_narrows U (toml_transitive_repositories p)) as HY.
  pose proof (merge_allowlist_narrows masks U (toml_repository_allowlist p)) as HZ.
  destruct (merge_env U _) as [names w1], (merge_flag U _) as [flag w2], (merge_allowlist masks U _) as [[urls w3]|]; [|done].
  intros [= <- <-]. cbn in *. split; [done|]. intros url. rewrite !allows_spec. cbn.
  intros (u & Hu & [Hf|(entry & a & Hin & Ha & Hmatch)]); [eauto|]. exists u. split; [done|].
  destruct (HZ urls w3 entry eq_refl Hin) as [Hold|Hnew]; [eauto 6|].
  apply allows_spec in Hnew as (a' & Ha' & [Hf|(entry' & b & Hin' & Hb & Hm')]); [auto|].
  right. exists entry', b. split_and!; [done|done|]. apply (url_origin_matches_trans b a u); [|done]. congruence.
Qed.
End Urls.
