(* ===== verification/Repository.v ===== *)
(** * Repositories ([rv-repo/src/repository.rs], [rv-config/src/settings.rs],
      [rv-lock/src/lock_origin.rs])

    A repository with its release and snapshot policies: how it is built from a
    configuration or a POM, how declarations of one repository merge, what its version
    listing reads, and the URL of a path below it. *)

From Stdlib Require Import Ascii String Lia.
From stdpp Require Import base numbers list strings.
From S2P Require Import Prelude Str Snapshot PathUtils Addr Url Redact.

#[local] Set Warnings "-clear-no-such-hyp".

(** ** Policies *)

Inductive UpdatePolicy := Always | Daily | Interval (minutes : N) | Never.

#[export] Instance update_policy_eq_dec : EqDecision UpdatePolicy.
Proof. solve_decision. Defined.

Definition default_update_policy : UpdatePolicy := Interval 60.

Module UpdatePolicy.
Definition parse (value : str) : option UpdatePolicy :=
  let lower := to_ascii_lowercase (trim value) in
  match strip_prefix $"interval:" lower with
  | Some rest =>
    minutes ← parse_u32 (trim rest);
    if (minutes =? 0)%N then None else Some (Interval minutes)
  | None =>
    if bool_decide (lower = $"always") then Some Always
    else if bool_decide (lower = $"daily") then Some Daily
    else if bool_decide (lower = $"never") then Some Never
    else None
  end.

Definition i64_max : Z := 2 ^ 63 - 1.

Definition ttl_secs (p : UpdatePolicy) : Z :=
  match p with Always => 0 | Daily => 24 * 60 * 60 | Interval minutes => Z.of_N minutes * 60 | Never => i64_max end.

Definition display (p : UpdatePolicy) : str :=
  match p with Always => $"always" | Daily => $"daily" | Interval minutes => $"interval:" ++ fmt_u32 minutes | Never => $"never" end.
End UpdatePolicy.

Inductive ChecksumPolicy := Warn | Fail_ | Ignore | Unsupported.

#[export] Instance checksum_policy_eq_dec : EqDecision ChecksumPolicy.
Proof. solve_decision. Defined.

Definition default_checksum_policy : ChecksumPolicy := Warn.

Definition parse_checksum_policy (value : str) : option ChecksumPolicy :=
  let value := trim value in
  if bool_decide (value = $"warn") then Some Warn
  else if bool_decide (value = $"fail") then Some Fail_
  else if bool_decide (value = $"ignore") then Some Ignore
  else None.

Definition checksum_from_maven (value : str) : ChecksumPolicy := default Unsupported (parse_checksum_policy value).

(** How strongly a policy refuses. *)
Definition strictness (p : ChecksumPolicy) : N := match p with Warn | Ignore => 0 | Fail_ => 1 | Unsupported => 2 end.

(** Where a repository was declared. *)
Inductive Provenance := Caller | Configured | LocalPom | FetchedPom.

#[export] Instance provenance_eq_dec : EqDecision Provenance.
Proof. solve_decision. Defined.

(** ** Repositories *)

Record Repository := {
  repo_id : option str;
  repo_url : str;
  releases_enabled : bool;
  snapshots_enabled : bool;
  snapshots_update_policy : UpdatePolicy;
  releases_update_policy : UpdatePolicy;
  releases_checksum_policy : ChecksumPolicy;
  snapshots_checksum_policy : ChecksumPolicy;
  provenance : Provenance }.

(** [RepoConfig], and the [<repository>] of a POM as [rv_maven_model] reads it. *)
Record RepoConfig := {
  config_id : option str; config_url : str; config_releases : option bool; config_snapshots : option bool;
  config_snapshots_update : option UpdatePolicy; config_releases_update : option UpdatePolicy;
  config_releases_checksum : option ChecksumPolicy; config_snapshots_checksum : option ChecksumPolicy }.

Record PomRepository := {
  root_declared : bool; pom_id : option str; pom_url : str; pom_releases_enabled : bool; pom_snapshots_enabled : bool;
  pom_releases_update : option str; pom_snapshots_update : option str;
  pom_releases_checksum : option str; pom_snapshots_checksum : option str }.

Definition ends_slash (s : str) : bool := ends_with_char (one_of ["/"]%char) s.

Section Urls.
Context `{UrlCrate}.

(** A trailing slash; a [file:] URL as a fetch spells it. *)
Definition normalize_repo_url (url : str) : str :=
  let trimmed := trim url in
  let plain := if ends_slash trimmed then trimmed else trimmed ++ $"/" in
  match parse_url trimmed with
  | Some file =>
    if bool_decide (scheme file = $"file") then
      as_str (if ends_slash (path file) then file else set_path (path file ++ $"/") file)
    else plain
  | None => plain
  end.

Definition new_repository (id : option str) (url : str) (releases snapshots : bool) : Repository :=
  {| repo_id := id; repo_url := normalize_repo_url url; releases_enabled := releases; snapshots_enabled := snapshots;
     snapshots_update_policy := default_update_policy; releases_update_policy := Daily;
     releases_checksum_policy := default_checksum_policy; snapshots_checksum_policy := default_checksum_policy;
     provenance := Caller |}.

Definition from_config (c : RepoConfig) : Repository :=
  let base := new_repository (config_id c) (config_url c) (default true (config_releases c)) (default false (config_snapshots c)) in
  {| repo_id := repo_id base; repo_url := repo_url base; releases_enabled := releases_enabled base;
     snapshots_enabled := snapshots_enabled base;
     snapshots_update_policy := default default_update_policy (config_snapshots_update c);
     releases_update_policy := default Daily (config_releases_update c);
     releases_checksum_policy := default default_checksum_policy (config_releases_checksum c);
     snapshots_checksum_policy := default default_checksum_policy (config_snapshots_checksum c);
     provenance := Configured |}.

Definition from_maven_repo (r : PomRepository) : Repository :=
  let base := new_repository (pom_id r) (pom_url r) (pom_releases_enabled r) (pom_snapshots_enabled r) in
  let update policy fallback := default fallback (p ← policy; UpdatePolicy.parse p) in
  let checksum policy := default default_checksum_policy (checksum_from_maven <$> policy) in
  {| repo_id := repo_id base; repo_url := repo_url base; releases_enabled := releases_enabled base;
     snapshots_enabled := snapshots_enabled base;
     snapshots_update_policy := update (pom_snapshots_update r) (snapshots_update_policy base);
     releases_update_policy := update (pom_releases_update r) (releases_update_policy base);
     releases_checksum_policy := checksum (pom_releases_checksum r);
     snapshots_checksum_policy := checksum (pom_snapshots_checksum r);
     provenance := if root_declared r then LocalPom else FetchedPom |}.
End Urls.

Definition set_provenance (p : Provenance) (r : Repository) : Repository :=
  {| repo_id := repo_id r; repo_url := repo_url r; releases_enabled := releases_enabled r;
     snapshots_enabled := snapshots_enabled r; snapshots_update_policy := snapshots_update_policy r;
     releases_update_policy := releases_update_policy r; releases_checksum_policy := releases_checksum_policy r;
     snapshots_checksum_policy := snapshots_checksum_policy r; provenance := p |}.

(** The endpoint of a mirror keeps the policies of the repository. *)
Definition at_endpoint (id : option str) (url : str) (r : Repository) : Repository :=
  {| repo_id := id; repo_url := url; releases_enabled := releases_enabled r;
     snapshots_enabled := snapshots_enabled r; snapshots_update_policy := snapshots_update_policy r;
     releases_update_policy := releases_update_policy r; releases_checksum_policy := releases_checksum_policy r;
     snapshots_checksum_policy := snapshots_checksum_policy r; provenance := provenance r |}.

Definition metadata_checksum_policy (r : Repository) (version : str) : ChecksumPolicy :=
  if is_snapshot_version version then snapshots_checksum_policy r else releases_checksum_policy r.

(** ** Merging declarations *)

Definition stricter (keep_unsupported : bool) (mine theirs : ChecksumPolicy) : ChecksumPolicy :=
  let theirs := match theirs with Unsupported => if keep_unsupported then Unsupported else Fail_ | _ => theirs end in
  if (strictness mine <? strictness theirs)%N then theirs else mine.

Definition merge_policies (r other : Repository) (keep_unsupported : bool) : Repository :=
  {| repo_id := repo_id r; repo_url := repo_url r; releases_enabled := releases_enabled r;
     snapshots_enabled := snapshots_enabled r; snapshots_update_policy := snapshots_update_policy r;
     releases_update_policy := releases_update_policy r;
     releases_checksum_policy := stricter keep_unsupported (releases_checksum_policy r) (releases_checksum_policy other);
     snapshots_checksum_policy := stricter keep_unsupported (snapshots_checksum_policy r) (snapshots_checksum_policy other);
     provenance := provenance r |}.

Definition merge_checksum_policies (r other : Repository) : Repository :=
  merge_policies r other (bool_decide (repo_id r = repo_id other)).
Definition merge_fetched_checksum_policies (r other : Repository) : Repository := merge_policies r other false.

Definition has_strict_checksum_policy (r : Repository) : bool :=
  ((0 <? strictness (releases_checksum_policy r)) || (0 <? strictness (snapshots_checksum_policy r)))%N.

(** ** Version listings *)

(** [unsupported_policy]: the kind of versions whose policy refuses. *)
Inductive RepositoryError :=
  | UnsupportedPolicy (repo : option str) (kind : str)
  | InvalidUrl
  | ParentSegment (path : str)
  | OtherHost (path base result : str)
  | EscapesBase (path base_dir : str).

Definition lenient (snapshots releases : ChecksumPolicy) : bool :=
  match snapshots, releases with
  | Ignore, Warn | Ignore, Fail_ | Warn, Fail_ => true
  | _, _ => false
  end.

Definition with_releases (r : Repository) (checksum : ChecksumPolicy) (update : UpdatePolicy) : Repository :=
  {| repo_id := repo_id r; repo_url := repo_url r; releases_enabled := true;
     snapshots_enabled := snapshots_enabled r; snapshots_update_policy := snapshots_update_policy r;
     releases_update_policy := update; releases_checksum_policy := checksum;
     snapshots_checksum_policy := snapshots_checksum_policy r; provenance := provenance r |}.

Definition version_listing (r : Repository) (with_snapshots : bool) : result RepositoryError (option Repository) :=
  let snapshots := with_snapshots && snapshots_enabled r in
  if negb (releases_enabled r) && negb snapshots then Ok None
  else if releases_enabled r && bool_decide (releases_checksum_policy r = Unsupported) then Err (UnsupportedPolicy (repo_id r) $"releases")
  else if snapshots && bool_decide (snapshots_checksum_policy r = Unsupported) then Err (UnsupportedPolicy (repo_id r) $"snapshots")
  else Ok (Some (
    if negb (releases_enabled r) then with_releases r (snapshots_checksum_policy r) (snapshots_update_policy r)
    else if snapshots then
      with_releases r
        (if lenient (snapshots_checksum_policy r) (releases_checksum_policy r) then snapshots_checksum_policy r else releases_checksum_policy r)
        (if (UpdatePolicy.ttl_secs (snapshots_update_policy r) <? UpdatePolicy.ttl_secs (releases_update_policy r))%Z
         then snapshots_update_policy r else releases_update_policy r)
    else r)).

Definition allows_version (r : Repository) (version : str) : bool :=
  if is_snapshot_version version then snapshots_enabled r else releases_enabled r.
Definition allows_listed_version `{Unicode} (r : Repository) (version : str) : bool :=
  if is_listed_snapshot_version version then snapshots_enabled r else releases_enabled r.

Definition update_policy_for (r : Repository) (version : str) : UpdatePolicy :=
  if is_snapshot_version version then snapshots_update_policy r else releases_update_policy r.

(** [until_next_midnight] with the seconds to the next local midnight, when the calendar has
    one; [fresh_secs]. *)
Definition until_next_midnight (seconds : option Z) : Z :=
  match seconds with Some s => Z.max s 1 | None => UpdatePolicy.ttl_secs Daily end.

Definition fresh_secs (p : UpdatePolicy) (seconds : option Z) : Z :=
  match p with Daily => until_next_midnight seconds | p => UpdatePolicy.ttl_secs p end.

(** ** The URL of a path *)

(** [str::replace] of three bytes by one. *)
Fixpoint replace3 (a b c : ascii) (by_ : str) (s : str) : str :=
  match s with
  | x :: ((y :: z :: r) as tail_) =>
    if decide ((x, y, z) = (a, b, c)) then by_ ++ replace3 a b c by_ r else x :: replace3 a b c by_ tail_
  | _ => s
  end.

Definition decode_dots (seg : str) : str := replace3 "%" "2" "E" $"." (replace3 "%" "2" "e" $"." seg).

Section Paths.
Context `{UrlCrate}.

Definition base_url (r : Repository) : option Url := parse_url (repo_url r).

Definition is_local (r : Repository) : bool := is_some_and (fun u => bool_decide (scheme u = $"file")) (base_url r).

Definition base_directory (base : Url) : str :=
  match rfind_char (one_of ["/"]%char) (path base) with Some i => take (S i) (path base) | None => $"/" end.

Definition url_for_path (r : Repository) (path_ : str) : result RepositoryError Url :=
  base ← ok_or (base_url r) InvalidUrl;
  let trimmed := trim_start_matches (one_of ["/"]%char) path_ in
  if existsb (fun seg => bool_decide (decode_dots seg = $"..")) (split "/" trimmed) then Err (ParentSegment path_)
  else
    joined ← ok_or (url_join base trimmed) InvalidUrl;
    if negb (bool_decide (scheme joined = scheme base)) || negb (bool_decide (host joined = host base)) || negb (bool_decide (port joined = port base))
    then Err (OtherHost path_ (ascii_serialization (origin base)) (ascii_serialization (origin joined)))
    else if negb (starts_with (base_directory base) (path joined)) then Err (EscapesBase path_ (base_directory base))
    else Ok joined.
End Paths.

(** * What the policies of a repository decide

    The policies a version listing reads under, the merge of checksum policies, and the text
    of an update policy. *)

(** The kinds of versions a listing reads, each with its policies. *)
Definition kinds_read (r : Repository) (with_snapshots : bool) : list (ChecksumPolicy * UpdatePolicy) :=
  (if releases_enabled r then [(releases_checksum_policy r, releases_update_policy r)] else []) ++
  (if with_snapshots && snapshots_enabled r then [(snapshots_checksum_policy r, snapshots_update_policy r)] else []).

(** From the policy Maven prefers to the one it takes last. *)
Definition leniency (p : ChecksumPolicy) : N := match p with Ignore => 0 | Warn => 1 | Fail_ => 2 | Unsupported => 3 end.

(** A listing is read when some kind is, and refused when the policy of one of them is not
    supported; it is read under the most lenient checksum policy and the shortest update
    interval among them, and leaves the rest of the repository alone. *)
Theorem version_listing_spec (r : Repository) (with_snapshots : bool) :
  match version_listing r with_snapshots with
  | Ok None => kinds_read r with_snapshots = []
  | Err e => exists k, k ∈ kinds_read r with_snapshots /\ k.1 = Unsupported
  | Ok (Some l) =>
    releases_enabled l = true /\ repo_id l = repo_id r /\ repo_url l = repo_url r /\ provenance l = provenance r /\
    (forall k, k ∈ kinds_read r with_snapshots -> k.1 <> Unsupported /\
      (leniency (releases_checksum_policy l) <= leniency k.1)%N /\
      (UpdatePolicy.ttl_secs (releases_update_policy l) <= UpdatePolicy.ttl_secs k.2)%Z) /\
    (exists k, k ∈ kinds_read r with_snapshots /\ k.1 = releases_checksum_policy l) /\
    (exists k, k ∈ kinds_read r with_snapshots /\ k.2 = releases_update_policy l)
  end.
Proof.
  unfold version_listing, kinds_read. destruct r as [id url rel snap su ru rc sc prov]. cbn.
  destruct (with_snapshots && snap), rel; cbn; try done.
  - case_bool_decide as E1; [eexists; split; [by left|done]|]. case_bool_decide as E2; [eexists; split; [right; by left|done]|].
    cbn. split_and!; try done.
    + intros k Hk. rewrite !elem_of_cons, elem_of_nil in Hk. destruct Hk as [->|[->|[]]]; cbn [fst snd]; (split; [done|split]).
      * destruct sc, rc; cbn; lia || done.
      * destruct (Z.ltb_spec (UpdatePolicy.ttl_secs su) (UpdatePolicy.ttl_secs ru)); lia.
      * destruct sc, rc; cbn; lia || done.
      * destruct (Z.ltb_spec (UpdatePolicy.ttl_secs su) (UpdatePolicy.ttl_secs ru)); lia.
    + destruct (lenient sc rc); [exists (sc, su)|exists (rc, ru)]; (split; [|done]); [right; by left|by left].
    + destruct (_ <? _)%Z; [exists (sc, su)|exists (rc, ru)]; (split; [|done]); [right; by left|by left].
  - case_bool_decide as E2; [eexists; split; [by left|done]|]. cbn. split_and!; try done.
    + intros k ->%list_elem_of_singleton. cbn. split; [done|lia].
    + eexists. split; [by left|done].
    + eexists. split; [by left|done].
  - case_bool_decide as E2; [eexists; split; [by left|done]|]. cbn. split_and!; try done.
    + intros k ->%list_elem_of_singleton. cbn. split; [done|lia].
    + eexists. split; [by left|done].
    + eexists. split; [by left|done].
Qed.

(** Merging a declaration never loosens the policies, and takes over each one that refuses
    more, an unsupported policy of another declaration as a refusal of what mismatches. *)
Lemma merge_policies_strictness r other keep :
  (strictness (releases_checksum_policy (merge_policies r other keep)) =
     N.max (strictness (releases_checksum_policy r))
       (if keep then strictness (releases_checksum_policy other) else N.min 1 (strictness (releases_checksum_policy other))) /\
   strictness (snapshots_checksum_policy (merge_policies r other keep)) =
     N.max (strictness (snapshots_checksum_policy r))
       (if keep then strictness (snapshots_checksum_policy other) else N.min 1 (strictness (snapshots_checksum_policy other))))%N.
Proof.
  unfold merge_policies. cbn. destruct (releases_checksum_policy r), (releases_checksum_policy other),
    (snapshots_checksum_policy r), (snapshots_checksum_policy other), keep; vm_compute; done.
Qed.
