(* ===== verification/Routing.v ===== *)
(** * Mirrors, credentials and routes ([rv-repo/src/mirror.rs], [rv-repo/src/auth.rs],
      [rv-repo/src/routing.rs])

    Which mirror serves a repository, which credential its endpoint gets, and the route that
    holds both.  What the sources log on the way is left out. *)

From Stdlib Require Import Ascii String Lia.
From stdpp Require Import base numbers list strings gmap sets.
From S2P Require Import Prelude Str PathUtils Addr Url Redact Proxy Security Repository.

#[local] Set Warnings "-clear-no-such-hyp".

(** ** Configuration *)

Record MirrorConfig := {
  mirror_id : option str; mirror_url : str; mirror_of : list str; mirror_of_layouts : option str; blocked : bool }.

#[export] Instance mirror_config_eq_dec : EqDecision MirrorConfig.
Proof. solve_decision. Defined.

Record AuthConfig := { auth_id : option str; auth_username : option str; auth_password : option str; auth_token : option str }.

Record AuthLayers := { project_auth : list AuthConfig; user_auth : list AuthConfig; settings_auth : list AuthConfig }.

(** What the repository client reads of a configuration. *)
Record Config := {
  repositories : list RepoConfig;
  mirrors : list MirrorConfig;
  user_endpoint_urls : list str;
  auth_layers : AuthLayers;
  security : SecurityConfig;
  secret_named_inputs : list (str * str) }.

(** ** Mirrors *)

Definition not_empty (s : str) : bool := negb (bool_decide (s = [])).

Section Mirrors.
Context `{UrlCrate}.

Definition is_local_host (url : Url) : bool :=
  bool_decide (host_str url = Some $"localhost" \/ host_str url = Some $"127.0.0.1").

Definition is_external_repo (url : str) : bool :=
  match parse_url url with Some u => negb (is_local_host u || bool_decide (scheme u = $"file")) | None => true end.

Definition is_external_http_repo (url : str) : bool :=
  match parse_url url with Some u => bool_decide (scheme u = $"http") && negb (is_local_host u) | None => true end.

(** The loop of [match_pattern]. *)
Fixpoint match_entries (repo : Repository) (matched : bool) (entries : list str) : bool :=
  match entries with
  | [] => matched
  | entry :: entries =>
    match opt_filter not_empty (strip_prefix $"!" entry) with
    | Some excluded => if bool_decide (repo_id repo = Some excluded) then false else match_entries repo matched entries
    | None =>
      if bool_decide (repo_id repo = Some entry) then true
      else if (bool_decide (entry = $"external:*") && is_external_repo (repo_url repo))
              || (bool_decide (entry = $"external:http:*") && is_external_http_repo (repo_url repo))
              || bool_decide (entry = $"*")
      then match_entries repo true entries
      else match_entries repo matched entries
    end
  end.

Definition match_pattern (repo : Repository) (pattern : str) : bool :=
  if bool_decide (pattern = $"*") || bool_decide (repo_id repo = Some pattern) then true
  else match_entries repo false (split "," (trim_end_matches (one_of [","]%char) pattern)).

Definition LAYOUT : str := $"default".

Fixpoint layout_entries (matched : bool) (entries : list str) : bool :=
  match entries with
  | [] => matched
  | entry :: entries =>
    match opt_filter not_empty (strip_prefix $"!" entry) with
    | Some excluded => if bool_decide (excluded = LAYOUT) then false else layout_entries matched entries
    | None =>
      if bool_decide (entry = LAYOUT) then true
      else layout_entries (matched || bool_decide (entry = $"*")) entries
    end
  end.

Definition serves_layout (m : MirrorConfig) : bool :=
  let layouts := default $"default,legacy" (mirror_of_layouts m) in
  if bool_decide (layouts = []) || bool_decide (layouts = $"*") || bool_decide (layouts = LAYOUT) then true
  else layout_entries false (split "," (trim_end_matches (one_of [","]%char) layouts)).

Definition pattern_of (m : MirrorConfig) : str := join $"," (mirror_of m).

Definition matching_mirror (mirrors : list MirrorConfig) (repo : Repository) : option MirrorConfig :=
  match find (fun m => bool_decide (repo_id repo = Some (pattern_of m)) && serves_layout m) mirrors with
  | Some m => Some m
  | None => find (fun m => match_pattern repo (pattern_of m) && serves_layout m) mirrors
  end.

(** The origin [origins_differ] compares. *)
Definition origin_parts (url : str) : option (str * str * N) :=
  parsed ← parse_url url;
  h ← host_str parsed;
  p ← port_or_known_default parsed;
  Some (scheme parsed, to_ascii_lowercase h, p).

Definition origins_differ (original resolved : str) : bool :=
  match origin_parts original, origin_parts resolved with
  | Some a, Some b => negb (bool_decide (a = b))
  | _, _ => true
  end.

(** [resolve_mirror_impl]: the endpoint, the mirror, and whether the origin changed. *)
Definition resolve_mirror (mirrors : list MirrorConfig) (repo : Repository) : Repository * option MirrorConfig * bool :=
  match matching_mirror mirrors repo with
  | None => (repo, None, false)
  | Some m =>
    let host_changed := origins_differ (repo_url repo) (mirror_url m) in
    let id := match mirror_id m with None => if host_changed then None else repo_id repo | id => id end in
    (at_endpoint id (normalize_repo_url (mirror_url m)) repo, Some m, host_changed)
  end.

(** ** Credentials *)

Inductive CredentialFile := Project | User | Settings.

#[export] Instance credential_file_eq_dec : EqDecision CredentialFile.
Proof. solve_decision. Defined.

Inductive Scheme := BasicScheme (username password : str) | BearerScheme (token : str).

Record SentCredential := { sent_id : option str; sent_file : CredentialFile; unset_variables : list str }.
Record Auth := { auth_scheme : Scheme; sent : SentCredential }.

(** [incomplete_auth_error]: the entry and what it lacks. *)
Inductive AuthError :=
  | EmptyToken (id : option str) (file : CredentialFile)
  | IncompleteBasic (id : option str) (file : CredentialFile)
  | BlockedMirror (name : str).

Definition by_file (l : AuthLayers) : list (CredentialFile * list AuthConfig) :=
  [(Project, project_auth l); (User, user_auth l); (Settings, settings_auth l)].

Definition has_default (l : AuthLayers) : bool :=
  existsb (fun fc => existsb (fun e => bool_decide (auth_id e = None)) fc.2) (by_file l).

Definition complete_scheme (c : AuthConfig) (file : CredentialFile) : result AuthError Scheme :=
  match auth_token c with
  | Some token => if bool_decide (token = []) then Err (EmptyToken (auth_id c) file) else Ok (BearerScheme token)
  | None =>
    match auth_username c, auth_password c with
    | Some u, Some p =>
      if not_empty u && not_empty p then Ok (BasicScheme u p) else Err (IncompleteBasic (auth_id c) file)
    | _, _ => Err (IncompleteBasic (auth_id c) file)
    end
  end.

(** [unset_env_references]: the names of the references whose variable is not set. *)
Fixpoint env_references (fuel : nat) (s : str) : list str :=
  match fuel with
  | O => []
  | S fuel =>
    match find_str $"${env." s with
    | Some start =>
      let after := drop (start + 6) s in
      match find_char (one_of ["}"]%char) after with
      | Some stop => take stop after :: env_references fuel (drop (S stop) after)
      | None => []
      end
    | None => []
    end
  end.

Definition push_new (names : list str) (name : str) : list str := if bool_decide (name ∈ names) then names else names ++ [name].

Definition unset_env_references (env : str -> option str) (s : str) : list str :=
  foldl push_new [] (List.filter (fun name => bool_decide (env name = None)) (env_references (length s) s)).

Definition secret_texts (s : Scheme) : list str :=
  match s with BasicScheme u p => [u; p] | BearerScheme t => [t] end.

Definition build_complete_auth (env : str -> option str) (c : AuthConfig) (file : CredentialFile) : result AuthError Auth :=
  s ← complete_scheme c file;
  let unset := if bool_decide (file = Settings) then foldl push_new [] (concat (map (unset_env_references env) (secret_texts s))) else [] in
  Ok {| auth_scheme := s; sent := {| sent_id := auth_id c; sent_file := file; unset_variables := unset |} |}.

Definition http_origin_text (url : str) : option str :=
  u ← parse_url (trim url);
  if http_scheme (scheme u) then Some (ascii_serialization (origin u)) else None.

(** [NamedOrigins]: the origins, and how often they grew. *)
Record NamedOrigins := { named : gset str; generation : N }.

Definition no_names : NamedOrigins := {| named := ∅; generation := 0 |}.

Definition add_name (n : NamedOrigins) (url : str) : NamedOrigins :=
  match http_origin_text url with
  | Some o =>
    if bool_decide (o ∈ named n) then n
    else {| named := {[ o ]} ∪ named n; generation := (generation n + 1) mod 2 ^ 64 |}
  | None => n
  end.

Record AuthStore := { layers : AuthLayers; named_origins : option NamedOrigins; user_origins : option (gset str) }.

(** [AuthStore::from_config]. *)
Definition store_from_config (c : Config) : AuthStore :=
  let configured := map config_url (repositories c) ++ map mirror_url (mirrors c) ++ user_endpoint_urls c in
  {| layers := auth_layers c;
     named_origins := Some (foldl add_name no_names (configured ++ transitive_repository_allowlist (security c)));
     user_origins := Some (list_to_set (omap http_origin_text (user_endpoint_urls c))) |}.

Definition withholds_id_credential (s : AuthStore) (repo : Repository) : bool :=
  if negb (bool_decide (provenance repo = FetchedPom)) then false
  else
    match named_origins s with
    | None => false
    | Some n => negb (is_some_and (fun o => bool_decide (o ∈ named n)) (http_origin_text (repo_url repo)))
    end.

Definition withholds_default_credential (s : AuthStore) (repo : Repository) : bool :=
  match user_origins s with
  | None => false
  | Some origins => negb (is_some_and (fun o => bool_decide (o ∈ origins)) (http_origin_text (repo_url repo)))
  end.

Definition says_nothing (c : AuthConfig) : bool :=
  bool_decide (auth_token c = None) && bool_decide (auth_username c = None) && bool_decide (auth_password c = None).

(** The entry of an id: [None] when no layer has one that says anything. *)
Fixpoint lookup_id (env : str -> option str) (s : AuthStore) (repo : Repository) (id : str) (files : list (CredentialFile * list AuthConfig))
    : option (result AuthError (option Auth)) :=
  match files with
  | [] => None
  | (file, configs) :: files =>
    match find (fun e => bool_decide (auth_id e = Some id)) configs with
    | Some c =>
      if says_nothing c then lookup_id env s repo id files
      else Some (if withholds_id_credential s repo then Ok None else Some <$> build_complete_auth env c file)
    | None => lookup_id env s repo id files
    end
  end.

Fixpoint lookup_default (env : str -> option str) (files : list (CredentialFile * list AuthConfig)) : result AuthError (option Auth) :=
  match files with
  | [] => Ok None
  | (file, configs) :: files =>
    match find (fun e => bool_decide (auth_id e = None)) configs with
    | Some c => Some <$> build_complete_auth env c file
    | None => lookup_default env files
    end
  end.

Definition lookup_auth (env : str -> option str) (s : AuthStore) (repo : Repository) (host_changed : bool) : result AuthError (option Auth) :=
  match id ← repo_id repo; lookup_id env s repo id (by_file (layers s)) with
  | Some found => found
  | None =>
    if host_changed then Ok None
    else if withholds_default_credential s repo then Ok None
    else lookup_default env (by_file (layers s))
  end.

(** ** Routes *)

Definition unit_separator : str := [ascii_of_N 31].

Definition cache_scope_key (origin_url : str) (endpoint : Repository) : str :=
  origin_url ++ unit_separator ++ repo_url endpoint ++ unit_separator ++ $"id=" ++ default [] (repo_id endpoint).

(** [ForeignMirrors::from_config] and [contains]. *)
Definition foreign_mirrors (c : Config) : gset str :=
  list_to_set (map (fun m => normalize_repo_url (mirror_url m))
    (List.filter (fun m => forallb (fun r => origins_differ (config_url r) (mirror_url m)) (repositories c)) (mirrors c))).

Definition is_foreign (foreign : gset str) (url : str) : bool := bool_decide (normalize_repo_url url ∈ foreign).

Record Route := { route_origin : str; endpoint : Repository; route_mirror : option MirrorConfig; cross_origin : bool; scope : str }.

Record Router := { router_mirrors : list MirrorConfig; router_foreign : gset str }.

Definition router_from_config (c : Config) : Router := {| router_mirrors := mirrors c; router_foreign := foreign_mirrors c |}.

Definition route (r : Router) (repo : Repository) : Route :=
  let '(e, m, host_changed) := resolve_mirror (router_mirrors r) repo in
  {| route_origin := repo_url repo; endpoint := e; route_mirror := m;
     cross_origin := host_changed || is_foreign (router_foreign r) (repo_url e); scope := cache_scope_key (repo_url repo) e |}.

Definition mirrored_repository (c : Config) (repo : Repository) : Repository := (resolve_mirror (mirrors c) repo).1.1.

Definition store_generation (s : AuthStore) : N := match named_origins s with Some n => generation n | None => 0 end.

(** [Route::auth], with the credential the route keeps and the generation it was picked
    under. *)
Definition route_auth (env : str -> option str) (masks : list (str * str)) (s : AuthStore) (r : Route) (kept : option (option Auth * N))
    : result AuthError (option Auth * option (option Auth * N)) :=
  match opt_filter blocked (route_mirror r) with
  | Some m => Err (BlockedMirror (default (redact_url masks (mirror_url m)) (mirror_id m)))
  | None =>
    match kept with
    | Some (auth, g) => Ok (auth, kept)
    | None =>
      auth ← lookup_auth env s (endpoint r) (cross_origin r);
      Ok (auth, Some (auth, store_generation s))
    end
  end.
End Mirrors.

(** * Where credentials go

    The entries of a mirror's pattern, the key of the caches, the URL of a path, and the
    destination of every credential a route sends. *)

(** ** URLs of repositories *)

Section Urls.
Context `{UrlLaws}.

(** A path of a repository is requested from the origin of the repository, below the
    directory its URL names. *)
Theorem path_stays_below (r : Repository) (path_ : str) (u : Url) (Hu : url_for_path r path_ = Ok u) :
  exists base, base_url r = Some base /\
    (http_scheme (scheme base) = true -> origins_eq (origin base) (origin u) = true) /\
    scheme u = scheme base /\ host u = host base /\ exists below, path u = base_directory base ++ below.
Proof.
  revert Hu. unfold url_for_path. destruct (base_url r) as [base|]; [|done]. cbn [ok_or mbind result_bind].
  destruct (existsb _ _); [done|]. destruct (url_join base _) as [j|]; [|done]. cbn [ok_or mbind result_bind].
  do 3 (case_bool_decide; [|done]). cbn [negb orb].
  destruct (starts_with (base_directory base) (path j)) eqn:Es; [|done]. cbn [negb]. intros [= <-].
  exists base. split_and!; try done; [|by apply starts_with_app]. intros Hh.
  destruct (http_origin base Hh) as (h & p & E1 & E2 & E3).
  assert (http_scheme (scheme j) = true) as Hj by congruence. destruct (http_origin j Hj) as (h' & p' & F1 & F2 & F3).
  rewrite E3, F3. cbn. apply bool_decide_eq_true. rewrite (known_port j base) in F2 by done. congruence.
Qed.

(** The segments of a path that would climb are refused, in each spelling of the dots. *)
Lemma parent_segment_refused r path_ seg :
  seg ∈ split "/" (trim_start_matches (one_of ["/"]%char) path_) ->
  seg ∈ [$".."; $"%2e%2e"; $"%2E%2E"; $"%2e%2E"; $"%2E%2e"; $".%2e"; $".%2E"; $"%2e."; $"%2E."] ->
  is_ok (url_for_path r path_) = false.
Proof.
  intros Hs Hseg. unfold url_for_path. destruct (base_url r) as [base|]; [|done]. cbn [ok_or mbind result_bind].
  assert (existsb (fun seg => bool_decide (decode_dots seg = $"..")) (split "/" (trim_start_matches (one_of ["/"]%char) path_)) = true) as ->; [|done].
  apply existsb_exists. exists seg. split; [by apply list_elem_of_In|]. apply bool_decide_eq_true.
  rewrite !elem_of_cons, elem_of_nil in Hseg. repeat destruct Hseg as [->|Hseg]; try done; vm_compute; done.
Qed.

(** ** Mirrors *)

(** Whether an entry of a pattern names a repository, by its id or by excluding it. *)
Definition excluded_id (entry : str) : option str := opt_filter not_empty (strip_prefix $"!" entry).
Definition names_repo (repo : Repository) (entry : str) : bool :=
  bool_decide (repo_id repo = Some (default entry (excluded_id entry))).
Definition wildcard (repo : Repository) (entry : str) : bool :=
  (bool_decide (entry = $"external:*") && is_external_repo (repo_url repo))
  || (bool_decide (entry = $"external:http:*") && is_external_http_repo (repo_url repo))
  || bool_decide (entry = $"*").

(** The first entry that names the repository decides; without one, a wildcard does. *)
Lemma match_entries_spec repo matched entries :
  match_entries repo matched entries =
  match find (names_repo repo) entries with
  | Some entry => bool_decide (excluded_id entry = None)
  | None => matched || existsb (wildcard repo) entries
  end.
Proof.
  revert matched. induction entries as [|e l IH]; intros matched; cbn [match_entries find existsb]; [by rewrite orb_false_r|].
  unfold names_repo at 1. fold (excluded_id e). destruct (excluded_id e) as [x|] eqn:Ee; cbn [default].
  - unfold id. destruct (bool_decide (repo_id repo = Some x)); [by rewrite Ee|]. rewrite IH. destruct (find _ l); [done|].
    assert (wildcard repo e = false) as ->; [|done].
    unfold excluded_id in Ee. destruct (strip_prefix $"!" e) as [r|] eqn:Es; [|done]. apply strip_prefix_Some in Es as ->. done.
  - destruct (bool_decide (repo_id repo = Some e)); [by rewrite Ee|]. fold (wildcard repo e).
    destruct (wildcard repo e); cbn; rewrite IH; destruct (find _ l); try done. by rewrite orb_true_r.
Qed.

Lemma matching_mirror_elem ms repo m : matching_mirror ms repo = Some m -> m ∈ ms.
Proof.
  unfold matching_mirror. rewrite list_elem_of_In. destruct (find _ ms) as [x|] eqn:E.
  - intros [= ->]. by apply find_some in E as [? _].
  - intros Hm. by apply find_some in Hm as [? _].
Qed.

(** ** Credentials *)

Lemma build_auth_Ok env c file a :
  build_complete_auth env c file = Ok a -> complete_scheme c file = Ok (auth_scheme a) /\ sent_id (sent a) = auth_id c /\ sent_file (sent a) = file.
Proof. unfold build_complete_auth. destruct (complete_scheme c file); [|done]. cbn. by intros [= <-]. Qed.

(** An entry of the layers a credential was built from. *)
Definition built_from (l : AuthLayers) (id : option str) (a : Auth) : Prop :=
  exists configs c, (sent_file (sent a), configs) ∈ by_file l /\ c ∈ configs /\ auth_id c = id /\
    complete_scheme c (sent_file (sent a)) = Ok (auth_scheme a) /\ sent_id (sent a) = id.

Lemma find_entry (configs : list AuthConfig) p c : find p configs = Some c -> c ∈ configs /\ p c = true.
Proof. intros [? ?]%find_some. split; [by apply list_elem_of_In|done]. Qed.

Lemma lookup_id_Some env s repo id files a :
  lookup_id env s repo id files = Some (Ok (Some a)) ->
  withholds_id_credential s repo = false /\
  exists configs c, (sent_file (sent a), configs) ∈ files /\ c ∈ configs /\ auth_id c = Some id /\
    complete_scheme c (sent_file (sent a)) = Ok (auth_scheme a) /\ sent_id (sent a) = Some id.
Proof.
  induction files as [|[file configs] files IH]; cbn [lookup_id]; [done|].
  assert (lookup_id env s repo id files = Some (Ok (Some a)) -> withholds_id_credential s repo = false /\
    exists configs0 c, (sent_file (sent a), configs0) ∈ (file, configs) :: files /\ c ∈ configs0 /\ auth_id c = Some id /\
    complete_scheme c (sent_file (sent a)) = Ok (auth_scheme a) /\ sent_id (sent a) = Some id) as Hrest.
  { intros (Hw & configs' & c & Hin & Hrest)%IH. split; [done|]. exists configs', c. split; [by right|done]. }
  destruct (find _ configs) as [c|] eqn:Ef; [|done]. destruct (says_nothing c); [done|].
  destruct (withholds_id_credential s repo); [done|]. intros [= Hb]. split; [done|].
  destruct (build_complete_auth env c file) as [a'|] eqn:Eb; [|done]. injection Hb as ->.
  apply build_auth_Ok in Eb as (E1 & E2 & E3). apply find_entry in Ef as [Hin Hid]. apply bool_decide_eq_true in Hid.
  exists configs, c. rewrite E3. split_and!; try done; [by left|congruence].
Qed.

Lemma lookup_default_Some env files a :
  lookup_default env files = Ok (Some a) ->
  exists configs c, (sent_file (sent a), configs) ∈ files /\ c ∈ configs /\ auth_id c = None /\
    complete_scheme c (sent_file (sent a)) = Ok (auth_scheme a) /\ sent_id (sent a) = None.
Proof.
  induction files as [|[file configs] files IH]; cbn [lookup_default]; [done|].
  destruct (find _ configs) as [c|] eqn:Ef.
  - destruct (build_complete_auth env c file) as [a'|] eqn:Eb; [|done]. intros [= ->].
    apply build_auth_Ok in Eb as (E1 & E2 & E3). apply find_entry in Ef as [Hin Hid]. apply bool_decide_eq_true in Hid.
    exists configs, c. rewrite E3. split_and!; try done; [by left|congruence].
  - intros (configs' & c & Hin & Hrest)%IH. exists configs', c. split; [by right|done].
Qed.

Lemma lookup_auth_Some env s repo changed a :
  lookup_auth env s repo changed = Ok (Some a) ->
  (exists id, repo_id repo = Some id /\ built_from (layers s) (Some id) a /\ withholds_id_credential s repo = false) \/
  (built_from (layers s) None a /\ changed = false /\ withholds_default_credential s repo = false).
Proof.
  unfold lookup_auth. destruct (repo_id repo) as [id|]; cbn [mbind option_bind].
  - destruct (lookup_id env s repo id _) as [found|] eqn:El.
    + intros ->. left. exists id. apply lookup_id_Some in El as (Hw & Hb). done.
    + destruct changed; [done|]. destruct (withholds_default_credential s repo); [done|].
      intros Hd%lookup_default_Some. right. done.
  - destruct changed; [done|]. destruct (withholds_default_credential s repo); [done|].
    intros Hd%lookup_default_Some. right. done.
Qed.

(** How the endpoint of a route got its id: from its own mirror, or from the repository,
    unless a mirror moved it to another origin. *)
Definition id_from (r : Route) (repo : Repository) (id : str) : Prop :=
  match route_mirror r with
  | None => repo_id repo = Some id
  | Some m => mirror_id m = Some id \/
      mirror_id m = None /\ repo_id repo = Some id /\ origins_differ (repo_url repo) (mirror_url m) = false
  end.

Lemma route_shape router repo :
  let r := route router repo in
  provenance (endpoint r) = provenance repo /\
  (forall id, repo_id (endpoint r) = Some id -> id_from r repo id) /\
  (cross_origin r = false -> match route_mirror r with None => endpoint r = repo | Some m => origins_differ (repo_url repo) (mirror_url m) = false end).
Proof.
  unfold route, resolve_mirror, id_from. cbv zeta. destruct (matching_mirror (router_mirrors router) repo) as [m|] eqn:Em; [|done]. cbn.
  split_and!; [done| |by intros [? _]%orb_false_iff].
  intros id. destruct (mirror_id m) as [i|]; [naive_solver|]. destruct (origins_differ _ _); [done|]. naive_solver.
Qed.

Lemma trimmed_origin url u : trim url = url -> parse_url url = Some u -> http_origin_text url = if http_scheme (scheme u) then Some (ascii_serialization (origin u)) else None.
Proof. intros Ht Hp. unfold http_origin_text. rewrite Ht, Hp. done. Qed.

(** The state of a store while a run names more origins. *)
Definition store_with (c : Config) (n : NamedOrigins) : AuthStore :=
  {| layers := auth_layers c; named_origins := Some n; user_origins := user_origins (store_from_config c) |}.

(** C5: A credential goes with a request only as the configuration pairs it.  An entry with an
    id goes to an endpoint of that id, which a mirror took over from a repository only on
    the same origin, and for a repository of a fetched POM only to a named origin; an entry
    without one goes only to an origin that the user's own files name, and never through a
    mirror to another origin.  No credential goes to a blocked mirror. *)
Theorem credential_destination (env : str -> option str) (masks : list (str * str)) (c : Config) (n : NamedOrigins) (repo : Repository)
    (path_ : str) (u : Url) (a : Auth) (kept : option (option Auth * N))
    (Hauth : route_auth env masks (store_with c n) (route (router_from_config c) repo) None = Ok (Some a, kept))
    (Hurl : url_for_path (endpoint (route (router_from_config c) repo)) path_ = Ok u)
    (Htrim : trim (repo_url (endpoint (route (router_from_config c) repo))) = repo_url (endpoint (route (router_from_config c) repo))) :
  let r := route (router_from_config c) repo in
  match sent_id (sent a) with
  | Some id =>
    built_from (auth_layers c) (Some id) a /\ id_from r repo id /\
    (provenance repo = FetchedPom -> ascii_serialization (origin u) ∈ named n)
  | None =>
    built_from (auth_layers c) None a /\
    (exists url, url ∈ user_endpoint_urls c /\ http_origin_text url = Some (ascii_serialization (origin u))) /\
    (forall m, route_mirror r = Some m -> origins_differ (repo_url repo) (mirror_url m) = false)
  end /\ (forall m, route_mirror r = Some m -> blocked m = false).
Proof.
  cbv zeta. set (r := route (router_from_config c) repo) in *.
  destruct (path_stays_below (endpoint r) path_ u Hurl) as (base & Eb & Horigin & Es & _).
  destruct (route_shape (router_from_config c) repo) as (Eprov & Hid & Hcross). fold r in Eprov, Hid, Hcross.
  assert (forall (o : str), http_origin_text (repo_url (endpoint r)) = Some o -> o = ascii_serialization (origin u)) as Htext.
  { intros o. rewrite (trimmed_origin _ base Htrim Eb). destruct (http_scheme (scheme base)) eqn:Eh; [|done]. intros [= <-].
    specialize (Horigin eq_refl). apply origins_eq_Some in Horigin as (t & -> & ->). done. }
  unfold route_auth in Hauth. destruct (opt_filter blocked (route_mirror r)) as [m|] eqn:Eblock; [done|].
  assert (forall m, route_mirror r = Some m -> blocked m = false) as Hb.
  { intros m Em. rewrite Em in Eblock. cbn in Eblock. by destruct (blocked m). }
  destruct (lookup_auth env (store_with c n) (endpoint r) (cross_origin r)) as [[a'|]|] eqn:El; cbn in Hauth; try done. injection Hauth as -> _.
  split; [|done]. apply lookup_auth_Some in El as [(id & Ei & Hfrom & Hw)|(Hfrom & Hc & Hw)]; cbn [layers store_with] in Hfrom.
  - assert (sent_id (sent a) = Some id) as -> by (by destruct Hfrom as (? & ? & _ & _ & _ & _ & ?)).
    split_and!; [done|by apply Hid|]. intros Hp. unfold withholds_id_credential in Hw. rewrite Eprov, bool_decide_true in Hw by done.
    cbn in Hw. destruct (http_origin_text (repo_url (endpoint r))) as [o|] eqn:Eo; cbn in Hw; [|done].
    rewrite negb_false_iff, bool_decide_eq_true in Hw. by rewrite <-(Htext o eq_refl).
  - assert (sent_id (sent a) = None) as -> by (by destruct Hfrom as (? & ? & _ & _ & _ & _ & ?)).
    split_and!; [done| |].
    + unfold withholds_default_credential in Hw. cbn in Hw.
      destruct (http_origin_text (repo_url (endpoint r))) as [o|] eqn:Eo; cbn in Hw; [|done].
      rewrite negb_false_iff, bool_decide_eq_true, elem_of_list_to_set, list_elem_of_omap in Hw. destruct Hw as (url & Hin & Eu).
      exists url. rewrite <-(Htext o eq_refl). done.
    + intros m Em. specialize (Hcross Hc). by rewrite Em in Hcross.
Qed.

(** ** The caches *)

(** The key of a cached answer tells the repository asked for, the endpoint that answered
    and the id its credential was picked by. *)
Theorem cache_scope_key_tells (o o' : str) (e e' : Repository)
    (Ho : ascii_of_N 31 ∉ o) (Ho' : ascii_of_N 31 ∉ o') (He : ascii_of_N 31 ∉ repo_url e) (He' : ascii_of_N 31 ∉ repo_url e')
    (Hkey : cache_scope_key o e = cache_scope_key o' e') :
  o = o' /\ repo_url e = repo_url e' /\ default [] (repo_id e) = default [] (repo_id e').
Proof.
  assert (forall a b a' b' : str, ascii_of_N 31 ∉ a -> ascii_of_N 31 ∉ a' -> a ++ ascii_of_N 31 :: b = a' ++ ascii_of_N 31 :: b' -> a = a' /\ b = b') as Hcut.
  { intros a b a' b' Ha Ha' E. pose proof (proj2 (split_once_Some (ascii_of_N 31) _ a b) (conj eq_refl Ha)) as E1.
    pose proof (proj2 (split_once_Some (ascii_of_N 31) _ a' b') (conj eq_refl Ha')) as E2. rewrite E in E1. split; congruence. }
  unfold cache_scope_key, unit_separator in Hkey. cbn [app] in Hkey.
  apply Hcut in Hkey as [-> Hkey]; [|done|done]. apply Hcut in Hkey as [-> Hkey]; [|done|done].
  split_and!; [done|done|]. by apply app_inv_head in Hkey.
Qed.

(** The generation of a store changes with the origins it names. *)
Lemma add_name_generation n url :
  (generation n < 2 ^ 64)%N -> named (add_name n url) = named n \/ generation (add_name n url) <> generation n.
Proof.
  intros Hg. unfold add_name. destruct (http_origin_text url) as [o|]; [|by left]. case_bool_decide; [by left|]. right. cbn.
  destruct (N.eq_dec (generation n + 1)%N (2 ^ 64)%N) as [E|E]; [|rewrite N.mod_small by lia; lia].
  rewrite E, N.Div0.mod_same. lia.
Qed.
End Urls.
