(* ===== verification/Policy.v ===== *)
(** * Which repositories a resolution uses ([rv-repo/src/policy.rs])

    The screen of the repositories a POM declares, and what each may do by where it was
    declared: connect to private addresses, issue a redirect, name an origin. *)

From Stdlib Require Import Ascii String Lia.
From stdpp Require Import base numbers list strings gmap sets.
From S2P Require Import Prelude Str PathUtils Addr Url Redact Proxy Guard Screen Security Repository Routing.

#[local] Set Warnings "-clear-no-such-hyp".

(** Which POM declared the repositories. *)
Inductive Declaration := ByLocalPom | ByRemoteParent | ByTransitive.

#[export] Instance declaration_eq_dec : EqDecision Declaration.
Proof. solve_decision. Defined.

Record Admission := {
  admitted : list Repository; dropped : list Repository; secret_urls : list Repository; blocked_http : list Repository }.

Definition no_admission : Admission := {| admitted := []; dropped := []; secret_urls := []; blocked_http := [] |}.

(** [secret_url_refusal]: what is wrong with the URL. *)
Inductive SecretRefusal := HasPart (part : str) | HoldsInput (input : str).

Section Policy.
Context `{UrlCrate}.

Definition secret_url_refusal (url : str) (secrets : list (str * str)) : option SecretRefusal :=
  match secret_url_part url with
  | Some part => Some (HasPart part)
  | None => HoldsInput <$> secret_input_in_path url secrets
  end.

Definition http_repository_blocked (c : Config) (repo : Repository) : bool :=
  negb (negb (is_some_and (fun u => bool_decide (scheme u = $"http")) (parse_url (repo_url repo)))
        || negb (is_external_http_repo (repo_url repo))
        || existsb (fun configured => bool_decide (normalize_repo_url (config_url configured) = normalize_repo_url (repo_url repo))) (repositories c)
        || bool_decide (is_Some (resolve_mirror (mirrors c) repo).1.2)).

Definition declared_by (from : Declaration) : Provenance :=
  match from with ByLocalPom => LocalPom | ByRemoteParent | ByTransitive => FetchedPom end.

Definition policy_admits (c : Config) (from : Declaration) (url : str) : bool :=
  match from with
  | ByLocalPom => true
  | ByRemoteParent => is_some_and (fun u => http_scheme (scheme u)) (parse_url url)
  | ByTransitive => allows_transitive_repo_url (security c) url
  end.

(** One turn of [screen_with]. *)
Definition screen_repo (c : Config) (secrets : list (str * str)) (from : Declaration) (adm : Admission) (repo : Repository) : Admission :=
  let repo := set_provenance (declared_by from) repo in
  if bool_decide (is_Some (secret_url_refusal (repo_url repo) secrets)) then
    {| admitted := admitted adm; dropped := dropped adm; secret_urls := secret_urls adm ++ [repo]; blocked_http := blocked_http adm |}
  else if http_repository_blocked c repo then
    {| admitted := admitted adm; dropped := dropped adm; secret_urls := secret_urls adm; blocked_http := blocked_http adm ++ [repo] |}
  else if policy_admits c from (repo_url repo) then
    {| admitted := admitted adm ++ [repo]; dropped := dropped adm; secret_urls := secret_urls adm; blocked_http := blocked_http adm |}
  else
    {| admitted := admitted adm; dropped := dropped adm ++ [repo]; secret_urls := secret_urls adm; blocked_http := blocked_http adm |}.

Definition screen_with (c : Config) (secrets : list (str * str)) (repos : list Repository) (from : Declaration) : Admission :=
  foldl (screen_repo c secrets from) no_admission repos.

Definition screen (c : Config) (repos : list Repository) (from : Declaration) : Admission :=
  screen_with c (secret_named_inputs c) repos from.

(** What grants change: the client set, and the origins the credential store names. *)
Record Powers := { client_set : ClientSet; names : option NamedOrigins }.

Definition grant (c : Config) (p : Powers) (repo : Repository) : Powers :=
  let fetched := bool_decide (provenance repo = FetchedPom) in
  let s := client_set p in
  let s := if negb fetched || allows_transitive_repo_url (security c) (repo_url repo) then exempt s (repo_url repo) else s in
  if fetched then {| client_set := s; names := names p |}
  else {| client_set := authorize_issuer s (repo_url repo); names := (fun n => add_name n (repo_url repo)) <$> names p |}.

Definition admit_repositories (c : Config) (p : Powers) (repos : list Repository) (from : Declaration) : Admission * Powers :=
  let adm := screen_with c (secret_named_inputs c) repos from in
  (adm, foldl (grant c) p (admitted adm)).

(** ** Screening *)

(** What an admitted repository went through. *)
Definition passed (c : Config) (secrets : list (str * str)) (from : Declaration) (repos : list Repository) (repo : Repository) : Prop :=
  (exists r, r ∈ repos /\ repo = set_provenance (declared_by from) r) /\
  secret_url_refusal (repo_url repo) secrets = None /\ http_repository_blocked c repo = false /\
  policy_admits c from (repo_url repo) = true.

Lemma screen_with_admitted c secrets from repos repo :
  repo ∈ admitted (screen_with c secrets repos from) <-> passed c secrets from repos repo.
Proof.
  unfold screen_with, passed. induction repos as [|r repos IH] using rev_ind.
  - cbn. rewrite elem_of_nil. split; [done|]. by intros ((r & []%elem_of_nil & _) & _).
  - rewrite foldl_app. cbn [foldl]. unfold screen_repo. cbv zeta. set (q := set_provenance (declared_by from) r) in *.
    case_bool_decide as Es; cbn [admitted].
    { rewrite IH. setoid_rewrite elem_of_app. setoid_rewrite list_elem_of_singleton.
      split; [naive_solver|]. intros ((x & [Hx| ->] & ->) & Hrest); [eauto|]. fold q in Hrest. destruct Hrest as [Hn _]. rewrite Hn in Es. by destruct Es. }
    apply eq_None_not_Some in Es.
    destruct (http_repository_blocked c q) eqn:Eb; cbn [admitted].
    { rewrite IH. setoid_rewrite elem_of_app. setoid_rewrite list_elem_of_singleton.
      split; [naive_solver|]. intros ((x & [Hx| ->] & ->) & Hrest); [eauto|]. fold q in Hrest. destruct Hrest as (_ & ? & _). congruence. }
    destruct (policy_admits c from (repo_url q)) eqn:Ep; cbn [admitted].
    + rewrite elem_of_app, IH, list_elem_of_singleton. setoid_rewrite elem_of_app. setoid_rewrite list_elem_of_singleton. split.
      * intros [((x & Hx & ->) & Hrest)| ->]; [eauto 6|]. split; [by exists r; auto|done].
      * intros ((x & [Hx| ->] & ->) & Hrest); [left; eauto|by right].
    + rewrite IH. setoid_rewrite elem_of_app. setoid_rewrite list_elem_of_singleton.
      split; [naive_solver|]. intros ((x & [Hx| ->] & ->) & Hrest); [eauto|]. fold q in Hrest. destruct Hrest as (_ & _ & ?). congruence.
Qed.

(** ** Grants are steps of a run *)

Context (builds : Client -> bool) (masks : list (str * str)).

Lemma runs_trans r1 r2 r3 : runs builds masks r1 r2 -> runs builds masks r2 r3 -> runs builds masks r1 r3.
Proof. intros H12 H23. revert H12. induction H23 as [|a b d _ IH Hs]; intros H12; [done|]. eapply runs_step; [by apply IH|exact Hs]. Qed.

Lemma grant_runs c p repo l :
  exists l', runs builds masks {| clients_of := client_set p; pending := l |} {| clients_of := client_set (grant c p repo); pending := l' |}.
Proof.
  assert (exists l', runs builds masks {| clients_of := client_set p; pending := l |}
    {| clients_of := if negb (bool_decide (provenance repo = FetchedPom)) || allows_transitive_repo_url (security c) (repo_url repo)
         then exempt (client_set p) (repo_url repo) else client_set p; pending := l' |}) as [l' Hl].
  { destruct (_ || _); [|eexists; apply runs_refl]. exists (repo_url repo :: l). unfold exempt.
    eapply runs_step; [eapply runs_step; [apply runs_refl|apply step_exempt_host]|apply step_exempt_origin; by left]. }
  unfold grant. destruct (bool_decide (provenance repo = FetchedPom)); cbn [client_set]; [eauto|].
  exists l'. eapply runs_step; [exact Hl|apply step_authorize].
Qed.

(** Admitting repositories is a run of grants, which the screen of the transport covers. *)
Lemma admit_runs c p repos from l :
  exists l', runs builds masks {| clients_of := client_set p; pending := l |} {| clients_of := client_set (admit_repositories c p repos from).2; pending := l' |}.
Proof.
  unfold admit_repositories. cbn [snd]. generalize (admitted (screen_with c (secret_named_inputs c) repos from)). intros rs.
  revert p l. induction rs as [|r rs IH]; intros p l; cbn [foldl]; [eexists; apply runs_refl|].
  destruct (grant_runs c p r l) as [l1 H1]. destruct (IH (grant c p r) l1) as [l2 H2]. exists l2. by eapply runs_trans.
Qed.

(** ** Fetched POMs *)

(** The origins a policy lets a fetched POM exempt. *)
Definition allowed_origin (c : Config) (repos : list Repository) (o : str) : Prop :=
  exists repo u, repo ∈ repos /\ allows_transitive_repo_url (security c) (repo_url repo) = true /\ parsed_origin (repo_url repo) = Some (u, o).

Lemma exempt_effect s url :
  root_clients (exempt s url) = root_clients s /\ configured_origins (exempt s url) = configured_origins s /\
  forall o, o ∈ trusted_origins (exempt s url) <-> o ∈ trusted_origins s \/ exists u, parsed_origin url = Some (u, o).
Proof.
  unfold exempt, exempt_origin, exempt_host. destruct (parsed_origin url) as [[u o]|]; [|split_and!; [done|done|]; intros o; split; [auto|by intros [?|(? & ?)]]].
  destruct (host_str u); cbn; (split_and!; [done|done|]; intros o'; rewrite elem_of_union, elem_of_singleton;
    split; [intros [->|?]; eauto|intros [?|(u' & [= _ ->])]; auto]).
Qed.

Lemma grant_fetched c p repo :
  provenance repo = FetchedPom ->
  names (grant c p repo) = names p /\ root_clients (client_set (grant c p repo)) = root_clients (client_set p) /\
  forall o, o ∈ trusted_origins (client_set (grant c p repo)) <-> o ∈ trusted_origins (client_set p) \/ allowed_origin c [repo] o.
Proof.
  intros Hf. unfold grant, allowed_origin. rewrite bool_decide_true by done. cbn [negb orb names client_set].
  destruct (allows_transitive_repo_url (security c) (repo_url repo)) eqn:Ea.
  - destruct (exempt_effect (client_set p) (repo_url repo)) as (E1 & _ & E2). split_and!; [done|done|]. intros o. rewrite E2.
    apply or_iff_compat_l. split; [intros [u Hu]; exists repo, u; split; [by left|done]|].
    intros (x & u & ->%list_elem_of_singleton & _ & Hu). by exists u.
  - split_and!; [done|done|]. intros o. split; [auto|].
    intros [?|(x & u & ->%list_elem_of_singleton & Hx & _)]; [done|congruence].
Qed.

Lemma allowed_origin_cons c r rs o : allowed_origin c (r :: rs) o <-> allowed_origin c [r] o \/ allowed_origin c rs o.
Proof.
  unfold allowed_origin. split.
  - intros (x & u & [->|Hx]%elem_of_cons & Hrest); [left; exists r, u; split; [by left|done]|right; by exists x, u].
  - intros [(x & u & ->%list_elem_of_singleton & Hrest)|(x & u & Hx & Hrest)]; [exists r, u|exists x, u]; (split; [|done]); [by left|by right].
Qed.

Lemma grants_fetched c p rs :
  Forall (fun r => provenance r = FetchedPom) rs ->
  names (foldl (grant c) p rs) = names p /\ root_clients (client_set (foldl (grant c) p rs)) = root_clients (client_set p) /\
  forall o, o ∈ trusted_origins (client_set (foldl (grant c) p rs)) <-> o ∈ trusted_origins (client_set p) \/ allowed_origin c rs o.
Proof.
  intros Hall. revert p. induction Hall as [|r rs Hr Hall IH]; intros p; cbn [foldl].
  - split_and!; [done|done|]. intros o. split; [auto|]. intros [?|(r & u & []%elem_of_nil & _)]; done.
  - destruct (grant_fetched c p r Hr) as (G1 & G2 & G3). destruct (IH (grant c p r)) as (I1 & I2 & I3).
    split_and!; [congruence|congruence|]. intros o. rewrite I3, G3, (allowed_origin_cons c r rs). tauto.
Qed.

(** C6: A POM fetched from a repository gains little by the repositories it declares.  Those
    admitted have no secret in their URL and are not plain HTTP to another host unless the
    configuration names them or mirrors them; a dependency's are of the transitive policy.
    No origin may issue redirects for them, none is named for credentials, and the only
    origins exempt from the address screen are those the transitive policy allows. *)
Theorem fetched_pom_powers (c : Config) (p : Powers) (repos : list Repository) (from : Declaration) (Hfrom : from <> ByLocalPom) :
  let '(adm, p') := admit_repositories c p repos from in
  (forall repo, repo ∈ admitted adm ->
    provenance repo = FetchedPom /\ secret_url_refusal (repo_url repo) (secret_named_inputs c) = None /\
    http_repository_blocked c repo = false /\ (exists u, parse_url (repo_url repo) = Some u /\ http_scheme (scheme u) = true) /\
    (from = ByTransitive -> allows_transitive_repo_url (security c) (repo_url repo) = true)) /\
  names p' = names p /\ root_clients (client_set p') = root_clients (client_set p) /\
  (forall o, o ∈ trusted_origins (client_set p') <-> o ∈ trusted_origins (client_set p) \/ allowed_origin c (admitted adm) o).
Proof.
  unfold admit_repositories. set (adm := screen_with c (secret_named_inputs c) repos from).
  assert (forall repo, repo ∈ admitted adm -> passed c (secret_named_inputs c) from repos repo) as Hpassed by (intros; by apply screen_with_admitted).
  assert (declared_by from = FetchedPom) as Hd by (by destruct from).
  split.
  - intros repo Hin. destruct (Hpassed repo Hin) as ((r & _ & Er) & Hs & Hb & Hp).
    split_and!; [by rewrite Er, <-Hd|done|done| |by intros ->].
    destruct from; [done| |]; cbn in Hp.
    + destruct (parse_url (repo_url repo)) as [u|]; [|done]. by exists u.
    + apply allows_spec in Hp as (u & Hu & _). unfold parse_url_origin in Hu. destruct (parse_url (repo_url repo)) as [v|]; [|done]. cbn in Hu.
      destruct (http_scheme (scheme v)) eqn:Eh; [|done]. exists v. done.
  - apply grants_fetched. apply list.Forall_forall. intros repo Hin. destruct (Hpassed repo Hin) as ((r & _ & ->) & _). done.
Qed.
End Policy.
