(* ===== verification/RepoDemo.v ===== *)
(** * Repositories at work

    The theorems about repositories, credentials and policies at concrete configurations,
    with the sample of the [url] crate. *)

From Stdlib Require Import Ascii String Lia.
From stdpp Require Import base numbers list strings gmap sets.
From S2P Require Import Prelude Str PathUtils Addr Url Redact RedactFacts Proxy Guard Screen Security Repository Routing Policy.

Import Sample.

#[local] Existing Instance crate.

Definition unset : str -> option str := fun _ => None.

(** ** The security policy *)

Definition user_table : SecurityConfigToml :=
  {| toml_env_substitution := Some [$"CI"]; toml_transitive_repositories := None;
     toml_repository_allowlist := Some [$"https://nexus.corp/m2/"] |}.
(** A project that asks for more: another variable, every repository and another host. *)
Definition project_table : SecurityConfigToml :=
  {| toml_env_substitution := Some [$"CI"; $"TOKEN"]; toml_transitive_repositories := Some true;
     toml_repository_allowlist := Some [$"https://nexus.corp/m2/releases/"; $"https://cdn.example/"] |}.
Definition merged_table : SecurityConfig :=
  {| allow_env_substitution := [$"CI"]; allow_transitive_repositories := false;
     transitive_repository_allowlist := [$"https://nexus.corp/m2/releases/"] |}.
Definition asked_for : list str := [$"allow_env_substitution"; $"allow_transitive_repositories"; $"transitive_repository_allowlist"].

Lemma project_only_narrows_witness :
  merge_security [] (Some project_table) (Some user_table) = Ok (merged_table, asked_for) /\
  allows_transitive_repo_url merged_table $"https://nexus.corp/m2/releases/a" = true /\
  allows_transitive_repo_url (user_security (Some user_table)) $"https://nexus.corp/m2/releases/a" = true /\
  allows_transitive_repo_url (user_security (Some user_table)) $"https://nexus.corp/m2evil/" = false.
Proof.
  assert (merge_security [] (Some project_table) (Some user_table) = Ok (merged_table, asked_for)) as E by (vm_compute; reflexivity).
  assert (allows_transitive_repo_url merged_table $"https://nexus.corp/m2/releases/a" = true) as Ha by (vm_compute; reflexivity).
  split; [exact E|]. split; [exact Ha|]. split; [|vm_compute; reflexivity].
  exact (proj2 (project_only_narrows [] (Some project_table) (Some user_table) merged_table asked_for E) _ Ha).
Defined.

(** ** Credentials *)

(** The user names a Nexus, with a token for its origin and one for the id [corp]. *)
Definition nexus_token : AuthConfig := {| auth_id := None; auth_username := None; auth_password := None; auth_token := Some $"t0" |}.
Definition corp_token : AuthConfig := {| auth_id := Some $"corp"; auth_username := None; auth_password := None; auth_token := Some $"t1" |}.
Definition demo_repos : Config := {|
  repositories := [];
  mirrors := [{| mirror_id := None; mirror_url := $"https://cdn.example/m2"; mirror_of := [$"mirrored"]; mirror_of_layouts := None; blocked := false |}];
  user_endpoint_urls := [$"https://nexus.corp/m2/"];
  auth_layers := {| project_auth := []; user_auth := [corp_token; nexus_token]; settings_auth := [] |};
  security := user_security (Some user_table);
  secret_named_inputs := [($"MY_TOKEN", $"s3cret")] |}.

Definition nexus_repository : Repository := new_repository None $"https://nexus.corp/m2" true false.
Definition nexus_jar : @Url crate := {| https := true; at_host := Nexus; at_port := P443; user := []; pass := None;
  at_path := $"/m2/a/1/a-1.jar"; at_query := None; at_fragment := None |}.
Definition default_auth : Auth :=
  {| auth_scheme := BearerScheme $"t0"; sent := {| sent_id := None; sent_file := User; unset_variables := [] |} |}.

Lemma path_stays_below_witness :
  url_for_path nexus_repository $"a/1/a-1.jar" = Ok nexus_jar /\
  exists base, base_url nexus_repository = Some base /\ scheme nexus_jar = scheme base.
Proof.
  assert (url_for_path nexus_repository $"a/1/a-1.jar" = Ok nexus_jar) as E by (vm_compute; reflexivity).
  split; [exact E|]. destruct (path_stays_below nexus_repository $"a/1/a-1.jar" nexus_jar E) as (base & Eb & _ & Es & _).
  exists base. split; [exact Eb|exact Es].
Defined.

(** The default token goes to the Nexus the user named, and to no mirror elsewhere. *)
Example routed_auth :
  route_auth unset [] (store_with demo_repos no_names) (route (router_from_config demo_repos) nexus_repository) None
    = Ok (Some default_auth, Some (Some default_auth, 0%N)) /\
  route_auth unset [] (store_with demo_repos no_names)
    (route (router_from_config demo_repos) (new_repository (Some $"mirrored") $"https://nexus.corp/m2" true false)) None
    = Ok (None, Some (None, 0%N)).
Proof. vm_compute. done. Qed.

Lemma credential_destination_witness :
  exists url, url ∈ user_endpoint_urls demo_repos /\ http_origin_text url = Some (ascii_serialization (origin nexus_jar)).
Proof.
  assert (route_auth unset [] (store_with demo_repos no_names) (route (router_from_config demo_repos) nexus_repository) None
    = Ok (Some default_auth, Some (Some default_auth, 0%N))) as E by (vm_compute; reflexivity).
  assert (url_for_path (endpoint (route (router_from_config demo_repos) nexus_repository)) $"a/1/a-1.jar" = Ok nexus_jar) as Eu by (vm_compute; reflexivity).
  destruct (credential_destination unset [] demo_repos no_names nexus_repository $"a/1/a-1.jar" nexus_jar default_auth _ E Eu
              ltac:(vm_compute; reflexivity)) as [[_ [Hu _]] _].
  exact Hu.
Defined.

Lemma cache_scope_key_tells_witness :
  cache_scope_key $"https://nexus.corp/m2/" nexus_repository <> cache_scope_key $"https://cdn.example/" nexus_repository.
Proof.
  intros E.
  destruct (cache_scope_key_tells $"https://nexus.corp/m2/" $"https://cdn.example/" nexus_repository nexus_repository
    ltac:(apply (bool_decide_unpack _); vm_compute; exact I) ltac:(apply (bool_decide_unpack _); vm_compute; exact I)
    ltac:(apply (bool_decide_unpack _); vm_compute; exact I) ltac:(apply (bool_decide_unpack _); vm_compute; exact I) E) as [Ho _].
  vm_compute in Ho. discriminate Ho.
Defined.

(** ** Admission *)

Definition powers : Powers := {| client_set := from_guard no_guard no_proxies; names := Some no_names |}.
Definition evil : Repository := new_repository None $"https://cdn.example/m2" true false.

(** A dependency's POM declares the Nexus, a host the policy does not allow and a URL with a
    secret in its path; only the first is admitted. *)
Definition declared : list Repository :=
  [nexus_repository; evil; new_repository None $"https://nexus.corp/m2/s3cret" true false].

Example admitted_sample :
  let adm := (admit_repositories demo_repos powers declared ByTransitive).1 in
  map repo_url (admitted adm) = [$"https://nexus.corp/m2/"] /\ map repo_url (dropped adm) = [$"https://cdn.example/m2/"] /\
  map repo_url (secret_urls adm) = [$"https://nexus.corp/m2/s3cret/"].
Proof. vm_compute. done. Qed.

Lemma fetched_pom_powers_witness :
  names (admit_repositories demo_repos powers declared ByTransitive).2 = names powers /\
  root_clients (client_set (admit_repositories demo_repos powers declared ByTransitive).2) = ∅.
Proof.
  assert (ByTransitive <> ByLocalPom) as Hn by discriminate.
  pose proof (fetched_pom_powers demo_repos powers declared ByTransitive Hn) as Hp.
  destruct (admit_repositories demo_repos powers declared ByTransitive) as [adm p']. destruct Hp as (_ & Hnames & Hroot & _).
  split; [exact Hnames|exact Hroot].
Defined.

(** ** Redaction *)

Lemma redact_url_hides_witness :
  redact_url [] $"https://me:pw@nexus.corp/m2/?k=v" = $"https://nexus.corp/m2/?***" /\
  redact_url [] $"https://nexus.corp/m2/" = $"https://nexus.corp/m2/".
Proof.
  split; [vm_compute; reflexivity|].
  assert (exists u, parse_url $"https://nexus.corp/m2/" = Some u /\ as_str u = $"https://nexus.corp/m2/") as (u & Eu & Et)
    by (eexists; split; [vm_compute; reflexivity|vm_compute; reflexivity]).
  rewrite <-Et at 2.
  apply (proj2 (redact_url_hides [] $"https://nexus.corp/m2/" ltac:(intros; reflexivity)) u Eu); [reflexivity|vm_compute; reflexivity].
Defined.

(** The value of a token between other segments, with a reference in it. *)
Lemma holds_value_spec_witness :
  holds $"/m2/s3cret/releases/" true (literal_parts $"s3${x}t") /\ ~ holds $"/m2/as3cret/" true (literal_parts $"s3cret").
Proof.
  split.
  - apply (holds_value_spec $"/m2/s3cret/releases/" $"s3${x}t" true ltac:(vm_compute; reflexivity) ltac:(vm_compute; reflexivity)).
    vm_compute. reflexivity.
  - intros Hh. apply (holds_value_spec $"/m2/as3cret/" $"s3cret" true ltac:(vm_compute; reflexivity) ltac:(vm_compute; reflexivity)) in Hh.
    vm_compute in Hh. discriminate Hh.
Defined.
