(* ===== verification/IndexMap.v ===== *)
(** * Insertion-ordered maps ([indexmap::IndexMap])

    The maps the model builder merges with: their entries in insertion order.  A map is
    determined by its keys in order and its lookups, which is how equalities of merged
    maps are proved. *)

From Stdlib Require Import Ascii String Lia.
From stdpp Require Import base list option sets.
From S2P Require Import Prelude Iter.

#[local] Set Warnings "-clear-no-such-hyp".

(** ** Operations *)

Section Operations.
Context {K V : Type} `{EqDecision K}.

Fixpoint entry_get (k : K) (m : list (K * V)) : option V :=
  match m with
  | [] => None
  | (k', v) :: m => if decide (k' = k) then Some v else entry_get k m
  end.

(** [insert]: a present key keeps its place. *)
Definition map_insert (k : K) (v : V) (m : list (K * V)) : list (K * V) := entry_with k (fun _ => v) m.

(** [entry(k).or_insert(v)]. *)
Definition map_or_insert (k : K) (v : V) (m : list (K * V)) : list (K * V) := entry_with k (default v) m.

Definition map_extend (m l : list (K * V)) : list (K * V) := foldl (fun m x => map_insert x.1 x.2 m) m l.
Definition map_offer (m l : list (K * V)) : list (K * V) := foldl (fun m x => map_or_insert x.1 x.2 m) m l.

(** [collect] into a map. *)
Definition map_collect (l : list (K * V)) : list (K * V) := map_extend [] l.

(** The first occurrences of a list. *)
Definition firsts (l : list K) : list K := foldl (fun acc k => if decide (k ∈ acc) then acc else acc ++ [k]) [] l.
End Operations.

(** [into_values], and the entries of a list keyed by a part of them. *)
Definition map_values {K V} (m : list (K * V)) : list V := map snd m.
Definition keyed {K V} (key : V -> K) (l : list V) : list (K * V) := map (fun x => (key x, x)) l.

(** ** Keys and lookups determine a map *)

Section Facts.
Context {K V : Type} `{EqDecision K}.
Implicit Types (m l : list (K * V)).

Lemma entry_with_names k (f : option V -> V) m :
  map fst (entry_with k f m) = if decide (k ∈ map fst m) then map fst m else map fst m ++ [k].
Proof.
  induction m as [|[k' v] m IH]; cbn; [done|]. destruct (decide (k' = k)) as [->|Hne]; cbn.
  - rewrite decide_True by set_solver. done.
  - rewrite IH. destruct (decide (k ∈ map fst m)) as [Hk|Hk].
    + by rewrite decide_True by set_solver.
    + by rewrite decide_False by set_solver.
Qed.

Lemma entry_with_get k k' (f : option V -> V) m :
  entry_get k' (entry_with k f m) = if decide (k' = k) then Some (f (entry_get k m)) else entry_get k' m.
Proof.
  induction m as [|[k0 v] m IH]; cbn.
  - destruct (decide (k = k')); destruct (decide (k' = k)); congruence.
  - destruct (decide (k0 = k)) as [->|Hne]; cbn.
    + destruct (decide (k = k')); destruct (decide (k' = k)); congruence.
    + rewrite IH. destruct (decide (k0 = k')) as [->|]; [|done]. by rewrite decide_False by done.
Qed.

Lemma entry_get_None k m : entry_get k m = None <-> k ∉ map fst m.
Proof.
  induction m as [|[k' v] m IH]; cbn; [set_solver|]. destruct (decide (k' = k)) as [->|Hne].
  - split; [done|]. set_solver.
  - rewrite IH. set_solver.
Qed.

Lemma map_ext_entries m m' :
  NoDup (map fst m) -> map fst m = map fst m' -> (forall k, entry_get k m = entry_get k m') -> m = m'.
Proof.
  revert m'. induction m as [|[k v] m IH]; intros [|[k' v'] m']; cbn; try done.
  intros Hnd [= <- E] Hget. apply NoDup_cons in Hnd as [Hk Hnd].
  pose proof (Hget k) as Hv. rewrite !decide_True in Hv by done. simplify_eq. f_equal.
  apply IH; [done..|]. intros k'. specialize (Hget k'). destruct (decide (k = k')) as [<-|]; [|done].
  rewrite (proj2 (entry_get_None k m)) by done. symmetry. apply entry_get_None. by rewrite <-E.
Qed.

Lemma entry_with_NoDup k (f : option V -> V) m : NoDup (map fst m) -> NoDup (map fst (entry_with k f m)).
Proof.
  intros Hm. rewrite entry_with_names. destruct (decide _) as [|Hk]; [done|].
  apply NoDup_app. split_and!; [done|set_solver|]. apply NoDup_singleton.
Qed.

(** A fold of single steps, each the entry of one key. *)
Lemma fold_entries_keys (g : K * V -> option V -> V) m l :
  map fst (foldl (fun m x => entry_with x.1 (g x) m) m l) =
  foldl (fun acc k => if decide (k ∈ acc) then acc else acc ++ [k]) (map fst m) (map fst l).
Proof. revert m. induction l as [|x l IH]; intros m; [done|]. cbn. by rewrite IH, entry_with_names. Qed.

Lemma fold_entries_NoDup (g : K * V -> option V -> V) m l :
  NoDup (map fst m) -> NoDup (map fst (foldl (fun m x => entry_with x.1 (g x) m) m l)).
Proof. revert m. induction l as [|x l IH]; intros m Hm; [done|]. cbn. by apply IH, entry_with_NoDup. Qed.

Lemma map_extend_NoDup m l : NoDup (map fst m) -> NoDup (map fst (map_extend m l)).
Proof. apply (fold_entries_NoDup (fun x _ => x.2)). Qed.

Lemma map_offer_NoDup m l : NoDup (map fst m) -> NoDup (map fst (map_offer m l)).
Proof. apply (fold_entries_NoDup (fun x => default x.2)). Qed.

(** The last value offered for a key. *)
Definition last_of (k : K) (l : list (K * V)) : option V := last (map snd (List.filter (fun x => bool_decide (x.1 = k)) l)).

Lemma last_of_cons k x l : last_of k (x :: l) = match last_of k l with
  | Some v => Some v
  | None => if decide (x.1 = k) then Some x.2 else None end.
Proof.
  unfold last_of. cbn. destruct (decide (x.1 = k)) as [E|Hne].
  - rewrite bool_decide_true by done. cbn. rewrite last_cons. by destruct (last _).
  - rewrite bool_decide_false by done. by destruct (last _).
Qed.

Lemma map_extend_get k m l :
  entry_get k (map_extend m l) = match last_of k l with Some v => Some v | None => entry_get k m end.
Proof.
  revert m. induction l as [|x l IH]; intros m; [done|]. unfold map_extend in *. cbn. rewrite IH, last_of_cons.
  destruct (last_of k l); [done|]. unfold map_insert. rewrite entry_with_get.
  destruct (decide (k = x.1)) as [->|]; [by rewrite decide_True|by rewrite decide_False].
Qed.

Lemma map_offer_get k m l :
  entry_get k (map_offer m l) = match entry_get k m with Some v => Some v | None => entry_get k l end.
Proof.
  revert m. induction l as [|[k' v] l IH]; intros m; unfold map_offer in *; cbn; [by destruct (entry_get k m)|].
  rewrite IH. unfold map_or_insert. rewrite entry_with_get. destruct (decide (k = k')) as [->|Hne].
  - rewrite decide_True by done. by destruct (entry_get k' m).
  - by rewrite decide_False.
Qed.

Lemma map_collect_get k l : entry_get k (map_collect l) = last_of k l.
Proof. unfold map_collect. rewrite map_extend_get. by destruct (last_of k l). Qed.

Lemma firsts_app_fresh acc (l : list K) :
  NoDup (acc ++ l) -> foldl (fun acc k => if decide (k ∈ acc) then acc else acc ++ [k]) acc l = acc ++ l.
Proof.
  revert acc. induction l as [|k l IH]; intros acc Hnd; cbn; [by rewrite app_nil_r|].
  rewrite decide_False. 2:{ intros Hk. apply NoDup_app in Hnd as (_ & Hd & _). apply (Hd k); set_solver. }
  rewrite IH; rewrite <-app_assoc; done.
Qed.

Lemma last_of_entry k l : NoDup (map fst l) -> last_of k l = entry_get k l.
Proof.
  induction l as [|[k' v] l IH]; [done|]. cbn. intros Hnd. apply NoDup_cons in Hnd as [Hk Hnd].
  rewrite last_of_cons, IH by done. cbn. destruct (decide (k' = k)) as [->|].
  - by rewrite (proj2 (entry_get_None k l)).
  - by destruct (entry_get k l).
Qed.

Lemma map_collect_id m : NoDup (map fst m) -> map_collect m = m.
Proof.
  intros Hm. apply map_ext_entries.
  - apply map_extend_NoDup. constructor.
  - unfold map_collect, map_extend. etrans; [apply (fold_entries_keys (fun x _ => x.2))|]. by rewrite firsts_app_fresh.
  - intros k. by rewrite map_collect_get, last_of_entry.
Qed.

Lemma map_offer_nil m : NoDup (map fst m) -> map_offer [] m = m.
Proof.
  intros Hm. apply map_ext_entries.
  - apply map_offer_NoDup. constructor.
  - unfold map_offer. etrans; [apply (fold_entries_keys (fun x => default x.2))|]. by rewrite firsts_app_fresh.
  - intros k. by rewrite map_offer_get.
Qed.

Lemma map_collect_keys l : map fst (map_collect l) = firsts (map fst l).
Proof. apply (fold_entries_keys (fun x _ => x.2) []). Qed.

(** ** Maps keyed by a part of their values *)

Definition self_keyed (key : V -> K) (m : list (K * V)) : Prop := Forall (fun x => x.1 = key x.2) m.

Lemma keyed_values key m : self_keyed key m -> keyed key (map_values m) = m.
Proof. unfold keyed, map_values. induction 1 as [|[k v] m E _ IH]; [done|]. cbn in *. by rewrite IH, <-E. Qed.

Lemma keyed_self key (l : list V) : self_keyed key (keyed key l).
Proof. unfold self_keyed, keyed. by apply Forall_map, Forall_true. Qed.

Lemma entry_with_self key k (f : option V -> V) m :
  self_keyed key m -> (forall o, (forall v, o = Some v -> key v = k) -> key (f o) = k) -> self_keyed key (entry_with k f m).
Proof.
  intros Hm Hf. induction Hm as [|[k' v] m E Hm IH]; cbn.
  - constructor; [|constructor]. cbn. symmetry. by apply Hf.
  - cbn in E. destruct (decide (k' = k)) as [->|].
    + constructor; [|done]. cbn. symmetry. apply Hf. by intros v' [= <-].
    + by constructor.
Qed.

Lemma map_extend_self key m l : self_keyed key m -> self_keyed key l -> self_keyed key (map_extend m l).
Proof.
  intros Hm Hl. revert m Hm. induction Hl as [|x l E Hl IH]; intros m Hm; [done|]. apply IH, entry_with_self; [done|].
  intros _ _. by rewrite E.
Qed.

Lemma map_offer_self key m l : self_keyed key m -> self_keyed key l -> self_keyed key (map_offer m l).
Proof.
  intros Hm Hl. revert m Hm. induction Hl as [|x l E Hl IH]; intros m Hm; [done|]. apply IH, entry_with_self; [done|].
  intros [v|] Ho; cbn; [by apply Ho|by rewrite E].
Qed.

Lemma map_collect_self key l : self_keyed key l -> self_keyed key (map_collect l).
Proof. apply map_extend_self. constructor. Qed.

Lemma keys_of_values key m : self_keyed key m -> map key (map_values m) = map fst m.
Proof. unfold map_values. induction 1 as [|[k v] m E _ IH]; [done|]. cbn in *. by rewrite IH, E. Qed.

(** A map of its own values. *)
Lemma collect_values key m : NoDup (map fst m) -> self_keyed key m -> map_collect (keyed key (map_values m)) = m.
Proof. intros Hm Hs. rewrite keyed_values by done. by apply map_collect_id. Qed.
End Facts.

Lemma keyed_app {K V} (key : V -> K) l l' : keyed key (l ++ l') = keyed key l ++ keyed key l'.
Proof. apply map_app. Qed.

Lemma keyed_fst {K V} (key : V -> K) l : map fst (keyed key l) = map key l.
Proof. unfold keyed. rewrite map_map. by apply map_ext. Qed.

Lemma map_extend_app {K V} `{EqDecision K} (m l l' : list (K * V)) :
  map_extend m (l ++ l') = map_extend (map_extend m l) l'.
Proof. apply foldl_app. Qed.

(** ** First occurrences *)

Section Firsts.
Context {K : Type} `{EqDecision K}.
Implicit Types l : list K.
Abbreviation add := (fun (acc : list K) k => if decide (k ∈ acc) then acc else acc ++ [k]).

Lemma firsts_elem acc l k : k ∈ foldl add acc l <-> k ∈ acc \/ k ∈ l.
Proof.
  revert acc. induction l as [|k' l IH]; intros acc; cbn; [set_solver|]. rewrite IH.
  destruct (decide (k' ∈ acc)); set_solver.
Qed.

Lemma firsts_again acc l : foldl add acc (firsts l) = foldl add acc l.
Proof.
  induction l as [|k l IH] using rev_ind; [done|]. unfold firsts in *. rewrite !foldl_app. cbn.
  destruct (decide (k ∈ foldl add [] l)) as [Hk|Hk].
  - rewrite IH. apply firsts_elem in Hk as [Hk|Hk]; [by apply elem_of_nil in Hk|].
    rewrite decide_True; [done|]. apply firsts_elem. by right.
  - by rewrite foldl_app, IH.
Qed.

Lemma firsts_app (l l' : list K) : firsts (l ++ l') = foldl add (firsts l) l'.
Proof. apply foldl_app. Qed.

Lemma firsts_app_again (l l' : list K) : firsts (l ++ firsts l') = firsts (l ++ l').
Proof. rewrite !firsts_app. apply firsts_again. Qed.

Lemma firsts_again_app (l l' : list K) : firsts (firsts l ++ l') = firsts (l ++ l').
Proof. rewrite !firsts_app. f_equal. apply (firsts_again []). Qed.
End Firsts.

(** ** Levels

    Lists merged from the dominant to the recessive one: the first level that has a key
    gives its entry, its last one of that key, and keys keep the order in which they
    first occur. *)

Section Levels.
Context {T K : Type} `{EqDecision K} (key : T -> K).

Definition level_map (levels : list (list T)) : list (K * T) :=
  foldl (fun merged level => map_offer merged (map_collect (keyed key level))) [] levels.
Definition merge_levels (levels : list (list T)) : list T := map_values (level_map levels).

Definition last_with (k : K) (level : list T) : option T := last (List.filter (fun x => bool_decide (key x = k)) level).
Definition first_with (k : K) (levels : list (list T)) : option T := head (omap (last_with k) levels).

Lemma last_of_keyed k level : last_of k (keyed key level) = last_with k level.
Proof.
  unfold last_of, last_with, keyed. f_equal. induction level as [|x l IH]; [done|]. cbn.
  destruct (bool_decide (key x = k)); cbn; by rewrite IH.
Qed.

Lemma level_map_snoc levels level :
  level_map (levels ++ [level]) = map_offer (level_map levels) (map_collect (keyed key level)).
Proof. unfold level_map. by rewrite foldl_app. Qed.

Lemma level_map_ok levels :
  NoDup (map fst (level_map levels)) /\ self_keyed key (level_map levels) /\
  map fst (level_map levels) = firsts (concat (map (map key) levels)) /\
  forall k, entry_get k (level_map levels) = first_with k levels.
Proof.
  induction levels as [|level levels IH] using rev_ind; [split_and!; [constructor|constructor|done|done]|].
  destruct IH as (Hnd & Hself & Hkeys & Hget). rewrite level_map_snoc. split_and!.
  - by apply map_offer_NoDup.
  - apply map_offer_self; [done|]. apply map_collect_self, keyed_self.
  - etrans; [apply (fold_entries_keys (fun x => default x.2))|]. rewrite map_collect_keys, keyed_fst, Hkeys.
    rewrite map_app, concat_app. cbn. rewrite app_nil_r, <-firsts_app. apply firsts_app_again.
  - intros k. rewrite map_offer_get, Hget, map_collect_get, last_of_keyed. unfold first_with. rewrite omap_app.
    destruct (omap (last_with k) levels) as [|x l]; [|done]. cbn. by destruct (last_with k level).
Qed.

Lemma merge_levels_keys levels : map key (merge_levels levels) = firsts (concat (map (map key) levels)).
Proof. destruct (level_map_ok levels) as (_ & Hself & Hkeys & _). by rewrite <-Hkeys, <-(keys_of_values key). Qed.

Lemma merge_levels_NoDup levels : NoDup (map key (merge_levels levels)).
Proof. destruct (level_map_ok levels) as (Hnd & Hself & _). unfold merge_levels. by rewrite (keys_of_values key). Qed.

(** The entry of a key, in a list and in the merge. *)
Lemma last_with_distinct (m : list (K * T)) k :
  NoDup (map fst m) -> self_keyed key m -> last_with k (map_values m) = entry_get k m.
Proof. intros Hnd Hself. rewrite <-last_of_keyed, keyed_values by done. by apply last_of_entry. Qed.

Lemma merge_levels_get levels k : last_with k (merge_levels levels) = first_with k levels.
Proof. destruct (level_map_ok levels) as (Hnd & Hself & _ & Hget). unfold merge_levels. by rewrite last_with_distinct. Qed.

Lemma levels_ext levels levels' :
  firsts (concat (map (map key) levels)) = firsts (concat (map (map key) levels')) ->
  (forall k, first_with k levels = first_with k levels') -> merge_levels levels = merge_levels levels'.
Proof.
  intros Hk Hg. unfold merge_levels. f_equal.
  destruct (level_map_ok levels) as (Hnd & _ & Hkeys & Hget), (level_map_ok levels') as (_ & _ & Hkeys' & Hget').
  apply map_ext_entries; [done|congruence|]. intros k. by rewrite Hget, Hget'.
Qed.

Lemma merge_levels_again level levels : merge_levels [level; merge_levels levels] = merge_levels (level :: levels).
Proof.
  apply levels_ext.
  - cbn. rewrite app_nil_r, merge_levels_keys. apply firsts_app_again.
  - intros k. unfold first_with. cbn. rewrite merge_levels_get. unfold first_with.
    destruct (last_with k level); [done|]. by destruct (omap (last_with k) levels).
Qed.

Lemma merge_levels_own level levels : merge_levels (merge_levels [level] :: levels) = merge_levels (level :: levels).
Proof.
  apply levels_ext.
  - cbn [map concat]. rewrite merge_levels_keys. cbn [map concat]. rewrite app_nil_r. apply firsts_again_app.
  - intros k. unfold first_with. cbn [omap list_omap]. rewrite merge_levels_get. unfold first_with. cbn.
    by destruct (last_with k level).
Qed.

(** A list without repeated keys is a level of its own. *)
Lemma merge_levels_distinct level : NoDup (map key level) -> merge_levels [level] = level.
Proof.
  intros Hnd. unfold merge_levels, level_map. cbn. rewrite <-keyed_fst in Hnd.
  rewrite map_collect_id, map_offer_nil by done. unfold map_values, keyed. rewrite map_map. apply map_id.
Qed.
End Levels.
