(* ===== verification/ArtifactVersion.v ===== *)
(** * The order of maven-artifact ([rv-maven-model/src/artifact_version.rs])

    The version order Maven's model builder applies to a local parent that a version
    range names; every other range uses the order of [Version.v].  A token is the list
    of its characters. *)

From Stdlib Require Import Ascii String Lia.
From stdpp Require Import base list strings.
From S2P Require Import Prelude Str Component Version Snapshot.

#[local] Set Warnings "-clear-no-such-hyp".

Module ArtifactVersion.

Inductive Item :=
  | Number (kind : N) (digits : list N)
  | Text (value : list N)
  | Items (items : list Item).

(** The induction principle over nested lists. *)
Fixpoint item_nested (P : Item -> Prop) (Hn : forall k d, P (Number k d)) (Ht : forall v, P (Text v))
    (Hl : forall l, Forall P l -> P (Items l)) (i : Item) : P i :=
  match i with
  | Number k d => Hn k d
  | Text v => Ht v
  | Items l => Hl l ((fix go l : Forall P l :=
      match l with
      | [] => Forall_nil_2 P
      | x :: l => Forall_cons_2 P x l (item_nested P Hn Ht Hl x) (go l)
      end) l)
  end.

Definition text (s : str) : list N := ascii_chars s.

(** The decimal digits of the basic plane, by their zeroes. *)
Definition ZEROES : list N :=
  [0x30; 0x660; 0x6f0; 0x7c0; 0x966; 0x9e6; 0xa66; 0xae6; 0xb66; 0xbe6; 0xc66; 0xce6; 0xd66;
   0xde6; 0xe50; 0xed0; 0xf20; 0x1040; 0x1090; 0x17e0; 0x1810; 0x1946; 0x19d0; 0x1a80; 0x1a90;
   0x1b50; 0x1bb0; 0x1c40; 0x1c50; 0xa620; 0xa8d0; 0xa900; 0xa9d0; 0xa9f0; 0xaa50; 0xabf0;
   0xff10]%N.

Definition digit (ch : N) : option N :=
  head (omap (fun zero => if ((zero <=? ch) && (ch - zero <? 10))%N then Some (ch - zero)%N else None) ZEROES).

Fixpoint skip_zeroes (l : list N) : list N :=
  match l with
  | c :: rest => if (c =? 48)%N then skip_zeroes rest else l
  | [] => []
  end.

Definition number (token : list N) : Item :=
  let stripped := match skip_zeroes token with [] => token | l => l end in
  let kind := if (length stripped <=? 9)%nat then 0%N else if (length stripped <=? 18)%nat then 1%N else 2%N in
  let digits := skip_zeroes (map (fun ch => (48 + default 0 (digit ch))%N) stripped) in
  Number kind (match digits with [] => text $"0" | _ => digits end).

Definition string_item (token : list N) (followed_by_digit : bool) : Item :=
  Text (if bool_decide (token = text $"a") && followed_by_digit then text $"alpha"
        else if bool_decide (token = text $"b") && followed_by_digit then text $"beta"
        else if bool_decide (token = text $"m") && followed_by_digit then text $"milestone"
        else if bool_decide (token ∈ [text $"ga"; text $"final"; text $"release"]) then []
        else if bool_decide (token = text $"cr") then text $"rc"
        else token).

Definition token_item (token : list N) (numeric : bool) : Item := if numeric then number token else string_item token false.

Definition is_null (i : Item) : bool :=
  match i with
  | Number _ d => bool_decide (d = text $"0")
  | Text v => bool_decide (v = [])
  | Items l => bool_decide (length l = 0)
  end.

Definition qualifier (value : list N) : N :=
  if bool_decide (value = text $"alpha") then 0
  else if bool_decide (value = text $"beta") then 1
  else if bool_decide (value = text $"milestone") then 2
  else if bool_decide (value = text $"rc") then 3
  else if bool_decide (value = text $"snapshot") then 4
  else if bool_decide (value = []) then 5
  else if bool_decide (value = text $"sp") then 6
  else 7.

(** The first difference of a list of comparisons. *)
Definition first_difference (l : list comparison) : comparison := foldr ord_then Eq l.

Fixpoint compare_none (i : Item) : comparison :=
  match i with
  | Number _ d => if bool_decide (d = text $"0") then Eq else Gt
  | Text v => N.compare (qualifier v) (qualifier [])
  | Items l => first_difference (map compare_none l)
  end.

Definition units (v : list N) : list N := flat_map utf16 v.

Definition scalar_cmp (a b : Item) : comparison :=
  match a, b with
  | Number ak a, Number bk b => ord_then (N.compare ak bk) (ord_then (Nat.compare (length a) (length b)) (list_cmp N.compare a b))
  | Text a, Text b => ord_then (N.compare (qualifier a) (qualifier b)) (list_cmp N.compare (units a) (units b))
  | Number _ _, _ | Items _, Text _ => Gt
  | _, _ => Lt
  end.

(** The lists of two versions: an item that only one has is compared with none. *)
Section CompareLists.
Context (cmp : Item -> Item -> comparison).

Fixpoint compare_lists (l l' : list Item) : comparison :=
  match l, l' with
  | [], l' => first_difference (map (fun b => CompOpp (compare_none b)) l')
  | a :: l, [] => ord_then (compare_none a) (compare_lists l [])
  | a :: l, b :: l' => ord_then (cmp a b) (compare_lists l l')
  end.
End CompareLists.

Fixpoint compare (a b : Item) : comparison :=
  match a, b with
  | Items l, Items l' => compare_lists compare l l'
  | a, b => scalar_cmp a b
  end.

(** ** Parsing *)

Definition MAX_NESTING : nat := 256.

Record Parse := { stack : list (list Item); items : list Item; numeric : bool; token : list N }.

Definition push_list (p : Parse) : list (list Item) := stack p ++ [items p].

Definition parse_char (p : Parse) (ch : N) : Parse :=
  if bool_decide (ch = 46%N) || bool_decide (ch = 45%N) then
    let l := items p ++ [if bool_decide (token p = []) then number (text $"0") else token_item (token p) (numeric p)] in
    if bool_decide (ch = 45%N) then {| stack := stack p ++ [l]; items := []; numeric := numeric p; token := [] |}
    else {| stack := stack p; items := l; numeric := numeric p; token := [] |}
  else
    match digit ch with
    | Some _ =>
      if negb (numeric p) && negb (bool_decide (token p = [])) then
        let s := match items p with [] => stack p | _ => push_list p end in
        {| stack := s ++ [[string_item (token p) true]]; items := []; numeric := true; token := [ch] |}
      else {| stack := stack p; items := items p; numeric := true; token := token p ++ [ch] |}
    | None =>
      if numeric p && negb (bool_decide (token p = [])) then
        {| stack := stack p ++ [items p ++ [number (token p)]]; items := []; numeric := false; token := [ch] |}
      else {| stack := stack p; items := items p; numeric := false; token := token p ++ [ch] |}
    end.

Fixpoint parse_chars (p : Parse) (l : list N) : option Parse :=
  match l with
  | [] => Some p
  | ch :: l =>
    let p := parse_char p ch in
    if (MAX_NESTING <? length (stack p))%nat then None else parse_chars p l
  end.

(** The items of a list from the last: null ones go, past nested lists, up to a scalar
    that is not null. *)
Fixpoint normalize_reversed (l : list Item) : list Item :=
  match l with
  | [] => []
  | i :: rest =>
    if is_null i then normalize_reversed rest
    else match i with Items _ => i :: normalize_reversed rest | _ => l end
  end.

Definition normalize (l : list Item) : list Item := reverse (normalize_reversed (reverse l)).

(** From the innermost list outwards. *)
Fixpoint close_lists (l : list Item) (outer : list (list Item)) : Item :=
  let item := Items (normalize l) in
  match outer with
  | [] => item
  | parent :: outer => close_lists (parent ++ [item]) outer
  end.

Section Parsing.
Context `{Unicode}.

Definition parse (version : str) : option Item :=
  if (MAX_COMPONENT_BYTES <? length version)%nat then None
  else
    p ← parse_chars {| stack := []; items := []; numeric := false; token := [] |} (chars (to_lowercase version));
    let p :=
      match token p with
      | [] => p
      | _ =>
        let p := if negb (numeric p) && negb (bool_decide (length (items p) = 0))
                 then {| stack := push_list p; items := []; numeric := numeric p; token := token p |} else p in
        {| stack := stack p; items := items p ++ [token_item (token p) (numeric p)]; numeric := numeric p; token := [] |}
      end in
    if (MAX_NESTING <? length (stack p))%nat then None
    else Some (close_lists (items p) (reverse (stack p))).

(** ** Ranges *)

Fixpoint trim_low_start (s : str) : str :=
  match s with
  | c :: rest => if (code c <=? 32)%N then trim_low_start rest else s
  | [] => []
  end.

Definition trim_low (s : str) : str := reverse (trim_low_start (reverse (trim_low_start s))).

Definition bound (s : str) : option (option Item) :=
  match trim_low s with
  | [] => Some None
  | s => Some <$> parse s
  end.

(** One range of a specification: whether it holds the version, and its bounds. *)
Definition one_range (version : Item) (include_lower include_upper : bool) (inner : str) (previous : option Item)
    : option (bool * option Item) :=
  '(lower, upper) ← match split_once ","%char inner with
                    | Some (l, u) => lower ← bound l; upper ← bound u; Some (lower, upper)
                    | None => if include_lower && include_upper then v ← parse inner; Some (Some v, Some v) else None
                    end;
  _ ← match lower, upper with
      | Some lower, Some upper =>
        match compare lower upper with
        | Gt => None
        | Eq => if include_lower && include_upper then Some tt else None
        | Lt => Some tt
        end
      | _, _ => Some tt
      end;
  _ ← match previous with
      | Some previous => if is_none_or (fun lower => bool_decide (compare lower previous = Lt)) lower then None else Some tt
      | None => Some tt
      end;
  Some (is_none_or (fun lower => match compare lower version with Lt => true | Eq => include_lower | Gt => false end) lower
        && is_none_or (fun upper => match compare upper version with Gt => true | Eq => include_upper | Lt => false end) upper,
        upper).

Fixpoint contains_from (fuel : nat) (version : Item) (spec : str) (matched restricted : bool) (previous : option Item) : option bool :=
  match fuel, spec with
  | S fuel, open :: body =>
    if one_of ["["; "("]%char open then
      '(inner, close, rest) ← split_at_first (one_of [")"; "]"]%char) body;
      '(holds, upper) ← one_range version (bool_decide (open = "["%char)) (bool_decide (close = "]"%char)) (trim_low inner) previous;
      let spec := trim_low rest in
      let spec := match strip_prefix $"," spec with Some rest => trim_low rest | None => spec end in
      contains_from fuel version spec (matched || holds) true upper
    else if restricted then None else Some true
  | _, _ => Some matched
  end.

Definition contains (version spec : str) : option bool :=
  version ← parse version;
  contains_from (length spec) version spec false false None.
End Parsing.
End ArtifactVersion.

(** ** The order *)

Module ArtifactVersionFacts.
Import ArtifactVersion.

Lemma scalar_sym a b : match a, b with Items _, Items _ => True | _, _ => scalar_cmp b a = CompOpp (scalar_cmp a b) end.
Proof.
  destruct a as [ka a|a|a], b as [kb b|b|b]; try done; cbn.
  - rewrite (cmp_sym (cmp := N.compare) ka kb), (cmp_sym (cmp := Nat.compare) (length a)), (cmp_sym (cmp := list_cmp N.compare) a b).
    destruct (N.compare ka kb); [|done..]. cbn. by destruct (Nat.compare _ _).
  - rewrite (cmp_sym (cmp := N.compare) (qualifier a)), (cmp_sym (cmp := list_cmp N.compare) (units a)). by destruct (N.compare _ _).
Qed.

(** Comparing the other way around reverses the order, absent items included. *)
Lemma compare_sym a : forall b, compare b a = CompOpp (compare a b).
Proof.
  induction a as [ka a|a|l IH] using item_nested; intros b.
  - destruct b; [apply (scalar_sym (Number _ _) (Number _ _))|done..].
  - destruct b; [done|apply (scalar_sym (Text _) (Text _))|done].
  - destruct b as [kb b|b|l']; [done..|]. cbn [compare]. revert l'. induction IH as [|a l Ha _ IHl]; intros l'.
    + induction l' as [|b l' IHl']; [done|]. cbn [compare_lists] in *. rewrite IHl'. cbn. by destruct (compare_none b).
    + destruct l' as [|b l']; cbn [compare_lists].
      * specialize (IHl []). cbn [compare_lists] in IHl. cbn. rewrite <-(CompOpp_involutive (compare_lists compare l [])), <-IHl.
        change (foldr ord_then Eq ?x) with (first_difference x). by destruct (compare_none a); cbn; rewrite ?CompOpp_involutive.
      * rewrite Ha, IHl. by destruct (compare a b).
Qed.
End ArtifactVersionFacts.
