(* ===== verification/Pom.v ===== *)
(** * Project models ([rv-maven-model/src/pom.rs], [profile.rs], [repository.rs],
      [provenance.rs], and the data of [activation.rs])

    The parsed [pom.xml] as the model builder reads it, with the origin its loader
    recorded.  Texts are those of the XML, trimmed; reading it is not modelled. *)

From Stdlib Require Import Ascii String Lia.
From stdpp Require Import base list strings gmap.
From S2P Require Import Prelude Str Component Dependency Environment Interpolate.

#[local] Set Warnings "-clear-no-such-hyp".

(** ** Parts of a model *)

Record License := { license_name : option str; license_url : option str }.

#[export] Instance license_eq_dec : EqDecision License.
Proof. solve_decision. Defined.

Module Parent.
Record t := { group_id : str; artifact_id : str; version : str; relative_path : option str }.

(** The parent with another version, which a source that resolves ranges selects. *)
Definition at_version (p : t) (v : str) : t :=
  {| group_id := group_id p; artifact_id := artifact_id p; version := v; relative_path := relative_path p |}.
End Parent.

Module Relocated.
Record t := { group_id : option str; artifact_id : option str; version : option str; message : option str }.
End Relocated.

(** Where the loader read a POM from. *)
Module Provenance.
Inductive t :=
  | RootProject (path : str)
  | ReactorModule (path : str)
  | LocalParent (path : str)
  | RemoteParentOfRoot
  | Dependency
  | BomImport.

Definition is_local (p : t) : bool :=
  match p with RootProject _ | ReactorModule _ | LocalParent _ => true | _ => false end.
End Provenance.

(** A [<repository>]: the policies as written, and what reading them gave. *)
Module PomRepo.
Record t := {
  root_declared : bool;
  id : option str;
  url : str;
  releases_enabled : bool;
  snapshots_enabled : bool;
  releases_enabled_text : option str;
  snapshots_enabled_text : option str;
  releases_update_policy : option str;
  snapshots_update_policy : option str;
  releases_checksum_policy : option str;
  snapshots_checksum_policy : option str;
}.

Definition maven_enabled (text : option str) : bool :=
  is_none_or (fun text => eq_ignore_ascii_case (trim text) $"true") text.

(** [interpolate_policies] with the identity: each text that is there is read again. *)
Definition read_policies_as_written (r : t) : t := {|
  root_declared := root_declared r; id := id r; url := url r;
  releases_enabled := match releases_enabled_text r with Some s => maven_enabled (Some s) | None => releases_enabled r end;
  snapshots_enabled := match snapshots_enabled_text r with Some s => maven_enabled (Some s) | None => snapshots_enabled r end;
  releases_enabled_text := releases_enabled_text r; snapshots_enabled_text := snapshots_enabled_text r;
  releases_update_policy := releases_update_policy r; snapshots_update_policy := snapshots_update_policy r;
  releases_checksum_policy := releases_checksum_policy r; snapshots_checksum_policy := snapshots_checksum_policy r |}.

Definition with_root (b : bool) (r : t) : t := {|
  root_declared := b; id := id r; url := url r; releases_enabled := releases_enabled r;
  snapshots_enabled := snapshots_enabled r; releases_enabled_text := releases_enabled_text r;
  snapshots_enabled_text := snapshots_enabled_text r; releases_update_policy := releases_update_policy r;
  snapshots_update_policy := snapshots_update_policy r; releases_checksum_policy := releases_checksum_policy r;
  snapshots_checksum_policy := snapshots_checksum_policy r |}.
End PomRepo.

(** ** [<build>] *)

Definition no_build : Build.t := {|
  Build.directory := None; Build.final_name := None; Build.default_goal := None; Build.output_directory := None;
  Build.test_output_directory := None; Build.source_directory := None; Build.test_source_directory := None;
  Build.script_source_directory := None |}.

Definition unless_set {A} (own inherited : option A) : option A := match own with None => inherited | Some _ => own end.

Definition build_inherit (own parent : Build.t) : Build.t := {|
  Build.directory := unless_set (Build.directory own) (Build.directory parent);
  Build.final_name := unless_set (Build.final_name own) (Build.final_name parent);
  Build.default_goal := unless_set (Build.default_goal own) (Build.default_goal parent);
  Build.output_directory := unless_set (Build.output_directory own) (Build.output_directory parent);
  Build.test_output_directory := unless_set (Build.test_output_directory own) (Build.test_output_directory parent);
  Build.source_directory := unless_set (Build.source_directory own) (Build.source_directory parent);
  Build.test_source_directory := unless_set (Build.test_source_directory own) (Build.test_source_directory parent);
  Build.script_source_directory := unless_set (Build.script_source_directory own) (Build.script_source_directory parent) |}.

(** A profile's [<build>] sets three of the fields. *)
Definition build_inject (own profile : Build.t) : Build.t := {|
  Build.directory := unless_set (Build.directory profile) (Build.directory own);
  Build.final_name := unless_set (Build.final_name profile) (Build.final_name own);
  Build.default_goal := unless_set (Build.default_goal profile) (Build.default_goal own);
  Build.output_directory := Build.output_directory own;
  Build.test_output_directory := Build.test_output_directory own;
  Build.source_directory := Build.source_directory own;
  Build.test_source_directory := Build.test_source_directory own;
  Build.script_source_directory := Build.script_source_directory own |}.

(** ** Activations and profiles *)

Record ActivationProperty := { property_name : option str; property_value : option str }.
Record ActivationOs := { os_name_test : option str; os_family_test : option str; os_arch_test : option str; os_version_test : option str }.
Record ActivationFile := { file_exists : option str; file_missing : option str }.

(** The host values interpolation read, per condition. *)
Record ConditionReads := {
  reads_os : list HostInput; reads_file : list HostInput; reads_jdk : list HostInput; reads_property : list HostInput;
  java_os : bool; java_file : bool; java_jdk : bool; java_property : bool }.

Record Activation := {
  active_by_default : bool;
  on_property : option ActivationProperty;
  on_os : option ActivationOs;
  on_jdk : option str;
  on_file : option ActivationFile;
  jdk_from_input : bool;
  property_from_input : bool;
  property_name_from_input : bool;
  path_from_host : bool;
  interpolation_reads : ConditionReads;
}.

Module Profile.
Record t := {
  id : str;
  activation : option Activation;
  dependencies : list Dependency;
  dependency_management : option (list Dependency);
  repositories : list PomRepo.t;
  modules : list str;
  properties : PropertyMap;
  build : Build.t;
}.
End Profile.

(** ** Models *)

Module Pom.
Record t := {
  model_version : option str;
  group_id : option str;
  artifact_id : option str;
  version : option str;
  packaging : option str;
  parent : option Parent.t;
  licenses : list License;
  prerequisites : option (option str);
  dependencies : list Dependency;
  dependency_management : option (list Dependency);
  distribution_management : option (option Relocated.t);
  build : Build.t;
  properties : PropertyMap;
  profiles : list Profile.t;
  repositories : list PomRepo.t;
  modules : list str;
  own_properties : option PropertyMap;
  user_properties : PropertyMap;
  shadowed_properties : PropertyMap;
  active_profiles : list str;
  selected_profiles : list (list str);
  provenance : option Provenance.t;
  unread_parent : option bool;
}.

(** [Pom::default]. *)
Definition empty : t := {|
  model_version := None; group_id := None; artifact_id := None; version := None; packaging := None; parent := None;
  licenses := []; prerequisites := None; dependencies := []; dependency_management := None;
  distribution_management := None; build := no_build; properties := new_map; profiles := []; repositories := [];
  modules := []; own_properties := None; user_properties := new_map; shadowed_properties := new_map;
  active_profiles := []; selected_profiles := []; provenance := None; unread_parent := None |}.

Definition declared_properties (p : t) : PropertyMap := default (properties p) (own_properties p).

(** [overlay_user_properties], one property at a time. *)
Definition overlay_property (p : t) (entry : str * str) : t :=
  let '(key, value) := entry in {|
  model_version := model_version p; group_id := group_id p; artifact_id := artifact_id p; version := version p;
  packaging := packaging p; parent := parent p; licenses := licenses p; prerequisites := prerequisites p;
  dependencies := dependencies p; dependency_management := dependency_management p;
  distribution_management := distribution_management p; build := build p;
  properties := insert_external key value (properties p); profiles := profiles p; repositories := repositories p;
  modules := modules p; own_properties := own_properties p;
  user_properties := insert key value (user_properties p);
  shadowed_properties := match get (declared_properties p) key with
                         | Some own => insert key own (shadowed_properties p)
                         | None => shadowed_properties p
                         end;
  active_profiles := active_profiles p; selected_profiles := selected_profiles p; provenance := provenance p;
  unread_parent := unread_parent p |}.

Definition with_own (p : t) : t := {|
  model_version := model_version p; group_id := group_id p; artifact_id := artifact_id p; version := version p;
  packaging := packaging p; parent := parent p; licenses := licenses p; prerequisites := prerequisites p;
  dependencies := dependencies p; dependency_management := dependency_management p;
  distribution_management := distribution_management p; build := build p;
  properties := properties p; profiles := profiles p; repositories := repositories p;
  modules := modules p;
  own_properties := match own_properties p with Some own => Some own | None => Some (clone_map (properties p)) end;
  user_properties := user_properties p;
  shadowed_properties := shadowed_properties p; active_profiles := active_profiles p;
  selected_profiles := selected_profiles p; provenance := provenance p; unread_parent := unread_parent p |}.

Definition overlay_user_properties (entries : list (str * str)) (p : t) : t := foldl overlay_property (with_own p) entries.

(** A model with other dependencies, and with coordinates of its own. *)
Definition with_dependencies (d : list Dependency) (p : t) : t := {|
  model_version := model_version p; group_id := group_id p; artifact_id := artifact_id p; version := version p;
  packaging := packaging p; parent := parent p; licenses := licenses p; prerequisites := prerequisites p;
  dependencies := d; dependency_management := dependency_management p;
  distribution_management := distribution_management p; build := build p;
  properties := properties p; profiles := profiles p; repositories := repositories p;
  modules := modules p; own_properties := own_properties p; user_properties := user_properties p;
  shadowed_properties := shadowed_properties p; active_profiles := active_profiles p;
  selected_profiles := selected_profiles p; provenance := provenance p; unread_parent := unread_parent p |}.

Definition with_coordinates (g v : option str) (p : t) : t := {|
  model_version := model_version p; group_id := g; artifact_id := artifact_id p; version := v;
  packaging := packaging p; parent := parent p; licenses := licenses p; prerequisites := prerequisites p;
  dependencies := dependencies p; dependency_management := dependency_management p;
  distribution_management := distribution_management p; build := build p;
  properties := properties p; profiles := profiles p; repositories := repositories p;
  modules := modules p; own_properties := own_properties p; user_properties := user_properties p;
  shadowed_properties := shadowed_properties p; active_profiles := active_profiles p;
  selected_profiles := selected_profiles p; provenance := provenance p; unread_parent := unread_parent p |}.

(** A model with other repositories and properties, at the end of its inheritance. *)
Definition finish (r : list PomRepo.t) (m : PropertyMap) (unread : option bool) (p : t) : t := {|
  model_version := model_version p; group_id := group_id p; artifact_id := artifact_id p; version := version p;
  packaging := packaging p; parent := parent p; licenses := licenses p; prerequisites := prerequisites p;
  dependencies := dependencies p; dependency_management := dependency_management p;
  distribution_management := distribution_management p; build := build p;
  properties := m; profiles := profiles p; repositories := r;
  modules := modules p; own_properties := own_properties p; user_properties := user_properties p;
  shadowed_properties := shadowed_properties p; active_profiles := active_profiles p;
  selected_profiles := selected_profiles p; provenance := provenance p; unread_parent := unread |}.

Definition mark_profile (pr : Profile.t) : Profile.t := {|
  Profile.id := Profile.id pr; Profile.activation := Profile.activation pr; Profile.dependencies := Profile.dependencies pr;
  Profile.dependency_management := Profile.dependency_management pr;
  Profile.repositories := map (PomRepo.with_root true) (Profile.repositories pr);
  Profile.modules := Profile.modules pr; Profile.properties := Profile.properties pr; Profile.build := Profile.build pr |}.

Definition mark_root_repositories (p : t) : t := {|
  model_version := model_version p; group_id := group_id p; artifact_id := artifact_id p; version := version p;
  packaging := packaging p; parent := parent p; licenses := licenses p; prerequisites := prerequisites p;
  dependencies := dependencies p; dependency_management := dependency_management p;
  distribution_management := distribution_management p; build := build p;
  properties := properties p; profiles := map mark_profile (profiles p);
  repositories := map (PomRepo.with_root true) (repositories p);
  modules := modules p; own_properties := own_properties p; user_properties := user_properties p;
  shadowed_properties := shadowed_properties p; active_profiles := active_profiles p;
  selected_profiles := selected_profiles p; provenance := provenance p; unread_parent := unread_parent p |}.
End Pom.

(** ** The errors of building a model

    A refusal is kept as the data its message is formatted from; the label of a POM is
    the characters it is shown as. *)

(** A condition that Maven reports as a model error. *)
Inductive ActivationError :=
  | PropertyNameRequired
  | Regex (error : str)
  | RegexTooLong (length : nat)
  | UnsupportedRegex (construct why : str).

Inductive Invalid :=
  | ParentChainLimit
  | ParentCycle
  | EmptyChain
  | NewerModel (version : str)
  | OlderModel (version : str)
  | OtherModel (version : str)
  | DuplicateProfile (id : str)
  | MissingRepositoryField (profile : option str) (id : option str) (location : option Parent.t)
  | VersionNotConstant (range : str)
  | Expansion (message : str)
  | BadActivation (id : str) (error : ActivationError)
  | CycleIn (label : list N) (names : list str).

Record CoordMismatch := {
  expected_group : str; expected_artifact : str; expected_version : str;
  actual_group : str; actual_artifact : str; actual_version : str }.

Inductive ModelError :=
  | InvalidPom (why : Invalid)
  | CycleOf (names : list str)
  | ParentExpression (parent : str)
  | FetchedParentExpression (pom : list N) (parent : str)
  | ParentNotFound (group artifact version : str)
  | ParentCoordMismatch (m : CoordMismatch).

