(* ===== verification/Merge.v ===== *)
(** * Merging models ([rv-maven-model/src/inheritance.rs])

    How the lists of a model merge: a profile's over its POM's, a child's over its
    parent's.  Lists merge by key, in the order Maven's model merger keeps. *)

From Stdlib Require Import Ascii String Lia.
From stdpp Require Import base list strings gmap.
From S2P Require Import Prelude Iter IndexMap Str Component Dependency Environment Interpolate Pom.

#[local] Set Warnings "-clear-no-such-hyp".

(** ** Lists *)

(** [merge_keyed]: the entries of each source replace the entry of their key in place
    or come last; without any, the target is left as it is. *)
Definition merge_keyed {T K} `{EqDecision K} (key : T -> K) (target : list T) (sources : list (list T)) : list T :=
  match List.filter (fun source => negb (bool_decide (length source = 0))) sources with
  | [] => target
  | sources => map_values (foldl (fun m source => map_extend m (keyed key source)) (map_collect (keyed key target)) sources)
  end.

(** [inject_repositories], a step for each profile from the last to the first: the
    repositories of the profile whose id is not claimed yet. *)
Definition inject_step (st : list PomRepo.t * list (option str)) (profile : Profile.t) : list PomRepo.t * list (option str) :=
  let '(merged, claimed) := st in
  let own := map_values (map_collect (keyed PomRepo.id (Profile.repositories profile))) in
  let fresh := List.filter (fun r => negb (bool_decide (PomRepo.id r ∈ claimed))) own in
  (merged ++ fresh, claimed ++ map PomRepo.id fresh).

Definition own_step (st : list PomRepo.t * list (option str)) (r : PomRepo.t) : list PomRepo.t * list (option str) :=
  let '(merged, claimed) := st in
  if decide (PomRepo.id r ∈ claimed) then (merged, claimed) else (merged ++ [r], claimed ++ [PomRepo.id r]).

Definition inject_repositories (own : list PomRepo.t) (active : list Profile.t) : list PomRepo.t :=
  if forallb (fun p => bool_decide (length (Profile.repositories p) = 0)) active then own
  else (foldl own_step (foldl inject_step ([], []) (reverse active)) own).1.

(** [merge_repositories]. *)
Definition merge_repositories (dominant recessive : list PomRepo.t) : list PomRepo.t :=
  map_values (map_offer (map_collect (keyed PomRepo.id dominant)) (keyed PomRepo.id recessive)).

(** [merge_dependency_levels]: from child to ancestor. *)
Definition merge_dependency_levels (levels : list (list Dependency)) : list Dependency :=
  map_values (foldl (fun merged level => map_offer merged (map_collect (keyed management_key level))) [] levels).

Definition merge_dependency_management (parent child : option (list Dependency)) : option (list Dependency) :=
  match child, parent with
  | None, parent => parent
  | child, None => child
  | Some child, Some parent => Some (merge_dependency_levels [child; parent])
  end.

(** ** Injecting profiles *)

(** The properties of a profile, except those a user property hides. *)
Definition inject_property (st : PropertyMap * PropertyMap) (user : PropertyMap) (entry : str * str) : PropertyMap * PropertyMap :=
  let '(properties, shadowed) := st in
  let '(key, value) := entry in
  match get user key with
  | None => (insert key value properties, shadowed)
  | Some _ => (properties, insert key value shadowed)
  end.

Definition inject_properties (user : PropertyMap) (st : PropertyMap * PropertyMap) (profile : Profile.t) : PropertyMap * PropertyMap :=
  foldl (fun st entry => inject_property st user entry) st (props (Profile.properties profile)).

(** The modules of a profile that were not listed before it. *)
Definition inject_modules (modules : list str) (profile : Profile.t) : list str :=
  modules ++ List.filter (fun m => negb (bool_decide (m ∈ modules))) (Profile.modules profile).

(** [inject_active_profiles] once the active profiles are selected. *)
Definition inject_profiles (active : list Profile.t) (p : Pom.t) : Pom.t :=
  let '(properties, shadowed) := foldl (inject_properties (Pom.user_properties p)) (Pom.properties p, Pom.shadowed_properties p) active in
  let managed := omap Profile.dependency_management active in {|
  Pom.model_version := Pom.model_version p; Pom.group_id := Pom.group_id p; Pom.artifact_id := Pom.artifact_id p;
  Pom.version := Pom.version p; Pom.packaging := Pom.packaging p; Pom.parent := Pom.parent p;
  Pom.licenses := Pom.licenses p; Pom.prerequisites := Pom.prerequisites p;
  Pom.dependencies := merge_keyed management_key (Pom.dependencies p) (map Profile.dependencies active);
  Pom.dependency_management :=
    match managed with
    | [] => Pom.dependency_management p
    | managed => Some (merge_keyed management_key (default [] (Pom.dependency_management p)) managed)
    end;
  Pom.distribution_management := Pom.distribution_management p;
  Pom.build := foldl (fun b profile => build_inject b (Profile.build profile)) (Pom.build p) active;
  Pom.properties := properties; Pom.profiles := Pom.profiles p;
  Pom.repositories := inject_repositories (Pom.repositories p) active;
  Pom.modules := foldl inject_modules (Pom.modules p) active;
  Pom.own_properties := Pom.own_properties p; Pom.user_properties := Pom.user_properties p;
  Pom.shadowed_properties := shadowed; Pom.active_profiles := Pom.active_profiles p;
  Pom.selected_profiles := Pom.selected_profiles p; Pom.provenance := Pom.provenance p;
  Pom.unread_parent := Pom.unread_parent p |}.

(** ** Injecting profiles one by one *)

Section MergeKeyed.
Context {T K : Type} `{EqDecision K} (key : T -> K).

Lemma merge_keyed_extend target sources :
  merge_keyed key target sources =
  if bool_decide (concat sources = []) then target
  else map_values (map_extend (map_collect (keyed key target)) (keyed key (concat sources))).
Proof.
  unfold merge_keyed.
  set (full := List.filter _ sources).
  assert (concat sources = concat full) as ->.
  { subst full. induction sources as [|[|x s] sources IH]; cbn; [done|done|]. by rewrite IH. }
  assert (Forall (fun s => s <> []) full) as Hfull.
  { apply Forall_forall. intros s Hs. apply list_elem_of_In, filter_In in Hs as [_ Hs]. by destruct s. }
  destruct full as [|s full]; cbn [concat]; [by rewrite bool_decide_true|].
  apply Forall_cons in Hfull as [Hs _]. rewrite bool_decide_false by (destruct s; done). f_equal.
  change (s ++ concat full) with (concat (s :: full)). generalize (s :: full) (map_collect (keyed key target)). clear.
  intros l. induction l as [|s l IH]; intros m; [done|]. cbn [foldl concat]. by rewrite IH, keyed_app, map_extend_app.
Qed.

Lemma merge_keyed_app target s s' :
  merge_keyed key target (s ++ s') = merge_keyed key (merge_keyed key target s) s'.
Proof.
  rewrite !merge_keyed_extend, concat_app.
  destruct (decide (concat s = [])) as [->|Hs]; [by rewrite (bool_decide_true ([] = []))|].
  rewrite (bool_decide_false (concat s = [])) by done.
  rewrite (bool_decide_false (concat s ++ concat s' = [])) by (destruct (concat s); done).
  set (m := map_extend (map_collect (keyed key target)) (keyed key (concat s))).
  assert (NoDup (map fst m)) as Hnd by (apply map_extend_NoDup, map_extend_NoDup; constructor).
  assert (self_keyed key m) as Hself.
  { apply map_extend_self; [apply map_collect_self|]; apply keyed_self. }
  rewrite keyed_app, map_extend_app. fold m. rewrite collect_values by done.
  destruct (decide (concat s' = [])) as [->|Hs']; [by rewrite bool_decide_true|by rewrite bool_decide_false].
Qed.
End MergeKeyed.

Section InjectRepositories.
Abbreviation id := PomRepo.id.

(** The repositories whose id comes first. *)
Definition first_ids (l : list PomRepo.t) : list PomRepo.t := (foldl own_step ([], []) l).1.

Lemma own_step_claims st l : snd st ⊆ snd (foldl own_step st l) /\ map id l ⊆ snd (foldl own_step st l).
Proof.
  revert st. induction l as [|r l IH]; intros st; cbn; [split; [done|set_solver]|].
  destruct (IH (own_step st r)) as [Hsub Hl]. assert (snd st ⊆ snd (own_step st r) /\ id r ∈ snd (own_step st r)) as [Hst Hr].
  { destruct st as [merged claimed]. cbn. destruct (decide _); cbn; set_solver. }
  split; [set_solver|]. intros x [->|Hx]%elem_of_cons; [by apply Hsub|by apply Hl].
Qed.

Lemma own_step_ids st l : snd st = map id (fst st) -> snd (foldl own_step st l) = map id (fst (foldl own_step st l)).
Proof.
  revert st. induction l as [|r l IH]; intros [merged claimed] E; [done|]. apply IH. cbn in *.
  destruct (decide _); [done|]. cbn. by rewrite map_app, E.
Qed.

Lemma first_ids_again st l : foldl own_step st (first_ids l) = foldl own_step st l.
Proof.
  induction l as [|r l IH] using rev_ind; [done|]. unfold first_ids in *. rewrite !foldl_app. cbn.
  pose proof (own_step_ids ([], []) l eq_refl) as Hids.
  destruct (foldl own_step ([], []) l) as [merged claimed]. cbn in *. subst claimed.
  destruct (decide (id r ∈ map id merged)) as [Hin|Hin]; cbn.
  - rewrite IH. pose proof (proj2 (own_step_claims st merged) (id r) Hin) as Hc. rewrite IH in Hc.
    destruct (foldl own_step st l) as [m c]. cbn in *. by rewrite decide_True.
  - rewrite foldl_app, IH. done.
Qed.

Lemma own_step_distinct merged claimed l :
  NoDup (map id l) ->
  foldl own_step (merged, claimed) l =
  (merged ++ List.filter (fun r => negb (bool_decide (id r ∈ claimed))) l,
   claimed ++ map id (List.filter (fun r => negb (bool_decide (id r ∈ claimed))) l)).
Proof.
  revert merged claimed. induction l as [|r l IH]; intros merged claimed Hnd; cbn; [by rewrite !app_nil_r|].
  apply NoDup_cons in Hnd as [Hr Hnd]. destruct (decide (id r ∈ claimed)) as [Hin|Hin].
  - rewrite bool_decide_true by done. by rewrite IH.
  - rewrite bool_decide_false by done. cbn. rewrite IH by done. rewrite <-!app_assoc. cbn.
    assert (List.filter (fun r0 => negb (bool_decide (id r0 ∈ claimed ++ [id r]))) l
            = List.filter (fun r0 => negb (bool_decide (id r0 ∈ claimed))) l) as ->; [|done].
    apply filter_ext_in. intros x Hx. f_equal. apply bool_decide_ext. rewrite elem_of_app, list_elem_of_singleton.
    split; [|by left]. intros [?|Ex]; [done|]. destruct Hr. rewrite <-Ex. apply list_elem_of_In, in_map, Hx.
Qed.

Lemma inject_step_own st profile :
  inject_step st profile = foldl own_step st (map_values (map_collect (keyed id (Profile.repositories profile)))).
Proof.
  destruct st as [merged claimed]. unfold inject_step. rewrite own_step_distinct; [done|].
  assert (self_keyed id (map_collect (keyed id (Profile.repositories profile)))) as Hs by apply map_collect_self, keyed_self.
  rewrite (keys_of_values id) by done. apply map_extend_NoDup. constructor.
Qed.

(** What a list of profiles declares, the last one first. *)
Definition declared (active : list Profile.t) : list PomRepo.t :=
  concat (map (fun p => map_values (map_collect (keyed id (Profile.repositories p)))) (reverse active)).

Lemma inject_steps st l :
  foldl inject_step st l =
  foldl own_step st (concat (map (fun p => map_values (map_collect (keyed id (Profile.repositories p)))) l)).
Proof. revert st. induction l as [|p l IH]; intros st; [done|]. cbn. by rewrite IH, foldl_app, inject_step_own. Qed.

Lemma inject_repositories_first own active :
  inject_repositories own active =
  if forallb (fun p => bool_decide (length (Profile.repositories p) = 0)) active then own else first_ids (declared active ++ own).
Proof.
  unfold inject_repositories, first_ids, declared. destruct (forallb _ _); [done|]. by rewrite inject_steps, foldl_app.
Qed.

Lemma declared_none active :
  forallb (fun p => bool_decide (length (Profile.repositories p) = 0)) active = true -> declared active = [].
Proof.
  intros Hn. unfold declared. rewrite forallb_forall in Hn.
  assert (forall p, In p (reverse active) -> Profile.repositories p = []) as Hr.
  { intros p Hp%list_elem_of_In%elem_of_reverse%list_elem_of_In%Hn. apply nil_length_inv. by apply bool_decide_eq_true_1 in Hp. }
  induction (reverse active) as [|p l IH]; [done|]. cbn. rewrite (Hr p) by (by left). cbn. apply IH. intros q Hq. apply Hr. by right.
Qed.

Lemma inject_repositories_app own l1 l2 :
  inject_repositories own (l1 ++ l2) = inject_repositories (inject_repositories own l1) l2.
Proof.
  rewrite !inject_repositories_first, forallb_app.
  assert (declared (l1 ++ l2) = declared l2 ++ declared l1) as ->.
  { unfold declared. by rewrite reverse_app, map_app, concat_app. }
  destruct (forallb _ l1) eqn:E1; cbn.
  - by rewrite (declared_none l1), app_nil_r.
  - destruct (forallb _ l2) eqn:E2; [by rewrite (declared_none l2)|].
    unfold first_ids at 1 2. rewrite <-!app_assoc, !foldl_app. by rewrite first_ids_again, foldl_app.
Qed.
End InjectRepositories.

Lemma inject_profiles_nil p : inject_profiles [] p = p.
Proof. by destruct p. Qed.

Lemma inject_profiles_app l1 l2 p : inject_profiles (l1 ++ l2) p = inject_profiles l2 (inject_profiles l1 p).
Proof.
  unfold inject_profiles. rewrite foldl_app.
  destruct (foldl _ (Pom.properties p, _) l1) as [properties shadowed]. cbn.
  destruct (foldl _ (properties, shadowed) l2) as [properties' shadowed'].
  rewrite map_app, merge_keyed_app, inject_repositories_app, !foldl_app, omap_app. f_equal.
  destruct (omap _ l1) as [|m1 ms1] eqn:E1; cbn; [done|].
  destruct (omap _ l2) as [|m2 ms2] eqn:E2; [by rewrite app_nil_r|]. cbn [default].
  f_equal. change (m1 :: ms1 ++ m2 :: ms2) with ((m1 :: ms1) ++ m2 :: ms2). apply merge_keyed_app.
Qed.

(** C15: injecting the active profiles in one pass gives what injecting them one after
    another gives, in every list, property and field. *)
Theorem inject_one_by_one active p :
  inject_profiles active p = foldl (fun p profile => inject_profiles [profile] p) p active.
Proof.
  revert p. induction active as [|profile active IH]; intros p; cbn [foldl]; [apply inject_profiles_nil|].
  change (profile :: active) with ([profile] ++ active). by rewrite inject_profiles_app, IH.
Qed.
