(* ===== verification/Activation.v ===== *)
(** * Profile activation ([rv-maven-model/src/activation.rs], with the recorder and the
      snapshot of [environment.rs])

    Which profiles of a POM are active, and which values of the host decided it.  The
    file system is the set of existing paths; paths are those of Unix.  The Java regular
    expression of an [os] version is an interface, as its engine is a library. *)

From Stdlib Require Import Ascii String Lia.
From stdpp Require Import base list strings gmap.
From S2P Require Import Prelude Str Environment Interpolate Component Dependency Pom.

#[local] Set Warnings "-clear-no-such-hyp".

(** ** The context *)

Record ActivationContext := {
  ctx_source : PropertySource;
  ctx_properties : gmap str str;
  ctx_default_packaging : option str;
  ctx_packaging_injected : bool;
  ctx_environment : Environment;
  ctx_system_properties : gmap str str;
  ctx_base_dir : option str;
  ctx_active_profiles : list str;
  ctx_inactive_profiles : list str;
  ctx_settings_properties : PropertyMap;
  ctx_settings_property_names : gset str;
}.

Definition system_property (c : ActivationContext) (name : str) : option str :=
  match ctx_system_properties c !! name with
  | Some value => Some value
  | None =>
    if decide (name = $"os.name") then os_name (ctx_environment c)
    else if decide (name = $"os.arch") then os_arch (ctx_environment c)
    else if decide (name = $"java.version") then Some (host_java_version (ctx_environment c))
    else if decide (name = $"java.home") then java_home (ctx_environment c)
    else None
  end.

Definition user_or_system_property (c : ActivationContext) (name : str) : option str :=
  match ctx_properties c !! name with Some value => Some value | None => system_property c name end.

Definition context_property (c : ActivationContext) (name : str) : option str :=
  match ctx_properties c !! name with
  | Some value => Some value
  | None => match get (ctx_settings_properties c) name with Some value => Some value | None => system_property c name end
  end.

(** [platform_system_properties], [activation_system_properties] and
    [interpolation_system_properties]. *)
Definition platform_system_properties (c : ActivationContext) : gmap str str :=
  list_to_map (omap (fun x => value ← x.2; Some (x.1, value))
    [($"os.name", os_name (ctx_environment c)); ($"os.arch", os_arch (ctx_environment c))]).

Definition activation_system_properties (c : ActivationContext) : gmap str str :=
  ctx_system_properties c ∪ platform_system_properties c.

Definition interpolation_system_properties `{Unicode} (c : ActivationContext) : gmap str str :=
  foldl (fun m key =>
    match ctx_system_properties c !! key with
    | Some _ => m
    | None =>
      match os_detected key (user_or_system_property c $"os.name") (user_or_system_property c $"os.arch") with
      | Some value => <[key := value]> m
      | None => m
      end
    end) (activation_system_properties c) OS_DETECTED_PROPERTIES.

(** [with_classifier_likes], and [model_environment]. *)
Definition with_classifier_likes (likes : option (option str)) (e : Environment) : Environment := {|
  platform := platform e; java_version := java_version e; target_jdk := target_jdk e; java_home := java_home e;
  env_system_properties := env_system_properties e; env := env e; host_env := host_env e; allowed := allowed e;
  allow_all_env := allow_all_env e; linux_release := linux_release e; classifier_likes_text := likes |}.

Definition model_environment (c : ActivationContext) : Environment :=
  match ctx_system_properties c !! $"os.detected.classifier" with
  | Some _ => with_classifier_likes None (ctx_environment c)
  | None => ctx_environment c
  end.

(** [model_properties]: settings and user properties over the public ones. *)
Definition model_properties (c : ActivationContext) (public : PropertyMap) : PropertyMap :=
  let add m entries := foldl (fun m x => insert_external x.1 x.2 m) m entries in
  let m := add (clone_map public) (props (ctx_settings_properties c)) in
  let m := add m (map_to_list (ctx_properties c)) in
  Interpolate.set_input_context (ctx_source c) (ctx_default_packaging c) m.

(** [with_input_packaging]. *)
Definition with_input_packaging (c : ActivationContext) (p : Pom.t) : ActivationContext :=
  let packaging := if ctx_packaging_injected c then ctx_default_packaging c else Some (default $"jar" (Pom.packaging p)) in
  let inject := bool_decide (get (ctx_settings_properties c) $"packaging" = None)
                && bool_decide (ctx_properties c !! $"packaging" = None) in {|
  ctx_source := ctx_source c;
  ctx_properties := if inject then <[$"packaging" := default $"jar" packaging]> (ctx_properties c) else ctx_properties c;
  ctx_default_packaging := packaging;
  ctx_packaging_injected := inject || ctx_packaging_injected c;
  ctx_environment := ctx_environment c; ctx_system_properties := ctx_system_properties c; ctx_base_dir := ctx_base_dir c;
  ctx_active_profiles := ctx_active_profiles c; ctx_inactive_profiles := ctx_inactive_profiles c;
  ctx_settings_properties := ctx_settings_properties c; ctx_settings_property_names := ctx_settings_property_names c |}.

(** ** Recording reads *)

(** A record of reads, and whether one of them was of [java.version]. *)
Definition Recorder : Type := list HostInput * bool.

Definition record_read (e : Environment) (i : HostInput) (r : Recorder) : Recorder :=
  if is_java_version i then if target_jdk e then r else (r.1 ++ [i], true)
  else (r.1 ++ [i], r.2).

Definition record_all (e : Environment) (l : list HostInput) (r : Recorder) : Recorder :=
  foldl (fun r i => record_read e i r) r l.

Definition record_java_lookup (e : Environment) (r : Recorder) : Recorder :=
  if target_jdk e then r else (r.1, true).

(** ** Conditions *)

(** [java_regex::full_match]. *)
Class JavaRegex := full_regex_match : str -> option str -> result ActivationError bool.

(** [property_matches]. *)
Definition property_matches (name : str) (value actual : option str) : bool :=
  let reverse_name := (negation name).1 in
  match value with
  | Some expected =>
    let '(reverse_value, expected) := negation expected in
    xorb (bool_decide (actual = Some expected)) reverse_value
  | None => xorb (is_some_and (fun v => negb (bool_decide (v = []))) actual) reverse_name
  end.

(** What [property_active] tests: the value, and the host input it is, if any. *)
Definition property_lookup (c : ActivationContext) (name : str) : option str * option HostInput :=
  let e := ctx_environment c in
  match ctx_properties c !! name with
  | Some value => (Some value, None)
  | None =>
    match get (ctx_settings_properties c) name with
    | Some value => (Some value, None)
    | None =>
      match ctx_system_properties c !! name with
      | Some value => (Some value, None)
      | None =>
        match strip_prefix $"env." name with
        | Some key => (host_env_var e key, if allows_env e key then Some (EnvVar key) else None)
        | None =>
          if decide (name = $"java.version") then (Some (host_java_version e), Some JavaVersion)
          else if decide (name = $"java.home") then (java_home e, Some JavaHome)
          else (context_property c name, None)
        end
      end
    end
  end.

Definition property_active (p : ActivationProperty) (text_from_input name_from_input : bool) (c : ActivationContext)
    : result ActivationError (bool * Recorder) :=
  let e := ctx_environment c in
  let raw_name := default [] (Pom.property_name p) in
  let name := (negation raw_name).2 in
  if bool_decide (name = []) then Err PropertyNameRequired
  else
    let r := if name_from_input then ([], false) else record_read e (UserProperty name) ([], false) in
    let r := if negb name_from_input && bool_decide (name ∈ ctx_settings_property_names c)
                && bool_decide (ctx_properties c !! name = None)
             then record_read e (SettingsProperty name) r else r in
    let '(actual, host_input) := property_lookup c name in
    let value := opt_filter (fun v => negb (bool_decide (v = []))) (property_value p) in
    let r := match host_input with
             | Some input => if name_from_input then r
                             else record_read e (if text_from_input then input else Property raw_name value) r
             | None => r
             end in
    Ok (property_matches raw_name value actual, r).

Section Os.
Context `{Unicode} `{JavaRegex}.

Definition exact_matches (expected : str) (actual : option str) : bool :=
  let '(reverse, test) := negation (to_lowercase expected) in
  is_some_and (fun actual => xorb (bool_decide (actual = test)) reverse) actual.

Definition version_matches (expected : str) (actual : option str) : result ActivationError bool :=
  match strip_prefix $"regex:" expected with
  | Some pattern => full_regex_match pattern actual
  | None => Ok (exact_matches expected actual)
  end.

Definition is_family (family os_name : str) (path_separator : option ascii) : bool :=
  let windows := contains $"windows" os_name in
  let win9x := windows && existsb (fun t => contains t os_name) [$"95"; $"98"; $"me"; $"ce"] in
  let mac := contains $"mac" os_name || contains $"darwin" os_name in
  if decide (family = $"windows") then windows
  else if decide (family = $"win9x") then win9x
  else if decide (family = $"winnt") then windows && negb win9x
  else if decide (family = $"dos") then
    bool_decide (path_separator = Some ";"%char) && negb (contains $"netware" os_name) && negb windows
  else if decide (family = $"mac") then mac
  else if decide (family = $"tandem") then contains $"nonstop_kernel" os_name
  else if decide (family = $"unix") then
    bool_decide (path_separator = Some ":"%char) && negb (contains $"openvms" os_name)
    && (negb mac || ends_with_char (one_of ["x"]%char) os_name)
  else if decide (family = $"z/os") then contains $"z/os" os_name || contains $"os/390" os_name
  else contains family os_name.

Definition family_matches (expected : str) (os_name : option str) (path_separator : option ascii) : bool :=
  let '(reverse, test) := negation (to_lowercase expected) in
  is_some_and (fun os_name => xorb (is_family test os_name path_separator) reverse) os_name.

(** A condition of [os] tested while the ones before it hold. *)
Definition os_active (os : ActivationOs) (c : ActivationContext) : result ActivationError (bool * Recorder) :=
  let e := ctx_environment c in
  let actual key := to_lowercase <$> user_or_system_property c key in
  let active := bool_decide (is_Some (os_family_test os)) || bool_decide (is_Some (os_name_test os))
                || bool_decide (is_Some (os_arch_test os)) || bool_decide (is_Some (os_version_test os)) in
  let r := record_read e (UserProperty $"os.name") ([], false) in
  let name := actual $"os.name" in
  let active := match os_family_test os with
                | Some family => if active then family_matches family name (path_separator e) else active
                | None => active end in
  let active := match os_name_test os with
                | Some expected => if active then exact_matches expected name else active
                | None => active end in
  let '(active, r) := match os_arch_test os with
                      | Some expected =>
                        if active then (exact_matches expected (actual $"os.arch"), record_read e (UserProperty $"os.arch") r)
                        else (active, r)
                      | None => (active, r) end in
  match os_version_test os with
  | Some expected =>
    if active then
      active ← version_matches expected (actual $"os.version");
      Ok (active, record_read e (UserProperty $"os.version") r)
    else Ok (active, r)
  | None => Ok (active, r)
  end.
End Os.

(** *** [jdk] *)

(** [str::split] at any of some characters, and Java's, which drops the empty texts at
    the end. *)
Fixpoint split_any (p : ascii -> bool) (s : str) : list str :=
  match s with
  | [] => [[]]
  | c :: s =>
    match split_any p s with
    | part :: parts => if p c then [] :: part :: parts else (c :: part) :: parts
    | [] => []
    end
  end.

Fixpoint drop_empty_end (l : list str) : list str :=
  match l with
  | [] => []
  | s :: l =>
    match drop_empty_end l with
    | [] => if bool_decide (s = []) then [] else [s]
    | l => s :: l
    end
  end.

Definition java_split (p : ascii -> bool) (value : str) : list str :=
  if bool_decide (value = []) then split_any p value else drop_empty_end (split_any p value).

(** [i32::from_str]. *)
Fixpoint digits_value (acc : Z) (s : str) : option Z :=
  match s with
  | [] => Some acc
  | c :: s => if is_digit c then digits_value (10 * acc + Z.of_N (digit_value c)) s else None
  end.

Definition parse_i32 (s : str) : option Z :=
  let '(negative, digits) :=
    match s with
    | "-"%char :: s => (true, s)
    | "+"%char :: s => (false, s)
    | _ => (false, s)
    end in
  if bool_decide (digits = []) then None
  else
    n ← digits_value 0 digits;
    let n := if (negative : bool) then (- n)%Z else n in
    if ((- 2 ^ 31 <=? n) && (n <? 2 ^ 31))%Z then Some n else None.

Record JdkBound := { bound_value : str; bound_closed : bool }.

Fixpoint relate_parts (n : nat) (actual bound : list str) : option comparison :=
  match n with
  | O => Some Eq
  | S n =>
    a ← parse_i32 (default $"0" (head actual));
    b ← parse_i32 (default $"0" (head bound));
    match Z.compare a b with
    | Eq => relate_parts n (tail actual) (tail bound)
    | order => Some order
    end
  end.

Definition jdk_relation (actual : str) (bound : JdkBound) (is_left : bool) : option comparison :=
  if bool_decide (bound_value bound = []) then Some (if is_left then Gt else Lt)
  else
    let cleaned := List.filter (fun c => is_digit c || one_of ["."; "-"; "_"]%char c) actual in
    order ← relate_parts 3 (java_split (one_of ["."; "-"; "_"]%char) cleaned) (java_split (one_of ["."]%char) (bound_value bound));
    match order with
    | Eq => Some (if bound_closed bound then Eq else if is_left then Lt else Gt)
    | order => Some order
    end.

Definition without (c : ascii) (s : str) : str := List.filter (fun b => negb (bool_decide (b = c))) s.

Definition jdk_bound (token : str) : option JdkBound :=
  let bound value closed := Some {| bound_value := trim value; bound_closed := closed |} in
  if starts_with $"[" token then bound (without "["%char token) true
  else if starts_with $"(" token then bound (without "("%char token) false
  else if ends_with $"]" token then bound (without "]"%char token) true
  else if ends_with $")" token then bound (without ")"%char token) false
  else if bool_decide (token = []) then bound [] false
  else None.

Definition jdk_in_range (range actual : str) : option bool :=
  let bounds := omap jdk_bound (java_split (one_of [","]%char) range) in
  let bounds := if (length bounds <? 2)%nat then bounds ++ [{| bound_value := $"99999999"; bound_closed := false |}] else bounds in
  left ← head bounds;
  order ← jdk_relation actual left true;
  match order with
  | Eq => Some true
  | Lt => Some false
  | Gt =>
    right ← bounds !! 1;
    order ← jdk_relation actual right false;
    Some (negb (bool_decide (order = Gt)))
  end.

Definition jdk_matches (req found : str) : bool :=
  let found := trim found in
  match strip_prefix $"!" req with
  | Some negated => negb (starts_with negated found)
  | None =>
    if starts_with $"[" req || starts_with $"(" req then default false (jdk_in_range req found)
    else starts_with req found
  end.

Definition jdk_active (jdk : str) (text_from_host : bool) (c : ActivationContext) : bool * Recorder :=
  let e := ctx_environment c in
  let r := record_read e (UserProperty $"java.version") ([], false) in
  let found := match ctx_properties c !! $"java.version" with
               | Some v => Some v
               | None => ctx_system_properties c !! $"java.version" end in
  match found with
  | Some found => (negb (bool_decide (found = [])) && jdk_matches jdk found, r)
  | None =>
    if bool_decide (jdk = []) then (true, r)
    else (jdk_matches jdk (host_java_version e), record_read e (if text_from_host then JavaVersion else Jdk jdk) r)
  end.

(** *** [file] *)

Definition is_slash (c : ascii) : bool := one_of ["/"]%char c.

(** The separators at the end that [java.io.File] drops; a root keeps its own. *)
Fixpoint trim_separators (reversed : str) : str :=
  match reversed with
  | c :: rest => if is_slash c && negb (forallb is_slash rest) then trim_separators rest else reversed
  | [] => []
  end.

Definition without_trailing_separator (path : str) : str := reverse (trim_separators (reverse path)).

Definition is_absolute (path : str) : bool := starts_with $"/" path.

Definition file_active (file : ActivationFile) (path_from_host : bool) (c : ActivationContext) (files : str -> bool)
    : bool * Recorder :=
  let non_empty := opt_filter (fun v => negb (bool_decide (v = []))) in
  match match non_empty (file_exists file), non_empty (file_missing file) with
        | Some path, _ => Some (path, false)
        | None, Some path => Some (path, true)
        | None, None => None
        end with
  | None => (false, ([], false))
  | Some (path, missing) =>
    let path := without_trailing_separator path in
    let path := match ctx_base_dir c with
                | Some base => if is_absolute path then path else join_path base path
                | None => path end in
    if negb (is_absolute path) then (false, ([], false))
    else (xorb (files path) missing,
          if path_from_host then ([], false) else record_read (ctx_environment c) (File path) ([], false))
  end.

(** ** One activation *)

Section Active.
Context `{Unicode} `{JavaRegex} (files : str -> bool).

(** The [test] of [explicit_conditions_active]: a condition counts its reads only while
    the conditions before it hold. *)
Definition test_condition (c : ActivationContext) (interpolation : list HostInput) (java : bool)
    (condition : result ActivationError (bool * Recorder)) (st : bool * Recorder) : result ActivationError (bool * Recorder) :=
  let '(active, r) := st in
  '(holds, reads) ← condition;
  let e := ctx_environment c in
  let r := if active then
             let r := record_all e (reads.1 ++ interpolation) r in
             if java then record_java_lookup e r else r
           else r in
  Ok (active && holds, r).

(** A condition that the block holds. *)
Definition if_present {A} (condition : option A) (test : A -> bool * Recorder -> result ActivationError (bool * Recorder))
    (st : bool * Recorder) : result ActivationError (bool * Recorder) :=
  match condition with Some x => test x st | None => Ok st end.

Definition test_conditions (a : Activation) (c : ActivationContext) : result ActivationError (bool * Recorder) :=
  let reads := interpolation_reads a in
  st ← if_present (on_os a) (fun os => test_condition c (reads_os reads) (java_os reads) (os_active os c)) (true, ([], false));
  st ← if_present (on_file a)
         (fun file => test_condition c (reads_file reads) (java_file reads) (Ok (file_active file (path_from_host a) c files))) st;
  st ← if_present (on_jdk a) (fun jdk => test_condition c (reads_jdk reads) (java_jdk reads) (Ok (jdk_active jdk (jdk_from_input a) c))) st;
  if_present (on_property a)
    (fun p => test_condition c (reads_property reads) (java_property reads)
                (property_active p (property_from_input a) (property_name_from_input a) c)) st.

Definition explicit_conditions_active (a : Activation) (c : ActivationContext) : result ActivationError (bool * Recorder) :=
  match on_property a, on_os a, on_jdk a, on_file a with
  | None, None, None, None => Ok (false, ([], false))
  | _, _, _, _ => test_conditions a c
  end.

(** ** The profiles of a POM *)

Record ProfileSelection := {
  active : list nat;
  selection_reads : list (list HostInput);
  selection_java : list bool;
}.

Definition is_active_by_default (p : Profile.t) : bool := is_some_and active_by_default (Profile.activation p).

(** The step of the loop of [select_profiles]: what was activated, the defaults, and the
    reads of each profile. *)
Record Selecting := { activated : list nat; defaults : list nat; so_far : list Recorder }.

Definition select_step (c : ActivationContext) (st : Selecting) (profile : Profile.t) : result (ActivationError * str) Selecting :=
  let index := length (so_far st) in
  let id := Profile.id profile in
  if bool_decide (id ∈ ctx_inactive_profiles c) then
    Ok {| activated := activated st; defaults := defaults st; so_far := so_far st ++ [([], false)] |}
  else
    let outcome : result (ActivationError * str) (bool * Recorder) :=
      if bool_decide (id ∈ ctx_active_profiles c) then Ok (true, ([], false))
      else match Profile.activation profile with
           | Some a => map_err (fun error => (error, id)) (explicit_conditions_active a c)
           | None => Ok (false, ([], false))
           end in
    '(selected, r) ← outcome;
    Ok {| activated := if (selected : bool) then activated st ++ [index] else activated st;
          defaults := if negb selected && is_active_by_default profile then defaults st ++ [index] else defaults st;
          so_far := so_far st ++ [r] |}.

Fixpoint select_loop (c : ActivationContext) (st : Selecting) (profiles : list Profile.t) : result (ActivationError * str) Selecting :=
  match profiles with
  | [] => Ok st
  | profile :: profiles => st ← select_step c st profile; select_loop c st profiles
  end.

Definition select_profiles (profiles : list Profile.t) (c : ActivationContext) : result (ActivationError * str) ProfileSelection :=
  st ← select_loop c {| activated := []; defaults := []; so_far := [] |} profiles;
  Ok {| active := if bool_decide (activated st = []) then defaults st else activated st;
        selection_reads := map fst (so_far st); selection_java := map snd (so_far st) |}.

(** [host_decides]. *)
Definition host_decides (s : ProfileSelection) (profiles : list Profile.t) (index : nat) : bool :=
  let reads_host := existsb is_host_read in
  from_option reads_host false (selection_reads s !! index)
  || (from_option is_active_by_default false (profiles !! index) && existsb reads_host (selection_reads s)).
End Active.

(** ** What a snapshot answers for a recorded input ([HostSnapshot::value] and [holds]) *)

Record Snapshot := { snapshot_environment : Environment; snapshot_files : str -> bool }.

Definition snapshot_value (s : Snapshot) (i : HostInput) : option str :=
  let e := snapshot_environment s in
  match i with
  | JavaVersion => Some (host_java_version e)
  | JavaHome => java_home e
  | EnvVar name => if decide (name ∈ allowed e) then env e !! name else None
  | OsRelease =>
    (fun r => release_id r ++ [newline] ++ default [] (release_version r) ++ [newline] ++ join $" " (release_like r)) <$> linux_release e
  | _ => None
  end.

Definition snapshot_holds (s : Snapshot) (i : HostInput) : option bool :=
  match i with
  | Jdk spec => Some (jdk_matches spec (default [] (snapshot_value s JavaVersion)))
  | Property name value =>
    let tested := (negation name).2 in
    let actual :=
      if decide (tested = $"java.version") then snapshot_value s JavaVersion
      else if decide (tested = $"java.home") then snapshot_value s JavaHome
      else strip_prefix $"env." tested ≫= (fun variable => snapshot_value s (EnvVar variable)) in
    Some (property_matches name value actual)
  | File path => Some (snapshot_files s path)
  | _ => None
  end.

(** * Theorems on profile activation

    The reads a selection records decide it: on another host that answers them alike,
    the same profiles are active. *)

(** The same build on another host: other values of the host, for the same target. *)
Definition on_host (c : ActivationContext) (e : Environment) : ActivationContext := {|
  ctx_source := ctx_source c; ctx_properties := ctx_properties c; ctx_default_packaging := ctx_default_packaging c;
  ctx_packaging_injected := ctx_packaging_injected c; ctx_environment := e;
  ctx_system_properties := ctx_system_properties c; ctx_base_dir := ctx_base_dir c;
  ctx_active_profiles := ctx_active_profiles c; ctx_inactive_profiles := ctx_inactive_profiles c;
  ctx_settings_properties := ctx_settings_properties c; ctx_settings_property_names := ctx_settings_property_names c |}.

Record same_target (e e' : Environment) : Prop := {
  target_platform : platform e' = platform e;
  target_fixed : target_jdk e' = target_jdk e;
  target_version : target_jdk e = true -> java_version e' = java_version e;
  target_allowed : allowed e' = allowed e;
  target_no_all : allow_all_env e = false /\ allow_all_env e' = false }.

(** Two hosts answer an input alike. *)
Definition answers_alike (s s' : Snapshot) (i : HostInput) : Prop :=
  snapshot_value s' i = snapshot_value s i /\ snapshot_holds s' i = snapshot_holds s i.

(** Reduces the fields of contexts and the answers, and no text. *)
Ltac host_cbn := cbn [on_host ctx_source ctx_properties ctx_environment ctx_system_properties ctx_base_dir
  ctx_settings_properties ctx_settings_property_names snapshot_value snapshot_holds snapshot_environment snapshot_files
  fst snd default from_option id mbind option_bind negb andb orb] in *.

Section Hosts.
Context `{Unicode} `{JavaRegex} (c : ActivationContext) (files files' : str -> bool) (e' : Environment).
Abbreviation e := (ctx_environment c).
Abbreviation c' := (on_host c e').
Abbreviation s := {| snapshot_environment := e; snapshot_files := files |}.
Abbreviation s' := {| snapshot_environment := e'; snapshot_files := files' |}.
Context (Htarget : same_target e e').
Abbreviation alike := (answers_alike s s').

Lemma target_alike i : target_jdk e = true -> is_java_version i = true -> alike i.
Proof.
  intros Ht Hi. pose proof (target_version _ _ Htarget Ht) as Hv.
  assert (host_java_version e' = host_java_version e) as E by (unfold host_java_version; by rewrite Hv).
  unfold answers_alike. destruct i; try done; host_cbn; rewrite ?E; try done.
  cbn [is_java_version] in Hi.
  split; [done|]. apply bool_decide_eq_true_1 in Hi. by rewrite !decide_True.
Qed.

Lemma record_read_same i r : record_read e' i r = record_read e i r.
Proof. unfold record_read. by rewrite (target_fixed _ _ Htarget). Qed.

Lemma record_all_same l r : record_all e' l r = record_all e l r.
Proof.
  unfold record_all. revert r. induction l as [|i l IH]; intros r; [done|]. cbn. by rewrite IH, record_read_same.
Qed.

Lemma record_read_all i r j : j ∈ (record_read e i r).1 -> j ∈ r.1 \/ j = i.
Proof. unfold record_read. destruct (is_java_version i), (target_jdk e); cbn; set_solver. Qed.

Lemma record_all_sub l r : r.1 ⊆ (record_all e l r).1.
Proof.
  unfold record_all. revert r. induction l as [|i l IH]; intros r; cbn; [done|]. etrans; [|apply IH].
  unfold record_read. destruct (is_java_version i), (target_jdk e); cbn; set_solver.
Qed.

(** What is recorded is alike; what is left out is a version that is fixed. *)
Lemma record_all_alike l r : (forall i, i ∈ (record_all e l r).1 -> alike i) -> forall i, i ∈ l -> alike i.
Proof.
  unfold record_all. revert r. induction l as [|i l IH]; intros r Hall j Hj; [by apply elem_of_nil in Hj|].
  cbn in Hall. apply elem_of_cons in Hj as [->|Hj]; [|by apply (IH _ Hall)].
  pose proof (record_all_sub l (record_read e i r)) as Hsub. unfold record_all in Hsub.
  unfold record_read in Hall, Hsub. destruct (is_java_version i) eqn:Ej.
  - destruct (target_jdk e) eqn:Et; [by apply target_alike|]. apply Hall, Hsub. cbn. set_solver.
  - apply Hall, Hsub. cbn. set_solver.
Qed.

Lemma record_read_alike i r : (forall j, j ∈ (record_read e i r).1 -> alike j) -> alike i.
Proof. intros Hall. apply (record_all_alike [i] r); [done|]. apply list_elem_of_singleton. done. Qed.

(** ** The conditions *)

Lemma system_property_same name :
  name <> $"java.version" -> name <> $"java.home" -> system_property c' name = system_property c name.
Proof.
  intros Hv Hh. unfold system_property. host_cbn. destruct (ctx_system_properties c !! name); [done|].
  unfold os_name, os_arch. rewrite (target_platform _ _ Htarget).
  destruct (decide (name = $"os.name")); [done|]. destruct (decide (name = $"os.arch")); [done|].
  by rewrite !(decide_False (P := name = $"java.version")), !(decide_False (P := name = $"java.home")).
Qed.

Lemma os_active_same os : os_active os c' = os_active os c.
Proof.
  unfold os_active, user_or_system_property, path_separator. cbn [ctx_environment on_host ctx_properties].
  rewrite !system_property_same, !record_read_same, (target_platform _ _ Htarget) by done. done.
Qed.

(** The path a file condition tests. *)
Definition tested_path (file : ActivationFile) : option str :=
  let non_empty := opt_filter (fun v => negb (bool_decide (v = []))) in
  path ← match non_empty (file_exists file) with Some path => Some path | None => non_empty (file_missing file) end;
  let path := without_trailing_separator path in
  let path := match ctx_base_dir c with
              | Some base => if is_absolute path then path else join_path base path
              | None => path end in
  if is_absolute path then Some path else None.

Lemma file_active_same file from_host :
  (from_host = true -> forall path, tested_path file = Some path -> files' path = files path) ->
  (forall i, i ∈ (file_active file from_host c files).2.1 -> alike i) ->
  file_active file from_host c' files' = file_active file from_host c files.
Proof.
  intros Hhost Hall. unfold file_active, tested_path in *. cbn [ctx_environment on_host ctx_base_dir].
  destruct (opt_filter _ (file_exists file)) as [path|]; [|destruct (opt_filter _ (file_missing file)) as [path|]; [|done]].
  all: cbn [mbind option_bind] in Hhost; set (full := match ctx_base_dir c with Some _ => _ | None => _ end) in *.
  all: destruct (is_absolute full); cbn [negb] in *; [|done].
  all: destruct from_host; [by rewrite (Hhost eq_refl full)|].
  all: cbn [snd] in Hall; pose proof (record_read_alike _ _ Hall) as [_ Hf]; cbn in Hf; simplify_eq; rewrite Hf.
  all: by rewrite record_read_same.
Qed.

Lemma jdk_active_same jdk from_input :
  (forall i, i ∈ (jdk_active jdk from_input c).2.1 -> alike i) -> jdk_active jdk from_input c' = jdk_active jdk from_input c.
Proof.
  intros Hall. unfold jdk_active in *. cbn [ctx_environment on_host ctx_properties ctx_system_properties].
  destruct (match ctx_properties c !! $"java.version" with Some v => Some v | None => ctx_system_properties c !! $"java.version" end);
    [by rewrite record_read_same|].
  destruct (bool_decide (jdk = [])); [by rewrite record_read_same|]. cbn [snd] in Hall.
  pose proof (record_read_alike _ _ Hall) as [Hval Hholds]. rewrite !record_read_same. f_equal.
  destruct from_input; cbn in *; congruence.
Qed.

Lemma property_lookup_same (p : ActivationProperty) (text : bool) :
  let raw := default [] (Pom.property_name p) in
  let name := (negation raw).2 in
  let value := opt_filter (fun v => negb (bool_decide (v = []))) (property_value p) in
  (property_lookup c' name).2 = (property_lookup c name).2 /\
  ((forall input, (property_lookup c name).2 = Some input -> alike (if text then input else Property raw value)) ->
   property_matches raw value (property_lookup c' name).1 = property_matches raw value (property_lookup c name).1).
Proof.
  intros raw name value. unfold property_lookup. cbn [ctx_environment on_host ctx_properties ctx_system_properties ctx_settings_properties].
  destruct (ctx_properties c !! name); [done|]. destruct (get (ctx_settings_properties c) name); [done|].
  destruct (ctx_system_properties c !! name) eqn:Esys; [done|].
  destruct (target_no_all _ _ Htarget) as [Ha Ha'].
  destruct (strip_prefix $"env." name) as [key|] eqn:Ename.
  - assert (name <> $"java.version" /\ name <> $"java.home") as [Hv Hh] by (split; intros E; by rewrite E in Ename).
    unfold host_env_var, allows_env. rewrite Ha, Ha', (target_allowed _ _ Htarget). host_cbn.
    destruct (bool_decide (key ∈ allowed e)) eqn:Ek; [|done]. apply bool_decide_eq_true_1 in Ek. split; [done|]. host_cbn.
    intros Hin. destruct (Hin _ eq_refl) as [Hval Hholds]. destruct text; host_cbn.
    + rewrite (target_allowed _ _ Htarget), !decide_True in Hval by done. by rewrite Hval.
    + fold name in Hholds. rewrite Ename, !(decide_False (P := name = $"java.version")), !(decide_False (P := name = $"java.home")) in Hholds by done. host_cbn.
      rewrite (target_allowed _ _ Htarget), !decide_True in Hholds by done. by simplify_eq.
  - destruct (decide (name = $"java.version")) as [Ev|Hv]; host_cbn.
    + split; [done|]. intros Hin. destruct (Hin _ eq_refl) as [Hval Hholds]. destruct text; host_cbn; [by simplify_eq; rewrite Hval|].
      fold name in Hholds. rewrite !decide_True in Hholds by done. by simplify_eq.
    + destruct (decide (name = $"java.home")) as [Eh|Hh]; host_cbn.
      * split; [done|]. intros Hin. destruct (Hin _ eq_refl) as [Hval Hholds]. destruct text; host_cbn; [by rewrite Hval|].
        fold name in Hholds. rewrite !(decide_False (P := name = $"java.version")), !(decide_True (P := name = $"java.home")) in Hholds by done.
        by simplify_eq.
      * split; [done|]. intros _. unfold context_property. host_cbn. by rewrite system_property_same.
Qed.

Lemma property_active_same p text from_input r :
  (from_input = true -> (property_lookup c' (negation (default [] (Pom.property_name p))).2).1
                        = (property_lookup c (negation (default [] (Pom.property_name p))).2).1) ->
  property_active p text from_input c = Ok r -> (forall i, i ∈ r.2.1 -> alike i) -> property_active p text from_input c' = Ok r.
Proof.
  intros Hinput. unfold property_active. cbn [ctx_environment on_host ctx_properties ctx_settings_property_names].
  destruct (property_lookup_same p text) as [Hh Hm]. cbn zeta in Hh, Hm.
  set (raw := default [] (Pom.property_name p)) in *. destruct (bool_decide (_ = [])); [done|].
  set (name := (negation raw).2) in *. set (value := opt_filter _ (property_value p)) in *.
  rewrite !record_read_same.
  destruct (property_lookup c name) as [actual input] eqn:El, (property_lookup c' name) as [actual' input'] eqn:El'.
  cbn in Hh, Hm, Hinput. subst input'.
  set (r0 := if _ && _ && _ then _ else _). intros [= <-] Hall. cbn [snd] in Hall.
  assert (match input with Some i => if from_input then r0 else record_read e' (if text then i else Property raw value) r0 | None => r0 end
          = match input with Some i => if from_input then r0 else record_read e (if text then i else Property raw value) r0 | None => r0 end) as ->.
  { destruct input; [|done]. destruct from_input; [done|]. apply record_read_same. }
  do 2 f_equal. destruct from_input; [by rewrite Hinput|]. apply Hm. intros i ->. by apply record_read_alike in Hall.
Qed.

(** ** One activation, and a selection *)

Lemma test_condition_same l j cond cond' st st' :
  (forall o, cond = Ok o -> st.1 = true -> (forall i, i ∈ o.2.1 -> alike i) -> cond' = Ok o) ->
  (forall o, cond = Ok o -> exists o', cond' = Ok o') ->
  test_condition c l j cond st = Ok st' -> (forall i, i ∈ st'.2.1 -> alike i) -> test_condition c' l j cond' st = Ok st'.
Proof.
  intros Hsame Hok. unfold test_condition. destruct st as [active r]. cbn [fst] in Hsame.
  intros E Hall. apply bind_Ok in E as ([holds reads] & Ec & E). cbn in E. injection E as <-. cbn [ctx_environment on_host snd] in *.
  destruct active.
  - rewrite (Hsame _ Ec eq_refl); cbn.
    + unfold record_java_lookup. by rewrite record_all_same, (target_fixed _ _ Htarget).
    + intros i Hi. apply (record_all_alike (reads.1 ++ l) r); [|set_solver]. intros i' Hi'. apply Hall.
      destruct j; [|done]. unfold record_java_lookup. by destruct (target_jdk e).
  - by destruct (Hok _ Ec) as [[holds' reads'] ->].
Qed.

Lemma test_condition_keeps l j cond st st' : test_condition c l j cond st = Ok st' -> st.2.1 ⊆ st'.2.1.
Proof.
  unfold test_condition. destruct st as [active r]. intros E. apply bind_Ok in E as ([holds reads] & _ & E). cbn in E.
  injection E as <-. cbn. destruct active; [|done]. etrans; [apply record_all_sub|].
  destruct j; [|done]. unfold record_java_lookup. by destruct (target_jdk e).
Qed.

(** The tests that are not recorded as inputs a snapshot answers: a condition whose path
    was expanded from host values, or whose property name was expanded from the user's
    values, is recorded by its unexpanded expression as a lookup ([FileLookup],
    [UserPropertyLookup]), for which [HostSnapshot] has no answer. The two hosts agree on
    them when the file or the property the condition names answers alike on both. *)
Definition lookups_alike (a : Activation) : Prop :=
  (forall file path, on_file a = Some file -> path_from_host a = true -> tested_path file = Some path -> files' path = files path) /\
  (forall p, on_property a = Some p -> property_name_from_input a = true ->
     (property_lookup c' (negation (default [] (Pom.property_name p))).2).1
     = (property_lookup c (negation (default [] (Pom.property_name p))).2).1).

Lemma property_active_ok p text from_input o :
  property_active p text from_input c = Ok o -> exists o', property_active p text from_input c' = Ok o'.
Proof.
  unfold property_active. destruct (bool_decide (_ = [])); [done|]. intros _.
  destruct (property_lookup c' _) as [actual input]. eauto.
Qed.

(** A condition tested on both hosts, from what it was before. *)
Lemma if_present_same {A} (o : option A) l j (cond cond' : A -> result ActivationError (bool * Recorder)) st st' :
  (forall x, o = Some x -> forall r, cond x = Ok r -> (forall i, i ∈ r.2.1 -> alike i) -> cond' x = Ok r) ->
  (forall x, o = Some x -> forall r, cond x = Ok r -> exists r', cond' x = Ok r') ->
  if_present o (fun x => test_condition c l j (cond x)) st = Ok st' ->
  st.2.1 ⊆ st'.2.1 /\
  ((forall i, i ∈ st'.2.1 -> alike i) -> if_present o (fun x => test_condition c' l j (cond' x)) st = Ok st').
Proof.
  destruct o as [x|]; cbn; intros Hsame Hok E; [|by simplify_eq].
  split; [by eapply test_condition_keeps|]. eapply test_condition_same; [| |done].
  - intros r Er _. by apply (Hsame x).
  - intros r. by apply (Hok x).
Qed.

Lemma conditions_same a st :
  lookups_alike a -> explicit_conditions_active files a c = Ok st -> (forall i, i ∈ st.2.1 -> alike i) ->
  explicit_conditions_active files' a c' = Ok st.
Proof.
  intros [Hfile Hprop] E Hall. unfold explicit_conditions_active in *.
  enough (test_conditions files a c = Ok st -> test_conditions files' a c' = Ok st) as Htest.
  { destruct (on_property a), (on_os a), (on_jdk a), (on_file a); first [done | by apply Htest]. }
  clear E. unfold test_conditions. intros E. apply bind_Ok in E as (st0 & E0 & E). apply bind_Ok in E as (st1 & E1 & E).
  apply bind_Ok in E as (st2 & E2 & E3).
  apply (if_present_same _ _ _ _ (fun os => os_active os c')) in E0 as [_ E0]; [|by intros os _ r; rewrite os_active_same|].
  2:{ intros os _ r. rewrite os_active_same. eauto. }
  apply (if_present_same _ _ _ _ (fun file => Ok (file_active file (path_from_host a) c' files'))) in E1 as [S1 E1]; [| |by eauto].
  2:{ intros file Ef r [= <-] Ho. f_equal. apply file_active_same; [|done]. intros Hp path. by apply (Hfile file). }
  apply (if_present_same _ _ _ _ (fun jdk => Ok (jdk_active jdk (jdk_from_input a) c'))) in E2 as [S2 E2]; [| |by eauto].
  2:{ intros jdk _ r [= <-] Ho. f_equal. by apply jdk_active_same. }
  apply (if_present_same _ _ _ _ (fun p => property_active p (property_from_input a) (property_name_from_input a) c')) in E3 as [S3 E3].
  2:{ intros p Ep r Er Ho. apply property_active_same; [|done..]. by apply Hprop. }
  2:{ intros p _ r Er. by apply property_active_ok in Er. }
  rewrite E0 by set_solver. cbn. rewrite E1 by set_solver. cbn. rewrite E2 by set_solver. cbn. by apply E3.
Qed.

Lemma select_loop_keeps profiles st st' :
  select_loop files c st profiles = Ok st' -> exists l, so_far st' = so_far st ++ l.
Proof.
  revert st. induction profiles as [|p profiles IH]; intros st E; cbn in E; [simplify_eq; exists []; by rewrite app_nil_r|].
  apply bind_Ok in E as (st1 & E1 & E). apply IH in E as [l ->]. unfold select_step in E1.
  destruct (bool_decide _); [simplify_eq; cbn; rewrite <-app_assoc; eauto|].
  apply bind_Ok in E1 as ([selected r] & _ & E1). simplify_eq. cbn. rewrite <-app_assoc. eauto.
Qed.

Lemma select_loop_same profiles st st' :
  (forall p a, p ∈ profiles -> Profile.activation p = Some a -> lookups_alike a) ->
  select_loop files c st profiles = Ok st' -> (forall r i, r ∈ so_far st' -> i ∈ r.1 -> alike i) ->
  select_loop files' c' st profiles = Ok st'.
Proof.
  revert st. induction profiles as [|p profiles IH]; intros st Hlook E Hall; [done|]. cbn in *.
  apply bind_Ok in E as (st1 & E1 & E).
  assert (select_step files' c' st p = Ok st1) as ->; [|cbn; apply IH; [|done..]; intros; eapply Hlook; [by right|done]].
  apply select_loop_keeps in E as [l El]. unfold select_step in *. cbn [on_host ctx_inactive_profiles ctx_active_profiles].
  destruct (bool_decide (_ ∈ ctx_inactive_profiles c)); [done|].
  destruct (bool_decide (_ ∈ ctx_active_profiles c)); [done|]. destruct (Profile.activation p) as [a|] eqn:Ea; [|done].
  apply bind_Ok in E1 as ([selected r] & Er & E1). apply map_err_Ok in Er.
  rewrite (conditions_same a (selected, r)); [done|by apply (Hlook p); [left|]|done|].
  intros i Hi. apply (Hall r i); [|done]. rewrite El. simplify_eq. cbn. set_solver.
Qed.

End Hosts.

(** C12: The reads recorded while the profiles of a POM are selected decide the selection,
    given two things about the other host. It has the same target: the platform, a fixed
    Java version, the variables allowed, and no leave to read every variable (which only
    the profiles of [settings.xml] have). And the tests recorded as lookups only, those of
    a condition whose path or property name was itself expanded from host or user values,
    answer alike on it ([lookups_alike]; it asks nothing of a condition without such
    expansion). Then, where the host answers every other recorded input alike, as the
    snapshot's [value] and [holds] answer it, the same profiles are active and the same
    reads are recorded. *)
Theorem recorded_reads_decide `{Unicode} `{JavaRegex} c files files' e' profiles selection :
  same_target (ctx_environment c) e' ->
  (forall p a, p ∈ profiles -> Profile.activation p = Some a -> lookups_alike c files files' e' a) ->
  select_profiles files profiles c = Ok selection ->
  (forall reads i, reads ∈ selection_reads selection -> i ∈ reads ->
     answers_alike {| snapshot_environment := ctx_environment c; snapshot_files := files |}
                   {| snapshot_environment := e'; snapshot_files := files' |} i) ->
  select_profiles files' profiles (on_host c e') = Ok selection.
Proof.
  intros Ht Hlook E Hall. unfold select_profiles in *. apply bind_Ok in E as (st & El & E). simplify_eq. cbn in Hall.
  rewrite (select_loop_same c files files' e' Ht profiles _ st); [done|done|done|].
  intros r i Hr Hi. apply (Hall r.1 i); [|done]. by apply list_elem_of_fmap_2.
Qed.
