(* ===== verification/Relevance.v ===== *)
(** * Which profiles can change a resolution ([rv-maven-model/src/relevance.rs])

    The property names that a resolution may read, found by a worklist over every
    definition a lineage can give a name, and the profiles that can change what is read.
    Maps and sets of the code are [gmap] and [gset]; the worklist is a stack. *)

From Stdlib Require Import Ascii String Lia.
From stdpp Require Import base list strings gmap.
From S2P Require Import Prelude Iter Str Component Dependency Environment Interpolate Pom Activation.

#[local] Set Warnings "-clear-no-such-hyp".

Definition LIKES : str := $"os.detection.classifierWithLikes".

Definition holds_expression (text : str) : bool := contains $"${" text.

Inductive LineageRole := RoleProject | RoleDependency | RoleImport.

#[export] Instance lineage_role_eq_dec : EqDecision LineageRole.
Proof. solve_decision. Defined.

Record ResolutionKeys := {
  key_names : gset str;
  key_dynamic : bool;
  key_role : LineageRole;
  key_reaching : gmap str (gset str);
  key_all_reach : bool;
}.

Definition new_keys (role : LineageRole) : ResolutionKeys :=
  {| key_names := ∅; key_dynamic := false; key_role := role; key_reaching := ∅; key_all_reach := true |}.

Definition with_names (n : gset str) (k : ResolutionKeys) : ResolutionKeys :=
  {| key_names := n; key_dynamic := key_dynamic k; key_role := key_role k; key_reaching := key_reaching k; key_all_reach := key_all_reach k |}.

Definition as_dynamic (k : ResolutionKeys) : ResolutionKeys :=
  {| key_names := key_names k; key_dynamic := true; key_role := key_role k; key_reaching := key_reaching k; key_all_reach := key_all_reach k |}.

Definition with_reaching (r : gmap str (gset str)) (all : bool) (k : ResolutionKeys) : ResolutionKeys :=
  {| key_names := key_names k; key_dynamic := key_dynamic k; key_role := key_role k; key_reaching := r; key_all_reach := all |}.

(** ** Names a text reads *)

(** The keys and the names still to follow. *)
Definition Reading : Type := ResolutionKeys * list str.

Definition add_name (st : Reading) (name : str) : Reading :=
  if decide (name ∈ key_names st.1) then st else (with_names ({[name]} ∪ key_names st.1) st.1, st.2 ++ [name]).

(** The property a [project.properties.] or [pom.properties.] name reads. *)
Definition properties_alias (name : str) : option str :=
  match strip_prefix $"project.properties." name with
  | Some key => Some key
  | None => strip_prefix $"pom.properties." name
  end.

Definition read_name (st : Reading) (name : str) : Reading :=
  if holds_expression name then (as_dynamic st.1, st.2)
  else
    let st := add_name st name in
    match properties_alias name with Some key => add_name st key | None => st end.

(** [ResolutionKeys::read]. *)
Definition read_text (st : Reading) (text : str) : Reading := foldl read_name st (expression_names text).

Definition read_texts (st : Reading) (texts : list str) : Reading := foldl read_text st texts.

(** ** Declarations *)

(** [may_be_invalid] and [left_out]. *)
Definition may_be_invalid (d : Dependency) : bool :=
  let invalid_id id := negb (holds_expression id) && (bool_decide (id = []) || negb (is_maven_id_text id)) in
  bool_decide (is_Some (system_path d))
  || is_some_and (fun scope => eq_ignore_ascii_case (trim scope) $"system") (scope d)
  || invalid_id (group_id d) || invalid_id (artifact_id d).

Definition left_out (d : Dependency) : bool :=
  if may_be_invalid d
     || is_none_or (fun version => bool_decide (trim version = [])) (version d)
     || is_some_and (fun type_ => bool_decide (trim type_ = [])) (type_ d)
  then false
  else
    bool_decide (scope d ≫= (fun scope => scope_from_str (trim scope)) ∈ [Some Test; Some Provided]) || effective_optional d.

Definition is_reaching (k : ResolutionKeys) (group artifact : str) : bool :=
  is_some_and (fun artifacts : gset str => bool_decide (artifact ∈ artifacts)) (key_reaching k !! group).

Definition reaches (k : ResolutionKeys) (d : Dependency) : bool :=
  key_all_reach k || negb (left_out d) || holds_expression (group_id d) || holds_expression (artifact_id d)
  || is_reaching k (group_id d) (artifact_id d).

Definition manages (k : ResolutionKeys) (d : Dependency) : bool :=
  let import := is_some_and (fun scope => eq_ignore_ascii_case (trim scope) $"import" || holds_expression (trim scope)) (scope d) in
  negb (bool_decide (key_role k = RoleDependency)) || key_all_reach k || import || may_be_invalid d
  || holds_expression (group_id d) || holds_expression (artifact_id d) || is_reaching k (group_id d) (artifact_id d).

(** The texts of a declaration, in the order they are read. *)
Definition declaration_texts (d : Dependency) : list str :=
  [group_id d; artifact_id d]
  ++ omap id [version d; type_ d; classifier d; scope d; optional d; system_path d]
  ++ concat (map (fun x => [ex_group_id x; ex_artifact_id x]) (exclusions d)).

(** [read_declarations]. *)
Definition read_declarations (counts : ResolutionKeys -> Dependency -> bool) (st : Reading) (l : list Dependency) : Reading :=
  foldl (fun st d => if counts st.1 d then read_texts st (declaration_texts d) else st) st l.

Definition repository_texts (r : PomRepo.t) : list str :=
  PomRepo.url r :: omap id [PomRepo.id r; PomRepo.releases_enabled_text r; PomRepo.snapshots_enabled_text r;
                            PomRepo.releases_update_policy r; PomRepo.snapshots_update_policy r;
                            PomRepo.releases_checksum_policy r; PomRepo.snapshots_checksum_policy r].

(** [read_repositories], [read_content] and [read_pom_fields]. *)
Definition read_repositories (st : Reading) (l : list PomRepo.t) : Reading :=
  foldl (fun st r => read_texts st (repository_texts r)) st l.

Definition read_content (dependencies : list Dependency) (management : option (list Dependency)) (repositories : list PomRepo.t)
    (modules : list str) (st : Reading) : Reading :=
  let st := read_declarations reaches st dependencies in
  let st := read_declarations manages st (default [] management) in
  let st := read_repositories st repositories in
  if bool_decide (key_role st.1 = RoleProject) then read_texts st modules else st.

Definition read_pom_fields (st : Reading) (p : Pom.t) : Reading :=
  let st := read_texts st (omap id [Pom.group_id p; Pom.artifact_id p; Pom.version p; Pom.packaging p]) in
  let st := match Pom.parent p with
            | Some parent => read_texts st [Parent.group_id parent; Parent.artifact_id parent; Parent.version parent]
            | None => st
            end in
  let st := read_content (Pom.dependencies p) (Pom.dependency_management p) (Pom.repositories p) (Pom.modules p) st in
  match mjoin (Pom.distribution_management p) with
  | Some r => read_texts st (omap id [Relocated.group_id r; Relocated.artifact_id r; Relocated.version r])
  | None => st
  end.

Definition read_profile (st : Reading) (pr : Profile.t) : Reading :=
  read_content (Profile.dependencies pr) (Profile.dependency_management pr) (Profile.repositories pr) (Profile.modules pr) st.

Definition read_lineage_pom (st : Reading) (p : Pom.t) : Reading := foldl read_profile (read_pom_fields st p) (Pom.profiles p).

(** ** What a lineage defines *)

(** [entry(key).or_default().push(value)] for each entry. *)
Definition push_all (entries : list (str * str)) (m : gmap str (list str)) : gmap str (list str) :=
  foldl (fun m x => <[x.1 := default [] (m !! x.1) ++ [x.2]]> m) m entries.

Definition property_entries (chain : list Pom.t) (c : ActivationContext) (role : LineageRole) : list (str * str) :=
  concat (map (fun p => props (Pom.properties p) ++ concat (map (fun pr => props (Profile.properties pr)) (Pom.profiles p))) chain)
  ++ props (ctx_settings_properties c) ++ map_to_list (ctx_properties c) ++ map_to_list (ctx_system_properties c)
  ++ (if bool_decide (role = RoleProject)
      then omap (fun p => (fun likes => (LIKES, likes)) <$> get (Pom.declared_properties p) LIKES) chain else []).

Definition build_entries (chain : list Pom.t) : list (str * str) :=
  let set fields := omap (fun x => (fun value => (x.1, value)) <$> x.2) (zip Build.NAMES fields) in
  concat (map (fun p => set (Build.fields (Pom.build p)) ++ concat (map (fun pr => set (Build.fields (Profile.build pr))) (Pom.profiles p))) chain)
  ++ omap (fun name => (fun value => (name, value)) <$> super_pom_build name) Build.NAMES.

Definition lineage_prerequisite (chain : list Pom.t) : option str := p ← head chain; mjoin (Pom.prerequisites p).

(** [build_field]. *)
Definition referenced_field (name : str) : option str :=
  match strip_prefix $"project.build." name with
  | Some field => Some field
  | None => match strip_prefix $"pom.build." name with Some field => Some field | None => strip_prefix $"build." name end
  end.

(** The texts that following a name reads. *)
Definition name_texts (definitions build : gmap str (list str)) (prerequisite : option str) (name : str) : list str :=
  default [] (definitions !! name)
  ++ (if bool_decide (name ∈ [$"project.prerequisites.maven"; $"pom.prerequisites.maven"]) then option_list prerequisite else [])
  ++ default [] (referenced_field name ≫= (fun field => build !! field)).

(** A turn of the loop [drain]. *)
Definition drain_step (texts : str -> list str) (st : Reading) : Reading + Reading :=
  match last st.2 with
  | None => inr st
  | Some name => inl (read_texts (st.1, removelast st.2) (texts name))
  end.

(** Every name that a text can add, for the budget of the loop. *)
Definition text_names (text : str) : list str :=
  concat (map (fun name => name :: option_list (properties_alias name)) (expression_names text)).

Definition drain (texts : str -> list str) (all : list str) (st : Reading) : Reading :=
  default st (run_loop (drain_step texts) (1 + N.of_nat (length st.2 + length (concat (map text_names all)))) st).

(** ** [ResolutionKeys::of_lineage] *)

Definition is_conditional (pr : Profile.t) : bool :=
  is_some_and (fun a => bool_decide (is_Some (on_jdk a)) || bool_decide (is_Some (on_property a))
                        || bool_decide (is_Some (on_os a)) || bool_decide (is_Some (on_file a))) (Profile.activation pr).

(** The declarations of the lineage that reach a resolution; an expression in one of
    their ids makes every declaration count. *)
Fixpoint collect_reaching (l : list Dependency) (r : gmap str (gset str)) : gmap str (gset str) * bool :=
  match l with
  | [] => (r, false)
  | d :: l =>
    if left_out d then collect_reaching l r
    else if holds_expression (group_id d) || holds_expression (artifact_id d) then (r, true)
    else collect_reaching l (<[group_id d := {[artifact_id d]} ∪ default ∅ (r !! group_id d)]> r)
  end.

Definition declarations_of (chain : list Pom.t) : list Dependency :=
  concat (map (fun p => concat (map Profile.dependencies (Pom.profiles p)) ++ Pom.dependencies p) chain).

Section OfLineage.
Context (chain : list Pom.t) (c : ActivationContext) (role : LineageRole).

Definition role_keys : ResolutionKeys :=
  if bool_decide (role = RoleProject) then new_keys role
  else let '(r, all) := collect_reaching (declarations_of chain) ∅ in with_reaching r all (new_keys role).

Definition lineage_texts : str -> list str :=
  name_texts (push_all (property_entries chain c role) ∅) (push_all (build_entries chain) ∅) (lineage_prerequisite chain).

(** Every text the loop can meet. *)
Definition all_texts : list str :=
  map snd (property_entries chain c role) ++ map snd (build_entries chain) ++ option_list (lineage_prerequisite chain).

(** What the resolution of the lineage reads, drained. *)
Definition pom_keys : ResolutionKeys := (drain lineage_texts all_texts (foldl read_lineage_pom (role_keys, []) chain)).1.

(** And with the likes that os-maven-plugin reads in a project build. *)
Definition plugin_keys : ResolutionKeys :=
  if bool_decide (role = RoleProject)
  then (drain lineage_texts all_texts (read_text (pom_keys, []) ($"${" ++ LIKES ++ $"}"))).1 else pom_keys.

Definition of_lineage : ResolutionKeys * list HostInput :=
  let conditional := existsb is_conditional (concat (map Pom.profiles chain)) in
  let has_settings := bool_decide (role = RoleProject) && negb (bool_decide (ctx_settings_property_names c = ∅)) in
  if negb conditional && negb has_settings then (new_keys role, [])
  else
    let reads_likes := key_dynamic pom_keys || bool_decide (LIKES ∈ key_names pom_keys) in
    let read name := (key_dynamic plugin_keys || bool_decide (name ∈ key_names plugin_keys))
                     && bool_decide (ctx_properties c !! name = None)
                     && (negb (bool_decide (name = LIKES)) || reads_likes) in
    (plugin_keys,
     if has_settings then map SettingsProperty (List.filter read (elements (ctx_settings_property_names c))) else []).
End OfLineage.

(** [ResolutionKeys::is_relevant]. *)
Definition PROFILE_NAMES : list str := [$"directory"; $"finalName"; $"defaultGoal"].

Definition is_relevant (k : ResolutionKeys) (pr : Profile.t) : bool :=
  existsb (reaches k) (Profile.dependencies pr)
  || is_some_and (existsb (manages k)) (Profile.dependency_management pr)
  || negb (bool_decide (Profile.repositories pr = []))
  || (bool_decide (key_role k = RoleProject) && negb (bool_decide (Profile.modules pr = [])))
  || (negb (bool_decide (props (Profile.properties pr) = [])) && key_dynamic k)
  || existsb (fun x => bool_decide (x.1 ∈ key_names k)) (props (Profile.properties pr))
  || existsb (fun name =>
       is_some_and (fun value => bool_decide (is_Some value)) (Build.field (Profile.build pr) name)
       && (key_dynamic k || existsb (fun prefix => bool_decide (prefix ++ name ∈ key_names k)) [$"project.build."; $"pom.build."; $"build."]))
       PROFILE_NAMES.
