(* ===== verification/RelevanceFacts.v ===== *)
(** * Theorems on the relevance of profiles

    The names a resolution may read are the least set that holds those of its texts and
    is closed under every definition; a profile that is not relevant changes nothing that
    a resolution reads. *)

From Stdlib Require Import Ascii String Lia FunctionalExtensionality.
From stdpp Require Import base list strings gmap.
From S2P Require Import Prelude Iter IndexMap Str Component Dependency Environment Interpolate InterpolateFacts Pom Merge Activation Relevance.

#[local] Set Warnings "-clear-no-such-hyp".

(** ** Reading a text *)

(** The names of a text are known, or every name counts. *)
Definition noted (k : ResolutionKeys) (text : str) : Prop :=
  forall name, name ∈ expression_names text ->
    if holds_expression name then key_dynamic k = true
    else name ∈ key_names k /\ forall alias, properties_alias name = Some alias -> alias ∈ key_names k.

Record grows (k k' : ResolutionKeys) : Prop := {
  grow_names : key_names k ⊆ key_names k';
  grow_dynamic : key_dynamic k = true -> key_dynamic k' = true;
  grow_role : key_role k' = key_role k;
  grow_reaching : key_reaching k' = key_reaching k;
  grow_all : key_all_reach k' = key_all_reach k }.

#[export] Instance grows_preorder : PreOrder grows.
Proof. split; [by split|]. intros a b d [] []. split; [set_solver|auto|congruence..]. Qed.

Lemma noted_grows k k' text : grows k k' -> noted k text -> noted k' text.
Proof.
  intros [Hn Hd _ _ _] Ht name Hname. specialize (Ht name Hname). destruct (holds_expression name); [auto|].
  destruct Ht as [Hin Hal]. split; [set_solver|]. intros alias Ha. by apply Hn, Hal.
Qed.

Lemma grows_reaches k k' d : grows k k' -> reaches k' d = reaches k d /\ manages k' d = manages k d.
Proof. intros [_ _ Hr Hre Ha]. unfold reaches, manages, is_reaching. by rewrite Hr, Hre, Ha. Qed.

(** Keys that count no more names than others. *)
Definition within (k b : ResolutionKeys) : Prop := key_names k ⊆ key_names b /\ (key_dynamic k = true -> key_dynamic b = true).

(** The stack holds names of the keys; a name joins both at once. *)
Record read_to (st st' : Reading) : Prop := {
  read_grows : grows st.1 st'.1;
  read_pushed : exists pushed, st'.2 = st.2 ++ pushed /\ NoDup pushed /\
    (forall x, x ∈ pushed -> x ∉ key_names st.1) /\ key_names st'.1 = key_names st.1 ∪ list_to_set pushed }.

#[export] Instance read_to_preorder : PreOrder read_to.
Proof.
  split.
  - intros st. split; [done|]. exists []. rewrite app_nil_r. split_and!; [done|constructor|set_solver|set_solver].
  - intros a b d [G1 (p1 & E1 & N1 & F1 & U1)] [G2 (p2 & E2 & N2 & F2 & U2)]. split; [by etrans|].
    exists (p1 ++ p2). rewrite E2, E1, <-app_assoc. split_and!; [done| | |rewrite U2, U1, list_to_set_app_L; set_solver].
    + apply NoDup_app. split_and!; [done| |done]. intros x Hx Hx2. apply (F2 x Hx2). rewrite U1. set_solver.
    + intros x [Hx|Hx]%elem_of_app; [by apply F1|]. specialize (F2 x Hx). rewrite U1 in F2. set_solver.
Qed.

Lemma add_name_to st name : read_to st (add_name st name) /\ name ∈ key_names (add_name st name).1.
Proof.
  unfold add_name. destruct (decide _) as [Hin|Hin]; [done|]. split; [|cbn; set_solver].
  split; cbn; [split; cbn; [set_solver|done..]|]. exists [name]. split_and!; [done|apply NoDup_singleton|set_solver|set_solver].
Qed.

Lemma read_name_to st name :
  read_to st (read_name st name) /\
  (if holds_expression name then key_dynamic (read_name st name).1 = true
   else name ∈ key_names (read_name st name).1 /\ forall alias, properties_alias name = Some alias -> alias ∈ key_names (read_name st name).1).
Proof.
  unfold read_name. destruct (holds_expression name).
  - split; [|done]. split; cbn; [split; cbn; done|]. exists []. rewrite app_nil_r. split_and!; [done|constructor|set_solver|set_solver].
  - destruct (add_name_to st name) as [Hr Hin]. destruct (properties_alias name) as [alias|].
    + destruct (add_name_to (add_name st name) alias) as [Hr2 Hin2]. split; [by etrans|].
      split; [by apply (grow_names _ _ (read_grows _ _ Hr2))|]. by intros ? [= <-].
    + split; [done|]. split; [done|]. by intros.
Qed.

Lemma read_text_to st text : read_to st (read_text st text) /\ noted (read_text st text).1 text.
Proof.
  unfold read_text, noted. generalize (expression_names text). intros l. revert st.
  induction l as [|name l IH]; intros st; cbn; [split; [done|]; intros ? Hx; by apply elem_of_nil in Hx|].
  destruct (read_name_to st name) as [Hr Hn]. destruct (IH (read_name st name)) as [Hr2 Hn2]. split; [by etrans|].
  intros x [->|Hx]%elem_of_cons; [|by apply Hn2]. destruct Hr2 as [[Hg Hd _ _ _] _].
  destruct (holds_expression name); [by apply Hd|]. destruct Hn as [Hin Hal]. split; [by apply Hg|]. intros a Ha. by apply Hg, Hal.
Qed.

Lemma read_texts_to st texts : read_to st (read_texts st texts) /\ forall t, t ∈ texts -> noted (read_texts st texts).1 t.
Proof.
  unfold read_texts. revert st. induction texts as [|t texts IH]; intros st; cbn; [split; [done|]; intros ? Hx; by apply elem_of_nil in Hx|].
  destruct (read_text_to st t) as [Hr Hn]. destruct (IH (read_text st t)) as [Hr2 Hn2]. split; [by etrans|].
  intros x [->|Hx]%elem_of_cons; [|by apply Hn2]. by eapply noted_grows, Hn; apply Hr2.
Qed.

Lemma read_within b st text : noted b text -> within st.1 b -> within (read_text st text).1 b.
Proof.
  unfold read_text, noted. generalize (expression_names text). intros l Hl. revert st.
  induction l as [|name l IH]; intros st Hst; cbn; [done|]. apply IH; [intros; apply Hl; by right|].
  unfold read_name. specialize (Hl name ltac:(by left)). destruct (holds_expression name) eqn:Eh; [by split; [apply Hst|]|]. destruct Hl as [Hin Hal].
  assert (forall st x, within st.1 b -> x ∈ key_names b -> within (add_name st x).1 b) as Hadd.
  { intros st' x [Hst' Hd] Hx. unfold add_name. destruct (decide _); [done|]. split; cbn; [set_solver|done]. }
  destruct (properties_alias name) as [alias|]; eauto.
Qed.

Lemma reads_within b st texts : (forall t, t ∈ texts -> noted b t) -> within st.1 b -> within (read_texts st texts).1 b.
Proof.
  unfold read_texts. revert st. induction texts as [|t texts IH]; intros st Ht Hst; [done|]. cbn.
  apply IH; [intros; apply Ht; by right|]. apply read_within; [|done]. apply Ht. by left.
Qed.

(** ** The worklist *)

Section Drain.
Context (texts : str -> list str) (all : list str).
Context (Hall : forall name t, t ∈ texts name -> t ∈ all).

Definition universe : gset str := list_to_set (concat (map text_names all)).

(** The keys that count every name the texts can give, and those of [k]. *)
Definition universe_keys (k : ResolutionKeys) : ResolutionKeys := as_dynamic (with_names (key_names k ∪ universe) k).

Lemma universe_within k t : t ∈ all -> noted (universe_keys k) t.
Proof.
  intros Ht name Hname. destruct (holds_expression name); [done|].
  assert (forall x, x ∈ name :: option_list (properties_alias name) -> x ∈ universe) as Hx.
  { intros x Hx. unfold universe. apply elem_of_list_to_set, list_elem_of_In, in_concat. exists (text_names t).
    split; [by apply in_map, list_elem_of_In|]. apply in_concat. exists (name :: option_list (properties_alias name)).
    split; [|by apply list_elem_of_In]. apply in_map_iff. exists name. split; [done|]. by apply list_elem_of_In. }
  split; [apply elem_of_union_r, Hx; by left|]. intros alias Ha. apply elem_of_union_r, Hx. rewrite Ha. right. by left.
Qed.

(** The names whose texts are still to read, and those that may still come. *)
Definition work (st : Reading) : nat := size (universe ∖ key_names st.1) + length st.2.

Lemma read_to_work st st' : key_names st'.1 ⊆ key_names st.1 ∪ universe -> read_to st st' -> work st' = work st.
Proof.
  intros Hsub [_ (pushed & E & Hnd & Hfresh & Hn)]. unfold work. rewrite E, length_app.
  assert (size (universe ∖ key_names st.1) = size (universe ∖ key_names st'.1) + length pushed); [|lia].
  rewrite Hn in *. rewrite <-(size_list_to_set (C := gset str) pushed) by done.
  rewrite <-size_union by set_solver. apply leibniz_equiv_iff in Hn as _. f_equal. apply set_eq. intros x.
  destruct (decide (x ∈ pushed)) as [Hx|Hx]; [|set_solver]. specialize (Hfresh x Hx). set_solver.
Qed.

(** Every name is still to follow, or its texts are noted. *)
Definition closed (k : ResolutionKeys) (open : list str) : Prop :=
  forall name, name ∈ key_names k -> name ∈ open \/ forall t, t ∈ texts name -> noted k t.

Record draining (st0 st : Reading) : Prop := {
  drain_grows : grows st0.1 st.1;
  drain_closed : closed st.1 st.2;
  drain_open : forall name, name ∈ st.2 -> name ∈ key_names st.1;
  drain_least : forall b, within st0.1 b -> closed b [] -> within st.1 b }.

Lemma last_removelast {A} (l : list A) x : last l = Some x -> l = removelast l ++ [x].
Proof.
  intros E. destruct (exists_last (l := l)) as (l' & y & ->).
  - by intros ->.
  - rewrite last_snoc in E. rewrite removelast_last. by simplify_eq.
Qed.

Lemma drain_step_ok st0 st :
  draining st0 st ->
  match drain_step texts st with
  | inl st' => draining st0 st' /\ work st' < work st
  | inr st' => draining st0 st' /\ st'.2 = []
  end.
Proof.
  intros [Hg Hc Ho Hl]. unfold drain_step. destruct (last st.2) as [name|] eqn:Elast.
  2:{ split; [by split|]. by apply last_None in Elast. }
  apply last_removelast in Elast. set (popped := (st.1, removelast st.2)).
  destruct (read_texts_to popped (texts name)) as [Hr Hn]. set (st' := read_texts popped (texts name)) in *.
  destruct (read_grows _ _ Hr) as [Hsub Hdyn _ _ _]. destruct (read_pushed _ _ Hr) as (pushed & E2 & Hnd & Hfresh & Hnames). cbn in *.
  assert (name ∈ key_names st.1) as Hname by (apply Ho; rewrite Elast; set_solver).
  split; [split|].
  - etrans; [done|]. apply Hr.
  - intros x Hx. rewrite Hnames in Hx. rewrite E2. apply elem_of_union in Hx as [Hx|Hx]; [|left; set_solver].
    destruct (decide (x = name)) as [->|Hne]; [right; done|].
    destruct (Hc x Hx) as [Hopen|Hdone]; [left; rewrite Elast in Hopen; set_solver|]. right. intros t Ht. eapply noted_grows, Hdone, Ht. apply Hr.
  - intros x Hx. rewrite E2 in Hx. rewrite Hnames. apply elem_of_app in Hx as [Hx|Hx]; [|set_solver].
    apply elem_of_union_l, Ho. rewrite Elast. set_solver.
  - intros b Hb Hstay. apply reads_within; [|by apply (Hl b)]. intros t Ht.
    destruct (Hstay name) as [Hnil|Hs]; [by apply (Hl b)|by apply elem_of_nil in Hnil|by apply Hs].
  - assert (work st' = work popped) as ->.
    { apply read_to_work; [|done]. apply (reads_within (universe_keys st.1) popped); [|split; cbn; [set_solver|done]].
      intros t Ht. by apply universe_within, (Hall name). }
    unfold work, popped. cbn. rewrite Elast at 2. rewrite length_app. cbn. lia.
Qed.

Lemma drain_ok st0 :
  closed st0.1 st0.2 -> (forall name, name ∈ st0.2 -> name ∈ key_names st0.1) ->
  exists st, run_loop (drain_step texts) (1 + N.of_nat (length st0.2 + length (concat (map text_names all)))) st0 = Some st /\
    draining st0 st /\ st.2 = [].
Proof.
  intros Hc Ho. apply (run_total (drain_step texts) (draining st0) (fun st => draining st0 st /\ st.2 = []) (fun st => N.of_nat (work st))).
  - intros st Hst. pose proof (drain_step_ok st0 st Hst) as Hs. destruct (drain_step texts st); [|done]. destruct Hs. split; [done|lia].
  - by split.
  - assert (work st0 <= length st0.2 + length (concat (map text_names all))); [|lia]. unfold work.
    assert (size (universe ∖ key_names st0.1) <= size universe) by (apply subseteq_size; set_solver).
    assert (size universe <= length (concat (map text_names all))); [|lia]. unfold universe.
    generalize (concat (map text_names all)). intros l. induction l as [|x l IH]; cbn; [by rewrite size_empty|].
    pose proof (size_union_alt ({[x]} : gset str) (list_to_set l)) as Hu. rewrite size_singleton in Hu.
    assert (size (list_to_set l ∖ ({[x]} : gset str)) <= size (list_to_set l : gset str)) by (apply subseteq_size; set_solver). lia.
Qed.

(** Reading texts into keys that are closed, and following what they name. *)
Lemma drain_reads k0 seeds : closed k0 [] ->
  let k := (drain texts all (read_texts (k0, []) seeds)).1 in
  grows k0 k /\ (forall t, t ∈ seeds -> noted k t) /\ closed k [] /\
  forall b, within k0 b -> (forall t, t ∈ seeds -> noted b t) -> closed b [] -> within k b.
Proof.
  intros Hc0. destruct (read_texts_to (k0, []) seeds) as [Hr Hn]. set (st0 := read_texts (k0, []) seeds) in *.
  destruct (read_pushed _ _ Hr) as (pushed & E & _ & _ & Hnames). cbn in E, Hnames.
  destruct (drain_ok st0) as (st & Erun & [Hg Hc _ Hl] & Eopen).
  - intros name Hname. rewrite Hnames in Hname. apply elem_of_union in Hname as [Hname|Hname]; [|left; rewrite E; set_solver].
    right. intros t Ht. eapply noted_grows; [apply Hr|]. destruct (Hc0 name Hname) as [Hx|Hx]; [by apply elem_of_nil in Hx|by apply Hx].
  - intros name Hname. rewrite E in Hname. rewrite Hnames. set_solver.
  - unfold drain. rewrite Erun. cbn. rewrite Eopen in Hc. split_and!.
    + etrans; [apply Hr|done].
    + intros t Ht. eapply noted_grows, Hn, Ht. done.
    + done.
    + intros b Hb Hs Hcb. apply Hl; [|done]. by apply reads_within.
Qed.
End Drain.

(** ** The texts of a lineage *)

Definition content_texts (k : ResolutionKeys) (dependencies : list Dependency) (management : option (list Dependency)) (repositories : list PomRepo.t)
    (modules : list str) : list str :=
  concat (map declaration_texts (List.filter (reaches k) dependencies))
  ++ concat (map declaration_texts (List.filter (manages k) (default [] management)))
  ++ concat (map repository_texts repositories)
  ++ (if bool_decide (key_role k = RoleProject) then modules else []).

Definition profile_texts (k : ResolutionKeys) (pr : Profile.t) : list str :=
  content_texts k (Profile.dependencies pr) (Profile.dependency_management pr) (Profile.repositories pr) (Profile.modules pr).

Definition pom_texts (k : ResolutionKeys) (p : Pom.t) : list str :=
  omap id [Pom.group_id p; Pom.artifact_id p; Pom.version p; Pom.packaging p]
  ++ match Pom.parent p with Some parent => [Parent.group_id parent; Parent.artifact_id parent; Parent.version parent] | None => [] end
  ++ content_texts k (Pom.dependencies p) (Pom.dependency_management p) (Pom.repositories p) (Pom.modules p)
  ++ match mjoin (Pom.distribution_management p) with
     | Some r => omap id [Relocated.group_id r; Relocated.artifact_id r; Relocated.version r]
     | None => []
     end
  ++ concat (map (profile_texts k) (Pom.profiles p)).

Lemma read_texts_app st l l' : read_texts st (l ++ l') = read_texts (read_texts st l) l'.
Proof. apply foldl_app. Qed.

Lemma read_texts_grows st l : grows st.1 (read_texts st l).1.
Proof. apply read_texts_to. Qed.

Lemma read_declarations_texts (counts : ResolutionKeys -> Dependency -> bool) st l :
  (forall k k' d, grows k k' -> counts k' d = counts k d) ->
  read_declarations counts st l = read_texts st (concat (map declaration_texts (List.filter (counts st.1) l))).
Proof.
  intros Hc. unfold read_declarations. revert st. induction l as [|d l IH]; intros st; [done|]. cbn [foldl List.filter].
  destruct (counts st.1 d) eqn:Ed; rewrite IH; [|done]. cbn [map concat]. rewrite read_texts_app.
  assert (counts (read_texts st (declaration_texts d)).1 = counts st.1) as ->; [|done].
  apply functional_extensionality. intros x. apply Hc, read_texts_grows.
Qed.

Lemma read_repositories_texts st l : read_repositories st l = read_texts st (concat (map repository_texts l)).
Proof. revert st. induction l as [|r l IH]; intros st; [done|]. cbn. rewrite read_texts_app. apply IH. Qed.

Lemma content_grows k k' ds m rs ms : grows k k' -> content_texts k' ds m rs ms = content_texts k ds m rs ms.
Proof.
  intros Hg. unfold content_texts. rewrite (grow_role _ _ Hg).
  assert (reaches k' = reaches k /\ manages k' = manages k) as [-> ->]; [|done].
  split; apply functional_extensionality; intros d; by apply grows_reaches.
Qed.

Lemma read_content_texts ds m rs ms st : read_content ds m rs ms st = read_texts st (content_texts st.1 ds m rs ms).
Proof.
  unfold read_content, content_texts. rewrite !read_texts_app, !read_declarations_texts, read_repositories_texts
    by (intros k k' d Hg; by apply grows_reaches).
  set (st1 := read_texts st _). assert (grows st.1 st1.1) as Hg by apply read_texts_grows.
  assert (manages st1.1 = manages st.1) as -> by (apply functional_extensionality; intros d; by apply grows_reaches).
  set (st2 := read_texts st1 _). set (st3 := read_texts st2 _).
  assert (key_role st3.1 = key_role st.1) as ->.
  { rewrite (grow_role st2.1 st3.1), (grow_role st1.1 st2.1), (grow_role st.1 st1.1); done || apply read_texts_grows. }
  by destruct (bool_decide _).
Qed.

Lemma read_profiles_texts st l : foldl read_profile st l = read_texts st (concat (map (profile_texts st.1) l)).
Proof.
  revert st. induction l as [|pr l IH]; intros st; [done|]. cbn [foldl map concat]. rewrite IH. unfold read_profile. rewrite read_content_texts, read_texts_app.
  rewrite (map_ext (profile_texts (read_texts st (profile_texts st.1 pr)).1) (profile_texts st.1)); [done|].
  intros x. apply content_grows, read_texts_grows.
Qed.

Lemma pom_texts_grows k k' p : grows k k' -> pom_texts k' p = pom_texts k p.
Proof.
  intros Hg. unfold pom_texts. rewrite (content_grows k k') by done.
  rewrite (map_ext (profile_texts k') (profile_texts k)); [done|]. intros pr. by apply content_grows.
Qed.

Lemma read_lineage_pom_texts st p : read_lineage_pom st p = read_texts st (pom_texts st.1 p).
Proof.
  unfold read_lineage_pom. rewrite read_profiles_texts. unfold pom_texts. rewrite !read_texts_app.
  assert (read_pom_fields st p = read_texts (read_texts (read_texts (read_texts st (omap id [Pom.group_id p; Pom.artifact_id p; Pom.version p; Pom.packaging p]))
      match Pom.parent p with Some parent => [Parent.group_id parent; Parent.artifact_id parent; Parent.version parent] | None => [] end)
      (content_texts st.1 (Pom.dependencies p) (Pom.dependency_management p) (Pom.repositories p) (Pom.modules p)))
      match mjoin (Pom.distribution_management p) with
      | Some r => omap id [Relocated.group_id r; Relocated.artifact_id r; Relocated.version r] | None => [] end) as E.
  { unfold read_pom_fields. set (st1 := read_texts st _).
    assert (match Pom.parent p with Some parent => read_texts st1 [Parent.group_id parent; Parent.artifact_id parent; Parent.version parent] | None => st1 end
      = read_texts st1 match Pom.parent p with Some parent => [Parent.group_id parent; Parent.artifact_id parent; Parent.version parent] | None => [] end) as ->
      by (by destruct (Pom.parent p)).
    set (st2 := read_texts st1 _). rewrite read_content_texts, (content_grows st.1 st2.1) by (etrans; [apply read_texts_grows|apply read_texts_grows]).
    by destruct (mjoin _). }
  rewrite E. f_equal. f_equal. apply map_ext. intros pr. apply content_grows. rewrite <-!read_texts_app. apply read_texts_grows.
Qed.

Lemma read_lineage_texts st chain : foldl read_lineage_pom st chain = read_texts st (concat (map (pom_texts st.1) chain)).
Proof.
  revert st. induction chain as [|p chain IH]; intros st; [done|]. cbn [foldl map concat]. rewrite IH, read_lineage_pom_texts, read_texts_app.
  rewrite (map_ext (pom_texts (read_texts st (pom_texts st.1 p)).1) (pom_texts st.1)); [done|].
  intros x. apply pom_texts_grows, read_texts_grows.
Qed.

(** ** What a name may stand for *)

Lemma push_all_elem entries m k v :
  v ∈ default [] (push_all entries m !! k) <-> v ∈ default [] (m !! k) \/ (k, v) ∈ entries.
Proof.
  revert m. induction entries as [|[k' v'] entries IH]; intros m; cbn; [set_solver|]. unfold push_all in IH. rewrite IH. cbn.
  destruct (decide (k = k')) as [->|Hne].
  - rewrite lookup_insert_eq. cbn. set_solver.
  - rewrite lookup_insert_ne by done. set_solver.
Qed.

Lemma lineage_texts_all chain c role name t : t ∈ lineage_texts chain c role name -> t ∈ all_texts chain c role.
Proof.
  unfold lineage_texts, name_texts, all_texts. rewrite !elem_of_app. intros [Ht|[Ht|Ht]].
  - left. apply push_all_elem in Ht as [Ht|Ht]; [by apply elem_of_nil in Ht|]. by apply (list_elem_of_fmap_2 snd) in Ht.
  - right. right. destruct (bool_decide _); [done|by apply elem_of_nil in Ht].
  - right. left. destruct (referenced_field name) as [field|]; cbn in Ht; [|by apply elem_of_nil in Ht].
    apply push_all_elem in Ht as [Ht|Ht]; [by apply elem_of_nil in Ht|]. by apply (list_elem_of_fmap_2 snd) in Ht.
Qed.

(** What the resolution of a lineage reads, and what os-maven-plugin does. *)
Definition likes_reference : str := $"${" ++ LIKES ++ $"}".

Definition lineage_seeds (chain : list Pom.t) (role : LineageRole) : list str :=
  concat (map (pom_texts (role_keys chain role)) chain) ++ (if bool_decide (role = RoleProject) then [likes_reference] else []).

Lemma role_keys_names chain role : key_names (role_keys chain role) = ∅ /\ key_dynamic (role_keys chain role) = false.
Proof. unfold role_keys. destruct (bool_decide _); [done|]. by destruct (collect_reaching _ _). Qed.

Lemma plugin_keys_ok chain c role :
  grows (role_keys chain role) (plugin_keys chain c role) /\
  (forall t, t ∈ lineage_seeds chain role -> noted (plugin_keys chain c role) t) /\
  closed (lineage_texts chain c role) (plugin_keys chain c role) [] /\
  forall b, (forall t, t ∈ lineage_seeds chain role -> noted b t) -> closed (lineage_texts chain c role) b [] -> within (plugin_keys chain c role) b.
Proof.
  destruct (role_keys_names chain role) as [En Ed].
  destruct (drain_reads (lineage_texts chain c role) (all_texts chain c role) (lineage_texts_all chain c role)
    (role_keys chain role) (concat (map (pom_texts (role_keys chain role)) chain))) as (G1 & S1 & C1 & L1).
  { intros name Hname. rewrite En in Hname. set_solver. }
  assert ((drain (lineage_texts chain c role) (all_texts chain c role)
    (read_texts (role_keys chain role, []) (concat (map (pom_texts (role_keys chain role)) chain)))).1 = pom_keys chain c role) as Ek.
  { unfold pom_keys. by rewrite read_lineage_texts. }
  rewrite Ek in *. clear Ek.
  assert (forall b, within (role_keys chain role) b) as Hb by (intros b; split; [rewrite En; set_solver|by rewrite Ed]).
  unfold plugin_keys, lineage_seeds. destruct (bool_decide (role = RoleProject)); cbv zeta in *.
  2:{ rewrite app_nil_r. eauto. }
  destruct (drain_reads (lineage_texts chain c role) (all_texts chain c role) (lineage_texts_all chain c role)
    (pom_keys chain c role) [likes_reference] C1) as (G2 & S2 & C2 & L2).
  change (read_text (pom_keys chain c role, []) ($"${" ++ LIKES ++ $"}")) with (read_texts (pom_keys chain c role, []) [likes_reference]).
  set (k := (drain _ _ _).1) in *. clearbody k. split_and!.
  - by etrans.
  - intros t [Ht|Ht]%elem_of_app; [|by apply S2]. eapply noted_grows, S1, Ht. done.
  - done.
  - intros b Hs Hc. apply L2; [apply L1; [done| |done]| |done]; intros t Ht; apply Hs, elem_of_app; auto.
Qed.

(** C14: The names that a resolution may read are exactly those it needs.  For every
    lineage, the worklist of [of_lineage] ends with keys that have every name of the
    texts a resolution reads and of every text such a name can stand for, in any POM,
    profile, setting or property; every reference inside a name is noted as dynamic; and
    they are the least such keys, so that nothing else counts. *)
Theorem names_are_least chain c role :
  let k := plugin_keys chain c role in
  (forall t, t ∈ lineage_seeds chain role -> noted k t) /\
  (forall name t, name ∈ key_names k -> t ∈ lineage_texts chain c role name -> noted k t) /\
  forall b, (forall t, t ∈ lineage_seeds chain role -> noted b t) ->
    (forall name t, name ∈ key_names b -> t ∈ lineage_texts chain c role name -> noted b t) ->
    key_names k ⊆ key_names b /\ (key_dynamic k = true -> key_dynamic b = true).
Proof.
  destruct (plugin_keys_ok chain c role) as (_ & Hs & Hc & Hl). split_and!; [done| |].
  - intros name t Hname Ht. destruct (Hc name Hname) as [Hx|Hx]; [by apply elem_of_nil in Hx|by apply Hx].
  - intros b Hb Hcb. apply Hl; [done|]. intros name Hname. right. intros t Ht. by apply (Hcb name).
Qed.

(** ** Names that agree *)

Lemma first_reference_names s before written rest :
  first_reference s = Some (before, written, rest) ->
  written ∈ expression_names s /\ forall name, name ∈ expression_names rest -> name ∈ expression_names s.
Proof.
  intros E. pose proof (first_reference_rest _ _ _ _ E) as Hlt. unfold expression_names.
  destruct (length s) as [|n] eqn:El; [lia|]. cbn [reference_names]. rewrite E. split; [by left|].
  intros name Hname. right. clear -Hname Hlt. assert (length rest <= n) as Hle by lia. clear Hlt. revert Hname Hle.
  generalize (length rest) at 1 2. intros a. revert n rest.
  induction a as [|a IH]; intros n rest Hname Hle; [by apply elem_of_nil in Hname|]. destruct n as [|n]; [lia|]. cbn in *.
  destruct (first_reference rest) as [[[b w] r]|]; [|done]. apply elem_of_cons in Hname as [->|Hname]; [by left|]. right. apply IH; [done|lia].
Qed.

Section Agree.
Context (k : ResolutionKeys) (src src' : str -> Source).

(** A name whose value a noted text reads. *)
Definition trusted (name : str) : Prop :=
  key_dynamic k = true \/ name ∈ key_names k /\ forall alias, properties_alias name = Some alias -> alias ∈ key_names k.

Context (Hsrc : forall name, trusted name -> src name = src' name).
Context (Hclosed : forall name raw finish, trusted name -> key_dynamic k = false -> src name = Expands raw finish -> noted k raw).

Lemma noted_agree fuel text : noted k text -> reference src fuel text = reference src' fuel text.
Proof.
  destruct (key_dynamic k) eqn:Edyn.
  { intros _. assert (src = src') as ->; [|done]. apply functional_extensionality. intros name. apply Hsrc. by left. }
  revert text. induction fuel as [|fuel IH]; intros text Hn; [done|]. cbn [reference].
  destruct (first_reference text) as [[[before written] rest]|] eqn:E; [|done].
  destruct (first_reference_names _ _ _ _ E) as [Hw Hrest].
  rewrite (IH rest) by (intros name Hname; by apply Hn, Hrest).
  specialize (Hn written Hw). destruct (holds_expression written) eqn:Eh; [congruence|].
  assert (forall src, reference src fuel written = match fuel with O => None | _ => Some written end) as Hself.
  { intros s. destruct fuel; [done|]. cbn. by rewrite (first_reference_None _ Eh). }
  rewrite !Hself. destruct fuel as [|fuel]; [done|]. cbn [mbind option_bind].
  assert (trusted written) as Ht by (by right). f_equal. unfold value_by. rewrite <-Hsrc by done.
  destruct (src written) as [raw finish| |] eqn:Er; [|done|done]. by rewrite IH by (by apply (Hclosed written raw finish)).
Qed.
End Agree.
