(* ===== verification/RelevanceSafe.v ===== *)
(** * A profile that is not relevant changes nothing a resolution reads

    Injecting such a profile leaves the declarations that reach resolution, what manages
    them, the repositories and the modules as they are, brings no import of a BOM and no
    entry that may be refused, and every text of the lineage expands as before.  One entry
    is beyond this: a managed entry that takes the place of such an entry of the POM. *)

From Stdlib Require Import Ascii String Lia FunctionalExtensionality.
From stdpp Require Import base list strings gmap.
From S2P Require Import Prelude Iter IndexMap Str Component Dependency Environment Interpolate InterpolateFacts Pom Merge Activation Relevance RelevanceFacts.

#[local] Set Warnings "-clear-no-such-hyp".

(** ** Filters of a map by its keys *)

Section Collected.
Context {T K : Type} `{EqDecision K} (key : T -> K) (P : T -> bool).

(** A list with one entry for each key, the last one. *)
Definition collected (l : list T) : list T := map_values (map_collect (keyed key l)).

Lemma filter_insert x (m : list (K * T)) : (forall y, y ∈ m -> y.1 = key x -> P y.2 = P x) ->
  List.filter (fun y => P y.2) (map_insert (key x) x m) =
  if P x then map_insert (key x) x (List.filter (fun y => P y.2) m) else List.filter (fun y => P y.2) m.
Proof.
  unfold map_insert. induction m as [|[k v] m IH]; intros Hm; cbn; [by destruct (P x)|].
  pose proof (Hm (k, v) ltac:(by left)) as Hv. cbn in Hv. specialize (IH ltac:(intros y Hy; apply Hm; by right)).
  destruct (decide (k = key x)) as [->|Hne]; cbn.
  - rewrite (Hv eq_refl). destruct (P x); cbn; [by rewrite decide_True|done].
  - rewrite IH. destruct (P v), (P x); cbn; rewrite ?decide_False by done; done.
Qed.

Lemma map_insert_elem k (x : T) (m : list (K * T)) y : y ∈ map_insert k x m -> y = (k, x) \/ y ∈ m.
Proof.
  unfold map_insert. induction m as [|[k' v] m IH]; cbn; [set_solver|]. destruct (decide (k' = k)) as [->|]; set_solver.
Qed.

Lemma map_collect_snoc l x : map_collect (keyed key (l ++ [x])) = map_insert (key x) x (map_collect (keyed key l)).
Proof. unfold map_collect. by rewrite keyed_app, map_extend_app. Qed.

Lemma map_collect_elem l y : y ∈ map_collect (keyed key l) -> y.2 ∈ l /\ y.1 = key y.2.
Proof.
  induction l as [|x l IH] using rev_ind; [by intros ?%elem_of_nil|]. rewrite map_collect_snoc.
  intros [->|Hy]%map_insert_elem; [cbn; set_solver|]. apply IH in Hy. set_solver.
Qed.

Lemma filter_map_snd (m : list (K * T)) : List.filter P (map snd m) = map snd (List.filter (fun y => P y.2) m).
Proof. induction m as [|[k v] m IH]; [done|]. cbn. rewrite IH. by destruct (P v). Qed.

Lemma filter_collected l : (forall x y, x ∈ l -> y ∈ l -> key x = key y -> P x = P y) ->
  List.filter P (collected l) = collected (List.filter P l).
Proof.
  intros Hl. unfold collected, map_values.
  rewrite filter_map_snd. f_equal. revert Hl. induction l as [|x l IH] using rev_ind; intros Hl; [done|].
  rewrite map_collect_snoc, filter_insert.
  - rewrite IH by (intros a b Ha Hb; apply Hl; set_solver). rewrite List.filter_app. cbn.
    destruct (P x); [by rewrite map_collect_snoc|by rewrite app_nil_r].
  - intros y Hy Ek. apply map_collect_elem in Hy as [Hy Ey]. apply Hl; [set_solver|set_solver|congruence].
Qed.

Lemma collected_merge target s : collected (merge_keyed key target [s]) = collected (target ++ s).
Proof.
  rewrite merge_keyed_extend. cbn [concat]. rewrite app_nil_r. destruct (decide (s = [])) as [->|Hs].
  - by rewrite bool_decide_true, app_nil_r.
  - rewrite bool_decide_false by done. unfold collected at 1. rewrite collect_values.
    + unfold collected, map_collect. by rewrite keyed_app, map_extend_app.
    + apply map_extend_NoDup, map_extend_NoDup. constructor.
    + apply map_extend_self; [apply map_collect_self|]; apply keyed_self.
Qed.

(** Entries that do not count leave those that do as they are. *)
Lemma merge_filtered target s :
  (forall x y, x ∈ target ++ s -> y ∈ target ++ s -> key x = key y -> P x = P y) -> (forall x, x ∈ s -> P x = false) ->
  List.filter P (collected (merge_keyed key target [s])) = List.filter P (collected target).
Proof.
  intros Hkey Hs. rewrite collected_merge, !filter_collected; [|intros x y Hx Hy; apply Hkey; set_solver|done].
  rewrite List.filter_app. assert (List.filter P s = []) as ->; [|by rewrite app_nil_r].
  clear Hkey. induction s as [|x s IH]; [done|]. cbn. rewrite Hs by (by left). apply IH. intros y Hy. apply Hs. by right.
Qed.

Lemma map_collect_app_elem l s y : y ∈ map_collect (keyed key (l ++ s)) -> y.2 ∈ s \/ y ∈ map_collect (keyed key l).
Proof.
  induction s as [|x s IH] using rev_ind; [rewrite app_nil_r; by right|]. rewrite app_assoc, map_collect_snoc.
  intros [->|Hy]%map_insert_elem; [left; cbn; set_solver|]. apply IH in Hy. set_solver.
Qed.

(** Entries that do not count bring none that does. *)
Lemma merge_brings_none target s x : (forall y, y ∈ s -> P y = false) ->
  x ∈ collected (merge_keyed key target [s]) -> P x = true -> x ∈ collected target.
Proof.
  intros Hs. rewrite collected_merge. unfold collected, map_values. intros (y & -> & Hy)%list_elem_of_fmap Hx.
  apply map_collect_app_elem in Hy as [Hy|Hy]; [by rewrite Hs in Hx|]. by apply list_elem_of_fmap_2.
Qed.

(** Entries that do not count, and take the place of none that does, leave those that do
    as they are. *)
Lemma merge_apart target s : (forall x, x ∈ s -> P x = false) ->
  (forall x y, x ∈ s -> y ∈ collected target -> P y = true -> key x <> key y) ->
  List.filter P (collected (merge_keyed key target [s])) = List.filter P (collected target).
Proof.
  intros Hs Hapart. rewrite collected_merge. unfold collected, map_values in *. rewrite !filter_map_snd. f_equal.
  induction s as [|x s IH] using rev_ind; [by rewrite app_nil_r|].
  rewrite app_assoc, map_collect_snoc, filter_insert.
  - rewrite (Hs x) by set_solver. apply IH; [intros; apply Hs; set_solver|intros y z Hy; apply Hapart; set_solver].
  - intros y Hy Ek. rewrite (Hs x) by set_solver. pose proof (map_collect_elem _ _ Hy) as [_ Ey].
    apply map_collect_app_elem in Hy as [Hy|Hy]; [apply Hs; set_solver|]. apply not_true_iff_false. intros HP.
    apply (Hapart x y.2); [set_solver|by apply list_elem_of_fmap_2|done|congruence].
Qed.
End Collected.

(** ** Declarations that count *)

Definition reaching_in (r : gmap str (gset str)) (g a : str) : bool := is_some_and (fun s : gset str => bool_decide (a ∈ s)) (r !! g).

Lemma reaching_insert r g a g' a' :
  reaching_in (<[g := {[a]} ∪ default ∅ (r !! g)]> r) g' a' = bool_decide (g' = g /\ a' = a) || reaching_in r g' a'.
Proof.
  apply eq_bool_prop_intro. unfold reaching_in. rewrite orb_True, bool_decide_spec. destruct (decide (g' = g)) as [->|Hne].
  - rewrite lookup_insert_eq. unfold is_some_and. rewrite bool_decide_spec. destruct (r !! g) as [s|]; cbn [default]; [rewrite bool_decide_spec|]; rewrite elem_of_union, elem_of_singleton; [naive_solver|]. cbn. set_solver.
  - rewrite lookup_insert_ne by done. naive_solver.
Qed.

Lemma collect_reaching_ok l r r' : collect_reaching l r = (r', false) ->
  (forall g a, reaching_in r g a = true -> reaching_in r' g a = true) /\
  forall d, d ∈ l -> left_out d = false -> reaching_in r' (group_id d) (artifact_id d) = true.
Proof.
  revert r. induction l as [|d l IH]; intros r E; cbn in E.
  - simplify_eq. split; [done|]. by intros ? ?%elem_of_nil.
  - destruct (left_out d) eqn:El.
    + destruct (IH _ E) as [H1 H2]. split; [done|]. intros x [->|Hx]%elem_of_cons Hout; [congruence|by apply H2].
    + destruct (_ || _); [simplify_eq|]. destruct (IH _ E) as [H1 H2]. split.
      * intros g a Hin. apply H1. rewrite reaching_insert, Hin. apply orb_true_r.
      * intros x [->|Hx]%elem_of_cons Hout; [|by apply H2]. apply H1. by rewrite reaching_insert, bool_decide_true.
Qed.

(** An entry that counts for the ids it has. *)
Definition counts_by_ids (k : ResolutionKeys) (d : Dependency) : bool :=
  key_all_reach k || holds_expression (group_id d) || holds_expression (artifact_id d) || is_reaching k (group_id d) (artifact_id d).

Lemma counts_by_key k d e : management_key d = management_key e -> counts_by_ids k d = counts_by_ids k e.
Proof. unfold management_key, counts_by_ids. intros [= -> -> _ _]. done. Qed.

Lemma reaches_by_ids chain role k d : grows (role_keys chain role) k -> d ∈ declarations_of chain -> reaches k d = counts_by_ids k d.
Proof.
  intros [_ _ _ Hr Ha] Hd. unfold reaches, counts_by_ids, is_reaching. rewrite Hr, Ha. unfold role_keys.
  destruct (bool_decide _); [done|]. destruct (collect_reaching _ ∅) as [r all] eqn:E. cbn. destruct all; [done|].
  destruct (left_out d) eqn:El; [done|]. cbn. symmetry. apply orb_true_iff. right.
  by apply (collect_reaching_ok _ _ _ E).
Qed.

Lemma declarations_elem chain p d : p ∈ chain ->
  d ∈ Pom.dependencies p \/ (exists pr, pr ∈ Pom.profiles p /\ d ∈ Profile.dependencies pr) -> d ∈ declarations_of chain.
Proof.
  intros Hp Hd. unfold declarations_of. apply list_elem_of_In, in_concat.
  exists (concat (map Profile.dependencies (Pom.profiles p)) ++ Pom.dependencies p). split.
  - apply in_map_iff. exists p. split; [done|]. by apply list_elem_of_In.
  - apply list_elem_of_In, elem_of_app. destruct Hd as [Hd|(pr & Hpr & Hd)]; [by right|]. left.
    apply list_elem_of_In, in_concat. exists (Profile.dependencies pr). split; [|by apply list_elem_of_In].
    apply in_map_iff. exists pr. split; [done|]. by apply list_elem_of_In.
Qed.

(** What manages a declaration that reaches resolution, or in another role anything. *)
Definition manages_reaching (k : ResolutionKeys) (d : Dependency) : bool :=
  negb (bool_decide (key_role k = RoleDependency)) || counts_by_ids k d.

Lemma manages_reaching_manages k d : manages k d = false -> manages_reaching k d = false.
Proof.
  unfold manages, manages_reaching, counts_by_ids. intros E. repeat apply orb_false_iff in E as [E ?].
  by repeat (apply orb_false_iff; split).
Qed.

(** A managed entry that acts on the resolution whatever it manages: it imports a BOM, or
    has a scope that may expand to [import], or it may be refused as invalid. *)
Definition acts_alone (d : Dependency) : bool :=
  existsb (fun s => eq_ignore_ascii_case (trim s) $"import" || holds_expression (trim s)) (option_list (scope d))
  || may_be_invalid d.

Lemma acts_alone_manages k d : manages k d = false -> acts_alone d = false.
Proof.
  unfold manages. intros E. repeat apply orb_false_iff in E as [E ?].
  unfold acts_alone. apply orb_false_iff. split; [|done].
  destruct (scope d); [|done]. cbn in *. by rewrite orb_false_r.
Qed.

(** ** Values that the lineage defines *)

(** A lookup with another [<build>]. *)
Definition rebuild (b : Build.t) (l : Lookup) : Lookup := {|
  project := (fun p => {| ProjectInfo.group_id := ProjectInfo.group_id p; ProjectInfo.artifact_id := ProjectInfo.artifact_id p;
    ProjectInfo.version := ProjectInfo.version p; ProjectInfo.packaging := ProjectInfo.packaging p; ProjectInfo.parent := ProjectInfo.parent p;
    ProjectInfo.basedir := ProjectInfo.basedir p; ProjectInfo.build := b; ProjectInfo.system_properties := ProjectInfo.system_properties p;
    ProjectInfo.environment := ProjectInfo.environment p; ProjectInfo.model_lookup := ProjectInfo.model_lookup p |}) <$> project l;
  lookup_system_properties := lookup_system_properties l; lookup_environment := lookup_environment l; model := model l |}.

(** The properties, the fields of [<build>] and the prerequisite of a model come from its
    lineage. *)
Record drawn (chain : list Pom.t) (c : ActivationContext) (role : LineageRole) (m : PropertyMap) (l : Lookup) : Prop := {
  drawn_properties : forall name value, get m name = Some value -> (name, value) ∈ property_entries chain c role;
  drawn_build : forall p field value, project l = Some p -> Build.field (ProjectInfo.build p) field = Some (Some value) -> (field, value) ∈ build_entries chain;
  drawn_prerequisite : forall raw, prerequisites_of l = Some raw -> lineage_prerequisite chain = Some raw }.

Definition sets_build (pr : Profile.t) (field : str) : bool :=
  bool_decide (field ∈ PROFILE_NAMES) && is_some_and (fun value => bool_decide (is_Some value)) (Build.field (Profile.build pr) field).

(** A model and the one with a profile: they differ in the values that the profile
    sets. *)
Record differ_by (pr : Profile.t) (m m' : PropertyMap) (l : Lookup) (b : Build.t) : Prop := {
  differ_properties : forall name, name ∉ map fst (props (Profile.properties pr)) -> get m' name = get m name;
  differ_build : forall p field, project l = Some p -> sets_build pr field = false -> Build.field b field = Build.field (ProjectInfo.build p) field }.

(** The value of a name, in its parts. *)
Lemma source_of_ext m m' l b key :
  (forall field, build_field key = Some field \/ strip_prefix $"build." key = Some field -> raw_build (rebuild b l) field = raw_build l field) ->
  get m' (InterpolateFacts.property_name key) = get m (InterpolateFacts.property_name key) ->
  source_of m' (rebuild b l) key = source_of m l key.
Proof.
  intros Hb Hm. unfold source_of.
  assert ((build_field key ≫= raw_build (rebuild b l)) = (build_field key ≫= raw_build l)) as ->.
  { destruct (build_field key) as [field|]; [|done]. cbn. apply Hb. by left. }
  assert ((strip_prefix $"build." key ≫= raw_build (rebuild b l)) = (strip_prefix $"build." key ≫= raw_build l)) as ->.
  { destruct (strip_prefix $"build." key) as [field|]; [|done]. cbn [mbind option_bind]. apply Hb. by right. }
  assert (forall key, resolve_builtin key (project (rebuild b l)) = resolve_builtin key (project l)) as -> by (intros k0; by destruct l as [[]]).
  assert (forall key, resolve_unprefixed_model_field key (project (rebuild b l)) = resolve_unprefixed_model_field key (project l)) as ->
    by (intros k0; by destruct l as [[]]).
  assert (raw_prerequisite (rebuild b l) key = raw_prerequisite l key) as -> by (unfold raw_prerequisite; by destruct l as [[]]).
  assert (forall key, ambient (rebuild b l) key = ambient l key) as ->; [|by rewrite Hm].
  intros k0. unfold ambient, os_detected_on_linux, resolve_system_property.
  assert (platform_of (rebuild b l) = platform_of l) as -> by (by destruct l as [[] []]).
  assert (environment_of (rebuild b l) = environment_of l) as -> by (by destruct l as [[] ? []]).
  done.
Qed.

Lemma raw_build_rebuild b l field : (forall p, project l = Some p -> Build.field b field = Build.field (ProjectInfo.build p) field) ->
  raw_build (rebuild b l) field = raw_build l field.
Proof. intros Hf. unfold raw_build. destruct l as [[p|] ? ? ?]; [|done]. cbn in *. by rewrite (Hf p). Qed.

(** A name that reads a field of [<build>] has one of the three prefixes. *)
Lemma build_field_names key field : build_field key = Some field \/ strip_prefix $"build." key = Some field ->
  referenced_field key = Some field /\ exists prefix, prefix ∈ [$"project.build."; $"pom.build."; $"build."] /\ key = prefix ++ field.
Proof.
  unfold build_field, referenced_field. destruct (strip_prefix $"project.build." key) as [f|] eqn:E1.
  { apply strip_prefix_Some in E1. subst. intros [[= ->]|E]; [|done]. split; [done|]. eexists; split; [|done]. set_solver. }
  destruct (strip_prefix $"pom.build." key) as [f|] eqn:E2.
  { apply strip_prefix_Some in E2. subst. intros [[= ->]|E]; [|done]. split; [done|]. eexists; split; [|done]. set_solver. }
  intros [?|E]; [done|]. split; [done|]. apply strip_prefix_Some in E. eexists; split; [|done]. set_solver.
Qed.

(** The property a name reads is the name or its alias. *)
Lemma property_name_alias key : properties_alias key = Some (InterpolateFacts.property_name key) \/ properties_alias key = None /\ InterpolateFacts.property_name key = key.
Proof.
  unfold properties_alias, InterpolateFacts.property_name. destruct (strip_prefix _ key); [by left|]. destruct (strip_prefix _ key); [by left|]. by right.
Qed.

(** ** The parts of a profile that is not relevant *)

Record irrelevant (k : ResolutionKeys) (pr : Profile.t) : Prop := {
  irr_dependencies : forall d, d ∈ Profile.dependencies pr -> reaches k d = false;
  irr_management : forall d, d ∈ default [] (Profile.dependency_management pr) -> manages k d = false;
  irr_repositories : Profile.repositories pr = [];
  irr_modules : key_role k = RoleProject -> Profile.modules pr = [];
  irr_dynamic : key_dynamic k = true -> props (Profile.properties pr) = [];
  irr_properties : forall name, name ∈ map fst (props (Profile.properties pr)) -> name ∉ key_names k;
  irr_build : forall field, sets_build pr field = true ->
    key_dynamic k = false /\ forall prefix, prefix ∈ [$"project.build."; $"pom.build."; $"build."] -> prefix ++ field ∉ key_names k }.

Lemma existsb_false {A} (f : A -> bool) l x : existsb f l = false -> x ∈ l -> f x = false.
Proof.
  intros E Hx. destruct (f x) eqn:Ef; [|done]. assert (existsb f l = true) as Et; [|congruence].
  apply existsb_exists. exists x. split; [by apply list_elem_of_In|done].
Qed.

Lemma is_relevant_false k pr : is_relevant k pr = false -> irrelevant k pr.
Proof.
  unfold is_relevant. intros E. repeat apply orb_false_iff in E as [E ?H].
  match goal with H1 : existsb _ PROFILE_NAMES = false |- _ => rename H1 into Hb end. split.
  - intros d Hd. by eapply existsb_false.
  - intros d Hd. destruct (Profile.dependency_management pr) as [l|]; [|by apply elem_of_nil in Hd]. by eapply existsb_false.
  - match goal with H1 : negb (bool_decide (Profile.repositories pr = [])) = false |- _ => by apply negb_false_iff, bool_decide_eq_true in H1 end.
  - intros Hr. match goal with H1 : bool_decide (key_role k = RoleProject) && _ = false |- _ => rewrite bool_decide_true in H1 by done;
      by apply negb_false_iff, bool_decide_eq_true in H1 end.
  - intros Hd. match goal with H1 : _ && key_dynamic k = false |- _ => rewrite Hd, andb_true_r in H1;
      by apply negb_false_iff, bool_decide_eq_true in H1 end.
  - intros name Hname Hin. apply list_elem_of_fmap in Hname as (x & -> & Hx).
    match goal with H1 : existsb _ (props _) = false |- _ => pose proof (existsb_false _ _ _ H1 Hx) as Ex end.
    cbn in Ex. by rewrite bool_decide_true in Ex.
  - intros field Hs. unfold sets_build in Hs. apply andb_true_iff in Hs as [Hf%bool_decide_eq_true Hs].
    pose proof (existsb_false _ _ _ Hb Hf) as Ex. cbv beta in Ex. rewrite Hs in Ex. cbn [andb] in Ex. apply orb_false_iff in Ex as [Ed Ep].
    split; [done|]. intros prefix Hp. pose proof (existsb_false _ _ _ Ep Hp) as Ex. cbv beta in Ex. by apply bool_decide_eq_false in Ex.
Qed.

Section Irrelevant.
Context (chain : list Pom.t) (c : ActivationContext) (role : LineageRole) (pr : Profile.t).
Abbreviation k := (plugin_keys chain c role).
Context (Hirr : irrelevant k pr).

Lemma sources_agree m m' l b name : differ_by pr m m' l b -> trusted k name -> source_of m l name = source_of m' (rebuild b l) name.
Proof.
  intros [Hm Hb] Ht. symmetry. apply source_of_ext.
  - intros field Hf. apply raw_build_rebuild. intros p Hp. apply Hb; [done|]. destruct (sets_build pr field) eqn:Es; [|done].
    destruct (irr_build _ _ Hirr field Es) as [Hd Hn]. apply build_field_names in Hf as [_ (prefix & Hp1 & ->)].
    destruct Ht as [Ht|[Ht _]]; [congruence|]. by destruct (Hn prefix Hp1).
  - apply Hm. intros Hin. destruct Ht as [Ht|[Ht Hal]].
    + rewrite (irr_dynamic _ _ Hirr Ht) in Hin. by apply elem_of_nil in Hin.
    + apply (irr_properties _ _ Hirr _ Hin). destruct (property_name_alias name) as [E|[_ ->]]; [by apply Hal|done].
Qed.

Lemma follows_noted name t : name ∈ key_names k -> t ∈ lineage_texts chain c role name -> noted k t.
Proof.
  intros Hn Ht. destruct (plugin_keys_ok chain c role) as (_ & _ & Hc & _). destruct (Hc name Hn) as [Hx|Hx]; [by apply elem_of_nil in Hx|by apply Hx].
Qed.

Lemma raw_build_noted m l name field raw finish : drawn chain c role m l -> name ∈ key_names k -> referenced_field name = Some field ->
  raw_build l field = Some (raw, finish) -> noted k raw.
Proof.
  intros Hd Hn Hf Er. apply (follows_noted name); [done|]. unfold lineage_texts, name_texts. rewrite !elem_of_app. right. right.
  rewrite Hf. cbn. apply push_all_elem. right. unfold raw_build in Er.
  apply bind_Some in Er as (p & Ep & Er). apply bind_Some in Er as (declared & Ed & Er). apply bind_Some in Er as (raw' & Er' & Er). simplify_eq.
  destruct declared as [value|]; simplify_eq; [by eapply drawn_build|]. unfold build_entries. apply elem_of_app. right.
  apply list_elem_of_omap. exists field. rewrite Er'. split; [|done]. unfold Build.field in Ed.
  apply bind_Some in Ed as ([i x] & E & _). apply list_find_Some in E as (E & <- & _). by eapply list_elem_of_lookup_2.
Qed.

Lemma source_noted m l name raw finish : drawn chain c role m l -> name ∈ key_names k ->
  (forall alias, properties_alias name = Some alias -> alias ∈ key_names k) -> source_of m l name = Expands raw finish -> noted k raw.
Proof.
  intros Hd Hn Hal. unfold source_of. destruct (build_field name ≫= raw_build l) as [[r f]|] eqn:Eb.
  { intros [= <- <-]. apply bind_Some in Eb as (field & Ef & Er). destruct (build_field_names name field ltac:(by left)). by eapply raw_build_noted. }
  destruct (resolve_builtin _ _); [done|]. destruct (raw_prerequisite l name) as [r|] eqn:Ep.
  { intros [= <- <-]. apply (follows_noted name); [done|]. unfold lineage_texts, name_texts. rewrite !elem_of_app. right. left.
    unfold raw_prerequisite in Ep. destruct (_ && _) eqn:E; [done|]. rewrite (drawn_prerequisite _ _ _ _ _ Hd _ Ep).
    rewrite bool_decide_true; [by left|]. apply andb_false_iff in E as [E|E]; apply negb_false_iff, bool_decide_eq_true in E as ->; set_solver. }
  cbv zeta. destruct (get m (InterpolateFacts.property_name name)) as [r|] eqn:Eg.
  { intros [= <- <-]. apply (follows_noted (InterpolateFacts.property_name name)).
    - destruct (property_name_alias name) as [E|[_ ->]]; [by apply Hal|done].
    - unfold lineage_texts, name_texts. rewrite elem_of_app. left. apply push_all_elem. right. by apply (drawn_properties _ _ _ _ _ Hd). }
  destruct (ambient _ _); [done|]. destruct (strip_prefix $"build." name ≫= raw_build l) as [[r f]|] eqn:Es.
  - intros [= <- <-]. apply bind_Some in Es as (field & Ef & Er). destruct (build_field_names name field ltac:(by right)). by eapply raw_build_noted.
  - by destruct (resolve_unprefixed_model_field _ _).
Qed.

(** Every text noted expands as before. *)
Lemma irrelevant_expands m m' l b text out : drawn chain c role m l -> differ_by pr m m' l b -> noted k text ->
  expands_to (source_of m l) text out <-> expands_to (source_of m' (rebuild b l)) text out.
Proof.
  intros Hd Hdif Hn. assert (forall fuel, reference (source_of m l) fuel text = reference (source_of m' (rebuild b l)) fuel text) as E.
  { intros fuel. apply (noted_agree k); [intros name; by apply sources_agree| |done].
    intros name raw finish Ht Hdyn. destruct Ht as [Ht|[Ht Hal]]; [congruence|]. by apply source_noted. }
  unfold expands_to. by setoid_rewrite E.
Qed.
End Irrelevant.

(** ** Injecting a profile that is not relevant *)

Lemma of_lineage_conditional chain c role p pr : p ∈ chain -> pr ∈ Pom.profiles p -> is_conditional pr = true ->
  (of_lineage chain c role).1 = plugin_keys chain c role.
Proof.
  intros Hp Hpr Hc. unfold of_lineage. assert (existsb is_conditional (concat (map Pom.profiles chain)) = true) as ->; [|done].
  apply existsb_exists. exists pr. split; [|done]. apply in_concat. exists (Pom.profiles p).
  split; [by apply in_map, list_elem_of_In|by apply list_elem_of_In].
Qed.

Lemma inject_one pr p :
  Pom.dependencies (inject_profiles [pr] p) = merge_keyed management_key (Pom.dependencies p) [Profile.dependencies pr] /\
  default [] (Pom.dependency_management (inject_profiles [pr] p)) =
    merge_keyed management_key (default [] (Pom.dependency_management p)) [default [] (Profile.dependency_management pr)] /\
  Pom.repositories (inject_profiles [pr] p) = inject_repositories (Pom.repositories p) [pr] /\
  Pom.modules (inject_profiles [pr] p) = inject_modules (Pom.modules p) pr.
Proof.
  unfold inject_profiles. destruct (foldl _ _ [pr]) as [properties shadowed]. split_and!; [done| |done|done].
  cbn [Pom.dependency_management omap list_omap]. by destruct (Profile.dependency_management pr).
Qed.

