(* ===== verification/Lineage.v ===== *)
(** * Inheritance ([rv-maven-model/src/inheritance.rs])

    The walk from a POM up its parents, the checks of what a parent declares, the
    injection of active profiles and the merge of the lineage into one model.  The source
    of parents is an interface whose calls may change its state. *)

From Stdlib Require Import Ascii String Lia.
From stdpp Require Import base list strings gmap.
From S2P Require Import Prelude Iter IndexMap Str Version Range Component Dependency Environment Interpolate Pom Merge Activation ArtifactVersion Relevance.

#[local] Set Warnings "-clear-no-such-hyp".

Definition MAX_PARENT_CHAIN_DEPTH : nat := 100.

(** [ModelPolicy], [MissingParent] and [ParentLookup] of [source.rs]. *)
Inductive MissingParent := FailBuild | InheritDeclaredCoordinates.
Record ModelPolicy := { policy_root : bool; missing_parent : MissingParent }.
Inductive ParentLookup := ForProject | ForImport.

(** ** Labels and blame *)

Definition has_expression (text : str) : bool := contains $"${" text.

Definition parent_has_expression (p : Parent.t) : bool :=
  existsb has_expression [Parent.group_id p; Parent.artifact_id p; Parent.version p].

Definition colon3 (a b c : str) : str := a ++ $":" ++ b ++ $":" ++ c.

(** [pom_label]: the characters of the coordinates, bounded for a message. *)
Definition pom_label (p : Pom.t) : list N :=
  let shown text := show_untrusted (bounded (default [] text)) in
  let colon := ascii_chars $":" in
  shown (unless_set (Pom.group_id p) (Parent.group_id <$> Pom.parent p)) ++ colon
  ++ shown (Pom.artifact_id p) ++ colon
  ++ shown (unless_set (Pom.version p) (Parent.version <$> Pom.parent p)).

Definition is_reactor_module (p : Pom.t) : bool :=
  match Pom.provenance p with
  | Some (Provenance.RootProject _) | Some (Provenance.ReactorModule _) => true
  | _ => false
  end.

Definition is_fetched (p : Pom.t) : bool := is_some_and (fun x => negb (Provenance.is_local x)) (Pom.provenance p).

Definition in_fetched_pom (label : list N) (error : ModelError) : ModelError :=
  match error with
  | CycleOf names => InvalidPom (CycleIn label names)
  | ParentExpression parent => FetchedParentExpression label parent
  | other => other
  end.

Definition in_pom (p : Pom.t) (error : ModelError) : ModelError :=
  if is_fetched p then in_fetched_pom (pom_label p) error else error.

(** [FetchedProperties]: the properties fetched POMs define, with the labels of those
    POMs, and the ranges that were resolved. *)
Record FetchedProperties := { fetched_keys : gmap str (list N); fetched_ranges : list (str * str) }.

Definition forget (f : FetchedProperties) (name : str) : FetchedProperties :=
  {| fetched_keys := delete name (fetched_keys f); fetched_ranges := fetched_ranges f |}.

(** The names of a cycle, from the first place of its last name on. *)
Fixpoint cycle_of (closing : str) (names : list str) : option (list str) :=
  match names with
  | [] => None
  | name :: rest => if decide (name = closing) then Some names else cycle_of closing rest
  end.

Definition blame (f : FetchedProperties) (error : ModelError) : ModelError :=
  let owner := match error with
               | CycleOf names =>
                 let cycle := default names (closing ← last names; cycle_of closing names) in
                 if forallb (fun name => bool_decide (is_Some (fetched_keys f !! name))) cycle
                 then first ← head cycle; fetched_keys f !! first
                 else None
               | _ => None
               end in
  match owner with Some owner => in_fetched_pom owner error | None => error end.

Section Lineage.
Context `{Unicode}.

Definition parent_version_range (p : Parent.t) : option VersionReq :=
  let version := trim_start (Parent.version p) in
  if starts_with_char (one_of ["["; "("]%char) version then ok (parse_req version) else None.

(** ** The checks of a project's lineage *)

Fixpoint all_some {A} (l : list (option A)) : option (list A) :=
  match l with
  | [] => Some []
  | o :: l => x ← o; xs ← all_some l; Some (x :: xs)
  end.

Definition model_segments (text : str) : option (list N) :=
  all_some (map parse_u64 (List.filter (fun s => negb (bool_decide (s = []))) (split "."%char text))).

Definition compare_segments (a b : list N) : comparison :=
  foldr ord_then Eq (map (fun i => N.compare (nth i a 0%N) (nth i b 0%N)) (seq 0 (max (length a) (length b)))).

Definition reject_unsupported_model_version (p : Pom.t) : result ModelError unit :=
  match Pom.model_version p with
  | None => Ok tt
  | Some version =>
    if bool_decide (version = []) || bool_decide (version = $"4.0.0") then Ok tt
    else
      Err (InvalidPom (match (ours ← model_segments version; supported ← model_segments $"4.0.0"; Some (compare_segments ours supported)) with
                       | Some Gt => NewerModel version
                       | Some Lt => OlderModel version
                       | _ => OtherModel version
                       end))
  end.

Fixpoint reject_duplicate_ids (seen : list str) (profiles : list Profile.t) : result ModelError unit :=
  match profiles with
  | [] => Ok tt
  | profile :: profiles =>
    if bool_decide (Profile.id profile ∈ seen) then Err (InvalidPom (DuplicateProfile (Profile.id profile)))
    else reject_duplicate_ids (Profile.id profile :: seen) profiles
  end.

Definition reject_duplicate_profile_ids (p : Pom.t) : result ModelError unit := reject_duplicate_ids [] (Pom.profiles p).

(** The field a repository lacks: [Some None] is its id, [Some (Some id)] its URL. *)
Definition missing_field (repositories : list PomRepo.t) : option (option str) :=
  head (omap (fun r => match opt_filter (fun id => negb (bool_decide (trim id = []))) (PomRepo.id r) with
                       | None => Some None
                       | Some id => if bool_decide (PomRepo.url r = []) then Some (Some id) else None
                       end) repositories).

Definition reject_incomplete_repositories (p : Pom.t) (parent : option Parent.t) : result ModelError unit :=
  match missing_field (Pom.repositories p) with
  | Some field => Err (InvalidPom (MissingRepositoryField None field parent))
  | None =>
    match head (omap (fun profile => field ← missing_field (Profile.repositories profile); Some (Profile.id profile, field)) (Pom.profiles p)) with
    | Some (id, field) => Err (InvalidPom (MissingRepositoryField (Some id) field parent))
    | None => Ok tt
    end
  end.

(** ** What a parent declares *)

(** How the coordinates of a POM expand: with its properties alone, or in a context. *)
Definition interpolate_in (properties : PropertyMap) (c : option ActivationContext) (text : str) : result Interpolate.PomError str :=
  match c with
  | Some c => (interpolate_str_with_system_properties properties text (interpolation_system_properties c) (model_environment c)).1.1
  | None => (interpolate_str_no_project properties text).1.1
  end.

(** A coordinate of a POM: as it expands when that is the one asked for, else as
    written. *)
Definition expanded_coordinate (properties : PropertyMap) (c : option ActivationContext) (actual inherited : option str) (requested : str) : str :=
  let actual := default [] (unless_set actual inherited) in
  if negb (bool_decide (actual = requested)) && has_expression actual
     && bool_decide (ok (interpolate_in properties c actual) = Some requested)
  then requested else actual.

Definition verify_pom_coord_with (group artifact version : str) (fetched : Pom.t) (properties : PropertyMap) (c : option ActivationContext)
    : result ModelError unit :=
  let parent := Pom.parent fetched in
  let actual_group := expanded_coordinate properties c (Pom.group_id fetched) (Parent.group_id <$> parent) group in
  let actual_artifact := expanded_coordinate properties c (Pom.artifact_id fetched) None artifact in
  let actual_version := expanded_coordinate properties c (Pom.version fetched) (Parent.version <$> parent) version in
  if negb (bool_decide (actual_group = group)) || negb (bool_decide (actual_artifact = artifact))
     || negb (bool_decide (actual_version = version))
  then Err (ParentCoordMismatch {| expected_group := group; expected_artifact := artifact; expected_version := version;
                                   actual_group := actual_group; actual_artifact := actual_artifact; actual_version := actual_version |})
  else Ok tt.

Definition verify_pom_coord (group artifact version : str) (fetched : Pom.t) : result ModelError unit :=
  verify_pom_coord_with group artifact version fetched (Pom.properties fetched) None.

(** [str::replace] of the two bytes of an opening brace. *)
Fixpoint unbrace (s : str) : str :=
  match s with
  | "$"%char :: "{"%char :: rest => "$"%char :: unbrace rest
  | c :: rest => c :: unbrace rest
  | [] => []
  end.

Definition local_parent_in_range (version range : str) : bool :=
  match ArtifactVersion.contains version range with
  | Some b => b
  | None =>
    match parse_req range with
    | Ok range => match Version.parse (unbrace version) with Ok parsed => req_matches range parsed | Err _ => false end
    | Err _ => false
    end
  end.

Definition version_in_range (parent : Parent.t) (parent_pom : Pom.t) : result ModelError str :=
  let written := default [] (unless_set (Pom.version parent_pom) (Parent.version <$> Pom.parent parent_pom)) in
  if local_parent_in_range written (Parent.version parent) then
    Ok (default written (ok (interpolate_str_no_project (Pom.properties parent_pom) written).1.1))
  else
    Err (ParentCoordMismatch {| expected_group := Parent.group_id parent; expected_artifact := Parent.artifact_id parent;
                                expected_version := Parent.version parent; actual_group := Parent.group_id parent;
                                actual_artifact := Parent.artifact_id parent; actual_version := written |}).

Definition VERSION_REFERENCES : list str :=
  [$"${pom.version}"; $"${project.version}"; $"${pom.parent.version}"; $"${project.parent.version}"].

Definition require_constant_version (child : Pom.t) (parent : Parent.t) : result ModelError unit :=
  match Pom.version child with
  | Some own => if bool_decide (own ∈ VERSION_REFERENCES)
                then Err (in_pom child (InvalidPom (VersionNotConstant (Parent.version parent)))) else Ok tt
  | None => Err (in_pom child (InvalidPom (VersionNotConstant (Parent.version parent))))
  end.

Definition declares_expression (p : Pom.t) : bool :=
  bool_decide (Pom.group_id p = None) || bool_decide (Pom.version p = None)
  || existsb has_expression (omap id [unless_set (Pom.group_id p) (Parent.group_id <$> Pom.parent p); Pom.artifact_id p;
                                      unless_set (Pom.version p) (Parent.version <$> Pom.parent p)]).

(** [declares_through_ancestors]: a fetched parent once its expressions are expanded
    with the properties of its lineage and the coordinates of its own parent. *)
Definition parent_entries (c : option ActivationContext) (p : Parent.t) (m : PropertyMap) : PropertyMap :=
  let system := interpolation_system_properties <$> c in
  foldl (fun m '(field, value) =>
    foldl (fun m prefix =>
      let key := prefix ++ $"." ++ field in
      if bool_decide (prefix = $"parent") then
        if bool_decide (get m key <> None) || is_some_and (fun s => bool_decide (s !! key <> None)) system then m
        else insert_below_system key value m
      else insert key value m) m [$"project.parent"; $"pom.parent"; $"parent"])
    m [($"groupId", Parent.group_id p); ($"artifactId", Parent.artifact_id p); ($"version", Parent.version p)].

Definition lineage_properties (c : option ActivationContext) (lineage : list Pom.t) : PropertyMap :=
  let m := foldl (fun m p => extend m (Pom.properties p)) new_map (reverse lineage) in
  match c with
  | Some c =>
    let add m entries := foldl (fun m x => insert_external x.1 x.2 m) m entries in
    Interpolate.set_input_context (ctx_source c) (ctx_default_packaging c)
      (add (add m (props (ctx_settings_properties c))) (map_to_list (ctx_properties c)))
  | None => m
  end.

Definition declares_through_ancestors (lineage : list Pom.t) (requested : Parent.t) (c : option ActivationContext) : bool :=
  match lineage with
  | [] => false
  | first :: ancestors =>
    let m := lineage_properties c lineage in
    let m := match Pom.parent first with Some p => parent_entries c p m | None => m end in
    let fetched := foldl (fun f a => Pom.with_coordinates (unless_set (Pom.group_id f) (Pom.group_id a))
                                       (unless_set (Pom.version f) (Pom.version a)) f) first ancestors in
    is_ok (verify_pom_coord_with (Parent.group_id requested) (Parent.artifact_id requested) (Parent.version requested) fetched m c)
  end.

(** ** The parents of a POM *)

(** Where parents come from: the source may set the version it selected for a range, and
    observes the repositories of each POM of the lineage. *)
Class ModelSource (S E : Type) := {
  source_error : ModelError -> E;
  source_parent : S -> Parent.t -> ParentLookup -> result E (option Pom.t * Parent.t) * S;
  source_observe : S -> list PomRepo.t -> S;
}.

(** The interpolation of the activations of a POM ([project/profiles.rs]), as inheritance
    uses it. *)
Class LineageProfiles :=
  interpolate_lineage_activations : ActivationContext -> list Profile.t -> PropertyMap -> result ModelError (list Profile.t).

Section Walk.
Context `{JavaRegex} `{LineageProfiles} (files : str -> bool) {S E : Type} `{ModelSource S E}.

(** [ActivationError::into_pom_error]. *)
Definition activation_error (error : ActivationError * str) : ModelError := InvalidPom (BadActivation error.2 error.1).

(** The profiles of a raw model that are active, its activations interpolated. *)
Definition active_of (p : Pom.t) (c : ActivationContext) : result ModelError (list Profile.t) :=
  profiles ← map_err (in_pom p) (interpolate_lineage_activations c (Pom.profiles p) (Pom.declared_properties p));
  selection ← map_err (fun error => in_pom p (activation_error error)) (select_profiles files profiles c);
  Ok (omap (fun index => profiles !! index) (active selection)).

Definition observe_lineage_repositories (s : S) (p : Pom.t) (c : option ActivationContext) : result ModelError S :=
  active ← match c with Some c => active_of p c | None => Ok [] end;
  let usable := map PomRepo.read_policies_as_written
                  (List.filter (fun r => negb (bool_decide (PomRepo.url r = [])) && negb (has_expression (PomRepo.url r)))
                     (inject_repositories (Pom.repositories p) active)) in
  Ok (match usable with [] => s | _ => source_observe s usable end).

(** What the walk has found: the POMs below the current one, the parents asked for, the
    fetched parents still to verify with the error they had, and the ranges resolved. *)
Record Found := {
  below : list Pom.t;
  visited : list (str * str * str);
  unverified : list (nat * Parent.t * ModelError);
  parent_ranges : list (str * str);
}.

Definition gav (p : Parent.t) : str := colon3 (Parent.group_id p) (Parent.artifact_id p) (Parent.version p).

(** The checks of a parent that the source found. *)
Definition accept_parent (policy : ModelPolicy) (c : option ActivationContext) (current : Pom.t) (parent requested : Parent.t) (parent_pom : Pom.t) (f : Found)
    : result ModelError Found :=
  let range := bool_decide (parent_version_range parent <> None) in
  requested ← (if range then
                 _ ← require_constant_version current parent;
                 if bool_decide (Parent.version requested = Parent.version parent)
                 then Parent.at_version requested <$> version_in_range parent parent_pom else Ok requested
               else Ok requested);
  let ranges := if range && (is_fetched parent_pom || (negb (policy_root policy) && is_reactor_module parent_pom))
                then entry_with (gav parent) (fun _ => gav requested) (parent_ranges f) else parent_ranges f in
  unverified ←
    (if is_reactor_module parent_pom then Ok (unverified f)
     else match verify_pom_coord (Parent.group_id requested) (Parent.artifact_id requested) (Parent.version requested) parent_pom with
          | Ok _ => Ok (unverified f)
          | Err error => if declares_expression parent_pom then Ok (unverified f ++ [(length (below f) + 1, requested, error)]) else Err error
          end);
  _ ← (if bool_decide (c <> None) && policy_root policy then
         _ ← reject_unsupported_model_version parent_pom;
         _ ← (if is_some_and Provenance.is_local (Pom.provenance parent_pom) then reject_duplicate_profile_ids parent_pom else Ok tt);
         reject_incomplete_repositories parent_pom (Some requested)
       else Ok tt);
  Ok {| below := below f ++ [current]; visited := visited f; unverified := unverified; parent_ranges := ranges |}.

(** A parent that the source does not have: the POM goes on without it, or the build
    fails. *)
Definition without_parent (policy : ModelPolicy) (current : Pom.t) (parent : Parent.t) : result ModelError (Pom.t * bool) :=
  if parent_has_expression parent then Err (in_pom current (ParentExpression (gav parent)))
  else
    let can_continue := (bool_decide (Pom.group_id current <> None) || negb (bool_decide (Parent.group_id parent = [])))
                        && (bool_decide (Pom.version current <> None) || negb (bool_decide (Parent.version parent = []))) in
    match missing_parent policy with
    | InheritDeclaredCoordinates =>
      if can_continue then
        Ok (Pom.with_coordinates (unless_set (Pom.group_id current) (Some (Parent.group_id parent)))
              (unless_set (Pom.version current) (Some (Parent.version parent))) current,
            bool_decide (Pom.group_id current = None) || bool_decide (Pom.version current = None))
      else Err (ParentNotFound (Parent.group_id parent) (Parent.artifact_id parent) (Parent.version parent))
    | FailBuild => Err (ParentNotFound (Parent.group_id parent) (Parent.artifact_id parent) (Parent.version parent))
    end.

(** The loop of [apply_inheritance_tracked], with the hops that are left. *)
Fixpoint walk_parents (hops : nat) (policy : ModelPolicy) (lookup : ParentLookup) (c : option ActivationContext) (f : Found) (current : Pom.t) (s : S)
    : result E (list Pom.t * Found * option bool) * S :=
  match Pom.parent current with
  | None => (Ok (below f ++ [current], f, None), s)
  | Some parent =>
    match hops with
    | O => (Err (source_error (InvalidPom ParentChainLimit)), s)
    | Datatypes.S hops =>
      let key := (Parent.group_id parent, Parent.artifact_id parent, Parent.version parent) in
      if bool_decide (key ∈ visited f) then (Err (source_error (InvalidPom ParentCycle)), s)
      else
        let f := {| below := below f; visited := visited f ++ [key]; unverified := unverified f; parent_ranges := parent_ranges f |} in
        match source_parent s parent lookup with
        | (Err error, s) => (Err error, s)
        | (Ok (Some parent_pom, requested), s) =>
          match accept_parent policy c current parent requested parent_pom f with
          | Err error => (Err (source_error error), s)
          | Ok f =>
            match observe_lineage_repositories s parent_pom c with
            | Err error => (Err (source_error error), s)
            | Ok s => walk_parents hops policy lookup c f parent_pom s
            end
          end
        | (Ok (None, _), s) =>
          match without_parent policy current parent with
          | Err error => (Err (source_error error), s)
          | Ok (current, unread) => (Ok (below f ++ [current], f, Some unread), s)
          end
        end
    end
  end.

(** ** Active profiles *)

(** [inject_active_profiles]: the host reads of a profile count when the profile can
    change the resolution, or a default profile of the POM can. *)
Definition with_active (ids : list str) (selected : list (list str)) (p : Pom.t) : Pom.t := {|
  Pom.model_version := Pom.model_version p; Pom.group_id := Pom.group_id p; Pom.artifact_id := Pom.artifact_id p;
  Pom.version := Pom.version p; Pom.packaging := Pom.packaging p; Pom.parent := Pom.parent p;
  Pom.licenses := Pom.licenses p; Pom.prerequisites := Pom.prerequisites p; Pom.dependencies := Pom.dependencies p;
  Pom.dependency_management := Pom.dependency_management p; Pom.distribution_management := Pom.distribution_management p;
  Pom.build := Pom.build p; Pom.properties := Pom.properties p; Pom.profiles := Pom.profiles p;
  Pom.repositories := Pom.repositories p; Pom.modules := Pom.modules p; Pom.own_properties := Pom.own_properties p;
  Pom.user_properties := Pom.user_properties p; Pom.shadowed_properties := Pom.shadowed_properties p;
  Pom.active_profiles := ids; Pom.selected_profiles := selected; Pom.provenance := Pom.provenance p;
  Pom.unread_parent := Pom.unread_parent p |}.

Definition with_profiles (profiles : list Profile.t) (p : Pom.t) : Pom.t := {|
  Pom.model_version := Pom.model_version p; Pom.group_id := Pom.group_id p; Pom.artifact_id := Pom.artifact_id p;
  Pom.version := Pom.version p; Pom.packaging := Pom.packaging p; Pom.parent := Pom.parent p;
  Pom.licenses := Pom.licenses p; Pom.prerequisites := Pom.prerequisites p; Pom.dependencies := Pom.dependencies p;
  Pom.dependency_management := Pom.dependency_management p; Pom.distribution_management := Pom.distribution_management p;
  Pom.build := Pom.build p; Pom.properties := Pom.properties p; Pom.profiles := profiles;
  Pom.repositories := Pom.repositories p; Pom.modules := Pom.modules p; Pom.own_properties := Pom.own_properties p;
  Pom.user_properties := Pom.user_properties p; Pom.shadowed_properties := Pom.shadowed_properties p;
  Pom.active_profiles := Pom.active_profiles p; Pom.selected_profiles := Pom.selected_profiles p;
  Pom.provenance := Pom.provenance p; Pom.unread_parent := Pom.unread_parent p |}.

Definition inject_active_profiles (p : Pom.t) (c : ActivationContext) (is_relevant : Profile.t -> bool) (r : Recorder)
    : result ModelError (Pom.t * Recorder) :=
  selection ← map_err activation_error (select_profiles files (Pom.profiles p) c);
  let relevant := map is_relevant (Pom.profiles p) in
  let default_relevant := existsb (fun profile => is_relevant profile && is_active_by_default profile) (Pom.profiles p) in
  let r := foldl (fun r '(reads, relevant) => if (relevant : bool) || default_relevant then record_all (ctx_environment c) reads r else r)
             r (zip (selection_reads selection) relevant) in
  let id_of index := Profile.id <$> Pom.profiles p !! index in
  let shown := List.filter (fun index => default false (relevant !! index) || negb (host_decides selection (Pom.profiles p) index)) (active selection) in
  Ok (inject_profiles (omap (fun index => Pom.profiles p !! index) (active selection))
        (with_active (omap id_of shown) [omap id_of (active selection)] p), r).

(** The profiles of every POM of the lineage. *)
Fixpoint inject_lineage (c : ActivationContext) (is_relevant : Profile.t -> bool) (chain : list Pom.t) (r : Recorder)
    : result ModelError (list Pom.t * Recorder) :=
  match chain with
  | [] => Ok ([], r)
  | p :: chain =>
    profiles ← map_err (in_pom p) (interpolate_lineage_activations c (Pom.profiles p) (Pom.declared_properties p));
    '(p, r) ← map_err (in_pom p) (inject_active_profiles (with_profiles profiles p) c is_relevant r);
    '(chain, r) ← inject_lineage c is_relevant chain r;
    Ok (p :: chain, r)
  end.
End Walk.

(** ** What fetched POMs chose *)

Record FetchedValues := {
  any : bool;
  keys : gmap str (list N);
  fetched_group : option (bool * str);
  fetched_version : option (bool * str);
  local_fields : gmap str str;
  build_fields : gmap str (bool * str);
}.

Definition nothing_fetched : FetchedValues :=
  {| any := false; keys := ∅; fetched_group := None; fetched_version := None; local_fields := ∅; build_fields := ∅ |}.

(** [FetchedValues::record]: [input] is whether the POM is the input of the build. *)
Definition record_pom (v : FetchedValues) (p : Pom.t) (input : bool) : FetchedValues :=
  let fetched := match Pom.provenance p with Some x => negb (Provenance.is_local x) | None => negb input end in
  let label := pom_label p in
  let local := match Pom.artifact_id p with Some a => {[ $"artifactId" := a ]} | None => ∅ end in
  let local := <[ $"packaging" := default $"jar" (Pom.packaging p) ]> local in
  let local := match Pom.parent p with
               | Some parent => <[ $"parent.version" := Parent.version parent ]>
                   (<[ $"parent.artifactId" := Parent.artifact_id parent ]> (<[ $"parent.groupId" := Parent.group_id parent ]> local))
               | None => local end in {|
  any := any v || fetched;
  keys := foldl (fun m '(key, _) => if fetched then <[key := label]> m else delete key m) (keys v) (props (Pom.properties p));
  fetched_group := match Pom.group_id p with Some g => Some (fetched, g) | None => fetched_group v end;
  fetched_version := match Pom.version p with Some x => Some (fetched, x) | None => fetched_version v end;
  local_fields := local;
  build_fields := foldl (fun m '(name, value) => match value with Some value => <[name := (fetched, value)]> m | None => m end)
                    (build_fields v) (zip Build.NAMES (Build.fields (Pom.build p))) |}.

Definition recorded_build (v : FetchedValues) (field : str) : option (bool * str) :=
  match build_fields v !! field with
  | Some x => Some x
  | None => (fun value => (false, value)) <$> super_pom_build field
  end.

(** Where [chose_within] looks for the value of a name. *)
Inductive Trace := Chosen | Skipped | Follow (raw : str).

Definition LOCAL_FIELDS : list str := [$"basedir"; $"baseUri"].

Definition build_name (field : str) : option str :=
  opt_filter (fun field => bool_decide (field ∈ Build.NAMES)) (strip_prefix $"build." field).

Definition or_strip (p q s : str) : option str := match strip_prefix p s with Some rest => Some rest | None => strip_prefix q s end.

Definition follow (x : option (bool * str)) : Trace :=
  match x with Some (true, _) => Chosen | Some (false, raw) => Follow raw | None => Skipped end.

(** The value of a model field that a [project.] or [pom.] name reads. *)
Definition model_field (v : FetchedValues) (field : str) : Trace + option (bool * str) :=
  if decide (field = $"groupId") then inr (fetched_group v)
  else if decide (field = $"version") then inr (fetched_version v)
  else match local_fields v !! field with
       | Some raw => inr (Some (false, raw))
       | None =>
         if bool_decide (field ∈ LOCAL_FIELDS) then inl Skipped
         else match build_name field with
              | Some field => inr (recorded_build v field)
              | None => inl Chosen
              end
       end.

(** A name that no property has. *)
Definition unprefixed_field (v : FetchedValues) (name : str) (alias : bool) : Trace :=
  if decide (name = $"groupId") then follow (fetched_group v)
  else if decide (name = $"version") then follow (fetched_version v)
  else match local_fields v !! name with
       | Some raw => Follow raw
       | None => match build_name name with
                 | Some field => if alias then Skipped else follow (recorded_build v field)
                 | None => Skipped
                 end
       end.

Definition trace_name (v : FetchedValues) (properties : PropertyMap) (c : option ActivationContext) (name : str) : Trace :=
  let alias := or_strip $"project.properties." $"pom.properties." name in
  let field := if bool_decide (alias = None) then or_strip $"project." $"pom." name else None in
  match match field with Some field => model_field v field | None => inr None end with
  | inl trace => trace
  | inr (Some x) => follow (Some x)
  | inr None =>
    let name := default name alias in
    match (c ← c; match ctx_properties c !! name with Some value => Some value | None => get (ctx_settings_properties c) name end) with
    | Some value => Follow value
    | None =>
      if bool_decide (is_Some (keys v !! name)) then Chosen
      else match get properties name with
           | Some value => Follow value
           | None => if bool_decide (is_Some field) then Skipped else unprefixed_field v name (bool_decide (is_Some alias))
           end
    end
  end.

(** [chose_within]: the budget that is left when no fetched value was taken. *)
Fixpoint chose_within (levels : nat) (v : FetchedValues) (properties : PropertyMap) (c : option ActivationContext) (text : str) (budget : N)
    : option N :=
  match levels with
  | O => None
  | S levels =>
    foldl (fun budget name =>
      budget ← budget;
      if (budget =? 0)%N then None
      else if has_expression name then None
      else match trace_name v properties c name with
           | Chosen => None
           | Skipped => Some (budget - 1)%N
           | Follow raw => chose_within levels v properties c raw (budget - 1)%N
           end) (Some budget) (expression_names text)
  end.

Definition chose (v : FetchedValues) (text : str) (properties : PropertyMap) (c : option ActivationContext) : bool :=
  any v && bool_decide (chose_within 17 v properties c text 10000 = None).

(** ** Merging the lineage *)

(** The values of the lineage that the user properties of the child hide. *)
Definition shadow_step (child_user : PropertyMap) (parent : Pom.t) (parent_properties : PropertyMap) (shadowed : PropertyMap) (key : str) : PropertyMap :=
  let inherited := match get (Pom.user_properties parent) key with
                   | Some _ => get (Pom.shadowed_properties parent) key
                   | None => get parent_properties key end in
  match inherited with Some value => insert key value shadowed | None => shadowed end.

Definition inherit (child parent : Pom.t) : Pom.t :=
  let hidden := List.filter (fun key => bool_decide (get (Pom.shadowed_properties child) key = None)) (map fst (props (Pom.user_properties child))) in {|
  Pom.model_version := Pom.model_version child;
  Pom.group_id := unless_set (Pom.group_id child) (Pom.group_id parent);
  Pom.artifact_id := Pom.artifact_id child;
  Pom.version := unless_set (Pom.version child) (Pom.version parent);
  Pom.packaging := Pom.packaging child; Pom.parent := Pom.parent child;
  Pom.licenses := match Pom.licenses child with [] => Pom.licenses parent | l => l end;
  Pom.prerequisites := Pom.prerequisites child;
  Pom.dependencies := merge_dependency_levels [Pom.dependencies child; Pom.dependencies parent];
  Pom.dependency_management := merge_dependency_management (Pom.dependency_management parent) (Pom.dependency_management child);
  Pom.distribution_management := Pom.distribution_management child;
  Pom.build := build_inherit (Pom.build child) (Pom.build parent);
  Pom.properties := extend (Pom.properties parent) (Pom.properties child);
  Pom.profiles := Pom.profiles child;
  Pom.repositories := merge_repositories (Pom.repositories child) (Pom.repositories parent);
  Pom.modules := Pom.modules child; Pom.own_properties := Pom.own_properties child;
  Pom.user_properties := Pom.user_properties child;
  Pom.shadowed_properties := foldl (shadow_step (Pom.user_properties child) parent (Pom.properties parent)) (Pom.shadowed_properties child) hidden;
  Pom.active_profiles := Pom.active_profiles child ++ Pom.active_profiles parent;
  Pom.selected_profiles := Pom.selected_profiles child ++ Pom.selected_profiles parent;
  Pom.provenance := Pom.provenance child; Pom.unread_parent := Pom.unread_parent child |}.

(** The lineage from the input POM to its last ancestor, merged from the end. *)
Fixpoint merge_lineage (chain : list Pom.t) : option Pom.t :=
  match chain with
  | [] => None
  | child :: chain =>
    match merge_lineage chain with
    | Some parent => Some (inherit child parent)
    | None => Some (Pom.finish (merge_repositories (Pom.repositories child) []) (Pom.properties child) (Pom.unread_parent child) child)
    end
  end.

(** What the lineage fetched, recorded from the last ancestor to the input. *)
Fixpoint record_lineage (chain : list Pom.t) (input : bool) : FetchedValues :=
  match chain with
  | [] => nothing_fetched
  | child :: chain => record_pom (record_lineage chain false) child input
  end.

(** A repository that keeps the trust of the project: no fetched value chose its URL. *)
Definition keep_trust (v : FetchedValues) (properties : PropertyMap) (c : option ActivationContext) (r : PomRepo.t) : PomRepo.t :=
  if PomRepo.root_declared r && chose v (PomRepo.url r) properties c then PomRepo.with_root false r else r.

(** ** [apply_inheritance_tracked] *)

Section Apply.
Context `{JavaRegex} `{LineageProfiles} (files : str -> bool) {S E : Type} `{ModelSource S E}.

(** After the walk: profiles, the coordinates that were left to verify, and the merge. *)
Definition build_lineage (policy : ModelPolicy) (lookup : ParentLookup) (c : option ActivationContext) (chain : list Pom.t)
    (unverified : list (nat * Parent.t * ModelError)) (unread : option bool) (r : Recorder) : result ModelError (Pom.t * FetchedValues * Recorder) :=
  let chain := map (fun p => Pom.with_dependencies (merge_dependency_levels [Pom.dependencies p]) p) chain in
  '(chain, r) ← match c with
                | Some c =>
                  let role := if policy_root policy then RoleProject else match lookup with ForImport => RoleImport | ForProject => RoleDependency end in
                  let '(keys, reads) := of_lineage chain c role in
                  inject_lineage files c (is_relevant keys) chain (record_all (ctx_environment c) reads r)
                | None => Ok (chain, r)
                end;
  _ ← foldl (fun acc '(index, requested, error) =>
        _ ← acc; if declares_through_ancestors (drop index chain) requested c then Ok tt else Err error) (Ok tt) unverified;
  effective ← ok_or (merge_lineage chain) (InvalidPom EmptyChain);
  let fetched := record_lineage chain true in
  let properties := match c with
                    | Some c => Interpolate.set_input_context (ctx_source c) (ctx_default_packaging c) (Pom.properties effective)
                    | None => Pom.properties effective end in
  Ok (Pom.finish (map (keep_trust fetched (Pom.properties effective) c) (Pom.repositories effective)) properties unread effective, fetched, r).

Definition apply_inheritance_tracked (p : Pom.t) (s : S) (policy : ModelPolicy) (lookup : ParentLookup) (c : option ActivationContext)
    : result E (Pom.t * FetchedProperties * Recorder) * S :=
  let validation := if bool_decide (c <> None) && policy_root policy then
                      _ ← reject_unsupported_model_version p;
                      _ ← reject_duplicate_profile_ids p;
                      reject_incomplete_repositories p None
                    else Ok tt in
  match validation with
  | Err error => (Err (source_error error), s)
  | Ok _ =>
    match walk_parents files MAX_PARENT_CHAIN_DEPTH policy lookup c {| below := []; visited := []; unverified := []; parent_ranges := [] |} p s with
    | (Err error, s) => (Err error, s)
    | (Ok (chain, f, unread), s) =>
      (match build_lineage policy lookup c chain (unverified f) unread ([], false) with
       | Ok (effective, fetched, r) => Ok (effective, {| fetched_keys := keys fetched; fetched_ranges := parent_ranges f |}, r)
       | Err error => Err (source_error error)
       end, s)
    end
  end.

(** [apply_inheritance_in_context]. *)
Definition apply_inheritance_in_context (p : Pom.t) (s : S) (policy : ModelPolicy) (lookup : ParentLookup) (c : option ActivationContext)
    : result E Pom.t * S :=
  let '(built, s) := apply_inheritance_tracked p s policy lookup c in ((fun x => x.1.1) <$> built, s).
End Apply.
End Lineage.
