(* ===== verification/LineageFacts.v ===== *)
(** * Theorems on inheritance

    What a merged lineage holds, and which POMs it is made of. *)

From Stdlib Require Import Ascii String Lia.
From stdpp Require Import base list strings gmap.
From S2P Require Import Prelude Iter IndexMap Str Version Range Component Dependency Environment Interpolate Pom Merge Activation ArtifactVersion Relevance Lineage.

#[local] Set Warnings "-clear-no-such-hyp".

(** ** Property maps *)

Lemma entry_of_put key key' value l :
  entry_of key' (put key value l) = if decide (key = key') then Some value else entry_of key' l.
Proof.
  induction l as [|[k v] l IH]; cbn; [done|]. destruct (decide (k = key)) as [->|Hne]; cbn.
  - by destruct (decide (key = key')).
  - rewrite IH. destruct (decide (k = key')) as [->|]; [|done]. by rewrite decide_False.
Qed.

Lemma entry_of_None key l : entry_of key l = None <-> key ∉ map fst l.
Proof.
  induction l as [|[k v] l IH]; cbn; [set_solver|]. destruct (decide (k = key)) as [->|]; [split; [done|set_solver]|].
  rewrite IH. set_solver.
Qed.

(** The names of a property map are distinct, as those of a map are. *)
Definition distinct (m : PropertyMap) : Prop := NoDup (map fst (props m)).

Lemma get_extend m other key :
  distinct other -> get (extend m other) key = match get other key with Some v => Some v | None => get m key end.
Proof.
  unfold get, distinct. cbn. generalize (props m). induction (props other) as [|[k v] l IH]; intros p Hnd; [done|].
  cbn in *. apply NoDup_cons in Hnd as [Hk Hnd]. rewrite IH by done. rewrite entry_of_put.
  destruct (decide (k = key)) as [->|]; [|done]. by rewrite (proj2 (entry_of_None key l)).
Qed.

Lemma put_keys key value l : map fst (put key value l) = if decide (key ∈ map fst l) then map fst l else map fst l ++ [key].
Proof.
  induction l as [|[k v] l IH]; cbn; [done|]. destruct (decide (k = key)) as [->|Hne]; cbn.
  - by rewrite decide_True by set_solver.
  - rewrite IH. destruct (decide (key ∈ map fst l)) as [Hk|Hk]; [by rewrite decide_True by set_solver|].
    by rewrite decide_False by set_solver.
Qed.

Lemma extend_distinct m other : distinct m -> distinct (extend m other).
Proof.
  unfold distinct. cbn. generalize (props m). induction (props other) as [|[k v] l IH]; intros p Hp; [done|]. cbn.
  apply IH. rewrite put_keys. destruct (decide _) as [|Hk]; [done|]. apply NoDup_app. split_and!; [done|set_solver|apply NoDup_singleton].
Qed.

Lemma insert_distinct key value m : distinct m -> distinct (insert key value m).
Proof.
  unfold distinct. cbn. intros Hm. rewrite put_keys. destruct (decide _) as [|Hk]; [done|].
  apply NoDup_app. split_and!; [done|set_solver|apply NoDup_singleton].
Qed.

(** ** The nearest definition *)

(** The first value that is set, from the child upwards. *)
Definition nearest {A} (l : list (option A)) : option A := head (omap id l).

Lemma nearest_cons {A} (o : option A) l : nearest (o :: l) = unless_set o (nearest l).
Proof. by destruct o. Qed.

Definition nearest_licenses (chain : list Pom.t) : list License :=
  default [] (head (List.filter (fun l => negb (bool_decide (length l = 0))) (map Pom.licenses chain))).

Lemma build_fields_inherit own parent : Build.fields (build_inherit own parent) = zip_with unless_set (Build.fields own) (Build.fields parent).
Proof. done. Qed.

Definition nearest_field (i : nat) (chain : list Pom.t) : option str :=
  nearest (map (fun p => mjoin (Build.fields (Pom.build p) !! i)) chain).

Lemma merge_lineage_cons child chain :
  merge_lineage (child :: chain) =
  match merge_lineage chain with
  | Some parent => Some (inherit child parent)
  | None => Some (Pom.finish (merge_repositories (Pom.repositories child) []) (Pom.properties child) (Pom.unread_parent child) child)
  end.
Proof. done. Qed.

Lemma merge_lineage_none chain : merge_lineage chain = None -> chain = [].
Proof. destruct chain as [|child chain]; [done|]. rewrite merge_lineage_cons. by destruct (merge_lineage chain). Qed.

Lemma merge_repositories_levels dominant recessive :
  NoDup (map PomRepo.id recessive) -> merge_repositories dominant recessive = merge_levels PomRepo.id [dominant; recessive].
Proof.
  intros Hnd. unfold merge_repositories, merge_levels, level_map. cbn [foldl].
  rewrite (map_collect_id (keyed PomRepo.id recessive)) by (by rewrite keyed_fst).
  rewrite map_offer_nil; [done|]. apply map_extend_NoDup. constructor.
Qed.

(** What each part of the merged model is. *)
Record merged_from (trust : PomRepo.t -> PomRepo.t) (chain : list Pom.t) (effective : Pom.t) : Prop := {
  merged_group : Pom.group_id effective = nearest (map Pom.group_id chain);
  merged_version : Pom.version effective = nearest (map Pom.version chain);
  merged_build : forall i, mjoin (Build.fields (Pom.build effective) !! i) = nearest_field i chain;
  merged_licenses : Pom.licenses effective = nearest_licenses chain;
  merged_properties : forall key, get (Pom.properties effective) key = nearest (map (fun p => get (Pom.properties p) key) chain);
  merged_dependencies : Pom.dependencies effective = merge_levels management_key (map Pom.dependencies chain);
  merged_repositories : Pom.repositories effective = map trust (merge_levels PomRepo.id (map Pom.repositories chain));
  merged_active : Pom.active_profiles effective = concat (map Pom.active_profiles chain) }.

Lemma merge_lineage_ok chain effective :
  Forall (fun p => distinct (Pom.properties p) /\ Pom.dependencies p = merge_levels management_key [Pom.dependencies p]) chain ->
  merge_lineage chain = Some effective -> merged_from id chain effective /\ distinct (Pom.properties effective).
Proof.
  intros Hchain. revert effective. induction Hchain as [|child chain [Hd Hdeps] Hchain IH]; intros effective; [done|].
  rewrite merge_lineage_cons. destruct (merge_lineage chain) as [parent|] eqn:Ep; intros [= <-].
  - destruct (IH parent eq_refl) as [Hp Hpd]. split; [|by apply extend_distinct]. split; cbn [inherit Pom.group_id Pom.version Pom.build Pom.licenses Pom.properties Pom.dependencies Pom.repositories Pom.active_profiles map].
    + by rewrite nearest_cons, (merged_group _ _ _ Hp).
    + by rewrite nearest_cons, (merged_version _ _ _ Hp).
    + intros i. unfold nearest_field. cbn [map]. rewrite nearest_cons. rewrite build_fields_inherit, lookup_zip_with.
      pose proof (merged_build _ _ _ Hp i) as Hb. unfold nearest_field in Hb. rewrite <-Hb.
      destruct (Pom.build child), (Pom.build parent). do 8 (destruct i as [|i]; [done|]). done.
    + unfold nearest_licenses. cbn [map List.filter]. rewrite (merged_licenses _ _ _ Hp). by destruct (Pom.licenses child).
    + intros key. rewrite nearest_cons, <-(merged_properties _ _ _ Hp), get_extend by done. by destruct (get (Pom.properties child) key).
    + change (merge_dependency_levels [Pom.dependencies child; Pom.dependencies parent]) with (merge_levels management_key [Pom.dependencies child; Pom.dependencies parent]).
      rewrite (merged_dependencies _ _ _ Hp). apply merge_levels_again.
    + rewrite (merged_repositories _ _ _ Hp), !map_id, merge_repositories_levels by apply merge_levels_NoDup. apply merge_levels_again.
    + by rewrite (merged_active _ _ _ Hp).
  - apply merge_lineage_none in Ep as ->. split; [|done]. split; cbn [Pom.finish Pom.group_id Pom.version Pom.build Pom.licenses Pom.properties Pom.dependencies Pom.repositories Pom.active_profiles map].
    + by destruct (Pom.group_id child).
    + by destruct (Pom.version child).
    + intros i. unfold nearest_field. cbn [map]. rewrite nearest_cons. by destruct (mjoin _).
    + unfold nearest_licenses. cbn. by destruct (Pom.licenses child).
    + intros key. by destruct (get _ key).
    + done.
    + rewrite map_id, merge_repositories_levels by constructor. apply levels_ext; [cbn; by rewrite !app_nil_r|].
      intros k. unfold first_with. cbn. by destruct (last_with _ k _).
    + cbn. by rewrite app_nil_r.
Qed.

(** ** Blame *)

Lemma cycle_of_closing closing entry rest :
  closing ∉ entry -> cycle_of closing (entry ++ closing :: rest) = Some (closing :: rest).
Proof.
  intros Hc. induction entry as [|name entry IH]; cbn [cycle_of app]; [by rewrite decide_True|].
  rewrite decide_False by set_solver. apply IH. set_solver.
Qed.

(** A cycle is the fault of a fetched POM exactly when fetched POMs define each of its
    names; the names that only lead into it do not count. *)
Lemma blame_cycle f entry name middle :
  name ∉ entry ->
  let names := entry ++ name :: middle ++ [name] in
  blame f (CycleOf names) =
  match fetched_keys f !! name with
  | Some owner => if decide (Forall (fun n => is_Some (fetched_keys f !! n)) middle) then InvalidPom (CycleIn owner names) else CycleOf names
  | None => CycleOf names
  end.
Proof.
  intros Hentry names. unfold blame.
  assert (last names = Some name) as -> by (unfold names; by rewrite app_comm_cons, app_assoc, last_snoc).
  cbn [mbind option_bind]. assert (cycle_of name names = Some (name :: middle ++ [name])) as -> by (by apply cycle_of_closing).
  cbn [default from_option forallb head mbind option_bind id].
  rewrite forallb_app. cbn [forallb]. destruct (fetched_keys f !! name) as [owner|] eqn:Eo; [|by rewrite bool_decide_false by (by intros [])].
  rewrite bool_decide_true by done. cbn [andb]. rewrite andb_true_r. destruct (decide _) as [Hm|Hm].
  - assert (forallb (fun n => bool_decide (is_Some (fetched_keys f !! n))) middle = true) as ->; [|by cbn].
    apply forallb_forall. intros n Hn%list_elem_of_In. apply bool_decide_eq_true_2. by eapply Forall_forall in Hm.
  - assert (forallb (fun n => bool_decide (is_Some (fetched_keys f !! n))) middle = false) as ->; [|by cbn].
    apply not_true_is_false. rewrite forallb_forall. intros Hall. apply Hm, Forall_forall. intros n Hn.
    apply (bool_decide_eq_true_1 _), Hall. by apply list_elem_of_In.
Qed.

(** ** Trust *)

(** Whether a repository keeps its trust depends on the entries of the properties. *)
Lemma chose_within_props levels v m m' c text budget :
  props m = props m' -> chose_within levels v m c text budget = chose_within levels v m' c text budget.
Proof.
  intros Hm. revert text budget. induction levels as [|levels IH]; intros text budget; [done|]. cbn [chose_within].
  generalize (Some budget). induction (expression_names text) as [|name names IHn]; intros b; [done|]. cbn [foldl].
  rewrite IHn. f_equal. destruct b as [b|]; [|done]. cbn [mbind option_bind].
  assert (trace_name v m' c name = trace_name v m c name) as -> by (unfold trace_name, get; by rewrite Hm).
  destruct (b =? 0)%N, (has_expression name), (trace_name v m c name); done || apply IH.
Qed.

Lemma keep_trust_props v m m' c r : props m = props m' -> keep_trust v m c r = keep_trust v m' c r.
Proof. intros Hm. unfold keep_trust, chose. by rewrite (chose_within_props _ v m m' c _ _ Hm). Qed.

(** ** The parents of a lineage *)

Section Walk.
Context `{Unicode} `{JavaRegex} `{LineageProfiles} (files : str -> bool) {S E : Type} `{ModelSource S E}.
Context (policy : ModelPolicy) (lookup : ParentLookup) (c : option ActivationContext).

(** A POM as it was read, with coordinates its parent element gives when that parent is
    not found. *)
Definition filled (raw p : Pom.t) : Prop :=
  p = raw \/ exists g v, p = Pom.with_coordinates (unless_set (Pom.group_id raw) (Some g)) (unless_set (Pom.version raw) (Some v)) raw.

(** The coordinates a declared parent must have: those the source resolved it to, or the
    version of a local parent in the declared range. *)
Definition wanted_for (declared requested wanted : Parent.t) (raw : Pom.t) : Prop :=
  Parent.group_id wanted = Parent.group_id requested /\ Parent.artifact_id wanted = Parent.artifact_id requested /\
  (Parent.version wanted = Parent.version requested
   \/ parent_version_range declared <> None /\ version_in_range declared raw = Ok (Parent.version wanted)).

(** Why a POM is the parent of the one below it: the source returned it for the declared
    parent, and it is of the reactor, declares the coordinates, or is still to verify. *)
Definition parent_of (pending : list (nat * Parent.t * ModelError)) (i : nat) (child p : Pom.t) : Prop :=
  exists declared requested wanted raw s s',
    Pom.parent child = Some declared /\ source_parent s declared lookup = (Ok (Some raw, requested), s') /\ filled raw p /\
    wanted_for declared requested wanted raw /\
    (is_reactor_module raw = true
     \/ verify_pom_coord (Parent.group_id wanted) (Parent.artifact_id wanted) (Parent.version wanted) raw = Ok tt
     \/ exists error, (i + 1, wanted, error) ∈ pending).

Definition parent_key (p : Pom.t) : option (str * str * str) :=
  (fun d => (Parent.group_id d, Parent.artifact_id d, Parent.version d)) <$> Pom.parent p.

Definition linked (pending : list (nat * Parent.t * ModelError)) (chain : list Pom.t) : Prop :=
  forall i child p, chain !! i = Some child -> chain !! (i + 1) = Some p -> parent_of pending i child p.

Record climbing (hops : nat) (f : Found) (current : Pom.t) : Prop := {
  climb_hops : length (below f) + hops = MAX_PARENT_CHAIN_DEPTH;
  climb_keys : visited f = omap parent_key (below f);
  climb_distinct : NoDup (visited f);
  climb_linked : linked (unverified f) (below f ++ [current]) }.

Lemma parent_of_more pending pending' i child p :
  (forall x, x ∈ pending -> x ∈ pending') -> parent_of pending i child p -> parent_of pending' i child p.
Proof.
  intros Hsub (d & rq & w & raw & s & s' & H1' & H2' & H3' & H4' & Hid). exists d, rq, w, raw, s, s'. split_and!; try done.
  destruct Hid as [?|[?|[error ?]]]; eauto.
Qed.

Lemma linked_snoc pending pending' chain child p :
  (forall x, x ∈ pending -> x ∈ pending') -> linked pending (chain ++ [child]) -> parent_of pending' (length chain) child p ->
  linked pending' ((chain ++ [child]) ++ [p]).
Proof.
  intros Hsub Hl Hp i child' p' Hi Hi'. apply lookup_snoc_Some in Hi' as [[Hlt Hi']|[Hlen <-]].
  - rewrite lookup_app_l in Hi by (rewrite length_app in *; cbn in *; lia). eapply parent_of_more; [done|]. by apply Hl.
  - rewrite length_app in Hlen. cbn in Hlen. assert (i = length chain) as -> by lia.
    rewrite lookup_app_l in Hi by (rewrite length_app; cbn; lia).
    rewrite list_lookup_middle in Hi by done. by simplify_eq.
Qed.

Lemma filled_trans a b d : filled a b -> filled b d -> filled a d.
Proof.
  intros [->|(g & v & ->)] Hd; [done|]. right. destruct Hd as [->|(g' & v' & ->)]; [eauto|]. exists g, v.
  destruct a as [mv [ga|] aa [va|]]; done.
Qed.

(** The last POM may take coordinates from its parent element. *)
Lemma linked_filled pending chain raw p : filled raw p -> linked pending (chain ++ [raw]) -> linked pending (chain ++ [p]).
Proof.
  intros Hf Hl i child p' Hi Hi'. apply lookup_snoc_Some in Hi' as [[Hlt Hi']|[Hlen <-]].
  - apply (Hl i); rewrite lookup_app_l by lia; [|done]. by rewrite lookup_app_l in Hi by lia.
  - destruct (Hl i child raw) as (d & rq & w & raw0 & s & s' & H1' & H2' & H3' & H4' & Hid).
    { rewrite lookup_app_l in Hi by lia. by rewrite lookup_app_l by lia. }
    { rewrite Hlen. by apply list_lookup_middle. }
    exists d, rq, w, raw0, s, s'. split_and!; try done. by eapply filled_trans.
Qed.

Lemma accept_parent_ok current declared requested raw f f' s s' :
  Pom.parent current = Some declared -> source_parent s declared lookup = (Ok (Some raw, requested), s') ->
  accept_parent policy c current declared requested raw f = Ok f' ->
  below f' = below f ++ [current] /\ visited f' = visited f /\ (forall x, x ∈ unverified f -> x ∈ unverified f') /\
  parent_of (unverified f') (length (below f)) current raw.
Proof.
  intros Hd Hs Hacc. unfold accept_parent in Hacc. apply bind_Ok in Hacc as (wanted & Ew & Hacc).
  apply bind_Ok in Hacc as (pending & Ep & Hacc). apply bind_Ok in Hacc as (_ & _ & Hacc). simplify_eq. cbn.
  assert (wanted_for declared requested wanted raw) as Hw.
  { destruct (bool_decide (parent_version_range declared <> None)) eqn:Er; [|simplify_eq; by split_and!; auto].
    apply bool_decide_eq_true_1 in Er. apply bind_Ok in Ew as (_ & _ & Ew).
    destruct (bool_decide (Parent.version requested = _)); [|simplify_eq; by split_and!; auto].
    destruct (version_in_range declared raw) as [v|] eqn:Ev; [|done]. cbn in Ew. simplify_eq. split_and!; [done..|]. right. by rewrite Ev. }
  assert ((forall x, x ∈ unverified f -> x ∈ pending) /\
          (is_reactor_module raw = true
           \/ verify_pom_coord (Parent.group_id wanted) (Parent.artifact_id wanted) (Parent.version wanted) raw = Ok tt
           \/ exists error, (length (below f) + 1, wanted, error) ∈ pending)) as [Hsub Hid].
  { destruct (is_reactor_module raw); [by simplify_eq; auto|].
    destruct (verify_pom_coord _ _ _ raw) as [[]|error]; [by simplify_eq; auto|].
    destruct (declares_expression raw); simplify_eq. split; [set_solver|]. right. right. exists error. set_solver. }
  split_and!; try done. exists declared, requested, wanted, raw, s, s'. split_and!; try done. by left.
Qed.

(** The walk ends within its hops, and what it returns is linked. *)
Lemma walk_parents_ok hops f current s chain f' unread s' :
  climbing hops f current -> walk_parents files hops policy lookup c f current s = (Ok (chain, f', unread), s') ->
  length chain <= MAX_PARENT_CHAIN_DEPTH + 1 /\ NoDup (visited f') /\ visited f' = omap parent_key chain /\
  linked (unverified f') chain /\ (exists rest, chain = below f ++ rest) /\
  exists head, chain !! length (below f) = Some head /\ filled current head.
Proof.
  revert f current s. induction hops as [|hops IH]; intros f current s Hc Ew; cbn in Ew;
    destruct (Pom.parent current) as [declared|] eqn:Ed; try done.
  1,3: simplify_eq; destruct Hc as [Hh Hk Hn Hl]; split_and!; try done;
    [rewrite length_app; cbn; unfold MAX_PARENT_CHAIN_DEPTH in *; lia
    |rewrite omap_app, <-Hk; cbn; unfold parent_key; by rewrite Ed, app_nil_r
    |by eexists|exists current; split; [by apply list_lookup_middle|by left]].
  destruct (bool_decide _) eqn:Ev; [done|]. apply bool_decide_eq_false_1 in Ev.
  destruct (source_parent s declared lookup) as [[[[raw|] requested]|] s1] eqn:Es; [| |done].
  - destruct (accept_parent _ _ _ _ _ _ _) as [f1|] eqn:Ea; [|done].
    destruct (observe_lineage_repositories _ _ _ _) as [s2|]; [|done].
    apply (accept_parent_ok _ _ _ _ _ _ _ _ Ed Es) in Ea as (Eb & Evis & Hsub & Hp). cbn in Eb, Evis, Hsub, Hp.
    destruct Hc as [Hh Hk Hn Hl].
    assert (climbing hops f1 raw) as Hc1.
    { split; rewrite ?Eb, ?Evis.
      - rewrite length_app. cbn. lia.
      - rewrite omap_app, <-Hk. cbn. unfold parent_key. by rewrite Ed.
      - apply NoDup_app. split_and!; [done|set_solver|apply NoDup_singleton].
      - by eapply linked_snoc. }
    apply (IH f1 raw s2 Hc1) in Ew as (Hlen & Hnd & Hkeys & Hlink & [rest Er] & head & Hhead & Hfill).
    split_and!; try done.
    + rewrite Er, Eb, <-app_assoc. by eexists.
    + exists current. rewrite Er, Eb. split; [|by left]. rewrite <-app_assoc. by apply list_lookup_middle.
  - destruct (without_parent policy current declared) as [[p unread']|] eqn:Ewp; [|done]. simplify_eq. cbn.
    assert (filled current p) as Hfill.
    { unfold without_parent in Ewp. destruct (parent_has_expression declared); [done|].
      destruct (missing_parent policy); [done|]. destruct (_ && _); simplify_eq. right. eauto. }
    destruct Hc as [Hh Hk Hn Hl]. split_and!.
    + rewrite length_app. cbn. unfold MAX_PARENT_CHAIN_DEPTH in *. lia.
    + apply NoDup_app. split_and!; [done|set_solver|apply NoDup_singleton].
    + rewrite omap_app, <-Hk. cbn.
      assert (parent_key p = parent_key current) as -> by (by destruct Hfill as [->|(g & v & ->)]).
      unfold parent_key. by rewrite Ed.
    + by eapply linked_filled.
    + by eexists.
    + exists p. split; [by apply list_lookup_middle|done].
Qed.

(** ** The lineage that is merged *)

(** A POM of the lineage once its own lists are merged and its active profiles, selected
    from its interpolated activations, are injected. *)
Definition injected (raw p : Pom.t) : Prop :=
  let own := Pom.with_dependencies (merge_levels management_key [Pom.dependencies raw]) raw in
  match c with
  | None => p = own
  | Some c =>
    exists profiles selection shown,
      interpolate_lineage_activations c (Pom.profiles raw) (Pom.declared_properties raw) = Ok profiles /\
      select_profiles files profiles c = Ok selection /\
      p = inject_profiles (omap (fun index => profiles !! index) (active selection))
            (with_active shown [omap (fun index => Profile.id <$> profiles !! index) (active selection)] (with_profiles profiles own))
  end.

Lemma inject_active_profiles_ok p c0 is_relevant r p' r' :
  inject_active_profiles files p c0 is_relevant r = Ok (p', r') ->
  exists selection shown, select_profiles files (Pom.profiles p) c0 = Ok selection /\
    p' = inject_profiles (omap (fun index => Pom.profiles p !! index) (active selection))
           (with_active shown [omap (fun index => Profile.id <$> Pom.profiles p !! index) (active selection)] p).
Proof.
  unfold inject_active_profiles. intros Hi. apply bind_Ok in Hi as (selection & Hs%map_err_Ok & Hi). simplify_eq. eauto.
Qed.

Lemma inject_lineage_ok c0 is_relevant chain r lineage r' :
  c = Some c0 ->
  inject_lineage files c0 is_relevant (map (fun p => Pom.with_dependencies (merge_dependency_levels [Pom.dependencies p]) p) chain) r
    = Ok (lineage, r') ->
  Forall2 injected chain lineage.
Proof.
  intros Hc0. revert r lineage r'. induction chain as [|p chain IH]; intros r lineage r' Hi; cbn [map inject_lineage] in Hi.
  - by simplify_eq.
  - apply bind_Ok in Hi as (profiles & Hp%map_err_Ok & Hi). apply bind_Ok in Hi as ([p' r1] & Hone%map_err_Ok & Hi).
    apply bind_Ok in Hi as ([lineage' r2] & Hrest & Hi). simplify_eq. constructor; [|by eapply IH].
    unfold injected. rewrite Hc0. apply inject_active_profiles_ok in Hone as (selection & shown & Hs & ->).
    by exists profiles, selection, shown.
Qed.

Lemma pending_checked lineage (pending : list (nat * Parent.t * ModelError)) :
  foldl (fun (acc : result ModelError unit) '(index, requested, error) =>
    _ ← acc; if declares_through_ancestors (drop index lineage) requested c then Ok tt else Err error) (Ok tt) pending = Ok tt ->
  forall index requested error, (index, requested, error) ∈ pending -> declares_through_ancestors (drop index lineage) requested c = true.
Proof.
  intros Hall. set (step := fun acc _ => _) in Hall.
  assert (forall l err, foldl step (Err err) l = Err err) as Herr by (intros l; induction l as [|[[??]?] l IHl]; intros err; [done|apply IHl]).
  induction pending as [|[[index requested] error] pending IH]; [intros ??? Hin; by apply elem_of_nil in Hin|].
  cbn in Hall. destruct (declares_through_ancestors (drop index lineage) requested c) eqn:Ed; [|by rewrite Herr in Hall].
  intros index' requested' error' [?|Hin]%elem_of_cons; [by simplify_eq|]. by eapply IH.
Qed.

Lemma build_lineage_ok chain pending unread r effective fetched r' :
  build_lineage files policy lookup c chain pending unread r = Ok (effective, fetched, r') ->
  exists lineage merged,
    Forall2 injected chain lineage /\
    (forall index requested error, (index, requested, error) ∈ pending -> declares_through_ancestors (drop index lineage) requested c = true) /\
    merge_lineage lineage = Some merged /\ fetched = record_lineage lineage true /\
    effective = Pom.finish (map (keep_trust fetched (Pom.properties merged) c) (Pom.repositories merged))
                  (match c with Some c => Interpolate.set_input_context (ctx_source c) (ctx_default_packaging c) (Pom.properties merged)
                              | None => Pom.properties merged end) unread merged.
Proof.
  unfold build_lineage. intros Hb. apply bind_Ok in Hb as ([lineage r1] & Hi & Hb).
  apply bind_Ok in Hb as ([] & Hpend & Hb). apply bind_Ok in Hb as (merged & Hm & Hb). simplify_eq.
  exists lineage, merged. split_and!; try done.
  - destruct c as [c0|] eqn:Hc0.
    + destruct (of_lineage _ _ _) as [keys reads]. by eapply inject_lineage_ok.
    + simplify_eq. unfold injected. rewrite Hc0. clear. induction chain; by constructor.
  - by apply pending_checked.
  - by eapply ok_or_Ok.
Qed.

(** What [merge_lineage_ok] asks of each POM. *)
Definition mergeable (p : Pom.t) : Prop :=
  distinct (Pom.properties p) /\ Pom.dependencies p = merge_levels management_key [Pom.dependencies p].

Lemma inject_profiles_mergeable active p :
  distinct (Pom.properties p) -> NoDup (map management_key (Pom.dependencies p)) -> mergeable (inject_profiles active p).
Proof.
  intros Hp Hdeps. unfold inject_profiles.
  destruct (foldl _ (Pom.properties p, Pom.shadowed_properties p) active) as [properties shadowed] eqn:Ef.
  split; cbn.
  - assert (distinct (foldl (inject_properties (Pom.user_properties p)) (Pom.properties p, Pom.shadowed_properties p) active).1) as Hd;
      [|by rewrite Ef in Hd].
    clear Ef. revert Hp. generalize (Pom.properties p) (Pom.shadowed_properties p). induction active as [|profile active IH]; intros m sh Hm; [done|].
    cbn. rewrite (surjective_pairing (inject_properties _ _ _)). apply IH. unfold inject_properties.
    revert m sh Hm. clear. induction (props (Profile.properties profile)) as [|[k v] l IH]; intros m sh Hm; [done|]. cbn.
    destruct (get _ k); apply IH; [done|]. by apply insert_distinct.
  - symmetry. apply merge_levels_distinct. rewrite merge_keyed_extend. destruct (bool_decide _); [done|].
    rewrite (keys_of_values management_key) by (apply map_extend_self; [apply map_collect_self|]; apply keyed_self).
    apply map_extend_NoDup, map_extend_NoDup. constructor.
Qed.

Lemma injected_mergeable raw p : distinct (Pom.properties raw) -> injected raw p -> mergeable p.
Proof.
  intros Hd. unfold injected. destruct c as [c0|].
  - intros (profiles & selection & shown & _ & _ & ->). apply inject_profiles_mergeable; [done|]. apply merge_levels_NoDup.
  - intros ->. split; [done|]. symmetry. apply merge_levels_distinct, merge_levels_NoDup.
Qed.

(** ** [apply_inheritance_tracked] *)

Abbreviation start := {| below := []; visited := []; unverified := []; parent_ranges := [] |}.
Abbreviation walk := (walk_parents files MAX_PARENT_CHAIN_DEPTH policy lookup c start).

Lemma apply_inheritance_ok p s effective fetched r s' :
  apply_inheritance_tracked files p s policy lookup c = (Ok (effective, fetched, r), s') ->
  exists chain f unread, walk p s = (Ok (chain, f, unread), s') /\
    exists values, fetched = {| fetched_keys := keys values; fetched_ranges := parent_ranges f |} /\
    build_lineage files policy lookup c chain (unverified f) unread ([], false) = Ok (effective, values, r).
Proof.
  unfold apply_inheritance_tracked. intros Ha.
  match type of Ha with match ?v with _ => _ end = _ => destruct v as [[]|]; [|done] end.
  destruct (walk p s) as [[[[chain f] unread]|] s1] eqn:Ew; [|done].
  destruct (build_lineage _ _ _ _ _ _ _ _) as [[[eff fet] r1]|] eqn:Eb; simplify_eq. eauto 8.
Qed.

Lemma start_climbing p : climbing MAX_PARENT_CHAIN_DEPTH start p.
Proof.
  split; cbn; [done|done|constructor|]. intros i child q _ Hq. rewrite Nat.add_1_r in Hq. cbn in Hq. by destruct i.
Qed.

Lemma walked p s chain f unread s' :
  walk p s = (Ok (chain, f, unread), s') ->
  length chain <= MAX_PARENT_CHAIN_DEPTH + 1 /\ NoDup (omap parent_key chain) /\ linked (unverified f) chain /\
  exists first, chain !! 0 = Some first /\ filled p first.
Proof.
  intros Hw. apply (walk_parents_ok _ _ _ _ _ _ _ _ (start_climbing p)) in Hw as (Hl & Hn & Hv & Hlink & _ & first & Hf & Hfill).
  rewrite <-Hv. split_and!; eauto.
Qed.

(** Why a POM of the lineage is the parent of the one below it. *)
Definition verified_parent (lineage : list Pom.t) (i : nat) (child p : Pom.t) : Prop :=
  exists declared requested wanted raw s s',
    Pom.parent child = Some declared /\ source_parent s declared lookup = (Ok (Some raw, requested), s') /\ filled raw p /\
    wanted_for declared requested wanted raw /\
    (is_reactor_module raw = true
     \/ verify_pom_coord (Parent.group_id wanted) (Parent.artifact_id wanted) (Parent.version wanted) raw = Ok tt
     \/ declares_through_ancestors (drop (i + 1) lineage) wanted c = true).

Lemma walked_distinct p s chain f unread s' :
  (forall s d raw requested s', source_parent s d lookup = (Ok (Some raw, requested), s') -> distinct (Pom.properties raw)) ->
  distinct (Pom.properties p) -> walk p s = (Ok (chain, f, unread), s') -> Forall (fun q => distinct (Pom.properties q)) chain.
Proof.
  intros Hsource Hp Hw. apply walked in Hw as (_ & _ & Hlink & first & Hf & Hfill).
  assert (forall a b, filled a b -> Pom.properties b = Pom.properties a) as Hsame by (by intros a b [->|(g & v & ->)]).
  apply Forall_lookup. intros [|i] q Hq; [simplify_eq; by rewrite (Hsame p)|].
  destruct (lookup_lt_is_Some_2 chain i) as [child Hchild]; [apply lookup_lt_Some in Hq; lia|].
  rewrite <-Nat.add_1_r in Hq. destruct (Hlink i child q Hchild Hq) as (d & rq & w & raw & s0 & s1 & _ & Hs & Hfl & _).
  rewrite (Hsame _ _ Hfl). by eapply Hsource.
Qed.
End Walk.

Section Claims.
Context `{Unicode} `{JavaRegex} `{LineageProfiles} (files : str -> bool) {S E : Type} `{ModelSource S E}.
Context (policy : ModelPolicy) (lookup : ParentLookup) (c : option ActivationContext).

(** C10: a model is built only from verified parents.  When inheritance succeeds, the walk
    from the POM took at most 100 parents, no parent coordinates twice; each parent is one
    that the source returned for the parent element of the POM below it, and it is a module
    of the reactor, declares the coordinates asked for, or declares them once its
    expressions are expanded with the properties of its own injected lineage. *)
Theorem lineage_is_verified p s effective fetched r s' :
  apply_inheritance_tracked files p s policy lookup c = (Ok (effective, fetched, r), s') ->
  exists chain lineage f unread,
    walk_parents files MAX_PARENT_CHAIN_DEPTH policy lookup c {| below := []; visited := []; unverified := []; parent_ranges := [] |} p s
      = (Ok (chain, f, unread), s') /\
    length chain <= 101 /\ NoDup (omap parent_key chain) /\ (exists first, chain !! 0 = Some first /\ filled p first) /\
    Forall2 (injected files c) chain lineage /\
    forall i child q, chain !! i = Some child -> chain !! (i + 1) = Some q -> verified_parent lookup c lineage i child q.
Proof.
  intros (chain & f & unread & Hw & values & Hv & Hb)%apply_inheritance_ok.
  apply build_lineage_ok in Hb as (lineage & merged & Hinj & Hpend & _).
  pose proof (walked _ _ _ _ _ _ _ _ _ _ Hw) as (Hl & Hn & Hlink & Hfirst).
  exists chain, lineage, f, unread. split_and!; try done. intros i child q Hi Hq.
  destruct (Hlink i child q Hi Hq) as (d & rq & w & raw & s0 & s1 & H1' & H2' & H3' & H4' & Hid).
  exists d, rq, w, raw, s0, s1. split_and!; try done. destruct Hid as [?|[?|[error Hin]]]; eauto.
Qed.

(** C11: the nearest definition wins.  When inheritance succeeds and POMs are read with
    distinct property names, the effective model takes its group, version, build fields,
    licenses and each property from the nearest POM of the injected lineage that has
    them, merges dependencies and repositories by key with the nearest first, joins the
    active profiles, and a repository loses the trust of the project when a fetched POM
    chose its URL. *)
Theorem nearest_definition_wins p s effective fetched r s' :
  (forall s d raw requested s', source_parent s d lookup = (Ok (Some raw, requested), s') -> distinct (Pom.properties raw)) ->
  distinct (Pom.properties p) ->
  apply_inheritance_tracked files p s policy lookup c = (Ok (effective, fetched, r), s') ->
  exists chain lineage f unread,
    walk_parents files MAX_PARENT_CHAIN_DEPTH policy lookup c {| below := []; visited := []; unverified := []; parent_ranges := [] |} p s
      = (Ok (chain, f, unread), s') /\
    Forall2 (injected files c) chain lineage /\ fetched_keys fetched = keys (record_lineage lineage true) /\
    merged_from (keep_trust (record_lineage lineage true) (Pom.properties effective) c) lineage effective.
Proof.
  intros Hsource Hp (chain & f & unread & Hw & values & Hv & Hb)%apply_inheritance_ok.
  apply build_lineage_ok in Hb as (lineage & merged & Hinj & _ & Hmerged & Hfetched & ->).
  exists chain, lineage, f, unread. subst fetched values. split_and!; try done.
  assert (Forall (mergeable) lineage) as Hall.
  { pose proof (walked_distinct _ _ _ _ _ _ _ _ _ _ Hsource Hp Hw) as Hd. clear -Hd Hinj.
    induction Hinj as [|raw q chain lineage Hq _ IH]; [done|]. apply Forall_cons in Hd as [Hraw Hd].
    constructor; [by eapply injected_mergeable|by apply IH]. }
  apply (merge_lineage_ok _ _ Hall) in Hmerged as [[Hg Hve Hbu Hli Hpr Hde Hre Hac] _]. split; try done.
  - intros key. rewrite <-Hpr. by destruct c.
  - cbn [Pom.finish Pom.repositories Pom.properties]. rewrite Hre, map_id. apply map_ext. intros repo. apply keep_trust_props. by destruct c.
Qed.
End Claims.
