(* ===== verification/LineageDemo.v ===== *)
(** * Activation and inheritance on a small lineage

    A module whose parents were fetched: the parent writes its version as a property of
    the grandparent, and names the URL of a repository of the module.  A profile of the
    module is active on newer hosts. *)

From Stdlib Require Import Ascii String Lia.
From stdpp Require Import base list strings gmap.
From S2P Require Import Prelude Iter IndexMap Str Version Range Component Dependency Environment Interpolate InterpolateFacts Pom Merge Activation ArtifactVersion Relevance RelevanceFacts RelevanceSafe Lineage LineageFacts.

#[local] Existing Instance ascii_tables.
#[local] Instance no_regex : JavaRegex := fun _ _ => Ok false.

(** ** The host *)

Definition host (java : str) : Environment := {|
  platform := Some ($"linux", $"x86_64"); java_version := Some java; target_jdk := false; java_home := None;
  env_system_properties := ∅; env := ∅; host_env := ∅; allowed := ∅; allow_all_env := false; linux_release := None;
  classifier_likes_text := None |}.

Definition build_on (java : str) : ActivationContext := {|
  ctx_source := User; ctx_properties := ∅; ctx_default_packaging := None; ctx_packaging_injected := false;
  ctx_environment := host java; ctx_system_properties := ∅; ctx_base_dir := Some $"/work";
  ctx_active_profiles := []; ctx_inactive_profiles := []; ctx_settings_properties := new_map; ctx_settings_property_names := ∅ |}.

Definition property_list (l : list (str * str)) : PropertyMap := {| props := l; inputs := None; expanded := 0 |}.

Definition newer : Profile.t := {|
  Profile.id := $"newer";
  Profile.activation := Some {|
    active_by_default := false; on_property := None; on_os := None; on_jdk := Some $"[17,)"; on_file := None;
    jdk_from_input := false; property_from_input := false; property_name_from_input := false; path_from_host := false;
    interpolation_reads := {| reads_os := []; reads_file := []; reads_jdk := []; reads_property := [];
                              java_os := false; java_file := false; java_jdk := false; java_property := false |} |};
  Profile.dependencies := []; Profile.dependency_management := None; Profile.repositories := []; Profile.modules := [];
  Profile.properties := property_list [($"flavour", $"newer")]; Profile.build := no_build |}.

(** Java 17 and 21 answer the read of the profile alike. *)
Lemma recorded_reads_decide_witness :
  select_profiles (fun _ => false) [newer] (build_on $"17") = select_profiles (fun _ => true) [newer] (build_on $"21") /\
  (active <$> select_profiles (fun _ => false) [newer] (build_on $"17")) = Ok [0] /\
  (active <$> select_profiles (fun _ => false) [newer] (build_on $"11")) = Ok [].
Proof.
  split; [|split; vm_compute; reflexivity].
  destruct (select_profiles (fun _ => false) [newer] (build_on $"17")) as [selection|] eqn:Es; [|vm_compute in Es; discriminate].
  symmetry. apply (recorded_reads_decide (build_on $"17") (fun _ => false) (fun _ => true) (host $"21") [newer] selection).
  - split; try reflexivity; [discriminate|split; reflexivity].
  - intros p a Hp Ha. apply list_elem_of_singleton in Hp. subst p. injection Ha as <-. split; discriminate.
  - exact Es.
  - vm_compute in Es. injection Es as <-. intros reads i Hr Hi. apply list_elem_of_singleton in Hr. subst reads.
    repeat (apply elem_of_cons in Hi as [->|Hi]; [split; vm_compute; reflexivity|]). by apply elem_of_nil in Hi.
Defined.

(** ** The lineage *)

Definition repository (id url : str) : PomRepo.t := {|
  PomRepo.root_declared := true; PomRepo.id := Some id; PomRepo.url := url; PomRepo.releases_enabled := true;
  PomRepo.snapshots_enabled := false; PomRepo.releases_enabled_text := None; PomRepo.snapshots_enabled_text := None;
  PomRepo.releases_update_policy := None; PomRepo.snapshots_update_policy := None;
  PomRepo.releases_checksum_policy := None; PomRepo.snapshots_checksum_policy := None |}.

Definition pom (artifact : str) (group version : option str) (parent : option Parent.t) (properties : list (str * str))
    (repositories : list PomRepo.t) (profiles : list Profile.t) (provenance : Provenance.t) : Pom.t := {|
  Pom.model_version := Some $"4.0.0"; Pom.group_id := group; Pom.artifact_id := Some artifact; Pom.version := version;
  Pom.packaging := None; Pom.parent := parent; Pom.licenses := []; Pom.prerequisites := None; Pom.dependencies := [];
  Pom.dependency_management := None; Pom.distribution_management := None; Pom.build := no_build;
  Pom.properties := property_list properties; Pom.profiles := profiles; Pom.repositories := repositories;
  Pom.modules := []; Pom.own_properties := None; Pom.user_properties := new_map; Pom.shadowed_properties := new_map;
  Pom.active_profiles := []; Pom.selected_profiles := []; Pom.provenance := Some provenance; Pom.unread_parent := None |}.

Definition at_one (artifact : str) : Parent.t :=
  {| Parent.group_id := $"g"; Parent.artifact_id := artifact; Parent.version := $"1"; Parent.relative_path := None |}.

Definition module_pom : Pom.t :=
  pom $"module" None None (Some (at_one $"parent")) [($"own", $"1"); ($"shared", $"module")]
    [repository $"fixed" $"https://repo.example/"; repository $"chosen" $"${repo.url}"] [newer] (Provenance.RootProject $"/work/pom.xml").
Definition parent_pom : Pom.t :=
  pom $"parent" None (Some $"${revision}") (Some (at_one $"grand")) [($"repo.url", $"https://other.example/"); ($"shared", $"parent")]
    [] [] Provenance.RemoteParentOfRoot.
Definition grand_pom : Pom.t := pom $"grand" (Some $"g") (Some $"1") None [($"revision", $"1")] [] [] Provenance.RemoteParentOfRoot.

(** The source that has the two parents. *)
#[local] Instance demo_source : ModelSource unit ModelError := {|
  source_error e := e;
  source_parent _ declared _ :=
    (Ok (if decide (Parent.artifact_id declared = $"parent") then Some parent_pom
         else if decide (Parent.artifact_id declared = $"grand") then Some grand_pom else None, declared), tt);
  source_observe s _ := s |}.

#[local] Instance plain_profiles : LineageProfiles := fun _ profiles _ => Ok profiles.

Definition project_policy : ModelPolicy := {| policy_root := true; missing_parent := FailBuild |}.

Definition inherited : result ModelError (Pom.t * FetchedProperties * Recorder) * unit :=
  apply_inheritance_tracked (fun _ => false) module_pom tt project_policy ForProject (Some (build_on $"17")).

(** The walk takes the two parents; the version of the first is verified through the
    grandparent. *)
Lemma lineage_is_verified_witness :
  exists effective fetched r, inherited = (Ok (effective, fetched, r), tt) /\
  exists chain lineage f unread,
    walk_parents (fun _ => false) MAX_PARENT_CHAIN_DEPTH project_policy ForProject (Some (build_on $"17"))
      {| below := []; visited := []; unverified := []; parent_ranges := [] |} module_pom tt = (Ok (chain, f, unread), tt) /\
    length chain <= 101 /\ NoDup (omap parent_key chain) /\ (exists first, chain !! 0 = Some first /\ filled module_pom first) /\
    Forall2 (injected (fun _ => false) (Some (build_on $"17"))) chain lineage /\
    forall i child q, chain !! i = Some child -> chain !! (i + 1) = Some q ->
      verified_parent ForProject (Some (build_on $"17")) lineage i child q.
Proof.
  destruct inherited as [[[[effective fetched] r]|] []] eqn:Hi; [|vm_compute in Hi; discriminate].
  exists effective, fetched, r. split; [reflexivity|].
  exact (lineage_is_verified (fun _ => false) project_policy ForProject (Some (build_on $"17")) module_pom tt effective fetched r tt Hi).
Defined.

Lemma demo_distinct s d raw requested s' :
  source_parent s d ForProject = (Ok (Some raw, requested), s') -> distinct (Pom.properties raw).
Proof.
  cbn. destruct (decide _); [|destruct (decide _)]; intros; simplify_eq;
    by apply (bool_decide_unpack _).
Qed.

(** The module keeps its own value, takes the group and version of its ancestors, and
    the repository whose URL the parent chose loses its trust. *)
Lemma nearest_definition_wins_witness :
  (fun x => (Pom.group_id x.1.1, get (Pom.properties x.1.1) $"shared", get (Pom.properties x.1.1) $"flavour",
             map PomRepo.root_declared (Pom.repositories x.1.1))) <$> inherited.1 =
    Ok (Some $"g", Some $"module", Some $"newer", [true; false]) /\
  exists effective fetched r, inherited = (Ok (effective, fetched, r), tt) /\
  exists chain lineage f unread,
    walk_parents (fun _ => false) MAX_PARENT_CHAIN_DEPTH project_policy ForProject (Some (build_on $"17"))
      {| below := []; visited := []; unverified := []; parent_ranges := [] |} module_pom tt = (Ok (chain, f, unread), tt) /\
    Forall2 (injected (fun _ => false) (Some (build_on $"17"))) chain lineage /\ fetched_keys fetched = keys (record_lineage lineage true) /\
    merged_from (keep_trust (record_lineage lineage true) (Pom.properties effective) (Some (build_on $"17"))) lineage effective.
Proof.
  split; [vm_compute; reflexivity|].
  destruct inherited as [[[[effective fetched] r]|] []] eqn:Hi; [|vm_compute in Hi; discriminate].
  exists effective, fetched, r. split; [reflexivity|].
  apply (nearest_definition_wins (fun _ => false) project_policy ForProject (Some (build_on $"17")) module_pom tt effective fetched r tt).
  - exact demo_distinct.
  - by apply (bool_decide_unpack _).
  - exact Hi.
Defined.

(** ** A library with a profile for newer hosts *)

Definition declared (artifact version : str) (type_ scope : option str) : Dependency :=
  {| group_id := $"g"; artifact_id := artifact; version := Some version; type_ := type_; classifier := None;
     scope := scope; optional := None; exclusions := []; system_path := None |}.

Definition with_content (dependencies managed : list Dependency) (profiles : list Profile.t) (p : Pom.t) : Pom.t := {|
  Pom.model_version := Pom.model_version p; Pom.group_id := Pom.group_id p; Pom.artifact_id := Pom.artifact_id p; Pom.version := Pom.version p;
  Pom.packaging := Pom.packaging p; Pom.parent := Pom.parent p; Pom.licenses := Pom.licenses p; Pom.prerequisites := Pom.prerequisites p;
  Pom.dependencies := dependencies; Pom.dependency_management := Some managed; Pom.distribution_management := Pom.distribution_management p;
  Pom.build := Pom.build p; Pom.properties := Pom.properties p; Pom.profiles := profiles; Pom.repositories := Pom.repositories p;
  Pom.modules := Pom.modules p; Pom.own_properties := Pom.own_properties p; Pom.user_properties := Pom.user_properties p;
  Pom.shadowed_properties := Pom.shadowed_properties p; Pom.active_profiles := Pom.active_profiles p;
  Pom.selected_profiles := Pom.selected_profiles p; Pom.provenance := Pom.provenance p; Pom.unread_parent := Pom.unread_parent p |}.

(** A profile of newer hosts with declarations and managed entries. *)
Definition newer_with (dependencies managed : list Dependency) : Profile.t := {|
  Profile.id := $"newer"; Profile.activation := Profile.activation newer; Profile.dependencies := dependencies;
  Profile.dependency_management := Some managed; Profile.repositories := []; Profile.modules := [];
  Profile.properties := property_list [($"flavour", $"newer")]; Profile.build := no_build |}.

Definition testing : Profile.t := newer_with [declared $"junit" $"4" None (Some $"test")] [declared $"junit" $"5" None None].
Definition library : Pom.t :=
  with_content [declared $"a" $"${a.version}" None None] [declared $"bom" $"1" (Some $"pom") (Some $"import")] [testing] grand_pom.


(** A managed entry takes the place of the import of a BOM: the profile is not found
    relevant, and the POM imports nothing with it. *)
Definition replacing : Profile.t := newer_with [] [declared $"bom" $"2" (Some $"pom") None].
Definition importing : Pom.t :=
  with_content [declared $"a" $"1" None None] [declared $"bom" $"1" (Some $"pom") (Some $"import")] [replacing] grand_pom.

Lemma profile_replaces_import :
  is_relevant (of_lineage [importing] (build_on $"17") RoleDependency).1 replacing = false /\
  map scope (default [] (Pom.dependency_management importing)) = [Some $"import"] /\
  map scope (default [] (Pom.dependency_management (inject_profiles [replacing] importing))) = [None].
Proof. split_and!; vm_compute; reflexivity. Qed.
