(* ===== verification/Purl.v ===== *)
(** * Package URLs ([rv-maven-types/src/purl.rs])

    The package URL of a Maven coordinate, and the canonical form of one.  The package
    URL library is an interface; coordinates that need no encoding are written without
    it, and such a URL is that of one coordinate only. *)

From Stdlib Require Import Ascii String Lia.
From stdpp Require Import base list strings.
From S2P Require Import Prelude Iter Str.

#[local] Set Warnings "-clear-no-such-hyp".

(** ** The library *)

Class PackageUrl (P E : Type) := {
  purl_new : str -> str -> result E P;
  with_namespace : str -> P -> result E P;
  with_version : str -> P -> result E P;
  add_qualifier : str -> str -> P -> result E P;
  validate : P -> result E unit;
  purl_text : P -> str;
  qualifiers : P -> list (str * str);
  parse_purl : str -> option P;
  ty : P -> str;
  namespace : P -> option str;
  name : P -> str;
  purl_version : P -> option str;
  purl_error_text : E -> str;
}.

(** [PurlError], and the panic of an [expect]. *)
Inductive PurlError := PurlProblem (text : str) | PurlPanic.

(** ** Writing *)

(** The parts of a purl: packaging and classifier only where they are written. *)
Definition written_packaging (packaging : str) : option str :=
  if bool_decide (packaging = []) || bool_decide (packaging = $"jar") then None else Some packaging.
Definition written_classifier (classifier : option str) : option str := opt_filter (fun c => negb (bool_decide (c = []))) classifier.

Definition plain_byte (c : ascii) : bool := is_alnum c || one_of ["."; "-"; "_"]%char c.
Definition plain (value : str) : bool := forallb plain_byte value.

Definition plain_qualifier (st : str * ascii) (entry : str * option str) : str * ascii :=
  match entry.2 with
  | Some value => (st.1 ++ st.2 :: entry.1 ++ "="%char :: value, "&"%char)
  | None => st
  end.

Definition plain_maven_purl (group artifact version : str) (packaging classifier : option str) : str :=
  (foldl plain_qualifier ($"pkg:maven/" ++ group ++ "/"%char :: artifact ++ "@"%char :: version, "?"%char)
     [($"classifier", classifier); ($"type", packaging)]).1.

(** [str::replace] of a byte by a text. *)
Definition replace_byte (c : ascii) (by_ : str) (s : str) : str := concat (map (fun x => if decide (x = c) then by_ else [x]) s).

(** [str::split_once] of a pattern. *)
Definition split_once_str (p s : str) : option (str * str) := i ← find_str p s; Some (take i s, drop (i + length p) s).

Section Encoded.
Context {P E : Type} `{PackageUrl P E}.

Definition encode_qualifier_value (value : str) : result PurlError str :=
  probe ← map_err (fun _ => PurlPanic) (purl_new $"generic" $"probe");
  probe ← map_err (fun _ => PurlPanic) (add_qualifier $"value" value probe);
  '(_, encoded) ← ok_or (split_once_str $"?value=" (purl_text probe)) PurlPanic;
  Ok (replace_byte "&"%char $"%26" encoded).

Definition qualifier_leb (a b : str * str) : bool :=
  match pair_cmp str_cmp str_cmp a b with Gt => false | _ => true end.

Definition qualifier_text (entry : str * str) : result PurlError str :=
  encoded ← encode_qualifier_value entry.2; Ok (entry.1 ++ "="%char :: encoded).

Fixpoint qualifier_texts (l : list (str * str)) : result PurlError (list str) :=
  match l with
  | [] => Ok []
  | x :: l => t ← qualifier_text x; l ← qualifier_texts l; Ok (t :: l)
  end.

Definition canonical_purl_string (purl : P) : result PurlError str :=
  let rendered := purl_text purl in
  let base := match split_once "?"%char rendered with Some (base, _) => base | None => rendered end in
  let base := match rsplit_once "@"%char base with
              | Some (path, version) => path ++ "@"%char :: replace_byte "/"%char $"%2F" version
              | None => base
              end in
  if bool_decide (length (qualifiers purl) = 0) then Ok base
  else
    texts ← qualifier_texts (sort_by qualifier_leb (qualifiers purl));
    Ok (base ++ "?"%char :: join $"&" texts).

Definition problem {A} (r : result E A) : result PurlError A := map_err (fun e => PurlProblem (purl_error_text e)) r.

Definition encoded_maven_purl (group artifact version : str) (packaging classifier : option str) : result PurlError str :=
  purl ← map_err (fun e => PurlProblem ($"invalid artifact name '" ++ artifact ++ $"': " ++ purl_error_text e)) (purl_new $"maven" artifact);
  purl ← problem (with_namespace group purl);
  purl ← problem (with_version version purl);
  purl ← match packaging with Some packaging => problem (add_qualifier $"type" packaging purl) | None => Ok purl end;
  purl ← match classifier with Some classifier => problem (add_qualifier $"classifier" classifier purl) | None => Ok purl end;
  _ ← problem (validate purl);
  canonical_purl_string purl.

Definition maven_purl_with_qualifiers (group artifact version packaging : str) (classifier : option str) : result PurlError str :=
  if decide (trim artifact = []) then Err (PurlProblem $"invalid artifact name '': name cannot be empty")
  else if decide (trim group = []) then Err (PurlProblem $"invalid group '': group cannot be empty")
  else if decide (trim version = []) then Err (PurlProblem $"invalid version '': version cannot be empty")
  else
    let packaging := written_packaging packaging in
    let classifier := written_classifier classifier in
    if forallb plain ([group; artifact; version] ++ option_list packaging ++ option_list classifier)
    then Ok (plain_maven_purl group artifact version packaging classifier)
    else encoded_maven_purl group artifact version packaging classifier.

Definition maven_purl (group artifact version : str) : result PurlError str :=
  maven_purl_with_qualifiers group artifact version $"jar" None.

(** ** Reading *)

Definition canonicalize_purl (purl : str) : result PurlError (option str) :=
  match parse_purl purl with
  | Some parsed => Some <$> canonical_purl_string parsed
  | None => Ok None
  end.

Definition maven_purl_name_version (purl : str) : option (str * str) :=
  parsed ← parse_purl purl;
  if decide (ty parsed = $"maven") then
    namespace ← namespace parsed;
    version ← purl_version parsed;
    Some (namespace ++ ":"%char :: name parsed, version)
  else None.
End Encoded.

(** ** A plain purl is that of one coordinate *)

(** A text that does not go on with a plain byte. *)
Definition stops (s : str) : Prop := match s with [] => True | c :: _ => plain_byte c = false end.

Lemma plain_unique a b x y : plain a = true -> plain b = true -> stops x -> stops y -> a ++ x = b ++ y -> a = b /\ x = y.
Proof.
  revert b. induction a as [|c a IH]; intros [|d b] Ha Hb Hx Hy E; cbn in *.
  - done.
  - subst x. cbn in Hx. apply andb_true_iff in Hb as [Hd _]. congruence.
  - subst y. cbn in Hy. apply andb_true_iff in Ha as [Hc _]. congruence.
  - injection E as -> E. apply andb_true_iff in Ha as [_ Ha], Hb as [_ Hb]. by destruct (IH b Ha Hb Hx Hy E) as [-> ->].
Qed.

(** The texts after the version. *)
Definition plain_qualifiers (packaging classifier : option str) : str :=
  match classifier, packaging with
  | None, None => []
  | Some c, None => $"?classifier=" ++ c
  | None, Some p => $"?type=" ++ p
  | Some c, Some p => $"?classifier=" ++ c ++ $"&type=" ++ p
  end.

Lemma plain_maven_purl_parts group artifact version packaging classifier :
  plain_maven_purl group artifact version packaging classifier =
  $"pkg:maven/" ++ group ++ "/"%char :: artifact ++ "@"%char :: version ++ plain_qualifiers packaging classifier.
Proof.
  unfold plain_maven_purl, plain_qualifiers. destruct classifier, packaging; cbn; rewrite ?app_nil_r; repeat (f_equal; rewrite <-?app_assoc; cbn); done.
Qed.

Lemma plain_qualifiers_inj p c p' c' : is_none_or plain p = true -> is_none_or plain c = true -> is_none_or plain p' = true -> is_none_or plain c' = true ->
  plain_qualifiers p c = plain_qualifiers p' c' -> p = p' /\ c = c'.
Proof.
  unfold plain_qualifiers. intros Hp Hc Hp' Hc'. destruct c as [c|], c' as [c'|], p as [p|], p' as [p'|]; cbn; try done.
  - intros [= E]. destruct (plain_unique c c' ($"&type=" ++ p) ($"&type=" ++ p')) as [-> E2]; try done. by injection E2 as ->.
  - intros [= E]. destruct (plain_unique c c' ($"&type=" ++ p) []) as [_ E2]; try done. by rewrite app_nil_r.
  - intros [= E]. destruct (plain_unique c c' [] ($"&type=" ++ p')) as [_ E2]; try done. by rewrite app_nil_r.
  - by intros [= ->].
  - by intros [= ->].
Qed.

(** A plain purl names one coordinate.  The purls that are written without the
    library, for coordinates of letters, digits and the bytes .-_, are equal only for
    equal group, artifact, version, type and classifier, so that a query for one
    coordinate never stands for another. *)
Theorem plain_purl_injective group artifact version packaging classifier group' artifact' version' packaging' classifier' :
  forallb plain ([group; artifact; version] ++ option_list packaging ++ option_list classifier) = true ->
  forallb plain ([group'; artifact'; version'] ++ option_list packaging' ++ option_list classifier') = true ->
  plain_maven_purl group artifact version packaging classifier = plain_maven_purl group' artifact' version' packaging' classifier' ->
  group = group' /\ artifact = artifact' /\ version = version' /\ packaging = packaging' /\ classifier = classifier'.
Proof.
  assert (forall p c, forallb plain (option_list p ++ option_list c) = true -> is_none_or plain p = true /\ is_none_or plain c = true) as Hopt.
  { intros [p|] [c|]; cbn; rewrite ?andb_true_r; [by intros ?%andb_true_iff|done..]. }
  assert (forall p c, stops (plain_qualifiers p c)) as Hstop by (by intros [] []).
  intros Ha Hb. cbn [app forallb] in Ha, Hb. apply andb_true_iff in Ha as [Hg Ha], Hb as [Hg' Hb].
  apply andb_true_iff in Ha as [Hart Ha], Hb as [Hart' Hb]. apply andb_true_iff in Ha as [Hv Ha], Hb as [Hv' Hb].
  apply Hopt in Ha as [Hp Hc], Hb as [Hp' Hc']. rewrite !plain_maven_purl_parts. intros E. apply app_inv_head in E.
  apply plain_unique in E as [-> E]; [|done..]. injection E as E. apply plain_unique in E as [-> E]; [|done..].
  injection E as E. apply plain_unique in E as [-> E]; [|done..]. by apply plain_qualifiers_inj in E as [-> ->].
Qed.

Lemma plain_purl_injective_witness :
  plain_maven_purl $"org.example" $"lib" $"1.0" (Some $"zip") (Some $"tests") = $"pkg:maven/org.example/lib@1.0?classifier=tests&type=zip" /\
  $"org.example" = $"org.example" /\ $"lib" = $"lib" /\ $"1.0" = $"1.0" /\ Some $"zip" = Some $"zip" /\ Some $"tests" = Some $"tests".
Proof.
  split; [reflexivity|].
  apply (plain_purl_injective $"org.example" $"lib" $"1.0" (Some $"zip") (Some $"tests") $"org.example" $"lib" $"1.0" (Some $"zip") (Some $"tests"));
    reflexivity.
Defined.
