(* ===== verification/Http.v ===== *)
(** * Bodies, headers and failures of responses ([rv-http])

    What [body.rs], [headers.rs] and [transient.rs] do with a response of the HTTP
    client: reading a body under a limit, the delay a server asks for, and which failures
    a retry can fix.  The errors of the client library are seen through what the code asks
    of them. *)

From Stdlib Require Import Ascii String Lia NArith.
From stdpp Require Import base list strings.
From S2P Require Import Prelude Str Retry.

#[local] Set Warnings "-clear-no-such-hyp".

(** ** [transient.rs] *)

Definition TOO_MANY_REQUESTS : N := 429.
Definition status_is_transient (status : N) : bool := bool_decide (status ∈ [TOO_MANY_REQUESTS; 502%N; 503%N; 504%N]).
Definition is_success (status : N) : bool := ((200 <=? status) && (status <? 300))%N.

(** [io::ErrorKind], as far as the code tells its values apart. *)
Inductive ErrorKind :=
  | ConnectionRefused | NetworkUnreachable | HostUnreachable | NetworkDown | NotConnected
  | ConnectionReset | ConnectionAborted | UnexpectedEof | OtherKind.

#[export] Instance error_kind_eq_dec : EqDecision ErrorKind.
Proof. solve_decision. Defined.

(** [rustls::AlertDescription] and [rustls::Error], likewise. *)
Inductive Alert :=
  | BadCertificate | UnsupportedCertificate | CertificateRevoked | CertificateExpired | CertificateUnknown | UnknownCA
  | CertificateRequired | ProtocolVersion | InsufficientSecurity | OtherAlert.

Inductive TlsError :=
  | InvalidCertificate | NoCertificatesPresented | InvalidCertRevocationList | PeerIncompatible
  | AlertReceived (alert : Alert) | OtherTls.

Definition tls_failure_is_permanent (e : TlsError) : bool :=
  match e with
  | InvalidCertificate | NoCertificatesPresented | InvalidCertRevocationList | PeerIncompatible => true
  | AlertReceived OtherAlert => false
  | AlertReceived _ => true
  | OtherTls => false
  end.

(** An error behind an error: its text, and its kind when it is an [io::Error]. *)
Record Cause := { cause_text : str; cause_io : option ErrorKind }.

(** What the code asks of a [reqwest::Error]: [causes] starts with the error itself. *)
Class ReqwestError (H : Type) := {
  is_timeout : H -> bool;
  is_connect : H -> bool;
  is_request : H -> bool;
  is_body : H -> bool;
  is_decode : H -> bool;
  is_dns : H -> bool;
  causes : H -> list Cause;
  tls_cause : H -> option TlsError;
}.

Section Transport.
Context {H : Type} `{ReqwestError H}.

Definition has_io (err : H) (pred : ErrorKind -> bool) : bool := existsb pred (omap cause_io (causes err)).

Definition transport_is_lookup_failure (err : H) : bool := is_dns err && has_io err (fun _ => true).

Definition transport_is_unreachable (err : H) : bool :=
  if transport_is_lookup_failure err then true
  else if negb (is_connect err) then false
  else has_io err (fun kind => bool_decide (kind ∈ [ConnectionRefused; NetworkUnreachable; HostUnreachable; NetworkDown; NotConnected])).

Definition transport_is_transient (err : H) : bool :=
  (is_timeout err || is_connect err || is_request err || is_body err || is_decode err)
  && negb (is_some_and tls_failure_is_permanent (tls_cause err)).

Inductive TunnelRefusal := AuthRequired | Refused.

Definition tunnel_refusal (err : H) : option TunnelRefusal :=
  head (omap (fun cause =>
    if decide (cause_text cause = $"tunnel error: proxy authorization required") then Some AuthRequired
    else if decide (cause_text cause = $"tunnel error: unsuccessful") then Some Refused
    else None) (causes err)).

Definition transport_is_retryable (err : H) : bool :=
  transport_is_transient err && negb (transport_is_unreachable err) && bool_decide (tunnel_refusal err = None).
End Transport.

(** ** [body.rs] *)

Inductive BodyError (H : Type) :=
  | TooLarge (limit : N) (declared : option N)
  | Transport (error : H).
Arguments TooLarge {H}.
Arguments Transport {H}.

(** A response: its status and [Retry-After] header, the length it declares, and the
    chunks of its body up to its end or to the failure of the connection. *)
Record Response (H : Type) := {
  status : N;
  retry_after_header : option str;
  content_length : option N;
  chunks : list (result H str);
}.
Arguments status {H}.
Arguments retry_after_header {H}.
Arguments content_length {H}.
Arguments chunks {H}.

Definition u64_max : N := 18446744073709551615.
Definition size (s : str) : N := N.of_nat (length s).

Section Body.
Context {H : Type}.

Fixpoint read_chunks (limit : N) (body : str) (l : list (result H str)) : result (BodyError H) str :=
  match l with
  | [] => Ok body
  | Err e :: _ => Err (Transport e)
  | Ok chunk :: l =>
    if (limit <? N.min (size body + size chunk) u64_max)%N then Err (TooLarge limit None)
    else read_chunks limit (body ++ chunk) l
  end.

Definition read_limited (r : Response H) (limit : N) : result (BodyError H) str :=
  if is_some_and (fun length => (limit <? length)%N) (content_length r) then Err (TooLarge limit (content_length r))
  else read_chunks limit [] (chunks r).

(** A body that is read is whole and within the limit. *)
Lemma read_chunks_ok limit body l text :
  (limit < u64_max)%N -> (size body <= limit)%N -> read_chunks limit body l = Ok text ->
  exists parts, l = map Ok parts /\ text = body ++ concat parts /\ (size text <= limit)%N.
Proof.
  intros Hl. revert body. induction l as [|[chunk|e] l IH]; intros body Hb; cbn; [|destruct (_ <? _)%N eqn:E; [done|]|done].
  - intros [= <-]. exists []. cbn. rewrite app_nil_r. done.
  - apply N.ltb_ge in E. intros Hr. apply IH in Hr as (parts & -> & -> & Hs).
    + exists (chunk :: parts). cbn. rewrite app_assoc. done.
    + unfold size in *. rewrite length_app. lia.
Qed.
End Body.

(** ** [headers.rs] *)

(** [retry_after], at the instant [now] and with what the date parser reads, both in
    nanoseconds; a header that is not text has no value here. *)
Definition retry_after (parse_http_date : str -> option N) (now : N) (header : option str) : option N :=
  text ← trim <$> header;
  match parse_u64 text with
  | Some seconds => Some (secs seconds)
  | None => (fun target => (target - now)%N) <$> parse_http_date text
  end.
