(* ===== verification/Osv.v ===== *)
(** * The vulnerability scanner ([rv-vuln])

    The OSV client of [osv.rs], the scan of [scanner.rs] and the severities and fixes of
    [types.rs].  What the service answers is a parameter: the code meets, for each request
    it makes, what [rv_http]'s retries meet.  The service may answer anything.

    Chunks of a batch are asked concurrently and each keeps its own state, so each has
    a conversation of its own; the records are put in a map by their id.  Numbers of
    [f32] are rationals, and the arithmetic of a score is a parameter. *)

From Stdlib Require Import Ascii String Lia NArith QArith Qround.
From stdpp Require Import base list strings.
From S2P Require Import Prelude Iter IndexMap Str Version Addr Url Retry Http Purl.

#[local] Set Warnings "-clear-no-such-hyp".

(** ** Records ([types.rs]) *)

Module Severity.
Record t := { type_ : str; score : str }.
End Severity.

Inductive SeverityBand := BandUnknown | BandNone | BandLow | BandMedium | BandHigh | BandCritical.

#[export] Instance severity_band_eq_dec : EqDecision SeverityBand.
Proof. solve_decision. Defined.

Record Reference := { reference_type : str; reference_url : str }.
Record RangeEvent := { introduced : option str; fixed : option str; last_affected : option str; limit : option str }.
Record AffectedRange := { range_type : str; events : list RangeEvent }.
Record Package := { package_name : str; ecosystem : str; package_purl : option str }.
Record Affected := { package : Package; ranges : list AffectedRange; versions : list str }.

Module Vulnerability.
Record t := {
  id : str;
  aliases : list str;
  summary : str;
  details : option str;
  severity : option Severity.t;
  database_severity : option str;
  references : list Reference;
  affected : list Affected;
}.
End Vulnerability.

(** [OsvVulnerability]; [database_severity] is the text of [database_specific.severity]. *)
Module OsvVulnerability.
Record t := {
  id : str;
  aliases : list str;
  summary : option str;
  details : option str;
  severity : list Severity.t;
  references : list Reference;
  affected : list Affected;
  database_severity : option str;
}.
End OsvVulnerability.

Record VulnResult := { result_purl : str; vulnerabilities : list Vulnerability.t }.

Definition upper_byte (c : ascii) : ascii := if is_lower c then ascii_of_N (code c - 32) else c.
Definition to_ascii_uppercase (s : str) : str := map upper_byte s.

(** ** Severities *)

(** A finite number, or one of the others. *)
Definition Float : Type := option Q.

(** The reading of numbers and of CVSS vectors, and the arithmetic of CVSS 2 from the
    letters of its six metrics. *)
Class Scoring := {
  parse_number : str -> option Float;
  cvss_v3_score : str -> option Float;
  cvss_v4_score : str -> option Float;
  cvss_v2_equation : list ascii -> Float;
}.

Section Scores.
Context `{Scoring}.

Definition BASE_METRICS : list str :=
  [$"AV"; $"AC"; $"PR"; $"UI"; $"S"; $"C"; $"I"; $"A"; $"AT"; $"VC"; $"VI"; $"VA"; $"SC"; $"SI"; $"SA"].

Definition base_score (vector : str) (score : str -> option Float) : option Float :=
  let parts := split "/"%char vector in
  let prefix := default [] (head parts) in
  let base := List.filter (fun part => bool_decide (default [] (head (split ":"%char part)) ∈ BASE_METRICS)) (drop 1 parts) in
  score (join $"/" (prefix :: base)).

Definition V2_METRICS : list (str * list ascii) :=
  let impact := ["N"; "P"; "C"]%char in
  [($"AV", ["L"; "A"; "N"]%char); ($"AC", ["H"; "M"; "L"]%char); ($"Au", ["M"; "S"; "N"]%char);
   ($"C", impact); ($"I", impact); ($"A", impact)].

Definition v2_metric (values : list (option ascii)) (metric : str) : option (list (option ascii)) :=
  '(name, value) ← split_once ":"%char metric;
  match list_find (fun known => known.1 = name) V2_METRICS with
  | None => Some values
  | Some (index, (_, weights)) =>
    match to_ascii_uppercase value with
    | [key] =>
      if decide (key ∈ weights) then
        match values !! index with
        | Some None => Some (<[index := Some key]> values)
        | _ => None
        end
      else None
    | _ => None
    end
  end.

Fixpoint v2_metrics (values : list (option ascii)) (l : list str) : option (list (option ascii)) :=
  match l with
  | [] => Some values
  | metric :: l => values ← v2_metric values metric; v2_metrics values l
  end.

Fixpoint all_present {A} (l : list (option A)) : option (list A) :=
  match l with
  | [] => Some []
  | x :: l => x ← x; l ← all_present l; Some (x :: l)
  end.

Definition cvss_v2_score (vector : str) : option Float :=
  let vector := match strip_prefix $"CVSS:2.0/" vector with
                | Some rest => rest
                | None => default vector (strip_prefix $"CVSS2#" vector)
                end in
  values ← v2_metrics (replicate 6 None) (split "/"%char vector);
  values ← all_present values;
  Some (cvss_v2_equation values).

Definition in_scale (q : Q) : bool := Qle_bool 0 q && Qle_bool q 10.

(** [Severity::score_value]. *)
Definition score_value (s : Severity.t) : option Q :=
  score ← match parse_number (Severity.score s) with
          | Some score => Some score
          | None =>
            let kind := to_ascii_uppercase (Severity.type_ s) in
            if decide (kind = $"CVSS_V2") then cvss_v2_score (Severity.score s)
            else if decide (kind = $"CVSS_V3") then base_score (Severity.score s) cvss_v3_score
            else if decide (kind = $"CVSS_V4") then base_score (Severity.score s) cvss_v4_score
            else None
          end;
  opt_filter in_scale score.

(** [Severity::severity_band]. *)
Definition score_band (s : Severity.t) : SeverityBand :=
  match score_value s with
  | None => BandUnknown
  | Some score =>
    if negb (eq_ignore_ascii_case (Severity.type_ s) $"CVSS_V2") && Qle_bool 9 score then BandCritical
    else if Qle_bool 7 score then BandHigh
    else if Qle_bool 4 score then BandMedium
    else if negb (Qle_bool score 0) then BandLow
    else BandNone
  end.

(** [Vulnerability::severity_band]. *)
Definition severity_band (v : Vulnerability.t) : SeverityBand :=
  let band := from_option score_band BandUnknown (Vulnerability.severity v) in
  if decide (band <> BandUnknown) then band
  else
    match to_ascii_uppercase <$> Vulnerability.database_severity v with
    | Some rating =>
      if decide (rating = $"CRITICAL") then BandCritical
      else if decide (rating = $"HIGH") then BandHigh
      else if decide (rating ∈ [$"MODERATE"; $"MEDIUM"]) then BandMedium
      else if decide (rating = $"LOW") then BandLow
      else BandUnknown
    | None => BandUnknown
    end.

(** The order of bands, and of the keys severities are compared by. *)
Definition band_rank (b : SeverityBand) : nat :=
  match b with BandUnknown => 0 | BandNone => 1 | BandLow => 2 | BandMedium => 3 | BandHigh => 4 | BandCritical => 5 end.

Definition cvss_version (s : Severity.t) : nat :=
  let kind := to_ascii_uppercase (Severity.type_ s) in
  if decide (kind = $"CVSS_V4") then 3 else if decide (kind = $"CVSS_V3") then 2 else if decide (kind = $"CVSS_V2") then 1 else 0.

Abbreviation SeverityKey := (nat * nat * Q)%type.

Definition key_greater (a b : SeverityKey) : bool :=
  let '(v, band, q) := a in
  let '(v', band', q') := b in
  match Nat.compare v v' with
  | Gt => true
  | Lt => false
  | Eq => match Nat.compare band band' with Gt => true | Lt => false | Eq => negb (Qle_bool q q') end
  end.

Definition severity_key (s : Severity.t) : option (SeverityKey * Severity.t) :=
  score ← score_value s; Some (cvss_version s, band_rank (score_band s), score, s).

(** [Iterator::reduce] that keeps the first of the greatest. *)
Definition keep_greater (best next : SeverityKey * Severity.t) : SeverityKey * Severity.t :=
  if key_greater next.1 best.1 then next else best.

Definition chosen_severity (l : list Severity.t) : option Severity.t :=
  match omap severity_key l with
  | [] => head l
  | x :: scored => Some (foldl keep_greater x scored).2
  end.

(** [Vulnerability::from]. *)
Definition from_osv (v : OsvVulnerability.t) : Vulnerability.t := {|
  Vulnerability.id := OsvVulnerability.id v;
  Vulnerability.aliases := OsvVulnerability.aliases v;
  Vulnerability.summary := default [] (OsvVulnerability.summary v);
  Vulnerability.details := OsvVulnerability.details v;
  Vulnerability.severity := chosen_severity (OsvVulnerability.severity v);
  Vulnerability.database_severity := OsvVulnerability.database_severity v;
  Vulnerability.references := OsvVulnerability.references v;
  Vulnerability.affected := OsvVulnerability.affected v |}.
End Scores.

(** ** Fixes *)

Definition fixes_of (v : Vulnerability.t) (name : str) : list str :=
  omap fixed (mjoin (map events (List.filter (fun r => eq_ignore_ascii_case (range_type r) $"ECOSYSTEM")
    (mjoin (map ranges (List.filter (fun a => eq_ignore_ascii_case (ecosystem (package a)) $"Maven" && bool_decide (package_name (package a) = name))
      (Vulnerability.affected v))))))).

(** [Vulnerability::fixed_version]. *)
Definition fixed_version `{Unicode} (v : Vulnerability.t) (name version : str) : option str :=
  match Version.parse version with
  | Err _ => None
  | Ok current =>
    let parsed := omap (fun fixed => match Version.parse fixed with Ok version => Some version | Err _ => None end) (fixes_of v name) in
    original <$> min_by version_cmp (List.filter (fun fixed => version_ltb current fixed) parsed)
  end.

(** ** Errors *)

Inductive BadResponse :=
  | PageLimit
  | RepeatedToken
  | BatchPageLimit (query : nat)
  | BatchRepeatedToken (query : nat)
  | ResultCount (expected got : nat)
  | ImplausibleId (query size : nat)
  | OtherRecord (id : str)
  | BadJson (problem : str) (line column : N) (size : N)
  | BodyLimit (limit : N).

Inductive VulnError (H : Type) :=
  | Http (error : H)
  | HttpStatus (status : N) (body_size : option N)
  | RateLimited (retry_after : option N)
  | InvalidPurl (error : PurlError)
  | InvalidResponse (problem : BadResponse).
Arguments Http {H}.
Arguments HttpStatus {H}.
Arguments RateLimited {H}.
Arguments InvalidPurl {H}.
Arguments InvalidResponse {H}.

(** What serde_json says of a body it cannot read. *)
Inductive JsonCategory := SyntaxCategory | EofCategory | DataCategory | IoCategory.
Record JsonError := { category : JsonCategory; json_line : N; json_column : N }.

Definition MAX_OSV_PAGES : nat := 100.
Definition MAX_SUCCESS_BODY_BYTES : N := 20 * 1024 * 1024.
Definition MAX_ERROR_BODY_BYTES : N := 64 * 1024.
Definition BATCH_CHUNK_SIZE : nat := 100.
Definition MAX_REDIRECTS : nat := 5.

Definition json_error {H} (error : JsonError) (size : N) : VulnError H :=
  let problem := match category error with
                 | SyntaxCategory => $"malformed JSON"
                 | EofCategory => $"truncated JSON"
                 | DataCategory => $"JSON of an unexpected shape"
                 | IoCategory => $"unreadable JSON"
                 end in
  InvalidResponse (BadJson problem (json_line error) (json_column error) size).

(** [same_origin_redirects]. *)
Inductive RedirectAction := TooManyRedirects | FollowRedirect | StopRedirect.

Definition same_origin_redirects `{UrlCrate} (previous : list Url) (url : Url) : RedirectAction :=
  if MAX_REDIRECTS <=? length previous then TooManyRedirects
  else if is_some_and (fun issuer => origins_eq (origin issuer) (origin url)) (last previous) then FollowRedirect
  else StopRedirect.

(** ** One request *)

Record QueryRequest := { request_purl : str; page_token : option str }.
Record Page := { vulns : option (list OsvVulnerability.t); next_page_token : option str }.

(** What an attempt of a request meets: the reads of the cooldown, the response or the
    failure of the transport, the instant it is read at, and the draws of the retry. *)
Record Met (H : Type) := {
  met_holds : list N;
  met_response : result H (Response H);
  met_now : N;
  met_unresolvable : bool * bool;
  met_backoff : option N;
  met_jitter : N;
}.
Arguments met_holds {H}.
Arguments met_response {H}.
Arguments met_now {H}.
Arguments met_unresolvable {H}.
Arguments met_backoff {H}.
Arguments met_jitter {H}.

Section Requests.
Context {H : Type} `{ReqwestError H} (parse_http_date : str -> option N) (policy : RetryPolicy).

(** [outcome]. *)
Definition outcome_of (error : VulnError H) : Outcome (VulnError H) :=
  match error with
  | RateLimited retry_after => Busy error retry_after
  | Http source =>
    if transport_is_lookup_failure source then Unresolved error
    else if transport_is_retryable source then Transient error else Permanent error
  | HttpStatus status _ => if status_is_transient status then Transient error else Permanent error
  | _ => Permanent error
  end.

Definition read_response_bytes (r : Response H) (limit : N) : result (VulnError H) str :=
  map_err (fun error => match error with
                        | Transport error => Http error
                        | TooLarge _ _ => InvalidResponse (BodyLimit limit)
                        end) (read_limited r limit).

Definition handle_response (now : N) (response : result H (Response H)) : result (Outcome (VulnError H)) (Response H) :=
  r ← map_err (fun error => outcome_of (Http error)) response;
  if is_success (status r) then Ok r
  else
    let retry_after := retry_after parse_http_date now (retry_after_header r) in
    if decide (status r = TOO_MANY_REQUESTS) then Err (Busy (RateLimited retry_after) retry_after)
    else
      body_size ← match read_response_bytes r MAX_ERROR_BODY_BYTES with
                  | Ok body => Ok (Some (size body))
                  | Err (Http _) => Ok None
                  | Err error => Err (Permanent error)
                  end;
      let error := HttpStatus (status r) body_size in
      Err (if status_is_transient (status r) then Busy error retry_after else Permanent error).

Definition parse_json_response {T} (decode : str -> result JsonError T) (r : Response H) : result (VulnError H) T :=
  body ← read_response_bytes r MAX_SUCCESS_BODY_BYTES;
  map_err (fun error => json_error error (size body)) (decode body).

Definition attempt {T} (decode : str -> result JsonError T) (met : Met H) : result (Outcome (VulnError H)) T :=
  r ← handle_response (met_now met) (met_response met);
  map_err outcome_of (parse_json_response decode r).

Definition met_round {T} (decode : str -> result JsonError T) (met : Met H) : Round (T := T) (E := VulnError H) := {|
  holds := met_holds met; outcome := attempt decode met; unresolvable := met_unresolvable met;
  backoff := met_backoff met; jitter := met_jitter met |}.

(** [OsvClient::retry], as [post] and [fetch_vulnerability] call it; the rule makes no
    more attempts than the policy allows. *)
Definition retry {T} (decode : str -> result JsonError T) (meets : nat -> Met H) : option (result (VulnError H) T) :=
  (run policy start (map (fun n => met_round decode (meets n)) (seq 0 (N.to_nat (retries policy + 1))))).2.

(** ** [OsvClient::query] *)

Section Query.
Context `{Scoring} (decode : str -> result JsonError Page) (answers : nat -> QueryRequest -> nat -> Met H) (purl : str).

Record Querying := {
  query_round : nat;
  found : list (str * OsvVulnerability.t);
  seen_tokens : list str;
  query_token : option str;
}.

Definition some_token (page : Page) : option str := opt_filter (fun token => negb (bool_decide (token = []))) (next_page_token page).

Definition query_step (st : Querying) : Querying + option (result (VulnError H) (list Vulnerability.t)) :=
  if MAX_OSV_PAGES <=? length (seen_tokens st) then inr (Some (Err (InvalidResponse PageLimit)))
  else
    match retry decode (answers (query_round st) {| request_purl := purl; page_token := query_token st |}) with
    | None => inr None
    | Some (Err error) => inr (Some (Err error))
    | Some (Ok page) =>
      let found := foldl (fun m v => map_or_insert (OsvVulnerability.id v) v m) (found st) (default [] (vulns page)) in
      match some_token page with
      | Some token =>
        if decide (token ∈ seen_tokens st) then inr (Some (Err (InvalidResponse RepeatedToken)))
        else inl {| query_round := S (query_round st); found := found; seen_tokens := seen_tokens st ++ [token]; query_token := Some token |}
      | None => inr (Some (Ok (map from_osv (map_values found))))
      end
    end.

Definition query : option (result (VulnError H) (list Vulnerability.t)) :=
  mjoin (run_loop query_step (N.of_nat (S MAX_OSV_PAGES)) {| query_round := 0; found := []; seen_tokens := []; query_token := None |}).
End Query.

(** ** [OsvClient::collect_batch_pages] *)

Definition is_plausible_vulnerability_id (id : str) : bool :=
  (length id <=? 128) && starts_with_char is_alnum id
  && forallb (fun c => is_alnum c || one_of ["-"; "_"; "."; ":"; "+"]%char c) id.

Section Batch.
Context (decode : str -> result JsonError (list Page)) (answers : nat -> list QueryRequest -> nat -> Met H) (purls : list str).

Record Batching := {
  batch_round : nat;
  batch_seen : list (list str);
  pending : list (nat * option str);
  ids : list (list str);
}.

(** The queries of a round, unless one has had its pages. *)
Definition over_limit (st : Batching) : option nat :=
  head (omap (fun '(idx, _) => if MAX_OSV_PAGES <=? length (default [] (batch_seen st !! idx)) then Some idx else None) (pending st)).

Definition batch_queries (st : Batching) : list QueryRequest :=
  map (fun '(idx, token) => {| request_purl := default [] (purls !! idx); page_token := token |}) (pending st).

(** [IndexSet::insert]. *)
Definition insert_id (id : str) (l : list str) : list str := if decide (id ∈ l) then l else l ++ [id].

Fixpoint take_ids (idx : nat) (ids : list (list str)) (l : list OsvVulnerability.t) : result (VulnError H) (list (list str)) :=
  match l with
  | [] => Ok ids
  | v :: l =>
    let id := OsvVulnerability.id v in
    if negb (is_plausible_vulnerability_id id) then Err (InvalidResponse (ImplausibleId idx (length id)))
    else take_ids idx (alter (insert_id id) idx ids) l
  end.

Fixpoint take_pages (st : list (list str) * list (list str) * list (nat * option str)) (l : list (nat * option str * Page))
    : result (VulnError H) (list (list str) * list (list str) * list (nat * option str)) :=
  match l with
  | [] => Ok st
  | (idx, _, page) :: l =>
    let '(seen, ids, next) := st in
    ids ← take_ids idx ids (default [] (vulns page));
    match some_token page with
    | Some token =>
      if decide (token ∈ default [] (seen !! idx)) then Err (InvalidResponse (BatchRepeatedToken idx))
      else take_pages (alter (fun tokens => tokens ++ [token]) idx seen, ids, next ++ [(idx, Some token)]) l
    | None => take_pages (seen, ids, next) l
    end
  end.

Definition batch_step (st : Batching) : Batching + option (result (VulnError H) (list (list str))) :=
  match pending st with
  | [] => inr (Some (Ok (ids st)))
  | _ =>
    match over_limit st with
    | Some idx => inr (Some (Err (InvalidResponse (BatchPageLimit idx))))
    | None =>
      match retry decode (answers (batch_round st) (batch_queries st)) with
      | None => inr None
      | Some (Err error) => inr (Some (Err error))
      | Some (Ok results) =>
        if decide (length results <> length (pending st)) then
          inr (Some (Err (InvalidResponse (ResultCount (length (pending st)) (length results)))))
        else
          match take_pages (batch_seen st, ids st, []) (zip (pending st) results) with
          | Err error => inr (Some (Err error))
          | Ok (seen, ids, next) => inl {| batch_round := S (batch_round st); batch_seen := seen; pending := next; ids := ids |}
          end
      end
    end
  end.

Definition batch_start : Batching := {|
  batch_round := 0; batch_seen := replicate (length purls) []; pending := map (fun i => (i, None)) (seq 0 (length purls));
  ids := replicate (length purls) [] |}.

Definition collect_batch_pages : option (result (VulnError H) (list (list str))) :=
  mjoin (run_loop batch_step (N.of_nat (S (S MAX_OSV_PAGES))) batch_start).
End Batch.

(** ** [OsvClient::query_batch] *)

(** [slice::chunks]. *)
Fixpoint chunks_of {A} (fuel n : nat) (l : list A) : list (list A) :=
  match fuel, l with
  | _, [] | O, _ => []
  | S fuel, _ => take n l :: chunks_of fuel n (drop n l)
  end.

Definition chunks_by {A} (n : nat) (l : list A) : list (list A) := chunks_of (length l) n l.

Record FailedFetch := { failed_id : str; failed_purls : list str; failed_error : VulnError H }.

(** What the service answers: to the requests of each chunk, and for each record. *)
Record Service := {
  query_answers : nat -> QueryRequest -> nat -> Met H;
  batch_answers : nat -> nat -> list QueryRequest -> nat -> Met H;
  record_answers : str -> nat -> Met H;
  decode_page : str -> result JsonError Page;
  decode_batch : str -> result JsonError (list Page);
  decode_record : str -> result JsonError OsvVulnerability.t;
}.

Section Scan.
Context `{Scoring} (service : Service) (base_url : str).

Definition record_url (id : str) : str := base_url ++ $"/vulns/" ++ id.

Definition fetch_vulnerability (id : str) : option (result (VulnError H) Vulnerability.t) :=
  answer ← retry (decode_record service) (record_answers service (record_url id));
  Some (record ← answer;
        if decide (OsvVulnerability.id record = id) then Ok (from_osv record) else Err (InvalidResponse (OtherRecord id))).

(** The chunks in order; the first failure ends the call. *)
Fixpoint collect_chunks (n : nat) (l : list (list str)) : option (result (VulnError H) (list (list str))) :=
  match l with
  | [] => Some (Ok [])
  | chunk :: l =>
    first ← collect_batch_pages (decode_batch service) (batch_answers service n) chunk;
    match first with
    | Err error => Some (Err error)
    | Ok ids => rest ← collect_chunks (S n) l; Some (rest ← rest; Ok (ids ++ rest))
    end
  end.

Definition attach (id purl : str) (failed : list FailedFetch) : list FailedFetch :=
  match list_find (fun f => failed_id f = id) failed with
  | Some (i, f) => <[i := {| failed_id := failed_id f; failed_purls := failed_purls f ++ [purl]; failed_error := failed_error f |}]> failed
  | None => failed
  end.

Section Results.
Context (fetched : list (str * result (VulnError H) Vulnerability.t)).

Definition record_of (id : str) : option Vulnerability.t := match entry_get id fetched with Some (Ok v) => Some v | _ => None end.
Definition error_of (id : str) : option (VulnError H) := match entry_get id fetched with Some (Err e) => Some e | _ => None end.

Fixpoint purl_results (purl : str) (ids : list str) (failed : list FailedFetch) : list Vulnerability.t * list FailedFetch :=
  match ids with
  | [] => ([], failed)
  | id :: ids =>
    match record_of id with
    | Some v => let '(vs, failed) := purl_results purl ids failed in (v :: vs, failed)
    | None => purl_results purl ids (attach id purl failed)
    end
  end.

Fixpoint batch_results (l : list (str * list str)) (failed : list FailedFetch) : list VulnResult * list FailedFetch :=
  match l with
  | [] => ([], failed)
  | (purl, ids) :: l =>
    let '(vs, failed) := purl_results purl ids failed in
    let '(results, failed) := batch_results l failed in
    ({| result_purl := purl; vulnerabilities := vs |} :: results, failed)
  end.
End Results.

Fixpoint fetch_all (l : list str) : option (list (str * result (VulnError H) Vulnerability.t)) :=
  match l with
  | [] => Some []
  | id :: l => r ← fetch_vulnerability id; rest ← fetch_all l; Some ((id, r) :: rest)
  end.

Definition query_batch (purls : list str) : option (result (VulnError H) (list VulnResult * list FailedFetch)) :=
  per_purl ← collect_chunks 0 (chunks_by BATCH_CHUNK_SIZE purls);
  match per_purl with
  | Err error => Some (Err error)
  | Ok per_purl_ids =>
    let all_ids := firsts (concat per_purl_ids) in
    fetched ← fetch_all all_ids;
    let failed := omap (fun id => (fun error => {| failed_id := id; failed_purls := []; failed_error := error |}) <$> error_of fetched id) all_ids in
    Some (Ok (batch_results fetched (zip purls per_purl_ids) failed))
  end.

(** ** [VulnScanner::scan] *)

Record ScanDependency := {
  dep_group : str; dep_artifact : str; dep_version : str; dep_packaging : str; dep_classifier : option str }.

Record ScanReport := { total_dependencies : nat; report_vulnerabilities : list VulnResult; failed_fetches : list FailedFetch }.

Definition is_complete (r : ScanReport) : bool := bool_decide (length (failed_fetches r) = 0).

Section Purls.
Context {P PE : Type} `{PackageUrl P PE}.

Definition purl_of (d : ScanDependency) : result (VulnError H) str :=
  map_err InvalidPurl (maven_purl_with_qualifiers (dep_group d) (dep_artifact d) (dep_version d) (dep_packaging d) (dep_classifier d)).

Fixpoint purls_of (l : list ScanDependency) : result (VulnError H) (list str) :=
  match l with
  | [] => Ok []
  | d :: l => purl ← purl_of d; purls ← purls_of l; Ok (purl :: purls)
  end.

Definition scan (dependencies : list ScanDependency) : option (result (VulnError H) ScanReport) :=
  match purls_of dependencies with
  | Err error => Some (Err error)
  | Ok purls =>
    let unique_purls := firsts purls in
    answered ← match unique_purls with
               | [] => Some (Ok ([], []))
               | [purl] => found ← query (decode_page service) (query_answers service) purl;
                           Some (vs ← found; Ok ([{| result_purl := purl; vulnerabilities := vs |}], []))
               | purls => query_batch purls
               end;
    Some ('(fetched, failed) ← answered;
          Ok {| total_dependencies := length unique_purls;
                report_vulnerabilities := List.filter (fun r => negb (bool_decide (length (vulnerabilities r) = 0))) fetched;
                failed_fetches := failed |})
  end.
End Purls.
End Scan.
End Requests.
