(* ===== verification/OsvFacts.v ===== *)
(** * What a scan reports

    The scan returns whatever the service answers, within its pages; and every record the
    service names for a package is in the report, or is listed as one that could not be
    fetched. *)

From Stdlib Require Import Ascii String Lia NArith QArith.
From stdpp Require Import base list strings relations.
From S2P Require Import Prelude Iter IndexMap Str Version Retry Http Purl Osv.

#[local] Set Warnings "-clear-no-such-hyp".

(** ** Paths of a loop *)

Section Paths.
Context {S R : Type} (step : S -> S + R).

Definition next (s s' : S) : Prop := step s = inl s'.

(** A loop that returns came to a state whose body leaves, and every state on the way
    leads to it. *)
Lemma loop_path fuel s r : run_loop step fuel s = Some r ->
  exists last, rtc next s last /\ step last = inr r /\ forall s', rtc next s s' -> rtc next s' last.
Proof.
  intros E.
  assert (exists last, rtc next s last /\ step last = inr r) as (last & Hl & El).
  { apply (run_partial step (fun s' => rtc next s s') (fun r => exists last, rtc next s last /\ step last = inr r) fuel s r); [|done|done].
    intros s' Hs. destruct (step s') as [s''|r'] eqn:E'; [by eapply rtc_r|eauto]. }
  exists last. split_and!; [done|done|]. intros s' Hs. clear E. induction Hs as [s|s s1 s' H1 Hs IH]; [done|]. apply IH.
  inversion Hl as [|? s1' ? H2 Hl']; subst; unfold next in *; [congruence|]. rewrite H1 in H2. by injection H2 as <-.
Qed.
End Paths.

(** ** Requests *)

Section Facts.
Context {H : Type} `{ReqwestError H} (parse_http_date : str -> option N) (policy : RetryPolicy).

Abbreviation retry := (retry parse_http_date policy).

(** The rule makes an end of every request. *)
Lemma retry_returns {T} (decode : str -> result JsonError T) meets : is_Some (retry decode meets).
Proof.
  unfold Osv.retry. destruct (run policy start _) as [events res] eqn:Er. apply run_spec in Er as (_ & _ & Hr); [|cbn; lia..].
  apply Hr. rewrite length_map, length_seq. cbn. lia.
Qed.

(** ** A query *)

Section Query.
Context `{Scoring} (decode : str -> result JsonError Page) (answers : nat -> QueryRequest -> nat -> Met H) (purl : str).
Abbreviation query_step := (query_step parse_http_date policy decode answers purl).

Lemma query_returns : is_Some (query parse_http_date policy decode answers purl).
Proof.
  unfold query.
  destruct (run_total query_step (fun st => length (seen_tokens st) <= MAX_OSV_PAGES) is_Some
    (fun st => N.of_nat (MAX_OSV_PAGES - length (seen_tokens st)))) with (fuel := N.of_nat (S MAX_OSV_PAGES))
    (s := {| query_round := 0; found := []; seen_tokens := []; query_token := None |}) as (r & Er & Hr).
  - intros st Hst. unfold Osv.query_step. destruct (Nat.leb_spec MAX_OSV_PAGES (length (seen_tokens st))); [eauto|].
    destruct (retry_returns decode (answers (query_round st) {| request_purl := purl; page_token := query_token st |})) as [[page|] ->]; [|eauto].
    cbv zeta. destruct (some_token page); [|eauto]. destruct (decide _); [eauto|]. cbn [seen_tokens]. rewrite length_app. cbn [length]. lia.
  - cbn [seen_tokens length]. lia.
  - cbn [seen_tokens length]. lia.
  - rewrite Er. done.
Qed.

Abbreviation query_start := {| query_round := 0; found := []; seen_tokens := []; query_token := None |}.

Definition page_ids (page : Page) : list str := map OsvVulnerability.id (default [] (vulns page)).

(** A request of the loop asked for the page that the token names, and the page was the
    answer. *)
Definition query_page (token : option str) (page : Page) : Prop :=
  exists st, rtc (next query_step) query_start st /\ length (seen_tokens st) < MAX_OSV_PAGES /\ query_token st = token /\
    retry decode (answers (query_round st) {| request_purl := purl; page_token := token |}) = Some (Ok page).

Definition query_named (id : str) : Prop := exists token page, query_page token page /\ id ∈ page_ids page.

Definition offer (m : list (str * OsvVulnerability.t)) (l : list OsvVulnerability.t) : list (str * OsvVulnerability.t) :=
  foldl (fun m v => map_or_insert (OsvVulnerability.id v) v m) m l.

Lemma offer_self l m : self_keyed OsvVulnerability.id m -> self_keyed OsvVulnerability.id (offer m l).
Proof.
  revert m. induction l as [|v l IH]; intros m Hm; [done|]. apply IH, entry_with_self; [done|]. intros [w|] Hw; cbn; [by apply Hw|done].
Qed.

Lemma offer_keys l m id : id ∈ map fst (offer m l) <-> id ∈ map fst m \/ id ∈ map OsvVulnerability.id l.
Proof.
  revert m. induction l as [|v l IH]; intros m; [cbn; set_solver|]. unfold offer in *. cbn [foldl map]. rewrite IH.
  unfold map_or_insert. rewrite entry_with_names. destruct (decide _); set_solver.
Qed.

(** A step that goes on, and the last one, keep what the page names. *)
Lemma query_found st : rtc (next query_step) query_start st ->
  self_keyed OsvVulnerability.id (found st) /\ (forall id, id ∈ map fst (found st) -> query_named id).
Proof.
  intros Hr. assert (forall st0, rtc (next query_step) query_start st0 ->
    (self_keyed OsvVulnerability.id (found st0) /\ forall id, id ∈ map fst (found st0) -> query_named id) -> rtc (next query_step) st0 st ->
    self_keyed OsvVulnerability.id (found st) /\ forall id, id ∈ map fst (found st) -> query_named id) as Hgen.
  { intros st0 Hst0 Hn Hr0. induction Hr0 as [st0|st0 st1 st2 Hs _ IH]; [done|]. apply IH; [done|by eapply rtc_r|]. clear IH. destruct Hn as [Hk Hn].
    unfold next, Osv.query_step in Hs. destruct (Nat.leb_spec MAX_OSV_PAGES (length (seen_tokens st0))) as [|Hlt]; [done|].
    destruct (retry _ _) as [[page|]|] eqn:Er; [|done..]. cbv zeta in Hs. destruct (some_token page) as [token|]; [|done]. destruct (decide _); [done|].
    injection Hs as <-. cbn [found]. fold (offer (found st0) (default [] (vulns page))). split; [by apply offer_self|]. intros id Hid.
    apply offer_keys in Hid as [Hid|Hid]; [by apply Hn|]. exists (query_token st0), page. split; [by exists st0|done]. }
  apply (Hgen query_start); [done| |done]. split; [constructor|]. by intros ? ?%elem_of_nil.
Qed.

Lemma query_kept st st' : rtc (next query_step) query_start st -> rtc (next query_step) st st' ->
  forall id, id ∈ map fst (found st) -> id ∈ map fst (found st').
Proof.
  intros Hst Hr. induction Hr as [st|st st1 st2 Hs _ IH]; [done|]. intros id Hid. apply IH; [by eapply rtc_r|].
  destruct (query_found _ Hst) as [Hk _]. unfold next, Osv.query_step in Hs. destruct (_ <=? _); [done|]. destruct (retry _ _) as [[page|]|]; [|done..].
  cbv zeta in Hs. destruct (some_token page); [|done]. destruct (decide _); [done|]. injection Hs as <-. cbn [found]. apply offer_keys. by left.
Qed.

(** Every page that names another one is followed. *)
Lemma query_pages vs : query parse_http_date policy decode answers purl = Some (Ok vs) ->
  (exists page, query_page None page) /\
  forall token page t, query_page token page -> some_token page = Some t -> exists page', query_page (Some t) page'.
Proof.
  unfold query. intros Eq. destruct (run_loop _ _ _) as [r|] eqn:Er; [|done]. cbn in Eq. subst r.
  apply loop_path in Er as (last & Hl & Elast & Hall).
  assert (forall st, rtc (next query_step) query_start st -> exists page, query_page (query_token st) page) as Hans.
  { intros st Hst. pose proof (Hall st Hst) as Hto.
    assert (exists page, length (seen_tokens st) < MAX_OSV_PAGES /\
      retry decode (answers (query_round st) {| request_purl := purl; page_token := query_token st |}) = Some (Ok page)) as (page & Hlt & Er).
    { inversion Hto as [|? st1 ? Hs Hto']; subst; [rename Elast into Hs|unfold next in Hs]; unfold Osv.query_step in Hs.
      all: destruct (_ <=? _) eqn:El; [done|]; apply Nat.leb_gt in El; destruct (retry _ _) as [[page|]|]; [eauto|done..]. }
    exists page, st. done. }
  split; [by apply (Hans query_start)|]. intros token page t (st & Hst & Hlt & <- & Er) Ht.
  pose proof (Hall st Hst) as Hto. inversion Hto as [|? st1 ? Hs Hto']; subst; [rename Elast into Hs|unfold next in Hs]; pose proof Hs as Hs0;
    unfold Osv.query_step in Hs; destruct (_ <=? _); try done; rewrite Er in Hs; cbv zeta in Hs; rewrite Ht in Hs;
    destruct (decide _); try done.
  injection Hs as Hs. assert (query_token st1 = Some t) as Etok by (by rewrite <-Hs). rewrite <-Etok. apply Hans. by eapply rtc_r.
Qed.

(** The records of a query are those its answers name. *)
Lemma query_ok vs : query parse_http_date policy decode answers purl = Some (Ok vs) -> forall id, id ∈ map Vulnerability.id vs <-> query_named id.
Proof.
  unfold query. intros Eq. destruct (run_loop _ _ _) as [r|] eqn:Er; [|done]. cbn in Eq. subst r.
  apply loop_path in Er as (last & Hl & Elast & Hall). destruct (query_found _ Hl) as [Hk Hn].
  unfold Osv.query_step in Elast. destruct (Nat.leb_spec MAX_OSV_PAGES (length (seen_tokens last))) as [|Hlt]; [done|].
  destruct (retry _ _) as [[page|]|] eqn:Er; [|done..]. cbv zeta in Elast. destruct (some_token page) as [token|] eqn:Et; [by destruct (decide _)|].
  injection Elast as <-. fold (offer (found last) (default [] (vulns page))). set (m := offer _ _). intros id.
  assert (map Vulnerability.id (map from_osv (map_values m)) = map fst m) as ->.
  { rewrite map_map. cbn. rewrite <-(keys_of_values OsvVulnerability.id m) by (by apply offer_self). by apply map_ext. }
  unfold m. rewrite offer_keys. split.
  - intros [Hid|Hid]; [by apply Hn|]. exists (query_token last), page. split; [by exists last|done].
  - intros (token & page' & (st & Hst & Hlt' & <- & Er') & Hid). pose proof (Hall st Hst) as Hto. inversion Hto as [|? st1 ? Hs Hto']; subst.
    + right. rewrite Er in Er'. by injection Er' as <-.
    + left. apply (query_kept st1 last); [by eapply rtc_r|done|]. destruct (query_found _ Hst) as [Hk0 _]. unfold next, Osv.query_step in Hs.
      destruct (_ <=? _); [done|]. rewrite Er' in Hs. cbv zeta in Hs. destruct (some_token page'); [|done]. destruct (decide _); [done|].
      injection Hs as <-. cbn [found]. apply offer_keys. by right.
Qed.
End Query.

(** ** A batch *)

Section Batch.
Context (decode : str -> result JsonError (list Page)) (answers : nat -> list QueryRequest -> nat -> Met H) (purls : list str).
Abbreviation step := (batch_step parse_http_date policy decode answers purls).

Lemma take_ids_ok idx ids l ids' : idx < length ids -> take_ids (H := H) idx ids l = Ok ids' ->
  length ids' = length ids /\ Forall (fun v => is_plausible_vulnerability_id (OsvVulnerability.id v) = true) l /\
  (forall i, NoDup (default [] (ids !! i)) -> NoDup (default [] (ids' !! i))) /\
  forall i x, x ∈ default [] (ids' !! i) <-> x ∈ default [] (ids !! i) \/ i = idx /\ x ∈ map OsvVulnerability.id l.
Proof.
  revert ids. induction l as [|v l IH]; intros ids Hlt; cbn [take_ids].
  - intros [= <-]. split_and!; [done|constructor|done|]. intros i x. cbn. set_solver.
  - destruct (is_plausible_vulnerability_id (OsvVulnerability.id v)) eqn:Ep; cbn [negb]; [|done]. intros E.
    apply IH in E as (Hlen & Hall & Hnd & Hel); [|by rewrite length_alter]. rewrite length_alter in Hlen.
    split_and!; [done|by constructor| |].
    + intros i Hi. apply Hnd. destruct (decide (i = idx)) as [->|Hne]; [|by rewrite list_lookup_alter_ne].
      rewrite list_lookup_alter_eq. destruct (ids !! idx) as [s|]; [|done]. cbn in *. unfold insert_id. destruct (decide _); [done|].
      apply NoDup_app. split_and!; [done|set_solver|apply NoDup_singleton].
    + intros i x. rewrite Hel. destruct (decide (i = idx)) as [->|Hne].
      * rewrite list_lookup_alter_eq. destruct (lookup_lt_is_Some_2 ids idx Hlt) as [s ->]. cbn. unfold insert_id.
        destruct (decide _) as [Hin|Hin]; [|set_solver]. split; [set_solver|]. intros [?|[_ [->|?]%elem_of_cons]]; auto.
      * rewrite list_lookup_alter_ne by done. naive_solver.
Qed.

(** The ids that the pages of a round name for a query. *)
Definition named_in (l : list (nat * option str * Page)) (i : nat) (x : str) : Prop :=
  exists token page, (i, token, page) ∈ l /\ x ∈ page_ids page.
Definition plausible_page (page : Page) : Prop :=
  Forall (fun v => is_plausible_vulnerability_id (OsvVulnerability.id v) = true) (default [] (vulns page)).

(** What a round does to the tokens, the ids and the queries that go on. *)
Lemma take_pages_ok l seen ids nx seen' ids' nx' :
  (forall x, x ∈ l -> x.1.1 < length ids) -> length seen = length ids -> NoDup (map (fun x => x.1.1) l) ->
  take_pages (H := H) (seen, ids, nx) l = Ok (seen', ids', nx') ->
  length ids' = length ids /\ length seen' = length seen /\
  (forall i, NoDup (default [] (ids !! i)) -> NoDup (default [] (ids' !! i))) /\
  (forall i x, x ∈ default [] (ids' !! i) <-> x ∈ default [] (ids !! i) \/ named_in l i x) /\
  Forall (fun x => plausible_page x.2) l /\
  exists added, nx' = nx ++ added /\ (forall x t, x ∈ l -> some_token x.2 = Some t -> (x.1.1, Some t) ∈ added) /\
    map fst added `sublist_of` map (fun x => x.1.1) l /\
    (forall i, i ∈ map fst added -> length (default [] (seen' !! i)) = S (length (default [] (seen !! i)))) /\
    (forall i, i ∉ map fst added -> seen' !! i = seen !! i).
Proof.
  revert seen ids nx. induction l as [|[[idx token] page] l IH]; intros seen ids nx Hlt Hlen Hnd; cbn [take_pages].
  - intros [= <- <- <-]. split_and!; try done. { intros i x. split; [by left|]. intros [?|(? & ? & ?%elem_of_nil & _)]; done. }
    exists []. rewrite app_nil_r. split_and!; [done|by intros ? ? ?%elem_of_nil|done|by intros ? ?%elem_of_nil|done].
  - cbn [map fst] in Hnd. apply NoDup_cons in Hnd as [Hidx Hnd]. intros E. apply bind_Ok in E as (ids1 & E1 & E).
    apply take_ids_ok in E1 as (L1 & P1 & N1 & I1); [|apply (Hlt (idx, token, page)); by left].
    assert (forall x, x ∈ l -> x.1.1 < length ids1) as Hlt1 by (intros x Hx; rewrite L1; apply Hlt; by right).
    assert (forall i x, named_in ((idx, token, page) :: l) i x <-> i = idx /\ x ∈ page_ids page \/ named_in l i x) as Hcons.
    { intros i x. unfold named_in. setoid_rewrite elem_of_cons. split.
      - intros (t & p & [[= -> -> ->]|?] & ?); [by left|right; eauto].
      - intros [[-> ?]|(t & p & ? & ?)]; [exists token, page; auto|exists t, p; auto]. }
    destruct (some_token page) as [tok|] eqn:Etok.
    + destruct (decide _); [done|]. apply IH in E as (L2 & S2 & N2 & I2 & P2 & added & Ea & Htok & Hsub & Hin & Hout); [|done|by rewrite length_alter, L1|done].
      rewrite length_alter in S2. split_and!; [congruence|done|auto|intros i x; rewrite I2, I1, Hcons; unfold page_ids; naive_solver|by constructor|].
      assert (idx ∉ map fst added) as Hfresh by (intros Hi; by apply Hidx, (elem_of_sublist _ _ _ Hi Hsub)).
      exists ((idx, Some tok) :: added). rewrite Ea, <-app_assoc. split_and!; [done| |cbn; by apply sublist_skip| |].
      { intros x t [->|Hx]%elem_of_cons Ht; apply elem_of_cons; [left; cbn in *; congruence|right; by apply Htok]. }
      * cbn [map fst]. intros i [->|Hi]%elem_of_cons.
        -- rewrite (Hout idx Hfresh), list_lookup_alter_eq. destruct (lookup_lt_is_Some_2 seen idx) as [s ->]; [rewrite Hlen; apply (Hlt (idx, token, page)); by left|].
           cbn. rewrite length_app. cbn. lia.
        -- rewrite (Hin i Hi), list_lookup_alter_ne; [done|]. by intros ->.
      * cbn [map fst]. intros i [Hne Hi]%not_elem_of_cons. rewrite (Hout i Hi). by apply list_lookup_alter_ne.
    + apply IH in E as (L2 & S2 & N2 & I2 & P2 & added & Ea & Htok & Hsub & Hin & Hout); [|done|by rewrite L1|done].
      split_and!; [congruence|done|auto|intros i x; rewrite I2, I1, Hcons; unfold page_ids; naive_solver|by constructor|]. exists added. split_and!; [done| |cbn; by apply sublist_cons|done|done].
      intros x t [->|Hx]%elem_of_cons Ht; [cbn in *; congruence|by apply Htok].
Qed.

Record batch_inv (st : Batching) : Prop := {
  inv_ids : length (ids st) = length purls;
  inv_seen : length (batch_seen st) = length purls;
  inv_pending : forall x, x ∈ pending st -> x.1 < length purls /\ length (default [] (batch_seen st !! x.1)) = batch_round st;
  inv_queries : NoDup (map fst (pending st));
  inv_distinct : forall i, NoDup (default [] (ids st !! i)) }.

Lemma lookup_replicate_nil (n i : nat) : default [] (replicate n ([] : list str) !! i) = [].
Proof. destruct (replicate n [] !! i) as [x|] eqn:E; [|done]. by apply lookup_replicate in E as [-> _]. Qed.

Lemma batch_start_inv : batch_inv (batch_start purls).
Proof.
  split; cbn; rewrite ?length_replicate; [done|done| | |].
  - intros x Hx. apply list_elem_of_fmap in Hx as (i & -> & Hi). apply elem_of_seq in Hi. cbn. rewrite lookup_replicate_nil. cbn. lia.
  - rewrite map_map. cbn. rewrite map_id. apply NoDup_seq.
  - intros i. rewrite lookup_replicate_nil. constructor.
Qed.

Lemma over_limit_None st x : over_limit st = None -> x ∈ pending st -> length (default [] (batch_seen st !! x.1)) < MAX_OSV_PAGES.
Proof.
  unfold over_limit. destruct (omap _ _) as [|y l] eqn:E; [|done]. intros _ Hx.
  destruct (Nat.leb_spec MAX_OSV_PAGES (length (default [] (batch_seen st !! x.1)))) as [Hle|]; [|done].
  assert (x.1 ∈ []) as Hn%elem_of_nil; [|done]. rewrite <-E. apply list_elem_of_omap. exists x. split; [done|]. destruct x as [i t]. cbv beta iota. cbn [fst] in *.
  by rewrite (proj2 (Nat.leb_le _ _) Hle).
Qed.

Lemma zip_queries (l : list (nat * option str)) (results : list Page) : length results = length l ->
  map (fun x => x.1.1) (zip l results) = map fst l.
Proof. revert results. induction l as [|x l IH]; intros [|r results] E; cbn in *; try done. by rewrite IH by lia. Qed.

(** A round that goes on. *)
Lemma batch_step_next st st' : batch_inv st -> step st = inl st' ->
  batch_inv st' /\ batch_round st' = S (batch_round st) /\ batch_round st < MAX_OSV_PAGES /\
  exists results, over_limit st = None /\ retry decode (answers (batch_round st) (batch_queries purls st)) = Some (Ok results) /\
    Forall (fun x => plausible_page x.2) (zip (pending st) results) /\
    length results = length (pending st) /\
    (forall x t, x ∈ zip (pending st) results -> some_token x.2 = Some t -> (x.1.1, Some t) ∈ pending st') /\
    forall i x, x ∈ default [] (ids st' !! i) <-> x ∈ default [] (ids st !! i) \/ named_in (zip (pending st) results) i x.
Proof.
  intros [Li Ls Hp Hq Hd]. unfold batch_step. destruct (pending st) as [|x0 rest] eqn:Epend; [done|]. rewrite <-Epend in *.
  destruct (over_limit st) eqn:Eo; [done|]. destruct (retry _ _) as [[results|]|] eqn:Er; [|done..].
  destruct (decide _) as [|Elen%dec_stable]; [done|].
  destruct (take_pages _ _) as [[[seen ids'] nx]|] eqn:Et; [|done]. intros [= <-].
  assert (forall x, x ∈ zip (pending st) results -> x.1 ∈ pending st) as Hz.
  { intros [x page] Hx. by apply elem_of_zip_l in Hx. }
  apply take_pages_ok in Et as (L2 & S2 & N2 & I2 & P2 & added & -> & Htok & Hsub & Hin & Hout).
  2:{ intros x Hx. rewrite Li. by apply (Hp x.1), Hz. }
  2:{ congruence. }
  2:{ rewrite zip_queries by done. done. }
  rewrite zip_queries in Hsub by done. split; [split|split_and!].
  - cbn. congruence.
  - cbn. congruence.
  - cbn [pending batch_seen batch_round app]. intros x Hx. pose proof (list_elem_of_fmap_2 fst _ _ Hx) as Hx1.
    pose proof (elem_of_sublist _ _ _ Hx1 Hsub) as Hx2. apply list_elem_of_fmap in Hx2 as (y & Ey & Hy). destruct (Hp y Hy) as [Hy1 Hy2].
    cbn in Hx1. rewrite (Hin _ Hx1). split; [congruence|]. by rewrite Ey, Hy2.
  - cbn. by eapply sublist_NoDup.
  - cbn. auto.
  - done.
  - assert (x0 ∈ pending st) as Hx0 by (rewrite Epend; by left). destruct (Hp x0 Hx0) as [_ <-]. by apply over_limit_None.
  - exists results. done.
Qed.

Lemma batch_inv_path st : rtc (next step) (batch_start purls) st -> batch_inv st.
Proof.
  intros Hr. pose proof batch_start_inv as Hi. induction Hr as [st|st st1 st2 H1 _ IH]; [done|]. apply IH. by eapply batch_step_next.
Qed.

Lemma collect_returns : is_Some (collect_batch_pages parse_http_date policy decode answers purls).
Proof.
  unfold collect_batch_pages.
  destruct (run_total step (fun st => batch_inv st /\ batch_round st <= MAX_OSV_PAGES) is_Some (fun st => N.of_nat (MAX_OSV_PAGES - batch_round st)))
    with (fuel := N.of_nat (S (S MAX_OSV_PAGES))) (s := batch_start purls) as (r & Er & Hr).
  - intros st [Hi Hle]. destruct (step st) as [st'|r] eqn:E.
    + destruct (batch_step_next st st' Hi E) as (Hi' & Hn & Hlt & _). split; [split; [done|lia]|lia].
    + unfold batch_step in E. destruct (pending st); [by simplify_eq; eauto|]. destruct (over_limit st); [by simplify_eq; eauto|].
      destruct (retry_returns decode (answers (batch_round st) (batch_queries purls st))) as [[results|] Er]; rewrite Er in E; [|by simplify_eq; eauto].
      destruct (decide _); [by simplify_eq; eauto|]. destruct (take_pages _ _) as [[[? ?] ?]|]; by simplify_eq; eauto.
  - split; [apply batch_start_inv|cbn; lia].
  - cbn [batch_round batch_start]. lia.
  - by rewrite Er.
Qed.

(** A request of the loop asked for the page of a query that the token names, and the page
    was the answer. *)
Definition batch_page (i : nat) (token : option str) (page : Page) : Prop :=
  exists st results, rtc (next step) (batch_start purls) st /\ over_limit st = None /\
    retry decode (answers (batch_round st) (batch_queries purls st)) = Some (Ok results) /\ (i, token, page) ∈ zip (pending st) results.

(** A page names the id for the query. *)
Definition batch_named (i : nat) (id : str) : Prop := exists token page, batch_page i token page /\ id ∈ page_ids page.

Lemma ids_named st : rtc (next step) (batch_start purls) st -> forall i x, x ∈ default [] (ids st !! i) -> batch_named i x.
Proof.
  intros Hr. assert (forall st0, rtc (next step) (batch_start purls) st0 -> (forall i x, x ∈ default [] (ids st0 !! i) -> batch_named i x) ->
    rtc (next step) st0 st -> forall i x, x ∈ default [] (ids st !! i) -> batch_named i x) as Hgen.
  { intros st0 Hst0 Hn Hr0. induction Hr0 as [st0|st0 st1 st2 H1 _ IH]; [done|]. apply IH; [done|by eapply rtc_r|].
    destruct (batch_step_next st0 st1 (batch_inv_path _ Hst0) H1) as (_ & _ & _ & results & Ho & Er & _ & _ & _ & Hids).
    intros i x [Hx|(t & p & Hin & Hx)]%Hids; [by apply Hn|]. exists t, p. split; [by exists st0, results|done]. }
  apply (Hgen (batch_start purls)); [done| |done]. intros i x. cbn. rewrite lookup_replicate_nil. by intros ?%elem_of_nil.
Qed.

Lemma ids_kept st st' : rtc (next step) (batch_start purls) st -> rtc (next step) st st' ->
  forall i x, x ∈ default [] (ids st !! i) -> x ∈ default [] (ids st' !! i).
Proof.
  intros Hst0 Hr. induction Hr as [st|st st1 st2 H1 _ IH]; [done|]. intros i x Hx. apply IH; [by eapply rtc_r|].
  destruct (batch_step_next st st1 (batch_inv_path _ Hst0) H1) as (_ & _ & _ & results & _ & _ & _ & _ & _ & Hids). apply Hids. by left.
Qed.

(** When a batch is answered every query is, and every page that names another one is
    followed. *)
Lemma collect_pages found : collect_batch_pages parse_http_date policy decode answers purls = Some (Ok found) ->
  forall i, i < length purls -> (exists page, batch_page i None page) /\
    forall token page t, batch_page i token page -> some_token page = Some t -> exists page', batch_page i (Some t) page'.
Proof.
  unfold collect_batch_pages. intros Ec. destruct (run_loop _ _ _) as [r|] eqn:Er; [|done]. cbn in Ec. subst r.
  apply loop_path in Er as (last & Hl & Elast & Hall).
  assert (pending last = []) as Epend.
  { unfold batch_step in Elast. destruct (pending last); [done|]. destruct (over_limit last); [done|].
    destruct (retry _ _) as [[results|]|]; [|done..]. destruct (decide _); [done|]. by destruct (take_pages _ _) as [[[? ?] ?]|]. }
  assert (forall st i token, rtc (next step) (batch_start purls) st -> (i, token) ∈ pending st -> exists page, batch_page i token page) as Hans.
  { intros st i token Hst Hin. pose proof (Hall st Hst) as Hto. inversion Hto as [|? st1 ? Hs1 Hto']; subst.
    { rewrite Epend in Hin. by apply elem_of_nil in Hin. }
    destruct (batch_step_next st st1 (batch_inv_path _ Hst) Hs1) as (_ & _ & _ & results & Ho & Er & _ & Hlen & _).
    apply list_elem_of_lookup in Hin as (j & Hj). destruct (lookup_lt_is_Some_2 results j) as [page Hpage]; [rewrite Hlen; by eapply lookup_lt_Some|].
    exists page, st, results. split_and!; [done|done|done|]. apply (list_elem_of_lookup_2 _ j), lookup_zip_Some. done. }
  intros i Hi. split.
  - apply (Hans (batch_start purls)); [done|]. cbn. apply list_elem_of_fmap. exists i. split; [done|]. apply elem_of_seq. lia.
  - intros token page t (st & results & Hst & Ho & Er & Hin) Ht. pose proof (Hall st Hst) as Hto. inversion Hto as [|? st1 ? Hs1 Hto']; subst.
    { rewrite Epend in Hin. by apply elem_of_nil in Hin. }
    destruct (batch_step_next st st1 (batch_inv_path _ Hst) Hs1) as (_ & _ & _ & results' & _ & Er' & _ & _ & Htok & _).
    rewrite Er in Er'. injection Er' as <-. apply (Hans st1); [by eapply rtc_r|]. by apply (Htok (i, token, page)).
Qed.

(** The ids of a batch are those its answers name, each once, and plausible. *)
Lemma collect_ok found : collect_batch_pages parse_http_date policy decode answers purls = Some (Ok found) ->
  length found = length purls /\
  forall i, NoDup (default [] (found !! i)) /\
    forall id, (id ∈ default [] (found !! i) <-> batch_named i id) /\ (batch_named i id -> is_plausible_vulnerability_id id = true).
Proof.
  unfold collect_batch_pages. intros Ec. destruct (run_loop _ _ _) as [r|] eqn:Er; [|done]. cbn in Ec. subst r.
  apply loop_path in Er as (last & Hl & Elast & Hall). pose proof (batch_inv_path _ Hl) as [Li _ _ _ Hd].
  assert (pending last = [] /\ ids last = found) as [Epend <-].
  { unfold batch_step in Elast. destruct (pending last); [by simplify_eq|]. destruct (over_limit last); [done|].
    destruct (retry _ _) as [[results|]|]; [|done..]. destruct (decide _); [done|]. by destruct (take_pages _ _) as [[[? ?] ?]|]. }
  split; [done|]. intros i. split; [done|]. intros id.
  assert (batch_named i id -> id ∈ default [] (ids last !! i) /\ is_plausible_vulnerability_id id = true) as Hback.
  { intros (t & p & (st & results & Hst & Ho & Er & Hin) & Hid). pose proof (Hall st Hst) as Hto.
    inversion Hto as [|? st1 ? H1 Hto']; subst.
    { rewrite Epend in Hin. by apply elem_of_nil in Hin. }
    destruct (batch_step_next st st1 (batch_inv_path _ Hst) H1) as (_ & _ & _ & results' & _ & Er' & Hpl & _ & _ & Hids).
    rewrite Er in Er'. injection Er' as <-. split.
    - apply (ids_kept st1 last); [by eapply rtc_r|done|]. apply Hids. right. by exists t, p.
    - rewrite Forall_forall in Hpl. specialize (Hpl _ Hin). cbn in Hpl.
      unfold page_ids in Hid. apply list_elem_of_fmap in Hid as (v & -> & Hv). unfold plausible_page in Hpl. rewrite Forall_forall in Hpl. by apply Hpl. }
  split; [split|]; [by apply (ids_named last Hl)|intros Hb; by apply Hback|intros Hb; by apply Hback].
Qed.
End Batch.

(** ** Chunks *)

Lemma chunks_of_lookup {A} fuel n (l : list A) i x : 0 < n -> length l <= fuel -> l !! i = Some x ->
  exists c, chunks_of fuel n l !! (i / n) = Some c /\ c !! (i mod n) = Some x /\
    forall k z, k < i / n -> chunks_of fuel n l !! k = Some z -> length z = n.
Proof.
  intros Hn. revert l i. induction fuel as [|fuel IH]; intros l i Hlen Hi; [destruct l; [done|cbn in Hlen; lia]|].
  destruct l as [|y l]; [done|]. cbn [chunks_of]. set (l0 := y :: l) in *. destruct (decide (i < n)) as [Hlt|Hge].
  - rewrite Nat.div_small, Nat.mod_small by done. exists (take n l0). split_and!; [done|by rewrite lookup_take_lt|lia].
  - assert (i / n = S ((i - n) / n)) as Ediv by (replace i with (i - n + 1 * n) at 1 by lia; rewrite Nat.div_add by lia; lia).
    assert (i mod n = (i - n) mod n) as Emod by (replace i with (i - n + 1 * n) at 1 by lia; by rewrite Nat.Div0.mod_add).
    assert (length (drop n l0) <= fuel) as Hlen2 by (rewrite length_drop; cbn in *; lia).
    assert (drop n l0 !! (i - n) = Some x) as Hi2 by (rewrite lookup_drop; replace (n + (i - n)) with i by lia; done).
    destruct (IH _ _ Hlen2 Hi2) as (c & Hc & Hx & Hall). rewrite Ediv, Emod. exists c. split_and!; [done|done|].
    intros [|k] z Hk Hz; cbn in Hz; [|apply (Hall k); [lia|done]]. injection Hz as <-. rewrite length_take.
    apply lookup_lt_Some in Hi. lia.
Qed.

Lemma chunks_concat {A} fuel n (l : list A) : 0 < n -> length l <= fuel -> concat (chunks_of fuel n l) = l.
Proof.
  intros Hn. revert l. induction fuel as [|fuel IH]; intros l Hle; [destruct l; [done|cbn in Hle; lia]|].
  destruct l as [|x l]; [done|]. cbn [chunks_of concat]. rewrite IH; [apply take_drop|]. rewrite length_drop. cbn in *. lia.
Qed.

Lemma concat_lookup {A} n (l : list (list A)) k j x y : (forall k' z, k' < k -> l !! k' = Some z -> length z = n) ->
  l !! k = Some x -> x !! j = Some y -> concat l !! (k * n + j) = Some y.
Proof.
  revert k. induction l as [|z l IH]; intros k Hall Hk Hj; [done|]. destruct k as [|k]; cbn in *.
  - injection Hk as ->. by apply lookup_app_l_Some.
  - rewrite lookup_app_r by (rewrite (Hall 0 z ltac:(lia) eq_refl); lia). rewrite (Hall 0 z ltac:(lia) eq_refl).
    replace (n + k * n + j - n) with (k * n + j) by lia. apply IH; [|done|done]. intros k' z' Hk' Hz'. apply (Hall (S k')); [lia|done].
Qed.

Section Service.
Context `{Scoring} (service : Service (H := H)) (base_url : str).
Abbreviation collect n := (collect_batch_pages parse_http_date policy (decode_batch service) (batch_answers service n)).

Lemma collect_chunks_returns n l : is_Some (collect_chunks parse_http_date policy service n l).
Proof.
  revert n. induction l as [|c l IH]; intros n; cbn [collect_chunks]; [eauto|].
  destruct (collect_returns (decode_batch service) (batch_answers service n) c) as [[ids|] ->]; cbn; [|eauto].
  destruct (IH (S n)) as [rest ->]. cbn. eauto.
Qed.

Lemma collect_chunks_ok n l all : collect_chunks parse_http_date policy service n l = Some (Ok all) ->
  exists idss, all = concat idss /\ length idss = length l /\
    forall k c, l !! k = Some c -> exists ids, idss !! k = Some ids /\ collect (n + k) c = Some (Ok ids).
Proof.
  revert n all. induction l as [|c l IH]; intros n all; cbn [collect_chunks].
  - intros [= <-]. exists []. split_and!; done.
  - destruct (collect n c) as [[ids|]|] eqn:Ec; cbn; [|done|done].
    destruct (collect_chunks _ _ _ (S n) l) as [[rest|]|] eqn:Er; cbn; [|done|done]. intros [= <-].
    destruct (IH _ _ Er) as (idss & -> & Hlen & Hall). exists (ids :: idss). cbn. split_and!; [done|congruence|].
    intros [|k] c' Hc; cbn in Hc; [injection Hc as <-; exists ids; rewrite Nat.add_0_r; done|].
    destruct (Hall k c' Hc) as (x & Hx & Ex). exists x. split; [done|]. by replace (n + S k) with (S n + k) by lia.
Qed.

Lemma collect_chunks_length n l all : collect_chunks parse_http_date policy service n l = Some (Ok all) -> length all = length (concat l).
Proof.
  revert n all. induction l as [|c l IH]; intros n all; cbn [collect_chunks concat]; [by intros [= <-]|].
  destruct (collect n c) as [[ids|]|] eqn:Ec; cbn; [|done|done]. destruct (collect_chunks _ _ _ (S n) l) as [[rest|]|] eqn:Er; cbn; [|done|done].
  intros [= <-]. rewrite !length_app, (IH _ _ Er). apply collect_ok in Ec as [-> _]. done.
Qed.

(** The service named the id for the package at the index. *)
Definition named (purls : list str) (i : nat) (id : str) : Prop :=
  exists c, chunks_by BATCH_CHUNK_SIZE purls !! (i / BATCH_CHUNK_SIZE) = Some c /\
    batch_named (decode_batch service) (batch_answers service (i / BATCH_CHUNK_SIZE)) c (i mod BATCH_CHUNK_SIZE) id.

Lemma per_purl_ok purls all : collect_chunks parse_http_date policy service 0 (chunks_by BATCH_CHUNK_SIZE purls) = Some (Ok all) ->
  forall i purl, purls !! i = Some purl -> exists ids, all !! i = Some ids /\ NoDup ids /\
    forall id, (id ∈ ids <-> named purls i id) /\ (named purls i id -> is_plausible_vulnerability_id id = true).
Proof.
  intros Ec i purl Hi. destruct (collect_chunks_ok 0 _ _ Ec) as (idss & -> & Hlen & Hall). unfold chunks_by in *.
  destruct (chunks_of_lookup (length purls) BATCH_CHUNK_SIZE purls i purl ltac:(unfold BATCH_CHUNK_SIZE; lia) ltac:(lia) Hi) as (c & Hc & Hx & Hfull).
  destruct (Hall _ _ Hc) as (ids & Hids & Ei). cbn [Nat.add] in Ei. apply collect_ok in Ei as [Lc Hok].
  destruct (lookup_lt_is_Some_2 ids (i mod BATCH_CHUNK_SIZE)) as [mine Hmine]; [rewrite Lc; by eapply lookup_lt_Some|].
  exists mine. destruct (Hok (i mod BATCH_CHUNK_SIZE)) as [Hnd Hiff]. rewrite Hmine in Hnd, Hiff. cbn in Hnd, Hiff. split_and!; [|done|].
  - rewrite (Nat.div_mod_eq i BATCH_CHUNK_SIZE), Nat.mul_comm. apply (concat_lookup _ _ _ _ ids); [|done|done]. intros k z Hk Hz.
    destruct (lookup_lt_is_Some_2 (chunks_of (length purls) BATCH_CHUNK_SIZE purls) k) as [c' Hc']; [apply lookup_lt_Some in Hz; lia|].
    destruct (Hall _ _ Hc') as (ids' & Hids' & Ei'). rewrite Hz in Hids'. injection Hids' as <-. apply collect_ok in Ei' as [-> _]. by eapply Hfull.
  - assert (forall id, named purls i id <-> batch_named (decode_batch service) (batch_answers service (i / BATCH_CHUNK_SIZE)) c (i mod BATCH_CHUNK_SIZE) id) as Hn.
    { intros id. unfold named, chunks_by. rewrite Hc. split; [by intros (? & [= <-] & ?)|by exists c]. }
    intros id. rewrite Hn. apply Hiff.
Qed.

(** *** Records *)

Abbreviation fetch := (fetch_vulnerability parse_http_date policy service base_url).

Lemma fetch_returns id : is_Some (fetch id).
Proof. unfold fetch_vulnerability. destruct (retry_returns (decode_record service) (record_answers service (record_url base_url id))) as [r ->]. cbn. eauto. Qed.

Lemma fetch_id id v : fetch id = Some (Ok v) -> Vulnerability.id v = id.
Proof.
  unfold fetch_vulnerability. destruct (retry _ _) as [[record|]|]; cbn; [|done..]. destruct (decide _); cbn; [|done]. by intros [= <-].
Qed.

Lemma fetch_all_returns l : is_Some (fetch_all parse_http_date policy service base_url l).
Proof.
  induction l as [|id l IH]; cbn [fetch_all]; [eauto|]. destruct (fetch_returns id) as [r ->], IH as [rest ->]. cbn. eauto.
Qed.

Lemma fetch_all_ok l fetched : fetch_all parse_http_date policy service base_url l = Some fetched ->
  forall id, id ∈ l -> exists r, entry_get id fetched = Some r /\ fetch id = Some r.
Proof.
  revert fetched. induction l as [|x l IH]; intros fetched; cbn [fetch_all]; [by intros _ ? ?%elem_of_nil|].
  destruct (fetch x) as [r|] eqn:Er; cbn; [|done]. destruct (fetch_all _ _ _ _ l) as [rest|] eqn:El; cbn; [|done].
  intros [= <-] id Hid. cbn. destruct (decide (x = id)) as [->|Hne]; [eauto|]. apply elem_of_cons in Hid as [->|Hid]; [done|]. by apply (IH rest).
Qed.

(** *** Failed fetches *)

(** The same failures, with more packages listed. *)
Definition lists_more : list (FailedFetch (H := H)) -> list FailedFetch -> Prop :=
  Forall2 (fun f f' => failed_id f' = failed_id f /\ failed_error f' = failed_error f /\ failed_purls f ⊆ failed_purls f').

#[local] Instance lists_more_preorder : PreOrder lists_more.
Proof.
  split.
  - intros l. induction l; constructor; [done|by apply IHl].
  - intros a b c Hab. revert c. induction Hab as [|f g a b (E1 & E2 & Hs) _ IH]; intros c Hc; inversion Hc as [|? h ? ? (E3 & E4 & Hs2) Hr]; subst; constructor.
    + split_and!; [congruence|congruence|set_solver].
    + by apply IH.
Qed.

Lemma lists_more_elem l l' f : lists_more l l' -> f ∈ l ->
  exists f', f' ∈ l' /\ failed_id f' = failed_id f /\ failed_error f' = failed_error f /\ failed_purls f ⊆ failed_purls f'.
Proof.
  induction 1 as [|x y l l' Hxy _ IH]; [by intros ?%elem_of_nil|]. intros [->|Hf]%elem_of_cons; [exists y; split; [by left|done]|].
  destruct (IH Hf) as (f' & ? & ?). exists f'. split; [by right|done].
Qed.

Lemma lists_more_back l l' f' : lists_more l l' -> f' ∈ l' -> exists f, f ∈ l /\ failed_id f' = failed_id f /\ failed_error f' = failed_error f.
Proof.
  induction 1 as [|x y l l' (? & ? & ?) _ IH]; [by intros ?%elem_of_nil|]. intros [->|Hf]%elem_of_cons; [exists x; split; [by left|done]|].
  destruct (IH Hf) as (f & ? & ?). exists f. split; [by right|done].
Qed.

Lemma attach_ok id purl failed : lists_more failed (attach id purl failed) /\
  (id ∈ map failed_id failed -> exists f, f ∈ attach id purl failed /\ failed_id f = id /\ purl ∈ failed_purls f).
Proof.
  unfold attach. destruct (list_find _ failed) as [[i f]|] eqn:E.
  - apply list_find_Some in E as (Hi & Hf & _). split.
    + apply Forall2_same_length_lookup. rewrite length_insert. split; [done|]. intros j x y Hx Hy.
      destruct (decide (i = j)) as [<-|Hne]; [|rewrite list_lookup_insert_ne in Hy by done; simplify_eq; done].
      rewrite list_lookup_insert_eq in Hy by (by eapply lookup_lt_Some). simplify_eq. cbn. split_and!; [done|done|set_solver].
    + intros _. eexists. split; [eapply list_elem_of_lookup_2, list_lookup_insert_eq; by eapply lookup_lt_Some|]. cbn. split; [done|set_solver].
  - split; [done|]. intros Hin. apply list_find_None in E. apply list_elem_of_fmap in Hin as (f & -> & Hf).
    rewrite Forall_forall in E. by destruct (E f Hf).
Qed.

Section Results.
Context (fetched : list (str * result (VulnError H) Vulnerability.t)).

Lemma purl_results_ok purl ids failed vs failed' : purl_results fetched purl ids failed = (vs, failed') ->
  vs = omap (record_of fetched) ids /\ lists_more failed failed' /\
  forall id, id ∈ ids -> record_of fetched id = None -> id ∈ map failed_id failed -> exists f, f ∈ failed' /\ failed_id f = id /\ purl ∈ failed_purls f.
Proof.
  revert vs failed. induction ids as [|id ids IH]; intros vs failed; cbn [purl_results].
  - intros [= <- <-]. split_and!; [done|done|]. by intros ? ?%elem_of_nil.
  - cbn [omap list_omap]. destruct (record_of fetched id) as [v|] eqn:Er.
    + destruct (purl_results fetched purl ids failed) as [vs1 failed1] eqn:E1. intros [= <- <-].
      destruct (IH _ _ E1) as (-> & Hm & Hall). split_and!; [done|done|]. intros x [->|Hx]%elem_of_cons Hn; [congruence|by apply Hall].
    + intros E1. destruct (IH _ _ E1) as (-> & Hm & Hall). destruct (attach_ok id purl failed) as [Ha Hl]. split_and!; [done|by etrans|].
      intros x Hx Hn Hin. apply elem_of_cons in Hx as [->|Hx].
      * destruct (Hl Hin) as (f & Hf & Ef & Hp). destruct (lists_more_elem _ _ _ Hm Hf) as (f' & Hf' & Ei & _ & Hsub). exists f'. split_and!; [done|congruence|set_solver].
      * apply Hall; [done|done|]. apply list_elem_of_fmap in Hin as (f & -> & Hf).
        destruct (lists_more_elem _ _ _ Ha Hf) as (f' & Hf' & Ei & _). rewrite <-Ei. by apply list_elem_of_fmap_2.
Qed.

Lemma batch_results_ok l failed results failed' : batch_results fetched l failed = (results, failed') ->
  results = map (fun x => {| result_purl := x.1; vulnerabilities := omap (record_of fetched) x.2 |}) l /\ lists_more failed failed' /\
  forall purl ids id, (purl, ids) ∈ l -> id ∈ ids -> record_of fetched id = None -> id ∈ map failed_id failed ->
    exists f, f ∈ failed' /\ failed_id f = id /\ purl ∈ failed_purls f.
Proof.
  revert results failed. induction l as [|[purl ids] l IH]; intros results failed; cbn [batch_results].
  - intros [= <- <-]. split_and!; [done|done|]. by intros ? ? ? ?%elem_of_nil.
  - destruct (purl_results fetched purl ids failed) as [vs failed1] eqn:E1. destruct (batch_results fetched l failed1) as [results1 failed2] eqn:E2.
    intros [= <- <-]. apply purl_results_ok in E1 as (-> & M1 & R1). destruct (IH _ _ E2) as (-> & M2 & R2). split_and!; [done|by etrans|].
    intros p ns id [[= -> ->]|Hin]%elem_of_cons Hid Hn Hf.
    + destruct (R1 id Hid Hn Hf) as (f & Hf1 & Ef & Hp). destruct (lists_more_elem _ _ _ M2 Hf1) as (f' & Hf' & Ei & _ & Hsub). exists f'. split_and!; [done|congruence|set_solver].
    + apply (R2 p ns id Hin Hid Hn). apply list_elem_of_fmap in Hf as (f & -> & Hf).
      destruct (lists_more_elem _ _ _ M1 Hf) as (f' & Hf' & Ei & _). rewrite <-Ei. by apply list_elem_of_fmap_2.
Qed.
End Results.

(** What a package of the batch gets: the records the service named for it, each once;
    and a name without a record is among the failures, with the package. *)
Record answered (purls : list str) (i : nat) (purl : str) (r : VulnResult) (failed : list (FailedFetch (H := H))) : Prop := {
  answered_purl : result_purl r = purl;
  answered_once : NoDup (map Vulnerability.id (vulnerabilities r));
  answered_named : forall v, v ∈ vulnerabilities r -> named purls i (Vulnerability.id v) /\ fetch (Vulnerability.id v) = Some (Ok v);
  answered_plausible : forall id, named purls i id -> is_plausible_vulnerability_id id = true;
  answered_all : forall id, named purls i id ->
    (exists v, v ∈ vulnerabilities r /\ fetch id = Some (Ok v)) \/
    exists f, f ∈ failed /\ failed_id f = id /\ purl ∈ failed_purls f /\ fetch id = Some (Err (failed_error f)) }.

Lemma omap_NoDup {A} (f : str -> option A) (key : A -> str) (l : list str) :
  (forall x y, x ∈ l -> f x = Some y -> key y = x) -> NoDup l -> NoDup (map key (omap f l)).
Proof.
  intros Hk Hl. induction Hl as [|x l Hx Hl IH]; cbn; [constructor|]. specialize (IH ltac:(intros; apply Hk; [by right|done])).
  destruct (f x) as [y|] eqn:Ey; [|done]. cbn. constructor; [|done]. rewrite (Hk x y ltac:(by left) Ey).
  intros Hin. apply Hx. apply list_elem_of_fmap in Hin as (z & -> & Hz). apply list_elem_of_omap in Hz as (w & Hw & Ew).
  rewrite (Hk w z ltac:(by right) Ew). done.
Qed.

Lemma query_batch_ok purls results failed : query_batch parse_http_date policy service base_url purls = Some (Ok (results, failed)) ->
  length results = length purls /\
  (forall i purl, purls !! i = Some purl -> exists r, results !! i = Some r /\ answered purls i purl r failed) /\
  forall f, f ∈ failed -> fetch (failed_id f) = Some (Err (failed_error f)).
Proof.
  unfold query_batch. destruct (collect_chunks _ _ _ 0 _) as [[per|]|] eqn:Ec; [cbn|done|done].
  destruct (fetch_all _ _ _ _ _) as [fetched|] eqn:Ef; [cbn|done]. set (start := omap _ _). intros E. injection E as E.
  pose proof (fetch_all_ok _ _ Ef) as Hf. pose proof (per_purl_ok purls per Ec) as Hper.
  assert (forall i ids id, per !! i = Some ids -> id ∈ ids -> id ∈ firsts (concat per)) as Hall.
  { intros i ids id Hi Hid. apply firsts_elem. right. apply list_elem_of_In, in_concat. exists ids.
    split; apply list_elem_of_In; [by eapply list_elem_of_lookup_2|done]. }
  assert (forall f, f ∈ start -> fetch (failed_id f) = Some (Err (failed_error f))) as Hstart.
  { intros f Hin. subst start. apply list_elem_of_omap in Hin as (id & Hid & Hx). destruct (Hf id Hid) as (r & Er & Efetch).
    unfold error_of in Hx. rewrite Er in Hx. destruct r as [v|e]; cbn in Hx; simplify_eq. done. }
  destruct (batch_results_ok fetched _ _ _ _ E) as (-> & Hm & Hlist).
  pose proof (collect_chunks_length 0 _ _ Ec) as Hlen. unfold chunks_by in Hlen. rewrite chunks_concat in Hlen by (unfold BATCH_CHUNK_SIZE; lia).
  split; [rewrite length_map, length_zip; lia|]. split.
  2:{ intros f Hin. destruct (lists_more_back _ _ _ Hm Hin) as (f0 & H0' & -> & ->). by apply Hstart. }
  intros i purl Hi. destruct (Hper i purl Hi) as (ids & Hids & Hnd & Hiff).
  assert (zip purls per !! i = Some (purl, ids)) as Hz by (apply lookup_zip_with_Some; eauto).
  eexists. split; [rewrite list_lookup_fmap, Hz; done|]. cbn.
  assert (forall id v, id ∈ ids -> record_of fetched id = Some v -> fetch id = Some (Ok v)) as Hrec.
  { intros id v Hid. destruct (Hf id (Hall _ _ _ Hids Hid)) as (r & Er & Efetch). unfold record_of. rewrite Er. destruct r; [|done]. by intros [= ->]. }
  split; cbn [result_purl vulnerabilities].
  - done.
  - apply omap_NoDup; [|done]. intros id v Hid Hv. by apply fetch_id, Hrec.
  - intros v Hv. apply list_elem_of_omap in Hv as (id & Hid & Ev). pose proof (Hrec id v Hid Ev) as Efetch. rewrite (fetch_id _ _ Efetch).
    split; [by apply Hiff|done].
  - intros id. apply Hiff.
  - intros id Hn. pose proof (proj2 (proj1 (Hiff id)) Hn) as Hid. destruct (Hf id (Hall _ _ _ Hids Hid)) as (r & Er & Efetch). destruct r as [v|e].
    + left. exists v. split; [|done]. apply list_elem_of_omap. exists id. split; [done|]. unfold record_of. by rewrite Er.
    + right. destruct (Hlist purl ids id) as (f & Hin & <- & Hp).
      * by eapply list_elem_of_lookup_2.
      * done.
      * unfold record_of. by rewrite Er.
      * apply list_elem_of_fmap. exists {| failed_id := id; failed_purls := []; failed_error := e |}. split; [done|].
        subst start. apply list_elem_of_omap. exists id. split; [by eapply Hall|]. unfold error_of. by rewrite Er.
      * exists f. split_and!; [done|done|done|]. destruct (lists_more_back _ _ _ Hm Hin) as (f0 & Hf0 & -> & ->). by apply Hstart.
Qed.

(** *** The scan *)

Lemma query_batch_returns purls : is_Some (query_batch parse_http_date policy service base_url purls).
Proof.
  unfold query_batch. destruct (collect_chunks_returns 0 (chunks_by BATCH_CHUNK_SIZE purls)) as [[per|] ->]; cbn; [|eauto].
  destruct (fetch_all_returns (firsts (concat per))) as [fetched ->]. cbn. eauto.
Qed.

Section Purls.
Context {P PE : Type} `{PackageUrl P PE}.

(** C17: A scan ends, whatever the service answers.  For every way the service, the
    network and the retries behave, the scan returns a report or an error; no chunk of a
    batch makes more than 100 requests, and the query of a single package no more than
    100, each with at most the attempts of the retry policy. *)
Theorem scan_returns dependencies :
  is_Some (scan parse_http_date policy service base_url dependencies) /\
  (forall n chunk st, rtc (next (batch_step parse_http_date policy (decode_batch service) (batch_answers service n) chunk)) (batch_start chunk) st ->
     batch_round st <= 100) /\
  (forall purl st, rtc (next (query_step parse_http_date policy (decode_page service) (query_answers service) purl))
     {| query_round := 0; found := []; seen_tokens := []; query_token := None |} st -> query_round st <= 100).
Proof.
  split_and!.
  - unfold scan. destruct (purls_of dependencies) as [purls|]; [|eauto]. cbv zeta.
    destruct (firsts purls) as [|p [|p' l]]; cbn [mbind option_bind]; [eauto| |].
    + destruct (query_returns (decode_page service) (query_answers service) p) as [r ->]. cbn. eauto.
    + destruct (query_batch_returns (p :: p' :: l)) as [r ->]. cbn. eauto.
  - intros n chunk st Hr. assert (batch_inv chunk (batch_start chunk) /\ batch_round (batch_start chunk) <= 100) as Hi by (split; [apply batch_start_inv|cbn; lia]).
    revert Hi. induction Hr as [st|st st1 st2 Hs _ IH]; [by intros []|]. intros [Hi Hle]. apply IH.
    destruct (batch_step_next _ _ _ _ _ Hi Hs) as (Hi' & -> & Hlt & _). split; [done|]. unfold MAX_OSV_PAGES in Hlt. lia.
  - intros purl st Hr. set (st0 := {| query_round := 0; found := []; seen_tokens := []; query_token := None |}) in *.
    assert (query_round st0 = length (seen_tokens st0) /\ query_round st0 <= 100) as Hi by (cbn; lia). clearbody st0.
    revert Hi. induction Hr as [st|st st1 st2 Hs _ IH]; [by intros []|]. intros [Hi Hle]. apply IH.
    unfold next, query_step in Hs. destruct (Nat.leb_spec MAX_OSV_PAGES (length (seen_tokens st))) as [|Hlt]; [done|].
    destruct (retry _ _) as [[page|]|]; [|done..]. cbv zeta in Hs. destruct (some_token page); [|done]. destruct (decide _); [done|].
    injection Hs as <-. cbn [query_round seen_tokens]. rewrite length_app. cbn [length]. unfold MAX_OSV_PAGES in Hlt. lia.
Qed.

(** The service named the id for the purl, among those a scan asks for. *)
Definition scan_named (unique_purls : list str) (purl id : str) : Prop :=
  match unique_purls with
  | [only] => purl = only /\ query_named (decode_page service) (query_answers service) only id
  | _ => exists i, unique_purls !! i = Some purl /\ named unique_purls i id
  end.

(** Every purl was asked for, and every page that names another one was followed by a
    request for it. *)
Definition pages_followed (page_at : option str -> Page -> Prop) : Prop :=
  (exists page, page_at None page) /\
  forall token page t, page_at token page -> some_token page = Some t -> exists page', page_at (Some t) page'.

Definition scan_followed (unique_purls : list str) : Prop :=
  match unique_purls with
  | [only] => pages_followed (query_page (decode_page service) (query_answers service) only)
  | _ => forall i purl, unique_purls !! i = Some purl -> exists chunk,
      chunks_by BATCH_CHUNK_SIZE unique_purls !! (i / BATCH_CHUNK_SIZE) = Some chunk /\ chunk !! (i mod BATCH_CHUNK_SIZE) = Some purl /\
      pages_followed (batch_page (decode_batch service) (batch_answers service (i / BATCH_CHUNK_SIZE)) chunk (i mod BATCH_CHUNK_SIZE))
  end.

Lemma batch_followed purls all : collect_chunks parse_http_date policy service 0 (chunks_by BATCH_CHUNK_SIZE purls) = Some (Ok all) ->
  forall i purl, purls !! i = Some purl -> exists chunk,
    chunks_by BATCH_CHUNK_SIZE purls !! (i / BATCH_CHUNK_SIZE) = Some chunk /\ chunk !! (i mod BATCH_CHUNK_SIZE) = Some purl /\
    pages_followed (batch_page (decode_batch service) (batch_answers service (i / BATCH_CHUNK_SIZE)) chunk (i mod BATCH_CHUNK_SIZE)).
Proof.
  intros Ec i purl Hi. destruct (collect_chunks_ok 0 _ _ Ec) as (idss & -> & Hlen & Hall). unfold chunks_by in *.
  destruct (chunks_of_lookup (length purls) BATCH_CHUNK_SIZE purls i purl ltac:(unfold BATCH_CHUNK_SIZE; lia) ltac:(lia) Hi) as (c & Hc & Hx & _).
  exists c. split_and!; [done|done|]. destruct (Hall _ _ Hc) as (ids & _ & Ei). apply (collect_pages _ _ _ _ Ei). by eapply lookup_lt_Some.
Qed.

Lemma purls_of_elem dependencies purls d : purls_of (H := H) dependencies = Ok purls -> d ∈ dependencies ->
  exists purl, purl_of (H := H) d = Ok purl /\ purl ∈ purls.
Proof.
  revert purls. induction dependencies as [|x l IH]; intros purls; cbn [purls_of]; [by intros _ ?%elem_of_nil|]. intros E.
  apply bind_Ok in E as (p & Ep & E). apply bind_Ok in E as (ps & Eps & E). injection E as <-.
  intros [->|Hd]%elem_of_cons; [exists p; split; [done|by left]|]. destruct (IH ps Eps Hd) as (q & ? & ?). exists q. split; [done|by right].
Qed.

(** C16: A scan is never incomplete in silence.  When a scan returns a report, it asked for
    every purl and followed every page that named another one; every
    record that an answer of the service names for a dependency, on any page, is in the
    report under the purl of that dependency, or is listed as a failed fetch with that
    purl; and every record of the report was named for its purl.  So a report that is
    complete has every record the service named. *)
Theorem scan_is_complete dependencies report purls :
  purls_of (H := H) dependencies = Ok purls ->
  scan parse_http_date policy service base_url dependencies = Some (Ok report) ->
  scan_followed (firsts purls) /\
  (forall d id purl, d ∈ dependencies -> purl_of (H := H) d = Ok purl -> scan_named (firsts purls) purl id ->
     (exists r v, r ∈ report_vulnerabilities report /\ result_purl r = purl /\ v ∈ vulnerabilities r /\ Vulnerability.id v = id) \/
     (is_complete report = false /\ exists f, f ∈ failed_fetches report /\ failed_id f = id /\ purl ∈ failed_purls f)) /\
  forall r v, r ∈ report_vulnerabilities report -> v ∈ vulnerabilities r -> scan_named (firsts purls) (result_purl r) (Vulnerability.id v).
Proof.
  intros Ep. unfold scan. rewrite Ep. cbv zeta.
  assert (forall (r : VulnResult) v l, r ∈ l -> v ∈ vulnerabilities r -> r ∈ List.filter (fun r => negb (bool_decide (length (vulnerabilities r) = 0))) l) as Hkeep.
  { intros r v l Hr Hv. apply list_elem_of_In, filter_In. split; [by apply list_elem_of_In|]. destruct (vulnerabilities r); [by apply elem_of_nil in Hv|done]. }
  assert (forall (r : VulnResult) l, r ∈ List.filter (fun r => negb (bool_decide (length (vulnerabilities r) = 0))) l -> r ∈ l) as Hfrom.
  { intros r l Hr. by apply list_elem_of_In, filter_In in Hr as [Hr%list_elem_of_In _]. }
  assert (forall (f : FailedFetch (H := H)) n rs l, f ∈ l -> is_complete {| total_dependencies := n; report_vulnerabilities := rs; failed_fetches := l |} = false) as Hinc.
  { intros f n rs l Hf. unfold is_complete. cbn. destruct l; [by apply elem_of_nil in Hf|done]. }
  destruct (firsts purls) as [|p [|p' l]] eqn:Eu.
  - cbn. intros [= <-]. cbn. split_and!; [done| |by intros ? ? ?%elem_of_nil]. intros d id purl Hd Hpurl (i & Hi & _). done.
  - cbn. destruct (query _ _ _ _ p) as [[vs|]|] eqn:Eq; cbn; [|done|done]. intros [= <-]. cbn [report_vulnerabilities failed_fetches].
    pose proof (query_ok _ _ _ _ Eq) as Hq. split; [exact (query_pages _ _ _ _ Eq)|]. split.
    + intros d id purl Hd Hpurl [-> Hn]. left. apply Hq, list_elem_of_fmap in Hn as (v & -> & Hv).
      exists {| result_purl := p; vulnerabilities := vs |}, v. split_and!; [|done|done|done].
      apply (Hkeep _ v [{| result_purl := p; vulnerabilities := vs |}]); [by left|done].
    + intros r v Hr Hv. apply (Hfrom r [{| result_purl := p; vulnerabilities := vs |}]) in Hr. apply list_elem_of_singleton in Hr as ->. cbn in *. split; [done|]. apply Hq. by apply list_elem_of_fmap_2.
  - cbv iota. set (u := p :: p' :: l). destruct (query_batch _ _ _ _ u) as [[[results failed]|]|] eqn:Eq; cbn [mbind option_bind]; [|done|done].
    intros [= <-]. cbn [report_vulnerabilities failed_fetches].
    assert (forall purl id, scan_named (u) purl id <-> exists i, u !! i = Some purl /\ named (u) i id) as Hsn by done.
    destruct (query_batch_ok _ _ _ Eq) as (Hlen & Hall & _). split.
    { unfold query_batch in Eq. destruct (collect_chunks _ _ _ 0 _) as [[all|]|] eqn:Ec; [|done..]. exact (batch_followed u all Ec). }
    split.
    + intros d id purl Hd Hpurl (i & Hi & Hn)%Hsn. destruct (Hall i purl Hi) as (r & Hr & [Hrp _ _ _ Hans]).
      destruct (Hans id Hn) as [(v & Hv & Ev)|(f & Hf & Hid & Hp & _)].
      * left. exists r, v. split_and!; [apply (Hkeep _ v); [by eapply list_elem_of_lookup_2|done]|done|done|by eapply fetch_id].
      * right. split; [by eapply Hinc|by exists f].
    + intros r v Hr%Hfrom Hv. apply list_elem_of_lookup in Hr as (i & Hr). apply Hsn.
      destruct (lookup_lt_is_Some_2 (u) i) as [purl Hi]; [rewrite <-Hlen; by eapply lookup_lt_Some|].
      destruct (Hall i purl Hi) as (r' & Hr' & [Hrp _ Hnm _ _]). rewrite Hr in Hr'. injection Hr' as <-. exists i. rewrite Hrp. split; [done|]. by apply Hnm.
Qed.
End Purls.
End Service.
End Facts.

(** ** Severities *)

Section Severities.
Context `{Scoring}.

Lemma key_greater_trans a b c : key_greater a b = true -> key_greater b c = true -> key_greater a c = true.
Proof.
  destruct a as [[v band] q], b as [[v' band'] q'], c as [[v'' band''] q'']. unfold key_greater.
  destruct (Nat.compare_spec v v'); [|done|]; (destruct (Nat.compare_spec v' v''); [|done|]); (destruct (Nat.compare_spec v v''); [|lia|done]); try lia; subst.
  destruct (Nat.compare_spec band band'); [|done|]; (destruct (Nat.compare_spec band' band''); [|done|]); (destruct (Nat.compare_spec band band''); [|lia|done]); try lia; subst.
  rewrite !negb_true_iff. intros E1 E2. destruct (Qle_bool q q'') eqn:E; [|done].
  assert (~ (q <= q')%Q) as N1 by (rewrite <-Qle_bool_iff; congruence). assert (~ (q' <= q'')%Q) as N2 by (rewrite <-Qle_bool_iff; congruence).
  apply Qle_bool_iff in E. apply Qnot_le_lt in N1, N2. exfalso. apply (Qlt_not_le _ _ N1). apply Qle_trans with q''; [done|]. by apply Qlt_le_weak.
Qed.

Lemma fold_greatest x l :
  foldl keep_greater x l ∈ x :: l /\ forall y, y ∈ x :: l -> key_greater y.1 (foldl keep_greater x l).1 = false.
Proof.
  assert (forall k, key_greater k k = false) as Hirr.
  { intros [[v b] q]. unfold key_greater. rewrite !Nat.compare_refl. apply negb_false_iff, Qle_bool_iff, Qle_refl. }
  induction l as [|z l IH] using rev_ind; cbn [foldl]; [split; [by left|]; by intros y ->%list_elem_of_singleton|].
  rewrite foldl_app. cbn [foldl]. destruct IH as [Hin Hmax]. set (m := foldl keep_greater x l) in *. unfold keep_greater.
  destruct (key_greater z.1 m.1) eqn:E.
  - split; [set_solver|]. intros y Hy. rewrite app_comm_cons in Hy. apply elem_of_app in Hy as [Hy| ->%list_elem_of_singleton]; [|done].
    destruct (key_greater y.1 z.1) eqn:E2; [|done]. specialize (Hmax y Hy). by rewrite (key_greater_trans _ _ _ E2 E) in Hmax.
  - split; [set_solver|]. intros y Hy. rewrite app_comm_cons in Hy. apply elem_of_app in Hy as [Hy| ->%list_elem_of_singleton]; [by apply Hmax|done].
Qed.

(** The severity of a record is an entry of it; when any has a usable score, it has one,
    and none of a newer CVSS version, of a higher band of the same version or of a higher
    score of the same band. *)
Lemma chosen_severity_greatest l s : chosen_severity l = Some s ->
  s ∈ l /\ forall s' k', s' ∈ l -> severity_key s' = Some (k', s') -> exists k, severity_key s = Some (k, s) /\ key_greater k' k = false.
Proof.
  assert (forall s k s', severity_key s = Some (k, s') -> s' = s) as Hkey.
  { intros s0 k s0' E. unfold severity_key in E. by destruct (score_value s0); simplify_eq/=. }
  unfold chosen_severity. destruct (omap severity_key l) as [|x scored] eqn:Eo.
  - destruct l as [|y l]; [done|]. intros [= <-]. split; [by left|]. intros s' k' Hs Ek. assert ((k', s') ∈ []) as Hn%elem_of_nil; [|done].
    rewrite <-Eo. apply list_elem_of_omap. eauto.
  - intros [= <-]. destruct (fold_greatest x scored) as [Hin Hmax]. rewrite <-Eo in Hin, Hmax. set (m := foldl keep_greater x scored) in *.
    apply list_elem_of_omap in Hin as (s0 & Hs0 & E0). destruct m as [k m]. pose proof (Hkey _ _ _ E0) as ->. cbn. split; [done|].
    intros s' k' Hs Ek. exists k. split; [done|]. apply (Hmax (k', s')), list_elem_of_omap. eauto.
Qed.
End Severities.

(** ** A service on two packages *)

#[local] Instance no_transport : ReqwestError unit := {|
  is_timeout _ := true; is_connect _ := false; is_request _ := false; is_body _ := false; is_decode _ := false; is_dns _ := false;
  causes _ := []; tls_cause _ := None |}.
#[local] Instance no_scoring : Scoring := {|
  parse_number _ := None; cvss_v3_score _ := None; cvss_v4_score _ := None; cvss_v2_equation _ := None |}.
#[local] Instance no_purls : PackageUrl unit unit := {|
  purl_new _ _ := Err tt; with_namespace _ _ := Err tt; with_version _ _ := Err tt; add_qualifier _ _ _ := Err tt; validate _ := Err tt;
  purl_text _ := []; qualifiers _ := []; parse_purl _ := None; ty _ := []; namespace _ := None; name _ := []; purl_version _ := None; purl_error_text _ := [] |}.

Definition respond (status : N) (body : str) : Met unit := {|
  met_holds := []; met_response := Ok {| Http.status := status; retry_after_header := None; content_length := None; chunks := [Ok body] |};
  met_now := 0; met_unresolvable := (false, false); met_backoff := None; met_jitter := 0 |}.

Definition osv_record (id : str) : OsvVulnerability.t := {|
  OsvVulnerability.id := id; OsvVulnerability.aliases := []; OsvVulnerability.summary := None; OsvVulnerability.details := None;
  OsvVulnerability.severity := []; OsvVulnerability.references := []; OsvVulnerability.affected := []; OsvVulnerability.database_severity := None |}.

(** Both packages have the first record, the second of them another one on its second
    page, which the service does not serve. *)
Definition demo_service : Service (H := unit) := {|
  query_answers _ _ _ := respond 200 [];
  batch_answers _ round _ _ := respond 200 (if decide (round = 0) then $"first" else $"second");
  record_answers url _ := if decide (url = $"osv/vulns/GHSA-1") then respond 200 $"GHSA-1" else respond 404 [];
  decode_page _ := Ok {| vulns := None; next_page_token := None |};
  decode_batch body := Ok (if decide (body = $"first")
    then [{| vulns := Some [osv_record $"GHSA-1"]; next_page_token := None |}; {| vulns := Some [osv_record $"GHSA-1"]; next_page_token := Some $"more" |}]
    else [{| vulns := Some [osv_record $"GHSA-2"]; next_page_token := None |}]);
  decode_record body := Ok (osv_record body) |}.

Definition demo_dependency (artifact : str) : ScanDependency :=
  {| dep_group := $"g"; dep_artifact := artifact; dep_version := $"1"; dep_packaging := $"jar"; dep_classifier := None |}.

Definition demo_dependencies : list ScanDependency := [demo_dependency $"a"; demo_dependency $"b"; demo_dependency $"a"].
Definition demo_policy : RetryPolicy := {| retries := 1; budget := 10 |}.
Definition demo_scan : option (result (VulnError unit) (ScanReport (H := unit))) := scan (fun _ => None) demo_policy demo_service $"osv" demo_dependencies.

(** The purls and ids of a report. *)
Definition shown (report : ScanReport (H := unit)) : list (str * list str) * list (str * list str) :=
  (map (fun r => (result_purl r, map Vulnerability.id (vulnerabilities r))) (report_vulnerabilities report),
   map (fun f => (failed_id f, failed_purls f)) (failed_fetches report)).

Lemma scan_is_complete_witness :
  match demo_scan with
  | Some (Ok report) => shown report =
      ([($"pkg:maven/g/a@1", [$"GHSA-1"]); ($"pkg:maven/g/b@1", [$"GHSA-1"])], [($"GHSA-2", [$"pkg:maven/g/b@1"])])
  | _ => False
  end /\
  exists report purls, demo_scan = Some (Ok report) /\ purls_of (H := unit) demo_dependencies = Ok purls /\
  forall r v, r ∈ report_vulnerabilities report -> v ∈ vulnerabilities r ->
    scan_named (fun _ => None) demo_policy demo_service (firsts purls) (result_purl r) (Vulnerability.id v).
Proof.
  split; [vm_compute; reflexivity|].
  destruct (purls_of (H := unit) demo_dependencies) as [purls|] eqn:Ep; [|vm_compute in Ep; discriminate].
  destruct demo_scan as [[report|]|] eqn:Es; [|vm_compute in Es; discriminate..].
  exists report, purls. split; [reflexivity|]. split; [reflexivity|].
  exact (proj2 (proj2 (scan_is_complete (fun _ => None) demo_policy demo_service $"osv" demo_dependencies report purls Ep Es))).
Defined.
