(* ===== verification/LockInputs.v ===== *)
(** * What a lock is checked against ([rv-lock/src/inputs.rs])

    The recipes of [config_hash], [model_hash] and the graph digests, as the pieces each
    feeds to the hasher, and the comparison of a lock with the model and the
    configuration found now. *)

From Stdlib Require Import Ascii String Lia.
From stdpp Require Import base list strings gmap.
From S2P Require Import Prelude Iter Str Version Component Coordinates Snapshot Layout Digest LockText Ambient LockRows LockLines Url Repository.

#[local] Set Warnings "-clear-no-such-hyp".

(** ** Framing *)

(** [u64::to_le_bytes] of a length. *)
Fixpoint le_bytes (count : nat) (n : N) : str :=
  match count with
  | O => []
  | S count => ascii_of_N (n mod 256) :: le_bytes count (n / 256)
  end.
Definition le64 (n : N) : str := le_bytes 8 n.
Definition len64 {A} (l : list A) : str := le64 (N.of_nat (length l)).
Definition u64_max : N := 2 ^ 64 - 1.

(** [hash_str]: two updates. *)
Definition hash_str (s : str) : list str := [len64 s; s].

(** [hash_sorted_strings]. *)
Definition hash_sorted_strings (label : str) (values : list str) : list str :=
  let values := sort_dedup str_cmp values in
  [label; $":"; len64 values] ++ concat (map hash_str values).

(** [tristate]. *)
Definition tristate (value : option bool) : ascii :=
  ascii_of_N (match value with None => 0 | Some false => 1 | Some true => 2 end)%N.

(** [lf_line_endings]: a carriage return before a line feed is dropped. *)
Definition carriage_return : ascii := ascii_of_N 13.
Fixpoint drop_cr (bytes : str) : str :=
  match bytes with
  | [] => []
  | byte :: rest =>
    if negb (bool_decide (byte = carriage_return)) || negb (bool_decide (head rest = Some newline))
    then byte :: drop_cr rest else drop_cr rest
  end.
Definition has_crlf (bytes : str) : bool := contains [carriage_return; newline] bytes.
Definition lf_line_endings (bytes : str) : str := if has_crlf bytes then drop_cr bytes else bytes.

(** [hash_labelled_pom]. *)
Definition hash_labelled_pom (label bytes : str) : list str :=
  let normalized := lf_line_endings bytes in
  [label; $":"; $"present:"; len64 normalized; normalized].

(** [hash_resolution_context]. *)
Definition hash_resolution_context (context : list (option str)) : list str :=
  hash_str $"resolution-context" ++ [len64 context]
  ++ concat (map (fun value => match value with
                               | None => [[ascii_of_N 0]]
                               | Some value => [ascii_of_N 1] :: hash_str value
                               end) context).

(** ** Inputs *)

(** [RepositoryInputs]. *)
Record RepositoryInputs := {
  input_id : option str;
  input_url : str;
  input_releases : option bool;
  input_snapshots : option bool;
  snapshots_update_policy : str;
  releases_update_policy : str;
  releases_checksum_policy : str;
  snapshots_checksum_policy : str;
}.

(** [SettingsProfileInput]. *)
Record SettingsProfileInput := { profile_input_id : str; profile_content : str }.

(** [ResolutionInputs]; [ambient] is a map, in the order of its names. *)
Record ResolutionInputs := {
  profile_selections : list str;
  active_profiles : list str;
  inactive_profiles : list str;
  input_repositories : list RepositoryInputs;
  allow_transitive_repositories : bool;
  allow_env_substitution : list str;
  transitive_repository_allowlist : list str;
  jdks : list str;
  settings_profiles : list SettingsProfileInput;
  ambient : list (AmbientInput * option str);
}.

(** [ModuleInput], [LocalParentInput] and [ReactorInputs]. *)
Record ModuleInput := {
  mi_path : str;
  mi_group : str;
  mi_artifact : str;
  mi_version : str;
  mi_pom : str;
  mi_active_profiles : list str;
  mi_resolution_context : list (option str);
}.
Record LocalParentInput := { parent_label : str; parent_pom : str }.
Record ReactorInputs := {
  reactor_modules : list ModuleInput;
  reactor_profiles : list str;
  local_parents : list LocalParentInput;
}.

(** [ModelHash]. *)
Record ModelHash := {
  mh_hash : str;
  mh_pom_hashes : list (str * str);
  mh_whole_reactor_pom_hashes : list (str * str);
  mh_whole_reactor_hash : str;
}.

(** [BTreeMap::insert] and [BTreeSet::insert] in key order. *)
Fixpoint btree_insert {K V} (cmp : K -> K -> comparison) (k : K) (v : V) (m : list (K * V)) : list (K * V) :=
  match m with
  | [] => [(k, v)]
  | (k', v') :: m' =>
    match cmp k k' with
    | Lt => (k, v) :: m
    | Eq => (k, v) :: m'
    | Gt => (k', v') :: btree_insert cmp k v m'
    end
  end.

(** [TargetReads]. *)
Record TargetReads := { reads_repo_ids : RepoIds; reads_host_inputs : list AmbientInput }.

(** [host_inputs] of [lock.rs]. *)
Definition host_inputs (ambient : list AmbientInput) : list AmbientInput :=
  List.filter (fun input => negb (is_property_name input)) ambient.

(** [LockPlatform::reads]. *)
Definition platform_reads (p : LockPlatform) (ids : RepoIds) (ambient : list AmbientInput) : TargetReads :=
  {| reads_repo_ids := default ids (platform_repo_ids p);
     reads_host_inputs := default (host_inputs ambient) (platform_host_inputs p) |}.

Section Recipes.
Context `{UrlCrate} `{Hashers}.

(** [hex::encode(hasher.finalize())] after these updates. *)
Definition sha256_of (pieces : list str) : str :=
  hex_encode (finalize (foldl update (new_hasher Sha256) pieces)).

Definition repository_pieces (repo : RepositoryInputs) : list str :=
  hash_str (default [] (input_id repo)) ++ hash_str (normalize_repo_url (input_url repo))
  ++ [[tristate (input_releases repo); tristate (input_snapshots repo)]]
  ++ hash_str (snapshots_update_policy repo) ++ hash_str (releases_update_policy repo)
  ++ hash_str (releases_checksum_policy repo) ++ hash_str (snapshots_checksum_policy repo).

Definition ambient_pieces (entry : AmbientInput * option str) : list str :=
  hash_str (input_text entry.1)
  ++ match entry.2 with
     | Some value => hash_str value
     | None => [le64 u64_max]
     end.

(** The host inputs that count: all but the unset property names. *)
Definition counted (ambient : list (AmbientInput * option str)) : list (AmbientInput * option str) :=
  List.filter (fun e => bool_decide (is_Some e.2) || negb (is_property_name e.1)) ambient.

(** A section that is hashed only when it has entries. *)
Definition section_pieces {A} (label : str) (entry : A -> list str) (l : list A) : list str :=
  if bool_decide (length l = 0) then [] else [label; len64 l] ++ concat (map entry l).

(** The updates of [config_hash]. *)
Definition config_pieces (i : ResolutionInputs) : list str :=
  hash_str $"rv-config-hash-v7"
  ++ section_pieces $"profile_selections:" hash_str (profile_selections i)
  ++ hash_sorted_strings $"active_profiles" (active_profiles i)
  ++ hash_sorted_strings $"inactive_profiles" (inactive_profiles i)
  ++ [$"repositories:"; len64 (input_repositories i)] ++ concat (map repository_pieces (input_repositories i))
  ++ [$"security:"; [ascii_of_N (if allow_transitive_repositories i then 1 else 0)]]
  ++ hash_sorted_strings $"allow_env_substitution" (allow_env_substitution i)
  ++ hash_sorted_strings $"transitive_repository_allowlist" (transitive_repository_allowlist i)
  ++ section_pieces $"jdks:" hash_str (jdks i)
  ++ section_pieces $"settings_profiles:" (fun p => hash_str (profile_input_id p) ++ hash_str (profile_content p))
       (settings_profiles i)
  ++ section_pieces $"ambient:" ambient_pieces (counted (ambient i)).

(** [config_hash]. *)
Definition compute_config_hash (i : ResolutionInputs) : str := sha256_of (config_pieces i).

(** [model_records_hash]. *)
Definition model_records_hash (profiles : list str) (poms : list (str * str)) : str :=
  sha256_of (hash_str $"rv-model-hash-v3" ++ hash_sorted_strings $"profiles" profiles
    ++ concat (map (fun e => hash_str e.1 ++ hash_str e.2) poms)).

Definition module_record (m : ModuleInput) : str :=
  sha256_of (hash_str $"module" ++ hash_str (mi_group m) ++ hash_str (mi_artifact m) ++ hash_str (mi_version m)
    ++ hash_labelled_pom $"pom" (mi_pom m) ++ hash_sorted_strings $"profiles" (mi_active_profiles m)
    ++ (if bool_decide (length (mi_resolution_context m) = 0) then [] else hash_resolution_context (mi_resolution_context m))).

Definition parent_record (p : LocalParentInput) : str := sha256_of (hash_labelled_pom $"local-parent-pom" (parent_pom p)).

(** [model_hash]. *)
Definition compute_model_hash (i : ReactorInputs) : ModelHash :=
  let sorted_modules := sort_by (leb_of (fun l r => str_cmp (mi_path l) (mi_path r))) (reactor_modules i) in
  let parents := sort_by (leb_of (fun l r => str_cmp (parent_label l) (parent_label r))) (local_parents i) in
  let poms := foldl (fun poms m => btree_insert str_cmp (mi_path m) (module_record m) poms) [] sorted_modules in
  let poms := foldl (fun poms p => btree_insert str_cmp (parent_label p) (parent_record p) poms) poms parents in
  let hash := model_records_hash (reactor_profiles i) poms in
  let whole := foldl (fun whole m =>
    map (fun e => if bool_decide (e.1 = mi_path m)
                  then (e.1, sha256_of (hash_str $"whole-reactor" ++ hash_str hash ++ hash_str e.2)) else e) whole)
    poms (reactor_modules i) in
  {| mh_hash := hash; mh_pom_hashes := poms; mh_whole_reactor_pom_hashes := whole;
     mh_whole_reactor_hash := model_records_hash (reactor_profiles i) whole |}.

(** [resolution_context_hash] and [pom_sha256]. *)
Definition resolution_context_hash (context : list (option str)) : str := sha256_of (hash_resolution_context context).
Definition pom_sha256_of (bytes : str) : str := hex (of_bytes Sha256 (lf_line_endings bytes)).

(** ** Graph digests *)

Definition names_hash (names : list AmbientInput) : str :=
  sha256_of (len64 names :: concat (map (fun name => hash_str (input_text name)) names)).

Definition reads_hash (reads : TargetReads) : str :=
  sha256_of (hash_str $"repo_ids" ++ [len64 (reads_repo_ids reads)]
    ++ concat (map (fun e => hash_str e.1 ++ [len64 e.2] ++ concat (map hash_str e.2)) (reads_repo_ids reads))
    ++ hash_str $"host_inputs" ++ hash_str (names_hash (reads_host_inputs reads))).

Definition reactor_hash (p : LockPlatform) : str :=
  let by_path := foldl (fun m e => btree_insert str_cmp (module_path e) (Gav.display (module_gav e)) m) [] (modules p) in
  sha256_of (concat (map (fun e => hash_str e.1 ++ hash_str e.2) by_path)).

Definition graph_digest (p : LockPlatform) (inputs : ModelInputs) (config_hash : option str) (reads : TargetReads)
    (m : LockModule) : str :=
  let row := if is_canonical_module m then m else canonicalize_module m in
  let pins := map (fun a => (coordinate a, pom_sha256 a)) (artifacts p) in
  sha256_of (hash_str $"graph" ++ hash_str (default [] config_hash)
    ++ hash_str (default [] (btree_get (module_path row) (pom_hashes inputs)))
    ++ hash_str (reactor_hash p) ++ hash_str (packaging row)
    ++ hash_str (encode_packages row) ++ hash_str (encode_edges row)
    ++ concat (map (fun r => hash_str (range_model r) ++ hash_str (range_parent r) ++ hash_str (range_selected r)) (parent_ranges row))
    ++ concat (map (fun coord => hash_str coord
         ++ hash_str (from_option sup_sha256 [] (btree_get coord (support_poms p)))) (module_support_poms row))
    ++ hash_str $"ambient_inputs" ++ hash_str (names_hash (ambient_inputs inputs))
    ++ hash_str (names_hash (default [] (btree_get (module_path row) (module_ambient_inputs inputs))))
    ++ hash_str (reads_hash reads)
    ++ concat (map (fun k => if bool_decide (workspace_module k = None) && bool_decide (system_sha256 k = None)
         then hash_str (default [] (mjoin (get_last (package_coordinate k) pins))) else []) (packages row))).

(** [graph_digests]: collected by path. *)
Definition graph_digests (p : LockPlatform) (inputs : ModelInputs) (config_hash : option str) (reads : TargetReads)
    : list (str * str) :=
  foldl (fun m e => btree_insert str_cmp (module_path e) (graph_digest p inputs config_hash reads e) m) [] (modules p).

(** [LockPlatform::graphs_match]. *)
Definition graphs_match (p : LockPlatform) (config_hash : option str) (ambient : list AmbientInput) (ids : RepoIds) : bool :=
  let reads := platform_reads p ids ambient in
  let read := concat (map module_support_poms (modules p)) in
  is_some_and (fun inputs =>
    forallb (fun name => bool_decide (name ∈ ambient))
      (ambient_inputs inputs ++ concat (map snd (module_ambient_inputs inputs)))
    && forallb (fun e => bool_decide (e.1 ∈ read)) (support_poms p)
    && bool_decide (graphs inputs = graph_digests p inputs config_hash reads)) (model_inputs p).
End Recipes.

(** ** Comparing with what is found now *)

(** [CurrentModule] and [CurrentModel]. *)
Record CurrentModule := { cm_path : str; cm_group : str; cm_artifact : str; cm_version : str }.
Record CurrentModel := {
  current_platform : Platform.t;
  current_model_hash : str;
  current_profiles : list str;
  current_modules : list CurrentModule;
  current_pom_hashes : list (str * str);
}.

(** [ModelDrift] and [ConfigDrift]. *)
Inductive ModelDrift :=
  | DriftProfiles (on : Platform.t) (locked current : list str)
  | ModuleAdded (path : str)
  | ModuleRemoved (path : str)
  | ModuleGav (path locked current : str)
  | PomChanged (path : str) (local_parent : bool)
  | DriftModel (on : Platform.t).
Inductive ConfigDrift := Changed | Unrecorded.

Definition same_gav (locked : LockModule) (current : CurrentModule) : bool :=
  bool_decide (Gav.group (module_gav locked) = cm_group current)
  && bool_decide (Gav.artifact (module_gav locked) = cm_artifact current)
  && bool_decide (Gav.version (module_gav locked) = cm_version current).

(** The [BTreeSet] of paths, and the first of a difference. *)
Definition first_missing (these others : list str) : option str :=
  List.find (fun path => negb (bool_decide (path ∈ others))) (sort_dedup str_cmp these).

(** The body of the loop of [model_drift]. *)
Definition platform_drift (p : LockPlatform) (model : CurrentModel) : option ModelDrift :=
  let stored := profiles <$> model_inputs p in
  if is_some_and (fun stored => negb (bool_decide (stored = current_profiles model))) stored
  then Some (DriftProfiles (platform p) (default [] stored) (current_profiles model))
  else
    let locked_paths := map module_path (modules p) in
    let current_paths := map cm_path (current_modules model) in
    match first_missing current_paths locked_paths with
    | Some added => Some (ModuleAdded added)
    | None =>
      match first_missing locked_paths current_paths with
      | Some removed => Some (ModuleRemoved removed)
      | None =>
        let moved := List.find (fun e => negb (same_gav e.1 e.2))
          (omap (fun m => pair m <$> List.find (fun c => bool_decide (cm_path c = module_path m)) (current_modules model))
             (modules p)) in
        match moved with
        | Some (m, c) => Some (ModuleGav (module_path m) (Gav.display (module_gav m))
            (cm_group c ++ $":" ++ cm_artifact c ++ $":" ++ cm_version c))
        | None =>
          if bool_decide (current_model_hash model = model_hash p) then None
          else
            let changed := List.find (fun e =>
              is_some_and (fun old => negb (bool_decide (old = e.2)))
                (model_inputs p ≫= fun inputs => btree_get e.1 (pom_hashes inputs))) (current_pom_hashes model) in
            match changed with
            | Some (path, _) => Some (PomChanged path (negb (bool_decide (path ∈ current_paths))))
            | None => Some (DriftModel (platform p))
            end
        end
      end
    end.

Definition current_of (p : LockPlatform) (current : list CurrentModel) : option CurrentModel :=
  List.find (fun model => bool_decide (current_platform model = platform p)) current.

(** [Lockfile::model_drift]. *)
Fixpoint model_drift (ps : list LockPlatform) (current : list CurrentModel) : option ModelDrift :=
  match ps with
  | [] => None
  | p :: ps =>
    match current_of p current ≫= platform_drift p with
    | Some drift => Some drift
    | None => model_drift ps current
    end
  end.

(** [Lockfile::models_match]. *)
Definition models_match (ps : list LockPlatform) (current : list CurrentModel) : bool :=
  forallb (fun p =>
    is_none_or (fun model =>
      let by_path := map (fun c => (cm_path c, c)) (current_modules model) in
      bool_decide (current_model_hash model = model_hash p)
      && bool_decide (length (remove_dups (map fst by_path)) = length (modules p))
      && forallb (fun m => is_some_and (same_gav m) (get_last (module_path m) by_path)) (modules p))
      (current_of p current)) ps.

(** [Lockfile::config_drift]. *)
Definition config_drift (l : Lockfile) (current : str) : option ConfigDrift :=
  match config_hash l with
  | Some stored => if bool_decide (stored = current) then None else Some Changed
  | None => Some Unrecorded
  end.

(** * What [config_hash] covers

    The pieces fed to the hasher are framed so that they can be read back: two
    configurations with one hash are the same configuration, or SHA-256 has a
    collision. *)

(** ** Encodings that tell where they end *)

(** Every machine length: a Rust allocation is below [isize::MAX] bytes. *)
Definition fits64 {A} (l : list A) : Prop := (N.of_nat (length l) < u64_max)%N.

(** [enc] can be told from what follows it, up to [view]. *)
Definition decodable {A B} (P : A -> Prop) (view : A -> B) (enc : A -> str) : Prop :=
  forall a b r s, P a -> P b -> enc a ++ r = enc b ++ s -> view a = view b /\ r = s.

Lemma le_bytes_length count n : length (le_bytes count n) = count.
Proof. revert n. induction count as [|c IH]; intros n; [done|]. cbn. by rewrite IH. Qed.

Lemma le_bytes_inj count n m :
  (n < 256 ^ N.of_nat count)%N -> (m < 256 ^ N.of_nat count)%N -> le_bytes count n = le_bytes count m -> n = m.
Proof.
  revert n m. induction count as [|c IH]; intros n m Hn Hm E.
  - cbn in Hn, Hm. lia.
  - cbn [le_bytes] in E. injection E as E1 E2. rewrite Nat2N.inj_succ, N.pow_succ_r' in Hn, Hm.
    apply IH in E2; [|apply N.Div0.div_lt_upper_bound; lia..].
    apply (f_equal N_of_ascii) in E1. rewrite !N_ascii_embedding in E1 by (apply N.mod_lt; lia).
    rewrite (N.div_mod n 256), (N.div_mod m 256) by lia. by rewrite E1, E2.
Qed.

Lemma le64_inj n m : (n <= u64_max)%N -> (m <= u64_max)%N -> le64 n = le64 m -> n = m.
Proof. unfold u64_max. intros Hn Hm. apply le_bytes_inj; change (256 ^ N.of_nat 8)%N with (2 ^ 64)%N; lia. Qed.

Lemma le64_app n m r s :
  (n <= u64_max)%N -> (m <= u64_max)%N -> le64 n ++ r = le64 m ++ s -> n = m /\ r = s.
Proof.
  intros Hn Hm E. apply app_inj_1 in E as [E ->]; [|unfold le64; by rewrite !le_bytes_length]. split; [|done]. by apply le64_inj.
Qed.

Lemma decodable_str : decodable fits64 id (fun s => concat (hash_str s)).
Proof.
  intros a b r s Ha Hb E. unfold fits64 in *. cbn [concat hash_str] in E. rewrite !app_nil_r, <-!app_assoc in E.
  apply le64_app in E as [El E]; [|lia..]. apply app_inj_1 in E as [-> ->]; [done|lia].
Qed.

Lemma decodable_app {A B C} (P : A -> Prop) (f : A -> B) (g : A -> C) e1 e2 :
  decodable P f e1 -> decodable P g e2 -> decodable P (fun a => (f a, g a)) (fun a => e1 a ++ e2 a).
Proof.
  intros H1 H2 a b r s Ha Hb E. rewrite <-!app_assoc in E.
  apply H1 in E as [E1 E]; [|done..]. apply H2 in E as [E2 E]; [|done..]. by rewrite E1, E2.
Qed.

Lemma decodable_map {A A' B} (P : A -> Prop) (P' : A' -> Prop) (f : A' -> A) (view : A -> B) enc :
  decodable P view enc -> (forall a, P' a -> P (f a)) -> decodable P' (fun a => view (f a)) (fun a => enc (f a)).
Proof. intros Hd HP a b r s Ha Hb. apply Hd; by apply HP. Qed.

Lemma decodable_entries {A B} (P : A -> Prop) (view : A -> B) (pieces : A -> list str) l k r s :
  decodable P view (fun a => concat (pieces a)) -> length l = length k -> Forall P l -> Forall P k ->
  concat (concat (map pieces l)) ++ r = concat (concat (map pieces k)) ++ s -> map view l = map view k /\ r = s.
Proof.
  intros Hd. revert k. induction l as [|a l IH]; intros [|b k] El Hl Hk E; try done.
  apply Forall_cons in Hl as [Ha Hl]. apply Forall_cons in Hk as [Hb Hk]. cbn in E.
  rewrite !concat_app, <-!app_assoc in E. apply Hd in E as [E1 E]; [|done..].
  apply IH in E as [E2 ->]; [|cbn in El; lia|done..]. cbn. by rewrite E1, E2.
Qed.

(** A counted list. *)
Lemma decodable_list {A B} (P : A -> Prop) (view : A -> B) (pieces : A -> list str) :
  decodable P view (fun a => concat (pieces a)) ->
  decodable (fun l => fits64 l /\ Forall P l) (map view) (fun l => len64 l ++ concat (concat (map pieces l))).
Proof.
  intros Hd l k r s [Fl Hl] [Fk Hk] E. unfold fits64 in *. rewrite <-!app_assoc in E.
  apply le64_app in E as [El E]; [|lia..]. apply (decodable_entries P view pieces) in E; [done..|lia|done|done].
Qed.

(** A section that may be left out, before a text that does not start as its label. *)
Lemma decodable_section {A B} (P : A -> Prop) (view : A -> B) (pieces : A -> list str) (label : str) l k r s :
  decodable P view (fun a => concat (pieces a)) -> label <> [] ->
  fits64 l -> Forall P l -> fits64 k -> Forall P k -> head r <> head label -> head s <> head label ->
  concat (section_pieces label pieces l) ++ r = concat (section_pieces label pieces k) ++ s ->
  map view l = map view k /\ r = s.
Proof.
  intros Hd Hlab Fl Hl Fk Hk Hr Hs E. unfold section_pieces in E.
  assert (forall l : list A, length l = 0 -> l = []) as Hnil by (by intros []).
  case_bool_decide as El; case_bool_decide as Ek; rewrite ?concat_app in E; cbn [concat] in E; rewrite <-?app_assoc, ?app_nil_l in E.
  - apply Hnil in El, Ek. subst. done.
  - subst r. exfalso. apply Hr. by destruct label.
  - subst s. exfalso. apply Hs. by destruct label.
  - apply app_inv_head in E. rewrite !app_assoc in E.
    by apply (decodable_list P view pieces) in E.
Qed.

Lemma sorted_strings_view label l k r s :
  fits64 (sort_dedup str_cmp l) -> Forall fits64 l -> fits64 (sort_dedup str_cmp k) -> Forall fits64 k ->
  concat (hash_sorted_strings label l) ++ r = concat (hash_sorted_strings label k) ++ s ->
  sort_dedup str_cmp l = sort_dedup str_cmp k /\ r = s.
Proof.
  intros Fl Hl Fk Hk E. unfold hash_sorted_strings in E. rewrite !concat_app in E. cbn [concat] in E.
  rewrite !app_nil_r, <-!app_assoc in E. apply app_inv_head, app_inv_head in E. rewrite !app_assoc in E.
  assert (forall l, Forall fits64 l -> Forall fits64 (sort_dedup str_cmp l)) as Hs.
  { intros x Hx. rewrite Forall_forall in *. intros y Hy. apply Hx. by apply (sort_dedup_elem str_cmp). }
  apply (decodable_list fits64 id hash_str) in E as [E ->]; [|apply decodable_str|by split; auto..].
  by rewrite !map_id in E.
Qed.

(** ** The configuration *)

Lemma bytes_app (a b c d : ascii) r s : [a; b] ++ r = [c; d] ++ s -> a = c /\ b = d /\ r = s.
Proof. by intros [= -> -> ->]. Qed.

Lemma byte_app (a b : ascii) r s : [a] ++ r = [b] ++ s -> a = b /\ r = s.
Proof. by intros [= -> ->]. Qed.

Section Covers.
Context `{UrlCrate} `{Hashers} `{!HasherLaws}.

(** The pieces are hashed as one text. *)
Lemma sha256_of_concat pieces : sha256_of pieces = hex (of_bytes Sha256 (concat pieces)).
Proof.
  unfold sha256_of, of_bytes. cbn [hex]. do 2 f_equal. rewrite <-(update_nil Sha256) at 1.
  change (concat pieces) with ([] ++ concat pieces). generalize (@nil ascii) as l.
  induction pieces as [|p ps IH]; intros l; cbn [foldl concat]; [by rewrite app_nil_r|].
  by rewrite update_app, IH, <-app_assoc.
Qed.

(** What the hash keeps of a repository. *)
Definition repository_view (r : RepositoryInputs) :=
  (default [] (input_id r), normalize_repo_url (input_url r), input_releases r, input_snapshots r,
   snapshots_update_policy r, releases_update_policy r, releases_checksum_policy r, snapshots_checksum_policy r).

Record repository_fits (r : RepositoryInputs) : Prop := {
  rf_id : fits64 (default [] (input_id r));
  rf_url : fits64 (normalize_repo_url (input_url r));
  rf_policies : Forall fits64 [snapshots_update_policy r; releases_update_policy r;
                               releases_checksum_policy r; snapshots_checksum_policy r];
}.

(** What the hash keeps of a host input: its text and its value. *)
Definition ambient_view (e : AmbientInput * option str) := (input_text e.1, e.2).
Definition ambient_fits (e : AmbientInput * option str) : Prop :=
  fits64 (input_text e.1) /\ from_option fits64 True e.2.

Definition profile_view (p : SettingsProfileInput) := (profile_input_id p, profile_content p).
Definition profile_fits (p : SettingsProfileInput) : Prop := fits64 (profile_input_id p) /\ fits64 (profile_content p).

Record config_fits (i : ResolutionInputs) : Prop := {
  cf_selections : fits64 (profile_selections i) /\ Forall fits64 (profile_selections i);
  cf_active : fits64 (sort_dedup str_cmp (active_profiles i)) /\ Forall fits64 (active_profiles i);
  cf_inactive : fits64 (sort_dedup str_cmp (inactive_profiles i)) /\ Forall fits64 (inactive_profiles i);
  cf_repositories : fits64 (input_repositories i) /\ Forall repository_fits (input_repositories i);
  cf_env : fits64 (sort_dedup str_cmp (allow_env_substitution i)) /\ Forall fits64 (allow_env_substitution i);
  cf_allowlist : fits64 (sort_dedup str_cmp (transitive_repository_allowlist i)) /\
    Forall fits64 (transitive_repository_allowlist i);
  cf_jdks : fits64 (jdks i) /\ Forall fits64 (jdks i);
  cf_settings : fits64 (settings_profiles i) /\ Forall profile_fits (settings_profiles i);
  cf_ambient : fits64 (counted (ambient i)) /\ Forall ambient_fits (counted (ambient i));
}.

(** The configurations a hash does not tell apart: sets in any order, repositories up
    to the spelling of their URLs, host inputs but for the unset property names. *)
Record same_config (i j : ResolutionInputs) : Prop := {
  sc_selections : profile_selections i = profile_selections j;
  sc_active : sort_dedup str_cmp (active_profiles i) = sort_dedup str_cmp (active_profiles j);
  sc_inactive : sort_dedup str_cmp (inactive_profiles i) = sort_dedup str_cmp (inactive_profiles j);
  sc_repositories : map repository_view (input_repositories i) = map repository_view (input_repositories j);
  sc_transitive : allow_transitive_repositories i = allow_transitive_repositories j;
  sc_env : sort_dedup str_cmp (allow_env_substitution i) = sort_dedup str_cmp (allow_env_substitution j);
  sc_allowlist : sort_dedup str_cmp (transitive_repository_allowlist i) = sort_dedup str_cmp (transitive_repository_allowlist j);
  sc_jdks : jdks i = jdks j;
  sc_settings : map profile_view (settings_profiles i) = map profile_view (settings_profiles j);
  sc_ambient : map ambient_view (counted (ambient i)) = map ambient_view (counted (ambient j));
}.

Lemma tristate_inj a b : tristate a = tristate b -> a = b.
Proof. by destruct a as [[]|], b as [[]|]. Qed.

Lemma decodable_repository : decodable repository_fits repository_view (fun r => concat (repository_pieces r)).
Proof.
  intros a b r s [Ia Ua Pa] [Ib Ub Pb] E. rewrite !Forall_cons in Pa, Pb.
  destruct Pa as (A1 & A2 & A3 & A4 & _), Pb as (B1 & B2 & B3 & B4 & _).
  unfold repository_pieces in E. rewrite !concat_app, <-!app_assoc in E.
  apply decodable_str in E as [E1 E]; [|done..]. apply decodable_str in E as [E2 E]; [|done..].
  cbn [concat] in E. rewrite !app_nil_r in E. apply bytes_app in E as (T1 & T2 & E). apply tristate_inj in T1, T2.
  apply decodable_str in E as [E3 E]; [|done..]. apply decodable_str in E as [E4 E]; [|done..].
  apply decodable_str in E as [E5 E]; [|done..]. apply decodable_str in E as [E6 E]; [|done..].
  unfold repository_view, id in *. split; [congruence|done].
Qed.

Lemma decodable_profile :
  decodable profile_fits profile_view
    (fun p => concat (hash_str (profile_input_id p) ++ hash_str (profile_content p))).
Proof.
  intros a b r s [Ia Ca] [Ib Cb] E. rewrite !concat_app, <-!app_assoc in E.
  apply decodable_str in E as [E1 E]; [|done..]. apply decodable_str in E as [E2 E]; [|done..].
  unfold profile_view, id in *. split; [congruence|done].
Qed.

(** The marker of an unset input is no length. *)
Lemma decodable_ambient : decodable ambient_fits ambient_view (fun e => concat (ambient_pieces e)).
Proof.
  intros [a va] [b vb] r s [Ia Va] [Ib Vb] E. unfold ambient_pieces, ambient_view in *. cbn [fst snd] in *.
  rewrite !concat_app, <-!app_assoc in E. apply decodable_str in E as [E1 E]; [|done..]. unfold id in E1. rewrite E1.
  destruct va as [va|], vb as [vb|]; cbn [from_option] in *.
  - apply decodable_str in E as [E2 E]; [|done..]. unfold id in E2. by subst.
  - cbn [concat hash_str] in E. rewrite !app_nil_r, <-!app_assoc in E. unfold fits64 in Va.
    apply le64_app in E as [E _]; [|lia..]. lia.
  - cbn [concat hash_str] in E. rewrite !app_nil_r, <-!app_assoc in E. unfold fits64 in Vb.
    apply le64_app in E as [E _]; [|lia..]. lia.
  - cbn [concat] in E. rewrite !app_nil_r in E. by apply app_inv_head in E as ->.
Qed.

Lemma section_head {A} (label : str) (pieces : A -> list str) l r c :
  label <> [] -> head label <> Some c -> head r <> Some c -> head (concat (section_pieces label pieces l) ++ r) <> Some c.
Proof.
  intros Hl Hc Hr. unfold section_pieces. case_bool_decide; [done|]. rewrite concat_app. cbn [concat].
  by destruct label.
Qed.

Lemma config_preimage_inj i j : config_fits i -> config_fits j ->
  concat (config_pieces i) = concat (config_pieces j) -> same_config i j.
Proof.
  intros [[] [] [] [] [] [] [] [] []] [[] [] [] [] [] [] [] [] []] E.
  rewrite <-(app_nil_r (concat (config_pieces i))), <-(app_nil_r (concat (config_pieces j))) in E.
  unfold config_pieces in E. rewrite !concat_app, <-!app_assoc in E.
  apply app_inv_head in E.
  apply (decodable_section fits64 id hash_str) in E as [E1 E]; [|apply decodable_str|done..].
  apply sorted_strings_view in E as [E2 E]; [|done..]. apply sorted_strings_view in E as [E3 E]; [|done..].
  assert (forall l (r : str), concat [$"repositories:"; len64 l] ++ concat (concat (map repository_pieces l)) ++ r
    = $"repositories:" ++ (len64 l ++ concat (concat (map repository_pieces l))) ++ r) as Hrep
    by (intros; cbn [concat]; by rewrite app_nil_r, <-!app_assoc).
  rewrite !Hrep in E. apply app_inv_head in E.
  apply (decodable_list repository_fits repository_view repository_pieces) in E as [E4 E]; [|apply decodable_repository|done..].
  assert (forall (b : bool) (r : str), concat [$"security:"; [ascii_of_N (if b then 1 else 0)]] ++ r
    = $"security:" ++ [ascii_of_N (if b then 1 else 0)] ++ r) as Hsec by done.
  rewrite !Hsec in E. apply app_inv_head in E. apply byte_app in E as [E5 E].
  apply sorted_strings_view in E as [E6 E]; [|done..]. apply sorted_strings_view in E as [E7 E]; [|done..].
  apply (decodable_section fits64 id hash_str) in E as [E8 E];
    [|apply decodable_str|done|done..|by repeat apply section_head|by repeat apply section_head].
  apply (decodable_section profile_fits profile_view) in E as [E9 E];
    [|apply decodable_profile|done|done..|by repeat apply section_head|by repeat apply section_head].
  apply (decodable_section ambient_fits ambient_view) in E as [E10 _]; [|apply decodable_ambient|done..].
  rewrite !map_id in E1, E8. constructor; try done.
  by destruct (allow_transitive_repositories i), (allow_transitive_repositories j).
Qed.

(** Entries of one view are hashed alike. *)
Lemma pieces_of_views {A B} (view : A -> B) (pieces : A -> list str) (g : B -> list str) l k :
  (forall x, pieces x = g (view x)) -> map view l = map view k ->
  map pieces l = map pieces k /\ length l = length k.
Proof.
  intros Hg E. split; [|by rewrite <-(length_map view l), E, length_map].
  rewrite !(map_ext pieces (fun x => g (view x)) Hg), <-!(map_map view g). by rewrite E.
Qed.

Lemma section_of_views {A B} (view : A -> B) (pieces : A -> list str) (g : B -> list str) label l k :
  (forall x, pieces x = g (view x)) -> map view l = map view k ->
  section_pieces label pieces l = section_pieces label pieces k.
Proof.
  intros Hg E. destruct (pieces_of_views view pieces g l k Hg E) as [Ep El].
  unfold section_pieces, len64. by rewrite Ep, El.
Qed.

(** What the configurations share is all that the pieces are made of. *)
Lemma same_config_pieces i j : same_config i j -> config_pieces i = config_pieces j.
Proof.
  intros [E1 E2 E3 E4 E5 E6 E7 E8 E9 E10]. unfold config_pieces, hash_sorted_strings.
  rewrite E1, E2, E3, E5, E6, E7, E8.
  destruct (pieces_of_views repository_view repository_pieces
    (fun '(id, url, releases, snapshots, p1, p2, p3, p4) => hash_str id ++ hash_str url
      ++ [[tristate releases; tristate snapshots]] ++ hash_str p1 ++ hash_str p2 ++ hash_str p3 ++ hash_str p4)
    (input_repositories i) (input_repositories j) (fun _ => eq_refl) E4) as [-> L4].
  unfold len64 at 1 3. rewrite L4.
  rewrite (section_of_views profile_view _ (fun p => hash_str p.1 ++ hash_str p.2) _ (settings_profiles i)
    (settings_profiles j) (fun _ => eq_refl) E9).
  by rewrite (section_of_views ambient_view ambient_pieces
    (fun e => hash_str e.1 ++ from_option hash_str [le64 u64_max] e.2) _ (counted (ambient i)) (counted (ambient j))
    ltac:(by intros [? []]) E10).
Qed.

Lemma config_preimage i j : config_fits i -> config_fits j ->
  concat (config_pieces i) = concat (config_pieces j) <-> same_config i j.
Proof. intros Hi Hj. split; [by apply config_preimage_inj|]. by intros ->%same_config_pieces. Qed.

(** C28: [config_hash] is the SHA-256, in hex, of a text that determines the configuration
    and is determined by it. The texts of two configurations whose lengths fit in 64 bits
    are equal exactly when the configurations agree on every input the hash covers:
    profile selections in order, active and inactive profiles, repositories with their
    policies, the security settings, the JDKs, the conditional settings profiles and the
    host inputs with their values. So the hashes are equal exactly when the
    configurations agree or those two texts, which differ, have one digest. *)
Theorem config_hash_covers i j : config_fits i -> config_fits j ->
  let text := fun c => concat (config_pieces c) in
  compute_config_hash i = hex (of_bytes Sha256 (text i)) /\
  (text i = text j <-> same_config i j) /\
  (compute_config_hash i = compute_config_hash j <->
    same_config i j \/ text i <> text j /\ of_bytes Sha256 (text i) = of_bytes Sha256 (text j)).
Proof.
  intros Hi Hj text. pose proof (config_preimage i j Hi Hj) as Hp. fold (text i) (text j) in Hp.
  unfold compute_config_hash. rewrite !sha256_of_concat. fold (text i) (text j).
  split_and!; [done..|]. rewrite <-Hp. split.
  - intros E. destruct (decide (text i = text j)) as [Ec|Ec]; [by left|right]. split; [done|].
    unfold of_bytes in *. cbn [hex] in E. by rewrite E.
  - by intros [->|[_ ->]].
Qed.
End Covers.

(** ** Two spellings of one configuration *)

Definition demo_config (active : list str) (values : list (AmbientInput * option str)) : ResolutionInputs := {|
  profile_selections := [$"ci"]; active_profiles := active; inactive_profiles := [];
  input_repositories := [{| input_id := Some $"central"; input_url := $"https://nexus.corp/m2"; input_releases := None;
    input_snapshots := Some false; snapshots_update_policy := $"daily"; releases_update_policy := $"daily";
    releases_checksum_policy := $"fail"; snapshots_checksum_policy := $"warn" |}];
  allow_transitive_repositories := false; allow_env_substitution := []; transitive_repository_allowlist := [];
  jdks := []; settings_profiles := []; ambient := values |}.

Lemma config_hash_covers_witness :
  let i := demo_config [$"b"; $"a"] [(Env $"CI", Some $"1"); (UserProperty $"x", None)] in
  let j := demo_config [$"a"; $"b"; $"a"] [(Env $"CI", Some $"1")] in
  let k := demo_config [$"a"; $"b"; $"a"] [(Env $"CI", None)] in
  @same_config Sample.crate i j /\ ~ @same_config Sample.crate i k /\
  @compute_config_hash Sample.crate prefix_hashers i = @compute_config_hash Sample.crate prefix_hashers j.
Proof.
  intros i j k.
  assert (forall active v, Forall fits64 active -> fits64 (sort_dedup str_cmp active) -> fits64 (counted v) ->
    Forall ambient_fits (counted v) -> @config_fits Sample.crate (demo_config active v)) as Hfits.
  { intros active v H1 H2 H3 H4. constructor; split; cbn; try done; repeat (apply Forall_cons; split);
      try apply Forall_nil; try done; try (by vm_compute).
    constructor; [by vm_compute..|repeat (apply Forall_cons; split); try apply Forall_nil; by vm_compute]. }
  assert (@config_fits Sample.crate i /\ @config_fits Sample.crate j /\ @config_fits Sample.crate k) as (Hi & Hj & Hk).
  { split_and!; apply Hfits; repeat (apply Forall_cons; split); try apply Forall_nil; try (by vm_compute);
      by split; vm_compute. }
  destruct (@config_hash_covers Sample.crate prefix_hashers prefix_hasher_laws i j Hi Hj) as (_ & Ht & Hh).
  destruct (@config_hash_covers Sample.crate prefix_hashers prefix_hasher_laws i k Hi Hk) as (_ & Ht' & _).
  assert (@same_config Sample.crate i j) as Hs by (apply Ht; by vm_compute).
  split_and!; [done|by rewrite <-Ht'; vm_compute|by apply Hh; left].
Defined.
