(* ===== verification/LockOrigin.v ===== *)
(** * How the lock spells a repository origin ([rv-lock/src/lock_origin.rs])

    Project-relative origins and their check, the key of a declared repository, the
    declaration an origin names, and the lines of repository ids.  A path is the list of
    its components below the root of the file system; what the [url] crate and the file
    system say of a [file:] URL is a class.  The rules for Windows shares are not
    modelled. *)

From Stdlib Require Import Ascii String Lia.
From stdpp Require Import base list strings gmap sorting.
From S2P Require Import Prelude Iter Str Component Coordinates LockText LockRows LockLines LockInputs Url Repository.

#[local] Set Warnings "-clear-no-such-hyp".

(** [std::path::Component] of an absolute path, after its root. *)
Inductive PathPart := Normal (name : str) | CurDir | ParentDir | OtherPart.
Abbreviation PathBuf := (list PathPart).

#[export] Instance path_part_eq_dec : EqDecision PathPart.
Proof. solve_decision. Defined.

(** [Url::to_file_path], [dunce::canonicalize], and [OsStr::to_str] of a name. *)
Class FileUrls `{UrlCrate} := {
  to_file_path : Url -> option PathBuf;
  canonicalize_path : PathBuf -> option PathBuf;
}.

Definition PROJECT_RELATIVE_ORIGIN_PREFIX : str := $"./".

(** The causes of [LockError::Invalid] of an origin or of a line of ids. *)
Inductive OriginFault :=
  | BadRelativeOrigin
  | MalformedId (line : str)
  | DuplicateId (origin id : str)
  | UnrecordableId (origin id : str).

(** [is_project_relative_origin]. *)
Definition is_project_relative_origin (value : str) : bool :=
  starts_with_char (one_of ["."]%char) (trim_start value).

(** [is_portable_segment]. *)
Definition is_portable_segment (segment : str) : bool :=
  negb (is_empty segment) && negb (bool_decide (segment = $".")) && negb (bool_decide (segment = $".."))
  && negb (existsb (fun c => bool_decide (c ∈ map code ["/"; "\"; ":"; "%"]%char) || is_control c) (chars segment)).

Definition slash : ascii := "/"%char.

(** [validate_project_relative_origin]. *)
Definition validate_project_relative_origin (value : str) : result OriginFault unit :=
  rest ← ok_or (strip_prefix PROJECT_RELATIVE_ORIGIN_PREFIX value) BadRelativeOrigin;
  if is_empty rest then Ok tt
  else
    inner ← ok_or (strip_suffix [slash] rest) BadRelativeOrigin;
    if forallb is_portable_segment (split slash inner) then Ok tt else Err BadRelativeOrigin.

(** [OriginIdentity] and [OriginSelection]. *)
Inductive OriginIdentity := Directory (path : PathBuf) | UrlText (url : str).
Inductive OriginSelection (T : Type) := Declared (declaration : T) | Undeclared | Ambiguous.
Arguments Declared {T} declaration.
Arguments Undeclared {T}.
Arguments Ambiguous {T}.

#[export] Instance origin_identity_eq_dec : EqDecision OriginIdentity.
Proof. solve_decision. Defined.

(** [LockOrigins]: the spellings of the project directory. *)
Record LockOrigins := { roots : list PathBuf }.

(** [Path::strip_prefix]. *)
Fixpoint strip_path (root path : PathBuf) : option PathBuf :=
  match root, path with
  | [], path => Some path
  | a :: root, b :: path => if bool_decide (a = b) then strip_path root path else None
  | _, _ => None
  end.

(** The loop over the components in [project_relative]. *)
Fixpoint token_of (token : str) (rest : PathBuf) : option str :=
  match rest with
  | [] => Some token
  | Normal name :: rest =>
    if is_portable_segment name then token_of (token ++ name ++ [slash]) rest else None
  | _ => None
  end.

(** The components above the deepest directory that exists, as [resolved_directory]
    walks up; [rest] has the names passed, the last first. *)
Fixpoint resolve_up (canonicalize : PathBuf -> option PathBuf) (reversed : PathBuf) (rest : PathBuf) : option PathBuf :=
  match canonicalize (reverse reversed) with
  | Some canonical => Some (canonical ++ rest)
  | None =>
    match reversed with
    | Normal name :: parent => resolve_up canonicalize parent (Normal name :: rest)
    | _ => None
    end
  end.

Section Origins.
Context `{FileUrls}.

(** [is_http_origin]. *)
Definition is_http_origin (url : str) : bool :=
  is_some_and (fun u => http_scheme (scheme u)) (parse_url (trim url)).

(** [recorded_key]. *)
Definition recorded_key (recorded : str) : str :=
  if is_project_relative_origin recorded then recorded else normalize_repo_url recorded.

(** [LockOrigins::project_relative]. *)
Definition project_relative (o : LockOrigins) (url : Url) : option str :=
  path ← to_file_path url;
  find_map (fun root =>
    rest ← strip_path root path;
    token ← token_of PROJECT_RELATIVE_ORIGIN_PREFIX rest;
    match validate_project_relative_origin token with Ok _ => Some token | Err _ => None end) (roots o).

(** [LockOrigins::declared]. *)
Definition declared (o : LockOrigins) (url : str) : option str :=
  parsed ← parse_url (trim url);
  if http_scheme (scheme parsed) then Some (normalize_repo_url url)
  else if bool_decide (scheme parsed = $"file")
  then Some (default (normalize_repo_url url) (project_relative o parsed))
  else None.

(** [LockOrigins::recorded]. *)
Definition recorded (o : LockOrigins) (value : str) : result OriginFault str :=
  if is_project_relative_origin value then _ ← validate_project_relative_origin value; Ok value
  else
    match parse_url (trim value) with
    | Some parsed =>
      if bool_decide (scheme parsed = $"file") then Ok (default value (project_relative o parsed)) else Ok value
    | None => Ok value
    end.

(** [LockOrigins::matches]. *)
Definition origin_matches (o : LockOrigins) (recorded url : str) : bool :=
  is_some_and (fun key => bool_decide (key = recorded_key recorded)) (declared o url).

(** [resolved_directory] and [origin_identity]. *)
Definition resolved_directory (path : PathBuf) : PathBuf :=
  default path (resolve_up canonicalize_path (reverse path) []).

Definition origin_identity (url : str) : OriginIdentity :=
  let directory :=
    parsed ← parse_url (trim url);
    if bool_decide (scheme parsed = $"file") && bool_decide (host parsed = None)
    then to_file_path parsed else None in
  match directory with
  | Some path => Directory (resolved_directory path)
  | None => UrlText (normalize_repo_url url)
  end.

(** The loop of [LockOrigins::alias]: the token, the first URL and the other one. *)
Fixpoint alias_loop (o : LockOrigins) (seen : list (str * (str * OriginIdentity))) (urls : list str)
    : option (str * str * str) :=
  match urls with
  | [] => None
  | url :: urls =>
    match declared o url with
    | None => alias_loop o seen urls
    | Some key =>
      if negb (is_project_relative_origin key) then alias_loop o seen urls
      else
        let identity := origin_identity url in
        match btree_get key seen with
        | None => alias_loop o (btree_insert str_cmp key (url, identity) seen) urls
        | Some (first, first_identity) =>
          if bool_decide (first_identity = identity) then alias_loop o seen urls
          else Some (key, first, url)
        end
    end
  end.
Definition alias (o : LockOrigins) (urls : list str) : option (str * str * str) := alias_loop o [] urls.

(** The loop of [LockOrigins::select]. *)
Fixpoint select_loop {T} (o : LockOrigins) (recorded : str) (first : option (OriginIdentity * T)) (declarations : list (str * T))
    : OriginSelection T :=
  match declarations with
  | [] => from_option (fun e => Declared e.2) Undeclared first
  | (url, declaration) :: declarations =>
    if negb (origin_matches o recorded url) then select_loop o recorded first declarations
    else
      match first with
      | None => select_loop o recorded (Some (origin_identity url, declaration)) declarations
      | Some (existing, _) =>
        if bool_decide (existing = origin_identity url) then select_loop o recorded first declarations else Ambiguous
      end
  end.
Definition select {T} (o : LockOrigins) (recorded : str) (declarations : list (str * T)) : OriginSelection T :=
  select_loop o recorded None declarations.
End Origins.

(** ** Lines of repository ids *)

Definition is_recordable_repo_id (id : str) : bool := is_terminal_safe id.

(** [BTreeSet::insert]: whether the element is new, and the set. *)
Fixpoint set_insert {K} (cmp : K -> K -> comparison) (k : K) (s : list K) : bool * list K :=
  match s with
  | [] => (true, [k])
  | k' :: s' =>
    match cmp k k' with
    | Lt => (true, k :: s)
    | Eq => (false, s)
    | Gt => let '(new, s'') := set_insert cmp k s' in (new, k' :: s'')
    end
  end.

(** [repo_id_lines] of [lock.rs]. *)
Definition repo_id_lines (ids : RepoIds) : list (str * str) := concat (map (fun e => map (pair e.1) e.2) ids).

(** The loop of [decode_repo_id_lines]. *)
Fixpoint decode_ids (map : RepoIds) (lines : list str) : result OriginFault RepoIds :=
  match lines with
  | [] => Ok map
  | line :: lines =>
    '(origin, id) ← ok_or (split_once tab line) (MalformedId line);
    if is_empty origin || negb (is_recordable_repo_id origin) || negb (is_recordable_repo_id id) then Err (MalformedId line)
    else
      let '(new, ids) := set_insert str_cmp id (default [] (btree_get origin map)) in
      if negb new then Err (DuplicateId origin id)
      else decode_ids (btree_insert str_cmp origin ids map) lines
  end.

(** [decode_repo_id_lines] and [encode_repo_id_lines]. *)
Definition decode_repo_id_lines (encoded : str) : result OriginFault RepoIds :=
  if is_empty encoded then Ok [] else decode_ids [] (split newline encoded).

Definition encode_repo_id_lines (map_ : RepoIds) : result OriginFault str :=
  lines ← try_map (fun e : str * str =>
    if is_empty e.1 || negb (is_recordable_repo_id e.1) || negb (is_recordable_repo_id e.2)
    then Err (UnrecordableId e.1 e.2) else Ok (e.1 ++ [tab] ++ e.2)) (repo_id_lines map_);
  Ok (join [newline] lines).

(** [check_repo_ids] of [lock.rs]. *)
Fixpoint check_relative (origins : list str) : result OriginFault unit :=
  match origins with
  | [] => Ok tt
  | origin :: origins =>
    _ ← (if is_project_relative_origin origin then validate_project_relative_origin origin else Ok tt);
    check_relative origins
  end.

Definition check_repo_ids (ids : RepoIds) : result OriginFault unit :=
  _ ← encode_repo_id_lines ids;
  check_relative (map fst ids).

(** [record_repo_ids]. *)
Fixpoint record_repo_ids `{FileUrls} (o : LockOrigins) (recorded_ids : RepoIds) (ids : RepoIds) : result OriginFault RepoIds :=
  match ids with
  | [] => Ok recorded_ids
  | (origin, names) :: ids =>
    origin ← recorded o origin;
    let all := foldl (fun s id => (set_insert str_cmp id s).2) (default [] (btree_get origin recorded_ids)) names in
    record_repo_ids o (btree_insert str_cmp origin all recorded_ids) ids
  end.
