(* ===== verification/LockCheck.v ===== *)
(** * The checks of a lock ([rv-lock/src/lock.rs])

    What every lock read or written passes: the texts of its fields, its origins, the
    tables of each platform and the pins across platforms; and the operations that put
    a lock in the form it is written in.  A message is its cause.  [par_map] over the
    modules is [map]; the first failure in module order is reported. *)

From Stdlib Require Import Ascii String Lia.
From stdpp Require Import base list strings gmap sorting.
From S2P Require Import Prelude Iter Str Version Range Component Coordinates Snapshot Layout Digest Url Redact Repository LockText Ambient LockRows LockLines LockInputs LockMerge LockOrigin.

#[local] Set Warnings "-clear-no-such-hyp".

Inductive CheckFault :=
  | LineCause (fault : LineFault)
  | OriginCause (fault : OriginFault)
  | PinCause (fault : PinConflict)
  | UnsafeText (value : str)
  | BadJdk (jdk : str)
  | BadField (fault : InvalidCoordinateComponent)
  | OriginText (origin : str)
  | SnapshotOfRelease (coord : str)
  | BadModulePath (path : str)
  | BadParentRange (m : str)
  | SecretOrigin (part : str)
  | DuplicatePlatform (p : Platform.t)
  | MixedJdk
  | BadModelHash
  | NoModules
  | DuplicateModule (path : str)
  | DuplicateGav (gav : Gav.t)
  | DuplicateArtifact (c : ArtifactCoord.t)
  | NoChecksum (c : ArtifactCoord.t)
  | BadPomSnapshot (c : ArtifactCoord.t)
  | BadPomBase (c : ArtifactCoord.t)
  | Md5Checksum (c : ArtifactCoord.t)
  | DuplicateChecksum (c : ArtifactCoord.t)
  | PomPayload (c : ArtifactCoord.t)
  | OrphanArtifact (c : ArtifactCoord.t)
  | DuplicatePackage (c : ArtifactCoord.t)
  | EdgeOutOfBounds (e : LockEdge)
  | WorkspaceAndSystem (c : ArtifactCoord.t)
  | BadSystemPath (fault : SystemPathFault)
  | SystemScope (c : ArtifactCoord.t)
  | SystemPair (c : ArtifactCoord.t)
  | NoWorkspaceModule (path : str)
  | WorkspaceGav (path : str)
  | UnexpectedRow (c : ArtifactCoord.t)
  | MissingRow (c : ArtifactCoord.t)
  | MissingSupport (coord : str)
  | UnlistedId (origin id : str)
  | UnlistedInput (input : AmbientInput)
  | UnreadId (origin id : str)
  | UnreadInput (input : AmbientInput)
  | MovedOrigin (origin recorded : str).

Abbreviation checked := (result CheckFault unit).

(** [try_for_each], and a check that fails with [fault] unless [ok]. *)
Fixpoint try_each {A} (f : A -> checked) (l : list A) : checked :=
  match l with
  | [] => Ok tt
  | a :: l => _ ← f a; try_each f l
  end.
Definition if_some {A} (f : A -> checked) (o : option A) : checked :=
  match o with Some a => f a | None => Ok tt end.
Definition refuse {A} (fault : A -> CheckFault) (found : option A) : checked :=
  match found with Some a => Err (fault a) | None => Ok tt end.
Definition ensure (ok : bool) (fault : CheckFault) : checked := if ok then Ok tt else Err fault.

(** ** Texts of the fields *)

Definition check_text (value : str) : checked := ensure (is_terminal_safe value) (UnsafeText value).

(** [str::contains(char::is_whitespace)]. *)
Definition has_whitespace (s : str) : bool := existsb (fun w => contains w s) whitespace.

Definition check_origin_text (origin : str) : checked :=
  ensure (is_terminal_safe origin && negb (has_whitespace origin)) (OriginText origin).

(** [is_valid_jdk] of [rv-config]. *)
Definition is_valid_jdk (jdk : str) : bool :=
  negb (is_empty jdk) && (length jdk <=? 32)
  && forallb (fun b => is_alnum b || one_of ["."; "_"; "-"; "+"]%char b) jdk.

Definition validate_coordinate (c : ArtifactCoord.t) (reactor : bool) : checked :=
  let gav := ArtifactCoord.gav c in
  _ ← map_err BadField (if reactor then validate_reactor_version (Gav.version gav)
                        else validate_coordinate_component VersionField (Gav.version gav));
  try_each (fun e => map_err BadField (validate_coordinate_component e.1 e.2))
    ([(Group, Gav.group gav); (Artifact, Gav.artifact gav); (Extension, ArtifactCoord.extension c)]
     ++ option_list (pair Classifier <$> ArtifactCoord.classifier c)).

Definition validate_module_path (path : str) : checked :=
  let invalid :=
    is_empty path || negb (is_terminal_safe path) || starts_with_char (one_of ["/"]%char) path
    || starts_with_char (one_of ["\"]%char) path || contains_char (one_of ["\"]%char) path
    || contains_char (one_of [":"]%char) path
    || existsb (fun c => is_empty c || bool_decide (c = $".") || bool_decide (c = $"..")) (split "/"%char path) in
  ensure (negb invalid && bool_decide (last (split "/"%char path) = Some $"pom.xml")) (BadModulePath path).

Definition check_model_inputs (inputs : ModelInputs) : checked :=
  try_each check_text (profiles inputs ++ map fst (pom_hashes inputs)).

Section Ranges.
Context `{Unicode}.

(** One selection of [check_module_fields]; [invalid] drops the cause. *)
Definition check_parent_range (path : str) (r : ParentRange) : checked :=
  let invalid := BadParentRange path in
  let component (f : CoordinateField) (v : str) := map_err (fun _ => invalid) (validate_coordinate_component f v) in
  '(group, artifact, version) ← ok_or (split_reactor_gav (range_model r)) invalid;
  _ ← component Group group;
  _ ← component Artifact artifact;
  _ ← map_err (fun _ => invalid) (validate_reactor_version version);
  '(group, artifact, range) ← ok_or (split_support_pom_coord (range_parent r)) invalid;
  _ ← component Group group;
  _ ← component Artifact artifact;
  _ ← map_err (fun _ => invalid) (validate_reactor_version range);
  _ ← ensure (starts_with_char (one_of ["["; "("]%char) (trim_start range)) invalid;
  req ← map_err (fun _ => invalid) (parse_req range);
  _ ← map_err LineCause (validate_support_pom_coord (range_selected r));
  '(selected_group, selected_artifact, version) ← ok_or (split_support_pom_coord (range_selected r)) invalid;
  ensure (bool_decide (group = selected_group) && bool_decide (artifact = selected_artifact)
          && match Version.parse version with Ok v => req_matches req v | Err _ => false end) invalid.

(** The loop over the selections, with the pairs seen. *)
Fixpoint check_parent_ranges (path : str) (seen : list (str * str)) (l : list ParentRange) : checked :=
  match l with
  | [] => Ok tt
  | r :: l =>
    _ ← check_parent_range path r;
    _ ← ensure (negb (bool_decide ((range_model r, range_parent r) ∈ seen))) (BadParentRange path);
    check_parent_ranges path ((range_model r, range_parent r) :: seen) l
  end.

(** [check_module_fields]. *)
Definition check_module_fields (m : LockModule) : checked :=
  _ ← validate_module_path (module_path m);
  _ ← check_parent_ranges (module_path m) [] (parent_ranges m);
  _ ← map_err BadField (validate_coordinate_component Group (Gav.group (module_gav m)));
  _ ← map_err BadField (validate_coordinate_component Artifact (Gav.artifact (module_gav m)));
  _ ← map_err BadField (validate_reactor_version (Gav.version (module_gav m)));
  _ ← map_err BadField (validate_coordinate_component Extension (packaging m));
  try_each (fun p =>
    _ ← validate_coordinate (package_coordinate p) (bool_decide (is_Some (workspace_module p)));
    _ ← if_some validate_module_path (workspace_module p);
    if_some check_text (system_path p)) (packages m).

Definition check_support_fields (e : str * SupportPom) : checked :=
  _ ← map_err LineCause (validate_support_pom_coord e.1);
  _ ← check_origin_text (sup_repo_url e.2);
  ensure (negb (bool_decide (is_Some (sup_snapshot e.2)) && bool_decide (file_gav e.2 e.1 = None))) (SnapshotOfRelease e.1).

(** The body of the loop of [check_lock_fields]. *)
Definition check_platform_fields (p : LockPlatform) : checked :=
  _ ← if_some (fun jdk => ensure (is_valid_jdk jdk) (BadJdk jdk)) (Platform.jdk (platform p));
  _ ← if_some check_model_inputs (model_inputs p);
  _ ← try_each (fun a => _ ← validate_coordinate (coordinate a) false; try_each check_origin_text (origins a)) (artifacts p);
  _ ← try_each check_support_fields (support_poms p);
  try_each check_module_fields (modules p).

(** [check_lock_fields]. *)
Definition check_lock_fields (l : Lockfile) : checked :=
  _ ← if_some check_text (config_hash l);
  try_each check_platform_fields (platforms l).
End Ranges.

(** ** Tables of a platform *)

(** The first element whose key was seen before, as the loops over a [HashSet] find it. *)
Fixpoint first_repeat {A K} `{EqDecision K} (key : A -> K) (seen : list K) (l : list A) : option A :=
  match l with
  | [] => None
  | a :: l => if bool_decide (key a ∈ seen) then Some a else first_repeat key (key a :: seen) l
  end.

(** The loop over the modules: a repeated path before a repeated GAV. *)
Fixpoint check_module_table (paths : list str) (gavs : list Gav.t) (l : list LockModule) : checked :=
  match l with
  | [] => Ok tt
  | m :: l =>
    _ ← ensure (negb (bool_decide (module_path m ∈ paths))) (DuplicateModule (module_path m));
    _ ← ensure (negb (bool_decide (module_gav m ∈ gavs))) (DuplicateGav (module_gav m));
    check_module_table (module_path m :: paths) (module_gav m :: gavs) l
  end.

Fixpoint check_checksums (c : ArtifactCoord.t) (seen : list HashAlgorithm) (l : list Digest) : checked :=
  match l with
  | [] => Ok tt
  | d :: l =>
    _ ← ensure (negb (bool_decide (algorithm d = Md5))) (Md5Checksum c);
    _ ← ensure (negb (bool_decide (algorithm d ∈ seen))) (DuplicateChecksum c);
    check_checksums c (algorithm d :: seen) l
  end.

(** The body of the loop over the artifacts, after the duplicate check. *)
Definition check_artifact (a : LockArtifact) : checked :=
  let c := coordinate a in
  let own_pom := is_own_pom a in
  _ ← ensure (negb (bool_decide (checksums a = []))) (NoChecksum c);
  _ ← ensure (is_none_or (fun stamp =>
        resolves_through_snapshot_metadata (row_version a) && negb (bool_decide (Some stamp = snapshot a)) && negb own_pom)
        (pom_snapshot a)) (BadPomSnapshot c);
  _ ← ensure (negb (pom_base a && (bool_decide (snapshot a = None) || bool_decide (is_Some (pom_snapshot a)) || own_pom)))
        (BadPomBase c);
  _ ← check_checksums c [] (checksums a);
  ensure (negb (own_pom && is_none_or (fun pom => negb (bool_decide (checksums a = [{| algorithm := Sha256; hex := pom |}])))
                             (pom_sha256 a))) (PomPayload c).

Fixpoint check_artifacts (seen : list ArtifactCoord.t) (l : list LockArtifact) : checked :=
  match l with
  | [] => Ok tt
  | a :: l =>
    _ ← ensure (negb (bool_decide (coordinate a ∈ seen))) (DuplicateArtifact (coordinate a));
    _ ← check_artifact a;
    check_artifacts (coordinate a :: seen) l
  end.

(** [check_system_package]. *)
Definition check_system_package (p : LockModulePackage) : checked :=
  let c := package_coordinate p in
  match system_path p, system_sha256 p with
  | None, None => Ok tt
  | Some path, Some _ =>
    _ ← map_err BadSystemPath (check_system_path path);
    ensure (bool_decide (package_scope p = LockScope.System)) (SystemScope c)
  | _, _ => Err (SystemPair c)
  end.

(** The body of the loop over the packages: the row a package uses, if any. *)
Definition check_package (p : LockPlatform) (k : LockModulePackage) : result CheckFault (option ArtifactCoord.t) :=
  let c := package_coordinate k in
  let has_row := bool_decide (c ∈ map coordinate (artifacts p)) in
  _ ← ensure (negb (bool_decide (is_Some (workspace_module k)) && bool_decide (is_Some (system_path k)))) (WorkspaceAndSystem c);
  _ ← check_system_package k;
  match workspace_module k with
  | Some path =>
    target ← ok_or (get_last path (map (fun m => (module_path m, m)) (modules p))) (NoWorkspaceModule path);
    _ ← ensure (bool_decide (ArtifactCoord.gav c = module_gav target)) (WorkspaceGav path);
    _ ← ensure (negb has_row) (UnexpectedRow c);
    Ok None
  | None =>
    match system_path k with
    | Some _ => _ ← ensure (negb has_row) (UnexpectedRow c); Ok None
    | None => _ ← ensure has_row (MissingRow c); Ok (Some c)
    end
  end.

(** [validate_module]: the rows its packages use. *)
Definition validate_module (p : LockPlatform) (m : LockModule) : result CheckFault (list ArtifactCoord.t) :=
  _ ← refuse (fun k => DuplicatePackage (package_coordinate k))
        (first_repeat package_coordinate [] (packages m));
  _ ← try_each (fun e => ensure ((from e <? length (packages m)) && (to e <? length (packages m))) (EdgeOutOfBounds e)) (edges m);
  used ← try_map (check_package p) (packages m);
  _ ← try_each (fun coord => ensure (bool_decide (is_Some (btree_get coord (support_poms p)))) (MissingSupport coord))
        (module_support_poms m);
  Ok (concat (map option_list used)).

(** [validate_platform]. *)
Definition validate_platform (p : LockPlatform) : checked :=
  _ ← ensure (is_sha256_hex (model_hash p)) BadModelHash;
  _ ← ensure (negb (bool_decide (length (modules p) = 0))) NoModules;
  _ ← check_module_table [] [] (modules p);
  _ ← check_artifacts [] (artifacts p);
  used ← try_map (validate_module p) (modules p);
  try_each (fun a => ensure (bool_decide (coordinate a ∈ concat used)) (OrphanArtifact (coordinate a))) (artifacts p).

(** ** The lock *)

(** [Lockfile::target_reads]. *)
Definition target_reads (l : Lockfile) : list TargetReads :=
  map (fun p => platform_reads p (repo_ids l) (resolution_inputs (resolution l))) (platforms l).

(** [check_target_reads] and [check_read_unions]. *)
Definition check_target_reads (l : Lockfile) (p : LockPlatform) : checked :=
  _ ← try_each (fun e => ensure (is_some_and (fun ids => bool_decide (e.2 ∈ ids)) (btree_get e.1 (repo_ids l))) (UnlistedId e.1 e.2))
        (from_option repo_id_lines [] (platform_repo_ids p));
  try_each (fun input =>
    ensure (negb (is_property_name input) && bool_decide (input ∈ resolution_inputs (resolution l))) (UnlistedInput input))
    (default [] (platform_host_inputs p)).

Definition check_read_unions (l : Lockfile) : checked :=
  if bool_decide (length (platforms l) = 0) then Ok tt
  else
    let reads := target_reads l in
    let ids := concat (map (fun r => repo_id_lines (reads_repo_ids r)) reads) in
    _ ← try_each (fun e => ensure (bool_decide (e ∈ ids)) (UnreadId e.1 e.2)) (repo_id_lines (repo_ids l));
    let inputs := concat (map reads_host_inputs reads) in
    try_each (fun input => ensure (bool_decide (input ∈ inputs)) (UnreadInput input))
      (host_inputs (resolution_inputs (resolution l))).

(** The origins of the rows, then of the support POMs. *)
Definition row_origins (l : Lockfile) : list str := concat (map origins (rows (platforms l))).
Definition support_origins (l : Lockfile) : list str := map (fun e => sup_repo_url e.2) (supports (platforms l)).

(** [Lockfile::validate]. *)
Definition validate (l : Lockfile) : checked :=
  _ ← map_err OriginCause (check_repo_ids (repo_ids l));
  _ ← refuse (fun p => DuplicatePlatform (platform p)) (first_repeat platform [] (platforms l));
  _ ← ensure (negb (existsb (fun p => bool_decide (is_Some (Platform.jdk (platform p)))) (platforms l)
                    && existsb (fun p => bool_decide (Platform.jdk (platform p) = None)) (platforms l))) MixedJdk;
  _ ← map_err OriginCause (check_relative (row_origins l ++ support_origins l));
  _ ← try_each (fun p => _ ← validate_platform p; check_target_reads l p) (platforms l);
  _ ← check_read_unions l;
  map_err PinCause (check_pins (platforms l)).

Section Lock.
Context `{UrlCrate} `{Unicode}.

(** [check_no_secret_origins]. *)
Definition check_no_secret_origins (l : Lockfile) : checked :=
  try_each (fun origin =>
    if is_project_relative_origin origin then Ok tt
    else match secret_url_part origin with Some part => Err (SecretOrigin part) | None => Ok tt end)
    (row_origins l ++ support_origins l ++ map fst (repo_ids l)).

(** [Lockfile::check]. *)
Definition check_lock (l : Lockfile) : checked :=
  _ ← check_lock_fields l;
  _ ← check_no_secret_origins l;
  validate l.
End Lock.

(** ** Canonical form *)

Definition PLACEHOLDER_MODEL_HASH : str := repeat "0"%char 64.

Section Canonical.
Context `{UrlCrate} `{Unicode} `{Hashers}.

(** The body of the loop of [Lockfile::canonical]. *)
Definition canonical_platform (l : Lockfile) (p : LockPlatform) : LockPlatform :=
  let hash := match model_inputs p with
              | Some inputs => model_records_hash (profiles inputs) (pom_hashes inputs)
              | None => if is_empty (model_hash p) then PLACEHOLDER_MODEL_HASH else model_hash p
              end in
  let c := canonicalize_platform p in
  let with_inputs (inputs : option ModelInputs) :=
    {| platform := platform c; model_hash := hash; artifacts := artifacts c; modules := modules c;
       support_poms := support_poms c; model_inputs := inputs;
       platform_repo_ids := platform_repo_ids c; platform_host_inputs := platform_host_inputs c |} in
  match model_inputs p with
  | None => with_inputs None
  | Some inputs =>
    let kept := {| profiles := profiles inputs; pom_hashes := pom_hashes inputs; graphs := graphs inputs;
      ambient_inputs := ambient_inputs inputs;
      module_ambient_inputs := List.filter (fun e => negb (bool_decide (e.2 = []))) (module_ambient_inputs inputs) |} in
    let c := with_inputs (Some kept) in
    let reads := platform_reads c (repo_ids l) (resolution_inputs (resolution l)) in
    with_inputs (Some {| profiles := profiles kept; pom_hashes := pom_hashes kept;
      graphs := graph_digests c kept (config_hash l) reads;
      ambient_inputs := ambient_inputs kept; module_ambient_inputs := module_ambient_inputs kept |})
  end.

(** The platforms in the order of their names. *)
Definition sort_platforms : list LockPlatform -> list LockPlatform :=
  sort_by (leb_of (fun l r => str_cmp (Platform.display (platform l)) (Platform.display (platform r)))).

Definition canonical_form (l : Lockfile) : Lockfile :=
  {| config_hash := config_hash l; resolution := resolution l;
     platforms := map (canonical_platform l) (sort_platforms (platforms l)); repo_ids := repo_ids l |}.

(** [Lockfile::canonical]. *)
Definition canonical (l : Lockfile) : result CheckFault Lockfile :=
  let c := canonical_form l in
  _ ← check_lock c;
  Ok c.
End Canonical.

(** ** Origins relative to the project *)

Section Relative.
Context `{FileUrls}.

Definition relativize_artifact (o : LockOrigins) (a : LockArtifact) : result OriginFault LockArtifact :=
  url ← recorded o (repo_url a);
  other ← try_map (recorded o) (other_repo_urls a);
  pom ← try_map (recorded o) (pom_repo_urls a);
  Ok {| coordinate := coordinate a; repo_url := url; other_repo_urls := other; checksums := checksums a;
        snapshot := snapshot a; pom_snapshot := pom_snapshot a; pom_base := pom_base a;
        pom_sha256 := pom_sha256 a; pom_repo_urls := pom |}.

Definition relativize_support (o : LockOrigins) (e : str * SupportPom) : result OriginFault (str * SupportPom) :=
  url ← recorded o (sup_repo_url e.2);
  Ok (e.1, {| sup_repo_url := url; sup_sha256 := sup_sha256 e.2; sup_snapshot := sup_snapshot e.2 |}).

(** [relativize_origins]; every error ends it, whichever row it comes from. *)
Definition relativize_platform (o : LockOrigins) (p : LockPlatform) : result OriginFault LockPlatform :=
  rows ← try_map (relativize_artifact o) (artifacts p);
  support ← try_map (relativize_support o) (support_poms p);
  ids ← transpose (record_repo_ids o [] <$> platform_repo_ids p);
  Ok {| platform := platform p; model_hash := model_hash p; artifacts := rows; modules := modules p;
        support_poms := support; model_inputs := model_inputs p;
        platform_repo_ids := ids; platform_host_inputs := platform_host_inputs p |}.

Definition relativize_origins (o : LockOrigins) (l : Lockfile) : result OriginFault Lockfile :=
  ps ← try_map (relativize_platform o) (platforms l);
  ids ← record_repo_ids o [] (repo_ids l);
  Ok {| config_hash := config_hash l; resolution := resolution l; platforms := ps; repo_ids := ids |}.

(** [check_origins]. *)
Definition check_origins (o : LockOrigins) (l : Lockfile) : checked :=
  try_each (fun origin =>
    now ← map_err OriginCause (recorded o origin);
    ensure (bool_decide (now = origin)) (MovedOrigin origin now))
    (row_origins l ++ support_origins l ++ map fst (repo_ids l)).
End Relative.
