(* ===== verification/LockCodec.v ===== *)
(** * The form of the lock file ([rv-lock/src/codec.rs])

    The raw tables a lock file holds, and the conversion between them and the lock.
    The TOML text around the tables is written and read by a library and is not
    modelled; [RawLockfile] is what it holds.  A message is its cause. *)

From Stdlib Require Import Ascii String Lia ZArith.
From stdpp Require Import base list strings gmap.
From S2P Require Import Prelude Iter Str Version Range Component Coordinates Snapshot Layout Digest Url Redact Repository LockText Ambient LockRows LockLines LockInputs LockMerge LockOrigin LockCheck.

#[local] Set Warnings "-clear-no-such-hyp".

Inductive CodecFault :=
  | UnsupportedSchema (found : N)
  | BadTarget (name : str)
  | BadTargetJdk
  | DuplicateInputs (target : str)
  | NoTargets
  | MissingInputs (target : str)
  | NoModule (path : str)
  | BadPomDigest (path : str)
  | DuplicatePom
  | ReadTwice (input : AmbientInput)
  | InputKeys
  | UnusedInputs
  | EmptyReads
  | BadInput (fault : InvalidAmbientInput)
  | NoPropertyName (name : str)
  | RepeatedInput (name : str)
  | EmptyResolution
  | BothOutcomes (name : str)
  | BadOption (option : str)
  | RepeatedOption (option : str)
  | BadSupportDigest (coord : str)
  | DuplicateSupport (coord : str)
  | BuildNumber (build : Z)
  | BadTimestamp (timestamp : str)
  | EmptyClassifier
  | BadAlgorithm (algorithm : str)
  | BadDigest (algorithm : HashAlgorithm) (digest : str)
  | PomBaseFalse
  | BadPomSha256 (digest : str)
  | UnsortedOthers
  | UnsortedPoms
  | LineProblem (fault : LineFault)
  | OriginProblem (fault : OriginFault)
  | CheckProblem (fault : CheckFault).

Abbreviation decoded A := (result CodecFault A).

(** ** The tables *)

Record RawCoordinate := {
  raw_group : str; raw_artifact : str; raw_version : str; raw_extension : str; raw_classifier : option str }.
Record RawChecksum := { raw_algorithm : str; raw_digest : str }.
Record RawSnapshot := { raw_timestamp : str; raw_build_number : Z }.

Record RawArtifact := {
  raw_coordinate : RawCoordinate;
  raw_repo_url : str;
  raw_other_repo_urls : list str;
  raw_checksums : list RawChecksum;
  raw_snapshot : option RawSnapshot;
  raw_pom_snapshot : option RawSnapshot;
  raw_pom_base : option bool;
  raw_pom_sha256 : option str;
  raw_pom_repo_urls : list str;
}.

Record RawSupportPom := {
  rs_coordinate : str; rs_repo_url : str; rs_sha256 : str; rs_snapshot : option RawSnapshot }.

Record RawPlatform := {
  targets : list str;
  raw_artifacts : list RawArtifact;
  raw_modules : list RawModule;
  raw_supports : list RawSupportPom;
}.

Record RawPomInput := {
  rp_path : str; rp_sha256 : str; rp_graph : option str; rp_ambient_inputs : option (list str) }.

Record RawInputs := {
  target : str;
  raw_model_hash : option str;
  raw_profiles : option (list str);
  raw_ambient_inputs : option (list str);
  raw_poms : option (list RawPomInput);
  raw_repo_ids : option str;
  raw_host_inputs : option (list str);
}.

Record RawResolution := { rr_ambient_inputs : list str; rr_command_line : list str }.
Record RawMetadata := { metadata_repo_ids : option str }.

Record RawLockfile := {
  schema_version : N;
  raw_config_hash : option str;
  raw_resolution : option RawResolution;
  raw_platforms : list RawPlatform;
  raw_inputs : list RawInputs;
  metadata : option RawMetadata;
}.

Definition LOCKFILE_SCHEMA_VERSION : N := 8.

(** [check_schema_version] of [lock.rs]. *)
Definition check_schema_version (found : N) : decoded unit :=
  if bool_decide (found = LOCKFILE_SCHEMA_VERSION) then Ok tt else Err (UnsupportedSchema found).

(** ** Targets *)

Definition at_sign : ascii := "@"%char.

Definition target_name (p : Platform.t) : str :=
  match Platform.jdk p with
  | Some jdk => Platform.os_arch p ++ [at_sign] ++ jdk
  | None => Platform.os_arch p
  end.

Definition parse_target (name : str) : decoded Platform.t :=
  let '(name, jdk) := match split_once at_sign name with
                      | Some (p, j) => (p, Some j)
                      | None => (name, None)
                      end in
  p ← map_err (fun e => BadTarget (Platform.text e)) (Platform.from_str name);
  match jdk with
  | Some jdk => if is_valid_jdk jdk then Ok (Platform.with_jdk p jdk) else Err BadTargetJdk
  | None => Ok p
  end.

(** ** Artifacts *)

Definition encode_snapshot (s : SnapshotStamp.t) : RawSnapshot :=
  {| raw_timestamp := SnapshotStamp.timestamp s; raw_build_number := Z.of_N (SnapshotStamp.build s) |}.

(** [u32::try_from]. *)
Definition u32_of (n : Z) : option N := if (0 <=? n)%Z && (n <? 2 ^ 32)%Z then Some (Z.to_N n) else None.

Definition decode_snapshot (raw : RawSnapshot) : decoded SnapshotStamp.t :=
  build ← ok_or (u32_of (raw_build_number raw)) (BuildNumber (raw_build_number raw));
  ok_or (SnapshotStamp.new (raw_timestamp raw) build) (BadTimestamp (raw_timestamp raw)).

Definition decode_coordinate (raw : RawCoordinate) : decoded ArtifactCoord.t :=
  if bool_decide (raw_classifier raw = Some []) then Err EmptyClassifier
  else Ok (ArtifactCoord.new (raw_group raw) (raw_artifact raw) (raw_version raw) (raw_extension raw) (raw_classifier raw)).

(** The loop over the checksums in [decode_artifact]. *)
Definition decode_checksum (row : RawChecksum) : decoded Digest :=
  a ← ok_or (parse_algorithm (raw_algorithm row)) (BadAlgorithm (raw_algorithm row));
  ok_or (opt_filter (fun _ => bool_decide (length (raw_digest row) = hex_len a)) (ok (Digest.parse (Digest.as_str a) (raw_digest row))))
    (BadDigest a (raw_digest row)).

Definition decode_artifact (raw : RawArtifact) : decoded LockArtifact :=
  coordinate ← decode_coordinate (raw_coordinate raw);
  checksums ← try_map decode_checksum (raw_checksums raw);
  snapshot ← transpose (decode_snapshot <$> raw_snapshot raw);
  pom_snapshot ← transpose (decode_snapshot <$> raw_pom_snapshot raw);
  pom_base ← (if bool_decide (raw_pom_base raw = Some false) then Err PomBaseFalse
              else Ok (bool_decide (is_Some (raw_pom_base raw))));
  pom_sha256 ← transpose ((fun digest => map_err (fun _ => BadPomSha256 digest) (hex <$> Digest.from_str Sha256 digest)) <$> raw_pom_sha256 raw);
  if negb (is_strictly_sorted str_cmp (raw_other_repo_urls raw)) || bool_decide (raw_repo_url raw ∈ raw_other_repo_urls raw)
  then Err UnsortedOthers
  else if negb (is_strictly_sorted str_cmp (raw_pom_repo_urls raw)) then Err UnsortedPoms
  else Ok {| coordinate := coordinate; repo_url := raw_repo_url raw; other_repo_urls := raw_other_repo_urls raw;
             checksums := checksums; snapshot := snapshot; pom_snapshot := pom_snapshot; pom_base := pom_base;
             pom_sha256 := pom_sha256; pom_repo_urls := raw_pom_repo_urls raw |}.

Definition encode_artifact (a : LockArtifact) : RawArtifact :=
  {| raw_coordinate := {| raw_group := Gav.group (row_gav a); raw_artifact := Gav.artifact (row_gav a);
       raw_version := Gav.version (row_gav a); raw_extension := ArtifactCoord.extension (coordinate a);
       raw_classifier := ArtifactCoord.classifier (coordinate a) |};
     raw_repo_url := repo_url a; raw_other_repo_urls := other_repo_urls a;
     raw_checksums := map (fun d => {| raw_algorithm := Digest.as_str (algorithm d); raw_digest := hex d |}) (checksums a);
     raw_snapshot := encode_snapshot <$> snapshot a; raw_pom_snapshot := encode_snapshot <$> pom_snapshot a;
     raw_pom_base := if pom_base a then Some true else None;
     raw_pom_sha256 := pom_sha256 a; raw_pom_repo_urls := pom_repo_urls a |}.

(** ** Platforms *)

(** The loop over the support POMs in [decode_platform]. *)
Fixpoint decode_supports (m : list (str * SupportPom)) (l : list RawSupportPom) : decoded (list (str * SupportPom)) :=
  match l with
  | [] => Ok m
  | pom :: l =>
    sha256 ← ok_or (lowercase_sha256 (rs_sha256 pom)) (BadSupportDigest (rs_coordinate pom));
    snapshot ← transpose (decode_snapshot <$> rs_snapshot pom);
    if bool_decide (is_Some (btree_get (rs_coordinate pom) m)) then Err (DuplicateSupport (rs_coordinate pom))
    else decode_supports (btree_insert str_cmp (rs_coordinate pom)
           {| sup_repo_url := rs_repo_url pom; sup_sha256 := sha256; sup_snapshot := snapshot |} m) l
  end.

Definition decode_platform (raw : RawPlatform) (p : Platform.t) : decoded LockPlatform :=
  artifacts ← try_map decode_artifact (raw_artifacts raw);
  modules ← map_err LineProblem (try_map decode_module (raw_modules raw));
  support ← decode_supports [] (raw_supports raw);
  Ok {| platform := p; model_hash := []; artifacts := artifacts; modules := modules; support_poms := support;
        model_inputs := None; platform_repo_ids := None; platform_host_inputs := None |}.

Definition encode_support (e : str * SupportPom) : RawSupportPom :=
  {| rs_coordinate := e.1; rs_repo_url := sup_repo_url e.2; rs_sha256 := sup_sha256 e.2;
     rs_snapshot := encode_snapshot <$> sup_snapshot e.2 |}.

Definition encode_platform (p : LockPlatform) : RawPlatform :=
  {| targets := [target_name (platform p)]; raw_artifacts := map encode_artifact (artifacts p);
     raw_modules := map encode_module (modules p); raw_supports := map encode_support (support_poms p) |}.

(** ** Host inputs *)

Section Inputs.
Context `{LookupJson}.

(** The loops of [decode_read_names] and [decode_host_inputs]. *)
Fixpoint decode_names (names_only : bool) (s : list AmbientInput) (names : list str) : decoded (list AmbientInput) :=
  match names with
  | [] => Ok s
  | name :: names =>
    input ← map_err BadInput (read_input name);
    if names_only && negb (is_property_name input) then Err (NoPropertyName name)
    else
      let '(new, s) := set_insert input_cmp input s in
      if negb new then Err (RepeatedInput name) else decode_names names_only s names
  end.

Definition decode_read_names (names : list str) : decoded (list AmbientInput) :=
  if bool_decide (names = []) then Err EmptyReads else decode_names true [] names.

Definition decode_host_inputs (names : list str) : decoded (list AmbientInput) := decode_names false [] names.

Definition read_name_texts (names : list AmbientInput) : option (list str) :=
  if bool_decide (names = []) then None else Some (map input_text names).

(** [is_command_line_name]. *)
Definition is_command_line_name (option : str) : bool :=
  is_some_and is_option_name (or_else (strip_prefix $"-D" option) (strip_prefix $"-P" option)).

(** The condition with the other outcome. *)
Definition opposite (input : AmbientInput) : option AmbientInput :=
  match input with Condition condition holds => Some (Condition condition (negb holds)) | _ => None end.

(** The loops of [decode_resolution]. *)
Fixpoint decode_ambient (s : list AmbientInput) (names : list str) : decoded (list AmbientInput) :=
  match names with
  | [] => Ok s
  | name :: names =>
    input ← map_err BadInput (read_input name);
    if is_some_and (fun other => bool_decide (other ∈ s)) (opposite input) then Err (BothOutcomes name)
    else
      let '(new, s) := set_insert input_cmp input s in
      if negb new then Err (RepeatedInput name) else decode_ambient s names
  end.

Fixpoint decode_options (s : list str) (options : list str) : decoded (list str) :=
  match options with
  | [] => Ok s
  | option :: options =>
    if negb (is_command_line_name option) then Err (BadOption option)
    else
      let '(new, s) := set_insert str_cmp option s in
      if negb new then Err (RepeatedOption option) else decode_options s options
  end.

Definition decode_resolution (raw : RawResolution) : decoded LockResolution :=
  if bool_decide (rr_ambient_inputs raw = []) && bool_decide (rr_command_line raw = []) then Err EmptyResolution
  else
    inputs ← decode_ambient [] (rr_ambient_inputs raw);
    options ← decode_options [] (rr_command_line raw);
    Ok {| resolution_inputs := inputs; command_line := options |}.

(** ** Inputs of a target *)

Record PomMaps := { pm_hashes : list (str * str); pm_graphs : list (str * str); pm_reads : list (str * list AmbientInput) }.

(** The loop over the POMs of a target, whose modules have the paths [module_paths]. *)
Fixpoint decode_poms (module_paths : list str) (m : PomMaps) (poms : list RawPomInput) : decoded PomMaps :=
  match poms with
  | [] => Ok m
  | pom :: poms =>
    let path := rp_path pom in
    reads ← match rp_ambient_inputs pom with
            | None => Ok (pm_reads m)
            | Some names =>
              if negb (bool_decide (path ∈ module_paths)) then Err (NoModule path)
              else names ← decode_read_names names; Ok (btree_insert str_cmp path names (pm_reads m))
            end;
    digest ← ok_or (lowercase_sha256 (rp_sha256 pom)) (BadPomDigest path);
    graphs ← match rp_graph pom with
             | None => Ok (pm_graphs m)
             | Some graph =>
               graph ← ok_or (lowercase_sha256 graph) (BadPomDigest path);
               Ok (btree_insert str_cmp path graph (pm_graphs m))
             end;
    if bool_decide (is_Some (btree_get path (pm_hashes m))) then Err DuplicatePom
    else decode_poms module_paths
           {| pm_hashes := btree_insert str_cmp path digest (pm_hashes m); pm_graphs := graphs; pm_reads := reads |} poms
  end.

Definition no_poms : PomMaps := {| pm_hashes := []; pm_graphs := []; pm_reads := [] |}.

Section Hashing.
Context `{Hashers}.

(** [decoded.model_hash] and [decoded.model_inputs] of a target. *)
Definition decode_model (module_paths : list str) (input : RawInputs) : decoded (str * option ModelInputs) :=
  match raw_profiles input, raw_poms input, raw_model_hash input with
  | Some profiles, Some poms, None =>
    m ← decode_poms module_paths no_poms poms;
    let hash := model_records_hash profiles (pm_hashes m) in
    ambient ← transpose (decode_read_names <$> raw_ambient_inputs input);
    let ambient := default [] ambient in
    match List.find (fun name => bool_decide (name ∈ ambient)) (concat (map snd (pm_reads m))) with
    | Some name => Err (ReadTwice name)
    | None =>
      Ok (hash, Some {| profiles := profiles; pom_hashes := pm_hashes m; graphs := pm_graphs m;
                        ambient_inputs := ambient; module_ambient_inputs := pm_reads m |})
    end
  | None, None, Some hash => if bool_decide (raw_ambient_inputs input = None) then Ok (hash, None) else Err InputKeys
  | _, _, _ => Err InputKeys
  end.

(** The body of the loop over the targets of a graph, which holds the tables [p]. *)
Definition decode_target (p : LockPlatform) (name : str) (input : RawInputs) : decoded LockPlatform :=
  at_platform ← parse_target name;
  ids ← map_err OriginProblem (transpose (decode_repo_id_lines <$> raw_repo_ids input));
  host ← transpose (decode_host_inputs <$> raw_host_inputs input);
  '(hash, inputs) ← decode_model (map module_path (modules p)) input;
  Ok {| platform := at_platform; model_hash := hash; artifacts := artifacts p; modules := modules p;
        support_poms := support_poms p; model_inputs := inputs; platform_repo_ids := ids; platform_host_inputs := host |}.

(** [BTreeMap::remove]: the value and the rest. *)
Definition btree_remove {V} (k : str) (m : list (str * V)) : list (str * V) :=
  List.filter (fun e => negb (bool_decide (e.1 = k))) m.

Abbreviation InputMap := (list (str * RawInputs)).

Fixpoint decode_targets (p : LockPlatform) (inputs : InputMap) (names : list str) : decoded (list LockPlatform * InputMap) :=
  match names with
  | [] => Ok ([], inputs)
  | name :: names =>
    input ← ok_or (btree_get name inputs) (MissingInputs name);
    decoded ← decode_target p name input;
    '(rest, inputs) ← decode_targets p (btree_remove name inputs) names;
    Ok (decoded :: rest, inputs)
  end.

Fixpoint decode_graphs (inputs : InputMap) (graphs : list RawPlatform) : decoded (list LockPlatform * InputMap) :=
  match graphs with
  | [] => Ok ([], inputs)
  | graph :: graphs =>
    match targets graph with
    | [] => Err NoTargets
    | first :: _ =>
      first ← parse_target first;
      tables ← decode_platform graph first;
      '(ps, inputs) ← decode_targets tables inputs (targets graph);
      '(rest, inputs) ← decode_graphs inputs graphs;
      Ok (ps ++ rest, inputs)
    end
  end.

(** The inputs by target. *)
Fixpoint collect_inputs (m : InputMap) (inputs : list RawInputs) : decoded InputMap :=
  match inputs with
  | [] => Ok m
  | input :: inputs =>
    _ ← parse_target (target input);
    if bool_decide (is_Some (btree_get (target input) m)) then Err (DuplicateInputs (target input))
    else collect_inputs (btree_insert str_cmp (target input) input m) inputs
  end.

Section Decode.
Context `{UrlCrate} `{Unicode}.

(** [TryFrom<RawLockfile>]. *)
Definition decode_lock (raw : RawLockfile) : decoded Lockfile :=
  _ ← check_schema_version (schema_version raw);
  resolution ← transpose (decode_resolution <$> raw_resolution raw);
  inputs ← collect_inputs [] (raw_inputs raw);
  '(ps, unused) ← decode_graphs inputs (raw_platforms raw);
  _ ← match unused with [] => Ok tt | _ => Err UnusedInputs end;
  ids ← map_err OriginProblem (decode_repo_id_lines (default [] (metadata raw ≫= metadata_repo_ids)));
  let l := {| config_hash := raw_config_hash raw;
              resolution := default {| resolution_inputs := []; command_line := [] |} resolution;
              platforms := sort_platforms ps; repo_ids := ids |} in
  _ ← map_err CheckProblem (check_lock l);
  Ok l.
End Decode.
End Hashing.

(** ** Writing *)

#[export] Instance lock_artifact_eq_dec : EqDecision LockArtifact.
Proof. solve_decision. Defined.
#[export] Instance support_pom_eq_dec : EqDecision SupportPom.
Proof. solve_decision. Defined.
#[export] Instance lock_resolution_eq_dec : EqDecision LockResolution.
Proof. solve_decision. Defined.

(** Whether two platforms have one graph. *)
Definition same_tables (p q : LockPlatform) : bool :=
  bool_decide (artifacts p = artifacts q) && bool_decide (modules p = modules q)
  && bool_decide (support_poms p = support_poms q).

Definition push_target (name : str) (graph : RawPlatform) : RawPlatform :=
  {| targets := targets graph ++ [name]; raw_artifacts := raw_artifacts graph; raw_modules := raw_modules graph;
     raw_supports := raw_supports graph |}.

(** A platform joins the first graph with its tables, or starts one. *)
Fixpoint join_graph (p : LockPlatform) (gs : list (LockPlatform * RawPlatform)) : list (LockPlatform * RawPlatform) :=
  match gs with
  | [] => [(p, encode_platform p)]
  | (other, graph) :: gs =>
    if same_tables other p then (other, push_target (target_name (platform p)) graph) :: gs
    else (other, graph) :: join_graph p gs
  end.

Definition encode_graphs (ps : list LockPlatform) : list (LockPlatform * RawPlatform) := foldl (fun gs p => join_graph p gs) [] ps.

Definition encode_pom (inputs : ModelInputs) (e : str * str) : RawPomInput :=
  {| rp_path := e.1; rp_sha256 := e.2; rp_graph := btree_get e.1 (graphs inputs);
     rp_ambient_inputs := btree_get e.1 (module_ambient_inputs inputs) ≫= read_name_texts |}.

(** The inputs of one target. *)
Definition encode_inputs (p : LockPlatform) : decoded RawInputs :=
  ids ← transpose ((fun ids => map_err OriginProblem (encode_repo_id_lines ids)) <$> platform_repo_ids p);
  Ok {| target := target_name (platform p);
        raw_model_hash := match model_inputs p with None => Some (model_hash p) | Some _ => None end;
        raw_profiles := profiles <$> model_inputs p;
        raw_ambient_inputs := model_inputs p ≫= fun inputs => read_name_texts (ambient_inputs inputs);
        raw_poms := (fun inputs => map (encode_pom inputs) (pom_hashes inputs)) <$> model_inputs p;
        raw_repo_ids := ids;
        raw_host_inputs := map input_text <$> platform_host_inputs p |}.

Definition encode_resolution (r : LockResolution) : option RawResolution :=
  if bool_decide (r = {| resolution_inputs := []; command_line := [] |}) then None
  else Some {| rr_ambient_inputs := map input_text (resolution_inputs r); rr_command_line := command_line r |}.

(** [encode]. *)
Definition encode_lock (l : Lockfile) : decoded RawLockfile :=
  ids ← (if bool_decide (repo_ids l = []) then Ok None
         else Some <$> map_err OriginProblem (encode_repo_id_lines (repo_ids l)));
  inputs ← try_map encode_inputs (platforms l);
  Ok {| schema_version := LOCKFILE_SCHEMA_VERSION; raw_config_hash := config_hash l;
        raw_resolution := encode_resolution (resolution l);
        raw_platforms := map snd (encode_graphs (platforms l)); raw_inputs := inputs;
        metadata := (fun ids => {| metadata_repo_ids := Some ids |}) <$> ids |}.
End Inputs.
