(* ===== verification/LockCheckFacts.v ===== *)
(** * What a checked lock is

    [validate_platform] accepts exactly the platforms whose tables refer to each other
    correctly, and a lock whose origins were made relative to its project passes the
    check of origins. *)

From Stdlib Require Import Ascii String Lia.
From stdpp Require Import base list strings gmap sorting.
From S2P Require Import Prelude Iter Str Version Range Component Coordinates Snapshot Layout Digest Url Redact Repository LockText Ambient LockRows LockLines LockInputs LockMerge LockOrigin LockCheck.

#[local] Set Warnings "-clear-no-such-hyp".

(** ** Sequences of checks *)

Lemma ensure_Ok ok fault : ensure ok fault = Ok tt <-> ok = true.
Proof. unfold ensure. by destruct ok. Qed.

Lemma seq_Ok {E A} (r : result E unit) (f : result E A) a : (_ ← r; f) = Ok a <-> r = Ok tt /\ f = Ok a.
Proof. destruct r as [[]|]; cbn; naive_solver. Qed.

Lemma try_each_Ok {A} (f : A -> checked) l : try_each f l = Ok tt <-> Forall (fun a => f a = Ok tt) l.
Proof.
  induction l as [|a l IH]; cbn; [split; [constructor|done]|]. rewrite seq_Ok, IH, Forall_cons. done.
Qed.

Lemma try_map_Ok {E A B} (f : A -> result E B) l bs : try_map f l = Ok bs <-> Forall2 (fun a b => f a = Ok b) l bs.
Proof.
  revert bs. induction l as [|a l IH]; intros bs; cbn.
  - split; [intros [= <-]; constructor|]. by inversion 1.
  - split.
    + intros (b & Eb & Er)%bind_Ok. apply bind_Ok in Er as (bs' & Ebs & [= <-]). constructor; [done|by apply IH].
    + inversion 1 as [|? b ? bs' Eb Ebs]; subst. rewrite Eb. cbn. by rewrite (proj2 (IH bs') Ebs).
Qed.

(** A step that accepts the values of [P] and returns [g] of them. *)
Lemma try_map_fun {E A B} (f : A -> result E B) (P : A -> Prop) (g : A -> B) l bs :
  (forall a b, f a = Ok b <-> P a /\ b = g a) -> try_map f l = Ok bs <-> Forall P l /\ bs = map g l.
Proof.
  intros Hf. rewrite try_map_Ok. split.
  - induction 1 as [|a b l bs Ha _ [IH ->]]; [done|]. apply Hf in Ha as [Ha ->]. by split; [constructor|].
  - intros [HP ->]. induction HP as [|a l Ha HP IH]; cbn; constructor; [by apply Hf|done].
Qed.

Lemma refuse_Ok {A} (fault : A -> CheckFault) o : refuse fault o = Ok tt <-> o = None.
Proof. by destruct o. Qed.

Lemma first_repeat_None {A K} `{EqDecision K} (key : A -> K) seen l :
  first_repeat key seen l = None <-> NoDup (map key l) /\ forall a, a ∈ l -> key a ∉ seen.
Proof.
  revert seen. induction l as [|a l IH]; intros seen; cbn.
  - split; [|done]. intros _. split; [constructor|]. intros b Hb. by apply elem_of_nil in Hb.
  - case_bool_decide as Ha.
    + split; [done|]. intros [_ Hn]. exfalso. by apply (Hn a); [left|].
    + rewrite IH, NoDup_cons. split.
      * intros [Hd Hn]. split.
        -- split; [|done]. intros (b & Eb & Hb)%list_elem_of_fmap. apply (Hn b Hb). rewrite Eb. by left.
        -- intros b [->|Hb]%elem_of_cons; [done|]. specialize (Hn b Hb). set_solver.
      * intros [[Hx Hd] Hn]. split; [done|]. intros b Hb. rewrite not_elem_of_cons. split.
        -- intros E. apply Hx. apply list_elem_of_fmap. by exists b.
        -- apply Hn. by right.
Qed.

(** ** Tables *)

Record artifact_wf (a : LockArtifact) : Prop := {
  aw_checksums : checksums a <> [] /\ NoDup (map algorithm (checksums a)) /\ Md5 ∉ map algorithm (checksums a);
  aw_pom_snapshot : forall stamp, pom_snapshot a = Some stamp ->
    resolves_through_snapshot_metadata (row_version a) = true /\ snapshot a <> Some stamp /\ is_own_pom a = false;
  aw_pom_base : pom_base a = true -> is_Some (snapshot a) /\ pom_snapshot a = None /\ is_own_pom a = false;
  aw_payload : is_own_pom a = true ->
    exists pom, pom_sha256 a = Some pom /\ checksums a = [{| algorithm := Sha256; hex := pom |}];
}.

(** What a package may be: a module of the reactor, a file of the system, or a row. *)
Inductive package_wf (p : LockPlatform) (k : LockModulePackage) : Prop :=
  | of_workspace path target :
      workspace_module k = Some path -> system_path k = None -> system_sha256 k = None ->
      target ∈ modules p -> module_path target = path -> ArtifactCoord.gav (package_coordinate k) = module_gav target ->
      package_coordinate k ∉ map coordinate (artifacts p) -> package_wf p k
  | of_system path sha :
      workspace_module k = None -> system_path k = Some path -> system_sha256 k = Some sha ->
      check_system_path path = Ok tt -> package_scope k = LockScope.System ->
      package_coordinate k ∉ map coordinate (artifacts p) -> package_wf p k
  | of_row :
      workspace_module k = None -> system_path k = None -> system_sha256 k = None ->
      package_coordinate k ∈ map coordinate (artifacts p) -> package_wf p k.

Record module_wf (p : LockPlatform) (m : LockModule) : Prop := {
  mw_packages : NoDup (map package_coordinate (packages m));
  mw_edges : edges_in_range m;
  mw_package : Forall (package_wf p) (packages m);
  mw_support : Forall (fun c => is_Some (btree_get c (support_poms p))) (module_support_poms m);
}.

Definition external (k : LockModulePackage) : Prop := workspace_module k = None /\ system_path k = None.

Record platform_wf (p : LockPlatform) : Prop := {
  pw_modules : modules p <> [];
  pw_paths : NoDup (map module_path (modules p));
  pw_gavs : NoDup (map module_gav (modules p));
  pw_rows : NoDup (map coordinate (artifacts p));
  pw_artifacts : Forall artifact_wf (artifacts p);
  pw_module : Forall (module_wf p) (modules p);
  pw_used : forall a, a ∈ artifacts p -> exists m k, m ∈ modules p /\ k ∈ packages m /\ external k /\
    package_coordinate k = coordinate a;
}.

Lemma check_module_table_Ok paths gavs l :
  check_module_table paths gavs l = Ok tt <->
  (NoDup (map module_path l) /\ forall m, m ∈ l -> module_path m ∉ paths) /\
  (NoDup (map module_gav l) /\ forall m, m ∈ l -> module_gav m ∉ gavs).
Proof.
  rewrite <-!first_repeat_None. revert paths gavs. induction l as [|m l IH]; intros paths gavs; [done|].
  cbn. rewrite !seq_Ok, !ensure_Ok, !negb_true_iff, !bool_decide_eq_false, IH.
  case_bool_decide; case_bool_decide; naive_solver.
Qed.

Lemma check_checksums_Ok c seen l :
  check_checksums c seen l = Ok tt <->
  Md5 ∉ map algorithm l /\ NoDup (map algorithm l) /\ forall d, d ∈ l -> algorithm d ∉ seen.
Proof.
  rewrite <-first_repeat_None. revert seen. induction l as [|d l IH]; intros seen; cbn.
  - split; [|done]. intros _. split; [apply not_elem_of_nil|done].
  - rewrite !seq_Ok, !ensure_Ok, !negb_true_iff, !bool_decide_eq_false, IH, not_elem_of_cons.
    case_bool_decide; naive_solver.
Qed.

Lemma check_artifact_Ok a : check_artifact a = Ok tt <-> artifact_wf a.
Proof.
  unfold check_artifact. rewrite !seq_Ok, !ensure_Ok, check_checksums_Ok, !negb_true_iff, bool_decide_eq_false. split.
  - intros (H1 & H2 & H3 & (H4 & H5 & _) & H6). constructor.
    + done.
    + intros stamp E. rewrite E in H2. cbn in H2. apply andb_true_iff in H2 as [H2 Ho]. apply andb_true_iff in H2 as [H2 Hs].
      rewrite negb_true_iff in Ho, Hs. apply bool_decide_eq_false in Hs. naive_solver.
    + intros E. rewrite E in H3. cbn in H3. apply orb_false_iff in H3 as [H3 Ho]. apply orb_false_iff in H3 as [H3 Hp].
      apply bool_decide_eq_false in H3, Hp. split_and!; [|by apply eq_None_not_Some|done]. by apply not_eq_None_Some.
    + intros E. rewrite E in H6. cbn in H6. destruct (pom_sha256 a) as [pom|]; [|done]. cbn in H6.
      exists pom. split; [done|]. by apply negb_false_iff, bool_decide_eq_true in H6.
  - intros [(H1 & H2 & H3) Hs Hb Hp]. split_and!; try done; try (intros; apply not_elem_of_nil).
    + destruct (pom_snapshot a) as [stamp|]; [|done]. cbn. destruct (Hs stamp eq_refl) as (-> & Hn & ->).
      by rewrite bool_decide_eq_false_2.
    + destruct (pom_base a); [|done]. destruct (Hb eq_refl) as ([s ->] & -> & ->). done.
    + destruct (is_own_pom a); [|done]. destruct (Hp eq_refl) as (pom & -> & ->). cbn. by rewrite bool_decide_eq_true_2.
Qed.

Lemma check_artifacts_Ok seen l :
  check_artifacts seen l = Ok tt <->
  (NoDup (map coordinate l) /\ forall a, a ∈ l -> coordinate a ∉ seen) /\ Forall artifact_wf l.
Proof.
  rewrite <-first_repeat_None. revert seen. induction l as [|a l IH]; intros seen; cbn; [by split|].
  rewrite !seq_Ok, ensure_Ok, negb_true_iff, bool_decide_eq_false, check_artifact_Ok, IH, Forall_cons.
  case_bool_decide; naive_solver.
Qed.

(** ** Packages and modules *)

Lemma module_at p path target :
  NoDup (map module_path (modules p)) ->
  get_last path (map (fun m => (module_path m, m)) (modules p)) = Some target <->
  target ∈ modules p /\ module_path target = path.
Proof.
  intros Hd. split.
  - intros (m & E & Hm)%get_last_elem%list_elem_of_fmap. by injection E as -> ->.
  - intros [Hin <-]. assert ((module_path target, target) ∈ map (fun m => (module_path m, m)) (modules p)) as Ht
      by (apply list_elem_of_fmap; by exists target).
    destruct (get_last_some _ _ _ Ht) as (t & Et & _). rewrite Et. f_equal.
    apply get_last_elem, list_elem_of_fmap in Et as (m & E & Hm). injection E as E ->.
    apply list_elem_of_lookup in Hm as (i & Hi), Hin as (j & Hj).
    assert (i = j) as <-; [|congruence]. eapply (NoDup_lookup _ i j (module_path m)); [exact Hd|..].
    + by apply (list_lookup_fmap_Some_2 module_path).
    + rewrite <-E. by apply (list_lookup_fmap_Some_2 module_path).
Qed.

(** The row a package uses. *)
Definition used_row (k : LockModulePackage) : option ArtifactCoord.t :=
  match workspace_module k, system_path k with None, None => Some (package_coordinate k) | _, _ => None end.

Lemma check_system_package_Ok k :
  check_system_package k = Ok tt <->
  match system_path k with
  | None => system_sha256 k = None
  | Some path => is_Some (system_sha256 k) /\ check_system_path path = Ok tt /\ package_scope k = LockScope.System
  end.
Proof.
  unfold check_system_package. destruct (system_path k) as [path|], (system_sha256 k) as [sha|]; try done.
  - rewrite seq_Ok, map_err_Ok, ensure_Ok, bool_decide_eq_true. naive_solver.
  - split; [done|]. by intros [[? ?] _].
Qed.

Lemma check_package_Ok p k r :
  NoDup (map module_path (modules p)) -> check_package p k = Ok r <-> package_wf p k /\ r = used_row k.
Proof.
  intros Hd. unfold check_package, used_row. cbn zeta. rewrite !seq_Ok, ensure_Ok, check_system_package_Ok, negb_true_iff.
  destruct (workspace_module k) as [path|] eqn:Ew.
  - rewrite bool_decide_eq_true_2 by eauto. cbn [andb]. rewrite bool_decide_eq_false. split.
    + intros (Hs & Hp & E). apply bind_Ok in E as (t & Et%ok_or_Ok & E). apply (module_at p path t Hd) in Et as [Ht Hpath].
      rewrite !seq_Ok, !ensure_Ok, negb_true_iff, bool_decide_eq_true, bool_decide_eq_false in E. destruct E as (Eg & Er & [= <-]).
      destruct (system_path k) as [y|] eqn:Ey; [by exfalso; eauto|]. split; [|done]. by eapply of_workspace.
    + intros [Hk ->]. inversion Hk as [path' t Ew' Ey Eh Ht Hpath Hg Hr|? ? Ew'|Ew']; [|congruence..].
      assert (path' = path) as -> by congruence. rewrite Ey. split_and!; [by intros [? ?]|done|].
      rewrite (proj2 (module_at p path t Hd)) by done. cbn [ok_or mbind result_bind].
      rewrite !seq_Ok, !ensure_Ok, negb_true_iff, bool_decide_eq_true, bool_decide_eq_false. done.
  - rewrite bool_decide_eq_false_2 by (by intros [? ?]). cbn [andb]. destruct (system_path k) as [y|] eqn:Ey.
    + rewrite seq_Ok, ensure_Ok, negb_true_iff, bool_decide_eq_false. split.
      * intros (_ & ([sha Eh] & Hp & Hsc) & Hr & [= <-]). split; [|done]. by eapply of_system.
      * intros [Hk ->]. inversion Hk as [? ? Ew'|path sha _ Ey' Eh Hp Hsc Hr|? Ey']; [congruence| |congruence].
        assert (path = y) as -> by congruence. by split_and!.
    + rewrite seq_Ok, ensure_Ok, bool_decide_eq_true. split.
      * intros (_ & Hh & Hr & [= <-]). split; [|done]. by apply of_row.
      * intros [Hk ->]. inversion Hk as [? ? Ew'|? ? _ Ey'|_ _ Eh Hr]; [congruence..|]. done.
Qed.

Lemma validate_module_Ok p m r :
  NoDup (map module_path (modules p)) ->
  validate_module p m = Ok r <-> module_wf p m /\ r = concat (map option_list (map used_row (packages m))).
Proof.
  intros Hd. unfold validate_module. rewrite !seq_Ok, refuse_Ok, first_repeat_None, try_each_Ok. split.
  - intros ([Hn _] & He & E). apply bind_Ok in E as (used & Hu & E). apply (try_map_fun _ (package_wf p) used_row) in Hu as [Hk ->]; [|by intros; apply check_package_Ok].
    rewrite seq_Ok, try_each_Ok in E. destruct E as [Hs [= <-]]. split; [|done]. constructor; [done| |done|].
    + eapply Forall_impl; [exact He|]. intros e [E1 E2]%ensure_Ok%andb_true_iff. by apply Nat.ltb_lt in E1, E2.
    + eapply Forall_impl; [exact Hs|]. intros c Hc%ensure_Ok. by apply bool_decide_eq_true in Hc.
  - intros [[Hn He Hk Hs] ->]. split_and!; [done|intros; apply not_elem_of_nil| |].
    + eapply Forall_impl; [exact He|]. intros e [E1 E2]. apply ensure_Ok, andb_true_iff. by split; apply Nat.ltb_lt.
    + rewrite (proj2 (try_map_fun _ (package_wf p) used_row _ _ (fun a b => check_package_Ok p a b Hd))) by done. cbn [mbind result_bind]. rewrite seq_Ok, try_each_Ok. split; [|done].
      eapply Forall_impl; [exact Hs|]. intros c Hc. apply ensure_Ok. by apply bool_decide_eq_true.
Qed.

Lemma concat_elem {A} (x : A) ls : x ∈ concat ls <-> exists l, x ∈ l /\ l ∈ ls.
Proof. rewrite list_elem_of_In, in_concat. setoid_rewrite list_elem_of_In. naive_solver. Qed.

Lemma used_elem p c :
  c ∈ concat (map (fun m => concat (map option_list (map used_row (packages m)))) (modules p)) <->
  exists m k, m ∈ modules p /\ k ∈ packages m /\ external k /\ package_coordinate k = c.
Proof.
  rewrite concat_elem. unfold external. split.
  - intros (l & Hc & (m & -> & Hm)%list_elem_of_fmap). apply concat_elem in Hc as (l' & Hc & (o & -> & Ho)%list_elem_of_fmap).
    apply list_elem_of_fmap in Ho as (k & -> & Hk). exists m, k. split; [done|]. split; [done|]. unfold used_row in Hc.
    destruct (workspace_module k), (system_path k); cbn in Hc; try (by apply elem_of_nil in Hc).
    by apply list_elem_of_singleton in Hc.
  - intros (m & k & Hm & Hk & [Ew Ey] & <-). eexists. split; [|apply list_elem_of_fmap; by exists m].
    apply concat_elem. exists [package_coordinate k]. split; [by left|]. apply list_elem_of_fmap.
    exists (used_row k). unfold used_row at 1. rewrite Ew, Ey. split; [done|]. apply list_elem_of_fmap. by exists k.
Qed.

Lemma validate_platform_Ok p :
  validate_platform p = Ok tt <-> is_sha256_hex (model_hash p) = true /\ platform_wf p.
Proof.
  unfold validate_platform. rewrite !seq_Ok, !ensure_Ok, check_module_table_Ok, check_artifacts_Ok, negb_true_iff, bool_decide_eq_false.
  assert (length (modules p) <> 0 <-> modules p <> []) as -> by (destruct (modules p); naive_solver lia).
  split.
  - intros (Hh & Hm & ([Hp _] & [Hg _]) & ([Hr _] & Ha) & E). split; [done|].
    apply bind_Ok in E as (used & Hu & E%try_each_Ok).
    apply (try_map_fun _ _ _ _ _ (fun m r => validate_module_Ok p m r Hp)) in Hu as [Hw ->].
    constructor; try done. intros a Hin. apply used_elem. rewrite Forall_forall in E. specialize (E a Hin).
    by apply ensure_Ok, bool_decide_eq_true in E.
  - intros (Hh & [Hm Hp Hg Hr Ha Hw Hu]). split_and!; try done; try (intros; apply not_elem_of_nil).
    rewrite (proj2 (try_map_fun _ _ _ _ _ (fun m r => validate_module_Ok p m r Hp))) by done. cbn [mbind result_bind].
    apply try_each_Ok, Forall_forall. intros a Hin. apply ensure_Ok, bool_decide_eq_true, used_elem. auto.
Qed.

(** C24: the tables of a platform are checked completely: [validate_platform] accepts
    exactly the platforms with a model hash in lowercase hex whose modules, packages,
    edges, artifact rows and support POMs form one well-formed graph.  Module paths,
    module coordinates, rows and the packages of a module are distinct; edges stay in
    range; a package is a module of the reactor, a system file or has a row; every row
    is used; and checksums and companion POMs are recorded as they can exist. *)
Theorem validate_platform_spec p :
  validate_platform p = Ok tt <-> is_sha256_hex (model_hash p) = true /\ platform_wf p.
Proof. apply validate_platform_Ok. Qed.

Lemma check_lock_wf `{UrlCrate} `{Unicode} l : check_lock l = Ok tt -> Forall platform_wf (platforms l).
Proof.
  unfold check_lock. rewrite !seq_Ok. intros (_ & _ & Hv). unfold validate in Hv. rewrite !seq_Ok in Hv.
  destruct Hv as (_ & _ & _ & _ & Hp & _). apply try_each_Ok in Hp. eapply Forall_impl; [exact Hp|].
  intros p [[_ Hw]%validate_platform_Ok _]%seq_Ok. done.
Qed.

(** ** Origins relative to the project *)

Lemma find_map_Some {A B} (f : A -> option B) l b : find_map f l = Some b -> exists a, a ∈ l /\ f a = Some b.
Proof.
  induction l as [|a l IH]; cbn; [done|]. destruct (f a) as [c|] eqn:E.
  - intros [= ->]. exists a. split; [left|done].
  - intros (a' & Hin & Ha)%IH. exists a'. split; [by right|done].
Qed.

Lemma btree_insert_keys {V} k (v : V) m x : x ∈ map fst (btree_insert str_cmp k v m) -> x = k \/ x ∈ map fst m.
Proof.
  induction m as [|[k' v'] m IH]; cbn; [set_solver|]. destruct (str_cmp k k') eqn:E; cbn; [|set_solver..].
  apply cmp_eq in E as ->. set_solver.
Qed.

Lemma token_of_prefix token rest t : token_of token rest = Some t -> exists s, t = token ++ s.
Proof.
  revert token. induction rest as [|[name| | |] rest IH]; intros token E; cbn in E; try done.
  - injection E as <-. exists []. by rewrite app_nil_r.
  - destruct (is_portable_segment name); [|done]. apply IH in E as [s ->]. eexists. by rewrite <-app_assoc.
Qed.

Lemma dot_is_relative s : is_project_relative_origin (PROJECT_RELATIVE_ORIGIN_PREFIX ++ s) = true.
Proof.
  unfold is_project_relative_origin, trim_start. rewrite strip_all_id; [done|]. by apply (ws_start_char "."%char).
Qed.

Section Relative.
Context `{FileUrls}.

(** A token names its directory and passes the check of tokens. *)
Lemma project_relative_token o url t :
  project_relative o url = Some t -> is_project_relative_origin t = true /\ validate_project_relative_origin t = Ok tt.
Proof.
  unfold project_relative. intros E. apply bind_Some in E as (path & _ & E). apply find_map_Some in E as (root & _ & E).
  apply bind_Some in E as (rest & _ & E). apply bind_Some in E as (token & Et & E).
  destruct (validate_project_relative_origin token) as [[]|] eqn:Ev; [|done]. injection E as <-. split; [|done].
  apply token_of_prefix in Et as [s ->]. apply dot_is_relative.
Qed.

(** What is recorded stays as it is. *)
Lemma recorded_fixed o v w : recorded o v = Ok w -> recorded o w = Ok w.
Proof.
  intros E. pose proof E as E'. unfold recorded in E. destruct (is_project_relative_origin v) eqn:Er.
  - apply seq_Ok in E as [_ [= <-]]. done.
  - destruct (parse_url (trim v)) as [u|]; [|by injection E as <-]. case_bool_decide; [|by injection E as <-].
    destruct (project_relative o u) as [t|] eqn:Et; cbn in E; [|by injection E as <-]. injection E as <-.
    apply project_relative_token in Et as [Hr Hv]. unfold recorded. by rewrite Hr, Hv.
Qed.

Definition origin_fixed (o : LockOrigins) (origin : str) : Prop := recorded o origin = Ok origin.

Lemma try_map_recorded o l k : try_map (recorded o) l = Ok k -> Forall (origin_fixed o) k.
Proof. rewrite try_map_Ok. induction 1; constructor; [by eapply recorded_fixed|done]. Qed.

Lemma relativize_artifact_fixed o a b : relativize_artifact o a = Ok b -> Forall (origin_fixed o) (origins b).
Proof.
  intros E. unfold relativize_artifact in E. apply bind_Ok in E as (url & Eu & E). apply bind_Ok in E as (other & Eo & E).
  apply bind_Ok in E as (pom & Ep & [= <-]). apply try_map_recorded in Eo, Ep. apply recorded_fixed in Eu.
  apply Forall_forall. intros x [[->|Hx]%elem_of_cons|Hx]%origins_elem; cbn in *; [done|..].
  - rewrite Forall_forall in Eo. by apply Eo.
  - rewrite Forall_forall in Ep. by apply Ep.
Qed.

Lemma record_repo_ids_fixed o acc ids res :
  record_repo_ids o acc ids = Ok res -> Forall (origin_fixed o) (map fst acc) -> Forall (origin_fixed o) (map fst res).
Proof.
  revert acc. induction ids as [|[origin names] ids IH]; intros acc E Ha; cbn in E; [by injection E as <-|].
  apply bind_Ok in E as (origin' & Eo & E). apply IH in E; [done|]. apply recorded_fixed in Eo.
  rewrite Forall_forall in *. intros x [->|Hx]%btree_insert_keys; [done|by apply Ha].
Qed.

(** C30: a lock whose origins were made relative to its project directory passes the
    check of origins a lock passes when it is read or written there. *)
Theorem relativized_checks o l l' : relativize_origins o l = Ok l' -> check_origins o l' = Ok tt.
Proof.
  intros E. unfold relativize_origins in E. apply bind_Ok in E as (ps & Ep%try_map_Ok & E). apply bind_Ok in E as (ids & Ei & [= <-]).
  assert (Forall (fun p => Forall (fun a => Forall (origin_fixed o) (origins a)) (artifacts p) /\
    Forall (fun e => origin_fixed o (sup_repo_url e.2)) (support_poms p)) ps) as Hps.
  { induction Ep as [|p p' l0 ps Hp Hf IH]; constructor; [|done]. unfold relativize_platform in Hp.
    apply bind_Ok in Hp as (rs & Er%try_map_Ok & Hp). apply bind_Ok in Hp as (ss & Es%try_map_Ok & Hp).
    apply bind_Ok in Hp as (x & _ & [= <-]). cbn. split.
    - clear -Er. induction Er; constructor; [by eapply relativize_artifact_fixed|done].
    - clear -Es. induction Es as [|e e' es es' He _ IH]; constructor; [|done]. unfold relativize_support in He.
      apply bind_Ok in He as (u & Hu & [= <-]). cbn. by eapply recorded_fixed. }
  pose proof (record_repo_ids_fixed o [] _ _ Ei (Forall_nil_2 _)) as Hids. clear Ei.
  unfold check_origins. apply try_each_Ok, Forall_forall. intros x Hx. cbn in Hx.
  assert (origin_fixed o x) as ->; [|by cbn; rewrite bool_decide_eq_true_2].
  rewrite Forall_forall in Hps. rewrite Forall_forall in Hids. unfold row_origins, support_origins, rows, supports in Hx. cbn [platforms] in Hx.
  apply elem_of_app in Hx as [Hx|Hx]; [|apply elem_of_app in Hx as [Hx|Hx]; [|by apply Hids]].
  - apply concat_elem in Hx as (os & Hx & (a & -> & Ha)%list_elem_of_fmap). apply concat_elem in Ha as (as_ & Ha & (p & -> & Hp)%list_elem_of_fmap).
    destruct (Hps p Hp) as [Ha' _]. rewrite Forall_forall in Ha'. specialize (Ha' a Ha). rewrite Forall_forall in Ha'. by apply Ha'.
  - apply list_elem_of_fmap in Hx as (e & -> & He). apply concat_elem in He as (es & He & (p & -> & Hp)%list_elem_of_fmap).
    destruct (Hps p Hp) as [_ Hs]. rewrite Forall_forall in Hs. by apply Hs.
Qed.
End Relative.

(** ** A repository beside the project *)

(** URLs without an authority as their text, and paths as their names. *)
Definition file_crate : UrlCrate := {|
  Url := str; url_eq_dec := _; parse_url text := fst <$> (split_once ":"%char text ≫= fun e => Some (text, e)); as_str u := u;
  scheme u := from_option fst u (split_once ":"%char u);
  has_authority _ := false; host _ := None; host_text h := match h with Domain d => d | _ => [] end; port _ := None;
  port_or_known_default _ := None; username _ := []; password _ := None; path u := u; query _ := None; fragment _ := None;
  origin _ := None; tuple_text _ := []; url_join _ s := Some s; set_host _ u := u; set_port _ u := u; set_path _ u := u;
  set_username _ u := u; set_password _ u := u; set_query _ u := u; set_fragment _ u := u |}.

Definition file_urls : @FileUrls file_crate := @Build_FileUrls file_crate
  (fun u => rest ← strip_prefix $"file:///" u; Some (map Normal (split "/"%char rest))) Some.

Definition project_row (url : str) : LockArtifact := {|
  coordinate := ArtifactCoord.new $"g" $"a" $"1.0" $"jar" None; repo_url := url; other_repo_urls := [$"https://cdn.example/m2"];
  checksums := [{| algorithm := Sha256; hex := $"aa" |}]; snapshot := None; pom_snapshot := None; pom_base := false;
  pom_sha256 := None; pom_repo_urls := [] |}.

Definition project_lock (url : str) : Lockfile := {|
  config_hash := None; resolution := {| resolution_inputs := []; command_line := [] |};
  platforms := [{| platform := {| Platform.os := $"linux"; Platform.arch := $"x86_64"; Platform.jdk := None |};
    model_hash := repeat "0"%char 64; artifacts := [project_row url]; modules := []; support_poms := [];
    model_inputs := None; platform_repo_ids := None; platform_host_inputs := None |}];
  repo_ids := [(url, [$"local"])] |}.

Definition project_root : LockOrigins := {| roots := [[Normal $"work"; Normal $"app"]] |}.

Lemma relativized_checks_witness :
  @relativize_origins file_crate file_urls project_root (project_lock $"file:///work/app/libs/m2") = Ok (project_lock $"./libs/m2/")
  /\ @check_origins file_crate file_urls project_root (project_lock $"./libs/m2/") = Ok tt.
Proof.
  split; [by vm_compute|].
  apply (@relativized_checks file_crate file_urls project_root (project_lock $"file:///work/app/libs/m2")). by vm_compute.
Defined.
