(* ===== verification/LockDrift.v ===== *)
(** * Whether a lock still describes the resolution ([rv-lock/src/drift.rs])

    The comparison [--frozen] makes between a lock and a fresh resolution, the adoption
    of new reactor versions, the origins nothing declares and the refresh of snapshots.
    [declared] is the caller's rule for recorded repositories, [record] what reading a
    system file gives. *)

From Stdlib Require Import Ascii String Lia.
From stdpp Require Import base list strings gmap sorting.
From S2P Require Import Prelude Iter Str Version Range Component Coordinates Snapshot Layout Digest Url Redact Repository LockText Ambient LockRows LockLines LockInputs LockMerge LockOrigin LockCheck LockCheckFacts.

#[local] Set Warnings "-clear-no-such-hyp".

#[export] Instance lock_artifact_eq_dec : EqDecision LockArtifact.
Proof. solve_decision. Defined.
#[export] Instance support_pom_eq_dec : EqDecision SupportPom.
Proof. solve_decision. Defined.

(** [ResolutionDrift]. *)
Inductive ResolutionDrift :=
  | Invalid
  | Platforms
  | Inputs
  | Profiles (on : Platform.t)
  | RepositoryIds
  | ModuleGraph (on : Platform.t) (path : str)
  | ArtifactRow (on : Platform.t) (coord : str)
  | SupportRow (on : Platform.t) (coord : str)
  | SystemFileBytes (path : str).

(** [Display for ResolutionDrift]. *)
Definition drift_text (d : ResolutionDrift) : str :=
  match d with
  | Invalid => $"a lockfile could not be put in canonical form"
  | Platforms => $"the platforms differ"
  | Inputs => $"the configuration or resolution settings differ"
  | Profiles on => $"the active profiles changed on platform " ++ Platform.display on
  | RepositoryIds => $"the repository ids differ"
  | ModuleGraph on path => $"the graph of module " ++ path ++ $" changed on platform " ++ Platform.display on
  | ArtifactRow on coord => $"artifact " ++ coord ++ $" changed on platform " ++ Platform.display on
  | SupportRow on coord => $"the POM pinned for " ++ coord ++ $" changed on platform " ++ Platform.display on
  | SystemFileBytes path => $"the system-scoped file " ++ path ++ $" changed or cannot be read"
  end.

(** ** System files *)

(** The loop of [LockPlatform::system_file_drift], with the pairs checked so far. *)
Fixpoint system_drift_loop (record : str -> option (str * str)) (seen : list (str * str)) (l : list LockModulePackage)
    : option ResolutionDrift :=
  match l with
  | [] => None
  | k :: l =>
    match system_path k, system_sha256 k with
    | Some path, Some sha =>
      if bool_decide ((path, sha) ∈ seen) then system_drift_loop record seen l
      else if bool_decide (record path = Some (path, sha)) then system_drift_loop record ((path, sha) :: seen) l
      else Some (SystemFileBytes path)
    | _, _ => system_drift_loop record seen l
    end
  end.

Definition platform_system_drift (record : str -> option (str * str)) (p : LockPlatform) : option ResolutionDrift :=
  system_drift_loop record [] (concat (map packages (modules p))).

(** [Lockfile::system_file_drift]. *)
Definition system_file_drift (record : str -> option (str * str)) (l : Lockfile) : option ResolutionDrift :=
  find_map (platform_system_drift record) (platforms l).

(** ** Modules *)

(** [module_versions]. *)
Definition module_versions (l : list LockModule) : list (str * str) :=
  map (fun m => (module_path m, Gav.version (module_gav m))) l.

Definition rename_model (old new : str) (r : ParentRange) : ParentRange :=
  if bool_decide (range_model r = old)
  then {| range_model := new; range_parent := range_parent r; range_selected := range_selected r |} else r.

(** The loop of [with_module_versions] over the packages. *)
Fixpoint version_packages (own : list (str * str)) (version : str -> str) (ranges : list ParentRange)
    (l : list LockModulePackage) : list ParentRange * list LockModulePackage :=
  match l with
  | [] => (ranges, [])
  | k :: l =>
    let c := package_coordinate k in
    match workspace_module k with
    | Some path =>
      if bool_decide (get_last path own = Some (Gav.version (ArtifactCoord.gav c))) then
        let gav := Gav.new (Gav.group (ArtifactCoord.gav c)) (Gav.artifact (ArtifactCoord.gav c)) (version path) in
        let ranges := map (rename_model (Gav.display (ArtifactCoord.gav c)) (Gav.display gav)) ranges in
        let k := {| package_coordinate := ArtifactCoord.of_gav gav (ArtifactCoord.extension c) (ArtifactCoord.classifier c);
                    workspace_module := workspace_module k; system_path := system_path k; system_sha256 := system_sha256 k;
                    direct_scope := direct_scope k; package_scope := package_scope k |} in
        let '(ranges, l) := version_packages own version ranges l in (ranges, k :: l)
      else let '(ranges, l) := version_packages own version ranges l in (ranges, k :: l)
    | None => let '(ranges, l) := version_packages own version ranges l in (ranges, k :: l)
    end
  end.

(** [with_module_versions]. *)
Definition with_module_versions (m : LockModule) (own versions : list (str * str)) : LockModule :=
  let version (path : str) := default [] (get_last path versions) in
  let gav := Gav.new (Gav.group (module_gav m)) (Gav.artifact (module_gav m)) (version (module_path m)) in
  let ranges := map (rename_model (Gav.display (module_gav m)) (Gav.display gav)) (parent_ranges m) in
  let '(ranges, ks) := version_packages own version ranges (packages m) in
  canonicalize_module {| module_path := module_path m; module_gav := gav; packaging := packaging m; packages := ks;
    edges := edges m; parent_ranges := ranges; module_support_poms := module_support_poms m |}.

(** The pairs of packages [module_drift] compares for a system file. *)
Definition system_change (left right : LockModule) : option str :=
  if bool_decide (length (packages left) = length (packages right)) then
    find_map (fun '(l, r) =>
      if bool_decide (system_path l = system_path r) && negb (bool_decide (system_sha256 l = system_sha256 r))
      then system_path l else None) (zip (packages left) (packages right))
  else None.

Definition module_change (on : Platform.t) (lhs_versions rhs_versions : list (str * str)) (left right : LockModule)
    : option ResolutionDrift :=
  if negb (bool_decide (module_path left = module_path right)) then Some (ModuleGraph on (module_path left))
  else
    match system_change left right with
    | Some path => Some (SystemFileBytes path)
    | None =>
      if negb (bool_decide (left = right))
         && negb (bool_decide (with_module_versions left lhs_versions [] = with_module_versions right rhs_versions []))
      then Some (ModuleGraph on (module_path left)) else None
    end.

(** [module_drift]. *)
Definition module_drift (lhs rhs : LockPlatform) : option ResolutionDrift :=
  if negb (bool_decide (length (modules lhs) = length (modules rhs))) then
    let left := map module_path (modules lhs) in
    let right := map module_path (modules rhs) in
    let only := List.filter (fun x => negb (bool_decide (x ∈ left /\ x ∈ right))) (sort_dedup str_cmp (left ++ right)) in
    Some (ModuleGraph (platform lhs) (default [] (head only)))
  else
    find_map (fun '(l, r) => module_change (platform lhs) (module_versions (modules lhs)) (module_versions (modules rhs)) l r)
      (zip (modules lhs) (modules rhs)).

(** ** Rows *)

(** [origin_drifted] and [checksum_drifted]. *)
Definition origin_drifted (l r : LockArtifact) (declared : str -> bool) : bool :=
  if negb (bool_decide (other_repo_urls l = other_repo_urls r)) || negb (bool_decide (pom_repo_urls l = pom_repo_urls r)) then true
  else if bool_decide (repo_url l = repo_url r) then false
  else if negb (declared (repo_url l)) || is_snapshot_version (file_version l) || is_snapshot_version (file_version r) then true
  else negb (match pin l, pin r with Some a, Some b => bool_decide (a = b) | _, _ => false end).

Definition checksum_drifted (l r : LockArtifact) : bool := negb (bool_decide (checksums l = checksums r)).

Definition row_drifted (l r : LockArtifact) (declared : str -> bool) : bool :=
  origin_drifted l r declared || negb (bool_decide (snapshot l = snapshot r))
  || negb (bool_decide (pom_build l = pom_build r)) || negb (bool_decide (pom_sha256 l = pom_sha256 r))
  || checksum_drifted l r.

(** [by_coordinate]: a map in the order of the coordinates. *)
Definition by_coordinate (p : LockPlatform) : list (ArtifactCoord.t * LockArtifact) :=
  foldl (fun m a => btree_insert ArtifactCoord.cmp (coordinate a) a m) [] (artifacts p).

Definition row_at (c : ArtifactCoord.t) (m : list (ArtifactCoord.t * LockArtifact)) : option LockArtifact :=
  snd <$> List.find (fun e => bool_decide (e.1 = c)) m.

(** [artifact_drift]. *)
Definition artifact_drift (lhs rhs : LockPlatform) (declared : str -> bool) : option ResolutionDrift :=
  let drift (c : ArtifactCoord.t) := ArtifactRow (platform lhs) (ArtifactCoord.display c) in
  let left := by_coordinate lhs in
  let right := by_coordinate rhs in
  match List.find (fun e => bool_decide (row_at e.1 left = None)) right with
  | Some added => Some (drift added.1)
  | None =>
    find_map (fun '(c, l) =>
      match row_at c right with
      | None => Some (drift c)
      | Some r => if row_drifted l r declared then Some (drift c) else None
      end) left
  end.

Definition support_differs (declared : str -> bool) (coord : str) (l r : option SupportPom) : bool :=
  match l, r with
  | Some l, Some r =>
    negb (bool_decide (sup_sha256 l = sup_sha256 r)) || negb (bool_decide (sup_snapshot l = sup_snapshot r))
    || (negb (bool_decide (sup_repo_url l = sup_repo_url r))
        && (negb (declared (sup_repo_url l))
            || is_none_or (fun '(_, _, version) => is_snapshot_version version) (split_support_pom_coord coord)))
  | _, _ => true
  end.

(** [support_pom_drift]. *)
Definition support_pom_drift (lhs rhs : LockPlatform) (declared : str -> bool) : option ResolutionDrift :=
  SupportRow (platform lhs) <$>
  List.find (fun coord => support_differs declared coord (btree_get coord (support_poms lhs)) (btree_get coord (support_poms rhs)))
    (map fst (support_poms lhs) ++ map fst (support_poms rhs)).

(** ** The whole lock *)

(** The outcomes of the conditions, by text. *)
Definition outcomes (inputs : list AmbientInput) : list (str * bool) :=
  omap (fun input => match input with Condition c holds => Some (condition_text c, holds) | _ => None end) inputs.

(** [inputs_drifted]; the map has one entry for a text. *)
Definition inputs_drifted (on_disk fresh : Lockfile) : bool :=
  let lhs := resolution_inputs (resolution on_disk) in
  let rhs := resolution_inputs (resolution fresh) in
  (bool_decide (lhs = rhs) && negb (bool_decide (config_hash on_disk = config_hash fresh)))
  || existsb (fun condition =>
       match get_last condition (outcomes lhs), get_last condition (outcomes rhs) with
       | Some holds, Some now => negb (eqb now holds)
       | _, _ => false
       end) (map fst (outcomes lhs)).

Definition profiles_drifted (lhs rhs : LockPlatform) : bool :=
  is_some_and (fun inputs =>
    is_none_or (fun fresh => negb (bool_decide (profiles inputs = profiles fresh))) (model_inputs rhs)) (model_inputs lhs).

Definition compare_platform (declared : Platform.t -> str -> bool) (lhs rhs : LockPlatform) : option ResolutionDrift :=
  if negb (bool_decide (platform lhs = platform rhs)) then Some Platforms
  else if profiles_drifted lhs rhs then Some (Profiles (platform lhs))
  else
    or_else (module_drift lhs rhs)
      (or_else (artifact_drift lhs rhs (declared (platform lhs))) (support_pom_drift lhs rhs (declared (platform lhs)))).

(** The comparison of two locks in canonical form. *)
Definition compare_locks (declared : Platform.t -> str -> bool) (a b : Lockfile) : option ResolutionDrift :=
  if inputs_drifted a b then Some Inputs
  else if negb (bool_decide (repo_ids a = repo_ids b)) then Some RepositoryIds
  else if negb (bool_decide (length (platforms a) = length (platforms b))) then Some Platforms
  else find_map (fun '(lhs, rhs) => compare_platform declared lhs rhs) (zip (platforms a) (platforms b)).

Section Drift.
Context `{UrlCrate} `{Unicode} `{Hashers}.

(** [Lockfile::resolution_drift]. *)
Definition resolution_drift (l fresh : Lockfile) (declared : Platform.t -> str -> bool) : option ResolutionDrift :=
  match canonical l, canonical fresh with
  | Ok a, Ok b => compare_locks declared a b
  | _, _ => Some Invalid
  end.
End Drift.

(** [Lockfile::adopt_module_versions]. *)
Definition adopt_platform (fresh : Lockfile) (p : LockPlatform) : LockPlatform :=
  match List.find (fun entry => bool_decide (platform entry = platform p)) (platforms fresh) with
  | None => p
  | Some found =>
    let own := module_versions (modules p) in
    let versions := own ++ module_versions (modules found) in
    {| platform := platform p; model_hash := model_hash p; artifacts := artifacts p;
       modules := map (fun m => with_module_versions m own versions) (modules p);
       support_poms := support_poms p; model_inputs := model_inputs p;
       platform_repo_ids := platform_repo_ids p; platform_host_inputs := platform_host_inputs p |}
  end.
Definition adopt_module_versions (l fresh : Lockfile) : Lockfile :=
  {| config_hash := config_hash l; resolution := resolution l;
     platforms := map (adopt_platform fresh) (platforms l); repo_ids := repo_ids l |}.

(** ** Snapshots and undeclared origins *)

(** [support_files] and [locked_files]. *)
Definition support_files (p : LockPlatform) : list (str * str) :=
  omap (fun e => (fun '(_, _, version) => (version, sup_repo_url e.2)) <$> split_support_pom_coord e.1) (support_poms p).
Definition locked_files (p : LockPlatform) : list (str * str) :=
  concat (map versioned_origins (artifacts p)) ++ support_files p.

Section Declared.
Context `{FileUrls}.

(** The shortest interval of each declared key. *)
Definition policy_ttls (o : LockOrigins) (policies : list (str * Z)) : list (str * Z) :=
  foldl (fun ttls e =>
    match declared o e.1 with
    | None => ttls
    | Some key => entry_with key (fun current => from_option (Z.min e.2) e.2 current) ttls
    end) [] policies.

(** [snapshot_refresh_due]. *)
Definition snapshot_refresh_due (files : list (str * str)) (o : LockOrigins) (age default_ttl : Z) (policies : list (str * Z)) : bool :=
  let ttls := policy_ttls o policies in
  let shortest := match map snd ttls with [] => None | t :: ts => Some (foldl Z.min t ts) end in
  existsb (fun '(version, url) =>
    resolves_through_snapshot_metadata version
    && (let ttl :=
          if is_empty url then default_ttl
          else if bool_decide (recorded_key url ∈ map fst ttls) then default default_ttl shortest
          else from_option (fun t => Z.min t default_ttl) default_ttl shortest in
        (ttl <=? age)%Z)) files.

(** The keys declared by some URLs, each with the directories that map to it. *)
Definition declare_keys (o : LockOrigins) (keys : list (str * list OriginIdentity)) (urls : list str) : list (str * list OriginIdentity) :=
  foldl (fun keys url =>
    match declared o url with
    | None => keys
    | Some key => entry_with key (fun ids => let ids := default [] ids in
        if bool_decide (origin_identity url ∈ ids) then ids else ids ++ [origin_identity url]) keys
    end) keys urls.

Definition undeclared (keys : list (str * list OriginIdentity)) (url : str) : bool :=
  let key := recorded_key url in
  match snd <$> List.find (fun e => bool_decide (e.1 = key)) keys with
  | None => true
  | Some urls => is_project_relative_origin key && (1 <? length urls)
  end.

(** [Lockfile::undeclared_origin]. *)
Definition undeclared_origin (l : Lockfile) (o : LockOrigins) (configured : list str) (per_platform : list (Platform.t * list str))
    : option str :=
  let configured_keys := declare_keys o [] configured in
  find_map (fun p =>
    let keys := declare_keys o configured_keys
      (concat (map snd (List.filter (fun e => bool_decide (e.1 = platform p)) per_platform))) in
    let artifact := List.find (undeclared keys)
      (List.filter (fun origin => negb (is_empty origin)) (concat (map origins (artifacts p)))) in
    let support := List.find (fun url => is_empty url || undeclared keys url) (map (fun e => sup_repo_url e.2) (support_poms p)) in
    or_else artifact support) (platforms l).
End Declared.

(** * What the absence of drift means

    A lock does not drift from itself, nor from the same resolution in another traversal
    order; and where [resolution_drift] finds nothing the two locks pin the same files. *)

(** ** Searches *)

Lemma or_else_None {A} (a b : option A) : or_else a b = None <-> a = None /\ b = None.
Proof. destruct a; naive_solver. Qed.

Lemma Forall_zip_Forall2 {A B} (P : A -> B -> Prop) l k :
  length l = length k -> Forall (fun '(a, b) => P a b) (zip l k) <-> Forall2 P l k.
Proof.
  revert k. induction l as [|a l IH]; intros [|b k] E; try done; cbn.
  rewrite Forall_cons, Forall2_cons, IH by (cbn in E; lia). done.
Qed.

(** ** The table of rows *)

Lemma btree_insert_elem {K V} (cmp : K -> K -> comparison) `{!TotalCmp cmp} k (v : V) m e :
  e ∈ btree_insert cmp k v m -> e = (k, v) \/ e ∈ m.
Proof.
  induction m as [|[k' v'] m IH]; cbn; [set_solver|]. destruct (cmp k k') eqn:E; set_solver.
Qed.

Lemma btree_insert_in {K V} (cmp : K -> K -> comparison) `{!TotalCmp cmp} k (v : V) m :
  (k, v) ∈ btree_insert cmp k v m.
Proof. induction m as [|[k' v'] m IH]; cbn; [left|]. destruct (cmp k k'); [left|left|by right]. Qed.

Lemma btree_insert_keep {K V} (cmp : K -> K -> comparison) `{!TotalCmp cmp} k (v : V) m k' v' :
  k' <> k -> (k', v') ∈ m -> (k', v') ∈ btree_insert cmp k v m.
Proof.
  intros Hk. induction m as [|[j w] m IH]; cbn; [by intros ?%elem_of_nil|]. destruct (cmp k j) eqn:E.
  - apply (cmp_eq (cmp:=cmp)) in E as <-. intros [[= -> ->]|Hin]%elem_of_cons; [done|by right].
  - intros Hin. by right.
  - intros [->|Hin]%elem_of_cons; [left|right; auto].
Qed.

(** With distinct coordinates the map holds exactly the rows. *)
Lemma by_coordinate_elem p c a :
  NoDup (map coordinate (artifacts p)) -> (c, a) ∈ by_coordinate p <-> a ∈ artifacts p /\ coordinate a = c.
Proof.
  unfold by_coordinate. intros Hd.
  assert (forall l m, NoDup (map coordinate l) -> (forall e, e ∈ m -> e.1 ∉ map coordinate l) ->
    forall c a, (c, a) ∈ foldl (fun m a => btree_insert ArtifactCoord.cmp (coordinate a) a m) m l <->
      (c, a) ∈ m \/ (a ∈ l /\ coordinate a = c)) as Hf.
  { clear. induction l as [|x l IH]; intros m Hd Hm c a; cbn [foldl]; [set_solver|].
    cbn in Hd. apply NoDup_cons in Hd as [Hx Hd]. rewrite IH; [|done|].
    - split.
      + intros [[[= -> ->]|Hin]%btree_insert_elem|[Hin E]]; [| |apply _|].
        * right. split; [left|done].
        * by left.
        * right. split; [by right|done].
      + intros [Hin|[[->|Hin]%elem_of_cons E]].
        * left. apply btree_insert_keep; [apply _| |done]. intros ->. apply (Hm _ Hin). cbn. by left.
        * left. subst c. apply btree_insert_in, _.
        * right. done.
    - intros e [->|Hin]%btree_insert_elem; [done| |apply _]. specialize (Hm e Hin). cbn in Hm.
      by apply not_elem_of_cons in Hm as [_ ?]. }
  rewrite Hf; [|done|by intros e ?%elem_of_nil]. split; [intros [?%elem_of_nil|?]; done|by right].
Qed.

Lemma row_at_Some p c a :
  NoDup (map coordinate (artifacts p)) -> row_at c (by_coordinate p) = Some a <-> a ∈ artifacts p /\ coordinate a = c.
Proof.
  intros Hd. unfold row_at. split.
  - intros ([c' a'] & Hf & ->)%fmap_Some. apply find_some in Hf as [Hin E]. cbn in E. apply bool_decide_eq_true in E as ->.
    by apply by_coordinate_elem; [|apply list_elem_of_In].
  - intros [Hin <-]. destruct (List.find _ _) as [[c a']|] eqn:Ef.
    + apply find_some in Ef as [Hin' E]. cbn in E. apply bool_decide_eq_true in E as ->. cbn. f_equal.
      apply list_elem_of_In, (by_coordinate_elem p) in Hin' as [Hin' E]; [|done].
      apply list_elem_of_lookup in Hin as (i & Hi), Hin' as (j & Hj).
      assert (i = j) as <-; [|congruence]. eapply (NoDup_lookup _ i j (coordinate a)); [exact Hd|..].
      * by apply (list_lookup_fmap_Some_2 coordinate).
      * rewrite <-E. by apply (list_lookup_fmap_Some_2 coordinate).
    + exfalso. apply find_None in Ef. rewrite Forall_forall in Ef.
      specialize (Ef (coordinate a, a) (proj2 (by_coordinate_elem p _ a Hd) (conj Hin eq_refl))). cbn in Ef.
      by apply bool_decide_eq_false in Ef.
Qed.

(** ** What is compared *)

(** Two rows of one coordinate that pin the same file: equal digests, build and companion
    POM, from the same repository or, for a release, from one the caller accepts. *)
Record same_row (declared : str -> bool) (l r : LockArtifact) : Prop := {
  sr_checksums : checksums l = checksums r;
  sr_snapshot : snapshot l = snapshot r;
  sr_pom_build : pom_build l = pom_build r;
  sr_pom : pom_sha256 l = pom_sha256 r;
  sr_other : other_repo_urls l = other_repo_urls r /\ pom_repo_urls l = pom_repo_urls r;
  sr_origin : repo_url l = repo_url r \/
    (declared (repo_url l) = true /\ is_snapshot_version (file_version l) = false /\ pin l <> None);
}.

Lemma row_drifted_false l r declared : row_drifted l r declared = false <-> 
  same_row declared l r /\ (repo_url l = repo_url r \/ is_snapshot_version (file_version r) = false).
Proof.
  unfold row_drifted, checksum_drifted. rewrite !orb_false_iff, !negb_false_iff, !bool_decide_eq_true. split.
  - intros ((((Ho & Hs) & Hb) & Hp) & Hc). unfold origin_drifted in Ho.
    destruct (negb (bool_decide (other_repo_urls l = _)) || _) eqn:E; [done|].
    apply orb_false_iff in E as [E1 E2]. rewrite negb_false_iff, bool_decide_eq_true in E1, E2.
    case_bool_decide as Eu; [by split; [constructor; auto|left]|].
    destruct (negb (declared _) || _ || _) eqn:Ed; [done|]. apply orb_false_iff in Ed as [Ed Er]. apply orb_false_iff in Ed as [Ed El].
    apply negb_false_iff in Ed, Ho. split; [|by right]. constructor; try done. right. split_and!; try done.
    by destruct (pin l).
  - intros [[Hc Hs Hb Hp [H1 H2] Hu] Hr]. split_and!; try done. unfold origin_drifted.
    rewrite H1, H2, !bool_decide_eq_true_2 by done. cbn. case_bool_decide as Eu; [done|].
    destruct Hu as [?|(Hd & Hl & Hn)]; [done|]. destruct Hr as [?|Hr]; [done|]. rewrite Hd, Hl, Hr. cbn.
    unfold pin in *. rewrite Hc in Hn |- *. destruct (match List.find _ (checksums r) with Some c => Some c | None => _ end) as [d|]; [|done].
    by rewrite bool_decide_eq_true_2.
Qed.

Lemma artifact_drift_None lhs rhs declared :
  NoDup (map coordinate (artifacts lhs)) -> NoDup (map coordinate (artifacts rhs)) ->
  artifact_drift lhs rhs declared = None <->
  (forall b, b ∈ artifacts rhs -> exists a, a ∈ artifacts lhs /\ coordinate a = coordinate b) /\
  (forall a, a ∈ artifacts lhs -> exists b, b ∈ artifacts rhs /\ coordinate b = coordinate a /\ row_drifted a b declared = false).
Proof.
  intros Hl Hr. unfold artifact_drift. destruct (List.find _ (by_coordinate rhs)) as [[c b]|] eqn:Ef.
  - split; [done|]. intros [Hb _]. exfalso. apply find_some in Ef as [Hin%list_elem_of_In E]. cbn in E. apply bool_decide_eq_true in E.
    apply (by_coordinate_elem rhs) in Hin as [Hin <-]; [|done]. destruct (Hb b Hin) as (a & Ha).
    by rewrite (proj2 (row_at_Some lhs _ a Hl) Ha) in E.
  - apply find_None in Ef. rewrite Forall_forall in Ef. rewrite find_map_None, Forall_forall. split.
    + intros Hm. split.
      * intros b Hb. specialize (Ef (coordinate b, b) (proj2 (by_coordinate_elem rhs _ b Hr) (conj Hb eq_refl))).
        cbn in Ef. apply bool_decide_eq_false, not_eq_None_Some in Ef as [a Ea]. exists a. by apply row_at_Some in Ea.
      * intros a Ha. specialize (Hm (coordinate a, a) (proj2 (by_coordinate_elem lhs _ a Hl) (conj Ha eq_refl))). cbn in Hm.
        destruct (row_at (coordinate a) (by_coordinate rhs)) as [b|] eqn:Eb; [|done]. apply row_at_Some in Eb as [Hb Ec]; [|done].
        exists b. split_and!; try done. by destruct (row_drifted a b declared).
    + intros [_ Ha] [c a] Hin. apply (by_coordinate_elem lhs) in Hin as [Hin <-]; [|done]. destruct (Ha a Hin) as (b & Hb & Ec & Er).
      rewrite (proj2 (row_at_Some rhs (coordinate a) b Hr)) by done. by rewrite Er.
Qed.

(** Two support POMs of one coordinate that pin the same file. *)
Record same_support (declared : str -> bool) (coord : str) (l r : SupportPom) : Prop := {
  ss_sha256 : sup_sha256 l = sup_sha256 r;
  ss_snapshot : sup_snapshot l = sup_snapshot r;
  ss_origin : sup_repo_url l = sup_repo_url r \/ declared (sup_repo_url l) = true;
}.

Lemma support_differs_false declared coord l r : support_differs declared coord l r = false ->
  exists x y, l = Some x /\ r = Some y /\ same_support declared coord x y.
Proof.
  destruct l as [x|], r as [y|]; try done. cbn. rewrite !orb_false_iff, !negb_false_iff, !bool_decide_eq_true.
  intros [[H1 H2] H3]. exists x, y. split_and!; try done. constructor; try done.
  apply andb_false_iff in H3 as [H3|H3]; [left; by apply negb_false_iff, bool_decide_eq_true in H3|].
  apply orb_false_iff in H3 as [H3 _]. right. by apply negb_false_iff in H3.
Qed.

(** Modules that differ at most in the versions of the reactor. *)
Definition same_module (vl vr : list (str * str)) (l r : LockModule) : Prop :=
  module_path l = module_path r /\ (l = r \/ with_module_versions l vl [] = with_module_versions r vr []).

Record same_platform (declared : str -> bool) (l r : LockPlatform) : Prop := {
  sp_platform : platform l = platform r;
  sp_profiles : forall i, model_inputs l = Some i -> exists j, model_inputs r = Some j /\ profiles i = profiles j;
  sp_modules : Forall2 (same_module (module_versions (modules l)) (module_versions (modules r))) (modules l) (modules r);
  sp_added : forall b, b ∈ artifacts r -> exists a, a ∈ artifacts l /\ coordinate a = coordinate b;
  sp_rows : forall a, a ∈ artifacts l -> exists b, b ∈ artifacts r /\ coordinate b = coordinate a /\ same_row declared a b;
  sp_support : forall coord, coord ∈ map fst (support_poms l) \/ coord ∈ map fst (support_poms r) ->
    exists x y, btree_get coord (support_poms l) = Some x /\ btree_get coord (support_poms r) = Some y /\
      same_support declared coord x y;
}.

Lemma compare_platform_None declared l r :
  platform_wf l -> platform_wf r -> compare_platform declared l r = None -> same_platform (declared (platform l)) l r.
Proof.
  intros Hl Hr. unfold compare_platform. case_bool_decide as Ep; [|done]. cbn [negb].
  destruct (profiles_drifted l r) eqn:Ef; [done|]. rewrite !or_else_None. intros (Hm & Ha & Hs).
  apply artifact_drift_None in Ha as [Hadd Hrows]; [|apply Hl|apply Hr].
  constructor; try done.
  - intros i Ei. unfold profiles_drifted in Ef. rewrite Ei in Ef. cbn in Ef. destruct (model_inputs r) as [j|]; [|done].
    cbn in Ef. exists j. by apply negb_false_iff, bool_decide_eq_true in Ef.
  - unfold module_drift in Hm. case_bool_decide as El; [|done]. cbn [negb] in Hm. apply find_map_None in Hm.
    apply Forall_zip_Forall2; [done|]. eapply Forall_impl; [exact Hm|]. intros [x y] Hx. unfold module_change in Hx.
    case_bool_decide as Exy; [|done]. cbn [negb] in Hx. destruct (system_change x y); [done|]. split; [done|].
    destruct (decide (x = y)) as [?|Hn]; [by left|]. right. rewrite (bool_decide_eq_false_2 (x = y)) in Hx by done. cbn in Hx.
    by case_bool_decide.
  - intros a Hin. destruct (Hrows a Hin) as (b & Hb & Ec & Er). exists b. split_and!; try done. by apply row_drifted_false in Er as [Er _].
  - intros coord Hc. unfold support_pom_drift in Hs. apply fmap_None, find_None in Hs. rewrite Forall_forall in Hs.
    apply support_differs_false, Hs, elem_of_app, Hc.
Qed.

Section Drift.
Context `{UrlCrate} `{Unicode} `{Hashers}.

Lemma canonical_Ok l c : canonical l = Ok c <-> c = canonical_form l /\ check_lock c = Ok tt.
Proof. unfold canonical. rewrite seq_Ok. naive_solver. Qed.

(** C27: where [resolution_drift] finds no difference the lock pins what the fresh
    resolution found: both have a canonical form, with the same repository ids and the
    same platforms in the same order; on each platform the same profiles, the same
    modules up to the versions of the reactor's own modules, a row for each row with
    the same digests, build and companion POM, and the same pin for each support POM;
    an origin differs only where the caller accepts the recorded one. *)
Theorem no_drift_same_files l fresh declared :
  resolution_drift l fresh declared = None ->
  exists a b, canonical l = Ok a /\ canonical fresh = Ok b /\ repo_ids a = repo_ids b /\
    (resolution_inputs (resolution a) = resolution_inputs (resolution b) -> config_hash a = config_hash b) /\
    Forall2 (fun p q => same_platform (declared (platform p)) p q) (platforms a) (platforms b).
Proof.
  unfold resolution_drift. destruct (canonical l) as [a|] eqn:Ea; [|done]. destruct (canonical fresh) as [b|] eqn:Eb; [|done].
  intros E. exists a, b. split; [done|]. split; [done|]. unfold compare_locks in E.
  destruct (inputs_drifted a b) eqn:Ei; [done|]. case_bool_decide as Er; [|done]. case_bool_decide as El; [|done]. cbn [negb] in E.
  split; [done|]. split.
  - intros Eq. unfold inputs_drifted in Ei. apply orb_false_iff in Ei as [Ei _]. rewrite Eq, bool_decide_eq_true_2 in Ei by done.
    by apply negb_false_iff, bool_decide_eq_true in Ei.
  - apply canonical_Ok in Ea as [_ Ca%check_lock_wf]. apply canonical_Ok in Eb as [_ Cb%check_lock_wf].
    apply find_map_None in E.
    assert (Forall2 (fun p q => compare_platform declared p q = None) (platforms a) (platforms b)) as E'
      by (apply Forall_zip_Forall2; [done|]; eapply Forall_impl; [exact E|]; by intros [x y]).
    clear -E' Ca Cb. induction E' as [|p q ps qs Hp Hf IH]; [constructor|]. apply Forall_cons in Ca as [Wp Ca], Cb as [Wq Cb].
    constructor; [by apply compare_platform_None|by apply IH].
Qed.

(** ** A lock does not drift from itself *)

Lemma compare_platform_refl declared p : platform_wf p -> compare_platform declared p p = None.
Proof.
  intros Hp. unfold compare_platform. rewrite bool_decide_eq_true_2 by done. cbn [negb].
  assert (profiles_drifted p p = false) as ->.
  { unfold profiles_drifted. destruct (model_inputs p); [|done]. cbn. by rewrite bool_decide_eq_true_2. }
  apply or_else_None. split; [|apply or_else_None; split].
  - unfold module_drift. rewrite bool_decide_eq_true_2 by done. cbn [negb]. apply find_map_None.
    set (vs := module_versions (modules p)). clearbody vs. clear Hp. induction (modules p) as [|m l IH]; [constructor|].
    constructor; [|done]. unfold module_change. rewrite !bool_decide_eq_true_2 by done. cbn [negb andb].
    assert (system_change m m = None) as ->; [|done]. unfold system_change. rewrite bool_decide_eq_true_2 by done.
    apply find_map_None. clear. induction (packages m) as [|k l IH]; [constructor|]. constructor; [|done].
    by rewrite !bool_decide_eq_true_2 by done.
  - apply artifact_drift_None; [apply Hp..|]. split; [by intros b Hb; exists b|]. intros a Ha. exists a. split_and!; try done.
    apply row_drifted_false. split; [|by left]. constructor; auto.
  - unfold support_pom_drift. apply fmap_None, find_None, Forall_forall. intros coord Hc.
    assert (is_Some (btree_get coord (support_poms p))) as [x Ex].
    { unfold btree_get. apply fmap_is_Some. destruct (List.find _ _) eqn:E; [eauto|]. exfalso. apply find_None in E.
      rewrite Forall_forall in E. assert (coord ∈ map fst (support_poms p)) as (e & -> & He)%list_elem_of_fmap by set_solver.
      specialize (E e He). by apply bool_decide_eq_false in E. }
    rewrite Ex. cbn. by rewrite !bool_decide_eq_true_2 by done.
Qed.

Lemma compare_locks_refl declared a : check_lock a = Ok tt -> compare_locks declared a a = None.
Proof.
  intros Ha%check_lock_wf. unfold compare_locks.
  assert (inputs_drifted a a = false) as ->.
  { unfold inputs_drifted. rewrite !bool_decide_eq_true_2 by done. cbn [negb andb orb].
    apply not_true_iff_false. intros (c & _ & Hc)%existsb_exists. destruct (get_last c _) as [[]|]; done. }
  rewrite !bool_decide_eq_true_2 by done. cbn [negb]. apply find_map_None.
  induction Ha as [|p ps Hp Hf IH]; [constructor|]. constructor; [by apply compare_platform_refl|done].
Qed.
End Drift.

(** ** A lock of one module and two rows *)

Definition drift_coord (artifact : str) : ArtifactCoord.t := ArtifactCoord.new $"g" artifact $"1.0" $"jar" None.

Definition drift_row (url artifact : str) : LockArtifact := {|
  coordinate := drift_coord artifact; repo_url := url; other_repo_urls := [];
  checksums := [{| algorithm := Sha256; hex := repeat "a"%char 64 |}]; snapshot := None; pom_snapshot := None;
  pom_base := false; pom_sha256 := None; pom_repo_urls := [] |}.

Definition drift_package (artifact : str) : LockModulePackage := {|
  package_coordinate := drift_coord artifact; workspace_module := None; system_path := None; system_sha256 := None;
  direct_scope := None; package_scope := LockScope.Compile |}.

(** The packages and rows in the order of [names], and an edge between the indices [i] and [j]. *)
Definition drift_lock (version url : str) (names : list str) (i j : nat) : Lockfile := lock_of (Some $"h") [{|
  platform := {| Platform.os := $"linux"; Platform.arch := $"x86_64"; Platform.jdk := None |};
  model_hash := repeat "0"%char 64; artifacts := map (drift_row url) names;
  modules := [{| module_path := $"pom.xml"; module_gav := Gav.new $"g" $"app" version; packaging := $"jar";
    packages := map drift_package names; edges := [{| from := i; to := j; edge_scope := None; optional := false |}];
    parent_ranges := []; module_support_poms := [] |}];
  support_poms := []; model_inputs := None; platform_repo_ids := None; platform_host_inputs := None |}].

(** Another version of the module and another origin the caller accepts are no drift. *)
Lemma no_drift_same_files_witness :
  let l := drift_lock $"1" $"https://nexus.corp/m2" [$"a"; $"b"] 0 1 in
  let fresh := drift_lock $"2" $"https://cdn.example/m2" [$"b"; $"a"] 1 0 in
  exists a b, @canonical Sample.crate ascii_tables prefix_hashers l = Ok a /\
    @canonical Sample.crate ascii_tables prefix_hashers fresh = Ok b /\ repo_ids a = repo_ids b /\
    (resolution_inputs (resolution a) = resolution_inputs (resolution b) -> config_hash a = config_hash b) /\
    Forall2 (fun p q => same_platform (fun _ => true) p q) (platforms a) (platforms b).
Proof.
  cbn zeta. apply (@no_drift_same_files Sample.crate ascii_tables prefix_hashers _ _ (fun _ _ => true)). by vm_compute.
Defined.
