(* ===== verification/LockOrder.v ===== *)
(** * The order of a traversal is no drift

    Two locks of one resolution whose platforms, modules, rows and packages are listed in
    another order have one canonical form, so [resolution_drift] finds nothing. *)

From Stdlib Require Import Ascii String Lia.
From stdpp Require Import base list strings gmap sorting.
From S2P Require Import Prelude Iter Str Version Range Component Coordinates Snapshot Layout Digest Url Redact Repository LockText Ambient LockRows LockLines LockInputs LockMerge LockOrigin LockCheck LockCheckFacts LockDrift.

#[local] Set Warnings "-clear-no-such-hyp".

(** ** Names of platforms *)

Definition platform_valid (p : Platform.t) : Prop :=
  Platform.valid (Platform.os p) = true /\ Platform.valid (Platform.arch p) = true.

Lemma valid_free (token : str) (c : ascii) : Platform.valid token = true -> is_alnum c = false -> c <> "_"%char -> c ∉ token.
Proof.
  unfold Platform.valid. intros [_ Hf]%andb_true_iff Hc Hu Hin. rewrite forallb_forall in Hf.
  apply list_elem_of_In, Hf, orb_true_iff in Hin as [?|E]; [congruence|]. by apply bool_decide_eq_true in E.
Qed.

Lemma split_once_inj (c : ascii) (a b r s : str) : c ∉ a -> c ∉ b -> a ++ c :: r = b ++ c :: s -> a = b /\ r = s.
Proof.
  intros Ha Hb E. pose proof (proj2 (split_once_Some c _ a r) (conj eq_refl Ha)) as E1.
  rewrite E, (proj2 (split_once_Some c _ b s) (conj eq_refl Hb)) in E1. by injection E1.
Qed.

Lemma display_inj p q : platform_valid p -> platform_valid q -> Platform.display p = Platform.display q -> p = q.
Proof.
  destruct p as [o a j], q as [o' a' j']. unfold platform_valid, Platform.display. cbn. intros [Ho Ha] [Ho' Ha'] E.
  assert (forall t, Platform.valid t = true -> "-"%char ∉ t /\ " "%char ∉ t) as Hf
    by (intros t Ht; split; by eapply valid_free).
  destruct (Hf o Ho) as [Do _], (Hf o' Ho') as [Do' _], (Hf a Ha) as [_ Sa], (Hf a' Ha') as [_ Sa'].
  destruct j as [j|], j' as [j'|].
  - apply (split_once_inj "-"%char) in E as [-> E]; [|done..]. apply (split_once_inj " "%char) in E as [-> E]; [|done..].
    apply (app_inv_head $"(JDK ") in E. by apply app_inv_tail in E as ->.
  - apply (split_once_inj "-"%char) in E as [-> E]; [|done..]. exfalso. apply Sa'. rewrite <-E. cbn in *. set_solver.
  - apply (split_once_inj "-"%char) in E as [-> E]; [|done..]. exfalso. apply Sa. rewrite E. cbn in *. set_solver.
  - by apply (split_once_inj "-"%char) in E as [-> ->].
Qed.

(** ** Sorting and maps *)

Lemma sort_by_map {A B K} (f : A -> B) (key : A -> K) (key' : B -> K) cmp l :
  (forall a, key' (f a) = key a) ->
  map f (sort_by (leb_of (fun a b => cmp (key a) (key b))) l)
  = sort_by (leb_of (fun a b => cmp (key' a) (key' b))) (map f l).
Proof.
  intros Hk. unfold sort_by. induction l as [|x l IH]; [done|]. cbn [map foldr]. rewrite <-IH.
  generalize (foldr (insert_by (leb_of (fun a b => cmp (key a) (key b)))) [] l). intros k.
  induction k as [|y k IHk]; [done|]. cbn [map insert_by]. unfold leb_of at 1 3. rewrite !Hk.
  destruct (cmp (key x) (key y)); [done..|]. cbn [map]. by rewrite IHk.
Qed.

Lemma NoDup_map_inj {A K} (key : A -> K) l x y :
  NoDup (map key l) -> x ∈ l -> y ∈ l -> key x = key y -> x = y.
Proof.
  intros Hd (i & Hi)%list_elem_of_lookup (j & Hj)%list_elem_of_lookup E.
  assert (i = j) as <-; [|congruence]. eapply (NoDup_lookup _ i j (key x)); [exact Hd|..].
  - by apply (list_lookup_fmap_Some_2 key).
  - rewrite E. by apply (list_lookup_fmap_Some_2 key).
Qed.

Lemma Forall2_map_eq {A B} (f : A -> B) (R : A -> A -> Prop) l k :
  Forall2 R l k -> (forall a b, a ∈ l -> R a b -> f b = f a) -> map f k = map f l.
Proof.
  induction 1 as [|a b l k Hab Hf IH]; intros Hr; [done|]. cbn. rewrite (Hr a b) by (done || left).
  f_equal. apply IH. intros x y Hx. apply Hr. by right.
Qed.

(** ** Platforms in another order *)

Record reordered_platform (p q : LockPlatform) : Prop := {
  rp_platform : platform q = platform p;
  rp_hash : model_hash q = model_hash p;
  rp_support : support_poms q = support_poms p;
  rp_inputs : model_inputs q = model_inputs p;
  rp_ids : platform_repo_ids q = platform_repo_ids p;
  rp_host : platform_host_inputs q = platform_host_inputs p;
  rp_artifacts : artifacts q ≡ₚ artifacts p;
  rp_modules : exists ms, modules q ≡ₚ ms /\ Forall2 (fun m m' => exists f, renumbered f m m') (modules p) ms;
}.

Definition graph_ok (m : LockModule) : Prop := NoDup (packages m) /\ edges_in_range m.

Lemma canonicalize_reordered p q :
  NoDup (map module_path (modules p)) -> NoDup (map coordinate (artifacts p)) -> Forall graph_ok (modules p) ->
  reordered_platform p q -> canonicalize_platform q = canonicalize_platform p.
Proof.
  intros Hp Ha Hg [E1 E2 E3 E4 E5 E6 Pa (ms & Pm & Fm)]. unfold canonicalize_platform. rewrite E1, E2, E3, E4, E5, E6.
  assert (map canonicalize_module ms = map canonicalize_module (modules p)) as Em.
  { apply (Forall2_map_eq _ _ _ _ Fm). intros m m' Hm [f Hf]. rewrite Forall_forall in Hg. destruct (Hg m Hm).
    by apply (canonicalize_renumbered f). }
  assert (map module_path ms = map module_path (modules p)) as Ep
    by (apply (Forall2_map_eq _ _ _ _ Fm); intros m m' _ [f Hf]; apply (rn_path _ _ _ Hf)).
  f_equal.
  - f_equal. apply (sort_by_unique coordinate ArtifactCoord.cmp); [done|]. intros x y. rewrite Pa. by apply NoDup_map_inj.
  - rewrite (sort_by_unique module_path str_cmp _ ms Pm).
    + rewrite !(sort_by_map canonicalize_module module_path module_path str_cmp) by done. by rewrite Em.
    + intros x y. rewrite Pm. apply NoDup_map_inj. by rewrite Ep.
Qed.

(** ** Locks in another order *)

Record reordered (l fresh : Lockfile) : Prop := {
  ro_hash : config_hash fresh = config_hash l;
  ro_resolution : resolution fresh = resolution l;
  ro_ids : repo_ids fresh = repo_ids l;
  ro_platforms : exists ps, platforms fresh ≡ₚ ps /\ Forall2 reordered_platform (platforms l) ps;
}.

Section Order.
Context `{UrlCrate} `{Unicode} `{Hashers}.

Lemma canonical_modules l p :
  modules (canonical_platform l p) = modules (canonicalize_platform p) /\
  artifacts (canonical_platform l p) = artifacts (canonicalize_platform p) /\
  platform (canonical_platform l p) = platform p.
Proof. unfold canonical_platform. by destruct (model_inputs p). Qed.

Lemma edges_in_range_back m : edges_in_range (canonicalize_module m) -> edges_in_range m.
Proof.
  unfold edges_in_range. rewrite canonicalize_edges, canonicalize_packages.
  rewrite (Permutation_length (sort_cmp_perm package_cmp (packages m))), !Forall_forall. intros He e Hin.
  destruct (He (rename_edge (remapped (module_remap m)) e)) as [Hf Ht].
  { rewrite sort_cmp_perm. apply list_elem_of_fmap. by exists e. }
  assert (forall i, remapped (module_remap m) i < length (packages m) -> i < length (packages m)) as Hr.
  { intros i Hi. destruct (decide (i < length (packages m))) as [?|Hn]; [done|]. unfold remapped in Hi.
    rewrite lookup_ge_None_2 in Hi; [done|]. rewrite remap_length. lia. }
  cbn in Hf, Ht. by split; apply Hr.
Qed.

Lemma canonical_wf_back l p : platform_wf (canonical_platform l p) ->
  NoDup (map module_path (modules p)) /\ NoDup (map coordinate (artifacts p)) /\ Forall graph_ok (modules p).
Proof.
  destruct (canonical_modules l p) as (Em & Ea & _). intros [_ Hp _ Hr _ Hw _]. rewrite Em in Hp, Hw. rewrite Ea in Hr.
  unfold canonicalize_platform in *. cbn [modules artifacts] in *. rewrite map_map in Hp. rewrite map_map in Hr. cbn in Hp, Hr.
  rewrite sort_by_perm in Hp. rewrite sort_by_perm in Hr. split_and!; [done..|].
  apply Forall_forall. intros m Hm. rewrite Forall_forall in Hw.
  destruct (Hw (canonicalize_module m)) as [Hk He _ _].
  { apply list_elem_of_fmap. exists m. split; [done|]. by rewrite sort_by_perm. }
  split; [|by apply edges_in_range_back]. rewrite canonicalize_packages, sort_cmp_perm in Hk. by apply NoDup_fmap_1 in Hk.
Qed.

Lemma canonical_platform_reordered l fresh p q :
  reordered l fresh -> platform_wf (canonical_platform l p) -> reordered_platform p q ->
  canonical_platform fresh q = canonical_platform l p.
Proof.
  intros [E1 E2 E3 _] (Hp & Ha & Hg)%canonical_wf_back Hr. pose proof (canonicalize_reordered p q Hp Ha Hg Hr) as Ec.
  unfold canonical_platform. rewrite Ec, (rp_inputs _ _ Hr), (rp_hash _ _ Hr), E1, E2, E3. done.
Qed.

Lemma canonical_form_reordered l fresh :
  Forall (fun p => platform_valid (platform p)) (platforms l) -> check_lock (canonical_form l) = Ok tt ->
  reordered l fresh -> canonical_form fresh = canonical_form l.
Proof.
  intros Hv Hc Hr. pose proof Hr as [E1 E2 E3 (ps & Pp & Fp)]. unfold canonical_form at 1 2. rewrite E1, E2, E3. f_equal.
  pose proof (check_lock_wf _ Hc) as Hw. unfold canonical_form in Hw. cbn [platforms] in Hw.
  assert (map (canonical_platform fresh) ps = map (canonical_platform l) (platforms l)) as Em.
  { clear Pp E1 E2 E3. assert (forall p, p ∈ platforms l -> platform_wf (canonical_platform l p)) as Hwf.
    { intros p Hp. rewrite Forall_forall in Hw. apply Hw, list_elem_of_fmap. exists p. split; [done|].
      unfold sort_platforms. by rewrite sort_by_perm. }
    clear Hw Hv Hc. revert Hwf. induction Fp as [|p q ps0 ps' Hpq Hf IH]; intros Hwf; [done|]. cbn. f_equal.
    - apply canonical_platform_reordered; [done| |done]. apply Hwf. by left.
    - apply IH. intros p' Hp'. apply Hwf. by right. }
  assert (NoDup (map platform (platforms l))) as Hd.
  { unfold check_lock, validate in Hc. rewrite !seq_Ok, refuse_Ok, first_repeat_None in Hc. destruct Hc as (_ & _ & _ & [Hd _] & _).
    unfold canonical_form in Hd. cbn [platforms] in Hd. rewrite map_map in Hd.
    rewrite (map_ext _ platform) in Hd by (intros p; apply canonical_modules).
    unfold sort_platforms in Hd. by rewrite sort_by_perm in Hd. }
  unfold sort_platforms.
  rewrite !(sort_by_map (canonical_platform _) (fun p => Platform.display (platform p)) (fun p => Platform.display (platform p)) str_cmp)
    by (intros p; f_equal; apply canonical_modules).
  apply (sort_by_unique (fun p => Platform.display (platform p)) str_cmp).
  - by rewrite Pp, Em.
  - intros x y. rewrite Pp, Em. intros (p & -> & Hp)%list_elem_of_fmap (q & -> & Hq)%list_elem_of_fmap E.
    rewrite !(proj2 (proj2 (canonical_modules l _))) in E. rewrite Forall_forall in Hv.
    apply display_inj in E; [|by apply Hv..]. by rewrite (NoDup_map_inj platform _ p q Hd Hp Hq E).
Qed.

(** C26: the order in which a resolution lists its platforms, modules, rows and packages
    is no drift: a lock that can be written does not drift from a fresh one that lists
    the same graph in any other order, with its edges renumbered to match. *)
Theorem traversal_order_no_drift l fresh declared :
  Forall (fun p => platform_valid (platform p)) (platforms l) -> is_ok (canonical l) = true ->
  reordered l fresh -> resolution_drift l fresh declared = None.
Proof.
  intros Hv Hc Hr. destruct (canonical l) as [c|] eqn:Ec; [|done]. apply canonical_Ok in Ec as [-> Hk].
  pose proof (canonical_form_reordered l fresh Hv Hk Hr) as Ef. unfold resolution_drift, canonical. rewrite Ef, Hk. cbn.
  by apply compare_locks_refl.
Qed.
End Order.

(** ** Packages found in another order *)

Lemma traversal_order_no_drift_witness :
  @resolution_drift Sample.crate ascii_tables prefix_hashers
    (drift_lock $"1" $"https://nexus.corp/m2" [$"a"; $"b"] 0 1)
    (drift_lock $"1" $"https://nexus.corp/m2" [$"b"; $"a"] 1 0) (fun _ _ => false) = None.
Proof.
  apply (@traversal_order_no_drift Sample.crate ascii_tables prefix_hashers).
  - apply Forall_cons. split; [by split; vm_compute|apply Forall_nil_2].
  - by vm_compute.
  - constructor; try done. eexists. split; [reflexivity|]. apply Forall2_cons. split; [|apply Forall2_nil_2].
    constructor; try done; [apply perm_swap|]. eexists. split; [reflexivity|]. apply Forall2_cons. split; [|apply Forall2_nil_2].
    exists (fun i => 1 - i). constructor; try done. intros [|[|i]] p Hi; cbn in *; try done; by destruct i.
Defined.
