(* ===== verification/LockCodecFacts.v ===== *)
(** * A lock reads back as it was written

    The raw tables that a lock in canonical form is written as decode to that lock.  Each
    part has its own round trip ([artifact_back], [supports_back], [ids_back],
    [poms_back], [resolution_back]); the platforms that share a graph are split again by
    [graphs_back]; and the checks that [canonical] makes give the conditions of the parts
    ([canonical_written]).  [lock_typed] is what the Rust types hold, [lock_readable] what
    only the reader tests: a lock reads back exactly when it satisfies that
    ([decode_written], [decode_readable]). *)

From Stdlib Require Import Ascii String Lia ZArith.
From stdpp Require Import base list strings gmap sorting.
From S2P Require Import Prelude Iter Str Version Range Component Coordinates Snapshot Layout Digest Url Redact Repository LockText Ambient LockRows LockLines LockInputs LockMerge LockOrigin LockCheck LockCheckFacts LockDrift LockOrder LockCodec.

#[local] Set Warnings "-clear-no-such-hyp".

(** ** Texts *)

Definition is_cont (c : ascii) : bool := (128 <=? code c)%N && (code c <? 192)%N.

(** The shape of UTF-8, which every [str] has. *)
Fixpoint utf8 (s : str) : bool :=
  match s with
  | [] => true
  | a :: s1 =>
    if (code a <? 128)%N then utf8 s1
    else if (code a <? 192)%N then false
    else match s1 with
    | [] => false
    | b :: s2 =>
      is_cont b &&
      if (code a <? 224)%N then utf8 s2
      else match s2 with
      | [] => false
      | c :: s3 =>
        is_cont c &&
        if (code a <? 240)%N then utf8 s3
        else match s3 with [] => false | d :: s4 => is_cont d && utf8 s4 end
      end
    end
  end.

(** An ASCII byte of a text is a character of it. *)
Lemma utf8_byte (c : ascii) (s : str) : utf8 s = true -> (code c < 128)%N -> c ∈ s -> code c ∈ chars s.
Proof.
  intros Hs Hc. revert Hs. remember (length s) as n eqn:En. revert s En.
  induction n as [n IH] using lt_wf_ind. intros s -> Hs Hin.
  assert (forall b, is_cont b = true -> c <> b) as Hb
    by (intros b Hb ->; unfold is_cont in Hb; apply andb_true_iff in Hb as [Hb _]; apply N.leb_le in Hb; lia).
  destruct s as [|a s1]; [by apply not_elem_of_nil in Hin|]. cbn [utf8 chars] in *.
  destruct (N.ltb_spec (code a) 128) as [Ha|Ha].
  - rewrite (proj2 (N.ltb_lt (code a) 192)) by lia. apply elem_of_cons in Hin as [->|Hin]; [left|right]. apply (IH (length s1)); [cbn; lia|done..].
  - destruct (N.ltb_spec (code a) 192) as [|Ha']; [done|]. assert (c <> a) as Hca by (intros ->; lia).
    apply elem_of_cons in Hin as [->|Hin]; [done|].
    destruct s1 as [|b s2]; [done|]. apply andb_true_iff in Hs as [Hb1 Hs]. apply elem_of_cons in Hin as [->|Hin]; [by apply Hb in Hb1|].
    destruct (code a <? 224)%N; [right; apply (IH (length s2)); [cbn; lia|done..]|].
    destruct s2 as [|d s3]; [done|]. apply andb_true_iff in Hs as [Hb2 Hs]. apply elem_of_cons in Hin as [->|Hin]; [by apply Hb in Hb2|].
    destruct (code a <? 240)%N; [right; apply (IH (length s3)); [cbn; lia|done..]|].
    destruct s3 as [|e s4]; [done|]. apply andb_true_iff in Hs as [Hb3 Hs]. apply elem_of_cons in Hin as [->|Hin]; [by apply Hb in Hb3|].
    right. apply (IH (length s4)); [cbn; lia|done..].
Qed.

Lemma terminal_line_free s : utf8 s = true -> is_terminal_safe s = true -> line_free s.
Proof.
  intros Hu Hs. unfold is_terminal_safe in Hs. apply negb_true_iff in Hs.
  assert (forall c, (code c < 128)%N -> is_unsafe_char (code c) = true -> c ∉ s) as Hf; [|by split; apply Hf].
  intros c Hc Hx Hin%(utf8_byte c s Hu Hc). apply not_true_iff_false in Hs. apply Hs, existsb_exists.
  exists (code c). split; [by apply list_elem_of_In|done].
Qed.

(** ** Sets and maps built in order *)

Abbreviation ascending cmp := (StronglySorted (fun a b => cmp a b = Lt)).

Section Ordered.
Context {K : Type} (cmp : K -> K -> comparison) (Hsym : forall a b, cmp b a = CompOpp (cmp a b)).

Lemma cmp_gt_of_lt a b : cmp a b = Lt -> cmp b a = Gt.
Proof. intros E. by rewrite Hsym, E. Qed.

Lemma set_insert_last s k : Forall (fun a => cmp a k = Lt) s -> set_insert cmp k s = (true, s ++ [k]).
Proof. induction 1 as [|a s Ha Hs IH]; [done|]. cbn. by rewrite (cmp_gt_of_lt _ _ Ha), IH. Qed.

Lemma btree_insert_last {V} (m : list (K * V)) k v :
  Forall (fun e => cmp e.1 k = Lt) m -> btree_insert cmp k v m = m ++ [(k, v)].
Proof. induction 1 as [|[a w] m Ha Hm IH]; [done|]. cbn in *. by rewrite (cmp_gt_of_lt _ _ Ha), IH. Qed.

Lemma ascending_app l k r : ascending cmp (l ++ k :: r) -> Forall (fun a => cmp a k = Lt) l.
Proof.
  induction l as [|a l IH]; intros Hs; [constructor|]. apply StronglySorted_inv in Hs as [Hs Ha].
  constructor; [|by apply IH]. rewrite Forall_forall in Ha. apply Ha, elem_of_app. right. by left.
Qed.
End Ordered.

Lemma str_sym a b : str_cmp b a = CompOpp (str_cmp a b).
Proof. apply cmp_sym. Qed.
Lemma input_sym a b : input_cmp b a = CompOpp (input_cmp a b).
Proof. rewrite !input_cmp_text. apply cmp_sym. Qed.

Lemma btree_get_last {V} (m : list (str * V)) k : Forall (fun e => str_cmp e.1 k = Lt) m -> btree_get k m = None.
Proof.
  intros Hm. unfold btree_get. apply fmap_None, find_None. eapply Forall_impl; [exact Hm|]. cbn. intros e He.
  apply bool_decide_eq_false. intros E. by rewrite E, cmp_refl in He.
Qed.

(** ** Rows *)

Record stamp_ok (s : SnapshotStamp.t) : Prop := {
  st_timestamp : is_snapshot_timestamp (SnapshotStamp.timestamp s) = true;
  st_build : (SnapshotStamp.build s < 2 ^ 32)%N;
}.

Lemma snapshot_back s : stamp_ok s -> decode_snapshot (encode_snapshot s) = Ok s.
Proof.
  destruct s as [ts b]. intros [Ht Hb]. cbn in Ht, Hb. unfold decode_snapshot, encode_snapshot, u32_of. cbn [raw_build_number raw_timestamp SnapshotStamp.build SnapshotStamp.timestamp].
  rewrite (proj2 (Z.leb_le 0 _)) by lia. rewrite (proj2 (Z.ltb_lt _ _)) by lia. cbn [andb ok_or mbind result_bind].
  unfold SnapshotStamp.new. rewrite Ht, N2Z.id. done.
Qed.

Lemma transpose_back {A B E} (f : A -> B) (g : B -> result E A) (P : A -> Prop) (o : option A) :
  (forall a, P a -> g (f a) = Ok a) -> from_option P True o -> transpose (g <$> (f <$> o)) = Ok o.
Proof. intros Hg. destruct o as [a|]; cbn; [|done]. intros Ha. by rewrite Hg. Qed.

Lemma try_map_back {A B E} (f : A -> B) (g : B -> result E A) (P : A -> Prop) (l : list A) :
  (forall a, P a -> g (f a) = Ok a) -> Forall P l -> try_map g (map f l) = Ok l.
Proof. intros Hg. induction 1 as [|a l Ha Hl IH]; [done|]. cbn. by rewrite Hg, IH by done. Qed.

Record artifact_typed (a : LockArtifact) : Prop := {
  at_checksums : Forall digest_ok (checksums a);
  at_snapshot : from_option stamp_ok True (snapshot a);
  at_pom_snapshot : from_option stamp_ok True (pom_snapshot a);
  at_pom_sha256 : from_option (fun h => digest_ok {| algorithm := Sha256; hex := h |}) True (pom_sha256 a);
}.

Lemma checksum_back d : digest_ok d /\ algorithm d <> Md5 ->
  decode_checksum {| raw_algorithm := Digest.as_str (algorithm d); raw_digest := hex d |} = Ok d.
Proof.
  intros [Hd Hm]. unfold decode_checksum, parse. cbn [raw_algorithm raw_digest].
  assert (parse_algorithm (Digest.as_str (algorithm d)) = Some (algorithm d)) as E by (destruct (algorithm d); by vm_compute || done).
  rewrite E. cbn [ok_or mbind result_bind]. unfold Digest.parse. rewrite E. cbn [ok_or mbind result_bind].
  rewrite (digest_reads d Hd). cbn [ok opt_filter]. by rewrite bool_decide_eq_true_2 by apply Hd.
Qed.

Lemma artifact_back a : artifact_typed a -> Md5 ∉ map algorithm (checksums a) ->
  ArtifactCoord.classifier (coordinate a) <> Some [] ->
  is_strictly_sorted str_cmp (other_repo_urls a) = true -> repo_url a ∉ other_repo_urls a ->
  is_strictly_sorted str_cmp (pom_repo_urls a) = true ->
  decode_artifact (encode_artifact a) = Ok a.
Proof.
  intros [Hc Hs Hp Hh] Hm Hk Ho Hu Hq. unfold decode_artifact, encode_artifact.
  cbn [raw_coordinate raw_checksums raw_snapshot raw_pom_snapshot raw_pom_base raw_pom_sha256 raw_other_repo_urls raw_repo_url raw_pom_repo_urls].
  unfold decode_coordinate. cbn [raw_classifier raw_group raw_artifact raw_version raw_extension].
  rewrite (bool_decide_eq_false_2 (_ = Some [])) by done. cbn [mbind result_bind].
  rewrite (try_map_back _ _ (fun d => digest_ok d /\ algorithm d <> Md5) _ checksum_back).
  2:{ apply Forall_forall. intros d Hd. rewrite Forall_forall in Hc. split; [by apply Hc|]. intros E. apply Hm.
      rewrite <-E. apply list_elem_of_fmap. by exists d. }
  cbn [mbind result_bind]. rewrite !(transpose_back _ _ stamp_ok _ snapshot_back) by done. cbn [mbind result_bind].
  assert (transpose ((fun digest => map_err (fun _ => BadPomSha256 digest) (hex <$> Digest.from_str Sha256 digest)) <$> pom_sha256 a)
    = Ok (pom_sha256 a)) as ->.
  { destruct (pom_sha256 a) as [h|]; [|done]. cbn in Hh |- *. pose proof (digest_reads _ Hh) as E. cbn [from_hex algorithm hex] in E. by rewrite E. }
  assert ((if bool_decide ((if pom_base a then Some true else None) = Some false) then Err PomBaseFalse
           else Ok (bool_decide (is_Some (if pom_base a then Some true else None)))) = @Ok CodecFault _ (pom_base a)) as -> by by destruct (pom_base a).
  cbn [mbind result_bind]. rewrite Ho, Hq, (bool_decide_eq_false_2 (repo_url a ∈ other_repo_urls a)) by done.
  unfold ArtifactCoord.new, ArtifactCoord.of_gav, Gav.new, row_gav in *.
  destruct a as [[[g ar v] e k] u ou cs sn ps pb ph pu]; cbn in *. repeat f_equal.
  destruct k as [k|]; [cbn; unfold is_empty; by rewrite bool_decide_eq_false_2 by congruence|done].
Qed.

(** ** Maps and sets *)

Record support_typed (e : str * SupportPom) : Prop := {
  su_sha256 : is_sha256_hex (sup_sha256 e.2) = true;
  su_snapshot : from_option stamp_ok True (sup_snapshot e.2);
}.

Lemma supports_back pre l : ascending str_cmp (map fst (pre ++ l)) -> Forall support_typed l ->
  decode_supports pre (map encode_support l) = Ok (pre ++ l).
Proof.
  revert pre. induction l as [|[k [u h s]] l IH]; intros pre Hs Hl; [by rewrite app_nil_r|].
  apply Forall_cons in Hl as [[Hh Hp] Hl]. cbn in Hh, Hp. cbn [map decode_supports encode_support rs_sha256 rs_snapshot rs_coordinate rs_repo_url fst snd sup_sha256 sup_snapshot sup_repo_url].
  assert (Forall (fun e => str_cmp e.1 k = Lt) pre) as Hk.
  { rewrite map_app in Hs. apply (ascending_app str_cmp _ k) in Hs. by apply Forall_fmap in Hs. }
  rewrite (sha_lowercase h Hh). cbn [ok_or mbind result_bind]. rewrite (transpose_back _ _ stamp_ok _ snapshot_back) by done.
  cbn [mbind result_bind]. rewrite (btree_get_last pre k Hk), bool_decide_eq_false_2 by apply is_Some_None.
  rewrite (btree_insert_last str_cmp str_sym) by done. rewrite IH, <-app_assoc; [done| |done]. by rewrite <-app_assoc.
Qed.

Section Names.
Context `{LookupJson}.

Lemma names_back only pre l : ascending input_cmp (pre ++ l) ->
  Forall (fun a => input_ok a = true /\ (only = true -> is_property_name a = true)) l ->
  decode_names only pre (map input_text l) = Ok (pre ++ l).
Proof.
  revert pre. induction l as [|a l IH]; intros pre Hs Hl; [by rewrite app_nil_r|].
  apply Forall_cons in Hl as [[Ha Hn] Hl]. cbn [map decode_names]. rewrite (proj2 (input_reads a) Ha). cbn [map_err mbind result_bind].
  assert (only && negb (is_property_name a) = false) as -> by (destruct only; [by rewrite Hn|done]).
  rewrite (set_insert_last input_cmp input_sym) by by eapply ascending_app. cbn [negb].
  rewrite IH, <-app_assoc; [done| |done]. by rewrite <-app_assoc.
Qed.

Lemma ambient_back pre l : ascending input_cmp (pre ++ l) -> Forall (fun a => input_ok a = true) l ->
  (forall a b, a ∈ pre ++ l -> b ∈ pre ++ l -> opposite a <> Some b) ->
  decode_ambient pre (map input_text l) = Ok (pre ++ l).
Proof.
  revert pre. induction l as [|a l IH]; intros pre Hs Hl Hb; [by rewrite app_nil_r|].
  apply Forall_cons in Hl as [Ha Hl]. cbn [map decode_ambient]. rewrite (proj2 (input_reads a) Ha). cbn [map_err mbind result_bind].
  assert (is_some_and (fun other => bool_decide (other ∈ pre)) (opposite a) = false) as ->.
  { destruct (opposite a) as [b|] eqn:E; [|done]. cbn. apply bool_decide_eq_false. intros Hin. apply (Hb a b); [set_solver..|done]. }
  rewrite (set_insert_last input_cmp input_sym) by by eapply ascending_app. cbn [negb].
  rewrite IH, <-app_assoc; [done|by rewrite <-app_assoc|done|]. by rewrite <-app_assoc.
Qed.

Lemma options_back pre l : ascending str_cmp (pre ++ l) -> Forall (fun o => is_command_line_name o = true) l ->
  decode_options pre l = Ok (pre ++ l).
Proof.
  revert pre. induction l as [|a l IH]; intros pre Hs Hl; [by rewrite app_nil_r|].
  apply Forall_cons in Hl as [Ha Hl]. cbn [decode_options]. rewrite Ha. cbn [negb].
  rewrite (set_insert_last str_cmp str_sym) by by eapply ascending_app. cbn [negb].
  rewrite IH, <-app_assoc; [done| |done]. by rewrite <-app_assoc.
Qed.

Record resolution_kept (r : LockResolution) : Prop := {
  rk_inputs : ascending input_cmp (resolution_inputs r);
  rk_ok : Forall (fun a => input_ok a = true) (resolution_inputs r);
  rk_outcomes : forall a b, a ∈ resolution_inputs r -> b ∈ resolution_inputs r -> opposite a <> Some b;
  rk_options : ascending str_cmp (command_line r);
  rk_names : Forall (fun o => is_command_line_name o = true) (command_line r);
}.

Lemma resolution_back r : resolution_kept r ->
  default {| resolution_inputs := []; command_line := [] |} <$> transpose (decode_resolution <$> encode_resolution r) = Ok r.
Proof.
  intros [Hi Ho Hb Hc Hn]. unfold encode_resolution. case_bool_decide as E; [by subst|]. cbn [fmap option_fmap option_map].
  unfold decode_resolution. cbn [rr_ambient_inputs rr_command_line transpose].
  assert (bool_decide (map input_text (resolution_inputs r) = []) && bool_decide (command_line r = []) = false) as ->.
  { apply andb_false_iff. destruct r as [[|a xs] [|c cs]]; [done|right|left..]; by apply bool_decide_eq_false. }
  rewrite (ambient_back [] _) by done. cbn [app mbind result_bind]. rewrite (options_back [] _) by done. cbn. by destruct r.
Qed.

Lemma read_names_back s : ascending input_cmp s -> Forall (fun a => input_ok a = true /\ is_property_name a = true) s -> s <> [] ->
  decode_read_names (map input_text s) = Ok s.
Proof.
  intros Hs Hf Hn. unfold decode_read_names. rewrite bool_decide_eq_false_2 by by destruct s.
  rewrite (names_back true []); [done..|]. eapply Forall_impl; [exact Hf|]. naive_solver.
Qed.
End Names.

(** ** Lines of repository ids *)

Record ids_kept (ids : RepoIds) : Prop := {
  ik_origins : ascending str_cmp (map fst ids);
  ik_ids : Forall (fun e => e.2 <> [] /\ ascending str_cmp e.2) ids;
  ik_utf8 : Forall (fun e => utf8 e.1 = true /\ Forall (fun id => utf8 id = true) e.2) ids;
}.

Definition id_line (e : str * str) : str := e.1 ++ [tab] ++ e.2.
Definition line_recordable (e : str * str) : Prop :=
  e.1 <> [] /\ is_recordable_repo_id e.1 = true /\ is_recordable_repo_id e.2 = true.

Lemma encode_ids_Ok ids text : encode_repo_id_lines ids = Ok text <->
  Forall line_recordable (repo_id_lines ids) /\ text = join [newline] (map id_line (repo_id_lines ids)).
Proof.
  unfold encode_repo_id_lines.
  assert (forall (e : str * str) line, (if is_empty e.1 || negb (is_recordable_repo_id e.1) || negb (is_recordable_repo_id e.2)
    then Err (UnrecordableId e.1 e.2) else Ok (e.1 ++ [tab] ++ e.2)) = Ok line <-> line_recordable e /\ line = id_line e) as Hf.
  { intros [o id] line. unfold line_recordable, is_empty. cbn.
    case_bool_decide as Eo; cbn; [naive_solver|]. destruct (is_recordable_repo_id o), (is_recordable_repo_id id); cbn; naive_solver. }
  split.
  - intros (ls & El & [= <-])%bind_Ok. by apply (try_map_fun _ line_recordable id_line) in El as [Hl ->].
  - intros [Hl ->]. by rewrite (proj2 (try_map_fun _ line_recordable id_line (repo_id_lines ids) (map id_line (repo_id_lines ids)) Hf) (conj Hl eq_refl)).
Qed.

Lemma get_at {V} (pre : list (str * V)) o s : Forall (fun e => str_cmp e.1 o = Lt) pre -> btree_get o (pre ++ [(o, s)]) = Some s.
Proof.
  intros Hp. unfold btree_get. induction Hp as [|[k v] pre Hk Hp IH]; cbn in *; [by rewrite bool_decide_eq_true_2|].
  rewrite bool_decide_eq_false_2 by (intros ->; by rewrite cmp_refl in Hk). done.
Qed.

Lemma insert_at {V} (pre : list (str * V)) o s s' : Forall (fun e => str_cmp e.1 o = Lt) pre ->
  btree_insert str_cmp o s' (pre ++ [(o, s)]) = pre ++ [(o, s')].
Proof.
  induction 1 as [|[k v] pre Hk Hp IH]; cbn in *; [by rewrite cmp_refl|]. by rewrite (cmp_gt_of_lt str_cmp str_sym _ _ Hk), IH.
Qed.

Lemma decode_line o id : line_recordable (o, id) -> utf8 o = true ->
  split_once tab (id_line (o, id)) = Some (o, id) /\
  is_empty o || negb (is_recordable_repo_id o) || negb (is_recordable_repo_id id) = false.
Proof.
  intros (Ho & Hr & Hi) Hu. cbn in Ho, Hr, Hi. split.
  - apply split_once_Some. split; [done|]. by apply terminal_line_free.
  - rewrite Hr, Hi. unfold is_empty. by rewrite bool_decide_eq_false_2.
Qed.

Lemma decode_more pre o s ids rest : Forall (fun e => str_cmp e.1 o = Lt) pre -> ascending str_cmp (s ++ ids) ->
  Forall (fun id => line_recordable (o, id)) ids -> utf8 o = true ->
  decode_ids (pre ++ [(o, s)]) (map id_line (map (pair o) ids) ++ rest) = decode_ids (pre ++ [(o, s ++ ids)]) rest.
Proof.
  intros Hp. revert s. induction ids as [|id ids IH]; intros s Hs Hl Hu; [by rewrite app_nil_r|].
  apply Forall_cons in Hl as [Hi Hl]. destruct (decode_line o id Hi Hu) as [E1 E2]. cbn [map app decode_ids]. rewrite E1. cbn [ok_or mbind result_bind].
  rewrite E2, get_at by done. change (default [] (Some s)) with s. rewrite (set_insert_last str_cmp str_sym) by by eapply ascending_app. cbn [negb].
  rewrite insert_at by done. rewrite IH, <-app_assoc; [done| |done..]. by rewrite <-app_assoc.
Qed.

Lemma decode_origin pre o id ids rest : Forall (fun e => str_cmp e.1 o = Lt) pre -> ascending str_cmp (id :: ids) ->
  Forall (fun id => line_recordable (o, id)) (id :: ids) -> utf8 o = true ->
  decode_ids pre (map id_line (map (pair o) (id :: ids)) ++ rest) = decode_ids (pre ++ [(o, id :: ids)]) rest.
Proof.
  intros Hp Hs Hl Hu. pose proof Hl as [Hi Hl']%Forall_cons. destruct (decode_line o id Hi Hu) as [E1 E2]. cbn [map app decode_ids].
  rewrite E1. cbn [ok_or mbind result_bind]. rewrite E2, btree_get_last by done. change (default [] None) with (@nil str). cbn [set_insert negb].
  rewrite (btree_insert_last str_cmp str_sym) by done. by rewrite (decode_more pre o [id] ids rest).
Qed.

Lemma decode_ids_back pre ids : ascending str_cmp (map fst (pre ++ ids)) ->
  Forall (fun e => e.2 <> [] /\ ascending str_cmp e.2) ids -> Forall (fun e => utf8 e.1 = true) ids ->
  Forall line_recordable (repo_id_lines ids) -> decode_ids pre (map id_line (repo_id_lines ids)) = Ok (pre ++ ids).
Proof.
  revert pre. induction ids as [|[o [|id names]] ids IH]; intros pre Hs Hi Hu Hl; [by rewrite app_nil_r|..];
    apply Forall_cons in Hi as [[Hn Ha] Hi]; [done|]. apply Forall_cons in Hu as [Ho Hu]. cbn in Ho, Ha.
  change (repo_id_lines ((o, id :: names) :: ids)) with (map (pair o) (id :: names) ++ repo_id_lines ids) in *.
  apply Forall_app in Hl as [Hf Hl]. apply (Forall_fmap (pair o) line_recordable) in Hf.
  assert (Forall (fun e => str_cmp e.1 o = Lt) pre) as Hp.
  { rewrite map_app in Hs. apply (ascending_app str_cmp _ o) in Hs. by apply Forall_fmap in Hs. }
  rewrite map_app, (decode_origin pre o id names _ Hp Ha Hf Ho). rewrite IH; [by rewrite <-app_assoc| |done..]. by rewrite <-app_assoc.
Qed.

Lemma ids_back ids text : ids_kept ids -> encode_repo_id_lines ids = Ok text -> decode_repo_id_lines text = Ok ids.
Proof.
  intros [Ho Hi Hu] (Hl & ->)%encode_ids_Ok. unfold decode_repo_id_lines.
  assert (forall e, e ∈ repo_id_lines ids -> newline ∉ id_line e /\ id_line e <> []) as Hf.
  { intros [o id] He. rewrite Forall_forall in Hl. destruct (Hl _ He) as (Hn & Hr & Hr'). cbn in Hn, Hr, Hr'.
    unfold repo_id_lines in He. apply concat_elem in He as (names & He & (e & -> & Hin)%list_elem_of_fmap).
    apply list_elem_of_fmap in He as (id' & [= -> ->] & Hid). rewrite Forall_forall in Hu. destruct (Hu _ Hin) as [Hu1 Hu2].
    rewrite Forall_forall in Hu2. unfold id_line. cbn [fst snd]. split; [|by destruct (e.1)].
    rewrite !not_elem_of_app, not_elem_of_cons. split_and!; [by apply terminal_line_free|done|apply not_elem_of_nil|].
    apply terminal_line_free; [by apply Hu2|done]. }
  assert (repo_id_lines ids = [] -> ids = []) as He.
  { destruct ids as [|[o [|id names]] ids]; [done| |done]. apply Forall_cons in Hi as [[Hi _] _]. done. }
  unfold is_empty. case_bool_decide as Ej.
  - rewrite He; [done|]. destruct (repo_id_lines ids) as [|e es]; [done|]. exfalso. apply (Hf e); [by left|].
    cbn in Ej. destruct (map id_line es); [done|]. by destruct (id_line e).
  - rewrite split_join.
    + rewrite (decode_ids_back []); [done..| |done]. eapply Forall_impl; [exact Hu|]. naive_solver.
    + intros E. apply Ej. by rewrite E.
    + apply Forall_forall. intros s (e & -> & Hin)%list_elem_of_fmap. by apply Hf.
Qed.

(** ** Targets *)

Lemma parse_target_back p : platform_valid p -> from_option (fun jdk => is_valid_jdk jdk = true) True (Platform.jdk p) ->
  parse_target (target_name p) = Ok p.
Proof.
  destruct p as [os arch jdk]. intros [Ho Ha] Hj. cbn in Ho, Ha, Hj.
  assert (at_sign ∉ Platform.os_arch {| Platform.os := os; Platform.arch := arch; Platform.jdk := jdk |}) as Hn.
  { unfold Platform.os_arch. cbn. rewrite !not_elem_of_app, not_elem_of_cons. split_and!; [by eapply valid_free|done|by eapply valid_free]. }
  assert (Platform.from_str (Platform.os_arch {| Platform.os := os; Platform.arch := arch; Platform.jdk := jdk |})
    = Ok {| Platform.os := os; Platform.arch := arch; Platform.jdk := None |}) as Ef.
  { unfold Platform.from_str, Platform.os_arch. cbn [Platform.os Platform.arch].
    rewrite (proj2 (split_once_Some "-"%char _ os arch)) by (split; [done|by eapply valid_free]).
    cbn. unfold Platform.new. by rewrite Ho, Ha. }
  unfold parse_target, target_name. destruct jdk as [jdk|]; cbn [Platform.jdk].
  - rewrite (proj2 (split_once_Some at_sign _ _ jdk)) by (split; [reflexivity|done]). rewrite Ef. cbn in Hj |- *. by rewrite Hj.
  - rewrite split_once_None by done. by rewrite Ef.
Qed.

(** ** POM inputs *)

Lemma btree_get_elem {V} k (m : list (str * V)) v : btree_get k m = Some v -> (k, v) ∈ m.
Proof.
  unfold btree_get. intros ([k' w] & E & ->)%fmap_Some. apply find_some in E as [Hin Hk]. apply bool_decide_eq_true in Hk as <-.
  by apply list_elem_of_In.
Qed.

(** The entries of [m] at the keys of [poms]. *)
Definition restrict {V} (m : list (str * V)) (poms : list (str * str)) : list (str * V) :=
  omap (fun e => pair e.1 <$> btree_get e.1 m) poms.

Lemma restrict_keys {V} (m : list (str * V)) poms k :
  Forall (fun e => str_cmp e.1 k = Lt) poms -> Forall (fun e => str_cmp e.1 k = Lt) (restrict m poms).
Proof.
  intros Hp. apply Forall_forall. intros e (x & Hx & (v & Ev & ->)%fmap_Some)%list_elem_of_omap. cbn. rewrite Forall_forall in Hp. by apply Hp.
Qed.

Lemma restrict_step {V} (m : list (str * V)) e poms :
  restrict m (e :: poms) = option_list (pair e.1 <$> btree_get e.1 m) ++ restrict m poms.
Proof. unfold restrict. cbn. by destruct (btree_get e.1 m). Qed.

Lemma restrict_app {V} (m : list (str * V)) a b : restrict m (a ++ b) = restrict m a ++ restrict m b.
Proof. apply omap_app. Qed.

Lemma btree_get_cons {V} k k' (v : V) m : btree_get k ((k', v) :: m) = if bool_decide (k' = k) then Some v else btree_get k m.
Proof. unfold btree_get. cbn. by case_bool_decide. Qed.

Lemma restrict_cons {V} k (w : V) m poms : Forall (fun e => str_cmp k e.1 = Lt) poms -> restrict ((k, w) :: m) poms = restrict m poms.
Proof.
  induction 1 as [|e poms He Hp IH]; [done|]. rewrite !restrict_step, IH, btree_get_cons, bool_decide_eq_false_2; [done|].
  intros ->. by rewrite cmp_refl in He.
Qed.

(** The keys of an ascending map but its first. *)
Lemma later_keys {V} k (w : V) m a : ascending str_cmp (map fst ((k, w) :: m)) -> a ∈ map fst m -> str_cmp k a = Lt.
Proof. intros [_ Hk]%StronglySorted_inv Ha. rewrite Forall_forall in Hk. by apply Hk. Qed.

Lemma restrict_all {V} (m : list (str * V)) poms : ascending str_cmp (map fst m) -> ascending str_cmp (map fst poms) ->
  (forall k, k ∈ map fst m -> k ∈ map fst poms) -> restrict m poms = m.
Proof.
  revert m. induction poms as [|[k v] poms IH]; intros m Hm Hp Hin.
  { destruct m as [|[k w] m]; [done|]. exfalso. apply (not_elem_of_nil k), Hin. by left. }
  pose proof (later_keys k v poms) as Hk. rewrite restrict_step. cbn [fst]. pose proof Hp as [Hp' _]%StronglySorted_inv.
  assert (forall a, a ∈ map fst m -> a <> k -> a ∈ map fst poms) as Hin'
    by (intros a Ha Hn; by destruct (proj1 (elem_of_cons _ _ _) (Hin a Ha))).
  destruct (btree_get k m) as [w|] eqn:Eg; cbn.
  - destruct m as [|[k' w'] m]; [done|]. pose proof Hm as [Hm' _]%StronglySorted_inv. pose proof (later_keys k' w' m) as Hk'.
    assert (k' = k) as ->.
    { destruct (decide (k' = k)) as [|Hn]; [done|]. exfalso. pose proof (Hk k' Hp (Hin' k' (list_elem_of_here _ _) Hn)) as H1.
      rewrite btree_get_cons, bool_decide_eq_false_2 in Eg by done. apply btree_get_elem in Eg.
      assert (str_cmp k' k = Lt) as H2 by (apply Hk'; [done|]; apply list_elem_of_fmap; by exists (k, w)).
      pose proof (cmp_lt_trans (cmp := str_cmp) _ _ _ H1 H2) as Hc. by rewrite cmp_refl in Hc. }
    rewrite btree_get_cons, bool_decide_eq_true_2 in Eg by done. injection Eg as ->. f_equal. rewrite restrict_cons.
    + apply IH; [done..|]. intros a Ha. apply Hin'; [by right|]. intros ->. specialize (Hk' k Hm Ha). by rewrite cmp_refl in Hk'.
    + apply Forall_forall. intros e He. apply Hk; [done|]. apply list_elem_of_fmap. by exists e.
  - apply IH; [done..|]. intros a Ha. apply Hin'; [done|]. intros ->. apply list_elem_of_fmap in Ha as ([a w] & -> & Ha).
    clear -Ha Eg. induction m as [|[k x] m IH]; [by apply not_elem_of_nil in Ha|]. rewrite btree_get_cons in Eg. case_bool_decide as E; [done|].
    apply elem_of_cons in Ha as [[= -> ->]|Ha]; [done|by apply IH].
Qed.

(** ** Inputs of a target *)

Record reads_kept `{LookupJson} (s : list AmbientInput) : Prop := {
  rd_sorted : ascending input_cmp s;
  rd_names : Forall (fun a => input_ok a = true /\ is_property_name a = true) s;
}.

Record model_kept `{LookupJson} (paths : list str) (i : ModelInputs) : Prop := {
  md_hashes : ascending str_cmp (map fst (pom_hashes i));
  md_sha256 : Forall (fun e => is_sha256_hex e.2 = true) (pom_hashes i);
  md_graphs : ascending str_cmp (map fst (graphs i));
  md_graph_keys : forall k, k ∈ map fst (graphs i) -> k ∈ map fst (pom_hashes i);
  md_graph_sha256 : Forall (fun e => is_sha256_hex e.2 = true) (graphs i);
  md_reads : ascending str_cmp (map fst (module_ambient_inputs i));
  md_read_keys : forall k, k ∈ map fst (module_ambient_inputs i) -> k ∈ map fst (pom_hashes i) /\ k ∈ paths;
  md_read_sets : Forall (fun e => reads_kept e.2 /\ e.2 <> []) (module_ambient_inputs i);
  md_ambient : reads_kept (ambient_inputs i);
  md_apart : forall e a, e ∈ module_ambient_inputs i -> a ∈ e.2 -> a ∉ ambient_inputs i;
}.

Section Target.
Context `{LookupJson} `{Hashers}.

Lemma poms_back paths i pre l : model_kept paths i -> pom_hashes i = pre ++ l ->
  decode_poms paths {| pm_hashes := pre; pm_graphs := restrict (graphs i) pre; pm_reads := restrict (module_ambient_inputs i) pre |}
    (map (encode_pom i) l)
  = Ok {| pm_hashes := pom_hashes i; pm_graphs := graphs i; pm_reads := module_ambient_inputs i |}.
Proof.
  intros Hi. revert pre. induction l as [|[k h] l IH]; intros pre El.
  { rewrite app_nil_r in El. subst pre. cbn. assert (forall k, k ∈ map fst (module_ambient_inputs i) -> k ∈ map fst (pom_hashes i)) as Hk by (intros k Hk; by apply Hi in Hk as [? _]).
    by rewrite !restrict_all by (done || apply Hi). }
  destruct Hi as [Hh Hs Hg Hgk Hgs Hr Hrk Hrs Ha Hx]. specialize (IH (pre ++ [(k, h)])). rewrite <-app_assoc in IH. specialize (IH El).
  assert (Forall (fun e => str_cmp e.1 k = Lt) pre) as Hk.
  { rewrite El, map_app in Hh. apply (ascending_app str_cmp _ k) in Hh. by apply Forall_fmap in Hh. }
  assert (is_sha256_hex h = true) as Hsh by (rewrite El in Hs; by apply Forall_app in Hs as [_ [Hs _]%Forall_cons]).
  cbn [map decode_poms]. cbn [encode_pom rp_path rp_sha256 rp_graph rp_ambient_inputs fst snd pm_reads pm_graphs pm_hashes].
  assert (match btree_get k (module_ambient_inputs i) ≫= read_name_texts with
    | None => Ok (restrict (module_ambient_inputs i) pre)
    | Some names => if negb (bool_decide (k ∈ paths)) then Err (NoModule k)
        else names ← decode_read_names names; Ok (btree_insert str_cmp k names (restrict (module_ambient_inputs i) pre))
    end = Ok (restrict (module_ambient_inputs i) (pre ++ [(k, h)]))) as ->.
  { rewrite restrict_app, restrict_step. cbn [fst]. destruct (btree_get k (module_ambient_inputs i)) as [s|] eqn:Eg; cbn [mbind option_bind];
      [|by cbn; rewrite app_nil_r].
    apply btree_get_elem in Eg. rewrite Forall_forall in Hrs. destruct (Hrs _ Eg) as [[Hs1 Hs2] Hn]. cbn in Hs1, Hs2, Hn.
    unfold read_name_texts. rewrite bool_decide_eq_false_2 by done.
    rewrite bool_decide_eq_true_2 by (apply Hrk, list_elem_of_fmap; by exists (k, s)). cbn [negb].
    rewrite read_names_back by done. cbn. by rewrite (btree_insert_last str_cmp str_sym) by by apply restrict_keys. }
  cbn [mbind result_bind]. rewrite (sha_lowercase h Hsh). cbn [ok_or mbind result_bind].
  assert (match btree_get k (graphs i) with
    | None => Ok (restrict (graphs i) pre)
    | Some graph => graph ← ok_or (lowercase_sha256 graph) (BadPomDigest k); Ok (btree_insert str_cmp k graph (restrict (graphs i) pre))
    end = Ok (restrict (graphs i) (pre ++ [(k, h)]))) as ->.
  { rewrite restrict_app, restrict_step. cbn [fst]. destruct (btree_get k (graphs i)) as [g|] eqn:Eg; [|by cbn; rewrite app_nil_r].
    apply btree_get_elem in Eg. rewrite Forall_forall in Hgs. specialize (Hgs _ Eg). cbn in Hgs. rewrite (sha_lowercase g Hgs). cbn.
    by rewrite (btree_insert_last str_cmp str_sym) by by apply restrict_keys. }
  cbn [mbind result_bind]. rewrite (btree_get_last pre k Hk), bool_decide_eq_false_2 by apply is_Some_None.
  by rewrite (btree_insert_last str_cmp str_sym pre k h) by done.
Qed.

Record target_kept (p : LockPlatform) : Prop := {
  tt_platform : platform_valid (platform p);
  tt_jdk : from_option (fun jdk => is_valid_jdk jdk = true) True (Platform.jdk (platform p));
  tt_ids : from_option ids_kept True (platform_repo_ids p);
  tt_host : from_option (fun s => ascending input_cmp s /\ Forall (fun a => input_ok a = true) s) True (platform_host_inputs p);
  tt_model : from_option (fun i => model_kept (map module_path (modules p)) i /\
    model_hash p = model_records_hash (profiles i) (pom_hashes i)) True (model_inputs p);
}.

Lemma model_back p raw ids : target_kept p ->
  raw = {| target := target_name (platform p);
        raw_model_hash := match model_inputs p with None => Some (model_hash p) | Some _ => None end;
        raw_profiles := profiles <$> model_inputs p;
        raw_ambient_inputs := model_inputs p ≫= fun inputs => read_name_texts (ambient_inputs inputs);
        raw_poms := (fun inputs => map (encode_pom inputs) (pom_hashes inputs)) <$> model_inputs p;
        raw_repo_ids := ids; raw_host_inputs := map input_text <$> platform_host_inputs p |} ->
  decode_model (map module_path (modules p)) raw = Ok (model_hash p, model_inputs p).
Proof.
  intros [_ _ _ _ Hm] ->. unfold decode_model. cbn [raw_profiles raw_poms raw_model_hash raw_ambient_inputs].
  destruct (model_inputs p) as [i|]; cbn [fmap option_fmap option_map mbind option_bind]; [|done].
  destruct Hm as [Hi Eh]. pose proof (poms_back _ i [] (pom_hashes i) Hi eq_refl) as Ep. cbn in Ep. fold (no_poms) in Ep. rewrite Ep.
  cbn [mbind result_bind pm_hashes pm_reads pm_graphs]. destruct Hi as [_ _ _ _ _ _ _ _ [Ha1 Ha2] Hx].
  assert (default [] <$> transpose (decode_read_names <$> read_name_texts (ambient_inputs i)) = Ok (ambient_inputs i)) as Ea.
  { unfold read_name_texts. case_bool_decide as E; [by rewrite E|]. cbn. by rewrite read_names_back. }
  destruct (transpose _) as [o|]; [|done]. cbn in Ea |- *. injection Ea as ->.
  destruct (List.find _ _) as [a|] eqn:Ef; [|by rewrite Eh; destruct i].
  exfalso. apply find_some in Ef as [Hin Hb]. apply bool_decide_eq_true in Hb. apply list_elem_of_In, concat_elem in Hin as (s & Hs & (e & -> & He)%list_elem_of_fmap).
  by apply (Hx e a He Hs).
Qed.

Lemma target_back p tables raw : target_kept p -> encode_inputs p = Ok raw ->
  artifacts tables = artifacts p -> modules tables = modules p -> support_poms tables = support_poms p ->
  target raw = target_name (platform p) /\ decode_target tables (target_name (platform p)) raw = Ok p.
Proof.
  intros Hp (ids & Ei & [= Er])%bind_Ok E1 E2 E3. split; [by rewrite <-Er|]. unfold decode_target.
  rewrite parse_target_back by apply Hp. cbn [mbind result_bind].
  assert (raw_repo_ids raw = ids) as -> by by rewrite <-Er.
  assert (transpose (decode_repo_id_lines <$> ids) = Ok (platform_repo_ids p)) as ->.
  { pose proof (tt_ids _ Hp) as Hi. destruct (platform_repo_ids p) as [m|]; cbn in Ei, Hi; [|by injection Ei as <-].
    destruct (encode_repo_id_lines m) as [text|] eqn:Et; [|done]. cbn in Ei. injection Ei as <-. cbn. by rewrite (ids_back m text Hi Et). }
  cbn [map_err mbind result_bind].
  assert (transpose (decode_host_inputs <$> raw_host_inputs raw) = Ok (platform_host_inputs p)) as ->.
  { rewrite <-Er. cbn [raw_host_inputs]. apply (transpose_back _ _ (fun s => ascending input_cmp s /\ Forall (fun a => input_ok a = true) s)); [|apply Hp].
    intros s [Hs Hf]. unfold decode_host_inputs. rewrite (names_back false []); [done..|]. eapply Forall_impl; [exact Hf|]. naive_solver. }
  cbn [mbind result_bind]. rewrite E2, (model_back p raw ids Hp (eq_sym Er)). cbn. rewrite E1, E3. by destruct p.
Qed.
End Target.

(** ** Graphs *)

Record tables_typed (p : LockPlatform) : Prop := {
  tb_artifacts : Forall (fun a => decode_artifact (encode_artifact a) = Ok a) (artifacts p);
  tb_modules : Forall module_text_ok (modules p);
  tb_support : ascending str_cmp (map fst (support_poms p));
  tb_pins : Forall support_typed (support_poms p);
}.

Definition shares (p q : LockPlatform) : Prop :=
  artifacts p = artifacts q /\ modules p = modules q /\ support_poms p = support_poms q.

Definition name_of (p : LockPlatform) : str := target_name (platform p).

(** The platforms [ms] that a graph stands for. *)
Record grouped (g : LockPlatform * RawPlatform) (ms : list LockPlatform) : Prop := {
  gr_some : ms <> [];
  gr_targets : targets g.2 = map name_of ms;
  gr_shares : Forall (shares g.1) ms;
  gr_tables : raw_artifacts g.2 = map encode_artifact (artifacts g.1) /\ raw_modules g.2 = map encode_module (modules g.1) /\
    raw_supports g.2 = map encode_support (support_poms g.1);
}.

Lemma same_tables_shares p q : same_tables p q = true <-> shares p q.
Proof. unfold same_tables, shares. rewrite !andb_true_iff, !bool_decide_eq_true. tauto. Qed.

Lemma join_graph_grouped p gs mss : Forall2 grouped gs mss ->
  exists mss', Forall2 grouped (join_graph p gs) mss' /\ concat mss' ≡ₚ p :: concat mss.
Proof.
  induction 1 as [|[other graph] ms gs mss Hg Hf (mss' & IH & IP)]; cbn [join_graph].
  - exists [[p]]. split; [|done]. constructor; [|constructor]. constructor; try done. by constructor.
  - destruct (same_tables other p) eqn:E.
    + exists ((ms ++ [p]) :: mss). cbn. split; [|by rewrite <-app_assoc, Permutation_middle].
      constructor; [|done]. destruct Hg as [Hn Ht Hs Hr]. constructor; cbn in *; [by destruct ms|by rewrite Ht, map_app| |done].
      apply Forall_app. split; [done|]. constructor; [by apply same_tables_shares|constructor].
    + exists (ms :: mss'). cbn. split; [by constructor|]. by rewrite IP, Permutation_middle.
Qed.

Lemma encode_graphs_grouped ps : exists mss, Forall2 grouped (encode_graphs ps) mss /\ concat mss ≡ₚ ps.
Proof.
  unfold encode_graphs. cut (forall gs mss, Forall2 grouped gs mss ->
    exists mss', Forall2 grouped (foldl (fun gs p => join_graph p gs) gs ps) mss' /\ concat mss' ≡ₚ ps ++ concat mss).
  { intros Hc. destruct (Hc [] [] (Forall2_nil_2 _ _ _)) as (mss & Hm & Hp). exists mss. by rewrite app_nil_r in Hp. }
  induction ps as [|p ps IH]; intros gs mss Hg; [by exists mss|]. cbn [foldl].
  destruct (join_graph_grouped p gs mss Hg) as (m1 & H1 & P1). destruct (IH _ _ H1) as (m2 & H2 & P2).
  exists m2. split; [done|]. by rewrite P2, P1, <-Permutation_middle.
Qed.

Lemma tables_back g p q : tables_typed p -> raw_artifacts g = map encode_artifact (artifacts p) ->
  raw_modules g = map encode_module (modules p) -> raw_supports g = map encode_support (support_poms p) ->
  exists t, decode_platform g q = Ok t /\ shares t p.
Proof.
  intros [Ha Hm Hs Hp] E1 E2 E3. unfold decode_platform. rewrite E1, E2, E3.
  rewrite (try_map_back _ _ _ _ (fun a H => H) Ha). cbn [mbind result_bind].
  rewrite (try_map_back _ _ _ _ module_roundtrip Hm). cbn [map_err mbind result_bind].
  rewrite (supports_back [] _ Hs Hp). cbn. by eexists.
Qed.

(** ** Inputs by target *)

Lemma get_insert {V} k k' (v : V) m : btree_get k (btree_insert str_cmp k' v m) = if bool_decide (k' = k) then Some v else btree_get k m.
Proof.
  induction m as [|[k2 w] m IH]; cbn [btree_insert]; [by rewrite btree_get_cons|].
  destruct (str_cmp k' k2) eqn:E; rewrite !btree_get_cons.
  - apply cmp_eq in E as ->. by case_bool_decide.
  - done.
  - rewrite IH. repeat case_bool_decide; try done. subst. by rewrite cmp_refl in E.
Qed.

Lemma get_remove {V} k k' (m : list (str * V)) : btree_get k (btree_remove k' m) = if bool_decide (k' = k) then None else btree_get k m.
Proof.
  unfold btree_remove. induction m as [|[k2 w] m IH]; [by cbn; case_bool_decide|]. rewrite btree_get_cons. cbn [List.filter fst].
  destruct (decide (k2 = k')) as [->|Hn].
  - rewrite bool_decide_eq_true_2 by done. cbn [negb]. rewrite IH. by case_bool_decide.
  - rewrite (bool_decide_eq_false_2 (k2 = k')) by done. cbn [negb]. rewrite btree_get_cons, IH. repeat case_bool_decide; try done; congruence.
Qed.

Section Lock.
Context `{LookupJson} `{Hashers}.

(** The name of the target reads back. *)
Definition named (p : LockPlatform) : Prop :=
  platform_valid (platform p) /\ from_option (fun jdk => is_valid_jdk jdk = true) True (Platform.jdk (platform p)).

Lemma kept_named p : target_kept p -> named p.
Proof. intros Hp. split; apply Hp. Qed.

(** The inputs hold what was written for [ps] and nothing else. *)
Record pending (inputs : list (str * RawInputs)) (ps : list LockPlatform) : Prop := {
  pe_get : forall p, p ∈ ps -> exists raw, btree_get (name_of p) inputs = Some raw /\ encode_inputs p = Ok raw;
  pe_only : forall e, e ∈ inputs -> e.1 ∈ map name_of ps;
}.

Lemma parse_name p : named p -> parse_target (name_of p) = Ok (platform p).
Proof. intros [Hp Hj]. by apply parse_target_back. Qed.

Lemma pending_remove inputs p ps : NoDup (map name_of (p :: ps)) -> pending inputs (p :: ps) ->
  pending (btree_remove (name_of p) inputs) ps.
Proof.
  intros [Hn _]%NoDup_cons [Hg Ho]. split.
  - intros q Hq. rewrite get_remove, bool_decide_eq_false_2; [apply Hg; by right|].
    intros E. apply Hn. rewrite E. apply list_elem_of_fmap. by exists q.
  - intros e He. unfold btree_remove in He. apply list_elem_of_In, filter_In in He as [He Hb]. apply negb_true_iff, bool_decide_eq_false in Hb.
    apply list_elem_of_In, Ho, elem_of_cons in He as [E|He]; done.
Qed.

Lemma collect_back ps raws : Forall2 (fun p raw => encode_inputs p = Ok raw) ps raws -> Forall target_kept ps ->
  forall m done, pending m done -> NoDup (map name_of (done ++ ps)) ->
  exists m', collect_inputs m raws = Ok m' /\ pending m' (done ++ ps).
Proof.
  induction 1 as [|p raw ps raws Hp Hf IH]; intros Ht m done Hm Hd; [by exists m; rewrite app_nil_r|].
  apply Forall_cons in Ht as [Hpt Ht]. cbn [collect_inputs].
  assert (target raw = name_of p) as -> by by eapply (target_back p p).
  rewrite (parse_name p (kept_named p Hpt)). cbn [mbind result_bind].
  assert (name_of p ∉ map name_of done) as Hn.
  { rewrite map_app, NoDup_app in Hd. destruct Hd as (_ & Hd & _). intros Hin. apply (Hd _ Hin). by left. }
  assert (btree_get (name_of p) m = None) as Eg.
  { destruct (btree_get (name_of p) m) as [r|] eqn:E; [|done]. apply btree_get_elem in E. by apply (pe_only _ _ Hm) in E. }
  rewrite Eg, bool_decide_eq_false_2 by apply is_Some_None.
  destruct (IH Ht (btree_insert str_cmp (name_of p) raw m) (done ++ [p])) as (m' & Em & Pm).
  - split.
    + intros q [Hq|Hq]%elem_of_app.
      * rewrite get_insert, bool_decide_eq_false_2; [by apply Hm|]. intros E. apply Hn. rewrite E. apply list_elem_of_fmap. by exists q.
      * apply list_elem_of_singleton in Hq as ->. exists raw. by rewrite get_insert, bool_decide_eq_true_2.
    + intros e [->|He]%(btree_insert_elem str_cmp); rewrite map_app; apply elem_of_app; [right; by left|left; by apply Hm].
  - by rewrite <-app_assoc.
  - exists m'. by rewrite <-app_assoc in Pm.
Qed.

Lemma targets_back tables ms rest inputs : Forall target_kept ms -> Forall (shares tables) ms -> pending inputs (ms ++ rest) ->
  NoDup (map name_of (ms ++ rest)) ->
  exists inputs', decode_targets tables inputs (map name_of ms) = Ok (ms, inputs') /\ pending inputs' rest.
Proof.
  revert inputs. induction ms as [|p ms IH]; intros inputs Ht Hs Hp Hd; [by exists inputs|].
  apply Forall_cons in Ht as [Hpt Ht], Hs as [(E1 & E2 & E3) Hs]. cbn [map decode_targets].
  destruct (pe_get _ _ Hp p) as (raw & Eg & Er); [by left|]. rewrite Eg. cbn [ok_or mbind result_bind].
  destruct (target_back p tables raw Hpt Er E1 E2 E3) as [_ Eb]. fold (name_of p) in Eb. rewrite Eb. cbn [mbind result_bind].
  destruct (IH (btree_remove (name_of p) inputs)) as (inputs' & -> & Hp'); [done..|by apply pending_remove| |].
  - by apply NoDup_cons in Hd as [_ Hd].
  - exists inputs'. by split.
Qed.

Lemma graphs_back gs mss inputs : Forall2 grouped gs mss -> Forall tables_typed (concat mss) -> Forall target_kept (concat mss) ->
  pending inputs (concat mss) -> NoDup (map name_of (concat mss)) ->
  decode_graphs inputs (map snd gs) = Ok (concat mss, []).
Proof.
  intros Hg. revert inputs. induction Hg as [|[p g] ms gs mss Hg Hf IH]; intros inputs Hb Ht Hp Hd.
  { cbn. destruct inputs as [|e inputs]; [done|]. exfalso. apply (not_elem_of_nil (e.1)), (pe_only _ _ Hp). by left. }
  cbn [concat map snd] in *. apply Forall_app in Hb as [Hb1 Hb], Ht as [Ht1 Ht]. destruct Hg as [Hn Et Hs (E1 & E2 & E3)]. cbn in Et, Hs, E1, E2, E3.
  destruct ms as [|m ms]; [done|]. cbn [decode_graphs]. rewrite Et. cbn [map].
  pose proof Ht1 as [Htm _]%Forall_cons. pose proof Hb1 as [Hbm _]%Forall_cons. pose proof Hs as [(S1 & S2 & S3) _]%Forall_cons.
  rewrite (parse_name m (kept_named m Htm)). cbn [mbind result_bind].
  destruct (tables_back g m (platform m)) as (t & -> & T1 & T2 & T3); [done|by rewrite E1, S1|by rewrite E2, S2|by rewrite E3, S3|].
  cbn [mbind result_bind]. change (name_of m :: map name_of ms) with (map name_of (m :: ms)).
  destruct (targets_back t (m :: ms) (concat mss) inputs) as (inputs' & -> & Hp'); [done| |done..|].
  { eapply Forall_impl; [exact Hs|]. intros q (Q1 & Q2 & Q3). unfold shares. rewrite T1, T2, T3, <-S1, <-S2, <-S3. done. }
  cbn [mbind result_bind]. rewrite (IH inputs'); [done..|]. rewrite map_app, NoDup_app in Hd. apply Hd.
Qed.
End Lock.

(** ** What the checks give *)

Lemma component_column f v : validate_coordinate_component f v = Ok tt -> column_text v /\ colon ∉ v.
Proof.
  intros Hv%validate_Ok. assert (forall c, c ∈ FORBIDDEN \/ is_graphic c = false -> c ∉ v) as Hf by (intros c; by eapply ok_free).
  split; [split; [by apply Hv|split; apply Hf; by right]|]. apply Hf. left. apply (bool_decide_unpack _). by vm_compute.
Qed.

Lemma reactor_column v : utf8 v = true -> validate_reactor_version v = Ok tt -> column_text v.
Proof.
  unfold validate_reactor_version. intros Hu. case_decide as En; [done|]. destruct (_ <? _); [done|].
  destruct (is_terminal_safe v) eqn:Es; [|done]. intros _. split; [done|by apply terminal_line_free].
Qed.

Lemma coordinate_checked c reactor : utf8 (Gav.version (ArtifactCoord.gav c)) = true -> validate_coordinate c reactor = Ok tt -> coordinate_ok c.
Proof.
  unfold validate_coordinate. rewrite seq_Ok, map_err_Ok, try_each_Ok. intros Hu [Hv Hf].
  assert (column_text (Gav.version (ArtifactCoord.gav c))) as Hver
    by (destruct reactor; [by apply reactor_column|by apply component_column in Hv as [? _]]).
  cbn [app] in Hf. rewrite !Forall_cons in Hf. destruct Hf as (Hg & Ha & He & Hk).
  apply map_err_Ok, component_column in Hg, Ha, He. destruct Hg, Ha, He. constructor; try done.
  destruct (ArtifactCoord.classifier c) as [k|]; [|done]. apply Forall_cons in Hk as [Hk _]. by apply map_err_Ok, component_column in Hk as [? _].
Qed.

Lemma classifier_checked c reactor : validate_coordinate c reactor = Ok tt -> ArtifactCoord.classifier c <> Some [].
Proof.
  unfold validate_coordinate. rewrite seq_Ok, try_each_Ok. intros [_ Hf] E. rewrite E in Hf. cbn [app] in Hf. rewrite !Forall_cons in Hf.
  destruct Hf as (_ & _ & _ & [Hk _]%Forall_cons). by apply map_err_Ok, component_column in Hk as [[? _] _].
Qed.

Lemma module_path_column path : utf8 path = true -> validate_module_path path = Ok tt -> column_text path.
Proof.
  unfold validate_module_path. rewrite ensure_Ok. intros Hu [Hi _]%andb_true_iff. apply negb_true_iff in Hi. rewrite !orb_false_iff in Hi.
  destruct Hi as ((((((He & Hs) & _) & _) & _) & _) & _). apply negb_false_iff in Hs. split; [|by apply terminal_line_free].
  intros ->. done.
Qed.

Record package_typed (k : LockModulePackage) : Prop := {
  pt_version : utf8 (Gav.version (ArtifactCoord.gav (package_coordinate k))) = true;
  pt_workspace : from_option (fun s => utf8 s = true) True (workspace_module k);
  pt_system : from_option (fun s => utf8 s = true) True (system_path k);
  pt_sha256 : from_option (fun h => is_sha256_hex h = true) True (system_sha256 k);
}.

Record module_typed (m : LockModule) : Prop := {
  mo_fits : fits_usize (length (packages m));
  mo_packages : Forall package_typed (packages m);
}.

Lemma package_checked p k : package_typed k -> package_wf p k ->
  validate_coordinate (package_coordinate k) (bool_decide (is_Some (workspace_module k))) = Ok tt ->
  if_some validate_module_path (workspace_module k) = Ok tt -> if_some check_text (system_path k) = Ok tt -> package_ok k.
Proof.
  intros [Hv Hw Hs Hh] Hwf Hc Hm Ht. constructor; [by eapply coordinate_checked| | |done].
  - destruct (workspace_module k) as [path|]; [|done]. by apply module_path_column.
  - destruct (system_path k) as [path|] eqn:Es; [|done]. cbn in *. apply ensure_Ok in Ht. split; [|by apply terminal_line_free].
    intros ->. inversion Hwf as [? ? ? E|? ? ? E ? Hp|? E]; rewrite Es in E; [done| |done]. injection E as <-. by vm_compute in Hp.
Qed.

Section Checked.
Context `{Unicode}.

Lemma module_checked p m : module_typed m -> module_wf p m -> Forall (fun e => validate_support_pom_coord e.1 = Ok tt) (support_poms p) ->
  check_module_fields m = Ok tt -> module_text_ok m.
Proof.
  intros [Hf Hp] [Hd He Hk Hs] Hu Hc. unfold check_module_fields in Hc. rewrite !seq_Ok, !map_err_Ok, try_each_Ok in Hc.
  destruct Hc as (_ & _ & Hg & Ha & Hv & _ & Hq). apply component_column in Hg, Ha. destruct Hg as [[Hg _] Cg], Ha as [[Ha _] Ca]. constructor; try done.
  - unfold validate_reactor_version in Hv. by case_decide.
  - apply Forall_forall. intros k Hin. rewrite Forall_forall in Hp, Hk, Hq. specialize (Hq k Hin). rewrite !seq_Ok in Hq.
    destruct Hq as (H1 & H2 & H3). by apply (package_checked p); auto.
  - eapply Forall_impl; [exact He|]. intros e [H1 H2]. unfold edge_fits, fits_usize in *. lia.
  - eapply Forall_impl; [exact Hs|]. intros c [pin Ec]. apply btree_get_elem in Ec. rewrite Forall_forall in Hu. by apply (Hu (c, pin)).
Qed.
End Checked.

(** ** What the canonical form gives *)

Lemma btree_insert_ascending {V} k (v : V) m : ascending str_cmp (map fst m) -> ascending str_cmp (map fst (btree_insert str_cmp k v m)).
Proof.
  induction m as [|[k2 w] m IH]; intros Hm; [repeat constructor|]. pose proof Hm as [Hm' Hf]%StronglySorted_inv.
  cbn [btree_insert]. destruct (str_cmp k k2) eqn:E.
  - apply cmp_eq in E as ->. done.
  - cbn. constructor; [done|]. constructor; [done|]. eapply Forall_impl; [exact Hf|]. intros a Ha. by eapply cmp_lt_trans.
  - cbn. constructor; [by apply IH|]. apply Forall_forall. intros a (e & -> & [->|He]%(btree_insert_elem str_cmp))%list_elem_of_fmap; cbn.
    + rewrite str_sym, E. done.
    + rewrite Forall_forall in Hf. apply Hf, list_elem_of_fmap. by exists e.
Qed.

Lemma inserted_map {A V} (key : A -> str) (value : A -> V) (P : V -> Prop) l m :
  (forall a, a ∈ l -> P (value a)) -> ascending str_cmp (map fst m) -> Forall (fun e => P e.2) m ->
  let r := foldl (fun m a => btree_insert str_cmp (key a) (value a) m) m l in
  ascending str_cmp (map fst r) /\ Forall (fun e => P e.2) r /\ forall k, k ∈ map fst r -> k ∈ map key l \/ k ∈ map fst m.
Proof.
  cbn zeta. revert m. induction l as [|a l IH]; intros m Hl Hm Hp; [naive_solver|]. cbn [foldl].
  destruct (IH (btree_insert str_cmp (key a) (value a) m)) as (H1 & H2 & H3).
  - intros b Hb. apply Hl. by right.
  - by apply btree_insert_ascending.
  - apply Forall_forall. intros e [->|He]%(btree_insert_elem str_cmp); [apply Hl; left|]. rewrite Forall_forall in Hp. by apply Hp.
  - split_and!; [done..|]. intros k Hk. destruct (H3 k Hk) as [Hin|(e & -> & [->|He]%(btree_insert_elem str_cmp))%list_elem_of_fmap].
    + left. by right.
    + left. by left.
    + right. apply list_elem_of_fmap. by exists e.
Qed.

Section Digests.
Context `{Hashers} `{!HasherLaws}.

Lemma sha256_of_hex pieces : is_sha256_hex (sha256_of pieces) = true.
Proof.
  rewrite sha256_of_concat. unfold of_bytes. cbn [hex]. unfold is_sha256_hex. apply andb_true_iff. split.
  - by rewrite hex_encode_length, finalize_length.
  - pose proof (hex_encode_lower (finalize (update (new_hasher Sha256) (concat pieces)))) as Hf. rewrite forallb_forall in Hf |- *.
    intros c (Hc & El & _)%Hf%lower_hex_facts. rewrite Hc. unfold lower_byte in El. destruct (is_upper c) eqn:Eu; [|done].
    exfalso. revert Eu El. clear. destruct c as [[] [] [] [] [] [] [] []]; by vm_compute.
Qed.
End Digests.

(** ** Locks that can be written *)

(** What the types of the fields say: maps and sets in order, digests in lowercase hex,
    texts in UTF-8, lookups that encode one. *)
Record inputs_typed `{LookupJson} (s : list AmbientInput) : Prop := {
  in_sorted : ascending input_cmp s;
  in_lookups : Forall lookup_typed s;
}.

Record ids_typed (ids : RepoIds) : Prop := {
  it_origins : ascending str_cmp (map fst ids);
  it_ids : Forall (fun e => ascending str_cmp e.2) ids;
  it_utf8 : Forall (fun e => utf8 e.1 = true /\ Forall (fun id => utf8 id = true) e.2) ids;
}.

Record resolution_typed `{LookupJson} (r : LockResolution) : Prop := {
  rt_inputs : inputs_typed (resolution_inputs r);
  rt_options : ascending str_cmp (command_line r);
}.

Record model_typed `{LookupJson} (i : ModelInputs) : Prop := {
  mt_hashes : ascending str_cmp (map fst (pom_hashes i));
  mt_sha256 : Forall (fun e => is_sha256_hex e.2 = true) (pom_hashes i);
  mt_reads : ascending str_cmp (map fst (module_ambient_inputs i));
  mt_read_sets : Forall (fun e => inputs_typed e.2) (module_ambient_inputs i);
  mt_ambient : inputs_typed (ambient_inputs i);
}.

Record platform_typed `{LookupJson} (p : LockPlatform) : Prop := {
  pr_platform : platform_valid (platform p);
  pr_artifacts : Forall artifact_typed (artifacts p);
  pr_modules : Forall module_typed (modules p);
  pr_support : ascending str_cmp (map fst (support_poms p));
  pr_pins : Forall support_typed (support_poms p);
  pr_ids : from_option ids_typed True (platform_repo_ids p);
  pr_host : from_option inputs_typed True (platform_host_inputs p);
  pr_model : from_option model_typed True (model_inputs p);
}.

Record lock_typed `{LookupJson} (l : Lockfile) : Prop := {
  lt_resolution : resolution_typed (resolution l);
  lt_ids : ids_typed (repo_ids l);
  lt_platforms : Forall platform_typed (platforms l);
}.

(** What only the reader of a lock tests, and [canonical] does not. *)
Definition ids_readable (ids : RepoIds) : Prop := Forall (fun e => e.2 <> []) ids.

(** Inputs in the rules of their kind, none with both outcomes, and options that are
    names of a [-D] or a [-P]. *)
Record resolution_readable `{LookupJson} (r : LockResolution) : Prop := {
  rr_ok : Forall (fun a => input_ok a = true) (resolution_inputs r);
  rr_outcomes : forall a b, a ∈ resolution_inputs r -> b ∈ resolution_inputs r -> opposite a <> Some b;
  rr_names : Forall (fun o => is_command_line_name o = true) (command_line r);
}.

(** Reads that are names, of modules with a POM, and none both of a module and of the
    whole target. *)
Record model_readable `{LookupJson} (paths : list str) (i : ModelInputs) : Prop := {
  mr_graph_keys : forall k, k ∈ map fst (graphs i) -> k ∈ map fst (pom_hashes i);
  mr_read_keys : forall k, k ∈ map fst (module_ambient_inputs i) -> k ∈ map fst (pom_hashes i) /\ k ∈ paths;
  mr_read_sets : Forall (fun e => Forall (fun a => input_ok a = true /\ is_property_name a = true) e.2) (module_ambient_inputs i);
  mr_ambient : Forall (fun a => input_ok a = true /\ is_property_name a = true) (ambient_inputs i);
  mr_apart : forall e a, e ∈ module_ambient_inputs i -> a ∈ e.2 -> a ∉ ambient_inputs i;
}.

Record platform_readable `{LookupJson} (p : LockPlatform) : Prop := {
  pd_ids : from_option ids_readable True (platform_repo_ids p);
  pd_host : from_option (Forall (fun a => input_ok a = true)) True (platform_host_inputs p);
  pd_model : from_option (model_readable (map module_path (modules p))) True (model_inputs p);
}.

Record lock_readable `{LookupJson} (l : Lockfile) : Prop := {
  ld_resolution : resolution_readable (resolution l);
  ld_ids : ids_readable (repo_ids l);
  ld_platforms : Forall platform_readable (platforms l);
}.

Lemma ids_both ids : ids_typed ids -> ids_readable ids -> ids_kept ids.
Proof. intros [H1 H2 H3] Hr. constructor; [done|by apply Forall_and|done]. Qed.

Lemma canonical_artifact_back a :
  let c := canonicalize_artifact a in
  artifact_typed c -> artifact_wf c -> validate_coordinate (coordinate c) false = Ok tt -> decode_artifact (encode_artifact c) = Ok c.
Proof.
  cbn zeta. intros Ht Hw Hc. apply artifact_back; [done|apply Hw|by eapply classifier_checked|..]; cbn [canonicalize_artifact other_repo_urls repo_url pom_repo_urls].
  - by apply sort_dedup_strict.
  - rewrite sort_dedup_elem by apply _. intros [_ Hb]%list_elem_of_In%filter_In. by rewrite bool_decide_eq_true_2 in Hb.
  - case_bool_decide; [done|by apply sort_dedup_strict].
Qed.

Section Written.
Context `{LookupJson} `{UrlCrate} `{Unicode} `{Hashers} `{!HasherLaws}.

Lemma canonical_tables l p : let c := canonical_platform l p in
  platform_typed c -> platform_wf c -> check_platform_fields c = Ok tt -> tables_typed c.
Proof.
  cbn zeta. intros [_ Ha Hm Hs Hp _ _ _] Hw Hc. unfold check_platform_fields in Hc. rewrite !seq_Ok, !try_each_Ok in Hc.
  destruct Hc as (_ & _ & Hca & Hcs & Hcm). destruct (canonical_modules l p) as (_ & Ea & _).
  constructor; [| |done..].
  - apply Forall_forall. intros a Hin. pose proof Hin as Hin'. rewrite Ea in Hin'. unfold canonicalize_platform in Hin'. cbn [artifacts] in Hin'.
    apply list_elem_of_fmap in Hin' as (b & -> & _). pose proof (pw_artifacts _ Hw) as Hwa. rewrite Forall_forall in Ha, Hwa, Hca.
    apply canonical_artifact_back; [by apply Ha|by apply Hwa|]. specialize (Hca _ Hin). by apply seq_Ok in Hca as [? _].
  - apply Forall_forall. intros m Hin. pose proof (pw_module _ Hw) as Hwm. rewrite Forall_forall in Hm, Hwm, Hcm.
    apply (module_checked (canonical_platform l p)); [by apply Hm|by apply Hwm| |by apply Hcm].
    eapply Forall_impl; [exact Hcs|]. intros e He. unfold check_support_fields in He. by apply seq_Ok in He as [?%map_err_Ok _].
Qed.

(** What [canonical] computes of the inputs of a platform. *)
Lemma canonical_inputs l p i : model_inputs (canonical_platform l p) = Some i ->
  model_hash (canonical_platform l p) = model_records_hash (profiles i) (pom_hashes i) /\
  Forall (fun e => e.2 <> []) (module_ambient_inputs i) /\
  ascending str_cmp (map fst (graphs i)) /\ Forall (fun e => is_sha256_hex e.2 = true) (graphs i) /\
  forall k, k ∈ map fst (graphs i) -> k ∈ map module_path (modules (canonical_platform l p)).
Proof.
  unfold canonical_platform. destruct (model_inputs p) as [j|]; [|done]. cbn [model_inputs]. intros [= <-].
  cbn [model_hash profiles pom_hashes module_ambient_inputs graphs modules]. split; [done|]. split.
  - apply Forall_forall. intros e [_ He]%list_elem_of_In%filter_In. apply negb_true_iff, bool_decide_eq_false in He. done.
  - unfold graph_digests. cbn [modules].
    match goal with |- context [foldl (fun m e => btree_insert str_cmp (module_path e) (@?f e) m) [] ?ms] =>
      destruct (inserted_map module_path f (fun h => is_sha256_hex h = true) ms []) as (G1 & G2 & G3) end.
    + intros m _. apply sha256_of_hex.
    + constructor.
    + constructor.
    + split_and!; [done..|]. intros k Hk. by destruct (G3 k Hk) as [?|?%not_elem_of_nil].
Qed.

Lemma jdk_checked p : check_platform_fields p = Ok tt -> from_option (fun jdk => is_valid_jdk jdk = true) True (Platform.jdk (platform p)).
Proof.
  intros Hc. unfold check_platform_fields in Hc. apply seq_Ok in Hc as [Hj _]. destruct (Platform.jdk _) as [jdk|]; [|done].
  by apply ensure_Ok in Hj.
Qed.

Lemma canonical_target l p : let c := canonical_platform l p in
  platform_typed c -> platform_readable c -> check_platform_fields c = Ok tt -> target_kept c.
Proof.
  cbn zeta. intros [Hv _ _ _ _ Hi Hh Hm] [Ri Rh Rm] Hc. constructor; [done| | | |].
  - by apply jdk_checked.
  - destruct (platform_repo_ids _); [by apply ids_both|done].
  - destruct (platform_host_inputs _); [by split; [apply Hh|]|done].
  - destruct (model_inputs _) as [i|] eqn:Ei; [|done]. destruct (canonical_inputs l p i Ei) as (E & Hn & Hg & Hs & Hk).
    cbn in Hm, Rm |- *. split; [|done]. destruct Hm as [M1 M2 M3 M4 M5], Rm as [R1 R2 R3 R4 R5]. constructor; try done.
    + apply Forall_forall. intros e He. rewrite Forall_forall in M4, R3, Hn. split; [|by apply Hn].
      split; [by apply M4|by apply R3].
    + by split; [apply M5|].
Qed.

(** The ids of a target are ids of the lock, which can be written. *)
Lemma inputs_written l p : check_target_reads l p = Ok tt -> Forall line_recordable (repo_id_lines (repo_ids l)) ->
  exists raw, encode_inputs p = Ok raw.
Proof.
  unfold check_target_reads. rewrite seq_Ok, try_each_Ok. intros [Hc _] Hl. unfold encode_inputs.
  destruct (platform_repo_ids p) as [ids|]; [|by eexists]. cbn in Hc |- *.
  assert (Forall line_recordable (repo_id_lines ids)) as Hi; [|by rewrite (proj2 (encode_ids_Ok ids _) (conj Hi eq_refl)); eexists].
  apply Forall_forall. intros [o id] Hin. rewrite Forall_forall in Hc, Hl. specialize (Hc _ Hin). cbn in Hc. apply ensure_Ok in Hc.
  destruct (btree_get o (repo_ids l)) as [names|] eqn:Eg; [|done]. cbn in Hc. apply bool_decide_eq_true in Hc. apply btree_get_elem in Eg.
  apply Hl, concat_elem. exists (map (pair o) names). split; apply list_elem_of_fmap; [by exists id|by exists (o, names)].
Qed.

Lemma name_of_inj ps : Forall named ps -> NoDup (map platform ps) -> NoDup (map name_of ps).
Proof.
  intros Ht Hd. apply (NoDup_fmap_1 parse_target). rewrite <-list_fmap_compose.
  assert (parse_target ∘ name_of <$> ps = Ok <$> (platform <$> ps)) as ->; [|by apply NoDup_fmap_2; [intros ? ? [= ->]|]].
  rewrite <-list_fmap_compose. apply list_fmap_ext. intros i p Hp. rewrite Forall_forall in Ht. apply parse_name, Ht. by eapply list_elem_of_lookup_2.
Qed.

(** The platforms of a canonical lock, listed in any order, sort to it. *)
Lemma canonical_sorted l ps : Forall (fun p => platform_valid (platform p)) ps -> NoDup (map platform ps) ->
  ps ≡ₚ platforms (canonical_form l) -> sort_platforms ps = platforms (canonical_form l).
Proof.
  intros Hv Hd Hp. unfold sort_platforms. rewrite (sort_by_unique (fun p => Platform.display (platform p)) str_cmp _ _ Hp).
  - unfold canonical_form, sort_platforms. cbn [platforms].
    rewrite (sort_by_map (canonical_platform l) (fun p => Platform.display (platform p)) (fun p => Platform.display (platform p)) str_cmp)
      by (intros p; f_equal; apply canonical_modules).
    apply (sort_by_id (fun p => Platform.display (platform p)) str_cmp), sort_by_sorted; apply _.
  - intros x y Hx Hy E. rewrite Forall_forall in Hv. apply display_inj in E; [|by apply Hv..]. by apply (NoDup_map_inj platform ps).
Qed.

(** What the checks of a canonical lock give of its parts. *)
Record written (c : Lockfile) : Prop := {
  wr_tables : Forall tables_typed (platforms c);
  wr_named : Forall named (platforms c);
  wr_names : NoDup (map platform (platforms c));
  wr_ids : Forall line_recordable (repo_id_lines (repo_ids c));
  wr_reads : Forall (fun p => check_target_reads c p = Ok tt) (platforms c);
  wr_targets : Forall (fun p => platform_readable p -> target_kept p) (platforms c);
}.

Lemma canonical_written l c : canonical l = Ok c -> lock_typed c -> written c.
Proof.
  intros [-> Hc]%canonical_Ok [_ _ Hp]. pose proof (check_lock_wf _ Hc) as Hw. unfold check_lock, check_lock_fields in Hc.
  rewrite !seq_Ok, try_each_Ok in Hc. destruct Hc as ((_ & Hf) & _ & Hv). unfold validate in Hv.
  rewrite !seq_Ok, map_err_Ok, refuse_Ok, first_repeat_None, try_each_Ok in Hv. destruct Hv as (Hi & [Hd _] & _ & _ & Hr & _).
  assert (forall p, p ∈ platforms (canonical_form l) -> exists q, p = canonical_platform l q) as Hq
    by (intros p (q & -> & _)%list_elem_of_fmap; by exists q).
  rewrite Forall_forall in Hp, Hw, Hf. constructor; [apply Forall_forall..|done| | |apply Forall_forall].
  - intros p Hin. destruct (Hq p Hin) as [q ->]. by apply canonical_tables; auto.
  - intros p Hin. split; [by apply Hp|]. by apply jdk_checked, Hf.
  - unfold check_repo_ids in Hi. apply bind_Ok in Hi as (text & Ht & _). by apply encode_ids_Ok in Ht as [? _].
  - eapply Forall_impl; [exact Hr|]. intros p. cbn. rewrite seq_Ok. naive_solver.
  - intros p Hin Hread. destruct (Hq p Hin) as [q ->]. by apply canonical_target; auto.
Qed.

Lemma encode_written c : written c -> exists raw inputs, encode_lock c = Ok raw /\
  raw_inputs raw = inputs /\ Forall2 (fun p raw => encode_inputs p = Ok raw) (platforms c) inputs /\
  schema_version raw = LOCKFILE_SCHEMA_VERSION /\ raw_config_hash raw = config_hash c /\
  raw_resolution raw = encode_resolution (resolution c) /\ raw_platforms raw = map snd (encode_graphs (platforms c)) /\
  (ids_kept (repo_ids c) -> decode_repo_id_lines (default [] (metadata raw ≫= metadata_repo_ids)) = Ok (repo_ids c)).
Proof.
  intros [_ _ _ Hi Hr _]. unfold encode_lock.
  assert (exists inputs, Forall2 (fun p raw => encode_inputs p = Ok raw) (platforms c) inputs) as [inputs Hf].
  { induction Hr as [|p ps Hp Hr [inputs IH]]; [by exists []|]. destruct (inputs_written c p Hp Hi) as [raw E].
    exists (raw :: inputs). by constructor. }
  rewrite (proj2 (try_map_Ok _ _ _) Hf). case_bool_decide as E.
  - do 2 eexists. cbn. split_and!; try done. by rewrite E.
  - pose proof (proj2 (encode_ids_Ok (repo_ids c) _) (conj Hi eq_refl)) as Ht. rewrite Ht. do 2 eexists. cbn. split_and!; try done.
    intros Hd. by apply ids_back.
Qed.

(** ** What a lock that reads back satisfies *)

Lemma texts_ascending l : ascending input_cmp l -> ascending str_cmp (map input_text l).
Proof.
  induction 1 as [|a l Hl IH Ha]; [constructor|]. cbn. constructor; [done|]. apply Forall_fmap.
  eapply Forall_impl; [exact Ha|]. intros b Hb. unfold compose in *. cbv beta. by rewrite <-input_cmp_text.
Qed.

Lemma texts_before (pre : list AmbientInput) a l : ascending str_cmp (map input_text (pre ++ a :: l)) ->
  Forall (fun b => input_cmp b a = Lt) pre.
Proof.
  rewrite map_app. cbn [map]. intros Hs%ascending_app. apply Forall_fmap in Hs. eapply Forall_impl; [exact Hs|].
  intros b Hb. unfold compose in *. cbv beta. by rewrite input_cmp_text.
Qed.

(** What is read of the texts takes the places of the inputs. *)
Lemma names_inv only pre l r : ascending str_cmp (map input_text (pre ++ l)) -> Forall lookup_typed l ->
  decode_names only pre (map input_text l) = Ok r ->
  exists l', r = pre ++ l' /\
    Forall2 (fun a b => read_input (input_text a) = Ok b /\ (only = true -> is_property_name b = true)) l l'.
Proof.
  revert pre. induction l as [|a l IH]; intros pre Hs Hl; cbn [map decode_names].
  { intros [= <-]. exists []. by rewrite app_nil_r. }
  apply Forall_cons in Hl as [Ha Hl]. intros (b & Eb%map_err_Ok & E)%bind_Ok.
  pose proof (read_same_text a b Ha Eb) as Et. destruct (only && negb (is_property_name b)) eqn:Eo; [done|].
  assert (ascending str_cmp (map input_text (pre ++ b :: l))) as Hs' by (rewrite map_app in *; cbn in *; by rewrite Et).
  rewrite (set_insert_last input_cmp input_sym) in E by by eapply texts_before. cbn [negb] in E.
  apply IH in E as (l' & -> & Hf); [|by rewrite <-app_assoc|done]. exists (b :: l'). rewrite <-app_assoc. split; [done|].
  constructor; [|done]. split; [done|]. intros ->. cbn in Eo. by destruct (is_property_name b).
Qed.

Lemma Forall2_self {A} (R : A -> A -> Prop) l : Forall2 R l l -> Forall (fun a => R a a) l.
Proof. induction l as [|a l IH]; [constructor|]. intros [Ha Hl]%Forall2_cons. constructor; [done|by apply IH]. Qed.

Lemma names_readable only s : inputs_typed s -> decode_names only [] (map input_text s) = Ok s ->
  Forall (fun a => input_ok a = true /\ (only = true -> is_property_name a = true)) s.
Proof.
  intros [Hs Hl] E. apply names_inv in E as (l' & El & Hf); [|by apply texts_ascending|done]. cbn in El. subst l'.
  eapply Forall_impl; [by apply Forall2_self|]. cbn. intros a [Ha Hn]. by rewrite <-input_reads.
Qed.

Lemma reads_readable s : inputs_typed s -> decode_read_names (map input_text s) = Ok s ->
  Forall (fun a => input_ok a = true /\ is_property_name a = true) s.
Proof.
  intros Hs. unfold decode_read_names. case_bool_decide; [done|]. intros Hf%names_readable; [|done].
  eapply Forall_impl; [exact Hf|]. naive_solver.
Qed.

Lemma ambient_names pre l r : decode_ambient pre l = Ok r -> decode_names false pre l = Ok r.
Proof.
  revert pre. induction l as [|name l IH]; intros pre; [done|]. cbn [decode_ambient decode_names].
  destruct (map_err BadInput (read_input name)) as [b|]; [|done]. cbn.
  destruct (is_some_and _ _); [done|]. destruct (set_insert input_cmp b pre) as [[] s']; cbn; [apply IH|done].
Qed.

Lemma opposite_sym a b : opposite a = Some b -> opposite b = Some a /\ a <> b.
Proof. destruct a as [| | | | | | |c []]; cbn; intros [= <-]; done. Qed.

Lemma outcomes_readable pre l r : ascending input_cmp (pre ++ l) -> Forall (fun a => input_ok a = true) l ->
  decode_ambient pre (map input_text l) = Ok r -> (forall a b, a ∈ pre -> b ∈ pre -> opposite a <> Some b) ->
  forall a b, a ∈ pre ++ l -> b ∈ pre ++ l -> opposite a <> Some b.
Proof.
  revert pre. induction l as [|x l IH]; intros pre Hs Hl; cbn [map decode_ambient]; [by rewrite app_nil_r|].
  apply Forall_cons in Hl as [Hx Hl]. rewrite (proj2 (input_reads x) Hx). cbn [map_err mbind result_bind].
  destruct (is_some_and _ (opposite x)) eqn:Eo; [done|].
  rewrite (set_insert_last input_cmp input_sym) by by eapply ascending_app. cbn [negb]. intros E Hp.
  assert (forall b, b ∈ pre -> opposite x <> Some b) as Hxb.
  { intros b Hb Ex. rewrite Ex in Eo. cbn in Eo. by apply bool_decide_eq_false in Eo. }
  change (x :: l) with ([x] ++ l). rewrite app_assoc. eapply IH; [by rewrite <-app_assoc|done|exact E|].
  intros a b [Ha|Ha%list_elem_of_singleton]%elem_of_app [Hb|Hb%list_elem_of_singleton]%elem_of_app; subst.
  - by apply Hp.
  - intros [Ex _]%opposite_sym. by apply (Hxb a).
  - by apply Hxb.
  - by intros [_ ?]%opposite_sym.
Qed.

Lemma options_readable pre l r : decode_options pre l = Ok r -> Forall (fun o => is_command_line_name o = true) l.
Proof.
  revert pre. induction l as [|o l IH]; intros pre; cbn [decode_options]; [constructor|].
  destruct (is_command_line_name o) eqn:Eo; [|done]. cbn [negb]. destruct (set_insert _ _ _) as [[] s']; [|done].
  cbn. intros E. constructor; [done|by eapply IH].
Qed.

Lemma resolution_inv r o : resolution_typed r -> transpose (decode_resolution <$> encode_resolution r) = Ok o ->
  default {| resolution_inputs := []; command_line := [] |} o = r -> resolution_readable r.
Proof.
  intros [Ht Hc]. unfold encode_resolution. case_bool_decide as E; [subst; intros _ _; by constructor; [constructor|set_solver|constructor]|].
  cbn. unfold decode_resolution. cbn [rr_ambient_inputs rr_command_line]. destruct (_ && _); [done|].
  destruct (decode_ambient _ _) as [inputs|] eqn:Ea; [|done]. cbn.
  destruct (decode_options _ _) as [options|] eqn:Eo; [|done]. cbn. intros [= <-]. cbn. destruct r as [i c]. cbn in *. intros [= -> ->].
  assert (Forall (fun a => input_ok a = true) i) as Hok.
  { eapply Forall_impl; [apply (names_readable false); [exact Ht|by apply ambient_names]|by intros a [? _]]. }
  constructor; [done| |by eapply options_readable]. cbn. eapply (outcomes_readable []); [apply Ht|done..|set_solver].
Qed.

Lemma set_insert_some {K} (cmp : K -> K -> comparison) k s : (set_insert cmp k s).2 <> [].
Proof. destruct s as [|a s]; [done|]. cbn. destruct (cmp k a); [done..|]. by destruct (set_insert cmp k s). Qed.

Lemma ids_inv text ids : decode_repo_id_lines text = Ok ids -> ids_readable ids.
Proof.
  unfold decode_repo_id_lines. destruct (is_empty text); [intros [= <-]; constructor|].
  generalize (split newline text) as lines. intros lines. cut (ids_readable []); [|constructor]. generalize (@nil (str * list str)) as m.
  induction lines as [|line lines IH]; intros m Hm; cbn [decode_ids]; [by intros [= <-]|].
  intros ([o id] & _ & E)%bind_Ok. destruct (_ || _); [done|].
  destruct (set_insert str_cmp id _) as [new s] eqn:Es. destruct new; [|done]. cbn [negb] in E. revert E. apply IH.
  apply Forall_forall. intros e [->|He]%(btree_insert_elem str_cmp).
  - cbn. change s with ((true, s).2). rewrite <-Es. apply set_insert_some.
  - by eapply Forall_forall in Hm.
Qed.

Lemma poms_inv paths m poms m' : decode_poms paths m poms = Ok m' ->
  (forall k, k ∈ map fst (pm_graphs m') -> k ∈ map fst (pm_graphs m) \/ k ∈ map rp_path poms) /\
  (forall e, e ∈ pm_reads m' -> e ∈ pm_reads m \/ exists pom names, pom ∈ poms /\ rp_path pom = e.1 /\ e.1 ∈ paths /\
     rp_ambient_inputs pom = Some names /\ decode_read_names names = Ok e.2).
Proof.
  revert m. induction poms as [|pom poms IH]; intros m; cbn [decode_poms]; [intros [= <-]; naive_solver|].
  intros (reads & Er & E)%bind_Ok. apply bind_Ok in E as (digest & _ & E). apply bind_Ok in E as (gs & Eg & E).
  destruct (bool_decide (is_Some (btree_get (rp_path pom) (pm_hashes m)))); [done|]. apply IH in E as [Hg Hr]. cbn [pm_graphs pm_reads] in Hg, Hr. split.
  - intros k Hk. destruct (Hg k Hk) as [Hk'|Hk']; [|right; by right]. destruct (rp_graph pom) as [graph|]; [|simplify_eq; by left].
    apply bind_Ok in Eg as (g & _ & [= <-]). apply list_elem_of_fmap in Hk' as (e & -> & [->|He]%(btree_insert_elem str_cmp)); [right; by left|].
    left. by apply list_elem_of_fmap_2.
  - intros e He. destruct (Hr e He) as [He'|(pom' & names & Hin & Hrest)]; [|right; exists pom', names; split; [by right|done]].
    destruct (rp_ambient_inputs pom) as [names|] eqn:Ea; [|simplify_eq; by left].
    case_bool_decide as Ep; [|done]. cbn [negb] in Er. apply bind_Ok in Er as (s & Es & [= <-]).
    apply (btree_insert_elem str_cmp) in He' as [->|He']; [|by left]. right. exists pom, names. split; [by left|done].
Qed.

Lemma get_of_elem {V} k (v : V) m : ascending str_cmp (map fst m) -> (k, v) ∈ m -> btree_get k m = Some v.
Proof.
  induction m as [|[k' w] m IH]; [by intros _ ?%elem_of_nil|]. intros Hs. rewrite btree_get_cons.
  intros [[= <- <-]|He]%elem_of_cons; [by rewrite bool_decide_eq_true_2|].
  rewrite bool_decide_eq_false_2; [apply IH; [by apply StronglySorted_inv in Hs as [? _]|done]|].
  intros ->. apply (list_elem_of_fmap_2 fst) in He. pose proof (later_keys _ _ _ _ Hs He) as E. by rewrite cmp_refl in E.
Qed.

Lemma model_inv p raw : encode_inputs p = Ok raw -> from_option model_typed True (model_inputs p) ->
  decode_model (map module_path (modules p)) raw = Ok (model_hash p, model_inputs p) ->
  from_option (model_readable (map module_path (modules p))) True (model_inputs p).
Proof.
  intros (ids & _ & [= <-])%bind_Ok. unfold decode_model. cbn [raw_profiles raw_poms raw_model_hash raw_ambient_inputs].
  destruct (model_inputs p) as [i|]; cbn [fmap option_fmap option_map mbind option_bind from_option]; [|done].
  intros [_ _ M3 M4 M5] (m & Em & E)%bind_Ok. apply bind_Ok in E as (ambient & Ea & E).
  destruct (List.find _ _) eqn:Ef; [done|]. injection E as _ E. apply poms_inv in Em as [Hg Hr].
  assert (pm_hashes m = pom_hashes i /\ pm_graphs m = graphs i /\ default [] ambient = ambient_inputs i /\
    pm_reads m = module_ambient_inputs i) as (_ & Eg & Eamb & Er) by by rewrite <-E.
  rewrite Eg in Hg. rewrite Er in Hr, Ef. rewrite Eamb in Ef. clear E Eg Er.
  assert (map rp_path (map (encode_pom i) (pom_hashes i)) = map fst (pom_hashes i)) as Ep by (rewrite map_map; by apply map_ext).
  rewrite Ep in Hg. cbn [no_poms pm_graphs pm_reads map] in Hg, Hr.
  assert (forall e, e ∈ module_ambient_inputs i -> e.1 ∈ map fst (pom_hashes i) /\ e.1 ∈ map module_path (modules p) /\
    decode_read_names (map input_text e.2) = Ok e.2) as Hread.
  { intros [k s] He. destruct (Hr _ He) as [?%elem_of_nil|(pom & names & Hin & Hk & Hp & En & Ed)]; [done|]. cbn in *.
    apply list_elem_of_fmap in Hin as ([k' h] & -> & Hin). cbn in Hk, En. subst k'. rewrite (get_of_elem k s) in En by done.
    cbn in En. unfold read_name_texts in En. case_bool_decide; simplify_eq. split_and!; [by apply (list_elem_of_fmap_2 fst _ (k, h))|done..]. }
  constructor.
  - intros k Hk. by destruct (Hg k Hk) as [?%elem_of_nil|].
  - intros k (e & -> & He)%list_elem_of_fmap. destruct (Hread e He) as (? & ? & _). done.
  - apply Forall_forall. intros e He. destruct (Hread e He) as (_ & _ & Ed). apply reads_readable; [|done].
    by eapply Forall_forall in M4.
  - unfold read_name_texts in Ea. case_bool_decide as Ee; [rewrite Ee; constructor|]. cbn in Ea.
    destruct (decode_read_names _) as [s|] eqn:Es; [|done]. cbn in Ea. injection Ea as <-. cbn in Eamb. subst s. by apply reads_readable.
  - intros e a He Ha Hin. pose proof (find_none _ _ Ef a) as Hn. cbn in Hn. rewrite bool_decide_eq_true_2 in Hn by done.
    assert (true = false); [|done]. apply Hn. apply list_elem_of_In, concat_elem. exists e.2. split; [done|by apply list_elem_of_fmap_2].
Qed.

Lemma target_inv p tables raw : platform_typed p -> encode_inputs p = Ok raw -> decode_target tables (name_of p) raw = Ok p ->
  platform_readable p.
Proof.
  intros Ht Er E. unfold decode_target in E. apply bind_Ok in E as (at_platform & _ & E). apply bind_Ok in E as (ids & Ei%map_err_Ok & E).
  apply bind_Ok in E as (host & Eh & E). apply bind_Ok in E as ([hash inputs] & Em & [= E]).
  assert (modules tables = modules p /\ hash = model_hash p /\ inputs = model_inputs p /\ ids = platform_repo_ids p /\ host = platform_host_inputs p)
    as (E1 & -> & -> & -> & ->) by by rewrite <-E.
  rewrite E1 in Em. constructor.
  - destruct (raw_repo_ids raw) as [text|]; cbn in Ei; [|by simplify_eq; rewrite <-Ei].
    destruct (decode_repo_id_lines text) as [m|] eqn:Ed; [|done]. cbn in Ei. injection Ei as <-. by eapply ids_inv.
  - pose proof (pr_host _ Ht) as Hh. apply bind_Ok in Er as (? & _ & [= <-]). cbn [raw_host_inputs] in Eh.
    destruct (platform_host_inputs p) as [s|]; [|done]. cbn in Eh, Hh |- *. destruct (decode_host_inputs _) as [s'|] eqn:Ed; [|done].
    injection Eh as ->. eapply Forall_impl; [by apply (names_readable false)|]. by intros a [? _].
  - eapply model_inv; [done|apply Ht|done].
Qed.

(** ** The targets of a lock that is read *)

Lemma targets_inv tables inputs names ps rest : decode_targets tables inputs names = Ok (ps, rest) ->
  (forall p, p ∈ ps -> exists name raw, (name, raw) ∈ inputs /\ decode_target tables name raw = Ok p) /\ rest ⊆ inputs.
Proof.
  revert inputs ps. induction names as [|name names IH]; intros inputs ps; cbn [decode_targets].
  { intros [= <- <-]. split; [by intros p ?%elem_of_nil|done]. }
  intros (raw & Eg & E)%bind_Ok. apply bind_Ok in E as (p & Ep & E). apply bind_Ok in E as ([ps' rest'] & E & [= <- <-]).
  apply IH in E as [Hp Hs]. assert (btree_remove name inputs ⊆ inputs) as Hr.
  { intros e He. unfold btree_remove in He. apply list_elem_of_In, filter_In in He as [He _]. by apply list_elem_of_In. }
  split; [|set_solver]. intros q [->|Hq]%elem_of_cons.
  - exists name, raw. split; [|done]. destruct (btree_get name inputs) as [r|] eqn:Eb; [|done]. cbn in Eg. injection Eg as ->.
    by apply btree_get_elem.
  - destruct (Hp q Hq) as (n & r & Hin & Hd). exists n, r. split; [by apply Hr|done].
Qed.

Lemma graphs_inv inputs gs ps rest : decode_graphs inputs gs = Ok (ps, rest) ->
  forall p, p ∈ ps -> exists tables name raw, (name, raw) ∈ inputs /\ decode_target tables name raw = Ok p.
Proof.
  revert inputs ps. induction gs as [|g gs IH]; intros inputs ps; cbn [decode_graphs]; [intros [= <- <-]; by intros p ?%elem_of_nil|].
  destruct (targets g) as [|first names]; [done|]. intros (pf & _ & E)%bind_Ok. apply bind_Ok in E as (tables & _ & E).
  apply bind_Ok in E as ([ps1 rest1] & E1 & E). apply bind_Ok in E as ([ps2 rest2] & E2 & [= <- <-]).
  apply targets_inv in E1 as [Hone Hs]. specialize (IH _ _ E2). intros p [Hp|Hp]%elem_of_app.
  - exists tables. by apply Hone.
  - destruct (IH p Hp) as (t & n & r & Hin & Hd). exists t, n, r. split; [by apply Hs|done].
Qed.

Lemma collect_inv m raws m' : collect_inputs m raws = Ok m' -> forall e, e ∈ m' -> e ∈ m \/ e.2 ∈ raws /\ e.1 = target e.2.
Proof.
  revert m. induction raws as [|raw raws IH]; intros m; cbn [collect_inputs]; [intros [= <-]; by left|].
  intros (? & _ & E)%bind_Ok. revert E. case_bool_decide; [done|]. intros E e He.
  destruct (IH _ E e He) as [[->|He']%(btree_insert_elem str_cmp)|[Hin Ht]]; [right; cbn; split; [by left|done]|by left|].
  right. split; [by right|done].
Qed.

Lemma decode_readable c raw : written c -> lock_typed c -> encode_lock c = Ok raw -> decode_lock raw = Ok c -> lock_readable c.
Proof.
  intros Hw [Tr Ti Tp] Er Ed. destruct (encode_written c Hw) as (raw' & inputs & Er' & Ei & Hf & _ & _ & Ere & _ & _).
  rewrite Er in Er'. injection Er' as <-. unfold decode_lock in Ed. apply bind_Ok in Ed as (? & _ & Ed).
  apply bind_Ok in Ed as (res & Eres & Ed). apply bind_Ok in Ed as (m & Em & Ed). apply bind_Ok in Ed as ([ps unused] & Eg & Ed).
  apply bind_Ok in Ed as (? & _ & Ed). apply bind_Ok in Ed as (ids & Eids%map_err_Ok & Ed). apply bind_Ok in Ed as (? & _ & [= Ed]).
  assert (resolution c = default {| resolution_inputs := []; command_line := [] |} res /\ platforms c = sort_platforms ps /\ repo_ids c = ids)
    as (E1 & E2 & E3) by by rewrite <-Ed.
  constructor; [|rewrite E3; by eapply ids_inv|].
  - eapply resolution_inv; [done|by rewrite <-Ere|done].
  - apply Forall_forall. intros p Hp. assert (p ∈ ps) as Hps by (rewrite E2 in Hp; unfold sort_platforms in Hp; by rewrite sort_by_perm in Hp).
    destruct (graphs_inv _ _ _ _ Eg p Hps) as (tables & name & rawp & Hin & Hd).
    destruct (collect_inv _ _ _ Em _ Hin) as [?%elem_of_nil|[Hraw Hname]]; [done|]. cbn in Hraw, Hname. rewrite Ei in Hraw.
    apply list_elem_of_lookup_1 in Hraw as [n Hn]. destruct (Forall2_lookup_r _ _ _ _ _ Hf Hn) as (q & Hq & Eq). apply list_elem_of_lookup_2 in Hq.
    assert (name = name_of q) as -> by (rewrite Hname; by apply bind_Ok in Eq as (? & _ & [= <-])).
    assert (p = q) as ->.
    { apply (NoDup_map_inj platform (platforms c)); [apply Hw|done..|].
      pose proof (wr_named _ Hw) as Hnm. rewrite Forall_forall in Hnm. unfold decode_target in Hd. rewrite (parse_name q) in Hd by by apply Hnm.
      cbn [mbind result_bind] in Hd. apply bind_Ok in Hd as (? & _ & Hd). apply bind_Ok in Hd as (? & _ & Hd).
      apply bind_Ok in Hd as ([? ?] & _ & [= <-]). done. }
    eapply target_inv; [by eapply Forall_forall in Tp|done..].
Qed.

Lemma decode_written l c raw : canonical l = Ok c -> lock_typed c -> lock_readable c -> encode_lock c = Ok raw -> decode_lock raw = Ok c.
Proof.
  intros Hl Ht [Rr Ri Rp] Er. pose proof (canonical_written l c Hl Ht) as Hw. pose proof Hl as [Ec Hk]%canonical_Ok. destruct Ht as [Hres Hids Hps].
  destruct (encode_written c Hw) as (raw' & inputs & Er' & Ei & Hf & Es & Eh & Ere & Ep & Em). rewrite Er in Er'. injection Er' as <-.
  destruct Hw as [Htab Hnam Hn _ _ Htar]. destruct (encode_graphs_grouped (platforms c)) as (mss & Hm & Pm).
  assert (Forall target_kept (platforms c)) as Hg.
  { apply Forall_forall. intros p Hp. rewrite Forall_forall in Htar, Rp. by apply Htar, Rp. }
  pose proof (name_of_inj _ Hnam Hn) as Hd.
  destruct (collect_back (platforms c) inputs Hf Hg [] []) as (m & Ec' & Pe); [split; [set_solver|set_solver]|done|]. cbn [app] in Pe.
  unfold decode_lock. rewrite Es, Eh, Ere, Ei, Ep, Ec'. unfold check_schema_version. rewrite bool_decide_eq_true_2 by done. cbn [mbind result_bind].
  assert (resolution_kept (resolution c)) as Hrk by (destruct Hres as [[? ?] ?], Rr; by constructor).
  pose proof (resolution_back _ Hrk) as Eres. destruct (transpose _) as [res|]; [|done]. cbn in Eres. injection Eres as Eres. cbn [mbind result_bind].
  rewrite (graphs_back _ mss); [|done|by rewrite Pm..| |by rewrite Pm].
  - cbn [mbind result_bind]. rewrite (Em (ids_both _ Hids Ri)). cbn [map_err mbind result_bind]. rewrite Eres.
    rewrite (canonical_sorted l); [| |by rewrite Pm|by rewrite Pm, Ec].
    + rewrite <-Ec. destruct c as [h r ps ids]. cbn in *. by rewrite Hk.
    + rewrite Pm. eapply Forall_impl; [exact Hps|]. intros p Hp. apply Hp.
  - split; [intros p; rewrite Pm; apply Pe|]. intros e He. rewrite Pm. by apply Pe.
Qed.

End Written.

(** ** A lock of two platforms with one graph *)

Definition plain_lookups : LookupJson := {| Lookup := str; parse_lookup := Some; encode_lookup := id |}.

Definition codec_inputs : ModelInputs := {|
  profiles := [$"ci"]; pom_hashes := [($"pom.xml", repeat "b"%char 64)]; graphs := []; ambient_inputs := [Env $"CI"];
  module_ambient_inputs := [($"pom.xml", [UserProperty $"revision"])] |}.

Definition codec_platform (os : str) (inputs : option ModelInputs) (ids : option RepoIds) (p : LockPlatform) : LockPlatform := {|
  platform := {| Platform.os := os; Platform.arch := $"x86_64"; Platform.jdk := None |};
  model_hash := model_hash p; artifacts := artifacts p; modules := modules p; support_poms := support_poms p;
  model_inputs := inputs; platform_repo_ids := ids; platform_host_inputs := Some [OsRelease] |}.

Definition codec_lock (options : list str) : Lockfile :=
  let base := platforms (drift_lock $"1" $"https://nexus.corp/m2" [$"b"; $"a"] 0 1) in {|
  config_hash := Some $"h";
  resolution := {| resolution_inputs := [Env $"CI"; OsRelease; UserProperty $"revision"]; command_line := options |};
  platforms := map (codec_platform $"windows" None None) base ++ map (codec_platform $"linux" (Some codec_inputs) (Some [($"https://nexus.corp/m2", [$"central"])])) base;
  repo_ids := [($"https://nexus.corp/m2", [$"central"; $"corp"])] |}.


(** An option that is no name of a [-D] or a [-P] is written, and refused on reading. *)
Example bad_option_is_written :
  (c ← @canonical Sample.crate ascii_tables prefix_hashers (codec_lock [$"revision"]);
   match encode_lock c with
   | Ok raw => Ok (@decode_lock plain_lookups prefix_hashers Sample.crate ascii_tables raw)
   | Err e => Ok (Err e)
   end) = Ok (Err (BadOption $"revision")).
Proof. vm_compute. reflexivity. Qed.
